(* ===== verification/_CoqProject ===== *)
-Q . S2P
Prelude.v
Effects.v
Protocol.v
Codec.v
CodecFacts.v
Session.v
SessionInv.v
ResidentInv.v
ResidentRun.v
Link.v
Wire.v
Handshake.v
SessionTheorems.v
CodecTheorems.v
JsString.v
JsText.v
Secrets.v
Credentials.v
ResidentControl.v
TextFacts.v
ResidentStore.v
ResidentStoreTheorems.v
ResidentProgress.v
CredentialStore.v
CredentialStoreTheorems.v
CredentialView.v
RateLimiter.v
ControlApi.v
ControlApiFacts.v
ControlExchange.v
RotationController.v
EnrollmentController.v
ControllerTheorems.v
ControlSystem.v
ControlSafety.v
RotationLive.v
ControlExamples.v
Editor.v
Envelope.v
EnvelopeTheorems.v
Messages.v
WorkerJournal.v
WorkerEpisode.v
WorkerTheorems.v
Mailbox.v
MailboxFacts.v
MailboxTheorems.v
MailboxRequest.v
WorkerFinish.v
MailboxExamples.v
ContextMeter.v
Summarize.v
Compactor.v
CompactorFacts.v
CompactorTheorems.v
Scheduler.v
SchedulerFacts.v
SchedulerTheorems.v
XXHash.v
Registry.v
RegistrySteps.v
RegistryTheorems.v
ConsoleBridge.v
ConsoleBridgeTheorems.v
GatewayLink.v
GatewayLinkSession.v
GatewayLinkTheorems.v
GatewayLinkLive.v
GatewayLinkExamples.v
SelectedViewer.v
BrowserRelay.v
SelectedViewerFacts.v
SelectedViewerTheorems.v
SelectedViewerCleanup.v
SelectedViewerExamples.v
Jslex.v
ContextGraph.v
BranchView.v
Wake.v
LlmBroker.v
