(* ===== verification/Prelude.v ===== *)
(** * Elpis: a verification library

    Elpis runs long-lived conversational agents ("residents").  A resident
    process keeps a conversation, folds its old part into summaries, wakes
    itself through a scheduler, decides which messages of its rooms wake it,
    gives work to worker processes and is reachable through a Gateway: a server
    that accepts one authenticated link per resident and relays operations of
    browsers over it.  This library models the logic of those parts and proves
    what they promise.  Paths below are relative to the repository.

    ** The program and its model

    - [Prelude]: the effect monad [eff S E A] (a method of a mutable object:
      state in, exception or result and state out) with its rewriting rules
      ([autorewrite with eff], [eff_inv], [run_eff]), the sum monad of pure
      fallible code, boolean guards ([guards]) and the hint database [elpis].
      [Effects]: weakest preconditions over that monad ([wp], [wp_run]).

    The Gateway and its links.
    - [Protocol] (packages/gateway-protocol/src/types.ts): constants, frames,
      error codes, JSON values.
    - [Codec] (packages/gateway-protocol/src/codec.ts): every validator, the
      decoder and the serializer.  [Wire] gives the object of a typed frame;
      theorems in [CodecFacts] and [CodecTheorems].
    - [Session] (packages/gateway-protocol/src/session.ts): the two sessions of
      a link, modules [Gateway] and [Resident], all methods.  [SessionInv],
      [ResidentInv], [ResidentRun] and [SessionTheorems] prove what one session
      guarantees whatever its peer does.
    - [Link], [Handshake]: the two sessions joined by an ordered wire; a step
      relation over requests, answers, emissions and deliveries, with a
      simulation invariant between what one side is owed and the other holds,
      established by the handshake.
    - [Registry] (packages/gateway/src/resident-link-registry.ts): admission,
      handshake, sending, receiving, timeouts and removal of links, on a heap of
      link objects, with every call out of the registry allowed to answer
      anything, throw and call back in.  [RegistrySteps] refines each operation
      to sequences of atomic transitions; [RegistryTheorems] argues on those.
    - [SelectedViewer] (packages/gateway/src/selected-viewer-broker.ts): the
      broker that gives one browser the viewer of one resident, its snapshot
      buffer and its media requests; [SelectedViewerFacts] (refinement to micro
      steps), [SelectedViewerTheorems], [SelectedViewerCleanup],
      [SelectedViewerExamples].
    - [BrowserRelay] (packages/gateway/src/browser-relay.ts): the connection of a
      browser, which gives its commands to such a broker and writes what the
      broker reports to the socket, with the end of the connection deferred to a
      microtask.
    - [LlmBroker] (packages/gateway/src/llm-broker.ts, the credentials of
      provider-store.ts and packages/provider-transport/src/oauth.ts): the OAuth
      grants of language-model providers that all dispatches share, their renewal
      and the drain, as tasks that go on in any order.
    - [ConsoleBridge] (src/gateway-console-bridge.ts): the resident's end, which
      turns frames into clients of the local console hub and media reads; its
      promises are tasks that settle in any order.  [ConsoleBridgeTheorems].
    - [GatewayLink] (src/gateway-link.ts): the controller that keeps a
      resident's link alive: attempts, the handshake, the queue of effects,
      timers, backoff, over an environment of store, sockets, clock and listeners
      that may call back.  [GatewayLinkSession] ties it to the resident session;
      [GatewayLinkTheorems], [GatewayLinkLive] (progress and backoff),
      [GatewayLinkExamples].

    Enrollment and credentials.
    - [Credentials] (packages/gateway-protocol/src/credentials.ts): ids, tokens
      and their verifiers.  [ResidentControl] (resident-control.ts): the messages
      of enrollment and rotation, as one class [Message] with six instances;
      [TextFacts] on the sizes of their texts.
    - [ResidentStore] (src/store/gateway-resident.ts, the table of
      src/store/db.ts): the row a resident keeps of its Gateway, with constraints
      and triggers, other processes writing in between.  [ResidentStoreTheorems]
      (what every operation keeps), [ResidentProgress] (when it succeeds, and
      what it then did).
    - [CredentialStore] (packages/gateway/src/credential-store.ts,
      migrations.ts): grants, instances and node credentials of the Gateway.
      [CredentialStoreTheorems] (the invariant), [CredentialView] (the abstract
      machine of credentials the store implements).
    - [RateLimiter], [ControlApi] (packages/gateway/src/resident-control-api.ts,
      the resident routes of http-service.ts), [ControlApiFacts]: the server's
      end of the exchange.
    - [ControlExchange], [RotationController], [EnrollmentController]
      (src/gateway-rotation.ts, gateway-enrollment.ts): the resident's end, as
      machines over events.  [ControllerTheorems].
    - [Secrets] (src/lib/secrets.ts): the registry of secrets and the redaction
      of texts.
    - [ControlSystem]: both ends with a network that loses, repeats and delays,
      and other callers of the Gateway; [ControlSafety] and [RotationLive] prove
      it safe and live, [ControlExamples] runs it.

    The conversation of a resident.
    - [JsString], [JsText]: JavaScript strings as UTF-16 code units, trimming,
      splitting, searching.
    - [Messages], [ContextMeter] (src/llm/llm.ts, density.ts,
      context-tracker.ts, cache-stats.ts), [Summarize] (src/llm/summarize.ts and
      [cap] of src/sandbox/preview.ts), [Compactor] (src/llm/compactor.ts): how
      a conversation is measured, serialized, summarized in the background and
      replaced.  [CompactorFacts], [CompactorTheorems].
    - [Envelope] (src/lib/envelope.ts): the text an inbound message becomes, and
      its readers.  [EnvelopeTheorems].
    - [ContextGraph] (src/context-graph.ts): worlds, view manifests and their
      materialization, the continuation head.
    - [BranchView] (src/context/view.ts, candidate.ts): the request of a branch,
      put together from stored projections.  The graph store is a class, with no
      law assumed of it.
    - [Wake] (src/discord/wake.ts): send policies, wake decisions, quiet hours.
    - [Scheduler] (src/store/scheduler.ts): the task table, its timer and the
      poll loop.  [SchedulerFacts], [SchedulerTheorems].

    Workers.
    - [WorkerJournal] (src/kernel/worker-journal.ts): the append-only file a
      worker is rebuilt from.
    - [WorkerEpisode] (src/kernel/worker-episode.ts, turn.ts): the life of a
      worker, turn by turn, over an environment of model, sandbox, broker, disk
      and crashes; [WorkerTheorems] reasons over any number of lives.
    - [Mailbox] (src/worker/mailbox.ts, session.ts, auth.ts, two tables of
      src/store/db.ts, the statements on them of src/worker/spawn.ts,
      supervisor.ts and workspace.ts): messages between a worker and its
      dispatcher, as SQL statements and transactions on tables other connections
      use too;
      [MailboxFacts], [MailboxTheorems].  [MailboxRequest]
      (src/worker/mailbox-request.ts, [finish] of client.ts) is the request
      surface, whose service the mailbox implements as an instance;
      [WorkerFinish] composes journal, episode, client and mailbox;
      [MailboxExamples] has their concrete runs.

    Tools.
    - [Editor] (src/lib/editor.ts): unique and global replacement, hunks, near
      misses, edit distance.
    - [XXHash] (src/llm/oauth/xxhash.ts): the hash and the reference definition
      of XXH64 it is proved equal to.
    - [Jslex] (src/lib/jslex.ts): the literal blanker of the sandbox.

    ** What the theorems show

    Links.  Two peers that follow the protocol, under the conditions named below,
    cannot kill each other's link ([link_never_rejects],
    [handshake_establishes]); a single session stays
    within its limits, numbers its frames without gaps, answers each request at
    most once and fails for good; what the decoder accepts is well formed and
    nothing well formed is refused.

    Registry and viewers.  One link per instance and a bounded number of them
    under any reentrancy; removed links are inert; frames are bounded; [stop] is
    final.  A browser receives only what belongs to its current selection, and a
    viewer opened for it is closed when the selection ends; its relay sends a
    media result only as the one answer to a request it accepted
    ([relay_answers]) and ends once and completely ([relay_ends_once]).  A grant of
    a provider is renewed once for all that share it, a dispatch presents only
    tokens of its own credential ([grants_renewed_once]), and draining the broker
    ends ([drain_completes]).  On the other side no
    client outlives its viewer in the hub, output follows the result of the
    opening, and a stopped bridge is silent.  The resident's controller writes
    effects in their order, closes every socket it gives up and, when it is
    stopped, every attempt it had attached (a stop from within the socket factory
    apart, [stopped_in_factory]), always has a timer or a socket to wait for until
    it is stopped, and waits within its bounds.

    Enrollment and rotation.  Whatever messages are lost, repeated or delayed and
    whichever transactions fail, a resident always holds a token its Gateway lets
    in, unless the operator revoked it ([never_locked_out]), and a rotation once
    begun can be completed from wherever it stopped ([rotation_completes]).  The
    Gateway's store implements a small machine of credentials and keeps at most
    one active credential per instance; the resident's row follows the protocol,
    token by token, whatever other processes do; the tokens in a request are registered for
    redaction before it is sent, and redaction leaves no registered secret in a
    text ([redaction_complete]); the codec reads back what it writes; the limiter
    is bounded in memory and in what it admits.

    Conversation.  The kept tail is the one the budget names and never splits a
    tool exchange; a finished compaction replaces exactly the frozen prefix and
    is dropped when that prefix was touched or the context reset; a cycle ends
    after at most three attempts, with the summary of the first that succeeded or
    with the reason of the last failure; budgets and meters keep their bounds.
    Content cannot forge the tags its envelope neutralizes (which
    [animation-frames] is not) and is read back as it was said.
    Rooms never share a world, and a branch sees its own world only.

    Scheduler.  A poll delivers what is due, each task as the table has it at that
    moment, done is final, the timer is never
    late.

    Workers.  Over crashes and failing writes a tool is run at most once and a
    worker has one finish; the file determines the state.  The mailbox keeps its
    tables well typed, is idempotent, delivers in order and once acknowledged
    never again, and closes with the finish; end to end the dispatcher finds the
    finish the worker decided on.

    Tools.  Replacement changes exactly the occurrences it reports; hashing and
    edit distance equal their reference definitions.

    Examples with the names listed in their files state defects as theorems, for
    instance [avatar_capability_gap], [overdue_delivered_again],
    [reselection_leaks], [attachment_name_forges], [long_slug_cannot_post],
    [enrollment_abort_missed].

    ** Modelling choices

    - Time is an argument of operations ([Scheduler]) or an oracle of the
      environment ([Registry], [Mailbox]); the registry's clock does not call
      back.
    - Strings of the wire protocol are their UTF-8 bytes, because its limits are
      in bytes; elsewhere a string is its list of UTF-16 code units.  Text whose
      contents are never inspected is a plain string.
    - Doubles of the meters are exact rationals, [None] for NaN and infinities;
      rounding is not modelled.  Integers of the hash are kept at 64 bits by the
      masks the code applies.
    - SHA-256, the prompt texts, the clock of a time zone and the text
      [JSON.stringify] produces for a chat message are parameters, with no
      hypothesis on them; the JSON text of a frame and of a branch candidate is
      defined ([Codec.JSON_stringify], [BranchView.quote]).  What a column gives
      back for a text is a parameter of [Mailbox]; only the end-to-end theorem
      asks that it leaves the worker's name alone.  Error messages and log lines
      are left out, error codes kept.
    - Objects shared between components carry an identity: the messages of a
      conversation ([Compactor.obj]), the links of the registry (their
      generation), the clients of the bridge (their number).
    - Callbacks are data: the list of public operations they perform and whether
      they throw ([Scheduler.wake], [Registry.react]).  [SelectedViewer],
      [ConsoleBridge], [GatewayLink] and [BrowserRelay] ask an environment what
      the outside does at each interaction, calls back included; reading
      [bufferedAmount] of a browser's socket does not call back.
    - The theorems on enrollment and rotation suppose a digest of 32 bytes, that
      others do not present the tokens a resident holds, that a new credential id
      is not in use, and (for progress) an origin in printable ASCII, a transport
      that delivers, transactions that commit and an admitting limiter.  Nothing
      is supposed of collisions of the digest.  What [JSON.parse] makes of a
      received text is carried beside the text.  A retry delay of [GatewayLink] is
      an exact rational; [never_stuck] supposes a clock that gives times.
    - A worker's crash is a throw no handler of the model catches; what it wrote
      before stays on the disk, the rest of its memory is gone.
    - Other connections of the database may commit, before any statement outside a
      transaction, any sequence of the statements the program has on the mailbox's
      tables, of mailbox.ts, spawn.ts, supervisor.ts, workspace.ts and the recovery
      in db.ts, with any arguments ([Mailbox.written], [Mailbox.others]).  The
      theorems start from the empty database of a new installation.
    - In [Link], the id of a request is new on the link, one for the avatar is sent
      only when identity.v1 was negotiated ([avatar_capability_gap] shows why) and
      console input only to viewers the Gateway's session holds with no operation
      outstanding, as its broker does; a direction carries fewer frames than there
      are safe integers.

    Fuel.  [Scheduler.catch_up_fuel] is the number of rounds the catch-up loop
    can make with the smallest positive interval ([catch_up_spec]); the loops of
    [XXHash] get one round more than the buffer has bytes and [xxh64_correct]
    shows none runs out; the searches of [Editor] and [Envelope] get one round
    more than the text has units, and each round consumes at least one; the
    splitting of [Secrets] gets one round per unit, its separator is not empty.  The fuel
    of [Registry], [SelectedViewer], [BrowserRelay], [ConsoleBridge] and
    [GatewayLink] is the depth of calls back into them, that of [WorkerEpisode] the code's own limit on turns; their
    theorems hold for every depth.  All other recursion is structural.

    ** Not modelled

    HTTP and WebSocket plumbing, provider clients, chat surfaces, the sandbox,
    the console's hub and pages, supervision of processes and the SQLite stores
    other than the mailbox, the scheduler and the two stores of credentials: input
    and output, or code of third parties.  Of src/context-graph.ts the manifest
    hash, the legacy capsule and random identifiers; of the registry the sorted
    listing [summaries()]; of src/worker/client.ts everything but [finish]; of
    http-service.ts everything but the resident routes, whose reading of a body is
    a parameter; of the audit log its details.

    Of the LLM broker, the authorization of a request is given with its event
    (which credential it found), and the requests of the transports are left out.

    Next: that authorization (with packages/gateway-protocol/src/llm-proxy.ts),
    the worker's requests on the Mind and its workspaces
    (src/worker/mind-request.ts, workspace.ts), and the orchestration of a branch
    (src/context/home-text-orchestrator.ts). *)

From stdpp Require Export base tactics list gmap strings fin_maps pretty.
From Stdlib Require Export ZArith Lia.

#[export] Set Warnings "-register-all,-clear-no-such-hyp,-level-tolerance".

(** ** Effects

    The TypeScript sources mutate objects and throw.  [eff S E A] is a
    computation over a mutable state [S] that returns an [A] or throws an [E];
    a throw keeps the mutations that happened before it, as in JavaScript. *)

Definition eff (S E A : Type) : Type := S → (E + A) * S.

Section eff.
Context {S E : Type}.

#[export] Instance eff_ret : MRet (eff S E) := λ A a s, (inr a, s).
#[export] Instance eff_bind : MBind (eff S E) := λ A B k m s,
  match m s with
  | (inl e, s') => (inl e, s')
  | (inr a, s') => k a s'
  end.

Definition throw {A} (e : E) : eff S E A := λ s, (inl e, s).
Definition get : eff S E S := λ s, (inr s, s).
Definition modify (f : S → S) : eff S E () := λ s, (inr tt, f s).
(** [if (!b) throw e;] *)
Definition require (b : bool) (e : E) : eff S E () :=
  if b then mret tt else throw e.
End eff.

(** Pure fallible code: [inl] is a thrown error. *)
#[export] Instance sum_ret {E} : MRet (sum E) := λ A, inr.
#[export] Instance sum_bind {E} : MBind (sum E) := λ A B k m,
  match m with inl e => inl e | inr a => k a end.

Definition check {E} (b : bool) (e : E) : E + () := if b then inr tt else inl e.

Lemma bind_inr {E A B} (m : E + A) (k : A → E + B) b :
  m ≫= k = inr b ↔ ∃ a, m = inr a ∧ k a = inr b.
Proof. destruct m; naive_solver. Qed.
Lemma check_inr {E} b (e : E) u : check b e = inr u ↔ b = true.
Proof. destruct b, u; naive_solver. Qed.

(** [lift m] runs a pure fallible computation inside [eff]. *)
Definition lift {S E A} (m : E + A) : eff S E A := λ s, (m, s).

(** The execution rules of [eff], as a rewriting system: [autorewrite with eff]
    runs a computation up to its next branch. *)
Section eff_rules.
Context {S E : Type}.
Implicit Types (s : S) (e : E).

Lemma run_ret {A} (a : A) s : (mret a : eff S E A) s = (inr a, s).
Proof. done. Qed.
Lemma run_throw {A} e s : (throw e : eff S E A) s = (inl e, s).
Proof. done. Qed.
Lemma run_get s : (get : eff S E S) s = (inr s, s).
Proof. done. Qed.
Lemma run_modify f s : (modify f : eff S E ()) s = (inr tt, f s).
Proof. done. Qed.
Lemma run_require b e s : (require b e : eff S E ()) s = if b then (inr tt, s) else (inl e, s).
Proof. by destruct b. Qed.

Lemma bind_ret {A B} (a : A) (k : A → eff S E B) s : (mret a ≫= k) s = k a s.
Proof. done. Qed.
Lemma bind_throw {A B} e (k : A → eff S E B) s : (throw e ≫= k) s = (inl e, s).
Proof. done. Qed.
Lemma bind_get {B} (k : S → eff S E B) s : (get ≫= k) s = k s s.
Proof. done. Qed.
Lemma bind_modify {B} f (k : () → eff S E B) s : (modify f ≫= k) s = k tt (f s).
Proof. done. Qed.
Lemma bind_require {B} b e (k : () → eff S E B) s :
  (require b e ≫= k) s = if b then k tt s else (inl e, s).
Proof. by destruct b. Qed.
Lemma bind_lift {A B} (m : E + A) (k : A → eff S E B) s :
  (lift m ≫= k) s = match m with inl e => (inl e, s) | inr a => k a s end.
Proof. by destruct m. Qed.
Lemma bind_assoc {A B C} (m : eff S E A) (g : A → eff S E B) (k : B → eff S E C) s :
  ((m ≫= g) ≫= k) s = (m ≫= λ a, g a ≫= k) s.
Proof. unfold mbind, eff_bind. by destruct (m s) as [[] ?]. Qed.
End eff_rules.

Create Rewrite HintDb eff.
Hint Rewrite @run_ret @run_throw @run_get @run_modify @run_require @bind_ret @bind_throw
  @bind_get @bind_modify @bind_require @bind_lift @bind_assoc : eff.

(** [eff_inv H] executes the computation in [H], splitting on every guard. *)
Ltac eff_inv H :=
  simpl in H;
  repeat (autorewrite with eff in H; simpl in H;
          match type of H with
          | (if ?b then _ else _) = _ => destruct b eqn:?; [|discriminate H]
          | (if ?b then _ else _) = _ => destruct b eqn:?; [discriminate H|]
          | (if ?b then _ else _) = _ => destruct b eqn:?
          end);
  simplify_eq/=.

(** Boolean guards to propositions. *)
Ltac guards :=
  repeat match goal with
  | H : negb _ = true |- _ => apply negb_true_iff in H
  | H : negb _ = false |- _ => apply negb_false_iff in H
  | H : bool_decide _ = true |- _ => apply bool_decide_eq_true in H
  | H : bool_decide _ = false |- _ => apply bool_decide_eq_false in H
  | H : _ && _ = true |- _ => apply andb_true_iff in H as [? ?]
  | H : _ || _ = false |- _ => apply orb_false_iff in H as [? ?]
  | H : Nat.ltb _ _ = true |- _ => apply Nat.ltb_lt in H
  | H : Nat.ltb _ _ = false |- _ => apply Nat.ltb_ge in H
  | H : Z.eqb _ _ = true |- _ => apply Z.eqb_eq in H
  | H : Z.eqb _ _ = false |- _ => apply Z.eqb_neq in H
  | H : Z.leb _ _ = true |- _ => apply Z.leb_le in H
  | H : Z.leb _ _ = false |- _ => apply Z.leb_gt in H
  | H : String.eqb _ _ = true |- _ => apply String.eqb_eq in H
  | H : String.eqb _ _ = false |- _ => apply String.eqb_neq in H
  end.

(** ** JavaScript numbers used as integers *)

(** [Number.MAX_SAFE_INTEGER]. *)
Definition MAX_SAFE_INTEGER : Z := 9007199254740991.

(** ** Lists *)

(** A JavaScript [filter] respects reordering of what it filters. *)
#[export] Instance filter_Permutation {A} (P : A → bool) :
  Proper (Permutation ==> Permutation) (List.filter P).
Proof.
  induction 1 as [|x l l' _ IH|x y l|l l' l'' _ IH1 _ IH2]; simpl; try done.
  - by destruct (P x); rewrite IH.
  - destruct (P x), (P y); try done. constructor.
  - by rewrite IH1.
Qed.

(** ** Automation *)

(** [run_eff] symbolically executes the monadic code in the context and splits
    on the guards it meets. *)
Ltac unfold_eff :=
  unfold mbind, mret, eff_bind, eff_ret, sum_bind, sum_ret, throw, get, modify,
    require, check, lift in *; cbn beta iota zeta in *.

Ltac run_eff :=
  unfold_eff;
  repeat (case_match; simplify_eq/=; unfold_eff; try done).

Create HintDb elpis.
