(* ===== verification/Effects.v ===== *)
(** * Weakest preconditions of effectful code

    [wp m Q X s]: from [s], the computation [m] returns with [Q] or throws with
    [X].  The rules compute it along the code, so that an invariant of a method
    is proved by following the method. *)

From S2P Require Import Prelude.

Definition wp {S E A} (m : eff S E A) (Q : A → S → Prop) (X : E → S → Prop) (s : S) : Prop :=
  match m s with
  | (inr a, s') => Q a s'
  | (inl e, s') => X e s'
  end.

Section wp_rules.
Context {S E : Type}.
Implicit Types (s : S) (X : E → S → Prop).

Lemma wp_ret {A} (a : A) Q X s : Q a s → wp (mret a : eff S E A) Q X s.
Proof. done. Qed.
Lemma wp_throw {A} e (Q : A → S → Prop) X s : X e s → wp (throw e) Q X s.
Proof. done. Qed.
Lemma wp_get Q X s : Q s s → wp (get : eff S E S) Q X s.
Proof. done. Qed.
Lemma wp_modify f Q X s : Q tt (f s) → wp (modify f : eff S E ()) Q X s.
Proof. done. Qed.
Lemma wp_require b e Q X s :
  (b = true → Q tt s) → (b = false → X e s) → wp (require b e : eff S E ()) Q X s.
Proof. destruct b; simpl; unfold wp, require; naive_solver. Qed.
Lemma wp_bind {A B} (m : eff S E A) (k : A → eff S E B) Q X s :
  wp m (λ a, wp (k a) Q X) X s → wp (m ≫= k) Q X s.
Proof. unfold wp, mbind, eff_bind. by destruct (m s) as [[] ?]. Qed.
Lemma wp_lift {A} (m : E + A) Q X s :
  (∀ a, m = inr a → Q a s) → (∀ e, m = inl e → X e s) → wp (lift m : eff S E A) Q X s.
Proof. destruct m; unfold wp; simpl; naive_solver. Qed.
Lemma wp_mono {A} (m : eff S E A) (Q Q' : A → S → Prop) X X' s :
  wp m Q X s → (∀ a s, Q a s → Q' a s) → (∀ e s, X e s → X' e s) → wp m Q' X' s.
Proof. unfold wp. destruct (m s) as [[] ?]; auto. Qed.
Lemma wp_elim {A} (m : eff S E A) Q X s res s' :
  wp m Q X s → m s = (res, s') → match res with inr a => Q a s' | inl e => X e s' end.
Proof. unfold wp. intros H Hm. rewrite Hm in H. by destruct res. Qed.
Lemma wp_if {A} (b : bool) (m n : eff S E A) Q X s :
  (b = true → wp m Q X s) → (b = false → wp n Q X s) → wp (if b then m else n) Q X s.
Proof. destruct b; auto. Qed.
(** A run that does not throw returns. *)
Lemma wp_returns {A} (m : eff S E A) Q s : wp m Q (λ _ _, False) s → ∃ a s', m s = (inr a, s') ∧ Q a s'.
Proof. unfold wp. destruct (m s) as [[e|a] s']; [done|]. eauto. Qed.
End wp_rules.

(** A sequence whose first part returned, and one that returned. *)
Lemma eff_run {S E A B} (m : eff S E A) (k : A → eff S E B) s a s' :
  m s = (inr a, s') → (m ≫= k) s = k a s'.
Proof. unfold mbind, eff_bind. by intros ->. Qed.
Lemma bind_inv {S E A B} (m : eff S E A) (k : A → eff S E B) s b s' :
  (m ≫= k) s = (inr b, s') → ∃ a s1, m s = (inr a, s1) ∧ k a s1 = (inr b, s').
Proof. unfold mbind, eff_bind. destruct (m s) as [[e|a] s1]; [done|]. eauto. Qed.

(** [wp_run] follows the code up to a call it does not know. *)
Ltac wp_step :=
  match goal with
  | |- wp (_ ≫= _) _ _ _ => apply wp_bind
  | |- wp (mret _) _ _ _ => apply wp_ret
  | |- wp (throw _) _ _ _ => apply wp_throw
  | |- wp get _ _ _ => apply wp_get
  | |- wp (modify _) _ _ _ => apply wp_modify
  | |- wp (require _ _) _ _ _ => apply wp_require; intros ?
  | |- wp (if _ then _ else _) _ _ _ => apply wp_if; intros ?
  end.
Ltac wp_run := repeat (wp_step; cbv beta).
