(* ===== verification/Protocol.v ===== *)
(** * Wire protocol data (packages/gateway-protocol/src/types.ts)

    The constants, identifiers, frames and error codes of the Gateway wire
    protocol, and the JSON values they travel as.

    JavaScript strings are modelled by their UTF-8 byte strings, so
    [String.length] is the [TextEncoder] byte length the limits are stated in. *)

From S2P Require Import Prelude.
Local Open Scope Z_scope.
Local Open Scope string_scope.

(** ** JSON values *)

(** A JavaScript number, by the decimal expansion ECMA-262 prints it with:
    [NDec neg s n] is [± 0.s₁s₂…s_k × 10^n] where [s₁…s_k] are the digits of
    [s] (so its value is [s × 10^(n-k)]). *)
Inductive jsnum :=
  | NZero
  | NDec (neg : bool) (s : positive) (n : Z)
  | NInf (neg : bool).

Inductive json :=
  | JNull
  | JBool (b : bool)
  | JNum (n : jsnum)
  | JStr (s : string)
  | JArr (l : list json)
  | JObj (fields : list (string * json)).

(** The integer [z] as a JavaScript number (exact for safe integers). *)
Fixpoint strip_zeros (fuel : nat) (p : Z) (e : Z) : Z * Z :=
  match fuel with
  | O => (p, e)
  | S fuel => if (p mod 10 =? 0)%Z then strip_zeros fuel (p / 10) (e + 1) else (p, e)
  end.

Definition digits (p : positive) : string := pretty (N.pos p).
Definition ndigits (p : positive) : Z := Z.of_nat (String.length (digits p)).

Definition num_of_Z (z : Z) : jsnum :=
  match z with
  | 0 => NZero
  | _ =>
      let '(s, e) := strip_zeros 64 (Z.abs z) 0 in
      NDec (z <? 0)%Z (Z.to_pos s) (ndigits (Z.to_pos s) + e)
  end.

(** The integer value of a number, when it is integral. *)
Definition num_to_Z (n : jsnum) : option Z :=
  match n with
  | NZero => Some 0
  | NDec neg s n =>
      let k := ndigits s in
      if (n <? k)%Z then None
      else Some ((if neg then -1 else 1) * (Zpos s * 10 ^ (n - k)))
  | NInf _ => None
  end.

(** [Number.isSafeInteger(value)], returning the integer. *)
Definition safe_integer (v : json) : option Z :=
  match v with
  | JNum n =>
      z ← num_to_Z n;
      if (Z.abs z <=? MAX_SAFE_INTEGER)%Z then Some z else None
  | _ => None
  end.

(** [obj.key], [None] for [undefined]. *)
Fixpoint field (fields : list (string * json)) (k : string) : option json :=
  match fields with
  | [] => None
  | (k', v) :: fields => if String.eqb k k' then Some v else field fields k
  end.

(** ** Constants *)

Definition PROTOCOL_VERSION : Z := 1.

Definition LIMITS_frameBytes : Z := 36 * 1024 * 1024.
Definition LIMITS_consolePayloadBytes : Z := 8 * 1024 * 1024.
Definition LIMITS_mediaBytes : Z := 25 * 1024 * 1024.
Definition LIMITS_mediaRouteBytes : Z := 2 * 1024.
Definition LIMITS_identityNameBytes : Z := 128.
Definition LIMITS_buildValueBytes : Z := 128.
Definition LIMITS_errorCodeBytes : Z := 64.
Definition LIMITS_errorMessageBytes : Z := 1024.
Definition LIMITS_viewersPerConnection : nat := 16.
Definition LIMITS_pendingRequestsPerConnection : nat := 128.
Definition LIMITS_requestHistoryPerConnection : nat := 4096.

Inductive Capability := console_v1 | identity_v1 | media_v1.

#[export] Instance Capability_eq_dec : EqDecision Capability.
Proof. solve_decision. Defined.

Definition CAPABILITIES : list Capability := [console_v1; identity_v1; media_v1].

Definition capability_name (c : Capability) : string :=
  match c with
  | console_v1 => "console.v1"
  | identity_v1 => "identity.v1"
  | media_v1 => "media.v1"
  end.

Inductive ProtocolErrorCode :=
  | invalid_json | frame_too_large | unsupported_version | unknown_type
  | unknown_capability | invalid_frame | invalid_sequence | invalid_handshake
  | connection_mismatch | instance_mismatch | capability_required
  | request_mismatch | viewer_limit | request_limit.

#[export] Instance ProtocolErrorCode_eq_dec : EqDecision ProtocolErrorCode.
Proof. solve_decision. Defined.

Definition error_code_name (c : ProtocolErrorCode) : string :=
  match c with
  | invalid_json => "invalid_json"
  | frame_too_large => "frame_too_large"
  | unsupported_version => "unsupported_version"
  | unknown_type => "unknown_type"
  | unknown_capability => "unknown_capability"
  | invalid_frame => "invalid_frame"
  | invalid_sequence => "invalid_sequence"
  | invalid_handshake => "invalid_handshake"
  | connection_mismatch => "connection_mismatch"
  | instance_mismatch => "instance_mismatch"
  | capability_required => "capability_required"
  | request_mismatch => "request_mismatch"
  | viewer_limit => "viewer_limit"
  | request_limit => "request_limit"
  end.

Definition PROTOCOL_ERROR_CODES : list ProtocolErrorCode :=
  [ invalid_json; frame_too_large; unsupported_version; unknown_type;
    unknown_capability; invalid_frame; invalid_sequence; invalid_handshake;
    connection_mismatch; instance_mismatch; capability_required;
    request_mismatch; viewer_limit; request_limit ].

(** ** Frames *)

Inductive ViewerOperation := viewer_open | viewer_close | viewer_snapshot.

#[export] Instance ViewerOperation_eq_dec : EqDecision ViewerOperation.
Proof. solve_decision. Defined.

Definition operation_name (op : ViewerOperation) : string :=
  match op with
  | viewer_open => "viewer.open"
  | viewer_close => "viewer.close"
  | viewer_snapshot => "viewer.snapshot"
  end.

#[export] Instance operation_name_inj : Inj (=) (=) operation_name.
Proof. by intros [] []. Qed.

Record ErrorDetail := { error_code : string; error_message : string }.

(** [mediaType] stays the JSON value the decoder saw: the decoder compares its
    [String()] coercion only. *)
Record AvatarDescriptor := {
  avatar_mediaType : json;
  avatar_byteLength : Z;
  avatar_sha256 : string;
}.

Record ResidentIdentity := {
  identity_name : string;
  identity_avatar : option AvatarDescriptor;
}.

Record BuildMetadata := {
  build_version : string;
  build_revision : option string;
  build_state : option string;
}.

Record ProtocolError := {
  perr_error : ErrorDetail;
  perr_fatal : bool;
  perr_requestId : option string;
}.

Inductive MediaOutcome :=
  | MediaOk (mediaType : string) (byteLength : Z) (sha256 data : string)
  | MediaFailed (error : ErrorDetail).

(** The payloads of [GatewayToResidentFrame]. *)
Inductive GatewayBody :=
  | HelloAck (instanceId : string) (capabilities : list Capability)
  | ViewerOp (op : ViewerOperation) (requestId viewerId : string)
  | ConsoleInput (viewerId payload : string)
  | MediaGet (requestId route : string)
  | GatewayErr (err : ProtocolError).

(** The payloads of [ResidentToGatewayFrame].  [operation] stays a JSON value
    for the same reason as [avatar_mediaType]. *)
Inductive ResidentBody :=
  | Hello (instanceId : string) (capabilities : list Capability)
      (identity : ResidentIdentity) (build : BuildMetadata)
  | OperationResult (requestId viewerId : string) (operation : json)
      (error : option ErrorDetail)
  | ConsoleOutput (viewerId payload : string)
  | MediaResult (requestId : string) (outcome : MediaOutcome)
  | ResidentErr (err : ProtocolError).

Record frame (B : Type) := mkFrame {
  connectionId : string;
  seq : Z;
  body : B;
}.
Arguments mkFrame {B}.
Arguments connectionId {B}.
Arguments seq {B}.
Arguments body {B}.

Definition gateway_type (b : GatewayBody) : string :=
  match b with
  | HelloAck _ _ => "hello.ack"
  | ViewerOp op _ _ => operation_name op
  | ConsoleInput _ _ => "console.input"
  | MediaGet _ _ => "media.get"
  | GatewayErr _ => "error"
  end.

Definition resident_type (b : ResidentBody) : string :=
  match b with
  | Hello _ _ _ _ => "hello"
  | OperationResult _ _ _ _ => "operation.result"
  | ConsoleOutput _ _ => "console.output"
  | MediaResult _ _ => "media.result"
  | ResidentErr _ => "error"
  end.

Definition GATEWAY_FRAME_TYPES : list string :=
  [ "hello.ack"; "viewer.open"; "viewer.close"; "viewer.snapshot";
    "console.input"; "media.get"; "error" ].
Definition RESIDENT_FRAME_TYPES : list string :=
  [ "hello"; "operation.result"; "console.output"; "media.result"; "error" ].
