(* ===== verification/Codec.v ===== *)
(** * Frame codec (packages/gateway-protocol/src/codec.ts)

    Validation of inbound frames: the strict field checks, the identifier and
    digest formats, the media-route sanitizer, capability negotiation and the
    frame decoder itself.  SHA-256 (node:crypto) is a parameter. *)

From Stdlib Require Import Ascii.
From S2P Require Import Prelude Protocol.
Local Open Scope Z_scope.
Local Open Scope string_scope.

(** What decoding can throw: a [GatewayProtocolError] with its code and
    [fatal] flag, or the [TypeError] JavaScript raises when [String()] meets an
    object without a primitive conversion. *)
Inductive exn :=
  | GatewayProtocolError (code : ProtocolErrorCode) (fatal : bool)
  | JsTypeError.

Definition fail {A} (code : ProtocolErrorCode) : exn + A :=
  inl (GatewayProtocolError code true).
Definition ensure (b : bool) (code : ProtocolErrorCode) : exn + () :=
  check b (GatewayProtocolError code true).

(** ** Characters and strings *)

Definition ascii_in (lo hi : Z) (c : Ascii.ascii) : bool :=
  let n := Z.of_N (Ascii.N_of_ascii c) in (lo <=? n)%Z && (n <=? hi)%Z.

(** [[A-Za-z0-9_-]] *)
Definition is_id_char (c : Ascii.ascii) : bool :=
  ascii_in 65 90 c || ascii_in 97 122 c || ascii_in 48 57 c
  || Ascii.eqb c "_"%char || Ascii.eqb c "-"%char.
(** [[0-9a-f]] *)
Definition is_lower_hex (c : Ascii.ascii) : bool := ascii_in 48 57 c || ascii_in 97 102 c.
(** [[\u0000-\u001f\u007f]] *)
Definition is_control (c : Ascii.ascii) : bool := ascii_in 0 31 c || ascii_in 127 127 c.
(** [[A-Za-z0-9+/]] *)
Definition is_b64_char (c : Ascii.ascii) : bool :=
  ascii_in 65 90 c || ascii_in 97 122 c || ascii_in 48 57 c
  || Ascii.eqb c "+"%char || Ascii.eqb c "/"%char.

Fixpoint all_chars (P : Ascii.ascii → bool) (s : string) : bool :=
  match s with "" => true | String c s => P c && all_chars P s end.
Definition some_char (P : Ascii.ascii → bool) (s : string) : bool :=
  negb (all_chars (λ c, negb (P c)) s).
Definition bytes (s : string) : Z := Z.of_nat (String.length s).

(** [s.split(sep)] for a one-character separator. *)
Fixpoint split (sep : Ascii.ascii) (s : string) : list string :=
  match s with
  | "" => [""]
  | String c s =>
      if Ascii.eqb c sep then "" :: split sep s
      else match split sep s with
           | [] => [String c ""]
           | w :: ws => String c w :: ws
           end
  end.

(** ** Language operations the codec relies on *)

Definition zeros (n : Z) : string := String.concat "" (replicate (Z.to_nat n) "0").

(** Number::toString (ECMA-262 6.1.6.1.20). *)
Definition num_to_string (n : jsnum) : string :=
  match n with
  | NZero => "0"
  | NInf neg => if neg then "-Infinity" else "Infinity"
  | NDec neg s n =>
      let d := digits s in
      let k := ndigits s in
      let before (i : Z) := String.substring 0 (Z.to_nat i) d in
      let after (i : Z) := String.substring (Z.to_nat i) (Z.to_nat (k - i)) d in
      (if neg then "-" else "") +:+
      (if (k <=? n)%Z && (n <=? 21)%Z then d +:+ zeros (n - k)
       else if (0 <? n)%Z && (n <=? 21)%Z then before n +:+ "." +:+ after n
       else if (-6 <? n)%Z && (n <=? 0)%Z then "0." +:+ zeros (- n) +:+ d
       else before 1 +:+ (if (k =? 1)%Z then "" else "." +:+ after 1)
              +:+ "e" +:+ (if (0 <? n - 1)%Z then "+" else "-")
              +:+ pretty (Z.abs_N (n - 1)))
  end.

(** [String(v)]; [None] is the [TypeError] of ToPrimitive. *)
Fixpoint js_String (v : json) : option string :=
  match v with
  | JNull => Some "null"
  | JBool b => Some (if b then "true" else "false")
  | JNum n => Some (num_to_string n)
  | JStr s => Some s
  | JArr l =>
      (fix join (l : list json) : option string :=
         match l with
         | [] => Some ""
         | v :: l =>
             s ← match v with JNull => Some "" | _ => js_String v end;
             match l with
             | [] => Some s
             | _ => rest ← join l; Some (s +:+ "," +:+ rest)
             end
         end) l
  | JObj fields =>
      match field fields "toString" with
      | Some _ => None
      | None => Some "[object Object]"
      end
  end.

Definition hex_digit (n : N) : Ascii.ascii :=
  if (n <? 10)%N then Ascii.ascii_of_N (48 + n) else Ascii.ascii_of_N (87 + n).

Definition escape_char (c : Ascii.ascii) : string :=
  match Z.of_N (Ascii.N_of_ascii c) with
  | 8 => "\b" | 9 => "\t" | 10 => "\n" | 12 => "\f" | 13 => "\r" | 92 => "\\"
  | 34 => String (Ascii.ascii_of_N 92) (String c "")
  | n => if (n <? 32)%Z then
           "\u00" +:+ String (hex_digit (Ascii.N_of_ascii c / 16))
                        (String (hex_digit (Ascii.N_of_ascii c mod 16)) "")
         else String c ""
  end.
Fixpoint escape (s : string) : string :=
  match s with "" => "" | String c s => escape_char c +:+ escape s end.
Definition quote (s : string) : string :=
  let q := String (Ascii.ascii_of_N 34) "" in q +:+ escape s +:+ q.

(** [JSON.stringify]. *)
Fixpoint JSON_stringify (v : json) : string :=
  match v with
  | JNull => "null"
  | JBool b => if b then "true" else "false"
  | JNum (NInf _) => "null"
  | JNum n => num_to_string n
  | JStr s => quote s
  | JArr l => "[" +:+ String.concat "," (map JSON_stringify l) +:+ "]"
  | JObj fields =>
      "{" +:+ String.concat ","
        (map (λ '(k, v), quote k +:+ ":" +:+ JSON_stringify v) fields) +:+ "}"
  end.

(** [JSON.parse(JSON.stringify(v))]: infinities become [null]. *)
Fixpoint json_copy (v : json) : json :=
  match v with
  | JNum (NInf _) => JNull
  | JArr l => JArr (map json_copy l)
  | JObj fields => JObj (map (λ '(k, v), (k, json_copy v)) fields)
  | v => v
  end.

Definition hex_value (c : Ascii.ascii) : option Z :=
  let n := Z.of_N (Ascii.N_of_ascii c) in
  if ascii_in 48 57 c then Some (n - 48)
  else if ascii_in 97 102 c then Some (n - 87)
  else if ascii_in 65 70 c then Some (n - 55)
  else None.

Definition char_of (b : Z) : Ascii.ascii := Ascii.ascii_of_N (Z.to_N b).

(** How many continuation bytes a UTF-8 lead byte announces. *)
Definition utf8_lead (b : Z) : option nat :=
  if (192 <=? b)%Z && (b <=? 223)%Z then Some 1%nat
  else if (224 <=? b)%Z && (b <=? 239)%Z then Some 2%nat
  else if (240 <=? b)%Z && (b <=? 247)%Z then Some 3%nat
  else None.

(** No overlong form, no surrogate, at most U+10FFFF. *)
Definition utf8_valid (l : list Z) : bool :=
  match l with
  | b0 :: b1 :: rest =>
      (194 <=? b0)%Z && (b0 <=? 244)%Z
      && negb ((b0 =? 224)%Z && (b1 <? 160)%Z)
      && negb ((b0 =? 237)%Z && (159 <? b1)%Z)
      && negb ((b0 =? 240)%Z && (b1 <? 144)%Z)
      && negb ((b0 =? 244)%Z && (143 <? b1)%Z)
  | _ => false
  end.

Definition string_of_bytes (l : list Z) : string :=
  foldr (λ b s, String (char_of b) s) "" l.

(** [decodeURIComponent] on UTF-8 byte strings; [None] is the [URIError].
    [need] continuation bytes are still due, [acc] holds those read. *)
Fixpoint decode_uri (need : nat) (acc : list Z) (s : string) : option string :=
  match s with
  | "" => match need with O => Some "" | _ => None end
  | String c rest =>
      if Ascii.eqb c "%"%char then
        match rest with
        | String h (String l rest) =>
            h ← hex_value h;
            l ← hex_value l;
            let b := 16 * h + l in
            match need with
            | O =>
                if (b <? 128)%Z then String (char_of b) <$> decode_uri 0 [] rest
                else n ← utf8_lead b; decode_uri n [b] rest
            | S need =>
                if (128 <=? b)%Z && (b <? 192)%Z then
                  let acc := (acc ++ [b])%list in
                  match need with
                  | O => if utf8_valid acc
                         then String.append (string_of_bytes acc) <$> decode_uri 0 [] rest
                         else None
                  | S _ => decode_uri need acc rest
                  end
                else None
            end
        | _ => None
        end
      else match need with
           | O => String c <$> decode_uri 0 [] rest
           | S _ => None
           end
  end.
Definition decodeURIComponent (s : string) : option string := decode_uri 0 [] s.

(** ** Field validators *)

Fixpoint sinsert (x : string) (l : list string) : list string :=
  match l with
  | [] => [x]
  | y :: l => if String.leb x y then x :: y :: l else y :: sinsert x l
  end.
Definition ssort (l : list string) : list string := foldr sinsert [] l.

Definition record (v : json) : exn + list (string * json) :=
  match v with JObj fields => inr fields | _ => fail invalid_frame end.

(** Exactly the keys [keys], by comparing the sorted key lists. *)
Definition exact (fields : list (string * json)) (keys : list string) : exn + () :=
  ensure (bool_decide (ssort fields.*1 = ssort keys)) invalid_frame.

(** [obj.key] where [undefined] and [null] are rejected alike. *)
Definition prop (fields : list (string * json)) (k : string) : json :=
  default JNull (field fields k).

Definition stringValue (v : json) (maxBytes : Z) : exn + string :=
  match v with
  | JStr s =>
      ensure (negb (String.eqb s "")) invalid_frame;;
      ensure (bytes s <=? maxBytes)%Z invalid_frame;;
      ensure (negb (some_char is_control s)) invalid_frame;;
      mret s
  | _ => fail invalid_frame
  end.

Definition safeInteger (v : json) (minimum : Z) : exn + Z :=
  match safe_integer v with
  | Some z => ensure (minimum <=? z)%Z invalid_frame;; mret z
  | None => fail invalid_frame
  end.

Definition booleanValue (v : json) : exn + bool :=
  match v with JBool b => inr b | _ => fail invalid_frame end.

Definition is_id (prefix s : string) : bool :=
  String.prefix prefix s
  && (let body := String.substring (String.length prefix) (String.length s) s in
      Nat.eqb (String.length body) 22 && all_chars is_id_char body).

Definition INSTANCE_PREFIX := "egi1.".
Definition CONNECTION_PREFIX := "egx1.".
Definition VIEWER_PREFIX := "egv1.".
Definition REQUEST_PREFIX := "egr1.".

Definition id (v : json) (prefix : string) : exn + string :=
  match v with
  | JStr s => ensure (is_id prefix s) invalid_frame;; mret s
  | _ => fail invalid_frame
  end.
Definition isConnectionId (v : json) : bool :=
  match v with JStr s => is_id CONNECTION_PREFIX s | _ => false end.
Definition isRequestId (v : json) : bool :=
  match v with JStr s => is_id REQUEST_PREFIX s | _ => false end.

Definition is_sha256 (s : string) : bool :=
  Nat.eqb (String.length s) 64 && all_chars is_lower_hex s.
Definition sha (v : json) : exn + string :=
  match v with
  | JStr s => ensure (is_sha256 s) invalid_frame;; mret s
  | _ => fail invalid_frame
  end.

(** ** Capabilities *)

Definition capability_of_name (s : string) : option Capability :=
  List.find (λ c, String.eqb (capability_name c) s) CAPABILITIES.

(** The validation loop: every entry known, strictly increasing after
    [previous]. *)
Fixpoint validate_from (previous : string) (l : list json) : exn + list Capability :=
  match l with
  | [] => inr []
  | v :: l =>
      match v with
      | JStr s =>
          match capability_of_name s with
          | Some c =>
              ensure (negb (String.leb s previous)) invalid_frame;;
              cs ← validate_from s l;
              mret (c :: cs)
          | None => fail unknown_capability
          end
      | _ => fail unknown_capability
      end
  end.
Definition validateCapabilities (v : json) : exn + list Capability :=
  match v with JArr l => validate_from "" l | _ => fail invalid_frame end.

Definition caps_json (cs : list Capability) : json :=
  JArr (map (λ c, JStr (capability_name c)) cs).

Definition negotiateCapabilities (local remote : list Capability) : exn + list Capability :=
  validateCapabilities (caps_json local);;
  validateCapabilities (caps_json remote);;
  mret (List.filter (λ c, bool_decide (c ∈ remote)) local).

(** ** Structured fields *)

Definition errorDetail (v : json) : exn + ErrorDetail :=
  obj ← record v;
  exact obj ["code"; "message"];;
  code ← stringValue (prop obj "code") LIMITS_errorCodeBytes;
  message ← stringValue (prop obj "message") LIMITS_errorMessageBytes;
  mret {| error_code := code; error_message := message |}.

(** [names.includes(String(v))]. *)
Definition includes_String (names : list string) (v : json) : exn + bool :=
  match js_String v with
  | Some s => inr (bool_decide (s ∈ names))
  | None => inl JsTypeError
  end.

Definition AVATAR_MEDIA_TYPES : list string := ["image/png"; "image/jpeg"; "image/webp"].

Definition identity (v : json) : exn + ResidentIdentity :=
  obj ← record v;
  exact obj (match field obj "avatar" with None => ["name"] | Some _ => ["name"; "avatar"] end);;
  name ← stringValue (prop obj "name") LIMITS_identityNameBytes;
  match field obj "avatar" with
  | None => mret {| identity_name := name; identity_avatar := None |}
  | Some a =>
      avatar ← record a;
      exact avatar ["mediaType"; "byteLength"; "sha256"];;
      ok ← includes_String AVATAR_MEDIA_TYPES (prop avatar "mediaType");
      ensure ok invalid_frame;;
      byteLength ← safeInteger (prop avatar "byteLength") 0;
      ensure (byteLength <=? LIMITS_mediaBytes)%Z invalid_frame;;
      digest ← sha (prop avatar "sha256");
      mret {| identity_name := name;
              identity_avatar := Some {| avatar_mediaType := prop avatar "mediaType";
                                         avatar_byteLength := byteLength;
                                         avatar_sha256 := digest |} |}
  end.

Definition optional (obj : list (string * json)) (k : string) (maxBytes : Z)
    : exn + option string :=
  match field obj k with
  | None => mret None
  | Some v => s ← stringValue v maxBytes; mret (Some s)
  end.

Definition present (obj : list (string * json)) (k : string) : list string :=
  match field obj k with None => [] | Some _ => [k] end.

Definition build (v : json) : exn + BuildMetadata :=
  obj ← record v;
  exact obj ("version" :: present obj "revision" ++ present obj "state")%list;;
  version ← stringValue (prop obj "version") LIMITS_buildValueBytes;
  revision ← optional obj "revision" LIMITS_buildValueBytes;
  state ← optional obj "state" LIMITS_buildValueBytes;
  mret {| build_version := version; build_revision := revision; build_state := state |}.

Definition opaquePayload (v : json) : exn + string :=
  match v with
  | JStr s => ensure (bytes s <=? LIMITS_consolePayloadBytes)%Z invalid_frame;; mret s
  | _ => fail invalid_frame
  end.

(** [[\u0000-\u001f\u007f\\?#]] *)
Definition is_route_unsafe (c : ascii) : bool :=
  is_control c || Ascii.eqb c "\"%char || Ascii.eqb c "?"%char || Ascii.eqb c "#"%char.

Definition is_unsafe_segment (part : string) : bool :=
  String.eqb part "" || String.eqb part "." || String.eqb part "..".

Definition FRAME_KINDS : list string := ["watch"; "computer"; "browser"; "motor"].

Definition mediaRoute (v : json) : exn + string :=
  route ← stringValue v LIMITS_mediaRouteBytes;
  ensure (negb (some_char (λ c, Ascii.eqb c "?"%char || Ascii.eqb c "#"%char
                                || Ascii.eqb c "\"%char) route)) invalid_frame;;
  if String.eqb route "/identity/avatar" then mret route
  else
    ensure (String.prefix "/frames/" route || String.prefix "/attachments/" route)
      invalid_frame;;
    match decodeURIComponent route with
    | None => fail invalid_frame
    | Some decoded =>
        ensure (negb (some_char is_route_unsafe decoded)) invalid_frame;;
        let parts := drop 1 (split "/" decoded) in
        ensure (negb (existsb is_unsafe_segment parts)) invalid_frame;;
        (if String.eqb (default "" (parts !! 0%nat)) "frames" then
           ensure (negb (Nat.ltb (length parts) 3)
                   && bool_decide (default "" (parts !! 1%nat) ∈ FRAME_KINDS)) invalid_frame
         else
           ensure (negb (String.eqb (default "" (parts !! 0%nat)) "attachments"
                         && Nat.ltb (length parts) 3)) invalid_frame);;
        mret route
    end.

(** ** Base64 *)

(** [/^(?:[A-Za-z0-9+/]{4})*(?:[A-Za-z0-9+/]{2}==|[A-Za-z0-9+/]{3}=)?$/] *)
Fixpoint is_b64 (s : string) : bool :=
  match s with
  | "" => true
  | String a (String b (String c (String d rest))) =>
      if is_b64_char a && is_b64_char b && is_b64_char c && is_b64_char d then is_b64 rest
      else is_b64_char a && is_b64_char b
           && (is_b64_char c || Ascii.eqb c "="%char) && Ascii.eqb d "="%char
           && String.eqb rest ""
  | _ => false
  end.

Definition b64_value (c : ascii) : Z :=
  let n := Z.of_N (N_of_ascii c) in
  if ascii_in 65 90 c then n - 65
  else if ascii_in 97 122 c then n - 71
  else if ascii_in 48 57 c then n + 4
  else if Ascii.eqb c "+"%char then 62 else 63.

Definition b64_char (v : Z) : ascii :=
  if (v <? 26)%Z then char_of (v + 65)
  else if (v <? 52)%Z then char_of (v + 71)
  else if (v <? 62)%Z then char_of (v - 4)
  else if (v =? 62)%Z then "+"%char else "/"%char.

(** [Buffer.from(data, 'base64')] on strings [is_b64] accepts. *)
Fixpoint b64_decode (s : string) : list Z :=
  match s with
  | String a (String b (String c (String d rest))) =>
      let va := b64_value a in
      let vb := b64_value b in
      let vc := b64_value c in
      let vd := b64_value d in
      let x := va * 4 + vb / 16 in
      if Ascii.eqb c "="%char then [x]
      else
        let y := vb mod 16 * 16 + vc / 4 in
        if Ascii.eqb d "="%char then [x; y]
        else x :: y :: (vc mod 4 * 64 + vd) :: b64_decode rest
  | _ => []
  end.

(** [bytes.toString('base64')] *)
Fixpoint b64_encode (l : list Z) : string :=
  match l with
  | [] => ""
  | [x] => String (b64_char (x / 4)) (String (b64_char (x mod 4 * 16)) "==")
  | [x; y] =>
      String (b64_char (x / 4))
        (String (b64_char (x mod 4 * 16 + y / 16))
           (String (b64_char (y mod 16 * 4)) "="))
  | x :: y :: z :: rest =>
      String (b64_char (x / 4))
        (String (b64_char (x mod 4 * 16 + y / 16))
           (String (b64_char (y mod 16 * 4 + z / 64))
              (String (b64_char (z mod 64)) (b64_encode rest))))
  end.

Definition ends_with (suffix s : string) : bool :=
  let n := String.length s in
  let k := String.length suffix in
  Nat.leb k n && String.eqb (String.substring (n - k) k s) suffix.

Definition BASE_KEYS : list string := ["version"; "connectionId"; "seq"; "type"].

(** ** Frames *)

(** A frame as received: a text frame, by the two things the decoder uses of it
    (its UTF-8 length and what [JSON.parse] makes of it, [None] when it
    throws), or a JavaScript value. *)
Inductive input :=
  | InText (byteLength : Z) (parsed : option json)
  | InValue (v : json).

Inductive FrameDirection := gateway_to_resident | resident_to_gateway.

Definition inputObject (i : input) : exn + list (string * json) :=
  let '(len, parsed) :=
    match i with
    | InText len parsed => (len, parsed)
    | InValue v => (bytes (JSON_stringify v), Some (json_copy v))
    end in
  ensure (len <=? LIMITS_frameBytes)%Z frame_too_large;;
  match parsed with
  | Some v => record v
  | None => fail (match i with InText _ _ => invalid_json | InValue _ => invalid_frame end)
  end.

Section decoder.
(** [createHash('sha256').update(bytes).digest('hex')] *)
Context (sha256_hex : list Z → string).

Definition mediaResult (frame : list (string * json)) : exn + MediaOutcome :=
  ok ← booleanValue (prop frame "ok");
  if negb ok then
    exact frame (BASE_KEYS ++ ["requestId"; "ok"; "error"])%list;;
    e ← errorDetail (prop frame "error");
    mret (MediaFailed e)
  else
    exact frame (BASE_KEYS ++ ["requestId"; "ok"; "mediaType"; "byteLength";
                               "sha256"; "data"])%list;;
    mediaType ← stringValue (prop frame "mediaType") 128;
    byteLength ← safeInteger (prop frame "byteLength") 0;
    ensure (byteLength <=? LIMITS_mediaBytes)%Z invalid_frame;;
    digest ← sha (prop frame "sha256");
    match prop frame "data" with
    | JStr data =>
        ensure (is_b64 data) invalid_frame;;
        let padding := if ends_with "==" data then 2 else if ends_with "=" data then 1 else 0 in
        let decodedBytes := bytes data / 4 * 3 - padding in
        ensure (decodedBytes =? byteLength)%Z invalid_frame;;
        let raw := b64_decode data in
        ensure (String.eqb (b64_encode raw) data) invalid_frame;;
        ensure (String.eqb (sha256_hex raw) digest) invalid_frame;;
        mret (MediaOk mediaType byteLength digest data)
    | _ => fail invalid_frame
    end.

Definition viewer_frame (frame : list (string * json)) (op : ViewerOperation)
    : exn + GatewayBody :=
  exact frame (BASE_KEYS ++ ["requestId"; "viewerId"])%list;;
  requestId ← id (prop frame "requestId") REQUEST_PREFIX;
  viewerId ← id (prop frame "viewerId") VIEWER_PREFIX;
  mret (ViewerOp op requestId viewerId).

Definition console_frame (frame : list (string * json)) : exn + (string * string) :=
  exact frame (BASE_KEYS ++ ["viewerId"; "payload"])%list;;
  viewerId ← id (prop frame "viewerId") VIEWER_PREFIX;
  payload ← opaquePayload (prop frame "payload");
  mret (viewerId, payload).

Definition error_frame (frame : list (string * json)) : exn + ProtocolError :=
  exact frame (BASE_KEYS ++ "error" :: "fatal" :: present frame "requestId")%list;;
  e ← errorDetail (prop frame "error");
  ensure (bool_decide (error_code e ∈ map error_code_name PROTOCOL_ERROR_CODES))
    invalid_frame;;
  fatal ← booleanValue (prop frame "fatal");
  match field frame "requestId" with
  | None => mret {| perr_error := e; perr_fatal := fatal; perr_requestId := None |}
  | Some v =>
      r ← id v REQUEST_PREFIX;
      mret {| perr_error := e; perr_fatal := fatal; perr_requestId := Some r |}
  end.

Definition OPERATION_NAMES : list string :=
  map operation_name [viewer_open; viewer_close; viewer_snapshot].

Definition operation_result_frame (frame : list (string * json)) : exn + ResidentBody :=
  ok ← booleanValue (prop frame "ok");
  exact frame (BASE_KEYS ++ ["requestId"; "viewerId"; "operation"; "ok"]
               ++ (if ok then [] else ["error"]))%list;;
  requestId ← id (prop frame "requestId") REQUEST_PREFIX;
  viewerId ← id (prop frame "viewerId") VIEWER_PREFIX;
  known ← includes_String OPERATION_NAMES (prop frame "operation");
  ensure known invalid_frame;;
  (if ok : bool then mret (OperationResult requestId viewerId (prop frame "operation") None)
   else e ← errorDetail (prop frame "error");
        mret (OperationResult requestId viewerId (prop frame "operation") (Some e))).

Definition hello_frame (frame : list (string * json)) : exn + ResidentBody :=
  exact frame (BASE_KEYS ++ ["instanceId"; "capabilities"; "identity"; "build"])%list;;
  instanceId ← id (prop frame "instanceId") INSTANCE_PREFIX;
  capabilities ← validateCapabilities (prop frame "capabilities");
  i ← identity (prop frame "identity");
  b ← build (prop frame "build");
  mret (Hello instanceId capabilities i b).

Definition hello_ack_frame (frame : list (string * json)) : exn + GatewayBody :=
  exact frame (BASE_KEYS ++ ["instanceId"; "capabilities"])%list;;
  instanceId ← id (prop frame "instanceId") INSTANCE_PREFIX;
  capabilities ← validateCapabilities (prop frame "capabilities");
  mret (HelloAck instanceId capabilities).

Definition media_get_frame (frame : list (string * json)) : exn + GatewayBody :=
  exact frame (BASE_KEYS ++ ["requestId"; "route"])%list;;
  requestId ← id (prop frame "requestId") REQUEST_PREFIX;
  route ← mediaRoute (prop frame "route");
  mret (MediaGet requestId route).

(** The [switch (frame.type)] of [decodeFrame], for the frames one direction
    allows. *)
Definition gateway_body (frame : list (string * json)) (type : string) : exn + GatewayBody :=
  if String.eqb type "hello.ack" then hello_ack_frame frame
  else if String.eqb type "viewer.open" then viewer_frame frame viewer_open
  else if String.eqb type "viewer.close" then viewer_frame frame viewer_close
  else if String.eqb type "viewer.snapshot" then viewer_frame frame viewer_snapshot
  else if String.eqb type "console.input" then
    '(v, p) ← console_frame frame; mret (ConsoleInput v p)
  else if String.eqb type "media.get" then media_get_frame frame
  else e ← error_frame frame; mret (GatewayErr e).

Definition resident_body (frame : list (string * json)) (type : string) : exn + ResidentBody :=
  if String.eqb type "hello" then hello_frame frame
  else if String.eqb type "operation.result" then operation_result_frame frame
  else if String.eqb type "console.output" then
    '(v, p) ← console_frame frame; mret (ConsoleOutput v p)
  else if String.eqb type "media.result" then
    requestId ← id (prop frame "requestId") REQUEST_PREFIX;
    outcome ← mediaResult frame;
    mret (MediaResult requestId outcome)
  else e ← error_frame frame; mret (ResidentErr e).

Definition frame_types (d : FrameDirection) : list string :=
  match d with
  | gateway_to_resident => GATEWAY_FRAME_TYPES
  | resident_to_gateway => RESIDENT_FRAME_TYPES
  end.

Definition decodeFrame (i : input) (d : FrameDirection)
    : exn + frame (GatewayBody + ResidentBody) :=
  fields ← inputObject i;
  ensure (match safe_integer (prop fields "version") with
          | Some v => (v =? PROTOCOL_VERSION)%Z
          | None => false
          end) unsupported_version;;
  connection ← id (prop fields "connectionId") CONNECTION_PREFIX;
  n ← safeInteger (prop fields "seq") 1;
  match prop fields "type" with
  | JStr type =>
      ensure (bool_decide (type ∈ frame_types d)) unknown_type;;
      b ← match d with
          | gateway_to_resident => b ← gateway_body fields type; mret (inl b)
          | resident_to_gateway => b ← resident_body fields type; mret (inr b)
          end;
      mret (mkFrame connection n b)
  | _ => fail unknown_type
  end.

Definition decodeGatewayFrame (i : input) : exn + frame GatewayBody :=
  f ← decodeFrame i gateway_to_resident;
  match body f with
  | inl b => mret (mkFrame (connectionId f) (seq f) b)
  | inr _ => fail unknown_type
  end.
Definition decodeResidentFrame (i : input) : exn + frame ResidentBody :=
  f ← decodeFrame i resident_to_gateway;
  match body f with
  | inr b => mret (mkFrame (connectionId f) (seq f) b)
  | inl _ => fail unknown_type
  end.

(** [serializeFrame]: a frame object is validated before it is written. *)
Definition serializeFrame (v : json) (d : FrameDirection) : exn + string :=
  decodeFrame (InValue v) d;;
  let encoded := JSON_stringify (json_copy v) in
  ensure (bytes encoded <=? LIMITS_frameBytes)%Z frame_too_large;;
  mret encoded.
End decoder.
