(* ===== verification/Session.v ===== *)
(** * Link sessions (packages/gateway-protocol/src/session.ts)

    [GatewayInboundSession] decodes the frames a Gateway receives from one
    resident and correlates them with the requests it sent;
    [ResidentInboundSession] is its peer.  Both are objects with mutable fields:
    their methods are [eff] computations over a record of those fields. *)

From S2P Require Import Prelude Protocol Codec.
Local Open Scope string_scope.
Local Open Scope list_scope.

(** ** Shared helpers *)

Definition protocolFailure {S A} (code : ProtocolErrorCode) : eff S exn A :=
  throw (GatewayProtocolError code true).
(** [if (!b) protocolFailure(code)] *)
Definition demand {S} (b : bool) (code : ProtocolErrorCode) : eff S exn () :=
  require b (GatewayProtocolError code true).

Definition sameCapabilities (actual expected : list Capability) : bool :=
  Nat.eqb (length actual) (length expected)
  && forallb (λ '(i, c), bool_decide (expected !! i = Some c)) (imap pair actual).

(** The capability a frame type needs. *)
Definition needs (frameType : string) : option Capability :=
  if String.prefix "viewer." frameType || String.prefix "console." frameType
     || String.eqb frameType "operation.result" then Some console_v1
  else if String.prefix "media." frameType then Some media_v1
  else None.

(** [capability && !negotiated.includes(capability)], negated. *)
Definition allowed (negotiated : list Capability) (frameType : string) : bool :=
  match needs frameType with
  | Some c => bool_decide (c ∈ negotiated)
  | None => true
  end.

(** [rememberRequest]: a bounded history of used request ids. *)
Definition rememberRequest (id : string) : eff (gset string * list string) exn () :=
  '(ids, order) ← get;
  demand (bool_decide (id ∉ ids)) request_mismatch;;
  let ids := {[ id ]} ∪ ids in
  let order := order ++ [id] in
  if Nat.ltb LIMITS_requestHistoryPerConnection (length order) then
    match order with
    | expired :: order => modify (λ _, (ids ∖ {[ expired ]}, order))
    | [] => modify (λ _, (ids, order))
    end
  else modify (λ _, (ids, order)).

(** [try { … } catch (error) { if (error instanceof GatewayProtocolError &&
    error.fatal) onFatal; throw error; }] *)
Definition guard_fatal {S A} (onFatal : S → S) (m : eff S exn A) : eff S exn A :=
  λ s, match m s with
       | (inl (GatewayProtocolError c true), s') => (inl (GatewayProtocolError c true), onFatal s')
       | r => r
       end.

(** [v === s] for a string [s]. *)
Definition is_str (v : json) (s : string) : bool :=
  match v with JStr t => String.eqb t s | _ => false end.

(** ** The Gateway side *)

Module Gateway.

(** A request the Gateway sends: a viewer operation or a media fetch. *)
Inductive request :=
  | ReqViewer (op : ViewerOperation) (requestId viewerId : string)
  | ReqMedia (requestId route : string).

Definition request_body (r : request) : GatewayBody :=
  match r with
  | ReqViewer op rid vid => ViewerOp op rid vid
  | ReqMedia rid route => MediaGet rid route
  end.
Definition request_id (r : request) : string :=
  match r with ReqViewer _ rid _ => rid | ReqMedia rid _ => rid end.
Definition request_viewer (r : request) : option string :=
  match r with ReqViewer _ _ vid => Some vid | ReqMedia _ _ => None end.

Record PendingRequest := { p_type : string; p_viewerId : option string }.

Record session := mkSession {
  s_connectionId : string;
  s_instanceId : string;
  supportedCapabilities : list Capability;
  negotiated : list Capability;
  residentHello : option (frame ResidentBody);
  nextSeq : Z;
  terminal : bool;
  pending : gmap string PendingRequest;
  requestIds : gset string;
  requestOrder : list string;
  viewers : gset string;
}.

Definition create (connection instance : string) (supported : list Capability)
    : exn + session :=
  caps ← validateCapabilities (caps_json supported);
  mret (mkSession connection instance caps [] None 1 false ∅ ∅ [] ∅).

Definition set_hello (h : frame ResidentBody) (s : session) : session :=
  mkSession (s_connectionId s) (s_instanceId s) (supportedCapabilities s) (negotiated s)
    (Some h) (nextSeq s) (terminal s) (pending s) (requestIds s) (requestOrder s) (viewers s).
Definition set_negotiated (caps : list Capability) (s : session) : session :=
  mkSession (s_connectionId s) (s_instanceId s) (supportedCapabilities s) caps
    (residentHello s) (nextSeq s) (terminal s) (pending s) (requestIds s) (requestOrder s) (viewers s).
Definition set_seq (n : Z) (s : session) : session :=
  mkSession (s_connectionId s) (s_instanceId s) (supportedCapabilities s) (negotiated s)
    (residentHello s) n (terminal s) (pending s) (requestIds s) (requestOrder s) (viewers s).
Definition set_terminal (s : session) : session :=
  mkSession (s_connectionId s) (s_instanceId s) (supportedCapabilities s) (negotiated s)
    (residentHello s) (nextSeq s) true (pending s) (requestIds s) (requestOrder s) (viewers s).
Definition set_pending (p : gmap string PendingRequest) (s : session) : session :=
  mkSession (s_connectionId s) (s_instanceId s) (supportedCapabilities s) (negotiated s)
    (residentHello s) (nextSeq s) (terminal s) p (requestIds s) (requestOrder s) (viewers s).
Definition set_history (h : gset string * list string) (s : session) : session :=
  mkSession (s_connectionId s) (s_instanceId s) (supportedCapabilities s) (negotiated s)
    (residentHello s) (nextSeq s) (terminal s) (pending s) h.1 h.2 (viewers s).
Definition set_viewers (v : gset string) (s : session) : session :=
  mkSession (s_connectionId s) (s_instanceId s) (supportedCapabilities s) (negotiated s)
    (residentHello s) (nextSeq s) (terminal s) (pending s) (requestIds s) (requestOrder s) v.

(** [rememberRequest(this.requestIds, this.requestOrder, id)] *)
Definition remember (id : string) : eff session exn () := λ s,
  let '(r, h) := rememberRequest id (requestIds s, requestOrder s) in
  (r, set_history h s).

(** Some pending request names the viewer. *)
Definition viewer_busy (vid : string) (p : gmap string PendingRequest) : bool :=
  existsb (λ r, bool_decide (p_viewerId r.2 = Some vid)) (map_to_list p).

Definition registerRequest (f : frame request) : eff session exn () :=
  s ← get;
  demand (negb (terminal s)) invalid_handshake;;
  demand (bool_decide (is_Some (residentHello s))) invalid_handshake;;
  demand (bool_decide (connectionId f = s_connectionId s)) connection_mismatch;;
  demand (bool_decide (request_id (body f) ∉ requestIds s)) request_mismatch;;
  demand (Nat.ltb (size (pending s)) LIMITS_pendingRequestsPerConnection) request_limit;;
  demand (allowed (negotiated s) (gateway_type (request_body (body f)))) capability_required;;
  demand (match request_viewer (body f) with
          | Some vid => negb (viewer_busy vid (pending s))
          | None => true
          end) request_mismatch;;
  match body f with
  | ReqViewer viewer_open _ vid =>
      demand (bool_decide (vid ∉ viewers s)) request_mismatch;;
      demand (Nat.ltb (size (viewers s)) LIMITS_viewersPerConnection) viewer_limit;;
      modify (set_viewers ({[ vid ]} ∪ viewers s))
  | ReqViewer _ _ vid => demand (bool_decide (vid ∈ viewers s)) request_mismatch
  | ReqMedia _ _ => mret tt
  end;;
  remember (request_id (body f));;
  modify (λ s, set_pending
    (<[ request_id (body f) := {| p_type := gateway_type (request_body (body f));
                                  p_viewerId := request_viewer (body f) |} ]> (pending s)) s).

Definition advanceSequence (s : session) : session :=
  if Z.eqb (nextSeq s) MAX_SAFE_INTEGER then set_terminal s
  else set_seq (nextSeq s + 1) s.

(** The result arm of [receiveFrame]: correlate and retire a request. *)
Definition settle (b : ResidentBody) : eff session exn () :=
  s ← get;
  match b with
  | OperationResult rid vid op err =>
      match pending s !! rid with
      | None => protocolFailure request_mismatch
      | Some expected =>
          demand (is_str op (p_type expected)
                  && bool_decide (p_viewerId expected = Some vid)) request_mismatch;;
          modify (set_pending (delete rid (pending s)));;
          (if is_str op "viewer.open" && bool_decide (is_Some err)
           then modify (set_viewers (viewers s ∖ {[ vid ]})) else mret tt);;
          (if is_str op "viewer.close" && bool_decide (err = None)
           then modify (λ s, set_viewers (viewers s ∖ {[ vid ]}) s) else mret tt)
      end
  | MediaResult rid _ =>
      match pending s !! rid with
      | None => protocolFailure request_mismatch
      | Some expected =>
          demand (String.eqb (p_type expected) "media.get") request_mismatch;;
          modify (set_pending (delete rid (pending s)))
      end
  | ResidentErr {| perr_requestId := Some rid |} =>
      match pending s !! rid with
      | None => protocolFailure request_mismatch
      | Some expected =>
          modify (set_pending (delete rid (pending s)));;
          match p_viewerId expected with
          | Some vid =>
              if String.eqb (p_type expected) "viewer.open"
              then modify (set_viewers (viewers s ∖ {[ vid ]})) else mret tt
          | None => mret tt
          end
      end
  | _ => mret tt
  end.

Definition is_fatal (b : ResidentBody) : bool :=
  match b with ResidentErr e => perr_fatal e | _ => false end.

(** [receiveFrame] after decoding. *)
Definition handleFrame (f : frame ResidentBody) : eff session exn (frame ResidentBody) :=
  s ← get;
  demand (bool_decide (connectionId f = s_connectionId s)) connection_mismatch;;
  demand (Z.eqb (seq f) (nextSeq s)) invalid_sequence;;
  match residentHello s with
  | None =>
      match body f with
      | Hello instance caps _ _ =>
          demand (bool_decide (instance = s_instanceId s)) instance_mismatch;;
          modify (set_hello f);;
          negotiated ← lift (negotiateCapabilities (supportedCapabilities s) caps);
          modify (set_negotiated negotiated);;
          modify advanceSequence;;
          mret f
      | _ => protocolFailure invalid_handshake
      end
  | Some _ =>
      demand (match body f with Hello _ _ _ _ => false | _ => true end) invalid_handshake;;
      demand (allowed (negotiated s) (resident_type (body f))) capability_required;;
      demand (match body f with
              | ConsoleOutput vid _ => bool_decide (vid ∈ viewers s)
              | _ => true
              end) request_mismatch;;
      settle (body f);;
      modify advanceSequence;;
      (if is_fatal (body f) then modify set_terminal else mret tt);;
      mret f
  end.

Section receive.
Context (sha256_hex : list Z → string).

Definition receiveFrame (i : input) : eff session exn (frame ResidentBody) :=
  s ← get;
  demand (negb (terminal s)) invalid_handshake;;
  f ← lift (decodeResidentFrame sha256_hex i);
  handleFrame f.

Definition receive (i : input) : eff session exn (frame ResidentBody) :=
  guard_fatal set_terminal (receiveFrame i).
End receive.
End Gateway.

(** ** The resident side *)

Module Resident.

Record PendingViewerOperation := { o_operation : ViewerOperation; o_viewerId : string }.

Record session := mkSession {
  s_connectionId : string;
  s_instanceId : string;
  offeredCapabilities : list Capability;
  gatewayCapabilities : option (list Capability);
  negotiated : list Capability;
  gatewayAck : option (frame GatewayBody);
  nextSeq : Z;
  terminal : bool;
  requestIds : gset string;
  requestOrder : list string;
  pendingOperations : gmap string PendingViewerOperation;
  pendingMedia : gset string;
  nextOutboundSeq : Z;
  viewers : gset string;
}.

Definition create (connection instance : string) (offered : list Capability)
    (gateway : option (list Capability)) : exn + session :=
  offered ← validateCapabilities (caps_json offered);
  gateway ← match gateway with
            | None => mret None
            | Some caps => caps ← validateCapabilities (caps_json caps); mret (Some caps)
            end;
  mret (mkSession connection instance offered gateway [] None 1 false ∅ [] ∅ ∅ 2 ∅).

Definition set_ack (a : frame GatewayBody) (caps : list Capability) (s : session) : session :=
  mkSession (s_connectionId s) (s_instanceId s) (offeredCapabilities s)
    (gatewayCapabilities s) caps (Some a) (nextSeq s) (terminal s) (requestIds s)
    (requestOrder s) (pendingOperations s) (pendingMedia s) (nextOutboundSeq s) (viewers s).
Definition set_seq (n : Z) (s : session) : session :=
  mkSession (s_connectionId s) (s_instanceId s) (offeredCapabilities s)
    (gatewayCapabilities s) (negotiated s) (gatewayAck s) n (terminal s) (requestIds s)
    (requestOrder s) (pendingOperations s) (pendingMedia s) (nextOutboundSeq s) (viewers s).
Definition set_outbound (n : Z) (s : session) : session :=
  mkSession (s_connectionId s) (s_instanceId s) (offeredCapabilities s)
    (gatewayCapabilities s) (negotiated s) (gatewayAck s) (nextSeq s) (terminal s)
    (requestIds s) (requestOrder s) (pendingOperations s) (pendingMedia s) n (viewers s).
Definition set_terminal (s : session) : session :=
  mkSession (s_connectionId s) (s_instanceId s) (offeredCapabilities s)
    (gatewayCapabilities s) (negotiated s) (gatewayAck s) (nextSeq s) true (requestIds s)
    (requestOrder s) (pendingOperations s) (pendingMedia s) (nextOutboundSeq s) (viewers s).
Definition set_history (h : gset string * list string) (s : session) : session :=
  mkSession (s_connectionId s) (s_instanceId s) (offeredCapabilities s)
    (gatewayCapabilities s) (negotiated s) (gatewayAck s) (nextSeq s) (terminal s) h.1 h.2
    (pendingOperations s) (pendingMedia s) (nextOutboundSeq s) (viewers s).
Definition set_operations (p : gmap string PendingViewerOperation) (s : session) : session :=
  mkSession (s_connectionId s) (s_instanceId s) (offeredCapabilities s)
    (gatewayCapabilities s) (negotiated s) (gatewayAck s) (nextSeq s) (terminal s)
    (requestIds s) (requestOrder s) p (pendingMedia s) (nextOutboundSeq s) (viewers s).
Definition set_media (m : gset string) (s : session) : session :=
  mkSession (s_connectionId s) (s_instanceId s) (offeredCapabilities s)
    (gatewayCapabilities s) (negotiated s) (gatewayAck s) (nextSeq s) (terminal s)
    (requestIds s) (requestOrder s) (pendingOperations s) m (nextOutboundSeq s) (viewers s).
Definition set_viewers (v : gset string) (s : session) : session :=
  mkSession (s_connectionId s) (s_instanceId s) (offeredCapabilities s)
    (gatewayCapabilities s) (negotiated s) (gatewayAck s) (nextSeq s) (terminal s)
    (requestIds s) (requestOrder s) (pendingOperations s) (pendingMedia s)
    (nextOutboundSeq s) v.

Definition remember (id : string) : eff session exn () := λ s,
  let '(r, h) := rememberRequest id (requestIds s, requestOrder s) in
  (r, set_history h s).

Definition assertOutboundReady : eff session exn () :=
  s ← get;
  demand (negb (terminal s)) invalid_handshake;;
  demand (bool_decide (is_Some (gatewayAck s))) invalid_handshake.

Definition advanceOutboundSequence (s : session) : session :=
  if Z.eqb (nextOutboundSeq s) MAX_SAFE_INTEGER then set_terminal s
  else set_outbound (nextOutboundSeq s + 1) s.

Definition advanceSequence (s : session) : session :=
  if Z.eqb (nextSeq s) MAX_SAFE_INTEGER then set_terminal s
  else set_seq (nextSeq s + 1) s.

(** Some pending operation names the viewer. *)
Definition viewer_busy (vid : string) (p : gmap string PendingViewerOperation) : bool :=
  existsb (λ r, bool_decide (o_viewerId r.2 = vid)) (map_to_list p).

(** The number of viewers being opened. *)
Definition opening (p : gmap string PendingViewerOperation) : nat :=
  length (List.filter (λ r, bool_decide (o_operation r.2 = viewer_open)) (map_to_list p)).

Definition pending_count (s : session) : nat :=
  (size (pendingOperations s) + size (pendingMedia s))%nat.

Definition is_fatal (b : GatewayBody) : bool :=
  match b with GatewayErr e => perr_fatal e | _ => false end.

(** [receiveFrame] after decoding, before the acknowledgement. *)
Definition handshake (f : frame GatewayBody) : eff session exn (frame GatewayBody) :=
  s ← get;
  match body f with
  | GatewayErr e =>
      demand (perr_fatal e) invalid_handshake;;
      modify advanceSequence;;
      modify set_terminal;;
      mret f
  | HelloAck instance caps =>
      demand (bool_decide (instance = s_instanceId s)) instance_mismatch;;
      expected ← match gatewayCapabilities s with
                 | None => mret caps
                 | Some g => lift (negotiateCapabilities (offeredCapabilities s) g)
                 end;
      demand (forallb (λ c, bool_decide (c ∈ offeredCapabilities s)) caps
              && sameCapabilities caps expected) invalid_handshake;;
      modify (set_ack f caps);;
      modify advanceSequence;;
      mret f
  | _ => protocolFailure invalid_handshake
  end.

(** The request arm of [receiveFrame]: admit a viewer operation, a media
    fetch or console input. *)
Definition admit_request (b : GatewayBody) : eff session exn () :=
  s ← get;
  match b with
  | ViewerOp op rid vid =>
      demand (bool_decide (rid ∉ requestIds s)) request_mismatch;;
      demand (Nat.ltb (pending_count s) LIMITS_pendingRequestsPerConnection) request_limit;;
      demand (negb (viewer_busy vid (pendingOperations s))) request_mismatch;;
      match op with
      | viewer_open =>
          demand (bool_decide (vid ∉ viewers s)) request_mismatch;;
          demand (Nat.ltb (size (viewers s) + opening (pendingOperations s))
                    LIMITS_viewersPerConnection) viewer_limit
      | _ => demand (bool_decide (vid ∈ viewers s)) request_mismatch
      end;;
      remember rid;;
      modify (λ s, set_operations
        (<[ rid := {| o_operation := op; o_viewerId := vid |} ]> (pendingOperations s)) s)
  | MediaGet rid route =>
      demand (Nat.ltb (pending_count s) LIMITS_pendingRequestsPerConnection) request_limit;;
      demand (negb (String.eqb route "/identity/avatar")
              || bool_decide (identity_v1 ∈ negotiated s)) capability_required;;
      remember rid;;
      modify (λ s, set_media ({[ rid ]} ∪ pendingMedia s) s)
  | ConsoleInput vid _ => demand (bool_decide (vid ∈ viewers s)) request_mismatch
  | _ => mret tt
  end.

Definition handleFrame (f : frame GatewayBody) : eff session exn (frame GatewayBody) :=
  s ← get;
  demand (bool_decide (connectionId f = s_connectionId s)) connection_mismatch;;
  demand (Z.eqb (seq f) (nextSeq s)) invalid_sequence;;
  match gatewayAck s with
  | None => handshake f
  | Some _ =>
      demand (match body f with HelloAck _ _ => false | _ => true end) invalid_handshake;;
      demand (allowed (negotiated s) (gateway_type (body f))) capability_required;;
      admit_request (body f);;
      modify advanceSequence;;
      (if is_fatal (body f) then modify set_terminal else mret tt);;
      mret f
  end.

Section wire.
Context (sha256_hex : list Z → string).

Definition receiveFrame (i : input) : eff session exn (frame GatewayBody) :=
  s ← get;
  demand (negb (terminal s)) invalid_handshake;;
  f ← lift (decodeGatewayFrame sha256_hex i);
  handleFrame f.

Definition receive (i : input) : eff session exn (frame GatewayBody) :=
  guard_fatal set_terminal (receiveFrame i).

(** The object literal [{...effect, version, connectionId, seq, type}]. *)
Definition envelope (s : session) (type : string) (effect : list (string * json)) : json :=
  JObj (effect ++ [ ("version", JNum (num_of_Z PROTOCOL_VERSION));
                    ("connectionId", JStr (s_connectionId s));
                    ("seq", JNum (num_of_Z (nextOutboundSeq s)));
                    ("type", JStr type) ]).

Definition error_json (e : ErrorDetail) : json :=
  JObj [("code", JStr (error_code e)); ("message", JStr (error_message e))].

(** [operationResult({requestId, viewerId, operation, ok, error?})]; [ok] is
    the absence of [error]. *)
Definition operation_effect (rid vid : string) (op : ViewerOperation)
    (err : option ErrorDetail) : list (string * json) :=
  [ ("requestId", JStr rid); ("viewerId", JStr vid);
    ("operation", JStr (operation_name op));
    ("ok", JBool (bool_decide (err = None))) ]
  ++ match err with None => [] | Some e => [("error", error_json e)] end.

Definition operationResult (rid vid : string) (op : ViewerOperation)
    (err : option ErrorDetail) : eff session exn (frame ResidentBody) :=
  assertOutboundReady;;
  s ← get;
  match pendingOperations s !! rid with
  | None => protocolFailure request_mismatch
  | Some expected =>
      demand (bool_decide (o_operation expected = op)
              && bool_decide (o_viewerId expected = vid)) request_mismatch;;
      f ← lift (decodeResidentFrame sha256_hex
             (InValue (envelope s "operation.result" (operation_effect rid vid op err))));
      modify (set_operations (delete rid (pendingOperations s)));;
      (match op, err with
       | viewer_open, None => modify (set_viewers ({[ vid ]} ∪ viewers s))
       | viewer_close, None => modify (set_viewers (viewers s ∖ {[ vid ]}))
       | _, _ => mret tt
       end);;
      modify advanceOutboundSequence;;
      mret f
  end.

Definition consoleOutput (vid payload : string) : eff session exn (frame ResidentBody) :=
  assertOutboundReady;;
  s ← get;
  demand (bool_decide (vid ∈ viewers s)) request_mismatch;;
  f ← lift (decodeResidentFrame sha256_hex
         (InValue (envelope s "console.output"
            [("viewerId", JStr vid); ("payload", JStr payload)])));
  modify advanceOutboundSequence;;
  mret f.

(** The effect fields of a media result. *)
Definition media_effect (rid : string) (o : MediaOutcome) : list (string * json) :=
  ("requestId", JStr rid) ::
  match o with
  | MediaOk mediaType byteLength digest data =>
      [ ("ok", JBool true); ("mediaType", JStr mediaType);
        ("byteLength", JNum (num_of_Z byteLength));
        ("sha256", JStr digest); ("data", JStr data) ]
  | MediaFailed e => [("ok", JBool false); ("error", error_json e)]
  end.

Definition mediaResult (rid : string) (o : MediaOutcome)
    : eff session exn (frame ResidentBody) :=
  assertOutboundReady;;
  s ← get;
  demand (bool_decide (rid ∈ pendingMedia s)) request_mismatch;;
  f ← lift (decodeResidentFrame sha256_hex
         (InValue (envelope s "media.result" (media_effect rid o))));
  modify (set_media (pendingMedia s ∖ {[ rid ]}));;
  modify advanceOutboundSequence;;
  mret f.

(** [completeOperation]: the same for a caller that built the whole frame.
    An [operation] that is not one of the three strings equals no pending
    operation, so [operationResult] refuses it. *)
Definition completeOperation (i : input) : eff session exn (frame ResidentBody) :=
  f ← lift (decodeResidentFrame sha256_hex i);
  match body f with
  | OperationResult rid vid op err =>
      s ← get;
      demand (bool_decide (connectionId f = s_connectionId s)) connection_mismatch;;
      demand (Z.eqb (seq f) (nextOutboundSeq s)) invalid_sequence;;
      match List.find (λ o, is_str op (operation_name o))
              [viewer_open; viewer_close; viewer_snapshot] with
      | Some o => operationResult rid vid o err
      | None => assertOutboundReady;; protocolFailure request_mismatch
      end
  | _ => protocolFailure request_mismatch
  end.
End wire.
End Resident.

(** ** Frame constructors *)

Section constructors.
Context (sha256_hex : list Z → string).

(** [{version: PROTOCOL_VERSION, type, ...input}] *)
Definition frame_object (type connection : string) (n : Z) (rest : list (string * json)) : json :=
  JObj (("version", JNum (num_of_Z PROTOCOL_VERSION)) :: ("type", JStr type)
        :: ("connectionId", JStr connection) :: ("seq", JNum (num_of_Z n)) :: rest).

Definition optional_field (k : string) (v : option string) : list (string * json) :=
  match v with Some s => [(k, JStr s)] | None => [] end.

Definition identity_json (i : ResidentIdentity) : json :=
  JObj (("name", JStr (identity_name i)) ::
        match identity_avatar i with
        | Some a => [("avatar", JObj [("mediaType", avatar_mediaType a);
                                      ("byteLength", JNum (num_of_Z (avatar_byteLength a)));
                                      ("sha256", JStr (avatar_sha256 a))])]
        | None => []
        end).
Definition build_json (b : BuildMetadata) : json :=
  JObj (("version", JStr (build_version b))
        :: optional_field "revision" (build_revision b)
        ++ optional_field "state" (build_state b)).

Definition createResidentHello (connection : string) (n : Z) (instance : string)
    (caps : list Capability) (i : ResidentIdentity) (b : BuildMetadata)
    : exn + frame ResidentBody :=
  decodeResidentFrame sha256_hex (InValue (frame_object "hello" connection n
    [("instanceId", JStr instance); ("capabilities", caps_json caps);
     ("identity", identity_json i); ("build", build_json b)])).

Definition createGatewayHelloAck (connection : string) (n : Z) (instance : string)
    (caps : list Capability) : exn + frame GatewayBody :=
  decodeGatewayFrame sha256_hex (InValue (frame_object "hello.ack" connection n
    [("instanceId", JStr instance); ("capabilities", caps_json caps)])).

Definition createProtocolError (connection : string) (n : Z) (e : ProtocolError)
    : exn + frame GatewayBody :=
  decodeGatewayFrame sha256_hex (InValue (frame_object "error" connection n
    (("error", Resident.error_json (perr_error e)) :: ("fatal", JBool (perr_fatal e))
     :: optional_field "requestId" (perr_requestId e)))).
End constructors.
