(* ===== verification/SessionInv.v ===== *)
(** * Session correctness

    Invariants of both link sessions, and what a sequence of calls can and
    cannot make them accept. *)

From S2P Require Import Prelude Protocol Codec CodecFacts Session.
Local Open Scope string_scope.
Local Open Scope list_scope.

(** ** The request history *)

Definition history_ok (ids : gset string) (order : list string) : Prop :=
  ids = list_to_set order ∧ NoDup order
  ∧ (length order ≤ LIMITS_requestHistoryPerConnection)%nat.

(** What [rememberRequest] leaves when it accepts an id. *)
Definition remembered (id : string) (ids : gset string) (order : list string)
    : gset string * list string :=
  if Nat.ltb LIMITS_requestHistoryPerConnection (length (order ++ [id])) then
    match order ++ [id] with
    | expired :: order => (({[ id ]} ∪ ids) ∖ {[ expired ]}, order)
    | [] => ({[ id ]} ∪ ids, order ++ [id])
    end
  else ({[ id ]} ∪ ids, order ++ [id]).

Lemma rememberRequest_run id ids order :
  rememberRequest id (ids, order) =
    if bool_decide (id ∉ ids) then (inr tt, remembered id ids order)
    else (inl (GatewayProtocolError request_mismatch true), (ids, order)).
Proof.
  unfold rememberRequest, remembered, demand. unfold_eff.
  case_bool_decide; [|done].
  destruct (Nat.ltb _ _); [|done]. by destruct (order ++ [id]).
Qed.

Lemma remembered_ok id ids order :
  history_ok ids order → id ∉ ids →
  history_ok (remembered id ids order).1 (remembered id ids order).2.
Proof.
  intros (-> & Hnd & Hlen) Hid. unfold history_ok, remembered.
  rewrite elem_of_list_to_set in Hid.
  assert (NoDup (order ++ [id])) as Hnd'.
  { apply NoDup_app. split_and!; [done| |apply NoDup_singleton].
    intros x Hx ->%list_elem_of_singleton. done. }
  destruct (Nat.ltb_spec LIMITS_requestHistoryPerConnection (length (order ++ [id]))) as [Hlt|Hge].
  - rewrite length_app in Hlt. destruct order as [|expired order]; simpl in *.
    { exfalso. unfold LIMITS_requestHistoryPerConnection in Hlt. lia. }
    apply NoDup_cons in Hnd' as [Hex Hnd']. split_and!; [|done|rewrite length_app; simpl; lia].
    apply leibniz_equiv. set_solver.
  - simpl. split_and!; [set_solver|done|lia].
Qed.

Lemma remembered_subset id ids order : (remembered id ids order).1 ⊆ {[ id ]} ∪ ids.
Proof.
  unfold remembered. case_match; simpl; [|done]. destruct (order ++ [id]); simpl; set_solver.
Qed.

(** ** The Gateway session *)

Module GatewayInv.
Import Gateway.

Record inv (s : session) : Prop := {
  inv_seq : (1 ≤ nextSeq s ≤ MAX_SAFE_INTEGER)%Z;
  inv_pending : (size (pending s) ≤ LIMITS_pendingRequestsPerConnection)%nat;
  inv_viewers : (size (viewers s) ≤ LIMITS_viewersPerConnection)%nat;
  inv_history : history_ok (requestIds s) (requestOrder s);
  inv_typed : map_Forall (λ _ p,
    (p_type p = "media.get" ∧ p_viewerId p = None)
    ∨ ∃ op vid, p_type p = operation_name op ∧ p_viewerId p = Some vid) (pending s);
  inv_unique : ∀ i j p q vid,
    pending s !! i = Some p → pending s !! j = Some q →
    p_viewerId p = Some vid → p_viewerId q = Some vid → i = j;
  inv_caps : ∀ h, terminal s = false → residentHello s = Some h →
    ∃ caps i b, body h = Hello (s_instanceId s) caps i b
      ∧ negotiated s = List.filter (λ c, bool_decide (c ∈ caps)) (supportedCapabilities s);
  inv_open : ∀ i p vid,
    pending s !! i = Some p → p_viewerId p = Some vid → vid ∈ viewers s;
}.

Lemma viewer_busy_spec vid p :
  viewer_busy vid p = true ↔ ∃ i r, p !! i = Some r ∧ p_viewerId r = Some vid.
Proof.
  unfold viewer_busy. rewrite existsb_exists. split.
  - intros ([i r] & Hin & Hv%bool_decide_eq_true). exists i, r. split; [|done].
    by apply elem_of_map_to_list, list_elem_of_In.
  - intros (i & r & Hi & Hv). exists (i, r). split; [|by apply bool_decide_eq_true].
    by apply list_elem_of_In, elem_of_map_to_list.
Qed.

(** The guards of [registerRequest], in one proposition. *)
Definition may_register (f : frame request) (s : session) : Prop :=
  terminal s = false ∧ is_Some (residentHello s) ∧ connectionId f = s_connectionId s
  ∧ request_id (body f) ∉ requestIds s
  ∧ (size (pending s) < LIMITS_pendingRequestsPerConnection)%nat
  ∧ allowed (negotiated s) (gateway_type (request_body (body f))) = true
  ∧ (∀ vid, request_viewer (body f) = Some vid → viewer_busy vid (pending s) = false)
  ∧ match body f with
    | ReqViewer viewer_open _ vid =>
        vid ∉ viewers s ∧ (size (viewers s) < LIMITS_viewersPerConnection)%nat
    | ReqViewer _ _ vid => vid ∈ viewers s
    | ReqMedia _ _ => True
    end.

Definition opened (r : request) (v : gset string) : gset string :=
  match r with ReqViewer viewer_open _ vid => {[ vid ]} ∪ v | _ => v end.

(** The state [registerRequest] leaves when it accepts. *)
Definition registered (f : frame request) (s : session) : session :=
  let h := remembered (request_id (body f)) (requestIds s) (requestOrder s) in
  mkSession (s_connectionId s) (s_instanceId s) (supportedCapabilities s) (negotiated s)
    (residentHello s) (nextSeq s) (terminal s)
    (<[ request_id (body f) := {| p_type := gateway_type (request_body (body f));
                                  p_viewerId := request_viewer (body f) |} ]> (pending s))
    h.1 h.2 (opened (body f) (viewers s)).

Lemma remember_run id s :
  remember id s =
    if bool_decide (id ∉ requestIds s)
    then (inr tt, set_history (remembered id (requestIds s) (requestOrder s)) s)
    else (inl (GatewayProtocolError request_mismatch true), s).
Proof.
  unfold remember. rewrite rememberRequest_run. case_bool_decide; [done|].
  by destruct s.
Qed.

Lemma bind_remember {B} id (k : () → eff session exn B) s :
  (remember id ≫= k) s =
    if bool_decide (id ∉ requestIds s)
    then k tt (set_history (remembered id (requestIds s) (requestOrder s)) s)
    else (inl (GatewayProtocolError request_mismatch true), s).
Proof. unfold mbind, eff_bind. rewrite remember_run. by case_bool_decide. Qed.
Hint Rewrite @bind_remember : eff.

Lemma registerRequest_run f s :
  registerRequest f s = (inr tt, registered f s) ∧ may_register f s
  ∨ ∃ e, registerRequest f s = (inl e, s).
Proof.
  destruct f as [c q r]. destruct (registerRequest _ s) as [r' s'] eqn:H.
  unfold registerRequest, demand in H. destruct r as [[] rid vid|rid route].
  all: eff_inv H; try (right; eauto; fail).
  all: guards; try done.
  all: left; split; [done|]; split_and!; try done.
  all: intros ? [= <-]; done.
Qed.

(** The request a frame answers, and the viewer its answer retires. *)
Definition answers (b : ResidentBody) : option string :=
  match b with
  | OperationResult rid _ _ _ | MediaResult rid _ => Some rid
  | ResidentErr e => perr_requestId e
  | _ => None
  end.
Definition retires (b : ResidentBody) (p : PendingRequest) : option string :=
  match b with
  | OperationResult _ vid op err =>
      if String.eqb (p_type p) (match err with Some _ => "viewer.open" | None => "viewer.close" end)
      then Some vid else None
  | ResidentErr _ => if String.eqb (p_type p) "viewer.open" then p_viewerId p else None
  | _ => None
  end.

(** [p] is the outstanding request the frame answers. *)
Definition matches (b : ResidentBody) (p : PendingRequest) : Prop :=
  match b with
  | OperationResult _ vid op _ => op = JStr (p_type p) ∧ p_viewerId p = Some vid
  | MediaResult _ _ => p_type p = "media.get"
  | _ => True
  end.
Definition may_settle (b : ResidentBody) (s : session) : Prop :=
  match answers b with
  | Some rid => ∃ p, pending s !! rid = Some p ∧ matches b p
  | None => True
  end.

Definition settled (b : ResidentBody) (s : session) : session :=
  match answers b ≫= λ rid, p ← pending s !! rid; Some (rid, p) with
  | Some (rid, p) =>
      let s := set_pending (delete rid (pending s)) s in
      match retires b p with
      | Some vid => set_viewers (viewers s ∖ {[ vid ]}) s
      | None => s
      end
  | None => s
  end.

Lemma settle_run b s :
  settle b s = (inr tt, settled b s) ∧ may_settle b s
  ∨ ∃ c, settle b s = (inl (GatewayProtocolError c true), s).
Proof.
  unfold settle, settled, may_settle, protocolFailure, demand.
  rewrite bind_get.
  destruct b as [| rid vid op err | | rid o | [d fatal [rid|]]]; simpl; eauto.
  - destruct (pending s !! rid) as [p|] eqn:Hp; simpl; [|by eauto].
    rewrite bind_require. case_match eqn:Hg; [|by eauto].
    guards. destruct op as [| | |name| |]; try done. simpl in *. guards. subst name.
    left. split; [|by exists p].
    destruct err as [err|]; simpl; autorewrite with eff; simpl;
      destruct (String.eqb (p_type p) "viewer.open"), (String.eqb (p_type p) "viewer.close"); done.
  - destruct (pending s !! rid) as [p|] eqn:Hp; simpl; [|by eauto].
    rewrite bind_require. case_match eqn:Hg; [|by eauto].
    guards. left. split; [done|by exists p].
  - destruct (pending s !! rid) as [p|] eqn:Hp; simpl; [|by eauto].
    rewrite bind_modify. left. split; [|by exists p].
    destruct (p_viewerId p); destruct (String.eqb _ _); done.
Qed.

Lemma bind_settle {B} b (k : () → eff session exn B) s :
  (settle b ≫= k) s = k tt (settled b s) ∧ may_settle b s
  ∨ ∃ c, (settle b ≫= k) s = (inl (GatewayProtocolError c true), s).
Proof.
  unfold mbind, eff_bind.
  destruct (settle_run b s) as [[-> ?]|[c ->]]; [by left|right; by exists c].
Qed.

Definition is_hello (b : ResidentBody) : bool :=
  match b with Hello _ _ _ _ => true | _ => false end.

(** The guards [receiveFrame] puts on a decoded frame. *)
Definition may_receive (f : frame ResidentBody) (s : session) : Prop :=
  connectionId f = s_connectionId s ∧ seq f = nextSeq s
  ∧ match residentHello s with
    | None => ∃ caps i b negotiated, body f = Hello (s_instanceId s) caps i b
                ∧ negotiateCapabilities (supportedCapabilities s) caps = inr negotiated
    | Some _ =>
        is_hello (body f) = false
        ∧ allowed (negotiated s) (resident_type (body f)) = true
        ∧ match body f with ConsoleOutput vid _ => vid ∈ viewers s | _ => True end
        ∧ may_settle (body f) s
    end.

Definition received (f : frame ResidentBody) (s : session) : session :=
  match residentHello s with
  | None =>
      match body f with
      | Hello _ caps _ _ =>
          match negotiateCapabilities (supportedCapabilities s) caps with
          | inr n => advanceSequence (set_negotiated n (set_hello f s))
          | inl _ => s
          end
      | _ => s
      end
  | Some _ =>
      let s := advanceSequence (settled (body f) s) in
      if is_fatal (body f) then set_terminal s else s
  end.

Lemma handleFrame_run f s :
  handleFrame f s = (inr f, received f s) ∧ may_receive f s
  ∨ ∃ c s', handleFrame f s = (inl (GatewayProtocolError c true), s')
            ∧ (s' = s ∨ residentHello s = None ∧ s' = set_hello f s).
Proof.
  unfold handleFrame, may_receive, received, demand, protocolFailure.
  autorewrite with eff. simpl.
  destruct (bool_decide (connectionId f = _)) eqn:Hc; [|right; by eauto 10]. guards.
  destruct (Z.eqb_spec (seq f) (nextSeq s)); [|right; by eauto 10].
  destruct (residentHello s) as [h|] eqn:Hh.
  - destruct (body f) as [] eqn:Hb; simpl; autorewrite with eff; simpl; try by right; eauto 10.
    all: destruct (allowed _ _) eqn:Ha; [|right; by eauto 10].
    2: destruct (bool_decide _) eqn:Hv; [|right; by eauto 10]; guards.
    all: match goal with |- context [(settle ?b ≫= ?k) ?st] =>
           destruct (bind_settle b k st) as [[-> ?]|[c ->]] end; [|right; by eauto 10].
    all: autorewrite with eff; simpl; try (left; split_and!; by auto).
    left. split; [|by split_and!]. by destruct (perr_fatal _).
  - destruct (body f) as [instance caps i b| | | |] eqn:Hb; autorewrite with eff; simpl;
      try by right; eauto 10.
    destruct (bool_decide (instance = _)) eqn:Hi; [|right; by eauto 10]. guards. subst instance.
    destruct (negotiateCapabilities _ _) as [ex|n] eqn:Hn.
    + right. destruct ex as [c b'|].
      * apply negotiateCapabilities_fatal in Hn as ->. by eauto 10.
      * exfalso. by apply negotiateCapabilities_no_type in Hn.
    + left. split_and!; eauto 10.
Qed.

Lemma settle_ok b s : may_settle b s → settle b s = (inr tt, settled b s).
Proof.
  intros Hm. destruct (settle_run b s) as [[-> _]|[c H]]; [done|]. exfalso.
  unfold settle, may_settle, protocolFailure, demand in *. rewrite bind_get in H.
  destruct b as [| rid vid op err | | rid o | [d fatal [rid|]]]; simpl in *; try done;
    destruct Hm as (p & Hp & Hm); rewrite Hp in H; autorewrite with eff in H.
  - destruct Hm as [-> Hv]. simpl in H.
    rewrite String.eqb_refl, Hv, bool_decide_true in H by done.
    simpl in H. autorewrite with eff in H.
    destruct (_ && _); autorewrite with eff in H; simpl in H; destruct (_ && _); done.
  - rewrite Hm in H. done.
  - simpl in H. destruct (p_viewerId p); [destruct (String.eqb _ _)|]; done.
Qed.

Lemma handleFrame_ok f s :
  may_receive f s → handleFrame f s = (inr f, received f s).
Proof.
  intros (Hc & Hq & H). unfold handleFrame, received, demand, protocolFailure.
  autorewrite with eff. simpl. rewrite bool_decide_true, Hq, Z.eqb_refl by done.
  destruct (residentHello s) as [h|].
  - destruct H as (Hh & Hal & Hv & Hs). rewrite Hal.
    assert (∀ (k : () → eff session exn (frame ResidentBody)),
              (settle (body f) ≫= k) s = k tt (settled (body f) s)) as Hk.
    { intros k. unfold mbind, eff_bind. by rewrite settle_ok. }
    destruct (body f) eqn:Hb; try done; autorewrite with eff; simpl;
      rewrite ?bool_decide_true by done; rewrite Hk; autorewrite with eff; try done.
    simpl. by destruct (perr_fatal _).
  - destruct H as (caps & i & b & n & -> & Hn). autorewrite with eff. simpl.
    rewrite bool_decide_true by done. by rewrite Hn.
Qed.

(** *** Preservation *)

Lemma registered_inv f s : inv s → may_register f s → inv (registered f s).
Proof.
  intros [Hseq Hp Hv Hh Ht Hu Hc Ho] (Hterm & Hhello & Hconn & Hid & Hlt & Hal & Hbusy & Hop).
  assert (∀ i p vid, pending s !! i = Some p → p_viewerId p = Some vid →
            request_viewer (body f) ≠ Some vid) as Hfree.
  { intros i p vid Hi Hpv Hr. specialize (Hbusy _ Hr). apply not_true_iff_false in Hbusy.
    apply Hbusy, viewer_busy_spec. eauto. }
  assert (viewers s ⊆ opened (body f) (viewers s)) as Hsub.
  { destruct (body f) as [[] ? ?|]; simpl; set_solver. }
  split; simpl; try done.
  - rewrite map_size_insert. destruct (pending s !! request_id (body f)); simpl; lia.
  - destruct (body f) as [[] ? ?|]; simpl in *; try done.
    destruct Hop. rewrite size_union by set_solver. rewrite size_singleton. lia.
  - by apply remembered_ok.
  - apply map_Forall_insert_2; [|done]. destruct (body f) as [op ? ?|]; simpl; eauto.
  - intros i j p q vid. rewrite !lookup_insert_Some.
    intros [[<- <-]|[? Hi]] [[<- <-]|[? Hj]]; simpl; intros ??; try done; try by eauto.
    all: exfalso; eapply Hfree; eauto.
  - intros i p vid. rewrite lookup_insert_Some. intros [[<- <-]|[? Hi]] Hpv; simpl in *.
    + destruct (body f) as [[] ? ?|]; simpl in *; simplify_eq; set_solver.
    + apply Hsub. eauto.
Qed.

Lemma retires_viewer b p vid :
  matches b p → retires b p = Some vid → p_viewerId p = Some vid.
Proof.
  unfold matches, retires. intros. repeat case_match; naive_solver.
Qed.

(** What [settle] can touch: one pending request and its own viewer. *)
Lemma settled_cases b s :
  may_settle b s →
  (answers b = None ∧ settled b s = s)
  ∨ ∃ rid p, answers b = Some rid ∧ pending s !! rid = Some p ∧ matches b p
      ∧ settled b s = (match retires b p with
                       | Some vid => set_viewers (viewers s ∖ {[ vid ]})
                       | None => λ s, s
                       end) (set_pending (delete rid (pending s)) s).
Proof.
  unfold may_settle, settled. destruct (answers b) as [rid|]; simpl; [|by left].
  intros (p & Hp & Hm). right. exists rid, p. rewrite Hp. simpl. by destruct (retires b p).
Qed.

Lemma settled_inv b s : inv s → may_settle b s → inv (settled b s).
Proof.
  intros Hinv [[_ ->]|(rid & p & _ & Hp & Hm & ->)]%settled_cases; [done|].
  destruct Hinv as [Hseq Hps Hv Hh Ht Hu Hc Ho].
  assert (inv (set_pending (delete rid (pending s)) s)) as Hdel.
  { split; simpl; try done.
    - pose proof (map_size_delete rid (pending s)) as Hsz. rewrite Hp in Hsz. simpl in Hsz. lia.
    - by apply map_Forall_delete.
    - intros i j q r vid [? Hi]%lookup_delete_Some [? Hj]%lookup_delete_Some. eauto.
    - intros i q vid [? Hi]%lookup_delete_Some. eauto. }
  destruct (retires b p) as [vid|] eqn:Hr; [|done].
  apply retires_viewer in Hr; [|done].
  destruct Hdel as [Hseq' Hps' Hv' Hh' Ht' Hu' Hc' Ho'].
  split; simpl in *; try done.
  - transitivity (size (viewers s)); [|done]. apply subseteq_size. set_solver.
  - intros i q vid' Hi Hq. apply elem_of_difference. split; [by eauto|].
    intros ->%elem_of_singleton. apply lookup_delete_Some in Hi as [Hne Hi].
    apply Hne. eauto.
Qed.

Lemma set_terminal_inv s : inv s → inv (set_terminal s).
Proof. intros []. split; simpl; try done. Qed.
Lemma advanceSequence_inv s : inv s → inv (advanceSequence s).
Proof.
  intros Hinv. unfold advanceSequence. case_match; [by apply set_terminal_inv|].
  guards. destruct Hinv. split; simpl; try done. lia.
Qed.
#[local] Hint Resolve set_terminal_inv advanceSequence_inv settled_inv : elpis.

Lemma received_inv f s : inv s → may_receive f s → inv (received f s).
Proof.
  unfold may_receive, received. intros Hinv (Hc & Hq & H).
  destruct (residentHello s) as [h|] eqn:Hh.
  - destruct H as (_ & _ & _ & H). case_match; eauto with elpis.
  - destruct H as (caps & i & b & n & Hb & Hn). rewrite Hb, Hn. apply advanceSequence_inv.
    destruct Hinv as []. split; simpl; try done.
    intros h _ [= <-]. exists caps, i, b. split; [done|]. by apply negotiateCapabilities_inr.
Qed.

Section wire.
Context (sha256_hex : list Z → string).

Lemma receive_run i s :
  (∃ f, receive sha256_hex i s = (inr f, received f s) ∧ terminal s = false
        ∧ decodeResidentFrame sha256_hex i = inr f ∧ may_receive f s)
  ∨ (∃ c s', receive sha256_hex i s = (inl (GatewayProtocolError c true), set_terminal s')
        ∧ (s' = s ∨ terminal s = false ∧ ∃ f, s' = set_hello f s))
  ∨ (receive sha256_hex i s = (inl JsTypeError, s) ∧ terminal s = false
        ∧ decodeResidentFrame sha256_hex i = inl JsTypeError).
Proof.
  unfold receive, receiveFrame, guard_fatal, demand. autorewrite with eff.
  destruct (terminal s) eqn:Ht; simpl; [right; left; by eauto 10|].
  autorewrite with eff. destruct (decodeResidentFrame _ i) as [[c b|]|f] eqn:Hd; [|by auto|].
  { apply decodeResidentFrame_fatal in Hd as ->. right. left. by eauto 10. }
  destruct (handleFrame_run f s) as [[-> ?]|(c & s' & -> & Hs')]; [left; by eauto 10|].
  right. left. exists c, s'. split; [done|]. naive_solver.
Qed.

(** *** Runs: sequences of calls on one session *)

Inductive call := CRegister (f : frame request) | CReceive (i : input).
Inductive event :=
  | Registered (f : frame request)
  | Received (f : frame ResidentBody)
  | Threw (e : exn).

Definition exec (c : call) (s : session) : event * session :=
  match c with
  | CRegister f =>
      match registerRequest f s with
      | (inr _, s') => (Registered f, s')
      | (inl e, s') => (Threw e, s')
      end
  | CReceive i =>
      match receive sha256_hex i s with
      | (inr f, s') => (Received f, s')
      | (inl e, s') => (Threw e, s')
      end
  end.

Fixpoint run (cs : list call) (s : session) : list event * session :=
  match cs with
  | [] => ([], s)
  | c :: cs =>
      let '(ev, s) := exec c s in
      let '(evs, s) := run cs s in
      (ev :: evs, s)
  end.

(** The four things one call can do. *)
Inductive exec_result (s : session) : event → session → Prop :=
  | exec_registered f : may_register f s → exec_result s (Registered f) (registered f s)
  | exec_received f : terminal s = false → may_receive f s →
      exec_result s (Received f) (received f s)
  | exec_rejected e : exec_result s (Threw e) s
  | exec_fatal e s' : (s' = s ∨ terminal s = false ∧ ∃ f, s' = set_hello f s) →
      exec_result s (Threw e) (set_terminal s').

Lemma exec_spec c s : exec_result s (exec c s).1 (exec c s).2.
Proof.
  destruct c as [f|i]; simpl.
  - destruct (registerRequest_run f s) as [[-> ?]|[e ->]]; by constructor.
  - destruct (receive_run i s) as [(f & -> & ? & _ & ?)|[(c & s' & -> & ?)|[-> _]]];
      by constructor.
Qed.

Lemma exec_result_inv s ev s' : inv s → exec_result s ev s' → inv s'.
Proof.
  intros Hinv. destruct 1 as [f Hf|f Ht Hf|e|e s' [->|[Ht [f ->]]]];
    eauto using registered_inv, received_inv with elpis.
  destruct Hinv. by split.
Qed.

Lemma run_inv cs s : inv s → inv (run cs s).2.
Proof.
  revert s. induction cs as [|c cs IH]; intros s Hs; simpl; [done|].
  pose proof (exec_result_inv s _ _ Hs (exec_spec c s)) as Hs'.
  destruct (exec c s) as [ev s']. specialize (IH s' Hs').
  by destruct (run cs s').
Qed.

Lemma create_shape connection instance supported s :
  create connection instance supported = inr s →
  s = mkSession connection instance (supportedCapabilities s) [] None 1 false ∅ ∅ [] ∅.
Proof.
  unfold create, mbind, sum_bind, mret, sum_ret. intros H. case_match; by simplify_eq/=.
Qed.

Lemma create_inv connection instance supported s :
  create connection instance supported = inr s → inv s.
Proof.
  intros ->%create_shape. split; cbn -[size]; try done; try lia.
  - rewrite map_size_empty. lia.
  - rewrite size_empty. lia.
  - split_and!; [done|constructor|simpl; lia].
Qed.

Lemma exec_terminal c s : terminal s = true → ∃ e, exec c s = (Threw e, s).
Proof.
  intros Ht. pose proof (exec_spec c s) as H. destruct (exec c s) as [ev s'].
  simpl in H. destruct H as [f Hf|f Ht' Hf|e|e s' [->|[? ?]]]; try congruence; eauto.
  - destruct Hf as [? _]. congruence.
  - exists e. f_equal. destruct s; simpl in *. by subst.
Qed.

(** The frames a run delivered. *)
Definition delivered (evs : list event) : list (frame ResidentBody) :=
  omap (λ ev, match ev with Received f => Some f | _ => None end) evs.
Arguments delivered : simpl never.

Lemma run_terminal cs s :
  terminal s = true → (run cs s).2 = s ∧ Forall (λ ev, ∃ e, ev = Threw e) (run cs s).1.
Proof.
  intros Ht. induction cs as [|c cs IH]; simpl; [done|].
  destruct (exec_terminal c s Ht) as [e ->]. destruct (run cs s) as [evs s'].
  simpl in *. destruct IH. split; [done|]. constructor; eauto.
Qed.

Lemma delivered_terminal cs s : terminal s = true → delivered (run cs s).1 = [].
Proof.
  intros [_ H]%(run_terminal cs). induction H as [|? ? [e ->] _ IH]; [done|]. by apply IH.
Qed.

Lemma settled_frame b s :
  nextSeq (settled b s) = nextSeq s ∧ terminal (settled b s) = terminal s
  ∧ residentHello (settled b s) = residentHello s
  ∧ s_connectionId (settled b s) = s_connectionId s
  ∧ s_instanceId (settled b s) = s_instanceId s.
Proof. unfold settled. repeat case_match; by simplify_eq/=. Qed.

(** One accepted frame consumes one sequence number, or ends the session. *)
Lemma received_seq f s :
  may_receive f s →
  is_Some (residentHello (received f s))
  ∧ s_connectionId (received f s) = s_connectionId s
  ∧ s_instanceId (received f s) = s_instanceId s
  ∧ (terminal (received f s) = true ∨ nextSeq (received f s) = (nextSeq s + 1)%Z).
Proof.
  unfold may_receive, received. intros (_ & _ & H).
  destruct (residentHello s) as [h|] eqn:Hh.
  - pose proof (settled_frame (body f) s) as (Hq & _ & Hh' & Hc & Hi).
    unfold advanceSequence.
    destruct (is_fatal (body f)), (Z.eqb _ _) eqn:E; simpl; rewrite ?Hq, ?Hh', ?Hh; eauto 10.
  - destruct H as (caps & i & b & n & -> & ->). unfold advanceSequence.
    destruct (Z.eqb _ _); simpl; eauto 10.
Qed.

Lemma delivered_from cs s :
  let fs := delivered (run cs s).1 in
  seq <$> fs = seqZ (nextSeq s) (Z.of_nat (length fs))
  ∧ (∀ k f, fs !! k = Some f →
       connectionId f = s_connectionId s
       ∧ match k, residentHello s with
         | O, None => ∃ caps i b, body f = Hello (s_instanceId s) caps i b
         | _, _ => is_hello (body f) = false
         end).
Proof.
  revert s. induction cs as [|c cs IH]; intros s; simpl; [done|].
  pose proof (exec_spec c s) as H. destruct (exec c s) as [ev s']. simpl in H.
  destruct (run cs s') as [evs s''] eqn:Hrun. specialize (IH s'). rewrite Hrun in IH.
  simpl in *.
  destruct H as [f Hf|f Ht Hf|e|e s1 Hs1]; simpl in *; [by apply IH| |by apply IH|].
  - change (delivered (Received f :: evs)) with (f :: delivered evs) in *.
    destruct (received_seq f s Hf) as (Hh & Hc & Hi & Hq).
    destruct Hf as (Hconn & Hseq & Hf).
    assert (seq <$> delivered evs
            = seqZ (nextSeq s + 1) (Z.of_nat (length (delivered evs)))) as Htail.
    { destruct Hq as [Ht'| <-]; [|apply IH].
      pose proof (delivered_terminal cs _ Ht') as Hnil. rewrite Hrun in Hnil.
      simpl in Hnil. by rewrite Hnil. }
    split.
    + change (seq f :: (seq <$> delivered evs)
              = seqZ (nextSeq s) (Z.of_nat (S (length (delivered evs))))).
      rewrite Hseq, Htail, Nat2Z.inj_succ, (seqZ_cons _ (Z.succ _)) by lia.
      f_equal. f_equal; lia.
    + intros [|k] g; simpl.
      * intros [= <-]. split; [done|]. destruct (residentHello s); [by destruct Hf|].
        destruct Hf as (? & ? & ? & ? & ? & _). eauto.
      * intros [? Hg]%(proj2 IH). split; [congruence|].
        destruct Hh as [h' Hh']. rewrite Hh' in Hg. by destruct k.
  - pose proof (delivered_terminal cs (set_terminal s1) eq_refl) as Hnil.
    rewrite Hrun in Hnil. simpl in Hnil.
    change (delivered (Threw e :: evs)) with (delivered evs). by rewrite Hnil.
Qed.

(** *** Correlation of answers with requests *)

Definition registers (rid : string) (ev : event) : bool :=
  match ev with Registered f => bool_decide (request_id (body f) = rid) | _ => false end.
Definition answered (rid : string) (ev : event) : bool :=
  match ev with Received f => bool_decide (answers (body f) = Some rid) | _ => false end.
Definition count (P : event → bool) (evs : list event) : nat := length (List.filter P evs).
Definition outstanding (rid : string) (s : session) : nat :=
  match pending s !! rid with Some _ => 1 | None => 0 end.

Lemma advance_pending s : pending (advanceSequence s) = pending s.
Proof. unfold advanceSequence. by case_match. Qed.

Lemma received_pending f s :
  may_receive f s →
  (answers (body f) = None ∧ pending (received f s) = pending s)
  ∨ ∃ rid p, answers (body f) = Some rid ∧ pending s !! rid = Some p
             ∧ pending (received f s) = delete rid (pending s).
Proof.
  unfold may_receive, received. intros (_ & _ & H).
  destruct (residentHello s) as [h|] eqn:Hh.
  - destruct H as (_ & _ & _ & Hs).
    assert (∀ s', pending (if is_fatal (body f) then set_terminal (advanceSequence s')
                           else advanceSequence s') = pending s') as ->.
    { intros s'. destruct (is_fatal _); simpl; apply advance_pending. }
    destruct (settled_cases _ _ Hs) as [[Ha ->]|(rid & p & Ha & Hp & _ & ->)]; [by left|].
    right. exists rid, p. split_and!; try done. by destruct (retires _ p).
  - destruct H as (? & ? & ? & ? & -> & ->). left. by rewrite advance_pending.
Qed.

Lemma answers_bounded rid cs s :
  inv s →
  (count (answered rid) (run cs s).1 + outstanding rid (run cs s).2
   ≤ count (registers rid) (run cs s).1 + outstanding rid s)%nat.
Proof.
  revert s. induction cs as [|c cs IH]; intros s Hinv; simpl; [done|].
  pose proof (exec_spec c s) as H. pose proof (exec_result_inv s _ _ Hinv H) as Hinv'.
  destruct (exec c s) as [ev s']. simpl in H, Hinv'. specialize (IH s' Hinv').
  destruct (run cs s') as [evs s'']. unfold count in *. simpl in *.
  destruct H as [f Hf|f Ht Hf|e|e s1 Hs1]; simpl.
  - assert (outstanding rid (registered f s)
            ≤ (if bool_decide (request_id (body f) = rid) then 1 else 0) + outstanding rid s)%nat.
    { unfold outstanding. simpl. rewrite lookup_insert. case_bool_decide as E.
      - rewrite decide_True by done. destruct (pending s !! rid); simpl; lia.
      - rewrite decide_False by done. done. }
    case_bool_decide; simpl; lia.
  - unfold outstanding in *.
    destruct (received_pending f s Hf) as [[Ha Hp]|(rid' & p & Ha & Hs & Hp)];
      rewrite Hp in IH; rewrite Ha; [done|].
    destruct (decide (rid' = rid)) as [->|Hne].
    + rewrite lookup_delete_eq in IH. rewrite Hs, bool_decide_true by done. simpl. lia.
    + rewrite lookup_delete_ne in IH by done. rewrite bool_decide_false by congruence. done.
  - done.
  - assert (outstanding rid (set_terminal s1) = outstanding rid s) as Heq.
    { destruct Hs1 as [->|[_ [f ->]]]; done. }
    lia.
Qed.
End wire.
End GatewayInv.
