(* ===== verification/ResidentInv.v ===== *)
(** * The resident session: admitted requests, emitted frames, invariant

    The resident half of packages/gateway-protocol/src/session.ts. *)

From S2P Require Import Prelude Protocol Codec CodecFacts Session SessionInv.
Import Resident.
Local Open Scope string_scope.
Local Open Scope list_scope.

(** ** Pending operations *)

Lemma resident_viewer_busy_spec vid p :
  viewer_busy vid p = true ↔ ∃ i o, p !! i = Some o ∧ o_viewerId o = vid.
Proof.
  unfold viewer_busy. rewrite existsb_exists. split.
  - intros ([i r] & Hin & Hv%bool_decide_eq_true). exists i, r. split; [|done].
    by apply elem_of_map_to_list, list_elem_of_In.
  - intros (i & r & Hi & Hv). exists (i, r). split; [|by apply bool_decide_eq_true].
    by apply list_elem_of_In, elem_of_map_to_list.
Qed.

(** [opening] counts one for an opening operation. *)
Definition opens (o : PendingViewerOperation) : nat :=
  if bool_decide (o_operation o = viewer_open) then 1 else 0.

Lemma opening_insert_new p i o :
  p !! i = None → opening (<[ i := o ]> p) = (opens o + opening p)%nat.
Proof.
  intros Hi. unfold opening, opens.
  rewrite (map_to_list_insert p i o Hi). simpl. by case_bool_decide.
Qed.

Lemma opening_delete p i o :
  p !! i = Some o → opening p = (opens o + opening (delete i p))%nat.
Proof.
  intros Hi. rewrite <- (insert_delete_id p i o Hi) at 1.
  apply opening_insert_new, lookup_delete_eq.
Qed.

Lemma opening_insert p i o : (opening (<[ i := o ]> p) ≤ opens o + opening p)%nat.
Proof.
  destruct (p !! i) as [o'|] eqn:Hi; [|by rewrite opening_insert_new].
  rewrite <- insert_delete_eq, opening_insert_new by apply lookup_delete_eq.
  rewrite (opening_delete p i o' Hi). lia.
Qed.

(** ** Symbolic execution *)

Lemma resident_remember_run id s :
  remember id s =
    if bool_decide (id ∉ requestIds s)
    then (inr tt, set_history (remembered id (requestIds s) (requestOrder s)) s)
    else (inl (GatewayProtocolError request_mismatch true), s).
Proof.
  unfold remember. rewrite rememberRequest_run. case_bool_decide; [done|]. by destruct s.
Qed.

Lemma resident_bind_remember {B} id (k : () → eff session exn B) s :
  (remember id ≫= k) s =
    if bool_decide (id ∉ requestIds s)
    then k tt (set_history (remembered id (requestIds s) (requestOrder s)) s)
    else (inl (GatewayProtocolError request_mismatch true), s).
Proof. unfold mbind, eff_bind. rewrite resident_remember_run. by case_bool_decide. Qed.
Hint Rewrite @resident_bind_remember : eff.

(** The guards of the request arm, and the state it leaves. *)
Definition may_admit (b : GatewayBody) (s : session) : Prop :=
  match b with
  | ViewerOp op rid vid =>
      rid ∉ requestIds s
      ∧ (pending_count s < LIMITS_pendingRequestsPerConnection)%nat
      ∧ viewer_busy vid (pendingOperations s) = false
      ∧ match op with
        | viewer_open =>
            vid ∉ viewers s
            ∧ (size (viewers s) + opening (pendingOperations s)
               < LIMITS_viewersPerConnection)%nat
        | _ => vid ∈ viewers s
        end
  | MediaGet rid route =>
      rid ∉ requestIds s
      ∧ (pending_count s < LIMITS_pendingRequestsPerConnection)%nat
      ∧ (route = "/identity/avatar" → identity_v1 ∈ negotiated s)
  | ConsoleInput vid _ => vid ∈ viewers s
  | _ => True
  end.

Definition admitted (b : GatewayBody) (s : session) : session :=
  match b with
  | ViewerOp op rid vid =>
      set_operations (<[ rid := {| o_operation := op; o_viewerId := vid |} ]> (pendingOperations s))
        (set_history (remembered rid (requestIds s) (requestOrder s)) s)
  | MediaGet rid _ =>
      set_media ({[ rid ]} ∪ pendingMedia s)
        (set_history (remembered rid (requestIds s) (requestOrder s)) s)
  | _ => s
  end.

Lemma admit_run b s :
  admit_request b s = (inr tt, admitted b s) ∧ may_admit b s
  ∨ (¬ may_admit b s ∧ ∃ c, admit_request b s = (inl (GatewayProtocolError c true), s)).
Proof.
  destruct (admit_request b s) as [r s'] eqn:H. unfold admit_request, demand in H. rewrite bind_get in H.
  destruct b as [|[] rid vid|vid p|rid route|]; simpl in *; eff_inv H; try by left.
  all: guards; try (right; split; [naive_solver (first [congruence | lia])|by eauto]; fail).
  all: left; split; [done|]; try split_and!; auto.
  match goal with H : _ || _ = true |- _ => apply orb_true_iff in H as [?|?] end; guards; done.
Qed.

(** ** Emitted frames

    A frame the session builds says what the caller asked for, under the
    session's own envelope. *)
Section emit.
Context (sha256_hex : list Z → string).

Ltac emit_tac H :=
  apply decodeResidentFrame_inr in H as (fs & type & Hi & Hc & Hq & Ht & Hb);
  apply inputObject_value in Hi as ->; cbn in Ht; injection Ht as <-;
  apply id_inr in Hc as [Hc _]; cbn in Hc; injection Hc as Hc;
  match type of Hq with safeInteger ?v _ = _ =>
    match goal with s : session |- _ =>
      change v with (json_copy (JNum (num_of_Z (nextOutboundSeq s)))) in Hq end end;
  rewrite json_copy_num in Hq; apply safeInteger_num_inr in Hq as (Hq & _ & _).

Ltac field_tac :=
  repeat match goal with
  | H : Codec.id _ _ = inr _ |- _ => apply id_inr in H as [H _]; cbn in H; injection H as H
  | H : stringValue _ _ = inr _ |- _ =>
      apply stringValue_inr in H as [H _]; cbn in H; injection H as H
  | H : booleanValue _ = inr _ |- _ => cbn in H; injection H as H
  end.

Lemma errorDetail_json e e' : errorDetail (json_copy (error_json e)) = inr e' → e' = e.
Proof.
  unfold errorDetail. intros H. sum_inv. cbn in *. simplify_eq. field_tac.
  destruct e. by subst.
Qed.

Lemma emit_operation s rid vid op err f :
  decodeResidentFrame sha256_hex
    (InValue (envelope s "operation.result" (operation_effect rid vid op err))) = inr f →
  f = mkFrame (s_connectionId s) (nextOutboundSeq s)
        (OperationResult rid vid (JStr (operation_name op)) err).
Proof.
  intros H. unfold envelope, operation_effect in H. destruct f as [c q b].
  destruct err as [e|]; emit_tac H; simpl in Hc, Hq; subst c q; f_equal.
  all: unfold resident_body, operation_result_frame in Hb; simpl in Hb.
  all: sum_inv; subst.
  - match goal with H : errorDetail ?v = _ |- _ =>
      change v with (json_copy (error_json e)) in H; apply errorDetail_json in H as -> end.
    done.
  - done.
Qed.

Lemma emit_console s vid payload f :
  decodeResidentFrame sha256_hex
    (InValue (envelope s "console.output" [("viewerId", JStr vid); ("payload", JStr payload)]))
    = inr f →
  f = mkFrame (s_connectionId s) (nextOutboundSeq s) (ConsoleOutput vid payload).
Proof.
  intros H. unfold envelope in H. destruct f as [c q b].
  emit_tac H; simpl in Hc, Hq; subst c q; f_equal.
  unfold resident_body, console_frame, opaquePayload in Hb. simpl in Hb. sum_inv.
  subst. simpl in *. sum_inv. by subst.
Qed.

Lemma emit_media s rid o f :
  decodeResidentFrame sha256_hex
    (InValue (envelope s "media.result" (media_effect rid o))) = inr f →
  f = mkFrame (s_connectionId s) (nextOutboundSeq s) (MediaResult rid o).
Proof.
  intros H. unfold envelope, media_effect in H. destruct f as [c q b].
  destruct o as [mt n digest data|e]; emit_tac H; simpl in Hc, Hq; subst c q; f_equal.
  all: unfold resident_body, Codec.mediaResult in Hb; cbn [String.eqb Ascii.eqb Bool.eqb] in Hb;
    sum_inv; field_tac; subst; simpl negb in *; cbv iota in *.
  - match goal with H : _ = inr ?o |- MediaResult _ ?o = _ => f_equal; rename H into Hm end.
    sum_inv. field_tac.
    match goal with H : safeInteger ?v _ = _ |- _ =>
      change v with (json_copy (JNum (num_of_Z n))) in H; rewrite json_copy_num in H;
      apply safeInteger_num_inr in H as (-> & _ & _) end.
    match goal with H : sha ?v = _ |- _ => change v with (JStr digest) in H; unfold sha in H end.
    match goal with H : match ?v with _ => _ end = _ |- _ => change v with (JStr data) in H end.
    cbv iota in *. sum_inv. by subst.
  - match goal with H : _ = inr ?o |- MediaResult _ ?o = _ => f_equal; rename H into Hm end.
    sum_inv.
    match goal with H : errorDetail ?v = _ |- _ =>
      change v with (json_copy (error_json e)) in H; apply errorDetail_json in H as -> end.
    done.
Qed.
End emit.

(** ** Established sessions *)

(** A frame the guards let through is accepted. *)
Lemma handleFrame_ready f s a :
  gatewayAck s = Some a →
  connectionId f = s_connectionId s → seq f = nextSeq s →
  (∀ i c, body f ≠ HelloAck i c) →
  allowed (negotiated s) (gateway_type (body f)) = true →
  may_admit (body f) s →
  handleFrame f s =
    (inr f, (if is_fatal (body f) then set_terminal else λ s, s)
              (advanceSequence (admitted (body f) s))).
Proof.
  intros Ha Hc Hq Hb Hal Hm. unfold handleFrame, demand. autorewrite with eff. simpl.
  rewrite bool_decide_true, Hq, Z.eqb_refl, Ha, Hal by done.
  destruct (body f) as [i c| | | |] eqn:E; [by edestruct Hb|..].
  all: autorewrite with eff; simpl; unfold mbind at 1, eff_bind at 1.
  all: match goal with |- context [admit_request ?b ?st] =>
         destruct (admit_run b st) as [[-> _]|[Hn _]]; [|done] end.
  all: autorewrite with eff; simpl; try done.
  by destruct (perr_fatal _).
Qed.

(** The viewers a resident has after answering an operation. *)
Definition viewers_after (op : ViewerOperation) (err : option ErrorDetail) (vid : string)
    (v : gset string) : gset string :=
  match op, err with
  | viewer_open, None => {[ vid ]} ∪ v
  | viewer_close, None => v ∖ {[ vid ]}
  | _, _ => v
  end.

Section emitted.
Context (sha256_hex : list Z → string).

Lemma assert_ready_bind {B} (k : () → eff session exn B) s r s' :
  (assertOutboundReady ≫= k) s = (inr r, s') →
  terminal s = false ∧ is_Some (gatewayAck s) ∧ k tt s = (inr r, s').
Proof. unfold assertOutboundReady, demand. intros H. eff_inv H. by guards. Qed.

Lemma operationResult_inr rid vid op err s f s' :
  operationResult sha256_hex rid vid op err s = (inr f, s') →
  terminal s = false ∧ is_Some (gatewayAck s)
  ∧ pendingOperations s !! rid = Some {| o_operation := op; o_viewerId := vid |}
  ∧ f = mkFrame (s_connectionId s) (nextOutboundSeq s)
          (OperationResult rid vid (JStr (operation_name op)) err)
  ∧ s' = advanceOutboundSequence
           (set_viewers (viewers_after op err vid (viewers s))
              (set_operations (delete rid (pendingOperations s)) s)).
Proof.
  unfold operationResult. intros (Ht & Ha & H)%assert_ready_bind. rewrite bind_get in H.
  unfold protocolFailure, demand in H.
  destruct (pendingOperations s !! rid) as [[op' vid']|] eqn:Hp; [|done].
  autorewrite with eff in H. cbn [o_operation o_viewerId] in H. case_match eqn:Hg; [|done]. guards. subst.
  autorewrite with eff in H. destruct (decodeResidentFrame _ _) as [|f'] eqn:Hd; [done|].
  apply emit_operation in Hd. subst f'.
  destruct op, err; autorewrite with eff in H; simpl in H; simplify_eq; split_and!; try done.
  all: f_equal; by destruct s.
Qed.

Lemma consoleOutput_inr vid payload s f s' :
  consoleOutput sha256_hex vid payload s = (inr f, s') →
  terminal s = false ∧ is_Some (gatewayAck s) ∧ vid ∈ viewers s
  ∧ f = mkFrame (s_connectionId s) (nextOutboundSeq s) (ConsoleOutput vid payload)
  ∧ s' = advanceOutboundSequence s.
Proof.
  unfold consoleOutput. intros (Ht & Ha & H)%assert_ready_bind. rewrite bind_get in H.
  unfold demand in H. autorewrite with eff in H. case_match eqn:Hg; [|done]. guards.
  autorewrite with eff in H. destruct (decodeResidentFrame _ _) as [|f'] eqn:Hd; [done|].
  apply emit_console in Hd. subst f'. autorewrite with eff in H. by simplify_eq.
Qed.

Lemma mediaResult_inr rid o s f s' :
  mediaResult sha256_hex rid o s = (inr f, s') →
  terminal s = false ∧ is_Some (gatewayAck s) ∧ rid ∈ pendingMedia s
  ∧ f = mkFrame (s_connectionId s) (nextOutboundSeq s) (MediaResult rid o)
  ∧ s' = advanceOutboundSequence (set_media (pendingMedia s ∖ {[ rid ]}) s).
Proof.
  unfold mediaResult. intros (Ht & Ha & H)%assert_ready_bind. rewrite bind_get in H.
  unfold demand in H. autorewrite with eff in H. case_match eqn:Hg; [|done]. guards.
  autorewrite with eff in H. destruct (decodeResidentFrame _ _) as [|f'] eqn:Hd; [done|].
  apply emit_media in Hd. subst f'. autorewrite with eff in H. simpl in H. by simplify_eq.
Qed.
End emitted.

(** The viewers being opened form a set of the size [opening] counts. *)
Lemma opening_set (p : gmap string PendingViewerOperation) :
  (∀ i j o o', p !! i = Some o → p !! j = Some o' → o_viewerId o = o_viewerId o' → i = j) →
  ∃ V : gset string, size V = opening p
    ∧ ∀ v, v ∈ V ↔ ∃ i o, p !! i = Some o ∧ o_operation o = viewer_open ∧ o_viewerId o = v.
Proof.
  induction p as [|i o p Hi IH] using map_ind; intros Hu.
  { exists ∅. split; [by rewrite size_empty|]. intros v. split; [set_solver|].
    by intros (? & ? & ? & _). }
  destruct IH as (V & HV & Hspec).
  { intros a b x y Ha Hb. apply Hu; rewrite lookup_insert_ne; congruence. }
  assert (∀ j o', p !! j = Some o' → o_viewerId o' ≠ o_viewerId o) as Hne.
  { intros j o' Hj Heq. assert (j = i) as ->; [|congruence].
    eapply Hu; [|apply lookup_insert_eq|done]. rewrite lookup_insert_ne; congruence. }
  rewrite opening_insert_new by done. unfold opens. case_bool_decide as Hop.
  - exists ({[ o_viewerId o ]} ∪ V). split.
    + rewrite size_union, size_singleton; [lia|]. apply disjoint_singleton_l.
      intros (j & o' & Hj & _ & ?)%Hspec. by eapply Hne.
    + intros v. rewrite elem_of_union, elem_of_singleton, Hspec. setoid_rewrite lookup_insert_Some.
      split; [intros [->|(j & o' & ? & ? & ?)]|intros (j & o' & [[<- <-]|[? ?]] & ? & ?)].
      * eauto 10.
      * exists j, o'. split_and!; [right; split; congruence|done|done].
      * by left.
      * eauto 10.
  - exists V. split; [done|]. intros v. rewrite Hspec. setoid_rewrite lookup_insert_Some.
    split; [intros (j & o' & ? & ? & ?)|intros (j & o' & [[<- <-]|[? ?]] & ? & ?)]; [|done|eauto].
    exists j, o'. split_and!; [right; split; congruence|done|done].
Qed.
