(* ===== verification/ResidentRun.v ===== *)
(** * Runs of the resident session

    Every sequence of calls on one [ResidentInboundSession]
    (packages/gateway-protocol/src/session.ts): its invariant, the numbering of
    what it emits, and that it answers only requests it admitted. *)

From S2P Require Import Prelude Protocol Codec CodecFacts Session SessionInv ResidentInv.
Import Resident.
Local Open Scope string_scope.
Local Open Scope list_scope.

(** ** The invariant *)

Record inv (s : session) : Prop := {
  inv_seq : (1 ≤ nextSeq s ≤ MAX_SAFE_INTEGER)%Z;
  inv_outbound : (2 ≤ nextOutboundSeq s ≤ MAX_SAFE_INTEGER)%Z;
  inv_pending : (pending_count s ≤ LIMITS_pendingRequestsPerConnection)%nat;
  inv_viewers : (size (viewers s) + opening (pendingOperations s)
                 ≤ LIMITS_viewersPerConnection)%nat;
  inv_history : history_ok (requestIds s) (requestOrder s);
  inv_unique : ∀ i j o o',
    pendingOperations s !! i = Some o → pendingOperations s !! j = Some o' →
    o_viewerId o = o_viewerId o' → i = j;
  inv_open : ∀ i o, pendingOperations s !! i = Some o →
    (o_operation o = viewer_open ↔ o_viewerId o ∉ viewers s);
  inv_offer : ∀ a, gatewayAck s = Some a →
    ∀ c, c ∈ negotiated s → c ∈ offeredCapabilities s;
}.

(** ** One received frame *)

Definition received (f : frame GatewayBody) (s : session) : session :=
  match gatewayAck s with
  | None =>
      match body f with
      | GatewayErr _ => set_terminal (advanceSequence s)
      | HelloAck _ caps => advanceSequence (set_ack f caps s)
      | _ => s
      end
  | Some _ =>
      (if is_fatal (body f) then set_terminal else λ s, s)
        (advanceSequence (admitted (body f) s))
  end.

Definition may_receive (f : frame GatewayBody) (s : session) : Prop :=
  connectionId f = s_connectionId s ∧ seq f = nextSeq s
  ∧ match gatewayAck s with
    | None =>
        match body f with
        | GatewayErr e => perr_fatal e = true
        | HelloAck i caps => i = s_instanceId s ∧ ∀ c, c ∈ caps → c ∈ offeredCapabilities s
        | _ => False
        end
    | Some _ => allowed (negotiated s) (gateway_type (body f)) = true ∧ may_admit (body f) s
    end.

Lemma handshake_run f s :
  gatewayAck s = None →
  handshake f s = (inr f, received f s)
    ∧ match body f with
      | GatewayErr e => perr_fatal e = true
      | HelloAck i caps => i = s_instanceId s ∧ ∀ c, c ∈ caps → c ∈ offeredCapabilities s
      | _ => False
      end
  ∨ ∃ c, handshake f s = (inl (GatewayProtocolError c true), s).
Proof.
  intros Ha. unfold handshake, received, demand, protocolFailure. rewrite Ha, bind_get.
  destruct (body f) as [i caps| | | |e]; try by right; eauto.
  - autorewrite with eff. case_bool_decide as Hi; [|right; by eauto].
    assert (∀ x, forallb (λ c, bool_decide (c ∈ offeredCapabilities s)) caps
              && sameCapabilities caps x = true →
              ∀ c, c ∈ caps → c ∈ offeredCapabilities s) as Hall.
    { intros x H c Hc%list_elem_of_In. guards.
      rewrite forallb_forall in H. by specialize (H c Hc); guards. }
    destruct (gatewayCapabilities s) as [g|]; autorewrite with eff.
    + destruct (negotiateCapabilities _ g) as [[c b|]|n] eqn:Hn.
      * apply negotiateCapabilities_fatal in Hn as ->. right. by eauto.
      * by apply negotiateCapabilities_no_type in Hn.
      * autorewrite with eff. case_match eqn:Hg; [|right; by eauto]. left. split; [done|]. eauto.
    + autorewrite with eff. case_match eqn:Hg; [|right; by eauto]. left. split; [done|]. eauto.
  - autorewrite with eff. destruct (perr_fatal e) eqn:He; [|right; by eauto]. by left.
Qed.

Lemma bind_admit {B} b (k : () → eff session exn B) s :
  (admit_request b ≫= k) s = k tt (admitted b s) ∧ may_admit b s
  ∨ ∃ c, (admit_request b ≫= k) s = (inl (GatewayProtocolError c true), s).
Proof.
  unfold mbind, eff_bind.
  destruct (admit_run b s) as [[-> ?]|[_ [c ->]]]; [by left|right; by exists c].
Qed.

Lemma resident_handleFrame_run f s :
  handleFrame f s = (inr f, received f s) ∧ may_receive f s
  ∨ ∃ c, handleFrame f s = (inl (GatewayProtocolError c true), s).
Proof.
  unfold handleFrame, may_receive, demand. autorewrite with eff.
  case_bool_decide as Hc; [|right; by eauto].
  destruct (Z.eqb_spec (seq f) (nextSeq s)) as [Hq|]; [|right; by eauto].
  destruct (gatewayAck s) as [a|] eqn:Ha.
  - autorewrite with eff.
    match goal with |- context [if ?b then _ else _] => destruct b end; [|right; by eauto].
    autorewrite with eff. destruct (allowed _ _); [|right; by eauto].
    unfold received. rewrite Ha.
    match goal with |- context [(admit_request _ ≫= ?k) s] =>
      destruct (bind_admit (body f) k s) as [[-> ?]|[c ->]] end; [|right; by eauto].
    left. split; [|done]. autorewrite with eff.
    by destruct (is_fatal (body f)).
  - destruct (handshake_run f s Ha) as [[-> ?]|[c ->]]; [by left|right; by eauto].
Qed.

(** ** Preservation *)

Lemma resident_set_terminal_inv s : inv s → inv (set_terminal s).
Proof. by intros []. Qed.
Lemma resident_advanceSequence_inv s : inv s → inv (advanceSequence s).
Proof.
  intros Hs. unfold advanceSequence. case_match; [by apply resident_set_terminal_inv|]. guards.
  destruct Hs. split; simpl; try done. lia.
Qed.
Lemma advanceOutbound_inv s : inv s → inv (advanceOutboundSequence s).
Proof.
  intros Hs. unfold advanceOutboundSequence. case_match; [by apply resident_set_terminal_inv|]. guards.
  destruct Hs. split; simpl; try done. lia.
Qed.
#[local] Hint Resolve resident_set_terminal_inv resident_advanceSequence_inv advanceOutbound_inv : elpis.

Lemma admitted_inv b s : inv s → may_admit b s → inv (admitted b s).
Proof.
  intros Hs Hm. destruct b as [|op rid vid| |rid route|]; simpl; try done.
  - destruct Hm as (Hid & Hn & Hbusy & Hop). destruct Hs as [H1 H2 H3 H4 H5 H6 H7 H8].
    assert (∀ i o, pendingOperations s !! i = Some o → o_viewerId o ≠ vid) as Hfree.
    { intros i o Hi Hv. apply not_true_iff_false in Hbusy. apply Hbusy, resident_viewer_busy_spec. eauto. }
    split; simpl; try done.
    + unfold pending_count in *. simpl. rewrite map_size_insert.
      destruct (pendingOperations s !! rid); simpl; lia.
    + pose proof (opening_insert (pendingOperations s) rid {| o_operation := op; o_viewerId := vid |})
        as Ho. unfold opens in Ho. simpl in Ho. case_bool_decide; [subst op; destruct Hop; lia|].
      unfold LIMITS_viewersPerConnection in *. lia.
    + by apply remembered_ok.
    + intros i j o o'. rewrite !lookup_insert_Some.
      intros [[<- <-]|[? Hi]] [[<- <-]|[? Hj]]; simpl; intros ?; try done; try by eauto.
      all: exfalso; eapply Hfree; eauto.
    + intros i o. rewrite lookup_insert_Some. intros [[<- <-]|[? Hi]]; [|by eauto]. simpl.
      destruct op; naive_solver.
  - destruct Hm as (Hid & Hn & _). destruct Hs as [H1 H2 H3 H4 H5 H6 H7 H8].
    split; simpl; try done; [|by apply remembered_ok].
    unfold pending_count in *. simpl.
    pose proof (size_union_alt {[ rid ]} (pendingMedia s)) as Hu.
    assert (size (pendingMedia s ∖ {[ rid ]}) ≤ size (pendingMedia s))%nat
      by (apply subseteq_size; set_solver).
    rewrite size_singleton in Hu. lia.
Qed.

Lemma resident_received_inv f s : inv s → may_receive f s → inv (received f s).
Proof.
  unfold may_receive, received. intros Hs (_ & _ & H).
  destruct (gatewayAck s) as [a|] eqn:Ha.
  - destruct H as [_ H]. pose proof (admitted_inv _ _ Hs H). destruct (is_fatal _); eauto with elpis.
  - destruct (body f) as [i caps| | | |e]; try done; [|by eauto with elpis].
    apply resident_advanceSequence_inv. destruct H as [_ Hc]. destruct Hs. by split.
Qed.

(** Answering an operation moves its viewer. *)
Lemma answered_inv rid vid op err s :
  inv s → pendingOperations s !! rid = Some {| o_operation := op; o_viewerId := vid |} →
  inv (set_viewers (viewers_after op err vid (viewers s))
         (set_operations (delete rid (pendingOperations s)) s)).
Proof.
  intros [H1 H2 H3 H4 H5 H6 H7 H8] Hp.
  assert (∀ i o, delete rid (pendingOperations s) !! i = Some o →
            o_viewerId o ≠ vid ∧ pendingOperations s !! i = Some o) as Hothers.
  { intros i o [Hne Hi]%lookup_delete_Some. split; [|done]. intros Hv. apply Hne.
    by eapply H6; [apply Hp|apply Hi|]. }
  pose proof (opening_delete _ _ _ Hp) as Ho. unfold opens in Ho. simpl in Ho.
  split; cbn -[size]; try done.
  - unfold pending_count in *. cbn -[size]. rewrite map_size_delete, Hp. cbn -[size]. lia.
  - assert (size (viewers_after op err vid (viewers s)) ≤
      (if bool_decide (op = viewer_open) then 1 else 0) + size (viewers s))%nat.
    { destruct op, err; simpl; try lia.
      - rewrite size_union_alt, size_singleton.
        assert (size (viewers s ∖ {[ vid ]}) ≤ size (viewers s))%nat
          by (apply subseteq_size; set_solver). lia.
      - apply subseteq_size. set_solver. }
    case_bool_decide; lia.
  - intros i j o o' [_ Hi]%Hothers [_ Hj]%Hothers. eauto.
  - intros i o [Hne Hi]%Hothers. rewrite (H7 i o Hi). destruct op, err; simpl; set_solver.
Qed.

(** ** Runs *)

Section runs.
Context (sha256_hex : list Z → string).

Inductive call :=
  | CReceive (i : input)
  | COperation (rid vid : string) (op : ViewerOperation) (err : option ErrorDetail)
  | CConsole (vid payload : string)
  | CMedia (rid : string) (o : MediaOutcome)
  | CComplete (i : input).
Inductive event :=
  | Received (f : frame GatewayBody)
  | Emitted (f : frame ResidentBody)
  | Threw (e : exn).

Definition outcome {A} (k : A → event) (r : (exn + A) * session) : event * session :=
  match r with (inr a, s) => (k a, s) | (inl e, s) => (Threw e, s) end.

Definition exec (c : call) (s : session) : event * session :=
  match c with
  | CReceive i => outcome Received (receive sha256_hex i s)
  | COperation rid vid op err => outcome Emitted (operationResult sha256_hex rid vid op err s)
  | CConsole vid payload => outcome Emitted (consoleOutput sha256_hex vid payload s)
  | CMedia rid o => outcome Emitted (mediaResult sha256_hex rid o s)
  | CComplete i => outcome Emitted (completeOperation sha256_hex i s)
  end.

Fixpoint run (cs : list call) (s : session) : list event * session :=
  match cs with
  | [] => ([], s)
  | c :: cs =>
      let '(ev, s) := exec c s in
      let '(evs, s) := run cs s in
      (ev :: evs, s)
  end.

(** What one call can do. *)
Inductive exec_result (s : session) : event → session → Prop :=
  | exec_received f : terminal s = false → may_receive f s →
      exec_result s (Received f) (received f s)
  | exec_operation rid vid op err :
      terminal s = false →
      pendingOperations s !! rid = Some {| o_operation := op; o_viewerId := vid |} →
      exec_result s
        (Emitted (mkFrame (s_connectionId s) (nextOutboundSeq s)
           (OperationResult rid vid (JStr (operation_name op)) err)))
        (advanceOutboundSequence
           (set_viewers (viewers_after op err vid (viewers s))
              (set_operations (delete rid (pendingOperations s)) s)))
  | exec_console vid payload :
      terminal s = false → vid ∈ viewers s →
      exec_result s
        (Emitted (mkFrame (s_connectionId s) (nextOutboundSeq s) (ConsoleOutput vid payload)))
        (advanceOutboundSequence s)
  | exec_media rid o :
      terminal s = false → rid ∈ pendingMedia s →
      exec_result s
        (Emitted (mkFrame (s_connectionId s) (nextOutboundSeq s) (MediaResult rid o)))
        (advanceOutboundSequence (set_media (pendingMedia s ∖ {[ rid ]}) s))
  | exec_rejected e : exec_result s (Threw e) s
  | exec_fatal e : exec_result s (Threw e) (set_terminal s).

(** A refused emission leaves the session alone. *)
Lemma assert_ready_inl {B} (k : () → eff session exn B) s e s' :
  (assertOutboundReady ≫= k) s = (inl e, s') → s' = s ∨ k tt s = (inl e, s').
Proof.
  unfold assertOutboundReady, demand. intros H. autorewrite with eff in H.
  destruct (negb _); [|left; congruence]. autorewrite with eff in H.
  case_bool_decide; [by right|left; congruence].
Qed.

Ltac refused H :=
  intros [->|H]%assert_ready_inl; [done|]; rewrite bind_get in H;
  unfold demand, protocolFailure in H.
Ltac refused_decode H :=
  autorewrite with eff in H;
  destruct (decodeResidentFrame _ _); [congruence|]; autorewrite with eff in H.

Lemma operationResult_inl rid vid op err s e s' :
  operationResult sha256_hex rid vid op err s = (inl e, s') → s' = s.
Proof.
  unfold operationResult. refused H.
  destruct (pendingOperations s !! rid) as [o|]; [|unfold throw in H; congruence].
  autorewrite with eff in H. destruct (_ && _); [|congruence]. refused_decode H.
  by destruct op, err.
Qed.
Lemma consoleOutput_inl vid payload s e s' :
  consoleOutput sha256_hex vid payload s = (inl e, s') → s' = s.
Proof.
  unfold consoleOutput. refused H. autorewrite with eff in H.
  case_bool_decide; [|congruence]. refused_decode H. congruence.
Qed.
Lemma mediaResult_inl rid o s e s' :
  mediaResult sha256_hex rid o s = (inl e, s') → s' = s.
Proof.
  unfold mediaResult. refused H. autorewrite with eff in H.
  case_bool_decide; [|congruence]. refused_decode H. congruence.
Qed.

Lemma exec_operation_spec rid vid op err s :
  let r := outcome Emitted (operationResult sha256_hex rid vid op err s) in
  exec_result s r.1 r.2.
Proof.
  destruct (operationResult sha256_hex rid vid op err s) as [[e|f] s'] eqn:H; simpl.
  - apply operationResult_inl in H as ->. constructor.
  - apply operationResult_inr in H as (? & _ & ? & -> & ->). by constructor.
Qed.

Lemma resident_exec_spec c s : exec_result s (exec c s).1 (exec c s).2.
Proof.
  destruct c as [i|rid vid op err|vid payload|rid o|i]; simpl; [|apply exec_operation_spec|..].
  - unfold receive, receiveFrame, guard_fatal, demand. autorewrite with eff.
    destruct (terminal s) eqn:Ht; [constructor|]. autorewrite with eff.
    destruct (decodeGatewayFrame _ i) as [[c b|]|f] eqn:Hd; simpl; [|constructor|].
    { apply decodeGatewayFrame_fatal in Hd as ->. constructor. }
    destruct (resident_handleFrame_run f s) as [[-> ?]|[c ->]]; by constructor.
  - destruct (consoleOutput sha256_hex vid payload s) as [[e|f] s'] eqn:H; simpl.
    + apply consoleOutput_inl in H as ->. constructor.
    + apply consoleOutput_inr in H as (? & _ & ? & -> & ->). by constructor.
  - destruct (mediaResult sha256_hex rid o s) as [[e|f] s'] eqn:H; simpl.
    + apply mediaResult_inl in H as ->. constructor.
    + apply mediaResult_inr in H as (? & _ & ? & -> & ->). by constructor.
  - unfold completeOperation, demand, protocolFailure. autorewrite with eff.
    destruct (decodeResidentFrame _ i) as [e|f]; simpl; [constructor|].
    destruct (body f) as [|rid vid op err| | |]; try constructor.
    autorewrite with eff. case_bool_decide; [|constructor].
    destruct (Z.eqb _ _); [|constructor].
    repeat (destruct (is_str _ _); [apply exec_operation_spec|]).
    unfold assertOutboundReady, demand. autorewrite with eff.
    destruct (negb _); [|constructor]. case_bool_decide; constructor.
Qed.

Lemma resident_exec_result_inv s ev s' : inv s → exec_result s ev s' → inv s'.
Proof.
  intros Hs. destruct 1; eauto using resident_received_inv, answered_inv with elpis.
  apply advanceOutbound_inv. destruct Hs. split; simpl; try done.
  unfold pending_count in *. cbn -[size].
  assert (size (pendingMedia s ∖ {[ rid ]}) ≤ size (pendingMedia s))%nat
    by (apply subseteq_size; set_solver). lia.
Qed.

Lemma resident_run_inv cs s : inv s → inv (run cs s).2.
Proof.
  revert s. induction cs as [|c cs IH]; intros s Hs; simpl; [done|].
  pose proof (resident_exec_result_inv s _ _ Hs (resident_exec_spec c s)) as Hs'.
  destruct (exec c s) as [ev s']. specialize (IH s' Hs'). by destruct (run cs s').
Qed.

Lemma resident_create_inv connection instance offered gateway s :
  create connection instance offered gateway = inr s → inv s.
Proof.
  unfold create. intros H. sum_inv. subst.
  split; try done; unfold pending_count;
    cbn [pendingOperations pendingMedia viewers requestIds requestOrder];
    rewrite ?size_empty, ?map_size_empty.
  - unfold LIMITS_pendingRequestsPerConnection. lia.
  - change (opening ∅) with 0%nat. unfold LIMITS_viewersPerConnection. lia.
  - split_and!; [done|constructor|simpl; lia].
Qed.

Lemma resident_exec_terminal c s :
  terminal s = true → ∃ e, exec c s = (Threw e, s).
Proof.
  intros Ht. pose proof (resident_exec_spec c s) as H. destruct (exec c s) as [ev s']. simpl in H.
  destruct H; try congruence; eauto.
  exists e. f_equal. destruct s; simpl in *. by subst.
Qed.

Lemma resident_run_terminal cs s :
  terminal s = true → (run cs s).2 = s ∧ Forall (λ ev, ∃ e, ev = Threw e) (run cs s).1.
Proof.
  intros Ht. induction cs as [|c cs IH]; simpl; [done|].
  destruct (resident_exec_terminal c s Ht) as [e ->]. destruct (run cs s) as [evs s'].
  simpl in *. destruct IH. split; [done|]. constructor; eauto.
Qed.

(** *** What a run emitted *)

Definition emitted (evs : list event) : list (frame ResidentBody) :=
  omap (λ ev, match ev with Emitted f => Some f | _ => None end) evs.
Arguments emitted : simpl never.

Lemma emitted_terminal cs s : terminal s = true → emitted (run cs s).1 = [].
Proof.
  intros [_ H]%(resident_run_terminal cs). induction H as [|? ? [e ->] _ IH]; [done|]. by apply IH.
Qed.

(** One emission takes one outbound number; nothing else does. *)
Lemma exec_outbound s ev s' :
  exec_result s ev s' →
  s_connectionId s' = s_connectionId s
  ∧ match ev with
    | Emitted f => connectionId f = s_connectionId s ∧ seq f = nextOutboundSeq s
        ∧ (terminal s' = true ∨ nextOutboundSeq s' = (nextOutboundSeq s + 1)%Z)
    | _ => nextOutboundSeq s' = nextOutboundSeq s
    end.
Proof.
  destruct 1; simpl; try done; unfold advanceOutboundSequence; cbn.
  - unfold received, advanceSequence, admitted.
    destruct (gatewayAck s), (body f); simpl; repeat (case_match; simpl); done.
  - destruct (Z.eqb _ _); simpl; auto 10.
  - destruct (Z.eqb _ _); simpl; auto 10.
  - destruct (Z.eqb _ _); simpl; auto 10.
Qed.

Lemma emitted_from cs s :
  let fs := emitted (run cs s).1 in
  seq <$> fs = seqZ (nextOutboundSeq s) (Z.of_nat (length fs))
  ∧ Forall (λ f, connectionId f = s_connectionId s) fs.
Proof.
  revert s. induction cs as [|c cs IH]; intros s; simpl; [done|].
  pose proof (resident_exec_spec c s) as H. destruct (exec c s) as [ev s']. simpl in H.
  apply exec_outbound in H as [Hc H].
  destruct (run cs s') as [evs s''] eqn:Hrun. specialize (IH s'). rewrite Hrun in IH.
  simpl in *. rewrite Hc in IH. destruct ev as [f|f|e].
  - change (emitted (Received f :: evs)) with (emitted evs). by rewrite <- H.
  - change (emitted (Emitted f :: evs)) with (f :: emitted evs).
    destruct H as (Hf & Hq & Ht). split; [|constructor; [done|apply IH]].
    assert (seq <$> emitted evs
            = seqZ (nextOutboundSeq s + 1) (Z.of_nat (length (emitted evs)))) as Htail.
    { destruct Ht as [Ht| <-]; [|apply IH]. pose proof (emitted_terminal cs s' Ht) as Hnil.
      rewrite Hrun in Hnil. simpl in Hnil. by rewrite Hnil. }
    rewrite fmap_cons, Hq, Htail. simpl.
    rewrite Nat2Z.inj_succ, (seqZ_cons _ (Z.succ _)) by lia. f_equal. f_equal; lia.
  - change (emitted (Threw e :: evs)) with (emitted evs). by rewrite <- H.
Qed.

(** *** Requests and answers *)

Definition requests (rid : string) (ev : event) : bool :=
  match ev with
  | Received (mkFrame _ _ (ViewerOp _ r _ | MediaGet r _)) => String.eqb r rid
  | _ => false
  end.
Definition answers (rid : string) (ev : event) : bool :=
  match ev with
  | Emitted (mkFrame _ _ (OperationResult r _ _ _ | MediaResult r _)) => String.eqb r rid
  | _ => false
  end.
Definition count (P : event → bool) (evs : list event) : nat := length (List.filter P evs).
Definition held (rid : string) (s : session) : nat :=
  match pendingOperations s !! rid with Some _ => 1 | None => 0 end
  + (if bool_decide (rid ∈ pendingMedia s) then 1 else 0).

Definition one (b : bool) : nat := if b then 1 else 0.

Lemma exec_held rid s ev s' :
  exec_result s ev s' →
  (one (answers rid ev) + held rid s' ≤ one (requests rid ev) + held rid s)%nat.
Proof.
  destruct 1 as [f Ht Hm|r vid op err Ht Hp|vid p Ht Hv|r o Ht Hr|e|e]; simpl; try lia.
  - unfold received, advanceSequence, may_receive in *. destruct f as [c q b]. simpl in *.
    destruct (gatewayAck s).
    + assert (∀ s0, held rid ((if is_fatal b then set_terminal else λ s, s)
                (if Z.eqb (nextSeq s0) MAX_SAFE_INTEGER then set_terminal s0
                 else set_seq (nextSeq s0 + 1) s0)) = held rid s0) as ->.
      { intros s0. by destruct (is_fatal b), (Z.eqb _ _). }
      unfold held. destruct b as [|op r vid| |r route|]; simpl; try lia.
      * destruct (String.eqb_spec r rid) as [->|Hne]; simpl.
        -- rewrite lookup_insert_eq. destruct (pendingOperations s !! rid); lia.
        -- by rewrite lookup_insert_ne.
      * destruct (String.eqb_spec r rid) as [->|Hne]; simpl.
        -- rewrite bool_decide_true by set_solver. case_bool_decide; lia.
        -- rewrite (bool_decide_ext (rid ∈ {[r]} ∪ pendingMedia s) (rid ∈ pendingMedia s));
             [lia|set_solver].
    + unfold held. destruct b; simpl; try lia; destruct (Z.eqb (nextSeq s) _); simpl; lia.
  - unfold held, advanceOutboundSequence.
    destruct (String.eqb_spec r rid) as [->|Hne]; destruct (Z.eqb _ _); simpl;
      rewrite ?lookup_delete_eq, ?lookup_delete_ne by done; rewrite ?Hp; lia.
  - unfold held, advanceOutboundSequence. destruct (Z.eqb _ _); simpl; lia.
  - unfold held, advanceOutboundSequence.
    destruct (String.eqb_spec r rid) as [->|Hne]; destruct (Z.eqb _ _); simpl.
    1, 2: rewrite (bool_decide_true (rid ∈ pendingMedia s)) by done;
          rewrite bool_decide_false by set_solver; lia.
    all: rewrite (bool_decide_ext (rid ∈ pendingMedia s ∖ {[r]}) (rid ∈ pendingMedia s));
      [lia|set_solver].
  - done.
Qed.

Lemma resident_answers_bounded rid cs s :
  (count (answers rid) (run cs s).1 + held rid (run cs s).2
   ≤ count (requests rid) (run cs s).1 + held rid s)%nat.
Proof.
  revert s. induction cs as [|c cs IH]; intros s; simpl; [done|].
  pose proof (exec_held rid s _ _ (resident_exec_spec c s)) as H.
  destruct (exec c s) as [ev s']. specialize (IH s'). destruct (run cs s') as [evs s''].
  unfold count, one in *. simpl in *.
  destruct (answers rid ev), (requests rid ev); simpl; lia.
Qed.
End runs.
