(* ===== verification/Link.v ===== *)
(** * A live link: both sessions and the wire between them

    The Gateway of packages/gateway/src/resident-link-registry.ts sends requests
    its session registered and console input for viewers its broker holds
    ready; the resident answers through its own session; the socket delivers in
    order.  The two sessions are separate programs that each reject what they
    consider a protocol violation by killing the link.  Here they run together:
    in every reachable state, neither ever rejects the other's next frame. *)

From S2P Require Import Prelude Protocol Codec CodecFacts Session SessionInv ResidentInv.
Local Open Scope string_scope.
Local Open Scope list_scope.

Record link := mkLink {
  gw : Gateway.session;
  rs : Resident.session;
  nextOutboundSeq : Z;                (* LiveLink.nextOutboundSeq *)
  down : list (frame GatewayBody);    (* sent by the Gateway, not yet received *)
  up : list (frame ResidentBody);     (* sent by the resident, not yet received *)
  used : gset string;                 (* request ids generated so far *)
}.

(** The broker keeps a viewer's console input for after its last operation on
    that viewer was answered. *)
Definition idle (vid : string) (s : Gateway.session) : Prop :=
  vid ∈ Gateway.viewers s ∧ Gateway.viewer_busy vid (Gateway.pending s) = false.

Section system.
Context (sha256_hex : list Z → string).

(** One step of the link.  The rules the peers keep beyond what their sessions check:
    request ids are new, the avatar is asked for only with identity.v1, console input
    goes to an [idle] viewer, and numbers stay safe integers. *)
Inductive step (l : link) : link → Prop :=
  | step_request q g' :
      Gateway.request_id q ∉ used l →
      (nextOutboundSeq l < MAX_SAFE_INTEGER)%Z →
      (∀ rid, q = Gateway.ReqMedia rid "/identity/avatar" →
              identity_v1 ∈ Gateway.negotiated (gw l)) →
      Gateway.registerRequest
        (mkFrame (Gateway.s_connectionId (gw l)) (nextOutboundSeq l) q) (gw l) = (inr tt, g') →
      step l (mkLink g' (rs l) (nextOutboundSeq l + 1)
                (down l ++ [mkFrame (Gateway.s_connectionId (gw l)) (nextOutboundSeq l)
                              (Gateway.request_body q)])
                (up l) ({[ Gateway.request_id q ]} ∪ used l))
  | step_input vid payload :
      idle vid (gw l) →
      (nextOutboundSeq l < MAX_SAFE_INTEGER)%Z →
      step l (mkLink (gw l) (rs l) (nextOutboundSeq l + 1)
                (down l ++ [mkFrame (Gateway.s_connectionId (gw l)) (nextOutboundSeq l)
                              (ConsoleInput vid payload)])
                (up l) (used l))
  | step_down f rest r' :
      down l = f :: rest →
      Resident.handleFrame f (rs l) = (inr f, r') →
      step l (mkLink (gw l) r' (nextOutboundSeq l) rest (up l) (used l))
  | step_operation rid vid op err f r' :
      (Resident.nextOutboundSeq (rs l) < MAX_SAFE_INTEGER)%Z →
      Resident.operationResult sha256_hex rid vid op err (rs l) = (inr f, r') →
      step l (mkLink (gw l) r' (nextOutboundSeq l) (down l) (up l ++ [f]) (used l))
  | step_output vid payload f r' :
      (Resident.nextOutboundSeq (rs l) < MAX_SAFE_INTEGER)%Z →
      Resident.consoleOutput sha256_hex vid payload (rs l) = (inr f, r') →
      step l (mkLink (gw l) r' (nextOutboundSeq l) (down l) (up l ++ [f]) (used l))
  | step_media rid o f r' :
      (Resident.nextOutboundSeq (rs l) < MAX_SAFE_INTEGER)%Z →
      Resident.mediaResult sha256_hex rid o (rs l) = (inr f, r') →
      step l (mkLink (gw l) r' (nextOutboundSeq l) (down l) (up l ++ [f]) (used l))
  | step_up f rest g' :
      up l = f :: rest →
      Gateway.handleFrame f (gw l) = (inr f, g') →
      step l (mkLink g' (rs l) (nextOutboundSeq l) (down l) rest (used l)).
End system.

(** A link right after the handshake: hello and its acknowledgement exchanged,
    the same negotiated capabilities on both sides, nothing in flight. *)
Definition established (l : link) : Prop :=
  GatewayInv.inv (gw l)
  ∧ Gateway.terminal (gw l) = false ∧ Resident.terminal (rs l) = false
  ∧ is_Some (Gateway.residentHello (gw l)) ∧ is_Some (Resident.gatewayAck (rs l))
  ∧ Resident.s_connectionId (rs l) = Gateway.s_connectionId (gw l)
  ∧ Resident.negotiated (rs l) = Gateway.negotiated (gw l)
  ∧ Gateway.nextSeq (gw l) = 2%Z ∧ Resident.nextOutboundSeq (rs l) = 2%Z
  ∧ Resident.nextSeq (rs l) = 2%Z ∧ nextOutboundSeq l = 2%Z
  ∧ Gateway.pending (gw l) = ∅ ∧ Gateway.viewers (gw l) = ∅
  ∧ Resident.pendingOperations (rs l) = ∅ ∧ Resident.pendingMedia (rs l) = ∅
  ∧ Resident.viewers (rs l) = ∅ ∧ Resident.requestIds (rs l) = ∅
  ∧ Gateway.requestIds (gw l) = ∅ ∧ down l = [] ∧ up l = [].

(** ** Where a request is *)

Definition request_of (b : GatewayBody) : option string :=
  match b with ViewerOp _ rid _ | MediaGet rid _ => Some rid | _ => None end.

Definition in_down (rid : string) (l : list (frame GatewayBody)) : nat :=
  length (List.filter (λ f, bool_decide (request_of (body f) = Some rid)) l).
Definition in_up (rid : string) (l : list (frame ResidentBody)) : nat :=
  length (List.filter (λ f, bool_decide (GatewayInv.answers (body f) = Some rid)) l).
Definition at_resident (rid : string) (r : Resident.session) : nat :=
  match Resident.pendingOperations r !! rid with Some _ => 1 | None => 0 end
  + (if bool_decide (rid ∈ Resident.pendingMedia r) then 1 else 0).
Definition at_gateway (rid : string) (g : Gateway.session) : nat :=
  match Gateway.pending g !! rid with Some _ => 1 | None => 0 end.

Definition op_request (op : ViewerOperation) (vid : string) : Gateway.PendingRequest :=
  {| Gateway.p_type := operation_name op; Gateway.p_viewerId := Some vid |}.
Definition media_request : Gateway.PendingRequest :=
  {| Gateway.p_type := "media.get"; Gateway.p_viewerId := None |}.

(** Is the viewer open at the resident, before and after its answer? *)
Definition open_before (op : ViewerOperation) : bool :=
  match op with viewer_open => false | _ => true end.
Definition open_after (op : ViewerOperation) (err : option ErrorDetail) : bool :=
  match op, err with
  | viewer_open, None | viewer_close, Some _ | viewer_snapshot, _ => true
  | _, _ => false
  end.
Definition at_r (vid : string) (r : Resident.session) : bool :=
  bool_decide (vid ∈ Resident.viewers r).

(** Frames in flight agree with what the Gateway has outstanding. *)
Definition down_ok (g : Gateway.session) (r : Resident.session) (f : frame GatewayBody) : Prop :=
  match body f with
  | ViewerOp op rid vid =>
      Gateway.pending g !! rid = Some (op_request op vid) ∧ at_r vid r = open_before op
      ∧ rid ∉ Resident.requestIds r
  | MediaGet rid route =>
      Gateway.pending g !! rid = Some media_request
      ∧ (route = "/identity/avatar" → identity_v1 ∈ Gateway.negotiated g)
      ∧ rid ∉ Resident.requestIds r
  | ConsoleInput vid _ => at_r vid r = true
  | _ => False
  end.
Definition up_ok (g : Gateway.session) (r : Resident.session) (f : frame ResidentBody) : Prop :=
  match body f with
  | OperationResult rid vid op err =>
      ∃ o, op = JStr (operation_name o) ∧ Gateway.pending g !! rid = Some (op_request o vid)
           ∧ at_r vid r = open_after o err
  | MediaResult rid _ => Gateway.pending g !! rid = Some media_request
  | ConsoleOutput vid _ => vid ∈ Gateway.viewers g
  | _ => False
  end.

(** No frame ahead of console input operates on its viewer; no frame ahead of
    console output retires its viewer. *)
Definition input_ok (r : Resident.session) (l : list (frame GatewayBody)) : Prop :=
  ∀ k f vid p, l !! k = Some f → body f = ConsoleInput vid p →
    Resident.viewer_busy vid (Resident.pendingOperations r) = false
    ∧ ∀ j f' op rid, (j < k)%nat → l !! j = Some f' → body f' ≠ ViewerOp op rid vid.
Definition retires (f : frame ResidentBody) (vid : string) : Prop :=
  ∃ rid o err, body f = OperationResult rid vid (JStr (operation_name o)) err
               ∧ open_after o err = false.
Definition output_ok (l : list (frame ResidentBody)) : Prop :=
  ∀ k f vid p, l !! k = Some f → body f = ConsoleOutput vid p →
    ∀ j f', (j < k)%nat → l !! j = Some f' → ¬ retires f' vid.

(** The frames of a channel carry consecutive numbers. *)
Definition numbered {B} (connection : string) (first : Z) (l : list (frame B)) : Prop :=
  ∀ k f, l !! k = Some f → connectionId f = connection ∧ seq f = (first + Z.of_nat k)%Z.

Record in_step (l : link) : Prop := {
  j_g : GatewayInv.inv (gw l);
  j_live : Gateway.terminal (gw l) = false ∧ Resident.terminal (rs l) = false
           ∧ is_Some (Gateway.residentHello (gw l)) ∧ is_Some (Resident.gatewayAck (rs l));
  j_conn : Resident.s_connectionId (rs l) = Gateway.s_connectionId (gw l);
  j_caps : Resident.negotiated (rs l) = Gateway.negotiated (gw l);
  j_console : Gateway.viewers (gw l) ≠ ∅ → console_v1 ∈ Gateway.negotiated (gw l);
  j_media : map_Forall (λ _ p, p = media_request → media_v1 ∈ Gateway.negotiated (gw l))
              (Gateway.pending (gw l));
  j_down_seq : numbered (Gateway.s_connectionId (gw l)) (Resident.nextSeq (rs l)) (down l)
    ∧ nextOutboundSeq l = (Resident.nextSeq (rs l) + Z.of_nat (length (down l)))%Z
    ∧ (nextOutboundSeq l ≤ MAX_SAFE_INTEGER)%Z;
  j_up_seq : numbered (Gateway.s_connectionId (gw l)) (Gateway.nextSeq (gw l)) (up l)
    ∧ Resident.nextOutboundSeq (rs l) = (Gateway.nextSeq (gw l) + Z.of_nat (length (up l)))%Z
    ∧ (Resident.nextOutboundSeq (rs l) ≤ MAX_SAFE_INTEGER)%Z;
  j_place : ∀ rid, (in_down rid (down l) + at_resident rid (rs l) + in_up rid (up l)
                    = at_gateway rid (gw l))%nat;
  j_down : Forall (down_ok (gw l) (rs l)) (down l);
  j_up : Forall (up_ok (gw l) (rs l)) (up l);
  j_ops : map_Forall (λ rid o,
    Gateway.pending (gw l) !! rid
      = Some (op_request (Resident.o_operation o) (Resident.o_viewerId o))
    ∧ at_r (Resident.o_viewerId o) (rs l) = open_before (Resident.o_operation o))
    (Resident.pendingOperations (rs l));
  j_fetch : ∀ rid, rid ∈ Resident.pendingMedia (rs l) →
    Gateway.pending (gw l) !! rid = Some media_request;
  j_idle : ∀ vid, Gateway.viewer_busy vid (Gateway.pending (gw l)) = false →
    (vid ∈ Gateway.viewers (gw l) ↔ vid ∈ Resident.viewers (rs l));
  j_input : input_ok (rs l) (down l);
  j_output : output_ok (up l);
  j_used : Gateway.requestIds (gw l) ⊆ used l ∧ Resident.requestIds (rs l) ⊆ used l
           ∧ dom (Gateway.pending (gw l)) ⊆ used l;
}.

(** ** The initial state *)

Lemma established_in_step l : established l → in_step l.
Proof.
  intros (Hg & Hgt & Hrt & Hh & Ha & Hc & Hcaps & Hn1 & Hn2 & Hn3 & Hn4 & Hp & Hv & Ho & Hm
          & Hrv & Hri & Hgi & Hd & Hu).
  destruct l as [g r n d u us]. simpl in *. subst d u.
  split; cbn -[size]; rewrite ?Hp, ?Hv, ?Ho, ?Hm, ?Hrv, ?Hri, ?Hgi; try done.
  - split_and!; [done|lia|subst; done].
  - split_and!; [done|lia|rewrite Hn2; done].
  - intros rid. unfold at_resident, at_gateway. rewrite Ho, Hm, Hp, !lookup_empty. done.
Qed.

(** ** Deliverability *)

Lemma not_busy_spec vid p :
  Gateway.viewer_busy vid p = false ↔
  ∀ i r, p !! i = Some r → Gateway.p_viewerId r ≠ Some vid.
Proof.
  rewrite <- not_true_iff_false, GatewayInv.viewer_busy_spec. naive_solver.
Qed.

Lemma in_step_viewers l vid :
  in_step l → vid ∈ Resident.viewers (rs l) → vid ∈ Gateway.viewers (gw l).
Proof.
  intros Hl Hv. destruct (Gateway.viewer_busy vid (Gateway.pending (gw l))) eqn:Hb.
  - apply GatewayInv.viewer_busy_spec in Hb as (i & p & Hi & Hp).
    by eapply GatewayInv.inv_open; [apply Hl|..].
  - by apply (j_idle l Hl vid Hb).
Qed.

(** At most one pending request names a viewer, wherever it is. *)
Lemma op_unique l rid rid' op op' vid :
  in_step l →
  Gateway.pending (gw l) !! rid = Some (op_request op vid) →
  Gateway.pending (gw l) !! rid' = Some (op_request op' vid) → rid = rid'.
Proof. intros Hl H1 H2. by eapply GatewayInv.inv_unique; [apply Hl|apply H1|apply H2|..]. Qed.

Lemma at_gateway_pending rid g p : Gateway.pending g !! rid = Some p → at_gateway rid g = 1%nat.
Proof. unfold at_gateway. by intros ->. Qed.

Lemma in_down_cons rid f l :
  in_down rid (f :: l) =
    ((if bool_decide (request_of (body f) = Some rid) then 1 else 0) + in_down rid l)%nat.
Proof. unfold in_down. simpl. by case_bool_decide. Qed.
Lemma in_up_cons rid f l :
  in_up rid (f :: l) =
    ((if bool_decide (GatewayInv.answers (body f) = Some rid) then 1 else 0) + in_up rid l)%nat.
Proof. unfold in_up. simpl. by case_bool_decide. Qed.
Lemma in_down_app rid l l' : in_down rid (l ++ l') = (in_down rid l + in_down rid l')%nat.
Proof. unfold in_down. by rewrite List.filter_app, length_app. Qed.
Lemma in_up_app rid l l' : in_up rid (l ++ l') = (in_up rid l + in_up rid l')%nat.
Proof. unfold in_up. by rewrite List.filter_app, length_app. Qed.

(** The request at the head of [down] is nowhere else. *)
Lemma head_place l f rest rid :
  in_step l → down l = f :: rest → request_of (body f) = Some rid →
  in_down rid rest = 0%nat ∧ at_resident rid (rs l) = 0%nat ∧ in_up rid (up l) = 0%nat
  ∧ at_gateway rid (gw l) = 1%nat.
Proof.
  intros Hl Hd Hr. pose proof (j_place l Hl rid) as Hp.
  rewrite Hd, in_down_cons, bool_decide_true in Hp by done.
  unfold at_gateway in *. destruct (Gateway.pending (gw l) !! rid); lia.
Qed.

Lemma at_resident_zero rid r :
  at_resident rid r = 0%nat ↔
  Resident.pendingOperations r !! rid = None ∧ rid ∉ Resident.pendingMedia r.
Proof.
  unfold at_resident. case_bool_decide; destruct (_ !! rid); naive_solver lia.
Qed.

(** The resident holds fewer requests than the Gateway while one is in flight. *)
Lemma room_for_request l rid :
  in_step l → at_resident rid (rs l) = 0%nat → at_gateway rid (gw l) = 1%nat →
  (Resident.pending_count (rs l) < LIMITS_pendingRequestsPerConnection)%nat.
Proof.
  intros Hl [Ho Hm]%at_resident_zero Hg.
  pose proof (GatewayInv.inv_pending _ (j_g l Hl)) as Hmax.
  set (ops := Resident.pendingOperations (rs l)) in *.
  set (media := Resident.pendingMedia (rs l)) in *.
  assert (dom ops ## media) as Hdisj.
  { intros x [o Hx]%elem_of_dom Hx'. pose proof (j_place l Hl x) as Hp.
    unfold at_resident, at_gateway in Hp. fold ops media in Hp.
    rewrite Hx, bool_decide_true in Hp by done.
    destruct (Gateway.pending (gw l) !! x); lia. }
  assert ({[ rid ]} ∪ (dom ops ∪ media) ⊆ dom (Gateway.pending (gw l))) as Hsub.
  { intros x [->%elem_of_singleton|[[o Hx]%elem_of_dom|Hx]%elem_of_union]%elem_of_union;
      apply elem_of_dom.
    - unfold at_gateway in Hg. by destruct (Gateway.pending (gw l) !! rid).
    - apply (j_ops l Hl) in Hx as [-> _]. by eexists.
    - apply (j_fetch l Hl) in Hx as ->. by eexists. }
  apply subseteq_size in Hsub. rewrite size_dom, !size_union, size_singleton, size_dom in Hsub;
    [|done|].
  - unfold Resident.pending_count. fold ops media. lia.
  - apply disjoint_singleton_l. rewrite not_elem_of_union, not_elem_of_dom. done.
Qed.

(** Room for a viewer whose [viewer.open] is in flight. *)
Lemma room_for_viewer l rid vid :
  in_step l → Gateway.pending (gw l) !! rid = Some (op_request viewer_open vid) →
  at_resident rid (rs l) = 0%nat → vid ∉ Resident.viewers (rs l) →
  (size (Resident.viewers (rs l)) + Resident.opening (Resident.pendingOperations (rs l))
   < LIMITS_viewersPerConnection)%nat.
Proof.
  intros Hl Hp [Ho _]%at_resident_zero Hv.
  destruct (opening_set (Resident.pendingOperations (rs l))) as (V & <- & HV).
  { intros i j [op v] [op' v'] Hi Hj Heq. simpl in Heq. subst v'.
    apply (j_ops l Hl) in Hi as [Hi _]. apply (j_ops l Hl) in Hj as [Hj _].
    by eapply op_unique. }
  pose proof (GatewayInv.inv_viewers _ (j_g l Hl)) as Hmax.
  assert (vid ∉ V) as HvV.
  { intros (i & [op v] & Hi & _ & Heq)%HV. simpl in Heq. subst v.
    pose proof Hi as [Hi' _]%(j_ops l Hl). assert (i = rid) as ->; [by eapply op_unique|congruence]. }
  assert (Resident.viewers (rs l) ## V) as Hdisj.
  { intros x Hx (i & [op v] & Hi & Hop & Heq)%HV. simpl in *. subst.
    apply (j_ops l Hl) in Hi as [_ Hi]. simpl in Hi. unfold at_r in Hi.
    by rewrite bool_decide_true in Hi. }
  assert ({[ vid ]} ∪ (Resident.viewers (rs l) ∪ V) ⊆ Gateway.viewers (gw l)) as Hsub.
  { intros x [->%elem_of_singleton|[Hx|(i & [op v] & Hi & _ & Heq)%HV]%elem_of_union]%elem_of_union.
    - by eapply GatewayInv.inv_open; [apply Hl|apply Hp|].
    - by apply in_step_viewers.
    - simpl in Heq. subst v. apply (j_ops l Hl) in Hi as [Hi _].
      by eapply GatewayInv.inv_open; [apply Hl|apply Hi|]. }
  apply subseteq_size in Hsub. rewrite !size_union, size_singleton in Hsub by set_solver. lia.
Qed.

Lemma resident_not_busy l rid vid op :
  in_step l → Gateway.pending (gw l) !! rid = Some (op_request op vid) →
  at_resident rid (rs l) = 0%nat →
  Resident.viewer_busy vid (Resident.pendingOperations (rs l)) = false.
Proof.
  intros Hl Hp [Ho _]%at_resident_zero. apply not_true_iff_false.
  intros (i & [op' v] & Hi & Heq)%resident_viewer_busy_spec. simpl in Heq. subst v.
  pose proof Hi as [Hi' _]%(j_ops l Hl). assert (i = rid) as ->; [by eapply op_unique|congruence].
Qed.

(** The head of [down] passes every guard of the resident. *)
Lemma down_admissible l f rest :
  in_step l → down l = f :: rest → may_admit (body f) (rs l).
Proof.
  intros Hl Hd. pose proof (j_down l Hl) as Hok. rewrite Hd in Hok.
  apply Forall_cons in Hok as [Hok _]. unfold down_ok in Hok.
  destruct (body f) as [|op rid vid|vid p|rid route|] eqn:Hb; simpl; try done.
  - destruct Hok as (Hp & Hv & Hid).
    destruct (head_place l f rest rid Hl Hd) as (_ & Hr & _ & Hg); [by rewrite Hb|].
    split_and!; [done|by eapply room_for_request|by eapply resident_not_busy|].
    unfold at_r in Hv. destruct op; simpl in Hv; guards; try done.
    split; [done|]. by eapply room_for_viewer.
  - by apply bool_decide_eq_true in Hok.
  - destruct Hok as (Hp & Hroute & Hid).
    destruct (head_place l f rest rid Hl Hd) as (_ & Hr & _ & Hg); [by rewrite Hb|].
    split_and!; [done|by eapply room_for_request|]. by rewrite (j_caps l Hl).
Qed.

Lemma allowed_console neg t :
  needs t = Some console_v1 → console_v1 ∈ neg → allowed neg t = true.
Proof. unfold allowed. intros ->. by apply bool_decide_eq_true. Qed.
Lemma allowed_media neg t : needs t = Some media_v1 → media_v1 ∈ neg → allowed neg t = true.
Proof. unfold allowed. intros ->. by apply bool_decide_eq_true. Qed.

Lemma viewer_console l vid :
  in_step l → vid ∈ Gateway.viewers (gw l) → console_v1 ∈ Gateway.negotiated (gw l).
Proof. intros Hl Hv. apply (j_console l Hl). set_solver. Qed.

Lemma pending_console l rid op vid :
  in_step l → Gateway.pending (gw l) !! rid = Some (op_request op vid) →
  console_v1 ∈ Gateway.negotiated (gw l).
Proof.
  intros Hl Hp. apply (viewer_console l vid Hl).
  by eapply GatewayInv.inv_open; [apply Hl|apply Hp|].
Qed.

(** The resident's state after the head of [down]. *)
Definition after_down (f : frame GatewayBody) (r : Resident.session) : Resident.session :=
  Resident.set_seq (Resident.nextSeq r + 1) (admitted (body f) r).

Lemma admitted_seq b r :
  Resident.nextSeq (admitted b r) = Resident.nextSeq r.
Proof. by destruct b. Qed.

Lemma down_accepted l f rest :
  in_step l → down l = f :: rest →
  Resident.handleFrame f (rs l) = (inr f, after_down f (rs l)).
Proof.
  intros Hl Hd. pose proof (down_admissible l f rest Hl Hd) as Hm.
  pose proof (j_down l Hl) as Hok. rewrite Hd in Hok. apply Forall_cons in Hok as [Hok _].
  destruct (j_down_seq l Hl) as (Hn & Hout & Hmax). rewrite Hd in Hn, Hout.
  destruct (Hn 0%nat f eq_refl) as [Hc Hq]. simpl in Hout.
  destruct (j_live l Hl) as (_ & _ & _ & [a Ha]).
  rewrite (handleFrame_ready f (rs l) a); try done.
  - assert (Resident.is_fatal (body f) = false) as ->.
    { unfold down_ok in Hok. by destruct (body f). }
    unfold Resident.advanceSequence, after_down. rewrite admitted_seq.
    destruct (Z.eqb_spec (Resident.nextSeq (rs l)) MAX_SAFE_INTEGER); [lia|done].
  - by rewrite (j_conn l Hl).
  - lia.
  - intros i c Hb. unfold down_ok in Hok. by rewrite Hb in Hok.
  - rewrite (j_caps l Hl). unfold down_ok in Hok.
    destruct (body f) as [|op rid vid|vid p|rid route|] eqn:Hb; try done; simpl.
    + destruct Hok as [Hp _]. apply allowed_console; [by destruct op|by eapply pending_console].
    + apply bool_decide_eq_true in Hok. apply allowed_console; [done|].
      eapply viewer_console; [done|]. by apply in_step_viewers.
    + destruct Hok as [Hp _]. apply allowed_media; [done|]. by apply (j_media l Hl rid _ Hp).
Qed.

(** The head of [up] passes every guard of the Gateway. *)
Lemma up_accepted l f rest :
  in_step l → up l = f :: rest → GatewayInv.may_receive f (gw l).
Proof.
  intros Hl Hu. pose proof (j_up l Hl) as Hok. rewrite Hu in Hok.
  apply Forall_cons in Hok as [Hok _].
  destruct (j_up_seq l Hl) as (Hn & _ & _). rewrite Hu in Hn.
  destruct (Hn 0%nat f eq_refl) as [Hc Hq].
  destruct (j_live l Hl) as (_ & _ & [h Hh] & _).
  unfold GatewayInv.may_receive. rewrite Hh. split_and!; [done|lia|..].
  all: unfold up_ok in Hok; unfold GatewayInv.may_settle;
    destruct (body f) as [|rid vid op err|vid p|rid o|] eqn:Hb; try done; simpl.
  - destruct Hok as (o & _ & Hp & _). apply allowed_console; [done|by eapply pending_console].
  - apply allowed_console; [done|by eapply viewer_console].
  - apply allowed_media; [done|]. by apply (j_media l Hl rid _ Hok).
  - destruct Hok as (o & -> & Hp & _). by exists (op_request o vid).
  - by exists media_request.
Qed.

(** ** Frame rules: what the channel conditions depend on *)

Definition viewer_of (b : GatewayBody) : option string :=
  match b with ViewerOp _ _ vid | ConsoleInput vid _ => Some vid | _ => None end.
Definition result_viewer (b : ResidentBody) : option string :=
  match b with OperationResult _ vid _ _ => Some vid | _ => None end.

Lemma down_ok_frame g g' r r' f :
  down_ok g r f →
  Gateway.negotiated g' = Gateway.negotiated g →
  (∀ rid, request_of (body f) = Some rid →
     Gateway.pending g' !! rid = Gateway.pending g !! rid
     ∧ (rid ∉ Resident.requestIds r → rid ∉ Resident.requestIds r')) →
  (∀ vid, viewer_of (body f) = Some vid → at_r vid r' = at_r vid r) →
  down_ok g' r' f.
Proof.
  unfold down_ok. intros Hok Hn Hp Hv. destruct (body f) as [|op rid vid|vid p|rid route|]; try done.
  - destruct Hok as (H1 & H2 & H3). destruct (Hp rid eq_refl) as [-> Hid].
    rewrite (Hv vid eq_refl). auto.
  - by rewrite (Hv vid eq_refl).
  - destruct Hok as (H1 & H2 & H3). destruct (Hp rid eq_refl) as [-> Hid]. rewrite Hn. auto.
Qed.

Lemma up_ok_frame g g' r r' f :
  up_ok g r f →
  (∀ rid, GatewayInv.answers (body f) = Some rid →
     Gateway.pending g' !! rid = Gateway.pending g !! rid) →
  (∀ vid p, body f = ConsoleOutput vid p → vid ∈ Gateway.viewers g → vid ∈ Gateway.viewers g') →
  (∀ vid, result_viewer (body f) = Some vid → at_r vid r' = at_r vid r) →
  up_ok g' r' f.
Proof.
  unfold up_ok. intros Hok Hp Hc Hv. destruct (body f) as [|rid vid op err|vid p|rid o|]; try done.
  - destruct Hok as (o & ? & ? & ?). exists o. by rewrite (Hp rid eq_refl), (Hv vid eq_refl).
  - by eapply Hc.
  - by rewrite (Hp rid eq_refl).
Qed.

Lemma numbered_snoc {B} c n (l : list (frame B)) (b : B) :
  numbered c n l → numbered c n (l ++ [mkFrame c (n + Z.of_nat (length l)) b]).
Proof.
  intros Hn k f [Hk|[Hge Hk]]%lookup_app_Some; [by apply Hn|].
  apply list_lookup_singleton_Some in Hk as [Hk <-]. simpl. split; [done|lia].
Qed.
Lemma numbered_tail {B} c n f (l : list (frame B)) :
  numbered c n (f :: l) → numbered c (n + 1) l.
Proof. intros Hn k g Hk. destruct (Hn (S k) g Hk) as [-> ->]. split; [done|lia]. Qed.

Lemma elem_in_down f rid l :
  f ∈ l → request_of (body f) = Some rid → (0 < in_down rid l)%nat.
Proof.
  intros Hf Hr. induction l as [|x l IH]; [by apply not_elem_of_nil in Hf|].
  rewrite in_down_cons. apply elem_of_cons in Hf as [<-|Hf].
  - rewrite bool_decide_true by done. lia.
  - specialize (IH Hf). lia.
Qed.
Lemma elem_in_up f rid l :
  f ∈ l → GatewayInv.answers (body f) = Some rid → (0 < in_up rid l)%nat.
Proof.
  intros Hf Hr. induction l as [|x l IH]; [by apply not_elem_of_nil in Hf|].
  rewrite in_up_cons. apply elem_of_cons in Hf as [<-|Hf].
  - rewrite bool_decide_true by done. lia.
  - specialize (IH Hf). lia.
Qed.

Lemma at_gateway_le rid g : (at_gateway rid g ≤ 1)%nat.
Proof. unfold at_gateway. case_match; lia. Qed.

(** A request is in at most one place. *)
Ltac place Hl rid :=
  pose proof (j_place _ Hl rid); pose proof (at_gateway_le rid (gw _)).

(** Two requests on one viewer are the same request. *)
Lemma down_viewer l f rid vid op :
  in_step l → Gateway.pending (gw l) !! rid = Some (op_request op vid) →
  f ∈ down l → (∀ p, body f ≠ ConsoleInput vid p) → in_down rid (down l) = 0%nat →
  viewer_of (body f) ≠ Some vid.
Proof.
  intros Hl Hp Hf Hni Hz Hv. pose proof (j_down l Hl) as Hok. rewrite Forall_forall in Hok.
  specialize (Hok f Hf). unfold down_ok in Hok.
  destruct (body f) as [|op' rid' vid'|vid' p|rid' route|] eqn:Hb; try done; simplify_eq/=;
    [|by edestruct Hni].
  destruct Hok as [Hp' _]. assert (rid' = rid) as -> by (by eapply op_unique).
  assert (0 < in_down rid (down l))%nat; [|lia]. eapply elem_in_down; [done|by rewrite Hb].
Qed.
Lemma up_viewer l f rid vid op :
  in_step l → Gateway.pending (gw l) !! rid = Some (op_request op vid) →
  f ∈ up l → in_up rid (up l) = 0%nat → result_viewer (body f) ≠ Some vid.
Proof.
  intros Hl Hp Hf Hz Hv. pose proof (j_up l Hl) as Hok. rewrite Forall_forall in Hok.
  specialize (Hok f Hf). unfold up_ok in Hok.
  destruct (body f) as [|rid' vid' op' err| | |] eqn:Hb; try done. simplify_eq/=.
  destruct Hok as (o & _ & Hp' & _). assert (rid' = rid) as -> by (by eapply op_unique).
  assert (0 < in_up rid (up l))%nat; [|lia]. eapply elem_in_up; [done|by rewrite Hb].
Qed.

Lemma fresh_not_pending l rid :
  in_step l → rid ∉ used l → Gateway.pending (gw l) !! rid = None.
Proof.
  intros Hl Hr. destruct (j_used l Hl) as (_ & _ & Hd). apply not_elem_of_dom. set_solver.
Qed.

(** Appending a frame that is not console input keeps [input_ok]. *)
Lemma input_ok_snoc r l f :
  input_ok r l →
  (∀ vid p, body f = ConsoleInput vid p →
     Resident.viewer_busy vid (Resident.pendingOperations r) = false
     ∧ ∀ f' op rid, f' ∈ l → body f' ≠ ViewerOp op rid vid) →
  input_ok r (l ++ [f]).
Proof.
  intros Hi Hf k g vid p [Hk|[Hge Hk]]%lookup_app_Some Hb.
  - destruct (Hi k g vid p Hk Hb) as [? Hj]. split; [done|]. intros j f' op rid Hlt Hl.
    apply (Hj j f' op rid Hlt). rewrite lookup_app_l in Hl; [done|].
    apply lookup_lt_Some in Hk. lia.
  - apply list_lookup_singleton_Some in Hk as [Hk <-].
    destruct (Hf vid p Hb) as [? Hj]. split; [done|]. intros j f' op rid Hlt Hl.
    rewrite lookup_app_l in Hl by lia. apply Hj. by apply list_elem_of_lookup_2 in Hl.
Qed.

Lemma output_ok_snoc l f :
  output_ok l →
  (∀ vid p, body f = ConsoleOutput vid p → ∀ f', f' ∈ l → ¬ retires f' vid) →
  output_ok (l ++ [f]).
Proof.
  intros Ho Hf k g vid p [Hk|[Hge Hk]]%lookup_app_Some Hb j f' Hlt Hl.
  - apply (Ho k g vid p Hk Hb j f' Hlt). rewrite lookup_app_l in Hl; [done|].
    apply lookup_lt_Some in Hk. lia.
  - apply list_lookup_singleton_Some in Hk as [Hk <-].
    rewrite lookup_app_l in Hl by lia. eapply Hf; [done|]. by apply list_elem_of_lookup_2 in Hl.
Qed.

(** ** Preservation *)

Section request.
Context (l : link) (Hl : in_step l) (q : Gateway.request).
Let f := mkFrame (Gateway.s_connectionId (gw l)) (nextOutboundSeq l) q.
Let rid := Gateway.request_id q.
Context (Hfresh : rid ∉ used l) (Hreg : GatewayInv.may_register f (gw l)).
Let g' := GatewayInv.registered f (gw l).

Lemma request_pending_other rid' p :
  Gateway.pending (gw l) !! rid' = Some p →
  Gateway.pending g' !! rid' = Gateway.pending (gw l) !! rid'.
Proof.
  intros Hp. simpl. rewrite lookup_insert_ne; [done|]. intros <-.
  by rewrite (fresh_not_pending l) in Hp.
Qed.

(** The new request finds the resident in the state its operation expects. *)
Lemma request_down_ok :
  (∀ r, q = Gateway.ReqMedia r "/identity/avatar" → identity_v1 ∈ Gateway.negotiated (gw l)) →
  down_ok g' (rs l) (mkFrame (Gateway.s_connectionId (gw l)) (nextOutboundSeq l)
                       (Gateway.request_body q)).
Proof.
  intros Hav. destruct Hreg as (_ & _ & _ & _ & _ & _ & Hbusy & Hop).
  destruct (j_used l Hl) as (_ & Hru & _).
  assert (rid ∉ Resident.requestIds (rs l)) as Hid by set_solver.
  unfold g', GatewayInv.registered, down_ok, rid in *.
  destruct q as [op r vid|r route]; simpl in *.
  - rewrite lookup_insert_eq. split_and!; [done| |done].
    unfold at_r. specialize (Hbusy vid eq_refl). pose proof (j_idle l Hl vid Hbusy) as Hidle.
    destruct op; simpl; [apply bool_decide_eq_false|apply bool_decide_eq_true..];
      [destruct Hop; naive_solver|naive_solver..].
  - rewrite lookup_insert_eq. split_and!; [done| |done]. naive_solver.
Qed.

Lemma request_caps :
  (Gateway.viewers g' ≠ ∅ → console_v1 ∈ Gateway.negotiated (gw l))
  ∧ map_Forall (λ _ p, p = media_request → media_v1 ∈ Gateway.negotiated (gw l))
      (Gateway.pending g').
Proof.
  destruct Hreg as (_ & _ & _ & _ & _ & Hal & _ & _). unfold allowed in Hal. split.
  - simpl. destruct q as [op r vid|r route]; simpl in *.
    + intros _. destruct op; simpl in Hal; by guards.
    + apply (j_console l Hl).
  - simpl. apply map_Forall_insert_2; [|apply (j_media l Hl)].
    destruct q as [op r vid|r route]; simpl in *; [done|]. by guards.
Qed.

Lemma request_idle vid :
  Gateway.viewer_busy vid (Gateway.pending g') = false →
  (vid ∈ Gateway.viewers g' ↔ vid ∈ Resident.viewers (rs l)).
Proof.
  rewrite not_busy_spec. intros Hb.
  assert (Gateway.viewer_busy vid (Gateway.pending (gw l)) = false) as Hold.
  { apply not_busy_spec. intros i r Hi. apply (Hb i). by rewrite (request_pending_other i r). }
  rewrite <- (j_idle l Hl vid Hold). specialize (Hb rid).
  simpl in *. rewrite lookup_insert_eq in Hb. specialize (Hb _ eq_refl). simpl in Hb.
  destruct q as [[] r vid'|r route]; simpl in *; set_solver.
Qed.

Lemma request_place rid' :
  (in_down rid' (down l ++ [mkFrame (Gateway.s_connectionId (gw l)) (nextOutboundSeq l)
                              (Gateway.request_body q)])
   + at_resident rid' (rs l) + in_up rid' (up l) = at_gateway rid' g')%nat.
Proof.
  rewrite in_down_app, in_down_cons. pose proof (j_place l Hl rid') as Hp.
  assert (request_of (Gateway.request_body q) = Some rid) as Hr by (by destruct q).
  simpl. rewrite Hr. unfold at_gateway in *. simpl. case_bool_decide as E.
  - injection E as <-. rewrite lookup_insert_eq.
    rewrite (fresh_not_pending l rid Hl Hfresh) in Hp. unfold in_down at 2. simpl. lia.
  - rewrite lookup_insert_ne by (unfold rid in *; congruence). unfold in_down at 2. simpl. lia.
Qed.

Lemma step_request_in_step :
  (nextOutboundSeq l < MAX_SAFE_INTEGER)%Z →
  (∀ r, q = Gateway.ReqMedia r "/identity/avatar" → identity_v1 ∈ Gateway.negotiated (gw l)) →
  in_step (mkLink g' (rs l) (nextOutboundSeq l + 1)
             (down l ++ [mkFrame (Gateway.s_connectionId (gw l)) (nextOutboundSeq l)
                           (Gateway.request_body q)])
             (up l) ({[ rid ]} ∪ used l)).
Proof.
  intros Hmax Hav. destruct request_caps. pose proof (j_used l Hl) as (Hu1 & Hu2 & Hu3).
  destruct (j_down_seq l Hl) as (Hn & Hout & _).
  split; try apply Hl; try done; cbn [gw rs nextOutboundSeq down up used].
  - apply GatewayInv.registered_inv; [apply Hl|done].
  - split_and!; [|rewrite length_app; simpl; lia|lia].
    rewrite Hout. by apply numbered_snoc.
  - apply request_place.
  - apply Forall_app. split; [|apply Forall_singleton, request_down_ok, Hav].
    eapply Forall_impl; [apply Hl|]. intros x Hx. eapply down_ok_frame; [done|done| |done].
    intros i Hi. split; [|done]. unfold down_ok in Hx.
    destruct (body x); simplify_eq/=; destruct Hx as [Hx _]; by eapply request_pending_other.
  - eapply Forall_impl; [apply Hl|]. intros x Hx. eapply up_ok_frame; [done| | |done].
    + intros i Hi. unfold up_ok in Hx. destruct (body x); simplify_eq/=; try done.
      * destruct Hx as (? & _ & Hx & _). by eapply request_pending_other.
      * by eapply request_pending_other.
    + intros vid p _ Hv. simpl. destruct q as [[] ? ?|]; simpl; set_solver.
  - intros i o Hi. apply (j_ops l Hl) in Hi as [Hi ?]. by rewrite (request_pending_other i _ Hi).
  - intros i Hi. apply (j_fetch l Hl) in Hi. by rewrite (request_pending_other i _ Hi).
  - apply request_idle.
  - apply input_ok_snoc; [apply Hl|]. intros vid p Hb. by destruct q.
  - split_and!; [|set_solver|simpl; rewrite dom_insert_L; set_solver].
    simpl. pose proof (remembered_subset rid (Gateway.requestIds (gw l))
      (Gateway.requestOrder (gw l))). set_solver.
Qed.
End request.

Lemma step_input_in_step l vid payload :
  in_step l → idle vid (gw l) → (nextOutboundSeq l < MAX_SAFE_INTEGER)%Z →
  in_step (mkLink (gw l) (rs l) (nextOutboundSeq l + 1)
             (down l ++ [mkFrame (Gateway.s_connectionId (gw l)) (nextOutboundSeq l)
                           (ConsoleInput vid payload)]) (up l) (used l)).
Proof.
  intros Hl [Hv Hb] Hmax. destruct (j_down_seq l Hl) as (Hn & Hout & _).
  pose proof (proj1 (j_idle l Hl vid Hb) Hv) as Hr.
  split; try apply Hl; cbn [gw rs nextOutboundSeq down up used].
  - split_and!; [|rewrite length_app; simpl; lia|lia]. rewrite Hout. by apply numbered_snoc.
  - intros rid. rewrite in_down_app. unfold in_down at 2. simpl.
    pose proof (j_place l Hl rid). lia.
  - apply Forall_app. split; [apply Hl|]. apply Forall_singleton. unfold down_ok. simpl.
    by apply bool_decide_eq_true.
  - apply input_ok_snoc; [apply Hl|]. intros vid' p [= <- <-]. rewrite not_busy_spec in Hb. split.
    + apply not_true_iff_false. intros (i & o & Hi & Ho)%resident_viewer_busy_spec.
      apply (j_ops l Hl) in Hi as [Hi _]. apply (Hb _ _ Hi). simpl. congruence.
    + intros f' op rid Hf' Heq. pose proof (j_down l Hl) as Hok. rewrite Forall_forall in Hok.
      specialize (Hok f' Hf'). unfold down_ok in Hok. rewrite Heq in Hok. destruct Hok as [Hp _].
      by apply (Hb _ _ Hp).
Qed.

Lemma input_ok_tail r f l : input_ok r (f :: l) → input_ok r l.
Proof.
  intros Hi k g vid p Hk Hb. destruct (Hi (S k) g vid p Hk Hb) as [? Hj].
  split; [done|]. intros j f' op rid Hlt. by apply (Hj (S j)); lia.
Qed.
Lemma output_ok_tail f l : output_ok (f :: l) → output_ok l.
Proof. intros Ho k g vid p Hk Hb j f' Hlt. by apply (Ho (S k) g vid p Hk Hb (S j)); lia. Qed.

Section deliver_down.
Context (l : link) (Hl : in_step l) (f : frame GatewayBody) (rest : list (frame GatewayBody)).
Context (Hd : down l = f :: rest).
Let r' := after_down f (rs l).

Lemma down_head : down_ok (gw l) (rs l) f ∧ Forall (down_ok (gw l) (rs l)) rest.
Proof. pose proof (j_down l Hl) as H. rewrite Hd in H. by apply Forall_cons in H. Qed.

Lemma after_viewers : Resident.viewers r' = Resident.viewers (rs l).
Proof. unfold r', after_down. by destruct (body f). Qed.
Lemma after_ids :
  Resident.requestIds r' ⊆
    match request_of (body f) with Some rid => {[ rid ]} | None => ∅ end
    ∪ Resident.requestIds (rs l).
Proof.
  unfold r', after_down. destruct (body f); simpl; try set_solver;
    apply remembered_subset.
Qed.

Lemma after_place rid :
  at_resident rid r'
  = ((if bool_decide (request_of (body f) = Some rid) then 1 else 0)
     + at_resident rid (rs l))%nat.
Proof.
  unfold r', after_down. destruct (body f) as [|op rid' vid|vid p|rid' route|] eqn:Hb; try done.
  all: simpl; case_bool_decide as E; simplify_eq.
  all: unfold at_resident; simpl; rewrite ?lookup_insert_eq, ?lookup_insert_ne by congruence.
  - destruct (head_place l f rest rid Hl Hd) as (_ & [-> _]%at_resident_zero & _); [by rewrite Hb|].
    done.
  - done.
  - destruct (head_place l f rest rid Hl Hd) as (_ & [-> Hm]%at_resident_zero & _); [by rewrite Hb|].
    rewrite bool_decide_true, bool_decide_false by set_solver. done.
  - rewrite (bool_decide_ext (rid ∈ {[ rid' ]} ∪ Resident.pendingMedia (rs l))
      (rid ∈ Resident.pendingMedia (rs l))) by set_solver. done.
Qed.
Lemma down_place rid :
  (in_down rid rest + at_resident rid r' + in_up rid (up l) = at_gateway rid (gw l))%nat.
Proof.
  pose proof (j_place l Hl rid) as Hp. rewrite Hd, in_down_cons in Hp.
  rewrite after_place. lia.
Qed.

Lemma down_ops :
  map_Forall (λ rid o,
    Gateway.pending (gw l) !! rid
      = Some (op_request (Resident.o_operation o) (Resident.o_viewerId o))
    ∧ at_r (Resident.o_viewerId o) r' = open_before (Resident.o_operation o))
    (Resident.pendingOperations r').
Proof.
  intros rid o Ho. unfold at_r. rewrite after_viewers.
  pose proof (j_ops l Hl rid o) as Hold. destruct down_head as [Hok _]. unfold down_ok in Hok.
  unfold r', after_down in Ho.
  destruct (body f) as [|op rid' vid|vid p|rid' route|]; simpl in Ho; try by apply Hold.
  apply lookup_insert_Some in Ho as [[<- <-]|[_ Ho]]; [|by apply Hold]. simpl. naive_solver.
Qed.

Lemma down_input : input_ok r' rest.
Proof.
  pose proof (j_input l Hl) as Hi. rewrite Hd in Hi.
  pose proof (input_ok_tail _ _ _ Hi) as Ht.
  intros k g vid p Hk Hb. destruct (Ht k g vid p Hk Hb) as [Hbusy Hj]. split; [|done].
  unfold r', after_down. destruct (body f) as [|op rid' vid'| | |] eqn:Hf; try done; simpl.
  apply not_true_iff_false. rewrite resident_viewer_busy_spec.
  intros (i & o & [[<- <-]|[_ Hio]]%lookup_insert_Some & Heq).
  - simpl in Heq. subst vid'. destruct (Hi (S k) g vid p Hk Hb) as [_ H0].
    by eapply (H0 0%nat f op rid'); [lia|..].
  - apply not_true_iff_false in Hbusy. apply Hbusy, resident_viewer_busy_spec. eauto.
Qed.

Lemma step_down_in_step :
  in_step (mkLink (gw l) r' (nextOutboundSeq l) rest (up l) (used l)).
Proof.
  destruct (j_down_seq l Hl) as (Hn & Hout & Hmax). rewrite Hd in Hn, Hout. simpl in Hout.
  destruct down_head as [Hhead Hrest]. destruct (j_used l Hl) as (Hu1 & Hu2 & Hu3).
  assert (Resident.nextSeq r' = Resident.nextSeq (rs l) + 1)%Z as Hq by done.
  split; try apply Hl; cbn [gw rs nextOutboundSeq down up used].
  - unfold r', after_down. destruct (j_live l Hl) as (? & ? & ? & ?). by destruct (body f).
  - unfold r', after_down. pose proof (j_conn l Hl). by destruct (body f).
  - unfold r', after_down. pose proof (j_caps l Hl). by destruct (body f).
  - rewrite Hq. split_and!; [by eapply numbered_tail|lia|done].
  - assert (Resident.nextOutboundSeq r' = Resident.nextOutboundSeq (rs l)) as ->; [|apply Hl].
    unfold r', after_down. by destruct (body f).
  - apply down_place.
  - apply Forall_forall. intros x Hx. rewrite Forall_forall in Hrest.
    eapply down_ok_frame; [by apply Hrest|done| |].
    + intros rid Hr. split; [done|]. intros Hid Hin%after_ids.
      destruct (request_of (body f)) as [rid'|] eqn:Hf; [|set_solver].
      apply elem_of_union in Hin as [->%elem_of_singleton|?]; [|done].
      destruct (head_place l f rest rid' Hl Hd Hf) as (Hz & _).
      pose proof (elem_in_down x rid' rest Hx Hr). lia.
    + intros vid _. unfold at_r. by rewrite after_viewers.
  - eapply Forall_impl; [apply Hl|]. intros x Hx. eapply up_ok_frame; [done..|].
    intros vid _. unfold at_r. by rewrite after_viewers.
  - apply down_ops.
  - intros rid Hr. unfold r', after_down in Hr. pose proof (j_fetch l Hl rid) as Hold.
    unfold down_ok in Hhead. destruct (body f) as [| | |rid' route|]; simpl in Hr; auto.
    apply elem_of_union in Hr as [->%elem_of_singleton|?]; [by destruct Hhead|auto].
  - rewrite after_viewers. apply Hl.
  - apply down_input.
  - split_and!; [done| |done]. pose proof after_ids as Hids.
    destruct (request_of (body f)) as [rid|] eqn:Hf; [|set_solver].
    destruct (head_place l f rest rid Hl Hd Hf) as (_ & _ & _ & Hg).
    assert (rid ∈ used l); [|set_solver]. apply Hu3, elem_of_dom.
    unfold at_gateway in Hg. by destruct (Gateway.pending (gw l) !! rid).
Qed.
End deliver_down.

(** The resident's next outbound number after an emission below the limit. *)
Lemma outbound_next r :
  (Resident.nextOutboundSeq r < MAX_SAFE_INTEGER)%Z →
  Resident.advanceOutboundSequence r
  = Resident.set_outbound (Resident.nextOutboundSeq r + 1) r.
Proof.
  intros H. unfold Resident.advanceOutboundSequence.
  destruct (Z.eqb_spec (Resident.nextOutboundSeq r) MAX_SAFE_INTEGER); [lia|done].
Qed.

(** Numbering of [up] after an emission. *)
Lemma up_numbering l b :
  in_step l → (Resident.nextOutboundSeq (rs l) < MAX_SAFE_INTEGER)%Z →
  numbered (Gateway.s_connectionId (gw l)) (Gateway.nextSeq (gw l))
    (up l ++ [mkFrame (Resident.s_connectionId (rs l)) (Resident.nextOutboundSeq (rs l)) b])
  ∧ (Resident.nextOutboundSeq (rs l) + 1
     = Gateway.nextSeq (gw l) + Z.of_nat (length (up l ++ [mkFrame
         (Resident.s_connectionId (rs l)) (Resident.nextOutboundSeq (rs l)) b])))%Z
  ∧ (Resident.nextOutboundSeq (rs l) + 1 ≤ MAX_SAFE_INTEGER)%Z.
Proof.
  intros Hl Hmax. destruct (j_up_seq l Hl) as (Hn & Hout & _).
  split_and!; [|rewrite length_app; simpl; lia|lia].
  rewrite Hout, (j_conn l Hl). by apply numbered_snoc.
Qed.

Section operation.
Context (l : link) (Hl : in_step l).
Context (rid vid : string) (op : ViewerOperation) (err : option ErrorDetail).
Context (Hmax : (Resident.nextOutboundSeq (rs l) < MAX_SAFE_INTEGER)%Z).
Context (Hp : Resident.pendingOperations (rs l) !! rid
              = Some {| Resident.o_operation := op; Resident.o_viewerId := vid |}).
Let b := OperationResult rid vid (JStr (operation_name op)) err.
Let r' := Resident.set_outbound (Resident.nextOutboundSeq (rs l) + 1)
            (Resident.set_viewers (viewers_after op err vid (Resident.viewers (rs l)))
               (Resident.set_operations (delete rid (Resident.pendingOperations (rs l))) (rs l))).

Lemma operation_gateway :
  Gateway.pending (gw l) !! rid = Some (op_request op vid)
  ∧ at_r vid (rs l) = open_before op.
Proof. apply (j_ops l Hl) in Hp. done. Qed.

Lemma operation_place :
  at_resident rid (rs l) = 1%nat ∧ in_down rid (down l) = 0%nat ∧ in_up rid (up l) = 0%nat
  ∧ rid ∉ Resident.pendingMedia (rs l).
Proof.
  pose proof (j_place l Hl rid) as Hpl. destruct operation_gateway as [Hg _].
  rewrite (at_gateway_pending _ _ _ Hg) in Hpl. unfold at_resident in *. rewrite Hp in *.
  case_bool_decide; split_and!; try done; lia.
Qed.

Lemma operation_at_r vid' :
  at_r vid' r' = if decide (vid' = vid) then open_after op err else at_r vid' (rs l).
Proof.
  destruct operation_gateway as [_ Hv]. unfold at_r, r' in *. simpl.
  destruct (decide (vid' = vid)) as [->|]; destruct op, err; simpl in *;
    repeat case_bool_decide; set_solver.
Qed.

Lemma operation_moved rid' :
  (in_down rid' (down l) + at_resident rid' r' + in_up rid' (up l ++ [mkFrame
     (Resident.s_connectionId (rs l)) (Resident.nextOutboundSeq (rs l)) b])
   = at_gateway rid' (gw l))%nat.
Proof.
  rewrite in_up_app, in_up_cons. unfold in_up at 2. simpl.
  pose proof (j_place l Hl rid') as Hpl. rewrite <- Hpl.
  destruct operation_place as (H1 & H2 & H3 & H4).
  destruct (decide (rid' = rid)) as [->|Hne].
  - rewrite bool_decide_true, H1 by done. unfold at_resident, r'. simpl.
    rewrite lookup_delete_eq, bool_decide_false by done. lia.
  - rewrite bool_decide_false by congruence. unfold at_resident, r'. simpl.
    rewrite lookup_delete_ne by done. lia.
Qed.

Lemma step_operation_in_step :
  in_step (mkLink (gw l) r' (nextOutboundSeq l) (down l)
             (up l ++ [mkFrame (Resident.s_connectionId (rs l))
                         (Resident.nextOutboundSeq (rs l)) b]) (used l)).
Proof.
  destruct operation_gateway as [Hg Hv]. destruct operation_place as (H1 & H2 & H3 & H4).
  assert (∀ v, v ≠ vid → at_r v r' = at_r v (rs l)) as Hother.
  { intros v Hne. rewrite operation_at_r. by rewrite decide_False. }
  split; try apply Hl; cbn [gw rs nextOutboundSeq down up used].
  - by apply up_numbering.
  - apply operation_moved.
  - apply Forall_forall. intros x Hx. pose proof (j_down l Hl) as Hok.
    rewrite Forall_forall in Hok. eapply down_ok_frame; [by apply Hok|done|done|].
    intros v Hxv. apply Hother. intros ->.
    apply (down_viewer l x rid vid op Hl Hg Hx); [|done|done].
    intros p Hb. apply list_elem_of_lookup_1 in Hx as [k Hk].
    destruct (j_input l Hl k x vid p Hk Hb) as [Hbusy _]. apply not_true_iff_false in Hbusy.
    apply Hbusy, resident_viewer_busy_spec. eauto.
  - apply Forall_app. split.
    + apply Forall_forall. intros x Hx. pose proof (j_up l Hl) as Hok.
      rewrite Forall_forall in Hok. eapply up_ok_frame; [by apply Hok|done|done|].
      intros v Hxv. apply Hother. intros ->. by apply (up_viewer l x rid vid op Hl Hg Hx).
    + apply Forall_singleton. exists op. split_and!; [done..|].
      rewrite operation_at_r. by rewrite decide_True.
  - intros i o Hi. simpl in Hi. apply lookup_delete_Some in Hi as [Hne Hi].
    pose proof Hi as [Hi1 Hi2]%(j_ops l Hl). split; [done|]. rewrite Hother; [done|]. intros Heq. apply Hne.
    eapply op_unique; [done|apply Hg|]. by rewrite Hi1, Heq.
  - intros v Hb. rewrite (j_idle l Hl v Hb). assert (v ≠ vid) as Hne.
    { intros ->. rewrite not_busy_spec in Hb. by apply (Hb _ _ Hg). }
    specialize (Hother v Hne). unfold at_r in Hother.
    repeat case_bool_decide; by try congruence.
  - intros k x v p Hk Hb. destruct (j_input l Hl k x v p Hk Hb) as [Hbusy Hj]. split; [|done].
    apply not_true_iff_false. apply not_true_iff_false in Hbusy.
    intros (i & o & Hi & Ho)%resident_viewer_busy_spec. simpl in Hi.
    apply lookup_delete_Some in Hi as [_ Hi].
    apply Hbusy, resident_viewer_busy_spec. eauto.
  - apply output_ok_snoc; [apply Hl|done].
Qed.
End operation.

Lemma step_output_in_step l vid payload :
  in_step l → (Resident.nextOutboundSeq (rs l) < MAX_SAFE_INTEGER)%Z →
  vid ∈ Resident.viewers (rs l) →
  in_step (mkLink (gw l) (Resident.set_outbound (Resident.nextOutboundSeq (rs l) + 1) (rs l))
             (nextOutboundSeq l) (down l)
             (up l ++ [mkFrame (Resident.s_connectionId (rs l)) (Resident.nextOutboundSeq (rs l))
                         (ConsoleOutput vid payload)]) (used l)).
Proof.
  intros Hl Hmax Hv. split; try apply Hl; cbn [gw rs nextOutboundSeq down up used].
  - by apply up_numbering.
  - intros rid. rewrite in_up_app. unfold in_up at 2. simpl.
    pose proof (j_place l Hl rid) as Hp. unfold at_resident in *. simpl. lia.
  - apply Forall_app. split; [apply Hl|]. apply Forall_singleton. by apply in_step_viewers.
  - apply output_ok_snoc; [apply Hl|]. intros v p [= <- <-] f' Hf' (rid & o & err & Hb & Ha).
    pose proof (j_up l Hl) as Hok. rewrite Forall_forall in Hok. specialize (Hok f' Hf').
    unfold up_ok in Hok. rewrite Hb in Hok. destruct Hok as (o' & Ho & _ & Hr).
    injection Ho as <-%(inj operation_name).
    rewrite Ha in Hr. by apply bool_decide_eq_false in Hr.
Qed.

Lemma step_media_in_step l rid o :
  in_step l → (Resident.nextOutboundSeq (rs l) < MAX_SAFE_INTEGER)%Z →
  rid ∈ Resident.pendingMedia (rs l) →
  in_step (mkLink (gw l)
             (Resident.set_outbound (Resident.nextOutboundSeq (rs l) + 1)
                (Resident.set_media (Resident.pendingMedia (rs l) ∖ {[ rid ]}) (rs l)))
             (nextOutboundSeq l) (down l)
             (up l ++ [mkFrame (Resident.s_connectionId (rs l)) (Resident.nextOutboundSeq (rs l))
                         (MediaResult rid o)]) (used l)).
Proof.
  intros Hl Hmax Hr. split; try apply Hl; cbn [gw rs nextOutboundSeq down up used].
  - by apply up_numbering.
  - intros rid'. rewrite in_up_app, in_up_cons. unfold in_up at 2. simpl.
    pose proof (j_place l Hl rid') as Hp. rewrite <- Hp. unfold at_resident. simpl.
    destruct (decide (rid' = rid)) as [->|Hne].
    + rewrite (bool_decide_true (rid ∈ Resident.pendingMedia (rs l))) by done.
      rewrite bool_decide_false, bool_decide_true by set_solver. lia.
    + rewrite (bool_decide_ext (rid' ∈ Resident.pendingMedia (rs l) ∖ {[ rid ]})
        (rid' ∈ Resident.pendingMedia (rs l))) by set_solver.
      rewrite (bool_decide_false (Some rid = Some rid')) by congruence. lia.
  - apply Forall_app. split; [apply Hl|]. apply Forall_singleton. by apply (j_fetch l Hl).
  - intros i Hi. apply (j_fetch l Hl). simpl in Hi. set_solver.
  - apply output_ok_snoc; [apply Hl|done].
Qed.

Section deliver_up.
Context (l : link) (Hl : in_step l) (f : frame ResidentBody) (rest : list (frame ResidentBody)).
Context (Hu : up l = f :: rest).
Let g' := GatewayInv.received f (gw l).

Lemma up_head : up_ok (gw l) (rs l) f ∧ Forall (up_ok (gw l) (rs l)) rest.
Proof. pose proof (j_up l Hl) as H. rewrite Hu in H. by apply Forall_cons in H. Qed.

(** The viewers the Gateway keeps after the head of [up]. *)
Definition kept (b : ResidentBody) (v : gset string) : gset string :=
  match b with
  | OperationResult _ vid op err =>
      if (is_str op "viewer.open" && bool_decide (is_Some err))
         || (is_str op "viewer.close" && bool_decide (err = None))
      then v ∖ {[ vid ]} else v
  | _ => v
  end.

Lemma received_state :
  g' = Gateway.set_seq (Gateway.nextSeq (gw l) + 1)
         (Gateway.set_viewers (kept (body f) (Gateway.viewers (gw l)))
            (Gateway.set_pending
               (match GatewayInv.answers (body f) with
                | Some rid => delete rid (Gateway.pending (gw l))
                | None => Gateway.pending (gw l)
                end) (gw l))).
Proof.
  destruct up_head as [Hok _]. destruct (j_live l Hl) as (_ & _ & [h Hh] & _).
  destruct (j_up_seq l Hl) as (_ & Hout & Hmax). rewrite Hu in Hout. simpl in Hout.
  unfold g', GatewayInv.received. rewrite Hh. unfold up_ok in Hok.
  unfold Gateway.advanceSequence.
  destruct (GatewayInv.settled_frame (body f) (gw l)) as (Hq & _).
  rewrite Hq. destruct (Z.eqb_spec (Gateway.nextSeq (gw l)) MAX_SAFE_INTEGER); [lia|].
  unfold GatewayInv.settled.
  destruct (body f) as [|rid vid op err|vid p|rid o|]; try done; simpl.
  - destruct Hok as (o & -> & Hp & _). rewrite Hp. simpl.
    destruct o, err; simpl; by destruct (gw l).
  - rewrite Hok. simpl. by destruct (gw l).
Qed.

Lemma up_other_place x rid :
  x ∈ rest → GatewayInv.answers (body x) = Some rid → GatewayInv.answers (body f) ≠ Some rid.
Proof.
  intros Hx Hr Hf. pose proof (j_place l Hl rid) as Hp. pose proof (at_gateway_le rid (gw l)).
  rewrite Hu, in_up_cons, bool_decide_true in Hp by done.
  pose proof (elem_in_up x rid rest Hx Hr). lia.
Qed.

Lemma up_other_pending rid :
  GatewayInv.answers (body f) ≠ Some rid →
  Gateway.pending g' !! rid = Gateway.pending (gw l) !! rid.
Proof.
  intros Hne. rewrite received_state. simpl. case_match; [|done].
  rewrite lookup_delete_ne; congruence.
Qed.

(** A request that is still elsewhere is not the one being answered. *)
Lemma up_elsewhere rid :
  (0 < in_down rid (down l) + at_resident rid (rs l))%nat →
  GatewayInv.answers (body f) ≠ Some rid.
Proof.
  intros Hpos Hf. pose proof (j_place l Hl rid) as Hp. pose proof (at_gateway_le rid (gw l)).
  rewrite Hu, in_up_cons, bool_decide_true in Hp by done. lia.
Qed.

Lemma up_place rid :
  (in_down rid (down l) + at_resident rid (rs l) + in_up rid rest = at_gateway rid g')%nat.
Proof.
  pose proof (j_place l Hl rid) as Hp. rewrite Hu, in_up_cons in Hp.
  destruct (bool_decide_reflect (GatewayInv.answers (body f) = Some rid)) as [Ha|Ha].
  - unfold at_gateway. rewrite received_state. simpl. rewrite Ha, lookup_delete_eq.
    pose proof (at_gateway_le rid (gw l)). lia.
  - unfold at_gateway in *. rewrite up_other_pending by done. lia.
Qed.

Lemma up_idle vid :
  Gateway.viewer_busy vid (Gateway.pending g') = false →
  (vid ∈ Gateway.viewers g' ↔ vid ∈ Resident.viewers (rs l)).
Proof.
  rewrite not_busy_spec. intros Hb. destruct up_head as [Hok _]. unfold up_ok in Hok.
  destruct (Gateway.viewer_busy vid (Gateway.pending (gw l))) eqn:Hbusy.
  - apply GatewayInv.viewer_busy_spec in Hbusy as (i & p & Hi & Hpv).
    destruct (decide (GatewayInv.answers (body f) = Some i)) as [Ha|Ha];
      [|by edestruct Hb; [rewrite up_other_pending|]].
    rewrite received_state. simpl.
    destruct (body f) as [|rid vid' op err| |rid o|]; simplify_eq/=; [|done].
    destruct Hok as (o & -> & Hp & Hr). rewrite Hp in Hi. simplify_eq/=.
    assert (vid ∈ Gateway.viewers (gw l)) by (by eapply GatewayInv.inv_open; [apply Hl|apply Hp|]).
    unfold at_r in Hr. destruct o, err; simpl in *; guards; set_solver.
  - rewrite <- (j_idle l Hl vid Hbusy). rewrite received_state. simpl.
    destruct (body f) as [|rid vid' op err| | |]; simpl; try done.
    assert (vid' ≠ vid); [|case_match; set_solver].
    intros ->. destruct Hok as (o & _ & Hp & _). rewrite not_busy_spec in Hbusy.
    by apply (Hbusy _ _ Hp).
Qed.

(** Console output behind the head keeps its viewer. *)
Lemma up_kept x vid p :
  x ∈ rest → body x = ConsoleOutput vid p →
  vid ∈ Gateway.viewers (gw l) → vid ∈ Gateway.viewers g'.
Proof.
  intros [k Hk]%list_elem_of_lookup_1 Hb Hv. rewrite received_state. simpl.
  destruct up_head as [Hok _]. unfold up_ok in Hok.
  pose proof (j_output l Hl) as Ho. rewrite Hu in Ho.
  specialize (Ho (S k) x vid p Hk Hb 0%nat f ltac:(lia) eq_refl).
  destruct (body f) as [|rid vid' op err| | |] eqn:Hf; simpl; try done.
  destruct Hok as (o & -> & _ & _). destruct (decide (vid' = vid)) as [->|Hne].
  - destruct (open_after o err) eqn:Ha; [by destruct o, err|]. destruct Ho. by exists rid, o, err.
  - case_match; set_solver.
Qed.

Lemma step_up_in_step :
  in_step (mkLink g' (rs l) (nextOutboundSeq l) (down l) rest (used l)).
Proof.
  pose proof (up_accepted l f rest Hl Hu) as Hrec. destruct up_head as [Hok Hrest].
  destruct (j_up_seq l Hl) as (Hn & Hout & Hmax). rewrite Hu in Hn, Hout. simpl in Hout.
  pose proof received_state as Hg.
  assert (Gateway.viewers g' ⊆ Gateway.viewers (gw l)) as Hsub.
  { rewrite Hg. cbn. destruct (body f); cbn; try done. destruct (_ || _); set_solver. }
  assert (∀ rid p, Gateway.pending g' !! rid = Some p → Gateway.pending (gw l) !! rid = Some p)
    as Hpsub.
  { intros rid p. rewrite Hg. simpl. case_match; [|done]. by intros [_ ?]%lookup_delete_Some. }
  split; try apply Hl; cbn [gw rs nextOutboundSeq down up used].
  - apply GatewayInv.received_inv; [apply Hl|done].
  - rewrite Hg. apply Hl.
  - rewrite Hg. apply Hl.
  - rewrite Hg. apply Hl.
  - intros Hne. rewrite Hg. apply (j_console l Hl). intros E. apply Hne.
    apply leibniz_equiv. set_solver.
  - intros rid p Hp. rewrite Hg. apply (j_media l Hl rid). by apply Hpsub.
  - rewrite Hg. apply Hl.
  - rewrite Hg. cbn [Gateway.s_connectionId Gateway.nextSeq Gateway.set_seq].
    split_and!; [by eapply numbered_tail|lia|done].
  - apply up_place.
  - apply Forall_forall. intros x Hx. pose proof (j_down l Hl) as Hd. rewrite Forall_forall in Hd.
    eapply down_ok_frame; [by apply Hd|by rewrite Hg| |done].
    intros rid Hr. split; [|done]. apply up_other_pending, up_elsewhere.
    pose proof (elem_in_down x rid (down l) Hx Hr). lia.
  - apply Forall_forall. intros x Hx. rewrite Forall_forall in Hrest.
    eapply up_ok_frame; [by apply Hrest| | |done].
    + intros rid Hr. by apply up_other_pending, (up_other_place x).
    + intros vid p Hb Hv. by eapply up_kept.
  - intros rid o Ho. pose proof Ho as [Hp Hr]%(j_ops l Hl). split; [|done].
    rewrite up_other_pending; [done|]. apply up_elsewhere. unfold at_resident. rewrite Ho. lia.
  - intros rid Hr. rewrite up_other_pending; [by apply (j_fetch l Hl)|]. apply up_elsewhere.
    unfold at_resident. rewrite bool_decide_true by done. lia.
  - apply up_idle.
  - pose proof (j_output l Hl) as Ho. rewrite Hu in Ho. by eapply output_ok_tail.
  - destruct (j_used l Hl) as (H1 & H2 & H3). split_and!; [by rewrite Hg|done|].
    intros rid [p Hp]%elem_of_dom. apply H3, elem_of_dom. eauto.
Qed.
End deliver_up.

(** ** The link stays in step *)

Section reachable.
Context (sha256_hex : list Z → string).

Lemma step_in_step l l' : in_step l → step sha256_hex l l' → in_step l'.
Proof.
  intros Hl. destruct 1 as [q g' Hf Hm Ha Hr|vid p Hi Hm|f rest r' Hd Hh|rid vid op err f r' Hm Ho
    |vid p f r' Hm Ho|rid o f r' Hm Ho|f rest g' Hu Hh].
  - destruct (GatewayInv.registerRequest_run
      (mkFrame (Gateway.s_connectionId (gw l)) (nextOutboundSeq l) q) (gw l))
      as [[E Hmay]|[e E]]; rewrite E in Hr; simplify_eq.
    by apply step_request_in_step.
  - by apply step_input_in_step.
  - rewrite (down_accepted l f rest Hl Hd) in Hh. simplify_eq. by apply step_down_in_step.
  - apply operationResult_inr in Ho as (_ & _ & Hp & -> & ->).
    rewrite outbound_next by done. by apply step_operation_in_step.
  - apply consoleOutput_inr in Ho as (_ & _ & Hv & -> & ->).
    rewrite outbound_next by done. by apply step_output_in_step.
  - apply mediaResult_inr in Ho as (_ & _ & Hv & -> & ->).
    rewrite outbound_next by done. by apply step_media_in_step.
  - pose proof (up_accepted l f rest Hl Hu) as Hmay.
    destruct (GatewayInv.handleFrame_run f (gw l)) as [[E _]|(c & s' & E & _)];
      rewrite E in Hh; simplify_eq. by apply step_up_in_step.
Qed.

Lemma reachable_in_step l l' : established l → rtc (step sha256_hex) l l' → in_step l'.
Proof.
  intros Hl%established_in_step Hs. induction Hs; [done|]. eauto using step_in_step.
Qed.

End reachable.
