(* ===== verification/Wire.v ===== *)
(** * Frames as objects

    The object a typed frame of types.ts is on the wire, which frames the
    decoder of codec.ts accepts, and that decoding inverts it. *)

From Stdlib Require Import Ascii.
From S2P Require Import Prelude Protocol Codec CodecFacts Session.
Local Open Scope string_scope.
Local Open Scope list_scope.

(** ** Well-formed frames *)

(** Capability lists the validator accepts: known, strictly increasing. *)
Definition wf_caps (caps : list Capability) : Prop :=
  validateCapabilities (caps_json caps) = inr caps.

Definition wf_text (maxBytes : Z) (s : string) : Prop :=
  s ≠ "" ∧ (bytes s ≤ maxBytes)%Z ∧ some_char is_control s = false.
Definition wf_error (e : ErrorDetail) : Prop :=
  wf_text LIMITS_errorCodeBytes (error_code e) ∧ wf_text LIMITS_errorMessageBytes (error_message e).
Definition wf_protocol_error (e : ProtocolError) : Prop :=
  wf_error (perr_error e)
  ∧ error_code (perr_error e) ∈ map error_code_name PROTOCOL_ERROR_CODES
  ∧ (∀ r, perr_requestId e = Some r → is_id REQUEST_PREFIX r = true).

Definition wf_gateway_body (b : GatewayBody) : Prop :=
  match b with
  | HelloAck i caps => is_id INSTANCE_PREFIX i = true ∧ wf_caps caps
  | ViewerOp _ r v => is_id REQUEST_PREFIX r = true ∧ is_id VIEWER_PREFIX v = true
  | ConsoleInput v p => is_id VIEWER_PREFIX v = true ∧ (bytes p ≤ LIMITS_consolePayloadBytes)%Z
  | MediaGet r route => is_id REQUEST_PREFIX r = true ∧ mediaRoute (JStr route) = inr route
  | GatewayErr e => wf_protocol_error e
  end.

Definition wf_gateway (f : frame GatewayBody) : Prop :=
  is_id CONNECTION_PREFIX (connectionId f) = true
  ∧ (1 ≤ seq f ≤ MAX_SAFE_INTEGER)%Z
  ∧ wf_gateway_body (body f).

(** The object a Gateway frame is. *)
Definition gateway_fields (b : GatewayBody) : list (string * json) :=
  match b with
  | HelloAck i caps => [("instanceId", JStr i); ("capabilities", caps_json caps)]
  | ViewerOp _ r v => [("requestId", JStr r); ("viewerId", JStr v)]
  | ConsoleInput v p => [("viewerId", JStr v); ("payload", JStr p)]
  | MediaGet r route => [("requestId", JStr r); ("route", JStr route)]
  | GatewayErr e =>
      ("error", Resident.error_json (perr_error e)) :: ("fatal", JBool (perr_fatal e))
      :: optional_field "requestId" (perr_requestId e)
  end.
Definition gateway_json (f : frame GatewayBody) : json :=
  frame_object (gateway_type (body f)) (connectionId f) (seq f) (gateway_fields (body f)).

(** ** What decoding produces is well formed *)

Lemma validate_from_json prev l caps :
  validate_from prev l = inr caps → l = map (λ c, JStr (capability_name c)) caps.
Proof.
  revert prev caps. induction l as [|v l IH]; intros prev caps; simpl.
  { by intros [= <-]. }
  destruct v as [| | |s| |]; try done.
  destruct (capability_of_name s) as [c|] eqn:Hc; [|done].
  intros H. sum_inv. subst. simpl. f_equal; [|by eapply IH].
  apply List.find_some in Hc as [_ Hc]. guards. by subst.
Qed.

Lemma validateCapabilities_json v caps : validateCapabilities v = inr caps → v = caps_json caps.
Proof.
  destruct v as [| | | |l|]; try done. intros H%validate_from_json. by rewrite H.
Qed.

Lemma validated_wf v caps : validateCapabilities v = inr caps → wf_caps caps.
Proof. intros H. unfold wf_caps. by rewrite <- (validateCapabilities_json v). Qed.

#[export] Instance caps_json_inj : Inj (=) (=) caps_json.
Proof.
  intros l. induction l as [|c l IH]; intros [|c' l']; try done.
  intros [= Hc Hl]. f_equal; [by destruct c, c'|]. apply IH. unfold caps_json. by f_equal.
Qed.

Lemma validate_caps caps caps' : validateCapabilities (caps_json caps) = inr caps' → caps' = caps.
Proof. intros H%validateCapabilities_json. by apply (inj caps_json). Qed.

Lemma errorDetail_wf v e : errorDetail v = inr e → wf_error e.
Proof.
  unfold errorDetail. intros H. sum_inv. subst. unfold wf_error, wf_text. simpl.
  by repeat match goal with H : stringValue _ _ = inr _ |- _ => apply stringValue_inr in H end;
    destruct_and!.
Qed.

Lemma error_frame_wf fs e : error_frame fs = inr e → wf_protocol_error e.
Proof.
  unfold error_frame. intros H. sum_inv.
  match goal with H : errorDetail _ = _ |- _ => apply errorDetail_wf in H as Hwf end.
  guards. case_match; sum_inv; subst; (split; [done|]); (split; [done|]).
  - intros r [= <-]. match goal with H : Codec.id _ _ = _ |- _ => by apply id_inr in H as [_ ?] end.
  - done.
Qed.

Lemma mediaRoute_str v r : mediaRoute v = inr r → v = JStr r.
Proof.
  unfold mediaRoute. intros H. sum_inv.
  match goal with H : stringValue _ _ = _ |- _ => apply stringValue_inr in H as [-> _] end.
  repeat (case_match; sum_inv; try done); by subst.
Qed.

Lemma mediaRoute_idem v r : mediaRoute v = inr r → mediaRoute (JStr r) = inr r.
Proof. intros H. by rewrite <- (mediaRoute_str v r). Qed.

Ltac wf_tac :=
  repeat match goal with
  | H : Codec.id _ _ = inr _ |- _ => apply id_inr in H as [_ H]
  | H : validateCapabilities _ = inr _ |- _ => apply validated_wf in H
  | H : mediaRoute _ = inr _ |- _ => apply mediaRoute_idem in H; revert H
  end.

Lemma opaquePayload_inr v p :
  opaquePayload v = inr p ↔ v = JStr p ∧ (bytes p ≤ LIMITS_consolePayloadBytes)%Z.
Proof.
  unfold opaquePayload. destruct v as [| | |t| |]; try by split; [|intros [? _]].
  split.
  - intros H. sum_inv. guards. by subst.
  - intros [[= ->] ?]. rewrite bind_inr. exists tt. by rewrite ensure_inr, Z.leb_le.
Qed.

Lemma console_frame_wf fs v p :
  console_frame fs = inr (v, p) →
  is_id VIEWER_PREFIX v = true ∧ (bytes p ≤ LIMITS_consolePayloadBytes)%Z.
Proof.
  unfold console_frame. intros H. sum_inv. simplify_eq. wf_tac.
  match goal with H : opaquePayload _ = _ |- _ => apply opaquePayload_inr in H as [_ ?] end. done.
Qed.

Lemma gateway_body_wf fs type b :
  gateway_body fs type = inr b → wf_gateway_body b.
Proof.
  unfold gateway_body. intros H.
  repeat match type of H with (if ?c then _ else _) = _ => destruct c end.
  all: unfold hello_ack_frame, viewer_frame, media_get_frame in H; sum_inv; subst; simpl.
  all: try (by wf_tac; intros).
  - destruct x as [v p]. sum_inv. subst. by eapply console_frame_wf.
  - by eapply error_frame_wf.
Qed.

(** ** Decoding inverts the object encoding *)

(** A strictly increasing list of capabilities is one of eight. *)
Definition subsets : list (list Capability) :=
  [ []; [console_v1]; [identity_v1]; [media_v1]; [console_v1; identity_v1];
    [console_v1; media_v1]; [identity_v1; media_v1]; [console_v1; identity_v1; media_v1] ].

Lemma wf_caps_subsets caps : wf_caps caps ↔ caps ∈ subsets.
Proof.
  split.
  - unfold wf_caps. intros H.
    destruct caps as [|[] [|[] [|[] [|[] l]]]]; try done; try (compute_done; fail).
    all: try (unfold subsets; set_solver; fail).
  - intros H. unfold subsets in H. repeat (apply elem_of_cons in H as [->|H]; [done|]).
    by apply not_elem_of_nil in H.
Qed.

(** Reading a list of fields back. *)
Lemma exact_ok fs ks : ssort fs.*1 = ssort ks → exact fs ks = inr tt.
Proof. intros H. unfold exact. apply ensure_inr. by apply bool_decide_eq_true. Qed.

Lemma id_ok p s : is_id p s = true → Codec.id (JStr s) p = inr s.
Proof. intros. by apply id_inr. Qed.

Lemma errorDetail_ok e : wf_error e → errorDetail (json_copy (Resident.error_json e)) = inr e.
Proof.
  intros [Hc Hm]. destruct e as [code message]. unfold errorDetail, record.
  cbn [Resident.error_json json_copy map error_code error_message].
  unfold mbind at 1, sum_bind at 1. rewrite exact_ok by done.
  change (prop _ "code") with (JStr code). change (prop _ "message") with (JStr message).
  assert (stringValue (JStr code) LIMITS_errorCodeBytes = inr code) as ->
    by (by apply stringValue_inr).
  assert (stringValue (JStr message) LIMITS_errorMessageBytes = inr message) as Hs
    by (by apply stringValue_inr).
  unfold mbind, sum_bind. by rewrite Hs.
Qed.

Lemma error_frame_ok e c q :
  wf_protocol_error e →
  error_frame (copy_fields (("version", JNum (num_of_Z PROTOCOL_VERSION)) :: ("type", JStr "error")
    :: ("connectionId", JStr c) :: ("seq", JNum (num_of_Z q)) :: gateway_fields (GatewayErr e)))
  = inr e.
Proof.
  intros (He & Hc & Hr). destruct e as [d fatal r]. unfold error_frame.
  cbn [gateway_fields perr_error perr_fatal perr_requestId] in *.
  set (fs := copy_fields _).
  assert (prop fs "error" = json_copy (Resident.error_json d)) as -> by done.
  assert (prop fs "fatal" = JBool fatal) as -> by done.
  assert (field fs "requestId" = JStr <$> r) as -> by (by destruct r).
  rewrite exact_ok by (by destruct r). unfold mbind, sum_bind.
  rewrite errorDetail_ok by done. cbn [error_code].
  assert (ensure (bool_decide (error_code d ∈ map error_code_name PROTOCOL_ERROR_CODES))
            invalid_frame = inr tt) as -> by (by apply ensure_inr, bool_decide_eq_true).
  simpl. destruct r as [r|]; simpl; [|done]. rewrite Hr by done. done.
Qed.

(** The fields of a Gateway frame object. *)
Definition gateway_object (f : frame GatewayBody) : list (string * json) :=
  ("version", JNum (num_of_Z PROTOCOL_VERSION)) :: ("type", JStr (gateway_type (body f)))
  :: ("connectionId", JStr (connectionId f)) :: ("seq", JNum (num_of_Z (seq f)))
  :: gateway_fields (body f).

Lemma caps_copy caps : json_copy (caps_json caps) = caps_json caps.
Proof.
  unfold caps_json. simpl. f_equal. rewrite map_map. done.
Qed.

Lemma gateway_body_ok f :
  wf_gateway_body (body f) →
  gateway_body (copy_fields (gateway_object f)) (gateway_type (body f)) = inr (body f).
Proof.
  destruct f as [c q b]. unfold gateway_object.
  destruct b as [i caps|[] r v|v p|r route|e]; cbn [body wf_gateway_body connectionId seq]; intros Hw.
  - destruct Hw as [Hi Hc]. unfold gateway_body. cbn [gateway_type String.eqb Ascii.eqb Bool.eqb].
    unfold hello_ack_frame. rewrite exact_ok by done.
    change (prop _ "instanceId") with (JStr i).
    change (prop _ "capabilities") with (json_copy (caps_json caps)).
    rewrite caps_copy, (id_ok _ _ Hi). unfold mbind, sum_bind. by rewrite Hc.
  - destruct Hw as [Hr Hv]. unfold gateway_body, viewer_frame. simpl. by rewrite Hr, Hv.
  - destruct Hw as [Hr Hv]. unfold gateway_body, viewer_frame. simpl. by rewrite Hr, Hv.
  - destruct Hw as [Hr Hv]. unfold gateway_body, viewer_frame. simpl. by rewrite Hr, Hv.
  - destruct Hw as [Hv Hp]. unfold gateway_body. cbn [gateway_type String.eqb Ascii.eqb Bool.eqb].
    unfold console_frame. rewrite exact_ok by done.
    change (prop _ "viewerId") with (JStr v). change (prop _ "payload") with (JStr p).
    rewrite (id_ok _ _ Hv). assert (opaquePayload (JStr p) = inr p) as Hop by (by apply opaquePayload_inr).
    unfold mbind, sum_bind. by rewrite Hop.
  - destruct Hw as [Hr Hm]. unfold gateway_body. cbn [gateway_type String.eqb Ascii.eqb Bool.eqb].
    unfold media_get_frame. rewrite exact_ok by done.
    change (prop _ "requestId") with (JStr r). change (prop _ "route") with (JStr route).
    rewrite (id_ok _ _ Hr). unfold mbind, sum_bind. by rewrite Hm.
  - unfold gateway_body. cbn [gateway_type String.eqb Ascii.eqb Bool.eqb].
    by rewrite error_frame_ok.
Qed.

Section roundtrip.
Context (sha256_hex : list Z → string).

Lemma gateway_decoded_wf i f : decodeGatewayFrame sha256_hex i = inr f → wf_gateway f.
Proof.
  intros (fs & type & _ & Hc & Hq & _ & Hb)%decodeGatewayFrame_inr.
  apply id_inr in Hc as [_ Hc]. apply safeInteger_bounds in Hq.
  split_and!; [done|lia|lia|by eapply gateway_body_wf].
Qed.

Lemma gateway_encoded f :
  wf_gateway f → (bytes (JSON_stringify (gateway_json f)) ≤ LIMITS_frameBytes)%Z →
  decodeGatewayFrame sha256_hex (InValue (gateway_json f)) = inr f.
Proof.
  intros (Hc & Hq & Hb) Hlen. unfold decodeGatewayFrame, decodeFrame.
  change (gateway_json f) with (JObj (gateway_object f)) in *.
  assert (inputObject (InValue (JObj (gateway_object f))) = inr (copy_fields (gateway_object f)))
    as ->.
  { unfold inputObject. rewrite (proj2 (ensure_inr _ _ tt)); [done|]. by apply Z.leb_le. }
  set (fs := copy_fields _). unfold mbind, sum_bind.
  assert (prop fs "version" = JNum (num_of_Z PROTOCOL_VERSION)) as -> by done.
  assert (prop fs "connectionId" = JStr (connectionId f)) as -> by done.
  assert (prop fs "type" = JStr (gateway_type (body f))) as -> by done.
  assert (prop fs "seq" = json_copy (JNum (num_of_Z (seq f)))) as -> by done.
  rewrite json_copy_num, (id_ok _ _ Hc).
  rewrite (proj2 (safeInteger_num_inr (seq f) 1 (seq f))) by lia.
  change (ensure _ unsupported_version) with (@inr exn () tt). cbv beta iota.
  assert (gateway_type (body f) ∈ frame_types gateway_to_resident) as Ht.
  { destruct (body f) as [|[]| | |]; compute_done. }
  rewrite (proj2 (ensure_inr _ _ tt)) by (by apply bool_decide_eq_true).
  pose proof (gateway_body_ok f Hb) as Hg. fold fs in Hg. rewrite Hg.
  by destruct f.
Qed.
End roundtrip.
