(* ===== verification/Handshake.v ===== *)
(** * Opening a link

    From two fresh sessions through [hello] and [hello.ack] to a link in which
    neither session ever rejects the other (packages/gateway-protocol/src/session.ts,
    the handshake of packages/gateway/src/resident-link-registry.ts and
    src/gateway-link.ts). *)

From Stdlib Require Import Ascii.
From S2P Require Import Prelude Protocol Codec CodecFacts Session SessionInv ResidentInv Link Wire.
Local Open Scope string_scope.
Local Open Scope list_scope.

(** ** Sizes *)

Lemma ack_size c i caps :
  is_id CONNECTION_PREFIX c = true → is_id INSTANCE_PREFIX i = true → wf_caps caps →
  (bytes (JSON_stringify (gateway_json (mkFrame c 1 (HelloAck i caps)))) ≤ LIMITS_frameBytes)%Z.
Proof.
  intros Hc%length_id Hi%length_id Hcaps%wf_caps_subsets. unfold bytes.
  assert (String.length (JSON_stringify (caps_json caps)) ≤ 100)%nat as Hl.
  { unfold subsets in Hcaps. repeat (apply elem_of_cons in Hcaps as [->|Hcaps]; [vm_compute; lia|]).
    by apply not_elem_of_nil in Hcaps. }
  unfold gateway_json, frame_object. cbn [gateway_type gateway_fields connectionId seq body].
  revert Hl. generalize (caps_json caps). intros v Hl.
  cbn [JSON_stringify map String.concat]. rewrite !length_append.
  pose proof (length_quote c). pose proof (length_quote i). simpl in Hc, Hi.
  set (x := String.length (quote c)) in *. set (y := String.length (quote i)) in *.
  set (z := String.length (JSON_stringify v)) in *.
  clearbody x y z.
  repeat match goal with |- context [String.length ?t] =>
    let n := eval vm_compute in (String.length t) in change (String.length t) with n end.
  unfold LIMITS_frameBytes. lia.
Qed.

(** ** The handshake *)

Section handshake.
Context (sha256_hex : list Z → string).

Lemma createResidentHello_inr c n inst caps i b h :
  createResidentHello sha256_hex c n inst caps i b = inr h →
  is_id CONNECTION_PREFIX c = true ∧ is_id INSTANCE_PREFIX inst = true ∧ wf_caps caps
  ∧ ∃ i' b', h = mkFrame c n (Hello inst caps i' b').
Proof.
  intros (fs & type & Hi & Hc & Hq & Ht & Hb)%decodeResidentFrame_inr. destruct h as [c' n' body'].
  unfold frame_object in Hi. apply inputObject_value in Hi as ->. cbn in Ht. injection Ht as <-.
  apply id_inr in Hc as [Hc Hcid]. cbn in Hc. injection Hc as Hc.
  match type of Hq with safeInteger ?v _ = _ =>
    change v with (json_copy (JNum (num_of_Z n))) in Hq end.
  rewrite json_copy_num in Hq. apply safeInteger_num_inr in Hq as (Hq & _ & _).
  cbn in Hc, Hcid, Hq. subst c' n'.
  unfold resident_body, hello_frame in Hb. cbn [String.eqb Ascii.eqb Bool.eqb] in Hb. sum_inv.
  match goal with H : Codec.id _ _ = _ |- _ => apply id_inr in H as [Hi Hid] end.
  cbn in Hi. injection Hi as Hi.
  match goal with H : validateCapabilities ?v = _ |- _ =>
    change v with (json_copy (caps_json caps)) in H; rewrite caps_copy in H;
    rename H into Hv end.
  pose proof (validate_caps _ _ Hv) as ->.
  subst. split_and!; [done..|]. eauto.
Qed.

Lemma negotiate_ok a b :
  wf_caps a → wf_caps b →
  negotiateCapabilities a b = inr (List.filter (λ c, bool_decide (c ∈ b)) a).
Proof. intros Ha Hb. unfold negotiateCapabilities. by rewrite Ha, Hb. Qed.

Lemma filter_wf (a b : list Capability) : wf_caps a → wf_caps (List.filter (λ c, bool_decide (c ∈ b)) a).
Proof.
  intros Ha%wf_caps_subsets. unfold subsets in Ha.
  assert (∀ c, bool_decide (c ∈ b) = true ∨ bool_decide (c ∈ b) = false) as Hd
    by (intros c; destruct (bool_decide _); auto).
  destruct (Hd console_v1) as [H1|H1], (Hd identity_v1) as [H2|H2], (Hd media_v1) as [H3|H3];
    repeat (apply elem_of_cons in Ha as [->|Ha];
            [cbn [List.filter]; rewrite ?H1, ?H2, ?H3; done|]);
    by apply not_elem_of_nil in Ha.
Qed.

(** What the resident checks an acknowledgement against. *)
Lemma ack_accepted (g o : list Capability) :
  let n := List.filter (λ c, bool_decide (c ∈ o)) g in
  wf_caps g → wf_caps o →
  forallb (λ c, bool_decide (c ∈ o)) n = true
  ∧ sameCapabilities n n = true
  ∧ sameCapabilities n (List.filter (λ c, bool_decide (c ∈ g)) o) = true.
Proof.
  intros n Hg%wf_caps_subsets Ho%wf_caps_subsets. subst n. unfold subsets in *.
  repeat (apply elem_of_cons in Hg as [->|Hg];
    [repeat (apply elem_of_cons in Ho as [->|Ho]; [by vm_compute|]); by apply not_elem_of_nil in Ho|]).
  by apply not_elem_of_nil in Hg.
Qed.

Lemma create_gateway_wf c i caps s :
  Gateway.create c i caps = inr s → wf_caps caps ∧ s = Gateway.mkSession c i caps [] None 1 false ∅ ∅ [] ∅.
Proof.
  unfold Gateway.create. intros H. sum_inv.
  match goal with H : validateCapabilities _ = _ |- _ =>
    pose proof (validate_caps _ _ H) as ->; rename H into Hv end.
  by subst.
Qed.

Lemma create_resident_wf c i caps g s :
  Resident.create c i caps g = inr s →
  wf_caps caps ∧ (∀ x, g = Some x → wf_caps x)
  ∧ s = Resident.mkSession c i caps g [] None 1 false ∅ [] ∅ ∅ 2 ∅.
Proof.
  unfold Resident.create. intros H. sum_inv.
  match goal with H : validateCapabilities _ = _ |- _ =>
    pose proof (validate_caps _ _ H) as ->; rename H into Hv end.
  destruct g as [g|]; sum_inv; subst; [|by split_and!].
  match goal with H : validateCapabilities (caps_json g) = _ |- _ =>
    pose proof (validate_caps _ _ H) as ->; rename H into Hg end.
  split_and!; [done| |done]. by intros x [= <-].
Qed.

Lemma handshake_runs connection instance supported offered known i b g r h :
  Gateway.create connection instance supported = inr g →
  Resident.create connection instance offered known = inr r →
  known = None ∨ known = Some supported →
  createResidentHello sha256_hex connection 1 instance offered i b = inr h →
  let caps := List.filter (λ c, bool_decide (c ∈ offered)) supported in
  ∃ a g' r', Gateway.handleFrame h g = (inr h, g')
    ∧ Gateway.negotiated g' = caps
    ∧ createGatewayHelloAck sha256_hex connection 1 instance (Gateway.negotiated g') = inr a
    ∧ Resident.handleFrame a r = (inr a, r')
    ∧ established (mkLink g' r' 2 [] [] ∅).
Proof.
  intros Hcg Hcr Hk Hh caps. pose proof (GatewayInv.create_inv _ _ _ _ Hcg) as Hinv.
  apply create_gateway_wf in Hcg as [Hs ->]. apply create_resident_wf in Hcr as (Ho & _ & ->).
  apply createResidentHello_inr in Hh as (Hc & Hi & _ & i' & b' & ->).
  set (h := mkFrame connection 1 (Hello instance offered i' b')).
  set (g := Gateway.mkSession _ _ _ _ _ _ _ _ _ _ _) in *.
  assert (GatewayInv.may_receive h g) as Hmay.
  { split_and!; [done..|]. exists offered, i', b', caps. split; [done|].
    by apply negotiate_ok. }
  pose proof (GatewayInv.handleFrame_ok h g Hmay) as Hrun.
  pose proof (GatewayInv.received_inv h g Hinv Hmay) as Hinv'.
  assert (GatewayInv.received h g
          = Gateway.mkSession connection instance supported caps (Some h) 2 false ∅ ∅ [] ∅) as Hg.
  { unfold GatewayInv.received. cbn -[negotiateCapabilities]. by rewrite negotiate_ok. }
  rewrite Hg in Hrun, Hinv'.
  set (a := mkFrame connection 1 (HelloAck instance caps)).
  set (r := Resident.mkSession _ _ _ _ _ _ _ _ _ _ _ _ _ _).
  destruct (ack_accepted supported offered Hs Ho) as (Ha1 & Ha2 & Ha3). fold caps in Ha1, Ha2, Ha3.
  assert (Resident.handleFrame a r = (inr a, Resident.set_seq 2 (Resident.set_ack a caps r))) as Hr.
  { unfold Resident.handleFrame, Resident.handshake, demand. autorewrite with eff. simpl.
    rewrite !bool_decide_true by done. autorewrite with eff. simpl.
    rewrite bool_decide_true by done.
    destruct Hk as [->| ->]; autorewrite with eff; rewrite ?(negotiate_ok offered supported) by done;
      by rewrite Ha1, ?Ha2, ?Ha3. }
  eexists a, _, _. split_and!; [exact Hrun|done| |exact Hr|].
  - apply (gateway_encoded sha256_hex a); [|by apply ack_size, filter_wf].
    split; [done|]. split; [done|]. split; [done|]. by apply filter_wf.
  - unfold established. cbn [gw rs nextOutboundSeq down up].
    split_and!; try done; by eexists.
Qed.
End handshake.

(** ** The theorems *)

Section live.
Context (sha256_hex : list Z → string).

(** C1. On an established link, two peers that keep the following rules ([step]) cannot
    kill it.  The Gateway registers any requests its session accepts, as long as their
    ids are new on the link and it asks for the avatar only when identity.v1 was
    negotiated (without that rule the claim is false, [avatar_capability_gap]); it sends
    console input only for a viewer its session holds and has no outstanding operation
    on; the resident emits whatever results, output and media its session lets it; and
    each direction numbers fewer frames than there are safe integers.  Then, in whatever
    interleaving with delivery in order, the next frame in flight in either direction
    is accepted by the session that receives it, and neither session is ever
    terminal. *)
Theorem link_never_rejects (l l' : link) :
  established l → rtc (step sha256_hex) l l' →
  Gateway.terminal (gw l') = false ∧ Resident.terminal (rs l') = false
  ∧ (∀ f rest, down l' = f :: rest → ∃ r', Resident.handleFrame f (rs l') = (inr f, r'))
  ∧ (∀ f rest, up l' = f :: rest → ∃ g', Gateway.handleFrame f (gw l') = (inr f, g')).
Proof.
  intros Hl Hs. pose proof (reachable_in_step sha256_hex l l' Hl Hs) as Hin.
  destruct (j_live l' Hin) as (Hg & Hr & _). split_and!; [done|done|..].
  - intros f rest Hd. eexists. by eapply down_accepted.
  - intros f rest Hu. eexists. eapply GatewayInv.handleFrame_ok. by eapply up_accepted.
Qed.

(** C11. Two fresh sessions for the same connection and instance, a resident
    hello and the acknowledgement the Gateway builds from what it negotiated:
    the Gateway accepts the hello, the acknowledgement can be built, the
    resident accepts it, both sides hold the same capabilities (those the
    Gateway supports and the resident offers), and the link is established. *)
Theorem handshake_establishes connection instance supported offered known i b g r h :
  Gateway.create connection instance supported = inr g →
  Resident.create connection instance offered known = inr r →
  known = None ∨ known = Some supported →
  createResidentHello sha256_hex connection 1 instance offered i b = inr h →
  ∃ a g' r', Gateway.handleFrame h g = (inr h, g')
    ∧ Gateway.negotiated g' = List.filter (λ c, bool_decide (c ∈ offered)) supported
    ∧ createGatewayHelloAck sha256_hex connection 1 instance (Gateway.negotiated g') = inr a
    ∧ Resident.handleFrame a r = (inr a, r')
    ∧ established (mkLink g' r' 2 [] [] ∅).
Proof. apply handshake_runs. Qed.
End live.

(** ** A concrete link *)

Module Example.
Definition sha (_ : list Z) : string := "".
Definition connection := "egx1.AAAAAAAAAAAAAAAAAAAAAA".
Definition instance := "egi1.AAAAAAAAAAAAAAAAAAAAAA".
Definition viewer := "egv1.AAAAAAAAAAAAAAAAAAAAAA".
Definition request := "egr1.AAAAAAAAAAAAAAAAAAAAAA".
Definition who : ResidentIdentity := {| identity_name := "elpis"; identity_avatar := None |}.
Definition build : BuildMetadata :=
  {| build_version := "1.0.0"; build_revision := Some "abc"; build_state := None |}.
Definition hello : frame ResidentBody :=
  mkFrame connection 1 (Hello instance CAPABILITIES who build).
Definition ack : frame GatewayBody := mkFrame connection 1 (HelloAck instance CAPABILITIES).
Definition gateway : Gateway.session :=
  Gateway.mkSession connection instance CAPABILITIES CAPABILITIES (Some hello) 2 false ∅ ∅ [] ∅.
Definition resident : Resident.session :=
  Resident.mkSession connection instance CAPABILITIES None CAPABILITIES (Some ack)
    2 false ∅ [] ∅ ∅ 2 ∅.
Definition opened : link := mkLink gateway resident 2 [] [] ∅.
Definition open_request : Gateway.request := Gateway.ReqViewer viewer_open request viewer.

Lemma gateway_created :
  Gateway.create connection instance CAPABILITIES
    = inr (Gateway.mkSession connection instance CAPABILITIES [] None 1 false ∅ ∅ [] ∅).
Proof. reflexivity. Qed.
Lemma resident_created :
  Resident.create connection instance CAPABILITIES None
    = inr (Resident.mkSession connection instance CAPABILITIES None [] None 1 false ∅ [] ∅ ∅ 2 ∅).
Proof. reflexivity. Qed.
Lemma hello_created :
  createResidentHello sha connection 1 instance CAPABILITIES who build = inr hello.
Proof. vm_compute. reflexivity. Qed.

Lemma opened_established : established opened.
Proof.
  destruct (handshake_runs sha _ _ _ _ _ _ _ _ _ _ gateway_created resident_created
    (or_introl eq_refl) hello_created) as (a & g' & r' & Hg & _ & Ha & Hr & H).
  assert (a = ack) as -> by (vm_compute in Hg; simplify_eq; vm_compute in Ha; by simplify_eq).
  vm_compute in Hg. vm_compute in Hr. simplify_eq. exact H.
Qed.

(** The link after the Gateway asked for a viewer. *)
Definition asked : link :=
  let f := mkFrame connection 2 open_request in
  mkLink (GatewayInv.registered f gateway) resident 3
    [mkFrame connection 2 (ViewerOp viewer_open request viewer)] [] {[ request ]}.

Lemma asks : rtc (step sha) opened asked.
Proof.
  apply rtc_once. unfold asked, opened.
  replace ({[ request ]} : gset string) with ({[ request ]} ∪ ∅ : gset string)
    by (by rewrite union_empty_r_L).
  apply (step_request sha (mkLink gateway resident 2 [] [] ∅) open_request).
  - apply not_elem_of_empty.
  - done.
  - done.
  - vm_compute. reflexivity.
Qed.
End Example.

Lemma link_never_rejects_witness :
  established Example.opened ∧ rtc (step Example.sha) Example.opened Example.asked
  ∧ ∃ r', Resident.handleFrame
      (mkFrame Example.connection 2 (ViewerOp viewer_open Example.request Example.viewer))
      (rs Example.asked)
    = (inr (mkFrame Example.connection 2 (ViewerOp viewer_open Example.request Example.viewer)), r').
Proof.
  split; [exact Example.opened_established|]. split; [exact Example.asks|].
  destruct (link_never_rejects Example.sha Example.opened Example.asked
              Example.opened_established Example.asks) as (_ & _ & Hd & _).
  exact (Hd _ _ eq_refl).
Defined.

Lemma handshake_establishes_witness :
  ∃ a g' r', Gateway.negotiated g' = CAPABILITIES ∧ Resident.negotiated r' = Gateway.negotiated g'
    ∧ body a = HelloAck Example.instance CAPABILITIES ∧ established (mkLink g' r' 2 [] [] ∅).
Proof.
  destruct (handshake_establishes Example.sha _ _ _ _ _ _ _ _ _ _ Example.gateway_created
    Example.resident_created (or_introl eq_refl) Example.hello_created)
    as (a & g' & r' & Hg & Hn & Ha & Hr & H).
  exists a, g', r'. split; [by rewrite Hn|]. split; [apply H|]. split; [|exact H].
  rewrite Hn in Ha. vm_compute in Ha. by simplify_eq.
Defined.
