(* ===== verification/SessionTheorems.v ===== *)
(** * What the link sessions guarantee

    The statements about packages/gateway-protocol/src/session.ts that hold for
    every sequence of calls, from a session the constructor made. *)

From S2P Require Import Prelude Protocol Codec CodecFacts Session SessionInv ResidentInv.
From S2P Require Import ResidentRun Link Wire Handshake.
Local Open Scope string_scope.
Local Open Scope list_scope.

Section theorems.
Context (sha256_hex : list Z → string).

(** C12. Whatever frames arrive and whatever requests are registered, a Gateway
    session keeps its invariant: at most 128 outstanding requests and 16
    viewers, a duplicate-free request history of at most 4096 ids that is
    exactly the id set, a sequence number that is a safe integer, at most one
    outstanding operation per viewer (whose viewer is held), and capabilities
    that are the supported ones the resident's hello offered. *)
Theorem gateway_invariant connection instance supported s cs :
  Gateway.create connection instance supported = inr s →
  GatewayInv.inv (GatewayInv.run sha256_hex cs s).2.
Proof. intros Hs. apply GatewayInv.run_inv. by eapply GatewayInv.create_inv. Qed.

(** The frames a Gateway session delivers over its life are numbered
    1, 2, 3, ... without a gap, all for its connection; the first is the hello
    of its instance and no other is. *)
Theorem gateway_contiguous connection instance supported s cs :
  Gateway.create connection instance supported = inr s →
  let fs := GatewayInv.delivered (GatewayInv.run sha256_hex cs s).1 in
  seq <$> fs = seqZ 1 (Z.of_nat (length fs))
  ∧ ∀ k f, fs !! k = Some f →
      connectionId f = connection
      ∧ match k with
        | O => ∃ caps i b, body f = Hello instance caps i b
        | S _ => GatewayInv.is_hello (body f) = false
        end.
Proof.
  intros ->%GatewayInv.create_shape fs. destruct (GatewayInv.delivered_from sha256_hex cs
    (Gateway.mkSession connection instance (Gateway.supportedCapabilities s) [] None 1 false ∅ ∅ [] ∅))
    as [H1 H2]. split; [exact H1|].
  intros k f Hf. destruct (H2 k f Hf) as [? ?]. by destruct k.
Qed.

(** C13. A protocol error thrown by [receive] is always fatal and final: the
    session is terminal, and afterwards every call of any sequence throws and
    leaves it as it is. *)
Theorem gateway_error_final i s c b s' cs :
  Gateway.receive sha256_hex i s = (inl (GatewayProtocolError c b), s') →
  b = true ∧ Gateway.terminal s' = true
  ∧ (GatewayInv.run sha256_hex cs s').2 = s'
  ∧ Forall (λ ev, ∃ e, ev = GatewayInv.Threw e) (GatewayInv.run sha256_hex cs s').1.
Proof.
  intros H. assert (b = true ∧ Gateway.terminal s' = true) as [-> Ht].
  { destruct (GatewayInv.receive_run sha256_hex i s) as [(f & E & _)|[(c' & s1 & E & _)|[E _]]];
      rewrite E in H; by simplify_eq. }
  destruct (GatewayInv.run_terminal sha256_hex cs s' Ht). done.
Qed.

(** Answers are correlated: over any run, the frames answering a request
    id are no more than the times that id was registered, and what is left
    outstanding is the difference at most - so every delivered answer has a
    request of its own, and no request is answered twice. *)
Theorem gateway_answers_correlated connection instance supported s cs rid :
  Gateway.create connection instance supported = inr s →
  let evs := (GatewayInv.run sha256_hex cs s).1 in
  (GatewayInv.count (GatewayInv.answered rid) evs
   + GatewayInv.outstanding rid (GatewayInv.run sha256_hex cs s).2
   ≤ GatewayInv.count (GatewayInv.registers rid) evs)%nat.
Proof.
  intros Hs evs.
  pose proof (GatewayInv.answers_bounded sha256_hex rid cs s (GatewayInv.create_inv _ _ _ _ Hs)) as H.
  apply GatewayInv.create_shape in Hs. rewrite Hs in H at 4. fold evs in H.
  unfold GatewayInv.outstanding at 2 in H. simpl in H. rewrite lookup_empty in H. lia.
Qed.

(** C14. Whatever the Gateway sends and whatever effects the resident reports,
    a resident session keeps its invariant: bounded pending work, open viewers
    and viewers being opened together at most 16, at most one operation per
    viewer, an opening operation exactly for a viewer that is not open, and
    never a capability the resident did not offer. *)
Theorem resident_invariant connection instance offered gateway s cs :
  Resident.create connection instance offered gateway = inr s →
  ResidentRun.inv (ResidentRun.run sha256_hex cs s).2.
Proof. intros Hs. apply ResidentRun.resident_run_inv. by eapply ResidentRun.resident_create_inv. Qed.

(** The frames a resident session emits are numbered 2, 3, 4, ... (its
    hello was 1) without a gap, all for its connection; for every request
    id, the answers it has emitted and those it still owes are together no
    more than the times that id was admitted. *)
Theorem resident_emissions connection instance offered gateway s cs rid :
  Resident.create connection instance offered gateway = inr s →
  let evs := (ResidentRun.run sha256_hex cs s).1 in
  let fs := ResidentRun.emitted evs in
  seq <$> fs = seqZ 2 (Z.of_nat (length fs))
  ∧ Forall (λ f, connectionId f = connection) fs
  ∧ (ResidentRun.count (ResidentRun.answers rid) evs
     + ResidentRun.held rid (ResidentRun.run sha256_hex cs s).2
     ≤ ResidentRun.count (ResidentRun.requests rid) evs)%nat.
Proof.
  intros (_ & _ & ->)%create_resident_wf evs fs. subst fs evs.
  set (s0 := Resident.mkSession _ _ _ _ _ _ _ _ _ _ _ _ _ _).
  destruct (ResidentRun.emitted_from sha256_hex cs s0) as [H1 H2].
  pose proof (ResidentRun.resident_answers_bounded sha256_hex rid cs s0) as H3.
  assert (ResidentRun.held rid s0 = 0%nat) as H0.
  { unfold ResidentRun.held. simpl. by rewrite lookup_empty. }
  split_and!; [done|done|lia].
Qed.
End theorems.

(** The two sessions disagree about the avatar: with media.v1 but without
    identity.v1 negotiated, the Gateway session registers a request for
    /identity/avatar, and the resident session answers that request by
    rejecting the frame as a fatal protocol error. *)
Theorem avatar_capability_gap (l : link) rid :
  established l →
  media_v1 ∈ Gateway.negotiated (gw l) → identity_v1 ∉ Gateway.negotiated (gw l) →
  let connection := Gateway.s_connectionId (gw l) in
  (∃ g', Gateway.registerRequest
           (mkFrame connection 2 (Gateway.ReqMedia rid "/identity/avatar")) (gw l) = (inr tt, g'))
  ∧ Resident.handleFrame (mkFrame connection 2 (MediaGet rid "/identity/avatar")) (rs l)
    = (inl (GatewayProtocolError capability_required true), rs l).
Proof.
  intros (_ & Hgt & _ & Hh & [a Ha] & Hc & Hn & _ & _ & Hq & _ & Hp & _ & Ho & Hm & _ & _ & Hi & _)
    Hmedia Hid connection. subst connection.
  assert (allowed (Gateway.negotiated (gw l)) "media.get" = true) as Hal
    by (by apply bool_decide_eq_true).
  split.
  - unfold Gateway.registerRequest, demand. autorewrite with eff. rewrite Hgt. simpl negb.
    autorewrite with eff. rewrite !bool_decide_true; [|rewrite Hi; set_solver|done|done].
    rewrite Hp, map_size_empty. cbn [body Gateway.request_body gateway_type Gateway.request_viewer].
    rewrite Hal. autorewrite with eff. cbn [Nat.ltb Nat.leb LIMITS_pendingRequestsPerConnection].
    unfold Gateway.remember, mbind, eff_bind. rewrite rememberRequest_run, bool_decide_true;
      [eexists; reflexivity|]. cbn. rewrite Hi. apply not_elem_of_empty.
  - unfold Resident.handleFrame, demand. autorewrite with eff. cbn [connectionId seq body gateway_type].
    rewrite bool_decide_true, Hq, Ha by done. cbn [Z.eqb Pos.eqb]. autorewrite with eff.
    rewrite Hn, Hal. autorewrite with eff. unfold Resident.admit_request, demand. autorewrite with eff.
    unfold Resident.pending_count. rewrite Ho, Hm, map_size_empty, size_empty.
    cbn [Nat.add Nat.ltb Nat.leb LIMITS_pendingRequestsPerConnection String.eqb Ascii.eqb Bool.eqb negb
         orb]. autorewrite with eff. rewrite Hn, bool_decide_false by done. done.
Qed.

(** ** Witnesses: one conversation *)

Module Conversation.
Import Handshake.Example.
Definition g0 : Gateway.session :=
  Gateway.mkSession connection instance CAPABILITIES [] None 1 false ∅ ∅ [] ∅.
Definition r0 : Resident.session :=
  Resident.mkSession connection instance CAPABILITIES None [] None 1 false ∅ [] ∅ ∅ 2 ∅.
Definition hello_input : input := InValue (frame_object "hello" connection 1
  [("instanceId", JStr instance); ("capabilities", caps_json CAPABILITIES);
   ("identity", identity_json who); ("build", build_json build)]).
Definition opened_input : input := InValue (frame_object "operation.result" connection 2
  [("requestId", JStr request); ("viewerId", JStr viewer);
   ("operation", JStr "viewer.open"); ("ok", JBool true)]).
(** Hello, a viewer opened, the same answer replayed. *)
Definition gateway_calls : list GatewayInv.call :=
  [GatewayInv.CReceive hello_input; GatewayInv.CRegister (mkFrame connection 2 open_request);
   GatewayInv.CReceive opened_input; GatewayInv.CReceive opened_input].
Definition ack_input : input := InValue (gateway_json ack).
Definition open_input : input :=
  InValue (gateway_json (mkFrame connection 2 (ViewerOp viewer_open request viewer))).
(** Acknowledgement, a viewer opened and answered twice, output. *)
Definition resident_calls : list ResidentRun.call :=
  [ResidentRun.CReceive ack_input; ResidentRun.CReceive open_input;
   ResidentRun.COperation request viewer viewer_open None;
   ResidentRun.COperation request viewer viewer_open None;
   ResidentRun.CConsole viewer "hi"].
(** A link without identity.v1. *)
Definition no_identity : list Capability := [console_v1; media_v1].
Definition bare_hello : frame ResidentBody :=
  mkFrame connection 1 (Hello instance no_identity who build).
Definition bare : link :=
  mkLink (Gateway.mkSession connection instance CAPABILITIES no_identity (Some bare_hello)
            2 false ∅ ∅ [] ∅)
    (Resident.mkSession connection instance no_identity None no_identity
       (Some (mkFrame connection 1 (HelloAck instance no_identity))) 2 false ∅ [] ∅ ∅ 2 ∅)
    2 [] [] ∅.
Lemma bare_established : established bare.
Proof.
  assert (createResidentHello sha connection 1 instance no_identity who build = inr bare_hello) as Hh
    by (vm_compute; reflexivity).
  destruct (handshake_runs sha connection instance CAPABILITIES no_identity None who build
    g0 _ _ eq_refl eq_refl (or_introl eq_refl) Hh) as (a & g' & r' & Hg & _ & Ha & Hr & H).
  vm_compute in Hg. simplify_eq. vm_compute in Ha. simplify_eq. vm_compute in Hr. simplify_eq.
  exact H.
Qed.
End Conversation.

Import Handshake.Example Conversation.

Lemma gateway_invariant_witness :
  GatewayInv.inv (GatewayInv.run sha gateway_calls g0).2.
Proof. apply (gateway_invariant sha connection instance CAPABILITIES g0). reflexivity. Defined.

Lemma gateway_contiguous_witness :
  length (GatewayInv.delivered (GatewayInv.run sha gateway_calls g0).1) = 2%nat
  ∧ seq <$> GatewayInv.delivered (GatewayInv.run sha gateway_calls g0).1 = seqZ 1 2.
Proof.
  assert (length (GatewayInv.delivered (GatewayInv.run sha gateway_calls g0).1) = 2%nat) as Hl
    by (vm_compute; reflexivity).
  split; [exact Hl|].
  destruct (gateway_contiguous sha connection instance CAPABILITIES g0 gateway_calls eq_refl)
    as [H _]. rewrite Hl in H. exact H.
Defined.

Lemma gateway_error_final_witness :
  ∃ s', Gateway.receive sha opened_input g0
          = (inl (GatewayProtocolError invalid_sequence true), s')
        ∧ Gateway.terminal s' = true.
Proof.
  destruct (Gateway.receive sha opened_input g0) as [r s'] eqn:H.
  assert (r = inl (GatewayProtocolError invalid_sequence true)) as ->
    by (vm_compute in H; congruence).
  exists s'. split; [reflexivity|]. exact (proj1 (proj2 (gateway_error_final sha _ _ _ _ _ [] H))).
Defined.

Lemma gateway_answers_correlated_witness :
  (GatewayInv.count (GatewayInv.answered request) (GatewayInv.run sha gateway_calls g0).1 = 1
   ∧ GatewayInv.count (GatewayInv.answered request) (GatewayInv.run sha gateway_calls g0).1
     ≤ GatewayInv.count (GatewayInv.registers request) (GatewayInv.run sha gateway_calls g0).1)%nat.
Proof.
  split; [vm_compute; reflexivity|].
  pose proof (gateway_answers_correlated sha connection instance CAPABILITIES g0 gateway_calls request
    eq_refl) as H. cbv zeta in H. lia.
Defined.

Lemma resident_invariant_witness : ResidentRun.inv (ResidentRun.run sha resident_calls r0).2.
Proof. apply (resident_invariant sha connection instance CAPABILITIES None r0). reflexivity. Defined.

Lemma resident_emissions_witness :
  seq <$> ResidentRun.emitted (ResidentRun.run sha resident_calls r0).1 = seqZ 2 2.
Proof.
  destruct (resident_emissions sha connection instance CAPABILITIES None r0 resident_calls request
    eq_refl) as [H _].
  assert (length (ResidentRun.emitted (ResidentRun.run sha resident_calls r0).1) = 2%nat) as Hl
    by (vm_compute; reflexivity).
  rewrite Hl in H. exact H.
Defined.

Lemma avatar_capability_gap_witness :
  Resident.handleFrame (mkFrame connection 2 (MediaGet request "/identity/avatar")) (rs bare)
    = (inl (GatewayProtocolError capability_required true), rs bare).
Proof.
  apply (avatar_capability_gap bare request bare_established); compute_done.
Defined.
