(* ===== verification/CodecTheorems.v ===== *)
(** * What the codec guarantees

    Statements about packages/gateway-protocol/src/codec.ts: frames and their
    objects, media routes, capability negotiation, media payloads, and the two
    places where validation coerces instead of checking. *)

From Stdlib Require Import Ascii.
From S2P Require Import Prelude Protocol Codec CodecFacts Session Wire Handshake.
Local Open Scope string_scope.
Local Open Scope list_scope.

(** ** Routes *)

(** A literal prefix survives percent-decoding. *)
Lemma decode_literal p s :
  all_chars (λ c, negb (Ascii.eqb c "%"%char)) p = true →
  decodeURIComponent (p +:+ s) = String.append p <$> decodeURIComponent s.
Proof.
  unfold decodeURIComponent. induction p as [|c p IH].
  { intros _. change (EmptyString +:+ s) with s. by destruct (decode_uri 0 [] s). }
  intros H. change (String c p +:+ s) with (String c (p +:+ s)). simpl in *. guards.
  rewrite H, IH by done. by destruct (decode_uri 0 [] s).
Qed.

Lemma prefix_app p s : String.prefix p s = true → ∃ t, s = p +:+ t.
Proof.
  revert s. induction p as [|c p IH]; intros s; [by exists s|].
  destruct s as [|c' s]; simpl; [done|].
  destruct (Ascii.ascii_dec c c') as [<-|]; [|done].
  intros [t ->]%IH. by exists t.
Qed.

(** No segment of a split contains the separator, and splitting keeps the
    other characters. *)
Lemma split_chars (P : ascii → bool) sep s :
  all_chars P s = true →
  Forall (λ w, all_chars P w = true ∧ all_chars (λ c, negb (Ascii.eqb c sep)) w = true) (split sep s).
Proof.
  induction s as [|c s IH]; simpl; [by repeat constructor|].
  intros H. guards. specialize (IH H0). destruct (Ascii.eqb c sep) eqn:E.
  { by constructor. }
  destruct (split sep s) as [|w ws]; inversion IH; subst;
    (constructor; [|done]); simpl; rewrite H, E; simpl; [done|]. by destruct_and!.
Qed.

Lemma some_char_false P s : some_char P s = false ↔ all_chars (λ c, negb (P c)) s = true.
Proof. unfold some_char. by rewrite negb_false_iff. Qed.

(** A path segment that cannot leave the directory it names. *)
Definition safe_segment (w : string) : Prop :=
  w ≠ "" ∧ w ≠ "." ∧ w ≠ ".."
  ∧ all_chars (λ c, negb (is_route_unsafe c)) w = true
  ∧ all_chars (λ c, negb (Ascii.eqb c "/"%char)) w = true.

(** Where an accepted media route leads once decoded. *)
Definition served_path (parts : list string) : Prop :=
  Forall safe_segment parts ∧ (3 ≤ length parts)%nat
  ∧ (parts !! 0%nat = Some "attachments"
     ∨ parts !! 0%nat = Some "frames" ∧ ∃ kind, parts !! 1%nat = Some kind ∧ kind ∈ FRAME_KINDS).

Lemma parts_safe decoded parts :
  some_char is_route_unsafe decoded = false → split "/" decoded = "" :: parts →
  existsb is_unsafe_segment parts = false → Forall safe_segment parts.
Proof.
  intros Hc%some_char_false Hs He. apply (split_chars _ "/") in Hc. rewrite Hs in Hc.
  apply Forall_cons in Hc as [_ Hc]. apply Forall_forall. intros w Hw.
  rewrite Forall_forall in Hc. destruct (Hc w Hw) as [H1 H2].
  assert (is_unsafe_segment w = false) as Hu.
  { destruct (is_unsafe_segment w) eqn:E; [|done]. exfalso.
    apply not_true_iff_false in He. apply He, existsb_exists. exists w. split; [|done].
    by apply list_elem_of_In. }
  unfold is_unsafe_segment in Hu. guards. by split_and!.
Qed.

Lemma route_served v r :
  mediaRoute v = inr r →
  r = "/identity/avatar"
  ∨ ∃ decoded parts, decodeURIComponent r = Some decoded
      ∧ split "/" decoded = "" :: parts ∧ served_path parts.
Proof.
  unfold mediaRoute. intros H. sum_inv. rename x into route.
  destruct (String.eqb_spec route "/identity/avatar") as [->|_].
  { left. by sum_inv. }
  right. sum_inv. destruct (decodeURIComponent route) as [decoded|] eqn:Hd; [|done]. sum_inv.
  subst r. exists decoded, (drop 1 (split "/" decoded)). guards.
  assert (∃ p d, (p = "frames" ∨ p = "attachments") ∧ split "/" decoded = "" :: p :: split "/" d)
    as (p & d & Hp & Hs).
  { match goal with H : _ || _ = true |- _ => apply orb_true_iff in H as [H|H] end;
      apply prefix_app in H1 as [t ->]; rewrite decode_literal in Hd by done;
      destruct (decodeURIComponent t) as [d|]; simplify_eq/=; eauto. }
  rewrite Hs in *. simpl in *. split_and!; [done|done|].
  split; [by eapply parts_safe|].
  destruct Hp as [->| ->]; simpl in *; sum_inv; guards; (split; [simpl; lia|]).
  - right. split; [done|]. destruct (split "/" d) as [|k ks]; [simpl in *; lia|].
    simpl in *. eauto.
  - by left.
Qed.

(** ** Base64 payloads *)

(** Strings four characters at a time. *)
Lemma string_ind4 (P : string → Prop) :
  P "" → (∀ a, P (String a "")) → (∀ a b, P (String a (String b ""))) →
  (∀ a b c, P (String a (String b (String c "")))) →
  (∀ a b c d s, P s → P (String a (String b (String c (String d s))))) → ∀ s, P s.
Proof.
  intros H0 H1 H2 H3 H4. fix IH 1. intros [|a [|b [|c [|d s]]]].
  - exact H0.
  - apply H1.
  - apply H2.
  - apply H3.
  - apply H4, IH.
Qed.

Lemma substring_shift4 a b c d s n k :
  String.substring (4 + n) k (String a (String b (String c (String d s)))) = String.substring n k s.
Proof. done. Qed.

Lemma ends_with_shift a b c d s suffix :
  (String.length suffix ≤ String.length s)%nat →
  ends_with suffix (String a (String b (String c (String d s)))) = ends_with suffix s.
Proof.
  intros Hl. unfold ends_with. cbn [String.length].
  replace (S (S (S (S (String.length s)))) - String.length suffix)%nat
    with (4 + (String.length s - String.length suffix))%nat by lia.
  rewrite substring_shift4. f_equal.
  rewrite (proj2 (Nat.leb_le _ (String.length s))) by done. apply Nat.leb_le. lia.
Qed.

Definition padding (data : string) : Z :=
  if ends_with "==" data then 2 else if ends_with "=" data then 1 else 0.

Lemma is_b64_length s : is_b64 s = true → s = "" ∨ (4 ≤ String.length s)%nat.
Proof. destruct s as [|a [|b [|c [|d s]]]]; simpl; auto; try done. intros _. right. lia. Qed.

Lemma eqb_neq_char c x : is_b64_char c = true → is_b64_char x = false → Ascii.eqb c x = false.
Proof. intros Hc Hx. apply Ascii.eqb_neq. by intros ->; rewrite Hc in Hx. Qed.

(** The decoder yields exactly the bytes the length formula of the codec
    announces. *)
Lemma b64_decode_length s :
  is_b64 s = true → Z.of_nat (length (b64_decode s)) = (bytes s / 4 * 3 - padding s)%Z.
Proof.
  induction s as [|a|a b|a b c|a b c d s IH] using string_ind4; try done.
  intros H. simpl in H.
  destruct (is_b64_char a && is_b64_char b && is_b64_char c && is_b64_char d) eqn:Hall.
  - guards. simpl. rewrite (eqb_neq_char c "="), (eqb_neq_char d "=") by done.
    cbn [length]. rewrite !Nat2Z.inj_succ, IH by done.
    assert (padding (String a (String b (String c (String d s)))) = padding s) as ->.
    { unfold padding. destruct (is_b64_length s H) as [->|Hl].
      - unfold ends_with. simpl. rewrite (eqb_neq_char d "=") by done.
        by destruct (Ascii.eqb c "=").
      - by rewrite !ends_with_shift by (simpl; lia). }
    unfold bytes. cbn [String.length]. rewrite !Nat2Z.inj_succ.
    replace (Z.succ (Z.succ (Z.succ (Z.succ (Z.of_nat (String.length s))))))
      with (Z.of_nat (String.length s) + 1 * 4)%Z by lia.
    rewrite Z.div_add by lia. lia.
  - guards. subst. apply Ascii.eqb_eq in H1 as ->. simpl.
    destruct (Ascii.eqb c "=") eqn:Ec.
    + apply Ascii.eqb_eq in Ec as ->. done.
    + unfold padding, ends_with. simpl. by rewrite Ec.
Qed.

Lemma sha_inr v d : sha v = inr d → is_sha256 d = true.
Proof. unfold sha. destruct v; try done. intros H. sum_inv. by subst. Qed.

Section payload.
Context (sha256_hex : list Z → string).

Lemma media_payload fs mt n d data :
  Codec.mediaResult sha256_hex fs = inr (MediaOk mt n d data) →
  Z.of_nat (length (b64_decode data)) = n ∧ sha256_hex (b64_decode data) = d
  ∧ b64_encode (b64_decode data) = data ∧ (0 ≤ n ≤ LIMITS_mediaBytes)%Z ∧ is_sha256 d = true.
Proof.
  unfold Codec.mediaResult. intros H. sum_inv. destruct x; simpl in *; [|by sum_inv].
  sum_inv.
  match goal with H : safeInteger _ _ = _ |- _ => apply safeInteger_bounds in H end.
  match goal with H : sha _ = _ |- _ => apply sha_inr in H end.
  destruct (prop fs "data") as [| | |t| |]; try done. sum_inv. simplify_eq. guards.
  match goal with H : is_b64 _ = true |- _ => apply b64_decode_length in H as Hl end.
  rewrite Hl. unfold padding. split_and!; try done; lia.
Qed.
End payload.

(** ** Negotiation *)

Lemma filter_mem (a b : list Capability) c :
  c ∈ List.filter (λ c, bool_decide (c ∈ b)) a ↔ c ∈ a ∧ c ∈ b.
Proof. by rewrite list_elem_of_In, filter_In, bool_decide_eq_true, <- list_elem_of_In. Qed.

Lemma filter_comm (a b : list Capability) :
  wf_caps a → wf_caps b →
  List.filter (λ c, bool_decide (c ∈ b)) a = List.filter (λ c, bool_decide (c ∈ a)) b.
Proof.
  intros Ha%wf_caps_subsets Hb%wf_caps_subsets. unfold subsets in *.
  repeat (apply elem_of_cons in Ha as [->|Ha];
    [repeat (apply elem_of_cons in Hb as [->|Hb]; [by vm_compute|]); by apply not_elem_of_nil in Hb|]).
  by apply not_elem_of_nil in Ha.
Qed.

Lemma negotiate_wf a b n : negotiateCapabilities a b = inr n → wf_caps a ∧ wf_caps b.
Proof.
  unfold negotiateCapabilities, wf_caps. intros H. sum_inv.
  repeat match goal with H : validateCapabilities (caps_json _) = inr ?x |- _ =>
    pose proof (validate_caps _ _ H); subst x end.
  done.
Qed.

(** ** The theorems *)

Section theorems.
Context (sha256_hex : list Z → string).

(** C15. A Gateway frame that fits the byte limit can be written to its object
    and decoded back exactly when it is well formed (identifiers of the right
    shape, a safe positive sequence number, ordered capabilities, bounded
    texts, an acceptable route); and everything the decoder accepts, from any
    input, is well formed. *)
Theorem gateway_frame_roundtrip (f : frame GatewayBody) :
  (bytes (JSON_stringify (gateway_json f)) ≤ LIMITS_frameBytes)%Z →
  (decodeGatewayFrame sha256_hex (InValue (gateway_json f)) = inr f ↔ wf_gateway f)
  ∧ ∀ i f', decodeGatewayFrame sha256_hex i = inr f' → wf_gateway f'.
Proof.
  intros Hl. split; [split|].
  - apply gateway_decoded_wf.
  - intros Hw. by apply gateway_encoded.
  - apply gateway_decoded_wf.
Qed.

(** A media route the codec accepts is the avatar route, or, after percent
    decoding, a path under /attachments or /frames/<known kind> with at least
    three segments, none empty, dot or dot-dot and none holding a control
    character, backslash, query or fragment mark: no accepted route escapes
    the directories it names. *)
Theorem media_route_safe v r :
  mediaRoute v = inr r →
  v = JStr r
  ∧ (r = "/identity/avatar"
     ∨ ∃ decoded parts, decodeURIComponent r = Some decoded
         ∧ split "/" decoded = "" :: parts ∧ served_path parts).
Proof. intros H. split; [by apply mediaRoute_str|by eapply route_served]. Qed.

(** Negotiation succeeds exactly on two well-formed lists; its result is
    well formed, holds precisely the capabilities both sides have, and does
    not depend on which side computes it. *)
Theorem negotiation_exact a b :
  (∀ n, negotiateCapabilities a b = inr n →
     wf_caps a ∧ wf_caps b ∧ wf_caps n ∧ (∀ c, c ∈ n ↔ c ∈ a ∧ c ∈ b)
     ∧ negotiateCapabilities b a = inr n)
  ∧ (wf_caps a → wf_caps b → ∃ n, negotiateCapabilities a b = inr n).
Proof.
  split; [|intros Ha Hb; eexists; by apply negotiate_ok].
  intros n Hn. destruct (negotiate_wf _ _ _ Hn) as [Ha Hb].
  apply negotiateCapabilities_inr in Hn as ->.
  split; [done|]. split; [done|]. split; [by apply filter_wf|].
  split; [apply filter_mem|]. rewrite (negotiate_ok b a) by done. f_equal. by apply filter_comm.
Qed.

(** A successful media result that the Gateway decodes carries the bytes
    it announces: the base64 text is canonical, it decodes to exactly
    [byteLength] bytes, at most the media limit, and their digest is the
    announced one. *)
Theorem media_result_intact i c q rid mt n d data :
  decodeResidentFrame sha256_hex i = inr (mkFrame c q (MediaResult rid (MediaOk mt n d data))) →
  Z.of_nat (length (b64_decode data)) = n ∧ sha256_hex (b64_decode data) = d
  ∧ b64_encode (b64_decode data) = data ∧ (0 ≤ n ≤ LIMITS_mediaBytes)%Z ∧ is_sha256 d = true.
Proof.
  intros (fs & type & _ & _ & _ & _ & Hb)%decodeResidentFrame_inr. simpl in Hb.
  unfold resident_body in Hb.
  repeat match type of Hb with (if ?c then _ else _) = _ => destruct c end; sum_inv; try done.
  - unfold hello_frame in Hb. by sum_inv.
  - unfold operation_result_frame in Hb. sum_inv. destruct x; by sum_inv.
  - destruct x. by sum_inv.
  - simplify_eq. by eapply media_payload.
Qed.
End theorems.

(** The operation of a result frame is compared after [String()] coercion
      only: the one-element array of a known operation name passes validation
      and reaches the session as an array. *)
Theorem operation_coerced connection n rid vid name :
  is_id REQUEST_PREFIX rid = true → is_id VIEWER_PREFIX vid = true → name ∈ OPERATION_NAMES →
  operation_result_frame
    [("version", JNum (num_of_Z PROTOCOL_VERSION)); ("connectionId", JStr connection);
     ("seq", JNum (num_of_Z n)); ("type", JStr "operation.result");
     ("requestId", JStr rid); ("viewerId", JStr vid);
     ("operation", JArr [JStr name]); ("ok", JBool true)]
  = inr (OperationResult rid vid (JArr [JStr name]) None).
Proof.
  intros Hr Hv Hn. unfold operation_result_frame.
  change (prop _ "ok") with (JBool true). cbn [booleanValue]. unfold mbind, sum_bind.
  rewrite exact_ok by done.
  change (prop _ "requestId") with (JStr rid). change (prop _ "viewerId") with (JStr vid).
  change (prop _ "operation") with (JArr [JStr name]).
  rewrite (id_ok _ _ Hr), (id_ok _ _ Hv).
  unfold includes_String. cbn. by rewrite bool_decide_true.
Qed.

(** ** Witnesses *)

Definition sample_frame : frame GatewayBody :=
  mkFrame Example.connection 7 (MediaGet Example.request "/frames/watch/a%20b.png").

Lemma gateway_frame_roundtrip_witness :
  decodeGatewayFrame Example.sha (InValue (gateway_json sample_frame)) = inr sample_frame.
Proof.
  apply (gateway_frame_roundtrip Example.sha sample_frame); [vm_compute; discriminate|].
  split; [vm_compute; reflexivity|]. split; [done|]. split; vm_compute; reflexivity.
Defined.

Lemma media_route_safe_witness :
  ∃ decoded parts, decodeURIComponent "/frames/watch/a%20b.png" = Some decoded
    ∧ split "/" decoded = "" :: parts ∧ served_path parts.
Proof.
  destruct (media_route_safe (JStr "/frames/watch/a%20b.png") "/frames/watch/a%20b.png" eq_refl)
    as [_ [H|H]]; [discriminate H|exact H].
Defined.

Lemma negotiation_exact_witness :
  ∃ n, negotiateCapabilities CAPABILITIES [media_v1] = inr n ∧ wf_caps n ∧ media_v1 ∈ n.
Proof.
  destruct (negotiation_exact CAPABILITIES [media_v1]) as [H1 H2].
  destruct (H2 eq_refl eq_refl) as [n Hn]. exists n.
  destruct (H1 n Hn) as (_ & _ & Hw & Hm & _). split; [done|]. split; [done|]. apply Hm. by compute_done.
Defined.

(** A digest function and a payload it fits. *)
Definition digest_of (_ : list Z) : string :=
  "0123456789abcdef0123456789abcdef0123456789abcdef0123456789abcdef".
Definition sample_media : frame ResidentBody :=
  mkFrame Example.connection 3 (MediaResult Example.request
    (MediaOk "image/png" 4 (digest_of []) "AQIDBA==")).
Definition sample_media_object : json :=
  JObj [("version", JNum (num_of_Z 1)); ("connectionId", JStr Example.connection);
        ("seq", JNum (num_of_Z 3)); ("type", JStr "media.result");
        ("requestId", JStr Example.request); ("ok", JBool true);
        ("mediaType", JStr "image/png"); ("byteLength", JNum (num_of_Z 4));
        ("sha256", JStr (digest_of [])); ("data", JStr "AQIDBA==")].

Lemma media_result_intact_witness :
  decodeResidentFrame digest_of (InValue sample_media_object) = inr sample_media
  ∧ Z.of_nat (length (b64_decode "AQIDBA==")) = 4%Z.
Proof.
  assert (decodeResidentFrame digest_of (InValue sample_media_object) = inr sample_media) as H
    by (vm_compute; reflexivity).
  split; [exact H|]. exact (proj1 (media_result_intact digest_of _ _ _ _ _ _ _ _ H)).
Defined.

Lemma operation_coerced_witness :
  operation_result_frame
    [("version", JNum (num_of_Z PROTOCOL_VERSION)); ("connectionId", JStr Example.connection);
     ("seq", JNum (num_of_Z 2)); ("type", JStr "operation.result");
     ("requestId", JStr Example.request); ("viewerId", JStr Example.viewer);
     ("operation", JArr [JStr "viewer.open"]); ("ok", JBool true)]
  = inr (OperationResult Example.request Example.viewer (JArr [JStr "viewer.open"]) None).
Proof.
  apply (operation_coerced Example.connection 2 Example.request Example.viewer "viewer.open");
    [vm_compute; reflexivity|vm_compute; reflexivity|compute_done].
Defined.
