(* ===== verification/JsString.v ===== *)
(** * JavaScript strings

    A string is its list of UTF-16 code units.  What src/llm and src/sandbox use
    of strings and of Node's [Buffer]: length, slicing, UTF-8 encoding (lone
    surrogates become U+FFFD) and decoding (an ill-formed sequence becomes
    U+FFFD). *)

From Stdlib Require Import Ascii.
From S2P Require Import Prelude.
Local Open Scope Z_scope.
Local Open Scope list_scope.

Abbreviation jstring := (list Z).

(** An ASCII literal. *)
Fixpoint lit (s : string) : jstring :=
  match s with
  | EmptyString => []
  | String c s => Z.of_N (N_of_ascii c) :: lit s
  end.

(** [s.startsWith(p)] *)
Fixpoint startsWith (p s : jstring) : bool :=
  match p, s with
  | [], _ => true
  | x :: p, y :: s => (x =? y) && startsWith p s
  | _ :: _, [] => false
  end.

(** [a.join(sep)] *)
Fixpoint join (sep : jstring) (l : list jstring) : jstring :=
  match l with
  | [] => []
  | [s] => s
  | s :: l => s ++ sep ++ join sep l
  end.

(** [s.slice(-n)] for a positive [n]. *)
Definition last_units (n : nat) (s : jstring) : jstring := drop (length s - n) s.

(** [String(n)] of a natural number. *)
Definition decimal (n : nat) : jstring := lit (pretty n).

(** ** UTF-8 *)

Definition is_high (u : Z) : bool := (0xD800 <=? u) && (u <? 0xDC00).
Definition is_low (u : Z) : bool := (0xDC00 <=? u) && (u <? 0xE000).

(** The bytes of one code point. *)
Definition utf8_bytes (c : Z) : list Z :=
  if c <? 0x80 then [c]
  else if c <? 0x800 then [0xC0 + c / 64; 0x80 + c mod 64]
  else if c <? 0x10000 then [0xE0 + c / 4096; 0x80 + c / 64 mod 64; 0x80 + c mod 64]
  else [0xF0 + c / 262144; 0x80 + c / 4096 mod 64; 0x80 + c / 64 mod 64; 0x80 + c mod 64].

(** [Buffer.from(s, 'utf8')] *)
Fixpoint utf8_encode (s : jstring) : list Z :=
  match s with
  | [] => []
  | u :: s =>
      if is_high u then
        match s with
        | v :: s' =>
            if is_low v then utf8_bytes (0x10000 + (u - 0xD800) * 1024 + (v - 0xDC00)) ++ utf8_encode s'
            else utf8_bytes 0xFFFD ++ utf8_encode s
        | [] => utf8_bytes 0xFFFD
        end
      else if is_low u then utf8_bytes 0xFFFD ++ utf8_encode s
      else utf8_bytes u ++ utf8_encode s
  end.

(** [Buffer.byteLength(s, 'utf8')] *)
Definition byteLength (s : jstring) : nat := length (utf8_encode s).

(** The code units of a code point. *)
Definition utf16_units (c : Z) : jstring :=
  if c <? 0x10000 then [c]
  else [0xD800 + (c - 0x10000) / 1024; 0xDC00 + (c - 0x10000) mod 1024].

(** A lead byte: how many continuation bytes follow, its payload, and the range
    of the first continuation byte. *)
Definition utf8_lead (b : Z) : option (nat * Z * Z * Z) :=
  if (0xC2 <=? b) && (b <=? 0xDF) then Some (1%nat, b - 0xC0, 0x80, 0xBF)
  else if b =? 0xE0 then Some (2%nat, 0, 0xA0, 0xBF)
  else if b =? 0xED then Some (2%nat, 0xD, 0x80, 0x9F)
  else if (0xE1 <=? b) && (b <=? 0xEF) then Some (2%nat, b - 0xE0, 0x80, 0xBF)
  else if b =? 0xF0 then Some (3%nat, 0, 0x90, 0xBF)
  else if (0xF1 <=? b) && (b <=? 0xF3) then Some (3%nat, b - 0xF0, 0x80, 0xBF)
  else if b =? 0xF4 then Some (3%nat, 4, 0x80, 0x8F)
  else None.

(** [buf.toString('utf8')]: the decoder of the Encoding standard.  [need]
    continuation bytes are due, the next within [lo, hi]. *)
Fixpoint utf8_scan (need : nat) (c lo hi : Z) (l : list Z) : jstring :=
  match l with
  | [] => match need with O => [] | _ => [0xFFFD] end
  | b :: l =>
      let start :=
        if b <? 0x80 then b :: utf8_scan 0 0 0x80 0xBF l
        else match utf8_lead b with
             | Some (n, c, lo, hi) => utf8_scan n c lo hi l
             | None => 0xFFFD :: utf8_scan 0 0 0x80 0xBF l
             end in
      match need with
      | O => start
      | S need' =>
          if (lo <=? b) && (b <=? hi) then
            let c := c * 64 + (b - 0x80) in
            match need' with
            | O => utf16_units c ++ utf8_scan 0 0 0x80 0xBF l
            | S _ => utf8_scan need' c 0x80 0xBF l
            end
          else 0xFFFD :: start
      end
  end.
Definition utf8_decode (l : list Z) : jstring := utf8_scan 0 0 0x80 0xBF l.

(** ** Facts *)

Lemma length_last_units n s : (length (last_units n s) ≤ n)%nat.
Proof. unfold last_units. rewrite length_drop. lia. Qed.

Lemma startsWith_app p s : startsWith p (p ++ s) = true.
Proof. induction p; simpl; [done|]. by rewrite Z.eqb_refl, IHp. Qed.

(** Decoding inverts encoding on characters of the ASCII range. *)
Lemma utf8_ascii s : Forall (λ u, 0 ≤ u < 0x80) s → utf8_encode s = s ∧ utf8_decode s = s.
Proof.
  induction 1 as [|u s Hu _ [IH1 IH2]]; [done|]. split; simpl.
  - unfold is_high, is_low, utf8_bytes.
    destruct (Z.leb_spec 0xD800 u); [lia|]. destruct (Z.leb_spec 0xDC00 u); [lia|]. simpl.
    destruct (Z.ltb_spec u 0x80); [|lia]. simpl. by rewrite IH1.
  - unfold utf8_decode. simpl. destruct (Z.ltb_spec u 0x80); [|lia]. by rewrite IH2 at 1.
Qed.
