(* ===== verification/JsText.v ===== *)
(** * Searching and splitting JavaScript strings

    What src/lib uses of [String.prototype]: [indexOf], [lastIndexOf], [split] on
    a character, [trim] and [padStart], with the lemmas the components share. *)

From S2P Require Import Prelude JsString.
Local Open Scope list_scope.

(** The white space and line terminators [trim] removes. *)
Definition is_space (u : Z) : bool :=
  bool_decide (u ∈ [9; 10; 11; 12; 13; 32; 0xA0; 0x1680; 0x2028; 0x2029; 0x202F; 0x205F; 0x3000;
                    0xFEFF]%Z)
  || (0x2000 <=? u)%Z && (u <=? 0x200A)%Z.

(** [s.trimStart()], [s.trim()] *)
Fixpoint trimStart (s : jstring) : jstring :=
  match s with
  | [] => []
  | u :: s' => if is_space u then trimStart s' else s
  end.
Definition trim (s : jstring) : jstring := rev (trimStart (rev (trimStart s))).

(** The first offset at which [needle] occurs. *)
Fixpoint index_in (needle s : jstring) : option nat :=
  if startsWith needle s then Some O
  else match s with [] => None | _ :: s => S <$> index_in needle s end.
(** [s.indexOf(needle, from)]; [None] is -1. *)
Definition indexOf (needle s : jstring) (from : nat) : option nat :=
  Nat.add from <$> index_in needle (drop from s).

(** The last offset at which [needle] occurs: [s.lastIndexOf(needle)]. *)
Fixpoint lastIndexOf (needle s : jstring) : option nat :=
  match s with
  | [] => if startsWith needle [] then Some O else None
  | _ :: s' =>
      match lastIndexOf needle s' with
      | Some i => Some (S i)
      | None => if startsWith needle s then Some O else None
      end
  end.

(** [s.split(c)] for a one-character separator. *)
Fixpoint split_on (c : Z) (s : jstring) : list jstring :=
  match s with
  | [] => [[]]
  | u :: s =>
      if (u =? c)%Z then [] :: split_on c s
      else match split_on c s with
           | [] => [[u]]
           | w :: ws => (u :: w) :: ws
           end
  end.

(** [s.padStart(n)] *)
Definition padStart (n : nat) (s : jstring) : jstring := replicate (n - length s) 32%Z ++ s.

(** ** Facts *)

Lemma startsWith_spec p s : startsWith p s = true ↔ ∃ r, s = p ++ r.
Proof.
  split.
  - revert s. induction p as [|x p IH]; intros s; simpl; [eauto|].
    destruct s as [|y s]; [done|]. intros [->%Z.eqb_eq [r ->]%IH]%andb_true_iff. eauto.
  - intros [r ->]. apply startsWith_app.
Qed.
Lemma startsWith_false p s r : startsWith p s = false → s ≠ p ++ r.
Proof. intros H ->. by rewrite startsWith_app in H. Qed.

(** Occurrences: [occurs n s i] when [n] stands at offset [i] of [s]. *)
Definition occurs (needle s : jstring) (i : nat) : Prop :=
  ∃ a b, s = a ++ needle ++ b ∧ length a = i.

Lemma occurs_cons needle u s i : occurs needle (u :: s) (S i) ↔ occurs needle s i.
Proof.
  split.
  - intros ([|v a] & b & Hs & Hl); [done|]. simplify_eq/=. by exists a, b.
  - intros (a & b & -> & <-). by exists (u :: a), b.
Qed.
Lemma occurs_0 needle s : occurs needle s 0 ↔ startsWith needle s = true.
Proof.
  rewrite startsWith_spec. split.
  - intros (a & b & -> & ->%nil_length_inv). eauto.
  - intros [r ->]. by exists [], r.
Qed.
Lemma occurs_drop needle s k i : k ≤ length s → occurs needle (drop k s) i ↔ occurs needle s (k + i).
Proof.
  revert s. induction k as [|k IH]; intros s; [done|]. destruct s as [|u s]; simpl; [lia|].
  intros H. rewrite IH by lia. by rewrite occurs_cons.
Qed.
Lemma occurs_bound needle s i : occurs needle s i → i + length needle ≤ length s.
Proof. intros (a & b & -> & <-). rewrite !length_app. lia. Qed.

Lemma index_in_Some needle s i :
  index_in needle s = Some i ↔ occurs needle s i ∧ ∀ j, j < i → ¬ occurs needle s j.
Proof.
  revert i. induction s as [|u s IH]; intros i; simpl.
  - destruct (startsWith needle []) eqn:E.
    + split; [intros [= <-]; split; [by apply occurs_0|lia]|]. intros [Ho Hm].
      destruct i; [done|]. exfalso. apply (Hm 0); [lia|by apply occurs_0].
    + split; [done|]. intros [Ho _]. pose proof (occurs_bound _ _ _ Ho) as Hb. simpl in Hb.
      assert (i = 0) as -> by lia. apply occurs_0 in Ho. congruence.
  - destruct (startsWith needle (u :: s)) eqn:E.
    + split; [intros [= <-]; split; [by apply occurs_0|lia]|]. intros [Ho Hm].
      destruct i; [done|]. exfalso. apply (Hm 0); [lia|by apply occurs_0].
    + split.
      * intros (k & [Ho Hm]%IH & ->)%fmap_Some. split; [by apply occurs_cons|].
        intros [|j] Hj Hx; [apply occurs_0 in Hx; congruence|]. apply occurs_cons in Hx.
        by apply (Hm j); [lia|].
      * intros [Ho Hm]. destruct i as [|i]; [apply occurs_0 in Ho; congruence|].
        apply occurs_cons in Ho. apply fmap_Some. exists i. split; [|done]. apply IH. split; [done|].
        intros j Hj Hx. apply (Hm (S j)); [lia|]. by apply occurs_cons.
Qed.

Lemma index_in_None needle s : index_in needle s = None ↔ ∀ i, ¬ occurs needle s i.
Proof.
  split.
  - intros H i. induction i as [i IH] using lt_wf_ind. intros Ho.
    assert (index_in needle s = Some i) as H' by (apply index_in_Some; eauto). congruence.
  - intros H. destruct (index_in needle s) as [i|] eqn:E; [|done].
    apply index_in_Some in E as [Ho _]. by apply H in Ho.
Qed.

Lemma index_in_app needle a b :
  (∀ j, j < length a → ¬ occurs needle (a ++ needle ++ b) j) →
  index_in needle (a ++ needle ++ b) = Some (length a).
Proof. intros H. apply index_in_Some. split; [by exists a, b|done]. Qed.

(** Splitting on a character and joining the pieces again. *)
Lemma split_on_nonnil c s : split_on c s ≠ [].
Proof. destruct s as [|u s]; simpl; [done|]. destruct (u =? c)%Z; [done|]. by destruct (split_on c s). Qed.

Lemma split_on_app c w s :
  c ∉ w → split_on c (w ++ c :: s) = w :: split_on c s.
Proof.
  induction w as [|u w IH]; intros Hw; simpl.
  - by rewrite Z.eqb_refl.
  - apply not_elem_of_cons in Hw as [Hu Hw]. destruct (Z.eqb_spec u c) as [->|_]; [done|].
    by rewrite IH.
Qed.
Lemma split_on_single c w : c ∉ w → split_on c w = [w].
Proof.
  induction w as [|u w IH]; intros Hw; simpl; [done|].
  apply not_elem_of_cons in Hw as [Hu Hw]. destruct (Z.eqb_spec u c) as [->|_]; [done|].
  by rewrite IH.
Qed.

(** The lines before a line break are those of the text before it. *)
Lemma split_on_break c a s : split_on c (a ++ c :: s) = split_on c a ++ split_on c s.
Proof.
  induction a as [|u a IH]; simpl; [by rewrite Z.eqb_refl|].
  destruct (u =? c)%Z; [by rewrite IH|]. rewrite IH.
  destruct (split_on c a) as [|w ws] eqn:E; [by destruct (split_on_nonnil c a)|done].
Qed.

Lemma split_on_join c s : join [c] (split_on c s) = s.
Proof.
  induction s as [|u s IH]; [done|]. simpl.
  destruct (split_on c s) as [|w ws] eqn:E; [by destruct (split_on_nonnil c s)|].
  destruct (Z.eqb_spec u c) as [->|_].
  - change (c :: join [c] (w :: ws) = c :: s). by rewrite IH.
  - rewrite <- IH. by destruct ws.
Qed.

Lemma trimStart_suffix s : ∃ p, s = p ++ trimStart s ∧ forallb is_space p = true.
Proof.
  induction s as [|u s (p & Hp & Hs)]; simpl; [by exists []|].
  destruct (is_space u) eqn:E; [|by exists []]. exists (u :: p). simpl. rewrite E, Hs.
  split; [|done]. by f_equal.
Qed.
