(* ===== verification/Secrets.v ===== *)
(** * Redaction of secrets (src/lib/secrets.ts)

    The values a process must not repeat, and the replacement of their occurrences
    before a text leaves it.  A text is its UTF-16 code units. *)

From Stdlib Require Import Sorted.
From S2P Require Import Prelude JsString JsText.
Local Open Scope string_scope.
Local Open Scope nat_scope.

Definition MIN_SECRET_LENGTH : nat := 8.
Definition MAX_SECRET_BYTES : nat := 4096.
Definition validSecret (v : jstring) : bool := Nat.leb MIN_SECRET_LENGTH (length v) && Nat.leb (byteLength v) MAX_SECRET_BYTES.
Definition MARK : jstring := lit "[SECRET REDACTED]".

(** ** The registry *)

(** A Set in the order of insertion. *)
Abbreviation registry := (list jstring).
(** [None] throws; the flag tells whether the value is new. *)
Definition register (v : jstring) (r : registry) : option (bool * registry) :=
  if validSecret v then Some (if bool_decide (v ∈ r) then (false, r) else (true, (r ++ [v])%list)) else None.
Definition unregister (v : jstring) (r : registry) : bool * registry :=
  if validSecret v then (bool_decide (v ∈ r), List.filter (λ x, negb (bool_decide (x = v))) r) else (false, r).
Fixpoint new_registry (initial : list jstring) (r : registry) : option registry :=
  match initial with
  | [] => Some r
  | v :: initial => '(_, r) ← register v r; new_registry initial r
  end.

(** ** Redaction *)

(** [sort((a, b) => b.length - a.length)], which is stable. *)
Fixpoint insert_length (v : jstring) (l : list jstring) : list jstring :=
  match l with
  | [] => [v]
  | u :: l => if Nat.leb (length u) (length v) then v :: u :: l else u :: insert_length v l
  end.
Definition by_length (l : list jstring) : list jstring := foldr insert_length [] l.
(** [split(value)] of a value that is not empty: each round consumes it. *)
Fixpoint split_text (fuel : nat) (v s : jstring) : list jstring :=
  match fuel, index_in v s with
  | S fuel, Some i => take i s :: split_text fuel v (drop (i + length v) s)
  | _, _ => [s]
  end.
Definition includes (s v : jstring) : bool := bool_decide (is_Some (index_in v s)).
Definition replace_value (out v : jstring) : jstring :=
  if includes out v then join MARK (split_text (length out) v out) else out.
Definition redact (r : registry) (text : jstring) : jstring := foldl replace_value text (by_length r).
(** [redactSecrets] of an array; of a registry it is [redact]. *)
Definition redact_array (l : list jstring) (text : jstring) : jstring :=
  foldl (λ out v, if Nat.eqb (length v) 0 then out else replace_value out v) text (by_length l).

(** ** The secrets of a configuration *)

(** The candidates are in the order of the code; [None] is null or undefined. *)
Fixpoint collect (candidates : list (option jstring)) (out : list jstring) : option (list jstring) :=
  match candidates with
  | [] => Some out
  | c :: candidates =>
      match c with
      | None => collect candidates out
      | Some v =>
          if Nat.eqb (length v) 0 || Nat.ltb (length v) MIN_SECRET_LENGTH then collect candidates out
          else if negb (validSecret v) then None
          else collect candidates (if bool_decide (v ∈ out) then out else (out ++ [v])%list)
      end
  end.
Definition collectSecretValues (candidates : list (option jstring)) : option (list jstring) := collect candidates [].
Definition createSecretRegistry (candidates : list (option jstring)) : option registry :=
  l ← collectSecretValues candidates; new_registry l [].

Example longest_first :
  redact [lit "password"; lit "password1234"] (lit "my password1234 is a password") = lit "my [SECRET REDACTED] is a [SECRET REDACTED]".
Proof. reflexivity. Qed.
(** A value made of the replacement's own words stays, and one with a bracket can arise. *)
Example own_words_stay : redact [lit "REDACTED"] (lit "REDACTED") = lit "[SECRET REDACTED]".
Proof. reflexivity. Qed.
Example bracket_arises :
  redact [lit "user [SECRET"; lit "hunter22"] (lit "user hunter22") = lit "user [SECRET REDACTED]".
Proof. reflexivity. Qed.

(** ** Facts *)

Definition sub (w s : jstring) : Prop := ∃ i, occurs w s i.
Lemma sub_spec w s : sub w s ↔ ∃ a b, s = (a ++ w ++ b)%list.
Proof. split; [intros (i & a & b & -> & _); eauto|intros (a & b & ->); exists (length a), a, b; done]. Qed.
Lemma sub_none w s : index_in w s = None ↔ ¬ sub w s.
Proof. rewrite index_in_None. split; [intros H [i Hi]; by apply (H i)|intros H i Hi; apply H; by exists i]. Qed.
Lemma sub_trans u v w : sub u v → sub v w → sub u w.
Proof.
  rewrite !sub_spec. intros (a & b & ->) (c & d & ->). exists (c ++ a)%list, (b ++ d)%list. by rewrite <-!app_assoc.
Qed.
Lemma sub_length w s : sub w s → length w ≤ length s.
Proof. intros [i Hi%occurs_bound]. lia. Qed.
Lemma sub_eq w s : sub w s → length s ≤ length w → w = s.
Proof.
  rewrite sub_spec. intros (a & b & ->). rewrite !length_app. intros Hl. destruct a, b; simpl in *; try lia. by rewrite app_nil_r.
Qed.
(** What does not hold a character stands on one side of it. *)
Lemma sub_break c w a b : c ∉ w → sub w (a ++ c :: b)%list → sub w a ∨ sub w b.
Proof.
  intros Hc. rewrite !sub_spec. intros (x & y & Heq). apply app_eq_inv in Heq as [(k & -> & Hk)|(k & -> & Hk)].
  - apply app_eq_inv in Hk as [(k' & -> & Hk')|(k' & -> & Hk')]; [|left; eauto].
    destruct k' as [|c' k']; simpl in Hk'; [left; exists x, []; by rewrite !app_nil_r|]. injection Hk' as <- _. set_solver.
  - destruct k as [|c' k]; simpl in Hk; [|injection Hk as _ ->; right; eauto].
    destruct w as [|c' w]; [left; exists a, []; by rewrite !app_nil_r|]. simpl in Hk. injection Hk as <- _. set_solver.
Qed.

(** The pieces of a split. *)
Lemma split_pieces v : v ≠ [] → ∀ fuel s, length s ≤ fuel →
  Forall (λ x, sub x s ∧ ¬ sub v x) (split_text fuel v s).
Proof.
  intros Hv. induction fuel as [|fuel IH]; intros s Hl; simpl.
  - constructor; [|done]. split; [exists 0, [], []; by rewrite app_nil_r|]. intros Hs%sub_length. destruct s, v; simpl in *; done || lia.
  - destruct (index_in v s) as [i|] eqn:Hi.
    2:{ constructor; [|done]. split; [exists 0, [], []; by rewrite app_nil_r|]. by apply sub_none. }
    apply index_in_Some in Hi as [Ho Hmin]. pose proof (occurs_bound _ _ _ Ho) as Hb.
    assert (0 < length v) as Hv0 by (destruct v; simpl; [done|lia]). constructor.
    + split; [apply sub_spec; exists [], (drop i s); simpl; by rewrite take_drop|].
      intros [j Hj]. pose proof (occurs_bound _ _ _ Hj) as Hb'. rewrite length_take in Hb'. apply (Hmin j); [lia|].
      destruct Hj as (a & b & Ht & <-). exists a, (b ++ drop i s)%list. split; [|done]. rewrite <-(take_drop i s) at 1. rewrite Ht, <-!app_assoc. done.
    + eapply Forall_impl; [apply IH; rewrite length_drop; lia|]. intros x [Hx Hn]. split; [|done].
      eapply sub_trans; [exact Hx|]. apply sub_spec. exists (take (i + length v) s), []. by rewrite app_nil_r, take_drop.
Qed.
Definition WORDS : jstring := lit "SECRET REDACTED".
(** A secret the replacement cannot make appear. *)
Definition plain (v : jstring) : Prop := 91%Z ∉ v ∧ 93%Z ∉ v ∧ ¬ sub v WORDS ∧ v ≠ [].
Lemma plain_mark v : plain v → ¬ sub v MARK.
Proof.
  intros (H1 & H2 & H3 & H4) Hs. change MARK with ([] ++ 91%Z :: (WORDS ++ 93%Z :: []))%list in Hs.
  apply sub_break in Hs as [Hs|Hs]; [| |done].
  - apply sub_length in Hs. destruct v; simpl in *; done || lia.
  - apply sub_break in Hs as [Hs|Hs]; [done| |done]. apply sub_length in Hs. destruct v; simpl in *; done || lia.
Qed.
Lemma join_sub w l : plain w → sub w (join MARK l) → ∃ x, x ∈ l ∧ sub w x.
Proof.
  intros Hp. pose proof Hp as (H1 & H2 & H3 & H4). induction l as [|x l IH]; intros Hs.
  - apply sub_length in Hs. destruct w; simpl in *; done || lia.
  - destruct l as [|y l]; [exists x; split; [by left|done]|].
    change (join MARK (x :: y :: l)) with (x ++ 91%Z :: (WORDS ++ 93%Z :: join MARK (y :: l)))%list in Hs.
    apply sub_break in Hs as [Hs|Hs]; [exists x; split; [by left|done]| |done].
    apply sub_break in Hs as [Hs|Hs]; [done| |done]. destruct (IH Hs) as (z & Hz & Hzs). exists z. split; [by right|done].
Qed.

(** One replacement: the value is gone, and no other secret appears. *)
Lemma replace_gone out v : v ≠ [] → plain v → ¬ sub v (replace_value out v).
Proof.
  intros Hv Hp. unfold replace_value, includes. case_bool_decide as Hi; [|rewrite <-sub_none; by apply eq_None_not_Some].
  intros (x & Hx & Hs)%join_sub; [|done]. pose proof (split_pieces v Hv (length out) out (Nat.le_refl _)) as Hf.
  rewrite Forall_forall in Hf. by apply Hf in Hx as [_ Hx].
Qed.
Lemma replace_keeps out v w : v ≠ [] → plain w → ¬ sub w out → ¬ sub w (replace_value out v).
Proof.
  intros Hv Hp Hn. unfold replace_value. case_match; [|done]. intros (x & Hx & Hs)%join_sub; [|done].
  pose proof (split_pieces v Hv (length out) out (Nat.le_refl _)) as Hf. rewrite Forall_forall in Hf.
  apply Hf in Hx as [Hx _]. apply Hn. by eapply sub_trans.
Qed.
Lemma replace_absent out v : ¬ sub v out → replace_value out v = out.
Proof. intros Hn%sub_none. unfold replace_value, includes. by rewrite Hn. Qed.
Lemma replace_whole v : v ≠ [] → replace_value v v = MARK.
Proof.
  intros Hv. assert (index_in v v = Some 0) as Hi.
  { apply index_in_Some. split; [|lia]. exists [], []. by rewrite app_nil_r. }
  unfold replace_value, includes. rewrite Hi, bool_decide_eq_true_2 by eauto.
  destruct v as [|u v]; [done|]. change (length (u :: v)) with (S (length v)) at 1. cbn [split_text]. rewrite Hi. change (0 + length (u :: v)) with (length (u :: v)). rewrite drop_all.
  assert (∀ n, split_text n (u :: v) [] = [[]]) as -> by by intros []. reflexivity.
Qed.

(** Sorting. *)
Lemma insert_length_perm v l : insert_length v l ≡ₚ v :: l.
Proof. induction l as [|u l IH]; simpl; [done|]. case_match; [done|]. rewrite IH. apply Permutation_swap. Qed.
Lemma by_length_perm l : by_length l ≡ₚ l.
Proof. induction l as [|v l IH]; simpl; [done|]. by rewrite insert_length_perm, IH. Qed.
Lemma insert_length_sorted v l :
  StronglySorted (λ a b, length b ≤ length a) l → StronglySorted (λ a b, length b ≤ length a) (insert_length v l).
Proof.
  induction 1 as [|u l Hs IH Hf]; simpl; [by repeat constructor|]. destruct (Nat.leb_spec (length u) (length v)).
  - constructor; [by constructor|]. constructor; [done|]. eapply Forall_impl; [exact Hf|]. simpl. lia.
  - constructor; [done|]. rewrite insert_length_perm. constructor; [lia|done].
Qed.
Lemma by_length_sorted l : StronglySorted (λ a b, length b ≤ length a) (by_length l).
Proof. induction l as [|v l IH]; simpl; [constructor|]. by apply insert_length_sorted. Qed.

(** ** The registry *)

Inductive registry_call := rc_register (v : jstring) | rc_unregister (v : jstring).
(** A call that throws changes nothing. *)
Definition registry_step (r : registry) (c : registry_call) : registry :=
  match c with
  | rc_register v => match register v r with Some (_, r) => r | None => r end
  | rc_unregister v => (unregister v r).2
  end.
Definition registry_ok (r : registry) : Prop := NoDup r ∧ Forall (λ v, validSecret v = true) r.
Lemma register_ok v r b r' : registry_ok r → register v r = Some (b, r') → registry_ok r' ∧ v ∈ r' ∧ (∀ x, x ∈ r → x ∈ r').
Proof.
  intros [Hd Hv]. unfold register. destruct (validSecret v) eqn:Hval; [|done]. case_bool_decide; intros [= <- <-]; [done|]. split_and!.
  - split; [apply NoDup_app; split_and!; [done|set_solver|apply NoDup_singleton]|]. apply Forall_app. split; [done|by repeat constructor].
  - set_solver.
  - set_solver.
Qed.
Lemma registry_step_ok r c : registry_ok r → registry_ok (registry_step r c).
Proof.
  intros Hr. destruct c as [v|v]; simpl.
  - destruct (register v r) as [[b r']|] eqn:He; [|done]. by apply (register_ok v r b r').
  - unfold unregister. destruct (validSecret v); [|done]. destruct Hr as [Hd Hv]. simpl. split.
    + apply NoDup_ListNoDup, List.NoDup_filter. by apply NoDup_ListNoDup.
    + rewrite Forall_forall in *. intros x [Hx _]%list_elem_of_In%List.filter_In. apply Hv. by apply list_elem_of_In.
Qed.
Lemma calls_ok calls r : registry_ok r → registry_ok (foldl registry_step r calls).
Proof. revert r. induction calls as [|c calls IH]; intros r Hr; [done|]. by apply IH, registry_step_ok. Qed.
(** The boot values can always be registered: the constructor does not throw. *)
Lemma collected cs : ∀ out l, collect cs out = Some l → registry_ok out → registry_ok l.
Proof.
  induction cs as [|[v|] cs IH]; intros out l; simpl; [by intros [= <-]| |apply IH]. case_match; [apply IH|].
  destruct (validSecret v) eqn:Hv; simpl; [|done]. intros Hc [Hd Hf]. eapply IH; [exact Hc|]. case_bool_decide; [done|].
  split; [apply NoDup_app; split_and!; [done|set_solver|apply NoDup_singleton]|apply Forall_app; split; [done|by repeat constructor]].
Qed.
Lemma new_registry_runs l : ∀ r, Forall (λ v, validSecret v = true) l → is_Some (new_registry l r).
Proof.
  induction l as [|v l IH]; intros r Hl; simpl; [eauto|]. apply Forall_cons in Hl as [Hv Hl]. unfold register. rewrite Hv.
  case_bool_decide; by apply IH.
Qed.

Lemma redact_rest l out : Forall (λ v, ¬ sub v out) l → foldl replace_value out l = out.
Proof. induction 1 as [|v l Hv _ IH]; simpl; [done|]. by rewrite replace_absent. Qed.
Lemma redact_whole l v :
  StronglySorted (λ a b, length b ≤ length a) l → Forall plain l → v ∈ l → foldl replace_value v l = MARK.
Proof.
  intros Hs Hp. induction Hs as [|u l Hs IH Hf]; intros Hv; [set_solver|]. apply Forall_cons in Hp as [Hu Hp]. simpl.
  destruct (decide (u = v)) as [->|Hne].
  - rewrite replace_whole by apply Hu. apply redact_rest. eapply Forall_impl; [exact Hp|]. apply plain_mark.
  - apply elem_of_cons in Hv as [->|Hv]; [done|]. rewrite replace_absent; [by apply IH|]. intros Hsub. apply Hne.
    rewrite Forall_forall in Hf. by apply sub_eq, Hf.
Qed.
Lemma redact_gone l : Forall (λ u, u ≠ []) l → ∀ out v, plain v → v ∈ l ∨ ¬ sub v out → ¬ sub v (foldl replace_value out l).
Proof.
  induction 1 as [|u l Hne Hl IH]; intros out v Hp Hv; simpl; [destruct Hv as [Hv|Hv]; [set_solver|done]|]. apply IH; [done|].
  destruct Hv as [[->|Hv]%elem_of_cons|Hn]; [right|by left|right]; [by apply replace_gone|by apply replace_keeps].
Qed.
Lemma registered_nonempty r : registry_ok r → Forall (λ u, u ≠ []) (by_length r).
Proof. intros [_ Hv]. rewrite by_length_perm. eapply Forall_impl; [exact Hv|]. by intros [|u v]. Qed.

(** C8. Redaction removes the registered secrets: after any registrations and
    removals, wherever a registered secret occurs in a text, also overlapping or within
    another, it is gone from the redacted text, whatever the other secrets are, unless it
    holds a square bracket or is a part of the words of the replacement; a text in which
    none occurs is unchanged; and when all secrets are of this kind, a text that is a
    secret becomes the bare replacement, so that no rest of a longer secret stays behind
    a shorter one.  The secrets collected from a configuration are always accepted by
    the registry. *)
Theorem redaction_complete calls text :
  let r := foldl registry_step [] calls in
  (∀ v, v ∈ r → plain v → ¬ sub v (redact r text))
  ∧ ((∀ v, v ∈ r → ¬ sub v text) → redact r text = text)
  ∧ (Forall plain r → ∀ v, v ∈ r → redact r v = MARK)
  ∧ (∀ candidates l, collectSecretValues candidates = Some l → is_Some (createSecretRegistry candidates)).
Proof.
  intros r. pose proof (by_length_perm r) as Hb. assert (registry_ok r) as Hok by (apply calls_ok; split; constructor).
  split_and!.
  - intros v Hv Hp. apply redact_gone; [by apply registered_nonempty|done|]. left. by rewrite Hb.
  - intros Hn. apply redact_rest. rewrite Hb. by apply Forall_forall.
  - intros Hp v Hv. apply redact_whole; [apply by_length_sorted|by rewrite Hb|by rewrite Hb].
  - intros cs l Hc. unfold createSecretRegistry. rewrite Hc. simpl. apply new_registry_runs.
    apply (collected cs [] l Hc). split; constructor.
Qed.
Lemma plain_check v :
  forallb (λ u, negb (u =? 91)%Z && negb (u =? 93)%Z) v && negb (includes WORDS v) && negb (Nat.eqb (length v) 0) = true → plain v.
Proof.
  intros H. guards. rewrite forallb_forall in H. split_and!.
  - intros Hin%list_elem_of_In. by apply H in Hin.
  - intros Hin%list_elem_of_In. by apply H in Hin.
  - apply sub_none. unfold includes in H1. case_bool_decide; [done|]. by apply eq_None_not_Some.
  - by intros ->.
Qed.
Lemma redaction_complete_witness :
  let r := foldl registry_step [] [rc_register (lit "password"); rc_register (lit "password1234"); rc_register (lit "short")] in
  length r = 2 ∧ redact r (lit "password1234") = MARK.
Proof.
  intros r. split; [reflexivity|].
  apply (redaction_complete [rc_register (lit "password"); rc_register (lit "password1234"); rc_register (lit "short")] []).
  - repeat constructor; apply plain_check; reflexivity.
  - apply list_elem_of_In. vm_compute. auto.
Defined.
