(* ===== verification/Credentials.v ===== *)
(** * Credentials of residents (packages/gateway-protocol/src/credentials.ts)

    Enrollment grants and node credentials are tokens [prefix.id.secret]; what is
    stored of the secret is its SHA-256 digest, the verifier.  The digest and the random
    source are parameters. *)

From Stdlib Require Import Ascii.
From S2P Require Import Prelude Protocol Codec.
Local Open Scope string_scope.
Local Open Scope Z_scope.
#[local] Ltac Zify.zify_post_hook ::= Z.to_euclidean_division_equations.

(** [toString('base64url')] *)
Definition url_char (c : ascii) : string :=
  if Ascii.eqb c "+"%char then "-" else if Ascii.eqb c "/"%char then "_"
  else if Ascii.eqb c "="%char then "" else String c "".
Fixpoint url_chars (s : string) : string :=
  match s with "" => "" | String c s => url_char c +:+ url_chars s end.
Definition base64url (l : list Z) : string := url_chars (b64_encode l).

(** [[A-Za-z0-9_-]{n}] *)
Definition id_chars (n : nat) (s : string) : bool := Nat.eqb (String.length s) n && all_chars is_id_char s.
Definition isCredentialId (s : string) : bool := id_chars 22 s.
Definition isGatewayInstanceId (s : string) : bool := is_id INSTANCE_PREFIX s.

(** The id and the secret of a token: [^prefix\.([A-Za-z0-9_-]{22})\.([A-Za-z0-9_-]{43})$]. *)
Definition credential_parts (prefix token : string) : option (string * string) :=
  match split "."%char token with
  | [p; i; s] => if String.eqb p prefix && id_chars 22 i && id_chars 43 s then Some (i, s) else None
  | _ => None
  end.
Definition ENROLLMENT : string := "ege1".
Definition NODE : string := "egc1".

Definition formatNodeBearerAuthorization (t : string) : option string :=
  match credential_parts NODE t with Some _ => Some ("Bearer " +:+ t) | None => None end.
Definition parseNodeBearerAuthorization (v : string) : option string :=
  if String.prefix "Bearer " v then
    let token := String.substring 7 (String.length v - 7) v in
    match credential_parts NODE token with Some _ => Some token | None => None end
  else None.

Record material := mkMaterial { m_id : string; m_token : string; m_verifier : list Z }.
Definition exactVerifier (v : list Z) : bool := Nat.eqb (length v) 32.
Definition verifierMatches (actual expected : list Z) : bool :=
  exactVerifier expected && exactVerifier actual && bool_decide (actual = expected).

Section digest.
(** SHA-256 of the UTF-8 bytes of the secret. *)
Context (digest : string → list Z).

(** [None]: the random source returned a wrong number of bytes. *)
Definition createMaterial (prefix : string) (random_id random_secret : list Z) : option material :=
  if Nat.eqb (length random_id) 16 && Nat.eqb (length random_secret) 32 then
    let i := base64url random_id in
    let s := base64url random_secret in
    Some (mkMaterial i (prefix +:+ "." +:+ i +:+ "." +:+ s) (digest s))
  else None.
Definition parse (prefix token : string) : option (string * list Z) :=
  match credential_parts prefix token with Some (i, s) => Some (i, digest s) | None => None end.
Definition createEnrollmentCredential := createMaterial ENROLLMENT.
Definition createNodeCredential := createMaterial NODE.
Definition parseEnrollmentCredential := parse ENROLLMENT.
Definition parseNodeCredential := parse NODE.
End digest.
Definition newGatewayInstanceId (random : list Z) : option string :=
  if Nat.eqb (length random) 16 then Some ("egi1." +:+ base64url random) else None.

(** [encodeCredentialVerifier], [decodeCredentialVerifier] (resident-control.ts).  The
    check that the text is canonical refuses whatever [Buffer.from] would skip. *)
Definition encodeCredentialVerifier (v : list Z) : option string :=
  if exactVerifier v then Some (b64_encode v) else None.
Definition decodeCredentialVerifier (s : string) : option (list Z) :=
  if Nat.eqb (String.length s) 44 && is_b64 s && exactVerifier (b64_decode s) && String.eqb (b64_encode (b64_decode s)) s
  then Some (b64_decode s) else None.

(** ** Facts *)

Definition is_byte (x : Z) : Prop := 0 ≤ x < 256.

(** Induction over groups of three bytes. *)
Lemma list_ind3 (P : list Z → Prop) :
  P [] → (∀ x, P [x]) → (∀ x y, P [x; y]) → (∀ x y z l, P l → P (x :: y :: z :: l)) → ∀ l, P l.
Proof.
  intros H0 H1 H2 H3 l. enough (P l ∧ (∀ x, P (x :: l)) ∧ ∀ x y, P (x :: y :: l)) by tauto.
  induction l as [|z l (IH0 & IH1 & IH2)]; [auto|]. split_and!; auto.
Qed.
(** A property of all sextets, by computing it. *)
Lemma sextet (P : Z → bool) : forallb P (map Z.of_nat (List.seq 0 64)) = true → ∀ v, 0 ≤ v < 64 → P v = true.
Proof.
  intros H v Hv. rewrite List.forallb_forall in H. apply H, List.in_map_iff. exists (Z.to_nat v).
  split; [lia|]. apply List.in_seq. lia.
Qed.
Lemma b64_char_value v : 0 ≤ v < 64 → b64_value (b64_char v) = v.
Proof. intros Hv. apply Z.eqb_eq. by apply (sextet (λ v, b64_value (b64_char v) =? v)). Qed.
Lemma b64_char_ok v : 0 ≤ v < 64 → is_b64_char (b64_char v) = true ∧ Ascii.eqb (b64_char v) "="%char = false.
Proof.
  intros Hv. split; [by apply (sextet (λ v, is_b64_char (b64_char v)))|]. apply negb_true_iff.
  by apply (sextet (λ v, negb (Ascii.eqb (b64_char v) "="%char))).
Qed.
Lemma url_char_ok v : 0 ≤ v < 64 → ∃ c, url_char (b64_char v) = String c "" ∧ is_id_char c = true.
Proof.
  intros Hv. set (P v := match url_char (b64_char v) with String c "" => is_id_char c | _ => false end).
  assert (P v = true) as H by by apply (sextet P). unfold P in H. destruct (url_char (b64_char v)) as [|c []]; eauto; done.
Qed.
(** Names the characters of a group, with what is known of them. *)
Ltac sextets :=
  repeat match goal with |- context [b64_char ?v] =>
    let H := fresh in let c := fresh "c" in
    assert (0 ≤ v < 64) as H by (unfold is_byte in *; lia);
    destruct (b64_char_ok v H); pose proof (b64_char_value v H); set (c := b64_char v) in *; clearbody c; clear H end.

Lemma b64_roundtrip l : Forall is_byte l → b64_decode (b64_encode l) = l ∧ is_b64 (b64_encode l) = true.
Proof.
  induction l as [|x|x y|x y z l IH] using list_ind3; intros Hl; repeat (apply Forall_cons in Hl as [? Hl]);
    unfold is_byte in *; simpl; [done|..].
  all: sextets;
    repeat match goal with
    | H : is_b64_char _ = true |- _ => rewrite ?H; clear H
    | H : Ascii.eqb _ _ = false |- _ => rewrite ?H; clear H
    | H : b64_value _ = _ |- _ => rewrite ?H; clear H
    end; simpl; (split; [|try done]).
  - f_equal. lia.
  - f_equal; [lia|]. f_equal. lia.
  - destruct (IH Hl) as [-> _]. f_equal; [lia|]. f_equal; [lia|]. f_equal. lia.
  - by apply IH.
Qed.
Lemma append_chars P s t : all_chars P (s +:+ t) = all_chars P s && all_chars P t.
Proof. induction s as [|c s IH]; simpl; [done|]. by rewrite IH, andb_assoc. Qed.
(** What is written in base64url has as many characters as sextets are needed. *)
Lemma base64url_ok l :
  Forall is_byte l →
  all_chars is_id_char (base64url l) = true ∧ (4 * length l ≤ 3 * String.length (base64url l) ≤ 4 * length l + 2)%nat.
Proof.
  unfold base64url. induction l as [|x|x y|x y z l IH] using list_ind3; intros Hl; repeat (apply Forall_cons in Hl as [? Hl]);
    unfold is_byte in *; simpl; [split; [done|lia]|..].
  all: repeat match goal with |- context [url_char (b64_char ?v)] =>
    let H := fresh in let c := fresh "c" in
    assert (0 ≤ v < 64) as H by lia; destruct (url_char_ok v H) as (c & -> & ?); simpl end.
  all: repeat match goal with H : is_id_char _ = true |- _ => rewrite ?H; clear H end; simpl.
  1,2: split; [done|lia].
  destruct (IH Hl) as [? ?]. change ("" +:+ url_chars (b64_encode l)) with (url_chars (b64_encode l)). split; [done|lia].
Qed.
Lemma base64url_id n k l :
  Forall is_byte l → length l = k → (3 * n ≤ 4 * k + 2 ∧ 4 * k ≤ 3 * n)%nat → id_chars n (base64url l) = true.
Proof.
  intros Hl Hk Hn. destruct (base64url_ok l Hl) as [Hc Hs]. unfold id_chars. rewrite Hc, andb_true_r. apply Nat.eqb_eq. lia.
Qed.

(** Tokens: the parts are read back. *)
Lemma no_dot c : is_id_char c = true → Ascii.eqb c "."%char = false.
Proof. intros H. apply Ascii.eqb_neq. by intros ->. Qed.
Lemma split_id s : all_chars is_id_char s = true → split "."%char s = [s].
Proof.
  induction s as [|c s IH]; simpl; [done|]. intros [Hc Hs]%andb_true_iff. by rewrite (no_dot c Hc), IH.
Qed.
Lemma split_dot s t : all_chars is_id_char s = true → split "."%char (s +:+ "." +:+ t) = s :: split "."%char t.
Proof.
  induction s as [|c s IH]; simpl; [done|]. intros [Hc Hs]%andb_true_iff. by rewrite (no_dot c Hc), IH.
Qed.
Lemma parts_token prefix i s :
  all_chars is_id_char prefix = true → id_chars 22 i = true → id_chars 43 s = true →
  credential_parts prefix (prefix +:+ "." +:+ i +:+ "." +:+ s) = Some (i, s).
Proof.
  intros Hp Hi Hs. unfold credential_parts. pose proof (proj2 (andb_prop _ _ Hi)). pose proof (proj2 (andb_prop _ _ Hs)).
  rewrite split_dot, split_dot, split_id by done. by rewrite String.eqb_refl, Hi, Hs.
Qed.
Lemma split_nonnil sep s : split sep s ≠ [].
Proof. destruct s as [|c s]; simpl; [done|]. destruct (Ascii.eqb c sep); [done|]. by destruct (split sep s). Qed.
Lemma split_concat sep s : String.concat (String sep "") (split sep s) = s.
Proof.
  induction s as [|c s IH]; [done|]. simpl. destruct (Ascii.eqb_spec c sep) as [->|Hc].
  - destruct (split sep s) as [|w ws] eqn:Hw; [by apply split_nonnil in Hw|]. simpl in *. by rewrite <-IH.
  - destruct (split sep s) as [|w [|w' ws]] eqn:Hw; [by apply split_nonnil in Hw| |]; simpl in *; by rewrite <-IH.
Qed.
Lemma parts_spec prefix token i s :
  credential_parts prefix token = Some (i, s) →
  token = prefix +:+ "." +:+ i +:+ "." +:+ s ∧ id_chars 22 i = true ∧ id_chars 43 s = true.
Proof.
  unfold credential_parts. pose proof (split_concat "."%char token) as Hc.
  destruct (split "."%char token) as [|p [|i' [|s' []]]]; try done.
  destruct (String.eqb_spec p prefix) as [->|]; [|done]. simpl.
  destruct (id_chars 22 i') eqn:Hi, (id_chars 43 s') eqn:Hs; simpl; try done. intros [= -> ->]. by rewrite <-Hc.
Qed.
Lemma created_parts digest prefix ri rs m :
  all_chars is_id_char prefix = true → Forall is_byte ri → Forall is_byte rs →
  createMaterial digest prefix ri rs = Some m →
  ∃ s, credential_parts prefix (m_token m) = Some (m_id m, s) ∧ m_verifier m = digest s ∧ isCredentialId (m_id m) = true.
Proof.
  intros Hp Hi Hs. unfold createMaterial. destruct (Nat.eqb_spec (length ri) 16); [|done].
  destruct (Nat.eqb_spec (length rs) 32); [|done]. simpl. intros [= <-]. simpl.
  assert (id_chars 22 (base64url ri) = true) by (eapply base64url_id; [done..|lia]).
  assert (id_chars 43 (base64url rs) = true) by (eapply base64url_id; [done..|lia]).
  exists (base64url rs). split_and!; [by apply parts_token|done..].
Qed.
(** Identifiers made from random bytes are identifiers. *)
Lemma substring_long t n : (String.length t ≤ n)%nat → String.substring 0 n t = t.
Proof.
  revert n. induction t as [|c t IH]; intros [|n] Hn; simpl in *; [done|done|lia|]. rewrite IH by lia. done.
Qed.
Lemma substring_app p t n : String.substring (String.length p) n (p +:+ t) = String.substring 0 n t.
Proof. induction p as [|c p IH]; [done|]. simpl. apply IH. Qed.
Lemma prefix_of_app p t : String.prefix p (p +:+ t) = true.
Proof. induction p as [|c p IH]; simpl; [by destruct t|]. by destruct (ascii_dec c c). Qed.
Lemma is_id_prefixed p s : id_chars 22 s = true → is_id p (p +:+ s) = true.
Proof.
  unfold is_id, id_chars. intros Hs. rewrite prefix_of_app, substring_app, substring_long; [done|].
  clear Hs. induction p as [|c p IH]; [done|]. by apply Nat.le_le_succ_r.
Qed.
Lemma prefix_split p s : String.prefix p s = true → ∃ t, s = p +:+ t.
Proof.
  revert s. induction p as [|c p IH]; intros s; [by exists s|]. destruct s as [|c' s]; [done|]. cbn [String.prefix].
  destruct (ascii_dec c c') as [<-|]; [|done]. intros (t & ->)%IH. by exists t.
Qed.
Lemma is_id_split p s : is_id p s = true → ∃ b, s = p +:+ b ∧ id_chars 22 b = true.
Proof.
  unfold is_id. intros [Hp Hb]%andb_true_iff. destruct (prefix_split p s Hp) as (t & ->). exists t. split; [done|].
  rewrite substring_app, substring_long in Hb; [done|]. clear. induction p as [|c p IH]; [done|]. by apply Nat.le_le_succ_r.
Qed.
(** Authorization headers are read back. *)
Lemma substring_all t : String.substring 0 (String.length t) t = t.
Proof. induction t as [|c t IH]; simpl; [done|]. by rewrite IH. Qed.
Lemma bearer_roundtrip t v : formatNodeBearerAuthorization t = Some v → parseNodeBearerAuthorization v = Some t.
Proof.
  unfold formatNodeBearerAuthorization, parseNodeBearerAuthorization. destruct (credential_parts NODE t) as [?|] eqn:Ht; [|done].
  intros [= <-]. change (String.length ("Bearer " +:+ t) - 7)%nat with (String.length t - 0)%nat. rewrite Nat.sub_0_r.
  change (String.substring 7 (String.length t) ("Bearer " +:+ t)) with (String.substring 0 (String.length t) t).
  rewrite substring_all, Ht. by destruct t.
Qed.
Lemma verifier_roundtrip v : Forall is_byte v → exactVerifier v = true →
  ∃ s, encodeCredentialVerifier v = Some s ∧ decodeCredentialVerifier s = Some v.
Proof.
  intros Hv Hl. unfold encodeCredentialVerifier, decodeCredentialVerifier. rewrite Hl. eexists. split; [done|].
  destruct (b64_roundtrip v Hv) as [-> ->]. rewrite Hl, String.eqb_refl.
  replace (Nat.eqb (String.length (b64_encode v)) 44) with true; [done|]. symmetry. apply Nat.eqb_eq in Hl.
  do 33 (destruct v as [|? v]; [done|]). done.
Qed.
