(* ===== verification/ResidentControl.v ===== *)
(** * The control messages of a resident (packages/gateway-protocol/src/resident-control.ts)

    Enrollment and rotation travel as JSON bodies.  Each kind of message is an instance
    of [Message]: how it is written, how a received value is normalized, and that a
    well-formed message is read back as it was written. *)

From Stdlib Require Import Ascii.
From S2P Require Import Prelude Protocol Codec CodecFacts JsString JsText Credentials.
Local Open Scope string_scope.
Local Open Scope Z_scope.

Definition bodyBytes : Z := 4096.
Definition displayNameBytes : Z := 128.

Inductive ResidentControlErrorCode :=
  | invalid_request | unauthorized | expired | revoked | conflict | rate_limited | internal_error.
#[export] Instance ResidentControlErrorCode_eq_dec : EqDecision ResidentControlErrorCode.
Proof. solve_decision. Defined.
Definition control_error_name (c : ResidentControlErrorCode) : string :=
  match c with
  | invalid_request => "invalid_request"
  | unauthorized => "unauthorized"
  | expired => "expired"
  | revoked => "revoked"
  | conflict => "conflict"
  | rate_limited => "rate_limited"
  | internal_error => "internal_error"
  end.
Definition RESIDENT_CONTROL_ERROR_CODES : list ResidentControlErrorCode :=
  [invalid_request; unauthorized; expired; revoked; conflict; rate_limited; internal_error].
Definition control_error_of (s : string) : option ResidentControlErrorCode :=
  List.find (λ c, String.eqb (control_error_name c) s) RESIDENT_CONTROL_ERROR_CODES.

(** [RESIDENT_CONTROL_FORMATS] *)
Definition format_enrollmentRequest : string := "elpis-gateway-resident-enrollment-request-v1".
Definition format_enrollmentResult : string := "elpis-gateway-resident-enrollment-result-v1".
Definition format_rotationRequest : string := "elpis-gateway-resident-rotation-request-v1".
Definition format_rotationActivationRequest : string := "elpis-gateway-resident-rotation-activation-request-v1".
Definition format_rotationResult : string := "elpis-gateway-resident-rotation-result-v1".
Definition format_error : string := "elpis-gateway-resident-error-v1".

Record ResidentEnrollmentRequest := mkEnrollmentRequest {
  erq_grantToken : string;
  erq_instanceId : string;
  erq_displayName : string;
  erq_credentialId : string;
  erq_credentialVerifier : string;
  erq_requestId : string;
}.
Record ResidentEnrollmentResult := mkEnrollmentResult {
  ers_instanceId : string;
  ers_credentialId : string;
  ers_replayed : bool;
}.
Record ResidentRotationRequest := mkRotationRequest {
  rrq_credentialId : string;
  rrq_credentialVerifier : string;
  rrq_requestId : string;
}.
Record ResidentRotationActivationRequest := mkActivationRequest { arq_requestId : string }.
Record ResidentRotationResult := mkRotationResult {
  rrs_instanceId : string;
  rrs_credentialId : string;
  rrs_previousCredentialId : string;
  rrs_replayed : bool;
}.
Record ResidentControlError := mkControlError { cer_code : ResidentControlErrorCode; cer_requestId : option string }.

(** ** Values *)

(** [record] and [exact]: an object with exactly these keys. *)
Definition exact_record (v : json) (keys : list string) : option (list (string * json)) :=
  match v with
  | JObj fields => if bool_decide (ssort fields.*1 = ssort keys) then Some fields else None
  | _ => None
  end.
Definition checked (b : bool) : option () := if b then Some tt else None.
Definition text_value (P : string → bool) (v : json) : option string :=
  match v with JStr s => if P s then Some s else None | _ => None end.
Definition exactFormat (v : json) (expected : string) : option () :=
  match v with JStr s => checked (String.eqb s expected) | _ => None end.
Definition instanceId (v : json) : option string := text_value isGatewayInstanceId v.
Definition credentialId (v : json) : option string := text_value isCredentialId v.
Definition requestId (v : json) : option string := text_value (is_id REQUEST_PREFIX) v.
Definition booleanValue (v : json) : option bool := match v with JBool b => Some b | _ => None end.

(** [/\p{Cc}/u] *)
Definition is_cc (u : Z) : bool := (u <=? 31) || (127 <=? u) && (u <=? 159).
(** The code units of a string given by its UTF-8 bytes, and back. *)
Definition units (s : string) : jstring := utf8_decode (lit s).
Definition text_of (u : jstring) : string := string_of_bytes (utf8_encode u).
Definition displayName (v : json) : option string :=
  match v with
  | JStr s =>
      let trimmed := trim (units s) in
      if Nat.eqb (length trimmed) 0 || existsb is_cc trimmed || (displayNameBytes <? Z.of_nat (byteLength trimmed))
         || negb (bool_decide (utf8_decode (utf8_encode trimmed) = trimmed))
      then None else Some (text_of trimmed)
  | _ => None
  end.
Definition verifierString (v : json) : option string :=
  text_value (λ s, bool_decide (is_Some (decodeCredentialVerifier s))) v.
Definition enrollmentToken (v : json) : option string :=
  text_value (λ s, bool_decide (is_Some (credential_parts ENROLLMENT s))) v.

(** [length] of SQL: characters, that is bytes that do not continue one. *)
Fixpoint sql_length (s : string) : Z :=
  match s with
  | "" => 0
  | String c s => (if ascii_in 128 191 c then 0 else 1) + sql_length s
  end.
Definition between (lo hi : Z) (s : string) : bool := (lo <=? sql_length s) && (sql_length s <=? hi).

(** ** Messages *)

Class Message (A : Type) := {
  message_json : A → json;
  normalize : json → option A;
  well_formed : A → Prop;
  normalize_written : ∀ a, well_formed a → normalize (message_json a) = Some a;
  written_plain : ∀ a, json_copy (message_json a) = message_json a;
  written_fits : ∀ a, well_formed a → bytes (JSON_stringify (message_json a)) ≤ bodyBytes;
}.

(** A body as received: its text and what [JSON.parse] makes of it, [None] when it is
    not UTF-8 or no JSON. *)
Record body := mkBody { b_text : string; b_parsed : option json }.
(** The body of a value that was written. *)
Definition wire (v : json) : body := mkBody (JSON_stringify v) (Some (json_copy v)).

(** [decodeResident...]; [None] is the [ResidentControlCodecError]. *)
Definition decode_message {A} `{Message A} (b : body) : option A :=
  if bytes (b_text b) <=? bodyBytes then b_parsed b ≫= normalize else None.
(** [serializeResident...] *)
Definition serialize_message {A} `{Message A} (v : json) : option body :=
  a ← normalize (A := A) v;
  let out := wire (message_json a) in
  if bytes (b_text out) <=? bodyBytes then Some out else None.

Definition normalizeEnrollmentRequest (v : json) : option ResidentEnrollmentRequest :=
  input ← exact_record v ["format"; "grantToken"; "instanceId"; "displayName"; "credentialId"; "credentialVerifier"; "requestId"];
  exactFormat (prop input "format") format_enrollmentRequest;;
  grant ← enrollmentToken (prop input "grantToken");
  instance ← instanceId (prop input "instanceId");
  name ← displayName (prop input "displayName");
  credential ← credentialId (prop input "credentialId");
  verifier ← verifierString (prop input "credentialVerifier");
  request ← requestId (prop input "requestId");
  mret (mkEnrollmentRequest grant instance name credential verifier request).
Definition normalizeEnrollmentResult (v : json) : option ResidentEnrollmentResult :=
  input ← exact_record v ["format"; "instanceId"; "credentialId"; "replayed"];
  exactFormat (prop input "format") format_enrollmentResult;;
  instance ← instanceId (prop input "instanceId");
  credential ← credentialId (prop input "credentialId");
  replayed ← booleanValue (prop input "replayed");
  mret (mkEnrollmentResult instance credential replayed).
Definition normalizeRotationRequest (v : json) : option ResidentRotationRequest :=
  input ← exact_record v ["format"; "credentialId"; "credentialVerifier"; "requestId"];
  exactFormat (prop input "format") format_rotationRequest;;
  credential ← credentialId (prop input "credentialId");
  verifier ← verifierString (prop input "credentialVerifier");
  request ← requestId (prop input "requestId");
  mret (mkRotationRequest credential verifier request).
Definition normalizeRotationActivationRequest (v : json) : option ResidentRotationActivationRequest :=
  input ← exact_record v ["format"; "requestId"];
  exactFormat (prop input "format") format_rotationActivationRequest;;
  request ← requestId (prop input "requestId");
  mret (mkActivationRequest request).
Definition normalizeRotationResult (v : json) : option ResidentRotationResult :=
  input ← exact_record v ["format"; "instanceId"; "credentialId"; "previousCredentialId"; "replayed"];
  exactFormat (prop input "format") format_rotationResult;;
  instance ← instanceId (prop input "instanceId");
  credential ← credentialId (prop input "credentialId");
  previous ← credentialId (prop input "previousCredentialId");
  replayed ← booleanValue (prop input "replayed");
  mret (mkRotationResult instance credential previous replayed).
Definition normalizeError (v : json) : option ResidentControlError :=
  match v with
  | JObj fields =>
      let has := bool_decide (is_Some (field fields "requestId")) in
      input ← exact_record v (if has then ["format"; "code"; "requestId"] else ["format"; "code"]);
      exactFormat (prop input "format") format_error;;
      code ← match prop input "code" with JStr s => control_error_of s | _ => None end;
      if has then (request ← requestId (prop input "requestId"); mret (mkControlError code (Some request)))
      else mret (mkControlError code None)
  | _ => None
  end.

(** As they are written. *)
Definition enrollmentRequest_json (m : ResidentEnrollmentRequest) : json :=
  JObj [("format", JStr format_enrollmentRequest); ("grantToken", JStr (erq_grantToken m));
        ("instanceId", JStr (erq_instanceId m)); ("displayName", JStr (erq_displayName m));
        ("credentialId", JStr (erq_credentialId m)); ("credentialVerifier", JStr (erq_credentialVerifier m));
        ("requestId", JStr (erq_requestId m))].
Definition enrollmentResult_json (m : ResidentEnrollmentResult) : json :=
  JObj [("format", JStr format_enrollmentResult); ("instanceId", JStr (ers_instanceId m));
        ("credentialId", JStr (ers_credentialId m)); ("replayed", JBool (ers_replayed m))].
Definition rotationRequest_json (m : ResidentRotationRequest) : json :=
  JObj [("format", JStr format_rotationRequest); ("credentialId", JStr (rrq_credentialId m));
        ("credentialVerifier", JStr (rrq_credentialVerifier m)); ("requestId", JStr (rrq_requestId m))].
Definition activationRequest_json (m : ResidentRotationActivationRequest) : json :=
  JObj [("format", JStr format_rotationActivationRequest); ("requestId", JStr (arq_requestId m))].
Definition rotationResult_json (m : ResidentRotationResult) : json :=
  JObj [("format", JStr format_rotationResult); ("instanceId", JStr (rrs_instanceId m));
        ("credentialId", JStr (rrs_credentialId m)); ("previousCredentialId", JStr (rrs_previousCredentialId m));
        ("replayed", JBool (rrs_replayed m))].
Definition controlError_json (m : ResidentControlError) : json :=
  JObj ([("format", JStr format_error); ("code", JStr (control_error_name (cer_code m)))]
        ++ match cer_requestId m with Some r => [("requestId", JStr r)] | None => [] end)%list.

(** ** They are read back *)

Definition wf_token (prefix s : string) : Prop := is_Some (credential_parts prefix s).
Definition wf_verifier (s : string) : Prop := is_Some (decodeCredentialVerifier s).
Definition wf_name (s : string) : Prop := displayName (JStr s) = Some s.
Definition wf_request (s : string) : Prop := is_id REQUEST_PREFIX s = true.

Lemma text_value_ok P s : P s = true → text_value P (JStr s) = Some s.
Proof. simpl. by intros ->. Qed.
Lemma enrollmentToken_ok s : wf_token ENROLLMENT s → enrollmentToken (JStr s) = Some s.
Proof. intros H. by apply text_value_ok, bool_decide_eq_true. Qed.
Lemma verifierString_ok s : wf_verifier s → verifierString (JStr s) = Some s.
Proof. intros H. by apply text_value_ok, bool_decide_eq_true. Qed.

(** Sizes. *)
Lemma length_string_of_bytes l : String.length (string_of_bytes l) = length l.
Proof. induction l as [|b l IH]; simpl; [done|]. by rewrite IH. Qed.
Lemma size_id n s : id_chars n s = true → String.length s = n.
Proof. unfold id_chars. intros [H%Nat.eqb_eq _]%andb_true_iff. done. Qed.
Lemma size_token prefix s : wf_token prefix s → (String.length s = String.length prefix + 67)%nat.
Proof.
  intros [[i x] (-> & Hi%size_id & Hx%size_id)%parts_spec]. rewrite !length_append, Hi, Hx. simpl. lia.
Qed.
Lemma size_verifier s : wf_verifier s → String.length s = 44%nat.
Proof.
  intros [v Hv]. unfold decodeCredentialVerifier in Hv. destruct (Nat.eqb_spec (String.length s) 44); [done|].
  by destruct (is_b64 s).
Qed.
Lemma size_name s : wf_name s → (String.length s ≤ 128)%nat.
Proof.
  unfold wf_name, displayName. case_match eqn:H; [done|]. intros [= Hs]. rewrite <-Hs. unfold text_of.
  rewrite length_string_of_bytes. apply orb_false_iff in H as [[_ H%Z.ltb_ge]%orb_false_iff _].
  unfold displayNameBytes, byteLength in *. lia.
Qed.
Lemma size_request s : wf_request s → (String.length s ≤ 27)%nat.
Proof. apply (length_id REQUEST_PREFIX). Qed.
Lemma size_instance s : isGatewayInstanceId s = true → (String.length s ≤ 27)%nat.
Proof. apply (length_id INSTANCE_PREFIX). Qed.
Lemma size_error c : (String.length (control_error_name c) ≤ 15)%nat.
Proof. by destruct c; vm_compute; lia. Qed.
(** The text of an object of short strings is short. *)
Definition value_size (v : json) : nat :=
  match v with JStr s => 6 * String.length s + 2 | _ => 5 end.
Definition flat (v : json) : Prop := match v with JStr _ | JBool _ => True | _ => False end.
Lemma size_value v : flat v → (String.length (JSON_stringify v) ≤ value_size v)%nat.
Proof. destruct v as [|[]| |s| |]; simpl; try done; intros _; [lia..|]. apply length_quote. Qed.
Fixpoint fields_size (fs : list (string * json)) : nat :=
  match fs with [] => 2 | (k, v) :: fs => 6 * String.length k + value_size v + 4 + fields_size fs end.
Lemma size_concat l : (String.length (String.concat "," l) ≤ foldr (λ s n, String.length s + 1 + n) 0 l)%nat.
Proof.
  induction l as [|s [|s' l] IH]; [simpl; lia..|].
  change (String.concat "," (s :: s' :: l)) with (s +:+ "," +:+ String.concat "," (s' :: l)).
  rewrite !length_append. cbn [foldr] in *. change (String.length ",") with 1%nat. lia.
Qed.
Lemma size_object fs : Forall (λ f, flat f.2) fs → bytes (JSON_stringify (JObj fs)) ≤ Z.of_nat (fields_size fs).
Proof.
  intros Hf. unfold bytes. simpl. rewrite !length_append. simpl.
  pose proof (size_concat (map (λ '(k, v), quote k +:+ ":" +:+ JSON_stringify v) fs)) as Hc.
  enough (foldr (λ s n, String.length s + 1 + n) 0 (map (λ '(k, v), quote k +:+ ":" +:+ JSON_stringify v) fs) + 2
          ≤ fields_size fs)%nat by lia.
  clear Hc. induction Hf as [|[k v] fs Hv _ IH]; [done|]. cbn [foldr map fields_size]. rewrite !length_append.
  change (String.length ":") with 1%nat. pose proof (length_quote k). pose proof (size_value v Hv). simpl snd in *. lia.
Qed.
Ltac sized :=
  eapply Z.le_trans; [apply size_object; repeat constructor|]; simpl;
  repeat match goal with
  | H : wf_token _ _ |- _ => apply size_token in H; simpl in H
  | H : wf_verifier _ |- _ => apply size_verifier in H
  | H : wf_name _ |- _ => apply size_name in H
  | H : wf_request _ |- _ => apply size_request in H
  | H : isGatewayInstanceId _ = true |- _ => apply size_instance in H
  | H : isCredentialId _ = true |- _ => apply size_id in H
  end; unfold bodyBytes; lia.

Lemma some_bind {A B} (m : option A) (k : A → option B) a r : m = Some a → k a = r → m ≫= k = r.
Proof. by intros ->. Qed.
Ltac read_back :=
  repeat (eapply some_bind;
    [first [ reflexivity | by apply enrollmentToken_ok | by apply verifierString_ok | by apply text_value_ok | eassumption ]|]);
  reflexivity.

Definition wf_enrollmentRequest (m : ResidentEnrollmentRequest) : Prop :=
  wf_token ENROLLMENT (erq_grantToken m) ∧ isGatewayInstanceId (erq_instanceId m) = true ∧ wf_name (erq_displayName m)
  ∧ isCredentialId (erq_credentialId m) = true ∧ wf_verifier (erq_credentialVerifier m) ∧ wf_request (erq_requestId m).
#[export, refine] Instance enrollmentRequest_message : Message ResidentEnrollmentRequest := {|
  message_json := enrollmentRequest_json;
  normalize := normalizeEnrollmentRequest;
  well_formed := wf_enrollmentRequest;
|}.
Proof.
  - intros [g i n c v r] (Hg & Hi & Hn & Hc & Hv & Hr). simpl in *. read_back.
  - done.
  - intros [g i n c v r] (Hg & Hi & Hn & Hc & Hv & Hr). simpl in *|-. sized.
Defined.
Definition wf_enrollmentResult (m : ResidentEnrollmentResult) : Prop :=
  isGatewayInstanceId (ers_instanceId m) = true ∧ isCredentialId (ers_credentialId m) = true.
#[export, refine] Instance enrollmentResult_message : Message ResidentEnrollmentResult := {|
  message_json := enrollmentResult_json;
  normalize := normalizeEnrollmentResult;
  well_formed := wf_enrollmentResult;
|}.
Proof.
  - intros [i c r] (Hi & Hc). simpl in *. read_back.
  - done.
  - intros [i c r] (Hi & Hc). simpl in *|-. sized.
Defined.
Definition wf_rotationRequest (m : ResidentRotationRequest) : Prop :=
  isCredentialId (rrq_credentialId m) = true ∧ wf_verifier (rrq_credentialVerifier m) ∧ wf_request (rrq_requestId m).
#[export, refine] Instance rotationRequest_message : Message ResidentRotationRequest := {|
  message_json := rotationRequest_json;
  normalize := normalizeRotationRequest;
  well_formed := wf_rotationRequest;
|}.
Proof.
  - intros [c v r] (Hc & Hv & Hr). simpl in *. read_back.
  - done.
  - intros [c v r] (Hc & Hv & Hr). simpl in *|-. sized.
Defined.
#[export, refine] Instance activationRequest_message : Message ResidentRotationActivationRequest := {|
  message_json := activationRequest_json;
  normalize := normalizeRotationActivationRequest;
  well_formed := λ m, wf_request (arq_requestId m);
|}.
Proof.
  - intros [r] Hr. simpl in *. read_back.
  - done.
  - intros [r] Hr. simpl in *|-. sized.
Defined.
Definition wf_rotationResult (m : ResidentRotationResult) : Prop :=
  isGatewayInstanceId (rrs_instanceId m) = true ∧ isCredentialId (rrs_credentialId m) = true
  ∧ isCredentialId (rrs_previousCredentialId m) = true.
#[export, refine] Instance rotationResult_message : Message ResidentRotationResult := {|
  message_json := rotationResult_json;
  normalize := normalizeRotationResult;
  well_formed := wf_rotationResult;
|}.
Proof.
  - intros [i c p r] (Hi & Hc & Hp). simpl in *. read_back.
  - done.
  - intros [i c p r] (Hi & Hc & Hp). simpl in *|-. sized.
Defined.
#[export, refine] Instance controlError_message : Message ResidentControlError := {|
  message_json := controlError_json;
  normalize := normalizeError;
  well_formed := λ m, match cer_requestId m with Some r => wf_request r | None => True end;
|}.
Proof.
  - intros [c [r|]]; simpl; intros Hr.
    + unfold normalizeError, controlError_json. simpl app. cbv iota.
      destruct c; read_back.
    + by destruct c.
  - by intros [c [r|]].
  - intros [c [r|]] Hr; simpl in *|-; pose proof (size_error c); sized.
Defined.

(** Every well-formed message is written as it is and read back. *)
Definition reads_back {A} `{Message A} (m : A) : Prop :=
  serialize_message (A := A) (message_json m) = Some (wire (message_json m))
  ∧ decode_message (wire (message_json m)) = Some m.
Lemma message_reads_back {A} `{Message A} (m : A) : well_formed m → reads_back m.
Proof.
  intros Hm. unfold reads_back, serialize_message, decode_message. rewrite (normalize_written m Hm). simpl.
  rewrite (proj2 (Z.leb_le _ _) (written_fits m Hm)). split; [done|]. simpl. by rewrite written_plain, normalize_written.
Qed.

