(* ===== verification/TextFacts.v ===== *)
(** * Text in the databases

    How many characters SQLite counts in the text of a JavaScript string. *)

From Stdlib Require Import Ascii.
From S2P Require Import Prelude Protocol Codec JsString JsText Credentials ResidentControl.
Local Open Scope string_scope.
Local Open Scope Z_scope.
#[local] Ltac Zify.zify_post_hook ::= Z.to_euclidean_division_equations.

Definition is_unit (u : Z) : Prop := 0 ≤ u < 65536.

(** ** Decoding yields code units *)

Lemma lit_bytes s : Forall is_byte (lit s).
Proof.
  induction s as [|c s IH]; simpl; constructor; [|done]. unfold is_byte. pose proof (N_ascii_bounded c). lia.
Qed.
(** What a started sequence may have read. *)
Definition partial (need : nat) (c : Z) : Prop :=
  match need with O => True | 1%nat => 0 ≤ c < 20480 | 2%nat => 0 ≤ c < 320 | 3%nat => 0 ≤ c < 5 | _ => False end.
Lemma lead_partial b n c lo hi :
  utf8_lead b = Some (n, c, lo, hi) → partial n c ∧ 128 ≤ lo ∧ hi ≤ 191.
Proof.
  unfold utf8_lead. repeat (case_match; [intros [= <- <- <- <-]; guards; simpl; lia|]). done.
Qed.
Lemma units_of_point c : 0 ≤ c < 1310720 → Forall is_unit (utf16_units c).
Proof.
  intros Hc. unfold utf16_units, is_unit. destruct (Z.ltb_spec c 0x10000); repeat constructor; lia.
Qed.
Lemma scan_units l : ∀ need c lo hi,
  Forall is_byte l → partial need c → 128 ≤ lo → hi ≤ 191 → Forall is_unit (utf8_scan need c lo hi l).
Proof.
  assert (is_unit 0xFFFD) as Hr by (unfold is_unit; lia).
  induction l as [|b l IH]; intros need c lo hi Hl Hp Hlo Hhi; simpl; [destruct need; by repeat constructor|].
  apply Forall_cons in Hl as [Hb Hl].
  assert (Forall is_unit (if b <? 0x80 then b :: utf8_scan 0 0 0x80 0xBF l
        else match utf8_lead b with Some (n, c, lo, hi) => utf8_scan n c lo hi l | None => 0xFFFD :: utf8_scan 0 0 0x80 0xBF l end))
    as Hstart.
  { destruct (Z.ltb_spec b 0x80); [constructor; [unfold is_unit, is_byte in *; lia|by apply IH]|].
    destruct (utf8_lead b) as [[[[n c'] lo'] hi']|] eqn:Hlead; [|constructor; [done|by apply IH]].
    apply lead_partial in Hlead as (? & ? & ?). by apply IH. }
  destruct need as [|need]; [done|]. destruct ((lo <=? b) && (b <=? hi)) eqn:Hin; [|by constructor].
  guards. destruct need as [|[|[|need]]]; simpl in Hp; try done.
  - apply Forall_app. split; [apply units_of_point; lia|by apply IH].
  - apply IH; try done. simpl. lia.
  - apply IH; try done. simpl. lia.
Qed.
Lemma units_ok s : Forall is_unit (units s).
Proof. apply scan_units; [apply lit_bytes|done|lia..]. Qed.
Lemma trimStart_units u : Forall is_unit u → Forall is_unit (trimStart u).
Proof. induction 1 as [|x u Hx Hu IH]; simpl; [done|]. destruct (is_space x); [done|by constructor]. Qed.
Lemma trim_units u : Forall is_unit u → Forall is_unit (trim u).
Proof. intros Hu. unfold trim. apply Forall_rev, trimStart_units, Forall_rev, trimStart_units, Hu. Qed.

(** ** Characters *)

Definition continues (b : Z) : bool := (128 <=? b) && (b <=? 191).
Fixpoint characters (l : list Z) : Z :=
  match l with [] => 0 | b :: l => (if continues b then 0 else 1) + characters l end.
Lemma characters_app l k : characters (l ++ k)%list = characters l + characters k.
Proof. induction l as [|b l IH]; simpl; [done|]. rewrite IH. lia. Qed.
Lemma sql_length_bytes l : Forall is_byte l → sql_length (string_of_bytes l) = characters l.
Proof.
  induction 1 as [|b l Hb _ IH]; simpl; [done|]. rewrite IH. unfold ascii_in, continues, char_of.
  rewrite N_ascii_embedding by (unfold is_byte in Hb; lia). rewrite Z2N.id by (unfold is_byte in Hb; lia). done.
Qed.
Lemma point_bytes c : 0 ≤ c < 1114112 → Forall is_byte (utf8_bytes c) ∧ characters (utf8_bytes c) = 1.
Proof.
  intros Hc. unfold utf8_bytes, is_byte, continues.
  assert (∀ x, continues (0x80 + x mod 64) = true) as Hcont.
  { intros x. unfold continues. apply andb_true_iff. rewrite !Z.leb_le. lia. }
  assert (∀ b, 0 ≤ b < 128 ∨ 192 ≤ b → continues b = false) as Hlead.
  { intros b Hb. unfold continues. apply andb_false_iff. rewrite !Z.leb_gt. lia. }
  destruct (Z.ltb_spec c 0x80); [|destruct (Z.ltb_spec c 0x800); [|destruct (Z.ltb_spec c 0x10000)]];
    cbn [characters]; rewrite ?Hcont, Hlead by lia; (split; [repeat constructor; lia|lia]).
Qed.
Lemma encode_text u :
  Forall is_unit u →
  Forall is_byte (utf8_encode u) ∧ characters (utf8_encode u) ≤ Z.of_nat (length u)
  ∧ (u ≠ [] → 1 ≤ characters (utf8_encode u)).
Proof.
  assert (∀ l, 0 ≤ characters l) as Hpos by (induction l as [|b l IH]; simpl; [lia|destruct (continues b); lia]).
  induction u as [u IH] using (induction_ltof1 _ length). unfold ltof in IH. intros Hu.
  destruct u as [|x u]; [done|]. apply Forall_cons in Hu as [Hx Hu].
  assert (∀ c v, 0 ≤ c < 1114112 → (length v ≤ length u)%nat → Forall is_unit v →
    Forall is_byte (utf8_bytes c ++ utf8_encode v)%list ∧ characters (utf8_bytes c ++ utf8_encode v)%list ≤ Z.of_nat (length (x :: u))
    ∧ (x :: u ≠ [] → 1 ≤ characters (utf8_bytes c ++ utf8_encode v)%list)) as Hstep.
  { intros c v Hc Hv Hvu. destruct (point_bytes c Hc) as [Hb H1]. destruct (IH v) as (Hb' & Hle & _); [simpl; lia|done|].
    rewrite characters_app, H1. split_and!; [by apply Forall_app|simpl length; lia|]. pose proof (Hpos (utf8_encode v)). lia. }
  cbn [utf8_encode]. unfold is_high, is_low, is_unit in *.
  destruct ((0xD800 <=? x) && (x <? 0xDC00)) eqn:Hh.
  - destruct u as [|y u].
    + rewrite <-(app_nil_r (utf8_bytes 0xFFFD)). apply (Hstep 0xFFFD []); [lia|done|done].
    + apply Forall_cons in Hu as [Hy Hu]. destruct ((0xDC00 <=? y) && (y <? 0xE000)) eqn:Hlow.
      * guards. apply Z.ltb_lt in H0, H2. apply Hstep; [lia|simpl; lia|done].
      * apply (Hstep 0xFFFD (y :: u)); [lia|done|by constructor].
  - destruct ((0xDC00 <=? x) && (x <? 0xE000)); apply Hstep; try done; lia.
Qed.
(** A text has at least one character, and at most as many as it has code units. *)
Lemma sql_length_text u :
  Forall is_unit u → u ≠ [] → 1 ≤ sql_length (text_of u) ≤ Z.of_nat (length u).
Proof.
  intros Hu Hne. destruct (encode_text u Hu) as (Hb & Hle & H1). unfold text_of. rewrite sql_length_bytes by done. auto.
Qed.
Lemma lit_text u : Forall is_unit u → lit (text_of u) = utf8_encode u.
Proof.
  intros Hu. destruct (encode_text u Hu) as (Hb & _). unfold text_of. induction Hb as [|b l Hb _ IH]; simpl; [done|].
  rewrite IH. f_equal. unfold char_of. rewrite N_ascii_embedding by (unfold is_byte in Hb; lia). unfold is_byte in Hb. lia.
Qed.
Lemma sql_length_le s : sql_length s ≤ bytes s.
Proof. unfold bytes. induction s as [|c s IH]; simpl; [lia|]. destruct (ascii_in 128 191 c); lia. Qed.
Lemma sql_length_ascii s : all_chars (ascii_in 33 126) s = true → sql_length s = bytes s.
Proof.
  unfold bytes. induction s as [|c s IH]; [done|]. cbn [all_chars sql_length String.length]. intros [Hc Hs]%andb_true_iff.
  rewrite IH by done. unfold ascii_in in *. guards. destruct (128 <=? _) eqn:H1; simpl; [|lia]. guards. lia.
Qed.
