(* ===== verification/ResidentStore.v ===== *)
(** * What a resident remembers of its Gateway (src/store/gateway-resident.ts)

    One row of the Mind database: the identity of the resident, the endpoint it is bound
    to, and its credentials through enrollment and rotation.  Every operation reads and
    checks the row, then updates it in a transaction that checks again.

    The clock, the random source and the URL parser are parameters of the operations.
    [commits] says whether the database carries the transaction out, and [others] is
    what other processes do to the row between the read and the transaction.  The CHECK
    constraints and triggers of the table (src/store/db.ts, migrations 0025 and 0026)
    are part of the update. *)

From S2P Require Import Prelude Effects Protocol Codec CodecFacts JsString JsText Credentials ResidentControl.
Local Open Scope string_scope.
Local Open Scope Z_scope.

Inductive GatewayResidentPhase := phase_idle | enrolling | active | rotating.
#[export] Instance GatewayResidentPhase_eq_dec : EqDecision GatewayResidentPhase.
Proof. solve_decision. Defined.
Inductive GatewayResidentErrorCode := invalid_input | invalid_state | state_conflict | corrupt_state.
(** What an operation throws: a [GatewayResidentStateError], the error of the control
    codec, or an error of SQLite. *)
Inductive resident_exn := StateError (code : GatewayResidentErrorCode) | ControlCodecError | DatabaseError.

Record Row := mkRow {
  instance_id : string;
  phase : GatewayResidentPhase;
  endpoint : option string;
  display_name : option string;
  enrollment_grant : option string;
  request_id : option string;
  active_credential_id : option string;
  active_credential_token : option string;
  pending_credential_id : option string;
  pending_credential_token : option string;
  created_at : Z;
  updated_at : Z;
  enrollment_started_at : option Z;
  activated_at : option Z;
  rotation_started_at : option Z;
  rotation_proposed_at : option Z;
}.
Record GatewayResidentSnapshot := mkSnapshot {
  s_instanceId : string;
  s_phase : GatewayResidentPhase;
  s_endpoint : option string;
  s_displayName : option string;
  s_requestId : option string;
  s_activeCredentialId : option string;
  s_pendingCredentialId : option string;
  s_createdAt : Z;
  s_updatedAt : Z;
  s_enrollmentStartedAt : option Z;
  s_activatedAt : option Z;
  s_rotationStartedAt : option Z;
  s_rotationProposedAt : option Z;
}.
Record BeginGatewayEnrollment := mkBegin { i_endpoint : string; i_grantToken : string; i_displayName : string }.
Record GatewayResidentTransitionReceipt := mkReceipt {
  t_instanceId : string;
  t_credentialId : string;
  t_previousCredentialId : option string;
}.

(** ** Checks *)

Definition is_null {A} (o : option A) : bool := match o with None => true | Some _ => false end.
Definition not_null {A} (o : option A) : bool := negb (is_null o).
(** [row.x !== null && !P(row.x)] is false. *)
Definition null_or {A} (P : A → bool) (o : option A) : bool := match o with None => true | Some a => P a end.

Definition validDisplayName (s : string) : bool :=
  let u := units s in
  bool_decide (trim u = u) && negb (Nat.eqb (length u) 0) && negb (existsb is_cc u)
  && (Z.of_nat (byteLength u) <=? 128) && bool_decide (utf8_decode (utf8_encode u) = u)
  (* that [s] is the UTF-8 text of a string, as every string is *)
  && String.eqb (text_of u) s.
Definition validTime (t : Z) : bool := (Z.abs t <=? MAX_SAFE_INTEGER) && (0 <=? t).
(** [timestamp(now)]; [None] is a number that is no integer. *)
Definition timestamp (now : option Z) : option Z :=
  match now with Some t => if validTime t then Some t else None | None => None end.
Definition since (start t : Z) : bool := validTime t && (start <=? t).
(** [credentialToken] does not fail. *)
Definition credentialToken (id token : option string) : bool :=
  match id, token with
  | None, None => true
  | Some i, Some t => match credential_parts NODE t with Some (i', _) => String.eqb i' i | None => false end
  | _, _ => false
  end.

Section store.
(** The [URL] parser of the platform says that the text is an https origin. *)
Context (is_origin : string → bool).
(** SHA-256. *)
Context (digest : string → list Z).

Definition validEndpoint (s : string) : bool := (1 <=? bytes s) && (bytes s <=? 2048) && is_origin s.

(** The columns that are set in each phase. *)
Definition shape (r : Row) : bool :=
  match phase r with
  | phase_idle =>
      is_null (endpoint r) && is_null (display_name r) && is_null (enrollment_grant r) && is_null (request_id r)
      && is_null (active_credential_id r) && is_null (active_credential_token r)
      && is_null (pending_credential_id r) && is_null (pending_credential_token r)
      && is_null (enrollment_started_at r) && is_null (activated_at r) && is_null (rotation_started_at r)
  | enrolling =>
      not_null (endpoint r) && not_null (display_name r) && not_null (enrollment_grant r) && not_null (request_id r)
      && is_null (active_credential_id r) && is_null (active_credential_token r)
      && not_null (pending_credential_id r) && not_null (pending_credential_token r)
      && not_null (enrollment_started_at r) && is_null (activated_at r) && is_null (rotation_started_at r)
  | active =>
      not_null (endpoint r) && not_null (display_name r) && is_null (enrollment_grant r) && is_null (request_id r)
      && not_null (active_credential_id r) && not_null (active_credential_token r)
      && is_null (pending_credential_id r) && is_null (pending_credential_token r)
      && not_null (enrollment_started_at r) && not_null (activated_at r) && is_null (rotation_started_at r)
  | rotating =>
      not_null (endpoint r) && not_null (display_name r) && is_null (enrollment_grant r) && not_null (request_id r)
      && not_null (active_credential_id r) && not_null (active_credential_token r)
      && not_null (pending_credential_id r) && not_null (pending_credential_token r)
      && negb (bool_decide (active_credential_id r = pending_credential_id r))
      && not_null (enrollment_started_at r) && not_null (activated_at r) && not_null (rotation_started_at r)
  end.
(** [assertRow] does not fail. *)
Definition assertRow (r : Row) : bool :=
  isGatewayInstanceId (instance_id r)
  && null_or validEndpoint (endpoint r) && null_or validDisplayName (display_name r)
  && null_or (λ t, bool_decide (is_Some (credential_parts ENROLLMENT t))) (enrollment_grant r)
  && null_or (is_id REQUEST_PREFIX) (request_id r)
  && validTime (created_at r) && validTime (updated_at r) && (created_at r <=? updated_at r)
  && null_or (since (created_at r)) (enrollment_started_at r)
  && null_or (since (created_at r)) (activated_at r)
  && null_or (since (created_at r)) (rotation_started_at r)
  && null_or (λ t, match rotation_started_at r with
                   | Some s => since s t && (t <=? updated_at r)
                   | None => false
                   end) (rotation_proposed_at r)
  && credentialToken (active_credential_id r) (active_credential_token r)
  && credentialToken (pending_credential_id r) (pending_credential_token r)
  && shape r && (bool_decide (phase r = rotating) || is_null (rotation_proposed_at r)).

Definition publicSnapshot (r : Row) : GatewayResidentSnapshot :=
  mkSnapshot (instance_id r) (phase r) (endpoint r) (display_name r) (request_id r) (active_credential_id r)
    (pending_credential_id r) (created_at r) (updated_at r) (enrollment_started_at r) (activated_at r)
    (rotation_started_at r) (rotation_proposed_at r).

(** ** The table *)

(** The CHECK constraints. *)
Definition constraints (r : Row) : bool :=
  is_id INSTANCE_PREFIX (instance_id r)
  && null_or (between 1 2048) (endpoint r) && null_or (between 1 128) (display_name r)
  && null_or (λ t, bool_decide (is_Some (credential_parts ENROLLMENT t))) (enrollment_grant r)
  && null_or (is_id REQUEST_PREFIX) (request_id r)
  && null_or (id_chars 22) (active_credential_id r) && null_or (id_chars 22) (pending_credential_id r)
  && (0 <=? created_at r) && (created_at r <=? updated_at r)
  && null_or (Z.leb (created_at r)) (enrollment_started_at r) && null_or (Z.leb (created_at r)) (activated_at r)
  && null_or (Z.leb (created_at r)) (rotation_started_at r)
  && null_or (λ t, match credential_parts NODE t with
                   | Some (i, _) => bool_decide (active_credential_id r = Some i)
                   | None => false
                   end) (active_credential_token r)
  && null_or (λ t, match credential_parts NODE t with
                   | Some (i, _) => bool_decide (pending_credential_id r = Some i)
                   | None => false
                   end) (pending_credential_token r)
  && shape r
  && null_or (λ t, bool_decide (phase r = rotating)
                   && match rotation_started_at r with Some s => s <=? t | None => false end
                   && (t <=? updated_at r)) (rotation_proposed_at r).

Inductive column :=
  | c_phase | c_endpoint | c_display_name | c_enrollment_grant | c_request_id | c_active_id | c_active_token
  | c_pending_id | c_pending_token | c_updated_at | c_enrollment_started_at | c_activated_at
  | c_rotation_started_at | c_rotation_proposed_at.
#[export] Instance column_eq_dec : EqDecision column.
Proof. solve_decision. Defined.
Definition sets (cols : list column) (c : column) : bool := bool_decide (c ∈ cols).
(** [new != old] in SQL: not true of NULL. *)
Definition differs (new old : option string) : bool :=
  match new, old with Some n, Some o => negb (String.eqb n o) | _, _ => false end.
Definition earlier (new old : option Z) : bool :=
  match old, new with Some o, Some n => n <? o | _, _ => false end.
(** The triggers let the update of the columns [cols] pass. *)
Definition triggers (cols : list column) (old new : Row) : bool :=
  (* binding_no_update *)
  negb ((sets cols c_endpoint || sets cols c_display_name) && not_null (endpoint old)
        && (differs (endpoint new) (endpoint old) || differs (display_name new) (display_name old)))
  (* candidate_no_rewrite *)
  && negb (existsb (sets cols) [c_enrollment_grant; c_request_id; c_active_id; c_active_token; c_pending_id; c_pending_token]
           && bool_decide (phase new = phase old))
  (* timestamp_guard *)
  && negb ((updated_at new <? updated_at old) || earlier (enrollment_started_at new) (enrollment_started_at old)
           || earlier (activated_at new) (activated_at old))
  (* transition_guard *)
  && (negb (sets cols c_phase) || bool_decide (phase new = phase old)
      || bool_decide ((phase old, phase new) ∈ [(phase_idle, enrolling); (enrolling, active); (active, rotating); (rotating, active)]))
  (* rotation_proposal_guard *)
  && (negb (sets cols c_rotation_proposed_at)
      || match phase old, phase new with
         | active, rotating => is_null (rotation_proposed_at new)
         | rotating, rotating => is_null (rotation_proposed_at old) && not_null (rotation_proposed_at new)
         | rotating, active => is_null (rotation_proposed_at new)
         | _, _ => false
         end).

(** ** Operations *)

Abbreviation db := (option Row).
Abbreviation M := (eff db resident_exn).
Definition failing {A} (c : GatewayResidentErrorCode) : M A := throw (StateError c).
Definition expect {A} (o : option A) (c : GatewayResidentErrorCode) : M A :=
  match o with Some a => mret a | None => failing c end.

(** [this.row()] *)
Definition row : M Row :=
  d ← get;
  match d with
  | Some r => if assertRow r then mret r else failing corrupt_state
  | None => failing corrupt_state
  end.
Definition read : M GatewayResidentSnapshot := r ← row; mret (publicSnapshot r).

(** The constructor: the row is made once. *)
Definition construct (now : option Z) (random : list Z) (commits : bool) (others : db → db) : M () :=
  d ← get;
  match d with
  | Some _ => row;; mret tt
  | None =>
      at_ ← expect (timestamp now) invalid_input;
      id ← expect (newGatewayInstanceId random) invalid_input;
      modify others;;
      d ← get;
      match d with
      | Some _ => mret tt                                   (* the INSERT fails, the row is there *)
      | None =>
          let r := mkRow id phase_idle None None None None None None None None at_ at_ None None None None in
          if commits && constraints r then modify (λ _, Some r) else throw DatabaseError
      end;;
      row;; mret tt
  end.

(** [BEGIN IMMEDIATE; UPDATE ... WHERE guard; COMMIT] *)
Definition transaction (commits : bool) (cols : list column) (guard : Row → bool) (f : Row → Row) : M () :=
  if negb commits then throw DatabaseError
  else
    d ← get;
    match d with
    | None => failing state_conflict
    | Some r =>
        if negb (guard r) then failing state_conflict
        else if constraints (f r) && triggers cols r (f r) then modify (λ _, Some (f r)) else throw DatabaseError
    end.

Definition secretValues : M (list string) :=
  r ← row;
  mret (omap (λ o, o) [enrollment_grant r; active_credential_token r; pending_credential_token r]).
Definition activeNodeToken : M string :=
  r ← row;
  match phase r with active | rotating => expect (active_credential_token r) invalid_state | _ => failing invalid_state end.
Definition pendingNodeToken : M string :=
  r ← row;
  match phase r with rotating => expect (pending_credential_token r) invalid_state | _ => failing invalid_state end.

(** A new credential and request id, from the random source. *)
Definition fresh (random_id random_secret random_request : list Z) : M (material * string) :=
  next ← expect (createNodeCredential digest random_id random_secret) invalid_input;
  rid ← expect (if Nat.eqb (length random_request) 16 then Some (REQUEST_PREFIX +:+ base64url random_request) else None) invalid_input;
  if is_id REQUEST_PREFIX rid then mret (next, rid) else failing invalid_input.

(** [exactEnrollmentInput]; [None] is a value of another shape. *)
Definition exactEnrollmentInput (input : option BeginGatewayEnrollment) : M BeginGatewayEnrollment :=
  i ← expect input invalid_input;
  if validEndpoint (i_endpoint i) && validDisplayName (i_displayName i)
     && bool_decide (is_Some (credential_parts ENROLLMENT (i_grantToken i)))
  then mret i else failing invalid_input.

Definition to_enrolling (i : BeginGatewayEnrollment) (rid : string) (next : material) (at_ : Z) (r : Row) : Row :=
  mkRow (instance_id r) enrolling (Some (i_endpoint i)) (Some (i_displayName i)) (Some (i_grantToken i)) (Some rid)
    (active_credential_id r) (active_credential_token r) (Some (m_id next)) (Some (m_token next)) (created_at r) at_
    (Some at_) (activated_at r) (rotation_started_at r) (rotation_proposed_at r).
Definition beginEnrollment (input : option BeginGatewayEnrollment) (now : option Z)
    (random_id random_secret random_request : list Z) (commits : bool) (others : db → db) : M GatewayResidentSnapshot :=
  i ← exactEnrollmentInput input;
  old ← row;
  match phase old with
  | enrolling =>
      if bool_decide (endpoint old = Some (i_endpoint i)) && bool_decide (display_name old = Some (i_displayName i))
         && bool_decide (enrollment_grant old = Some (i_grantToken i))
      then mret (publicSnapshot old) else failing state_conflict
  | phase_idle =>
      '(next, rid) ← fresh random_id random_secret random_request;
      t ← expect (timestamp now) invalid_input;
      let at_ := Z.max t (updated_at old) in
      modify others;;
      transaction commits
        [c_phase; c_endpoint; c_display_name; c_enrollment_grant; c_request_id; c_pending_id; c_pending_token;
         c_enrollment_started_at; c_updated_at]
        (λ r, bool_decide (phase r = phase_idle)) (to_enrolling i rid next at_);;
      read
  | _ => failing invalid_state
  end.

Definition enrollmentRequest : M ResidentEnrollmentRequest :=
  r ← row;
  match phase r, enrollment_grant r, display_name r, request_id r, pending_credential_id r, pending_credential_token r with
  | enrolling, Some grant, Some name, Some rid, Some id, Some token =>
      match parseNodeCredential digest token with
      | Some (i, verifier) =>
          if String.eqb i id then
            v ← match encodeCredentialVerifier verifier with Some v => mret v | None => throw ControlCodecError end;
            mret (mkEnrollmentRequest grant (instance_id r) name id v rid)
          else failing corrupt_state
      | None => failing corrupt_state
      end
  | _, _, _, _, _, _ => failing invalid_state
  end.

(** [decode(serialize(value))] *)
Definition exact_message {A} `{Message A} (v : json) : M A :=
  expect (b ← serialize_message (A := A) v; decode_message b) invalid_input.

Definition to_active_enrolled (at_ : Z) (r : Row) : Row :=
  mkRow (instance_id r) active (endpoint r) (display_name r) None None (pending_credential_id r) (pending_credential_token r)
    None None (created_at r) at_ (enrollment_started_at r) (Some at_) (rotation_started_at r) (rotation_proposed_at r).
Definition activateEnrollment (value : json) (now : option Z) (commits : bool) (others : db → db)
    : M GatewayResidentTransitionReceipt :=
  result ← exact_message (A := ResidentEnrollmentResult) value;
  r ← row;
  match phase r, pending_credential_id r with
  | enrolling, Some pending =>
      if negb (String.eqb (ers_instanceId result) (instance_id r) && String.eqb (ers_credentialId result) pending)
      then failing state_conflict
      else
        t ← expect (timestamp now) invalid_input;
        let at_ := Z.max t (updated_at r) in
        modify others;;
        transaction commits
          [c_phase; c_enrollment_grant; c_request_id; c_active_id; c_active_token; c_pending_id; c_pending_token;
           c_activated_at; c_updated_at]
          (λ r', bool_decide (phase r' = enrolling) && String.eqb (instance_id r') (instance_id r)
                 && bool_decide (pending_credential_id r' = Some pending)) (to_active_enrolled at_);;
        mret (mkReceipt (instance_id r) pending None)
  | _, _ => failing invalid_state
  end.

Definition to_rotating (rid : string) (next : material) (at_ : Z) (r : Row) : Row :=
  mkRow (instance_id r) rotating (endpoint r) (display_name r) (enrollment_grant r) (Some rid) (active_credential_id r)
    (active_credential_token r) (Some (m_id next)) (Some (m_token next)) (created_at r) at_ (enrollment_started_at r)
    (activated_at r) (Some at_) None.
Definition beginRotation (now : option Z) (random_id random_secret random_request : list Z) (commits : bool)
    (others : db → db) : M GatewayResidentSnapshot :=
  old ← row;
  match phase old, active_credential_id old with
  | rotating, _ => mret (publicSnapshot old)
  | active, Some current =>
      '(next, rid) ← fresh random_id random_secret random_request;
      t ← expect (timestamp now) invalid_input;
      let at_ := Z.max t (updated_at old) in
      modify others;;
      transaction commits
        [c_phase; c_request_id; c_pending_id; c_pending_token; c_rotation_started_at; c_rotation_proposed_at; c_updated_at]
        (λ r, bool_decide (phase r = active) && bool_decide (active_credential_id r = Some current))
        (to_rotating rid next at_);;
      read
  | _, _ => failing invalid_state
  end.

Definition rotationRequest : M ResidentRotationRequest :=
  r ← row;
  match phase r, request_id r, pending_credential_id r, pending_credential_token r with
  | rotating, Some rid, Some id, Some token =>
      match parseNodeCredential digest token with
      | Some (i, verifier) =>
          if String.eqb i id then
            v ← match encodeCredentialVerifier verifier with Some v => mret v | None => throw ControlCodecError end;
            mret (mkRotationRequest id v rid)
          else failing corrupt_state
      | None => failing corrupt_state
      end
  | _, _, _, _ => failing invalid_state
  end.

(** The result names this rotation. *)
Definition names_rotation (result : ResidentRotationResult) (r : Row) (current pending : string) : bool :=
  String.eqb (rrs_instanceId result) (instance_id r) && String.eqb (rrs_credentialId result) pending
  && String.eqb (rrs_previousCredentialId result) current.
Definition same_rotation (r : Row) (current pending : string) (r' : Row) : bool :=
  bool_decide (phase r' = rotating) && String.eqb (instance_id r') (instance_id r)
  && bool_decide (active_credential_id r' = Some current) && bool_decide (pending_credential_id r' = Some pending).
Definition to_proposed (at_ : Z) (r : Row) : Row :=
  mkRow (instance_id r) (phase r) (endpoint r) (display_name r) (enrollment_grant r) (request_id r) (active_credential_id r)
    (active_credential_token r) (pending_credential_id r) (pending_credential_token r) (created_at r) at_
    (enrollment_started_at r) (activated_at r) (rotation_started_at r) (Some at_).
Definition markRotationProposed (value : json) (now : option Z) (commits : bool) (others : db → db)
    : M GatewayResidentSnapshot :=
  result ← exact_message (A := ResidentRotationResult) value;
  r ← row;
  match phase r, active_credential_id r, pending_credential_id r with
  | rotating, Some current, Some pending =>
      if negb (names_rotation result r current pending) then failing state_conflict
      else if not_null (rotation_proposed_at r) then mret (publicSnapshot r)
      else
        t ← expect (timestamp now) invalid_input;
        let at_ := Z.max (Z.max t (updated_at r)) (default 0 (rotation_started_at r)) in
        modify others;;
        transaction commits [c_rotation_proposed_at; c_updated_at]
          (λ r', same_rotation r current pending r' && is_null (rotation_proposed_at r')) (to_proposed at_);;
        read
  | _, _, _ => failing invalid_state
  end.

Definition to_active_rotated (at_ : Z) (r : Row) : Row :=
  mkRow (instance_id r) active (endpoint r) (display_name r) (enrollment_grant r) None (pending_credential_id r)
    (pending_credential_token r) None None (created_at r) at_ (enrollment_started_at r) (Some at_) None None.
Definition activateRotation (value : json) (now : option Z) (commits : bool) (others : db → db)
    : M GatewayResidentTransitionReceipt :=
  result ← exact_message (A := ResidentRotationResult) value;
  r ← row;
  match phase r, active_credential_id r, pending_credential_id r, rotation_proposed_at r with
  | rotating, Some current, Some pending, Some _ =>
      if negb (names_rotation result r current pending) then failing state_conflict
      else
        t ← expect (timestamp now) invalid_input;
        let at_ := Z.max t (updated_at r) in
        modify others;;
        transaction commits
          [c_phase; c_request_id; c_active_id; c_active_token; c_pending_id; c_pending_token; c_rotation_started_at;
           c_rotation_proposed_at; c_activated_at; c_updated_at]
          (λ r', same_rotation r current pending r' && not_null (rotation_proposed_at r')) (to_active_rotated at_);;
        mret (mkReceipt (instance_id r) pending (Some current))
  | _, _, _, _ => failing invalid_state
  end.
End store.
