(* ===== verification/ResidentStoreTheorems.v ===== *)
(** * Theorems on the resident's side of enrollment and rotation *)

From S2P Require Import Prelude Effects Protocol Codec CodecFacts JsString JsText Credentials ResidentControl TextFacts ResidentStore.
Local Open Scope string_scope.
Local Open Scope Z_scope.

(** ** The abstract machine: which tokens the resident holds *)

Inductive holding :=
  | Nothing
  | Enrolling (token : string)
  | Holding (token : string)
  | Rotating (token next : string) (proposed : bool).
Definition held (r : Row) : holding :=
  match phase r, active_credential_token r, pending_credential_token r with
  | enrolling, _, Some p => Enrolling p
  | active, Some a, _ => Holding a
  | rotating, Some a, Some p => Rotating a p (not_null (rotation_proposed_at r))
  | _, _, _ => Nothing
  end.

(** The time of activation is not after the last update. *)
Definition timed (r : Row) : Prop := ∀ t, activated_at r = Some t → t ≤ updated_at r.

(** The columns a phase sets and the ones it does not. *)
Ltac nulls :=
  repeat match goal with
  | H : not_null ?o = true |- _ => destruct o; [clear H|discriminate H]
  | H : is_null ?o = true |- _ => destruct o; [discriminate H|clear H]
  end.
Ltac open_row r H :=
  destruct r; simpl in *; subst; unfold ResidentStore.assertRow, shape in H; simpl in H; guards; nulls; simpl in *.

Section store.
Context (is_origin : string → bool) (digest : string → list Z).
Abbreviation assertRow := (assertRow is_origin).

(** One row later. *)
Record evolves (r r' : Row) : Prop := {
  e_valid : assertRow r' = true;
  e_instance : instance_id r' = instance_id r;
  e_created : created_at r' = created_at r;
  e_updated : updated_at r ≤ updated_at r';
  e_endpoint : endpoint r ≠ None → endpoint r' = endpoint r ∧ display_name r' = display_name r;
  e_timed : timed r → timed r';
}.
Definition later (d d' : option Row) : Prop :=
  match d, d' with
  | None, None => True
  | None, Some r' => assertRow r' = true ∧ timed r'
  | Some r, Some r' => assertRow r = true → evolves r r'
  | Some _, None => False
  end.
Definition valid (d : option Row) : Prop := match d with Some r => assertRow r = true | None => True end.
Lemma later_refl d : later d d.
Proof. destruct d; simpl; [|done]. intros H. split; done. Qed.
Lemma later_valid d d' : later d d' → valid d → valid d'.
Proof. destruct d as [r|], d' as [r'|]; simpl; try done; [|by intros [? _] _]. intros H Hr. apply H, Hr. Qed.
Lemma later_trans d1 d2 d3 : later d1 d2 → later d2 d3 → later d1 d3.
Proof.
  destruct d1 as [r1|], d2 as [r2|], d3 as [r3|]; simpl; try done.
  - intros H12 H23 H1. destruct (H12 H1) as [V I C U E T]. destruct (H23 V) as [V' I' C' U' E' T'].
    split; [done|congruence..|lia| |auto]. intros Hn. destruct (E Hn) as [H2 H3].
    destruct E' as [H2' H3']; [congruence|]. split; congruence.
  - intros (H1 & Ht) H23. destruct (H23 H1) as [V _ _ _ _ T]. auto.
Qed.

Ltac close_row :=
  unfold to_active_rotated, to_active_enrolled, to_enrolling, to_rotating, to_proposed,
    ResidentStore.assertRow, shape, since in *; simpl in *; guards;
  repeat match goal with |- _ && _ = true => apply andb_true_iff; split end; try done;
  try (apply Z.leb_le; lia); try (by apply negb_true_iff, bool_decide_eq_false).
Lemma rotated_valid at_ r :
  assertRow r = true → phase r = rotating → validTime at_ = true → updated_at r ≤ at_ →
  assertRow (to_active_rotated at_ r) = true.
Proof. intros Hr Hp Ht Hu. open_row r Hr. close_row. Qed.
Lemma enrolled_valid at_ r :
  assertRow r = true → phase r = enrolling → validTime at_ = true → updated_at r ≤ at_ →
  assertRow (to_active_enrolled at_ r) = true.
Proof. intros Hr Hp Ht Hu. open_row r Hr. close_row. Qed.
(** A credential and the id of the request, as they are stored. *)
Definition stored (id token rid : string) : Prop :=
  is_id REQUEST_PREFIX rid = true ∧ match credential_parts NODE token with Some (i, _) => i = id | None => False end.
Lemma stored_token id token rid : stored id token rid → credentialToken (Some id) (Some token) = true.
Proof. intros [_ H]. simpl. destruct (credential_parts NODE token) as [[i s]|]; [|done]. subst. apply String.eqb_refl. Qed.
Definition input_ok (i : BeginGatewayEnrollment) : Prop :=
  validEndpoint is_origin (i_endpoint i) = true ∧ validDisplayName (i_displayName i) = true
  ∧ is_Some (credential_parts ENROLLMENT (i_grantToken i)).
Lemma enrolling_valid i rid next at_ r :
  assertRow r = true → phase r = phase_idle → validTime at_ = true → updated_at r ≤ at_ → input_ok i →
  stored (m_id next) (m_token next) rid → assertRow (to_enrolling i rid next at_ r) = true.
Proof.
  intros Hr Hp Ht Hu (He & Hd & Hg) Hs. pose proof (stored_token _ _ _ Hs). destruct Hs as [? _]. open_row r Hr.
  close_row. by apply bool_decide_eq_true.
Qed.
Lemma rotating_valid rid next at_ r :
  assertRow r = true → phase r = active → validTime at_ = true → updated_at r ≤ at_ →
  stored (m_id next) (m_token next) rid → active_credential_id r ≠ Some (m_id next) →
  assertRow (to_rotating rid next at_ r) = true.
Proof.
  intros Hr Hp Ht Hu Hs Hn. pose proof (stored_token _ _ _ Hs). destruct Hs as [? _]. open_row r Hr. close_row.
Qed.
Lemma proposed_valid at_ r :
  assertRow r = true → phase r = rotating → validTime at_ = true → updated_at r ≤ at_ → (∀ t, rotation_started_at r = Some t → t ≤ at_) →
  assertRow (to_proposed at_ r) = true.
Proof. intros Hr Hp Ht Hu Hs. open_row r Hr. specialize (Hs _ eq_refl). close_row. Qed.

(** ** Each operation moves the row along *)

(** What the transaction did, when it was carried out. *)
Definition advances {A} (m : eff (option Row) resident_exn A) : Prop :=
  ∀ d, valid d → later d (m d).2.
Lemma advances_bind {A B} (m : eff (option Row) resident_exn A) (k : A → eff (option Row) resident_exn B) :
  advances m → (∀ a, advances (k a)) → advances (m ≫= k).
Proof.
  intros Hm Hk d Hd. specialize (Hm d Hd). unfold mbind, eff_bind. destruct (m d) as [[e|a] d'] eqn:He; simpl in *; [done|].
  eapply later_trans; [done|]. apply Hk. by eapply later_valid.
Qed.
(** The row read is valid. *)
Lemma row_valid r : assertRow r = true → row is_origin (Some r) = (inr r, Some r).
Proof. intros Hr. unfold row. unfold_eff. by rewrite Hr. Qed.
Lemma advances_row {A} (k : Row → eff (option Row) resident_exn A) :
  (∀ r, assertRow r = true → advances (k r)) → advances (row is_origin ≫= k).
Proof.
  intros Hk [r|] Hd; [|done]. unfold mbind, eff_bind. rewrite (row_valid r Hd). by apply (Hk r Hd (Some r)).
Qed.
Lemma advances_expect {A B} (o : option A) c (k : A → eff (option Row) resident_exn B) :
  (∀ a, o = Some a → advances (k a)) → advances (expect o c ≫= k).
Proof. destruct o; simpl; intros Hk; [by apply Hk|]. intros d Hd. apply later_refl. Qed.
Lemma advances_pure {A} (m : eff (option Row) resident_exn A) : (∀ d, (m d).2 = d) → advances m.
Proof. intros Hm d Hd. rewrite Hm. apply later_refl. Qed.
Lemma advances_transaction commits cols guard f :
  (∀ r, assertRow r = true → guard r = true → constraints (f r) = true → triggers cols r (f r) = true → evolves r (f r)) →
  advances (transaction commits cols guard f).
Proof.
  intros Hf d Hd. unfold transaction. destruct commits; simpl; [|apply later_refl].
  unfold_eff. destruct d as [r|]; simpl; [|done]. destruct (guard r) eqn:Hg; simpl; [|by intros; split].
  destruct (constraints (f r) && triggers cols r (f r)) eqn:Hc; simpl; [|by intros; split].
  apply andb_true_iff in Hc as [? ?]. auto.
Qed.
Context (others : option Row → option Row) (Hothers : ∀ d, valid d → later d (others d)).
Lemma advances_others {A} (k : eff (option Row) resident_exn A) : advances k → advances (modify others;; k).
Proof using Hothers. intros Hk. apply advances_bind; [|done]. intros d Hd. by apply Hothers. Qed.

Lemma validTime_max t u : validTime t = true → validTime u = true → validTime (Z.max t u) = true.
Proof. intros Ht Hu. by destruct (Z.max_spec t u) as [[_ ->]|[_ ->]]. Qed.
Lemma timestamp_valid now t : timestamp now = Some t → validTime t = true.
Proof. unfold timestamp. destruct now as [z|]; [|done]. destruct (validTime z) eqn:Hz; [|done]. by intros [= <-]. Qed.
Lemma row_times r : assertRow r = true → validTime (updated_at r) = true ∧ ∀ t, rotation_started_at r = Some t → validTime t = true.
Proof.
  intros Hr. unfold ResidentStore.assertRow in Hr. guards. split; [done|]. intros t Ht. rewrite Ht in *. simpl in *.
  unfold since in *. by guards.
Qed.
Lemma trigger_updated cols r r' : triggers cols r r' = true → updated_at r ≤ updated_at r'.
Proof. unfold triggers. intros H. guards. by apply Z.ltb_ge. Qed.

(** The steps. *)
Ltac timing :=
  let Htm := fresh in let t := fresh in let Hat := fresh in
  intros Htm t Hat; simpl in *; first [specialize (Htm t Hat); lia | injection Hat as Hat; lia].
Lemma constrained_pending r id token rid :
  constraints r = true → pending_credential_id r = Some id → pending_credential_token r = Some token →
  request_id r = Some rid → stored id token rid.
Proof.
  intros Hc Hi Ht Hr. unfold constraints in Hc. guards. rewrite Ht, Hi, Hr in *. simpl in *. split; [done|].
  destruct (credential_parts NODE token) as [[i s]|]; [|done]. guards. congruence.
Qed.
Lemma evolves_enrolling cols i rid next at_ r :
  assertRow r = true → phase r = phase_idle → validTime at_ = true → input_ok i →
  constraints (to_enrolling i rid next at_ r) = true → triggers cols r (to_enrolling i rid next at_ r) = true →
  evolves r (to_enrolling i rid next at_ r).
Proof.
  intros Hr Hp Ht Hi Hc Htr. pose proof (trigger_updated _ _ _ Htr) as Hu. split; [|done|done|done| |timing]; [|by open_row r Hr].
  apply enrolling_valid; try done. by eapply constrained_pending.
Qed.
Lemma evolves_enrolled cols at_ r :
  assertRow r = true → phase r = enrolling → validTime at_ = true → triggers cols r (to_active_enrolled at_ r) = true →
  evolves r (to_active_enrolled at_ r).
Proof.
  intros Hr Hp Ht Hu%trigger_updated. split; [by apply enrolled_valid|done..|timing].
Qed.
Lemma evolves_rotating cols rid next at_ r :
  assertRow r = true → phase r = active → validTime at_ = true →
  constraints (to_rotating rid next at_ r) = true → triggers cols r (to_rotating rid next at_ r) = true →
  evolves r (to_rotating rid next at_ r).
Proof.
  intros Hr Hp Ht Hc Hu%trigger_updated. split; [|done..|timing].
  apply rotating_valid; try done; [by eapply constrained_pending|]. unfold constraints, shape in Hc. simpl in Hc. by guards.
Qed.
Lemma evolves_proposed cols at_ r :
  assertRow r = true → phase r = rotating → rotation_proposed_at r = None → validTime at_ = true →
  constraints (to_proposed at_ r) = true → triggers cols r (to_proposed at_ r) = true →
  evolves r (to_proposed at_ r).
Proof.
  intros Hr Hp Hn Ht Hc Hu%trigger_updated. split; [|done..|timing].
  apply proposed_valid; try done. intros t Hs. unfold constraints in Hc. simpl in Hc. rewrite Hs in Hc. by guards.
Qed.
Lemma evolves_rotated cols at_ r :
  assertRow r = true → phase r = rotating → is_Some (rotation_proposed_at r) → validTime at_ = true →
  triggers cols r (to_active_rotated at_ r) = true → evolves r (to_active_rotated at_ r).
Proof.
  intros Hr Hp [t Hn] Ht Hu%trigger_updated. split; [by apply rotated_valid|done..|timing].
Qed.

(** The operations. *)
Abbreviation read := (read is_origin).
Lemma advances_read : advances read.
Proof. apply advances_row. intros r Hr. by apply advances_pure. Qed.
Lemma at_valid now t r : timestamp now = Some t → assertRow r = true → validTime (Z.max t (updated_at r)) = true.
Proof. intros Ht%timestamp_valid [Hu _]%row_times. by apply validTime_max. Qed.
Lemma advances_input {B} input (k : BeginGatewayEnrollment → eff (option Row) resident_exn B) :
  (∀ i, input_ok i → advances (k i)) →
  advances (exactEnrollmentInput is_origin input ≫= k).
Proof.
  intros Hk. unfold exactEnrollmentInput. destruct input as [i|]; simpl; [|by apply advances_pure].
  unfold mbind, eff_bind. simpl. case_match eqn:H; [|by apply advances_pure]. guards. by apply Hk; split_and!.
Qed.
Lemma advances_fresh {B} ri rs rr (k : material * string → eff (option Row) resident_exn B) :
  (∀ x, advances (k x)) → advances (fresh digest ri rs rr ≫= k).
Proof.
  intros Hk. apply advances_bind; [|done]. apply advances_pure. intros d. unfold fresh. unfold_eff.
  destruct (createNodeCredential digest ri rs); simpl; [|done]. destruct (Nat.eqb (length rr) 16); simpl; [|done].
  by case_match.
Qed.
Ltac advancing := repeat first [ apply advances_others | apply advances_expect; intros ? ? | by apply advances_pure ].
Lemma advances_beginEnrollment input now ri rs rr commits :
  advances (beginEnrollment is_origin digest input now ri rs rr commits others).
Proof using Hothers.
  apply advances_input. intros i Hi. apply advances_row. intros r Hr.
  destruct (phase r) eqn:Hp; try by apply advances_pure.
  - apply advances_fresh. intros [next rid]. advancing. apply advances_bind; [|intros; apply advances_read].
    apply advances_transaction. intros r' Hr' Hg Hc Ht. guards. eapply evolves_enrolling; eauto using at_valid.
  - case_match; by apply advances_pure.
Qed.
Lemma advances_activateEnrollment v now commits :
  advances (activateEnrollment is_origin v now commits others).
Proof using Hothers.
  apply advances_expect. intros res _. apply advances_row. intros r Hr.
  destruct (phase r) eqn:Hp; try by apply advances_pure. destruct (pending_credential_id r); [|by apply advances_pure].
  case_match; [by apply advances_pure|]. advancing. apply advances_bind; [|intros; by apply advances_pure].
  apply advances_transaction. intros r' Hr' Hg Hc Ht. guards. eapply evolves_enrolled; eauto using at_valid.
Qed.
Lemma advances_beginRotation now ri rs rr commits :
  advances (beginRotation is_origin digest now ri rs rr commits others).
Proof using Hothers.
  apply advances_row. intros r Hr. destruct (phase r) eqn:Hp; try by apply advances_pure.
  destruct (active_credential_id r); [|by apply advances_pure]. apply advances_fresh. intros [next rid]. advancing.
  apply advances_bind; [|intros; apply advances_read].
  apply advances_transaction. intros r' Hr' Hg Hc Ht. guards. eapply evolves_rotating; eauto using at_valid.
Qed.
Lemma advances_markRotationProposed v now commits :
  advances (markRotationProposed is_origin v now commits others).
Proof using Hothers.
  apply advances_expect. intros res _. apply advances_row. intros r Hr.
  destruct (phase r) eqn:Hp; try by apply advances_pure. destruct (active_credential_id r); [|by apply advances_pure].
  destruct (pending_credential_id r); [|by apply advances_pure].
  case_match; [by apply advances_pure|]. case_match; [by apply advances_pure|]. advancing.
  apply advances_bind; [|intros; apply advances_read].
  apply advances_transaction. intros r' Hr' Hg Hc Ht. unfold same_rotation in Hg. guards.
  eapply evolves_proposed; eauto; [by destruct (rotation_proposed_at r')|].
  apply validTime_max; [by eapply at_valid|]. destruct (rotation_started_at r) eqn:Hs; [|done]. by eapply (proj2 (row_times r Hr)).
Qed.
Lemma advances_activateRotation v now commits :
  advances (activateRotation is_origin v now commits others).
Proof using Hothers.
  apply advances_expect. intros res _. apply advances_row. intros r Hr.
  destruct (phase r) eqn:Hp; try by apply advances_pure. destruct (active_credential_id r); [|by apply advances_pure].
  destruct (pending_credential_id r); [|by apply advances_pure]. destruct (rotation_proposed_at r); [|by apply advances_pure].
  case_match; [by apply advances_pure|]. advancing. apply advances_bind; [|intros; by apply advances_pure].
  apply advances_transaction. intros r' Hr' Hg Hc Ht. unfold same_rotation in Hg. guards.
  eapply evolves_rotated; eauto using at_valid. destruct (rotation_proposed_at r'); [by eexists|done].
Qed.
Lemma created_valid id t : isGatewayInstanceId id = true → validTime t = true →
  assertRow (mkRow id phase_idle None None None None None None None None t t None None None None) = true.
Proof.
  intros Hi Ht. unfold ResidentStore.assertRow. simpl. rewrite Hi, Ht, Z.leb_refl. done.
Qed.
Lemma advances_construct now random commits : advances (construct is_origin now random commits others).
Proof using Hothers.
  intros d Hd. unfold construct. unfold_eff. destruct d as [r|].
  - rewrite (row_valid r Hd). apply later_refl.
  - unfold expect. destruct (timestamp now) as [t|] eqn:Ht; [|done]. destruct (newGatewayInstanceId random) as [id|]; [|done].
    simpl. pose proof (Hothers None I) as Ho. destruct (others None) as [r|] eqn:Hd'.
    + simpl. by rewrite (row_valid r (proj1 Ho)).
    + destruct (commits && constraints _) eqn:Hc; [|done]. apply andb_true_iff in Hc as [_ Hc].
      assert (isGatewayInstanceId id = true) as Hi by (unfold constraints in Hc; by guards).
      pose proof (created_valid id t Hi (timestamp_valid _ _ Ht)) as Hv.
      rewrite row_valid by done. by split_and!.
Qed.
End store.

(** ** Any number of processes *)

(** A call of one process, and the calls of others between its read and its
    transaction. *)
Inductive operation :=
  | op_construct (now : option Z) (random : list Z)
  | op_beginEnrollment (input : option BeginGatewayEnrollment) (now : option Z) (random_id random_secret random_request : list Z)
  | op_activateEnrollment (value : json) (now : option Z)
  | op_beginRotation (now : option Z) (random_id random_secret random_request : list Z)
  | op_markRotationProposed (value : json) (now : option Z)
  | op_activateRotation (value : json) (now : option Z).
Inductive call := Call (o : operation) (commits : bool) (others : list call).

Section run.
Context (is_origin : string → bool) (digest : string → list Z).
Definition operate (o : operation) (commits : bool) (others : option Row → option Row) (d : option Row) : option Row :=
  match o with
  | op_construct now random => (construct is_origin now random commits others d).2
  | op_beginEnrollment i now ri rs rr => (beginEnrollment is_origin digest i now ri rs rr commits others d).2
  | op_activateEnrollment v now => (activateEnrollment is_origin v now commits others d).2
  | op_beginRotation now ri rs rr => (beginRotation is_origin digest now ri rs rr commits others d).2
  | op_markRotationProposed v now => (markRotationProposed is_origin v now commits others d).2
  | op_activateRotation v now => (activateRotation is_origin v now commits others d).2
  end.
Fixpoint perform (c : call) (d : option Row) : option Row :=
  match c with Call o commits cs => operate o commits (λ d, foldl (λ d c, perform c d) d cs) d end.
Definition performs (cs : list call) (d : option Row) : option Row := foldl (λ d c, perform c d) d cs.

Lemma operate_later o commits others d :
  (∀ d, valid is_origin d → later is_origin d (others d)) → valid is_origin d → later is_origin d (operate o commits others d).
Proof.
  intros Ho Hd. destruct o; simpl; [apply advances_construct|apply advances_beginEnrollment|apply advances_activateEnrollment
    |apply advances_beginRotation|apply advances_markRotationProposed|apply advances_activateRotation]; done.
Qed.
Lemma performs_later_of cs d :
  (∀ c d, c ∈ cs → valid is_origin d → later is_origin d (perform c d)) → valid is_origin d →
  later is_origin d (performs cs d).
Proof.
  revert d. induction cs as [|c cs IH]; intros d Hc Hd; [apply later_refl|]. simpl.
  assert (later is_origin d (perform c d)) as H1 by (apply Hc; [constructor|done]).
  eapply later_trans; [done|]. apply IH; [|by eapply later_valid]. intros c' d' Hc'. apply Hc. by constructor.
Qed.
Lemma call_induction (P : call → Prop) : (∀ o b cs, Forall P cs → P (Call o b cs)) → ∀ c, P c.
Proof.
  intros H. exact (fix go c := match c with Call o b cs => H o b cs
    ((fix gos cs := match cs return Forall P cs with [] => Forall_nil_2 P | c :: cs => Forall_cons_2 P c cs (go c) (gos cs) end) cs) end).
Qed.
Lemma perform_later c d : valid is_origin d → later is_origin d (perform c d).
Proof.
  revert d. induction c as [o b cs IH] using call_induction. intros d Hd. apply operate_later; [|done].
  intros d' Hd'. apply performs_later_of; [|done]. intros c d'' Hc. rewrite Forall_forall in IH. by apply IH.
Qed.
Lemma performs_later cs d : valid is_origin d → later is_origin d (performs cs d).
Proof. intros Hd. apply performs_later_of; [|done]. intros. by apply perform_later. Qed.

(** ** The tokens follow the calls *)

(** The id a node token carries. *)
Definition node_id (token : string) : option string := fst <$> credential_parts NODE token.
(** What one call may do to the tokens held: a new token is the one made from the
    random bytes of the call, and the Gateway's answer names the tokens it acts on. *)
Inductive moves : operation → holding → holding → Prop :=
  | m_enroll i now ri rs rr m :
      createNodeCredential digest ri rs = Some m →
      moves (op_beginEnrollment (Some i) now ri rs rr) Nothing (Enrolling (m_token m))
  | m_enrolled v now res p :
      (b ← serialize_message (A := ResidentEnrollmentResult) v; decode_message b) = Some res →
      node_id p = Some (ers_credentialId res) →
      moves (op_activateEnrollment v now) (Enrolling p) (Holding p)
  | m_rotate now ri rs rr m a :
      createNodeCredential digest ri rs = Some m →
      moves (op_beginRotation now ri rs rr) (Holding a) (Rotating a (m_token m) false)
  | m_propose v now res a p :
      (b ← serialize_message (A := ResidentRotationResult) v; decode_message b) = Some res →
      node_id a = Some (rrs_previousCredentialId res) → node_id p = Some (rrs_credentialId res) →
      moves (op_markRotationProposed v now) (Rotating a p false) (Rotating a p true)
  | m_rotated v now res a p :
      (b ← serialize_message (A := ResidentRotationResult) v; decode_message b) = Some res →
      node_id a = Some (rrs_previousCredentialId res) → node_id p = Some (rrs_credentialId res) →
      moves (op_activateRotation v now) (Rotating a p true) (Holding p).
Inductive path : list operation → holding → holding → Prop :=
  | path_nil h : path [] h h
  | path_cons o os h1 h2 h3 : moves o h1 h2 → path os h2 h3 → path (o :: os) h1 h3.
(** Some of the operations, in this order and each at most once, lead there. *)
Definition via (os : list operation) (h h' : holding) : Prop := ∃ os', os' `sublist_of` os ∧ path os' h h'.
(** The operations in the order of their transactions. *)
Fixpoint linear (c : call) : list operation :=
  match c with Call o _ cs => (flat_map linear cs ++ [o])%list end.
Definition tokens (d : option Row) : holding := from_option held Nothing d.

Lemma via_refl os h : via os h h.
Proof. exists []. split; [apply sublist_nil_l|constructor]. Qed.
Lemma via_once o h h' : moves o h h' → via [o] h h'.
Proof. intros H. exists [o]. split; [done|]. econstructor; [done|constructor]. Qed.
Lemma path_app os1 os2 h1 h2 h3 : path os1 h1 h2 → path os2 h2 h3 → path (os1 ++ os2)%list h1 h3.
Proof. induction 1; simpl; [done|]. intros. econstructor; eauto. Qed.
Lemma via_app os1 os2 h1 h2 h3 : via os1 h1 h2 → via os2 h2 h3 → via (os1 ++ os2)%list h1 h3.
Proof.
  intros (o1 & S1 & P1) (o2 & S2 & P2). exists (o1 ++ o2)%list. split; [by apply sublist_app|by eapply path_app].
Qed.

(** What an operation does: nothing, or what happened before its transaction, or
    that and then its own move. *)
Section outcome.
Context (o : operation) (others : option Row → option Row).
Context (Hothers : ∀ d, valid is_origin d → valid is_origin (others d)).
Definition moving {A} (m : eff (option Row) resident_exn A) : Prop := ∀ d, valid is_origin d →
  (m d).2 = d ∨ (m d).2 = others d ∨ moves o (tokens (others d)) (tokens (m d).2).
Lemma moving_pure {A} (m : eff (option Row) resident_exn A) : (∀ d, (m d).2 = d) → moving m.
Proof. intros Hm d _. left. apply Hm. Qed.
Lemma moving_row {A} (k : Row → eff (option Row) resident_exn A) :
  (∀ r, assertRow is_origin r = true → moving (k r)) → moving (row is_origin ≫= k).
Proof.
  intros Hk [r|] Hd; [|by left]. unfold mbind, eff_bind. rewrite (row_valid _ r Hd). by apply (Hk r Hd (Some r)).
Qed.
Lemma moving_expect {A B} (x : option A) c (k : A → eff (option Row) resident_exn B) :
  (∀ a, x = Some a → moving (k a)) → moving (expect x c ≫= k).
Proof. destruct x; simpl; intros Hk; [by apply Hk|]. intros d Hd. by left. Qed.
(** The row when the transaction runs is valid; [k] only reads. *)
Lemma moving_transaction {A} commits cols guard f (k : eff (option Row) resident_exn A) :
  (∀ r, assertRow is_origin r = true → guard r = true → moves o (held r) (held (f r))) →
  (∀ d, (k d).2 = d) → moving (modify others;; transaction commits cols guard f;; k).
Proof using Hothers.
  intros Hf Hk d Hd. unfold transaction. unfold_eff. simpl. pose proof (Hothers d Hd) as Hv.
  destruct commits; simpl; [|by right; left]. destruct (others d) as [r|] eqn:Ho; simpl; [|by right; left].
  destruct (guard r) eqn:Hg; simpl; [|by right; left]. destruct (_ && _); simpl; [|by right; left].
  rewrite Hk. right. right. simpl. by apply Hf.
Qed.
End outcome.

Lemma read_pure d : (read is_origin d).2 = d.
Proof. unfold read, row. unfold_eff. destruct d as [r|]; [|done]. by destruct (assertRow is_origin r). Qed.
Lemma fresh_inr ri rs rr d next rid d' :
  fresh digest ri rs rr d = (inr (next, rid), d') → createNodeCredential digest ri rs = Some next ∧ d' = d.
Proof.
  unfold fresh. unfold_eff. destruct (createNodeCredential digest ri rs); simpl; [|done].
  destruct (Nat.eqb (length rr) 16); simpl; [|done]. case_match; [|done]. by intros [= <- <- <-].
Qed.
Lemma moving_fresh {B} o others ri rs rr (k : material * string → eff (option Row) resident_exn B) :
  (∀ next rid, createNodeCredential digest ri rs = Some next → moving o others (k (next, rid))) →
  moving o others (fresh digest ri rs rr ≫= k).
Proof.
  intros Hk d Hd. unfold mbind, eff_bind. destruct (fresh digest ri rs rr d) as [[e|[next rid]] d'] eqn:Hf.
  - left. simpl. revert Hf. unfold fresh. unfold_eff. destruct (createNodeCredential digest ri rs); simpl; [|by intros [= _ <-]].
    destruct (Nat.eqb (length rr) 16); simpl; [|by intros [= _ <-]]. case_match; [done|by intros [= _ <-]].
  - apply fresh_inr in Hf as [Hm ->]. by apply Hk.
Qed.
(** The tokens of a row carry its ids. *)
Lemma token_id r :
  assertRow is_origin r = true →
  (∀ i t, active_credential_id r = Some i → active_credential_token r = Some t → node_id t = Some i)
  ∧ (∀ i t, pending_credential_id r = Some i → pending_credential_token r = Some t → node_id t = Some i).
Proof.
  intros Hr. unfold ResidentStore.assertRow, credentialToken in Hr. guards. unfold node_id.
  split; intros i t Hi Ht; rewrite Hi, Ht in *; (destruct (credential_parts NODE t) as [[j s]|]; [|done]); guards; simpl; congruence.
Qed.
(** The row when a transaction runs, with its tokens. *)
Lemma held_enrolling r i :
  assertRow is_origin r = true → phase r = enrolling → pending_credential_id r = Some i →
  ∃ p, held r = Enrolling p ∧ node_id p = Some i ∧ pending_credential_token r = Some p.
Proof.
  intros Hr Hp Hi. pose proof (proj2 (token_id r Hr)) as Ht. open_row r Hr. simplify_eq. eauto.
Qed.
Lemma held_rotating r i j :
  assertRow is_origin r = true → phase r = rotating → active_credential_id r = Some i → pending_credential_id r = Some j →
  ∃ a p, held r = Rotating a p (not_null (rotation_proposed_at r)) ∧ node_id a = Some i ∧ node_id p = Some j
    ∧ active_credential_token r = Some a ∧ pending_credential_token r = Some p.
Proof.
  intros Hr Hp Hi Hj. destruct (token_id r Hr) as [Ha Ht]. open_row r Hr. simplify_eq. eexists _, _. split_and!; [done|by apply Ha|by apply Ht|done..].
Qed.

Section operations.
Context (others : option Row → option Row).
Context (Hothers : ∀ d, valid is_origin d → valid is_origin (others d)).
Lemma moving_beginEnrollment input now ri rs rr commits :
  moving (op_beginEnrollment input now ri rs rr) others (beginEnrollment is_origin digest input now ri rs rr commits others).
Proof using Hothers.
  unfold beginEnrollment, exactEnrollmentInput. destruct input as [i|]; simpl; [|by apply moving_pure].
  unfold mbind at 1, eff_bind at 1. simpl. unfold mbind at 1, eff_bind at 1. simpl.
  intros d Hd. destruct (_ && _); [|by left]. simpl. revert d Hd.
  apply moving_row. intros r Hr. destruct (phase r) eqn:Hp; try by apply moving_pure.
  - apply moving_fresh. intros next rid Hm. apply moving_expect. intros t _. apply moving_transaction; [done| |apply read_pure].
    intros r' Hr' Hg. guards. open_row r' Hr'. by constructor.
  - case_match; by apply moving_pure.
Qed.
Lemma moving_beginRotation now ri rs rr commits :
  moving (op_beginRotation now ri rs rr) others (beginRotation is_origin digest now ri rs rr commits others).
Proof using Hothers.
  apply moving_row. intros r Hr. destruct (phase r) eqn:Hp; try by apply moving_pure.
  destruct (active_credential_id r); [|by apply moving_pure].
  apply moving_fresh. intros next rid Hm. apply moving_expect. intros t _. apply moving_transaction; [done| |apply read_pure].
  intros r' Hr' Hg. guards. open_row r' Hr'. by constructor.
Qed.
Lemma moving_activateEnrollment v now commits :
  moving (op_activateEnrollment v now) others (activateEnrollment is_origin v now commits others).
Proof using Hothers.
  apply moving_expect. intros res Hres. apply moving_row. intros r Hr.
  destruct (phase r) eqn:Hp; try by apply moving_pure. destruct (pending_credential_id r) as [i|] eqn:Hi; [|by apply moving_pure].
  destruct (_ && _) eqn:Hn; simpl; [|by apply moving_pure]. apply moving_expect. intros t _. apply moving_transaction; [done| |done].
  intros r' Hr' Hg. guards. destruct (held_enrolling r' i) as (p & -> & Hid & Hp'); [done..|].
  unfold held. simpl. rewrite Hp'. econstructor; [done|congruence].
Qed.
Lemma moving_markRotationProposed v now commits :
  moving (op_markRotationProposed v now) others (markRotationProposed is_origin v now commits others).
Proof using Hothers.
  apply moving_expect. intros res Hres. apply moving_row. intros r Hr.
  destruct (phase r) eqn:Hp; try by apply moving_pure. destruct (active_credential_id r) as [i|] eqn:Hi; [|by apply moving_pure].
  destruct (pending_credential_id r) as [j|] eqn:Hj; [|by apply moving_pure].
  unfold names_rotation. destruct (_ && _) eqn:Hn; simpl; [|by apply moving_pure].
  destruct (not_null (rotation_proposed_at r)); [by apply moving_pure|]. apply moving_expect. intros t _.
  apply moving_transaction; [done| |apply read_pure].
  intros r' Hr' Hg. unfold same_rotation in Hg. guards. destruct (held_rotating r' i j) as (a & p & -> & Ha & Hp' & Ea & Ep); [done..|].
  unfold held. simpl. destruct (rotation_proposed_at r'); [done|]. simpl.
  replace (phase r') with rotating by done. rewrite Ea, Ep. econstructor; [done|congruence..].
Qed.
Lemma moving_activateRotation v now commits :
  moving (op_activateRotation v now) others (activateRotation is_origin v now commits others).
Proof using Hothers.
  apply moving_expect. intros res Hres. apply moving_row. intros r Hr.
  destruct (phase r) eqn:Hp; try by apply moving_pure. destruct (active_credential_id r) as [i|] eqn:Hi; [|by apply moving_pure].
  destruct (pending_credential_id r) as [j|] eqn:Hj; [|by apply moving_pure].
  destruct (rotation_proposed_at r); [|by apply moving_pure].
  unfold names_rotation. destruct (_ && _) eqn:Hn; simpl; [|by apply moving_pure]. apply moving_expect. intros t _.
  apply moving_transaction; [done| |done].
  intros r' Hr' Hg. unfold same_rotation in Hg. guards. destruct (held_rotating r' i j) as (a & p & -> & Ha & Hp' & Ea & Ep); [done..|].
  unfold held. simpl. destruct (rotation_proposed_at r'); [|done]. simpl. rewrite Ep. econstructor; [done|congruence..].
Qed.
(** The row is made with nothing. *)
Lemma construct_tokens now random commits d :
  valid is_origin d →
  let d' := (construct is_origin now random commits others d).2 in
  d' = d ∨ d' = others d ∨ tokens d' = Nothing ∧ tokens (others d) = Nothing.
Proof using Hothers.
  intros Hd d'. unfold d', construct. unfold_eff. destruct d as [r|].
  - rewrite (row_valid _ r Hd). by left.
  - unfold expect. destruct (timestamp now) as [t|]; [|by left]. destruct (newGatewayInstanceId random) as [id|]; [|by left].
    simpl. pose proof (Hothers None I) as Ho. destruct (others None) as [r|].
    + simpl. rewrite (row_valid _ r Ho). by right; left.
    + destruct (commits && constraints _); [|by right; left]. right. right. unfold row. unfold_eff.
      by destruct (assertRow is_origin _).
Qed.
Lemma operate_via os o commits d :
  valid is_origin d → via os (tokens d) (tokens (others d)) → via (os ++ [o])%list (tokens d) (tokens (operate o commits others d)).
Proof using Hothers.
  intros Hd Hos. assert (∀ d', d' = d ∨ d' = others d ∨ moves o (tokens (others d)) (tokens d') →
    via (os ++ [o])%list (tokens d) (tokens d')) as Hcases.
  { intros d' [->|[->|Hm]]; [apply via_refl|..]; eapply via_app; [done|apply via_refl|done|by apply via_once]. }
  destruct o; simpl; [|apply Hcases..].
  - destruct (construct_tokens now random commits d Hd) as [->|[->|[-> Hn]]]; [by apply Hcases; auto..|].
    rewrite <-Hn. apply Hcases. auto.
  - by apply moving_beginEnrollment.
  - by apply moving_activateEnrollment.
  - by apply moving_beginRotation.
  - by apply moving_markRotationProposed.
  - by apply moving_activateRotation.
Qed.
End operations.
Lemma performs_valid cs d : valid is_origin d → valid is_origin (performs cs d).
Proof. intros Hd. eapply later_valid; [by apply performs_later|done]. Qed.
Lemma performs_via_of cs d :
  (∀ c d, c ∈ cs → valid is_origin d → via (linear c) (tokens d) (tokens (perform c d))) → valid is_origin d →
  via (flat_map linear cs) (tokens d) (tokens (performs cs d)).
Proof.
  revert d. induction cs as [|c cs IH]; intros d Hc Hd; simpl; [apply via_refl|].
  eapply via_app; [apply Hc; [constructor|done]|]. apply IH; [|by eapply later_valid; [apply perform_later|]].
  intros c' d' Hc'. apply Hc. by constructor.
Qed.
Lemma perform_via c d : valid is_origin d → via (linear c) (tokens d) (tokens (perform c d)).
Proof.
  revert d. induction c as [o b cs IH] using call_induction. intros d Hd. simpl. apply operate_via; [|done|].
  - intros d' Hd'. by apply performs_valid.
  - apply performs_via_of; [|done]. intros c d' Hc. rewrite Forall_forall in IH. by apply IH.
Qed.
Lemma performs_via cs d : valid is_origin d → via (flat_map linear cs) (tokens d) (tokens (performs cs d)).
Proof. intros Hd. apply performs_via_of; [|done]. intros. by apply perform_via. Qed.
(** ** Receipts *)

Lemma expect_inr {A} (x : option A) c d a d' : expect x c d = (inr a, d') → x = Some a ∧ d' = d.
Proof. destruct x; simpl; [by intros [= -> ->]|done]. Qed.
Lemma resident_row_inr d r d' : row is_origin d = (inr r, d') → d = Some r ∧ d' = d ∧ assertRow is_origin r = true.
Proof.
  unfold row. unfold_eff. destruct d as [r0|]; [|done]. destruct (assertRow is_origin r0) eqn:Hr; [|done]. by intros [= <- <-].
Qed.
Lemma resident_transaction_inr commits cols guard f d u d' :
  transaction commits cols guard f d = (inr u, d') → ∃ r, d = Some r ∧ guard r = true ∧ d' = Some (f r).
Proof.
  unfold transaction. unfold_eff. destruct commits; simpl; [|done]. destruct d as [r|]; simpl; [|done].
  destruct (guard r) eqn:Hg; simpl; [|done]. destruct (_ && _); simpl; [|done]. intros [= <-]. eauto.
Qed.
Section receipts.
Context (others : option Row → option Row).
Context (Hothers : ∀ d, valid is_origin d → valid is_origin (others d)).
(** The transaction leaves [Holding] of the token with the id [i]. *)
Lemma receipt_of {A} commits cols guard f (x : A) d t d' i :
  valid is_origin d → (∀ r, assertRow is_origin r = true → guard r = true → ∃ p, held (f r) = Holding p ∧ node_id p = Some i) →
  (modify others;; transaction commits cols guard f;; mret x) d = (inr t, d') →
  t = x ∧ ∃ p, tokens d' = Holding p ∧ node_id p = Some i.
Proof using Hothers.
  intros Hd Hf (u & d1 & Hm & (u' & d2 & (r & Hr & Hg & ->)%resident_transaction_inr & Ht)%bind_inv)%bind_inv.
  injection Hm as _ <-. injection Ht as -> <-. split; [done|]. apply Hf; [|done]. pose proof (Hothers d Hd) as Hv. by rewrite Hr in Hv.
Qed.
Lemma enrollment_receipt v now commits d t d' :
  valid is_origin d → activateEnrollment is_origin v now commits others d = (inr t, d') →
  ∃ p, tokens d' = Holding p ∧ node_id p = Some (t_credentialId t).
Proof using Hothers.
  intros Hd (res & d1 & [_ ->]%expect_inr & (r & d2 & (-> & -> & Hr)%resident_row_inr & H)%bind_inv)%bind_inv.
  destruct (phase r); try done. destruct (pending_credential_id r) as [i|] eqn:Hi; [|done].
  destruct (_ && _); simpl in H; [|done]. apply bind_inv in H as (z & d2 & [_ Heq]%expect_inr & H); subst d2.
  eapply receipt_of with (i := i) in H as [-> Hp]; [exact Hp|done|]. intros r' Hr' Hg. guards.
  destruct (held_enrolling r' i) as (p & _ & Hid & Ep); [done..|]. exists p. unfold held. simpl. by rewrite Ep.
Qed.
Lemma rotation_receipt v now commits d t d' :
  valid is_origin d → activateRotation is_origin v now commits others d = (inr t, d') →
  ∃ p, tokens d' = Holding p ∧ node_id p = Some (t_credentialId t).
Proof using Hothers.
  intros Hd (res & d1 & [_ ->]%expect_inr & (r & d2 & (-> & -> & Hr)%resident_row_inr & H)%bind_inv)%bind_inv.
  destruct (phase r); try done. destruct (active_credential_id r) as [i|]; [|done].
  destruct (pending_credential_id r) as [j|]; [|done]. destruct (rotation_proposed_at r); [|done].
  destruct (names_rotation _ _ _ _); simpl in H; [|done]. apply bind_inv in H as (z' & d2 & [_ ->]%expect_inr & H).
  eapply receipt_of with (i := j) in H as [-> Hp]; [exact Hp|done|]. intros r' Hr' Hg. unfold same_rotation in Hg. guards.
  destruct (held_rotating r' i j) as (a & p & _ & _ & Hid & _ & Ep); [done..|]. exists p. unfold held. simpl. by rewrite Ep.
Qed.
End receipts.

(** C5. The resident's memory of its Gateway follows the enrollment and rotation
    protocol: however many processes call the operations, in any order, with any input
    and any result from the Gateway, with their transactions interleaved and failing at
    will, the row is never found corrupt, its identity, creation time and (once bound)
    endpoint and display name never change, and its time of update never goes back.
    The tokens it holds are those the calls put there: some of the calls, in the order
    of their transactions and each at most once, lead from the tokens held before to
    those held after by the moves of the protocol - an enrollment or a rotation begins
    with the token made from the random bytes of that very call, the Gateway's answer
    must name the ids of the tokens held, and activation makes exactly the pending
    token the active one.  A receipt of an activation names the token then held. *)
Theorem resident_store_refines cs r :
  performs cs None = Some r →
  read is_origin (Some r) = (inr (publicSnapshot r), Some r) ∧ timed r ∧ via (flat_map linear cs) Nothing (held r)
  ∧ (∀ cs', ∃ r', performs cs' (Some r) = Some r' ∧ evolves is_origin r r' ∧ via (flat_map linear cs') (held r) (held r'))
  ∧ (∀ v now commits cs' t d',
      activateEnrollment is_origin v now commits (performs cs') (Some r) = (inr t, d')
      ∨ activateRotation is_origin v now commits (performs cs') (Some r) = (inr t, d') →
      ∃ p, tokens d' = Holding p ∧ node_id p = Some (t_credentialId t)).
Proof.
  intros Hr. pose proof (performs_later cs None I) as Hl. pose proof (performs_via cs None I) as Hm. rewrite Hr in Hl, Hm.
  destruct Hl as (Hv & Ht). split_and!; [|done|done|..].
  - unfold read. unfold_eff. by rewrite (row_valid _ r Hv).
  - intros cs'. pose proof (performs_later cs' (Some r) Hv) as Hl. pose proof (performs_via cs' (Some r) Hv) as Hm'.
    destruct (performs cs' (Some r)) as [r'|]; [|done]. eauto.
  - intros v now commits cs' t d' [H|H]; [eapply enrollment_receipt in H|eapply rotation_receipt in H]; try done;
      intros; by apply performs_valid.
Qed.
End run.
