(* ===== verification/ResidentProgress.v ===== *)
(** * The resident's operations succeed

    When no other process interferes and the database works, every operation called in
    its phase is carried out: the constraints and triggers of the table accept what the
    code writes. *)

From S2P Require Import Prelude Effects Protocol Codec CodecFacts JsString JsText Credentials ResidentControl TextFacts ResidentStore ResidentStoreTheorems.
Local Open Scope string_scope.
Local Open Scope Z_scope.

Section store.
Context (is_origin : string → bool) (digest : string → list Z).
(** An origin, as the URL parser writes it, is printable ASCII. *)
Context (origin_ascii : ∀ s, is_origin s = true → all_chars (ascii_in 33 126) s = true).
Abbreviation assertRow := (assertRow is_origin).

(** ** The schema accepts every row the code accepts *)

Lemma endpoint_between s : validEndpoint is_origin s = true → between 1 2048 s = true.
Proof using origin_ascii.
  unfold validEndpoint, between. intros H. guards. rewrite sql_length_ascii by auto. apply andb_true_iff. rewrite !Z.leb_le. lia.
Qed.
Lemma name_between s : validDisplayName s = true → between 1 128 s = true.
Proof.
  unfold validDisplayName, between. intros H. guards. apply andb_true_iff. rewrite !Z.leb_le.
  assert (units s ≠ []) as Hne by (by intros Hu; rewrite Hu in *).
  pose proof (sql_length_text (units s) (units_ok s) Hne) as Hs. rewrite H0 in Hs. split; [lia|].
  pose proof (sql_length_le s) as Hl. rewrite <-H0 in Hl at 2. unfold bytes, text_of in Hl. rewrite length_string_of_bytes in Hl.
  unfold byteLength in *. lia.
Qed.
Lemma token_constraint id t :
  credentialToken id t = true →
  null_or (id_chars 22) id = true
  ∧ null_or (λ t, match credential_parts NODE t with Some (i, _) => bool_decide (id = Some i) | None => false end) t = true.
Proof.
  destruct id as [i|], t as [t|]; simpl; try done. destruct (credential_parts NODE t) as [[i' s]|] eqn:Ht; [|done].
  intros ->%String.eqb_eq. apply parts_spec in Ht as (_ & Hi & _). split; [done|]. by apply bool_decide_eq_true.
Qed.
Lemma null_or_mono {A} (P Q : A → bool) o : (∀ a, P a = true → Q a = true) → null_or P o = true → null_or Q o = true.
Proof. destruct o; simpl; auto. Qed.
Lemma schema_accepts r : assertRow r = true → constraints r = true.
Proof using origin_ascii.
  intros Hr. unfold ResidentStore.assertRow in Hr. guards.
  repeat match goal with H : credentialToken _ _ = true |- _ => apply token_constraint in H as [? ?] end.
  assert (∀ c t, since c t = true → Z.leb c t = true) as Hsince.
  { unfold since. intros c t Ht. apply Z.leb_le. by guards. }
  unfold constraints. repeat match goal with |- _ && _ = true => apply andb_true_iff; split end;
    try done; try (by apply Z.leb_le); try (eapply null_or_mono; [|eassumption]; by eauto using endpoint_between, name_between).
  - unfold validTime in *. guards. by apply Z.leb_le.
  - destruct (rotation_proposed_at r) as [t|]; [|done]. simpl in *. destruct (bool_decide (phase r = rotating)); [|done].
    destruct (rotation_started_at r) as [u|]; [|done]. apply andb_true_iff in H4 as [Hs ->]. by rewrite (Hsince u t Hs).
Qed.

(** ** The transactions *)

Lemma transaction_runs cols guard f r :
  guard r = true → assertRow (f r) = true → triggers cols r (f r) = true →
  transaction true cols guard f (Some r) = (inr tt, Some (f r)).
Proof using origin_ascii.
  intros Hg Hv Ht. unfold transaction. unfold_eff. simpl. by rewrite Hg, (schema_accepts _ Hv), Ht.
Qed.
Lemma read_valid r : assertRow r = true → read is_origin (Some r) = (inr (publicSnapshot r), Some r).
Proof. intros Hr. unfold read. unfold_eff. by rewrite row_valid. Qed.
(** The triggers let the five steps pass. *)
Ltac trigger :=
  unfold triggers; simpl; rewrite ?String.eqb_refl, ?Z.ltb_irrefl; simpl;
  repeat match goal with |- context [Z.ltb ?a ?b] => replace (Z.ltb a b) with false by (symmetry; apply Z.ltb_ge; lia) end;
  done.
Lemma trigger_enrolling i rid next at_ r :
  assertRow r = true → phase r = phase_idle → updated_at r ≤ at_ →
  triggers [c_phase; c_endpoint; c_display_name; c_enrollment_grant; c_request_id; c_pending_id; c_pending_token;
            c_enrollment_started_at; c_updated_at] r (to_enrolling i rid next at_ r) = true.
Proof. intros Hr Hp Hu. open_row r Hr. trigger. Qed.
Lemma trigger_enrolled at_ r :
  assertRow r = true → phase r = enrolling → updated_at r ≤ at_ →
  triggers [c_phase; c_enrollment_grant; c_request_id; c_active_id; c_active_token; c_pending_id; c_pending_token;
            c_activated_at; c_updated_at] r (to_active_enrolled at_ r) = true.
Proof. intros Hr Hp Hu. open_row r Hr. trigger. Qed.
Lemma trigger_rotating rid next at_ r :
  assertRow r = true → phase r = active → updated_at r ≤ at_ →
  triggers [c_phase; c_request_id; c_pending_id; c_pending_token; c_rotation_started_at; c_rotation_proposed_at; c_updated_at]
    r (to_rotating rid next at_ r) = true.
Proof. intros Hr Hp Hu. open_row r Hr. trigger. Qed.
Lemma trigger_proposed at_ r :
  assertRow r = true → phase r = rotating → rotation_proposed_at r = None → updated_at r ≤ at_ →
  triggers [c_rotation_proposed_at; c_updated_at] r (to_proposed at_ r) = true.
Proof. intros Hr Hp Hn Hu. open_row r Hr. trigger. Qed.
Lemma trigger_rotated at_ r :
  assertRow r = true → phase r = rotating → timed r → updated_at r ≤ at_ →
  triggers [c_phase; c_request_id; c_active_id; c_active_token; c_pending_id; c_pending_token; c_rotation_started_at;
            c_rotation_proposed_at; c_activated_at; c_updated_at] r (to_active_rotated at_ r) = true.
Proof. intros Hr Hp Hm Hu. open_row r Hr. specialize (Hm _ eq_refl). simpl in Hm. trigger. Qed.

(** ** The operations *)

Abbreviation quiet := (λ d : option Row, d).
Lemma fresh_runs ri rs rr next :
  createNodeCredential digest ri rs = Some next → length rr = 16%nat → Forall is_byte rr →
  ∀ d, fresh digest ri rs rr d = (inr (next, REQUEST_PREFIX +:+ base64url rr), d).
Proof.
  intros Hn Hl Hb d. unfold fresh, expect. rewrite Hn, Hl. unfold_eff. simpl.
  by rewrite is_id_prefixed by (eapply base64url_id; [done..|lia]).
Qed.
(** What the random source gives. *)
Record drawn (ri rs rr : list Z) (next : material) : Prop := {
  d_created : createNodeCredential digest ri rs = Some next;
  d_id : Forall is_byte ri;
  d_secret : Forall is_byte rs;
  d_length : length rr = 16%nat;
  d_request : Forall is_byte rr;
}.
Lemma drawn_stored ri rs rr next :
  drawn ri rs rr next → stored (m_id next) (m_token next) (REQUEST_PREFIX +:+ base64url rr).
Proof.
  intros [Hn Hi Hs Hl Hb]. destruct (created_parts digest NODE ri rs next eq_refl Hi Hs Hn) as (s & Hp & _ & _).
  split; [|by rewrite Hp]. apply is_id_prefixed. eapply base64url_id; [done..|lia].
Qed.
Lemma exact_message_runs {A} `{Message A} (m : A) : well_formed m → ∀ d, exact_message (message_json m) d = (inr m, d).
Proof.
  intros Hm d. destruct (message_reads_back m Hm) as [Hs Hd]. unfold exact_message. rewrite Hs. simpl. by rewrite Hd.
Qed.
Lemma max_updated t r : updated_at r ≤ Z.max t (updated_at r).
Proof. lia. Qed.
#[local] Hint Resolve max_updated : core.

Lemma beginEnrollment_runs i now t ri rs rr next r :
  assertRow r = true → phase r = phase_idle → input_ok is_origin i → timestamp now = Some t → drawn ri rs rr next →
  let r' := to_enrolling i (REQUEST_PREFIX +:+ base64url rr) next (Z.max t (updated_at r)) r in
  assertRow r' = true
  ∧ beginEnrollment is_origin digest (Some i) now ri rs rr true quiet (Some r) = (inr (publicSnapshot r'), Some r').
Proof using origin_ascii.
  intros Hr Hp Hi Ht Hd r'. pose proof (drawn_stored _ _ _ _ Hd) as Hst. destruct Hd as [Hn _ _ Hl Hb].
  assert (assertRow r' = true) as Hv by (apply enrolling_valid; eauto using at_valid).
  split; [done|]. unfold beginEnrollment, exactEnrollmentInput. destruct Hi as (He & Hd & Hg). unfold_eff. simpl.
  rewrite He, Hd, (bool_decide_eq_true_2 _ Hg). simpl. rewrite (row_valid _ _ Hr), Hp. simpl.
  rewrite (fresh_runs ri rs rr next), Ht by done. simpl. fold r'.
  rewrite (transaction_runs _ _ _ r); [|by rewrite Hp|done|by apply trigger_enrolling]. fold r'. by rewrite (read_valid r').
Qed.
(** The same enrollment again: nothing is changed. *)
Lemma beginEnrollment_again i now ri rs rr r :
  assertRow r = true → phase r = enrolling → input_ok is_origin i → endpoint r = Some (i_endpoint i) →
  display_name r = Some (i_displayName i) → enrollment_grant r = Some (i_grantToken i) →
  beginEnrollment is_origin digest (Some i) now ri rs rr true quiet (Some r) = (inr (publicSnapshot r), Some r).
Proof.
  intros Hr Hp (He & Hd & Hg) H1 H2 H3. unfold beginEnrollment, exactEnrollmentInput. unfold_eff. simpl.
  rewrite He, Hd, (bool_decide_eq_true_2 _ Hg). simpl. rewrite (row_valid _ _ Hr), Hp, H1, H2, H3. simpl.
  by rewrite !bool_decide_eq_true_2.
Qed.
Lemma activateEnrollment_runs result now t r p :
  assertRow r = true → phase r = enrolling → pending_credential_id r = Some p → timestamp now = Some t →
  ers_instanceId result = instance_id r → ers_credentialId result = p →
  let r' := to_active_enrolled (Z.max t (updated_at r)) r in
  assertRow r' = true
  ∧ activateEnrollment is_origin (message_json result) now true quiet (Some r)
    = (inr (mkReceipt (instance_id r) p None), Some r').
Proof using origin_ascii.
  intros Hr Hp Hpi Ht H1 H2 r'. assert (assertRow r' = true) as Hv by (apply enrolled_valid; eauto using at_valid).
  assert (well_formed result) as Hw.
  { unfold ResidentStore.assertRow in Hr. guards. split; [by rewrite H1|]. rewrite H2.
    match goal with H : credentialToken (pending_credential_id r) _ = true |- _ => apply token_constraint in H as [H _] end.
    by rewrite Hpi in *. }
  split; [done|]. unfold activateEnrollment. unfold_eff. rewrite (exact_message_runs result Hw), (row_valid _ _ Hr), Hp, Hpi.
  rewrite H1, H2, !String.eqb_refl, Ht. simpl.
  rewrite (transaction_runs _ _ _ r); [done| |done|by apply trigger_enrolled].
  by rewrite Hp, Hpi, String.eqb_refl, !bool_decide_eq_true_2.
Qed.
Lemma beginRotation_runs now t ri rs rr next r a :
  assertRow r = true → phase r = active → timestamp now = Some t → drawn ri rs rr next →
  active_credential_id r = Some a → a ≠ m_id next →
  let r' := to_rotating (REQUEST_PREFIX +:+ base64url rr) next (Z.max t (updated_at r)) r in
  assertRow r' = true
  ∧ beginRotation is_origin digest now ri rs rr true quiet (Some r) = (inr (publicSnapshot r'), Some r').
Proof using origin_ascii.
  intros Hr Hp Ht Hd Ha Hne r'. pose proof (drawn_stored _ _ _ _ Hd) as Hst. destruct Hd as [Hn _ _ Hl Hb].
  assert (assertRow r' = true) as Hv by (apply rotating_valid; eauto using at_valid; congruence).
  split; [done|]. unfold beginRotation. unfold_eff. rewrite (row_valid _ _ Hr), Hp, Ha.
  rewrite (fresh_runs ri rs rr next), Ht by done. simpl. fold r'.
  rewrite (transaction_runs _ _ _ r); [|by rewrite Hp, Ha, !bool_decide_eq_true_2|done|by apply trigger_rotating].
  fold r'. by rewrite (read_valid r').
Qed.

(** The row while it rotates from [a] to [p]. *)
Definition rotates (r : Row) (a p : string) : Prop :=
  phase r = rotating ∧ active_credential_id r = Some a ∧ pending_credential_id r = Some p.
Definition names (result : ResidentRotationResult) (r : Row) (a p : string) : Prop :=
  rrs_instanceId result = instance_id r ∧ rrs_credentialId result = p ∧ rrs_previousCredentialId result = a.
Lemma names_well_formed result r a p : assertRow r = true → rotates r a p → names result r a p → well_formed result.
Proof.
  intros Hr (Hp & Ha & Hq) (H1 & H2 & H3). unfold ResidentStore.assertRow in Hr. guards.
  repeat match goal with H : credentialToken _ _ = true |- _ => apply token_constraint in H as [? _] end.
  rewrite Ha, Hq in *. simpl in *. unfold wf_rotationResult, isCredentialId. by rewrite H1, H2, H3.
Qed.
Lemma names_rotation_true result r a p : names result r a p → names_rotation result r a p = true.
Proof. unfold names_rotation. intros (-> & -> & ->). by rewrite !String.eqb_refl. Qed.
Lemma same_rotation_true r a p : rotates r a p → same_rotation r a p r = true.
Proof. intros (Hp & Ha & Hq). unfold same_rotation. by rewrite Hp, Ha, Hq, String.eqb_refl, !bool_decide_eq_true_2. Qed.
Lemma markRotationProposed_runs result now t r a p :
  assertRow r = true → rotates r a p → rotation_proposed_at r = None → timestamp now = Some t → names result r a p →
  let r' := to_proposed (Z.max (Z.max t (updated_at r)) (default 0 (rotation_started_at r))) r in
  assertRow r' = true
  ∧ markRotationProposed is_origin (message_json result) now true quiet (Some r) = (inr (publicSnapshot r'), Some r').
Proof using origin_ascii.
  intros Hr Hrot Hn Ht Hnm r'. pose proof Hrot as (Hp & Ha & Hq).
  assert (assertRow r' = true) as Hv.
  { apply proposed_valid; try done; [|lia|intros u Hu; rewrite Hu; simpl; lia].
    apply validTime_max; [by eapply at_valid|]. destruct (rotation_started_at r) eqn:Hs; [|done].
    by eapply (proj2 (row_times _ r Hr)). }
  split; [done|]. unfold markRotationProposed. unfold_eff.
  rewrite (exact_message_runs result) by (by apply (names_well_formed _ r a p)). rewrite (row_valid _ _ Hr), Hp, Ha, Hq.
  rewrite (names_rotation_true _ _ _ _ Hnm), Hn, Ht. simpl. fold r'.
  rewrite (transaction_runs _ _ _ r); [|by rewrite (same_rotation_true _ _ _ Hrot), Hn|done|apply trigger_proposed; try done; lia].
  fold r'. by rewrite (read_valid r').
Qed.
Lemma markRotationProposed_again result now r a p :
  assertRow r = true → rotates r a p → is_Some (rotation_proposed_at r) → names result r a p →
  markRotationProposed is_origin (message_json result) now true quiet (Some r) = (inr (publicSnapshot r), Some r).
Proof.
  intros Hr Hrot [u Hu] Hnm. pose proof Hrot as (Hp & Ha & Hq). unfold markRotationProposed. unfold_eff.
  rewrite (exact_message_runs result) by (by apply (names_well_formed _ r a p)). rewrite (row_valid _ _ Hr), Hp, Ha, Hq.
  by rewrite (names_rotation_true _ _ _ _ Hnm), Hu.
Qed.
Lemma activateRotation_runs result now t r a p :
  assertRow r = true → timed r → rotates r a p → is_Some (rotation_proposed_at r) → timestamp now = Some t → names result r a p →
  let r' := to_active_rotated (Z.max t (updated_at r)) r in
  assertRow r' = true
  ∧ activateRotation is_origin (message_json result) now true quiet (Some r)
    = (inr (mkReceipt (instance_id r) p (Some a)), Some r').
Proof using origin_ascii.
  intros Hr Hm Hrot [u Hu] Ht Hnm r'. pose proof Hrot as (Hp & Ha & Hq).
  assert (assertRow r' = true) as Hv by (apply rotated_valid; eauto using at_valid).
  split; [done|]. unfold activateRotation. unfold_eff.
  rewrite (exact_message_runs result) by (by apply (names_well_formed _ r a p)). rewrite (row_valid _ _ Hr), Hp, Ha, Hq, Hu.
  rewrite (names_rotation_true _ _ _ _ Hnm), Ht. simpl. fold r'.
  rewrite (transaction_runs _ _ _ r); [done|by rewrite (same_rotation_true _ _ _ Hrot), Hu|done|by apply trigger_rotated].
Qed.

(** ** The requests *)

(** SHA-256 yields 32 bytes. *)
Context (digest_ok : ∀ s, Forall is_byte (digest s) ∧ length (digest s) = 32%nat).

Lemma verifier_written s : ∃ v, encodeCredentialVerifier (digest s) = Some v ∧ decodeCredentialVerifier v = Some (digest s).
Proof using digest_ok. destruct (digest_ok s) as [Hb Hl]. apply verifier_roundtrip; [done|]. by apply Nat.eqb_eq. Qed.
Lemma name_well_formed s : validDisplayName s = true → wf_name s.
Proof.
  unfold validDisplayName, wf_name, displayName. intros H. guards. rewrite H.
  rewrite (proj2 (Nat.eqb_neq _ _)) by (by apply Nat.eqb_neq). rewrite H3. simpl.
  replace (displayNameBytes <? _) with false by (symmetry; apply Z.ltb_ge; unfold displayNameBytes; lia). simpl.
  rewrite bool_decide_eq_true_2 by done. simpl. by f_equal.
Qed.
(** A token the row holds is a node credential of its id. *)
Lemma held_token id t : credentialToken (Some id) (Some t) = true → ∃ s, credential_parts NODE t = Some (id, s).
Proof.
  simpl. destruct (credential_parts NODE t) as [[i s]|]; [|done]. intros ->%String.eqb_eq. eauto.
Qed.
Lemma row_bind {A} r (k : Row → eff (option Row) resident_exn A) :
  assertRow r = true → (row is_origin ≫= k) (Some r) = k r (Some r).
Proof. intros Hr. unfold mbind, eff_bind. by rewrite row_valid. Qed.
(** The columns of a row that enrolls, and of one that rotates. *)
Record enrolls (r : Row) (e n g rid p tp sp : string) : Prop := {
  en_phase : phase r = enrolling;
  en_endpoint : endpoint r = Some e;
  en_name : display_name r = Some n;
  en_grant : enrollment_grant r = Some g;
  en_request : request_id r = Some rid;
  en_pending : pending_credential_id r = Some p;
  en_token : pending_credential_token r = Some tp;
  en_parts : credential_parts NODE tp = Some (p, sp);
  en_ok : isGatewayInstanceId (instance_id r) = true ∧ input_ok is_origin (mkBegin e g n) ∧ is_id REQUEST_PREFIX rid = true;
}.
Record rotation (r : Row) (e rid a ta sa p tp sp : string) : Prop := {
  ro_rotates : rotates r a p;
  ro_endpoint : endpoint r = Some e;
  ro_request : request_id r = Some rid;
  ro_active : active_credential_token r = Some ta;
  ro_pending : pending_credential_token r = Some tp;
  ro_active_parts : credential_parts NODE ta = Some (a, sa);
  ro_pending_parts : credential_parts NODE tp = Some (p, sp);
  ro_ok : isGatewayInstanceId (instance_id r) = true ∧ a ≠ p ∧ is_id REQUEST_PREFIX rid = true;
}.
Lemma enrolls_columns r :
  assertRow r = true → phase r = enrolling → ∃ e n g rid p tp sp, enrolls r e n g rid p tp sp.
Proof.
  intros Hr Hp. open_row r Hr.
  match goal with H : match credential_parts NODE ?t with _ => _ end = true |- _ => destruct (held_token _ t H) as [x Hx] end.
  do 7 eexists. split; try done. split_and!; try done. by apply bool_decide_eq_true in H22.
Qed.
Lemma rotation_columns r :
  assertRow r = true → phase r = rotating → ∃ e rid a ta sa p tp sp, rotation r e rid a ta sa p tp sp.
Proof.
  intros Hr Hp. open_row r Hr.
  repeat match goal with H : match credential_parts NODE ?t with _ => _ end = true |- _ =>
    destruct (held_token _ t H) as [? ?]; clear H end.
  do 8 eexists. split; try done. split_and!; try done. intros ->. congruence.
Qed.
Lemma enrollmentRequest_runs r e n g rid p tp sp :
  assertRow r = true → enrolls r e n g rid p tp sp →
  ∃ v, decodeCredentialVerifier v = Some (digest sp)
    ∧ let m := mkEnrollmentRequest g (instance_id r) n p v rid in
      well_formed m ∧ enrollmentRequest is_origin digest (Some r) = (inr m, Some r).
Proof using digest_ok.
  intros Hr [Hp He Hn Hg Hrq Hpi Ht Hx (Hi & (_ & Hd & Hgt) & Hri)]. destruct (verifier_written sp) as (v & Hv & Hdec).
  exists v. split; [done|]. split.
  - split_and!; try done; [by apply name_well_formed| |by eexists]. by apply parts_spec in Hx as (_ & ? & _).
  - unfold enrollmentRequest. rewrite row_bind by done. rewrite Hp, Hg, Hn, Hrq, Hpi, Ht.
    unfold parseNodeCredential, parse. by rewrite Hx, String.eqb_refl, Hv.
Qed.
Lemma rotationRequest_runs r e rid a ta sa p tp sp :
  assertRow r = true → rotation r e rid a ta sa p tp sp →
  ∃ v, decodeCredentialVerifier v = Some (digest sp)
    ∧ let m := mkRotationRequest p v rid in
      well_formed m ∧ rotationRequest is_origin digest (Some r) = (inr m, Some r).
Proof using digest_ok.
  intros Hr [(Hp & Ha & Hpi) He Hrq Hta Htp Hx Hy (Hi & _ & Hri)]. destruct (verifier_written sp) as (v & Hv & Hdec).
  exists v. split; [done|]. split.
  - split_and!; try done; [|by eexists]. by apply parts_spec in Hy as (_ & ? & _).
  - unfold rotationRequest. rewrite row_bind by done. rewrite Hp, Hrq, Hpi, Htp.
    unfold parseNodeCredential, parse. by rewrite Hy, String.eqb_refl, Hv.
Qed.
End store.

(** * What the resident's operations change, without interference

    Each operation leaves the row as it is, or takes its one step. *)


Section store.
Context (is_origin : string → bool) (digest : string → list Z).
Abbreviation assertRow := (assertRow is_origin).
Abbreviation M := (eff (option Row) resident_exn).
Abbreviation quiet := (λ d : option Row, d).

Lemma expect_bind {A B} (o : option A) c (k : A → M B) d res d' :
  (expect o c ≫= k) d = (res, d') → d' = d ∨ ∃ a, o = Some a ∧ k a d = (res, d').
Proof. destruct o as [a|]; simpl; [right; eauto|]. intros [= <- <-]. by left. Qed.
Lemma quiet_bind {B} (k : M B) d : (modify quiet;; k) d = k d.
Proof. done. Qed.
Lemma transaction_inv {B} commits cols guard f (k : () → M B) r res d' :
  (∀ d, (k tt d).2 = d) → (transaction commits cols guard f ≫= k) (Some r) = (res, d') →
  d' = Some r ∨ guard r = true ∧ d' = Some (f r).
Proof.
  intros Hk. unfold transaction, mbind at 1, eff_bind at 1. destruct commits; simpl; [|intros [= <- <-]; by left].
  unfold_eff. destruct (guard r); simpl; [|intros [= <- <-]; by left].
  destruct (constraints (f r) && _); simpl; [|intros [= <- <-]; by left].
  intros H. specialize (Hk (Some (f r))). rewrite H in Hk. simpl in Hk. auto.
Qed.
Lemma fresh_bind {B} ri rs rr (k : material * string → M B) d res d' :
  (fresh digest ri rs rr ≫= k) d = (res, d') →
  d' = d ∨ ∃ next rid, createNodeCredential digest ri rs = Some next ∧ k (next, rid) d = (res, d').
Proof.
  unfold fresh, expect. destruct (createNodeCredential digest ri rs) as [next|]; [|intros [= <- <-]; by left].
  destruct (Nat.eqb (length rr) 16); [|intros [= <- <-]; by left]. unfold mbind, eff_bind. simpl.
  match goal with |- context [is_id ?p ?x] => destruct (is_id p x) end; [|intros [= <- <-]; by left]. simpl. eauto.
Qed.
Lemma input_bind {B} i (k : BeginGatewayEnrollment → M B) d res d' :
  (exactEnrollmentInput is_origin i ≫= k) d = (res, d') → d' = d ∨ ∃ i', k i' d = (res, d').
Proof.
  unfold exactEnrollmentInput, mbind, eff_bind. destruct i as [i|]; simpl; [|intros [= <- <-]; by left].
  destruct (_ && _ && _); simpl; [right; eauto|intros [= <- <-]; by left].
Qed.
Ltac stays := intros [= <- <-]; by left.

Lemma activateRotation_inv v now commits r res d' :
  assertRow r = true → activateRotation is_origin v now commits quiet (Some r) = (res, d') →
  d' = Some r ∨ ∃ result a p t, exact_message (A := ResidentRotationResult) v (Some r) = (inr result, Some r)
    ∧ rotates r a p ∧ names result r a p ∧ is_Some (rotation_proposed_at r) ∧ d' = Some (to_active_rotated t r).
Proof.
  intros Hr. unfold activateRotation. intros H. apply expect_bind in H as [->|(result & Hres & H)]; [by left|].
  rewrite row_bind in H by done. destruct (phase r) eqn:Hp; revert H; try stays.
  destruct (active_credential_id r) as [a|] eqn:Ha; [|stays]. destruct (pending_credential_id r) as [p|] eqn:Hq; [|stays].
  destruct (rotation_proposed_at r) as [u|] eqn:Hu; [|stays]. destruct (names_rotation result r a p) eqn:Hn; [|stays].
  intros H. apply expect_bind in H as [->|(t & Ht & H)]; [by left|]. simpl in H.
  apply transaction_inv in H as [->|[_ ->]]; [by left| |done]. right. exists result, a, p. eexists.
  unfold names_rotation in Hn. guards. split_and!; try done. unfold exact_message. by rewrite Hres.
Qed.
Lemma markRotationProposed_inv v now commits r res d' :
  assertRow r = true → markRotationProposed is_origin v now commits quiet (Some r) = (res, d') →
  d' = Some r ∨ ∃ result a p t, exact_message (A := ResidentRotationResult) v (Some r) = (inr result, Some r)
    ∧ rotates r a p ∧ names result r a p ∧ rotation_proposed_at r = None ∧ d' = Some (to_proposed t r).
Proof.
  intros Hr. unfold markRotationProposed. intros H. apply expect_bind in H as [->|(result & Hres & H)]; [by left|].
  rewrite row_bind in H by done. destruct (phase r) eqn:Hp; revert H; try stays.
  destruct (active_credential_id r) as [a|] eqn:Ha; [|stays]. destruct (pending_credential_id r) as [p|] eqn:Hq; [|stays].
  destruct (names_rotation result r a p) eqn:Hn; [|stays]. simpl. destruct (rotation_proposed_at r) as [u|] eqn:Hu; [stays|]. simpl.
  intros H. apply expect_bind in H as [->|(t & Ht & H)]; [by left|].
  apply transaction_inv in H as [->|[_ ->]]; [by left| |intros; apply read_pure]. right. exists result, a, p. eexists.
  unfold names_rotation in Hn. guards. split_and!; try done. unfold exact_message. by rewrite Hres.
Qed.
Lemma activateEnrollment_inv v now commits r res d' :
  assertRow r = true → activateEnrollment is_origin v now commits quiet (Some r) = (res, d') →
  d' = Some r ∨ ∃ result p t, exact_message (A := ResidentEnrollmentResult) v (Some r) = (inr result, Some r)
    ∧ phase r = enrolling ∧ pending_credential_id r = Some p ∧ ers_instanceId result = instance_id r
    ∧ ers_credentialId result = p ∧ d' = Some (to_active_enrolled t r).
Proof.
  intros Hr. unfold activateEnrollment. intros H. apply expect_bind in H as [->|(result & Hres & H)]; [by left|].
  rewrite row_bind in H by done. destruct (phase r) eqn:Hp; revert H; try stays.
  destruct (pending_credential_id r) as [p|] eqn:Hq; [|stays].
  destruct (String.eqb (ers_instanceId result) (instance_id r) && String.eqb (ers_credentialId result) p) eqn:Hn; [|stays].
  intros H. apply expect_bind in H as [->|(t & Ht & H)]; [by left|]. simpl in H.
  apply transaction_inv in H as [->|[_ ->]]; [by left| |done]. right. exists result, p. eexists.
  guards. split_and!; try done. unfold exact_message. by rewrite Hres.
Qed.
Lemma beginRotation_inv now ri rs rr commits r res d' :
  assertRow r = true → beginRotation is_origin digest now ri rs rr commits quiet (Some r) = (res, d') →
  d' = Some r ∨ ∃ next rid t, createNodeCredential digest ri rs = Some next ∧ phase r = active
    ∧ d' = Some (to_rotating rid next t r).
Proof.
  intros Hr. unfold beginRotation. intros H. rewrite row_bind in H by done. destruct (phase r) eqn:Hp; revert H; try stays.
  destruct (active_credential_id r) as [a|] eqn:Ha; [|stays].
  intros H. apply fresh_bind in H as [->|(next & rid & Hn & H)]; [by left|].
  apply expect_bind in H as [->|(t & Ht & H)]; [by left|].
  apply transaction_inv in H as [->|[_ ->]]; [by left| |intros; apply read_pure]. right. eauto 8.
Qed.
Lemma beginEnrollment_inv i now ri rs rr commits r res d' :
  assertRow r = true → beginEnrollment is_origin digest i now ri rs rr commits quiet (Some r) = (res, d') →
  d' = Some r ∨ ∃ i' next rid t, createNodeCredential digest ri rs = Some next ∧ phase r = phase_idle
    ∧ d' = Some (to_enrolling i' rid next t r).
Proof.
  intros Hr. unfold beginEnrollment. intros H. apply input_bind in H as [->|(i' & H)]; [by left|].
  rewrite row_bind in H by done. destruct (phase r) eqn:Hp; revert H; try stays.
  2:{ match goal with |- context [if ?b then mret _ else _] => destruct b end; stays. }
  intros H. apply fresh_bind in H as [->|(next & rid & Hn & H)]; [by left|].
  apply expect_bind in H as [->|(t & Ht & H)]; [by left|].
  apply transaction_inv in H as [->|[_ ->]]; [by left| |intros; apply read_pure]. right. eauto 9.
Qed.
End store.
