(* ===== verification/CredentialStore.v ===== *)
(** * The credentials a Gateway knows (packages/gateway/src/credential-store.ts)

    Enrollment grants, enrolled instances and node credentials, in three tables of the
    Gateway database with their constraints and triggers (packages/gateway/src/
    migrations.ts), and the operations on them, each one transaction.

    A [circumstance] says what the world does to one call: the clock, whether the
    database and the audit writer carry the transaction out, and whether the hook after
    the write fails, in which case the caller sees an error although the write stands. *)

From S2P Require Import Prelude Effects Protocol Codec JsString JsText Credentials ResidentControl.
Local Open Scope string_scope.
Local Open Scope Z_scope.

Inductive GatewayCredentialErrorCode := code_invalid | code_expired | code_revoked | code_conflict.
#[export] Instance GatewayCredentialErrorCode_eq_dec : EqDecision GatewayCredentialErrorCode.
Proof. solve_decision. Defined.
(** A [GatewayCredentialError], a plain [Error] on an argument, an error of SQLite (with
    whether it is a violated UNIQUE constraint) or of the audit writer, or the failure
    of the hook after the write. *)
Inductive credential_exn :=
  | CredentialError (code : GatewayCredentialErrorCode)
  | ArgumentError
  | SqlError (unique : bool)
  | AuditError
  | AfterWriteError.

Record Grant := mkGrant {
  g_verifier : list Z;
  g_created_at : Z;
  g_expires_at : Z;
  g_revoked_at : option Z;
  (* consumed_at, consumed_instance_id, consumed_credential_id, consumed_credential_verifier *)
  g_consumed : option (Z * string * string * list Z);
}.
Record Instance_ := mkInstance { i_display_name : string; i_created_at : Z; i_updated_at : Z; i_revoked_at : option Z }.
Inductive credential_state := s_pending | s_active | s_revoked.
#[export] Instance credential_state_eq_dec : EqDecision credential_state.
Proof. solve_decision. Defined.
Record Credential := mkCredential {
  c_instance_id : string;
  c_verifier : list Z;
  c_state : credential_state;
  c_rotates : option string;
  c_replaced_by : option string;
  c_created_at : Z;
  c_activated_at : option Z;
  c_last_used_at : option Z;
  c_revoked_at : option Z;
}.
Record AuditEvent := mkAudit {
  a_at : Z;
  a_actor : string * option string;
  a_action : string;
  a_target : string * string;
  a_requestId : option string;
}.
Record gateway := mkGateway {
  grants : gmap string Grant;
  instances : gmap string Instance_;
  credentials : gmap string Credential;
  audit : list AuditEvent;
}.
Definition new_gateway : gateway := mkGateway ∅ ∅ ∅ [].

Record circumstance := mkCircumstance {
  w_now : option Z;
  w_commits : bool;
  w_audits : bool;
  w_after : bool;
}.

Record EnrollmentInput := mkEnrollmentInput {
  in_grantToken : string;
  in_instanceId : string;
  in_displayName : string;
  in_credentialId : string;
  in_credentialVerifier : list Z;
  in_requestId : option string;
}.
Record EnrollmentReceipt := mkEnrollmentReceipt { re_instanceId : string; re_credentialId : string; re_replayed : bool }.
Record AuthenticatedNode := mkNode { n_instanceId : string; n_credentialId : string }.
Record RotationReceipt := mkRotationReceipt {
  rr_instanceId : string;
  rr_credentialId : string;
  rr_previousCredentialId : string;
  rr_replayed : bool;
}.
Record GrantReceipt := mkGrantReceipt { gr_id : string; gr_token : string; gr_expiresAt : Z }.

Definition set_grants m (d : gateway) := mkGateway m (instances d) (credentials d) (audit d).
Definition set_instances m (d : gateway) := mkGateway (grants d) m (credentials d) (audit d).
Definition set_credentials m (d : gateway) := mkGateway (grants d) (instances d) m (audit d).
Definition set_audit l (d : gateway) := mkGateway (grants d) (instances d) (credentials d) l.

Abbreviation G := (eff gateway credential_exn).
Definition refuse {A} (c : GatewayCredentialErrorCode) : G A := throw (CredentialError c).

(** ** Arguments *)

Definition isSafeInteger (z : Z) : bool := Z.abs z <=? MAX_SAFE_INTEGER.
(** [currentTime()]; [None] is no number. *)
Definition currentTime (w : circumstance) : G Z :=
  match w_now w with Some t => if isSafeInteger t then mret t else throw ArgumentError | None => throw ArgumentError end.
Definition bounded_request (v : option string) : G (option string) :=
  match v with
  | None => mret None
  | Some s => let n := length (units s) in if Nat.ltb n 1 || Nat.ltb 128 n then throw ArgumentError else mret (Some s)
  end.
Definition bounded_name (s : string) : G string :=
  let result := trim (units s) in
  if Nat.ltb (length result) 1 || Nat.ltb 256 (length result) || existsb is_cc result then throw ArgumentError
  else mret (text_of result).
Definition argument (b : bool) : G () := require b ArgumentError.

(** ** Statements *)

(** Violated CHECKs and triggers raise an error that does not name a UNIQUE constraint. *)
Definition sql (b : bool) : G () := require b (SqlError false).
Definition unique (b : bool) : G () := require b (SqlError true).
(** [length(id)], [length(verifier)] *)
Definition sql_id (s : string) : bool := Nat.eqb (String.length s) 22.

Definition consistent (c : Credential) : bool :=
  match c_state c with
  | s_pending => bool_decide (is_Some (c_rotates c)) && bool_decide (c_activated_at c = None) && bool_decide (c_revoked_at c = None)
  | s_active => bool_decide (is_Some (c_activated_at c)) && bool_decide (c_revoked_at c = None)
  | s_revoked => bool_decide (is_Some (c_revoked_at c))
  end.
(** The rows the partial UNIQUE indexes compare. *)
Definition clashes (c c' : Credential) : bool :=
  bool_decide (c_state c = s_pending) && bool_decide (c_state c' = s_pending) && bool_decide (c_rotates c = c_rotates c')
  || bool_decide (c_state c = s_active) && bool_decide (c_state c' = s_active)
     && String.eqb (c_instance_id c) (c_instance_id c').
Definition unique_indexes (d : gateway) (id : string) (c : Credential) : bool :=
  bool_decide (map_Forall (λ id' c', id' = id ∨ clashes c c' = false) (credentials d)).
Definition references (d : gateway) (id : option string) : bool :=
  match id with None => true | Some i => bool_decide (is_Some (credentials d !! i)) end.
Definition insert_credential (id : string) (c : Credential) : G () :=
  d ← get;
  unique (bool_decide (credentials d !! id = None));;
  sql (sql_id id && exactVerifier (c_verifier c) && consistent c && bool_decide (is_Some (instances d !! c_instance_id c))
       && references d (c_rotates c) && references d (c_replaced_by c));;
  unique (unique_indexes d id c);;
  modify (set_credentials (<[ id := c ]> (credentials d))).
(** [UPDATE gateway_node_credentials SET ... WHERE id = ? AND guard]; no row, no change. *)
Definition update_credential (id : string) (guard : Credential → bool) (f : Credential → Credential) : G () :=
  d ← get;
  match credentials d !! id with
  | None => mret tt
  | Some c =>
      if negb (guard c) then mret tt
      else
        sql (bool_decide (c_state (f c) = c_state c)
             || bool_decide ((c_state c, c_state (f c)) ∈ [(s_pending, s_active); (s_pending, s_revoked); (s_active, s_revoked)]));;
        sql (consistent (f c) && references d (c_replaced_by (f c)));;
        unique (unique_indexes d id (f c));;
        modify (set_credentials (<[ id := f c ]> (credentials d)))
  end.
Definition insert_instance (id : string) (name : string) (at_ : Z) : G () :=
  d ← get;
  unique (bool_decide (instances d !! id = None));;
  sql (between 1 128 id && between 1 256 name);;
  modify (set_instances (<[ id := mkInstance name at_ at_ None ]> (instances d))).
Definition insert_grant (id : string) (g : Grant) : G () :=
  d ← get;
  unique (bool_decide (grants d !! id = None));;
  sql (sql_id id && exactVerifier (g_verifier g) && (g_created_at g <? g_expires_at g));;
  modify (set_grants (<[ id := g ]> (grants d))).
(** The grant is bound to what it enrolled. *)
Definition consume_grant (id : string) (binding : Z * string * string * list Z) : G () :=
  d ← get;
  match grants d !! id with
  | None => mret tt
  | Some g =>
      let '(_, instance, credential, verifier) := binding in
      sql (bool_decide (g_consumed g = None) && exactVerifier verifier && bool_decide (is_Some (instances d !! instance))
           && bool_decide (is_Some (credentials d !! credential)));;
      modify (set_grants (<[ id := mkGrant (g_verifier g) (g_created_at g) (g_expires_at g) (g_revoked_at g) (Some binding) ]>
        (grants d)))
  end.
Definition revoke_grant (id : string) (at_ : Z) : G () :=
  modify (λ d, set_grants
    (alter (λ g, mkGrant (g_verifier g) (g_created_at g) (g_expires_at g) (Some at_) (g_consumed g)) id (grants d)) d).
Definition write_audit (w : circumstance) (e : AuditEvent) : G () :=
  require (w_audits w) AuditError;; modify (λ d, set_audit (audit d ++ [e])%list d).

(** [transaction(operation)], then [#afterWrite]. *)
Definition transaction {A} (w : circumstance) (m : G A) : G A := λ d,
  if negb (w_commits w) then (inl (SqlError false), d)
  else match m d with
       | (inl e, _) => (inl e, d)
       | (inr a, d') => (inr a, d')
       end.
Definition committed {A} (w : circumstance) (m : G A) : G A :=
  a ← transaction w m;
  require (w_after w) AfterWriteError;;
  mret a.

(** ** Operations *)

Section store.
Context (digest : string → list Z).

(** One of the three attempts to allocate the id of a grant; [true] when it is taken. *)
Definition grant_attempt (w : circumstance) (ttl createdAt : Z) (request : option string) (m : material) : G GrantReceipt :=
  committed w (
    insert_grant (m_id m) (mkGrant (m_verifier m) createdAt (createdAt + ttl) None None);;
    write_audit w (mkAudit createdAt ("operator-proxy", None) "gateway.enrollment-grant.create" ("enrollment-grant", m_id m) request);;
    mret (mkGrantReceipt (m_id m) (m_token m) (createdAt + ttl))).
Fixpoint grant_attempts (w : circumstance) (ttl createdAt : Z) (request : option string) (randoms : list (list Z * list Z))
    (tries : nat) : G GrantReceipt :=
  match tries, randoms with
  | S tries, (ri, rs) :: randoms =>
      match createEnrollmentCredential digest ri rs with
      | None => throw ArgumentError
      | Some m => λ d,
          match grant_attempt w ttl createdAt request m d with
          | (inl (SqlError true), d') =>
              match tries with
              | O => (inl (SqlError true), d')
              | S _ => grant_attempts w ttl createdAt request randoms tries d'
              end
          | res => res
          end
      end
  | _, _ => throw ArgumentError
  end.
Definition createEnrollmentGrant (w : circumstance) (ttl : Z) (request : option string) (randoms : list (list Z * list Z))
    : G GrantReceipt :=
  argument (isSafeInteger ttl && (1000 <=? ttl) && (ttl <=? 60 * 60 * 1000));;
  createdAt ← currentTime w;
  argument (isSafeInteger (createdAt + ttl));;
  request ← bounded_request request;
  grant_attempts w ttl createdAt request randoms 3.

Definition revokeEnrollmentGrant (w : circumstance) (id : string) (request : option string) : G (string * bool) :=
  argument (isCredentialId id);;
  request ← bounded_request request;
  at_ ← currentTime w;
  committed w (
    d ← get;
    match grants d !! id with
    | None => refuse code_invalid
    | Some g =>
        match g_revoked_at g with
        | Some _ => mret (id, true)
        | None =>
            revoke_grant id at_;;
            write_audit w (mkAudit at_ ("operator-proxy", None) "gateway.enrollment-grant.revoke" ("enrollment-grant", id) request);;
            mret (id, false)
        end
    end).

(** [enroll]: what happens inside the transaction. *)
Definition enroll_transaction (w : circumstance) (grant : string * list Z) (instance name credential : string)
    (verifier : list Z) (request : option string) (at_ : Z) : G EnrollmentReceipt :=
  d ← get;
  match grants d !! grant.1 with
  | None => refuse code_invalid
  | Some g =>
      if negb (verifierMatches grant.2 (g_verifier g)) then refuse code_invalid
      else
        match g_consumed g with
        | Some (_, i, c, v) =>
            if String.eqb i instance && String.eqb c credential && verifierMatches verifier v
            then mret (mkEnrollmentReceipt instance credential true)
            else refuse code_conflict
        | None =>
            if bool_decide (is_Some (g_revoked_at g)) then refuse code_revoked
            else if g_expires_at g <=? at_ then refuse code_expired
            else if bool_decide (is_Some (instances d !! instance)) then refuse code_conflict
            else if bool_decide (is_Some (credentials d !! credential)) then refuse code_conflict
            else
              insert_instance instance name at_;;
              insert_credential credential
                (mkCredential instance verifier s_active None None at_ (Some at_) None None);;
              consume_grant grant.1 (at_, instance, credential, verifier);;
              write_audit w (mkAudit at_ ("resident", Some instance) "gateway.instance.enroll" ("instance", instance) request);;
              mret (mkEnrollmentReceipt instance credential false)
        end
  end.
Definition enroll (w : circumstance) (input : EnrollmentInput) : G EnrollmentReceipt :=
  match parseEnrollmentCredential digest (in_grantToken input) with
  | None => refuse code_invalid
  | Some grant =>
      argument (isGatewayInstanceId (in_instanceId input));;
      name ← bounded_name (in_displayName input);
      argument (isCredentialId (in_credentialId input));;
      argument (exactVerifier (in_credentialVerifier input));;
      request ← bounded_request (in_requestId input);
      at_ ← currentTime w;
      committed w (enroll_transaction w grant (in_instanceId input) name (in_credentialId input)
        (in_credentialVerifier input) request at_)
  end.

Definition used (at_ : Z) (c : Credential) : Credential :=
  mkCredential (c_instance_id c) (c_verifier c) (c_state c) (c_rotates c) (c_replaced_by c) (c_created_at c)
    (c_activated_at c) (Some at_) (c_revoked_at c).
Definition authenticateNode (w : circumstance) (token : string) : G (option AuthenticatedNode) :=
  match parseNodeCredential digest token with
  | None => mret None
  | Some (id, verifier) =>
      d ← get;
      match c ← credentials d !! id; i ← instances d !! c_instance_id c; Some (c, i) with
      | None => mret None
      | Some (c, i) =>
          if negb (verifierMatches verifier (c_verifier c)) then mret None
          else if negb (bool_decide (c_state c = s_active)) || bool_decide (is_Some (i_revoked_at i)) then mret None
          else
            at_ ← currentTime w;
            sql (w_commits w);;
            update_credential id (λ _, true) (used at_);;
            require (w_after w) AfterWriteError;;
            mret (Some (mkNode (c_instance_id c) id))
      end
  end.

Definition propose_transaction (w : circumstance) (old : string * list Z) (new : string) (verifier : list Z)
    (request : option string) (at_ : Z) : G RotationReceipt :=
  d ← get;
  match credentials d !! old.1 with
  | None => refuse code_invalid
  | Some o =>
      if negb (verifierMatches old.2 (c_verifier o)) then refuse code_invalid
      else if negb (bool_decide (c_state o = s_active)) then refuse code_revoked
      else if String.eqb new old.1 then refuse code_conflict
      else
        match credentials d !! new with
        | Some e =>
            if bool_decide (c_state e = s_pending) && String.eqb (c_instance_id e) (c_instance_id o)
               && bool_decide (c_rotates e = Some old.1) && verifierMatches verifier (c_verifier e)
            then mret (mkRotationReceipt (c_instance_id o) new old.1 true)
            else refuse code_conflict
        | None =>
            if bool_decide (map_Forall (λ _ c, ¬ (c_rotates c = Some old.1 ∧ c_state c = s_pending)) (credentials d)) then
              insert_credential new
                (mkCredential (c_instance_id o) verifier s_pending (Some old.1) None at_ None None None);;
              write_audit w (mkAudit at_ ("resident", Some (c_instance_id o)) "gateway.credential.rotation-propose"
                ("node-credential", new) request);;
              mret (mkRotationReceipt (c_instance_id o) new old.1 false)
            else refuse code_conflict
        end
  end.
Definition proposeRotation (w : circumstance) (oldToken new : string) (verifier : list Z) (request : option string)
    : G RotationReceipt :=
  match parseNodeCredential digest oldToken with
  | None => refuse code_invalid
  | Some old =>
      argument (isCredentialId new);;
      argument (exactVerifier verifier);;
      request ← bounded_request request;
      at_ ← currentTime w;
      committed w (propose_transaction w old new verifier request at_)
  end.

Definition replaced (at_ : Z) (by_ : string) (c : Credential) : Credential :=
  mkCredential (c_instance_id c) (c_verifier c) s_revoked (c_rotates c) (Some by_) (c_created_at c) (c_activated_at c)
    (c_last_used_at c) (Some at_).
Definition activated (at_ : Z) (c : Credential) : Credential :=
  mkCredential (c_instance_id c) (c_verifier c) s_active (c_rotates c) (c_replaced_by c) (c_created_at c) (Some at_)
    (c_last_used_at c) (c_revoked_at c).
Definition activate_transaction (w : circumstance) (new : string * list Z) (request : option string) (at_ : Z)
    : G RotationReceipt :=
  d ← get;
  match credentials d !! new.1 with
  | None => refuse code_invalid
  | Some c =>
      if negb (verifierMatches new.2 (c_verifier c)) then refuse code_invalid
      else
        match c_rotates c with
        | None => refuse code_conflict
        | Some oldId =>
            let old := credentials d !! oldId in
            if bool_decide (c_state c = s_active)
               && match old with
                  | Some o => bool_decide (c_state o = s_revoked) && bool_decide (c_replaced_by o = Some new.1)
                  | None => false
                  end
            then mret (mkRotationReceipt (c_instance_id c) new.1 oldId true)
            else if negb (bool_decide (c_state c = s_pending)) then refuse code_revoked
            else
              match old with
              | Some o =>
                  if negb (bool_decide (c_state o = s_active) && String.eqb (c_instance_id o) (c_instance_id c))
                  then refuse code_conflict
                  else
                    update_credential oldId (λ o, bool_decide (c_state o = s_active)) (replaced at_ new.1);;
                    update_credential new.1 (λ c, bool_decide (c_state c = s_pending)) (activated at_);;
                    write_audit w (mkAudit at_ ("resident", Some (c_instance_id c)) "gateway.credential.rotation-activate"
                      ("node-credential", new.1) request);;
                    mret (mkRotationReceipt (c_instance_id c) new.1 oldId false)
              | None => refuse code_conflict
              end
        end
  end.
Definition activateRotation (w : circumstance) (newToken : string) (request : option string) : G RotationReceipt :=
  match parseNodeCredential digest newToken with
  | None => refuse code_invalid
  | Some new =>
      request ← bounded_request request;
      at_ ← currentTime w;
      committed w (activate_transaction w new request at_)
  end.

Definition revoked_at (at_ : Z) (c : Credential) : Credential :=
  mkCredential (c_instance_id c) (c_verifier c) s_revoked (c_rotates c) (c_replaced_by c) (c_created_at c) (c_activated_at c)
    (c_last_used_at c) (Some at_).
Definition revokeCredential (w : circumstance) (id : string) (request : option string) : G (string * bool) :=
  argument (isCredentialId id);;
  request ← bounded_request request;
  at_ ← currentTime w;
  committed w (
    d ← get;
    match credentials d !! id with
    | None => refuse code_invalid
    | Some c =>
        if bool_decide (c_state c = s_revoked) then mret (id, true)
        else
          update_credential id (λ _, true) (revoked_at at_);;
          write_audit w (mkAudit at_ ("operator-proxy", None) "gateway.credential.revoke" ("node-credential", id) request);;
          mret (id, false)
    end).
End store.
