(* ===== verification/CredentialStoreTheorems.v ===== *)
(** * Theorems on the Gateway's credentials *)

From Stdlib Require Import Ascii.
From S2P Require Import Prelude Effects Protocol Codec CodecFacts JsString JsText Credentials ResidentControl TextFacts CredentialStore.
Local Open Scope string_scope.
Local Open Scope Z_scope.

(** ** The invariant *)

(** What holds of one credential. *)
Record credential_ok (d : gateway) (id : string) (c : Credential) : Prop := {
  co_id : isCredentialId id = true;
  co_verifier : exactVerifier (c_verifier c) = true;
  co_consistent : consistent c = true;
  co_instance : is_Some (instances d !! c_instance_id c);
  (* it rotates a credential of the same instance *)
  co_rotates : ∀ o, c_rotates c = Some o →
    ∃ oc, credentials d !! o = Some oc ∧ c_instance_id oc = c_instance_id c ∧ o ≠ id;
  (* it was replaced by one that rotates it, and is revoked *)
  co_replaced : ∀ n, c_replaced_by c = Some n →
    c_state c = s_revoked ∧ ∃ nc, credentials d !! n = Some nc ∧ c_rotates nc = Some id;
}.
Record ok (d : gateway) : Prop := {
  ok_credential : ∀ id c, credentials d !! id = Some c → credential_ok d id c;
  (* one active credential of an instance, one pending rotation of a credential *)
  ok_unique : ∀ i j c c', credentials d !! i = Some c → credentials d !! j = Some c' → i ≠ j → clashes c c' = false;
  (* a consumed grant names what it enrolled *)
  ok_grant : ∀ id g t i c v, grants d !! id = Some g → g_consumed g = Some (t, i, c, v) →
    ∃ cr, credentials d !! c = Some cr ∧ c_instance_id cr = i ∧ c_verifier cr = v ∧ c_rotates cr = None;
  (* nothing revokes an instance *)
  ok_live : ∀ id i, instances d !! id = Some i → i_revoked_at i = None;
}.

(** ** What never changes *)

Definition rank (s : credential_state) : Z := match s with s_pending => 0 | s_active => 1 | s_revoked => 2 end.
Record keeps (c c' : Credential) : Prop := {
  k_instance : c_instance_id c' = c_instance_id c;
  k_verifier : c_verifier c' = c_verifier c;
  k_rotates : c_rotates c' = c_rotates c;
  k_state : rank (c_state c) ≤ rank (c_state c');
  k_replaced : c_replaced_by c = None ∨ c_replaced_by c' = c_replaced_by c;
}.
Record keeps_grant (g g' : Grant) : Prop := {
  kg_verifier : g_verifier g' = g_verifier g;
  kg_expires : g_expires_at g' = g_expires_at g;
  kg_revoked : is_Some (g_revoked_at g) → is_Some (g_revoked_at g');
  kg_consumed : g_consumed g = None ∨ g_consumed g' = g_consumed g;
}.
Record grows (d d' : gateway) : Prop := {
  gr_credential : ∀ id c, credentials d !! id = Some c → ∃ c', credentials d' !! id = Some c' ∧ keeps c c';
  gr_instance : ∀ id i, instances d !! id = Some i → instances d' !! id = Some i;
  gr_grant : ∀ id g, grants d !! id = Some g → ∃ g', grants d' !! id = Some g' ∧ keeps_grant g g';
  gr_audit : ∃ l, audit d' = (audit d ++ l)%list;
}.
Lemma keeps_refl c : keeps c c.
Proof. split; auto; lia. Qed.
Lemma keeps_grant_refl g : keeps_grant g g.
Proof. split; auto. Qed.
#[export] Hint Resolve keeps_refl keeps_grant_refl : core.
Lemma grows_refl d : grows d d.
Proof. split; eauto. exists []. by rewrite app_nil_r. Qed.
Lemma keeps_trans c1 c2 c3 : keeps c1 c2 → keeps c2 c3 → keeps c1 c3.
Proof.
  intros [I V R S P] [I' V' R' S' P']. split; [congruence..|lia|]. destruct P as [|P]; [by left|]. rewrite <-P in *. tauto.
Qed.
Lemma keeps_grant_trans g1 g2 g3 : keeps_grant g1 g2 → keeps_grant g2 g3 → keeps_grant g1 g3.
Proof.
  intros [V E R C] [V' E' R' C']. split; [congruence..|auto|]. destruct C as [|C]; [by left|]. rewrite <-C in *. tauto.
Qed.
Lemma grows_trans d1 d2 d3 : grows d1 d2 → grows d2 d3 → grows d1 d3.
Proof.
  intros [C I Gr [l A]] [C' I' Gr' [l' A']]. split.
  - intros id c (c' & H1 & H2)%C. apply C' in H1 as (c'' & ? & ?). eauto using keeps_trans.
  - auto.
  - intros id g (g' & H1 & H2)%Gr. apply Gr' in H1 as (g'' & ? & ?). eauto using keeps_grant_trans.
  - exists (l ++ l')%list. by rewrite A', A, app_assoc.
Qed.
#[export] Instance grows_preorder : PreOrder grows.
Proof. split; [exact grows_refl|exact grows_trans]. Qed.

(** ** Statements *)

Section statements.
Context {X : credential_exn → gateway → Prop}.
Lemma wp_pass b e (Q : () → gateway → Prop) d : b = true → Q tt d → wp (require b e) Q X d.
Proof. by intros ->. Qed.
Lemma wp_insert_credential id c Q d :
  credentials d !! id = None → sql_id id = true → exactVerifier (c_verifier c) = true → consistent c = true →
  is_Some (instances d !! c_instance_id c) → references d (c_rotates c) = true → references d (c_replaced_by c) = true →
  unique_indexes d id c = true → Q tt (set_credentials (<[ id := c ]> (credentials d)) d) →
  wp (insert_credential id c) Q X d.
Proof.
  intros Hn Hi Hv Hc Hin Hr Hp Hu HQ. unfold insert_credential.
  apply wp_bind, wp_get, wp_bind, wp_pass; [by apply bool_decide_eq_true|]. apply wp_bind, wp_pass.
  { by rewrite Hi, Hv, Hc, Hr, Hp, bool_decide_eq_true_2. }
  by apply wp_bind, wp_pass.
Qed.
Lemma wp_update_credential id guard f c Q d :
  credentials d !! id = Some c → guard c = true → rank (c_state c) ≤ rank (c_state (f c)) → consistent (f c) = true →
  references d (c_replaced_by (f c)) = true → unique_indexes d id (f c) = true →
  Q tt (set_credentials (<[ id := f c ]> (credentials d)) d) → wp (update_credential id guard f) Q X d.
Proof.
  intros Hc Hg Hs Hf Hr Hu HQ. unfold update_credential. apply wp_bind, wp_get. rewrite Hc, Hg. simpl.
  apply wp_bind, wp_pass.
  { destruct (c_state c), (c_state (f c)); simpl in Hs; first [lia|done]. }
  apply wp_bind, wp_pass; [by rewrite Hf, Hr|]. by apply wp_bind, wp_pass.
Qed.
Lemma wp_insert_instance id name t Q d :
  instances d !! id = None → between 1 128 id = true → between 1 256 name = true →
  Q tt (set_instances (<[ id := mkInstance name t t None ]> (instances d)) d) → wp (insert_instance id name t) Q X d.
Proof.
  intros Hn Hi Hna HQ. unfold insert_instance. apply wp_bind, wp_get, wp_bind, wp_pass; [by apply bool_decide_eq_true|].
  apply wp_bind, wp_pass; [by rewrite Hi, Hna|]. done.
Qed.
Lemma wp_consume_grant id g t i c v Q d :
  grants d !! id = Some g → g_consumed g = None → exactVerifier v = true → is_Some (instances d !! i) →
  is_Some (credentials d !! c) →
  Q tt (set_grants (<[ id := mkGrant (g_verifier g) (g_created_at g) (g_expires_at g) (g_revoked_at g) (Some (t, i, c, v)) ]>
    (grants d)) d) →
  wp (consume_grant id (t, i, c, v)) Q X d.
Proof.
  intros Hg Hn Hv Hi Hc HQ. unfold consume_grant. apply wp_bind, wp_get. rewrite Hg.
  apply wp_bind, wp_pass; [by rewrite Hn, Hv, !bool_decide_eq_true_2|]. done.
Qed.
End statements.

(** ** The invariant is kept *)

Lemma unique_indexes_true d id c :
  (∀ j c', credentials d !! j = Some c' → j ≠ id → clashes c c' = false) → unique_indexes d id c = true.
Proof.
  intros H. apply bool_decide_eq_true. intros j c' Hj. destruct (decide (j = id)); [by left|right]. eauto.
Qed.
Lemma clashes_sym c c' : clashes c c' = clashes c' c.
Proof.
  unfold clashes. rewrite (String.eqb_sym (c_instance_id c)). f_equal.
  - rewrite (andb_comm (bool_decide (c_state c = s_pending))). f_equal. apply bool_decide_ext. split; congruence.
  - by rewrite (andb_comm (bool_decide (c_state c = s_active))).
Qed.
(** A credential is added or changed. *)
Lemma put_credential_ok d id c :
  ok d → let d' := set_credentials (<[ id := c ]> (credentials d)) d in
  (∀ c0, credentials d !! id = Some c0 → keeps c0 c) →
  credential_ok d' id c →
  (∀ j c', credentials d !! j = Some c' → j ≠ id → clashes c c' = false) → ok d' ∧ grows d d'.
Proof.
  intros [Hc Hu Hg Hlv] d' Hk Hnew Hcl.
  assert (∀ j c0, credentials d !! j = Some c0 → ∃ c1, credentials d' !! j = Some c1 ∧ keeps c0 c1) as Hgr.
  { intros j c0 Hj. simpl. destruct (decide (j = id)) as [->|Hne].
    - exists c. rewrite lookup_insert_eq. split; [done|]. by apply Hk.
    - exists c0. rewrite lookup_insert_ne by done. auto. }
  split; [split|split].
  - intros j cj Hj. simpl in Hj. apply lookup_insert_Some in Hj as [[<- <-]|[Hne Hj]]; [done|].
    destruct (Hc j cj Hj) as [H1 H2 H3 H4 H5 H6]. split; try done.
    + intros o Ho. destruct (H5 o Ho) as (oc & Hoc & Hi & Hn). destruct (Hgr o oc Hoc) as (oc' & Hoc' & Hk').
      exists oc'. split_and!; [done|rewrite (k_instance _ _ Hk'); done|done].
    + intros n Hn. destruct (H6 n Hn) as (Hs & nc & Hnc & Hr). split; [done|].
      destruct (Hgr n nc Hnc) as (nc' & Hnc' & Hk'). exists nc'. by rewrite (k_rotates _ _ Hk').
  - intros i j ci cj Hi Hj Hne. simpl in Hi, Hj.
    apply lookup_insert_Some in Hi as [[<- <-]|[Hni Hi]]; apply lookup_insert_Some in Hj as [[<- <-]|[Hnj Hj]]; eauto; [done|].
    rewrite clashes_sym. eauto.
  - intros gid g t i cid v Hgid Hco. destruct (Hg gid g t i cid v Hgid Hco) as (cr & Hcr & H1 & H2 & H3).
    destruct (Hgr cid cr Hcr) as (cr' & Hcr' & [I V R _ _]). exists cr'. split_and!; [done|congruence..].
  - done.
  - done.
  - auto.
  - eauto.
  - exists []. by rewrite app_nil_r.
Qed.

(** The other tables. *)
Lemma put_instance_ok d id i :
  ok d → instances d !! id = None → i_revoked_at i = None →
  let d' := set_instances (<[ id := i ]> (instances d)) d in ok d' ∧ grows d d'.
Proof.
  intros [Hc Hu Hg Hlv] Hn Hrv d'.
  assert (∀ j x, instances d !! j = Some x → instances d' !! j = Some x) as Hgr.
  { intros j x Hj. simpl. rewrite lookup_insert_ne; [done|]. intros <-. congruence. }
  split; [split|split]; eauto.
  - intros j c Hj. destruct (Hc j c Hj) as [H1 H2 H3 [x H4] H5 H6]. split; eauto.
  - intros j x Hj. simpl in Hj. apply lookup_insert_Some in Hj as [[_ <-]|[_ Hj]]; eauto.
  - exists []. by rewrite app_nil_r.
Qed.
Lemma put_grant_ok d id g :
  ok d → let d' := set_grants (<[ id := g ]> (grants d)) d in
  (∀ g0, grants d !! id = Some g0 → keeps_grant g0 g) →
  (∀ t i c v, g_consumed g = Some (t, i, c, v) →
    ∃ cr, credentials d !! c = Some cr ∧ c_instance_id cr = i ∧ c_verifier cr = v ∧ c_rotates cr = None) →
  ok d' ∧ grows d d'.
Proof.
  intros [Hc Hu Hg Hlv] d' Hk Hn. split; [split|split]; eauto.
  - intros j c Hj. destruct (Hc j c Hj) as [H1 H2 H3 H4 H5 H6]. by split.
  - intros j x t i c v Hj Hx. simpl in Hj. apply lookup_insert_Some in Hj as [[<- <-]|[Hne Hj]]; eauto.
  - intros j x Hj. simpl. destruct (decide (j = id)) as [->|Hne]; [rewrite lookup_insert_eq|rewrite lookup_insert_ne by done]; eauto.
  - exists []. by rewrite app_nil_r.
Qed.
Lemma put_audit_ok d l : ok d → let d' := set_audit (audit d ++ l)%list d in ok d' ∧ grows d d'.
Proof.
  intros [Hc Hu Hg Hlv] d'. split; [split|split]; eauto.
  intros j c Hj. destruct (Hc j c Hj) as [H1 H2 H3 H4 H5 H6]. by split.
Qed.

(** ** Every operation keeps it, and the schema never refuses *)

Definition kept (d d' : gateway) : Prop := ok d' ∧ grows d d'.
Lemma store_kept_refl d : ok d → kept d d.
Proof. by split. Qed.
Lemma store_kept_trans d1 d2 d3 : kept d1 d2 → kept d2 d3 → kept d1 d3.
Proof. intros [_ ?] [? ?]. split; [done|]. by etrans. Qed.
Create HintDb sound.
(** Errors that are not SQLite's. *)
Definition orderly (e : credential_exn) : Prop := ∀ u, e ≠ SqlError u.
Definition sound {A} (w : circumstance) (m : G A) : Prop :=
  ∀ d, ok d → wp m (λ _ d', kept d d') (λ e d', kept d d' ∧ (w_commits w = true → orderly e)) d.
Lemma committed_with {A} w (m : G A) (P : credential_exn → Prop) :
  P AfterWriteError → (∀ d, ok d → wp m (λ _ d', kept d d') (λ e _, P e) d) →
  ∀ d, ok d → wp (committed w m) (λ _ d', kept d d') (λ e d', kept d d' ∧ (w_commits w = true → P e)) d.
Proof.
  intros HP Hm d Hd. unfold committed. apply wp_bind. unfold wp, transaction. destruct (w_commits w) eqn:Hw; simpl.
  - specialize (Hm d Hd). unfold wp in Hm. destruct (m d) as [[e|a] d']; simpl.
    + split; [by apply store_kept_refl|done].
    + apply wp_bind, wp_require; intros _; [done|]. by split.
  - split; [by apply store_kept_refl|done].
Qed.
Lemma committed_sound {A} w (m : G A) :
  (∀ d, ok d → wp m (λ _ d', kept d d') (λ e _, orderly e) d) → sound w (committed w m).
Proof. intros Hm d Hd. by apply (committed_with w m orderly). Qed.
Lemma sound_bind {A B} w (m : G A) (k : A → G B) : sound w m → (∀ a, sound w (k a)) → sound w (m ≫= k).
Proof.
  intros Hm Hk d Hd. apply wp_bind. eapply wp_mono; [by apply Hm| |done]. intros a d' [Hd' Hg]. simpl.
  eapply wp_mono; [by apply Hk| |]; simpl.
  - intros _ d'' ?. by eapply store_kept_trans.
  - intros e d'' [? ?]. split; [|done]. by eapply store_kept_trans.
Qed.
Lemma sound_pure {A} w (m : G A) : (∀ d, (m d).2 = d ∧ ∀ e, (m d).1 = inl e → orderly e) → sound w m.
Proof.
  intros Hm d Hd. unfold wp. destruct (Hm d) as [H1 H2]. destruct (m d) as [[e|a] d']; simpl in *; subst; [|by apply store_kept_refl].
  split; [by apply store_kept_refl|]. auto.
Qed.
Ltac pure := apply sound_pure; intros ?; split; [done|]; intros ? [= <-]; intros ?; discriminate.
Lemma sound_ret {A} w (a : A) : sound w (mret a).
Proof. pure. Qed.
Lemma sound_refuse {A} w c : sound w (refuse c : G A).
Proof. pure. Qed.
Lemma sound_argument w b : sound w (argument b).
Proof. destruct b; pure. Qed.
Lemma sound_currentTime w w' : sound w (currentTime w').
Proof. unfold currentTime. destruct (w_now w') as [t|]; [destruct (isSafeInteger t)|]; pure. Qed.
Lemma sound_request w v : sound w (bounded_request v).
Proof. unfold bounded_request. destruct v as [v|]; [|pure]. case_match; pure. Qed.
Lemma sound_name w v : sound w (bounded_name v).
Proof. unfold bounded_name. case_match; pure. Qed.
#[export] Hint Resolve sound_ret sound_refuse sound_argument sound_currentTime sound_request sound_name : sound.
#[export] Hint Extern 1 (sound _ (_ ≫= _)) => apply sound_bind; [|intros ?] : sound.

(** Inside a transaction. *)
Lemma inner_refuse {A} c d (Q : A → gateway → Prop) : wp (refuse c) Q (λ e _, orderly e) d.
Proof. by intros u. Qed.
Lemma inner_audit_with w e d0 d {A} (a : A) (P : credential_exn → Prop) :
  (w_audits w = false → P AuditError) → kept d0 d → wp (write_audit w e;; mret a) (λ _ d', kept d0 d') (λ e _, P e) d.
Proof.
  intros HP Hk. unfold write_audit, wp. unfold_eff. destruct (w_audits w); simpl; [|by apply HP].
  eapply store_kept_trans; [done|]. apply put_audit_ok, Hk.
Qed.
Lemma inner_audit w e d0 d {A} (a : A) :
  kept d0 d → wp (write_audit w e;; mret a) (λ _ d', kept d0 d') (λ e _, orderly e) d.
Proof. by apply (inner_audit_with w e d0 d a orderly). Qed.
Lemma inner_update id guard f c d (Q : () → gateway → Prop) X :
  ok d → credentials d !! id = Some c → guard c = true → keeps c (f c) → consistent (f c) = true →
  (∀ n, c_replaced_by (f c) = Some n → c_state (f c) = s_revoked ∧ ∃ nc, credentials d !! n = Some nc ∧ c_rotates nc = Some id ∧ n ≠ id) →
  (∀ j c', credentials d !! j = Some c' → j ≠ id → clashes (f c) c' = false) →
  (kept d (set_credentials (<[ id := f c ]> (credentials d)) d) → Q tt (set_credentials (<[ id := f c ]> (credentials d)) d)) →
  wp (update_credential id guard f) Q X d.
Proof.
  intros Hd Hc Hg Hk Hcon Hrep Hcl HQ. destruct (ok_credential d Hd id c Hc) as [H1 H2 H3 H4 H5 H6].
  eapply wp_update_credential; [done|done|by apply Hk|done| |by apply unique_indexes_true|apply HQ].
  - destruct (c_replaced_by (f c)) as [n|] eqn:Hn; [|done]. destruct (Hrep n eq_refl) as (_ & nc & Hnc & _).
    simpl. rewrite Hnc. by apply bool_decide_eq_true.
  - destruct Hk as [KI KV KR KS KP]. apply put_credential_ok; [done| | |done].
    + intros c0 Hc0. rewrite Hc in Hc0. injection Hc0 as <-. done.
    + split; simpl; try done; [by rewrite KV|by rewrite KI| |].
      * intros o Ho. rewrite KR in Ho. destruct (H5 o Ho) as (oc & Hoc & Hi & Hne). exists oc.
        rewrite lookup_insert_ne, KI by done. done.
      * intros n Hn. destruct (Hrep n Hn) as (Hs & nc & Hnc & Hr & Hne). split; [done|]. exists nc.
        rewrite lookup_insert_ne by done. done.
Qed.
(** Changes of state that cannot clash. *)
Lemma clashes_revoked c c' : c_state c = s_revoked → clashes c c' = false.
Proof. intros Hs. unfold clashes. by rewrite Hs. Qed.
Section operations.
Context (digest : string → list Z).

Lemma alter_put {V} (f : V → V) (m : gmap string V) k v : m !! k = Some v → alter f k m = <[ k := f v ]> m.
Proof.
  intros Hk. apply map_eq. intros j. destruct (decide (j = k)) as [->|Hne].
  - by rewrite lookup_alter_eq, Hk, lookup_insert_eq.
  - by rewrite lookup_alter_ne, lookup_insert_ne.
Qed.
Lemma revokeEnrollmentGrant_sound w id request : sound w (revokeEnrollmentGrant w id request).
Proof.
  unfold revokeEnrollmentGrant. do 3 (apply sound_bind; [auto with sound|intros ?]). apply committed_sound. intros d Hd.
  apply wp_bind, wp_get. destruct (grants d !! id) as [g|] eqn:Hg; [|apply inner_refuse].
  destruct (g_revoked_at g); [by apply wp_ret, store_kept_refl|]. apply wp_bind, wp_modify, inner_audit.
  rewrite (alter_put _ _ _ g) by done. apply put_grant_ok; [done| |].
  - intros g0 Hg0. rewrite Hg in Hg0. injection Hg0 as <-. split; simpl; eauto.
  - simpl. intros t i c v Hco. by eapply ok_grant.
Qed.
Lemma revokeCredential_sound w id request : sound w (revokeCredential w id request).
Proof.
  unfold revokeCredential. do 3 (apply sound_bind; [auto with sound|intros ?]). apply committed_sound. intros d Hd.
  apply wp_bind, wp_get. destruct (credentials d !! id) as [c|] eqn:Hc; [|apply inner_refuse].
  case_bool_decide as Hs; [by apply wp_ret, store_kept_refl|]. apply wp_bind.
  destruct (ok_credential d Hd id c Hc) as [H1 H2 H3 H4 H5 H6]. eapply inner_update; try done.
  - split; simpl; auto. destruct (c_state c); simpl; lia.
  - simpl. intros n Hn. by destruct (H6 n Hn) as [? _].
  - intros Hk. by apply inner_audit.
Qed.
Lemma authenticateNode_sound w token : sound w (authenticateNode digest w token).
Proof.
  unfold authenticateNode. destruct (parseNodeCredential digest token) as [[id v]|]; [|pure]. intros d Hd. apply wp_bind, wp_get.
  destruct (credentials d !! id) as [c|] eqn:Hc; simpl; [|by apply wp_ret, store_kept_refl].
  destruct (instances d !! c_instance_id c) as [i|] eqn:Hi; simpl; [|by apply wp_ret, store_kept_refl].
  case_match; [by apply wp_ret, store_kept_refl|]. case_match eqn:Hs; [by apply wp_ret, store_kept_refl|].
  destruct (ok_credential d Hd id c Hc) as [H1 H2 H3 H4 H5 H6]. guards.
  apply wp_bind. unfold currentTime. destruct (w_now w) as [t|]; [|split; [by apply store_kept_refl|by intros _ u]].
  destruct (isSafeInteger t); [|split; [by apply store_kept_refl|by intros _ u]]. apply wp_ret, wp_bind.
  apply wp_require; intros Hw; [|split; [by apply store_kept_refl|congruence]]. apply wp_bind.
  eapply inner_update; try done.
  - split; simpl; auto. lia.
  - simpl. intros n Hn. destruct (H6 n Hn) as [? _]. congruence.
  - intros j c' Hj Hne. unfold clashes. simpl. by eapply (ok_unique d Hd id j).
  - intros Hk. apply wp_bind, wp_require; intros _; [done|]. split; [done|]. by intros _ u.
Qed.

(** The arguments are what the schema wants. *)
Lemma sql_length_nonneg s : 0 ≤ sql_length s.
Proof. induction s as [|c s IH]; [done|]. cbn [sql_length]. destruct (ascii_in 128 191 c); lia. Qed.
Lemma instance_between s : isGatewayInstanceId s = true → between 1 128 s = true.
Proof.
  intros Hs. pose proof (length_id _ _ Hs) as Hl. pose proof (sql_length_le s) as Hle. unfold bytes in Hle.
  change (String.length INSTANCE_PREFIX) with 5%nat in Hl. unfold between. apply andb_true_iff. rewrite !Z.leb_le. split; [|lia].
  apply andb_true_iff in Hs as [Hp _]. destruct s as [|c s]; [done|]. unfold INSTANCE_PREFIX in Hp. cbn [String.prefix] in Hp.
  destruct (Ascii.ascii_dec "e"%char c) as [<-|]; [|done]. pose proof (sql_length_nonneg s). cbn [sql_length].
  change (ascii_in 128 191 "e") with false. lia.
Qed.
Lemma credential_sql s : isCredentialId s = true → sql_id s = true.
Proof. unfold isCredentialId, id_chars, sql_id. by intros [? _]%andb_true_iff. Qed.
Lemma wp_bounded_name s Q X d :
  (∀ n, between 1 256 n = true → Q n d) → X ArgumentError d → wp (bounded_name s) Q X d.
Proof.
  intros HQ HX. unfold bounded_name. case_match eqn:H; [by apply wp_throw|].
  apply orb_false_iff in H as [[H1 H2]%orb_false_iff _].
  apply wp_ret, HQ. guards. set (u := trim (units s)) in *.
  assert (Forall is_unit u) as Hu by apply trim_units, units_ok. assert (u ≠ []) as Hne by (intros Hn; rewrite Hn in *; simpl in *; lia).
  pose proof (sql_length_text u Hu Hne). unfold between. apply andb_true_iff. rewrite !Z.leb_le. lia.
Qed.
(** A binding of its arguments. *)
Lemma sound_bind_with {A B} w (m : G A) (k : A → G B) (P : A → Prop) :
  (∀ d, wp m (λ a d', d' = d ∧ P a) (λ e d', d' = d ∧ orderly e) d) → (∀ a, P a → sound w (k a)) → sound w (m ≫= k).
Proof.
  intros Hm Hk d Hd. apply wp_bind. eapply wp_mono; [apply Hm| |]; simpl.
  - intros a d' [-> Ha]. by apply Hk.
  - intros e d' [-> He]. split; [by apply store_kept_refl|done].
Qed.
Lemma argument_with b d : wp (argument b) (λ _ d', d' = d ∧ b = true) (λ e d', d' = d ∧ orderly e) d.
Proof. destruct b; by split. Qed.
(** The three writes of an enrollment. *)
Lemma inner_enroll w grant g instance name credential verifier at_ e d {A} (a : A) :
  ok d → grants d !! grant = Some g → g_consumed g = None → isGatewayInstanceId instance = true → between 1 256 name = true →
  isCredentialId credential = true → exactVerifier verifier = true →
  instances d !! instance = None → credentials d !! credential = None →
  wp (insert_instance instance name at_;;
      insert_credential credential (mkCredential instance verifier s_active None None at_ (Some at_) None None);;
      consume_grant grant (at_, instance, credential, verifier);;
      write_audit w e;; mret a) (λ _ d', kept d d') (λ e _, orderly e) d.
Proof.
  intros Hd Hg Hco Hi Hn Hc Hv Hin Hcr. apply wp_bind, wp_insert_instance; [done|by apply instance_between|done|].
  pose proof (put_instance_ok d instance (mkInstance name at_ at_ None) Hd Hin eq_refl) as Hk1.
  set (d1 := set_instances _ d) in *. destruct Hk1 as [Hd1 Hg1].
  assert (is_Some (instances d1 !! instance)) as Hi1 by (simpl; by rewrite lookup_insert_eq).
  set (c := mkCredential instance verifier s_active None None at_ (Some at_) None None).
  assert (∀ j c', credentials d1 !! j = Some c' → j ≠ credential → clashes c c' = false) as Hcl.
  { intros j c' Hj _. destruct (ok_credential d Hd j c' Hj) as [_ _ _ [x Hx] _ _]. unfold clashes. simpl.
    destruct (String.eqb_spec instance (c_instance_id c')) as [Heq|]; [congruence|]. by rewrite andb_false_r. }
  apply wp_bind, wp_insert_credential; try done; [by apply credential_sql|by apply unique_indexes_true|].
  assert (kept d1 (set_credentials (<[ credential := c ]> (credentials d1)) d1)) as Hk2.
  { apply put_credential_ok; [done| | |done]; [intros c0 Hc0; simpl in Hc0; congruence|]. split; simpl; done. }
  set (d2 := set_credentials _ d1) in *. destruct Hk2 as [Hd2 Hg2].
  assert (credentials d2 !! credential = Some c) as Hc2 by apply lookup_insert_eq.
  apply wp_bind. eapply wp_consume_grant; [done|done|done|done|by rewrite Hc2|]. apply inner_audit.
  eapply store_kept_trans; [split; [exact Hd2|by etrans]|]. apply put_grant_ok; [done| |].
  - intros g0 Hg0. simpl in Hg0. rewrite Hg in Hg0. injection Hg0 as <-. split; simpl; auto.
  - simpl. intros ? ? ? ? [= <- <- <- <-]. exists c. simpl in Hc2. by rewrite Hc2.
Qed.
Lemma enroll_sound w input : sound w (enroll digest w input).
Proof.
  unfold enroll. destruct (parseEnrollmentCredential digest (in_grantToken input)) as [grant|]; [|pure].
  apply sound_bind_with with (P := λ _, isGatewayInstanceId (in_instanceId input) = true); [intros d; apply argument_with|].
  intros _ Hi. apply sound_bind_with with (P := λ n, between 1 256 n = true).
  { intros d. by apply wp_bounded_name; intros; split. }
  intros name Hn. apply sound_bind_with with (P := λ _, isCredentialId (in_credentialId input) = true); [intros d; apply argument_with|].
  intros _ Hc. apply sound_bind_with with (P := λ _, exactVerifier (in_credentialVerifier input) = true); [intros d; apply argument_with|].
  intros _ Hv. do 2 (apply sound_bind; [auto with sound|intros ?]). apply committed_sound. intros d Hd.
  unfold enroll_transaction. apply wp_bind, wp_get. destruct (grants d !! grant.1) as [g|] eqn:Hg; [|apply inner_refuse].
  case_match; [apply inner_refuse|]. destruct (g_consumed g) as [[[[t i] c] v]|] eqn:Hco.
  { case_match; [by apply wp_ret, store_kept_refl|apply inner_refuse]. }
  case_bool_decide; [apply inner_refuse|]. case_match; [apply inner_refuse|].
  case_bool_decide as Hin; [apply inner_refuse|]. case_bool_decide as Hcr; [apply inner_refuse|].
  apply eq_None_not_Some in Hin. apply eq_None_not_Some in Hcr. by eapply inner_enroll.
Qed.
Lemma proposeRotation_sound w token new verifier request : sound w (proposeRotation digest w token new verifier request).
Proof.
  unfold proposeRotation. destruct (parseNodeCredential digest token) as [[oid ov]|]; [|pure].
  apply sound_bind_with with (P := λ _, isCredentialId new = true); [intros d; apply argument_with|].
  intros _ Hc. apply sound_bind_with with (P := λ _, exactVerifier verifier = true); [intros d; apply argument_with|].
  intros _ Hv. do 2 (apply sound_bind; [auto with sound|intros ?]). apply committed_sound. intros d Hd.
  unfold propose_transaction. apply wp_bind, wp_get. simpl. destruct (credentials d !! oid) as [o|] eqn:Ho; [|apply inner_refuse].
  case_match; [apply inner_refuse|]. case_match; [apply inner_refuse|]. destruct (String.eqb_spec new oid) as [|Hne]; [apply inner_refuse|].
  destruct (credentials d !! new) as [e|] eqn:Hn.
  { case_match; [by apply wp_ret, store_kept_refl|apply inner_refuse]. }
  match goal with |- context [bool_decide (map_Forall ?P ?m)] => destruct (bool_decide_reflect (map_Forall P m)) as [Hall|] end;
    [|apply inner_refuse].
  set (c := mkCredential (c_instance_id o) verifier s_pending (Some oid) None a0 None None None).
  assert (∀ j c', credentials d !! j = Some c' → j ≠ new → clashes c c' = false) as Hcl.
  { intros j c' Hj _. unfold clashes. simpl. rewrite orb_false_r. specialize (Hall j c' Hj). simpl in Hall.
    destruct (bool_decide_reflect (c_state c' = s_pending)); [|done].
    destruct (bool_decide_reflect (Some oid = c_rotates c')); [|done]. naive_solver. }
  destruct (ok_credential d Hd oid o Ho) as [_ _ _ Hi _ _].
  apply wp_bind, wp_insert_credential; try done; [by apply credential_sql|simpl; by rewrite bool_decide_eq_true_2|by apply unique_indexes_true|].
  apply inner_audit, put_credential_ok; [done|intros c0 Hc0; congruence| |done]. split; simpl; try done.
  intros ? [= <-]. exists o. rewrite lookup_insert_ne by done. auto.
Qed.

(** The two writes of an activation. *)
Lemma clashes_pending c c' : c_state c = s_active → c_state c' = s_pending → clashes c c' = false.
Proof. intros Hc Hc'. unfold clashes. by rewrite Hc, Hc'. Qed.
Lemma inner_activate w oid o new c at_ e d {A} (a : A) (P : credential_exn → Prop) :
  (w_audits w = false → P AuditError) → ok d → credentials d !! oid = Some o → credentials d !! new = Some c → c_rotates c = Some oid → c_state c = s_pending →
  c_state o = s_active → c_instance_id o = c_instance_id c →
  wp (update_credential oid (λ o, bool_decide (c_state o = s_active)) (replaced at_ new);;
      update_credential new (λ c, bool_decide (c_state c = s_pending)) (activated at_);;
      write_audit w e;; mret a) (λ _ d', kept d d') (λ e _, P e) d.
Proof.
  intros HP Hd Ho Hc Hrot Hcs Hos Hin. destruct (ok_credential d Hd new c Hc) as [C1 C2 C3 C4 C5 C6].
  destruct (ok_credential d Hd oid o Ho) as [O1 O2 O3 O4 O5 O6].
  assert (new ≠ oid) as Hne by (destruct (C5 oid Hrot) as (_ & _ & _ & ?); done).
  apply wp_bind. eapply inner_update; try done; [by apply bool_decide_eq_true|..].
  { split; simpl; auto; [rewrite Hos; simpl; lia|]. left. destruct (c_replaced_by o) eqn:Hr; [|done].
    destruct (O6 _ eq_refl). congruence. }
  { simpl. intros n [= <-]. split; [done|]. exists c. auto. }
  intros Hk1. set (d1 := set_credentials _ d) in *. destruct Hk1 as [Hd1 Hg1].
  assert (credentials d1 !! new = Some c) as Hc1 by (simpl; by rewrite lookup_insert_ne).
  apply wp_bind. eapply inner_update; try done; [by apply bool_decide_eq_true|..].
  { split; simpl; auto. rewrite Hcs. simpl. lia. }
  { unfold consistent in *. simpl. rewrite Hcs in C3. guards. by rewrite bool_decide_eq_true_2. }
  { simpl. intros n Hn. destruct (C6 n Hn). congruence. }
  { intros j c' Hj Hnj. simpl in Hj. apply lookup_insert_Some in Hj as [[<- <-]|[Hno Hj]]; [by rewrite clashes_sym|].
    unfold clashes. simpl. rewrite <-Hin. pose proof (ok_unique d Hd oid j o c' Ho Hj Hno) as Hu. unfold clashes in Hu.
    rewrite Hos in Hu. simpl in Hu. by rewrite Hu. }
  intros Hk2. apply inner_audit_with; [done|]. eapply store_kept_trans; [by split|done].
Qed.
Lemma activateRotation_sound w token request : sound w (activateRotation digest w token request).
Proof.
  unfold activateRotation. destruct (parseNodeCredential digest token) as [[new v]|]; [|pure].
  do 2 (apply sound_bind; [auto with sound|intros ?]). apply committed_sound. intros d Hd.
  unfold activate_transaction. apply wp_bind, wp_get. simpl. destruct (credentials d !! new) as [c|] eqn:Hc; [|apply inner_refuse].
  case_match; [apply inner_refuse|]. destruct (c_rotates c) as [oid|] eqn:Hr; [|apply inner_refuse].
  apply wp_if; intros _; [by apply wp_ret, store_kept_refl|]. apply wp_if; intros Hp; [apply inner_refuse|].
  destruct (credentials d !! oid) as [o|] eqn:Ho; [|apply inner_refuse]. apply wp_if; intros Hg; [apply inner_refuse|].
  guards. by eapply (inner_activate w oid o new c _ _ d _ orderly).
Qed.
(** Allocating a grant may find its id taken; no other statement is refused. *)
Definition grant_sound {A} (w : circumstance) (m : G A) : Prop :=
  ∀ d, ok d → wp m (λ _ d', kept d d') (λ e d', kept d d' ∧ (w_commits w = true → e ≠ SqlError false)) d.
Lemma grant_attempt_sound w ttl at_ request ri rs m :
  createEnrollmentCredential digest ri rs = Some m → Forall is_byte ri → Forall is_byte rs → 0 < ttl →
  (∀ s, length (digest s) = 32%nat) → grant_sound w (grant_attempt w ttl at_ request m).
Proof.
  intros Hm Hi Hs Ht Hl d Hd. destruct (created_parts digest ENROLLMENT ri rs m eq_refl Hi Hs Hm) as (s & Hp & Hv & Hid).
  apply committed_with; [done| |done]. clear d Hd. intros d Hd. unfold insert_grant, unique, sql. apply wp_bind, wp_bind, wp_get.
  apply wp_bind, wp_require; intros Hn; [|done]. guards. apply wp_bind, wp_pass.
  { simpl. rewrite (credential_sql _ Hid), Hv. unfold exactVerifier. rewrite Hl. apply Z.ltb_lt. lia. }
  apply wp_modify, inner_audit_with; [done|]. apply put_grant_ok; [done| |done]. intros g0 Hg0. congruence.
Qed.
Lemma grant_attempts_sound w ttl at_ request randoms tries :
  0 < ttl → (∀ s, length (digest s) = 32%nat) → Forall (λ '(ri, rs), Forall is_byte ri ∧ Forall is_byte rs) randoms →
  grant_sound w (grant_attempts digest w ttl at_ request randoms tries).
Proof.
  intros Ht Hl. assert (grant_sound w (throw ArgumentError : G GrantReceipt)) as Hbad.
  { intros d Hd. split; [by apply store_kept_refl|done]. }
  revert randoms. induction tries as [|tries IH]; intros randoms Hr d Hd; [destruct randoms; exact (Hbad d Hd)|].
  destruct Hr as [|[ri rs] randoms [Hi Hs] Hr]; [exact (Hbad d Hd)|]. cbn [grant_attempts].
  destruct (createEnrollmentCredential digest ri rs) as [m|] eqn:Hm; [|exact (Hbad d Hd)].
  pose proof (grant_attempt_sound w ttl at_ request ri rs m Hm Hi Hs Ht Hl d Hd) as Ha. unfold wp in *.
  destruct (grant_attempt w ttl at_ request m d) as [[e|a] d']; [|done].
  destruct Ha as [Hk He]. destruct e as [| |[]| |]; try done. destruct tries as [|tries']; [by split|].
  specialize (IH randoms Hr d' (proj1 Hk)). unfold wp in IH.
  destruct (grant_attempts digest w ttl at_ request randoms (S tries') d') as [[e|a] d'']; [split; [|by apply IH]|]; by eapply store_kept_trans, IH.
Qed.
Lemma createEnrollmentGrant_sound w ttl request randoms :
  (∀ s, length (digest s) = 32%nat) → Forall (λ '(ri, rs), Forall is_byte ri ∧ Forall is_byte rs) randoms →
  grant_sound w (createEnrollmentGrant digest w ttl request randoms).
Proof.
  intros Hl Hr d Hd. unfold createEnrollmentGrant, argument.
  assert (∀ e : credential_exn, orderly e → kept d d ∧ (w_commits w = true → e ≠ SqlError false)) as Hpure.
  { intros e He. split; [by apply store_kept_refl|]. intros _. apply He. }
  apply wp_bind, wp_require; intros Ht; [|by apply Hpure]. guards. apply wp_bind. unfold currentTime.
  destruct (w_now w) as [t|]; [|by apply wp_throw, Hpure]. destruct (isSafeInteger t); [|by apply wp_throw, Hpure].
  apply wp_ret, wp_bind, wp_require; intros _; [|by apply Hpure]. apply wp_bind. unfold bounded_request.
  destruct request as [q|]; [case_match; [by apply wp_throw, Hpure|]|]; apply wp_ret, grant_attempts_sound; try done; lia.
Qed.

(** An attempt finds its id taken, or the statement is not refused. *)
Lemma grant_attempt_taken w ttl at_ request m d d' :
  grant_attempt w ttl at_ request m d = (inl (SqlError true), d') → d' = d ∧ is_Some (grants d !! m_id m).
Proof.
  unfold grant_attempt, committed, transaction, insert_grant, write_audit, unique, sql. unfold_eff.
  destruct (w_commits w); simpl; [|done]. case_bool_decide as Hn; simpl.
  - destruct (sql_id _ && _ && _); simpl; [|done]. destruct (w_audits w); simpl; [|done]. by destruct (w_after w).
  - intros [= <-]. split; [done|]. by apply not_eq_None_Some.
Qed.
Lemma grant_attempts_taken w ttl at_ request randoms tries d d' :
  grant_attempts digest w ttl at_ request randoms tries d = (inl (SqlError true), d') →
  Nat.le tries (length randoms) ∧ Forall (λ x, is_Some (grants d !! base64url x.1)) (take tries randoms).
Proof.
  revert randoms d. induction tries as [|tries IH]; intros [|[ri rs] randoms] d; try done. cbn [grant_attempts].
  destruct (createEnrollmentCredential digest ri rs) as [m|] eqn:Hm; [|done].
  assert (m_id m = base64url ri) as Hid.
  { unfold createEnrollmentCredential, createMaterial in Hm. case_match; [|done]. by injection Hm as <-. }
  destruct (grant_attempt w ttl at_ request m d) as [[e|a] d1] eqn:Ha; [|done].
  destruct e as [| |[]| |]; try done. apply grant_attempt_taken in Ha as [-> Ht]. rewrite Hid in Ht. destruct tries as [|tries].
  - intros _. simpl. split; [lia|]. by constructor.
  - intros [Hl HF]%IH. split; [simpl in *; lia|]. by constructor.
Qed.
Lemma createEnrollmentGrant_taken w ttl request randoms d d' :
  createEnrollmentGrant digest w ttl request randoms d = (inl (SqlError true), d') →
  Nat.le 3 (length randoms) ∧ Forall (λ x, is_Some (grants d !! base64url x.1)) (take 3 randoms).
Proof.
  unfold createEnrollmentGrant, argument, currentTime, bounded_request, require. unfold_eff.
  destruct (isSafeInteger ttl && _ && _); [|done]. simpl. destruct (w_now w) as [t|]; [|done].
  destruct (isSafeInteger t); [|done]. destruct (isSafeInteger (t + ttl)); [|done]. simpl.
  destruct request as [q|]; [destruct (_ || _); [done|]|]; apply grant_attempts_taken.
Qed.

(** ** Any calls in any order *)

Inductive gateway_call :=
  | gc_createEnrollmentGrant (ttl : Z) (request : option string) (randoms : list (list Z * list Z))
  | gc_revokeEnrollmentGrant (id : string) (request : option string)
  | gc_enroll (input : EnrollmentInput)
  | gc_authenticateNode (token : string)
  | gc_proposeRotation (token new : string) (verifier : list Z) (request : option string)
  | gc_activateRotation (token : string) (request : option string)
  | gc_revokeCredential (id : string) (request : option string).
Definition forget {A} (m : G A) : G () := m;; mret tt.
Definition serve (w : circumstance) (c : gateway_call) : G () :=
  match c with
  | gc_createEnrollmentGrant ttl request randoms => forget (createEnrollmentGrant digest w ttl request randoms)
  | gc_revokeEnrollmentGrant id request => forget (revokeEnrollmentGrant w id request)
  | gc_enroll input => forget (enroll digest w input)
  | gc_authenticateNode token => forget (authenticateNode digest w token)
  | gc_proposeRotation token new verifier request => forget (proposeRotation digest w token new verifier request)
  | gc_activateRotation token request => forget (activateRotation digest w token request)
  | gc_revokeCredential id request => forget (revokeCredential w id request)
  end.
Definition serves (cs : list (circumstance * gateway_call)) (d : gateway) : gateway := foldl (λ d '(w, c), (serve w c d).2) d cs.
(** The random source gives bytes. *)
Definition call_ok (c : gateway_call) : Prop :=
  match c with
  | gc_createEnrollmentGrant _ _ randoms => Forall (λ '(ri, rs), Forall is_byte ri ∧ Forall is_byte rs) randoms
  | _ => True
  end.
(** The ids that the random source gave to the three attempts are all in use. *)
Definition ids_taken (c : gateway_call) (d : gateway) : Prop :=
  match c with
  | gc_createEnrollmentGrant _ _ randoms =>
      Nat.le 3 (length randoms) ∧ Forall (λ x, is_Some (grants d !! base64url x.1)) (take 3 randoms)
  | _ => False
  end.
(** SHA-256 yields 32 bytes. *)
Context (digest_length : ∀ s, length (digest s) = 32%nat).

Lemma grant_sound_forget {A} w (m : G A) : grant_sound w m → grant_sound w (forget m).
Proof. intros Hm d Hd. apply wp_bind. eapply wp_mono; [by apply Hm|done..]. Qed.
Lemma sound_grant_sound {A} w (m : G A) : sound w m → grant_sound w m.
Proof.
  intros Hm d Hd. eapply wp_mono; [by apply Hm|done|]. intros e d' [? He]. split; [done|]. intros Hw. by apply He.
Qed.
Lemma sound_forget {A} w (m : G A) : sound w m → sound w (forget m).
Proof. intros Hm d Hd. apply wp_bind. eapply wp_mono; [by apply Hm|done..]. Qed.
Lemma serve_sound w c : (∃ ttl request randoms, c = gc_createEnrollmentGrant ttl request randoms) ∨ sound w (serve w c).
Proof.
  destruct c; [left; eauto|right; simpl; apply sound_forget..].
  - apply revokeEnrollmentGrant_sound.
  - apply enroll_sound.
  - apply authenticateNode_sound.
  - apply proposeRotation_sound.
  - apply activateRotation_sound.
  - apply revokeCredential_sound.
Qed.
Lemma serve_grant_sound w c : call_ok c → grant_sound w (serve w c).
Proof using digest_length.
  intros Hc. destruct (serve_sound w c) as [(ttl & request & randoms & ->)|Hs]; [|by apply sound_grant_sound].
  by apply grant_sound_forget, createEnrollmentGrant_sound.
Qed.
(** Which errors of SQLite a call can see. *)
Lemma serve_sql w c u d d' :
  call_ok c → ok d → serve w c d = (inl (SqlError u), d') → w_commits w = false ∨ u = true ∧ ids_taken c d.
Proof using digest_length.
  intros Hc Hd He. destruct u.
  - destruct (serve_sound w c) as [(ttl & request & randoms & ->)|Hs].
    + right. split; [done|]. simpl in He. unfold forget in He.
      assert (createEnrollmentGrant digest w ttl request randoms d = (inl (SqlError true), d')) as Hg.
      { unfold mbind, eff_bind in He. destruct (createEnrollmentGrant _ _ _ _ _ _) as [[e|a] d1]; [|done]. by injection He as -> ->. }
      by eapply createEnrollmentGrant_taken.
    + left. specialize (Hs d Hd). unfold wp in Hs. rewrite He in Hs. destruct Hs as [_ Hs].
      destruct (w_commits w); [|done]. by destruct (Hs eq_refl true).
  - left. pose proof (serve_grant_sound w c Hc d Hd) as Hs. unfold wp in Hs. rewrite He in Hs.
    destruct Hs as [_ Hs]. destruct (w_commits w); [|done]. by destruct (Hs eq_refl).
Qed.
Lemma serve_kept w c d : call_ok c → ok d → kept d (serve w c d).2.
Proof using digest_length.
  intros Hc Hd. pose proof (serve_grant_sound w c Hc d Hd) as Hs. unfold wp in Hs. destruct (serve w c d) as [[] d']; [by destruct Hs|done].
Qed.
Lemma serves_kept cs d : Forall (λ x, call_ok x.2) cs → ok d → kept d (serves cs d).
Proof using digest_length.
  revert d. induction cs as [|[w c] cs IH]; intros d Hcs Hd; [by apply store_kept_refl|]. apply Forall_cons in Hcs as [Hc Hcs]. simpl.
  pose proof (serve_kept w c d Hc Hd) as Hk. eapply store_kept_trans; [done|]. by apply IH, Hk.
Qed.
Lemma new_gateway_ok : ok new_gateway.
Proof. by split. Qed.
(** Who is let in. *)
Lemma authenticateNode_spec w t d n d' :
  authenticateNode digest w t d = (inr (Some n), d') →
  ∃ id v c, parseNodeCredential digest t = Some (id, v) ∧ credentials d !! id = Some c ∧ c_state c = s_active
    ∧ c_verifier c = v ∧ n = mkNode (c_instance_id c) id.
Proof.
  unfold authenticateNode. destruct (parseNodeCredential digest t) as [[id v]|]; [|done]. unfold_eff.
  destruct (credentials d !! id) as [c|] eqn:Hc; simpl; [|done].
  destruct (instances d !! c_instance_id c) as [i|]; simpl; [|done].
  destruct (verifierMatches v (c_verifier c)) eqn:Hv; simpl; [|done].
  destruct (bool_decide_reflect (c_state c = s_active)) as [Hs|]; simpl; [|done]. case_match; [done|].
  intros Heq. exists id, v, c. unfold verifierMatches in Hv. guards. split_and!; try done.
  unfold currentTime in Heq. destruct (w_now w) as [t'|]; [|done]. destruct (isSafeInteger t'); [|done]. simpl in Heq.
  unfold sql, require in Heq. destruct (w_commits w); [|done]. simpl in Heq.
  destruct (update_credential id _ _ d) as [[] d1]; [done|]. destruct (w_after w); [|done]. by injection Heq as <- _.
Qed.

(** C6. The Gateway's credential store is safe: whatever calls residents and operators
    make, in any order, with any clock, a random source of bytes and a digest of 32
    bytes, and with transactions, audit writes and the
    hook after the write failing at will, no two credentials of an instance are active
    and no credential has two pending rotations; the constraints and triggers of the
    schema, the UNIQUE indexes included, never refuse a statement of the store: an
    error of SQLite means that the transaction was not carried out, or that a grant
    was asked for and the ids the random source gave to all three attempts were
    in use; later calls never change the
    instance or the secret of a credential and never bring a revoked one back; and a
    token is let in only as the instance of an active credential with its digest. *)
Theorem credential_store_safe cs cs' :
  Forall (λ x, call_ok x.2) (cs ++ cs') →
  let d := serves cs new_gateway in
  let d' := serves cs' d in
  (∀ i j c c', credentials d !! i = Some c → credentials d !! j = Some c' →
    c_state c = s_active ∧ c_state c' = s_active ∧ c_instance_id c = c_instance_id c'
    ∨ c_state c = s_pending ∧ c_state c' = s_pending ∧ c_rotates c = c_rotates c' → i = j)
  ∧ (∀ w c u d', call_ok c → serve w c d = (inl (SqlError u), d') → w_commits w = false ∨ u = true ∧ ids_taken c d)
  ∧ (∀ id c, credentials d !! id = Some c → ∃ c', credentials d' !! id = Some c' ∧ keeps c c')
  ∧ (∀ w t n d', authenticateNode digest w t d = (inr (Some n), d') →
      ∃ id v c, parseNodeCredential digest t = Some (id, v) ∧ credentials d !! id = Some c ∧ c_state c = s_active
        ∧ c_verifier c = v ∧ n = mkNode (c_instance_id c) id).
Proof using digest_length.
  intros [Hcs Hcs']%Forall_app d d'. pose proof (serves_kept cs _ Hcs new_gateway_ok) as [Hd _]. fold d in Hd. split_and!.
  - intros i j c c' Hi Hj Hcc. destruct (decide (i = j)); [done|]. pose proof (ok_unique d Hd i j c c' Hi Hj n) as Hu.
    unfold clashes in Hu. apply orb_false_iff in Hu as [Hp Ha].
    destruct Hcc as [(E1 & E2 & E3)|(E1 & E2 & E3)]; [rewrite E1, E2, E3, String.eqb_refl in Ha; done|].
    rewrite E1, E2, (bool_decide_eq_true_2 _ E3) in Hp. done.
  - intros w c u d'' Hc. by apply serve_sql.
  - by apply (serves_kept cs' d Hcs' Hd).
  - intros w t n d''. apply authenticateNode_spec.
Qed.
End operations.
