(* ===== verification/CredentialView.v ===== *)
(** * What the Gateway's store does to the credentials

    An abstract machine over what matters of a credential (its instance, digest, state,
    what it rotates and what replaced it): enrolled, proposed, activated, revoked.  Each
    call of the store is one step of it or none, and the steps of a rotation need the
    token of the credential that is rotated, or of the one that is activated. *)

From S2P Require Import Prelude Effects Protocol Codec JsString JsText Credentials ResidentControl CredentialStore CredentialStoreTheorems.
Local Open Scope string_scope.
Local Open Scope Z_scope.

Record cview := mkView {
  v_instance : string;
  v_verifier : list Z;
  v_state : credential_state;
  v_rotates : option string;
  v_replaced : option string;
}.
Definition view1 (c : Credential) : cview := mkView (c_instance_id c) (c_verifier c) (c_state c) (c_rotates c) (c_replaced_by c).
Definition view (d : gateway) : gmap string cview := view1 <$> credentials d.
Definition with_state (s : credential_state) (replaced : option string) (v : cview) : cview :=
  mkView (v_instance v) (v_verifier v) s (v_rotates v) replaced.

(** The steps; a token is its id and the digest of its secret. *)
Inductive label :=
  | l_none
  | l_enroll (id i : string) (v : list Z)
  | l_propose (token : string * list Z) (id : string) (v : list Z)
  | l_activate (token : string * list Z)
  | l_revoke (id : string).
Inductive credential_step (m : gmap string cview) : label → gmap string cview → Prop :=
  | cs_none : credential_step m l_none m
  | cs_enrolled id i v :
      m !! id = None → credential_step m (l_enroll id i v) (<[ id := mkView i v s_active None None ]> m)
  | cs_proposed id v o c :
      m !! o = Some c → v_state c = s_active → m !! id = None →
      credential_step m (l_propose (o, v_verifier c) id v) (<[ id := mkView (v_instance c) v s_pending (Some o) None ]> m)
  | cs_activated id c o oc :
      m !! id = Some c → v_state c = s_pending → v_rotates c = Some o → id ≠ o →
      m !! o = Some oc → v_state oc = s_active → v_instance oc = v_instance c →
      credential_step m (l_activate (id, v_verifier c))
        (<[ id := with_state s_active (v_replaced c) c ]> (<[ o := with_state s_revoked (Some id) oc ]> m))
  | cs_revoked id c :
      m !! id = Some c → v_state c ≠ s_revoked →
      credential_step m (l_revoke id) (<[ id := with_state s_revoked (v_replaced c) c ]> m).
(** A step with one of these labels. *)
Definition steps_by (P : label → Prop) (m m' : gmap string cview) : Prop := ∃ l, P l ∧ credential_step m l m'.

Lemma view_lookup d id : view d !! id = view1 <$> credentials d !! id.
Proof. apply lookup_fmap. Qed.
Lemma view_put d id c : view (set_credentials (<[ id := c ]> (credentials d)) d) = <[ id := view1 c ]> (view d).
Proof. unfold view. simpl. apply fmap_insert. Qed.

(** ** The statements *)

Lemma update_inv id guard f d res d' :
  update_credential id guard f d = (res, d') →
  d' = d ∧ (∀ c, credentials d !! id = Some c → guard c = true → ∃ e, res = inl e)
  ∨ res = inr tt ∧ ∃ c, credentials d !! id = Some c ∧ guard c = true ∧ d' = set_credentials (<[ id := f c ]> (credentials d)) d.
Proof.
  unfold update_credential, sql, unique. unfold_eff. destruct (credentials d !! id) as [c|] eqn:Hc.
  2:{ intros [= <- <-]. left. split; [done|]. by intros c [=]. }
  destruct (guard c) eqn:Hg; simpl; [|intros [= <- <-]; left; split; [done|]; intros c' Hc' Hg'; injection Hc' as <-; congruence].
  destruct (bool_decide _ || _); simpl; [|intros [= <- <-]; left; eauto].
  destruct (consistent _ && _); simpl; [|intros [= <- <-]; left; eauto].
  destruct (unique_indexes _ _ _); simpl; [|intros [= <- <-]; left; eauto]. intros [= <- <-]. right. eauto 6.
Qed.
(** A check was passed. *)
Lemma require_inv {A} b e (k : G A) d a d' : (require b e;; k) d = (inr a, d') → b = true ∧ k d = (inr a, d').
Proof. destruct b; [auto|done]. Qed.
Lemma insert_credential_inv id c d u d' :
  insert_credential id c d = (inr u, d') →
  credentials d !! id = None ∧ d' = set_credentials (<[ id := c ]> (credentials d)) d.
Proof.
  destruct u. intros [Hn [_ [_ Heq]%require_inv]%require_inv]%require_inv. apply bool_decide_eq_true in Hn. split; [done|]. by injection Heq as <-.
Qed.
Lemma insert_instance_inv id name t d u d' :
  insert_instance id name t d = (inr u, d') → credentials d' = credentials d.
Proof. destruct u. intros [_ [_ Heq]%require_inv]%require_inv. by injection Heq as <-. Qed.
Lemma consume_grant_inv id b d u d' : consume_grant id b d = (inr u, d') → credentials d' = credentials d.
Proof.
  destruct u. unfold consume_grant. change (get ≫= ?k) with (λ d, k d d). cbv beta. destruct (grants d !! id); [|by intros [= <-]].
  destruct b as [[[? ?] ?] ?]. intros [_ Heq]%require_inv. by injection Heq as <-.
Qed.
Lemma write_audit_inv w e d u d' : write_audit w e d = (inr u, d') → credentials d' = credentials d.
Proof. destruct u. intros [_ Heq]%require_inv. by injection Heq as <-. Qed.
Lemma committed_inv {A} w (m : G A) d res d' :
  committed w m d = (res, d') →
  (d' = d ∧ ∃ e, res = inl e) ∨ ∃ a, m d = (inr a, d') ∧ (res = inr a ∨ res = inl AfterWriteError).
Proof.
  unfold committed, transaction. unfold_eff. destruct (w_commits w); simpl; [|intros [= <- <-]; left; eauto].
  destruct (m d) as [[e|a] d1]; [intros [= <- <-]; left; eauto|]. unfold require. destruct (w_after w); intros [= <- <-]; right; eauto.
Qed.

(** ** What a success tells *)

Definition Enrolled (m : gmap string cview) (i id : string) (v : list Z) : Prop :=
  ∃ c, m !! id = Some c ∧ v_instance c = i ∧ v_verifier c = v ∧ v_rotates c = None.
Definition Proposed (m : gmap string cview) (i id o : string) (v : list Z) : Prop :=
  ∃ c, m !! id = Some c ∧ v_instance c = i ∧ v_verifier c = v ∧ v_rotates c = Some o.
Definition Activated (m : gmap string cview) (i id o : string) : Prop :=
  ∃ c oc, m !! id = Some c ∧ v_instance c = i ∧ v_rotates c = Some o ∧ m !! o = Some oc ∧ v_replaced oc = Some id.

Section operations.
Context (digest : string → list Z).

Lemma propose_transaction_view w old new v q t d r d' :
  propose_transaction w old new v q t d = (inr r, d') →
  steps_by (λ l, l = l_none ∨ l = l_propose old new v) (view d) (view d')
  ∧ rr_credentialId r = new ∧ rr_previousCredentialId r = old.1 ∧ Proposed (view d') (rr_instanceId r) new old.1 v.
Proof.
  unfold propose_transaction. change ((get ≫= ?k) d) with (k d d). destruct old as [oid ov]. simpl.
  destruct (credentials d !! oid) as [o|] eqn:Ho; [|done].
  destruct (verifierMatches ov (c_verifier o)) eqn:Hv; simpl; [|done].
  destruct (bool_decide_reflect (c_state o = s_active)) as [Hs|]; simpl; [|done].
  destruct (String.eqb_spec new oid) as [|Hne]; [done|].
  assert (ov = c_verifier o) as -> by (unfold verifierMatches in Hv; by guards).
  destruct (credentials d !! new) as [e|] eqn:Hn.
  - case_match eqn:Hm; [|done]. intros [= <- <-]. split_and!; [by eexists; split; [left|constructor]|done..|]. exists (view1 e). guards.
    rewrite view_lookup, Hn. unfold verifierMatches in *. guards. split_and!; try done.
  - case_match; [|done]. intros (? & d1 & [_ ->]%insert_credential_inv & (? & d2 & Ha%write_audit_inv & Heq)%bind_inv)%bind_inv.
    injection Heq as <- <-. assert (view d2 = <[ new := mkView (c_instance_id o) v s_pending (Some oid) None ]> (view d)) as Hd2.
    { unfold view at 1. rewrite Ha. apply (view_put d new). }
    rewrite Hd2. split_and!; [|done..|].
    + eexists. split; [by right|]. apply (cs_proposed _ new v oid (view1 o)); [by rewrite view_lookup, Ho|done|by rewrite view_lookup, Hn].
    + eexists. by rewrite lookup_insert_eq.
Qed.
Lemma activate_transaction_view w new q t d r d' :
  ok d → activate_transaction w new q t d = (inr r, d') →
  steps_by (λ l, l = l_none ∨ l = l_activate new) (view d) (view d')
  ∧ rr_credentialId r = new.1 ∧ Activated (view d') (rr_instanceId r) new.1 (rr_previousCredentialId r).
Proof.
  intros Hok. unfold activate_transaction. change ((get ≫= ?k) d) with (k d d). destruct new as [nid nv]. simpl.
  destruct (credentials d !! nid) as [c|] eqn:Hc; [|done].
  destruct (verifierMatches nv (c_verifier c)) eqn:Hv; simpl; [|done].
  assert (nv = c_verifier c) as -> by (unfold verifierMatches in Hv; by guards).
  destruct (c_rotates c) as [oid|] eqn:Hr; [|done].
  destruct (bool_decide (c_state c = s_active) && _) eqn:Hrep.
  { intros [= <- <-]. split_and!; [by eexists; split; [left|constructor]|done|]. destruct (credentials d !! oid) as [o|] eqn:Ho; [|by rewrite andb_false_r in Hrep].
    guards. exists (view1 c), (view1 o). simpl. by rewrite !view_lookup, Hc, Ho. }
  destruct (bool_decide_reflect (c_state c = s_pending)) as [Hs|]; simpl; [|done].
  destruct (credentials d !! oid) as [o|] eqn:Ho; [|done]. case_match eqn:Hg; [done|]. guards.
  assert (nid ≠ oid) as Hne by (destruct (co_rotates _ _ _ (ok_credential d Hok nid c Hc) oid Hr) as (_ & _ & _ & ?); done).
  intros (? & d1 & H1%update_inv & (? & d2 & H2%update_inv & (? & d3 & H3%write_audit_inv & Heq)%bind_inv)%bind_inv)%bind_inv.
  injection Heq as <- <-.
  destruct H1 as [[_ H1]|(_ & o' & Ho' & _ & ->)].
  { destruct (H1 o Ho) as [? ?]; [by apply bool_decide_eq_true|done]. }
  rewrite Ho in Ho'. injection Ho' as <-.
  destruct H2 as [[_ H2]|(_ & c' & Hc' & _ & ->)].
  { destruct (H2 c) as [? ?]; [simpl; by rewrite lookup_insert_ne|by apply bool_decide_eq_true|done]. }
  simpl in Hc'. rewrite lookup_insert_ne in Hc' by done. rewrite Hc in Hc'. injection Hc' as <-.
  assert (view d3 = <[ nid := with_state s_active (c_replaced_by c) (view1 c) ]> (<[ oid := with_state s_revoked (Some nid) (view1 o) ]> (view d))) as Hd3.
  { unfold view at 1. rewrite H3. simpl. unfold view. by rewrite !fmap_insert. }
  rewrite Hd3. split_and!; [|done|].
  - eexists. split; [by right|]. apply (cs_activated _ nid (view1 c) oid (view1 o)); try done; by rewrite view_lookup, ?Hc, ?Ho.
  - do 2 eexists. rewrite lookup_insert_eq, lookup_insert_ne, lookup_insert_eq by done. split_and!; try done.
Qed.
Lemma enroll_transaction_view w grant i name id v q t d r d' :
  ok d → enroll_transaction w grant i name id v q t d = (inr r, d') →
  steps_by (λ l, l = l_none ∨ l = l_enroll id i v) (view d) (view d') ∧ re_instanceId r = i ∧ re_credentialId r = id ∧ Enrolled (view d') i id v.
Proof.
  intros Hok. unfold enroll_transaction. change ((get ≫= ?k) d) with (k d d). cbv beta.
  destruct (grants d !! grant.1) as [g|] eqn:Hg; [|done]. case_match; [done|].
  destruct (g_consumed g) as [[[[t' i'] c'] v']|] eqn:Hco.
  - case_match eqn:Hm; [|done]. intros [= <- <-]. guards. unfold verifierMatches in *. guards.
    destruct (ok_grant d Hok _ _ _ _ _ _ Hg Hco) as (cr & Hcr & Hcr1 & Hcr2 & Hcr3). split_and!; [by eexists; split; [left|constructor]|done..|].
    exists (view1 cr). rewrite view_lookup. simpl. subst. by rewrite Hcr.
  - do 4 (case_match; [done|]).
    intros (? & d1 & J1%insert_instance_inv & (? & d2 & [Hn ->]%insert_credential_inv &
      (? & d3 & J3%consume_grant_inv & (? & d4 & J4%write_audit_inv & Heq)%bind_inv)%bind_inv)%bind_inv)%bind_inv.
    injection Heq as <- <-. rewrite J1 in Hn.
    assert (view d4 = <[ id := mkView i v s_active None None ]> (view d)) as Hd4.
    { unfold view at 1. rewrite J4, J3. simpl. rewrite J1, fmap_insert. done. }
    rewrite Hd4. split_and!; [|done..|].
    + eexists. split; [by right|]. apply cs_enrolled. by rewrite view_lookup, Hn.
    + eexists. by rewrite lookup_insert_eq.
Qed.

(** Nothing happens. *)
Lemma steps_none (P : label → Prop) m : P l_none → steps_by P m m.
Proof. intros HP. exists l_none. split; [done|constructor]. Qed.
Lemma steps_mono (P Q : label → Prop) m m' : (∀ l, P l → Q l) → steps_by P m m' → steps_by Q m m'.
Proof. intros HPQ (l & Hl & Hs). exists l. auto. Qed.
(** A call that only binds arguments before its transaction. *)
Lemma pure_bind_inv {A B} (m : G A) (k : A → G B) d res d' :
  (∀ d, (m d).2 = d) → (m ≫= k) d = (res, d') → (d' = d ∧ ∃ e, res = inl e) ∨ ∃ a, m d = (inr a, d) ∧ k a d = (res, d').
Proof.
  intros Hm. unfold mbind, eff_bind. specialize (Hm d). destruct (m d) as [[e|a] d1]; simpl in Hm; subst.
  - intros [= <- <-]. eauto.
  - eauto.
Qed.
Lemma argument_pure b d : (argument b d).2 = d.
Proof. by destruct b. Qed.
Lemma currentTime_pure w d : (currentTime w d).2 = d.
Proof. unfold currentTime. destruct (w_now w); [|done]. by case_match. Qed.
Lemma request_pure q d : (bounded_request q d).2 = d.
Proof. unfold bounded_request. destruct q; [|done]. by case_match. Qed.
Lemma name_pure q d : (bounded_name q d).2 = d.
Proof. unfold bounded_name. by case_match. Qed.
Ltac through H lem :=
  apply (pure_bind_inv _ _ _ _ _ lem) in H as [[-> [? ->]]|(? & ? & H)]; [by split; [apply steps_none; left|]|].

Lemma proposeRotation_view w t new v q d res d' :
  proposeRotation digest w t new v q d = (res, d') →
  steps_by (λ l, l = l_none ∨ ∃ o, parseNodeCredential digest t = Some o ∧ l = l_propose o new v) (view d) (view d')
  ∧ ∀ r, res = inr r → ∃ o, parseNodeCredential digest t = Some o ∧ rr_credentialId r = new
    ∧ rr_previousCredentialId r = o.1 ∧ Proposed (view d') (rr_instanceId r) new o.1 v.
Proof.
  unfold proposeRotation. destruct (parseNodeCredential digest t) as [old|]; [|intros [= <- <-]; by split; [apply steps_none; left|]].
  intros H. through H (argument_pure (isCredentialId new)). through H (argument_pure (exactVerifier v)).
  through H (request_pure q). through H (currentTime_pure w).
  apply committed_inv in H as [[-> [e ->]]|(r & Hr & Hres)]; [by split; [apply steps_none; left|]|].
  apply propose_transaction_view in Hr as (Hst & E1 & E2 & E3). split; [eapply steps_mono, Hst; naive_solver|]. intros r' ->. destruct Hres as [[= ->]|]; [|done].
  exists old. done.
Qed.
Lemma activateRotation_view w t q d res d' :
  ok d → activateRotation digest w t q d = (res, d') →
  steps_by (λ l, l = l_none ∨ ∃ o, parseNodeCredential digest t = Some o ∧ l = l_activate o) (view d) (view d')
  ∧ ∀ r, res = inr r → ∃ n, parseNodeCredential digest t = Some n ∧ rr_credentialId r = n.1
    ∧ Activated (view d') (rr_instanceId r) n.1 (rr_previousCredentialId r).
Proof.
  intros Hok. unfold activateRotation. destruct (parseNodeCredential digest t) as [new|]; [|intros [= <- <-]; by split; [apply steps_none; left|]].
  intros H. through H (request_pure q). through H (currentTime_pure w).
  apply committed_inv in H as [[-> [e ->]]|(r & Hr & Hres)]; [by split; [apply steps_none; left|]|].
  apply activate_transaction_view in Hr as (Hst & E1 & E2); [|done]. split; [eapply steps_mono, Hst; naive_solver|]. intros r' ->. destruct Hres as [[= ->]|]; [|done].
  exists new. done.
Qed.
Lemma enroll_view w input d res d' :
  ok d → enroll digest w input d = (res, d') →
  steps_by (λ l, l = l_none ∨ l = l_enroll (in_credentialId input) (in_instanceId input) (in_credentialVerifier input)) (view d) (view d')
  ∧ ∀ r, res = inr r → re_instanceId r = in_instanceId input ∧ re_credentialId r = in_credentialId input
    ∧ Enrolled (view d') (in_instanceId input) (in_credentialId input) (in_credentialVerifier input).
Proof.
  intros Hok. unfold enroll. destruct (parseEnrollmentCredential digest (in_grantToken input)) as [grant|];
    [|intros [= <- <-]; by split; [apply steps_none; left|]].
  intros H. through H (argument_pure (isGatewayInstanceId (in_instanceId input))). through H (name_pure (in_displayName input)).
  through H (argument_pure (isCredentialId (in_credentialId input))). through H (argument_pure (exactVerifier (in_credentialVerifier input))).
  through H (request_pure (in_requestId input)). through H (currentTime_pure w).
  apply committed_inv in H as [[-> [e ->]]|(r & Hr & Hres)]; [by split; [apply steps_none; left|]|].
  apply enroll_transaction_view in Hr as (Hst & E1 & E2 & E3); [|done]. split; [done|]. intros r' ->.
  destruct Hres as [[= ->]|]; done.
Qed.
Lemma authenticateNode_view w t d : view (authenticateNode digest w t d).2 = view d.
Proof.
  unfold authenticateNode. destruct (parseNodeCredential digest t) as [[id v]|]; [|done]. change ((get ≫= ?k) d) with (k d d).
  cbv beta. destruct (credentials d !! id) as [c|] eqn:Hc; simpl; [|done].
  destruct (instances d !! c_instance_id c); simpl; [|done]. case_match; [done|]. case_match; [done|].
  unfold currentTime. destruct (w_now w) as [t'|]; [|done]. destruct (isSafeInteger t'); [|done]. unfold sql, require. unfold_eff.
  destruct (w_commits w); [|done]. destruct (update_credential id (λ _, true) (used t') d) as [res d1] eqn:Hu.
  assert (view d1 = view d) as Hv.
  { apply update_inv in Hu as [[-> _]|(_ & c' & Hc' & _ & ->)]; [done|]. rewrite view_put. apply insert_id.
    rewrite view_lookup, Hc'. done. }
  destruct res; [done|]. by destruct (w_after w).
Qed.
Lemma revokeCredential_view w id q d : steps_by (λ l, l = l_none ∨ l = l_revoke id) (view d) (view (revokeCredential w id q d).2).
Proof.
  destruct (revokeCredential w id q d) as [res d'] eqn:H. simpl. unfold revokeCredential in H.
  apply (pure_bind_inv _ _ _ _ _ (argument_pure _)) in H as [[-> _]|(? & _ & H)]; [by apply steps_none; left|].
  apply (pure_bind_inv _ _ _ _ _ (request_pure q)) in H as [[-> _]|(? & _ & H)]; [by apply steps_none; left|].
  apply (pure_bind_inv _ _ _ _ _ (currentTime_pure w)) in H as [[-> _]|(t & _ & H)]; [by apply steps_none; left|].
  apply committed_inv in H as [[-> _]|(r & Hr & _)]; [by apply steps_none; left|].
  change ((get ≫= ?k) d) with (k d d) in Hr. cbv beta in Hr. destruct (credentials d !! id) as [c|] eqn:Hc; [|done].
  case_bool_decide as Hs; [injection Hr as _ <-; by apply steps_none; left|].
  apply bind_inv in Hr as (? & d1 & H1%update_inv & (? & d2 & H2%write_audit_inv & Heq)%bind_inv).
  injection Heq as _ <-. destruct H1 as [[_ H1]|(_ & c' & Hc' & _ & ->)]; [by destruct (H1 c Hc eq_refl)|].
  rewrite Hc in Hc'. injection Hc' as <-. replace (view d2) with (<[ id := with_state s_revoked (c_replaced_by c) (view1 c) ]> (view d)).
  - eexists. split; [by right|]. apply (cs_revoked _ id (view1 c)); [by rewrite view_lookup, Hc|done].
  - unfold view at 2. rewrite H2. simpl. by rewrite fmap_insert.
Qed.

(** ** Refinement *)

(** Allocating and revoking grants leaves the credentials alone. *)
Lemma grant_attempt_view w ttl t q m d : view (grant_attempt w ttl t q m d).2 = view d.
Proof.
  destruct (grant_attempt w ttl t q m d) as [res d'] eqn:H. simpl.
  apply committed_inv in H as [[-> _]|(r & Hr & _)]; [done|].
  apply bind_inv in Hr as ([] & d1 & Hi & (? & d2 & H2%write_audit_inv & Heq)%bind_inv). injection Heq as _ <-.
  unfold view. rewrite H2. f_equal. apply require_inv in Hi as [_ [_ Hi]%require_inv]. by injection Hi as <-.
Qed.
Lemma grant_attempts_view w ttl t q randoms tries d : view (grant_attempts digest w ttl t q randoms tries d).2 = view d.
Proof.
  revert tries d. induction randoms as [|[ri rs] randoms IH]; intros [|tries] d; try done. cbn [grant_attempts].
  destruct (createEnrollmentCredential digest ri rs) as [m|]; [|done].
  pose proof (grant_attempt_view w ttl t q m d) as Ha. destruct (grant_attempt w ttl t q m d) as [[e|a] d']; [|done]. simpl in Ha.
  destruct e as [| |[]| |]; try done. destruct tries; [done|]. by rewrite IH.
Qed.
Lemma createEnrollmentGrant_view w ttl q randoms d : view (createEnrollmentGrant digest w ttl q randoms d).2 = view d.
Proof.
  destruct (createEnrollmentGrant digest w ttl q randoms d) as [res d'] eqn:H. simpl. unfold createEnrollmentGrant in H.
  apply (pure_bind_inv _ _ _ _ _ (argument_pure _)) in H as [[-> _]|(? & _ & H)]; [done|].
  apply (pure_bind_inv _ _ _ _ _ (currentTime_pure w)) in H as [[-> _]|(t & _ & H)]; [done|].
  apply (pure_bind_inv _ _ _ _ _ (argument_pure _)) in H as [[-> _]|(? & _ & H)]; [done|].
  apply (pure_bind_inv _ _ _ _ _ (request_pure q)) in H as [[-> _]|(q' & _ & H)]; [done|].
  pose proof (grant_attempts_view w ttl t q' randoms 3 d) as Hv. by rewrite H in Hv.
Qed.
Lemma revokeEnrollmentGrant_view w id q d : view (revokeEnrollmentGrant w id q d).2 = view d.
Proof.
  destruct (revokeEnrollmentGrant w id q d) as [res d'] eqn:H. simpl. unfold revokeEnrollmentGrant in H.
  apply (pure_bind_inv _ _ _ _ _ (argument_pure _)) in H as [[-> _]|(? & _ & H)]; [done|].
  apply (pure_bind_inv _ _ _ _ _ (request_pure q)) in H as [[-> _]|(? & _ & H)]; [done|].
  apply (pure_bind_inv _ _ _ _ _ (currentTime_pure w)) in H as [[-> _]|(t & _ & H)]; [done|].
  apply committed_inv in H as [[-> _]|(r & Hr & _)]; [done|].
  change ((get ≫= ?k) d) with (k d d) in Hr. cbv beta in Hr. destruct (grants d !! id) as [g|]; [|done].
  destruct (g_revoked_at g); [by injection Hr as _ <-|].
  apply bind_inv in Hr as (? & d1 & H1 & (? & d2 & H2%write_audit_inv & Heq)%bind_inv). injection Heq as _ <-.
  injection H1 as _ <-. unfold view. by rewrite H2.
Qed.

(** The steps a call may take. *)
Definition may (c : gateway_call) (l : label) : Prop :=
  l = l_none ∨
  match c with
  | gc_enroll input => l = l_enroll (in_credentialId input) (in_instanceId input) (in_credentialVerifier input)
  | gc_proposeRotation token new v _ => ∃ o, parseNodeCredential digest token = Some o ∧ l = l_propose o new v
  | gc_activateRotation token _ => ∃ o, parseNodeCredential digest token = Some o ∧ l = l_activate o
  | gc_revokeCredential id _ => l = l_revoke id
  | _ => False
  end.
Lemma forget_state {A} (m : G A) d : (forget m d).2 = (m d).2.
Proof. unfold forget. unfold_eff. by destruct (m d) as [[] ?]. Qed.
Lemma serve_view w c d : ok d → steps_by (may c) (view d) (view (serve digest w c d).2).
Proof.
  intros Hok. destruct c; simpl; rewrite forget_state.
  - rewrite createEnrollmentGrant_view. by apply steps_none; left.
  - rewrite revokeEnrollmentGrant_view. by apply steps_none; left.
  - destruct (enroll digest w input d) as [res d'] eqn:H. by apply (enroll_view w input d res d' Hok H).
  - rewrite authenticateNode_view. by apply steps_none; left.
  - destruct (proposeRotation digest w token new verifier request d) as [res d'] eqn:H.
    by apply (proposeRotation_view _ _ _ _ _ _ _ _ H).
  - destruct (activateRotation digest w token request d) as [res d'] eqn:H. by apply (activateRotation_view _ _ _ _ _ _ Hok H).
  - apply revokeCredential_view.
Qed.

(** C4. The credential store implements the credential machine: in every state the
    store can reach, each call with any outcome (an error, a failed hook after the write,
    a replay included) is at most one of its steps, with the arguments of the call.  A
    rotation is proposed only with the token of the active credential it replaces, and
    a credential is activated only with its own token, in one step with the revocation
    of the one it replaces. *)
Theorem credential_store_refines cs w c :
  (∀ s, length (digest s) = 32%nat) → Forall (λ x, call_ok x.2) cs →
  let d := serves digest cs new_gateway in
  steps_by (may c) (view d) (view (serve digest w c d).2).
Proof. intros Hl Hcs d. apply serve_view. by apply (serves_kept digest Hl cs _ Hcs new_gateway_ok). Qed.
End operations.
