(* ===== verification/RateLimiter.v ===== *)
(** * The limiter of control requests (BoundedResidentControlRateLimiter of
    packages/gateway/src/resident-control-api.ts)

    One bucket per direct peer and route, in a map of bounded size.  The order of the
    map does not matter: pruning removes every expired bucket. *)

From Stdlib Require Import Ascii Sorting.Sorted.
From S2P Require Import Prelude Protocol Codec JsString JsText ResidentControl.
Local Open Scope string_scope.
Local Open Scope Z_scope.

Record limits := mkLimits { maxEntries : Z; windowMs : Z; requestsPerWindow : Z }.
(** The constructor; [None] throws. *)
Definition limiter_options (entries window requests : option Z) : option limits :=
  let l := mkLimits (default 1024 entries) (default 60000 window) (default 60 requests) in
  let positive v := (v <=? MAX_SAFE_INTEGER) && (1 <=? v) in
  if positive (maxEntries l) && positive (windowMs l) && positive (requestsPerWindow l) then Some l else None.

Record RateBucket := mkBucket { count : Z; resetAt : Z }.
Abbreviation buckets := (gmap string RateBucket).
(** [now] is [None] when it is no integer. *)
Record RateInput := mkInput { peerAddress : string; route : string; now : option Z }.
Definition ROUTES : list string := ["enrollment"; "rotation"; "rotationActivation"; "link"].
Definition NUL : ascii := Ascii.zero.
Definition has_nul (s : string) : bool := negb (all_chars (λ c, negb (Ascii.eqb c NUL)) s).

Section limiter.
Context (l : limits).

(** The time of a request that is in order. *)
Definition admissible (i : RateInput) : option Z :=
  let n := Z.of_nat (length (units (peerAddress i))) in
  match now i with
  | Some t =>
      if (n <? 1) || (128 <? n) || has_nul (peerAddress i) || negb (bool_decide (route i ∈ ROUTES))
         || (MAX_SAFE_INTEGER <? Z.abs t) || (t <? 0) || (MAX_SAFE_INTEGER - windowMs l <? t)
      then None else Some t
  | None => None
  end.
Definition key (i : RateInput) : string := peerAddress i +:+ String NUL (route i).
Definition live (t : Z) (b : RateBucket) : bool := t <? resetAt b.
Definition full (m : buckets) : bool := maxEntries l <=? Z.of_nat (size m).
Definition prune (t : Z) (m : buckets) : buckets :=
  if full m then filter (λ kb, live t kb.2 = true) m else m.
Definition allow (i : RateInput) (m : buckets) : bool * buckets :=
  match admissible i with
  | None => (false, m)
  | Some t =>
      let k := key i in
      let opened m :=
        let m := prune t m in
        if full m then (false, m) else (true, <[ k := mkBucket 1 (t + windowMs l) ]> m) in
      match m !! k with
      | Some b =>
          if live t b then
            if requestsPerWindow l <=? count b then (false, m)
            else (true, <[ k := mkBucket (count b + 1) (resetAt b) ]> m)
          else opened (delete k m)
      | None => opened m
      end
  end.
Definition allows (inputs : list RateInput) (m : buckets) : buckets := foldl (λ m i, (allow i m).2) m inputs.

(** ** The memory is bounded *)

Context (Hl : 1 ≤ maxEntries l ∧ 1 ≤ windowMs l ∧ 1 ≤ requestsPerWindow l).
Record bounded (m : buckets) : Prop := {
  b_size : Z.of_nat (size m) ≤ maxEntries l;
  b_count : map_Forall (λ _ b, 1 ≤ count b ≤ requestsPerWindow l) m;
}.
Lemma prune_sub t m : prune t m ⊆ m.
Proof. unfold prune. destruct (full m); [apply map_filter_subseteq|done]. Qed.
Lemma bounded_sub m m' : m' ⊆ m → bounded m → bounded m'.
Proof.
  intros Hs [H1 H2]. split; [apply map_subseteq_size in Hs; lia|]. intros k b Hk. eapply H2, lookup_weaken; eauto.
Qed.
Lemma allow_bounded i m : bounded m → bounded (allow i m).2.
Proof using Hl.
  assert (∀ t k m, bounded m → bounded (if full (prune t m) then (false, prune t m)
    else (true, <[ k := mkBucket 1 (t + windowMs l) ]> (prune t m))).2) as Hopen.
  { intros t k m' Hm. pose proof (bounded_sub _ _ (prune_sub t m') Hm) as [H1 H2].
    destruct (full (prune t m')) eqn:Hf; simpl; [done|]. unfold full in Hf. guards. split.
    - destruct (prune t m' !! k) eqn:Hk; [rewrite map_size_insert_Some by eauto; lia|rewrite map_size_insert_None by done; lia].
    - apply map_Forall_insert_2; [simpl; lia|done]. }
  intros Hm. unfold allow. destruct (admissible i) as [t|]; [|done]. destruct (m !! key i) as [b|] eqn:Hb; [|by apply Hopen].
  destruct (live t b); [|apply Hopen; eapply bounded_sub, Hm; apply delete_subseteq].
  destruct (requestsPerWindow l <=? count b) eqn:Hc; simpl; [done|]. guards. destruct Hm as [H1 H2]. split.
  - rewrite map_size_insert_Some by eauto. done.
  - apply map_Forall_insert_2; [|done]. specialize (H2 _ _ Hb). simpl in *. lia.
Qed.

(** ** Requests are limited *)

(** The requests of a key that are let through in the window from [a] on. *)
Definition within (a : Z) (i : RateInput) : bool :=
  match now i with Some t => (a <=? t) && (t <? a + windowMs l) | None => false end.
Fixpoint granted (k : string) (a : Z) (inputs : list RateInput) (m : buckets) : Z :=
  match inputs with
  | [] => 0
  | i :: inputs =>
      (if (allow i m).1 && String.eqb (key i) k && within a i then 1 else 0) + granted k a inputs (allow i m).2
  end.
(** The clock does not go back. *)
Definition clock (inputs : list RateInput) : Prop :=
  StronglySorted (λ i j, ∀ t u, now i = Some t → now j = Some u → t ≤ u) inputs.
(** How many more the window from [a] on can let through. *)
Definition credit (k : string) (a : Z) (m : buckets) : Z :=
  match m !! k with
  | None => requestsPerWindow l
  | Some b => requestsPerWindow l - count b + (if resetAt b <? a + windowMs l then requestsPerWindow l else 0)
  end.
Lemma credit_bounds k a m : bounded m → 0 ≤ credit k a m < 2 * requestsPerWindow l.
Proof using Hl.
  intros [_ H]. unfold credit. destruct (m !! k) as [b|] eqn:Hb; [|lia]. specialize (H _ _ Hb). simpl in H.
  destruct (resetAt b <? a + windowMs l); lia.
Qed.
(** Forgetting expired buckets adds nothing. *)
Lemma credit_sub k a t m m' :
  bounded m → t < a + windowMs l → m' ⊆ m → (∀ b, m !! k = Some b → live t b = true → m' !! k = Some b) →
  credit k a m' ≤ credit k a m.
Proof using Hl.
  intros [_ Hm] Ht Hs Hk. unfold credit. destruct (m !! k) as [b|] eqn:Hb.
  - specialize (Hm _ _ Hb). simpl in Hm. destruct (m' !! k) as [b'|] eqn:Hb'.
    + pose proof (lookup_weaken _ _ _ _ Hb' Hs) as Hw. rewrite Hb in Hw. by injection Hw as ->.
    + assert (live t b = false) as Hd. { destruct (live t b) eqn:H; [|done]. by specialize (Hk b eq_refl H). }
      unfold live in Hd. apply Z.ltb_ge in Hd. replace (resetAt b <? _) with true by (symmetry; apply Z.ltb_lt; lia). lia.
  - destruct (m' !! k) as [b'|] eqn:Hb'; [|done]. pose proof (lookup_weaken _ _ _ _ Hb' Hs). congruence.
Qed.
Lemma prune_live t m k b : m !! k = Some b → live t b = true → prune t m !! k = Some b.
Proof. intros Hb Hlv. unfold prune. destruct (full m); [|done]. by apply map_lookup_filter_Some. Qed.
Lemma opened_credit k a t k' m :
  bounded m → a ≤ t < a + windowMs l → (∀ b, m !! k' = Some b → False) →
  let r := if full (prune t m) then (false, prune t m) else (true, <[ k' := mkBucket 1 (t + windowMs l) ]> (prune t m)) in
  (if r.1 && String.eqb k' k then 1 else 0) + credit k a r.2 ≤ credit k a m.
Proof using Hl.
  intros Hm Ht Hn r. assert (credit k a (prune t m) ≤ credit k a m) as Hp.
  { apply (credit_sub k a t); [done|lia|apply prune_sub|]. intros b. apply prune_live. }
  unfold r. destruct (full (prune t m)); simpl; [lia|]. destruct (String.eqb_spec k' k) as [->|Hne].
  - assert (m !! k = None) as Hk by (destruct (m !! k) eqn:H; naive_solver).
    unfold credit. rewrite lookup_insert_eq, Hk. simpl. replace (_ <? _) with false by (symmetry; apply Z.ltb_ge; lia). lia.
  - unfold credit in *. rewrite lookup_insert_ne by done. lia.
Qed.
Lemma allow_credit k a t i m :
  bounded m → now i = Some t → a ≤ t < a + windowMs l →
  (if (allow i m).1 && String.eqb (key i) k then 1 else 0) + credit k a (allow i m).2 ≤ credit k a m.
Proof using Hl.
  intros Hm Hn Ht. unfold allow. destruct (admissible i) as [t'|] eqn:Ha; [|simpl; lia].
  assert (t' = t) as -> by (unfold admissible in Ha; rewrite Hn in Ha; case_match; congruence).
  destruct (m !! key i) as [b|] eqn:Hb; [|apply opened_credit; [done|done|congruence]].
  destruct (live t b) eqn:Hlv.
  - destruct (requestsPerWindow l <=? count b); simpl; [lia|]. unfold credit.
    destruct (String.eqb_spec (key i) k) as [<-|Hne]; [rewrite lookup_insert_eq, Hb; simpl; lia|].
    rewrite lookup_insert_ne by done. lia.
  - etrans; [apply opened_credit; [|done|]|].
    + eapply bounded_sub, Hm. apply delete_subseteq.
    + intros b'. by rewrite lookup_delete_eq.
    + apply (credit_sub k a t); [done|lia|apply delete_subseteq|]. intros b' Hb' Hl'.
      rewrite lookup_delete_ne; [done|]. intros <-. congruence.
Qed.
Lemma within_false a i t : now i = Some t → a + windowMs l ≤ t → within a i = false.
Proof. intros Hn Ht. unfold within. rewrite Hn, andb_comm. by rewrite (proj2 (Z.ltb_ge _ _)). Qed.
(** Once the clock passed the window, nothing is counted. *)
Lemma granted_after k a t inputs m :
  a + windowMs l ≤ t → Forall (λ i, ∀ u, now i = Some u → t ≤ u) inputs → granted k a inputs m = 0.
Proof.
  intros Ht Hi. revert m. induction Hi as [|i inputs Hi _ IH]; intros m; simpl; [done|]. rewrite IH.
  destruct (now i) as [u|] eqn:Hu; [rewrite (within_false a i u); [|done|specialize (Hi u eq_refl); lia]|];
    [|unfold within; rewrite Hu]; by rewrite andb_false_r.
Qed.
Lemma granted_credit k a inputs m :
  bounded m → clock inputs → Forall (λ i, ∀ u, now i = Some u → a ≤ u) inputs → granted k a inputs m ≤ credit k a m.
Proof using Hl.
  intros Hm Hc Hi. revert m Hm. induction Hc as [|i inputs Hc IH Hle]; intros m Hm; cbn [granted].
  { apply credit_bounds, Hm. }
  apply Forall_cons in Hi as [Hi His]. specialize (IH His (allow i m).2 (allow_bounded i m Hm)).
  destruct (now i) as [t|] eqn:Hn.
  - specialize (Hi t eq_refl). destruct (Z.ltb_spec t (a + windowMs l)) as [Ht|Ht].
    + pose proof (allow_credit k a t i m Hm Hn (conj Hi Ht)) as Hal.
      destruct ((allow i m).1 && String.eqb (key i) k); simpl; [destruct (within a i)|]; lia.
    + rewrite (within_false a i t), andb_false_r by done. rewrite (granted_after k a t); [apply credit_bounds, Hm|done|].
      eapply Forall_impl; [exact Hle|]. simpl. intros j Hj u Hu. eauto.
  - assert (allow i m = (false, m)) as Hno by (unfold allow, admissible; by rewrite Hn). rewrite Hno in *. simpl in *. lia.
Qed.
Lemma granted_bound k a inputs m : bounded m → clock inputs → granted k a inputs m ≤ 2 * requestsPerWindow l.
Proof using Hl.
  intros Hm Hc. revert m Hm. induction Hc as [|i inputs Hc IH Hle]; intros m Hm; cbn [granted]; [lia|].
  assert (clock (i :: inputs)) as Hcl by (by constructor). destruct (within a i) eqn:Hw.
  - unfold within in Hw. destruct (now i) as [t|] eqn:Hn; [|done]. apply andb_true_iff in Hw as [Ha Hb]. guards.
    apply Z.ltb_lt in Hb. pose proof (granted_credit k a (i :: inputs) m Hm) as Hg. cbn [granted] in Hg.
    pose proof (credit_bounds k a m Hm). unfold within in Hg. rewrite Hn in Hg.
    replace (a <=? t) with true in Hg by (symmetry; by apply Z.leb_le).
    replace (t <? a + windowMs l) with true in Hg by (symmetry; by apply Z.ltb_lt).
    etrans; [apply Hg|lia]; [done|]. constructor; [intros u; rewrite Hn; by intros [= <-]|].
    eapply Forall_impl; [exact Hle|]. simpl. intros j Hj u Hu. specialize (Hj t u eq_refl Hu). lia.
  - rewrite andb_false_r. specialize (IH (allow i m).2 (allow_bounded i m Hm)). lia.
Qed.
End limiter.

