(* ===== verification/ControlApi.v ===== *)
(** * The control API of the Gateway (GatewayResidentControlApi of
    packages/gateway/src/resident-control-api.ts)

    Decodes a request, calls the credential store and answers with a status and a
    body, or fails with the status and code of the failure; and the HTTP handler around
    it (#handleResidentControl of packages/gateway/src/http-service.ts): route, method,
    rate limit, authorization, body, response.  How the body is read off the socket
    is not modelled: a request carries the body or the status of the refusal. *)

From S2P Require Import Prelude Effects Protocol Codec JsString JsText Credentials ResidentControl CredentialStore RateLimiter.
Local Open Scope string_scope.
Local Open Scope Z_scope.

(** A [ResidentControlApiError], or an error the adapter lets through ([None] is the
    error of the codec). *)
Inductive api_exn :=
  | ApiError (status : Z) (code : ResidentControlErrorCode) (request : option string)
  | Escaped (e : option credential_exn).
Record ResidentControlSuccess := mkSuccess { ok_status : Z; ok_body : body }.
Abbreviation Api := (eff gateway api_exn).

Definition failure {A} (status : Z) (code : ResidentControlErrorCode) (request : option string) : Api A :=
  throw (ApiError status code request).
Definition credentialFailure (c : GatewayCredentialErrorCode) (request : string) : api_exn :=
  match c with
  | code_invalid => ApiError 401 unauthorized (Some request)
  | code_expired => ApiError 410 expired (Some request)
  | code_revoked => ApiError 403 revoked (Some request)
  | code_conflict => ApiError 409 conflict (Some request)
  end.
(** A call of the store, its errors let through. *)
Definition store {A} (m : G A) : Api A := λ d,
  match m d with
  | (inl e, d') => (inl (Escaped (Some e)), d')
  | (inr a, d') => (inr a, d')
  end.
Definition withCredentialMapping {A} (request : string) (m : Api A) : Api A := λ d,
  match m d with
  | (inl (Escaped (Some (CredentialError c))), d') => (inl (credentialFailure c request), d')
  | res => res
  end.
Definition written {A} `{Message A} (a : A) : Api body :=
  match serialize_message (A := A) (message_json a) with Some b => mret b | None => throw (Escaped None) end.
Definition received {A} `{Message A} (b : body) : Api A :=
  match decode_message (A := A) b with Some a => mret a | None => failure 400 invalid_request None end.

Definition enrollmentSuccess (r : EnrollmentReceipt) : Api ResidentControlSuccess :=
  b ← written (mkEnrollmentResult (re_instanceId r) (re_credentialId r) (re_replayed r));
  mret (mkSuccess (if re_replayed r then 200 else 201) b).
Definition rotationSuccess (r : RotationReceipt) (created : bool) : Api ResidentControlSuccess :=
  b ← written (mkRotationResult (rr_instanceId r) (rr_credentialId r) (rr_previousCredentialId r) (rr_replayed r));
  mret (mkSuccess (if created && negb (rr_replayed r) then 201 else 200) b).
(** [decodeCredentialVerifier(input.credentialVerifier)] *)
Definition verifier_of (s : string) : Api (list Z) :=
  match decodeCredentialVerifier s with Some v => mret v | None => throw (Escaped None) end.

Section api.
Context (digest : string → list Z) (w : circumstance).

Definition authorizeProposal (authorization : string) : Api string :=
  match parseNodeBearerAuthorization authorization with
  | None => failure 401 unauthorized None
  | Some token =>
      n ← store (authenticateNode digest w token);
      match n with None => failure 401 unauthorized None | Some _ => mret token end
  end.
Definition activationAuthorization (authorization : string) : Api string :=
  match parseNodeBearerAuthorization authorization with
  | None => failure 401 unauthorized None
  | Some token => mret token
  end.
Definition api_enroll (b : body) : Api ResidentControlSuccess :=
  input ← received (A := ResidentEnrollmentRequest) b;
  withCredentialMapping (erq_requestId input) (
    v ← verifier_of (erq_credentialVerifier input);
    r ← store (enroll digest w (mkEnrollmentInput (erq_grantToken input) (erq_instanceId input) (erq_displayName input)
                 (erq_credentialId input) v (Some (erq_requestId input))));
    enrollmentSuccess r).
Definition api_proposeRotation (token : string) (b : body) : Api ResidentControlSuccess :=
  input ← received (A := ResidentRotationRequest) b;
  withCredentialMapping (rrq_requestId input) (
    v ← verifier_of (rrq_credentialVerifier input);
    r ← store (proposeRotation digest w token (rrq_credentialId input) v (Some (rrq_requestId input)));
    rotationSuccess r true).
Definition api_activateRotation (token : string) (b : body) : Api ResidentControlSuccess :=
  input ← received (A := ResidentRotationActivationRequest) b;
  withCredentialMapping (arq_requestId input) (
    r ← store (activateRotation digest w token (Some (arq_requestId input)));
    rotationSuccess r false).

End api.

(** ** The HTTP handler *)

(** [RESIDENT_CONTROL_PATHS] *)
Definition path_enrollment : string := "/api/v1/resident/enrollment".
Definition path_rotation : string := "/api/v1/resident/rotation".
Definition path_rotationActivation : string := "/api/v1/resident/rotation/activate".
Inductive control_route := r_enrollment | r_rotation | r_rotationActivation.
#[export] Instance control_route_eq_dec : EqDecision control_route.
Proof. solve_decision. Defined.
Definition route_name (r : control_route) : string :=
  match r with r_enrollment => "enrollment" | r_rotation => "rotation" | r_rotationActivation => "rotationActivation" end.
Definition route_path (r : control_route) : string :=
  match r with r_enrollment => path_enrollment | r_rotation => path_rotation | r_rotationActivation => path_rotationActivation end.
Definition exactResidentRoute (url : string) : option control_route :=
  if String.eqb url path_enrollment then Some r_enrollment
  else if String.eqb url path_rotation then Some r_rotation
  else if String.eqb url path_rotationActivation then Some r_rotationActivation
  else None.

Record http_request := mkRequest {
  rq_url : string;
  rq_method : string;
  rq_peer : string;
  rq_authorization : option string;
  (* the body, or the status with which reading it was refused *)
  rq_read : Z + body;
}.
Record http_reply := mkReply { rp_status : Z; rp_body : body }.

Definition residentErrorStatusMatches (status : Z) (code : ResidentControlErrorCode) : bool :=
  match code with
  | invalid_request => bool_decide (status ∈ [400; 404; 405; 408; 413; 415])
  | unauthorized => status =? 401
  | expired => status =? 410
  | revoked => status =? 403
  | conflict => status =? 409
  | rate_limited => status =? 429
  | internal_error => status =? 500
  end.
Definition error_body (code : ResidentControlErrorCode) (request : option string) : option body :=
  serialize_message (A := ResidentControlError) (message_json (mkControlError code request)).
Definition internal_body : body := wire (message_json (mkControlError internal_error None)).
Definition sendResidentError (status : Z) (code : ResidentControlErrorCode) (request : option string) : http_reply :=
  let '(status, code, request) :=
    if residentErrorStatusMatches status code then (status, code, request) else (500, internal_error, None) in
  match error_body code request with Some b => mkReply status b | None => mkReply 500 internal_body end.

(** [residentSuccessBody]; [None] throws. *)
Definition checked_body {A} `{Message A} (replayed : A → bool) (route : control_route) (r : ResidentControlSuccess)
    : option http_reply :=
  decoded ← decode_message (A := A) (ok_body r);
  canonical ← serialize_message (A := A) (message_json decoded);
  let expected := if bool_decide (route = r_rotationActivation) || replayed decoded then 200 else 201 in
  if String.eqb (b_text (ok_body r)) (b_text canonical) && (ok_status r =? expected)
  then Some (mkReply (ok_status r) canonical) else None.
Definition residentSuccessBody (route : control_route) (r : ResidentControlSuccess) : option http_reply :=
  if (ok_status r =? 200) || (ok_status r =? 201) then
    match route with
    | r_enrollment => checked_body ers_replayed route r
    | _ => checked_body rrs_replayed route r
    end
  else None.

Section handler.
Context (digest : string → list Z) (l : limits).

(** What is authorized before the body is read. *)
Definition authorize (w : circumstance) (route : control_route) (authorization : option string) : Api string :=
  let header := match authorization with Some h => h | None => "" end in
  match route with
  | r_enrollment => mret ""
  | r_rotation => authorizeProposal digest w header
  | r_rotationActivation => activationAuthorization header
  end.
Definition dispatch (w : circumstance) (route : control_route) (token : string) (b : body) : Api ResidentControlSuccess :=
  match route with
  | r_enrollment => api_enroll digest w b
  | r_rotation => api_proposeRotation digest w token b
  | r_rotationActivation => api_activateRotation digest w token b
  end.
Definition reply_to (route : control_route) (res : api_exn + ResidentControlSuccess) : http_reply :=
  match res with
  | inl (ApiError status code request) => sendResidentError status code request
  | inl (Escaped _) => sendResidentError 500 internal_error None
  | inr r => match residentSuccessBody route r with Some reply => reply | None => sendResidentError 500 internal_error None end
  end.
(** [others]: what other requests do to the database while the body is read. *)
Definition handleResidentControl (w w' : circumstance) (others : gateway → gateway) (now : option Z) (rq : http_request)
    (m : buckets) (d : gateway) : http_reply * buckets * gateway :=
  if 8192 <? bytes (rq_url rq) then (sendResidentError 400 invalid_request None, m, d)
  else
    match exactResidentRoute (rq_url rq) with
    | None => (sendResidentError 404 invalid_request None, m, d)
    | Some route =>
        if negb (String.eqb (rq_method rq) "POST") then (sendResidentError 405 invalid_request None, m, d)
        else
          match (t ← now; if isSafeInteger t then Some t else None) with
          | None => (sendResidentError 500 internal_error None, m, d)
          | Some t =>
              let (admitted, m) := allow l (mkInput (rq_peer rq) (route_name route) (Some t)) m in
              if negb admitted then (sendResidentError 429 rate_limited None, m, d)
              else
                match authorize w route (rq_authorization rq) d with
                | (inl e, d) => (reply_to route (inl e), m, d)
                | (inr token, d) =>
                    match rq_read rq with
                    | inl status => (sendResidentError status invalid_request None, m, others d)
                    | inr b => let (res, d) := dispatch w' route token b (others d) in (reply_to route res, m, d)
                    end
                end
          end
    end.
End handler.
