(* ===== verification/ControlApiFacts.v ===== *)
(** * What an answer of the control API tells

    A reply with status 200 or 201 carries a result whose truth in the Gateway's
    database is known, and stays true. *)

From S2P Require Import Prelude Effects Protocol Codec JsString JsText Credentials ResidentControl CredentialStore CredentialStoreTheorems CredentialView RateLimiter ControlApi.
Local Open Scope string_scope.
Local Open Scope Z_scope.

(** ** Facts that last *)

Record wfv (m : gmap string cview) : Prop := {
  wf_replaced : ∀ id c n, m !! id = Some c → v_replaced c = Some n → v_state c = s_revoked;
  wf_rotates : ∀ id c o, m !! id = Some c → v_rotates c = Some o → is_Some (m !! o);
}.
Lemma view_wf d : ok d → wfv (view d).
Proof.
  intros Hd. split; intros id c; rewrite view_lookup.
  - intros n Hc Hn. destruct (credentials d !! id) as [x|] eqn:Hx; [|done]. injection Hc as <-.
    by destruct (co_replaced _ _ _ (ok_credential d Hd id x Hx) n Hn).
  - intros o Hc Ho. destruct (credentials d !! id) as [x|] eqn:Hx; [|done]. injection Hc as <-.
    destruct (co_rotates _ _ _ (ok_credential d Hd id x Hx) o Ho) as (oc & Hoc & _). rewrite view_lookup, Hoc. by eexists.
Qed.
Record lasts (c c' : cview) : Prop := {
  l_instance : v_instance c' = v_instance c;
  l_verifier : v_verifier c' = v_verifier c;
  l_rotates : v_rotates c' = v_rotates c;
  l_replaced : v_replaced c = None ∨ v_replaced c' = v_replaced c;
  l_state : rank (v_state c) ≤ rank (v_state c');
}.
Lemma lasts_refl c : lasts c c.
Proof. split; auto; lia. Qed.
Lemma step_lasts l m m' id c :
  wfv m → credential_step m l m' → m !! id = Some c → ∃ c', m' !! id = Some c' ∧ lasts c c'.
Proof.
  intros Hw Hs Hc. pose proof (lasts_refl c) as Hr. destruct Hs as [|id' i v Hn|id' v o oc _ _ Hn|id' c' o oc Hid Hp _ Hne Ho Ha _|id' c' Hid Hnr].
  - eauto.
  - exists c. rewrite lookup_insert_ne by congruence. auto.
  - exists c. rewrite lookup_insert_ne by congruence. auto.
  - destruct (decide (id = id')) as [->|Hi].
    + rewrite lookup_insert_eq. rewrite Hid in Hc. injection Hc as ->. eexists. split; [done|].
      split; simpl; auto. rewrite Hp. simpl. lia.
    + rewrite lookup_insert_ne by done. destruct (decide (id = o)) as [->|Hio].
      * rewrite lookup_insert_eq. rewrite Ho in Hc. injection Hc as ->. eexists. split; [done|]. split; simpl; auto; [|rewrite Ha; simpl; lia].
        left. destruct (v_replaced c) eqn:He; [|done]. pose proof (wf_replaced m Hw o c _ Ho He). congruence.
      * rewrite lookup_insert_ne by done. eauto.
  - destruct (decide (id = id')) as [->|Hi].
    + rewrite lookup_insert_eq. rewrite Hid in Hc. injection Hc as ->. eexists. split; [done|]. split; simpl; auto.
      destruct (v_state c); simpl; lia.
    + rewrite lookup_insert_ne by done. eauto.
Qed.
(** All credentials last. *)
Definition lasting (m m' : gmap string cview) : Prop := ∀ id c, m !! id = Some c → ∃ c', m' !! id = Some c' ∧ lasts c c'.
Lemma enrolled_lasts m m' i id v : lasting m m' → Enrolled m i id v → Enrolled m' i id v.
Proof. intros Hl (c & Hc & Hi & Hv & Hr). destruct (Hl id c Hc) as (c' & Hc' & [I V R _ _]). exists c'. split_and!; [done|congruence..]. Qed.
Lemma proposed_lasts m m' i id o v : lasting m m' → Proposed m i id o v → Proposed m' i id o v.
Proof.
  intros Hl (c & Hc & Hi & Hv & Hr). destruct (Hl id c Hc) as (c' & Hc' & [I V R _ _]). exists c'. split_and!; [done|congruence..].
Qed.
Lemma activated_lasts m m' i id o : lasting m m' → Activated m i id o → Activated m' i id o.
Proof.
  intros Hl (c & oc & Hc & Hi & Hr & Ho & Hp). destruct (Hl id c Hc) as (c' & Hc' & [I V R _ _]).
  destruct (Hl o oc Ho) as (oc' & Ho' & [_ _ _ [P|P] _]); [congruence|]. exists c', oc'. split_and!; [done|congruence..].
Qed.

(** ** Answers *)

(** What is written of a result is the result. *)
Lemma serialize_inv {A} `{Message A} v b :
  serialize_message (A := A) v = Some b → ∃ a : A, normalize v = Some a ∧ b = wire (message_json a).
Proof.
  unfold serialize_message, mbind, option_bind. destruct (normalize v) as [a|]; [|done]. case_match; [|done].
  intros [= <-]. eauto.
Qed.
Lemma written_inv {A} `{Message A} (a : A) b d d' :
  (∀ a', normalize (message_json a) = Some a' → a' = a ∧ well_formed a) →
  written a d = (inr b, d') → d' = d ∧ b = wire (message_json a) ∧ well_formed a.
Proof.
  intros Hn. unfold written. destruct (serialize_message (message_json a)) as [b'|] eqn:Hs; [|done].
  apply serialize_inv in Hs as (a' & Ha & ->). apply Hn in Ha as [-> Hw]. by intros [= <- <-].
Qed.
Lemma enrollment_normal (a a' : ResidentEnrollmentResult) : normalize (message_json a) = Some a' → a' = a ∧ well_formed a.
Proof.
  destruct a as [i c r]. simpl. unfold normalizeEnrollmentResult, enrollmentResult_json, instanceId, credentialId. simpl.
  destruct (isGatewayInstanceId i) eqn:Hi; [|done]. simpl. destruct (isCredentialId c) eqn:Hc; [|done]. simpl.
  by intros [= <-].
Qed.
Lemma rotation_normal (a a' : ResidentRotationResult) : normalize (message_json a) = Some a' → a' = a ∧ well_formed a.
Proof.
  destruct a as [i c p r]. simpl. unfold normalizeRotationResult, rotationResult_json, instanceId, credentialId. simpl.
  destruct (isGatewayInstanceId i) eqn:Hi; [|done]. simpl. destruct (isCredentialId c) eqn:Hc; [|done]. simpl.
  destruct (isCredentialId p) eqn:Hp; [|done]. simpl. by intros [= <-].
Qed.

(** What a result tells: of the request [b] presented with [token]. *)
Definition told_enrollment (b : body) (reply : body) (m : gmap string cview) : Prop :=
  ∃ (q : ResidentEnrollmentRequest) v (res : ResidentEnrollmentResult),
    decode_message b = Some q ∧ decodeCredentialVerifier (erq_credentialVerifier q) = Some v
    ∧ reply = wire (message_json res) ∧ well_formed res
    ∧ ers_instanceId res = erq_instanceId q ∧ ers_credentialId res = erq_credentialId q
    ∧ Enrolled m (erq_instanceId q) (erq_credentialId q) v.
Section told.
Context (digest : string → list Z).
Definition told_proposal (token : string) (b : body) (reply : body) (m : gmap string cview) : Prop :=
  ∃ (q : ResidentRotationRequest) v (res : ResidentRotationResult) o,
    decode_message b = Some q ∧ decodeCredentialVerifier (rrq_credentialVerifier q) = Some v
    ∧ parseNodeCredential digest token = Some o
    ∧ reply = wire (message_json res) ∧ well_formed res
    ∧ rrs_credentialId res = rrq_credentialId q ∧ rrs_previousCredentialId res = o.1
    ∧ Proposed m (rrs_instanceId res) (rrs_credentialId res) o.1 v.
Definition told_activation (reply : body) (m : gmap string cview) : Prop :=
  ∃ res : ResidentRotationResult,
    reply = wire (message_json res) ∧ well_formed res
    ∧ Activated m (rrs_instanceId res) (rrs_credentialId res) (rrs_previousCredentialId res).
Definition told (route : control_route) (token : string) (b reply : body) (m : gmap string cview) : Prop :=
  match route with
  | r_enrollment => told_enrollment b reply m
  | r_rotation => told_proposal token b reply m
  | r_rotationActivation => told_activation reply m
  end.
Lemma told_lasts route token b reply m m' : lasting m m' → told route token b reply m → told route token b reply m'.
Proof.
  intros Hl. destruct route; simpl.
  - intros (q & v & res & H). exists q, v, res. naive_solver eauto using enrolled_lasts.
  - intros (q & v & res & o & H). exists q, v, res, o. naive_solver eauto using proposed_lasts.
  - intros (res & H). exists res. naive_solver eauto using activated_lasts.
Qed.

(** ** The API *)

Lemma mapping_inv {A} rid (m : Api A) d res d' :
  withCredentialMapping rid m d = (res, d') → ∃ res', m d = (res', d') ∧ ∀ a, res = inr a → res' = inr a.
Proof.
  unfold withCredentialMapping. destruct (m d) as [[e|a] d1].
  - destruct e as [|[[]|]]; intros [= <- <-]; eexists; split; try done.
  - intros [= <- <-]. eauto.
Qed.
(** The step a call takes, whatever happens after it. *)
Lemma store_then {A B} (m : G A) (k : A → Api B) d res d' :
  (∀ a d, (k a d).2 = d) → (store m ≫= k) d = (res, d') →
  ∃ res', m d = (res', d') ∧ ∀ b, res = inr b → ∃ a, res' = inr a ∧ k a d' = (inr b, d').
Proof.
  intros Hk. unfold mbind, eff_bind, store. destruct (m d) as [[e|a] d1]; [intros [= <- <-]; eexists; by split|].
  intros H. pose proof (Hk a d1) as Hd. rewrite H in Hd. simpl in Hd. subst. eexists. split; [done|]. intros b ->. eauto.
Qed.
Lemma written_pure {A} `{Message A} (a : A) d : (written a d).2 = d.
Proof. unfold written. by destruct (serialize_message (message_json a)). Qed.
Lemma rotationSuccess_pure r c d : (rotationSuccess r c d).2 = d.
Proof.
  unfold rotationSuccess, mbind, eff_bind. match goal with |- context [written ?a d] => pose proof (written_pure a d) as H; destruct (written a d) as [[] ?] end; done.
Qed.
Lemma enrollmentSuccess_pure r d : (enrollmentSuccess r d).2 = d.
Proof.
  unfold enrollmentSuccess, mbind, eff_bind. match goal with |- context [written ?a d] => pose proof (written_pure a d) as H; destruct (written a d) as [[] ?] end; done.
Qed.
Lemma rotationSuccess_inv r c d s d' :
  rotationSuccess r c d = (inr s, d') →
  let res := mkRotationResult (rr_instanceId r) (rr_credentialId r) (rr_previousCredentialId r) (rr_replayed r) in
  ok_body s = wire (message_json res) ∧ well_formed res.
Proof.
  unfold rotationSuccess, mbind, eff_bind. match goal with |- context [written ?a d] => destruct (written a d) as [[] ?] eqn:Hw end; [done|].
  apply written_inv in Hw as (-> & -> & Hw); [|apply rotation_normal]. by intros [= <- <-].
Qed.
Lemma enrollmentSuccess_inv r d s d' :
  enrollmentSuccess r d = (inr s, d') →
  let res := mkEnrollmentResult (re_instanceId r) (re_credentialId r) (re_replayed r) in
  ok_body s = wire (message_json res) ∧ well_formed res.
Proof.
  unfold enrollmentSuccess, mbind, eff_bind. match goal with |- context [written ?a d] => destruct (written a d) as [[] ?] eqn:Hw end; [done|].
  apply written_inv in Hw as (-> & -> & Hw); [|apply enrollment_normal]. by intros [= <- <-].
Qed.
(** A request that is not understood changes nothing. *)
Lemma received_bind {A B} `{Message A} (b : body) (k : A → Api B) d res d' :
  (received b ≫= k) d = (res, d') →
  (d' = d ∧ ∃ e, res = inl e) ∨ ∃ a, decode_message b = Some a ∧ k a d = (res, d').
Proof.
  unfold received, mbind, eff_bind. destruct (decode_message b) as [a|]; [right; eauto|]. intros [= <- <-]. left. eauto.
Qed.
Lemma verifier_bind {B} s (k : list Z → Api B) d res d' :
  (verifier_of s ≫= k) d = (res, d') →
  (d' = d ∧ ∃ e, res = inl e) ∨ ∃ v, decodeCredentialVerifier s = Some v ∧ k v d = (res, d').
Proof.
  unfold verifier_of, mbind, eff_bind. destruct (decodeCredentialVerifier s) as [v|]; [right; eauto|]. intros [= <- <-]. left. eauto.
Qed.

(** The steps a request may take. *)
Definition may_request (route : control_route) (token : string) (b : body) (l : label) : Prop :=
  l = l_none ∨
  match route with
  | r_enrollment => ∃ id i v, l = l_enroll id i v
  | r_rotation => ∃ o (q : ResidentRotationRequest) v, parseNodeCredential digest token = Some o ∧ decode_message b = Some q
      ∧ decodeCredentialVerifier (rrq_credentialVerifier q) = Some v ∧ l = l_propose o (rrq_credentialId q) v
  | r_rotationActivation => ∃ o, parseNodeCredential digest token = Some o ∧ l = l_activate o
  end.
Lemma dispatch_told w route token b d res d' :
  ok d → dispatch digest w route token b d = (res, d') →
  steps_by (may_request route token b) (view d) (view d') ∧ ∀ r, res = inr r → told route token b (ok_body r) (view d').
Proof.
  intros Hok. assert (∀ route m, steps_by (may_request route token b) m m) as Hnone by (intros; by apply steps_none; left).
  destruct route; simpl; intros H; apply received_bind in H as [[-> [e ->]]|(q & Hq & H)];
    try (by split; [apply Hnone|]); apply mapping_inv in H as (res1 & H & Hres).
  - apply verifier_bind in H as [[-> [e ->]]|(v & Hv & H)]; [split; [apply Hnone|]; intros r Hr; by specialize (Hres r Hr)|].
    apply store_then in H as (res2 & H & Hres2); [|intros; apply enrollmentSuccess_pure].
    apply enroll_view in H as [Hst Hin]; [|done]. split; [eapply steps_mono, Hst; intros l [->| ->]; [by left|right; eauto]|].
    intros r Hr. destruct (Hres2 r (Hres r Hr)) as (x & -> & Hx).
    apply enrollmentSuccess_inv in Hx as [Hb Hw]. destruct (Hin x eq_refl) as (E1 & E2 & E3). simpl in *.
    eexists q, v, _. by split_and!.
  - apply verifier_bind in H as [[-> [e ->]]|(v & Hv & H)]; [split; [apply Hnone|]; intros r Hr; by specialize (Hres r Hr)|].
    apply store_then in H as (res2 & H & Hres2); [|intros; apply rotationSuccess_pure].
    apply proposeRotation_view in H as [Hst Hin].
    split; [eapply steps_mono, Hst; intros l [->|(o & Ho & ->)]; [by left|right; eauto 10]|].
    intros r Hr. destruct (Hres2 r (Hres r Hr)) as (x & -> & Hx).
    apply rotationSuccess_inv in Hx as [Hb Hw]. destruct (Hin x eq_refl) as (o & E0 & E1 & E2 & E3). simpl in *.
    eexists q, v, _, o. rewrite <-E1 in E3. by split_and!.
  - apply store_then in H as (res2 & H & Hres2); [|intros; apply rotationSuccess_pure].
    apply activateRotation_view in H as [Hst Hin]; [|done]. split; [eapply steps_mono, Hst; intros l [->|H']; [by left|by right]|].
    intros r Hr. destruct (Hres2 r (Hres r Hr)) as (x & -> & Hx).
    apply rotationSuccess_inv in Hx as [Hb Hw]. destruct (Hin x eq_refl) as (o & E0 & E1 & E2). simpl in *.
    eexists. rewrite <-E1 in E2. by split_and!.
Qed.

(** The invariant of the store is kept. *)
Lemma sound_ok {A} w (m : G A) d res d' : sound w m → ok d → m d = (res, d') → ok d'.
Proof. intros Hs Hd Hm. specialize (Hs d Hd). unfold wp in Hs. rewrite Hm in Hs. destruct res; [destruct Hs as [[] _]|destruct Hs]; done. Qed.
Lemma control_dispatch_ok w route token b d res d' : ok d → dispatch digest w route token b d = (res, d') → ok d'.
Proof.
  intros Hok. destruct route; simpl; intros H; apply received_bind in H as [[-> [e ->]]|(q & Hq & H)]; try done;
    apply mapping_inv in H as (res1 & H & _).
  - apply verifier_bind in H as [[-> [e ->]]|(v & Hv & H)]; [done|].
    apply store_then in H as (res2 & H & _); [|intros; apply enrollmentSuccess_pure]. eapply sound_ok, H; [apply enroll_sound|done].
  - apply verifier_bind in H as [[-> [e ->]]|(v & Hv & H)]; [done|].
    apply store_then in H as (res2 & H & _); [|intros; apply rotationSuccess_pure]. eapply sound_ok, H; [apply proposeRotation_sound|done].
  - apply store_then in H as (res2 & H & _); [|intros; apply rotationSuccess_pure]. eapply sound_ok, H; [apply activateRotation_sound|done].
Qed.
Lemma authorize_inv w route h d res d' :
  ok d → authorize digest w route h d = (res, d') →
  ok d' ∧ view d' = view d
  ∧ ∀ token, res = inr token → route ≠ r_enrollment → parseNodeBearerAuthorization (default "" h) = Some token.
Proof.
  intros Hok. unfold authorize. destruct route; simpl.
  - by intros [= <- <-].
  - unfold authorizeProposal. replace (match h with Some h => h | None => "" end) with (default "" h) by (by destruct h).
    destruct (parseNodeBearerAuthorization (default "" h)) as [t|]; [|by intros [= <- <-]].
    unfold mbind, eff_bind, store. pose proof (authenticateNode_view digest w t d) as Hv.
    pose proof (authenticateNode_sound digest w t d Hok) as Hs. unfold wp in Hs.
    destruct (authenticateNode digest w t d) as [[e|n] d1]; simpl in *; [intros [= <- <-]; by destruct Hs as [[] _]|].
    destruct Hs. destruct n; intros [= <- <-]; split_and!; try done. intros ? [= <-]. done.
  - unfold activationAuthorization. replace (match h with Some h => h | None => "" end) with (default "" h) by (by destruct h).
    destruct (parseNodeBearerAuthorization (default "" h)) as [t|]; intros [= <- <-]; split_and!; try done. intros ? [= <-]. done.
Qed.

(** ** The handler *)

Definition succeeded (rp : http_reply) : Prop := rp_status rp = 200 ∨ rp_status rp = 201.
Lemma error_unsuccessful st code q : ¬ succeeded (sendResidentError st code q).
Proof.
  unfold sendResidentError. destruct (residentErrorStatusMatches st code) eqn:Hm.
  - destruct (error_body code q); unfold succeeded; simpl; [|lia]. destruct code; simpl in Hm; guards; try lia.
    set_unfold in Hm. lia.
  - destruct (error_body internal_error None); unfold succeeded; simpl; lia.
Qed.
Lemma checked_body_inv {A} `{Message A} replayed route r rp (a : A) :
  ok_body r = wire (message_json a) → well_formed a → checked_body (A := A) replayed route r = Some rp → rp_body rp = ok_body r.
Proof.
  intros Hb Hw. unfold checked_body. rewrite Hb. destruct (message_reads_back a Hw) as [Hs Hd]. rewrite Hd. simpl. rewrite Hs. simpl.
  case_match; [|done]. by intros [= <-].
Qed.
Lemma reply_told route token b r m :
  told route token b (ok_body r) m → succeeded (reply_to route (inr r)) →
  told route token b (rp_body (reply_to route (inr r))) m.
Proof.
  intros Ht Hs. cbn [reply_to] in *. destruct (residentSuccessBody route r) as [rp|] eqn:Hr; [|by apply error_unsuccessful in Hs].
  enough (rp_body rp = ok_body r) as -> by done. unfold residentSuccessBody in Hr. case_match; [|done].
  destruct route; simpl in Ht.
  - destruct Ht as (q & v & res & _ & _ & Hb & Hw & _). by apply (checked_body_inv _ _ _ _ res Hb Hw Hr).
  - destruct Ht as (q & v & res & o & _ & _ & _ & Hb & Hw & _). by apply (checked_body_inv _ _ _ _ res Hb Hw Hr).
  - destruct Ht as (res & Hb & Hw & _). by apply (checked_body_inv _ _ _ _ res Hb Hw Hr).
Qed.
(** What is told by the reply to a request. *)
Definition answers (rq : http_request) (rp : http_reply) (m : gmap string cview) : Prop :=
  succeeded rp → ∃ route token b, exactResidentRoute (rq_url rq) = Some route ∧ rq_read rq = inr b
    ∧ (route ≠ r_enrollment → parseNodeBearerAuthorization (default "" (rq_authorization rq)) = Some token)
    ∧ told route token b (rp_body rp) m.
(** The steps a request may take: none, or the one it asks for with its token. *)
Definition may_take (rq : http_request) (l : label) : Prop :=
  l = l_none ∨ ∃ route token b, exactResidentRoute (rq_url rq) = Some route ∧ rq_read rq = inr b
    ∧ (route ≠ r_enrollment → parseNodeBearerAuthorization (default "" (rq_authorization rq)) = Some token)
    ∧ may_request route token b l.
Lemma handle_told l w w' others now rq m d rp m' d' :
  ok d → (∀ d, ok d → ok (others d)) → handleResidentControl digest l w w' others now rq m d = (rp, m', d') →
  ∃ d1 d2, ok d1 ∧ view d1 = view d ∧ (d2 = d1 ∨ d2 = others d1) ∧ ok d'
    ∧ steps_by (may_take rq) (view d2) (view d') ∧ answers rq rp (view d').
Proof.
  intros Hok Ho. unfold handleResidentControl.
  assert (∀ st code q, answers rq (sendResidentError st code q) (view d)) as Hno by (intros ? ? ? []%error_unsuccessful).
  assert (∀ st code q m'', (sendResidentError st code q, m'', d) = (rp, m', d') →
    ∃ d1 d2, ok d1 ∧ view d1 = view d ∧ (d2 = d1 ∨ d2 = others d1) ∧ ok d'
      ∧ steps_by (may_take rq) (view d2) (view d') ∧ answers rq rp (view d')) as Hquiet.
  { intros st code q m'' [= <- _ <-]. exists d, d. split_and!; auto. by apply steps_none; left. }
  case_match; [apply Hquiet|]. destruct (exactResidentRoute (rq_url rq)) as [route|] eqn:Hroute; [|apply Hquiet].
  case_match; [apply Hquiet|]. destruct (now ≫= _) as [t|]; [|apply Hquiet].
  destruct (allow l _ m) as [admitted m1]. case_match; [apply Hquiet|].
  destruct (authorize digest w route (rq_authorization rq) d) as [[e|token] d1] eqn:Ha;
    apply authorize_inv in Ha as (Hok1 & Hv1 & Htok); try done.
  - intros [= <- _ <-]. exists d1, d1. split_and!; auto; [by apply steps_none; left|]. intros Hs. exfalso.
    destruct e as [st c q|e]; simpl in Hs; by apply error_unsuccessful in Hs.
  - destruct (rq_read rq) as [st|b] eqn:Hb.
    + intros [= <- _ <-]. exists d1, (others d1). split_and!; auto; [by apply steps_none; left|]. intros Hs. by apply error_unsuccessful in Hs.
    + destruct (dispatch digest w' route token b (others d1)) as [res d2] eqn:Hd. intros [= <- _ <-].
      pose proof (control_dispatch_ok _ _ _ _ _ _ _ (Ho d1 Hok1) Hd) as Hok2.
      apply dispatch_told in Hd as [Hst Htold]; [|by apply Ho]. exists d1, (others d1). split_and!; auto.
      * eapply steps_mono, Hst. intros lb Hlb. right. eauto 10.
      * intros Hs. destruct res as [[st c q|e]|r]; [by apply error_unsuccessful in Hs..|].
        exists route, token, b. split_and!; auto. apply reply_told; [|done]. by apply Htold.
Qed.
End told.
