(* ===== verification/ControlExchange.v ===== *)
(** * What a resident accepts as an answer (src/gateway-enrollment.ts,
    src/gateway-rotation.ts)

    The checks both controllers make of a response before they believe it, and the
    secrets they register for redaction (src/lib/secrets.ts). *)

From Stdlib Require Import Ascii.
From S2P Require Import Prelude Effects Protocol Codec JsString JsText Credentials ResidentControl ResidentStore.
Local Open Scope string_scope.
Local Open Scope Z_scope.

(** ** Responses *)

Record response := mkResponse {
  rs_redirected : bool;
  rs_opaque : bool;                       (* type === 'opaqueredirect' *)
  rs_url : string;
  rs_status : Z;
  rs_encoding : option string;            (* content-encoding *)
  rs_length : option string;              (* content-length *)
  rs_type : option string;                (* content-type *)
}.
(** What [read()] of the body gives: chunks (a value that is no byte array is
    [None]), then the end or an error, and what [JSON.parse] makes of the whole. *)
Record stream := mkStream { st_body : bool; st_chunks : list (option string); st_fails : bool; st_parsed : option json }.

(** [exactContentLength]: [None] is -1, [Some None] is null. *)
Definition is_digit (c : ascii) : bool := ascii_in 48 57 c.
Fixpoint decimal (acc : Z) (s : string) : Z :=
  match s with "" => acc | String c s => decimal (10 * acc + (Z.of_N (N_of_ascii c) - 48)) s end.
Definition exactContentLength (v : option string) : option (option Z) :=
  match v with
  | None => Some None
  | Some s =>
      match s with
      | "" => None
      | String c s' =>
          if all_chars is_digit s && (negb (Ascii.eqb c "0"%char) || String.eqb s' "") && (decimal 0 s <=? MAX_SAFE_INTEGER)
          then Some (Some (decimal 0 s)) else None
      end
  end.

Inductive exchange_failure := x_http_error | x_invalid_response.
Definition JSON_TYPE : string := "application/json; charset=utf-8".
(** The checks of the head; [None] lets the body be read. *)
Definition check_head (target : string) (r : response) : option exchange_failure :=
  if rs_redirected r || rs_opaque r || (negb (String.eqb (rs_url r) "") && negb (String.eqb (rs_url r) target))
  then Some x_invalid_response
  else if bool_decide (is_Some (rs_encoding r)) then Some x_invalid_response
  else
    match exactContentLength (rs_length r) with
    | None => Some x_invalid_response
    | Some announced =>
        if match announced with Some n => bodyBytes <? n | None => false end then Some x_invalid_response
        else if negb ((rs_status r =? 200) || (rs_status r =? 201)) then Some x_http_error
        else if bool_decide (rs_type r = Some JSON_TYPE) then None else Some x_invalid_response
    end.
(** [readBoundedBody] when nothing aborts; [None] is 'invalid'. *)
Fixpoint read_chunks (size : Z) (chunks : list (option string)) : option string :=
  match chunks with
  | [] => Some ""
  | None :: _ => None
  | Some c :: chunks =>
      let size := size + bytes c in
      if bodyBytes <? size then None else rest ← read_chunks size chunks; Some (c +:+ rest)
  end.
Definition readBoundedBody (r : response) (s : stream) : option body :=
  if negb (st_body s) then None
  else
    text ← read_chunks 0 (st_chunks s);
    if st_fails s then None
    else
      match exactContentLength (rs_length r) with
      | None => None
      | Some (Some n) => if n =? bytes text then Some (mkBody text (st_parsed s)) else None
      | Some None => Some (mkBody text (st_parsed s))
      end.
(** The body is the canonical text of a message, and the status is the one expected. *)
Definition check_body {A} `{Message A} (expected : A → Z) (r : response) (s : stream) : option A :=
  b ← readBoundedBody r s;
  result ← decode_message (A := A) b;
  canonical ← serialize_message (A := A) (message_json result);
  if String.eqb (b_text canonical) (b_text b) && (rs_status r =? expected result) then Some result else None.

(** ** Secrets *)

Definition validSecret (s : string) : bool := Nat.leb 8 (length (units s)) && (bytes s <=? 4096).
Abbreviation registry := (gset string).

(** A resident: its row and the secrets registered in its process. *)
Record resident := mkResident { rowdb : option Row; secrets : registry }.
Inductive control_exn := StoreExn (e : resident_exn) | RegistryError.
Abbreviation R := (eff resident control_exn).
Definition in_store {A} (m : eff (option Row) resident_exn A) : R A := λ s,
  match m (rowdb s) with
  | (inl e, d) => (inl (StoreExn e), mkResident d (secrets s))
  | (inr a, d) => (inr a, mkResident d (secrets s))
  end.
Definition register (v : string) : R () :=
  if validSecret v then modify (λ s, mkResident (rowdb s) ({[ v ]} ∪ secrets s)) else throw RegistryError.
Fixpoint register_all (vs : list string) : R () :=
  match vs with [] => mret tt | v :: vs => register v;; register_all vs end.
Definition registerStoredSecrets (is_origin : string → bool) : R () :=
  vs ← in_store (secretValues is_origin); register_all vs.
