(* ===== verification/RotationController.v ===== *)
(** * Credential rotation by the resident (src/gateway-rotation.ts)

    A one-shot controller: [start] begins or resumes the rotation in the store and
    sends the proposal, a good answer is recorded and the activation is sent, a good
    answer to that completes the rotation.  [stop] and the timer abort it.

    Between its awaits the code runs alone, so the controller is a machine over
    events: the calls of its owner, the timer, the settling of the fetch and the body. *)

From S2P Require Import Prelude Effects Protocol Codec JsString JsText Credentials ResidentControl ResidentStore ControlApi ControlExchange.
Local Open Scope string_scope.
Local Open Scope Z_scope.

Inductive GatewayRotationMode := trigger_mode | resume_mode.
Inductive GatewayRotationStatusCode :=
  | rot_ready | rot_rotating | rot_rotated | rot_invalid_state | rot_network_error | rot_http_error
  | rot_invalid_response | rot_state_error | rot_timeout | rot_stopped.
#[export] Instance GatewayRotationStatusCode_eq_dec : EqDecision GatewayRotationStatusCode.
Proof. solve_decision. Defined.
Definition GATEWAY_ROTATION_TIMEOUT_MS : Z := 10000.
Definition GATEWAY_ROTATION_MAX_TIMEOUT_MS : Z := 300000.
(** [timeout(value)]; [None] throws. *)
Definition rotation_timeout (v : option Z) : option Z :=
  let t := default GATEWAY_ROTATION_TIMEOUT_MS v in
  if (t <=? MAX_SAFE_INTEGER) && (1 <=? t) && (t <=? GATEWAY_ROTATION_MAX_TIMEOUT_MS) then Some t else None.

Inductive RotationStep := proposal | activation.
Record PreparedRotation := mkPrepared {
  pr_endpoint : string;
  pr_target : string;
  pr_authorization : string;
  pr_body : body;
  pr_step : RotationStep;
}.
(** Where the attempt waits: for the response, or for its body. *)
Inductive rotation_stage := Fetching (p : PreparedRotation) | Reading (p : PreparedRotation) (r : response).
Record rotation_controller := mkRotationController {
  rc_mode : GatewayRotationMode;
  rc_current : GatewayRotationStatusCode;
  rc_started : bool;
  rc_stopRequested : bool;
  rc_attempted : bool;
  rc_stage : option rotation_stage;
}.
Definition new_rotation (mode : GatewayRotationMode) : rotation_controller :=
  mkRotationController mode rot_ready false false false None.

Definition stateFailure (e : control_exn) : GatewayRotationStatusCode :=
  match e with StoreExn (StateError invalid_state) => rot_invalid_state | _ => rot_state_error end.
(** [catch] around the recording of a result. *)
Definition recordFailure (e : control_exn) : GatewayRotationStatusCode :=
  match e with
  | StoreExn (StateError state_conflict) | StoreExn (StateError invalid_input) => rot_invalid_response
  | _ => rot_state_error
  end.
Definition exchange_status (f : exchange_failure) : GatewayRotationStatusCode :=
  match f with x_http_error => rot_http_error | x_invalid_response => rot_invalid_response end.

(** What the store's writes depend on. *)
Record write_env := mkWrite {
  we_now : option Z;
  we_random_id : list Z;
  we_random_secret : list Z;
  we_random_request : list Z;
  we_commits : bool;
  we_others : option Row → option Row;
}.

Section controller.
Context (is_origin : string → bool) (digest : string → list Z).

(** Errors of the codec and of the header are not of the store. *)
Definition written_body {A} `{Message A} (a : A) : R body :=
  match serialize_message (A := A) (message_json a) with Some b => mret b | None => throw (StoreExn ControlCodecError) end.
Definition bearer (token : string) : R string :=
  match formatNodeBearerAuthorization token with Some h => mret h | None => throw (StoreExn ControlCodecError) end.
Definition prepare : R PreparedRotation :=
  registerStoredSecrets is_origin;;
  snapshot ← in_store (read is_origin);
  match s_phase snapshot, s_endpoint snapshot, s_requestId snapshot with
  | rotating, Some endpoint, Some _ =>
      match s_rotationProposedAt snapshot with
      | None =>
          token ← in_store (activeNodeToken is_origin);
          h ← bearer token;
          request ← in_store (rotationRequest is_origin digest);
          b ← written_body request;
          mret (mkPrepared endpoint path_rotation h b proposal)
      | Some _ =>
          request ← in_store (rotationRequest is_origin digest);
          token ← in_store (pendingNodeToken is_origin);
          h ← bearer token;
          b ← written_body (mkActivationRequest (rrq_requestId request));
          mret (mkPrepared endpoint path_rotationActivation h b activation)
      end
  | _, _, _ => throw (StoreExn (StateError invalid_state))
  end.

Abbreviation state := (rotation_controller * resident)%type.
Definition finish (code : GatewayRotationStatusCode) (c : rotation_controller) : rotation_controller :=
  mkRotationController (rc_mode c) code (rc_started c) (rc_stopRequested c) (rc_attempted c) None.
Definition waiting (s : rotation_stage) (c : rotation_controller) : rotation_controller :=
  mkRotationController (rc_mode c) (rc_current c) (rc_started c) (rc_stopRequested c) (rc_attempted c) (Some s).
(** An iteration of the loop up to its fetch. *)
Definition next_request (c : rotation_controller) (s : resident) : state :=
  match prepare s with
  | (inl e, s) => (finish (stateFailure e) c, s)
  | (inr p, s) => (waiting (Fetching p) c, s)
  end.
(** [start]: the state is prepared before anything is sent. *)
Definition begin_attempt (mode : GatewayRotationMode) (e : write_env) : R bool :=
  registerStoredSecrets is_origin;;
  before ← in_store (read is_origin);
  match mode, s_phase before with
  | trigger_mode, active =>
      in_store (beginRotation is_origin digest (we_now e) (we_random_id e) (we_random_secret e) (we_random_request e)
                  (we_commits e) (we_others e));;
      registerStoredSecrets is_origin;;
      mret true
  | resume_mode, rotating => mret true
  | _, _ => mret false
  end.
Definition start (mode : option GatewayRotationMode) (e : write_env) (c : rotation_controller) (s : resident) : state :=
  if rc_attempted c || rc_started c then (c, s)
  else
    let started code := mkRotationController (rc_mode c) code true (rc_stopRequested c) false None in
    if rc_stopRequested c then (started rot_stopped, s)
    else
      match begin_attempt (default (rc_mode c) mode) e s with
      | (inl err, s) => (started (stateFailure err), s)
      | (inr false, s) => (started rot_invalid_state, s)
      | (inr true, s) => next_request (mkRotationController (rc_mode c) rot_rotating true false true None) s
      end.
Definition aborted (c : rotation_controller) : GatewayRotationStatusCode :=
  if rc_stopRequested c then rot_stopped else rot_timeout.
Definition stop (c : rotation_controller) : rotation_controller :=
  let c := mkRotationController (rc_mode c) (rc_current c) (rc_started c) true (rc_attempted c) (rc_stage c) in
  match rc_stage c with Some _ => finish (aborted c) c | None => c end.

Definition expected_status (step : RotationStep) (r : ResidentRotationResult) : Z :=
  match step with activation => 200 | proposal => if rrs_replayed r then 200 else 201 end.
(** A result was received: it is recorded, and the loop goes on or ends. *)
Definition record_result (p : PreparedRotation) (result : ResidentRotationResult) (e : write_env)
    (c : rotation_controller) (s : resident) : state :=
  match pr_step p with
  | proposal =>
      match in_store (markRotationProposed is_origin (message_json result) (we_now e) (we_commits e) (we_others e)) s with
      | (inl err, s) => (finish (recordFailure err) c, s)
      | (inr _, s) => next_request c s
      end
  | activation =>
      match in_store (activateRotation is_origin (message_json result) (we_now e) (we_commits e) (we_others e)) s with
      | (inl err, s) => (finish (recordFailure err) c, s)
      | (inr _, s) => (finish rot_rotated c, s)
      end
  end.

Inductive rotation_event :=
  | ev_start (mode : option GatewayRotationMode) (e : write_env)
  | ev_stop
  | ev_timeout
  | ev_rejected
  | ev_response (r : response)
  | ev_body (b : stream) (e : write_env)
  | ev_others (f : option Row → option Row).
Definition rotation_step (ev : rotation_event) (c : rotation_controller) (s : resident) : state :=
  match ev, rc_stage c with
  | ev_start mode e, _ => start mode e c s
  | ev_stop, _ => (stop c, s)
  | ev_timeout, Some _ => (finish (aborted c) c, s)
  | ev_rejected, Some (Fetching _) => (finish rot_network_error c, s)
  | ev_response r, Some (Fetching p) =>
      match check_head (pr_endpoint p +:+ pr_target p) r with
      | Some f => (finish (exchange_status f) c, s)
      | None => (waiting (Reading p r) c, s)
      end
  | ev_body b e, Some (Reading p r) =>
      match check_body (expected_status (pr_step p)) r b with
      | None => (finish rot_invalid_response c, s)
      | Some result => record_result p result e c s
      end
  | ev_others f, _ => (c, mkResident (f (rowdb s)) (secrets s))
  | _, _ => (c, s)
  end.
Definition rotation_steps (evs : list rotation_event) (x : state) : state := foldl (λ '(c, s) ev, rotation_step ev c s) x evs.
End controller.
