(* ===== verification/EnrollmentController.v ===== *)
(** * Enrollment by the resident (src/gateway-enrollment.ts)

    A one-shot controller: [start] prepares the enrollment in the store and sends the
    request; a good answer activates the credential.  As in the rotation controller,
    the state is a machine over events.

    The abort listener is installed after [fetch] returned its promise and an abort
    before that is not looked for: when [fetch] itself calls [stop], the attempt is deaf
    to aborts and ends only when the fetch settles. *)

From S2P Require Import Prelude Effects Protocol Codec JsString JsText Credentials ResidentControl ResidentStore ControlApi ControlExchange RotationController.
Local Open Scope string_scope.
Local Open Scope Z_scope.

Inductive GatewayEnrollmentStatusCode :=
  | enr_ready | enr_enrolling | enr_enrolled | enr_active | enr_not_configured | enr_token_required
  | enr_configuration_conflict | enr_invalid_configuration | enr_invalid_state | enr_network_error | enr_http_error
  | enr_invalid_response | enr_state_error | enr_timeout | enr_stopped.
#[export] Instance GatewayEnrollmentStatusCode_eq_dec : EqDecision GatewayEnrollmentStatusCode.
Proof. solve_decision. Defined.
Definition GATEWAY_ENROLLMENT_TIMEOUT_MS : Z := 10000.
Definition GATEWAY_ENROLLMENT_MAX_TIMEOUT_MS : Z := 300000.
Definition enrollment_timeout (v : option Z) : option Z :=
  let t := default GATEWAY_ENROLLMENT_TIMEOUT_MS v in
  if (t <=? MAX_SAFE_INTEGER) && (1 <=? t) && (t <=? GATEWAY_ENROLLMENT_MAX_TIMEOUT_MS) then Some t else None.

Record DashboardRemoteConfig := mkRemote { remote_url : string; remote_enrollmentToken : option string }.
Record PreparedEnrollment := mkPreparedEnrollment { pe_endpoint : string; pe_body : body }.
Inductive enrollment_stage := EFetching (p : PreparedEnrollment) (deaf : bool) | EReading (p : PreparedEnrollment) (r : response).
Record enrollment_controller := mkEnrollmentController {
  ec_remote : option DashboardRemoteConfig;
  ec_displayName : string;
  ec_current : GatewayEnrollmentStatusCode;
  ec_started : bool;
  ec_stopRequested : bool;
  ec_attempted : bool;
  ec_stage : option enrollment_stage;
}.
Definition new_enrollment (remote : option DashboardRemoteConfig) (name : string) : enrollment_controller :=
  mkEnrollmentController remote name enr_ready false false false None.

Definition enrollment_stateFailure (e : control_exn) : GatewayEnrollmentStatusCode :=
  match e with
  | StoreExn (StateError state_conflict) => enr_configuration_conflict
  | StoreExn (StateError invalid_input) => enr_invalid_configuration
  | StoreExn (StateError invalid_state) => enr_invalid_state
  | _ => enr_state_error
  end.
Definition enrollment_recordFailure (e : control_exn) : GatewayEnrollmentStatusCode :=
  match e with
  | StoreExn (StateError state_conflict) | StoreExn (StateError invalid_input) => enr_invalid_response
  | _ => enr_state_error
  end.
Definition enrollment_exchange (f : exchange_failure) : GatewayEnrollmentStatusCode :=
  match f with x_http_error => enr_http_error | x_invalid_response => enr_invalid_response end.

Section controller.
Context (is_origin : string → bool) (digest : string → list Z).

Definition begin_enrollment (i : BeginGatewayEnrollment) (e : write_env) : R () :=
  in_store (beginEnrollment is_origin digest (Some i) (we_now e) (we_random_id e) (we_random_secret e)
              (we_random_request e) (we_commits e) (we_others e));;
  mret tt.
(** The end of [#prepare]: the request of what is in the store now. *)
Definition prepared_enrollment : R (GatewayEnrollmentStatusCode + PreparedEnrollment) :=
  registerStoredSecrets is_origin;;
  enrolled ← in_store (read is_origin);
  request ← in_store (enrollmentRequest is_origin digest);
  match s_endpoint enrolled with
  | None => throw (StoreExn (StateError corrupt_state))
  | Some endpoint => b ← written_body request; mret (inr (mkPreparedEnrollment endpoint b))
  end.
Definition enrollment_prepare (c : enrollment_controller) (e : write_env) : R (GatewayEnrollmentStatusCode + PreparedEnrollment) :=
  registerStoredSecrets is_origin;;
  snapshot ← in_store (read is_origin);
  match s_phase snapshot, ec_remote c with
  | active, _ => mret (inl enr_active)
  | rotating, _ => mret (inl enr_invalid_state)
  | _, None => mret (inl enr_not_configured)
  | phase_idle, Some remote =>
      match remote_enrollmentToken remote with
      | None => mret (inl enr_token_required)
      | Some token => begin_enrollment (mkBegin (remote_url remote) token (ec_displayName c)) e;; prepared_enrollment
      end
  | enrolling, Some remote =>
      persisted ← in_store (enrollmentRequest is_origin digest);
      match s_endpoint snapshot, s_displayName snapshot with
      | Some endpoint, Some name =>
          if negb (String.eqb (remote_url remote) endpoint)
             || match remote_enrollmentToken remote with
                | Some t => negb (String.eqb t (erq_grantToken persisted))
                | None => false
                end
          then mret (inl enr_configuration_conflict)
          else begin_enrollment (mkBegin endpoint (erq_grantToken persisted) name) e;; prepared_enrollment
      | _, _ => throw (StoreExn (StateError corrupt_state))
      end
  end.

Abbreviation state := (enrollment_controller * resident)%type.
Definition enrollment_finish (code : GatewayEnrollmentStatusCode) (c : enrollment_controller) : enrollment_controller :=
  mkEnrollmentController (ec_remote c) (ec_displayName c) code (ec_started c) (ec_stopRequested c) (ec_attempted c) None.
Definition enrollment_waiting (s : enrollment_stage) (c : enrollment_controller) : enrollment_controller :=
  mkEnrollmentController (ec_remote c) (ec_displayName c) (ec_current c) (ec_started c) (ec_stopRequested c) (ec_attempted c) (Some s).
(** [stops]: [fetch] calls [stop] before it returns. *)
Definition enrollment_start (e : write_env) (stops : bool) (c : enrollment_controller) (s : resident) : state :=
  if ec_attempted c || ec_started c then (c, s)
  else
    let started code := mkEnrollmentController (ec_remote c) (ec_displayName c) code true (ec_stopRequested c) false None in
    if ec_stopRequested c then (started enr_stopped, s)
    else
      match enrollment_prepare c e s with
      | (inl err, s) => (started (enrollment_stateFailure err), s)
      | (inr (inl code), s) => (started code, s)
      | (inr (inr p), s) =>
          (mkEnrollmentController (ec_remote c) (ec_displayName c) enr_enrolling true stops true (Some (EFetching p stops)), s)
      end.
Definition enrollment_aborted (c : enrollment_controller) : GatewayEnrollmentStatusCode :=
  if ec_stopRequested c then enr_stopped else enr_timeout.
Definition enrollment_stop (c : enrollment_controller) : enrollment_controller :=
  let c := mkEnrollmentController (ec_remote c) (ec_displayName c) (ec_current c) (ec_started c) true (ec_attempted c) (ec_stage c) in
  match ec_stage c with Some (EFetching _ false) | Some (EReading _ _) => enrollment_finish (enrollment_aborted c) c | _ => c end.
Definition enrolled_status (r : ResidentEnrollmentResult) : Z := if ers_replayed r then 200 else 201.
Definition record_enrollment (result : ResidentEnrollmentResult) (e : write_env) (c : enrollment_controller) (s : resident) : state :=
  match in_store (activateEnrollment is_origin (message_json result) (we_now e) (we_commits e) (we_others e)) s with
  | (inl err, s) => (enrollment_finish (enrollment_recordFailure err) c, s)
  | (inr _, s) => (enrollment_finish enr_enrolled c, s)
  end.

Inductive enrollment_event :=
  | ee_start (e : write_env) (stops : bool)
  | ee_stop
  | ee_timeout
  | ee_rejected
  | ee_response (r : response)
  | ee_body (b : stream) (e : write_env)
  | ee_others (f : option Row → option Row).
Definition enrollment_step (ev : enrollment_event) (c : enrollment_controller) (s : resident) : state :=
  match ev, ec_stage c with
  | ee_start e stops, _ => enrollment_start e stops c s
  | ee_stop, _ => (enrollment_stop c, s)
  | ee_timeout, (Some (EFetching _ false) | Some (EReading _ _)) => (enrollment_finish (enrollment_aborted c) c, s)
  | ee_rejected, Some (EFetching _ deaf) =>
      (enrollment_finish (if deaf then enrollment_aborted c else enr_network_error) c, s)
  | ee_response r, Some (EFetching p deaf) =>
      if deaf then (enrollment_finish (enrollment_aborted c) c, s)
      else
        match check_head (pe_endpoint p +:+ path_enrollment) r with
        | Some f => (enrollment_finish (enrollment_exchange f) c, s)
        | None => (enrollment_waiting (EReading p r) c, s)
        end
  | ee_body b e, Some (EReading p r) =>
      match check_body enrolled_status r b with
      | None => (enrollment_finish enr_invalid_response c, s)
      | Some result => record_enrollment result e c s
      end
  | ee_others f, _ => (c, mkResident (f (rowdb s)) (secrets s))
  | _, _ => (c, s)
  end.
Definition enrollment_steps (evs : list enrollment_event) (x : state) : state :=
  foldl (λ '(c, s) ev, enrollment_step ev c s) x evs.
End controller.
