(* ===== verification/ControllerTheorems.v ===== *)
(** * Facts on the requests the resident prepares *)

From Stdlib Require Import Ascii.
From S2P Require Import Prelude Effects Protocol Codec CodecFacts JsString JsText Credentials ResidentControl TextFacts Secrets ResidentStore ResidentStoreTheorems ResidentProgress ControlApi ControlExchange RotationController EnrollmentController.
Local Open Scope string_scope.
Local Open Scope Z_scope.

(** ** Tokens can be registered for redaction *)

Lemma id_char_ascii c : is_id_char c = true → 0 ≤ Z.of_N (N_of_ascii c) < 128.
Proof. destruct c as [[] [] [] [] [] [] [] []]; vm_compute; intros H; first [discriminate H|split; congruence]. Qed.
Lemma units_token s : all_chars (λ c, is_id_char c || Ascii.eqb c "."%char) s = true → length (units s) = String.length s.
Proof.
  intros H. unfold units. assert (Forall (λ u, 0 ≤ u < 0x80) (lit s)) as Hf.
  { induction s as [|c s IH]; simpl; [constructor|]. simpl in H. apply andb_true_iff in H as [Hc Hs]. constructor; [|auto].
    apply orb_true_iff in Hc as [Hc|Hc]; [by apply id_char_ascii|]. by apply Ascii.eqb_eq in Hc as ->. }
  rewrite (proj2 (utf8_ascii _ Hf)). clear. induction s as [|c s IH]; simpl; [done|]. by rewrite IH.
Qed.
Lemma id_chars_all n s : id_chars n s = true → all_chars (λ c, is_id_char c || Ascii.eqb c "."%char) s = true.
Proof.
  intros [_ H]%andb_true_iff. revert H. induction s as [|c s IH]; simpl; [done|]. intros [-> Hs]%andb_true_iff. simpl. auto.
Qed.
Lemma token_all prefix t :
  all_chars is_id_char prefix = true → wf_token prefix t → all_chars (λ c, is_id_char c || Ascii.eqb c "."%char) t = true.
Proof.
  intros Hp [[i x] (-> & Hi & Hx)%parts_spec]. rewrite !append_chars. apply id_chars_all in Hi, Hx. rewrite Hi, Hx. simpl. rewrite andb_true_r.
  revert Hp. induction prefix as [|c s IH]; simpl; [done|]. intros [-> Hs]%andb_true_iff. simpl. auto.
Qed.
Lemma token_secret prefix t :
  all_chars is_id_char prefix = true → (String.length prefix ≤ 4)%nat → wf_token prefix t → validSecret t = true.
Proof.
  intros Hp Hl Ht. pose proof (size_token _ _ Ht) as Hs. unfold validSecret. rewrite units_token by by eapply token_all.
  rewrite Hs. unfold bytes. rewrite Hs. apply andb_true_iff. split; [apply Nat.leb_le; lia|apply Z.leb_le; lia].
Qed.

(** ** Tokens are removed by redaction *)

Lemma token_char_code c : is_id_char c || Ascii.eqb c "."%char = true → Z.of_N (N_of_ascii c) ≠ 91 ∧ Z.of_N (N_of_ascii c) ≠ 93 ∧ 0 ≤ Z.of_N (N_of_ascii c) < 128.
Proof. destruct c as [[] [] [] [] [] [] [] []]; vm_compute; intros H; first [discriminate H|repeat split; congruence]. Qed.
Lemma token_codes s : all_chars (λ c, is_id_char c || Ascii.eqb c "."%char) s = true →
  units s = lit s ∧ Secrets.plain (lit s) ∨ (String.length s ≤ 15)%nat.
Proof.
  intros H. destruct (Nat.leb_spec (String.length s) 15) as [|Hl]; [by right|left].
  assert (Forall (λ u, u ≠ 91 ∧ u ≠ 93 ∧ 0 ≤ u < 0x80) (lit s) ∧ length (lit s) = String.length s) as [Hf Hn].
  { clear Hl. induction s as [|c s IH]; simpl; [split; [constructor|done]|]. simpl in H. apply andb_true_iff in H as [Hc Hs].
    destruct (IH Hs). split; [constructor; [by apply token_char_code|done]|congruence]. }
  split; [apply utf8_ascii; eapply Forall_impl; [exact Hf|]; simpl; tauto|]. rewrite Forall_forall in Hf. split_and!.
  - intros Hin. by destruct (Hf _ Hin).
  - intros Hin. by destruct (Hf _ Hin) as (_ & ? & _).
  - intros Hs%Secrets.sub_length. rewrite Hn in Hs. change (length Secrets.WORDS) with 15%nat in Hs. lia.
  - intros He. rewrite He in Hn. simpl in Hn. lia.
Qed.
Lemma token_plain prefix t : all_chars is_id_char prefix = true → wf_token prefix t → Secrets.plain (units t).
Proof.
  intros Hp Ht. destruct (token_codes t) as [[-> ?]|Hl]; [by eapply token_all|done|]. rewrite (size_token _ _ Ht) in Hl. lia.
Qed.

Section controllers.
Context (is_origin : string → bool) (digest : string → list Z).
Context (digest_ok : ∀ s, Forall is_byte (digest s) ∧ length (digest s) = 32%nat).
Abbreviation assertRow := (assertRow is_origin).

Definition stored_secrets (r : Row) : list string :=
  omap (λ o, o) [enrollment_grant r; active_credential_token r; pending_credential_token r].
Lemma stored_secrets_valid r : assertRow r = true → Forall (λ t, validSecret t = true) (stored_secrets r).
Proof.
  intros Hr. unfold ResidentStore.assertRow in Hr. guards.
  assert (∀ id t, credentialToken id (Some t) = true → validSecret t = true) as Htok.
  { intros [i|] t Ht; [|done]. simpl in Ht. destruct (credential_parts NODE t) as [[i' s]|] eqn:Hp; [|done].
    apply (token_secret NODE); [done|vm_compute; lia|]. by exists (i', s). }
  unfold stored_secrets. simpl. destruct (enrollment_grant r) as [g|], (active_credential_token r) as [a|] eqn:Ha,
    (pending_credential_token r) as [p|] eqn:Hp; simpl in *; repeat constructor; eauto;
    guards; (apply (token_secret ENROLLMENT); [done|vm_compute; lia|]; done).
Qed.
Lemma register_all_runs vs d S :
  Forall (λ t, validSecret t = true) vs →
  register_all vs (mkResident d S) = (inr tt, mkResident d (list_to_set (reverse vs) ∪ S)).
Proof.
  intros Hv. revert S. induction Hv as [|v vs Hv _ IH]; intros S; simpl.
  - f_equal. f_equal. set_solver.
  - unfold register. rewrite Hv. unfold_eff. simpl. rewrite IH. do 2 f_equal. rewrite reverse_cons, list_to_set_app_L. set_solver.
Qed.
Lemma register_runs r S :
  assertRow r = true →
  registerStoredSecrets is_origin (mkResident (Some r) S)
  = (inr tt, mkResident (Some r) (list_to_set (reverse (stored_secrets r)) ∪ S)).
Proof.
  intros Hr. unfold registerStoredSecrets, in_store, secretValues. unfold_eff. simpl. rewrite (row_valid is_origin r Hr). simpl.
  apply register_all_runs. by apply stored_secrets_valid.
Qed.

(** ** The requests *)

Lemma in_store_runs {A} (m : eff (option Row) resident_exn A) d S a d' :
  m d = (inr a, d') → in_store m (mkResident d S) = (inr a, mkResident d' S).
Proof. intros H. unfold in_store. simpl. by rewrite H. Qed.
Lemma written_body_runs {A} `{Message A} (a : A) s : well_formed a → written_body a s = (inr (wire (message_json a)), s).
Proof. intros Hw. unfold written_body. by rewrite (proj1 (message_reads_back a Hw)). Qed.
Lemma bearer_runs t i x s : credential_parts NODE t = Some (i, x) → bearer t s = (inr ("Bearer " +:+ t), s).
Proof. intros Ht. unfold bearer, formatNodeBearerAuthorization. by rewrite Ht. Qed.
Definition after_register (r : Row) (S : registry) : registry := list_to_set (reverse (stored_secrets r)) ∪ S.
Lemma in_after_register r S t : t ∈ stored_secrets r → t ∈ after_register r S.
Proof. intros Ht. unfold after_register. rewrite elem_of_union, elem_of_list_to_set. left. by apply elem_of_reverse. Qed.

(** The requests of a rotation. *)
Definition proposal_of (e p v rid ta : string) : PreparedRotation :=
  mkPrepared e path_rotation ("Bearer " +:+ ta) (wire (message_json (mkRotationRequest p v rid))) proposal.
Definition activation_of (e rid tp : string) : PreparedRotation :=
  mkPrepared e path_rotationActivation ("Bearer " +:+ tp) (wire (message_json (mkActivationRequest rid))) activation.
Lemma prepare_proposal r S e rid a ta sa p tp sp :
  assertRow r = true → rotation r e rid a ta sa p tp sp → rotation_proposed_at r = None →
  ∃ v, decodeCredentialVerifier v = Some (digest sp) ∧ well_formed (mkRotationRequest p v rid)
    ∧ prepare is_origin digest (mkResident (Some r) S) = (inr (proposal_of e p v rid ta), mkResident (Some r) (after_register r S)).
Proof using digest_ok.
  intros Hr Hro Hn. destruct (rotationRequest_runs is_origin digest digest_ok r e rid a ta sa p tp sp Hr Hro) as (v & Hd & Hw & Hrun).
  exists v. split; [done|]. split; [done|]. destruct Hro as [(Hp & Ha & Hq) He Hrid Hta Htp Hxa Hxp _].
  unfold prepare. erewrite eff_run by by apply register_runs. erewrite eff_run by (by apply in_store_runs, read_valid).
  simpl. rewrite Hp, He, Hrid, Hn. erewrite eff_run. 2:{ apply in_store_runs. unfold activeNodeToken. rewrite row_bind, Hp, Hta by done. done. }
  erewrite eff_run by by eapply bearer_runs. erewrite eff_run by (by apply in_store_runs, Hrun).
  erewrite eff_run by (by apply (written_body_runs (mkRotationRequest p v rid))). done.
Qed.
Lemma prepare_activation r S e rid a ta sa p tp sp :
  assertRow r = true → rotation r e rid a ta sa p tp sp → is_Some (rotation_proposed_at r) →
  well_formed (mkActivationRequest rid)
  ∧ prepare is_origin digest (mkResident (Some r) S) = (inr (activation_of e rid tp), mkResident (Some r) (after_register r S)).
Proof using digest_ok.
  intros Hr Hro [t Ht]. destruct (rotationRequest_runs is_origin digest digest_ok r e rid a ta sa p tp sp Hr Hro) as (v & Hd & Hw & Hrun).
  assert (well_formed (mkActivationRequest rid)) as Hwa by apply Hw. split; [done|].
  destruct Hro as [(Hp & Ha & Hq) He Hrid Hta Htp Hxa Hxp _].
  unfold prepare. erewrite eff_run by by apply register_runs. erewrite eff_run by (by apply in_store_runs, read_valid).
  simpl. rewrite Hp, He, Hrid, Ht. erewrite eff_run by (by apply in_store_runs, Hrun).
  erewrite eff_run. 2:{ apply in_store_runs. unfold pendingNodeToken. rewrite row_bind, Hp, Htp by done. done. }
  erewrite eff_run by by eapply bearer_runs.
  erewrite eff_run by (by apply (written_body_runs (mkActivationRequest rid))). done.
Qed.
(** What was prepared was of a valid row that rotates, with its tokens registered. *)
Lemma prepare_inv s p s' :
  prepare is_origin digest s = (inr p, s') →
  ∃ r e rid a ta sa q tq sq, rowdb s = Some r ∧ assertRow r = true ∧ rotation r e rid a ta sa q tq sq
    ∧ s' = mkResident (Some r) (after_register r (secrets s))
    ∧ (rotation_proposed_at r = None ∧ (∃ v, decodeCredentialVerifier v = Some (digest sq) ∧ well_formed (mkRotationRequest q v rid)
          ∧ p = proposal_of e q v rid ta)
       ∨ is_Some (rotation_proposed_at r) ∧ p = activation_of e rid tq).
Proof using digest_ok.
  destruct s as [[r|] S]; [|done]. destruct (assertRow r) eqn:Hr.
  2:{ unfold prepare, registerStoredSecrets, in_store, secretValues, row. unfold_eff. simpl. by rewrite Hr. }
  destruct (decide (phase r = rotating)) as [Hp|Hp].
  2:{ unfold prepare. erewrite eff_run by by apply register_runs. erewrite eff_run by (by apply in_store_runs, read_valid).
      simpl. by destruct (phase r). }
  destruct (rotation_columns is_origin r Hr Hp) as (e & rid & a & ta & sa & q & tq & sq & Hro). intros H.
  exists r, e, rid, a, ta, sa, q, tq, sq. split_and!; try done; destruct (rotation_proposed_at r) as [t|] eqn:Ht.
  - destruct (prepare_activation r S _ _ _ _ _ _ _ _ Hr Hro) as [_ Hx]; [by rewrite Ht|]. rewrite Hx in H. by injection H as _ <-.
  - destruct (prepare_proposal r S _ _ _ _ _ _ _ _ Hr Hro Ht) as (v & _ & _ & Hx). rewrite Hx in H. by injection H as _ <-.
  - destruct (prepare_activation r S _ _ _ _ _ _ _ _ Hr Hro) as [_ Hx]; [by rewrite Ht|]. rewrite Hx in H. injection H as <- _. eauto.
  - destruct (prepare_proposal r S _ _ _ _ _ _ _ _ Hr Hro Ht) as (v & Hv & Hw & Hx). rewrite Hx in H. injection H as <- _. eauto 10.
Qed.

(** Preparing does not change the row. *)
Definition row_kept {A} (m : R A) : Prop := ∀ s, rowdb (m s).2 = rowdb s.
Lemma row_kept_bind {A B} (m : R A) (k : A → R B) : row_kept m → (∀ a, row_kept (k a)) → row_kept (m ≫= k).
Proof.
  intros Hm Hk s. unfold mbind, eff_bind. specialize (Hm s). destruct (m s) as [[e|a] s1]; simpl in *; [done|].
  specialize (Hk a s1). congruence.
Qed.
Lemma row_kept_store {A} (m : eff (option Row) resident_exn A) : (∀ d, (m d).2 = d) → row_kept (in_store m).
Proof. intros Hm s. unfold in_store. specialize (Hm (rowdb s)). destruct (m (rowdb s)) as [[] ?]; done. Qed.
Lemma row_kept_register : row_kept (registerStoredSecrets is_origin).
Proof.
  apply row_kept_bind.
  - apply row_kept_store. intros d. unfold secretValues, row. unfold_eff. destruct d as [r|]; [|done].
  by destruct (ResidentStore.assertRow is_origin r).
  - intros vs. induction vs as [|v vs IH]; [done|]. apply row_kept_bind; [|done]. unfold register. by destruct (validSecret v).
Qed.
Lemma row_kept_read : row_kept (in_store (read is_origin)).
Proof. apply row_kept_store. intros d. unfold read, row. unfold_eff. destruct d as [r|]; [|done].
  by destruct (ResidentStore.assertRow is_origin r). Qed.
Lemma row_kept_rotationRequest : row_kept (in_store (rotationRequest is_origin digest)).
Proof.
  apply row_kept_store. intros d. unfold rotationRequest, row. unfold_eff. destruct d as [r|]; [|done].
  destruct (ResidentStore.assertRow is_origin r); [|done]. simpl. destruct (phase r); try done. destruct (request_id r); [|done].
  destruct (pending_credential_id r); [|done]. destruct (pending_credential_token r) as [t|]; [|done].
  destruct (parseNodeCredential digest t) as [[i v]|]; [|done]. destruct (String.eqb _ _); [|done].
  by destruct (encodeCredentialVerifier v).
Qed.
Lemma row_kept_enrollmentRequest : row_kept (in_store (enrollmentRequest is_origin digest)).
Proof.
  apply row_kept_store. intros d. unfold enrollmentRequest, row. unfold_eff. destruct d as [r|]; [|done].
  destruct (ResidentStore.assertRow is_origin r); [|done]. simpl. destruct (phase r); try done. destruct (enrollment_grant r); [|done].
  destruct (display_name r); [|done]. destruct (request_id r); [|done].
  destruct (pending_credential_id r); [|done]. destruct (pending_credential_token r) as [t|]; [|done].
  destruct (parseNodeCredential digest t) as [[i v]|]; [|done]. destruct (String.eqb _ _); [|done].
  by destruct (encodeCredentialVerifier v).
Qed.
Lemma row_kept_token : row_kept (in_store (activeNodeToken is_origin)) ∧ row_kept (in_store (pendingNodeToken is_origin)).
Proof.
  split; apply row_kept_store; intros d; unfold activeNodeToken, pendingNodeToken, row; unfold_eff; destruct d as [r|]; try done;
    (destruct (ResidentStore.assertRow is_origin r); [|done]); simpl; destruct (phase r); try done;
    unfold expect; first [by destruct (active_credential_token r)|by destruct (pending_credential_token r)].
Qed.
Lemma row_kept_bearer t : row_kept (bearer t).
Proof. unfold bearer. by destruct (formatNodeBearerAuthorization t). Qed.
Lemma row_kept_body {A} `{Message A} (a : A) : row_kept (written_body a).
Proof. unfold written_body. by destruct (serialize_message (message_json a)). Qed.
#[local] Hint Resolve row_kept_register row_kept_read row_kept_rotationRequest row_kept_enrollmentRequest row_kept_bearer row_kept_body : core.
Lemma row_kept_prepare : row_kept (prepare is_origin digest).
Proof.
  apply row_kept_bind; [done|]. intros _. apply row_kept_bind; [done|]. intros snap. destruct (s_phase snap); try done.
  destruct (s_endpoint snap); [|done]. destruct (s_requestId snap); [|done].
  destruct (s_rotationProposedAt snap); repeat (apply row_kept_bind; [first [done|apply row_kept_token]|intros ?]); done.
Qed.
Lemma row_kept_prepared : row_kept (prepared_enrollment is_origin digest).
Proof.
  do 3 (apply row_kept_bind; [done|]; intros ?). destruct (s_endpoint _); [|done]. by apply row_kept_bind.
Qed.
(** The request of a row that enrolls. *)
Lemma prepared_enrollment_inv s p s' :
  prepared_enrollment is_origin digest s = (inr (inr p), s') →
  ∃ r e n g rid q tq sq v, rowdb s = Some r ∧ assertRow r = true ∧ enrolls is_origin r e n g rid q tq sq
    ∧ decodeCredentialVerifier v = Some (digest sq) ∧ well_formed (mkEnrollmentRequest g (instance_id r) n q v rid)
    ∧ s' = mkResident (Some r) (after_register r (secrets s))
    ∧ p = mkPreparedEnrollment e (wire (message_json (mkEnrollmentRequest g (instance_id r) n q v rid))).
Proof using digest_ok.
  destruct s as [[r|] S]; [|done]. destruct (assertRow r) eqn:Hr.
  2:{ unfold prepared_enrollment, registerStoredSecrets, in_store, secretValues, row. unfold_eff. simpl. by rewrite Hr. }
  unfold prepared_enrollment. erewrite eff_run by by apply register_runs. erewrite eff_run by (by apply in_store_runs, read_valid).
  destruct (decide (phase r = enrolling)) as [Hp|Hp].
  2:{ unfold in_store, enrollmentRequest, row. unfold_eff. simpl. rewrite Hr. simpl. by destruct (phase r). }
  destruct (enrolls_columns is_origin r Hr Hp) as (e & n & g & rid & q & tq & sq & Hen).
  destruct (enrollmentRequest_runs is_origin digest digest_ok r e n g rid q tq sq Hr Hen) as (v & Hv & Hw & Hrun).
  erewrite eff_run by (by apply in_store_runs, Hrun). simpl. rewrite (en_endpoint _ _ _ _ _ _ _ _ _ Hen).
  erewrite eff_run by (by apply (written_body_runs (mkEnrollmentRequest g (instance_id r) n q v rid))).
  intros [= <- <-]. exists r, e, n, g, rid, q, tq, sq, v. done.
Qed.
End controllers.

(** * The controllers of enrollment and rotation

    Whatever the owner, the timer, the network, the server and other processes on the
    same database do, in any order. *)


Section controllers.
Context (is_origin : string → bool) (digest : string → list Z).
Context (digest_ok : ∀ s, Forall is_byte (digest s) ∧ length (digest s) = 32%nat).

(** ** Rotation *)

Definition stage_request (g : rotation_stage) : PreparedRotation := match g with Fetching p | Reading p _ => p end.
(** The secret in the request is registered. *)
Definition covered_rotation (p : PreparedRotation) (S : registry) : Prop :=
  ∃ token, pr_authorization p = "Bearer " +:+ token ∧ token ∈ S ∧ Secrets.plain (units token).
Definition rotation_safe (x : rotation_controller * resident) : Prop :=
  ∀ g, rc_stage x.1 = Some g →
    rc_started x.1 = true ∧ rc_attempted x.1 = true ∧ rc_stopRequested x.1 = false ∧ rc_current x.1 = rot_rotating
    ∧ covered_rotation (stage_request g) (secrets x.2).
Lemma finished_safe code c s : rotation_safe (finish code c, s).
Proof. by intros g [=]. Qed.
Lemma prepare_covers s p s' : prepare is_origin digest s = (inr p, s') → covered_rotation p (secrets s').
Proof using digest_ok.
  intros H. apply prepare_inv in H as (r & e & rid & a & ta & sa & q & tq & sq & _ & _ & [_ _ _ Hta Htq Hxa Hxq _] & -> & Hcase); [|done].
  destruct Hcase as [(_ & v & _ & _ & ->)|[_ ->]].
  - exists ta. split; [done|]. split; [|by apply (token_plain NODE); [|eexists]]. apply in_after_register. unfold stored_secrets. rewrite Hta. destruct (enrollment_grant r); simpl; set_solver.
  - exists tq. split; [done|]. split; [|by apply (token_plain NODE); [|eexists]]. apply in_after_register. unfold stored_secrets. rewrite Hta, Htq. destruct (enrollment_grant r); simpl; set_solver.
Qed.
Lemma next_safe c s :
  rc_started c = true → rc_attempted c = true → rc_stopRequested c = false → rc_current c = rot_rotating →
  rotation_safe (next_request is_origin digest c s).
Proof using digest_ok.
  intros H1 H2 H3 H4. unfold next_request. destruct (prepare is_origin digest s) as [[e|p] s'] eqn:Hp; [apply finished_safe|].
  intros g [= <-]. split_and!; try done. by eapply prepare_covers.
Qed.
Lemma rotation_step_safe ev c s : rotation_safe (c, s) → rotation_safe (rotation_step is_origin digest ev c s).
Proof using digest_ok.
  intros Hs. destruct ev as [mode e| | | |r|b e|f]; simpl.
  - unfold start. destruct (rc_attempted c || rc_started c); [done|]. destruct (rc_stopRequested c); [by intros g [=]|].
    destruct (begin_attempt _ _ _ _ _) as [[err|[]] s']; [by intros g [=]|by apply next_safe|by intros g [=]].
  - unfold stop. simpl. destruct (rc_stage c) as [g|] eqn:Hg; [apply finished_safe|]. by intros g [=].
  - by destruct (rc_stage c).
  - destruct (rc_stage c) as [[]|] eqn:Hg; try done.
  - destruct (rc_stage c) as [[p|p r']|] eqn:Hg; try done. destruct (check_head _ r); [apply finished_safe|].
    destruct (Hs _ Hg) as (? & ? & ? & ? & Hc). intros g [= <-]. done.
  - destruct (rc_stage c) as [[p|p r']|] eqn:Hg; try done. destruct (check_body _ r' b) as [res|]; [|apply finished_safe].
    destruct (Hs _ Hg) as (? & ? & ? & ? & Hc). unfold record_result.
    destruct (pr_step p); destruct (in_store _ s) as [[]]; try apply finished_safe. by apply next_safe.
  - intros g Hg. by apply Hs.
Qed.
(** One attempt: after it nothing is done any more. *)
Definition others_only (ev : rotation_event) : Prop := match ev with ev_others _ => False | _ => True end.
Lemma rotation_done ev c s :
  others_only ev → rc_started c = true → rc_stage c = None →
  (rotation_step is_origin digest ev c s).2 = s
  ∧ rc_current (rotation_step is_origin digest ev c s).1 = rc_current c
  ∧ rc_started (rotation_step is_origin digest ev c s).1 = true ∧ rc_stage (rotation_step is_origin digest ev c s).1 = None.
Proof.
  intros Ho Hs Hg. destruct ev; simpl; try rewrite Hg; try done.
  - unfold start. rewrite Hs, orb_true_r. done.
  - unfold stop. simpl. rewrite Hg. done.
Qed.

(** ** Enrollment *)

Definition enrollment_of_stage (g : enrollment_stage) : PreparedEnrollment := match g with EFetching p _ | EReading p _ => p end.
Definition covered_enrollment (p : PreparedEnrollment) (S : registry) : Prop :=
  ∃ q : ResidentEnrollmentRequest, pe_body p = wire (message_json q) ∧ erq_grantToken q ∈ S ∧ Secrets.plain (units (erq_grantToken q)).
Definition enrollment_safe (x : enrollment_controller * resident) : Prop :=
  ∀ g, ec_stage x.1 = Some g →
    ec_started x.1 = true ∧ ec_attempted x.1 = true ∧ ec_current x.1 = enr_enrolling
    ∧ covered_enrollment (enrollment_of_stage g) (secrets x.2).
Lemma enrollment_finished_safe code c s : enrollment_safe (enrollment_finish code c, s).
Proof. by intros g [=]. Qed.
Lemma prepared_covers s p s' : prepared_enrollment is_origin digest s = (inr (inr p), s') → covered_enrollment p (secrets s').
Proof using digest_ok.
  intros H. apply prepared_enrollment_inv in H as (r & e & n & g & rid & q & tq & sq & v & _ & _ & Hen & _ & _ & -> & ->); [|done].
  eexists. split; [done|]. split; [|apply (token_plain ENROLLMENT); [done|]; by destruct (en_ok _ _ _ _ _ _ _ _ _ Hen) as (_ & (_ & _ & ?) & _)].
  apply in_after_register. unfold stored_secrets. rewrite (en_grant _ _ _ _ _ _ _ _ _ Hen). simpl. set_solver.
Qed.
Lemma enrollment_prepare_covers c e s p s' :
  enrollment_prepare is_origin digest c e s = (inr (inr p), s') → covered_enrollment p (secrets s').
Proof using digest_ok.
  intros H. unfold enrollment_prepare in H. apply bind_inv in H as (? & s1 & _ & (snap & s2 & _ & H)%bind_inv).
  assert (∀ i s, (begin_enrollment is_origin digest i e;; prepared_enrollment is_origin digest) s = (inr (inr p), s') →
    covered_enrollment p (secrets s')) as Hb.
  { intros i s3 Hi. apply bind_inv in Hi as (? & s4 & _ & Hi). by eapply prepared_covers. }
  destruct (s_phase snap), (ec_remote c) as [remote|]; try done.
  - destruct (remote_enrollmentToken remote); [|done]. eauto.
  - apply bind_inv in H as (q & s3 & _ & H). destruct (s_endpoint snap); [|done]. destruct (s_displayName snap); [|done].
    case_match; [done|]. eauto.
Qed.
Lemma enrollment_step_safe ev c s : enrollment_safe (c, s) → enrollment_safe (enrollment_step is_origin digest ev c s).
Proof using digest_ok.
  intros Hs. destruct ev as [e stops| | | |r|b e|f]; simpl.
  - unfold enrollment_start. destruct (ec_attempted c || ec_started c); [done|]. destruct (ec_stopRequested c); [by intros g [=]|].
    destruct (enrollment_prepare _ _ _ _ _) as [[err|[code|p]] s'] eqn:Hp; [by intros g [=]..|].
    intros g [= <-]. split_and!; try done. by eapply enrollment_prepare_covers.
  - unfold enrollment_stop. simpl. destruct (ec_stage c) as [[p []|p r]|] eqn:Hg; try apply enrollment_finished_safe.
    destruct (Hs _ Hg) as (? & ? & ? & ?). intros g [= <-]. done.
  - destruct (ec_stage c) as [[p []|p r]|] eqn:Hg; try apply enrollment_finished_safe; done.
  - destruct (ec_stage c) as [[p []|p r]|] eqn:Hg; try apply enrollment_finished_safe; done.
  - destruct (ec_stage c) as [[p []|p r']|] eqn:Hg; try apply enrollment_finished_safe; try done.
    destruct (check_head _ r); [apply enrollment_finished_safe|]. destruct (Hs _ Hg) as (? & ? & ? & ?). intros g [= <-]. done.
  - destruct (ec_stage c) as [[p d|p r']|] eqn:Hg; try done. destruct (check_body _ r' b); [|apply enrollment_finished_safe].
    unfold record_enrollment. destruct (in_store _ s) as [[]]; apply enrollment_finished_safe.
  - intros g Hg. by apply Hs.
Qed.

(** C7. What the controllers send is covered by redaction, and they act once: whatever
    events come in any order, also when other processes change the stored row at any
    point, while a request of a rotation or an enrollment is outstanding the token in
    its header, or the grant in its body, is registered as a secret of the process and is
    of the kind redaction removes from every text; a
    rotation that was told to stop has no request outstanding; and after an attempt of
    rotation has ended, no further event but another process changes its status, writes
    the row or sends anything. *)
Theorem controllers_covered mode remote name s evs evs' :
  let '(c, x) := rotation_steps is_origin digest evs (new_rotation mode, s) in
  let '(d, y) := enrollment_steps is_origin digest evs' (new_enrollment remote name, s) in
  (∀ g, rc_stage c = Some g → rc_stopRequested c = false ∧ covered_rotation (stage_request g) (secrets x))
  ∧ (∀ g, ec_stage d = Some g → covered_enrollment (enrollment_of_stage g) (secrets y))
  ∧ (∀ more, Forall others_only more → rc_started c = true → rc_stage c = None →
      let '(c', x') := rotation_steps is_origin digest more (c, x) in
      x' = x ∧ rc_current c' = rc_current c ∧ rc_stage c' = None).
Proof using digest_ok.
  assert (∀ x, rotation_safe x → rotation_safe (rotation_steps is_origin digest evs x)) as Hr.
  { induction evs as [|ev evs IH]; intros [c x] Hx; [done|]. by apply IH, rotation_step_safe. }
  assert (∀ x, enrollment_safe x → enrollment_safe (enrollment_steps is_origin digest evs' x)) as He.
  { clear -digest_ok. induction evs' as [|ev evs IH]; intros [c x] Hx; [done|]. by apply IH, enrollment_step_safe. }
  specialize (Hr (new_rotation mode, s) ltac:(by intros g [=])). specialize (He (new_enrollment remote name, s) ltac:(by intros g [=])).
  destruct (rotation_steps _ _ evs _) as [c x]. destruct (enrollment_steps _ _ evs' _) as [d y]. split_and!.
  - intros g Hg. destruct (Hr g Hg) as (_ & _ & ? & _ & ?). done.
  - intros g Hg. by destruct (He g Hg) as (_ & _ & _ & ?).
  - clear. intros more Hm. revert c x. induction Hm as [|ev more Ho _ IH]; intros c x Hs Hg; [done|]. simpl.
    destruct (rotation_done ev c x Ho Hs Hg) as (H1 & H2 & H3 & H4). destruct (rotation_step is_origin digest ev c x) as [c1 x1].
    simpl in *. subst x1. specialize (IH c1 x H3 H4). unfold rotation_steps in *. destruct (foldl _ (c1, x) more). by rewrite <-H2.
Qed.
(** When [fetch] stops the enrollment before it returns, neither a further [stop] nor
    the timer ends the attempt: only the fetch does. *)
Theorem enrollment_abort_missed remote name e s c x :
  enrollment_start is_origin digest e true (new_enrollment remote name) s = (c, x) → is_Some (ec_stage c) →
  ∀ evs, Forall (λ ev, ev = ee_stop ∨ ev = ee_timeout) evs →
  let '(c', x') := enrollment_steps is_origin digest evs (c, x) in ec_current c' = enr_enrolling ∧ is_Some (ec_stage c') ∧ x' = x.
Proof.
  intros Hst Hc. assert (∃ p, ec_current c = enr_enrolling ∧ ec_stage c = Some (EFetching p true)) as (p & Hcur & Hp).
  { unfold enrollment_start in Hst. simpl in Hst. destruct (enrollment_prepare _ _ _ _ _) as [[err|[code|p]] s'];
      injection Hst as <- <-; [by destruct Hc..|]. eauto. }
  clear Hst Hc. intros evs Hevs. revert c Hcur Hp. induction Hevs as [|ev evs [-> | ->] _ IH]; intros c Hcur Hp; simpl; [rewrite Hp; eauto|..].
  - apply IH; unfold enrollment_stop; simpl; by rewrite Hp.
  - rewrite Hp. by apply IH.
Qed.
End controllers.
