(* ===== verification/ControlSystem.v ===== *)
(** * The resident and the Gateway agree

    What the Gateway's credentials must be for the tokens a resident holds, in each
    phase of its row, and that every step of the Gateway keeps this as long as nobody
    else presents the resident's tokens. *)

From S2P Require Import Prelude Effects Protocol Codec JsString JsText Credentials ResidentControl ResidentStore ResidentStoreTheorems ResidentProgress CredentialStore CredentialStoreTheorems CredentialView RateLimiter ControlApi ControlApiFacts ControlExchange RotationController EnrollmentController ControllerTheorems.
Local Open Scope string_scope.
Local Open Scope Z_scope.

(** ** How a step changes a credential *)

Lemma step_back m l m' j c' :
  credential_step m l m' → m' !! j = Some c' →
  is_Some (m !! j)
  ∨ m !! j = None ∧ ((∃ i v, l = l_enroll j i v ∧ c' = mkView i v s_active None None)
      ∨ ∃ o oc v, l = l_propose (o, v_verifier oc) j v ∧ m !! o = Some oc ∧ v_state oc = s_active
        ∧ c' = mkView (v_instance oc) v s_pending (Some o) None).
Proof.
  intros Hs Hc'. destruct Hs as [|id i v Hn|id v o oc Ho Ha Hn|id c o oc Hid Hp Hr Hne Ho Ha Hi|id c Hid Hnr]; [eauto|..].
  - apply lookup_insert_Some in Hc' as [[<- <-]|[_ Hc']]; [|eauto]. right. split; [done|]. left. eauto.
  - apply lookup_insert_Some in Hc' as [[<- <-]|[_ Hc']]; [|eauto]. right. split; [done|]. right. eauto 8.
  - left. apply lookup_insert_Some in Hc' as [[<- _]|[_ Hc']]; [eauto|].
    apply lookup_insert_Some in Hc' as [[<- _]|[_ Hc']]; eauto.
  - left. apply lookup_insert_Some in Hc' as [[<- _]|[_ Hc']]; eauto.
Qed.
Lemma step_state m l m' j c c' :
  credential_step m l m' → m !! j = Some c → m' !! j = Some c' →
  c' = c
  ∨ l = l_revoke j ∧ v_state c ≠ s_revoked ∧ c' = with_state s_revoked (v_replaced c) c
  ∨ (∃ o oc, l = l_activate (j, v_verifier c) ∧ v_state c = s_pending ∧ v_rotates c = Some o ∧ m !! o = Some oc
      ∧ v_state oc = s_active ∧ m' !! o = Some (with_state s_revoked (Some j) oc)
      ∧ c' = with_state s_active (v_replaced c) c)
  ∨ (∃ id ci, l = l_activate (id, v_verifier ci) ∧ m !! id = Some ci ∧ v_rotates ci = Some j ∧ v_state ci = s_pending
      ∧ v_state c = s_active ∧ m' !! id = Some (with_state s_active (v_replaced ci) ci)
      ∧ c' = with_state s_revoked (Some id) c).
Proof.
  intros Hs Hc Hc'. destruct Hs as [|id i v Hn|id v o oc Ho Ha Hn|id ci o oc Hid Hp Hr Hne Ho Ha Hi|id ci Hid Hnr].
  - left. congruence.
  - rewrite lookup_insert_ne in Hc' by congruence. left. congruence.
  - rewrite lookup_insert_ne in Hc' by congruence. left. congruence.
  - destruct (decide (j = id)) as [->|Hj].
    { rewrite lookup_insert_eq in Hc'. right; right; left. rewrite Hid in Hc. injection Hc as ->. injection Hc' as <-. exists o, oc.
      rewrite lookup_insert_ne, lookup_insert_eq by done. done. }
    rewrite lookup_insert_ne in Hc' by done. destruct (decide (j = o)) as [->|Hjo].
    { rewrite lookup_insert_eq in Hc'. do 3 right. rewrite Ho in Hc. injection Hc as ->. injection Hc' as <-. exists id, ci.
      rewrite lookup_insert_eq. done. }
    rewrite lookup_insert_ne in Hc' by done. left. congruence.
  - destruct (decide (j = id)) as [->|Hj].
    + rewrite lookup_insert_eq in Hc'. right; left. rewrite Hid in Hc. injection Hc as ->. injection Hc' as <-. done.
    + rewrite lookup_insert_ne in Hc' by done. left. congruence.
Qed.

(** ** Agreement *)

(** In the state [s], or revoked by the operator. *)
Definition standing (c : cview) (s : credential_state) : Prop := v_state c = s ∨ v_state c = s_revoked ∧ v_replaced c = None.
Definition good (m : gmap string cview) (i id : string) (v : list Z) : Prop :=
  ∃ c, m !! id = Some c ∧ v_instance c = i ∧ v_verifier c = v ∧ standing c s_active.
Definition nobody (m : gmap string cview) (id : string) : Prop := ∀ j c, m !! j = Some c → v_rotates c ≠ Some id.

Section agreement.
Context (digest : string → list Z).
(** The credentials of the tokens a row holds. *)
Definition own_active (r : Row) : option (string * list Z) := active_credential_token r ≫= parseNodeCredential digest.
Definition own_pending (r : Row) : option (string * list Z) := pending_credential_token r ≫= parseNodeCredential digest.

Record rotating_agrees (m : gmap string cview) (i a : string) (va : list Z) (p : string) (vp : list Z) (proposed : bool) : Prop := {
  (* the only rotation of the active credential is the resident's own *)
  ra_only : ∀ j c, m !! j = Some c → v_rotates c = Some a → j = p ∧ v_instance c = i ∧ v_verifier c = vp;
  ra_nobody : ∀ c, m !! p = Some c → v_rotates c = Some a → nobody m p;
  ra_unproposed : proposed = false →
    good m i a va ∧ ∀ c, m !! p = Some c → v_rotates c = Some a → standing c s_pending;
  ra_proposed : proposed = true →
    ∃ c, m !! p = Some c ∧ v_rotates c = Some a
      ∧ (good m i a va ∧ standing c s_pending
         ∨ (∃ oc, m !! a = Some oc ∧ v_replaced oc = Some p) ∧ standing c s_active);
}.
Definition agrees (r : Row) (m : gmap string cview) : Prop :=
  let i := instance_id r in
  match phase r, own_active r, own_pending r with
  | phase_idle, _, _ => True
  | enrolling, _, Some (p, vp) => Enrolled m i p vp → good m i p vp ∧ nobody m p
  | active, Some (a, va), _ => good m i a va ∧ nobody m a
  | rotating, Some (a, va), Some (p, vp) => rotating_agrees m i a va p vp (not_null (rotation_proposed_at r))
  | _, _, _ => False
  end.

(** The steps that do not present the resident's tokens, and those of its own
    requests. *)
Definition harmless (r : Row) (l : label) : Prop :=
  match l with
  | l_propose tok id v =>
      (own_active r = Some tok → phase r = rotating ∧ own_pending r = Some (id, v)) ∧ own_pending r ≠ Some tok
  | l_activate tok => own_pending r = Some tok → phase r = rotating ∧ is_Some (rotation_proposed_at r)
  | _ => True
  end.

(** ** Steps of the Gateway keep it *)

Lemma standing_revoked m id c : wfv m → m !! id = Some c → v_state c ≠ s_revoked → standing (with_state s_revoked (v_replaced c) c) s_active.
Proof.
  intros Hw Hc Hs. right. split; [done|]. simpl. destruct (v_replaced c) eqn:Hr; [|done]. by destruct (wf_replaced m Hw id c _ Hc Hr).
Qed.
(** An active credential nobody rotates stays good. *)
Lemma good_step m l m' i a v :
  wfv m → credential_step m l m' → good m i a v →
  (∀ id ci, l = l_activate (id, v_verifier ci) → m !! id = Some ci → v_rotates ci = Some a → False) → good m' i a v.
Proof.
  intros Hw Hs (c & Hc & Hi & Hv & Hst) Hno. destruct (step_lasts l m m' a c Hw Hs Hc) as (c' & Hc' & [I V _ _ _]).
  exists c'. split_and!; [done|congruence..|].
  destruct (step_state m l m' a c c' Hs Hc Hc') as [->|[(-> & Hns & ->)|[(o & oc & -> & Hp & _)|(id & ci & -> & Hid & Hr & _)]]].
  - done.
  - by eapply standing_revoked.
  - destruct Hst as [Hst|[Hst _]]; congruence.
  - exfalso. eauto.
Qed.
(** Nobody starts to rotate a credential without its token. *)
Lemma nobody_step m l m' a :
  credential_step m l m' → nobody m a → wfv m →
  (∀ c id v, m !! a = Some c → l = l_propose (a, v_verifier c) id v → False) → nobody m' a.
Proof.
  intros Hs Hn Hw Hno j c' Hc' Hr. destruct (step_back m l m' j c' Hs Hc') as [[c Hc]|[_ [(i & v & _ & ->)|(o & oc & v & -> & Ho & _ & ->)]]].
  - destruct (step_lasts l m m' j c Hw Hs Hc) as (c'' & Hc'' & [_ _ R _ _]). assert (c'' = c') as -> by congruence.
    apply (Hn j c Hc). congruence.
  - done.
  - simpl in Hr. injection Hr as ->. eauto.
Qed.
(** A credential that does not exist is rotated by nobody. *)
Lemma nobody_absent m id : wfv m → m !! id = None → nobody m id.
Proof. intros Hw Hn j c Hc Hr. destruct (wf_rotates m Hw j c id Hc Hr). congruence. Qed.

Lemma active_step m l m' i a va :
  wfv m → credential_step m l m' → (∀ id v, l ≠ l_propose (a, va) id v) → good m i a va ∧ nobody m a → good m' i a va ∧ nobody m' a.
Proof.
  intros Hw Hs Hl [Hg Hn]. split.
  - eapply good_step; eauto. intros id ci _ Hid Hr. by apply (Hn id ci Hid).
  - eapply nobody_step; eauto. destruct Hg as (c & Hc & _ & Hv & _). intros c0 id v Hc0 ->. apply (Hl id v). congruence.
Qed.
Lemma enrolling_step m l m' i p vp :
  wfv m → credential_step m l m' → (∀ id v, l ≠ l_propose (p, vp) id v) →
  (Enrolled m i p vp → good m i p vp ∧ nobody m p) → Enrolled m' i p vp → good m' i p vp ∧ nobody m' p.
Proof.
  intros Hw Hs Hl Hag (c' & Hc' & Hi & Hv & Hr). destruct (step_back m l m' p c' Hs Hc') as [[c Hc]|[Hnone Hnew]].
  - eapply active_step; eauto. apply Hag. exists c.
    destruct (step_lasts l m m' p c Hw Hs Hc) as (c'' & Hc'' & [I V R _ _]). assert (c'' = c') as -> by congruence.
    split_and!; [done|congruence..].
  - destruct Hnew as [(i' & v' & -> & ->)|(o & oc & v & -> & Ho & _ & ->)]; [|done]. simpl in *. subst. split.
    + eexists. split; [done|]. simpl. split_and!; [done..|]. by left.
    + eapply nobody_step; eauto using nobody_absent. done.
Qed.
Lemma rotating_step m l m' i a va p vp b :
  wfv m → credential_step m l m' → a ≠ p →
  (∀ id v, l = l_propose (a, va) id v → id = p ∧ v = vp) → (∀ id v, l ≠ l_propose (p, vp) id v) →
  (l = l_activate (p, vp) → b = true) →
  rotating_agrees m i a va p vp b → rotating_agrees m' i a va p vp b.
Proof.
  intros Hw Hs Hne Hpa Hpp Hact [Honly Hnob Hun Hpr].
  assert (∀ c', m' !! p = Some c' → v_rotates c' = Some a → is_Some (m !! p) → ∃ c, m !! p = Some c ∧ v_rotates c = Some a) as Hold.
  { intros c' Hc' Hr [c Hc]. destruct (step_lasts l m m' p c Hw Hs Hc) as (c'' & Hc'' & [_ _ R _ _]).
    assert (c'' = c') as -> by congruence. exists c. split; [done|congruence]. }
  assert (∀ oc, m !! a = Some oc → v_state oc = s_active → good m i a va) as Hgood.
  { intros oc Ho Ha. destruct b; [|by apply Hun]. destruct (Hpr eq_refl) as (_ & _ & _ & [[Hg _]|[(oc' & Ho' & Hrep) _]]); [done|].
    pose proof (wf_replaced m Hw a oc' p Ho' Hrep). congruence. }
  split.
  - intros j c' Hc' Hr. destruct (step_back m l m' j c' Hs Hc') as [[c Hc]|[_ [(i' & v' & _ & ->)|(o & oc & v & -> & Ho & Ha & ->)]]]; [|done|].
    + destruct (step_lasts l m m' j c Hw Hs Hc) as (c'' & Hc'' & [I V R _ _]). assert (c'' = c') as -> by congruence.
      rewrite I, V. apply (Honly j c Hc). congruence.
    + simpl in Hr. injection Hr as ->. destruct (Hgood oc Ho Ha) as (c & Hc & Hi & Hv & _). rewrite Ho in Hc. injection Hc as <-.
      destruct (Hpa j v) as [-> ->]; [congruence|]. simpl. done.
  - intros c' Hc' Hr. destruct (step_back m l m' p c' Hs Hc') as [Hc|[Hnone _]].
    + destruct (Hold c' Hc' Hr Hc) as (c0 & Hc0 & Hr0). eapply nobody_step; eauto. intros c id v Hc1 ->.
      destruct (Honly p c) as (_ & _ & Hv); [done|congruence|]. apply (Hpp id v). congruence.
    + eapply nobody_step; eauto using nobody_absent. intros c id v Hc. congruence.
  - intros Hb. destruct (Hun Hb) as [Hg Hst]. split.
    + eapply good_step; eauto. intros id ci -> Hid Hr. destruct (Honly id ci Hid Hr) as (-> & _ & Hv). rewrite Hv in *.
      rewrite Hact in Hb by done. done.
    + intros c' Hc' Hr. destruct (step_back m l m' p c' Hs Hc') as [Hc|[_ [(i' & v' & _ & ->)|(o & oc & v & -> & Ho & Ha & ->)]]]; [|done|by left].
      destruct (Hold c' Hc' Hr Hc) as (c & Hc0 & Hr0). specialize (Hst c Hc0 Hr0).
      destruct (step_state m l m' p c c' Hs Hc0 Hc') as [->|[(-> & Hns & ->)|[(o & oc & -> & _)|(id & ci & -> & Hid & Hri & _)]]].
      * done.
      * right. split; [done|]. simpl. destruct (v_replaced c) eqn:He; [|done]. by destruct (wf_replaced m Hw p c _ Hc0 He).
      * destruct (Honly p c Hc0 Hr0) as (_ & _ & Hv). rewrite Hv in Hact. rewrite Hact in Hb by done. done.
      * by destruct (Hnob c Hc0 Hr0 id ci Hid).
  - intros Hb. destruct (Hpr Hb) as (c & Hc & Hr & Hcase). destruct (step_lasts l m m' p c Hw Hs Hc) as (c' & Hc' & [I V R P _]).
    exists c'. split; [done|]. split; [congruence|].
    destruct (step_state m l m' p c c' Hs Hc Hc') as [->|[(-> & Hns & ->)|[(o & oc & -> & Hp & Hro & Ho & Ha & Ho' & ->)|(id & ci & -> & Hid & Hri & _)]]].
    + destruct Hcase as [[Hg Hst]|[(oc & Ho & Hrep) Hst]].
      * left. split; [|done]. eapply good_step; eauto. intros id ci -> Hid Hri. destruct (Honly id ci Hid Hri) as (-> & _ & Hv).
        assert (ci = c) as -> by congruence. inversion Hs; subst. rewrite Hc in *.
        match goal with H : Some c = Some ?x |- _ => injection H as <- end.
        rewrite lookup_insert_eq in Hc'. injection Hc' as Hc'. apply (f_equal v_state) in Hc'. simpl in Hc'. congruence.
      * right. split; [|done]. destruct (step_lasts l m m' a oc Hw Hs Ho) as (oc' & Ho' & [_ _ _ [P'|P'] _]); [congruence|].
        exists oc'. split; [done|congruence].
    + assert (standing (with_state s_revoked (v_replaced c) c) s_active) as Hsta by by eapply standing_revoked.
      assert (v_replaced c = None) as Hnr by (destruct Hsta as [Hx|[_ Hx]]; [done|exact Hx]).
      destruct Hcase as [[Hg _]|[(oc & Ho & Hrep) _]].
      * left. split; [eapply good_step; eauto; done|]. right. done.
      * right. split; [|right; done]. destruct (step_lasts (l_revoke p) m m' a oc Hw Hs Ho) as (oc' & Ho' & [_ _ _ [P'|P'] _]); [congruence|].
        exists oc'. split; [done|congruence].
    + right. assert (o = a) as -> by congruence. split; [|by left]. eexists. split; [done|]. done.
    + by destruct (Hnob c Hc Hr id ci Hid).
Qed.

Context (is_origin : string → bool).
(** The tokens of a row that rotates are of different credentials. *)
Lemma own_differ r a va p vp :
  assertRow is_origin r = true → phase r = rotating → own_active r = Some (a, va) → own_pending r = Some (p, vp) → a ≠ p.
Proof.
  intros Hr Hp Ha Hq. destruct (rotation_columns is_origin r Hr Hp) as (e & rid & a' & ta & sa & p' & tp & sp & [_ _ _ Hta Htp Hxa Hxp (_ & Hne & _)]).
  unfold own_active, own_pending, parseNodeCredential, parse in *. rewrite Hta in Ha. rewrite Htp in Hq. simpl in *.
  rewrite Hxa in Ha. rewrite Hxp in Hq. congruence.
Qed.
Lemma agrees_step r m l m' :
  assertRow is_origin r = true → wfv m → credential_step m l m' → harmless r l → agrees r m → agrees r m'.
Proof.
  intros Hr Hw Hs Hh. unfold agrees. destruct (phase r) eqn:Hp; [done|..].
  - destruct (own_active r) as [[? ?]|] eqn:Ha, (own_pending r) as [[p vp]|] eqn:Hq; try done; eapply enrolling_step; eauto;
      intros id v ->; simpl in Hh; rewrite Hq in Hh; by destruct Hh.
  - destruct (own_active r) as [[a va]|] eqn:Ha; [|done]. eapply active_step; eauto. intros id v ->. simpl in Hh.
    destruct Hh as [Hh _]. destruct (Hh Ha). congruence.
  - destruct (own_active r) as [[a va]|] eqn:Ha; [|done]. destruct (own_pending r) as [[p vp]|] eqn:Hq; [|done].
    eapply rotating_step; eauto.
    + by eapply own_differ.
    + intros id v ->. simpl in Hh. destruct Hh as [Hh _]. destruct (Hh Ha) as [_ Hx]. rewrite Hq in Hx. by injection Hx as <- <-.
    + intros id v ->. simpl in Hh. rewrite Hq in Hh. by destruct Hh.
    + intros ->. simpl in Hh. destruct (Hh Hq) as [_ [t Ht]]. by rewrite Ht.
Qed.
End agreement.

(** * A resident and its Gateway

    The two databases and the requests between them.  Every request sent may be
    delivered any number of times and at any later time, or never; a reply may arrive at
    any later time, or never; other residents and operators make calls in between, also
    while the body of a request is read.  The resident runs in one process.  Of its
    checks of a response only those of the body are made here: the checks of the head
    refuse more. *)


Record system := mkSystem {
  sy_resident : resident;
  sy_gateway : gateway;
  sy_buckets : buckets;
  sy_sent : list http_request;
  sy_replies : list (http_request * http_reply);
}.

Inductive sys_event :=
  | se_enroll_begin (i : option BeginGatewayEnrollment) (e : write_env)
  | se_enroll_send
  | se_enroll_receive (n : nat) (r : response) (b : stream) (e : write_env)
  | se_rotate_begin (e : write_env)
  | se_rotate_send
  | se_rotate_receive (n : nat) (r : response) (b : stream) (e : write_env)
  | se_deliver (n : nat) (w w' : circumstance) (others : list (circumstance * gateway_call)) (now : option Z)
  | se_call (w : circumstance) (c : gateway_call).

(** The response and its body are those of the reply. *)
Definition carries (r : response) (b : stream) (rp : http_reply) : Prop :=
  rs_status r = rp_status rp ∧ ∀ text, readBoundedBody r b = Some text → text = rp_body rp.

Section system.
Context (is_origin : string → bool) (digest : string → list Z) (l : limits) (peer : string).

Definition rotation_request (p : PreparedRotation) : http_request :=
  mkRequest (pr_target p) "POST" peer (Some (pr_authorization p)) (inr (pr_body p)).
Definition enrollment_request (p : PreparedEnrollment) : http_request :=
  mkRequest path_enrollment "POST" peer None (inr (pe_body p)).
Definition set_resident (x : resident) (s : system) : system := mkSystem x (sy_gateway s) (sy_buckets s) (sy_sent s) (sy_replies s).
Definition set_gateway (g : gateway) (s : system) : system := mkSystem (sy_resident s) g (sy_buckets s) (sy_sent s) (sy_replies s).
Definition send (rq : http_request) (s : system) : system :=
  mkSystem (sy_resident s) (sy_gateway s) (sy_buckets s) (rq :: sy_sent s) (sy_replies s).
Abbreviation quiet := (λ d : option Row, d).

Definition sys_run (ev : sys_event) (s : system) : system :=
  let x := sy_resident s in
  match ev with
  | se_enroll_begin i e =>
      set_resident (in_store (beginEnrollment is_origin digest i (we_now e) (we_random_id e) (we_random_secret e)
                     (we_random_request e) (we_commits e) quiet) x).2 s
  | se_enroll_send =>
      match prepared_enrollment is_origin digest x with
      | (inr (inr p), x) => send (enrollment_request p) (set_resident x s)
      | (_, x) => set_resident x s
      end
  | se_enroll_receive n r b e =>
      match sy_replies s !! n with
      | Some (rq, _) =>
          if String.eqb (rq_url rq) path_enrollment then
            match check_body enrolled_status r b with
            | Some result =>
                set_resident (in_store (activateEnrollment is_origin (message_json result) (we_now e) (we_commits e) quiet) x).2 s
            | None => s
            end
          else s
      | None => s
      end
  | se_rotate_begin e =>
      set_resident (in_store (beginRotation is_origin digest (we_now e) (we_random_id e) (we_random_secret e)
                     (we_random_request e) (we_commits e) quiet) x).2 s
  | se_rotate_send =>
      match prepare is_origin digest x with
      | (inr p, x) => send (rotation_request p) (set_resident x s)
      | (_, x) => set_resident x s
      end
  | se_rotate_receive n r b e =>
      match sy_replies s !! n with
      | Some (rq, _) =>
          match exactResidentRoute (rq_url rq) with
          | Some r_rotation =>
              match check_body (expected_status proposal) r b with
              | Some result =>
                  set_resident (in_store (markRotationProposed is_origin (message_json result) (we_now e) (we_commits e) quiet) x).2 s
              | None => s
              end
          | Some r_rotationActivation =>
              match check_body (expected_status activation) r b with
              | Some result =>
                  set_resident (in_store (ResidentStore.activateRotation is_origin (message_json result) (we_now e) (we_commits e) quiet) x).2 s
              | None => s
              end
          | _ => s
          end
      | None => s
      end
  | se_deliver n w w' others now =>
      match sy_sent s !! n with
      | Some rq =>
          let '(rp, m, g) := handleResidentControl digest l w w' (serves digest others) now rq (sy_buckets s) (sy_gateway s) in
          mkSystem x g m (sy_sent s) ((rq, rp) :: sy_replies s)
      | None => s
      end
  | se_call w c => set_gateway (serve digest w c (sy_gateway s)).2 s
  end.

(** ** What is assumed of the others *)

Definition presented (c : gateway_call) : option (string * list Z) :=
  match c with
  | gc_proposeRotation token _ _ _ | gc_activateRotation token _ => parseNodeCredential digest token
  | _ => None
  end.
(** Others do not present the tokens the resident holds. *)
Definition foreign (r : Row) (c : gateway_call) : Prop :=
  call_ok c ∧ ∀ o, presented c = Some o → own_active digest r ≠ Some o ∧ own_pending digest r ≠ Some o.
(** The id drawn for a new credential is not one the Gateway has. *)
Definition unused (e : write_env) (g : gateway) : Prop :=
  ∀ next, createNodeCredential digest (we_random_id e) (we_random_secret e) = Some next → credentials g !! m_id next = None.
Definition row_foreign (x : resident) (c : gateway_call) : Prop := ∀ r, rowdb x = Some r → foreign r c.
Definition admissible_event (ev : sys_event) (s : system) : Prop :=
  match ev with
  | se_enroll_begin _ e | se_rotate_begin e => unused e (sy_gateway s)
  | se_enroll_receive n r b _ | se_rotate_receive n r b _ => ∀ rq rp, sy_replies s !! n = Some (rq, rp) → carries r b rp
  | se_deliver _ _ _ others _ => Forall (λ x, row_foreign (sy_resident s) x.2) others
  | se_call _ c => row_foreign (sy_resident s) c
  | _ => True
  end.
Inductive runs : system → system → Prop :=
  | runs_refl s : runs s s
  | runs_step s ev s' : runs s s' → admissible_event ev s' → runs s (sys_run ev s').
(** At the start: a row that is not enrolled yet, any database of the Gateway. *)
Definition initial (s : system) : Prop :=
  (∃ r, rowdb (sy_resident s) = Some r ∧ assertRow is_origin r = true ∧ phase r = phase_idle)
  ∧ ok (sy_gateway s) ∧ sy_sent s = [] ∧ sy_replies s = [].
End system.
