(* ===== verification/ControlSafety.v ===== *)
(** * A resident is never locked out *)

From S2P Require Import Prelude Effects Protocol Codec JsString JsText Credentials ResidentControl ResidentStore ResidentStoreTheorems ResidentProgress CredentialStore CredentialStoreTheorems CredentialView RateLimiter ControlApi ControlApiFacts ControlExchange RotationController EnrollmentController ControllerTheorems ControlSystem.
Local Open Scope string_scope.
Local Open Scope Z_scope.

Definition revoked_in (m : gmap string cview) (id : string) : Prop := ∃ c, m !! id = Some c ∧ v_state c = s_revoked.
Definition settled (m : gmap string cview) (id : string) : Prop := ∃ c, m !! id = Some c ∧ v_state c ≠ s_pending.
Lemma revoked_lasts m m' id : lasting m m' → revoked_in m id → revoked_in m' id.
Proof.
  intros Hl (c & Hc & Hs). destruct (Hl id c Hc) as (c' & Hc' & [_ _ _ _ Hr]). exists c'. split; [done|].
  rewrite Hs in Hr. destruct (v_state c'); simpl in Hr; [lia..|done].
Qed.
Lemma settled_lasts m m' id : lasting m m' → settled m id → settled m' id.
Proof.
  intros Hl (c & Hc & Hs). destruct (Hl id c Hc) as (c' & Hc' & [_ _ _ _ Hr]). exists c'. split; [done|].
  destruct (v_state c), (v_state c'); simpl in Hr; try done; lia.
Qed.

Section safety.
Context (is_origin : string → bool) (digest : string → list Z) (lim : limits) (peer : string).
Context (digest_ok : ∀ s, Forall is_byte (digest s) ∧ length (digest s) = 32%nat).
Abbreviation assertRow := (assertRow is_origin).
Abbreviation own_active := (own_active digest).
Abbreviation own_pending := (own_pending digest).

(** ** The requests that were sent *)

Definition bearer_of (rq : http_request) : option (string * list Z) :=
  parseNodeBearerAuthorization (default "" (rq_authorization rq)) ≫= parseNodeCredential digest.
(** Each request is of the row as it is, or can do nothing any more. *)
Definition sent_ok (r : Row) (m : gmap string cview) (rq : http_request) : Prop :=
  match exactResidentRoute (rq_url rq) with
  | Some r_enrollment => ∃ b (q : ResidentEnrollmentRequest) v,
      rq_read rq = inr b ∧ decode_message b = Some q ∧ decodeCredentialVerifier (erq_credentialVerifier q) = Some v
      ∧ match phase r with
        | phase_idle => False
        | enrolling => own_pending r = Some (erq_credentialId q, v) ∧ erq_instanceId q = instance_id r
        | _ => True
        end
  | Some r_rotation => ∃ b (q : ResidentRotationRequest) v x,
      rq_read rq = inr b ∧ decode_message b = Some q ∧ decodeCredentialVerifier (rrq_credentialVerifier q) = Some v
      ∧ bearer_of rq = Some x
      ∧ (revoked_in m x.1 ∨ phase r = rotating ∧ own_active r = Some x ∧ own_pending r = Some (rrq_credentialId q, v))
  | Some r_rotationActivation => ∃ x, bearer_of rq = Some x
      ∧ (settled m x.1 ∨ phase r = rotating ∧ is_Some (rotation_proposed_at r) ∧ own_pending r = Some x)
  | None => False
  end.
Lemma sent_lasts r m m' rq : lasting m m' → sent_ok r m rq → sent_ok r m' rq.
Proof.
  intros Hl. unfold sent_ok. destruct (exactResidentRoute (rq_url rq)) as [[]|]; try done.
  - intros (b & q & v & x & H1 & H2 & H3 & H4 & H5). exists b, q, v, x. split_and!; try done.
    destruct H5 as [H5|H5]; [left; by eapply revoked_lasts|by right].
  - intros (x & H1 & H2). exists x. split; [done|]. destruct H2 as [H2|H2]; [left; by eapply settled_lasts|by right].
Qed.
(** What they do is harmless. *)
Lemma sent_harmless r m lb m' rq :
  assertRow r = true → sent_ok r m rq → may_take digest rq lb → credential_step m lb m' → harmless digest r lb.
Proof.
  intros Hr Hsent [->|(route & token & b & Hroute & Hb & Htok & Hmay)] Hs; [done|].
  unfold sent_ok in Hsent. rewrite Hroute in Hsent. destruct Hmay as [->|Hmay]; [done|].
  destruct route; [by destruct Hmay as (id & i & v & ->)|..].
  - destruct Hmay as (o & q & v & Ho & Hq & Hv & ->). destruct Hsent as (b' & q' & v' & x & Hb' & Hq' & Hv' & Hx & Hcase).
    unfold bearer_of in Hx. rewrite (Htok ltac:(done)) in Hx. simpl in Hx. assert (x = o) as -> by congruence.
    assert (b' = b) as -> by congruence. assert (q' = q) as -> by congruence. assert (v' = v) as -> by congruence.
    destruct Hcase as [(c & Hc & Hst)|(Hp & Ha & Hpend)].
    + inversion Hs as [| |id v0 o0 c0 Ho0 Hact Hn| |]; subst. simpl in Hc. congruence.
    + simpl. split; [done|]. rewrite Hpend. destruct o as [a va]. intros [= Heq1 Heq2].
      apply (own_differ digest is_origin r a va (rrq_credentialId q) v Hr Hp Ha Hpend). congruence.
  - destruct Hmay as (o & Ho & ->). destruct Hsent as (x & Hx & Hcase). unfold bearer_of in Hx. rewrite (Htok ltac:(done)) in Hx.
    simpl in Hx. assert (x = o) as -> by congruence. destruct Hcase as [(c & Hc & Hst)|(Hp & Hpr & Hpend)].
    + inversion Hs as [| | |id c0 o0 oc Hid Hpe|]; subst. simpl in Hc. congruence.
    + simpl. auto.
Qed.
Lemma foreign_harmless r c lb : foreign digest r c → may digest c lb → harmless digest r lb.
Proof.
  intros [_ Hf] [->|Hm]; [done|]. destruct c; try done; simpl in *; try (by subst).
  - destruct Hm as (o & Ho & ->). destruct (Hf o Ho) as [H1 H2]. by split.
  - destruct Hm as (o & Ho & ->). destruct (Hf o Ho) as [H1 H2]. done.
Qed.

(** ** The invariant *)

Record inv (s : system) (r : Row) : Prop := {
  i_row : rowdb (sy_resident s) = Some r;
  i_valid : assertRow r = true;
  i_gateway : ok (sy_gateway s);
  i_agrees : agrees digest r (view (sy_gateway s));
  i_sent : ∀ rq, rq ∈ sy_sent s → sent_ok r (view (sy_gateway s)) rq;
  i_replies : ∀ rq rp, (rq, rp) ∈ sy_replies s → rq ∈ sy_sent s ∧ answers digest rq rp (view (sy_gateway s));
  i_timed : timed r;
}.
Lemma answers_lasts rq rp m m' : lasting m m' → answers digest rq rp m → answers digest rq rp m'.
Proof.
  intros Hl Ha Hs. destruct (Ha Hs) as (route & token & b & H1 & H2 & H3 & H4). exists route, token, b.
  split_and!; try done. by eapply told_lasts.
Qed.

(** Steps of the Gateway. *)
Definition gateway_ok (r : Row) (rqs : list http_request) (g : gateway) : Prop :=
  ok g ∧ agrees digest r (view g) ∧ ∀ rq, rq ∈ rqs → sent_ok r (view g) rq.
Lemma gateway_steps r rqs g g' :
  assertRow r = true → gateway_ok r rqs g → ok g' → steps_by (harmless digest r) (view g) (view g') →
  gateway_ok r rqs g' ∧ lasting (view g) (view g').
Proof.
  intros Hr (Hok & Hag & Hsent) Hok' (lb & Hh & Hs). pose proof (view_wf g Hok) as Hw.
  assert (lasting (view g) (view g')) as Hl by (intros id c Hc; by eapply step_lasts). split; [|done]. split_and!; [done| |].
  - by eapply agrees_step.
  - intros rq Hrq. eapply sent_lasts; eauto.
Qed.
Lemma lasting_refl m : lasting m m.
Proof. intros id c Hc. exists c. split; [done|apply lasts_refl]. Qed.
Lemma lasting_trans m1 m2 m3 : lasting m1 m2 → lasting m2 m3 → lasting m1 m3.
Proof.
  intros H12 H23 id c Hc. destruct (H12 id c Hc) as (c' & Hc' & [I V R P S]). destruct (H23 id c' Hc') as (c'' & Hc'' & [I' V' R' P' S']).
  exists c''. split; [done|]. split; [congruence..| |lia]. destruct P as [|P]; [by left|]. rewrite P in P'. destruct P' as [P'|P']; [left|right]; congruence.
Qed.
Lemma serves_ok r rqs cs g :
  assertRow r = true → Forall (λ x, foreign digest r x.2) cs → gateway_ok r rqs g →
  gateway_ok r rqs (serves digest cs g) ∧ lasting (view g) (view (serves digest cs g)).
Proof using digest_ok.
  intros Hr Hf. revert g. induction Hf as [|[w c] cs Hc _ IH]; intros g Hg; [split; [done|apply lasting_refl]|]. simpl.
  assert (∀ s, length (digest s) = 32%nat) as Hlen by (intros s; apply digest_ok).
  destruct (gateway_steps r rqs g (serve digest w c g).2 Hr Hg) as [Hg1 Hl1].
  - by apply (serve_kept digest Hlen w c g); [apply Hc|apply Hg].
  - eapply steps_mono, serve_view, Hg. intros lb. by apply foreign_harmless.
  - destruct (IH _ Hg1) as [Hg2 Hl2]. split; [done|]. by eapply lasting_trans.
Qed.

Lemma inv_call w c s r : row_foreign digest (sy_resident s) c → inv s r → inv (set_gateway (serve digest w c (sy_gateway s)).2 s) r.
Proof using digest_ok.
  intros Hf [H1 H2 H3 H4 H5 H6 H7]. destruct (serves_ok r (sy_sent s) [(w, c)] (sy_gateway s) H2) as [(Hok & Hag & Hs) Hl].
  - constructor; [by apply Hf|constructor].
  - by split_and!.
  - split; try done. simpl. intros rq rp Hin. destruct (H6 rq rp Hin). split; [done|]. by eapply answers_lasts.
Qed.
Lemma inv_deliver n w w' others now s r :
  Forall (λ x, row_foreign digest (sy_resident s) x.2) others → inv s r →
  inv (sys_run is_origin digest lim peer (se_deliver n w w' others now) s) r.
Proof using digest_ok.
  intros Hf Hinv. pose proof Hinv as [H1 H2 H3 H4 H5 H6 H7]. cbn [sys_run]. destruct (sy_sent s !! n) as [rq|] eqn:Hrq; [|done].
  apply list_elem_of_lookup_2 in Hrq.
  destruct (handleResidentControl _ _ _ _ _ _ _ _ _) as [[rp m] g] eqn:Hh.
  assert (Forall (λ x, foreign digest r x.2) others) as Hf' by (eapply Forall_impl; [exact Hf|]; intros x Hx; by apply Hx).
  assert (∀ s, length (digest s) = 32%nat) as Hlen by (intros; apply digest_ok).
  apply handle_told in Hh as (g1 & g2 & Hok1 & Hv1 & Hg2 & Hok' & Hst & Hans); [|done|].
  2:{ intros d Hd. apply (serves_kept digest Hlen others d); [|done]. eapply Forall_impl; [exact Hf'|]. intros x Hx. apply Hx. }
  assert (gateway_ok r (sy_sent s) g1) as Hgo1 by (split_and!; [done|by rewrite Hv1..]).
  assert (gateway_ok r (sy_sent s) g2 ∧ lasting (view (sy_gateway s)) (view g2)) as [Hgo2 Hl2].
  { rewrite <-Hv1. destruct Hg2 as [->| ->]; [split; [done|apply lasting_refl]|]. by apply serves_ok. }
  destruct (gateway_steps r (sy_sent s) g2 g H2 Hgo2 Hok') as [(_ & Hag & Hs) Hl].
  { destruct Hst as (lb & Hmay & Hst). exists lb. split; [|done].
    by apply (sent_harmless r (view g2) lb (view g) rq H2); [apply Hgo2|..]. }
  split; try done. simpl. intros rq' rp' Hin. apply elem_of_cons in Hin as [[= -> ->]|Hin]; [done|].
  destruct (H6 rq' rp' Hin). split; [done|]. eapply answers_lasts; [|done]. by eapply lasting_trans.
Qed.

(** ** Steps of the resident *)

Lemma own_pending_id r p : assertRow r = true → pending_credential_id r = Some p → ∃ v, own_pending r = Some (p, v).
Proof.
  intros Hr Hp. unfold ResidentStore.assertRow in Hr. guards. unfold ControlSystem.own_pending, parseNodeCredential, parse.
  rewrite Hp in *. destruct (pending_credential_token r) as [t|]; [|done]. simpl in *.
  destruct (credential_parts NODE t) as [[i x]|]; [|done]. guards. subst. eauto.
Qed.
Lemma own_active_id r a : assertRow r = true → active_credential_id r = Some a → ∃ v, own_active r = Some (a, v).
Proof.
  intros Hr Hp. unfold ResidentStore.assertRow in Hr. guards. unfold ControlSystem.own_active, parseNodeCredential, parse.
  rewrite Hp in *. destruct (active_credential_token r) as [t|]; [|done]. simpl in *.
  destruct (credential_parts NODE t) as [[i x]|]; [|done]. guards. subst. eauto.
Qed.
(** The row takes a step, the Gateway does not. *)
Lemma inv_row s r r' S :
  inv s r → later is_origin (Some r) (Some r') → agrees digest r' (view (sy_gateway s)) →
  (∀ rq, sent_ok r (view (sy_gateway s)) rq → sent_ok r' (view (sy_gateway s)) rq) →
  inv (set_resident (mkResident (Some r') S) s) r'.
Proof. intros [H1 H2 H3 H4 H5 H6 H7] Hl Ha Hs. destruct (Hl H2). split; simpl; auto. Qed.
Lemma inv_secrets s r S : inv s r → inv (set_resident (mkResident (rowdb (sy_resident s)) S) s) r.
Proof. intros [H1 H2 H3 H4 H5 H6 H7]. split; simpl; auto. Qed.
(** The requests that can do nothing stay so. *)
Lemma sent_moved r r' m rq :
  phase r' ≠ phase_idle → (phase r' = enrolling → phase r = phase_idle) →
  (phase r = rotating → ∀ x, own_active r = Some x → revoked_in m x.1) →
  (phase r = rotating → ∀ x, own_pending r = Some x → settled m x.1) → sent_ok r m rq → sent_ok r' m rq.
Proof.
  intros Hne He Ha Hp. unfold sent_ok. destruct (exactResidentRoute (rq_url rq)) as [[]|]; try done.
  - intros (b & q & v & H1 & H2 & H3 & H4). exists b, q, v. split_and!; try done. destruct (phase r') eqn:Hph; try done.
    by rewrite (He eq_refl) in H4.
  - intros (b & q & v & x & H1 & H2 & H3 & H4 & [H5|(H5 & H6 & H7)]); exists b, q, v, x; split_and!; auto.
  - intros (x & H1 & [H2|(H2 & H3 & H4)]); exists x; auto.
Qed.
Lemma inv_rotate_begin e s r S d' res :
  unused digest e (sy_gateway s) → inv s r →
  beginRotation is_origin digest (we_now e) (we_random_id e) (we_random_secret e) (we_random_request e) (we_commits e) (λ d, d) (Some r)
    = (res, d') →
  ∃ r', d' = Some r' ∧ inv (set_resident (mkResident d' S) s) r'.
Proof.
  intros Hu Hinv H. pose proof Hinv as [H1 H2 H3 H4 H5 H6 H7].
  assert (later is_origin (Some r) d') as Hlater.
  { pose proof (advances_beginRotation is_origin digest (λ d, d) (λ d _, later_refl is_origin d) (we_now e) (we_random_id e)
      (we_random_secret e) (we_random_request e) (we_commits e) (Some r) H2) as Hl. by rewrite H in Hl. }
  apply beginRotation_inv in H as [->|(next & rid & t & Hn & Hp & ->)]; [| |done].
  { exists r. split; [done|]. rewrite <-H1. by apply inv_secrets. }
  eexists. split; [done|]. pose proof (e_valid _ _ _ (Hlater H2)) as Hv. apply (inv_row s r); [done|done|..].
  - destruct (own_pending_id _ _ Hv eq_refl) as (vp & Hvp). unfold agrees in *. simpl. rewrite Hp in H4. rewrite Hvp.
    change (own_active (to_rotating rid next t r)) with (own_active r). destruct (own_active r) as [[a va]|]; [|done].
    destruct H4 as [Hg Hno]. assert (view (sy_gateway s) !! m_id next = None) as Hnone by (rewrite view_lookup, Hu by done; done).
    split; try done; try congruence; [intros j c Hc Hr; by destruct (Hno j c Hc)|]. intros _. split; [done|]. congruence.
  - intros rq. apply sent_moved; simpl; try done; congruence.
Qed.

(** What a result that was accepted is. *)
Lemma check_body_inv {A} `{Message A} expected r b rp (result : A) :
  (∀ a, expected a = 200 ∨ expected a = 201) → carries r b rp → check_body expected r b = Some result →
  succeeded rp ∧ decode_message (rp_body rp) = Some result.
Proof.
  intros He [Hst Hb] H'. unfold check_body in H'. destruct (readBoundedBody r b) as [text|] eqn:Ht; [|done]. simpl in H'.
  rewrite (Hb text eq_refl) in *. destruct (decode_message (rp_body rp)) as [a|] eqn:Hd; [|done]. cbn [mbind option_bind] in H'.
  destruct (serialize_message (message_json a)) as [cb|]; [|done]. cbn [mbind option_bind] in H'. case_match eqn:Hc; [|done].
  injection H' as <-. guards. split; [|done]. unfold succeeded. rewrite <-Hst. destruct (He a); lia.
Qed.
Lemma decoded_wire {A} `{Message A} (res result : A) b :
  b = wire (message_json res) → well_formed res → decode_message b = Some result → result = res.
Proof. intros -> Hw Hd. rewrite (proj2 (message_reads_back res Hw)) in Hd. by injection Hd as <-. Qed.
Lemma exact_result {A} `{Message A} (res result : A) d d' :
  well_formed res → exact_message (message_json res) d = (inr result, d') → result = res.
Proof. intros Hw He. rewrite (exact_message_runs res Hw) in He. by injection He as <-. Qed.
Lemma expected_statuses step a : expected_status step a = 200 ∨ expected_status step a = 201.
Proof. destruct step; simpl; [destruct (rrs_replayed a)|]; auto. Qed.
Lemma enrolled_statuses a : enrolled_status a = 200 ∨ enrolled_status a = 201.
Proof. unfold enrolled_status. destruct (ers_replayed a); auto. Qed.

Ltac op_later lem Hl H :=
  match type of H with _ (Some ?r) = (_, ?d') =>
    assert (later is_origin (Some r) d') as Hl by (pose proof (lem (Some r)) as Hl; rewrite H in Hl; by apply Hl) end.

Lemma inv_enroll_begin i e s r S d' res :
  unused digest e (sy_gateway s) → inv s r →
  beginEnrollment is_origin digest i (we_now e) (we_random_id e) (we_random_secret e) (we_random_request e) (we_commits e) (λ d, d) (Some r)
    = (res, d') →
  ∃ r', d' = Some r' ∧ inv (set_resident (mkResident d' S) s) r'.
Proof.
  intros Hu Hinv H. pose proof Hinv as [H1 H2 H3 H4 H5 H6 H7].
  op_later (advances_beginEnrollment is_origin digest (λ d, d) (λ d _, later_refl is_origin d) i (we_now e) (we_random_id e)
      (we_random_secret e) (we_random_request e) (we_commits e)) Hlater H.
  apply beginEnrollment_inv in H as [->|(i' & next & rid & t & Hn & Hp & ->)]; [| |done].
  { exists r. split; [done|]. rewrite <-H1. by apply inv_secrets. }
  eexists. split; [done|]. pose proof (e_valid _ _ _ (Hlater H2)) as Hv. apply (inv_row s r); [done|done|..].
  - destruct (own_pending_id _ _ Hv eq_refl) as (vp & Hvp). unfold agrees. simpl. rewrite Hvp.
    assert (view (sy_gateway s) !! m_id next = None) as Hnone by (rewrite view_lookup, Hu by done; done).
    destruct (own_active (to_enrolling i' rid next t r)) as [[? ?]|]; intros (c & Hc & _); congruence.
  - intros rq. apply sent_moved; simpl; try done; congruence.
Qed.
(** The proposal was answered. *)
Lemma inv_proposed rq rp rs st e result s r S d' res :
  inv s r → (rq, rp) ∈ sy_replies s → exactResidentRoute (rq_url rq) = Some r_rotation → carries rs st rp →
  check_body (expected_status proposal) rs st = Some result →
  markRotationProposed is_origin (message_json result) (we_now e) (we_commits e) (λ d, d) (Some r) = (res, d') →
  ∃ r', d' = Some r' ∧ inv (set_resident (mkResident d' S) s) r'.
Proof.
  intros Hinv Hin Hroute Hcar Hchk H. pose proof Hinv as [H1 H2 H3 H4 H5 H6 H7].
  apply (check_body_inv _ _ _ rp) in Hchk as [Hsucc Hdec]; [|apply expected_statuses|done].
  destruct (H6 rq rp Hin) as [Hsent Hans]. destruct (Hans Hsucc) as (route & token & b & Hr' & Hb & Htok & Htold).
  assert (route = r_rotation) as -> by congruence. destruct Htold as (q & v & wres & o & Hq & Hv & Ho & Hrep & Hwf & Hc & Hprev & Hprop).
  pose proof (decoded_wire _ _ _ Hrep Hwf Hdec) as ->.
  op_later (advances_markRotationProposed is_origin (λ d, d) (λ d _, later_refl is_origin d) (message_json wres) (we_now e) (we_commits e)) Hlater H.
  apply markRotationProposed_inv in H as [->|(wres' & a & p & t & Hex & Hrot & Hnm & Hn & ->)]; [| |done].
  { exists r. split; [done|]. rewrite <-H1. by apply inv_secrets. }
  apply exact_result in Hex as ->; [|done]. destruct Hnm as (N1 & N2 & N3). destruct Hrot as (Hp & Ha & Hpe).
  eexists. split; [done|]. pose proof (e_valid _ _ _ (Hlater H2)) as Hvd. apply (inv_row s r); [done|done|..].
  - destruct (own_active_id r a H2 Ha) as [va Hva]. destruct (own_pending_id r p H2 Hpe) as [vp Hvp].
    unfold agrees in *. change (own_active (to_proposed t r)) with (own_active r). change (own_pending (to_proposed t r)) with (own_pending r).
    change (phase (to_proposed t r)) with (phase r). change (instance_id (to_proposed t r)) with (instance_id r). simpl.
    rewrite Hp, Hva, Hvp in *. rewrite Hn in H4. destruct H4 as [Honly Hnob Hun _]. destruct (Hun eq_refl) as [Hg Hst].
    destruct Hprop as (c & Hcc & _ & _ & Hrc). assert (o.1 = a) as Hoa by congruence.
    assert (v_rotates c = Some a) as Hrca by congruence. rewrite N2 in Hcc.
    split; try done. intros _. exists c. split_and!; try done. left. split; [done|]. by apply Hst.
  - intros rq'. unfold sent_ok. change (own_active (to_proposed t r)) with (own_active r).
    change (own_pending (to_proposed t r)) with (own_pending r). change (phase (to_proposed t r)) with (phase r).
    destruct (exactResidentRoute (rq_url rq')) as [[]|]; try done.
    intros (x & Hx & [Hx2|(Hx2 & Hx3 & Hx4)]); exists x; (split; [done|]); [by left|]. destruct Hx3 as [? Hx3]. congruence.
Qed.
(** The activation was answered. *)
Lemma inv_rotated rq rp rs st e result s r S d' res :
  inv s r → (rq, rp) ∈ sy_replies s → exactResidentRoute (rq_url rq) = Some r_rotationActivation → carries rs st rp →
  check_body (expected_status activation) rs st = Some result →
  ResidentStore.activateRotation is_origin (message_json result) (we_now e) (we_commits e) (λ d, d) (Some r) = (res, d') →
  ∃ r', d' = Some r' ∧ inv (set_resident (mkResident d' S) s) r'.
Proof.
  intros Hinv Hin Hroute Hcar Hchk H. pose proof Hinv as [H1 H2 H3 H4 H5 H6 H7].
  apply (check_body_inv _ _ _ rp) in Hchk as [Hsucc Hdec]; [|apply expected_statuses|done].
  destruct (H6 rq rp Hin) as [Hsent Hans]. destruct (Hans Hsucc) as (route & token & b & Hr' & Hb & Htok & Htold).
  assert (route = r_rotationActivation) as -> by congruence. destruct Htold as (wres & Hrep & Hwf & Hact).
  pose proof (decoded_wire _ _ _ Hrep Hwf Hdec) as ->.
  op_later (advances_activateRotation is_origin (λ d, d) (λ d _, later_refl is_origin d) (message_json wres) (we_now e) (we_commits e)) Hlater H.
  apply activateRotation_inv in H as [->|(wres' & a & p & t & Hex & Hrot & Hnm & Hn & ->)]; [| |done].
  { exists r. split; [done|]. rewrite <-H1. by apply inv_secrets. }
  apply exact_result in Hex as ->; [|done]. destruct Hnm as (N1 & N2 & N3). destruct Hrot as (Hp & Ha & Hpe). destruct Hn as [u Hn].
  eexists. split; [done|]. pose proof (e_valid _ _ _ (Hlater H2)) as Hvd.
  destruct (own_active_id r a H2 Ha) as [va Hva]. destruct (own_pending_id r p H2 Hpe) as [vp Hvp].
  unfold agrees in H4. rewrite Hp, Hva, Hvp, Hn in H4. destruct H4 as [Honly Hnob _ Hpr].
  destruct (Hpr eq_refl) as (c & Hc & Hrc & Hcase). destruct Hact as (c0 & oc & Hc0 & _ & _ & Hoc & Hocr).
  rewrite N2 in Hc0, Hocr. rewrite N3 in Hoc. pose proof (view_wf _ H3) as Hw. pose proof (wf_replaced _ Hw a oc p Hoc Hocr) as Hrev.
  assert (standing c s_active) as Hstd.
  { destruct Hcase as [[(ac & Hac & _ & _ & Hs) _]|[_ Hs]]; [|done]. assert (ac = oc) as -> by congruence.
    destruct Hs as [Hs|[_ Hs]]; congruence. }
  destruct (Honly p c Hc Hrc) as (_ & Hci & Hcv).
  apply (inv_row s r); [done|done|..].
  - unfold agrees. change (own_active (to_active_rotated t r)) with (own_pending r). simpl. rewrite Hvp. split; [|by apply (Hnob c)].
    exists c. done.
  - intros rq'. apply sent_moved; simpl; try done; intros _ x Hx.
    + assert (x = (a, va)) as -> by congruence. exists oc. done.
    + assert (x = (p, vp)) as -> by congruence. exists c. split; [done|]. destruct Hstd as [Hx'|[Hx' _]]; congruence.
Qed.
(** The enrollment was answered. *)
Lemma inv_enrolled rq rp rs st e result s r S d' res :
  inv s r → (rq, rp) ∈ sy_replies s → exactResidentRoute (rq_url rq) = Some r_enrollment → carries rs st rp →
  check_body enrolled_status rs st = Some result →
  activateEnrollment is_origin (message_json result) (we_now e) (we_commits e) (λ d, d) (Some r) = (res, d') →
  ∃ r', d' = Some r' ∧ inv (set_resident (mkResident d' S) s) r'.
Proof.
  intros Hinv Hin Hroute Hcar Hchk H. pose proof Hinv as [H1 H2 H3 H4 H5 H6 H7].
  apply (check_body_inv _ _ _ rp) in Hchk as [Hsucc Hdec]; [|apply enrolled_statuses|done].
  destruct (H6 rq rp Hin) as [Hsent Hans]. destruct (Hans Hsucc) as (route & token & b & Hr' & Hb & Htok & Htold).
  assert (route = r_enrollment) as -> by congruence. destruct Htold as (q & v & wres & Hq & Hv & Hrep & Hwf & Hi & Hc & Henr).
  pose proof (decoded_wire _ _ _ Hrep Hwf Hdec) as ->.
  op_later (advances_activateEnrollment is_origin (λ d, d) (λ d _, later_refl is_origin d) (message_json wres) (we_now e) (we_commits e)) Hlater H.
  apply activateEnrollment_inv in H as [->|(wres' & p & t & Hex & Hp & Hpe & N1 & N2 & ->)]; [| |done].
  { exists r. split; [done|]. rewrite <-H1. by apply inv_secrets. }
  apply exact_result in Hex as ->; [|done]. eexists. split; [done|]. pose proof (e_valid _ _ _ (Hlater H2)) as Hvd.
  pose proof (H5 rq Hsent) as Hs. unfold sent_ok in Hs. rewrite Hroute, Hp in Hs.
  destruct Hs as (b' & q' & v' & Hb' & Hq' & Hv' & Hown & Hins).
  assert (b' = b) as -> by congruence. assert (q' = q) as -> by congruence. assert (v' = v) as -> by congruence.
  apply (inv_row s r); [done|done|..].
  - unfold agrees in *. change (own_active (to_active_enrolled t r)) with (own_pending r). simpl. rewrite Hp, Hown in H4. rewrite Hown.
    rewrite Hins in Henr. destruct (own_active r) as [[? ?]|]; by apply H4.
  - intros rq'. apply sent_moved; simpl; try done; congruence.
Qed.

(** A request is sent. *)
Lemma bearer_token t i x : credential_parts NODE t = Some (i, x) →
  ∀ url m b, bearer_of (mkRequest url m peer (Some ("Bearer " +:+ t)) b) = Some (i, digest x).
Proof.
  intros Ht url m b. unfold bearer_of. simpl. rewrite (bearer_roundtrip t ("Bearer " +:+ t)).
  - simpl. unfold parseNodeCredential, parse. by rewrite Ht.
  - unfold formatNodeBearerAuthorization. by rewrite Ht.
Qed.
Lemma inv_send s r x rq :
  inv s r → rowdb x = Some r → sent_ok r (view (sy_gateway s)) rq → inv (send rq (set_resident x s)) r.
Proof.
  intros [H1 H2 H3 H4 H5 H6 H7] Hx Hrq. split; simpl; auto.
  - intros rq' Hin. apply elem_of_cons in Hin as [->|Hin]; auto.
  - intros rq' rp Hin. destruct (H6 rq' rp Hin). split; [by apply elem_of_cons; right|done].
Qed.
Lemma own_pending_of r t p x : pending_credential_token r = Some t → credential_parts NODE t = Some (p, x) → own_pending r = Some (p, digest x).
Proof. intros Ht Hx. unfold ControlSystem.own_pending, parseNodeCredential, parse. rewrite Ht. simpl. by rewrite Hx. Qed.
Lemma own_active_of r t p x : active_credential_token r = Some t → credential_parts NODE t = Some (p, x) → own_active r = Some (p, digest x).
Proof. intros Ht Hx. unfold ControlSystem.own_active, parseNodeCredential, parse. rewrite Ht. simpl. by rewrite Hx. Qed.
Lemma inv_rotate_send s r : inv s r → inv (sys_run is_origin digest lim peer se_rotate_send s) r.
Proof using digest_ok.
  intros Hinv. cbn [sys_run]. pose proof (row_kept_prepare is_origin digest (sy_resident s)) as Hk.
  destruct (prepare is_origin digest (sy_resident s)) as [[e|p] x] eqn:Hpr; simpl in Hk.
  - destruct x as [d S]. simpl in Hk. subst d. by apply inv_secrets.
  - pose proof Hinv as [H1 H2 H3 H4 H5 H6 H7]. apply prepare_inv in Hpr
      as (r0 & e & rid & a & ta & sa & q & tq & sq & Hr0 & _ & Hro & _ & Hcase); [|done].
    assert (r0 = r) as -> by congruence. destruct Hro as [(Hp & Ha & Hq) _ _ Hta Htq Hxa Hxq _].
    pose proof (own_active_of r ta a sa Hta Hxa) as Hoa. pose proof (own_pending_of r tq q sq Htq Hxq) as Hop.
    apply inv_send; [done|congruence|]. unfold sent_ok. destruct Hcase as [(Hn & v & Hv & Hw & ->)|[Hs ->]]; simpl.
    + exists (wire (message_json (mkRotationRequest q v rid))), (mkRotationRequest q v rid), (digest sq), (a, digest sa).
      split_and!; try done; [by apply (message_reads_back (mkRotationRequest q v rid))|by apply bearer_token|]. right. done.
    + exists (q, digest sq). split; [by apply bearer_token|]. right. done.
Qed.
Lemma inv_enroll_send s r : inv s r → inv (sys_run is_origin digest lim peer se_enroll_send s) r.
Proof using digest_ok.
  intros Hinv. cbn [sys_run]. pose proof (row_kept_prepared is_origin digest (sy_resident s)) as Hk.
  destruct (prepared_enrollment is_origin digest (sy_resident s)) as [[e|[c|p]] x] eqn:Hpr; simpl in Hk.
  1,2: destruct x as [d S]; simpl in Hk; subst d; by apply inv_secrets.
  pose proof Hinv as [H1 H2 H3 H4 H5 H6 H7]. apply prepared_enrollment_inv in Hpr
    as (r0 & e & n & g & rid & q & tq & sq & v & Hr0 & _ & Hen & Hv & Hw & _ & ->); [|done].
  assert (r0 = r) as -> by congruence. destruct Hen as [Hp _ _ _ _ Hq Htq Hxq _].
  apply inv_send; [done|congruence|]. unfold sent_ok. simpl.
  exists (wire (message_json (mkEnrollmentRequest g (instance_id r) n q v rid))), (mkEnrollmentRequest g (instance_id r) n q v rid), (digest sq).
  rewrite Hp. split_and!; try done; [by apply (message_reads_back (mkEnrollmentRequest g (instance_id r) n q v rid))|].
  by apply (own_pending_of r tq).
Qed.

(** ** Every event keeps the invariant *)

Lemma in_store_state {A} (m : eff (option Row) resident_exn A) x r :
  rowdb x = Some r → ∃ res d', m (Some r) = (res, d') ∧ (in_store m x).2 = mkResident d' (secrets x).
Proof. intros Hx. unfold in_store. rewrite Hx. destruct (m (Some r)) as [[] d']; eauto. Qed.
Lemma inv_event ev s r :
  admissible_event digest ev s → inv s r → ∃ r', inv (sys_run is_origin digest lim peer ev s) r'.
Proof using digest_ok.
  intros Hadm Hinv. pose proof (i_row _ _ Hinv) as Hrow. destruct ev as [i e| |n rs st e|e| |n rs st e|n w w' others now|w c].
  - cbn [sys_run]. match goal with |- context [in_store ?m ?x] => destruct (in_store_state m x r Hrow) as (res & d' & Hm & ->) end.
    destruct (inv_enroll_begin i e s r (secrets (sy_resident s)) d' res Hadm Hinv Hm) as (r' & _ & ?). eauto.
  - exists r. by apply inv_enroll_send.
  - cbn [sys_run]. destruct (sy_replies s !! n) as [[rq rp]|] eqn:Hn; [|eauto]. pose proof (Hadm rq rp Hn) as Hcar.
    apply list_elem_of_lookup_2 in Hn. destruct (String.eqb_spec (rq_url rq) path_enrollment) as [Hurl|]; [|eauto].
    destruct (check_body enrolled_status rs st) as [result|] eqn:Hc; [|eauto].
    match goal with |- context [in_store ?m ?x] => destruct (in_store_state m x r Hrow) as (res & d' & Hm & ->) end.
    destruct (inv_enrolled rq rp rs st e result s r (secrets (sy_resident s)) d' res) as (r' & _ & ?); eauto. by rewrite Hurl.
  - cbn [sys_run]. match goal with |- context [in_store ?m ?x] => destruct (in_store_state m x r Hrow) as (res & d' & Hm & ->) end.
    destruct (inv_rotate_begin e s r (secrets (sy_resident s)) d' res Hadm Hinv Hm) as (r' & _ & ?). eauto.
  - exists r. by apply inv_rotate_send.
  - cbn [sys_run]. destruct (sy_replies s !! n) as [[rq rp]|] eqn:Hn; [|eauto]. pose proof (Hadm rq rp Hn) as Hcar.
    apply list_elem_of_lookup_2 in Hn. destruct (exactResidentRoute (rq_url rq)) as [[]|] eqn:Hroute; try by eauto.
    + destruct (check_body (expected_status proposal) rs st) as [result|] eqn:Hc; [|eauto].
      match goal with |- context [in_store ?m ?x] => destruct (in_store_state m x r Hrow) as (res & d' & Hm & ->) end.
      destruct (inv_proposed rq rp rs st e result s r (secrets (sy_resident s)) d' res) as (r' & _ & ?); eauto.
    + destruct (check_body (expected_status activation) rs st) as [result|] eqn:Hc; [|eauto].
      match goal with |- context [in_store ?m ?x] => destruct (in_store_state m x r Hrow) as (res & d' & Hm & ->) end.
      destruct (inv_rotated rq rp rs st e result s r (secrets (sy_resident s)) d' res) as (r' & _ & ?); eauto.
  - exists r. by apply inv_deliver.
  - exists r. by apply inv_call.
Qed.
Lemma inv_runs s s' : initial is_origin s → runs is_origin digest lim peer s s' → ∃ r, inv s' r.
Proof using digest_ok.
  intros Hi Hr. induction Hr as [s|s ev s' _ IH Hadm].
  - destruct Hi as ((r & Hr & Hv & Hp) & Hok & Hs & Hre). exists r. split; try done.
    + unfold agrees. by rewrite Hp.
    + intros rq. rewrite Hs. intros Hin. by apply not_elem_of_nil in Hin.
    + intros rq rp. rewrite Hre. intros Hin. by apply not_elem_of_nil in Hin.
    + intros t Ht. unfold ResidentStore.assertRow in Hv. unfold shape in Hv. rewrite Hp, Ht in Hv. simpl in Hv. rewrite !andb_false_r in Hv. done.
  - destruct (IH Hi) as [r Hinv]. by apply (inv_event ev s' r).
Qed.

(** ** Who is let in *)

(** The world is kind to a call. *)
Record kind_to (w : circumstance) (t : Z) : Prop := {
  kw_now : w_now w = Some t;
  kw_time : isSafeInteger t = true;
  kw_commits : w_commits w = true;
  kw_audits : w_audits w = true;
  kw_after : w_after w = true;
}.
Lemma authenticateNode_runs w z t id c g :
  kind_to w z → ok g → parseNodeCredential digest t = Some (id, c_verifier c) → credentials g !! id = Some c → c_state c = s_active →
  ∃ g', authenticateNode digest w t g = (inr (Some (mkNode (c_instance_id c) id)), g').
Proof.
  intros [Hn Hz Hco _ Haf] Hok Hp Hc Hs. destruct (ok_credential g Hok id c Hc) as [O1 O2 O3 [i Hi] O5 O6].
  unfold authenticateNode. rewrite Hp. unfold mbind at 1, eff_bind at 1. simpl. rewrite Hc. simpl. rewrite Hi. simpl.
  unfold verifierMatches. rewrite O2, bool_decide_eq_true_2 by done. rewrite Hs. simpl. rewrite (ok_live g Hok _ _ Hi). simpl.
  unfold currentTime. rewrite Hn, Hz. unfold sql, require. rewrite Hco, Haf. unfold_eff.
  destruct (wp_returns (update_credential id (λ _, true) (used z)) (λ _ _, True) g) as ([] & g' & -> & _); [|eauto].
  eapply inner_update; try done.
  - split; simpl; auto. lia.
  - simpl. intros n Hr. destruct (O6 n Hr) as [? _]. congruence.
  - intros j c' Hj Hne. unfold clashes. simpl. by eapply (ok_unique g Hok id j).
Qed.
(** A token is let in as an instance, whenever the call is carried out. *)
Definition lets_in (g : gateway) (t i : string) : Prop :=
  ∀ w z, kind_to w z → ∃ id g', authenticateNode digest w t g = (inr (Some (mkNode i id)), g').
(** The operator revoked the credential of the token. *)
Definition withdrawn (g : gateway) (t : string) : Prop :=
  ∃ id c, parseNodeCredential digest t = Some (id, c_verifier c) ∧ credentials g !! id = Some c
    ∧ c_state c = s_revoked ∧ c_replaced_by c = None.
Lemma standing_let_in g t i id v c s :
  ok g → parseNodeCredential digest t = Some (id, v) → view g !! id = Some c → v_verifier c = v → v_instance c = i →
  standing c s → s = s_active → lets_in g t i ∨ withdrawn g t.
Proof.
  intros Hok Hp Hc Hv Hi Hst ->. rewrite view_lookup in Hc. destruct (credentials g !! id) as [x|] eqn:Hx; [|done].
  injection Hc as <-. simpl in Hv, Hi. subst v i. destruct Hst as [Hs|[Hs Hr]].
  - left. intros w z Hw. destruct (authenticateNode_runs w z t id x g Hw Hok Hp Hx Hs) as (g' & Hg'). eauto.
  - right. exists id, x. done.
Qed.

(** C2. A resident is never locked out: whatever is lost, repeated or delayed between the
    resident and its Gateway, whatever other residents and operators do, and whichever
    transactions fail on either side, as long as nobody else presents the tokens the
    resident holds and its new credential ids are unused, the Gateway lets the resident
    in as its own instance with the token of its active phase, and during a rotation
    with the active token or (once the proposal was recorded) with the pending one,
    unless the operator has revoked that credential. *)
Theorem never_locked_out s0 s r :
  initial is_origin s0 → runs is_origin digest lim peer s0 s → rowdb (sy_resident s) = Some r →
  let g := sy_gateway s in
  let i := instance_id r in
  match phase r with
  | active => ∃ t, active_credential_token r = Some t ∧ (lets_in g t i ∨ withdrawn g t)
  | rotating => ∃ t t', active_credential_token r = Some t ∧ pending_credential_token r = Some t'
      ∧ (lets_in g t i ∨ withdrawn g t ∨ is_Some (rotation_proposed_at r) ∧ (lets_in g t' i ∨ withdrawn g t'))
  | _ => True
  end.
Proof using digest_ok.
  intros Hi Hr Hrow g i. destruct (inv_runs s0 s Hi Hr) as [r' [H1 H2 H3 H4 H5 H6 H7]]. assert (r' = r) as -> by congruence.
  unfold agrees, ControlSystem.own_active, ControlSystem.own_pending in H4.
  destruct (phase r) eqn:Hp; [done|done|..].
  - destruct (active_credential_token r) as [t|]; [|done]. simpl in H4.
    destruct (parseNodeCredential digest t) as [[a va]|] eqn:Ht; [|done]. destruct H4 as [(c & Hc & Hci & Hcv & Hst) _].
    exists t. split; [done|]. by eapply standing_let_in.
  - destruct (active_credential_token r) as [t|]; [|done]. simpl in H4.
    destruct (parseNodeCredential digest t) as [[a va]|] eqn:Ht; [|done].
    destruct (pending_credential_token r) as [t'|]; [|done]. simpl in H4.
    destruct (parseNodeCredential digest t') as [[p vp]|] eqn:Ht'; [|done]. destruct H4 as [Honly Hnob Hun Hpr].
    exists t, t'. split_and!; [done..|]. assert (good (view g) i a va → lets_in g t i ∨ withdrawn g t) as Hgood.
    { intros (c & Hc & Hci & Hcv & Hst). by eapply standing_let_in. }
    destruct (rotation_proposed_at r) as [u|].
    + destruct (Hpr eq_refl) as (c & Hc & Hrc & [[Hg _]|[_ Hst]]); [destruct (Hgood Hg); auto|].
      destruct (Honly p c Hc Hrc) as (_ & Hci & Hcv). right. right. split; [by eexists|]. by eapply standing_let_in.
    + destruct (Hgood (proj1 (Hun eq_refl))); auto.
Qed.
End safety.
