(* ===== verification/RotationLive.v ===== *)
(** * Requests of a rotation that succeed

    When both databases work and the operator has not interfered, the Gateway answers the
    proposal and the activation, and the resident accepts what an honest transport brings. *)

From S2P Require Import Prelude Effects Protocol Codec CodecFacts JsString JsText Credentials ResidentControl ResidentStore ResidentStoreTheorems ResidentProgress CredentialStore CredentialStoreTheorems CredentialView RateLimiter ControlApi ControlApiFacts ControlExchange RotationController EnrollmentController ControllerTheorems ControlSystem ControlSafety.
Local Open Scope string_scope.
Local Open Scope Z_scope.

(** A response as an honest transport gives it. *)
Record delivers (target : string) (rp : http_reply) (r : response) (b : stream) : Prop := {
  dl_redirected : rs_redirected r = false;
  dl_opaque : rs_opaque r = false;
  dl_url : rs_url r = "" ∨ rs_url r = target;
  dl_encoding : rs_encoding r = None;
  dl_status : rs_status r = rp_status rp;
  dl_type : rs_type r = Some JSON_TYPE;
  dl_length : exactContentLength (rs_length r) = Some None
              ∨ exactContentLength (rs_length r) = Some (Some (bytes (b_text (rp_body rp))));
  dl_body : st_body b = true ∧ st_fails b = false;
  dl_chunks : read_chunks 0 (st_chunks b) = if bytes (b_text (rp_body rp)) <=? bodyBytes then Some (b_text (rp_body rp)) else None;
  dl_parsed : st_parsed b = b_parsed (rp_body rp);
}.

Section live.
Context (is_origin : string → bool) (digest : string → list Z) (lim : limits) (peer : string).
Context (origin_ascii : ∀ s, is_origin s = true → all_chars (ascii_in 33 126) s = true).
Context (digest_ok : ∀ s, Forall is_byte (digest s) ∧ length (digest s) = 32%nat).

(** ** The answer is accepted *)

Lemma head_passes target rp r b :
  delivers target rp r b → succeeded rp → bytes (b_text (rp_body rp)) ≤ bodyBytes → check_head target r = None.
Proof.
  intros [Hr Ho Hu He Hst Hty Hle _ _ _] Hs Hb. unfold check_head. rewrite Hr, Ho, He.
  replace (negb (String.eqb (rs_url r) "") && negb (String.eqb (rs_url r) target)) with false
    by (destruct Hu as [-> | ->]; rewrite ?String.eqb_refl; [done|by rewrite andb_false_r]).
  simpl. rewrite Hst, Hty. assert ((rp_status rp =? 200) || (rp_status rp =? 201) = true) as ->.
  { apply orb_true_iff. rewrite !Z.eqb_eq. done. }
  rewrite bool_decide_eq_true_2 by done. destruct Hle as [-> | ->]; [done|].
  by rewrite (proj2 (Z.ltb_ge bodyBytes _)) by lia.
Qed.
Lemma body_passes {A} `{Message A} (expected : A → Z) target rp r b (res : A) :
  delivers target rp r b → rp_body rp = wire (message_json res) → well_formed res → rp_status rp = expected res →
  check_body expected r b = Some res.
Proof.
  intros Hd Hb Hw He. pose proof Hd as [_ _ _ _ Hst _ Hle [Hbd Hf] Hch Hpa]. unfold check_body, readBoundedBody.
  rewrite Hbd, Hch, Hf. simpl. pose proof (written_fits res Hw) as Hfit. rewrite Hb in *.
  rewrite (proj2 (Z.leb_le _ _)) by exact Hfit.
  assert ((match exactContentLength (rs_length r) with
    | None => None
    | Some (Some n) => if n =? bytes (b_text (wire (message_json res))) then Some (mkBody (b_text (wire (message_json res))) (st_parsed b)) else None
    | Some None => Some (mkBody (b_text (wire (message_json res))) (st_parsed b)) end) = Some (wire (message_json res))) as Hx.
  { rewrite Hpa. destruct Hle as [-> | ->]; [done|]. by rewrite Z.eqb_refl. }
  destruct (message_reads_back res Hw) as [Hser Hdec].
  cbn [mbind option_bind]. rewrite Hx. cbn [mbind option_bind]. rewrite Hdec. cbn [mbind option_bind]. rewrite Hser. cbn [mbind option_bind].
  rewrite String.eqb_refl, Hst, He, Z.eqb_refl. done.
Qed.

(** ** The Gateway answers *)

Lemma bounded_request_runs q d : is_id REQUEST_PREFIX q = true → bounded_request (Some q) d = (inr (Some q), d).
Proof.
  intros (b & -> & Hb)%is_id_split. unfold bounded_request. rewrite units_token.
  - rewrite length_append, (size_id 22 b Hb). done.
  - rewrite append_chars. by apply id_chars_all in Hb as ->.
Qed.
Lemma committed_runs {A} w z (m : G A) d a d' : kind_to w z → m d = (inr a, d') → committed w m d = (inr a, d').
Proof.
  intros [_ _ Hc _ Ha] Hm. unfold committed, transaction. unfold_eff. rewrite Hc. simpl. rewrite Hm. unfold require. by rewrite Ha.
Qed.
Lemma audit_runs w z e d : kind_to w z → ∃ d', write_audit w e d = (inr tt, d').
Proof. intros [_ _ _ Ha _]. unfold write_audit, require. rewrite Ha. unfold_eff. eauto. Qed.
Lemma currentTime_runs w z d : kind_to w z → currentTime w d = (inr z, d).
Proof. intros [Hn Hz _ _ _]. unfold currentTime. by rewrite Hn, Hz. Qed.
Lemma verifierMatches_refl v : exactVerifier v = true → verifierMatches v v = true.
Proof. intros Hv. unfold verifierMatches. by rewrite Hv, bool_decide_eq_true_2. Qed.

Lemma propose_runs w z tok a ca p vp q g :
  kind_to w z → ok g → parseNodeCredential digest tok = Some (a, c_verifier ca) → credentials g !! a = Some ca → c_state ca = s_active →
  isCredentialId p = true → exactVerifier vp = true → p ≠ a → is_id REQUEST_PREFIX q = true →
  (credentials g !! p = None ∧ (∀ j c, credentials g !! j = Some c → c_rotates c = Some a → c_state c ≠ s_pending))
  ∨ (∃ cp, credentials g !! p = Some cp ∧ c_state cp = s_pending ∧ c_instance_id cp = c_instance_id ca
       ∧ c_rotates cp = Some a ∧ c_verifier cp = vp) →
  ∃ b g', proposeRotation digest w tok p vp (Some q) g = (inr (mkRotationReceipt (c_instance_id ca) p a b), g').
Proof.
  intros Hw Hok Hp Ha Hact Hid Hv Hne Hq Hcase. destruct (ok_credential g Hok a ca Ha) as [_ O2 _ O4 _ _].
  enough (∃ b g', propose_transaction w (a, c_verifier ca) p vp (Some q) z g = (inr (mkRotationReceipt (c_instance_id ca) p a b), g')) as (b & g' & Ht).
  { exists b, g'. unfold proposeRotation. rewrite Hp. unfold argument. rewrite Hid, Hv.
    erewrite eff_run by done. erewrite eff_run by done. erewrite eff_run by by apply bounded_request_runs.
    erewrite eff_run by by apply currentTime_runs. by eapply committed_runs. }
  unfold propose_transaction. change ((get ≫= ?k) g) with (k g g). cbv beta. cbn [fst snd]. rewrite Ha, verifierMatches_refl, Hact by done.
  rewrite (proj2 (String.eqb_neq p a)) by done. simpl. destruct Hcase as [[Hn Hno]|(cp & Hcp & Hs & Hi & Hr & Hvp)].
  - rewrite Hn. rewrite bool_decide_eq_true_2; [|intros j c Hj [Hr Hs]; by apply (Hno j c)].
    destruct (wp_returns (insert_credential p (mkCredential (c_instance_id ca) vp s_pending (Some a) None z None None None)) (λ _ _, True) g)
      as ([] & g1 & Hg1 & _).
    { apply wp_insert_credential; try done; try (by apply credential_sql); try (simpl; apply bool_decide_eq_true_2; by rewrite Ha).
      apply unique_indexes_true. intros j c Hj _. unfold clashes. simpl. rewrite orb_false_r.
      destruct (bool_decide_reflect (c_state c = s_pending)) as [Hs|]; [|done].
      destruct (bool_decide_reflect (Some a = c_rotates c)) as [Hr|]; [|done]. by destruct (Hno j c Hj). }
    erewrite eff_run by exact Hg1. match goal with |- context [write_audit w ?e] => destruct (audit_runs w z e g1 Hw) as [g2 Hg2] end.
    erewrite eff_run by exact Hg2. eauto.
  - rewrite Hcp, Hs, Hi, Hr, Hvp, String.eqb_refl, verifierMatches_refl by done. simpl. rewrite !bool_decide_eq_true_2 by done. simpl. eauto.
Qed.
Lemma activate_runs w z tok p cp a ca q g :
  kind_to w z → ok g → parseNodeCredential digest tok = Some (p, c_verifier cp) → credentials g !! p = Some cp →
  c_rotates cp = Some a → credentials g !! a = Some ca → is_id REQUEST_PREFIX q = true →
  (c_state cp = s_pending ∧ c_state ca = s_active) ∨ (c_state cp = s_active ∧ c_state ca = s_revoked ∧ c_replaced_by ca = Some p) →
  ∃ b g', CredentialStore.activateRotation digest w tok (Some q) g = (inr (mkRotationReceipt (c_instance_id cp) p a b), g').
Proof.
  intros Hw Hok Hp Hcp Hr Ha Hq Hcase. destruct (ok_credential g Hok p cp Hcp) as [C1 C2 C3 C4 C5 C6].
  destruct (C5 a Hr) as (ca' & Hca' & Hin & Hne). assert (ca' = ca) as -> by congruence.
  enough (∃ b g', activate_transaction w (p, c_verifier cp) (Some q) z g = (inr (mkRotationReceipt (c_instance_id cp) p a b), g')) as (b & g' & Ht).
  { exists b, g'. unfold CredentialStore.activateRotation. rewrite Hp. erewrite eff_run by by apply bounded_request_runs.
    erewrite eff_run by by apply currentTime_runs. by eapply committed_runs. }
  unfold activate_transaction. change ((get ≫= ?k) g) with (k g g). cbv beta. cbn [fst snd].
  rewrite Hcp, verifierMatches_refl, Hr, Ha by done. simpl.
  destruct Hcase as [[Hs Hs']|(Hs & Hs' & Hrep)]; [|rewrite Hs, Hs', Hrep, !bool_decide_eq_true_2 by done; simpl; eauto].
  rewrite Hs, Hs', Hin, String.eqb_refl. simpl.
  match goal with |- ∃ b g', ?m g = (inr _, g') => destruct (wp_returns m (λ _ d', kept g d') g) as (rc & g' & Hm & _) end.
  { eapply wp_mono; [eapply (inner_activate w a ca p cp z _ g _ (λ _, w_audits w = false)); try done|done|].
    intros e ? He. destruct Hw as [_ _ _ Hau _]. congruence. }
  exists false, g'. rewrite Hm. f_equal. f_equal.
  apply bind_inv in Hm as (? & ? & _ & (? & ? & _ & (? & ? & _ & Heq)%bind_inv)%bind_inv). by injection Heq as <- _.
Qed.

(** ** The handler *)

Lemma view_get g id v : view g !! id = Some v → ∃ c, credentials g !! id = Some c ∧ view1 c = v.
Proof. rewrite view_lookup. destruct (credentials g !! id) as [c|]; [|done]. intros [= <-]. eauto. Qed.
Definition result_of (rc : RotationReceipt) : ResidentRotationResult :=
  mkRotationResult (rr_instanceId rc) (rr_credentialId rc) (rr_previousCredentialId rc) (rr_replayed rc).
Lemma rotationSuccess_runs rc created d :
  well_formed (result_of rc) →
  rotationSuccess rc created d = (inr (mkSuccess (if created && negb (rr_replayed rc) then 201 else 200) (wire (message_json (result_of rc)))), d).
Proof.
  intros Hw. unfold rotationSuccess, written. fold (result_of rc). by rewrite (proj1 (message_reads_back _ Hw)).
Qed.
Lemma success_passes route st res :
  well_formed res → route = r_rotation ∨ route = r_rotationActivation →
  st = (if bool_decide (route = r_rotationActivation) || rrs_replayed res then 200 else 201) →
  residentSuccessBody route (mkSuccess st (wire (message_json res))) = Some (mkReply st (wire (message_json res))).
Proof.
  intros Hw Hroute Hst. destruct (message_reads_back res Hw) as [Hs Hd]. unfold residentSuccessBody, ok_status, ok_body.
  replace ((st =? 200) || (st =? 201)) with true by (subst st; by case_match).
  assert (checked_body rrs_replayed route (mkSuccess st (wire (message_json res))) = Some (mkReply st (wire (message_json res)))) as Hc.
  { unfold checked_body, ok_status, ok_body. rewrite Hd. cbn [mbind option_bind]. rewrite Hs. cbn [mbind option_bind].
    by rewrite String.eqb_refl, <-Hst, Z.eqb_refl. }
  destruct Hroute as [-> | ->]; exact Hc.
Qed.
(** A request that is admitted. *)
Definition admitted (t : Z) (route : string) (m : buckets) : Prop := (allow lim (mkInput peer route (Some t)) m).1 = true.
Lemma handle_runs w t route auth b m g token g1 r g2 rp :
  isSafeInteger t = true → admitted t (route_name route) m →
  authorize digest w route auth g = (inr token, g1) → dispatch digest w route token b g1 = (inr r, g2) →
  residentSuccessBody route r = Some rp →
  handleResidentControl digest lim w w (serves digest []) (Some t) (mkRequest (route_path route) "POST" peer auth (inr b)) m g
  = (rp, (allow lim (mkInput peer (route_name route) (Some t)) m).2, g2).
Proof.
  intros Ht Ha Hau Hd Hs. unfold handleResidentControl. cbn [rq_url rq_method rq_peer rq_authorization rq_read mbind option_bind].
  replace (8192 <? bytes (route_path route)) with false by (by destruct route).
  replace (exactResidentRoute (route_path route)) with (Some route) by (by destruct route). rewrite String.eqb_refl, Ht. cbn [negb].
  unfold admitted in Ha. destruct (allow lim (mkInput peer (route_name route) (Some t)) m) as [ad m']. simpl in Ha. subst ad.
  cbn [negb]. rewrite Hau. change (serves digest [] g1) with g1. rewrite Hd. cbn [reply_to snd]. by rewrite Hs.
Qed.
Lemma proposal_answered w z t ta a sa ca p v sp rid e m g :
  kind_to w z → isSafeInteger t = true → admitted t "rotation" m → ok g →
  credential_parts NODE ta = Some (a, sa) → isCredentialId p = true → decodeCredentialVerifier v = Some (digest sp) →
  well_formed (mkRotationRequest p v rid) → p ≠ a →
  view g !! a = Some ca → v_verifier ca = digest sa → v_state ca = s_active → isGatewayInstanceId (v_instance ca) = true →
  (view g !! p = None ∧ (∀ j c, view g !! j = Some c → v_rotates c = Some a → v_state c ≠ s_pending))
  ∨ (∃ cp, view g !! p = Some cp ∧ v_state cp = s_pending ∧ v_instance cp = v_instance ca ∧ v_rotates cp = Some a ∧ v_verifier cp = digest sp) →
  ∃ b g', let res := mkRotationResult (v_instance ca) p a b in
    handleResidentControl digest lim w w (serves digest []) (Some t) (rotation_request peer (proposal_of e p v rid ta)) m g
    = (mkReply (if b then 200 else 201) (wire (message_json res)), (allow lim (mkInput peer "rotation" (Some t)) m).2, g')
    ∧ well_formed res.
Proof using digest_ok.
  intros Hw Ht Had Hok Hta Hid Hv Hwq Hne Hca Hcv Hcs Hci Hcase.
  pose proof (message_reads_back (mkRotationRequest p v rid) Hwq) as [_ Hdec].
  destruct (view_get g a ca Hca) as (ac & Hac & <-). cbn [view1 v_verifier v_state v_instance] in *.
  assert (parseNodeCredential digest ta = Some (a, digest sa)) as Hpa by (unfold parseNodeCredential, parse; by rewrite Hta).
  destruct (authenticateNode_runs digest w z ta a ac g Hw Hok) as (g1 & Hg1); [by rewrite Hcv|done|done|].
  pose proof (authenticateNode_view digest w ta g) as Hv1. rewrite Hg1 in Hv1. simpl in Hv1.
  assert (ok g1) as Hok1 by (by eapply sound_ok, Hg1; [apply authenticateNode_sound|]).
  assert (view g1 !! a = Some (view1 ac)) as Hca1 by congruence. destruct (view_get g1 a _ Hca1) as (ac1 & Hac1 & Heq). injection Heq as E1 E2 E3 E4 E5.
  destruct (digest_ok sp) as [_ Hlen].
  destruct (propose_runs w z ta a ac1 p (digest sp) rid g1) as (b & g2 & Hg2); try done.
  - congruence.
  - congruence.
  - unfold exactVerifier. by rewrite Hlen.
  - apply Hwq.
  - rewrite <-Hv1 in Hcase. destruct Hcase as [[Hn Hno]|(cp & Hcp & H1 & H2 & H3 & H4)].
    + left. rewrite view_lookup in Hn. destruct (credentials g1 !! p) eqn:Hp1; [done|]. split; [done|].
      intros j c Hj Hr. specialize (Hno j (view1 c)). rewrite view_lookup, Hj in Hno. by apply Hno.
    + right. destruct (view_get g1 p cp Hcp) as (cp' & Hcp' & <-). exists cp'. simpl in *. split_and!; try done. congruence.
  - assert (isCredentialId a = true) as Hida by (by apply parts_spec in Hta as (_ & ? & _)).
    exists b, g2. set (rc := mkRotationReceipt (c_instance_id ac1) p a b).
    assert (well_formed (result_of rc)) as Hwr by (simpl; split_and!; simpl; congruence).
    split; [|by rewrite <-E1]. rewrite <-E1.
    apply (handle_runs w t r_rotation (Some ("Bearer " +:+ ta)) _ m g ta g1 (mkSuccess (if b then 200 else 201) (wire (message_json (result_of rc)))) g2 _ Ht Had).
    + unfold authorize, authorizeProposal. rewrite (bearer_roundtrip ta) by (unfold formatNodeBearerAuthorization; by rewrite Hta).
      erewrite eff_run; [|unfold store; by rewrite Hg1]. done.
    + unfold dispatch, api_proposeRotation, received. cbn [pr_body proposal_of]. rewrite Hdec.
      erewrite eff_run by done. unfold withCredentialMapping, verifier_of. simpl rrq_credentialVerifier. rewrite Hv.
      erewrite eff_run by done. unfold rrq_credentialId, rrq_requestId. erewrite eff_run; [|unfold store; by rewrite Hg2]. rewrite rotationSuccess_runs by done.
      by destruct b.
    + apply (success_passes r_rotation); [done|by left|]. simpl. by destruct b.
Qed.
Lemma activation_answered w z t a ca p cp tp sp rid e m g :
  kind_to w z → isSafeInteger t = true → admitted t "rotationActivation" m → ok g →
  credential_parts NODE tp = Some (p, sp) → isCredentialId a = true → well_formed (mkActivationRequest rid) →
  view g !! p = Some cp → v_verifier cp = digest sp → v_rotates cp = Some a → isGatewayInstanceId (v_instance cp) = true →
  view g !! a = Some ca →
  (v_state cp = s_pending ∧ v_state ca = s_active) ∨ (v_state cp = s_active ∧ v_state ca = s_revoked ∧ v_replaced ca = Some p) →
  ∃ b g', let res := mkRotationResult (v_instance cp) p a b in
    handleResidentControl digest lim w w (serves digest []) (Some t) (rotation_request peer (activation_of e rid tp)) m g
    = (mkReply 200 (wire (message_json res)), (allow lim (mkInput peer "rotationActivation" (Some t)) m).2, g')
    ∧ well_formed res.
Proof.
  intros Hw Ht Had Hok Htp Hida Hwq Hcp Hv Hr Hi Hca Hcase.
  pose proof (message_reads_back (mkActivationRequest rid) Hwq) as [_ Hdec].
  destruct (view_get g p cp Hcp) as (pc & Hpc & <-). destruct (view_get g a ca Hca) as (ac & Hac & <-).
  cbn [view1 v_verifier v_state v_instance v_rotates v_replaced] in *.
  destruct (activate_runs w z tp p pc a ac rid g) as (b & g2 & Hg2); try done.
  { unfold parseNodeCredential, parse. by rewrite Htp, Hv. }
  assert (isCredentialId p = true) as Hidp by (by apply parts_spec in Htp as (_ & ? & _)).
  exists b, g2. set (rc := mkRotationReceipt (c_instance_id pc) p a b).
  assert (well_formed (result_of rc)) as Hwr by done. split; [|done].
  apply (handle_runs w t r_rotationActivation (Some ("Bearer " +:+ tp)) _ m g tp g (mkSuccess 200 (wire (message_json (result_of rc)))) g2 _ Ht Had).
  - unfold authorize, activationAuthorization. rewrite (bearer_roundtrip tp) by (unfold formatNodeBearerAuthorization; by rewrite Htp). done.
  - unfold dispatch, api_activateRotation, received. cbn [pr_body activation_of]. rewrite Hdec. erewrite eff_run by done.
    unfold withCredentialMapping, arq_requestId. erewrite eff_run; [|unfold store; by rewrite Hg2]. by rewrite rotationSuccess_runs.
  - apply (success_passes r_rotationActivation); [done|by right|done].
Qed.
End live.

(** * A rotation that is resumed completes

    The controller of src/gateway-rotation.ts and the Gateway's handler together, over a
    network that delivers: from every state the system can reach in which the resident
    rotates, whatever was lost before, the controller started in its resume mode ends
    the rotation. *)


(** ** What no request does *)

(** The credential, if there is one, was not revoked by the operator. *)
Definition stands (m : gmap string cview) (id : string) : Prop :=
  ∀ c, m !! id = Some c → ¬ (v_state c = s_revoked ∧ v_replaced c = None).
Lemma stands_step m lb m' id :
  credential_step m lb m' → (∀ j, lb ≠ l_revoke j) → stands m id → stands m' id.
Proof.
  intros Hs Hl Hst c' Hc' [H1 H2]. destruct (step_back m lb m' id c' Hs Hc') as [[c Hc]|[_ [(i & v & _ & ->)|(o & oc & v & _ & _ & _ & ->)]]]; [|done..].
  destruct (step_state m lb m' id c c' Hs Hc Hc') as [->|[(-> & _)|[(o & oc & _ & _ & _ & _ & _ & _ & ->)|(j & ci & _ & _ & _ & _ & _ & _ & ->)]]].
  - by apply (Hst c).
  - by apply (Hl id).
  - done.
  - done.
Qed.
Lemma standing_stands m id c s : stands m id → m !! id = Some c → standing c s → v_state c = s.
Proof. intros Hs Hc [H|H]; [done|]. by destruct (Hs c Hc). Qed.

Section live.
Context (is_origin : string → bool) (digest : string → list Z) (lim : limits) (peer : string).
Context (origin_ascii : ∀ s, is_origin s = true → all_chars (ascii_in 33 126) s = true).
Context (digest_ok : ∀ s, Forall is_byte (digest s) ∧ length (digest s) = 32%nat).
Abbreviation inv := (inv is_origin digest).

Lemma request_revokes_nothing rq lb j : may_take digest rq lb → lb ≠ l_revoke j.
Proof.
  intros [->|(route & token & b & _ & _ & _ & [->|Hm])]; [done..|].
  destruct route; naive_solver.
Qed.
Lemma handled_stands w t rq m g rp m' g' id :
  ok g → handleResidentControl digest lim w w (serves digest []) (Some t) rq m g = (rp, m', g') →
  stands (view g) id → stands (view g') id.
Proof.
  intros Hok Hh Hs. apply handle_told in Hh as (g1 & g2 & _ & Hv & Hg2 & _ & (lb & Hmay & Hst) & _); [|done..].
  apply (stands_step (view g2) lb); [done|intros j; by eapply request_revokes_nothing|].
  destruct Hg2 as [->| ->]; simpl; by rewrite Hv.
Qed.
(** A revoked token is refused, in every circumstance. *)
Definition refused (g : gateway) (t : string) : Prop := ∀ w, (authenticateNode digest w t g).1 = inr None.
Lemma revoked_refused g t id v c :
  parseNodeCredential digest t = Some (id, v) → view g !! id = Some c → v_state c = s_revoked → refused g t.
Proof.
  intros Hp Hc Hs w. destruct (view_get g id c Hc) as (x & Hx & <-). simpl in Hs. unfold authenticateNode. rewrite Hp.
  unfold mbind at 1, eff_bind at 1. simpl. rewrite Hx. simpl. destruct (instances g !! c_instance_id x); [|done]. simpl.
  rewrite Hs. by destruct (verifierMatches v (c_verifier x)).
Qed.
Lemma not_withdrawn_stands g t id s c :
  ¬ withdrawn digest g t → credential_parts NODE t = Some (id, s) → view g !! id = Some c → v_verifier c = digest s →
  ¬ (v_state c = s_revoked ∧ v_replaced c = None).
Proof.
  intros Hw Hp Hc Hv [H1 H2]. destruct (view_get g id c Hc) as (y & Hy & <-). simpl in *.
  apply Hw. exists id, y. unfold parseNodeCredential, parse. by rewrite Hp, Hv.
Qed.

(** ** An exchange *)

(** The network delivers the request, and its answer; nothing else is under way. *)
Context (transport : string → http_reply → response * stream).
Context (honest : ∀ target rp, delivers target rp (transport target rp).1 (transport target rp).2).
Context (w : circumstance) (z t : Z) (e : write_env) (tw : Z).
Context (kind : kind_to w z) (clock : isSafeInteger t = true).
Context (writes : timestamp (we_now e) = Some tw ∧ we_commits e = true ∧ we_others e = λ d, d).

Abbreviation exchanging := (rotation_controller * resident * buckets * gateway)%type.
Definition exchange : exchanging → exchanging := λ '(c, x, m, g),
  match rc_stage c with
  | Some (Fetching p) =>
      let '(rp, m', g') := handleResidentControl digest lim w w (serves digest []) (Some t) (rotation_request peer p) m g in
      let '(r, b) := transport (pr_endpoint p +:+ pr_target p) rp in
      (rotation_steps is_origin digest [ev_response r; ev_body b e] (c, x), m', g')
  | _ => (c, x, m, g)
  end.

Lemma carried target rp : carries (transport target rp).1 (transport target rp).2 rp.
Proof using honest.
  destruct (honest target rp) as [_ _ _ _ Hs _ _ _ Hch Hpa]. split; [done|]. intros text Hr. unfold readBoundedBody in Hr.
  destruct (st_body _); [|done]. simpl in Hr. rewrite Hch in Hr. destruct (_ <=? bodyBytes); [|done]. simpl in Hr.
  destruct (st_fails _); [done|]. rewrite Hpa in Hr. destruct (rp_body rp) as [bt bp]. simpl in *.
  destruct (exactContentLength _) as [[n|]|]; [case_match|..]; congruence.
Qed.
(** The answer to a request is recorded. *)
Lemma exchange_records c p x m g res st m' g' :
  handleResidentControl digest lim w w (serves digest []) (Some t) (rotation_request peer p) m g
    = (mkReply st (wire (message_json res)), m', g') →
  well_formed res → st = expected_status (pr_step p) res →
  let '(r, b) := transport (pr_endpoint p +:+ pr_target p) (mkReply st (wire (message_json res))) in
  check_body (expected_status (pr_step p)) r b = Some res
  ∧ exchange (waiting (Fetching p) c, x, m, g) = (record_result is_origin digest p res e (waiting (Reading p r) c) x, m', g').
Proof using honest.
  intros Hh Hw Hst. unfold exchange. simpl rc_stage. cbv iota. rewrite Hh.
  pose proof (honest (pr_endpoint p +:+ pr_target p) (mkReply st (wire (message_json res)))) as Hd.
  destruct (transport _ _) as [r b]. simpl in Hd. assert (check_body (expected_status (pr_step p)) r b = Some res) as Hb
    by (eapply body_passes; [exact Hd|done..]).
  split; [done|]. unfold rotation_steps. simpl. rewrite (head_passes _ _ _ _ Hd).
  - simpl. by rewrite Hb.
  - unfold succeeded. simpl. rewrite Hst. apply expected_statuses.
  - apply (written_fits res Hw).
Qed.
Lemma next_waiting st c x : next_request is_origin digest (waiting st c) x = next_request is_origin digest c x.
Proof. unfold next_request. by destruct (prepare is_origin digest x) as [[]]. Qed.

(** ** The two steps of a rotation *)

Abbreviation sys := (sys_run is_origin digest lim peer).
(** What the answer does to the resident. *)
Definition recorded (q : PreparedRotation) (res : ResidentRotationResult) (x : resident) : resident :=
  match pr_step q with
  | proposal => (in_store (markRotationProposed is_origin (message_json res) (we_now e) (we_commits e) (λ d, d)) x).2
  | activation => (in_store (ResidentStore.activateRotation is_origin (message_json res) (we_now e) (we_commits e) (λ d, d)) x).2
  end.
(** An exchange is a run of the system: the request is sent, delivered and answered. *)
Lemma exchange_runs s r q x res m' g' c :
  inv s r → prepare is_origin digest (sy_resident s) = (inr q, x) →
  pr_target q = match pr_step q with proposal => path_rotation | activation => path_rotationActivation end →
  handleResidentControl digest lim w w (serves digest []) (Some t) (rotation_request peer q) (sy_buckets s) (sy_gateway s)
    = (mkReply (expected_status (pr_step q) res) (wire (message_json res)), m', g') → well_formed res →
  ∃ s' r' rd, inv s' r' ∧ sy_gateway s' = g' ∧ sy_buckets s' = m' ∧ sy_resident s' = recorded q res x
    ∧ answers digest (rotation_request peer q) (mkReply (expected_status (pr_step q) res) (wire (message_json res))) (view g')
    ∧ exchange (waiting (Fetching q) c, x, sy_buckets s, sy_gateway s)
      = (record_result is_origin digest q res e (waiting (Reading q rd) c) x, m', g').
Proof using digest_ok honest.
  intros Hinv Hp Hta Hh Hw. pose proof (inv_rotate_send is_origin digest lim peer digest_ok s r Hinv) as H1.
  pose proof (inv_deliver is_origin digest lim peer digest_ok 0 w w [] (Some t) _ r (Forall_nil_2 _) H1) as H2.
  set (rp := mkReply _ _) in *. set (rq := rotation_request peer q) in *.
  assert (sys (se_deliver 0 w w [] (Some t)) (sys se_rotate_send s) = mkSystem x g' m' (rq :: sy_sent s) ((rq, rp) :: sy_replies s)) as Heq.
  { cbn [sys_run]. rewrite Hp. fold rq. simpl. by rewrite Hh. }
  rewrite Heq in H2. destruct (i_replies _ _ _ _ H2 rq rp) as [_ Hans]; [by left|].
  pose proof (exchange_records c q x _ _ res _ _ _ Hh Hw eq_refl) as Hex. pose proof (carried (pr_endpoint q +:+ pr_target q) rp) as Hcar.
  fold rp in Hex. destruct (transport (pr_endpoint q +:+ pr_target q) rp) as [rr b]. destruct Hex as [Hcb Hex]. simpl in Hcar.
  destruct (inv_event is_origin digest lim peer digest_ok (se_rotate_receive 0 rr b e)
    (mkSystem x g' m' (rq :: sy_sent s) ((rq, rp) :: sy_replies s)) r) as [r' H3]; [|exact H2|].
  { by intros rq' rp' [= <- <-]. }
  eexists _, r', rr. split; [exact H3|]. assert (rq_url rq = pr_target q) as Hurl by done. rewrite Hta in Hurl.
  cbn [sys_run sy_replies lookup list_lookup]. rewrite Hurl. unfold recorded. destruct (pr_step q); simpl exactResidentRoute; cbv iota;
    rewrite Hcb; split_and!; done.
Qed.
Lemma own_parts r en rid a ta sa p tp sp :
  rotation r en rid a ta sa p tp sp → own_active digest r = Some (a, digest sa) ∧ own_pending digest r = Some (p, digest sp).
Proof.
  intros [_ _ _ Hta Htp Hxa Hxp _]. split; [by eapply own_active_of|by eapply own_pending_of].
Qed.
Lemma rotation_agrees s r en rid a ta sa p tp sp :
  inv s r → rotation r en rid a ta sa p tp sp →
  rotating_agrees (view (sy_gateway s)) (instance_id r) a (digest sa) p (digest sp) (not_null (rotation_proposed_at r)).
Proof.
  intros Hinv Hro. pose proof (i_agrees _ _ _ _ Hinv) as Ha. destruct (own_parts _ _ _ _ _ _ _ _ _ Hro) as [Hoa Hop].
  unfold agrees in Ha. by rewrite (proj1 (ro_rotates _ _ _ _ _ _ _ _ _ Hro)), Hoa, Hop in Ha.
Qed.
Lemma proposal_exchange s r en rid a ta sa p tp sp c :
  inv s r → rotation r en rid a ta sa p tp sp → rotation_proposed_at r = None → admitted lim peer t "rotation" (sy_buckets s) →
  stands (view (sy_gateway s)) a → stands (view (sy_gateway s)) p →
  (∀ cp, view (sy_gateway s) !! p = Some cp → v_rotates cp = Some a) →
  ∃ s' r', inv s' r' ∧ rotation r' en rid a ta sa p tp sp ∧ is_Some (rotation_proposed_at r') ∧ instance_id r' = instance_id r
    ∧ stands (view (sy_gateway s')) a ∧ stands (view (sy_gateway s')) p
    ∧ sy_buckets s' = (allow lim (mkInput peer "rotation" (Some t)) (sy_buckets s)).2
    ∧ ∃ q x, prepare is_origin digest (sy_resident s) = (inr q, x)
      ∧ exchange (waiting (Fetching q) c, x, sy_buckets s, sy_gateway s)
        = (next_request is_origin digest c (sy_resident s'), sy_buckets s', sy_gateway s').
Proof using digest_ok honest kind clock writes origin_ascii.
  intros Hinv Hro Hn Had Hsa Hsp Hown. pose proof Hinv as [Hrow Hval Hok _ _ _ _]. destruct (sy_resident s) as [d S] eqn:Hx. simpl in Hrow. subst d.
  destruct (prepare_proposal is_origin digest digest_ok r S _ _ _ _ _ _ _ _ Hval Hro Hn) as (v & Hv & Hw & Hprep).
  pose proof (rotation_agrees _ _ _ _ _ _ _ _ _ _ Hinv Hro) as [Honly _ Hun _]. rewrite Hn in Hun. destruct (Hun eq_refl) as [(ca & Hca & Hci & Hcv & Hst) Hpend].
  pose proof Hro as [Hrot He Hrid Hta Htp Hxa Hxp (Hi & Hne & Hq)].
  destruct (proposal_answered digest lim peer digest_ok w z t ta a sa ca p v sp rid en (sy_buckets s) (sy_gateway s) kind clock Had Hok) as (b & g' & Hh & Hwr); try done.
  { by apply parts_spec in Hxp as (_ & ? & _). }
  { by eapply standing_stands; [exact Hsa|..]. }
  { by rewrite Hci. }
  { destruct (view (sy_gateway s) !! p) as [cp|] eqn:Hcp.
    - right. pose proof (Hown cp eq_refl) as Hr. destruct (Honly p cp Hcp Hr) as (_ & Hpi & Hpv). exists cp. split_and!; try done; [|congruence].
      eapply standing_stands; [exact Hsp|done|by apply Hpend].
    - left. split; [done|]. intros j cj Hj Hr. destruct (Honly j cj Hj Hr) as (-> & _). congruence. }
  rewrite Hci in *. set (res := mkRotationResult (instance_id r) p a b) in *.
  destruct (exchange_runs s r (proposal_of en p v rid ta) (mkResident (Some r) (after_register r S)) res
    (allow lim (mkInput peer "rotation" (Some t)) (sy_buckets s)).2 g' c) as (s' & r' & rd & Hinv' & Hg & Hm & Hs' & _ & Hex); try done.
  { by rewrite Hx. }
  destruct writes as (Htw & Hcm & Hot).
  destruct (markRotationProposed_runs is_origin origin_ascii res (we_now e) tw r a p Hval Hrot Hn Htw) as [_ Hrun]; [done|].
  set (r1 := to_proposed _ r) in Hrun. unfold recorded, in_store in Hs'.
  cbn [pr_step proposal_of activation_of rowdb secrets] in Hs'. rewrite Hcm, Hrun in Hs'. cbn [snd] in Hs'.
  pose proof (i_row _ _ _ _ Hinv') as Hr'. rewrite Hs' in Hr'. injection Hr' as <-.
  exists s', r1. rewrite Hs', Hg, Hm. split_and!; try done.
  - by eapply handled_stands; [exact Hok|exact Hh|].
  - by eapply handled_stands; [exact Hok|exact Hh|].
  - eexists _, _. split; [exact Hprep|]. rewrite Hex. unfold record_result, in_store. simpl pr_step. simpl rowdb. cbv iota.
    rewrite Hcm, Hot, Hrun. cbv beta iota. by rewrite next_waiting.
Qed.
(** The active token is let in, the one before it is refused. *)
Lemma active_let_in s r tp p sp :
  inv s r → phase r = active → active_credential_token r = Some tp → credential_parts NODE tp = Some (p, sp) →
  stands (view (sy_gateway s)) p → lets_in digest (sy_gateway s) tp (instance_id r).
Proof.
  intros Hinv Hp Ht Hx Hs. pose proof (i_agrees _ _ _ _ Hinv) as Ha. unfold agrees in Ha.
  rewrite Hp, (own_active_of digest r tp p sp Ht Hx) in Ha. destruct Ha as [(c & Hc & Hi & Hv & Hst) _].
  assert (parseNodeCredential digest tp = Some (p, digest sp)) as Hpa by (unfold parseNodeCredential, parse; by rewrite Hx).
  destruct (standing_let_in digest (sy_gateway s) tp (instance_id r) p (digest sp) c s_active (i_gateway _ _ _ _ Hinv) Hpa Hc Hv Hi Hst eq_refl)
    as [|(id & x & Hpx & Hcx & H1 & H2)]; [done|]. exfalso. apply (Hs (view1 x)); [|done].
  assert (id = p) as -> by congruence. by rewrite view_lookup, Hcx.
Qed.
Lemma activated_refused en rid tp st res g ta sa :
  ok g → well_formed res → st = 200 → answers digest (rotation_request peer (activation_of en rid tp)) (mkReply st (wire (message_json res))) (view g) →
  credential_parts NODE ta = Some (rrs_previousCredentialId res, sa) → refused g ta.
Proof.
  intros Hok Hw -> Hans Hta. destruct Hans as (route & tok & b & Hroute & _ & _ & Htold); [by left|].
  assert (route = r_rotationActivation) as -> by by injection Hroute.
  destruct Htold as (res' & Heq & Hw' & (c & oc & _ & _ & _ & Ho & Hrep)).
  assert (res' = res) as ->.
  { eapply (decoded_wire res res' (wire (message_json res))); [done|exact Hw|]. cbn [rp_body] in Heq. rewrite Heq. by apply message_reads_back. }
  eapply (revoked_refused g ta); [unfold parseNodeCredential, parse; by rewrite Hta|exact Ho|]. by eapply wf_replaced; [apply view_wf|..].
Qed.
Lemma activation_exchange s r en rid a ta sa p tp sp c :
  inv s r → rotation r en rid a ta sa p tp sp → is_Some (rotation_proposed_at r) →
  admitted lim peer t "rotationActivation" (sy_buckets s) → stands (view (sy_gateway s)) a → stands (view (sy_gateway s)) p →
  ∃ s' r', inv s' r' ∧ phase r' = active ∧ active_credential_token r' = Some tp ∧ instance_id r' = instance_id r
    ∧ lets_in digest (sy_gateway s') tp (instance_id r) ∧ refused (sy_gateway s') ta
    ∧ ∃ q x, prepare is_origin digest (sy_resident s) = (inr q, x)
      ∧ exchange (waiting (Fetching q) c, x, sy_buckets s, sy_gateway s)
        = (finish rot_rotated c, sy_resident s', sy_buckets s', sy_gateway s').
Proof using digest_ok honest kind clock writes origin_ascii.
  intros Hinv Hro Hpr Had Hsa Hsp. pose proof Hinv as [Hrow Hval Hok _ _ _ Htm]. destruct (sy_resident s) as [d S] eqn:Hx. simpl in Hrow. subst d.
  destruct (prepare_activation is_origin digest digest_ok r S _ _ _ _ _ _ _ _ Hval Hro Hpr) as (Hw & Hprep).
  pose proof (rotation_agrees _ _ _ _ _ _ _ _ _ _ Hinv Hro) as [Honly _ _ Hprop]. destruct Hpr as [u Hu]. rewrite Hu in Hprop.
  destruct (Hprop eq_refl) as (cp & Hcp & Hr & Hcase). destruct (Honly p cp Hcp Hr) as (_ & Hpi & Hpv).
  pose proof Hro as [Hrot He Hrid Hta Htp Hxa Hxp (Hi & Hne & Hq)].
  assert (∃ ca, view (sy_gateway s) !! a = Some ca
    ∧ ((v_state cp = s_pending ∧ v_state ca = s_active) ∨ (v_state cp = s_active ∧ v_state ca = s_revoked ∧ v_replaced ca = Some p))) as (ca & Hca & Hst).
  { destruct Hcase as [[(ca & Hca & _ & _ & Hst) Hst']|[(ca & Hca & Hrep) Hst']]; exists ca; (split; [done|]).
    - left. split; [exact (standing_stands _ _ _ _ Hsp Hcp Hst')|exact (standing_stands _ _ _ _ Hsa Hca Hst)].
    - right. split_and!; [exact (standing_stands _ _ _ _ Hsp Hcp Hst')| |done]. by eapply wf_replaced; [apply view_wf|..]. }
  destruct (activation_answered digest lim peer w z t a ca p cp tp sp rid en (sy_buckets s) (sy_gateway s) kind clock Had Hok) as (b & g' & Hh & Hwr); try done.
  { by apply parts_spec in Hxa as (_ & ? & _). }
  { by rewrite Hpi. }
  rewrite Hpi in *. set (res := mkRotationResult (instance_id r) p a b) in *.
  destruct (exchange_runs s r (activation_of en rid tp) (mkResident (Some r) (after_register r S)) res
    (allow lim (mkInput peer "rotationActivation" (Some t)) (sy_buckets s)).2 g' c) as (s' & r' & rd & Hinv' & Hg & Hm & Hs' & Hans & Hex); try done.
  { by rewrite Hx. }
  destruct writes as (Htw & Hcm & Hot).
  destruct (activateRotation_runs is_origin origin_ascii res (we_now e) tw r a p Hval Htm Hrot) as [_ Hrun]; [by rewrite Hu|done|done|].
  set (r1 := to_active_rotated _ r) in Hrun. unfold recorded, in_store in Hs'.
  cbn [pr_step proposal_of activation_of rowdb secrets] in Hs'. rewrite Hcm, Hrun in Hs'. cbn [snd] in Hs'.
  pose proof (i_row _ _ _ _ Hinv') as Hr'. rewrite Hs' in Hr'. injection Hr' as <-.
  exists s', r1. split_and!; try done.
  - apply (active_let_in s' r1 tp p sp Hinv'); try done. rewrite Hg. by eapply handled_stands; [exact Hok|exact Hh|].
  - eapply (activated_refused en rid tp _ res); [apply Hinv'|done|done|rewrite Hg; exact Hans|exact Hxa].
  - eexists _, _. split; [exact Hprep|]. rewrite Hex. unfold record_result, in_store. simpl pr_step. simpl rowdb. cbv iota.
    by rewrite Hcm, Hot, Hrun, Hs', Hg, Hm.
Qed.

(** ** The whole rotation *)

Lemma resume_starts mode r S :
  assertRow is_origin r = true → phase r = rotating →
  start is_origin digest (Some resume_mode) e (new_rotation mode) (mkResident (Some r) S)
  = next_request is_origin digest (mkRotationController mode rot_rotating true false true None) (mkResident (Some r) (after_register r S)).
Proof.
  intros Hr Hp. unfold start, begin_attempt. simpl rc_attempted. simpl rc_started. simpl rc_stopRequested. cbv iota.
  cbn [orb default]. erewrite eff_run by (by apply (register_runs is_origin digest)). erewrite eff_run by (by apply in_store_runs, read_valid).
  cbn [publicSnapshot s_phase default]. unfold id. by rewrite Hp.
Qed.
Lemma stopped_exchange c x m g : rc_stage c = None → exchange (c, x, m, g) = (c, x, m, g).
Proof. intros Hc. unfold exchange. by rewrite Hc. Qed.
(** The active credential is the resident's, or was replaced. *)
Lemma active_known m i a va p vp b c :
  rotating_agrees m i a va p vp b → m !! a = Some c → v_verifier c = va ∨ v_replaced c = Some p.
Proof.
  intros [_ _ Hun Hpr] Hc. assert (good m i a va → v_verifier c = va) as Hg by (intros (c' & Hc' & _ & Hv & _); congruence).
  destruct b; [|left; by apply Hg, Hun]. destruct (Hpr eq_refl) as (_ & _ & _ & [[H _]|[(oc & Ho & Hr) _]]); [auto|]. right. congruence.
Qed.
(** What the rate limiter must let pass. *)
Definition lets_pass (m : buckets) : Prop :=
  admitted lim peer t "rotation" m ∧ admitted lim peer t "rotationActivation" m
  ∧ admitted lim peer t "rotationActivation" (allow lim (mkInput peer "rotation" (Some t)) m).2.

(** C3. A rotation that was begun is completed: from every state the resident and its
    Gateway can reach in which the row rotates, whatever requests and answers were lost,
    repeated or delayed before, whether the Gateway has not seen the proposal, has
    recorded it or has already activated it, the controller started in its resume mode
    ends with the status rotated after at most two exchanges, the former pending token
    is the active one of the row and is let in as the same instance, and the former
    active token is refused.  Supposed are a network that delivers these two requests
    and their answers, databases that commit, a rate limiter that admits them, that the
    operator revoked neither credential, and that the new id is not another's. *)
Theorem rotation_completes mode s0 s r :
  initial is_origin s0 → runs is_origin digest lim peer s0 s → rowdb (sy_resident s) = Some r → phase r = rotating →
  (∀ tok, active_credential_token r = Some tok ∨ pending_credential_token r = Some tok → ¬ withdrawn digest (sy_gateway s) tok) →
  (∀ p c, pending_credential_id r = Some p → credentials (sy_gateway s) !! p = Some c → c_rotates c = active_credential_id r) →
  lets_pass (sy_buckets s) →
  let '(c, x, _, g) := exchange (exchange (start is_origin digest (Some resume_mode) e (new_rotation mode) (sy_resident s),
                                  sy_buckets s, sy_gateway s)) in
  rc_current c = rot_rotated
  ∧ ∃ r' old new, active_credential_token r = Some old ∧ pending_credential_token r = Some new
    ∧ rowdb x = Some r' ∧ phase r' = active ∧ active_credential_token r' = Some new
    ∧ lets_in digest g new (instance_id r) ∧ refused g old.
Proof using digest_ok honest kind clock writes origin_ascii.
  intros Hi Hr Hrow Hp Hwd Hown (Had1 & Had2 & Had3). destruct (inv_runs is_origin digest lim peer digest_ok s0 s Hi Hr) as [r' Hinv].
  pose proof (i_row _ _ _ _ Hinv) as Hrow'. assert (r' = r) as -> by congruence. clear Hrow'. pose proof (i_valid _ _ _ _ Hinv) as Hval.
  destruct (rotation_columns is_origin r Hval Hp) as (en & rid & a & ta & sa & p & tp & sp & Hro).
  pose proof Hro as [(_ & Ha & Hq) _ _ Hta Htp Hxa Hxp _].
  destruct (sy_resident s) as [d S] eqn:Hx. simpl in Hrow. subst d. rewrite (resume_starts mode r S Hval Hp).
  apply (inv_secrets _ _ _ _ (after_register r S)) in Hinv. rewrite Hx in Hinv. cbn [rowdb] in Hinv. clear Hx.
  set (s1 := set_resident _ s) in Hinv. change (sy_gateway s) with (sy_gateway s1) in *. change (sy_buckets s) with (sy_buckets s1) in *.
  change (mkResident (Some r) (after_register r S)) with (sy_resident s1).
  pose proof (rotation_agrees _ _ _ _ _ _ _ _ _ _ Hinv Hro) as Hag.
  assert (∀ cp, view (sy_gateway s1) !! p = Some cp → v_rotates cp = Some a) as Hown'.
  { intros cp Hcp. destruct (view_get _ _ _ Hcp) as (y & Hy & <-). rewrite <-Ha. by apply (Hown p). }
  assert (stands (view (sy_gateway s1)) p) as Hsp.
  { intros y Hy. apply (not_withdrawn_stands (sy_gateway s1) tp p sp y); [apply Hwd; by right|done..|].
    by apply (ra_only _ _ _ _ _ _ _ Hag p y Hy), Hown'. }
  assert (stands (view (sy_gateway s1)) a) as Hsa.
  { intros y Hy [Hy1 Hy2]. destruct (active_known _ _ _ _ _ _ _ y Hag Hy) as [Hv|Hv]; [|congruence].
    apply (not_withdrawn_stands (sy_gateway s1) ta a sa y); auto. }
  set (c := mkRotationController _ _ _ _ _ _).
  enough (∃ s' r', exchange (exchange (next_request is_origin digest c (sy_resident s1), sy_buckets s1, sy_gateway s1))
      = (finish rot_rotated c, sy_resident s', sy_buckets s', sy_gateway s')
    ∧ rowdb (sy_resident s') = Some r' ∧ phase r' = active ∧ active_credential_token r' = Some tp
    ∧ lets_in digest (sy_gateway s') tp (instance_id r) ∧ refused (sy_gateway s') ta) as (s' & r' & -> & Hfin).
  { split; [done|]. exists r', ta, tp. naive_solver. }
  destruct (rotation_proposed_at r) as [u|] eqn:Hu.
  - destruct (activation_exchange s1 r en rid a ta sa p tp sp c) as (s' & r' & Hinv' & H1 & H2 & _ & H3 & H4 & q & x & Hpr & Hex); try done; try (by rewrite Hu).
    exists s', r'. unfold next_request. rewrite Hpr, Hex, stopped_exchange by done. split_and!; try done. apply Hinv'.
  - destruct (proposal_exchange s1 r en rid a ta sa p tp sp c) as (s2 & r2 & Hinv2 & Hro2 & Hu2 & Hi2 & Hsa2 & Hsp2 & Hm2 & q & x & Hpr & Hex); try done.
    destruct (activation_exchange s2 r2 en rid a ta sa p tp sp c) as (s' & r' & Hinv' & H1 & H2 & _ & H3 & H4 & q' & x' & Hpr' & Hex'); try done; [by rewrite Hm2|].
    exists s', r'. unfold next_request at 1. rewrite Hpr, Hex. unfold next_request. rewrite Hpr', Hex', <-Hi2. split_and!; try done. apply Hinv'.
Qed.
End live.
