(* ===== verification/ControlExamples.v ===== *)
(** * Enrollment and rotation on concrete inputs

    A resident enrolls with a grant and begins a rotation whose first answer is lost. *)

From S2P Require Import Prelude Effects Protocol Codec CodecFacts JsString JsText Credentials ResidentControl TextFacts ResidentStore ResidentStoreTheorems ResidentProgress CredentialStore CredentialStoreTheorems CredentialView RateLimiter ControlApi ControlApiFacts ControlExchange RotationController EnrollmentController ControllerTheorems ControlSystem ControlSafety RotationLive.
Local Open Scope string_scope.
Local Open Scope Z_scope.

(** ** The world of the examples *)

Definition origin : string := "https://gateway.example".
Definition is_origin (s : string) : bool := String.eqb s origin.
(** A function with values of the right size; nothing else is supposed of a digest. *)
Definition digest (s : string) : list Z := take 32 (lit s ++ replicate 32 0).
Lemma origin_ascii s : is_origin s = true → all_chars (ascii_in 33 126) s = true.
Proof. intros ->%String.eqb_eq. reflexivity. Qed.
Lemma digest_ok s : Forall is_byte (digest s) ∧ length (digest s) = 32%nat.
Proof.
  split; unfold digest.
  - apply Forall_take, Forall_app. split; [apply lit_bytes|]. by apply Forall_replicate.
  - rewrite length_take, length_app, length_replicate. lia.
Qed.
Definition peer : string := "10.0.0.1".
Definition lim : limits := mkLimits 1024 60000 60.
Definition kindly : circumstance := mkCircumstance (Some 1000) true true true.
Definition writing (n : Z) : write_env := mkWrite (Some 2000) (replicate 16 n) (replicate 32 (n + 1)) (replicate 16 (n + 2)) true (λ d, d).
Definition transport (target : string) (rp : http_reply) : response * stream :=
  (mkResponse false false target (rp_status rp) None None (Some JSON_TYPE), mkStream true [Some (b_text (rp_body rp))] false (b_parsed (rp_body rp))).
Lemma append_empty s : s +:+ "" = s.
Proof. induction s as [|a s IH]; [done|]. by apply (f_equal (String a)). Qed.
Lemma transport_honest target rp : delivers target rp (transport target rp).1 (transport target rp).2.
Proof.
  split; try done; simpl; auto. rewrite Z.add_0_l, Z.leb_antisym. destruct (_ <? _); simpl; [done|]. f_equal. apply append_empty.
Qed.
Lemma kindly_kind : kind_to kindly 1000.
Proof. done. Qed.

(** ** A script of events *)

Abbreviation run := (sys_run is_origin digest lim peer).
Fixpoint script (evs : list (system → sys_event)) (s : system) : system :=
  match evs with [] => s | ev :: evs => script evs (run (ev s) s) end.
Fixpoint allowed (evs : list (system → sys_event)) (s : system) : Prop :=
  match evs with [] => True | ev :: evs => admissible_event digest (ev s) s ∧ allowed evs (run (ev s) s) end.
Lemma script_runs evs s0 s :
  runs is_origin digest lim peer s0 s → allowed evs s → runs is_origin digest lim peer s0 (script evs s).
Proof. revert s. induction evs as [|ev evs IH]; intros s Hs; [done|]. intros [Ha Hr]. apply IH; [by constructor|done]. Qed.
(** The last reply, as the network brings it. *)
Definition last_reply (s : system) : response * stream :=
  transport "" (match sy_replies s with (_, rp) :: _ => rp | [] => mkReply 0 (mkBody "" None) end).
Lemma last_reply_carried s rq rp : sy_replies s !! 0%nat = Some (rq, rp) → carries (last_reply s).1 (last_reply s).2 rp.
Proof. unfold last_reply. destruct (sy_replies s) as [|[? ?]]; [done|]. intros [= <- <-]. apply (carried transport transport_honest). Qed.
Lemma unused_check e g :
  match createNodeCredential digest (we_random_id e) (we_random_secret e) with
  | Some next => bool_decide (credentials g !! m_id next = None)
  | None => true
  end = true → unused digest e g.
Proof. intros H next Hn. rewrite Hn in H. by apply bool_decide_eq_true in H. Qed.

Definition grant_call : gateway_call := gc_createEnrollmentGrant 60000 None [(replicate 16 1, replicate 32 2)].
Definition grant_token : string := ENROLLMENT +:+ "." +:+ base64url (replicate 16 1) +:+ "." +:+ base64url (replicate 32 2).
Definition story : list (system → sys_event) := [
  (λ _, se_call kindly grant_call);
  (λ _, se_enroll_begin (Some (mkBegin origin grant_token "Elpis")) (writing 3));
  (λ _, se_enroll_send);
  (λ _, se_deliver 0 kindly kindly [] (Some 1000));
  (λ s, se_enroll_receive 0 (last_reply s).1 (last_reply s).2 (writing 0));
  (λ _, se_rotate_begin (writing 7));
  (λ _, se_rotate_send);
  (λ _, se_deliver 0 kindly kindly [] (Some 1000))].
Definition at_first : system :=
  mkSystem (mkResident (construct is_origin (Some 5) (replicate 16 1) true (λ d, d) None).2 ∅) new_gateway ∅ [] [].
Definition at_last : system := script story at_first.
Definition row_of (s : system) : Row :=
  default (mkRow "" phase_idle None None None None None None None None 0 0 None None None None) (rowdb (sy_resident s)).
Definition row_at_last : Row := Eval vm_compute in row_of at_last.

Lemma story_runs : initial is_origin at_first ∧ runs is_origin digest lim peer at_first at_last.
Proof.
  split.
  - split; [|split; [apply new_gateway_ok|done]]. exists (row_of at_first). split_and!; vm_compute; reflexivity.
  - apply script_runs; [constructor|]. unfold story.
    split; [intros r _; split; [by repeat constructor|done]|]. split; [apply unused_check; vm_compute; reflexivity|].
    split; [done|]. split; [constructor|]. split; [intros rq rp; apply last_reply_carried|].
    split; [apply unused_check; vm_compute; reflexivity|]. split; [done|]. split; [constructor|done].
Qed.
Lemma row_found : rowdb (sy_resident at_last) = Some row_at_last.
Proof. vm_compute. reflexivity. Qed.
Lemma none_withdrawn g t :
  forallb (λ x, negb (bool_decide (c_state x.2 = s_revoked))) (map_to_list (credentials g)) = true → ¬ withdrawn digest g t.
Proof.
  intros H (id & c & _ & Hc & Hs & _). rewrite forallb_forall in H. specialize (H (id, c)).
  rewrite bool_decide_eq_true_2 in H by done. apply elem_of_map_to_list, list_elem_of_In in Hc. by specialize (H Hc).
Qed.
Lemma owner_check g p o :
  match credentials g !! p with Some c => bool_decide (c_rotates c = o) | None => true end = true →
  ∀ c, credentials g !! p = Some c → c_rotates c = o.
Proof. intros H c Hc. rewrite Hc in H. by apply bool_decide_eq_true in H. Qed.

(** ** The claims, there *)

Lemma resident_store_refines_witness :
  let r := default row_at_last (performs is_origin digest [Call (op_construct (Some 5) (replicate 16 1)) true []] None) in
  let enroll := op_beginEnrollment (Some (mkBegin origin grant_token "Elpis")) (Some 7) (replicate 16 3) (replicate 32 4) (replicate 16 5) in
  ∃ r', performs is_origin digest [Call enroll true []] (Some r) = Some r' ∧ evolves is_origin r r'
    ∧ via digest [enroll] (held r) (held r') ∧ phase r' = enrolling.
Proof.
  intros r enroll. destruct (resident_store_refines is_origin digest [Call (op_construct (Some 5) (replicate 16 1)) true []] r)
    as (_ & _ & _ & H & _); [vm_compute; reflexivity|]. destruct (H [Call enroll true []]) as (r' & Hr' & He & Hv).
  exists r'. split_and!; [done..|]. vm_compute in Hr'. by injection Hr' as <-.
Defined.
Lemma credential_store_safe_witness :
  let d := serves digest [(kindly, grant_call)] new_gateway in
  (∀ w c u d', call_ok c → serve digest w c d = (inl (SqlError u), d') → w_commits w = false ∨ u = true ∧ ids_taken c d)
  ∧ (∀ id c, credentials d !! id = Some c → ∃ c', credentials (serves digest [(kindly, grant_call)] d) !! id = Some c' ∧ keeps c c').
Proof.
  intros d. destruct (credential_store_safe digest (λ s, proj2 (digest_ok s)) [(kindly, grant_call)] [(kindly, grant_call)]) as (_ & H & H' & _);
    [repeat constructor; lia|exact (conj H H')].
Defined.
Definition enrollment_of (name : string) : gateway_call :=
  gc_enroll (mkEnrollmentInput grant_token "egi1.AQEBAQEBAQEBAQEBAQEBAQ" name "AwMDAwMDAwMDAwMDAwMDAw" (replicate 32 4) None).
Lemma credential_store_refines_witness :
  let d := serves digest [(kindly, grant_call)] new_gateway in
  steps_by (may digest (enrollment_of "Elpis")) (view d) (view (serve digest kindly (enrollment_of "Elpis") d).2).
Proof.
  intros d. apply (credential_store_refines digest [(kindly, grant_call)] kindly (enrollment_of "Elpis"));
    [intros s; apply digest_ok|repeat constructor; lia].
Defined.
Lemma never_locked_out_witness :
  ∃ t t', active_credential_token row_at_last = Some t ∧ pending_credential_token row_at_last = Some t'
    ∧ (lets_in digest (sy_gateway at_last) t (instance_id row_at_last) ∨ withdrawn digest (sy_gateway at_last) t
       ∨ is_Some (rotation_proposed_at row_at_last)
         ∧ (lets_in digest (sy_gateway at_last) t' (instance_id row_at_last) ∨ withdrawn digest (sy_gateway at_last) t')).
Proof.
  exact (never_locked_out is_origin digest lim peer digest_ok at_first at_last row_at_last (proj1 story_runs) (proj2 story_runs) row_found).
Defined.
Lemma rotation_completes_witness :
  let '(c, x, _, g) := exchange is_origin digest lim peer transport kindly 1000 (writing 0)
    (exchange is_origin digest lim peer transport kindly 1000 (writing 0)
      (start is_origin digest (Some resume_mode) (writing 0) (new_rotation resume_mode) (sy_resident at_last), sy_buckets at_last, sy_gateway at_last)) in
  rc_current c = rot_rotated.
Proof.
  pose proof (rotation_completes is_origin digest lim peer origin_ascii digest_ok transport transport_honest kindly 1000 1000 (writing 0) 2000
    kindly_kind eq_refl (conj eq_refl (conj eq_refl eq_refl)) resume_mode at_first at_last row_at_last (proj1 story_runs) (proj2 story_runs) row_found eq_refl) as H.
  destruct (exchange _ _ _ _ _ _ _ _ _) as [[[c x] m] g]. apply H.
  - intros tok _. apply none_withdrawn. vm_compute. reflexivity.
  - intros p c' [= <-]. apply owner_check. vm_compute. reflexivity.
  - split_and!; vm_compute; reflexivity.
Defined.
Lemma controllers_covered_witness :
  let '(c, x) := rotation_steps is_origin digest [ev_start (Some resume_mode) (writing 0)] (new_rotation resume_mode, sy_resident at_last) in
  is_Some (rc_stage c) ∧ ∀ g, rc_stage c = Some g → rc_stopRequested c = false ∧ covered_rotation (stage_request g) (secrets x).
Proof.
  pose proof (controllers_covered is_origin digest digest_ok resume_mode None "Elpis" (sy_resident at_last)
    [ev_start (Some resume_mode) (writing 0)] []) as H.
  assert (not_null (rc_stage (rotation_steps is_origin digest [ev_start (Some resume_mode) (writing 0)]
    (new_rotation resume_mode, sy_resident at_last)).1) = true) as Hs by (vm_compute; reflexivity).
  destruct (rotation_steps _ _ _ _) as [c x]. split; [|apply H].
  simpl in Hs. by destruct (rc_stage c).
Defined.
