(* ===== verification/Editor.v ===== *)
(** * String replacement (src/lib/editor.ts)

    The primitive behind [elpis.edit]: exact substring replacement with a diff of
    what changed, and the orientation it gives when the needle is not found (the
    line closest to it in edit distance). *)

From stdpp Require Import sorting.
From S2P Require Import Prelude JsString JsText.
Local Open Scope list_scope.

Definition NL : Z := 10.

Record EditHunk := mkHunk {
  from : nat;
  removed : list jstring;
  inserted : list jstring;
}.

Record EditResult := mkResult {
  source : jstring;
  count : nat;
  hunks : list EditHunk;
}.

(** What [replace] throws. *)
Inductive edit_error :=
  | EmptyOld
  | SameStrings
  | NotFound (orientation : jstring)
  | NotUnique (occurrences : nat) (lines : jstring).

(** ** Lines *)

(** The loop of [lineNumberAt]. *)
Definition lineNumberAt (src : jstring) (at_ : nat) : nat :=
  foldl (λ line u, if (u =? NL)%Z then S line else line) 1 (take at_ src).

Fixpoint startOfLine (src : jstring) (at_ : nat) : nat :=
  match at_ with
  | O => O
  | S i =>
      match src !! i with
      | Some u => if (u =? NL)%Z then S i else startOfLine src i
      | None => startOfLine src i
      end
  end.

(** [while (i < s.length && s[i] !== '\n') i++], counted from the start of [s]. *)
Fixpoint to_break (s : jstring) : nat :=
  match s with
  | [] => O
  | u :: s => if (u =? NL)%Z then O else S (to_break s)
  end.

Definition formatLineList (lines : list nat) : jstring :=
  join (lit ", ") (map decimal (take 8 lines))
  ++ if Nat.ltb 8 (length lines) then lit ", " ++ [0x2026%Z] else [].

(** ** Edit distance *)

(** One row of the table: [prev] from column [j - 1], [left] is [curr[j - 1]]. *)
Fixpoint next_row (ac : Z) (b : jstring) (prev : list nat) (left : nat) : list nat :=
  match b, prev with
  | bc :: b, diag :: ((up :: _) as prev) =>
      let cost := if (ac =? bc)%Z then 0 else 1 in
      let v := Nat.min (Nat.min (up + 1) (left + 1)) (diag + cost) in
      v :: next_row ac b prev v
  | _, _ => []
  end.

(** The loop over the rows, with the early out; [None] is Infinity. *)
Fixpoint rows (a b : jstring) (i : nat) (prev : list nat) (max : option nat) : nat :=
  match a with
  | [] => List.last prev 0
  | ac :: a =>
      let curr := i :: next_row ac b prev i in
      let rowMin := foldl Nat.min i curr in
      match max with
      | Some m => if Nat.ltb m rowMin then rowMin else rows a b (S i) curr max
      | None => rows a b (S i) curr max
      end
  end.

Definition levenshtein (a b : jstring) (max : option nat) : nat :=
  if bool_decide (a = b) then 0
  else match a, b with
       | [], _ => length b
       | _, [] => length a
       | _, _ => rows a b 1 (List.seq 0 (S (length b))) max
       end.

(** ** Orientation *)

(** The loop that looks for the best line: index and score of the incumbent. *)
Fixpoint closest (lines : list jstring) (probe : jstring) (i : nat) (best : nat)
    (bestScore : option nat) : nat :=
  match lines with
  | [] => best
  | line :: lines =>
      let d := levenshtein (trim line) probe bestScore in
      if match bestScore with Some s => Nat.ltb d s | None => true end
      then closest lines probe (S i) i (Some d)
      else closest lines probe (S i) best bestScore
  end.

Definition empty_note : jstring :=
  lit "(no near-miss suggestion " ++ [0x2014%Z] ++ lit " the file is empty)".

Definition nearMiss (src oldStr : jstring) : jstring :=
  let lines := split_on NL src in
  let needleLines := split_on NL oldStr in
  let probe := trim (default [] (head needleLines)) in
  if bool_decide (probe = []) || bool_decide (lines = [[]]) then empty_note
  else
    let best := closest lines probe 0 0 None in
    let span := Nat.max 1 (length needleLines) in
    let first := best - 2 in
    let last := Nat.min (length lines - 1) (Nat.min (best + span - 1 + 2) (first + 11)) in
    join [NL]
      ((lit "closest match near line " ++ decimal (best + 1) ++ lit ":")
       :: map (λ i, padStart 4 (decimal (i + 1)) ++ lit ": " ++ default [] (lines !! i))
            (List.seq first (S last - first))).

(** ** Replacement *)

(** Every match offset, non-overlapping: each search starts past the last match.
    The fuel is the number of characters and one more. *)
Fixpoint find_all (fuel : nat) (oldStr src : jstring) (i : option nat) : list nat :=
  match fuel, i with
  | S fuel, Some i => i :: find_all fuel oldStr src (indexOf oldStr src (i + length oldStr))
  | _, _ => []
  end.
Definition offsets_of (oldStr src : jstring) : list nat :=
  find_all (S (length src)) oldStr src (indexOf oldStr src 0).

Definition slice (s : jstring) (a b : nat) : jstring := take (b - a) (drop a s).

Definition hunk_at (src oldStr newStr : jstring) (off : nat) : EditHunk :=
  let lineStart := startOfLine src off in
  let spanEnd := off + length oldStr in
  let lineEnd := spanEnd + to_break (drop spanEnd src) in
  {| from := lineNumberAt src lineStart;
     removed := split_on NL (slice src lineStart lineEnd);
     inserted := split_on NL (slice src lineStart off ++ newStr ++ slice src spanEnd lineEnd) |}.

(** [out.slice(0, off) + newStr + out.slice(off + oldStr.length)] *)
Definition splice (oldStr newStr : jstring) (out : jstring) (off : nat) : jstring :=
  take off out ++ newStr ++ drop (off + length oldStr) out.

Definition replace (src oldStr newStr : jstring) (all : bool) : edit_error + EditResult :=
  check (negb (bool_decide (oldStr = []))) EmptyOld;;
  check (negb (bool_decide (oldStr = newStr))) SameStrings;;
  let offsets := offsets_of oldStr src in
  match offsets with
  | [] => inl (NotFound (nearMiss src oldStr))
  | first :: rest =>
      check (bool_decide (rest = []) || all)
        (NotUnique (length offsets) (formatLineList (map (lineNumberAt src) offsets)));;
      let targets := if all then offsets else [first] in
      mret {| source := foldl (splice oldStr newStr) src (merge_sort (flip le) targets);
              count := length targets;
              hunks := map (hunk_at src oldStr newStr) targets |}
  end.

Example replace_once :
  replace (lit "let x = 1") (lit "x") (lit "y") false
  = inr (mkResult (lit "let y = 1") 1 [mkHunk 1 [lit "let x = 1"] [lit "let y = 1"]]).
Proof. vm_compute. reflexivity. Qed.
Example replace_all :
  (r ← replace (lit "aXbXc") (lit "X") (lit "XX") true; mret (source r)) = inr (lit "aXXbXXc").
Proof. vm_compute. reflexivity. Qed.
Example kitten_sitting : levenshtein (lit "kitten") (lit "sitting") None = 3.
Proof. vm_compute. reflexivity. Qed.

(** * String replacement: theorems

    [replace] of src/lib/editor.ts rewrites exactly the non-overlapping matches a
    reader finds from left to right, its diff applied to the lines of the source
    gives the lines of the result, and [levenshtein] computes the edit distance
    (up to its ceiling), so the orientation points at a closest line. *)


(** ** Matches *)

(** The pieces of a text between its matches, found from left to right. *)
Inductive cut (old : jstring) : jstring → list jstring → Prop :=
  | cut_last s : (∀ i, ¬ occurs old s i) → cut old s [s]
  | cut_more a s ps :
      (∀ i, i < length a → ¬ occurs old (a ++ old ++ s) i) → cut old s ps →
      cut old (a ++ old ++ s) (a :: ps).

(** The offsets of the matches, when the first piece starts at [k]. *)
Fixpoint positions (old : jstring) (k : nat) (ps : list jstring) : list nat :=
  match ps with
  | p :: ((_ :: _) as ps) => (k + length p) :: positions old (k + length p + length old) ps
  | _ => []
  end.

Lemma cut_nonnil old s ps : cut old s ps → ps ≠ [].
Proof. by destruct 1. Qed.
Lemma join_cons sep p q ps : join sep (p :: q :: ps) = p ++ sep ++ join sep (q :: ps).
Proof. done. Qed.
Lemma cut_join old s ps : cut old s ps → s = join old ps.
Proof.
  induction 1 as [s _|a s ps _ Hc IH]; [done|]. destruct ps as [|q ps]; [by apply cut_nonnil in Hc|].
  by rewrite join_cons, <- IH.
Qed.

Lemma length_positions old k ps : length (positions old k ps) = length ps - 1.
Proof.
  revert k. induction ps as [|p [|q ps] IH]; intros k; [done|done|].
  change (S (length (positions old (k + length p + length old) (q :: ps))) = length (q :: ps)).
  rewrite IH. simpl. lia.
Qed.

Lemma find_all_spec old src k fuel :
  old ≠ [] → k ≤ length src → length src - k < fuel →
  ∃ ps, cut old (drop k src) ps ∧ find_all fuel old src (indexOf old src k) = positions old k ps.
Proof.
  intros Hold. revert k. induction fuel as [|fuel IH]; intros k Hk Hf; [lia|].
  unfold indexOf. destruct (index_in old (drop k src)) as [n|] eqn:E; simpl.
  - apply index_in_Some in E as [(a & b & Hs & Ha) Hmin].
    assert (length old ≠ 0) as Hlen by (by destruct old).
    assert (length (drop k src) = length a + length old + length b) as Hl
      by (rewrite Hs, !length_app; lia).
    rewrite length_drop in Hl.
    destruct (IH (k + n + length old)) as (ps & Hc & Hp); [lia|lia|].
    assert (drop (k + n + length old) src = b) as Hd.
    { rewrite <- Nat.add_assoc, <- drop_drop, Hs, app_assoc, drop_app_length'; [done|].
      rewrite length_app. lia. }
    rewrite Hd in Hc. exists (a :: ps). split.
    + rewrite Hs. constructor; [|done]. intros i Hi. rewrite <- Hs. apply Hmin. lia.
    + rewrite Hp. destruct ps; [by apply cut_nonnil in Hc|]. by rewrite <- Ha.
  - exists [drop k src]. split; [|done]. constructor. by apply index_in_None.
Qed.

Lemma offsets_spec old src :
  old ≠ [] → ∃ ps, cut old src ps ∧ offsets_of old src = positions old 0 ps.
Proof. intros H. destruct (find_all_spec old src 0 (S (length src)) H) as (ps & Hc & Hp); [lia|lia|eauto]. Qed.

(** Offsets ascend, so sorting them in descending order reverses them. *)
Lemma positions_above old k ps x : x ∈ positions old k ps → k ≤ x.
Proof.
  revert k. induction ps as [|p [|q ps] IH]; intros k; [by intros ?%elem_of_nil..|].
  change (x ∈ (k + length p) :: positions old (k + length p + length old) (q :: ps) → k ≤ x).
  intros [->|H%IH]%elem_of_cons; lia.
Qed.
Lemma positions_sorted old k ps : StronglySorted le (positions old k ps).
Proof.
  revert k. induction ps as [|p [|q ps] IH]; intros k; [constructor..|].
  change (StronglySorted le ((k + length p) :: positions old (k + length p + length old) (q :: ps))).
  constructor; [apply IH|]. apply Forall_forall. intros x Hx%positions_above. lia.
Qed.

Lemma StronglySorted_rev {A} (R : relation A) l : StronglySorted R l → StronglySorted (flip R) (rev l).
Proof.
  induction 1 as [|x l _ IH Hx]; simpl; [constructor|].
  apply StronglySorted_app. split_and!; [|done|repeat constructor].
  intros y z Hy ->%list_elem_of_singleton. apply list_elem_of_In, in_rev, list_elem_of_In in Hy.
  rewrite Forall_forall in Hx. by apply Hx.
Qed.

Lemma sort_positions l : StronglySorted le l → merge_sort (flip le) l = rev l.
Proof.
  intros Hl. apply (StronglySorted_unique_strong (flip le)).
  - intros x y _ _. unfold flip. lia.
  - apply StronglySorted_merge_sort; [intros x y z|intros x y]; unfold flip; lia.
  - by apply StronglySorted_rev.
  - rewrite merge_sort_Permutation. apply Permutation_rev.
Qed.

(** Splicing from right to left replaces every match. *)
Lemma splice_at old new p q : splice old new (p ++ old ++ q) (length p) = p ++ new ++ q.
Proof.
  unfold splice. rewrite take_app_length. f_equal. f_equal. rewrite app_assoc.
  rewrite drop_app_length'; [done|]. by rewrite length_app.
Qed.
Lemma splice_all old new pre ps :
  ps ≠ [] →
  foldl (splice old new) (pre ++ join old ps) (rev (positions old (length pre) ps)) = pre ++ join new ps.
Proof.
  revert pre. induction ps as [|p [|q ps] IH]; intros pre Hne; [done|done|]. rewrite !join_cons.
  change (positions old (length pre) (p :: q :: ps))
    with ((length pre + length p) :: positions old (length pre + length p + length old) (q :: ps)).
  cbn [rev]. rewrite foldl_app. cbn [foldl].
  specialize (IH (pre ++ p ++ old)). rewrite !length_app, <- !app_assoc, Nat.add_assoc in IH.
  rewrite IH by done. rewrite (app_assoc pre p), <- length_app, splice_at. by rewrite <- app_assoc.
Qed.

(** Replacement is exact.  Let the pieces of the source be what lies between
    the matches found from left to right.  With no match the call throws; with
    several and without [all] it throws the number of matches; otherwise the
    result is the pieces joined by the new string, and the count is the number
    of matches.  Nothing else of the source changes. *)
Theorem replace_exact src old new all :
  old ≠ [] → old ≠ new →
  ∃ ps, cut old src ps ∧ src = join old ps
    ∧ match replace src old new all with
      | inr r => 2 ≤ length ps ∧ (all = false → length ps = 2)
                 ∧ source r = join new ps ∧ S (count r) = length ps
      | inl (NotFound _) => ps = [src] ∧ ∀ i, ¬ occurs old src i
      | inl (NotUnique n _) => all = false ∧ S n = length ps ∧ 2 < length ps
      | inl _ => False
      end.
Proof.
  intros Hold Hnew. destruct (offsets_spec old src Hold) as (ps & Hc & Ho).
  exists ps. pose proof (cut_join _ _ _ Hc) as Hj. split; [done|]. split; [done|].
  unfold replace. rewrite !bool_decide_false by done. simpl.
  pose proof (length_positions old 0 ps) as Hlen. rewrite Ho.
  pose proof (splice_all old new [] ps (cut_nonnil _ _ _ Hc)) as Hsp.
  pose proof (positions_sorted old 0 ps) as Hsort. simpl in Hsp. rewrite <- Hj in Hsp.
  destruct (positions old 0 ps) as [|first rest] eqn:E; simpl in Hlen.
  - destruct ps as [|p [|q ps]]; [by apply cut_nonnil in Hc| |done].
    simpl in Hj. subst p. split; [done|]. inversion Hc as [? Hno|]; subst; [done|].
    match goal with H : cut _ _ [] |- _ => by apply cut_nonnil in H end.
  - case_bool_decide as Hrest; simpl.
    + subst rest. rewrite sort_positions by (by destruct all). simpl in *.
      replace (if all then [first] else [first]) with [first] by (by destruct all). simpl. split_and!; [lia|lia|done|lia].
    + destruct all; simpl.
      * rewrite sort_positions by done. split_and!; [lia|done|done|lia].
      * destruct rest; [done|]. simpl in *. lia.
Qed.

(** ** The diff *)

Definition breaks (s : jstring) : nat := foldl (λ n u, if (u =? NL)%Z then S n else n) 0 s.

Lemma breaks_shift s n :
  foldl (λ n u, if (u =? NL)%Z then S n else n) n s = n + breaks s.
Proof.
  unfold breaks. revert n. induction s as [|u s IH]; intros n; simpl; [lia|].
  rewrite IH, (IH (if (u =? NL)%Z then 1 else 0)). destruct (u =? NL)%Z; lia.
Qed.
Lemma length_lines s : length (split_on NL s) = S (breaks s).
Proof.
  induction s as [|u s IH]; [done|]. unfold breaks. simpl. rewrite breaks_shift.
  destruct (u =? NL)%Z; simpl; [lia|].
  destruct (split_on NL s) eqn:E; [by destruct (split_on_nonnil NL s)|]. simpl in *. lia.
Qed.

(** A text up to the start of a line: nothing, or something up to a line break. *)
Definition at_line_start (s : jstring) : Prop := s = [] ∨ ∃ s', s = s' ++ [NL].
Definition at_line_end (s : jstring) : Prop := s = [] ∨ ∃ s', s = NL :: s'.

Lemma startOfLine_spec (src : jstring) off :
  off ≤ length src →
  startOfLine src off ≤ off ∧ at_line_start (take (startOfLine src off) src)
  ∧ NL ∉ slice src (startOfLine src off) off.
Proof.
  induction off as [|off IH]; intros Hl; simpl.
  { split_and!; [done|by left|]. unfold slice. simpl. apply not_elem_of_nil. }
  destruct (src !! off) as [u|] eqn:Hu; [|by apply lookup_ge_None in Hu; lia].
  destruct (Z.eqb_spec u NL) as [->|Hne].
  - split_and!; [done| |].
    + right. exists (take off src). by rewrite (take_S_r _ _ _ Hu).
    + unfold slice. replace (S off - S off) with 0 by lia. apply not_elem_of_nil.
  - destruct IH as (H1 & H2 & H3); [lia|]. split_and!; [lia|done|].
    unfold slice in *. replace (S off - startOfLine src off)
      with (S (off - startOfLine src off)) by lia.
    rewrite (take_S_r _ _ u).
    + rewrite elem_of_app, list_elem_of_singleton. naive_solver.
    + rewrite lookup_drop. rewrite <- Hu. f_equal. lia.
Qed.
Lemma take_block (a b q : jstring) n k :
  k = length a + length b + n → take k (a ++ b ++ q) = a ++ b ++ take n q.
Proof.
  intros ->. rewrite !take_app. rewrite (take_ge a) by lia. rewrite (take_ge b) by lia.
  do 3 f_equal. lia.
Qed.
Lemma to_break_spec s : at_line_end (drop (to_break s) s).
Proof.
  induction s as [|u s IH]; simpl; [by left|]. destruct (Z.eqb_spec u NL) as [->|_]; simpl; [|done].
  right. eauto.
Qed.

(** Lines of a text around a block of whole lines. *)
Lemma lines_around pre mid post :
  at_line_start pre → at_line_end post →
  split_on NL (pre ++ mid ++ post)
  = take (breaks pre) (split_on NL pre) ++ split_on NL mid ++ drop 1 (split_on NL post).
Proof.
  intros Hpre Hpost.
  assert (split_on NL (mid ++ post) = split_on NL mid ++ drop 1 (split_on NL post)) as Hmid.
  { destruct Hpost as [->|[post' ->]]; [by rewrite !app_nil_r|]. by rewrite split_on_break. }
  destruct Hpre as [->|[pre' ->]]; [done|].
  rewrite <- app_assoc. cbn [app]. rewrite !split_on_break, Hmid. f_equal.
  rewrite take_app_le.
  - rewrite take_ge; [done|]. rewrite length_lines. unfold breaks. rewrite foldl_app. simpl. lia.
  - rewrite length_lines. unfold breaks. rewrite foldl_app. simpl. lia.
Qed.

(** A block of lines replaced by another. *)
Lemma lines_replaced pre mid mid' post :
  at_line_start pre → at_line_end post →
  let lines := split_on NL (pre ++ mid ++ post) in
  take (length (split_on NL mid)) (drop (breaks pre) lines) = split_on NL mid
  ∧ split_on NL (pre ++ mid' ++ post)
    = take (breaks pre) lines ++ split_on NL mid'
      ++ drop (breaks pre + length (split_on NL mid)) lines.
Proof.
  intros Hpre Hpost lines. subst lines. rewrite !lines_around by done.
  set (p := take (breaks pre) (split_on NL pre)).
  assert (length p = breaks pre) as Hp by (subst p; rewrite length_take, length_lines; lia).
  rewrite drop_app_length' by done. split; [by rewrite take_app_length|].
  rewrite take_app_length' by done. rewrite <- drop_drop, drop_app_length' by done.
  by rewrite drop_app_length.
Qed.

Lemma hunk_at_exact (p old new q : jstring) :
  let src := p ++ old ++ q in
  let h := hunk_at src old new (length p) in
  let lines := split_on NL src in
  1 ≤ from h
  ∧ take (length (removed h)) (drop (from h - 1) lines) = removed h
  ∧ split_on NL (p ++ new ++ q)
    = take (from h - 1) lines ++ inserted h ++ drop (from h - 1 + length (removed h)) lines.
Proof.
  intros src. unfold hunk_at. set (off := length p). simpl.
  destruct (startOfLine_spec src off) as (H1 & H2 & _); [subst src; rewrite !length_app; lia|].
  set (st := startOfLine src off) in *.
  assert (drop (off + length old) src = q) as ->.
  { subst src. rewrite app_assoc, drop_app_length'; [done|]. by rewrite length_app. }
  assert (slice src (off + length old) (off + length old + to_break q) = take (to_break q) q) as ->.
  { unfold slice. subst src. rewrite app_assoc, drop_app_length' by (by rewrite length_app).
    f_equal. lia. }
  assert (take st src = take st p) as Htk by (subst src; by rewrite take_app_le).
  assert (slice src st off = drop st p) as ->.
  { unfold slice. subst src. rewrite drop_app_le by done. rewrite take_app_length'; [done|].
    rewrite length_drop. subst off. lia. }
  assert (slice src st (off + length old + to_break q) = drop st p ++ old ++ take (to_break q) q)
    as ->.
  { unfold slice. subst src. rewrite drop_app_le by done. apply take_block.
    rewrite length_drop. subst off. lia. }
  destruct (lines_replaced (take st p) (drop st p ++ old ++ take (to_break q) q)
    (drop st p ++ new ++ take (to_break q) q) (drop (to_break q) q)) as [Hr Hi];
    [by rewrite <- Htk|apply to_break_spec|].
  assert (∀ x, take st p ++ (drop st p ++ x ++ take (to_break q) q) ++ drop (to_break q) q
               = p ++ x ++ q) as Hx.
  { intros x. rewrite <- !app_assoc, take_drop, (app_assoc (take st p)), take_drop. done. }
  rewrite Hx in Hr. rewrite (Hx new), !(Hx old) in Hi.
  unfold lineNumberAt. rewrite breaks_shift, Htk.
  replace (1 + breaks (take st p) - 1) with (breaks (take st p)) by lia.
  split; [lia|]. split; [exact Hr|exact Hi].
Qed.

(** The diff is exact: applying the hunk of a single replacement to the
    lines of the source - taking [removed] out at line [from] and putting
    [inserted] there - gives the lines of the result, and [removed] is what the
    source has there. *)
Theorem hunk_exact src old new r :
  replace src old new false = inr r →
  ∃ h, hunks r = [h]
    ∧ let lines := split_on NL src in
      1 ≤ from h
      ∧ take (length (removed h)) (drop (from h - 1) lines) = removed h
      ∧ split_on NL (source r)
        = take (from h - 1) lines ++ inserted h ++ drop (from h - 1 + length (removed h)) lines.
Proof.
  unfold replace. intros (u & Hold%check_inr & H)%bind_inr.
  apply bind_inr in H as (u' & Hnew%check_inr & H). guards. revert H.
  destruct (offsets_spec old src Hold) as (ps & Hc & ->).
  destruct ps as [|p [|q [|q' ps]]]; [done|done| |done].
  intros [= <-]. eexists. split; [done|]. apply cut_join in Hc. simpl in Hc. subst src.
  change (merge_sort (flip le) [0 + length p]) with [length p]. simpl foldl. rewrite splice_at.
  apply (hunk_at_exact p old new q).
Qed.

(** ** Edit distance *)

(** Edit scripts: how many single-character edits turn one text into another. *)
Inductive edits : jstring → jstring → nat → Prop :=
  | edits_nil : edits [] [] 0
  | edits_keep x a b n : edits a b n → edits (x :: a) (x :: b) n
  | edits_change x y a b n : edits a b n → edits (x :: a) (y :: b) (S n)
  | edits_delete x a b n : edits a b n → edits (x :: a) b (S n)
  | edits_insert y a b n : edits a b n → edits a (y :: b) (S n).
#[local] Hint Constructors edits : elpis.

(** The length of a shortest script. *)
Definition distance (a b : jstring) (n : nat) : Prop :=
  edits a b n ∧ ∀ m, edits a b m → n ≤ m.

Lemma edits_app a b n a' b' n' : edits a b n → edits a' b' n' → edits (a ++ a') (b ++ b') (n + n').
Proof. intros H H'. induction H; simpl; auto with elpis. Qed.
Lemma edits_rev a b n : edits a b n → edits (rev a) (rev b) n.
Proof.
  induction 1 as [|x a b n _ IH|x y a b n _ IH|x a b n _ IH|y a b n _ IH]; simpl; [constructor|..].
  - rewrite <- (Nat.add_0_r n). apply edits_app; auto with elpis.
  - replace (S n) with (n + 1) by lia. apply edits_app; auto with elpis.
  - replace (S n) with (n + 1) by lia. rewrite <- (app_nil_r (rev b)). apply edits_app; auto with elpis.
  - replace (S n) with (n + 1) by lia. rewrite <- (app_nil_r (rev a)). apply edits_app; auto with elpis.
Qed.

(** The last step of a script. *)
Lemma edits_snoc a x b y n :
  edits (a ++ [x]) (b ++ [y]) n →
  (∃ m, edits a b m ∧ n = m + (if (x =? y)%Z then 0 else 1))
  ∨ (∃ m, edits a b m ∧ n = S m)
  ∨ (∃ m, edits a (b ++ [y]) m ∧ n = S m)
  ∨ (∃ m, edits (a ++ [x]) b m ∧ n = S m).
Proof.
  intros H%edits_rev. rewrite !rev_app_distr in H. simpl in H.
  assert (∀ u v m, edits (rev u) v m → edits u (rev v) m) as Hrev.
  { intros u v m Hm%edits_rev. by rewrite rev_involutive in Hm. }
  inversion H as [|? ? ? m Hm|? ? ? ? m Hm|? ? ? m Hm|? ? ? m Hm]; subst.
  - left. exists n. rewrite Z.eqb_refl. apply Hrev in Hm. rewrite rev_involutive in Hm. split; [done|lia].
  - right. left. exists m. apply Hrev in Hm. by rewrite rev_involutive in Hm.
  - right. right. left. exists m. apply Hrev in Hm. simpl in Hm. by rewrite rev_involutive in Hm.
  - right. right. right. exists m. split; [|done].
    change (x :: rev a) with ([x] ++ rev a) in Hm. rewrite <- (rev_involutive ([x] ++ rev a)) in Hm.
    apply Hrev in Hm. by rewrite rev_app_distr, !rev_involutive in Hm.
Qed.

Lemma distance_unique a b n m : distance a b n → distance a b m → n = m.
Proof. intros [H1 H2] [H3 H4]. apply H4 in H1. apply H2 in H3. lia. Qed.
Lemma distance_nil_l b : distance [] b (length b).
Proof.
  split; [induction b; simpl; auto with elpis|]. induction b as [|y b IH]; intros m H; [simpl; lia|].
  inversion H as [| | | |? ? ? k Hk]; subst. apply IH in Hk. simpl. lia.
Qed.
Lemma distance_nil_r a : distance a [] (length a).
Proof.
  split; [induction a; simpl; auto with elpis|]. induction a as [|x a IH]; intros m H; [simpl; lia|].
  inversion H as [| | |? ? ? k Hk|]; subst. apply IH in Hk. simpl. lia.
Qed.

(** The recurrence of the table. *)
Lemma distance_step a x b y diag up left :
  distance a b diag → distance a (b ++ [y]) up → distance (a ++ [x]) b left →
  distance (a ++ [x]) (b ++ [y])
    (Nat.min (Nat.min (up + 1) (left + 1)) (diag + (if (x =? y)%Z then 0 else 1))).
Proof.
  intros [Hd1 Hd2] [Hu1 Hu2] [Hl1 Hl2]. split.
  - destruct (Nat.min_spec (Nat.min (up + 1) (left + 1)) (diag + (if (x =? y)%Z then 0 else 1)))
      as [[_ ->]|[_ ->]]; [destruct (Nat.min_spec (up + 1) (left + 1)) as [[_ ->]|[_ ->]]|].
    + rewrite <- (app_nil_r (b ++ [y])). apply edits_app; auto with elpis.
    + rewrite <- (app_nil_r (a ++ [x])). apply edits_app; auto with elpis.
    + apply edits_app; [done|]. destruct (Z.eqb_spec x y) as [->|]; auto with elpis.
  - intros m [(k & Hk & ->)|[(k & Hk & ->)|[(k & Hk & ->)|(k & Hk & ->)]]]%edits_snoc.
    + apply Hd2 in Hk. lia.
    + apply Hd2 in Hk. destruct (x =? y)%Z; lia.
    + apply Hu2 in Hk. lia.
    + apply Hl2 in Hk. lia.
Qed.

(** Distances of one text against every longer prefix of another. *)
Fixpoint cells (a pb bs : jstring) (vs : list nat) : Prop :=
  match bs, vs with
  | [], [v] => distance a pb v
  | y :: bs, v :: vs => distance a pb v ∧ cells a (pb ++ [y]) bs vs
  | _, _ => False
  end.

Lemma cells_head a pb bs vs : cells a pb bs vs → ∃ v vs', vs = v :: vs' ∧ distance a pb v.
Proof. destruct bs, vs as [|v vs]; simpl; try done; [destruct vs; [|done]|intros [? _]]; eauto. Qed.
Lemma cells_last a pb bs vs : cells a pb bs vs → distance a (pb ++ bs) (List.last vs 0).
Proof.
  revert pb vs. induction bs as [|y bs IH]; intros pb vs; destruct vs as [|v vs]; simpl; try done.
  - destruct vs; [|done]. by rewrite app_nil_r.
  - intros [_ H]. destruct (cells_head _ _ _ _ H) as (w & ws & -> & _). apply IH in H.
    by rewrite <- app_assoc in H.
Qed.

Lemma next_row_spec a x pb bs prev left :
  cells a pb bs prev → distance (a ++ [x]) pb left →
  cells (a ++ [x]) pb bs (left :: next_row x bs prev left).
Proof.
  revert pb prev left. induction bs as [|y bs IH]; intros pb prev left Hp Hl.
  - done.
  - destruct prev as [|diag prev]; [done|]. destruct Hp as [Hd Hp].
    destruct (cells_head _ _ _ _ Hp) as (up & rest & -> & Hu).
    split; [done|]. apply IH; [done|]. by apply distance_step.
Qed.

(** The first row, and the first cell of every row. *)
Lemma first_row pb bs : cells [] pb bs (List.seq (length pb) (S (length bs))).
Proof.
  revert pb. induction bs as [|y bs IH]; intros pb; [apply distance_nil_l|].
  split; [apply distance_nil_l|]. specialize (IH (pb ++ [y])). rewrite length_app in IH.
  simpl in IH. by rewrite Nat.add_1_r in IH.
Qed.

(** The early out: no text extending [a] gets closer than the least cell. *)
Lemma edits_prefix a a' b n :
  edits (a ++ a') b n → ∃ b1 b2 m, b = b1 ++ b2 ∧ edits a b1 m ∧ m ≤ n.
Proof.
  intros H. remember (a ++ a') as s eqn:Hs. revert a Hs.
  induction H as [|x s b n H IH|x y s b n H IH|x s b n H IH|y s b n H IH]; intros a Hs.
  - destruct a; [|done]. exists [], [], 0. auto with elpis.
  - destruct a as [|z a]; simplify_eq/=; [exists [], (x :: b), 0; split_and!; [done|constructor|lia]|].
    destruct (IH a) as (b1 & b2 & m & -> & Hm & Hle); [done|]. exists (z :: b1), b2, m. auto with elpis.
  - destruct a as [|z a]; simplify_eq/=; [exists [], (y :: b), 0; split_and!; [done|constructor|lia]|].
    destruct (IH a) as (b1 & b2 & m & -> & Hm & Hle); [done|]. exists (y :: b1), b2, (S m).
    split_and!; [done|auto with elpis|lia].
  - destruct a as [|z a]; simplify_eq/=; [exists [], b, 0; split_and!; [done|constructor|lia]|].
    destruct (IH a) as (b1 & b2 & m & -> & Hm & Hle); [done|]. exists b1, b2, (S m).
    split_and!; [done|auto with elpis|lia].
  - destruct (IH a Hs) as (b1 & b2 & m & -> & Hm & Hle). exists (y :: b1), b2, (S m).
    split_and!; [done|auto with elpis|lia].
Qed.
Lemma foldl_min_le l i : foldl Nat.min i l ≤ i ∧ ∀ v, v ∈ l → foldl Nat.min i l ≤ v.
Proof.
  revert i. induction l as [|w l IH]; intros i; simpl; [split; [lia|by intros ? ?%elem_of_nil]|].
  destruct (IH (Nat.min i w)) as [H1 H2]. split; [lia|]. intros v [->|Hv]%elem_of_cons; [lia|auto].
Qed.
Lemma cells_elem a pb b1 b2 vs n :
  cells a pb (b1 ++ b2) vs → distance a (pb ++ b1) n → n ∈ vs.
Proof.
  revert pb vs. induction b1 as [|y b1 IH]; intros pb vs Hc Hn.
  - rewrite app_nil_r in Hn. destruct (cells_head _ _ _ _ Hc) as (v & vs' & -> & Hv).
    rewrite (distance_unique _ _ _ _ Hn Hv). by left.
  - destruct vs as [|v vs]; [done|]. destruct Hc as [_ Hc]. right. apply (IH (pb ++ [y])); [done|].
    by rewrite <- app_assoc.
Qed.

Lemma cells_exist a b : ∃ vs, cells a [] b vs.
Proof.
  induction a as [|x a [vs Hvs]] using rev_ind; [eexists; apply (first_row [] b)|].
  eexists. apply (next_row_spec a x [] b vs (length (a ++ [x]))); [done|apply distance_nil_r].
Qed.
Lemma distance_exists a b : ∃ n, distance a b n.
Proof. destruct (cells_exist a b) as [vs Hvs%cells_last]. eauto. Qed.

Lemma row_bound a a' b vs i n :
  cells a [] b vs → edits (a ++ a') b n → foldl Nat.min i vs ≤ n.
Proof.
  intros Hc (b1 & b2 & m & -> & Hm & Hle)%edits_prefix.
  destruct (distance_exists a b1) as [d Hd]. pose proof (cells_elem _ _ _ _ _ _ Hc Hd) as Hin.
  apply (foldl_min_le vs i) in Hin. destruct Hd as [_ Hd]. apply Hd in Hm. lia.
Qed.

(** [d] is the distance, or both are above the ceiling and [d] is no larger. *)
Definition within (max : option nat) (a b : jstring) (d : nat) : Prop :=
  ∃ n, distance a b n
    ∧ match max with Some m => d = n ∨ m < d ≤ n | None => d = n end.

Lemma rows_spec a a' b prev max :
  cells a [] b prev → within max (a ++ a') b (rows a' b (S (length a)) prev max).
Proof.
  revert a prev. induction a' as [|x a' IH]; intros a prev Hc; simpl.
  - apply cells_last in Hc. rewrite app_nil_r. eexists. split; [exact Hc|]. destruct max; auto.
  - assert (cells (a ++ [x]) [] b (S (length a) :: next_row x b prev (S (length a)))) as Hn.
    { apply next_row_spec; [done|]. replace (S (length a)) with (length (a ++ [x]))
        by (rewrite length_app; simpl; lia). apply distance_nil_r. }
    specialize (IH (a ++ [x]) _ Hn). rewrite length_app, <- app_assoc, Nat.add_1_r in IH.
    destruct max as [m|]; [|exact IH]. destruct (Nat.ltb m _) eqn:Hlt; [|exact IH].
    apply Nat.ltb_lt in Hlt.
    destruct (distance_exists (a ++ x :: a') b) as [n Hd]. exists n. split; [done|]. right.
    split; [exact Hlt|]. apply (row_bound (a ++ [x]) a' b _ (S (length a)) n Hn).
    rewrite <- app_assoc. apply Hd.
Qed.

Lemma levenshtein_within a b max : within max a b (levenshtein a b max).
Proof.
  unfold levenshtein. case_bool_decide as Heq.
  { subst. exists 0. split; [|destruct max; auto]. split; [|lia]. induction b; auto with elpis. }
  destruct a as [|x a]; [exists (length b); split; [apply distance_nil_l|destruct max; auto]|].
  destruct b as [|y b]; [eexists; split; [apply distance_nil_r|destruct max; auto]|].
  apply (rows_spec [] (x :: a)). apply (first_row [] (y :: b)).
Qed.

(** [levenshtein] is the edit distance: the length of a shortest sequence of
    insertions, deletions and changes of single characters.  With a ceiling it
    may give up early, but only when the distance is above the ceiling, and then
    what it returns is above the ceiling too. *)
Theorem levenshtein_exact a b max :
  ∃ n, edits a b n ∧ (∀ m, edits a b m → n ≤ m)
    ∧ levenshtein a b None = n
    ∧ (levenshtein a b (Some max) ≤ max ∨ n ≤ max → levenshtein a b (Some max) = n).
Proof.
  destruct (levenshtein_within a b None) as (n & Hn & ->).
  destruct (levenshtein_within a b (Some max)) as (n' & Hn' & H).
  rewrite (distance_unique _ _ _ _ Hn' Hn) in H. exists n.
  split; [apply Hn|]. split; [apply Hn|]. split; [done|]. lia.
Qed.

(** ** Orientation *)

(** The incumbent of the search: the first closest of the lines seen. *)
Definition incumbent (seen : list jstring) (probe : jstring) (best score : nat) : Prop :=
  ∃ line, seen !! best = Some line ∧ distance (trim line) probe score
    ∧ ∀ k other n, seen !! k = Some other → distance (trim other) probe n →
        score ≤ n ∧ (n = score → best ≤ k).

Lemma closest_from lines seen probe best score :
  incumbent seen probe best score →
  ∃ s, incumbent (seen ++ lines) probe (closest lines probe (length seen) best (Some score)) s.
Proof.
  revert seen best score. induction lines as [|line lines IH]; intros seen best score Hi; simpl.
  { rewrite app_nil_r. eauto. }
  destruct (levenshtein_within (trim line) probe (Some score)) as (n & Hn & Hd).
  specialize (IH (seen ++ [line])). rewrite length_app, Nat.add_1_r in IH.
  setoid_rewrite <- app_assoc in IH.
  destruct Hi as (l0 & H0 & Hs & Hmin). pose proof (lookup_lt_Some _ _ _ H0) as Hlt.
  destruct (Nat.ltb_spec (levenshtein (trim line) probe (Some score)) score) as [Hless|Hge].
  - assert (levenshtein (trim line) probe (Some score) = n) as Hln by lia. rewrite Hln in *.
    apply IH. exists line. split_and!; [by rewrite lookup_app_r, Nat.sub_diag|done|].
    intros k other m Hk Hm. destruct (decide (k < length seen)).
    + rewrite lookup_app_l in Hk by done. destruct (Hmin k other m Hk Hm). lia.
    + apply lookup_lt_Some in Hk as Hk'. rewrite length_app in Hk'. simpl in Hk'.
      assert (k = length seen) as -> by lia. rewrite lookup_app_r, Nat.sub_diag in Hk by done.
      simplify_eq/=. rewrite (distance_unique _ _ _ _ Hm Hn). lia.
  - apply IH. exists l0. split_and!; [by apply lookup_app_l_Some|done|].
    intros k other m Hk Hm. destruct (decide (k < length seen)).
    + rewrite lookup_app_l in Hk by done. by apply (Hmin k other m).
    + apply lookup_lt_Some in Hk as Hk'. rewrite length_app in Hk'. simpl in Hk'.
      assert (k = length seen) as -> by lia. rewrite lookup_app_r, Nat.sub_diag in Hk by done.
      simplify_eq/=. rewrite (distance_unique _ _ _ _ Hm Hn). lia.
Qed.

(** The line the orientation names is the first closest one. *)
Lemma closest_spec lines probe :
  lines ≠ [] → ∃ s, incumbent lines probe (closest lines probe 0 0 None) s.
Proof.
  destruct lines as [|line lines]; [done|]. intros _. simpl.
  destruct (levenshtein_within (trim line) probe None) as (n & Hn & ->).
  apply (closest_from lines [line]). exists line. split_and!; [done|done|].
  intros [|k] other m Hk Hm; [|done]. simplify_eq/=. rewrite (distance_unique _ _ _ _ Hm Hn). lia.
Qed.

(** ** Witnesses *)

Lemma replace_exact_witness :
  ∃ ps, lit "aXbX" = join (lit "X") ps ∧ length ps = 3
    ∧ join (lit "--") ps = lit "a--b--".
Proof.
  destruct (replace_exact (lit "aXbX") (lit "X") (lit "--") true) as (ps & _ & Hj & H);
    [discriminate|discriminate|].
  exists ps. split; [exact Hj|]. revert H.
  destruct (replace (lit "aXbX") (lit "X") (lit "--") true) as [e|r] eqn:E; vm_compute in E;
    [discriminate|]. injection E as <-. simpl. intros (_ & _ & Hs & Hc).
  split; [exact (eq_sym Hc)|exact (eq_sym Hs)].
Defined.

Lemma hunk_exact_witness :
  split_on NL (lit "one" ++ [NL] ++ lit "2" ++ [NL] ++ lit "three")
  = [lit "one"; lit "2"; lit "three"].
Proof.
  destruct (hunk_exact (lit "one" ++ [NL] ++ lit "two" ++ [NL] ++ lit "three") (lit "two") (lit "2")
    _ eq_refl) as (h & Hh & _ & _ & Hl).
  vm_compute in Hh. injection Hh as <-. exact Hl.
Defined.
