(* ===== verification/Envelope.v ===== *)
(** * The inbound envelope (src/lib/envelope.ts)

    Every message that reaches the agent is wrapped in an [<incoming-message>]
    envelope whose attributes and children say where it comes from, and read back
    from the transcript.  The texts inside are not trusted.  Regular expressions
    are written out as the matching they do. *)

From S2P Require Import Prelude JsString JsText.
Local Open Scope list_scope.
Local Open Scope Z_scope.

(** ** Data *)

Inductive AttachmentSource := direct | forwarded_source.

Record InboundMessageAttachment := mkAttachment {
  a_name : jstring;
  contentType : option jstring;
  localPath : option jstring;
  a_size : Z;
  inlineText : option jstring;
  a_source : option AttachmentSource;
}.

Record ReplyTo := mkReply { rt_id : jstring; rt_author : jstring; rt_content : jstring; signal_quote : bool }.
Record Forwarded := mkForwarded { fw_author : jstring; fw_channelName : option jstring; fw_content : jstring }.

Record EnvelopeMessage := mkEnvelope {
  channelName : jstring;
  author : jstring;
  createdAt : jstring;
  content : jstring;
  replyTo : option ReplyTo;
  forwarded : option Forwarded;
  mentions : list jstring;
  attachments : list InboundMessageAttachment;
  guildSlug : option jstring;
  voice : bool;
  signal : bool;
  bot : option bool;
}.

(** ** Escaping *)

(** [s.replace(/c/g, r)] for one character. *)
Definition replace_char (c : Z) (r : jstring) (s : jstring) : jstring :=
  concat (map (λ u, if u =? c then r else [u]) s).

Definition escapeXmlAttr (s : jstring) : jstring :=
  replace_char 39 (lit "&#39;")
    (replace_char 34 (lit "&quot;")
      (replace_char 62 (lit "&gt;") (replace_char 60 (lit "&lt;") (replace_char 38 (lit "&amp;") s)))).

(** The tags of the envelope. *)
Inductive Tag := incoming_message | reply_to | forwarded_from | mentions_tag | attachment_content.
#[export] Instance Tag_eq_dec : EqDecision Tag.
Proof. solve_decision. Defined.
Definition tag_name (t : Tag) : jstring :=
  lit match t with
      | incoming_message => "incoming-message"
      | reply_to => "reply-to"
      | forwarded_from => "forwarded-from"
      | mentions_tag => "mentions"
      | attachment_content => "attachment-content"
      end.
Definition TAGS : list Tag := [incoming_message; reply_to; forwarded_from; mentions_tag; attachment_content].

(** Case folding of the flag [i], and the class of [\b]. *)
Definition fold_case (u : Z) : Z := if (65 <=? u) && (u <=? 90) then u + 32 else u.
Definition is_word (u : Z) : bool :=
  (48 <=? u) && (u <=? 57) || (65 <=? u) && (u <=? 90) || (97 <=? u) && (u <=? 122) || (u =? 95).

(** The name at the head of the text, ended by a word boundary (names end in a
    word character). *)
Fixpoint name_at (name s : jstring) : bool :=
  match name, s with
  | [], [] => true
  | [], u :: _ => negb (is_word u)
  | x :: name, u :: s => (fold_case u =? x) && name_at name s
  | _ :: _, [] => false
  end.
(** What [ENVELOPE_TAG_RE] matches after its [<]: whether it closes, and the name. *)
Definition name_of (s : jstring) : option Tag := List.find (λ t, name_at (tag_name t) s) TAGS.
Definition tag_at (s : jstring) : option (bool * Tag) :=
  match s with
  | u :: s' => if u =? 47 then pair true <$> name_of s' else pair false <$> name_of s
  | [] => None
  end.

(** A match holds no second [<], so replacing the matches is one pass. *)
Fixpoint neutralizeEnvelopeTags (s : jstring) : jstring :=
  match s with
  | [] => []
  | u :: s' =>
      (if (u =? 60) && bool_decide (is_Some (tag_at s')) then lit "&lt;" else [u])
      ++ neutralizeEnvelopeTags s'
  end.

(** ** Building *)

Definition quoted (name : jstring) (value : jstring) : jstring := name ++ lit "=" ++ [34] ++ value ++ [34].
Definition attr (name : jstring) (value : jstring) : jstring := quoted name (escapeXmlAttr value).
(** [x || y] on strings. *)
Definition or_else (s d : jstring) : jstring := match s with [] => d | _ => s end.

(** [localMarker.replace(/^\[|\]$/g, '')] *)
Definition strip_brackets (s : jstring) : jstring :=
  let s := match s with 91 :: s' => s' | _ => s end in
  match rev s with 93 :: r => rev r | _ => s end.

(** *** Attachments *)

Inductive FrameKind := emote | sticker.
#[export] Instance FrameKind_eq_dec : EqDecision FrameKind.
Proof. solve_decision. Defined.
Definition kind_name (k : FrameKind) : jstring := lit match k with emote => "emote" | sticker => "sticker" end.

Record AnimationFrameGroup := mkGroup {
  fg_kind : FrameKind; fg_name : jstring; fg_id : jstring; fg_count : Z; fg_frames : list (nat * Z);
}.

Definition is_digit (u : Z) : bool := (48 <=? u) && (u <=? 57).
Definition is_line_terminator (u : Z) : bool := bool_decide (u ∈ [10; 13; 0x2028; 0x2029]).
(** [Number(digits)], exact below 2^53. *)
Definition number (ds : jstring) : Z := foldl (λ n u, n * 10 + (u - 48)) 0 ds.
(** [\d+] at the end of a text, and a literal before it. *)
Fixpoint span (P : Z → bool) (s : jstring) : jstring * jstring :=
  match s with
  | [] => ([], [])
  | u :: s' => if P u then let '(a, b) := span P s' in (u :: a, b) else ([], s)
  end.
Definition digits_before (sep r : jstring) : option (jstring * jstring) :=
  let '(ds, r) := span is_digit r in
  if bool_decide (ds = []) || negb (startsWith (rev sep) r) then None
  else Some (rev ds, drop (length sep) r).

(** [ANIMATION_FRAME_NAME_RE] on the reversed name: every part but the free name
    is delimited from the end. *)
Definition animation_frame (name : jstring) : option (FrameKind * jstring * jstring * Z * Z) :=
  let '(ext, r) := span (λ u, negb (u =? 46)) (rev name) in
  match r with
  | 46 :: r =>
      if bool_decide (ext = []) then None
      else
        '(count, r) ← digits_before (lit "of") r;
        '(frame, r) ← digits_before (lit "-frame") r;
        '(id, r) ← digits_before (lit "-") r;
        let head := rev r in
        let part k := drop (length (kind_name k ++ lit "-")) head in
        let ok k := startsWith (kind_name k ++ lit "-") head && negb (bool_decide (part k = []))
                    && negb (existsb is_line_terminator (part k)) in
        if ok emote then Some (emote, part emote, id, number frame, number count)
        else if ok sticker then Some (sticker, part sticker, id, number frame, number count)
        else None
  | _ => None
  end.

(** [groups.get(key) ?? ...; groups.set(key, group)]: insertion order is kept. *)
Definition same_group (k : FrameKind) (id : jstring) (count : Z) (g : AnimationFrameGroup) : bool :=
  bool_decide (fg_kind g = k) && bool_decide (fg_id g = id) && (fg_count g =? count).
Fixpoint add_frame (k : FrameKind) (name id : jstring) (count : Z) (f : nat * Z)
    (gs : list AnimationFrameGroup) : list AnimationFrameGroup :=
  match gs with
  | [] => [mkGroup k name id count [f]]
  | g :: gs =>
      if same_group k id count g
      then mkGroup (fg_kind g) (fg_name g) (fg_id g) (fg_count g) (fg_frames g ++ [f]) :: gs
      else g :: add_frame k name id count f gs
  end.
Fixpoint collect (i : nat) (l : list InboundMessageAttachment) (gs : list AnimationFrameGroup)
    : list AnimationFrameGroup :=
  match l with
  | [] => gs
  | a :: l =>
      collect (S i) l
        (match animation_frame (a_name a) with
         | Some (k, name, id, frame, count) =>
             if (count <=? 1) || (frame <? 1) || (count <? frame) then gs
             else add_frame k name id count (S i, frame) gs
         | None => gs
         end)
  end.
(** [frames.sort((a, b) => a.frame - b.frame)], stable. *)
Fixpoint insert_frame (f : nat * Z) (l : list (nat * Z)) : list (nat * Z) :=
  match l with
  | [] => [f]
  | g :: l' => if f.2 <=? g.2 then f :: l else g :: insert_frame f l'
  end.
Definition animationFrameGroups (l : list InboundMessageAttachment) : list AnimationFrameGroup :=
  map (λ g, mkGroup (fg_kind g) (fg_name g) (fg_id g) (fg_count g) (foldr insert_frame [] (fg_frames g)))
    (List.filter (λ g, Nat.ltb 1 (length (fg_frames g))) (collect 0 l [])).

(** [String(n)] of an integer. *)
Definition integer (n : Z) : jstring := lit (pretty n).

(** The attributes and the text of the element for a group. *)
Definition group_body (g : AnimationFrameGroup) : jstring :=
  lit " " ++ quoted (lit "kind") (kind_name (fg_kind g)) ++ lit " "
  ++ attr (lit "name") (fg_name g) ++ lit " " ++ quoted (lit "id") (fg_id g) ++ lit " "
  ++ quoted (lit "attachments") (join (lit ",") (map (λ f, decimal f.1) (fg_frames g))) ++ lit " "
  ++ quoted (lit "frames") (join (lit ",") (map (λ f, integer f.2) (fg_frames g))) ++ lit " "
  ++ quoted (lit "count") (integer (fg_count g)) ++ lit ">"
  ++ lit "ONE animated " ++ kind_name (fg_kind g)
  ++ lit " sampled into temporal keyframes. Read these attachments in frame order as one animation, not as separate images or emotes.".
Definition group_part (g : AnimationFrameGroup) : jstring :=
  lit "<animation-frames" ++ group_body g ++ lit "</animation-frames>".

Definition is_forwarded (a : InboundMessageAttachment) : bool :=
  match a_source a with Some forwarded_source => true | _ => false end.

Definition index_part (i : nat) (a : InboundMessageAttachment) : jstring :=
  lit "attachment#" ++ decimal (S i) ++ lit ": " ++ a_name a ++ lit " ("
  ++ default (lit "unknown/type") (contentType a) ++ lit ", " ++ integer (a_size a) ++ lit " bytes)"
  ++ (if is_forwarded a then lit " [forwarded]" else [])
  ++ match localPath a with Some (u :: p) => lit " -> " ++ u :: p | _ => [] end
  ++ match inlineText a with Some _ => lit " (inlined below)" | None => [] end.

Definition inline_part (a : InboundMessageAttachment) : option jstring :=
  body ← inlineText a;
  Some (lit "<attachment-content " ++ attr (lit "name") (a_name a)
        ++ (if is_forwarded a then lit " " ++ quoted (lit "source") (lit "forwarded") else [])
        ++ lit ">" ++ neutralizeEnvelopeTags body ++ lit "</attachment-content>").

Definition formatAttachmentParts (l : list InboundMessageAttachment) : list jstring :=
  map group_part (animationFrameGroups l) ++ imap index_part l ++ omap inline_part l.

(** *** The message *)

Inductive ReplyNotice := send_notice | config_denied | ambient_denied.

(** [INBOUND_REPLY_REMINDER], [INBOUND_CONFIG_SEND_DENIED], [INBOUND_AMBIENT_SEND_DENIED] *)
Definition notice_text (n : ReplyNotice) : jstring :=
  lit match n with
      | send_notice => "REMINDER: use elpis.channel(...).send(...) to respond. Returned turn content will be discarded, not sent."
      | config_denied => "NOTE: you can't reply to this message due to channel configuration (allow_send=false). You can still observe and remember it."
      | ambient_denied => "NOTE: you can't reply to this message during this ambient observation turn due to configuration (discord.ambient_allow_send=false). You can still observe and remember it."
      end.

Definition attributes (m : EnvelopeMessage) (localMarker : jstring) : list jstring :=
  match guildSlug m with Some g => [attr (lit "guild") g] | None => [] end
  ++ [attr (lit "channel") (channelName m); attr (lit "author") (author m)]
  ++ (if signal m then [quoted (lit "transport") (lit "signal")] else [])
  ++ (if voice m then [quoted (lit "source") (lit "voice")] else [])
  ++ match bot m with
     | Some b => [quoted (lit "bot") (lit (if b : bool then "true" else "false"))]
     | None => []
     end
  ++ [attr (lit "time") (createdAt m); attr (lit "local-time") (strip_brackets localMarker)].

Definition reply_part (r : ReplyTo) : jstring :=
  lit "  <reply-to " ++ attr (lit "id") (rt_id r) ++ lit " " ++ attr (lit "author") (rt_author r)
  ++ (if signal_quote r then lit " " ++ quoted (lit "source") (lit "signal-quote") else [])
  ++ lit ">" ++ neutralizeEnvelopeTags (or_else (rt_content r) (lit "(no content)")) ++ lit "</reply-to>".

Definition forwarded_part (f : Forwarded) : jstring :=
  lit "  <forwarded-from " ++ attr (lit "channel") (default (lit "unknown") (fw_channelName f)) ++ lit " "
  ++ attr (lit "author") (fw_author f)
  ++ lit ">" ++ neutralizeEnvelopeTags (or_else (fw_content f) (lit "(no content)"))
  ++ lit "</forwarded-from>".

Definition mentions_part (l : list jstring) : list jstring :=
  match l with
  | [] => []
  | _ => [lit "  <mentions>" ++ escapeXmlAttr (join (lit ", ") l) ++ lit "</mentions>"]
  end.

(** The structured children. *)
Definition children (m : EnvelopeMessage) : list jstring :=
  option_list (reply_part <$> replyTo m) ++ option_list (forwarded_part <$> forwarded m)
  ++ mentions_part (mentions m) ++ map (app (lit "  ")) (formatAttachmentParts (attachments m)).

Definition utterance (m : EnvelopeMessage) : jstring :=
  neutralizeEnvelopeTags (or_else (content m) (lit "(no text content)")).

Definition opening (m : EnvelopeMessage) (localMarker : jstring) : jstring :=
  lit "<incoming-message " ++ join (lit " ") (attributes m localMarker) ++ lit ">".
Definition CLOSING : jstring := lit "</incoming-message>".

Definition formatInboundEnvelope (m : EnvelopeMessage) (localMarker : jstring)
    (notice : option ReplyNotice) : jstring :=
  join [10] ([opening m localMarker] ++ children m ++ [utterance m; CLOSING]
             ++ option_list (notice_text <$> notice)).

(** ** Reading *)

Definition CHILD_TAGS : list jstring :=
  map lit ["reply-to"; "forwarded-from"; "mentions"; "animation-frames"; "attachment-content"]%string.

(** An index line [attachment#N: ...] up to its line break: the length of the match. *)
Definition index_line (rest : jstring) : option nat :=
  let p := lit "attachment#" in
  if startsWith p rest then
    let '(ds, r) := span is_digit (drop (length p) rest) in
    match r with
    | 58 :: r =>
        if bool_decide (ds = []) then None
        else Some (length p + length ds + 1 + length (span (λ u, negb (u =? 10)%Z) r).1)%nat
    | _ => None
    end
  else None.

(** The loop of [stripLeadingChildren] on the part of the region that is left;
    every round that goes on consumes a unit, so its length is enough fuel. *)
Fixpoint strip (fuel : nat) (region : jstring) : jstring :=
  match fuel with
  | O => region
  | S fuel =>
      let rest := trimStart region in
      match List.find (λ t, startsWith (lit "<" ++ t) rest) CHILD_TAGS with
      | Some t =>
          match index_in (lit "</" ++ t ++ lit ">") rest with
          | Some ci => strip fuel (drop (ci + length t + 3) rest)
          | None => rest
          end
      | None =>
          match index_line rest with
          | Some n => strip fuel (drop n rest)
          | None => rest
          end
      end
  end.
Definition stripLeadingChildren (region : jstring) : jstring := strip (S (length region)) region.

Definition extractUtterance (stored : jstring) : jstring :=
  match index_in (lit "<incoming-message") stored with
  | None => trim stored
  | Some open =>
      match indexOf [62] stored open with
      | None => trim stored
      | Some openEnd =>
          let region :=
            match lastIndexOf CLOSING stored with
            | Some close => if Nat.ltb openEnd close then drop (S openEnd) (take close stored)
                            else drop (S openEnd) stored
            | None => drop (S openEnd) stored
            end in
          trim (stripLeadingChildren region)
      end
  end.

(** The value of the first attribute of that name: white space, the name, and a
    quoted value. *)
Fixpoint find_attr (name : jstring) (s : jstring) : option jstring :=
  let here :=
    let '(ws, r) := span is_space s in
    let p := name ++ lit "=" ++ [34] in
    if bool_decide (ws = []) || negb (startsWith p r) then None
    else
      let '(v, r) := span (λ u, negb (u =? 34)) (drop (length p) r) in
      match r with [] => None | _ => Some v end in
  match here with
  | Some v => Some v
  | None => match s with [] => None | _ :: s => find_attr name s end
  end.

(** The attributes of the first opening tag: up to its closing bracket. *)
Fixpoint find_opening (s : jstring) : option jstring :=
  let p := lit "<incoming-message" in
  let here :=
    if startsWith p s then
      let '(v, r) := span (λ u, negb (u =? 62)) (drop (length p) s) in
      match r with [] => None | _ => Some v end
    else None in
  match here with
  | Some v => Some v
  | None => match s with [] => None | _ :: s => find_opening s end
  end.

Section parse.
(** [Date.parse]: a time that is a finite number. *)
Context (Date_parse : jstring → option Z).

(** The header of the older form: an optional time in brackets, the channel, the
    author in angle brackets, and an optional time in parentheses. *)
Definition bracket (s : jstring) : jstring :=
  match s with
  | 91 :: s' =>
      let '(b, r) := span (λ u, negb (u =? 93)) s' in
      match b, r with
      | _ :: _, 93 :: r => (span is_space r).2
      | _, _ => s
      end
  | _ => s
  end.
Definition legacy_from (s : jstring) : option (jstring * option jstring) :=
  match s with
  | 35 :: s =>
      let '(chan, s) := span (λ u, negb (is_space u)) s in
      let '(ws, s) := span is_space s in
      match chan, ws, s with
      | _ :: _, _ :: _, 60 :: s =>
          let '(a, s) := span (λ u, negb (u =? 62)) s in
          match a, s with
          | _ :: _, 62 :: s =>
              let '(ws, r) := span is_space s in
              match ws, r with
              | _ :: _, 40 :: r =>
                  let '(t, r) := span (λ u, negb (u =? 41)) r in
                  match t, r with
                  | _ :: _, 41 :: _ => Some (a, Some t)
                  | _, _ => Some (a, None)
                  end
              | _, _ => Some (a, None)
              end
          | _, _ => None
          end
      | _, _, _ => None
      end
  | _ => None
  end.
Definition legacy (first : jstring) : option (jstring * option jstring) := legacy_from (bracket first).

Definition parseEnvelope (content : jstring) : option jstring * option Z :=
  let fallback :=
    match legacy (hd [] (split_on 10 content)) with
    | None => (None, None)
    | Some (a, t) => (Some a, t ≫= Date_parse)
    end in
  match find_opening content with
  | Some attrs =>
      match find_attr (lit "author") attrs, find_attr (lit "time") attrs with
      | Some (u :: a), Some (v :: t) => (Some (u :: a), Date_parse (v :: t))
      | _, _ => fallback
      end
  | None => fallback
  end.
End parse.
