(* ===== verification/Messages.v ===== *)
(** * Chat messages as sent (src/llm/llm.ts)

    The conversation record the compactor, the summarizer and the context
    tracker work on, and its size estimate.  A ratio of characters per token is
    a rational: the exact value of the double the program holds. *)

From Stdlib Require Import QArith Qround.
From S2P Require Import Prelude JsString.
Local Open Scope Z_scope.
Local Open Scope list_scope.

Inductive Role := system | user | assistant | tool.
#[export] Instance Role_eq_dec : EqDecision Role.
Proof. solve_decision. Defined.

Definition role_name (r : Role) : string :=
  match r with system => "system" | user => "user" | assistant => "assistant" | tool => "tool" end.

(** A tool call.  [tc_code] is the string [JSON.parse(arguments).code], [None]
    when the arguments do not parse or hold no string there. *)
Record ToolCall := {
  tc_id : string;
  tc_name : string;
  tc_arguments : jstring;
  tc_code : option jstring;
}.

Record ReasoningItem := {
  encrypted_content : option jstring;
  ri_summary : list (option jstring);
  ri_content : list (option jstring);
}.

Inductive ThinkingBlock :=
  | Thinking (thinking signature : jstring)
  | Redacted (data : jstring).

Inductive PersonKind := inbound | memory.
#[export] Instance PersonKind_eq_dec : EqDecision PersonKind.
Proof. solve_decision. Defined.

(** Fields no modelled code reads are left out. *)
Record ChatMessage := mkMessage {
  role : Role;
  content : jstring;
  reasoning_content : option jstring;
  reasoning_items : list ReasoningItem;
  thinking_blocks : list ThinkingBlock;
  tool_calls : list ToolCall;
  tool_call_id : option string;
  channel : option string;
  personContext : option PersonKind;
  contextResources : list string;
}.

Definition plain (r : Role) (text : jstring) : ChatMessage :=
  mkMessage r text None [] [] [] None (Some "internal") None [].

Definition sum_by {A} (f : A → Z) (l : list A) : Z := foldr (λ x acc, f x + acc) 0 l.
Definition jlen (s : jstring) : Z := Z.of_nat (length s).
Definition jlen_opt (s : option jstring) : Z := match s with Some s => jlen s | None => 0 end.

Definition reasoningItemChars (r : ReasoningItem) : Z :=
  jlen_opt (encrypted_content r) + sum_by jlen_opt (ri_summary r) + sum_by jlen_opt (ri_content r).

Definition thinkingChars (b : ThinkingBlock) : Z :=
  match b with
  | Thinking t s => jlen t + jlen s
  | Redacted d => jlen d
  end.

Definition sentChars (m : ChatMessage) (includeReasoningItems : bool) : Z :=
  jlen (content m) + Z.of_nat (String.length (role_name (role m))) + 4
  + sum_by (λ tc, jlen (tc_arguments tc)) (tool_calls m)
  + (if includeReasoningItems then sum_by reasoningItemChars (reasoning_items m) else 0)
  + sum_by thinkingChars (thinking_blocks m).

Definition estimateSentTokens (m : ChatMessage) (ratio : Q) : Z :=
  Qceiling (inject_Z (sentChars m true) / ratio).

(** ** Facts *)

Lemma sum_by_nonneg {A} (f : A → Z) l : (∀ x, 0 ≤ f x) → 0 ≤ sum_by f l.
Proof. intros Hf. induction l as [|x l IH]; simpl; [done|]. specialize (Hf x). lia. Qed.
Lemma sum_by_app {A} (f : A → Z) l l' : sum_by f (l ++ l') = sum_by f l + sum_by f l'.
Proof. induction l as [|x l IH]; simpl; lia. Qed.

Lemma jlen_nonneg s : 0 ≤ jlen s.
Proof. unfold jlen. lia. Qed.
Lemma jlen_opt_nonneg s : 0 ≤ jlen_opt s.
Proof. destruct s; [apply jlen_nonneg|done]. Qed.
Lemma reasoningItemChars_nonneg r : 0 ≤ reasoningItemChars r.
Proof.
  unfold reasoningItemChars. pose proof (jlen_opt_nonneg (encrypted_content r)).
  pose proof (sum_by_nonneg jlen_opt (ri_summary r) jlen_opt_nonneg).
  pose proof (sum_by_nonneg jlen_opt (ri_content r) jlen_opt_nonneg). lia.
Qed.
Lemma thinkingChars_nonneg b : 0 ≤ thinkingChars b.
Proof. destruct b; unfold thinkingChars, jlen; lia. Qed.

(** Every message weighs at least its role and framing. *)
Lemma sentChars_pos m b : 8 ≤ sentChars m b.
Proof.
  unfold sentChars. pose proof (jlen_nonneg (content m)).
  pose proof (sum_by_nonneg (λ tc, jlen (tc_arguments tc)) (tool_calls m) (λ tc, jlen_nonneg _)).
  pose proof (sum_by_nonneg reasoningItemChars (reasoning_items m) reasoningItemChars_nonneg).
  pose proof (sum_by_nonneg thinkingChars (thinking_blocks m) thinkingChars_nonneg).
  assert (4 ≤ Z.of_nat (String.length (role_name (role m)))) by (destruct (role m); done).
  destruct b; lia.
Qed.

Lemma Qceiling_div_pos (n : Z) (q : Q) : 0 < n → (0 < q)%Q → 0 < Qceiling (inject_Z n / q).
Proof.
  intros Hn Hq. assert (0 < inject_Z n / q)%Q as H.
  { apply Qlt_shift_div_l; [done|]. rewrite Qmult_0_l. change 0%Q with (inject_Z 0).
    by rewrite <- Zlt_Qlt. }
  pose proof (Qle_ceiling (inject_Z n / q)) as Hc. apply (Qlt_le_trans 0 _ _ H) in Hc.
  change 0%Q with (inject_Z 0) in Hc. by rewrite <- Zlt_Qlt in Hc.
Qed.

Lemma estimateSentTokens_pos m ratio : (0 < ratio)%Q → 0 < estimateSentTokens m ratio.
Proof. intros. apply Qceiling_div_pos; [|done]. pose proof (sentChars_pos m true). lia. Qed.
