(* ===== verification/WorkerJournal.v ===== *)
(** * The worker's journal (src/kernel/worker-journal.ts)

    A worker that executes one delegated task appends every step to a journal
    before it acts on it, and rebuilds its state from the journal when it is
    started again.  The file is the list of its complete lines and a flag for a
    last line without its line break.  A write can fail or the process can die
    in it, leaving nothing, a part or the whole of the line behind. *)

From S2P Require Import Prelude JsString Messages.
Local Open Scope string_scope.
Local Open Scope list_scope.

Record PreparedTool := mkPrepared { pt_call : ToolCall; preparedAt : Z }.

(** A finish: its key and its body. *)
Definition Finish : Type := jstring * jstring.

Record JournalState := mkJournalState {
  messages : list ChatMessage;
  guidanceIds : gset Z;
  pendingTools : gmap string PreparedTool;
  pendingFinish : option Finish;
  finished : option Finish;
}.

Inductive JournalRecord :=
  | Initialized (ms : list ChatMessage)
  | Message (m : ChatMessage)
  | Guidance (id : Z) (m : ChatMessage)
  | ToolPrepared (call : ToolCall) (at_ : Z)
  | ToolCompleted (callId : string) (m : ChatMessage)
  | FinishPrepared (f : Finish)
  | FinishDone (f : Finish).

Inductive journal_error :=
  | InvalidInitialization | InvalidGuidanceId | PreparedTwice | CompletedUnprepared
  | ConflictingPrepared | CompletedUnpreparedFinish | ConflictingFinishes
  | PartialRecord | UnreadableLine
  | AlreadyInitialized | AlreadyPrepared | NotPrepared | FinishedDifferently
  | DifferentPreparedFinish | FinishNotPrepared
  | WriteFailed.

(** ** Replay *)

Definition empty_state : JournalState := mkJournalState [] ∅ ∅ None None.

Definition set_messages ms (s : JournalState) : JournalState :=
  mkJournalState ms (guidanceIds s) (pendingTools s) (pendingFinish s) (finished s).
Definition push (m : list ChatMessage) (s : JournalState) : JournalState :=
  set_messages (messages s ++ m) s.
Definition add_guidance (id : Z) (m : ChatMessage) (s : JournalState) : JournalState :=
  mkJournalState (messages s ++ [m]) ({[ id ]} ∪ guidanceIds s) (pendingTools s) (pendingFinish s)
    (finished s).
Definition set_pending p (s : JournalState) : JournalState :=
  mkJournalState (messages s) (guidanceIds s) p (pendingFinish s) (finished s).
Definition set_finish p f (s : JournalState) : JournalState :=
  mkJournalState (messages s) (guidanceIds s) (pendingTools s) p f.

(** [Number.isSafeInteger(id) && id > 0] *)
Definition valid_id (id : Z) : bool := (1 <=? id)%Z && (id <=? MAX_SAFE_INTEGER)%Z.

(** One round of the loop of [reduce]. *)
Definition apply_record (s : JournalState) (r : JournalRecord) : journal_error + JournalState :=
  match r with
  | Initialized ms =>
      check (bool_decide (messages s = []) && negb (bool_decide (ms = []))) InvalidInitialization;;
      mret (push ms s)
  | Message m => mret (push [m] s)
  | Guidance id m =>
      check (valid_id id) InvalidGuidanceId;;
      mret (if bool_decide (id ∈ guidanceIds s) then s else add_guidance id m s)
  | ToolPrepared call at_ =>
      check (bool_decide (pendingTools s !! tc_id call = None)) PreparedTwice;;
      mret (set_pending (<[ tc_id call := mkPrepared call at_ ]> (pendingTools s)) s)
  | ToolCompleted id m =>
      check (bool_decide (is_Some (pendingTools s !! id))) CompletedUnprepared;;
      mret (push [m] (set_pending (delete id (pendingTools s)) s))
  | FinishPrepared f =>
      check (match pendingFinish s with Some g => bool_decide (g = f) | None => true end)
        ConflictingPrepared;;
      mret (set_finish (Some f) (finished s) s)
  | FinishDone f =>
      check (bool_decide (pendingFinish s = Some f)) CompletedUnpreparedFinish;;
      check (match finished s with Some g => bool_decide (g = f) | None => true end)
        ConflictingFinishes;;
      mret (set_finish None (Some f) s)
  end.

Fixpoint reduce_from (s : JournalState) (rs : list JournalRecord) : journal_error + JournalState :=
  match rs with
  | [] => mret s
  | r :: rs => s ← apply_record s r; reduce_from s rs
  end.
Definition reduce (rs : list JournalRecord) : journal_error + JournalState :=
  reduce_from empty_state rs.

(** ** The file *)

(** A line that holds a record, or one that does not parse. *)
Inductive line := Line (r : JournalRecord) | Garbage.

Record journal := mkJournal {
  file : list line;
  tail : bool;
  current : JournalState;
  writes : nat;
}.

Fixpoint records_of (ls : list line) : option (list JournalRecord) :=
  match ls with
  | [] => Some []
  | Line r :: ls => rs ← records_of ls; Some (r :: rs)
  | Garbage :: _ => None
  end.

(** The constructor, on the file it finds. *)
Definition open_journal (file : list line) (tail : bool) : journal_error + journal :=
  check (negb tail) PartialRecord;;
  match records_of file with
  | None => inl UnreadableLine
  | Some rs => s ← reduce rs; mret (mkJournal file false s 0)
  end.

(** What a write that did not succeed left in the file. *)
Inductive residue := Nothing | Part | Whole.
Inductive write_outcome := Durable | Fails (left : residue) | Dies (left : residue).

(** What ends an operation: the process dies, or an exception. *)
Inductive fault (E : Type) := Crash | Error (e : E).
Arguments Crash {E}.
Arguments Error {E} e.

(** A line written after a part of another makes one unreadable line. *)
Definition write_line (r : JournalRecord) (j : journal) : journal :=
  mkJournal (file j ++ [if tail j then Garbage else Line r]) false (current j) (S (writes j)).
Definition write_part (j : journal) : journal :=
  mkJournal (file j) true (current j) (S (writes j)).
Definition write_nothing (j : journal) : journal :=
  mkJournal (file j) (tail j) (current j) (S (writes j)).
Definition leave (d : residue) (r : JournalRecord) : journal → journal :=
  match d with Nothing => write_nothing | Part => write_part | Whole => write_line r end.
Definition set_current (f : JournalState → JournalState) (j : journal) : journal :=
  mkJournal (file j) (tail j) (f (current j)) (writes j).

Section journal.
Context (disk : nat → write_outcome).

Abbreviation J := (eff journal (fault journal_error)).

(** [append]: write the line and sync it. *)
Definition append (r : JournalRecord) : J () :=
  j ← get;
  match disk (writes j) with
  | Durable => modify (write_line r)
  | Fails d => modify (leave d r);; throw (Error WriteFailed)
  | Dies d => modify (leave d r);; throw Crash
  end.

Definition initialize (ms : list ChatMessage) : J () :=
  j ← get;
  require (bool_decide (messages (current j) = []) && negb (bool_decide (ms = [])))
    (Error AlreadyInitialized);;
  append (Initialized ms);;
  modify (set_current (push ms)).

Definition appendMessage (m : ChatMessage) : J () :=
  append (Message m);;
  modify (set_current (push [m])).

Definition appendGuidance (id : Z) (m : ChatMessage) : J bool :=
  j ← get;
  if bool_decide (id ∈ guidanceIds (current j)) then mret false
  else
    append (Guidance id m);;
    modify (set_current (add_guidance id m));;
    mret true.

Definition prepareTool (call : ToolCall) (now : Z) : J () :=
  j ← get;
  require (bool_decide (pendingTools (current j) !! tc_id call = None)) (Error AlreadyPrepared);;
  append (ToolPrepared call now);;
  modify (set_current (λ s, set_pending (<[ tc_id call := mkPrepared call now ]> (pendingTools s)) s)).

Definition completeTool (callId : string) (m : ChatMessage) : J () :=
  j ← get;
  require (bool_decide (is_Some (pendingTools (current j) !! callId))) (Error NotPrepared);;
  append (ToolCompleted callId m);;
  modify (set_current (λ s, push [m] (set_pending (delete callId (pendingTools s)) s))).

Definition prepareFinish (f : Finish) : J () :=
  j ← get;
  match finished (current j), pendingFinish (current j) with
  | Some g, _ => require (bool_decide (g = f)) (Error FinishedDifferently)
  | None, Some g => require (bool_decide (g = f)) (Error DifferentPreparedFinish)
  | None, None =>
      append (FinishPrepared f);;
      modify (set_current (λ s, set_finish (Some f) (finished s) s))
  end.

Definition completeFinish (f : Finish) : J () :=
  j ← get;
  require (bool_decide (pendingFinish (current j) = Some f)) (Error FinishNotPrepared);;
  append (FinishDone f);;
  modify (set_current (set_finish None (Some f))).
End journal.
