(* ===== verification/WorkerEpisode.v ===== *)
(** * The worker's episode (src/kernel/worker-episode.ts, src/kernel/turn.ts)

    One life of a worker process: it opens its journal, resumes or starts the
    conversation, and alternates model turns with tool runs until the model
    answers without a tool call.  Everything outside the process (the broker, the
    sandbox, the abort signal, the clock, the disk) is an environment that
    answers the n-th interaction; it may fail, and the process may die in any of
    them.  Prompt texts and JSON texts are parameters. *)

From S2P Require Import Prelude JsString JsText Messages WorkerJournal.
Local Open Scope string_scope.
Local Open Scope list_scope.

Record WorkerMandate := mkMandate { md_id : jstring; md_title : jstring; md_body : jstring; md_status : jstring }.
Record WorkerGuidance := mkGuidance { g_id : Z; g_sender : jstring; g_body : jstring }.
Record WorkerRunResult := mkRun { r_text : jstring; detached : bool }.

Inductive worker_error :=
  | JournalError (e : journal_error)
  | AmbiguousTool | EmptyFinish | MessageLimit | TurnLimit
  | BrokerFailed | SandboxFailed | ToolDetached | Aborted
  | NotAssistant | NoCallId
  | UnsupportedTool | BadArguments.

(** What the process does to the outside. *)
Inductive effect :=
  | GetMandate
  | PullGuidance
  | AcknowledgeGuidance (ids : list Z)
  | Complete (ms : list ChatMessage)
  | RunTool (call : ToolCall) (code : jstring)
  | BeforeFinish (f : Finish)
  | SendFinish (f : Finish).

Record env := {
  dies : nat → bool;
  aborts : nat → bool;
  mandate : nat → option WorkerMandate;
  guidance : nat → option (list WorkerGuidance);
  succeeds : nat → bool;
  completion : nat → option ChatMessage;
  sandbox_run : nat → option WorkerRunResult;
  clock : nat → Z;
  disk : nat → write_outcome;
}.

(** The state of the process: the journal object, the local array of messages,
    the runs prepared in this turn, and what it has done. *)
Record process := mkProcess {
  jr : journal;
  local : list ChatMessage;
  preparedRuns : gset string;
  steps : nat;
  trace : list effect;
}.

Definition set_jr j (p : process) : process :=
  mkProcess j (local p) (preparedRuns p) (steps p) (trace p).
Definition push_local ms (p : process) : process :=
  mkProcess (jr p) (local p ++ ms) (preparedRuns p) (steps p) (trace p).
Definition set_prepared s (p : process) : process :=
  mkProcess (jr p) (local p) s (steps p) (trace p).
Definition step_on (l : list effect) (p : process) : process :=
  mkProcess (jr p) (local p) (preparedRuns p) (S (steps p)) (trace p ++ l).

(** ** Arguments of tools *)

(** What [JSON.parse] returns, as far as the validation looks. *)
Inductive parsed :=
  | PObject (fields : list (string * parsed))
  | PString (s : jstring)
  | POther.

Definition field_of (name : string) (fs : list (string * parsed)) : option parsed :=
  snd <$> List.find (λ f, String.eqb f.1 name) fs.

(** [Object.keys(value).sort()] against the sorted expected names: objects have
    no duplicate keys, so this is equality of the sets. *)
Definition exactKeys (fs : list (string * parsed)) (expected : list string) : bool :=
  Nat.eqb (length fs) (length expected) && forallb (λ k, bool_decide (k ∈ expected)) (map fst fs)
  && bool_decide (NoDup (map fst fs)).

(** [s.trim().split(/\s+/).filter(Boolean).length]: the number of words. *)
Fixpoint words_in (inside : bool) (s : jstring) : nat :=
  match s with
  | [] => 0
  | u :: s =>
      if is_space u then words_in false s
      else (if inside then 0 else 1) + words_in true s
  end.

Section episode.
Context (JSON_parse : jstring → option parsed).
Context (digest : jstring → jstring).
Context (WORKER_SYSTEM_PROMPT think_ok : jstring) (mandate_text : WorkerMandate → jstring)
  (guidance_text : WorkerGuidance → jstring) (tool_error : worker_error → jstring).
Context (maxTurns maxMessages : nat).
Context (has_beforeFinish : bool).

Definition parseObject (raw : jstring) : worker_error + list (string * parsed) :=
  match JSON_parse raw with
  | Some (PObject fs) => inr fs
  | _ => inl BadArguments
  end.

Definition runArguments (raw : jstring) : worker_error + jstring :=
  fs ← parseObject raw;
  check (exactKeys fs ["code"; "detail"]) BadArguments;;
  match field_of "code" fs with
  | Some (PString code) =>
      check (negb (bool_decide (code = []))) BadArguments;;
      match field_of "detail" fs with
      | Some (PString detail) =>
          check (negb (bool_decide (10%Z ∈ detail)) && Nat.leb (length detail) 120) BadArguments;;
          let words := words_in false detail in
          check (Nat.leb 1 words && Nat.leb words 10) BadArguments;;
          mret code
      | _ => inl BadArguments
      end
  | _ => inl BadArguments
  end.

Definition thinkArguments (raw : jstring) : worker_error + () :=
  fs ← parseObject raw;
  check (exactKeys fs ["thoughts"]) BadArguments;;
  match field_of "thoughts" fs with
  | Some (PString t) => check (negb (bool_decide (trim t = []))) BadArguments
  | _ => inl BadArguments
  end.

Definition finishKey (body : jstring) : jstring := lit "worker-finish-" ++ take 24 (digest body).

(** A message of the episode: no provenance, no resources. *)
Definition message (r : Role) (text : jstring) (id : option string) : ChatMessage :=
  mkMessage r text None [] [] [] id None None [].
Definition mandateMessage (m : WorkerMandate) : ChatMessage := message user (mandate_text m) None.
Definition guidanceMessage (g : WorkerGuidance) : ChatMessage := message user (guidance_text g) None.

Section life.
Context (E : env).

Abbreviation P := (eff process (fault worker_error)).

(** A method of the journal. *)
Definition on_journal {A} (m : eff journal (fault journal_error) A) : P A := λ p,
  let '(res, j) := m (jr p) in
  (match res with
   | inr a => inr a
   | inl Crash => inl Crash
   | inl (Error e) => inl (Error (JournalError e))
   end, set_jr j p).

(** [try { m } catch (e) { h }]: death is not caught. *)
Definition catch {A} (m : P A) (h : worker_error → P A) : P A := λ p,
  match m p with
  | (inl (Error e), p') => h e p'
  | res => res
  end.

(** Interact with the outside: the n-th interaction. *)
Definition ask (l : list effect) : P nat :=
  p ← get;
  modify (step_on l);;
  (if dies E (steps p) then throw Crash else mret (steps p)).
Definition answer {A} (o : option A) (e : worker_error) : P A :=
  match o with Some a => mret a | None => throw (Error e) end.

Definition throwIfAborted : P () :=
  n ← ask [];
  require (negb (aborts E n)) (Error Aborted).
Definition getMandate : P WorkerMandate := n ← ask [GetMandate]; answer (mandate E n) BrokerFailed.
Definition pullGuidance : P (list WorkerGuidance) :=
  n ← ask [PullGuidance]; answer (guidance E n) BrokerFailed.
Definition acknowledgeGuidance (ids : list Z) : P () :=
  n ← ask [AcknowledgeGuidance ids]; require (succeeds E n) (Error BrokerFailed).
Definition complete (ms : list ChatMessage) : P ChatMessage :=
  n ← ask [Complete ms]; answer (completion E n) BrokerFailed.
Definition sandboxRun (call : ToolCall) (code : jstring) : P WorkerRunResult :=
  n ← ask [RunTool call code]; answer (sandbox_run E n) SandboxFailed.
Definition beforeFinish (f : Finish) : P () :=
  if has_beforeFinish then n ← ask [BeforeFinish f]; require (succeeds E n) (Error BrokerFailed)
  else mret tt.
Definition sendFinish (f : Finish) : P () :=
  n ← ask [SendFinish f]; require (succeeds E n) (Error BrokerFailed).
Definition now : P Z := n ← ask []; mret (clock E n).

Definition of_sum {A} (m : worker_error + A) : P A :=
  match m with inr a => mret a | inl e => throw (Error e) end.

(** ** turn.ts *)

Section turn.
Context (handle : ToolCall → P jstring) (append_tool : ChatMessage → P ()).

(** The loop of [dispatchKernelTools]: one call after the other. *)
Fixpoint dispatchKernelTools (calls : list ToolCall) : P (list ChatMessage) :=
  match calls with
  | [] => mret []
  | call :: calls =>
      text ← handle call;
      let m := message tool text (Some (tc_id call)) in
      append_tool m;;
      ms ← dispatchKernelTools calls;
      mret (m :: ms)
  end.

(** Whether the turn goes on. *)
Definition applyKernelTurn (m : ChatMessage) (append_assistant : ChatMessage → P ()) : P bool :=
  require (bool_decide (role m = assistant)) (Error NotAssistant);;
  append_assistant m;;
  ms ← dispatchKernelTools (tool_calls m);
  mret (negb (bool_decide (length ms = 0%nat))).
End turn.

(** ** The hooks of the episode *)

Definition handle_tool (call : ToolCall) : P jstring :=
  catch
    (if String.eqb (tc_name call) "think" then
       of_sum (thinkArguments (tc_arguments call));; mret think_ok
     else
       require (String.eqb (tc_name call) "run") (Error UnsupportedTool);;
       code ← of_sum (runArguments (tc_arguments call));
       t ← now;
       on_journal (prepareTool (disk E) call t);;
       modify (λ p, set_prepared ({[ tc_id call ]} ∪ preparedRuns p) p);;
       result ← sandboxRun call code;
       require (negb (detached result)) (Error ToolDetached);;
       mret (r_text result))
    (λ e,
       p ← get;
       if bool_decide (tc_id call ∈ preparedRuns p) then throw (Error e)
       else mret (tool_error e)).

Definition append_assistant (m : ChatMessage) : P () :=
  on_journal (appendMessage (disk E) m);;
  modify (push_local [m]).

Definition append_tool (m : ChatMessage) : P () :=
  match tool_call_id m with
  | None | Some "" => throw (Error NoCallId)
  | Some id =>
      p ← get;
      (if bool_decide (id ∈ preparedRuns p) then
         modify (λ p, set_prepared (preparedRuns p ∖ {[ id ]}) p);;
         on_journal (completeTool (disk E) id m)
       else on_journal (appendMessage (disk E) m));;
      modify (push_local [m])
  end.

(** [for (const entry of guidance) ...] *)
Fixpoint take_guidance (gs : list WorkerGuidance) : P () :=
  match gs with
  | [] => mret tt
  | g :: gs =>
      fresh ← on_journal (appendGuidance (disk E) (g_id g) (guidanceMessage g));
      (if fresh : bool then modify (push_local [guidanceMessage g]) else mret tt);;
      take_guidance gs
  end.

Record EpisodeResult := mkEpisode { e_finish : Finish; e_turns : nat; e_resumed : bool }.

(** The end of a turn without tool calls. *)
Definition finish_turn (m : ChatMessage) (turns : nat) (resumed : bool) : P EpisodeResult :=
  let body := trim (content m) in
  require (negb (bool_decide (body = []))) (Error EmptyFinish);;
  let f := (finishKey body, body) in
  beforeFinish f;;
  on_journal (prepareFinish (disk E) f);;
  sendFinish f;;
  on_journal (completeFinish (disk E) f);;
  mret (mkEpisode f turns resumed).

(** The body of the loop of [run]: [None] to go on. *)
Definition one_turn (turns : nat) (resumed : bool) : P (option EpisodeResult) :=
  throwIfAborted;;
  gs ← pullGuidance;
  take_guidance gs;;
  (if bool_decide (length gs = 0%nat) then mret tt else acknowledgeGuidance (map g_id gs));;
  p ← get;
  require (Nat.leb (length (local p)) maxMessages) (Error MessageLimit);;
  m ← complete (local p);
  modify (set_prepared ∅);;
  more ← applyKernelTurn handle_tool append_tool m append_assistant;
  if more : bool then mret None
  else r ← finish_turn m turns resumed; mret (Some r).

Fixpoint loop (remaining turns : nat) (resumed : bool) : P EpisodeResult :=
  match remaining with
  | O => throw (Error TurnLimit)
  | S remaining =>
      r ← one_turn turns resumed;
      match r with Some r => mret r | None => loop remaining (S turns) resumed end
  end.

Definition run : P EpisodeResult :=
  p ← get;
  let initial := current (jr p) in
  require (bool_decide (pendingTools initial = ∅)) (Error AmbiguousTool);;
  match finished initial, pendingFinish initial with
  | Some f, _ => mret (mkEpisode f 0 true)
  | None, Some f =>
      sendFinish f;;
      on_journal (completeFinish (disk E) f);;
      mret (mkEpisode f 0 true)
  | None, None =>
      modify (push_local (messages initial));;
      let resumed := negb (bool_decide (messages initial = [])) in
      (if resumed then mret tt
       else
         throwIfAborted;;
         m ← getMandate;
         let first := [message system WORKER_SYSTEM_PROMPT None; mandateMessage m] in
         on_journal (initialize (disk E) first);;
         modify (push_local first));;
      loop maxTurns 1 resumed
  end.
End life.

(** ** Lives *)

(** What survives a process: the file, and what was done to the outside. *)
Record store := mkStore { st_file : list line; st_tail : bool; st_trace : list effect }.
Definition empty_store : store := mkStore [] false [].

(** One life: open the journal and run; the outcome of the run if it opened. *)
Definition live (s : store) (E : env) : option (fault worker_error + EpisodeResult) * store :=
  match open_journal (st_file s) (st_tail s) with
  | inl _ => (None, s)
  | inr j =>
      let '(res, p) := run E (mkProcess j [] ∅ 0 (st_trace s)) in
      (Some res, mkStore (file (jr p)) (tail (jr p)) (trace p))
  end.

(** A sequence of lives. *)
Definition lives (Es : list env) (s : store) : store := foldl (λ s E, (live s E).2) s Es.
End episode.
