(* ===== verification/WorkerTheorems.v ===== *)
(** * The worker's journal and episode: theorems

    The journal replays to the state of the process that wrote it, and over any
    number of lives, with writes that fail and processes that die anywhere, a
    tool is never run again after an outcome was lost, and one finish is sent
    (src/kernel/worker-journal.ts, src/kernel/worker-episode.ts). *)

From S2P Require Import Prelude JsString JsText Effects Messages WorkerJournal WorkerEpisode.
Local Open Scope string_scope.
Local Open Scope nat_scope.
Local Open Scope list_scope.

(** ** Replay *)

Lemma reduce_snoc s rs r : reduce_from s (rs ++ [r]) = s' ← reduce_from s rs; apply_record s' r.
Proof.
  revert s. induction rs as [|x rs IH]; intros s; simpl.
  - unfold mbind, sum_bind, mret, sum_ret. by destruct (apply_record s r).
  - unfold mbind at 1 3, sum_bind. destruct (apply_record s x); [done|apply IH].
Qed.

Lemma records_of_app ls rs l :
  records_of ls = Some rs → records_of (ls ++ [l]) = match l with Line r => Some (rs ++ [r]) | Garbage => None end.
Proof.
  revert rs. induction ls as [|[r|] ls IH]; intros rs; simpl; [|intros (rs' & Hrs & [= <-])%bind_Some|done].
  - intros [= <-]. by destruct l.
  - rewrite (IH _ Hrs). by destruct l.
Qed.

(** The calls of a fault-free user of the journal. *)
Inductive op :=
  | OInitialize (ms : list ChatMessage)
  | OMessage (m : ChatMessage)
  | OGuidance (id : Z) (m : ChatMessage)
  | OPrepareTool (call : ToolCall) (now : Z)
  | OCompleteTool (id : string) (m : ChatMessage)
  | OPrepareFinish (f : Finish)
  | OCompleteFinish (f : Finish).
Definition valid_op (o : op) : Prop :=
  match o with OGuidance id _ => valid_id id = true | _ => True end.

Definition exec (disk : nat → write_outcome) (o : op) (j : journal) : journal :=
  match o with
  | OInitialize ms => (initialize disk ms j).2
  | OMessage m => (appendMessage disk m j).2
  | OGuidance id m => (appendGuidance disk id m j).2
  | OPrepareTool call now => (prepareTool disk call now j).2
  | OCompleteTool id m => (completeTool disk id m j).2
  | OPrepareFinish f => (prepareFinish disk f j).2
  | OCompleteFinish f => (completeFinish disk f j).2
  end.

(** The file holds exactly the state in memory. *)
Definition replays (j : journal) : Prop :=
  tail j = false ∧ ∃ rs, records_of (file j) = Some rs ∧ reduce rs = inr (current j)
    ∧ (is_Some (finished (current j)) → pendingFinish (current j) = None).

Lemma replays_write r f j :
  replays j → apply_record (current j) r = inr (f (current j)) →
  (is_Some (finished (f (current j))) → pendingFinish (f (current j)) = None) →
  replays (set_current f (write_line r j)).
Proof.
  intros (Ht & rs & Hrs & Hred & _) Hr Hf. split; [done|]. exists (rs ++ [r]). simpl. rewrite Ht.
  rewrite (records_of_app _ _ _ Hrs). unfold reduce in *. rewrite reduce_snoc, Hred. simpl.
  unfold mbind, sum_bind. by rewrite Hr.
Qed.

Lemma exec_replays disk o j :
  (∀ n, disk n = Durable) → valid_op o → replays j → replays (exec disk o j).
Proof.
  intros Hd Hv Hj. pose proof Hj as (_ & _ & _ & _ & Hfin).
  destruct o as [ms|m|id m|call now|id m|f|f]; simpl;
    unfold initialize, appendMessage, appendGuidance, prepareTool, completeTool, prepareFinish,
      completeFinish, append; autorewrite with eff.
  - destruct (_ && _) eqn:Hg; [|done]. rewrite Hd. autorewrite with eff.
    apply replays_write; [done| |done]. simpl. by rewrite Hg.
  - rewrite Hd. autorewrite with eff. by apply replays_write.
  - case_bool_decide as Hin; [done|]. autorewrite with eff. rewrite Hd. autorewrite with eff.
    apply replays_write; [done| |done]. simpl in *. rewrite Hv. simpl. by rewrite bool_decide_false.
  - case_bool_decide as Hn; [|done]. rewrite Hd. autorewrite with eff.
    apply replays_write; [done| |done]. simpl. by rewrite bool_decide_true.
  - case_bool_decide as Hn; [|done]. rewrite Hd. autorewrite with eff.
    apply replays_write; [done| |done]. simpl. by rewrite bool_decide_true.
  - destruct (finished (current j)) eqn:Ef; [autorewrite with eff; by case_bool_decide|].
    destruct (pendingFinish (current j)) eqn:Ep; [autorewrite with eff; by case_bool_decide|].
    autorewrite with eff. rewrite Hd. autorewrite with eff.
    apply replays_write; [done| |]; simpl; rewrite ?Ep, ?Ef; [done|]. by intros [? ?].
  - case_bool_decide as Hp; [|done]. rewrite Hd. autorewrite with eff.
    apply replays_write; [done| |done]. simpl. rewrite bool_decide_true by done. simpl.
    destruct (finished (current j)) as [g|] eqn:Ef; [|done].
    rewrite Hfin in Hp by (by eexists). done.
Qed.

Definition empty_journal : journal := mkJournal [] false empty_state 0.

(** C22. The journal is a faithful log: after any sequence of operations, those
    that throw included, opening the file it wrote gives back exactly the state
    in memory, provided no write fails and the ids of appended guidance are positive
    safe integers (reading refuses others, which appending accepts). *)
Theorem journal_replays disk ops :
  (∀ n, disk n = Durable) → Forall valid_op ops →
  let j := foldl (λ j o, exec disk o j) empty_journal ops in
  ∃ j', open_journal (file j) (tail j) = inr j' ∧ current j' = current j.
Proof.
  intros Hd Hv. assert (replays (foldl (λ j o, exec disk o j) empty_journal ops)) as Hj.
  { assert (replays empty_journal) as H0 by (split; [done|]; by exists []).
    revert H0. generalize empty_journal.
    induction Hv as [|o ops Ho _ IH]; intros j Hj; simpl; [done|]. by apply IH, exec_replays. }
  destruct Hj as (Ht & rs & Hrs & Hred & _). unfold open_journal. simpl. rewrite Ht, Hrs, Hred.
  eexists. split; [done|]. done.
Qed.

(** ** What the file and the trace hold *)

(** The calls whose preparation is on file, the number of results on file, and the
    finishes prepared. *)
Definition prepared (ls : list line) : list ToolCall :=
  omap (λ l, match l with Line (ToolPrepared c _) => Some c | _ => None end) ls.
Definition completed (ls : list line) : nat :=
  length (List.filter (λ l, match l with Line (ToolCompleted _ _) => true | _ => false end) ls).
Definition fin_records (ls : list line) : list Finish :=
  omap (λ l, match l with Line (FinishPrepared f) => Some f | _ => None end) ls.

(** The tools run and the finishes sent. *)
Definition runs (tr : list effect) : list ToolCall :=
  omap (λ e, match e with RunTool c _ => Some c | _ => None end) tr.
Definition sent (tr : list effect) : list Finish :=
  omap (λ e, match e with SendFinish f => Some f | _ => None end) tr.

Lemma prepared_app l l' : prepared (l ++ l') = prepared l ++ prepared l'.
Proof. apply omap_app. Qed.
Lemma fin_records_app l l' : fin_records (l ++ l') = fin_records l ++ fin_records l'.
Proof. apply omap_app. Qed.
Lemma completed_app l l' : completed (l ++ l') = (completed l + completed l')%nat.
Proof. unfold completed. by rewrite List.filter_app, length_app. Qed.
Lemma runs_app l l' : runs (l ++ l') = runs l ++ runs l'.
Proof. apply omap_app. Qed.
Lemma sent_app l l' : sent (l ++ l') = sent l ++ sent l'.
Proof. apply omap_app. Qed.

(** The replay accounts for every preparation: it is completed or pending. *)
Definition counted (rs : list JournalRecord) (s : JournalState) : Prop :=
  length (prepared (Line <$> rs)) = (completed (Line <$> rs) + size (pendingTools s))%nat.

Ltac invert_record Hr :=
  simpl in Hr; repeat (apply bind_inr in Hr as (? & ?%check_inr & Hr));
  unfold mret, sum_ret in Hr; simplify_eq/=; guards.

Lemma apply_counted rs s r s' : counted rs s → apply_record s r = inr s' → counted (rs ++ [r]) s'.
Proof.
  unfold counted. intros Hn Hr. rewrite fmap_app, prepared_app, completed_app, length_app.
  destruct r as [ms|m|id m|c t|id m|f|f]; invert_record Hr; cbn -[size]; try lia.
  - case_bool_decide; cbn -[size]; lia.
  - rewrite map_size_insert_None by done. lia.
  - rewrite (map_size_delete_Some _ _) by done.
    assert (size (pendingTools s) ≠ 0%nat); [|lia].
    apply map_size_ne_0_lookup. by eexists id.
Qed.

(** The replay accounts for the finish, when at most one was prepared. *)
Definition finish_known (rs : list JournalRecord) (s : JournalState) : Prop :=
  match fin_records (Line <$> rs) with
  | [] => pendingFinish s = None ∧ finished s = None ∧ ∀ f, FinishDone f ∉ rs
  | [f] =>
      pendingFinish s = Some f ∧ finished s = None ∧ (∀ g, FinishDone g ∉ rs)
      ∨ pendingFinish s = None ∧ finished s = Some f ∧ ∀ g, FinishDone g ∈ rs → g = f
  | _ => True
  end.

Lemma apply_finish_known rs s r s' :
  finish_known rs s → apply_record s r = inr s' → finish_known (rs ++ [r]) s'.
Proof.
  unfold finish_known. intros Hf Hr. rewrite fmap_app, fin_records_app.
  destruct r as [ms|m|id m|c t|id m|f|f]; invert_record Hr; rewrite ?app_nil_r.
  1-5: try case_bool_decide; destruct (fin_records _) as [|? [|]]; set_solver.
  - destruct (fin_records _) as [|? [|]]; set_solver.
  - destruct (fin_records _) as [|g [|]]; [naive_solver| |done].
    right. destruct Hf as [(Hp & Hn & Hd)|(? & _)]; [|congruence]. set_solver.
Qed.

Lemma reduce_ind (P : list JournalRecord → JournalState → Prop) :
  P [] empty_state → (∀ rs s r s', P rs s → apply_record s r = inr s' → P (rs ++ [r]) s') →
  ∀ rs s, reduce rs = inr s → P rs s.
Proof.
  intros H0 HS. induction rs as [|r rs IH] using rev_ind; intros s Hs; [by injection Hs as <-|].
  unfold reduce in *. rewrite reduce_snoc in Hs. apply bind_inr in Hs as (s' & Hs' & Hr).
  eauto.
Qed.

Lemma reduce_accounts rs s : reduce rs = inr s → counted rs s ∧ finish_known rs s.
Proof.
  intros Hs. split; revert rs s Hs; apply reduce_ind.
  - done.
  - apply apply_counted.
  - split; [done|]. set_solver.
  - apply apply_finish_known.
Qed.

Lemma records_of_lines ls rs : records_of ls = Some rs → ls = Line <$> rs.
Proof.
  revert rs. induction ls as [|[r|] ls IH]; intros rs H; simplify_eq/=; [done|].
  apply bind_Some in H as (rs' & Hrs & [= <-]). simpl. f_equal. auto.
Qed.

(** ** The invariant of the file and the trace *)

Section safety.
Context (JSON_parse : jstring → option parsed).
Context (digest : jstring → jstring).
Context (WORKER_SYSTEM_PROMPT think_ok : jstring) (mandate_text : WorkerMandate → jstring)
  (guidance_text : WorkerGuidance → jstring) (tool_error : worker_error → jstring).
Context (maxTurns maxMessages : nat) (has_beforeFinish : bool).

(** Every run was prepared on file; at most one lacks its result on file; at most
    one finish was prepared, under the key of its body, and only it was sent. *)
Definition safe (ls : list line) (tr : list effect) : Prop :=
  runs tr `sublist_of` prepared ls
  ∧ length (runs tr) ≤ S (completed ls)
  ∧ length (fin_records ls) ≤ 1
  ∧ Forall (λ f : Finish, f.1 = finishKey digest f.2) (fin_records ls)
  ∧ ∀ f, f ∈ sent tr → fin_records ls = [f].

(** Between two steps of the loop, no outcome is missing and no finish prepared. *)
Definition calm (j : journal) (tr : list effect) : Prop :=
  safe (file j) tr
  ∧ length (runs tr) ≤ completed (file j)
  ∧ fin_records (file j) = [] ∧ pendingFinish (current j) = None ∧ finished (current j) = None.

Lemma safe_line ls tr l : fin_records [l] = [] → safe ls tr → safe (ls ++ [l]) tr.
Proof.
  intros Hl (Hs & Hn & H1 & Hk & Hf). unfold safe.
  rewrite prepared_app, completed_app, fin_records_app, Hl, app_nil_r.
  split_and!; try done; [|lia]. by apply sublist_inserts_r.
Qed.

Lemma safe_effects ls tr l : runs l = [] → sent l = [] → safe ls tr → safe ls (tr ++ l).
Proof. intros Hr Hs H. unfold safe. by rewrite runs_app, sent_app, Hr, Hs, !app_nil_r. Qed.

Lemma safe_finish ls tr l :
  fin_records ls = [] → sent tr = [] → Forall (λ f : Finish, f.1 = finishKey digest f.2) (fin_records [l]) →
  safe ls tr → safe (ls ++ [l]) tr.
Proof.
  intros Hn Hsent Hk (Hs & Hlen & _). unfold safe.
  rewrite prepared_app, completed_app, fin_records_app, Hn, Hsent. simpl. split_and!; try done.
  - by apply sublist_inserts_r.
  - lia.
  - destruct l as [[]|]; simpl; lia.
  - by intros f ?%elem_of_nil.
Qed.

Lemma safe_sent f ls tr : fin_records ls = [f] → safe ls tr → safe ls (tr ++ [SendFinish f]).
Proof.
  intros Hf (Hs & Hlen & H1 & Hk & Hsent). unfold safe. rewrite runs_app, sent_app. simpl.
  rewrite app_nil_r. split_and!; try done. intros g [?|Hg]%elem_of_app; [by apply Hsent|].
  by apply list_elem_of_singleton in Hg as ->.
Qed.

Lemma calm_sent j tr : calm j tr → sent tr = [].
Proof.
  intros ((_ & _ & _ & _ & Hs) & _ & Hf & _). destruct (sent tr) as [|f l] eqn:E; [done|].
  specialize (Hs f). rewrite Hf in Hs. discriminate Hs. by left.
Qed.

Lemma calm_effects j tr l : runs l = [] → sent l = [] → calm j tr → calm j (tr ++ l).
Proof.
  intros Hr Hs (H & Hn & ?). unfold calm. rewrite runs_app, Hr, app_nil_r. split; [|done].
  by apply safe_effects.
Qed.

(** The lines a write may leave. *)
Lemma file_leave d r j :
  file (leave d r j) = file j ∨ file (leave d r j) = file j ++ [Line r]
  ∨ file (leave d r j) = file j ++ [Garbage].
Proof. destruct d; simpl; [auto|auto|destruct (tail j); auto]. Qed.

Lemma safe_leave d r j tr :
  fin_records [Line r] = [] → safe (file j) tr → safe (file (leave d r j)) tr.
Proof.
  intros Hr Hs. destruct (file_leave d r j) as [->|[->| ->]]; [done| |]; by apply safe_line.
Qed.

Lemma calm_lines j j' tr ls :
  file j' = file j ++ ls → fin_records ls = [] → pendingFinish (current j') = pendingFinish (current j) →
  finished (current j') = finished (current j) → calm j tr → calm j' tr.
Proof.
  unfold calm. intros -> Hls -> -> (Hs & Hn & Hf & Hp).
  rewrite completed_app, fin_records_app, Hls, Hf. split_and!; try apply Hp; [|lia|done].
  revert ls Hls. apply (rev_ind (λ ls, _ → safe (file j ++ ls) tr)); intros; [by rewrite app_nil_r|].
  rewrite app_assoc. rewrite fin_records_app in *. apply app_eq_nil in H0 as [??].
  apply safe_line; auto.
Qed.

Lemma calm_leave d r j tr : fin_records [Line r] = [] → calm j tr → calm (leave d r j) tr.
Proof.
  intros Hr Hc. assert (current (leave d r j) = current j) as Hcur by (by destruct d).
  destruct (file_leave d r j) as [E|[E|E]].
  - apply (calm_lines j _ _ []); rewrite ?app_nil_r, ?Hcur; done.
  - apply (calm_lines j _ _ [Line r]); by rewrite ?Hcur.
  - apply (calm_lines j _ _ [Garbage]); by rewrite ?Hcur.
Qed.

Lemma calm_write r f j tr :
  fin_records [Line r] = [] → (∀ s, pendingFinish (f s) = pendingFinish s ∧ finished (f s) = finished s) →
  calm j tr → calm (set_current f (write_line r j)) tr.
Proof.
  intros Hr Hf. eapply (calm_lines j _ _ [if tail j then Garbage else Line r]); simpl; [done| | |].
  - by destruct (tail j).
  - apply Hf.
  - apply Hf.
Qed.

(** ** The code, step by step *)

Section life.
Context (E : env).

Abbreviation P := (eff process (fault worker_error)).

Definition safe_p (p : process) : Prop := safe (file (jr p)) (trace p).
Definition calm_p (p : process) : Prop := calm (jr p) (trace p) ∧ preparedRuns p = ∅.
(** ... and the file ends with a line break. *)
Definition rest_p (p : process) : Prop := calm_p p ∧ tail (jr p) = false.

Abbreviation X := (λ (_ : fault worker_error) (p : process), safe_p p).

Lemma calm_safe p : calm_p p → safe_p p.
Proof. intros [[Hs _] _]. done. Qed.
Lemma rest_safe p : rest_p p → safe_p p.
Proof. intros [Hc _]. by apply calm_safe. Qed.

Lemma wp_append disk r Q (Y : fault journal_error → journal → Prop) j :
  Q tt (write_line r j) → (∀ e d, Y e (leave d r j)) → wp (append disk r) Q Y j.
Proof. intros HQ HY. unfold append. wp_run. destruct (disk (writes j)); wp_run; auto. Qed.

Lemma wp_on_journal {A} (m : eff journal (fault journal_error) A) (Q : A → process → Prop) Y p :
  wp m (λ a j, Q a (set_jr j p)) (λ _ j, ∀ e, Y e (set_jr j p)) (jr p) →
  wp (on_journal m) Q Y p.
Proof. unfold wp, on_journal. destruct (m (jr p)) as [[[|]|] ?]; simpl; auto. Qed.

Lemma wp_catch {A} (m : P A) h Q Y p :
  wp m Q (λ f p', match f with Crash => Y Crash p' | Error e => wp (h e) Q Y p' end) p →
  wp (catch m h) Q Y p.
Proof. unfold wp, catch. by destruct (m p) as [[[|]|] ?]. Qed.

Lemma wp_ask l Q Y p :
  (∀ e, Y e (step_on l p)) → Q (steps p) (step_on l p) → wp (ask E l) Q Y p.
Proof. intros HY HQ. unfold ask. wp_run; auto. Qed.

Lemma wp_answer {A} (o : option A) e Q (Y : fault worker_error → process → Prop) p :
  (∀ e, Y e p) → (∀ a, Q a p) → wp (answer o e) Q Y p.
Proof. intros HY HQ. destruct o; simpl; wp_run; auto. Qed.

(** A step that neither runs a tool nor sends a finish. *)
Lemma rest_step l p : runs l = [] → sent l = [] → rest_p p → rest_p (step_on l p).
Proof. intros Hr Hs [[Hc Hp] Ht]. split; [split|]; [|done..]. by apply calm_effects. Qed.
Lemma calm_step l p : runs l = [] → sent l = [] → calm_p p → calm_p (step_on l p).
Proof. intros Hr Hs [Hc Hp]. split; [|done]. by apply calm_effects. Qed.

Lemma rest_write r f p :
  fin_records [Line r] = [] → (∀ s, pendingFinish (f s) = pendingFinish s ∧ finished (f s) = finished s) →
  calm_p p → rest_p (set_jr (set_current f (write_line r (jr p))) p).
Proof. intros Hr Hf [Hc Hp]. split; [split|]; [|done..]. by apply calm_write. Qed.

Lemma safe_left r d p :
  fin_records [Line r] = [] → safe_p p → safe_p (set_jr (leave d r (jr p)) p).
Proof. intros Hr Hs. by apply safe_leave. Qed.

Lemma wp_appendMessage disk m p :
  calm_p p → wp (on_journal (appendMessage disk m)) (λ _, rest_p) X p.
Proof.
  intros Hc. apply wp_on_journal. unfold appendMessage. wp_run. apply wp_append; wp_run.
  - by apply rest_write.
  - intros _ d e. apply safe_left; [done|]. by apply calm_safe.
Qed.

Lemma wp_appendGuidance disk id m p :
  rest_p p → wp (on_journal (appendGuidance disk id m)) (λ _, rest_p) X p.
Proof.
  intros Hc. apply wp_on_journal. unfold appendGuidance. wp_run; [by destruct p|].
  apply wp_append; wp_run.
  - apply rest_write; [done|done|apply Hc].
  - intros _ d e. apply safe_left; [done|]. by apply rest_safe.
Qed.

Lemma wp_initialize disk ms p :
  rest_p p → wp (on_journal (initialize disk ms)) (λ _, rest_p) X p.
Proof.
  intros Hc. apply wp_on_journal. unfold initialize. wp_run.
  - apply wp_append; wp_run.
    + apply rest_write; [done|done|apply Hc].
    + intros _ d e. apply safe_left; [done|]. by apply rest_safe.
  - intros e. apply rest_safe. by destruct p.
Qed.

(** A tool is prepared: on file, its run is the only one whose result may miss. *)
Definition running (call : ToolCall) (p : process) : Prop :=
  tail (jr p) = false ∧ preparedRuns p = {[ tc_id call ]} ∧ safe_p p
  ∧ length (runs (trace p)) ≤ S (completed (file (jr p)))
  ∧ fin_records (file (jr p)) = [] ∧ pendingFinish (current (jr p)) = None
  ∧ finished (current (jr p)) = None.

(** The handler ends with the tool run and its result awaited, or with nothing run. *)
Definition handled (call : ToolCall) (p : process) : Prop := calm_p p ∨ running call p.

Lemma wp_sandboxRun call code p :
  calm_p p → tail (jr p) = false → ∀ now,
  let j := set_current (λ s, set_pending (<[ tc_id call := mkPrepared call now ]> (pendingTools s)) s)
             (write_line (ToolPrepared call now) (jr p)) in
  let p' := set_prepared ({[ tc_id call ]} ∪ preparedRuns p) (set_jr j p) in
  running call (step_on [RunTool call code] p').
Proof.
  intros [Hc Hpr] Ht now. pose proof (calm_sent _ _ Hc) as Hsent.
  destruct Hc as ((Hs & _) & Hn & Hf & Hp & Hd). unfold running, safe_p. simpl. rewrite Ht, Hpr.
  rewrite completed_app, fin_records_app, runs_app, Hf, length_app. cbn -[app].
  split_and!; try done; [set_solver| |lia].
  unfold safe. simpl. rewrite prepared_app, completed_app, fin_records_app, runs_app, sent_app, Hf, length_app.
  simpl. rewrite Hsent.
  split_and!; [by apply sublist_app|lia|lia|done|by intros f ?%elem_of_nil].
Qed.


Abbreviation handle := (handle_tool JSON_parse think_ok tool_error E).

(** What the handler's [try] block leaves when it throws. *)
Definition thrown (call : ToolCall) (f : fault worker_error) (p : process) : Prop :=
  safe_p p ∧ (tc_id call ∉ preparedRuns p → calm_p p).

Lemma calm_thrown call f p : calm_p p → thrown call f p.
Proof. intros Hc. split; [by apply calm_safe|done]. Qed.
Lemma running_thrown call f p : running call p → thrown call f p.
Proof. intros (_ & Hr & Hs & _). split; [done|]. rewrite Hr. set_solver. Qed.

Lemma wp_prepareTool disk call now (Q : () → process → Prop) p :
  rest_p p →
  (let j := set_current (λ s, set_pending (<[ tc_id call := mkPrepared call now ]> (pendingTools s)) s)
              (write_line (ToolPrepared call now) (jr p)) in Q tt (set_jr j p)) →
  wp (on_journal (prepareTool disk call now)) Q (thrown call) p.
Proof.
  intros [Hc Ht] HQ. apply wp_on_journal. unfold prepareTool. wp_run.
  - apply wp_append; wp_run; [done|]. intros _ d e. apply calm_thrown.
    destruct Hc as [Hc Hp]. split; [|done]. by apply calm_leave.
  - intros e. apply calm_thrown. by destruct p.
Qed.

Lemma wp_handle_tool call p : rest_p p → wp (handle call) (λ _, handled call) X p.
Proof.
  intros Hp. pose proof Hp as [Hc Ht]. unfold handle_tool. apply wp_catch.
  eapply (wp_mono _ (λ _, handled call) _ (thrown call)); [|done|].
  - wp_run.
    + destruct (thinkArguments _ _); simpl; wp_run; [by apply calm_thrown|by left].
    + destruct (runArguments _ _) as [e|code]; simpl; wp_run; [by apply calm_thrown|].
      unfold now. wp_run. apply wp_ask; [intros; by apply calm_thrown, calm_step|]. wp_run.
      apply (rest_step []) in Hp as Hp'; [|done..]. destruct Hp' as [Hc' Ht'].
      apply wp_prepareTool; [by apply rest_step|]. wp_run. unfold sandboxRun. wp_run.
      pose proof (wp_sandboxRun call code _ Hc' Ht' (clock E (steps p))) as Hrun. simpl in Hrun.
      apply wp_ask; [intros; by apply running_thrown|]. apply wp_answer; [intros; by apply running_thrown|].
      intros res. wp_run; [by right|by apply running_thrown].
    + by apply calm_thrown.
  - intros [|e] p' [Hs Hcalm]; [done|]. wp_run; guards; [done|]. left. auto.
Qed.

Lemma wp_append_tool call m p :
  tool_call_id m = Some (tc_id call) → handled call p → wp (append_tool E m) (λ _, rest_p) X p.
Proof.
  intros Hm Hh. assert (safe_p p) as Hsafe by (destruct Hh as [?|(?&?&?&?)]; [by apply calm_safe|done]).
  unfold append_tool. rewrite Hm. destruct (tc_id call) as [|a id] eqn:Hid; [by wp_run|]. wp_run; guards.
  - destruct Hh as [[_ Hpr]|(Ht & Hpr & Hs & Hn & Hf & Hp & Hd)]; [set_solver|].
    apply wp_on_journal. unfold completeTool. wp_run.
    + apply wp_append; wp_run; simpl.
      * split; [split|]; [|simpl; rewrite Hpr; set_solver|done].
        unfold calm. simpl. rewrite Ht, completed_app, fin_records_app, Hf. cbn.
        split_and!; [|lia|done..]. by apply safe_line.
      * intros _ d e. by apply safe_leave.
    + by intros e.
  - destruct Hh as [Hc|(_ & Hpr & _)]; [|set_solver].
    eapply wp_mono; [by apply wp_appendMessage| |done]. intros [] p' Hp'. by wp_run.
Qed.

Lemma wp_dispatch calls p :
  rest_p p → wp (dispatchKernelTools handle (append_tool E) calls) (λ _, rest_p) X p.
Proof.
  revert p. induction calls as [|call calls IH]; intros p Hp; simpl; wp_run; [done|].
  eapply wp_mono; [by apply wp_handle_tool| |done]. intros text p' Hh. wp_run.
  eapply wp_mono; [by apply (wp_append_tool call)| |done]. intros [] p'' Hp''. wp_run.
  eapply wp_mono; [by apply IH| |done]. intros ms q Hq. by wp_run.
Qed.

Lemma wp_applyKernelTurn m p :
  rest_p p → wp (applyKernelTurn handle (append_tool E) m (append_assistant E)) (λ _, rest_p) X p.
Proof.
  intros Hp. unfold applyKernelTurn, append_assistant. wp_run; [|by apply rest_safe].
  eapply wp_mono; [by apply wp_appendMessage, Hp| |done]. intros [] p' Hp'. wp_run.
  eapply wp_mono; [by apply wp_dispatch| |done]. intros ms q Hq. by wp_run.
Qed.

Lemma wp_take_guidance gs p :
  rest_p p → wp (take_guidance guidance_text E gs) (λ _, rest_p) X p.
Proof.
  revert p. induction gs as [|g gs IH]; intros p Hp; simpl; wp_run; [done|].
  eapply wp_mono; [by apply wp_appendGuidance| |done]. intros fresh p' Hp'. wp_run; by apply IH.
Qed.

(** Broker calls that neither run a tool nor finish. *)
Lemma wp_require_rest l b e p :
  runs l = [] → sent l = [] → rest_p p →
  wp (n ← ask E l; require (b n) (Error e)) (λ _, rest_p) X p.
Proof.
  intros Hr Hs Hp. assert (rest_p (step_on l p)) by by apply rest_step.
  wp_run. apply wp_ask; [intros; by apply rest_safe|]. wp_run; [done|by apply rest_safe].
Qed.
Lemma wp_answer_rest {A} l (o : nat → option A) e p :
  runs l = [] → sent l = [] → rest_p p →
  wp (n ← ask E l; answer (o n) e) (λ _, rest_p) X p.
Proof.
  intros Hr Hs Hp. assert (rest_p (step_on l p)) by by apply rest_step.
  wp_run. apply wp_ask; [intros; by apply rest_safe|]. apply wp_answer; [|done].
  intros; by apply rest_safe.
Qed.

(** Sending the prepared finish and recording that it was sent. *)
Lemma wp_conclude f {A} (r : A) p :
  safe_p p → fin_records (file (jr p)) = [f] →
  wp (sendFinish E f;; on_journal (completeFinish (disk E) f);; mret r) (λ _, safe_p) X p.
Proof.
  intros Hs Hf. assert (safe_p (step_on [SendFinish f] p)) by by apply safe_sent.
  unfold sendFinish. wp_run. apply wp_ask; [done|]. wp_run; [|done].
  apply wp_on_journal. unfold completeFinish. wp_run; [|done]. apply wp_append; wp_run.
  - unfold safe_p. simpl. apply safe_line; [|done]. by destruct (tail _).
  - intros _ d e. by apply safe_left.
Qed.

Lemma wp_finish_turn m turns resumed p :
  rest_p p → wp (finish_turn digest has_beforeFinish E m turns resumed) (λ _, safe_p) X p.
Proof.
  intros Hp. unfold finish_turn. wp_run; [|by apply rest_safe].
  set (f := (_, _)).
  apply (wp_mono _ (λ _, rest_p) _ X); [| |done].
  { unfold beforeFinish. wp_step; [by apply (wp_require_rest [BeforeFinish f])|done]. }
  intros [] q [[Hc Hpr] Ht]. pose proof (calm_sent _ _ Hc) as Hsent.
  pose proof Hc as (Hs & Hn & Hf & Hp0 & Hd). wp_step. apply wp_on_journal. unfold prepareFinish. wp_run.
  rewrite Hp0, Hd. wp_run. apply wp_append; [wp_step|].
  - apply wp_conclude; simpl; [|by rewrite Ht, fin_records_app, Hf].
    unfold safe_p. simpl. rewrite Ht. apply safe_finish; try done. by constructor.
  - intros _ d e. unfold safe_p. simpl.
    destruct (file_leave d (FinishPrepared f) (jr q)) as [->|[->| ->]]; [done|apply safe_finish..]; try done.
    by constructor.
Qed.

Abbreviation turn :=
  (one_turn JSON_parse digest think_ok guidance_text tool_error maxMessages has_beforeFinish E).

Lemma wp_one_turn turns resumed p :
  rest_p p →
  wp (turn turns resumed) (λ r q, match r with None => rest_p q | Some _ => safe_p q end) X p.
Proof.
  intros Hp. unfold one_turn, throwIfAborted, pullGuidance. wp_step.
  eapply wp_mono; [by apply (wp_require_rest [])| |done]. intros [] p1 H1. wp_step.
  eapply wp_mono; [by apply (wp_answer_rest [PullGuidance])| |done]. intros gs p2 H2. wp_step.
  eapply wp_mono; [by apply wp_take_guidance| |done]. intros [] p3 H3. wp_step.
  apply (wp_mono _ (λ _, rest_p) _ X); [| |done].
  { wp_step; [done|]. by apply (wp_require_rest [_]). }
  intros [] p4 H4. do 3 (wp_step; cbv beta). wp_step; [cbv beta|by apply rest_safe].
  wp_step. eapply wp_mono; [by apply (wp_answer_rest [_])| |done]. intros m p5 H5. wp_run.
  eapply wp_mono; [apply wp_applyKernelTurn| |done].
  { destruct H5 as [[Hc Hpr] Ht]. done. }
  intros more p6 H6. wp_run; [done|].
  eapply wp_mono; [by apply wp_finish_turn| |done]. intros r q Hq. by wp_run.
Qed.

Lemma wp_loop remaining turns resumed p :
  rest_p p →
  wp (loop JSON_parse digest think_ok guidance_text tool_error maxMessages has_beforeFinish E
        remaining turns resumed) (λ _, safe_p) X p.
Proof.
  revert turns p. induction remaining as [|n IH]; intros turns p Hp; simpl; [by apply rest_safe|].
  wp_step. eapply wp_mono; [by apply wp_one_turn| |done]. intros [r|] q Hq; wp_run; [done|].
  by apply IH.
Qed.

Abbreviation episode :=
  (run JSON_parse digest WORKER_SYSTEM_PROMPT think_ok mandate_text guidance_text tool_error
     maxTurns maxMessages has_beforeFinish E).

Lemma wp_run_episode p rs :
  file (jr p) = Line <$> rs → reduce rs = inr (current (jr p)) → tail (jr p) = false →
  preparedRuns p = ∅ → safe_p p → wp episode (λ _, safe_p) X p.
Proof.
  intros Hfile Hred Ht Hpr Hs. destruct (reduce_accounts _ _ Hred) as [Hcount Hfin].
  unfold counted, finish_known in *. rewrite <-Hfile in *. pose proof Hs as (Hsub & _ & H1 & _ & Hsent).
  unfold run. do 3 (wp_step; cbv beta). wp_step; [cbv beta; guards|done].
  destruct (finished (current (jr p))) as [g|] eqn:Ed; [by wp_run|].
  destruct (pendingFinish (current (jr p))) as [g|] eqn:Ep.
  { apply wp_conclude; [done|]. destruct (fin_records _) as [|f [|]]; simpl in *; [naive_solver| |lia].
    destruct Hfin as [(? & _)|(? & ? & _)]; congruence. }
  assert (rest_p p) as Hrest.
  { split; [split|done]; [|done]. apply sublist_length in Hsub. rewrite H, map_size_empty in Hcount.
    unfold calm. split_and!; [done|lia| |done..].
    destruct (fin_records _) as [|f [|]]; simpl in *; [done| |lia]. naive_solver. }
  wp_step. wp_step. wp_step. apply (wp_mono _ (λ _, rest_p) _ X); [| |done].
  2: { intros [] q Hq. by apply wp_loop. }
  wp_step; [by wp_run|]. wp_step. eapply wp_mono; [by apply (wp_require_rest [])| |done].
  intros [] p1 Hp1. wp_step. eapply wp_mono; [by apply (wp_answer_rest [GetMandate])| |done].
  intros m p2 Hp2. wp_step. eapply wp_mono; [by apply wp_initialize| |done].
  intros [] p3 Hp3. by wp_run.
Qed.
End life.

Abbreviation next :=
  (live JSON_parse digest WORKER_SYSTEM_PROMPT think_ok mandate_text guidance_text tool_error
     maxTurns maxMessages has_beforeFinish).
Abbreviation history := (λ Es,
  lives JSON_parse digest WORKER_SYSTEM_PROMPT think_ok mandate_text guidance_text tool_error
    maxTurns maxMessages has_beforeFinish Es empty_store).

Lemma live_safe s E : safe (st_file s) (st_trace s) → safe (st_file (next s E).2) (st_trace (next s E).2).
Proof.
  intros Hs. unfold live. destruct (open_journal _ _) as [|j] eqn:Ho; [done|].
  unfold open_journal in Ho. apply bind_inr in Ho as (? & Ht%check_inr & Ho).
  destruct (records_of _) as [rs|] eqn:Hrs; [|done].
  apply bind_inr in Ho as (st & Hred & [= <-]). apply records_of_lines in Hrs.
  destruct (run _ _ _ _ _ _ _ _ _ _ _ _) as [res p] eqn:Hrun. simpl.
  eapply (wp_elim _ (λ _, safe_p) (λ _, safe_p)) in Hrun; [by destruct res|].
  by apply (wp_run_episode E _ rs).
Qed.

Lemma history_safe Es : safe (st_file (history Es)) (st_trace (history Es)).
Proof.
  unfold lives. induction Es as [|E Es IH] using rev_ind.
  - unfold safe. simpl. split_and!; try done; [lia..|]. by intros f ?%elem_of_nil.
  - rewrite foldl_app. simpl. by apply live_safe.
Qed.

(** A life that does anything starts from a journal without missing outcomes. *)
Lemma live_acts s E :
  st_trace (next s E).2 = st_trace s
  ∨ ∃ rs st, st_file s = Line <$> rs ∧ reduce rs = inr st ∧ pendingTools st = ∅ ∧ finished st = None.
Proof.
  unfold live. destruct (open_journal _ _) as [|j] eqn:Ho; [by left|].
  unfold open_journal in Ho. apply bind_inr in Ho as (? & Ht%check_inr & Ho).
  destruct (records_of _) as [rs|] eqn:Hrs; [|by left].
  apply bind_inr in Ho as (st & Hred & [= <-]). apply records_of_lines in Hrs.
  unfold run. autorewrite with eff. simpl.
  case_bool_decide as Hp; [|by left].
  destruct (finished st) eqn:Hf; [by left|]. right. eauto 10.
Qed.

(** C21. Over any number of lives, with writes that fail and processes that die in
    any step, every run of a tool had its own preparation durable on file before
    it started, at most one run ever lacks its result on file, and a further life
    that does anything at all to the outside starts with every result on file: an
    effect whose outcome was lost is never repeated. *)
Theorem tools_at_most_once Es E :
  let s := history Es in
  runs (st_trace s) `sublist_of` prepared (st_file s)
  ∧ length (runs (st_trace s)) ≤ S (completed (st_file s))
  ∧ (st_trace (next s E).2 ≠ st_trace s → length (runs (st_trace s)) ≤ completed (st_file s)).
Proof.
  intros s. destruct (history_safe Es) as (Hsub & Hn & _). split_and!; [done|done|].
  intros Hne. destruct (live_acts s E) as [?|(rs & st & Hfile & Hred & Hp & _)]; [done|]. destruct (reduce_accounts _ _ Hred) as [Hc _].
  apply sublist_length in Hsub. unfold counted in Hc. rewrite <-Hfile, Hp, map_size_empty in Hc.
  fold s in Hsub. lia.
Qed.

(** Every finish that was sent is the one on file. *)
Lemma sent_recorded Es f :
  SendFinish f ∈ st_trace (history Es) →
  fin_records (st_file (history Es)) = [f] ∧ f.1 = finishKey digest f.2.
Proof.
  intros Hf. destruct (history_safe Es) as (_ & _ & H1 & Hk & Hsent).
  assert (fin_records (st_file (history Es)) = [f]) as Hr.
  { apply Hsent. apply list_elem_of_omap. by exists (SendFinish f). }
  split; [done|]. rewrite Hr in Hk. by inversion Hk.
Qed.

(** Over any number of lives, with writes that fail and processes that die in
    any step, one finish is ever sent: every send carries the one prepared on
    file, under the key derived from its body; and once its success is on file, no
    later life does anything to the outside. *)
Theorem finish_single Es E :
  let s := history Es in
  (∀ f, SendFinish f ∈ st_trace s → fin_records (st_file s) = [f] ∧ f.1 = finishKey digest f.2)
  ∧ (∀ f, Line (FinishDone f) ∈ st_file s → st_trace (next s E).2 = st_trace s).
Proof.
  intros s. split; [apply sent_recorded|]. destruct (history_safe Es) as (_ & _ & H1 & _). fold s in H1.
  intros f Hf. destruct (live_acts s E) as [?|(rs & st & Hfile & Hred & _ & Hd)]; [done|].
  destruct (reduce_accounts _ _ Hred) as [_ Hfin]. unfold finish_known in Hfin.
  rewrite Hfile in Hf. rewrite <-Hfile in Hfin. apply list_elem_of_fmap in Hf as (r & [= <-] & Hf).
  destruct (fin_records (st_file s)) as [|g [|]]; simpl in H1; [naive_solver| |lia].
  destruct Hfin as [(_ & _ & Hn)|(_ & Hd' & _)]; [by destruct (Hn _ Hf)|congruence].
Qed.
End safety.

(** ** A concrete history *)

Definition ex_call : ToolCall := {| tc_id := "c1"; tc_name := "run"; tc_arguments := lit "args"; tc_code := None |}.
Definition ex_parse (raw : jstring) : option parsed :=
  Some (PObject [("code", PString (lit "x")); ("detail", PString (lit "one step"))]).
Definition ex_env (dying : nat) : env := {|
  dies n := Nat.eqb n dying;
  aborts _ := false;
  mandate _ := Some (mkMandate (lit "m") (lit "t") (lit "b") (lit "open"));
  guidance n := Some (if Nat.eqb n 3 then [mkGuidance 7 (lit "s") (lit "hint")] else []);
  succeeds _ := true;
  completion n :=
    Some (if Nat.ltb n 8 then mkMessage assistant [] None [] [] [ex_call] None None None []
          else message assistant (lit " done ") None);
  sandbox_run _ := Some (mkRun (lit "result") false);
  clock n := Z.of_nat n;
  disk _ := Durable;
|}.
Definition ex_lives (Es : list env) : store :=
  lives ex_parse (λ s, s) [] [] (λ _, lit "mandate") (λ _, lit "guidance") (λ _, lit "error")
    64 128 true Es empty_store.

(** Dying in the run of the tool leaves one run without its result; the next life
    does nothing.  Without deaths, the tool runs once and the finish is sent. *)
Lemma tools_at_most_once_witness :
  runs (st_trace (ex_lives [ex_env 7])) = [ex_call] ∧ completed (st_file (ex_lives [ex_env 7])) = 0
  ∧ ex_lives [ex_env 7; ex_env 1000] = ex_lives [ex_env 7]
  ∧ runs (st_trace (ex_lives [ex_env 1000; ex_env 1000])) `sublist_of`
      prepared (st_file (ex_lives [ex_env 1000; ex_env 1000])).
Proof.
  split_and!; [vm_compute; reflexivity..|].
  apply (tools_at_most_once ex_parse (λ s, s) [] [] (λ _, lit "mandate") (λ _, lit "guidance")
           (λ _, lit "error") 64 128 true [ex_env 1000; ex_env 1000] (ex_env 0)).
Defined.

Lemma finish_single_witness :
  length (sent (st_trace (ex_lives [ex_env 12; ex_env 0]))) = 2
  ∧ ∀ f, SendFinish f ∈ st_trace (ex_lives [ex_env 12; ex_env 0]) →
      fin_records (st_file (ex_lives [ex_env 12; ex_env 0])) = [f].
Proof.
  split; [vm_compute; reflexivity|]. intros f Hf.
  apply (finish_single ex_parse (λ s, s) [] [] (λ _, lit "mandate") (λ _, lit "guidance")
           (λ _, lit "error") 64 128 true [ex_env 12; ex_env 0] (ex_env 0)). exact Hf.
Defined.

Lemma journal_replays_witness :
  let ops := [OInitialize [message system (lit "s") None]; OGuidance 7 (message user (lit "g") None);
              OPrepareTool ex_call 5; OPrepareTool ex_call 6; OPrepareFinish (lit "k", lit "b")] in
  let j := foldl (λ j o, exec (λ _, Durable) o j) empty_journal ops in
  ∃ j', open_journal (file j) (tail j) = inr j' ∧ current j' = current j.
Proof.
  apply (journal_replays (λ _, Durable)); [done|]. repeat constructor.
Defined.
