(* ===== verification/Mailbox.v ===== *)
(** * The mailbox of workers (src/worker/mailbox.ts, session.ts, auth.ts, mailbox-request.ts)

    Dispatcher and worker exchange messages through a table of the database; a
    worker's last message is its finish, which also closes its session.  A method
    is a sequence of SQL statements on a connection: outside a transaction other
    connections may commit any statements of the program before every statement
    ([others]), and every statement may fail ([fails]); inside a transaction the database is locked, and an error
    restores what it was.  A statement that violates a constraint of the schema
    (src/store/db.ts) fails.  Rows are kept in the order of their ids. *)

From S2P Require Import Prelude JsString JsText.
Local Open Scope string_scope.
Local Open Scope list_scope.
Local Open Scope Z_scope.

Inductive Kind := message | finish.
Inductive Direction := dispatcher_to_worker | worker_to_dispatcher.
Inductive Status := spawning | running | idle | finished | failed | dismissed.
#[export] Instance Kind_eq_dec : EqDecision Kind.
Proof. solve_decision. Defined.
#[export] Instance Direction_eq_dec : EqDecision Direction.
Proof. solve_decision. Defined.
#[export] Instance Status_eq_dec : EqDecision Status.
Proof. solve_decision. Defined.

(** A row of [worker_mailbox_messages], which is what the methods return. *)
Record Message := mkMessage {
  m_id : Z;
  m_sessionId : string;
  m_direction : Direction;
  m_kind : Kind;
  m_key : jstring;
  m_sender : jstring;
  m_body : jstring;
  m_createdAt : Z;
  m_acknowledgedAt : option Z;
}.

(** A row of [worker_sessions], as far as the mailbox reads or writes it. *)
Record Session := mkSession {
  w_id : string;
  w_slug : jstring;
  w_status : Status;
  w_model_ref : option jstring;
  w_mind_id : option jstring;
  w_runtime : string;
  w_digest : string;
  w_source_sha256 : option string;
  w_created_at : Z;
  w_updated_at : Z;
  w_last_error : option jstring;
  w_completion_notified_at : option Z;
  w_runtime_cleanup_completed_at : option Z;
  w_runtime_cleanup_error : option jstring;
}.

Record WorkerSessionBinding := mkBinding {
  b_sessionId : string;
  b_worker : jstring;
  b_modelRef : jstring;
  b_mindId : jstring;
  b_runtime : string;
}.

(** [artifacts] lists the session and source digest of every workspace artifact;
    [next_id] is the next key of the AUTOINCREMENT column. *)
Record db := mkDb {
  sessions : list Session;
  messages : list Message;
  artifacts : list (string * string);
  next_id : Z;
}.

Inductive mailbox_error :=
  | Unauthorized | InvalidRequest | NotFound | Conflict   (* WorkerMailboxError *)
  | SqlError.                                             (* an error of the database *)

(** [WorkerFinishCommitted] *)
Definition FinishCommitted : Type := string * Z.

Record conn := mkConn {
  data : db;
  in_tx : bool;
  ticks : nat;
  finishListeners : list nat;
  notified : list (nat * FinishCommitted);
}.


Definition with_data d (c : conn) : conn :=
  mkConn d (in_tx c) (S (ticks c)) (finishListeners c) (notified c).
Definition with_tx b d (c : conn) : conn :=
  mkConn d b (S (ticks c)) (finishListeners c) (notified c).
Definition with_listeners l (c : conn) : conn :=
  mkConn (data c) (in_tx c) (ticks c) l (notified c).
Definition with_event e (c : conn) : conn :=
  mkConn (data c) (in_tx c) (ticks c) (finishListeners c) (notified c ++ [e]).

Definition set_messages l (d : db) : db := mkDb (sessions d) l (artifacts d) (next_id d).
Definition set_sessions l (d : db) : db := mkDb l (messages d) (artifacts d) (next_id d).
Definition set_ack t (m : Message) : Message :=
  mkMessage (m_id m) (m_sessionId m) (m_direction m) (m_kind m) (m_key m) (m_sender m) (m_body m)
    (m_createdAt m) t.

(** ** Validation *)

(** [boundedText]; [None] is a value that is not a string. *)
Definition boundedText (value : option jstring) (max : Z) : mailbox_error + jstring :=
  match value with
  | Some s =>
      check (negb (bool_decide (trim s = []))) InvalidRequest;;
      check (Z.of_nat (length s) <=? max) InvalidRequest;;
      mret s
  | None => inl InvalidRequest
  end.

Definition is_alnum (u : Z) : bool :=
  ((65 <=? u) && (u <=? 90)) || ((97 <=? u) && (u <=? 122)) || ((48 <=? u) && (u <=? 57)).
(** [/^[A-Za-z0-9][A-Za-z0-9._:-]*$/] *)
Definition is_key (s : jstring) : bool :=
  match s with
  | [] => false
  | u :: r => is_alnum u && forallb (λ u, is_alnum u || bool_decide (u ∈ lit "._:-")) r
  end.
Definition messageKey (value : option jstring) : mailbox_error + jstring :=
  key ← boundedText value 80;
  check (is_key key) InvalidRequest;;
  mret key.

(** [boundedLimit]; [None] is a number that is not an integer. *)
Definition boundedLimit (value : option Z) : mailbox_error + Z :=
  match value with
  | Some n => check ((1 <=? n) && (n <=? 100)) InvalidRequest;; mret n
  | None => inl InvalidRequest
  end.

(** [boundedIds]: the distinct ids, as a set; a number that is no integer is
    refused like 0. *)
Definition boundedIds (value : list Z) : mailbox_error + list Z :=
  check (Nat.leb 1 (length value) && Nat.leb (length value) 100) InvalidRequest;;
  let ids := remove_dups value in
  check (forallb (λ id, (id <=? MAX_SAFE_INTEGER) && negb (id <=? 0)) ids) InvalidRequest;;
  mret ids.

(** [/^[A-Za-z0-9_-]{43}$/] *)
Definition is_token (t : jstring) : bool :=
  Nat.eqb (length t) 43 && forallb (λ u, is_alnum u || (u =? 95) || (u =? 45)) t.

(** [Buffer.from(s, 'hex')]: pairs of digits up to the first that is none. *)
Definition hex_digit (a : Ascii.ascii) : option Z :=
  let u := Z.of_nat (Ascii.nat_of_ascii a) in
  if (48 <=? u) && (u <=? 57) then Some (u - 48)
  else if (97 <=? u) && (u <=? 102) then Some (u - 87)
  else if (65 <=? u) && (u <=? 70) then Some (u - 55)
  else None.
Fixpoint from_hex (s : string) : list Z :=
  match s with
  | String a (String b s) =>
      match hex_digit a, hex_digit b with
      | Some x, Some y => (x * 16 + y) :: from_hex s
      | _, _ => []
      end
  | _ => []
  end.

(** SQL's [length] of a text: characters before the first NUL. *)
Fixpoint sql_length (s : jstring) : Z :=
  match s with
  | [] => 0
  | u :: r =>
      if u =? 0 then 0
      else match r with
        | v :: r' => if is_high u && is_low v then 1 + sql_length r' else 1 + sql_length r
        | [] => 1
        end
  end.

Definition is_active (s : Status) : bool :=
  match s with spawning | running | idle => true | _ => false end.
Definition is_runtime (r : string) : bool := String.eqb r "trusted" || String.eqb r "kubernetes".

(** The binding of a row, when its columns have the types the code asks for. *)
Definition binding_of (w : Session) : option WorkerSessionBinding :=
  if is_runtime (w_runtime w) then
    match w_model_ref w, w_mind_id w with
    | Some model, Some mind =>
        Some (mkBinding (w_id w) (lit "worker:" ++ w_slug w) model mind (w_runtime w))
    | _, _ => None
    end
  else None.

(** ** Tables *)

Definition in_box (sid : string) (dir : Direction) (m : Message) : bool :=
  String.eqb (m_sessionId m) sid && bool_decide (m_direction m = dir).
Definition find_key (sid : string) (dir : Direction) (key : jstring) (d : db) : option Message :=
  List.find (λ m, in_box sid dir m && bool_decide (m_key m = key)) (messages d).
Definition is_finish (sid : string) (m : Message) : bool :=
  in_box sid worker_to_dispatcher m && bool_decide (m_kind m = finish).
Definition find_finish (sid : string) (d : db) : option Message := List.find (is_finish sid) (messages d).
Definition find_id (id : Z) (d : db) : option Message := List.find (λ m, m_id m =? id) (messages d).
Definition session_by (f : Session → bool) (d : db) : option Session := List.find f (sessions d).
Definition has_artifact (sid sha : string) (d : db) : bool :=
  existsb (λ a, String.eqb a.1 sid && String.eqb a.2 sha) (artifacts d).

(** The constraints of the schema on a new row. *)
Definition within (lo hi : Z) (s : jstring) : bool :=
  (lo <=? sql_length s) && (sql_length s <=? hi).
Definition insertable (d : db) (m : Message) : bool :=
  existsb (λ w, String.eqb (w_id w) (m_sessionId m)) (sessions d)
  && within 1 80 (m_key m) && within 1 80 (m_sender m) && within 1 100000 (m_body m)
  && (bool_decide (m_direction m = worker_to_dispatcher) || bool_decide (m_kind m = message))
  && bool_decide (find_key (m_sessionId m) (m_direction m) (m_key m) d = None)
  && negb (is_finish (m_sessionId m) m && negb (bool_decide (find_finish (m_sessionId m) d = None))).

(** [UPDATE worker_sessions SET status = 'finished', ...].  [fresh] also resets the
    columns of completion and cleanup. *)
Definition to_finished (at_ : Z) (fresh : bool) (w : Session) : Session :=
  mkSession (w_id w) (w_slug w) finished (w_model_ref w) (w_mind_id w) (w_runtime w) (w_digest w)
    (w_source_sha256 w) (w_created_at w) (Z.max (w_updated_at w) at_) None
    (if fresh then None else w_completion_notified_at w)
    (if fresh then None else w_runtime_cleanup_completed_at w)
    (if fresh then None else w_runtime_cleanup_error w).
Definition finishable (sid : string) (fresh : bool) (w : Session) : bool :=
  String.eqb (w_id w) sid
  && (is_active (w_status w)
      || negb fresh && (bool_decide (w_status w = failed) || bool_decide (w_status w = finished))).

(** ** Other connections

    Every statement of the program that writes these tables (src/worker/mailbox.ts,
    spawn.ts, supervisor.ts, workspace.ts); no statement deletes a row. *)

Definition set_status (st : Status) (at_ : Z) (error : option jstring) (w : Session) : Session :=
  mkSession (w_id w) (w_slug w) st (w_model_ref w) (w_mind_id w) (w_runtime w) (w_digest w) (w_source_sha256 w)
    (w_created_at w) at_ error (w_completion_notified_at w) (w_runtime_cleanup_completed_at w) (w_runtime_cleanup_error w).
Definition set_completion (n c : option Z) (e : option jstring) (w : Session) : Session :=
  mkSession (w_id w) (w_slug w) (w_status w) (w_model_ref w) (w_mind_id w) (w_runtime w) (w_digest w) (w_source_sha256 w)
    (w_created_at w) (w_updated_at w) (w_last_error w) n c e.
Definition set_source (sha : string) (at_ : Z) (w : Session) : Session :=
  mkSession (w_id w) (w_slug w) (w_status w) (w_model_ref w) (w_mind_id w) (w_runtime w) (w_digest w) (Some sha)
    (w_created_at w) at_ (w_last_error w) (w_completion_notified_at w) (w_runtime_cleanup_completed_at w) (w_runtime_cleanup_error w).
(** [MAX(created_at, updated_at, ?)] *)
Definition latest (at_ : Z) (w : Session) : Z := Z.max (Z.max (w_created_at w) (w_updated_at w)) at_.
Definition is_ended (s : Status) : bool := match s with finished | failed | dismissed => true | _ => false end.
(** [UPDATE worker_sessions SET ... WHERE ...] *)
Definition update_where (P : Session → bool) (f : Session → Session) (d : db) : db :=
  set_sessions (map (λ w, if P w then f w else w) (sessions d)) d.
Definition with_id (id : string) (P : Status → bool) (w : Session) : bool := String.eqb (w_id w) id && P (w_status w).
Definition is_spawning (s : Status) : bool := bool_decide (s = spawning).
(** The constraints on a new session. *)
Definition spawnable (w : Session) (d : db) : bool :=
  within 1 80 (w_slug w) && Nat.eqb (String.length (w_digest w)) 64
  && forallb (λ w', negb (String.eqb (w_id w') (w_id w)) && negb (bool_decide (w_slug w' = w_slug w))
                    && negb (String.eqb (w_digest w') (w_digest w))
                    && negb (is_active (w_status w') && bool_decide (w_mind_id w' = w_mind_id w))) (sessions d).

Inductive written :=
  | InsertMessage (sid : string) (dir : Direction) (k : Kind) (key sender body : jstring) (at_ : Z)
  | AcknowledgeMessages (sid : string) (dir : Direction) (ids : list Z) (at_ : Z)
  | FinishSession (sid : string) (at_ : Z) (fresh : bool)
  | SpawnSession (id : string) (slug modelRef mindId : jstring) (digest : string) (at_ : Z)
  | BindSource (id sha256 : string) (at_ : Z)
  | FailSource (id : string) (at_ : Z) (error : jstring)
  | FailProvisioning (id : string) (at_ : Z) (error : jstring)
  | RunProvisioned (id : string) (at_ : Z)
  | RevokeProvisioning (ids : list string) (at_ : Z) (error : jstring)
  | DismissSession (id : string) (at_ : Z)
  | RecoverFailed
  | RecoverFinished (id : string)
  | RunRecovered (id : string) (at_ : Z)
  | FailRecovered (id : string) (at_ : Z) (error : jstring)
  | CleanupFailed (id : string) (error : jstring)
  | CleanupCompleted (id : string) (at_ : Z)
  | CompletionNotified (id : string) (at_ : Z)
  | StoreArtifact (sid sha256 : string).

(** The time of a session's finish, of which there is at most one. *)
Definition finish_time (d : db) (w : Session) : option Z := m_createdAt <$> find_finish (w_id w) d.
Definition to_recovered (d : db) (w : Session) : Session :=
  set_status finished (Z.max (w_updated_at w) (default (w_updated_at w) (finish_time d w))) None w.
(** The statements on sessions, each [UPDATE worker_sessions SET ... WHERE ...]. *)
Definition insert_session (id : string) (slug modelRef mindId : jstring) (digest : string) (at_ : Z) (d : db) : db :=
  let w := mkSession id slug spawning (Some modelRef) (Some mindId) "kubernetes" digest None at_ at_ None None None None in
  if spawnable w d then set_sessions (sessions d ++ [w]) d else d.
Definition bind_source (id sha : string) (at_ : Z) : db → db :=
  update_where (λ w, with_id id is_spawning w && bool_decide (w_source_sha256 w = None)) (set_source sha at_).
Definition fail_source (id : string) (at_ : Z) (error : jstring) : db → db :=
  update_where (with_id id is_spawning)
    (λ w, set_completion None (Some (latest at_ w)) None (set_status failed (latest at_ w) (Some error) w)).
Definition fail_session (P : Status → bool) (id : string) (at_ : Z) (error : jstring) : db → db :=
  update_where (with_id id P)
    (λ w, set_completion None (w_runtime_cleanup_completed_at w) (w_runtime_cleanup_error w)
            (set_status failed at_ (Some error) w)).
Definition run_session (P : Status → bool) (id : string) (at_ : Z) : db → db :=
  update_where (with_id id P) (set_status running at_ None).
Definition revoke_provisioning (ids : list string) (at_ : Z) (error : jstring) : db → db :=
  update_where (λ w, bool_decide (w_id w ∈ ids) && is_spawning (w_status w))
    (λ w, set_completion None None None (set_status failed (latest at_ w) (Some error) w)).
Definition dismiss_session (id : string) (at_ : Z) : db → db :=
  update_where (with_id id is_active) (λ w, set_status dismissed at_ (w_last_error w) w).
Definition recover_failed (d : db) : db :=
  update_where (λ w, bool_decide (w_status w = failed) && bool_decide (is_Some (find_finish (w_id w) d))) (to_recovered d) d.
Definition recover_finished (id : string) (d : db) : db := update_where (with_id id is_active) (to_recovered d) d.
Definition cleanup_failed (id : string) (error : jstring) : db → db :=
  update_where (λ w, with_id id is_ended w && bool_decide (w_runtime_cleanup_completed_at w = None))
    (λ w, set_completion (w_completion_notified_at w) (w_runtime_cleanup_completed_at w) (Some error) w).
Definition cleanup_completed (id : string) (at_ : Z) : db → db :=
  update_where (λ w, with_id id is_ended w && bool_decide (w_runtime_cleanup_completed_at w = None))
    (λ w, set_completion (w_completion_notified_at w) (Some (latest at_ w)) None w).
Definition completion_notified (id : string) (at_ : Z) : db → db :=
  update_where (with_id id (λ st, bool_decide (st = finished) || bool_decide (st = failed)))
    (λ w, set_completion (Some (default (latest at_ w) (w_completion_notified_at w)))
            (w_runtime_cleanup_completed_at w) (w_runtime_cleanup_error w) w).
Definition store_artifact (sid sha : string) (d : db) : db :=
  mkDb (sessions d) (messages d) (artifacts d ++ [(sid, sha)]) (next_id d).

(** A statement that violates a constraint changes nothing; constraints on columns
    that are not modelled only make more statements do so. *)
Definition write (s : written) (d : db) : db :=
  match s with
  | InsertMessage sid dir k key sender body at_ =>
      let m := mkMessage (next_id d) sid dir k key sender body at_ None in
      if insertable d m then mkDb (sessions d) (messages d ++ [m]) (artifacts d) (next_id d + 1) else d
  | AcknowledgeMessages sid dir ids at_ =>
      set_messages (map (λ m, if in_box sid dir m && bool_decide (m_id m ∈ ids)
                              then set_ack (Some (default at_ (m_acknowledgedAt m))) m else m) (messages d)) d
  | FinishSession sid at_ fresh => update_where (finishable sid fresh) (to_finished at_ fresh) d
  | SpawnSession id slug modelRef mindId digest at_ => insert_session id slug modelRef mindId digest at_ d
  | BindSource id sha at_ => bind_source id sha at_ d
  | FailSource id at_ error => fail_source id at_ error d
  | FailProvisioning id at_ error => fail_session is_spawning id at_ error d
  | RunProvisioned id at_ => run_session is_spawning id at_ d
  | RevokeProvisioning ids at_ error => revoke_provisioning ids at_ error d
  | DismissSession id at_ => dismiss_session id at_ d
  | RecoverFailed => recover_failed d
  | RecoverFinished id => recover_finished id d
  | RunRecovered id at_ => run_session is_active id at_ d
  | FailRecovered id at_ error => fail_session is_active id at_ error d
  | CleanupFailed id error => cleanup_failed id error d
  | CleanupCompleted id at_ => cleanup_completed id at_ d
  | CompletionNotified id at_ => completion_notified id at_ d
  | StoreArtifact sid sha => store_artifact sid sha d
  end.

(** What other connections commit before the n-th statement, which statements fail,
    and the clock. *)
Record env := {
  foreign : nat → list written;
  fails : nat → bool;
  clock : nat → Z;
}.
Definition others (E : env) (n : nat) (d : db) : db := foldl (λ d s, write s d) d (foreign E n).

(** ** Statements *)

Section broker.
(** SHA-256, and what a text column gives back for a bound string. *)
Context (sha256_hex : list Z → string) (column : jstring → jstring).
Context (E : env).

Abbreviation M := (eff conn mailbox_error).

Definition statement {A} (f : db → option (A * db)) : M A := λ c,
  let d := if in_tx c then data c else others E (ticks c) (data c) in
  if fails E (ticks c) then (inl SqlError, with_data d c)
  else match f d with
       | Some (a, d') => (inr a, with_data d' c)
       | None => (inl SqlError, with_data d c)
       end.
Definition select {A} (f : db → A) : M A := statement (λ d, Some (f d, d)).
Definition update (f : db → db) : M () := statement (λ d, Some (tt, f d)).

(** [BEGIN IMMEDIATE], the body and [COMMIT]; any error rolls back. *)
Definition transaction {A} (m : M A) : M A := λ c,
  let d := others E (ticks c) (data c) in
  if fails E (ticks c) then (inl SqlError, with_data d c)
  else match m (with_tx true d c) with
       | (inr a, c') =>
           if fails E (ticks c') then (inl SqlError, with_tx false d c')
           else (inr a, with_tx false (data c') c')
       | (inl e, c') => (inl e, with_tx false d c')
       end.

(** [try m catch h] *)
Definition try_catch {A} (m : M A) (h : mailbox_error → M A) : M A := λ c,
  match m c with
  | (inl e, c') => h e c'
  | r => r
  end.

Definition now : M Z := λ c, (inr (clock E (ticks c)), with_data (data c) c).

(** ** Sessions (session.ts, auth.ts) *)

(** [workerControlTokenDigest]; [None] when the token is malformed. *)
Definition workerControlTokenDigest (token : jstring) : option string :=
  if is_token token then Some (sha256_hex (utf8_encode token)) else None.
Definition verifyWorkerControlToken (token : jstring) (expectedDigest : string) : bool :=
  match workerControlTokenDigest token with
  | Some digest =>
      let actual := from_hex digest in
      let expected := from_hex expectedDigest in
      Nat.eqb (length actual) 32 && Nat.eqb (length expected) 32 && bool_decide (actual = expected)
  | None => false
  end.

(** The session that holds the token. *)
Definition session_of_token (token : jstring) : M (option Session) :=
  match workerControlTokenDigest token with
  | None => mret None
  | Some digest =>
      w ← select (session_by (λ w, String.eqb (w_digest w) digest));
      mret (match w with
            | Some w => if verifyWorkerControlToken token (w_digest w) then Some w else None
            | None => None
            end)
  end.
Definition resolveWorkerSession (token : jstring) : M (option WorkerSessionBinding) :=
  w ← session_of_token token;
  mret (match w with
        | Some w => if is_active (w_status w) then binding_of w else None
        | None => None
        end).

(** ** WorkerMailboxBroker *)

Definition onFinish (l : nat) : M () :=
  modify (λ c, if bool_decide (l ∈ finishListeners c) then c
               else with_listeners (finishListeners c ++ [l]) c).
Definition offFinish (l : nat) : M () :=
  modify (λ c, with_listeners (filter (λ l', l' ≠ l) (finishListeners c)) c).

Definition worker (token : jstring) : M WorkerSessionBinding :=
  b ← resolveWorkerSession token;
  match b with Some b => mret b | None => throw Unauthorized end.

Definition dispatcherSession (sid : string) (activeOnly : bool) : M WorkerSessionBinding :=
  w ← select (session_by (λ w, String.eqb (w_id w) sid));
  match w with
  | Some w =>
      require (negb (activeOnly && negb (is_active (w_status w)))) NotFound;;
      match binding_of w with Some b => mret b | None => throw NotFound end
  | None => throw NotFound
  end.

Definition existing (sid : string) (dir : Direction) (key : jstring) : M (option Message) :=
  select (find_key sid dir (column key)).

Definition same_content (k : Kind) (sender body : jstring) (m : Message) : bool :=
  bool_decide (m_kind m = k) && bool_decide (m_sender m = sender) && bool_decide (m_body m = body).

(** [INSERT INTO worker_mailbox_messages]: the new id. *)
Definition insert_row (sid : string) (dir : Direction) (k : Kind) (key sender body : jstring) (at_ : Z)
    : M Z :=
  statement (λ d,
    let m := mkMessage (next_id d) sid dir k (column key) (column sender) (column body) at_ None in
    if insertable d m
    then Some (next_id d, mkDb (sessions d) (messages d ++ [m]) (artifacts d) (next_id d + 1))
    else None).
Definition row (id : Z) : M Message :=
  r ← select (find_id id);
  match r with Some m => mret m | None => throw SqlError end.

(** The source of the session must be in custody before a finish. *)
Definition custody (sid : string) (source : option string) : M () :=
  match source with
  | Some sha =>
      if String.eqb sha "" then mret tt
      else a ← select (has_artifact sid sha); require a Conflict
  | None => mret tt
  end.

Definition insert (sid : string) (dir : Direction) (k : Kind) (key sender body : jstring) : M Message :=
  prior ← existing sid dir key;
  match prior with
  | Some m => require (same_content k sender body m) Conflict;; mret m
  | None =>
      f ← select (find_finish sid);
      require (bool_decide (f = None)) Conflict;;
      (if bool_decide (dir = worker_to_dispatcher) && bool_decide (k = finish) then
         w ← select (session_by (λ w, String.eqb (w_id w) sid));
         custody sid (w ≫= w_source_sha256)
       else mret tt);;
      try_catch
        (t ← now; id ← insert_row sid dir k key sender body t; row id)
        (λ e,
          raced ← existing sid dir key;
          match raced with
          | Some m => if same_content k sender body m then mret m
                      else throw (if bool_decide (k = finish) then Conflict else e)
          | None => throw (if bool_decide (k = finish) then Conflict else e)
          end)
  end.

(** The number of rows changed. *)
Definition finish_session (sid : string) (at_ : Z) (fresh : bool) : M nat :=
  statement (λ d,
    Some (length (List.filter (finishable sid fresh) (sessions d)),
          set_sessions (map (λ w, if finishable sid fresh w then to_finished at_ fresh w else w)
                          (sessions d)) d)).

Definition insertFinish (b : WorkerSessionBinding) (key body : jstring) : M Message :=
  transaction (
    prior ← existing (b_sessionId b) worker_to_dispatcher key;
    match prior with
    | Some m =>
        require (same_content finish (b_worker b) body m) Conflict;;
        finish_session (b_sessionId b) (m_createdAt m) false;;
        mret m
    | None =>
        f ← select (find_finish (b_sessionId b));
        require (bool_decide (f = None)) Conflict;;
        w ← select (session_by (λ w, String.eqb (w_id w) (b_sessionId b)));
        match w with
        | Some w =>
            require (is_active (w_status w)) Unauthorized;;
            custody (b_sessionId b) (w_source_sha256 w);;
            createdAt ← now;
            id ← insert_row (b_sessionId b) worker_to_dispatcher finish key (b_worker b) body createdAt;
            changed ← finish_session (b_sessionId b) createdAt true;
            require (Nat.eqb changed 1) Conflict;;
            row id
        | None => throw Unauthorized
        end
    end).

Definition terminalFinishRetry (token key body : jstring)
    : M (option (WorkerSessionBinding * Message)) :=
  w ← session_of_token token;
  match w with
  | Some w =>
      if bool_decide (w_status w = finished) || bool_decide (w_status w = failed) then
        match binding_of w with
        | Some b =>
            m ← existing (b_sessionId b) worker_to_dispatcher key;
            match m with
            | Some m =>
                if same_content finish (b_worker b) body m then
                  r ← insertFinish b key body; mret (Some (b, r))
                else mret None
            | None => mret None
            end
        | None => mret None
        end
      else mret None
  | None => mret None
  end.

Definition is_pending (sid : string) (dir : Direction) (m : Message) : bool :=
  in_box sid dir m && bool_decide (m_acknowledgedAt m = None).
Definition pending (sid : string) (dir : Direction) (limit : option Z) : M (list Message) :=
  n ← lift (boundedLimit limit);
  select (λ d, take (Z.to_nat n) (List.filter (is_pending sid dir) (messages d))).

Definition acknowledge (sid : string) (dir : Direction) (idsValue : list Z) : M nat :=
  ids ← lift (boundedIds idsValue);
  let hit m := in_box sid dir m && bool_decide (m_id m ∈ ids) in
  transaction (
    n ← select (λ d, length (List.filter hit (messages d)));
    require (Nat.eqb n (length ids)) NotFound;;
    t ← now;
    update (λ d, set_messages
      (map (λ m, if hit m then set_ack (Some (default t (m_acknowledgedAt m))) m else m) (messages d)) d);;
    mret (length ids)).

(** The interface of the dispatcher. *)
Definition sendToWorker (sid : string) (key body sender : option jstring) : M Message :=
  b ← dispatcherSession sid true;
  key ← lift (messageKey key);
  sender ← lift (boundedText sender 80);
  body ← lift (boundedText body 100000);
  insert (b_sessionId b) dispatcher_to_worker message key sender body.
Definition finishFromWorker (sid : string) : M (option Message) :=
  b ← dispatcherSession sid false;
  select (find_finish (b_sessionId b)).
Definition pullFromWorker (sid : string) (limit : option Z) : M (list Message) :=
  b ← dispatcherSession sid false;
  pending (b_sessionId b) worker_to_dispatcher limit.
Definition acknowledgeFromWorker (sid : string) (ids : list Z) : M nat :=
  b ← dispatcherSession sid false;
  acknowledge (b_sessionId b) worker_to_dispatcher ids.

(** The interface of the worker. *)
Definition pullForWorker (token : jstring) (limit : option Z) : M (WorkerSessionBinding * list Message) :=
  b ← worker token;
  l ← pending (b_sessionId b) dispatcher_to_worker limit;
  mret (b, l).
Definition acknowledgeForWorker (token : jstring) (ids : list Z) : M nat :=
  b ← worker token;
  acknowledge (b_sessionId b) dispatcher_to_worker ids.

(** A listener is told of the finish; what it does with the database is what
    another connection may do, and what it throws is swallowed. *)
Definition notify (ev : FinishCommitted) (l : nat) : M () := λ c,
  (inr tt, with_event (l, ev) (with_data (others E (ticks c) (data c)) c)).
Fixpoint notify_all (ev : FinishCommitted) (ls : list nat) : M () :=
  match ls with
  | [] => mret tt
  | l :: ls => notify ev l;; notify_all ev ls
  end.

(** [None] is a kind that is neither. *)
Definition postFromWorker (token : jstring) (key : option jstring) (kind : option Kind)
    (body : option jstring) : M Message :=
  active ← resolveWorkerSession token;
  match kind with
  | None => throw InvalidRequest
  | Some k =>
      key ← lift (messageKey key);
      body ← lift (boundedText body 100000);
      retry ← match active, k with
              | None, finish => terminalFinishRetry token key body
              | _, _ => mret None
              end;
      m ← match retry, active with
          | Some (_, m), _ => mret m
          | None, Some b =>
              match k with
              | finish => insertFinish b key body
              | message => insert (b_sessionId b) worker_to_dispatcher message key (b_worker b) body
              end
          | None, None => throw Unauthorized
          end;
      match k with
      | finish =>
          c ← get;
          notify_all (m_sessionId m, m_id m) (finishListeners c)
      | message => mret tt
      end;;
      mret m
  end.

(** Everything a caller can do. *)
Inductive call :=
  | SendToWorker (sid : string) (key body sender : option jstring)
  | FinishFromWorker (sid : string)
  | PullFromWorker (sid : string) (limit : option Z)
  | AcknowledgeFromWorker (sid : string) (ids : list Z)
  | PullForWorker (token : jstring) (limit : option Z)
  | AcknowledgeForWorker (token : jstring) (ids : list Z)
  | PostFromWorker (token : jstring) (key : option jstring) (kind : option Kind) (body : option jstring)
  | OnFinish (l : nat)
  | OffFinish (l : nat).

(** What it gets back: the messages, or the number of acknowledged ones. *)
Inductive reply := Messages (l : list Message) | Count (n : nat) | Done.

Definition perform (c : call) : M reply :=
  match c with
  | SendToWorker sid key body sender => m ← sendToWorker sid key body sender; mret (Messages [m])
  | FinishFromWorker sid => m ← finishFromWorker sid; mret (Messages (option_list m))
  | PullFromWorker sid limit => l ← pullFromWorker sid limit; mret (Messages l)
  | AcknowledgeFromWorker sid ids => n ← acknowledgeFromWorker sid ids; mret (Count n)
  | PullForWorker token limit => r ← pullForWorker token limit; mret (Messages r.2)
  | AcknowledgeForWorker token ids => n ← acknowledgeForWorker token ids; mret (Count n)
  | PostFromWorker token key kind body => m ← postFromWorker token key kind body; mret (Messages [m])
  | OnFinish l => onFinish l;; mret Done
  | OffFinish l => offFinish l;; mret Done
  end.
Definition run (cs : list call) (c : conn) : conn := foldl (λ c x, (perform x c).2) c cs.
End broker.

(** A connection to new tables. *)
Definition new_conn : conn := mkConn (mkDb [] [] [] 1) false 0 [] [].
