(* ===== verification/MailboxFacts.v ===== *)
(** * Facts on the mailbox: what a connection may do to the tables

    [wf] is the schema; [grows] relates a database to any later one: rows are
    never deleted or rewritten, only acknowledged once, and a session that left the
    active states never returns to them.  Every statement of
    the program, and so every method, lies in [grows]. *)

From stdpp Require Import sorting.
From S2P Require Import Prelude Effects JsString JsText Mailbox.
Local Open Scope list_scope.
Local Open Scope Z_scope.

Definition box (m : Message) : string * Direction * jstring := (m_sessionId m, m_direction m, m_key m).

Record wf (d : db) : Prop := {
  wf_sorted : StronglySorted Z.lt (map m_id (messages d));
  wf_below : Forall (λ m, m_id m < next_id d) (messages d);
  wf_keys : NoDup (map box (messages d));
  wf_finish : ∀ m m', m ∈ messages d → m' ∈ messages d → is_finish (m_sessionId m') m = true →
                is_finish (m_sessionId m') m' = true → m = m';
  wf_typed : Forall (λ m, within 1 80 (m_key m) && within 1 80 (m_sender m) && within 1 100000 (m_body m)
                          && (bool_decide (m_direction m = worker_to_dispatcher)
                              || bool_decide (m_kind m = message)) = true) (messages d);
  wf_owned : ∀ m, m ∈ messages d → m_sessionId m ∈ map w_id (sessions d);
  wf_sessions : NoDup (map w_id (sessions d));
  wf_digests : NoDup (map w_digest (sessions d));
}.

(** [m'] is [m], possibly acknowledged since. *)
Definition aged (m m' : Message) : Prop :=
  m' = m ∨ m_acknowledgedAt m = None ∧ ∃ t, m' = set_ack (Some t) m.
(** [w'] is a later state of the session [w]. *)
Record later (w w' : Session) : Prop := {
  l_id : w_id w' = w_id w;
  l_slug : w_slug w' = w_slug w;
  l_model : w_model_ref w' = w_model_ref w;
  l_mind : w_mind_id w' = w_mind_id w;
  l_runtime : w_runtime w' = w_runtime w;
  l_digest : w_digest w' = w_digest w;
  l_active : is_active (w_status w') = true → is_active (w_status w) = true;
  l_finished : w_status w = finished → w_status w' = finished;
  l_dismissed : w_status w = dismissed → w_status w' = dismissed;
}.

Record grows (d d' : db) : Prop := {
  g_next : next_id d ≤ next_id d';
  g_rows : ∀ m, m ∈ messages d → ∃ m', m' ∈ messages d' ∧ aged m m';
  g_old : ∀ m', m' ∈ messages d' → m_id m' < next_id d → ∃ m, m ∈ messages d ∧ aged m m';
  g_sessions : ∀ w, w ∈ sessions d → ∃ w', w' ∈ sessions d' ∧ later w w';
}.

#[export] Instance aged_preorder : PreOrder aged.
Proof.
  split; [by left|]. intros m1 m2 m3 [->|(H & t & ->)] [->|(H' & t' & ->)]; [by left|by right; eauto..|].
  done.
Qed.
#[export] Instance later_preorder : PreOrder later.
Proof.
  split; [by split|]. intros w1 w2 w3 [] []. split; try congruence; auto.
Qed.
#[export] Instance grows_preorder : PreOrder grows.
Proof.
  split.
  - intros d. split; [lia|intros m ?; exists m; by split..|intros w ?; exists w; by split].
  - intros d1 d2 d3 [N1 R1 O1 S1] [N2 R2 O2 S2]. split; [lia|..].
    + intros m (m' & (m'' & ? & ?)%R2 & ?)%R1. exists m''. split; [done|by etrans].
    + intros m Hm Hid. destruct (O2 m Hm) as (m' & Hm' & Ha); [lia|].
      destruct (O1 m' Hm') as (m'' & ? & ?).
      { destruct Ha as [->|(_ & t & ->)]; done. }
      exists m''. split; [done|by etrans].
    + intros w (w' & (w'' & ? & ?)%S2 & ?)%S1. exists w''. split; [done|by etrans].
Qed.

Lemma aged_same m m' : aged m m' →
  m_id m' = m_id m ∧ box m' = box m ∧ m_kind m' = m_kind m ∧ m_sender m' = m_sender m
  ∧ m_body m' = m_body m ∧ m_createdAt m' = m_createdAt m.
Proof. by intros [->|(_ & t & ->)]. Qed.

(** A step of the connection. *)
Definition steps (c c' : conn) : Prop :=
  wf (data c) → wf (data c') ∧ grows (data c) (data c').
#[export] Instance steps_preorder : PreOrder steps.
Proof.
  split.
  - by intros c ?.
  - intros c1 c2 c3 H1 H2 Hw. destruct (H1 Hw) as (Hw2 & ?), (H2 Hw2). split; [done|by etrans].
Qed.
Definition safe {A} (m : eff conn mailbox_error A) : Prop := ∀ c, steps c (m c).2.

Create HintDb mailbox.

(** ** Combinators *)

Lemma safe_ret {A} (a : A) : safe (mret a).
Proof. by intros c. Qed.
Lemma safe_throw {A} e : safe (throw e : eff conn mailbox_error A).
Proof. by intros c. Qed.
Lemma safe_get : safe get.
Proof. by intros c. Qed.
Lemma safe_lift {A} (m : mailbox_error + A) : safe (lift m).
Proof. by intros c. Qed.
Lemma safe_require b e : safe (require b e).
Proof. intros c. by destruct b. Qed.
Lemma safe_bind {A B} (m : eff conn mailbox_error A) (k : A → eff conn mailbox_error B) :
  safe m → (∀ a, safe (k a)) → safe (m ≫= k).
Proof.
  intros Hm Hk c. specialize (Hm c). unfold mbind, eff_bind. destruct (m c) as [[e|a] c']; simpl in *; [done|].
  by etrans; [|apply Hk].
Qed.
Lemma safe_try {A} (m : eff conn mailbox_error A) h :
  safe m → (∀ e, safe (h e)) → safe (try_catch m h).
Proof.
  intros Hm Hh c. specialize (Hm c). unfold try_catch. destruct (m c) as [[e|a] c']; simpl in *; [|done].
  by etrans; [|apply Hh].
Qed.
#[export] Hint Resolve safe_ret safe_throw safe_get safe_lift safe_require safe_bind safe_try : mailbox.

(** ** What the writing statements do to the tables *)

Lemma find_none {A} (P : A → bool) l : List.find P l = None ↔ ∀ x, x ∈ l → P x = false.
Proof.
  split.
  - intros H x Hx%list_elem_of_In. by eapply List.find_none.
  - intros H. destruct (List.find P l) as [x|] eqn:Hf; [|done].
    apply List.find_some in Hf as [Hx%list_elem_of_In Hp]. by rewrite H in Hp.
Qed.

Lemma in_box_true sid dir m : in_box sid dir m = true ↔ m_sessionId m = sid ∧ m_direction m = dir.
Proof. unfold in_box. rewrite andb_true_iff, String.eqb_eq, bool_decide_eq_true. done. Qed.
Lemma is_finish_true sid m :
  is_finish sid m = true ↔ m_sessionId m = sid ∧ m_direction m = worker_to_dispatcher ∧ m_kind m = finish.
Proof. unfold is_finish. rewrite andb_true_iff, in_box_true, bool_decide_eq_true. naive_solver. Qed.
Lemma find_key_spec sid dir key d m :
  find_key sid dir key d = Some m → m ∈ messages d ∧ box m = (sid, dir, key).
Proof.
  intros [Hm%list_elem_of_In Hp]%List.find_some. split; [done|].
  rewrite andb_true_iff, in_box_true, bool_decide_eq_true in Hp. unfold box. naive_solver congruence.
Qed.
Lemma find_key_none sid dir key d :
  find_key sid dir key d = None → ∀ m, m ∈ messages d → box m ≠ (sid, dir, key).
Proof.
  unfold find_key. rewrite find_none. intros H m Hm [= H1 H2 H3]. specialize (H m Hm).
  rewrite (proj2 (in_box_true sid dir m)) in H by done. by rewrite bool_decide_true in H.
Qed.

Lemma sorted_snoc (l : list Z) x : StronglySorted Z.lt l → Forall (λ y, y < x) l → StronglySorted Z.lt (l ++ [x]).
Proof.
  induction 1 as [|y l ? IH Hy]; intros HF; simpl; [by repeat constructor|].
  inversion HF; subst. constructor; [by apply IH|]. apply Forall_app. by split; [|constructor].
Qed.

Lemma insert_wf d m :
  wf d → m_id m = next_id d → insertable d m = true →
  wf (mkDb (sessions d) (messages d ++ [m]) (artifacts d) (next_id d + 1)).
Proof.
  intros [Hs Hb Hk Hf Ht Ho Hss Hdd] Hid Hi. unfold insertable in Hi.
  rewrite !andb_true_iff in Hi. destruct Hi as ((((((Hown & Hkey) & Hsender) & Hbody) & Hkind) & Hnew) & Hfin).
  apply bool_decide_eq_true in Hnew. apply negb_true_iff in Hfin.
  split; simpl; try done.
  - rewrite map_app. simpl. apply sorted_snoc; [done|]. apply Forall_map. eapply Forall_impl; [exact Hb|].
    intros x Hx. simpl in *. rewrite Hid. done.
  - apply Forall_app. split; [|repeat constructor; lia]. eapply Forall_impl; [exact Hb|]. intros m' ?. simpl in *. lia.
  - rewrite map_app. apply NoDup_app. split; [done|]. split; [|apply NoDup_singleton].
    intros b (m' & -> & Hm')%list_elem_of_fmap Hb'%list_elem_of_singleton.
    by eapply find_key_none in Hnew; [apply Hnew|].
  - assert (∀ m', m' ∈ messages d → is_finish (m_sessionId m) m = true →
                  is_finish (m_sessionId m) m' = true → False) as Hno.
    { intros m' Hm' H1 H2. rewrite H1 in Hfin. simpl in Hfin. apply negb_false_iff, bool_decide_eq_true in Hfin.
      unfold find_finish in Hfin. rewrite find_none in Hfin. by rewrite Hfin in H2. }
    intros m1 m2 H1 H2 Hm1 Hm2. apply elem_of_app in H1 as [H1|H1], H2 as [H2|H2];
      rewrite ?list_elem_of_singleton in H1; rewrite ?list_elem_of_singleton in H2; subst;
      [by eapply Hf|by destruct (Hno m1)| |done].
    destruct (Hno m2); [done| |]; pose proof (proj1 (is_finish_true _ _) Hm1) as (Heq & _); by rewrite Heq.
  - apply Forall_app. split; [done|]. constructor; [|done]. by rewrite Hkey, Hsender, Hbody, Hkind.
  - intros m' [?|H%list_elem_of_singleton]%elem_of_app; [by apply Ho|]. subst m'.
    apply existsb_exists in Hown as (w & Hw & He%String.eqb_eq). rewrite <-He. apply list_elem_of_fmap.
    exists w. split; [done|by apply list_elem_of_In].
Qed.
Lemma insert_grows d m :
  m_id m = next_id d → grows d (mkDb (sessions d) (messages d ++ [m]) (artifacts d) (next_id d + 1)).
Proof.
  intros Hid. split; simpl; [lia| | |].
  - intros m' ?. exists m'. split; [set_solver|done].
  - intros m' [?|H%list_elem_of_singleton]%elem_of_app ?; [by exists m'|subst; lia].
  - intros w ?. by exists w.
Qed.

(** Rewriting rows in place, keeping what the schema looks at. *)
Lemma acked_wf d (f : Message → Message) :
  (∀ m, aged m (f m)) → wf d → wf (set_messages (map f (messages d)) d) ∧ grows d (set_messages (map f (messages d)) d).
Proof.
  intros Hf [Hs Hb Hk Hfin Ht Ho Hss Hdd].
  assert (∀ m, m_id (f m) = m_id m) as Hid by (intros m; by destruct (aged_same _ _ (Hf m)) as (? & _)).
  assert (∀ m, box (f m) = box m) as Hbox by (intros m; by destruct (aged_same _ _ (Hf m)) as (_ & ? & _)).
  assert (∀ m, m_kind (f m) = m_kind m) as Hkind by (intros m; by destruct (aged_same _ _ (Hf m)) as (_ & _ & ? & _)).
  assert (∀ m, m_sessionId (f m) = m_sessionId m) as Hsid by (intros m; by injection (Hbox m)).
  split; [split; simpl; try done|split; simpl; [lia|..]].
  - rewrite map_map. by erewrite map_ext.
  - apply Forall_map. eapply Forall_impl; [exact Hb|]. intros m ?. simpl. by rewrite Hid.
  - rewrite map_map. by erewrite map_ext.
  - intros m1 m2 (x & -> & Hx)%list_elem_of_fmap (y & -> & Hy)%list_elem_of_fmap.
    rewrite !is_finish_true, Hsid, !Hkind. intros (H1 & H2 & H3) (_ & H4 & H5). f_equal.
    pose proof (Hbox x) as Bx. pose proof (Hbox y) as By. unfold box in Bx, By. injection Bx as Sx Dx Kx.
    injection By as Sy Dy Ky. apply Hfin; [done|done|..]; rewrite is_finish_true; split_and!; congruence.
  - apply Forall_map. eapply Forall_impl; [exact Ht|]. intros m. simpl.
    destruct (aged_same _ _ (Hf m)) as (_ & B & K & S & Bd & _). unfold box in B. injection B as _ -> ->.
    by rewrite K, S, Bd.
  - intros m' (m & -> & Hm)%list_elem_of_fmap. rewrite Hsid. by apply Ho.
  - intros m Hm. exists (f m). split; [|done]. by apply list_elem_of_fmap_2.
  - intros m' (m & -> & Hm)%list_elem_of_fmap _. by exists m.
  - intros w ?. by exists w.
Qed.
Lemma sessions_wf d (f : Session → Session) :
  (∀ w, w ∈ sessions d → later w (f w)) → wf d →
  wf (set_sessions (map f (sessions d)) d) ∧ grows d (set_sessions (map f (sessions d)) d).
Proof.
  intros Hf [Hs Hb Hk Hfin Ht Ho Hss Hdd].
  assert (map w_id (map f (sessions d)) = map w_id (sessions d)) as Hid.
  { rewrite map_map. apply map_ext_in. intros w Hw%list_elem_of_In. apply (l_id _ _ (Hf w Hw)). }
  assert (map w_digest (map f (sessions d)) = map w_digest (sessions d)) as Hdg.
  { rewrite map_map. apply map_ext_in. intros w Hw%list_elem_of_In. apply (l_digest _ _ (Hf w Hw)). }
  split; [split; simpl; rewrite ?Hid, ?Hdg; done|split; simpl; [lia|by intros m ?; exists m..|]].
  intros w Hw. exists (f w). split; [|by apply Hf]. by apply list_elem_of_fmap_2.
Qed.

Lemma spawn_wf d w :
  spawnable w d = true → wf d →
  wf (set_sessions (sessions d ++ [w]) d) ∧ grows d (set_sessions (sessions d ++ [w]) d).
Proof.
  intros Hs [Hso Hb Hk Hfin Ht Ho Hss Hdd]. unfold spawnable in Hs. apply andb_true_iff in Hs as [_ Hs].
  assert (∀ w', w' ∈ sessions d → w_id w' ≠ w_id w ∧ w_digest w' ≠ w_digest w) as Hnew.
  { intros w' Hin%list_elem_of_In. rewrite forallb_forall in Hs. specialize (Hs w' Hin).
    rewrite !andb_true_iff, !negb_true_iff, !String.eqb_neq in Hs. naive_solver. }
  split; [split; simpl; try done|split; simpl; [lia|by intros m ?; exists m..|]].
  - intros m Hm. rewrite map_app. apply elem_of_app. left. by apply Ho.
  - rewrite map_app. apply NoDup_app. split_and!; [done| |apply NoDup_singleton].
    intros x (w' & -> & Hin)%list_elem_of_fmap Hx%list_elem_of_singleton. by destruct (Hnew w' Hin).
  - rewrite map_app. apply NoDup_app. split_and!; [done| |apply NoDup_singleton].
    intros x (w' & -> & Hin)%list_elem_of_fmap Hx%list_elem_of_singleton. by destruct (Hnew w' Hin).
  - intros w' ?. exists w'. split; [set_solver|done].
Qed.
(** An update that keeps what identifies a session and does not revive it. *)
Lemma update_wf d P f :
  (∀ w, P w = true → later w (f w)) → wf d → wf (update_where P f d) ∧ grows d (update_where P f d).
Proof. intros Hf. apply sessions_wf. intros w _. destruct (P w) eqn:Hp; [by apply Hf|done]. Qed.
Lemma ack_aged t (b : bool) m : aged m (if b then set_ack (Some (default t (m_acknowledgedAt m))) m else m).
Proof.
  destruct b; [|done]. destruct (m_acknowledgedAt m) as [u|] eqn:Hm; simpl; [left|right; eauto].
  destruct m; simpl in *; by subst.
Qed.
Lemma finishable_later sid fresh at_ w : finishable sid fresh w = true → later w (to_finished at_ fresh w).
Proof.
  unfold finishable. intros [_ Hc]%andb_true_iff. split; simpl; try done.
  intros Hd. rewrite Hd in Hc. simpl in Hc. by destruct fresh.
Qed.

(** ** Other connections *)

(** Every statement of the program preserves the schema and loses nothing. *)
Lemma write_ok s d : wf d → wf (write s d) ∧ grows d (write s d).
Proof.
  intros Hw. destruct s; simpl; unfold insert_session, bind_source, fail_source, fail_session, run_session,
    revoke_provisioning, dismiss_session, recover_failed, recover_finished, cleanup_failed, cleanup_completed,
    completion_notified;
    try (apply update_wf; [|done]; intros w; unfold with_id, is_spawning; intros Hp; guards;
         split; simpl; try done; destruct (w_status w); naive_solver).
  - destruct (insertable _ _) eqn:Hi; [|done]. split; [by apply insert_wf|by apply insert_grows].
  - apply acked_wf; [|done]. intros m. apply ack_aged.
  - apply update_wf; [|done]. apply finishable_later.
  - destruct (spawnable _ _) eqn:Hs; [|done]. by apply spawn_wf.
  - split; [by destruct Hw; split|]. split; simpl; [lia|intros m ?; by exists m..|intros w ?; by exists w].
Qed.
Lemma others_ok E n d : wf d → wf (others E n d) ∧ grows d (others E n d).
Proof.
  unfold others. revert d. induction (foreign E n) as [|s l IH]; intros d Hw; simpl; [done|].
  destruct (write_ok s d Hw) as [Hw' Hg], (IH (write s d) Hw'). split; [done|by etrans].
Qed.

Section facts.
Context (sha256_hex : list Z → string) (column : jstring → jstring).
Context (E : env).

Lemma safe_statement {A} (f : db → option (A * db)) :
  (∀ d a d', wf d → f d = Some (a, d') → wf d' ∧ grows d d') → safe (statement E f).
Proof.
  intros Hf c Hw. unfold statement.
  assert (wf (if in_tx c then data c else others E (ticks c) (data c))
          ∧ grows (data c) (if in_tx c then data c else others E (ticks c) (data c))) as [Hw1 Hg1].
  { destruct (in_tx c); [done|by apply others_ok]. }
  destruct (fails E _); [done|]. destruct (f _) as [[a d']|] eqn:Hd; [|done]. simpl.
  destruct (Hf _ _ _ Hw1 Hd). split; [done|by etrans].
Qed.
Lemma safe_select {A} (f : db → A) : safe (select E f).
Proof. apply safe_statement. by intros d a d' ? [= <- <-]. Qed.
Lemma safe_now : safe (now E).
Proof. by intros c. Qed.
Lemma safe_transaction {A} (m : eff conn mailbox_error A) : safe m → safe (transaction E m).
Proof.
  intros Hm c Hw. unfold transaction. destruct (others_ok E (ticks c) (data c) Hw) as [Hw1 Hg1].
  destruct (fails E _); [done|].
  destruct (Hm (with_tx true (others E (ticks c) (data c)) c) Hw1) as (Hw2 & Hg2).
  destruct (m _) as [[e|a] c']; simpl in *; [done|]. destruct (fails E _); simpl; [done|].
  split; [done|by etrans].
Qed.
Hint Resolve safe_select safe_now safe_transaction : mailbox.

Lemma safe_insert_row sid dir k key sender body at_ : safe (insert_row column E sid dir k key sender body at_).
Proof.
  apply safe_statement. intros d a d' Hw H. cbv zeta in H. case_match eqn:Hi; [|done]. injection H as <- <-.
  split; [by apply insert_wf|by apply insert_grows].
Qed.

Lemma safe_finish_session sid at_ fresh : safe (finish_session E sid at_ fresh).
Proof.
  apply safe_statement. intros d a d' Hw [= <- <-]. apply sessions_wf; [|done]. intros w _.
  destruct (finishable _ _ w) eqn:Hc; [by eapply finishable_later|done].
Qed.
Hint Resolve safe_insert_row safe_finish_session : mailbox.

(** ** The methods *)

Ltac safe_walk :=
  repeat first
    [ solve [eauto with mailbox]
    | apply safe_bind; [|intros ?]
    | apply safe_try; [|intros ?]
    | apply safe_transaction
    | progress case_match ].

Lemma safe_session_of_token token : safe (session_of_token sha256_hex E token).
Proof. unfold session_of_token. safe_walk. Qed.
Lemma safe_resolve token : safe (resolveWorkerSession sha256_hex E token).
Proof. apply safe_bind; [apply safe_session_of_token|]. intros ?. apply safe_ret. Qed.
Lemma safe_worker token : safe (worker sha256_hex E token).
Proof. apply safe_bind; [apply safe_resolve|]. intros ?. safe_walk. Qed.
Lemma safe_dispatcher sid activeOnly : safe (dispatcherSession E sid activeOnly).
Proof. unfold dispatcherSession. safe_walk. Qed.
Lemma safe_existing sid dir key : safe (existing column E sid dir key).
Proof. apply safe_select. Qed.
Lemma safe_row id : safe (row E id).
Proof. unfold row. safe_walk. Qed.
Lemma safe_custody sid source : safe (custody E sid source).
Proof. unfold custody. safe_walk. Qed.
Hint Resolve safe_session_of_token safe_resolve safe_worker safe_dispatcher safe_existing safe_row
  safe_custody : mailbox.

Lemma safe_insert sid dir k key sender body : safe (insert column E sid dir k key sender body).
Proof. unfold insert. safe_walk. Qed.
Lemma safe_insertFinish b key body : safe (insertFinish column E b key body).
Proof. unfold insertFinish. safe_walk. Qed.
Hint Resolve safe_insert safe_insertFinish : mailbox.
Lemma safe_retry token key body : safe (terminalFinishRetry sha256_hex column E token key body).
Proof. unfold terminalFinishRetry. safe_walk. Qed.
Lemma safe_pending sid dir limit : safe (pending E sid dir limit).
Proof. unfold pending. safe_walk. Qed.
Lemma safe_acknowledge sid dir ids : safe (acknowledge E sid dir ids).
Proof.
  unfold acknowledge. safe_walk. apply safe_statement. intros d x d' Hw [= <- <-].
  apply acked_wf; [|done]. intros m. apply ack_aged.
Qed.
Lemma safe_notify ev ls : safe (notify_all E ev ls).
Proof.
  induction ls as [|l ls IH]; simpl; [apply safe_ret|]. apply safe_bind; [|done].
  intros c Hw. simpl. by apply others_ok.
Qed.
Hint Resolve safe_retry safe_pending safe_acknowledge safe_notify : mailbox.

Lemma safe_send sid key body sender : safe (sendToWorker column E sid key body sender).
Proof. unfold sendToWorker. safe_walk. Qed.
Lemma safe_pull token limit : safe (pullForWorker sha256_hex E token limit).
Proof. unfold pullForWorker. safe_walk. Qed.
Lemma safe_post token key kind body : safe (postFromWorker sha256_hex column E token key kind body).
Proof. unfold postFromWorker. safe_walk. Qed.
Hint Resolve safe_send safe_pull safe_post : mailbox.

Lemma perform_safe x : safe (perform sha256_hex column E x).
Proof.
  destruct x; simpl; (apply safe_bind; [|intros; apply safe_ret]); eauto with mailbox;
    unfold finishFromWorker, pullFromWorker, acknowledgeFromWorker, acknowledgeForWorker; try solve [safe_walk].
  intros c. unfold onFinish. simpl. by case_bool_decide.
Qed.
Lemma run_safe cs c : steps c (run sha256_hex column E cs c).
Proof.
  revert c. induction cs as [|x cs IH]; intros c; simpl; [done|]. etrans; [apply perform_safe|apply IH].
Qed.

Lemma new_wf : wf (data new_conn).
Proof. split; simpl; try (by constructor); [by intros ? ? ?%elem_of_nil|by intros ? ?%elem_of_nil]. Qed.
(** The schema holds of every history. *)
Lemma run_wf cs : wf (data (run sha256_hex column E cs new_conn)).
Proof. apply run_safe, new_wf. Qed.
End facts.
