(* ===== verification/MailboxTheorems.v ===== *)
(** * Theorems on the mailbox

    Receipts are stable and consistent, a session has one finish, a finish can be
    retried, and pulling and acknowledging are exact -- whatever other connections
    commit between the statements, and whichever statements fail. *)

From stdpp Require Import sorting.
From S2P Require Import Prelude JsString JsText Mailbox MailboxFacts.
Local Open Scope list_scope.
Local Open Scope Z_scope.

(** ** What the statements return *)

Lemma ebind_inr {A B} (m : eff conn mailbox_error A) (k : A → eff conn mailbox_error B) c b c'' :
  (m ≫= k) c = (inr b, c'') → ∃ a c', m c = (inr a, c') ∧ k a c' = (inr b, c'').
Proof. unfold mbind, eff_bind. destruct (m c) as [[e|a] c']; [done|]. eauto. Qed.
Lemma ebind_eq {A B} (m : eff conn mailbox_error A) (k : A → eff conn mailbox_error B) c a c' :
  m c = (inr a, c') → (m ≫= k) c = k a c'.
Proof. unfold mbind, eff_bind. by intros ->. Qed.
Lemma require_inr b (e : mailbox_error) (c : conn) u c' : require b e c = (inr u, c') → b = true ∧ c' = c.
Proof. destruct b; simpl; [|done]. unfold require. simpl. intros [= _ <-]. done. Qed.
Lemma lift_inr {A} (m : mailbox_error + A) (c : conn) a c' : lift m c = (inr a, c') → m = inr a ∧ c' = c.
Proof. unfold lift. by intros [= -> ->]. Qed.

Lemma id_unique d m m' : wf d → m ∈ messages d → m' ∈ messages d → m_id m = m_id m' → m = m'.
Proof.
  intros Hw. pose proof (wf_sorted _ Hw) as Hs. revert Hs. generalize (messages d) as l.
  induction l as [|x l IH]; simpl; intros Hs Hm Hm' He; [by apply not_elem_of_nil in Hm|].
  inversion Hs as [|? ? Hs' Hx]; subst. rewrite Forall_map, Forall_forall in Hx. simpl in Hx.
  apply elem_of_cons in Hm as [->|Hm], Hm' as [->|Hm']; [done| | |by apply IH].
  - specialize (Hx _ Hm'). lia.
  - specialize (Hx _ Hm). lia.
Qed.
Lemma box_unique d m m' : wf d → m ∈ messages d → m' ∈ messages d → box m = box m' → m = m'.
Proof.
  intros Hw Hm Hm' He. apply list_elem_of_lookup in Hm as [i Hi], Hm' as [j Hj].
  assert (i = j) as <-; [|congruence]. eapply NoDup_lookup; [exact (wf_keys _ Hw)|..];
    rewrite list_lookup_fmap; [by rewrite Hi|rewrite Hj; simpl; by rewrite He].
Qed.

Section theorems.
Context (sha256_hex : list Z → string) (column : jstring → jstring).
Context (E : env).

Lemma select_inr {A} (f : db → A) c a c' :
  wf (data c) → select E f c = (inr a, c') → wf (data c') ∧ grows (data c) (data c') ∧ a = f (data c').
Proof.
  intros Hw H. pose proof (safe_select E f c Hw) as [Hw' Hg]. rewrite H in Hw', Hg. split_and!; [done..|].
  revert H. unfold select, statement. destruct (fails E _); [done|]. by intros [= <- <-].
Qed.
Lemma row_inr id c m c' :
  wf (data c) → row E id c = (inr m, c') →
  wf (data c') ∧ grows (data c) (data c') ∧ m ∈ messages (data c') ∧ m_id m = id.
Proof.
  intros Hw (r & c1 & (Hw1 & Hg & ->)%select_inr & H)%ebind_inr; [|done].
  destruct (find_id id _) as [m1|] eqn:Hf; simpl in H; [|done]. injection H as -> ->.
  apply List.find_some in Hf as [?%list_elem_of_In Hi%Z.eqb_eq]. by split_and!.
Qed.

(** The message answers a request with this content. *)
Definition answers sid dir k key sender body (m : Message) : Prop :=
  box m = (sid, dir, column key) ∧ m_kind m = k ∧ (m_sender m = sender ∨ m_sender m = column sender)
  ∧ (m_body m = body ∨ m_body m = column body).

Lemma insert_row_inr sid dir k key sender body at_ c id c' :
  wf (data c) → insert_row column E sid dir k key sender body at_ c = (inr id, c') →
  ∃ m, wf (data c') ∧ grows (data c) (data c') ∧ m ∈ messages (data c') ∧ m_id m = id
       ∧ answers sid dir k key sender body m.
Proof.
  intros Hw H. pose proof (safe_insert_row column E sid dir k key sender body at_ c Hw) as [Hw' Hg].
  rewrite H in Hw', Hg. revert H. unfold insert_row, statement. destruct (fails E _); [done|]. cbv zeta.
  destruct (insertable _ _); [|done]. intros [= <- <-]. eexists. split_and!; [done|done|..].
  - simpl. apply elem_of_app. right. by apply list_elem_of_singleton.
  - done.
  - repeat split; simpl; auto.
Qed.
Lemma answers_aged sid dir k key sender body m m' :
  aged m m' → answers sid dir k key sender body m → answers sid dir k key sender body m'.
Proof.
  intros (_ & Hb & Hk & Hs & Hbd & _)%aged_same. unfold answers. by rewrite Hb, Hk, Hs, Hbd.
Qed.
Lemma stored_row sid dir k key sender body c m0 m c' :
  wf (data c) → m0 ∈ messages (data c) → answers sid dir k key sender body m0 →
  row E (m_id m0) c = (inr m, c') →
  wf (data c') ∧ grows (data c) (data c') ∧ m ∈ messages (data c') ∧ answers sid dir k key sender body m.
Proof.
  intros Hw Hm0 Ha (Hw' & Hg & Hm & Hid)%row_inr; [|done]. split_and!; [done..|].
  destruct (g_rows _ _ Hg m0 Hm0) as (m1 & Hm1 & Hag).
  assert (m1 = m) as <-; [|by eapply answers_aged].
  apply (id_unique (data c')); [done..|]. destruct (aged_same _ _ Hag) as (-> & _). done.
Qed.
Lemma existing_inr sid dir key k sender body c r c' :
  wf (data c) → existing column E sid dir key c = (inr r, c') →
  wf (data c') ∧ grows (data c) (data c')
  ∧ (∀ m, r = Some m → m ∈ messages (data c') ∧ box m = (sid, dir, column key)
          ∧ (same_content k sender body m = true → answers sid dir k key sender body m)).
Proof.
  intros Hw (Hw' & Hg & ->)%select_inr; [|done]. split_and!; [done..|]. intros m Hm.
  apply find_key_spec in Hm as [Hm Hb]. split_and!; [done..|]. unfold same_content. intros ?. guards.
  unfold answers. auto.
Qed.

Ltac next H a c := apply ebind_inr in H as (a & c & ? & H).

Lemma insert_inr sid dir k key sender body c m c' :
  wf (data c) → insert column E sid dir k key sender body c = (inr m, c') →
  m ∈ messages (data c') ∧ answers sid dir k key sender body m.
Proof.
  intros Hw (r & c1 & Hex & H)%ebind_inr.
  apply (existing_inr _ _ _ k sender body) in Hex as (Hw1 & _ & Hr); [|done]. destruct r as [m1|].
  { apply ebind_inr in H as (u & c2 & [Hs ->]%require_inr & H). injection H as -> ->.
    destruct (Hr m eq_refl) as (? & _ & ?); auto. }
  apply ebind_inr in H as (f & c2 & (Hw2 & _ & ->)%select_inr & H); [|done].
  apply ebind_inr in H as (u & c3 & [_ ->]%require_inr & H).
  apply ebind_inr in H as (u' & c4 & Hc & H).
  assert (wf (data c4)) as Hw4.
  { assert (∀ src c0, steps c0 (custody E sid src c0).2) as Hcu by (intros; by apply safe_custody).
    destruct (_ && _); [|by injection Hc as _ <-].
    apply ebind_inr in Hc as (w & c5 & (Hw5 & _ & ->)%select_inr & Hc); [|done].
    specialize (Hcu (session_by (λ w, String.eqb (w_id w) sid) (data c5) ≫= w_source_sha256) c5 Hw5) as [Hcu _].
    by rewrite Hc in Hcu. }
  unfold try_catch in H.
  destruct ((t ← now E; id ← insert_row column E sid dir k key sender body t; row E id) c4) as [[e|m1] c5] eqn:Hins.
  - assert (wf (data c5)) as Hw5.
    { assert (safe (t ← now E; id ← insert_row column E sid dir k key sender body t; row E id)) as Hs.
      { apply safe_bind; [apply safe_now|]. intros t. apply safe_bind; [by apply safe_insert_row|].
        intros id. by apply safe_row. }
      destruct (Hs c4 Hw4) as [Hs' _]. by rewrite Hins in Hs'. }
    apply ebind_inr in H as (r & c6 & Hex & H).
    apply (existing_inr _ _ _ k sender body) in Hex as (Hw6 & _ & Hr'); [|done].
    destruct r as [m1|]; [|done]. destruct (same_content k sender body m1) eqn:Hs; [|done].
    injection H as -> ->. destruct (Hr' m eq_refl) as (? & _ & ?); auto.
  - injection H as -> ->.
    apply ebind_inr in Hins as (t & c5 & Ht & Hins). injection Ht as _ <-.
    apply ebind_inr in Hins as (id & c6 & Hi & Hins).
    apply insert_row_inr in Hi as (m0 & Hw6 & _ & Hm0 & <- & Ha); [|done].
    eapply stored_row in Hins as (_ & _ & ? & ?); eauto.
Qed.

(** A session whose finish was committed. *)
Definition ended (sid : string) (d : db) : Prop :=
  ∀ w, w ∈ sessions d → w_id w = sid → w_status w = finished ∨ w_status w = dismissed.

Lemma session_unique d w w' : wf d → w ∈ sessions d → w' ∈ sessions d → w_id w = w_id w' → w = w'.
Proof.
  intros Hw H H' He. apply list_elem_of_lookup in H as [i Hi], H' as [j Hj].
  assert (i = j) as <-; [|congruence]. eapply NoDup_lookup; [exact (wf_sessions _ Hw)|..];
    rewrite list_lookup_fmap; [by rewrite Hi|rewrite Hj; simpl; by rewrite He].
Qed.
Lemma finish_session_inr sid at_ fresh c n c' :
  wf (data c) → in_tx c = true → finish_session E sid at_ fresh c = (inr n, c') →
  wf (data c') ∧ grows (data c) (data c') ∧ messages (data c') = messages (data c)
  ∧ in_tx c' = true ∧ (fresh = false ∨ n = 1%nat → ended sid (data c')).
Proof.
  intros Hw Htx H. pose proof (safe_finish_session E sid at_ fresh c Hw) as [Hw' Hg]. rewrite H in Hw', Hg.
  revert H Hw' Hg. unfold finish_session, statement. rewrite Htx. destruct (fails E _); [done|]. cbv zeta.
  intros [= <- <-] Hw' Hg. split_and!; [done..|].
  intros Hn w' (w & -> & Hws)%list_elem_of_fmap Hid. destruct (finishable sid fresh w) eqn:Hh; [by left|].
  destruct Hn as [->|Hn].
  - unfold finishable in Hh. rewrite Hid, String.eqb_refl in Hh. by destruct (w_status w); auto.
  - destruct (List.filter (finishable sid fresh) (sessions (data c))) as [|w1 l] eqn:Hf; [done|].
    assert (In w1 (List.filter (finishable sid fresh) (sessions (data c)))) as [Hin%list_elem_of_In Hh1]%filter_In by (rewrite Hf; by left).
    assert (w1 = w) as ->; [|by rewrite Hh in Hh1].
    apply (session_unique (data c)); [done..|]. unfold finishable in Hh1. guards. congruence.
Qed.
Lemma transaction_inr {A} (m : eff conn mailbox_error A) c a c' :
  wf (data c) → transaction E m c = (inr a, c') →
  ∃ c0 c1, wf (data c0) ∧ in_tx c0 = true ∧ grows (data c) (data c0) ∧ m c0 = (inr a, c1) ∧ data c' = data c1.
Proof.
  intros Hw. unfold transaction. destruct (others_ok E (ticks c) (data c) Hw) as [Hw1 Hg1]. destruct (fails E _); [done|].
  destruct (m _) as [[e|a'] c1] eqn:Hm; [done|]. destruct (fails E _); [done|]. intros [= -> <-].
  exists (with_tx true (others E (ticks c) (data c)) c), c1. by split_and!.
Qed.

(** Inside a transaction a query changes nothing. *)
Lemma select_tx {A} (f : db → A) c a c' :
  in_tx c = true → select E f c = (inr a, c') → data c' = data c ∧ in_tx c' = true ∧ a = f (data c).
Proof.
  unfold select, statement. intros Htx. rewrite Htx. destruct (fails E _); [done|]. by intros [= <- <-].
Qed.
Lemma custody_tx sid src c u c' :
  in_tx c = true → custody E sid src c = (inr u, c') → data c' = data c ∧ in_tx c' = true.
Proof.
  intros Htx. unfold custody. destruct src as [sha|]; [|by intros [= _ <-]].
  destruct (String.eqb sha _); [by intros [= _ <-]|].
  intros (a & c1 & (Hd & Ht & _)%select_tx & [_ ->]%require_inr)%ebind_inr; done.
Qed.

Lemma insertFinish_inr b key body c m c' :
  wf (data c) → insertFinish column E b key body c = (inr m, c') →
  m ∈ messages (data c')
  ∧ answers (b_sessionId b) worker_to_dispatcher finish key (b_worker b) body m
  ∧ ended (b_sessionId b) (data c').
Proof.
  intros Hw (c0 & c1 & Hw0 & Htx & _ & H & ->)%transaction_inr; [|done].
  apply ebind_inr in H as (r & c2 & Hex & H).
  pose proof (existing_inr _ _ _ finish (b_worker b) body _ _ _ Hw0 Hex) as (Hw2 & _ & Hr).
  apply select_tx in Hex as (Hd2 & Htx2 & _); [|done]. destruct r as [m1|].
  { apply ebind_inr in H as (u & c3 & [Hs ->]%require_inr & H).
    apply ebind_inr in H as (n & c4 & (Hw4 & Hg4 & Hm4 & _ & He)%finish_session_inr & H); [|done..].
    injection H as -> ->. destruct (Hr m eq_refl) as (Hm & _ & Ha). rewrite Hm4. auto. }
  apply ebind_inr in H as (f & c3 & (Hd3 & Htx3 & _)%select_tx & H); [|done].
  apply ebind_inr in H as (u & c4 & [_ ->]%require_inr & H).
  apply ebind_inr in H as (w & c5 & (Hd5 & Htx5 & _)%select_tx & H); [|done]. destruct w as [w|]; [|done].
  apply ebind_inr in H as (u2 & c6 & [_ ->]%require_inr & H).
  apply ebind_inr in H as (u3 & c7 & (Hd7 & Htx7)%custody_tx & H); [|done].
  apply ebind_inr in H as (t & c8 & Ht & H). injection Ht as <- <-.
  assert (wf (data c7)) as Hw7 by congruence.
  apply ebind_inr in H as (id & c9 & Hi & H). pose proof Hi as Hi'.
  apply insert_row_inr in Hi as (m0 & Hw9 & _ & Hm0 & <- & Ha); [|done].
  assert (in_tx c9 = true) as Htx9.
  { revert Hi'. unfold insert_row, statement. destruct (fails E _); [done|]. cbv zeta.
    destruct (insertable _ _); [|done]. by intros [= _ <-]. }
  apply ebind_inr in H as (n & c10 & (Hw10 & Hg10 & Hm10 & Htx10 & He)%finish_session_inr & H); [|done..].
  apply ebind_inr in H as (u4 & c11 & [Hn ->]%require_inr & H). apply Nat.eqb_eq in Hn.
  pose proof H as H'. apply ebind_inr in H' as (r' & c12 & (Hd12 & _ & _)%select_tx & Hret); [|done].
  assert (data c1 = data c12) as Hd1 by (destruct r'; by injection Hret as _ <-).
  eapply stored_row in H as (_ & _ & ? & ?); [|done|by rewrite Hm10|done].
  split_and!; [done..|]. rewrite Hd1, Hd12. auto.
Qed.

(** ** What the methods return *)

(** The row of the message is in the table, possibly acknowledged since. *)
Definition held (d : db) (m : Message) : Prop := ∃ m', m' ∈ messages d ∧ aged m m'.
Lemma held_grows d d' m : grows d d' → held d m → held d' m.
Proof. intros Hg (m1 & (m2 & ? & ?)%(g_rows _ _ Hg) & ?). exists m2. split; [done|by etrans]. Qed.
Lemma held_in d m : m ∈ messages d → held d m.
Proof. by exists m. Qed.

(** The token is that of the session with this binding. *)
Definition owner (token : jstring) (d : db) (b : WorkerSessionBinding) : Prop :=
  ∃ w, w ∈ sessions d ∧ workerControlTokenDigest sha256_hex token = Some (w_digest w)
       ∧ verifyWorkerControlToken sha256_hex token (w_digest w) = true ∧ binding_of w = Some b.
Lemma binding_later w w' : later w w' → binding_of w' = binding_of w.
Proof. intros [H1 H2 H3 H4 H5 ? ? ? ?]. unfold binding_of. by rewrite H1, H2, H3, H4, H5. Qed.
Lemma binding_id w b : binding_of w = Some b → b_sessionId b = w_id w.
Proof. unfold binding_of. repeat case_match; try done. by intros [= <-]. Qed.
Lemma owner_grows token d d' b : grows d d' → owner token d b → owner token d' b.
Proof.
  intros Hg (w & (w' & Hw' & Hl)%(g_sessions _ _ Hg) & Hd & Hv & Hb). exists w'.
  rewrite (binding_later _ _ Hl), (l_digest _ _ Hl). done.
Qed.
Lemma ended_grows sid d d' : wf d' → grows d d' → sid ∈ map w_id (sessions d) → ended sid d → ended sid d'.
Proof.
  intros Hw Hg (w & -> & Hin)%list_elem_of_fmap He w' Hw' Hid.
  destruct (g_sessions _ _ Hg w Hin) as (w2 & Hw2 & Hl).
  assert (w2 = w') as <- by (apply (session_unique d'); try done; by rewrite (l_id _ _ Hl)).
  destruct (He w Hin eq_refl); [left; by apply (l_finished _ _ Hl)|right; by apply (l_dismissed _ _ Hl)].
Qed.

Lemma session_of_token_inr token c r c' :
  wf (data c) → session_of_token sha256_hex E token c = (inr r, c') →
  wf (data c') ∧ grows (data c) (data c')
  ∧ ∀ w b, r = Some w → binding_of w = Some b → owner token (data c') b ∧ w ∈ sessions (data c').
Proof.
  intros Hw. unfold session_of_token. destruct (workerControlTokenDigest _ _) as [dg|] eqn:Hd; [|by intros [= <- <-]].
  intros (r' & c1 & (Hw1 & Hg & ->)%select_inr & H)%ebind_inr; [|done]. injection H as <- <-.
  split_and!; [done..|]. intros w b Hr Hb.
  destruct (session_by _ _) as [w0|] eqn:Hs; [|done]. apply List.find_some in Hs as [Hin%list_elem_of_In He%String.eqb_eq].
  destruct (verifyWorkerControlToken _ _ _) eqn:Hv; [|done]. injection Hr as ->. split; [|done].
  exists w. split_and!; [done|by rewrite Hd, He|done|done].
Qed.
Lemma resolve_inr token c r c' :
  wf (data c) → resolveWorkerSession sha256_hex E token c = (inr r, c') →
  wf (data c') ∧ grows (data c) (data c') ∧ ∀ b, r = Some b → owner token (data c') b.
Proof.
  intros Hw (w & c1 & (Hw1 & Hg & Hr)%session_of_token_inr & H)%ebind_inr; [|done]. injection H as <- <-.
  split_and!; [done..|]. intros b Hb. destruct w as [w|]; [|done]. destruct (is_active _); [|done].
  by apply (Hr w).
Qed.
Lemma dispatcher_inr sid a c b c' :
  wf (data c) → dispatcherSession E sid a c = (inr b, c') →
  wf (data c') ∧ grows (data c) (data c') ∧ b_sessionId b = sid
  ∧ (a = true → ∃ w, w ∈ sessions (data c') ∧ w_id w = sid ∧ is_active (w_status w) = true).
Proof.
  intros Hw (w & c1 & (Hw1 & Hg & ->)%select_inr & H)%ebind_inr; [|done].
  destruct (session_by _ _) as [w|] eqn:Hs; [|done]. apply List.find_some in Hs as [Hin%list_elem_of_In He%String.eqb_eq].
  apply ebind_inr in H as (u & c2 & [Hr ->]%require_inr & H).
  destruct (binding_of w) as [b'|] eqn:Hb; [|done]. injection H as -> ->. apply binding_id in Hb.
  split_and!; [done|done|congruence|]. intros ->. exists w. split_and!; [done..|]. by destruct (is_active _).
Qed.

(** The reply to a post, from the state it leaves. *)
Record posted (token key : jstring) (k : Kind) (body : jstring) (m : Message) (b : WorkerSessionBinding)
    (d : db) : Prop := {
  po_owner : owner token d b;
  po_answers : answers (b_sessionId b) worker_to_dispatcher k key (b_worker b) body m;
  po_held : held d m;
  po_ended : k = finish → ended (b_sessionId b) d;
}.
Lemma posted_grows token key k body m b d d' :
  wf d → wf d' → grows d d' → posted token key k body m b d → posted token key k body m b d'.
Proof.
  intros Hw Hw' Hg [Ho Ha Hh He]. split; [by eapply owner_grows|done|by eapply held_grows|].
  intros Hk. eapply ended_grows; [done..| |by apply He].
  destruct Ho as (w & Hin & _ & _ & ->%binding_id). by apply list_elem_of_fmap_2.
Qed.

Lemma safe_inr {A} (m : eff conn mailbox_error A) c a c' :
  safe m → wf (data c) → m c = (inr a, c') → wf (data c') ∧ grows (data c) (data c').
Proof. intros Hs Hw Hm. destruct (Hs c Hw). by rewrite Hm in *. Qed.

Lemma finish_posted token b key body c m c' :
  wf (data c) → owner token (data c) b → insertFinish column E b key body c = (inr m, c') →
  posted token key finish body m b (data c').
Proof.
  intros Hw Ho H. pose proof H as (_ & Hg)%safe_inr; [|by apply safe_insertFinish|done].
  apply insertFinish_inr in H as (Hm & Ha & He); [|done].
  split; [by eapply owner_grows|done|by apply held_in|done].
Qed.
Lemma retry_inr token key body c r c' :
  wf (data c) → terminalFinishRetry sha256_hex column E token key body c = (inr r, c') →
  wf (data c') ∧ ∀ b m, r = Some (b, m) → posted token key finish body m b (data c').
Proof.
  intros Hw H. split; [eapply safe_inr in H as [? _]; [done|by apply safe_retry|done]|].
  intros b m ->. revert H. intros (w & c1 & (Hw1 & _ & Hr)%session_of_token_inr & H)%ebind_inr; [|done].
  destruct w as [w|]; [|done]. destruct (_ || _); [|done]. destruct (binding_of w) as [b0|] eqn:Hb; [|done].
  destruct (Hr w b0 eq_refl Hb) as [Ho _].
  apply ebind_inr in H as (r & c2 & (Hw2 & Hg2 & ->)%select_inr & H); [|done].
  destruct (find_key _ _ _ _) as [m0|]; [|done]. destruct (same_content _ _ _ _); [|done].
  apply ebind_inr in H as (m1 & c3 & H & Hret). injection Hret as -> -> ->.
  apply (finish_posted token b key body c2); [done| |done]. by eapply owner_grows.
Qed.

Lemma post_inr token key kind body c m c' :
  wf (data c) → postFromWorker sha256_hex column E token key kind body c = (inr m, c') →
  ∃ key' k body' b, messageKey key = inr key' ∧ kind = Some k ∧ boundedText body 100000 = inr body'
    ∧ posted token key' k body' m b (data c').
Proof.
  intros Hw (act & c1 & (Hw1 & _ & Hact)%resolve_inr & H)%ebind_inr; [|done]. destruct kind as [k|]; [|done].
  apply ebind_inr in H as (key' & c2 & [Hkey ->]%lift_inr & H).
  apply ebind_inr in H as (body' & c3 & [Hbody ->]%lift_inr & H).
  apply ebind_inr in H as (retry & c4 & Hretry & H). apply ebind_inr in H as (m1 & c5 & Hm & H).
  assert (wf (data c5) ∧ ∃ b, posted token key' k body' m1 b (data c5)) as (Hw5 & b & Hp).
  { destruct act as [b|].
    - assert (retry = None ∧ c4 = c1) as [-> ->] by (destruct k; by injection Hretry as <- <-).
      specialize (Hact b eq_refl). destruct k.
      + pose proof Hm as [Hw5 Hg]%safe_inr; [|by apply safe_insert|done]. split; [done|]. exists b.
        apply insert_inr in Hm as [Hin Ha]; [|done]. split; [by eapply owner_grows|done|by apply held_in|done].
      + pose proof Hm as [Hw5 _]%safe_inr; [|by apply safe_insertFinish|done]. split; [done|]. exists b.
        by apply (finish_posted token b key' body' c1).
    - destruct k; [injection Hretry as <- <-; done|].
      apply retry_inr in Hretry as [Hw4 Hr]; [|done]. destruct retry as [[b m2]|]; [|done].
      injection Hm as -> ->. split; [done|]. exists b. by apply Hr. }
  apply ebind_inr in H as (u & c6 & Hn & H). injection H as -> ->. exists key', k, body', b. split_and!; [done..|].
  destruct k; [by injection Hn as _ <-|]. apply ebind_inr in Hn as (c0 & c7 & Hget & Hn). injection Hget as <- <-.
  pose proof Hn as [Hw6 Hg]%safe_inr; [|by apply safe_notify|done].
  by apply (posted_grows _ _ _ _ _ _ (data c5)).
Qed.
Lemma send_inr sid key body sender c m c' :
  wf (data c) → sendToWorker column E sid key body sender c = (inr m, c') →
  ∃ key' body' sender', messageKey key = inr key' ∧ boundedText body 100000 = inr body'
    ∧ answers sid dispatcher_to_worker message key' sender' body' m ∧ held (data c') m.
Proof.
  intros Hw (b & c1 & (Hw1 & _ & <- & _)%dispatcher_inr & H)%ebind_inr; [|done].
  apply ebind_inr in H as (key' & c2 & [Hkey ->]%lift_inr & H).
  apply ebind_inr in H as (sender' & c3 & [_ ->]%lift_inr & H).
  apply ebind_inr in H as (body' & c4 & [Hbody ->]%lift_inr & H).
  apply insert_inr in H as [Hin Ha]; [|done]. exists key', body', sender'. split_and!; [done..|by apply held_in].
Qed.
Lemma pending_inr sid dir limit c l c' :
  wf (data c) → pending E sid dir limit c = (inr l, c') →
  ∃ n, boundedLimit limit = inr n ∧ wf (data c')
    ∧ l = take (Z.to_nat n) (List.filter (is_pending sid dir) (messages (data c'))).
Proof.
  intros Hw (n & c1 & [Hn ->]%lift_inr & (Hw1 & _ & ->)%select_inr)%ebind_inr; [|done]. eauto.
Qed.
Lemma take_filter_in (m : Message) n P l : m ∈ take n (List.filter P l) → m ∈ l ∧ P m = true.
Proof.
  intros (i & Hi)%list_elem_of_lookup. apply lookup_take_Some in Hi as [Hi _].
  apply list_elem_of_lookup_2, list_elem_of_In, filter_In in Hi as [Hi ?]. by split; [apply list_elem_of_In|].
Qed.
Lemma pending_held sid dir n d : Forall (held d) (take n (List.filter (is_pending sid dir) (messages d))).
Proof.
  apply Forall_forall. intros m [Hm _]%take_filter_in. by apply held_in.
Qed.

(** Every message a caller is given is in the table. *)
Lemma perform_returns x c l c' :
  wf (data c) → perform sha256_hex column E x c = (inr (Messages l), c') → Forall (held (data c')) l.
Proof.
  intros Hw. destruct x; simpl; try (by intros (? & ? & ? & [=])%ebind_inr);
    intros (r & c1 & H & Hret)%ebind_inr; injection Hret as <- <-.
  - apply send_inr in H as (? & ? & ? & _ & _ & _ & ?); [|done]. by constructor.
  - apply ebind_inr in H as (b & c2 & (Hw2 & _)%dispatcher_inr & H); [|done].
    apply select_inr in H as (_ & _ & ->); [|done]. destruct (find_finish _ _) as [m|] eqn:Hf; simpl; [|done].
    apply List.find_some in Hf as [?%list_elem_of_In _]. constructor; [by apply held_in|done].
  - apply ebind_inr in H as (b & c2 & (Hw2 & _)%dispatcher_inr & H); [|done].
    apply pending_inr in H as (n & _ & _ & ->); [|done]. apply pending_held.
  - apply ebind_inr in H as (b & c2 & Hb & H). apply ebind_inr in H as (l & c3 & H & Hret). injection Hret as <- <-.
    pose proof Hb as [Hw2 _]%safe_inr; [|by apply safe_worker|done].
    apply pending_inr in H as (n & _ & _ & ->); [|done]. apply pending_held.
  - apply post_inr in H as (? & ? & ? & ? & _ & _ & _ & [_ _ ? _]); [|done]. by constructor.
Qed.

(** ** Consistency of receipts *)

(** Equal up to the acknowledgement. *)
Definition same_message (m m' : Message) : Prop := set_ack None m = set_ack None m'.
Lemma aged_set_ack m m' : aged m m' → set_ack None m' = set_ack None m.
Proof. by intros [->|(_ & t & ->)]. Qed.
Lemma held_same d m m' :
  wf d → held d m → held d m' →
  m_id m = m_id m' ∨ box m = box m'
  ∨ m_sessionId m = m_sessionId m' ∧ m_kind m = finish ∧ m_kind m' = finish →
  same_message m m'.
Proof.
  intros Hw (x & Hx & Hax) (y & Hy & Hay) H. unfold same_message.
  rewrite <-(aged_set_ack _ _ Hax), <-(aged_set_ack _ _ Hay). f_equal.
  destruct (aged_same _ _ Hax) as (Ix & Bx & Kx & _), (aged_same _ _ Hay) as (Iy & By & Ky & _).
  destruct H as [He|[He|(He & Hk & Hk')]].
  - apply (id_unique d); congruence.
  - apply (box_unique d); congruence.
  - assert (∀ z, z ∈ messages d → m_kind z = finish → m_direction z = worker_to_dispatcher) as Hdir.
    { intros z Hz Hkz. pose proof (proj1 (Forall_forall _ _) (wf_typed _ Hw) z Hz) as Ht. simpl in Ht.
      guards. rewrite Hkz in *. by destruct (m_direction z). }
    unfold box in Bx, By. injection Bx as Sx Dx Jx. injection By as Sy Dy Jy.
    apply (wf_finish _ Hw); [done|done|..]; rewrite is_finish_true; split_and!; try congruence;
      apply Hdir; congruence.
Qed.
End theorems.

(** C24. Messages are consistent over time: from a new database, whatever callers do
    and whatever statements of the program other connections commit between the
    statements ([written]), two messages ever handed out - by sending, posting,
    pulling or asking for the finish - that share their id, or their session,
    direction and key, or are finishes of one session, are the same message up to its
    acknowledgement.  Repeating a send or a post is therefore idempotent, and a
    session has one finish. *)
Theorem receipts_consistent sha256_hex column E cs0 x cs y l c1 l' c2 m m' :
  perform sha256_hex column E x (run sha256_hex column E cs0 new_conn) = (inr (Messages l), c1) →
  perform sha256_hex column E y (run sha256_hex column E cs c1) = (inr (Messages l'), c2) →
  m ∈ l → m' ∈ l' →
  m_id m = m_id m' ∨ box m = box m'
  ∨ m_sessionId m = m_sessionId m' ∧ m_kind m = finish ∧ m_kind m' = finish →
  same_message m m'.
Proof.
  pose proof (run_wf sha256_hex column E cs0) as Hw. intros Hx Hy Hm Hm' H.
  pose proof (perform_returns _ _ _ _ _ _ _ Hw Hx) as Hl. rewrite Forall_forall in Hl.
  eapply safe_inr in Hx as [Hw1 _]; [|by apply perform_safe|done].
  destruct (run_safe sha256_hex column E cs c1 Hw1) as [Hw2 Hg2].
  pose proof (perform_returns _ _ _ _ _ _ _ Hw2 Hy) as Hl'. rewrite Forall_forall in Hl'.
  eapply safe_inr in Hy as [Hw3 Hg3]; [|by apply perform_safe|done].
  apply (held_same (data c2)); [done| |by apply Hl'|done].
  eapply held_grows; [done|]. eapply held_grows; [done|]. by apply Hl.
Qed.

(** ** After the finish *)

Section finish.
Context (sha256_hex : list Z → string) (column : jstring → jstring).
Context (E : env).

Lemma digest_unique d w w' :
  wf d → w ∈ sessions d → w' ∈ sessions d → w_digest w = w_digest w' → w = w'.
Proof.
  intros Hw H H' He. apply list_elem_of_lookup in H as [i Hi], H' as [j Hj].
  assert (i = j) as <-; [|congruence]. eapply NoDup_lookup; [exact (wf_digests _ Hw)|..];
    rewrite list_lookup_fmap; [by rewrite Hi|rewrite Hj; simpl; by rewrite He].
Qed.
Lemma owner_session token d b w :
  wf d → owner sha256_hex token d b → w ∈ sessions d →
  workerControlTokenDigest sha256_hex token = Some (w_digest w) → binding_of w = Some b.
Proof.
  intros Hw (w0 & Hin & Hd & _ & Hb) Hw0 Hd'. assert (w0 = w) as <-; [|done].
  apply (digest_unique d); [done..|congruence].
Qed.

(** The token of an ended session resolves to nothing. *)
Lemma resolve_ended token b c r c' :
  wf (data c) → owner sha256_hex token (data c) b → ended (b_sessionId b) (data c) →
  resolveWorkerSession sha256_hex E token c = (inr r, c') → r = None ∧ wf (data c') ∧ grows (data c) (data c').
Proof.
  intros Hw Ho He H. pose proof H as [Hw' Hg]%safe_inr; [|by apply safe_resolve|done].
  split; [|done]. revert H. intros (w & c1 & H & Hret)%ebind_inr. injection Hret as <- <-.
  destruct w as [w|]; [|done]. destruct (is_active (w_status w)) eqn:Ha; [|done]. exfalso.
  revert H. unfold session_of_token. destruct (workerControlTokenDigest _ _) as [dg|] eqn:Hd; [|done].
  intros (r & c2 & (_ & _ & ->)%select_inr & H)%ebind_inr; [|done..]. injection H as Hr ->.
  destruct (session_by _ _) as [w0|] eqn:Hs; [|done].
  apply List.find_some in Hs as [Hin%list_elem_of_In Hdg%String.eqb_eq].
  destruct (verifyWorkerControlToken _ _ _); [|done]. injection Hr as ->.
  assert (binding_of w = Some b) as Hb%binding_id.
  { apply (owner_session token (data c1)); [done|by eapply owner_grows|done|]. by rewrite Hd, Hdg. }
  assert (ended (b_sessionId b) (data c1)) as He'.
  { eapply ended_grows; [done|done| |done].
    destruct Ho as (w1 & Hin1 & _ & _ & ->%binding_id). by apply list_elem_of_fmap_2. }
  destruct (He' w Hin (eq_sym Hb)) as [Hst|Hst]; by rewrite Hst in Ha.
Qed.

Lemma no_post token b key body c m c' :
  wf (data c) → owner sha256_hex token (data c) b → ended (b_sessionId b) (data c) →
  postFromWorker sha256_hex column E token key (Some message) body c ≠ (inr m, c').
Proof.
  intros Hw Ho He (act & c1 & Hr & H)%ebind_inr. apply (resolve_ended token b) in Hr as [-> _]; [|done..].
  apply ebind_inr in H as (key' & c2 & _ & H). apply ebind_inr in H as (body' & c3 & _ & H).
  apply ebind_inr in H as (retry & c4 & Hret & H). injection Hret as <- <-.
  by apply ebind_inr in H as (? & ? & [=] & _).
Qed.
Lemma no_pull token b limit c r c' :
  wf (data c) → owner sha256_hex token (data c) b → ended (b_sessionId b) (data c) →
  pullForWorker sha256_hex E token limit c ≠ (inr r, c').
Proof.
  intros Hw Ho He (b' & c1 & (act & c2 & Hr & H)%ebind_inr & _)%ebind_inr.
  apply (resolve_ended token b) in Hr as [-> _]; done.
Qed.
Lemma no_send sid key body sender c m c' :
  wf (data c) → sid ∈ map w_id (sessions (data c)) → ended sid (data c) →
  sendToWorker column E sid key body sender c ≠ (inr m, c').
Proof.
  intros Hw Hin He (b & c1 & (Hw1 & Hg & _ & Hact)%dispatcher_inr & _)%ebind_inr; [|done..].
  destruct (Hact eq_refl) as (w & Hw' & Hid & Ha). pose proof (ended_grows _ _ _ Hw1 Hg Hin He) as He'.
  destruct (He' w Hw' Hid) as [Hst|Hst]; by rewrite Hst in Ha.
Qed.
End finish.

Definition throws {A} (r : (mailbox_error + A) * conn) : Prop := ∃ e, r.1 = inl e.
Lemma not_inr_throws {A} (r : (mailbox_error + A) * conn) : (∀ a c, r ≠ (inr a, c)) → throws r.
Proof. destruct r as [[e|a] c]; intros H; [by exists e|by destruct (H a c)]. Qed.

(** C25. A finish closes its session for good: once a finish was accepted, whatever
    happens afterwards on this connection and whatever statements of the program -
    of mailboxes, of spawning, recovery and cleanup ([written]) - other connections
    commit, the worker can post no message and pull nothing any more, and nothing can
    be sent to it.  The history starts from a new database. *)
Theorem finish_closes sha256_hex column E cs0 token key body m c1 cs :
  postFromWorker sha256_hex column E token key (Some finish) body (run sha256_hex column E cs0 new_conn)
    = (inr m, c1) →
  let c2 := run sha256_hex column E cs c1 in
  (∀ key' body', throws (postFromWorker sha256_hex column E token key' (Some message) body' c2))
  ∧ (∀ limit, throws (pullForWorker sha256_hex E token limit c2))
  ∧ (∀ key' body' sender, throws (sendToWorker column E (m_sessionId m) key' body' sender c2)).
Proof.
  pose proof (run_wf sha256_hex column E cs0) as Hw. intros H c2. pose proof H as (key1 & k & body1 & b & _ & [= <-] & _ & Hp)%post_inr; [|done..].
  pose proof H as [Hw1 _]%safe_inr; [|by apply safe_post|done].
  destruct (run_safe sha256_hex column E cs c1 Hw1) as [Hw2 Hg2]. fold c2 in Hw2, Hg2.
  apply (posted_grows _ _ _ _ _ _ _ _ _ _ Hw1 Hw2 Hg2) in Hp as [Ho Ha _ He]. specialize (He eq_refl).
  assert (m_sessionId m = b_sessionId b) as Hsid by (by destruct Ha as ([= ? _ _] & _)).
  split_and!; intros; apply not_inr_throws; intros a c'.
  - by apply (no_post _ _ _ _ b).
  - by apply (no_pull _ _ _ b).
  - apply no_send; [done| |by rewrite Hsid].
    rewrite Hsid. destruct Ho as (w & Hin & _ & _ & ->%binding_id). by apply list_elem_of_fmap_2.
Qed.

(** ** Retrying a finish *)

Section retry.
Context (sha256_hex : list Z → string) (column : jstring → jstring).
Context (E : env) (Hok : ∀ n, fails E n = false).

Lemma select_ok {A} (f : db → A) c :
  wf (data c) → ∃ c', select E f c = (inr (f (data c')), c') ∧ wf (data c') ∧ grows (data c) (data c').
Proof.
  intros Hw. destruct (safe_select E f c Hw) as [Hw' Hg]. revert Hw' Hg. unfold select, statement.
  rewrite Hok. simpl. intros ??. eexists (with_data _ c). by split_and!.
Qed.
Lemma session_of_token_ok token c b :
  wf (data c) → owner sha256_hex token (data c) b →
  ∃ w c', session_of_token sha256_hex E token c = (inr (Some w), c') ∧ wf (data c') ∧ grows (data c) (data c')
          ∧ w ∈ sessions (data c') ∧ binding_of w = Some b.
Proof.
  intros Hw Ho. pose proof Ho as (w0 & _ & Hd & Hv & _). unfold session_of_token. rewrite Hd.
  destruct (select_ok (session_by (λ w, String.eqb (w_digest w) (w_digest w0))) c Hw) as (c' & Hs & Hw' & Hg).
  pose proof (owner_grows _ _ _ _ _ Hg Ho) as Ho'. pose proof Ho' as (w1 & Hin1 & Hd1 & _).
  destruct (session_by _ (data c')) as [w|] eqn:Hf.
  - pose proof Hf as [Hin%list_elem_of_In He%String.eqb_eq]%List.find_some.
    exists w, c'. erewrite ebind_eq by exact Hs. simpl. rewrite He, Hv. split_and!; [done..|].
    apply (owner_session sha256_hex token (data c')); [done..|]. by rewrite Hd, He.
  - unfold session_by in Hf. rewrite find_none in Hf. specialize (Hf w1 Hin1). simpl in Hf.
    rewrite Hd in Hd1. injection Hd1 as Hd1. by rewrite Hd1, String.eqb_refl in Hf.
Qed.
Lemma existing_ok sid dir key c m :
  wf (data c) → held (data c) m → box m = (sid, dir, column key) →
  ∃ m' c', existing column E sid dir key c = (inr (Some m'), c') ∧ wf (data c') ∧ grows (data c) (data c') ∧ aged m m'.
Proof.
  intros Hw Hh Hb. destruct (select_ok (find_key sid dir (column key)) c Hw) as (c' & Hs & Hw' & Hg).
  destruct (held_grows _ _ _ Hg Hh) as (m1 & Hin & Ha). destruct (aged_same _ _ Ha) as (_ & Hb1 & _).
  destruct (find_key sid dir (column key) (data c')) as [m2|] eqn:Hf.
  - exists m2, c'. split_and!; [done..|]. apply find_key_spec in Hf as [Hin2 Hb2].
    assert (m1 = m2) as <-; [|done]. apply (box_unique (data c')); [done..|congruence].
  - eapply find_key_none in Hf; [|done]. congruence.
Qed.
Lemma same_content_aged k sender body m m' :
  aged m m' → same_content k sender body m = true → same_content k sender body m' = true.
Proof. intros (_ & _ & Hk & Hs & Hb & _)%aged_same. unfold same_content. by rewrite Hk, Hs, Hb. Qed.

Lemma insertFinish_ok b key body c m :
  wf (data c) → held (data c) m → box m = (b_sessionId b, worker_to_dispatcher, column key) →
  same_content finish (b_worker b) body m = true →
  ∃ m' c', insertFinish column E b key body c = (inr m', c') ∧ aged m m'.
Proof.
  intros Hw Hh Hb Hs. unfold insertFinish, transaction. rewrite Hok.
  destruct (others_ok E (ticks c) (data c) Hw) as [Hw0 Hg0]. set (c0 := with_tx true _ c).
  destruct (existing_ok (b_sessionId b) worker_to_dispatcher key c0 m) as (m' & c1 & He & Hw1 & Hg1 & Ha);
    [done|by eapply held_grows|done|].
  exists m'. erewrite ebind_eq by exact He. simpl. rewrite (same_content_aged _ _ _ _ _ Ha Hs). unfold_eff.
  simpl. unfold finish_session, statement. rewrite Hok. simpl. rewrite Hok. eauto.
Qed.

Lemma resolve_finished token b c :
  wf (data c) → owner sha256_hex token (data c) b → ended (b_sessionId b) (data c) →
  ∃ c', resolveWorkerSession sha256_hex E token c = (inr None, c') ∧ wf (data c') ∧ grows (data c) (data c').
Proof.
  intros Hw Ho He. destruct (session_of_token_ok token c b) as (w & c' & H & _); [done..|].
  destruct (resolveWorkerSession sha256_hex E token c) as [[e|r] c1] eqn:Hr.
  - unfold resolveWorkerSession in Hr. by erewrite ebind_eq in Hr by exact H.
  - apply (resolve_ended _ _ token b) in Hr as (-> & ? & ?); eauto.
Qed.

Lemma retry_ok token b key body c m w0 :
  wf (data c) → owner sha256_hex token (data c) b → held (data c) m →
  box m = (b_sessionId b, worker_to_dispatcher, column key) →
  same_content finish (b_worker b) body m = true →
  w0 ∈ sessions (data c) → w_id w0 = b_sessionId b → w_status w0 = finished →
  ∃ m' c', terminalFinishRetry sha256_hex column E token key body c = (inr (Some (b, m')), c') ∧ aged m m'.
Proof.
  intros Hw Ho Hh Hb Hs Hin0 Hid0 Hst.
  destruct (session_of_token_ok token c b) as (w & c1 & H1 & Hw1 & Hg1 & Hin1 & Hbw); [done..|].
  assert (w_status w = finished) as Hfin.
  { destruct (g_sessions _ _ Hg1 w0 Hin0) as (w' & Hin' & Hl).
    assert (w' = w) as <-; [|by apply (l_finished _ _ Hl)].
    apply (session_unique (data c1)); [done..|]. rewrite (l_id _ _ Hl), Hid0. by apply binding_id. }
  destruct (existing_ok (b_sessionId b) worker_to_dispatcher key c1 m) as (m1 & c2 & H2 & Hw2 & Hg2 & Ha1);
    [done|by eapply held_grows|done|].
  destruct (insertFinish_ok b key body c2 m) as (m2 & c3 & H3 & Ha2); [done| |done|done|].
  { eapply held_grows; [done|]. by eapply held_grows. }
  exists m2, c3. split; [|done]. unfold terminalFinishRetry.
  erewrite ebind_eq by exact H1. simpl. rewrite Hfin, Hbw. simpl. erewrite ebind_eq by exact H2. simpl.
  rewrite (same_content_aged _ _ _ _ _ Ha1 Hs). by erewrite ebind_eq by exact H3.
Qed.
Lemma notify_ok ev ls c : ∃ c', notify_all E ev ls c = (inr tt, c').
Proof.
  revert c. induction ls as [|l ls IH]; intros c; simpl; [by eexists|]. unfold mbind, eff_bind. simpl. apply IH.
Qed.
End retry.

(** The validators return what they were given. *)
Lemma boundedText_inr s max t : boundedText (Some s) max = inr t → t = s.
Proof. unfold boundedText. unfold_eff. repeat case_match; congruence. Qed.
Lemma messageKey_inr s t : messageKey (Some s) = inr t → t = s.
Proof.
  unfold messageKey. intros (k & Hk%boundedText_inr & H)%bind_inr. unfold_eff. repeat case_match; congruence.
Qed.

(** A post repeated on a finished session. *)
Lemma post_again sha256_hex column E c token key body b m w :
  (∀ n, fails E n = false) → wf (data c) →
  messageKey (Some key) = inr key → boundedText (Some body) 100000 = inr body →
  posted sha256_hex column token key finish body m b (data c) →
  same_content finish (b_worker b) body m = true →
  w ∈ sessions (data c) → w_id w = b_sessionId b → w_status w = finished →
  ∃ m' c', postFromWorker sha256_hex column E token (Some key) (Some finish) (Some body) c = (inr m', c')
           ∧ aged m m'.
Proof.
  intros Hok Hw Hkey Hbody [Ho Ha Hh He] Hs Hin Hid Hst.
  destruct (resolve_finished sha256_hex E Hok token b c) as (c1 & H1 & Hw1 & Hg1); [done|done|by apply He|].
  destruct (g_sessions _ _ Hg1 w Hin) as (w1 & Hin1 & Hl).
  destruct (retry_ok sha256_hex column E Hok token b key body c1 m w1) as (m' & c2 & H2 & Ha2);
    [done|by eapply owner_grows|by eapply held_grows|by destruct Ha|done|done
    |by rewrite (l_id _ _ Hl)|by apply (l_finished _ _ Hl)|].
  destruct (notify_ok E (m_sessionId m', m_id m') (finishListeners c2) c2) as [c3 H3].
  exists m', c3. split; [|done]. unfold postFromWorker. rewrite (ebind_eq _ _ _ _ _ H1).
  rewrite !bind_lift, Hkey, !bind_lift, Hbody, (ebind_eq _ _ _ _ _ H2), bind_ret, bind_assoc, bind_get.
  by rewrite (ebind_eq _ _ _ _ _ H3).
Qed.

(** A finish that was accepted with the body it carried can always be retried, unless
    the session was dismissed. *)
Lemma finish_retried_at sha256_hex column E c token key body m b :
  (∀ n, fails E n = false) → wf (data c) →
  messageKey (Some key) = inr key → boundedText (Some body) 100000 = inr body →
  posted sha256_hex column token key finish body m b (data c) →
  column (b_worker b) = b_worker b → m_body m = body →
  (∃ m' c', postFromWorker sha256_hex column E token (Some key) (Some finish) (Some body) c = (inr m', c')
            ∧ aged m m')
  ∨ ∃ w, w ∈ sessions (data c) ∧ w_id w = b_sessionId b ∧ w_status w = dismissed.
Proof.
  intros Hok Hw Hkey Hbd Hp Hcol Hbody.
  assert (same_content finish (b_worker b) body m = true) as Hs.
  { destruct (po_answers _ _ _ _ _ _ _ _ _ Hp) as (_ & Hk & Hsd & _). rewrite Hcol in Hsd.
    unfold same_content. rewrite Hk, Hbody. destruct Hsd as [->| ->]; by rewrite !bool_decide_true. }
  pose proof (po_owner _ _ _ _ _ _ _ _ _ Hp) as (w & Hin & _ & _ & Hid%binding_id).
  destruct (po_ended _ _ _ _ _ _ _ _ _ Hp eq_refl w Hin (eq_sym Hid)) as [Hst|Hst].
  - left. by apply (post_again sha256_hex column E c token key body b m w).
  - right. by exists w.
Qed.

(** The dispatcher finds the finish. *)
Lemma finish_found sha256_hex column E c token key body m b :
  (∀ n, fails E n = false) → wf (data c) →
  posted sha256_hex column token key finish body m b (data c) →
  ∃ m' c', finishFromWorker E (b_sessionId b) c = (inr (Some m'), c') ∧ aged m m'.
Proof.
  intros Hok Hw Hp. pose proof (po_owner _ _ _ _ _ _ _ _ _ Hp) as (w0 & Hin0 & _ & _ & Hb0).
  pose proof (binding_id _ _ Hb0) as Hid0.
  destruct (select_ok E Hok (session_by (λ w, String.eqb (w_id w) (b_sessionId b))) c Hw)
    as (c1 & H1 & Hw1 & Hg1).
  destruct (g_sessions _ _ Hg1 w0 Hin0) as (w1 & Hin1 & Hl).
  assert (session_by (λ w, String.eqb (w_id w) (b_sessionId b)) (data c1) = Some w1) as Hs.
  { destruct (session_by _ _) as [w|] eqn:Hf.
    - apply List.find_some in Hf as [Hin%list_elem_of_In He%String.eqb_eq]. f_equal.
      apply (session_unique (data c1)); [done..|]. by rewrite (l_id _ _ Hl), He, Hid0.
    - unfold session_by in Hf. rewrite find_none in Hf. specialize (Hf w1 Hin1). simpl in Hf.
      by rewrite (l_id _ _ Hl), <-Hid0, String.eqb_refl in Hf. }
  destruct (select_ok E Hok (find_finish (b_sessionId b)) c1 Hw1) as (c2 & H2 & Hw2 & Hg2).
  assert (held (data c2) m) as (m1 & Hm1 & Ha1).
  { eapply held_grows; [done|]. eapply held_grows; [done|]. exact (po_held _ _ _ _ _ _ _ _ _ Hp). }
  assert (is_finish (b_sessionId b) m1 = true) as Hf1.
  { destruct (po_answers _ _ _ _ _ _ _ _ _ Hp) as (Hb & Hk & _). destruct (aged_same _ _ Ha1) as (_ & Hb1 & Hk1 & _).
    rewrite Hb in Hb1. injection Hb1 as ? ? _. apply is_finish_true. split_and!; congruence. }
  destruct (find_finish (b_sessionId b) (data c2)) as [m2|] eqn:Hf.
  - exists m2, c2. split.
    + unfold finishFromWorker, dispatcherSession. rewrite bind_assoc, (ebind_eq _ _ _ _ _ H1), Hs.
      simpl. rewrite (binding_later _ _ Hl), Hb0. unfold_eff. simpl. exact H2.
    + apply List.find_some in Hf as [Hin2%list_elem_of_In Hf2]. assert (m1 = m2) as <-; [|done].
      pose proof (proj1 (is_finish_true _ _) Hf2) as (Hsid & _).
      apply (wf_finish _ Hw2); [done|done|by rewrite Hsid..].
  - unfold find_finish in Hf. rewrite find_none in Hf. by rewrite Hf in Hf1.
Qed.

(** ** Delivery *)

Section delivery.
Context (sha256_hex : list Z → string) (column : jstring → jstring).
Context (E : env).

Lemma NoDup_ids d (P : Message → bool) : wf d → NoDup (map m_id (List.filter P (messages d))).
Proof.
  intros Hw. pose proof (wf_sorted _ Hw) as Hs. induction (messages d) as [|m l IH]; simpl; [constructor|].
  inversion Hs as [|? ? Hs' Hm]; subst. specialize (IH Hs'). destruct (P m); [|done]. simpl. constructor; [|done].
  intros (m' & He & Hin)%list_elem_of_fmap. apply list_elem_of_In, filter_In in Hin as [Hin%list_elem_of_In _].
  rewrite Forall_map, Forall_forall in Hm. specialize (Hm m' Hin). simpl in Hm. lia.
Qed.
(** A count that matches the ids asked for means that each has its row. *)
Lemma all_present d (P : Message → bool) ids :
  wf d → NoDup ids → (∀ m, P m = true → m_id m ∈ ids) → length (List.filter P (messages d)) = length ids →
  ∀ id, id ∈ ids → ∃ m, m ∈ messages d ∧ P m = true ∧ m_id m = id.
Proof.
  intros Hw Hn HP Hlen id Hid. assert (map m_id (List.filter P (messages d)) ≡ₚ ids) as Hp.
  { apply submseteq_length_Permutation; [|by rewrite length_map, Hlen].
    apply NoDup_submseteq; [by apply NoDup_ids|]. intros i (m & -> & Hin)%list_elem_of_fmap.
    apply list_elem_of_In, filter_In in Hin as [_ Hin]. by apply HP. }
  rewrite <-Hp in Hid. apply list_elem_of_fmap in Hid as (m & -> & Hin).
  apply list_elem_of_In, filter_In in Hin as [Hin%list_elem_of_In ?]. eauto.
Qed.

Lemma update_tx f c u c' :
  in_tx c = true → update E f c = (inr u, c') → data c' = f (data c) ∧ in_tx c' = true.
Proof. unfold update, statement. intros Htx. rewrite Htx. destruct (fails E _); [done|]. by intros [= _ <-]. Qed.

Lemma acknowledge_inr sid dir ids c n c' :
  wf (data c) → acknowledge E sid dir ids c = (inr n, c') →
  ∀ id, id ∈ ids → ∃ m, m ∈ messages (data c') ∧ m_id m = id ∧ in_box sid dir m = true ∧ m_acknowledgedAt m ≠ None.
Proof.
  intros Hw (ids' & c1 & [Hids ->]%lift_inr & H)%ebind_inr id Hid.
  assert (ids' = remove_dups ids) as ->.
  { unfold boundedIds in Hids. unfold_eff. repeat case_match; congruence. }
  apply transaction_inr in H as (c0 & c2 & Hw0 & Htx & _ & H & ->); [|done..].
  apply ebind_inr in H as (k & c3 & (Hd3 & Htx3 & ->)%select_tx & H); [|done].
  apply ebind_inr in H as (u & c4 & [Hk ->]%require_inr & H). apply Nat.eqb_eq in Hk.
  apply ebind_inr in H as (t & c5 & Ht & H). injection Ht as <- <-.
  apply ebind_inr in H as (u2 & c6 & (Hd6 & _)%update_tx & H); [|done]. injection H as _ <-.
  simpl in Hd6. rewrite Hd6. simpl. rewrite Hd3.
  destruct (all_present (data c0) (λ m, in_box sid dir m && bool_decide (m_id m ∈ remove_dups ids))
              (remove_dups ids)) with (id := id) as (m & Hin & HP & Hmid).
  - done.
  - apply NoDup_remove_dups.
  - intros m Hm. by guards.
  - done.
  - by apply elem_of_remove_dups.
  - eexists. split; [by apply list_elem_of_fmap_2, Hin|]. simpl. rewrite HP. simpl. guards. done.
Qed.

Lemma sorted_take_filter (l : list Message) P n :
  StronglySorted Z.lt (map m_id l) →
  StronglySorted Z.lt (map m_id (take n (List.filter P l)))
  ∧ (∀ m, m ∈ l → P m = true → m ∉ take n (List.filter P l) →
      length (take n (List.filter P l)) = n ∧ ∀ m', m' ∈ take n (List.filter P l) → m_id m' < m_id m).
Proof.
  revert n. induction l as [|x l IH]; intros n Hs; simpl.
  { rewrite take_nil. split; [constructor|]. by intros m Hm%elem_of_nil. }
  inversion Hs as [|? ? Hs' Hx]; subst. rewrite Forall_map, Forall_forall in Hx. simpl in Hx.
  destruct (P x) eqn:Hp; [destruct n as [|n]|].
  - simpl. split; [constructor|]. intros m _ _ _. split; [done|]. by intros m' Hm'%elem_of_nil.
  - destruct (IH n Hs') as [IH1 IH2]. simpl. split.
    + constructor; [done|]. apply Forall_map, Forall_forall. intros m Hm. apply Hx. simpl.
      by apply take_filter_in in Hm as [Hm _].
    + intros m [->|Hm]%elem_of_cons HP Hnot; [by destruct Hnot; left|].
      destruct (IH2 m Hm HP) as [Hl Hlt]; [intros ?; apply Hnot; by right|]. split; [by rewrite Hl|].
      intros m' [->|Hm']%elem_of_cons; [by apply Hx|by apply Hlt].
  - destruct (IH n Hs') as [IH1 IH2]. split; [done|].
    intros m [->|Hm]%elem_of_cons HP Hnot; [congruence|]. by apply IH2.
Qed.
End delivery.

(** Delivery is in order and ends with the acknowledgement: a pull returns, in
    the order of their ids, the oldest messages to the worker that were not
    acknowledged, as many as the limit allows, and leaves out only younger ones when
    it is full; a message the worker acknowledged is never returned again, whatever
    happens in between. *)
Theorem delivery_exact sha256_hex column E c token ids n c1 cs limit b l c3 :
  wf (data c) →
  acknowledgeForWorker sha256_hex E token ids c = (inr n, c1) →
  pullForWorker sha256_hex E token limit (run sha256_hex column E cs c1) = (inr (b, l), c3) →
  Forall (λ m, is_pending (b_sessionId b) dispatcher_to_worker m = true ∧ m_id m ∉ ids) l
  ∧ StronglySorted Z.lt (map m_id l)
  ∧ ∀ m, m ∈ messages (data c3) → is_pending (b_sessionId b) dispatcher_to_worker m = true → m ∉ l →
      boundedLimit limit = inr (Z.of_nat (length l)) ∧ ∀ m', m' ∈ l → m_id m' < m_id m.
Proof.
  intros Hw Hack Hpull.
  apply ebind_inr in Hack as (b0 & c0 & Hb0 & Hack).
  pose proof Hb0 as [Hw0 _]%safe_inr; [|by apply safe_worker|done].
  pose proof (acknowledge_inr E _ _ _ _ _ _ Hw0 Hack) as Hacked.
  pose proof Hack as [Hw1 _]%safe_inr; [|by apply safe_acknowledge|done].
  destruct (run_safe sha256_hex column E cs c1 Hw1) as [Hw2 Hg2]. set (c2 := run _ _ _ _ _) in *.
  pose proof Hpull as [Hw3 Hg3]%safe_inr; [|by apply safe_pull|done].
  apply ebind_inr in Hpull as (b1 & c4 & Hb1 & Hpull). pose proof Hb1 as [Hw4 _]%safe_inr; [|by apply safe_worker|done].
  apply ebind_inr in Hpull as (l0 & c5 & Hp & Hret). injection Hret as -> -> ->.
  apply pending_inr in Hp as (k & Hlim & _ & ->); [|done..].
  destruct (sorted_take_filter (messages (data c3)) (is_pending (b_sessionId b) dispatcher_to_worker) (Z.to_nat k)
              (wf_sorted _ Hw3)) as [Hsorted Hrest].
  split_and!; [|done|].
  - apply Forall_forall. intros m Hm.
    apply take_filter_in in Hm as [Hf HP]. split; [done|]. intros Hid.
    destruct (Hacked _ Hid) as (m0 & Hin0 & Hid0 & _ & Ha0).
    assert (held (data c3) m0) as (m1 & Hin1 & Hag).
    { eapply held_grows; [done|]. eapply held_grows; [done|]. by apply held_in. }
    assert (m1 = m) as ->.
    { apply (id_unique (data c3)); [done..|]. destruct (aged_same _ _ Hag) as (-> & _). congruence. }
    unfold is_pending in HP. guards. destruct Hag as [->|(? & _)]; congruence.
  - intros m Hm HP Hnot. destruct (Hrest m Hm HP Hnot) as [Hlen Hlt]. split; [|done]. rewrite Hlen, Hlim.
    f_equal. assert (0 ≤ k); [|lia]. unfold boundedLimit in Hlim. destruct limit as [z|]; [|done].
    unfold_eff. repeat case_match; simplify_eq. guards. lia.
Qed.

(** C23. The tables stay well typed and only grow: from a new database, whatever
    callers do, whatever statements of the program other connections commit
    ([written]) and whichever statements fail, rows keep distinct ascending ids
    below the next one, one row per session, direction and key, one finish per
    session and only from the worker, keys, senders and bodies within their bounds,
    and every row belongs to a session; and from then on no row is deleted or
    rewritten - an acknowledgement is set once - no session is deleted or changes its
    identity, and no ended session becomes active again, a finished one stays
    finished, a dismissed one dismissed. *)
Theorem mailbox_typed sha256_hex column E cs cs' :
  let c := run sha256_hex column E cs new_conn in
  let c' := run sha256_hex column E cs' c in
  wf (data c) ∧ grows (data c) (data c').
Proof. intros c c'. pose proof (run_wf sha256_hex column E cs) as Hw. split; [done|]. by apply run_safe. Qed.
