(* ===== verification/MailboxRequest.v ===== *)
(** * Requests of a worker to its mailbox (src/worker/mailbox-request.ts, client.ts)

    The worker's client posts a JSON request; the service validates it and calls the
    mailbox through an interface of three methods.  The HTTP transport in between is
    not modelled: a request either reaches the service or not. *)

From S2P Require Import Prelude JsString JsText Mailbox MailboxFacts MailboxTheorems.
Local Open Scope string_scope.
Local Open Scope list_scope.
Local Open Scope Z_scope.

(** A JSON value, as far as the validation looks; [VNumber None] is a number that is
    not an integer. *)
Inductive value :=
  | VObject (fields : list (string * value))
  | VArray (l : list value)
  | VString (s : jstring)
  | VNumber (n : option Z)
  | VOther.

(** [WorkerMailboxService] *)
Class WorkerMailboxService (S : Type) := {
  service_pull : jstring → option Z → eff S mailbox_error (WorkerSessionBinding * list Message);
  service_acknowledge : jstring → list Z → eff S mailbox_error nat;
  service_post : jstring → jstring → Kind → jstring → eff S mailbox_error Message;
}.

Inductive request_error := RequestError | ServiceError (e : mailbox_error).
Inductive response :=
  | Pulled (b : WorkerSessionBinding) (l : list Message)
  | Acknowledged (n : nat)
  | Posted (m : Message).

Section dispatch.
Context {S : Type} `{!WorkerMailboxService S}.

(** An error of the service passes through. *)
Definition call_service {A} (m : eff S mailbox_error A) : eff S request_error A := λ s,
  match m s with
  | (inr a, s') => (inr a, s')
  | (inl e, s') => (inl (ServiceError e), s')
  end.

Definition field (name : string) (fs : list (string * value)) : option value :=
  snd <$> List.find (λ f, String.eqb f.1 name) fs.
(** [exact] *)
Definition only (fs : list (string * value)) (allowed : list string) : bool :=
  forallb (λ f, bool_decide (f.1 ∈ allowed)) fs.
Definition is_string (v : option value) (s : string) : bool :=
  match v with Some (VString t) => bool_decide (t = lit s) | _ => false end.
Definition safe_positive (v : value) : option Z :=
  match v with
  | VNumber (Some n) => if (n <=? MAX_SAFE_INTEGER) && negb (n <=? 0) then Some n else None
  | _ => None
  end.

Definition pull_request (token : jstring) (fs : list (string * value)) : eff S request_error response :=
  require (only fs ["protocol"; "operation"; "limit"]) RequestError;;
  limit ← match field "limit" fs with
          | None => mret 32
          | Some (VNumber (Some n)) => require ((1 <=? n) && (n <=? 100)) RequestError;; mret n
          | Some _ => throw RequestError
          end;
  r ← call_service (service_pull token (Some limit));
  mret (Pulled r.1 r.2).
Definition ack_request (token : jstring) (fs : list (string * value)) : eff S request_error response :=
  require (only fs ["protocol"; "operation"; "ids"]) RequestError;;
  match field "ids" fs with
  | Some (VArray l) =>
      require (Nat.leb 1 (length l) && Nat.leb (length l) 100) RequestError;;
      match mapM safe_positive l with
      | Some ids => n ← call_service (service_acknowledge token ids); mret (Acknowledged n)
      | None => throw RequestError
      end
  | _ => throw RequestError
  end.
Definition post_request (token : jstring) (fs : list (string * value)) : eff S request_error response :=
  require (only fs ["protocol"; "operation"; "messageKey"; "kind"; "body"]) RequestError;;
  kind ← (if is_string (field "kind" fs) "message" then mret message
          else if is_string (field "kind" fs) "finish" then mret finish
          else throw RequestError);
  match field "messageKey" fs, field "body" fs with
  | Some (VString key), Some (VString body) =>
      m ← call_service (service_post token key kind body); mret (Posted m)
  | _, _ => throw RequestError
  end.

(** [dispatchWorkerMailboxRequest] *)
Definition dispatchWorkerMailboxRequest (token : jstring) (input : value) : eff S request_error response :=
  match input with
  | VObject fs =>
      match field "protocol" fs with
      | Some (VNumber (Some 1)) =>
          let op := field "operation" fs in
          if is_string op "pull" then pull_request token fs
          else if is_string op "ack" then ack_request token fs
          else if is_string op "post" then post_request token fs
          else throw RequestError
      | _ => throw RequestError
      end
  | _ => throw RequestError
  end.

(** ** The client *)

Inductive client_error := Rejected (e : request_error) | ReceiptMismatch.

Definition finish_request (key body : jstring) : value :=
  VObject [("protocol", VNumber (Some 1)); ("operation", VString (lit "post"));
           ("messageKey", VString key); ("kind", VString (lit "finish")); ("body", VString body)].

(** [finish] of [WorkerHttpClient], on a request that is answered. *)
Definition client_finish (token key body : jstring) : eff S client_error () := λ s,
  match dispatchWorkerMailboxRequest token (finish_request key body) s with
  | (inr (Posted m), s') =>
      if bool_decide (m_key m = key) && bool_decide (m_body m = body) then (inr tt, s')
      else (inl ReceiptMismatch, s')
  | (inr _, s') => (inl ReceiptMismatch, s')
  | (inl e, s') => (inl (Rejected e), s')
  end.

(** The finish request is well formed: it reaches the service unchanged. *)
Lemma finish_dispatch token key body s :
  dispatchWorkerMailboxRequest token (finish_request key body) s
  = match service_post token key finish body s with
    | (inr m, s') => (inr (Posted m), s')
    | (inl e, s') => (inl (ServiceError e), s')
    end.
Proof.
  unfold dispatchWorkerMailboxRequest, finish_request, post_request. simpl. unfold_eff. simpl.
  unfold call_service. by destruct (service_post _ _ _ _ _) as [[]].
Qed.
End dispatch.

(** The mailbox of the database implements the interface. *)
Definition mailbox_service (sha256_hex : list Z → string) (column : jstring → jstring) (E : env)
    : WorkerMailboxService conn := {|
  service_pull token limit := pullForWorker sha256_hex E token limit;
  service_acknowledge token ids := acknowledgeForWorker sha256_hex E token ids;
  service_post token key kind body :=
    postFromWorker sha256_hex column E token (Some key) (Some kind) (Some body);
|}.
