(* ===== verification/WorkerFinish.v ===== *)
(** * From the worker's journal to the dispatcher

    The composition of the worker's episode, its client and the mailbox: the finish
    a worker journals is the one the dispatcher reads, over any number of lives of
    the worker and whatever the connections of the mailbox do. *)

From S2P Require Import Prelude JsString JsText Messages WorkerJournal WorkerEpisode WorkerTheorems.
From S2P Require Import Mailbox MailboxFacts MailboxTheorems MailboxRequest.
Local Open Scope list_scope.

Section finish.
Context (sha256_hex : list Z → string) (column : jstring → jstring).
Definition send_finish (E : Mailbox.env) (token : jstring) (f : Finish) : eff conn client_error () :=
  @client_finish conn (mailbox_service sha256_hex column E) token f.1 f.2.

Lemma client_finish_inr E token f c u c' :
  send_finish E token f c = (inr u, c') →
  ∃ m, postFromWorker sha256_hex column E token (Some f.1) (Some finish) (Some f.2) c = (inr m, c')
       ∧ m_key m = f.1 ∧ m_body m = f.2.
Proof.
  unfold send_finish, client_finish. rewrite finish_dispatch. simpl.
  destruct (postFromWorker _ _ _ _ _ _ _ _) as [[e|m] c1]; [done|]. destruct (_ && _) eqn:Hc; [|done].
  intros [= _ <-]. guards. eauto.
Qed.
Lemma client_finish_eq E token f c m c' :
  postFromWorker sha256_hex column E token (Some f.1) (Some finish) (Some f.2) c = (inr m, c') →
  m_key m = f.1 → m_body m = f.2 → send_finish E token f c = (inr tt, c').
Proof.
  intros H Hk Hb. unfold send_finish, client_finish. rewrite finish_dispatch. simpl. rewrite H, Hk, Hb.
  by rewrite !bool_decide_true.
Qed.
End finish.

Lemma aged_content m m' : aged m m' → m_key m' = m_key m ∧ m_body m' = m_body m ∧ m_kind m' = m_kind m.
Proof. by intros [->|(_ & t & ->)]. Qed.

Section end_to_end.
Context (JSON_parse : jstring → option parsed) (digest : jstring → jstring).
Context (WORKER_SYSTEM_PROMPT think_ok : jstring) (mandate_text : WorkerMandate → jstring)
  (guidance_text : WorkerGuidance → jstring) (tool_error : worker_error → jstring).
Context (maxTurns maxMessages : nat) (has_beforeFinish : bool).
Context (sha256_hex : list Z → string) (column : jstring → jstring).

(** What the worker did to the outside over its lives. *)
Definition worker_trace (Es : list WorkerEpisode.env) : list effect :=
  st_trace (lives JSON_parse digest WORKER_SYSTEM_PROMPT think_ok mandate_text guidance_text tool_error
              maxTurns maxMessages has_beforeFinish Es empty_store).

(** C26. One finish, end to end: let a worker live and die any number of times, and
    let the client of one life get its finish acknowledged by the mailbox of a
    database that was new once.  Then the token belongs to one session, and after
    whatever the mailbox does next and whatever statements of the program other
    connections commit, before and during the last calls too, the dispatcher that
    asks for the finish of that session, when none of its statements fails, finds
    exactly the finish any life of the worker sends - its key and its body.  A life
    that sends it again, because it died before recording the answer, is
    acknowledged again when no statement fails and the column of senders keeps
    [worker:<slug>] as it is, unless the session was dismissed. *)
Theorem finish_end_to_end Es f f' E E' token cs0 c1 cs :
  SendFinish f ∈ worker_trace Es → SendFinish f' ∈ worker_trace Es →
  send_finish sha256_hex column E token f (Mailbox.run sha256_hex column E cs0 new_conn) = (inr tt, c1) →
  (∀ n, fails E' n = false) →
  let c2 := Mailbox.run sha256_hex column E cs c1 in
  ∃ b, owner sha256_hex token (data c1) b
  ∧ (∃ m c3, finishFromWorker E' (b_sessionId b) c2 = (inr (Some m), c3)
             ∧ m_key m = f'.1 ∧ m_body m = f'.2 ∧ m_kind m = finish)
  ∧ (column (b_worker b) = b_worker b →
     (∃ c3, send_finish sha256_hex column E' token f' c2 = (inr tt, c3))
     ∨ ∃ w, w ∈ sessions (data c2) ∧ w_id w = b_sessionId b ∧ w_status w = dismissed).
Proof.
  intros Hf Hf' Hsend Hok c2. pose proof (run_wf sha256_hex column E cs0) as Hw.
  assert (f' = f) as ->.
  { apply sent_recorded in Hf as [Hf _], Hf' as [Hf' _]. congruence. }
  apply client_finish_inr in Hsend as (m & Hpost & Hk & Hb).
  pose proof Hpost as [Hw1 _]%safe_inr; [|by apply safe_post|done].
  pose proof Hpost as (key & k & body & b & Hkey & [= <-] & Hbd & Hp)%post_inr; [|done..].
  pose proof (messageKey_inr _ _ Hkey) as ->. pose proof (boundedText_inr _ _ _ Hbd) as ->.
  exists b. split; [exact (po_owner _ _ _ _ _ _ _ _ _ Hp)|].
  destruct (run_safe sha256_hex column E cs c1 Hw1) as [Hw2 Hg2]. fold c2 in Hw2, Hg2.
  pose proof (posted_grows _ _ _ _ _ _ _ _ _ _ Hw1 Hw2 Hg2 Hp) as Hp2.
  assert (m_kind m = finish) as Hkind by (by destruct (po_answers _ _ _ _ _ _ _ _ _ Hp) as (_ & ? & _)).
  split.
  - destruct (finish_found _ _ E' c2 _ _ _ _ _ Hok Hw2 Hp2) as (m' & c3 & H3 & Ha%aged_content).
    exists m', c3. destruct Ha as (-> & -> & ->). done.
  - intros Hcol.
    destruct (finish_retried_at _ _ E' c2 _ _ _ _ _ Hok Hw2 Hkey Hbd Hp2 Hcol Hb) as [(m' & c3 & H3 & Ha)|Hd].
    + left. exists c3. apply aged_content in Ha as (Hk' & Hb' & _). apply (client_finish_eq _ _ _ _ _ _ m'); [done|congruence..].
    + by right.
Qed.
End end_to_end.
