(* ===== verification/MailboxExamples.v ===== *)
(** * The mailbox on concrete sessions, and where it fails *)

From stdpp Require Import sorting.
From S2P Require Import Prelude JsString JsText Messages WorkerJournal WorkerEpisode WorkerTheorems.
From S2P Require Import Mailbox MailboxFacts MailboxTheorems MailboxRequest WorkerFinish.
Local Open Scope string_scope.
Local Open Scope list_scope.
Local Open Scope Z_scope.

Definition ex_digest : string := "00112233445566778899aabbccddeeff00112233445566778899aabbccddeeff".
Definition ex_sha (_ : list Z) : string := ex_digest.
Definition ex_column (s : jstring) : jstring := s.
Definition ex_token : jstring := replicate 43 65.
(** Another connection spawns the session before the first statement, and tries to
    revive it before every other one. *)
Definition ex_env_of (slug : jstring) : Mailbox.env :=
  {| foreign n := if Nat.eqb n 0
                  then [SpawnSession "wrk-1" slug (lit "model") (lit "mind") ex_digest 0; RunProvisioned "wrk-1" 0]
                  else [RecoverFailed; RunRecovered "wrk-1" 7];
     fails _ := false; Mailbox.clock n := Z.of_nat n |}.
Definition ex_mail : Mailbox.env := ex_env_of (lit "otter").
Definition ex_start : conn := run ex_sha ex_column ex_mail [PullForWorker ex_token (Some 1)] new_conn.

Definition ex_do (c : conn) (x : call) : conn := (perform ex_sha ex_column ex_mail x c).2.
Definition ex_post : call := PostFromWorker ex_token (Some (lit "k")) (Some message) (Some (lit "hello")).
Definition ex_end : call := PostFromWorker ex_token (Some (lit "end")) (Some finish) (Some (lit "done")).
Definition ex_hello : Message :=
  mkMessage 1 "wrk-1" worker_to_dispatcher message (lit "k") (lit "worker:otter") (lit "hello") 5 None.

(** Posting twice returns the same message, also when it was acknowledged between. *)
Lemma receipts_consistent_witness :
  (perform ex_sha ex_column ex_mail ex_post
     (run ex_sha ex_column ex_mail [AcknowledgeFromWorker "wrk-1" [1]] (ex_do ex_start ex_post))).1
    = inr (Messages [set_ack (Some 11) ex_hello])
  ∧ same_message ex_hello (set_ack (Some 11) ex_hello).
Proof.
  split; [vm_compute; reflexivity|].
  apply (receipts_consistent ex_sha ex_column ex_mail [PullForWorker ex_token (Some 1)] ex_post [AcknowledgeFromWorker "wrk-1" [1]] ex_post
           [ex_hello] (ex_do ex_start ex_post) [set_ack (Some 11) ex_hello]
           (ex_do (run ex_sha ex_column ex_mail [AcknowledgeFromWorker "wrk-1" [1]] (ex_do ex_start ex_post)) ex_post)).
  - vm_compute. reflexivity.
  - vm_compute. reflexivity.
  - by left.
  - by left.
  - by left.
Defined.

Definition ex_done : Message :=
  mkMessage 1 "wrk-1" worker_to_dispatcher finish (lit "end") (lit "worker:otter") (lit "done") 7 None.
Lemma finish_closes_witness :
  throws (sendToWorker ex_column ex_mail "wrk-1" (Some (lit "k")) (Some (lit "b")) (Some (lit "dispatcher"))
            (run ex_sha ex_column ex_mail [ex_post] (ex_do ex_start ex_end))).
Proof.
  pose proof (finish_closes ex_sha ex_column ex_mail [PullForWorker ex_token (Some 1)] ex_token (Some (lit "end"))
                (Some (lit "done")) ex_done (ex_do ex_start ex_end) [ex_post]) as H.
  apply H. vm_compute. reflexivity.
Defined.

Definition ex_send (k : string) : call := SendToWorker "wrk-1" (Some (lit k)) (Some (lit "body")) (Some (lit "d")).
Definition ex_two : conn :=
  run ex_sha ex_column ex_mail [PullForWorker ex_token (Some 1); ex_send "a"; ex_send "b"] new_conn.
Lemma delivery_exact_witness :
  Forall (λ m, is_pending "wrk-1" dispatcher_to_worker m = true ∧ m_id m ∉ [1])
    [mkMessage 2 "wrk-1" dispatcher_to_worker message (lit "b") (lit "d") (lit "body") 11 None].
Proof.
  apply (delivery_exact ex_sha ex_column ex_mail ex_two ex_token [1] 1%nat
           (ex_do ex_two (AcknowledgeForWorker ex_token [1])) [] (Some 32)
           (mkBinding "wrk-1" (lit "worker:otter") (lit "model") (lit "mind") "kubernetes") _
           (ex_do (ex_do ex_two (AcknowledgeForWorker ex_token [1])) (PullForWorker ex_token (Some 32)))).
  - exact (run_wf ex_sha ex_column ex_mail [PullForWorker ex_token (Some 1); ex_send "a"; ex_send "b"]).
  - vm_compute. reflexivity.
  - vm_compute. reflexivity.
Defined.

(** A worker that dies after sending its finish sends it again in its next life. *)
Definition ex_trace : list effect :=
  worker_trace ex_parse (λ s, s) [] [] (λ _, lit "mandate") (λ _, lit "guidance") (λ _, lit "error")
    64 128 true [ex_env 12; ex_env 0].
Definition ex_finish : Finish := (lit "worker-finish-done", lit "done").
Definition ex_sent : conn := (send_finish ex_sha ex_column ex_mail ex_token ex_finish ex_start).2.
Definition ex_after : conn := run ex_sha ex_column ex_mail [ex_post] ex_sent.
Lemma finish_end_to_end_witness :
  omap (λ e, match e with SendFinish f => Some f | _ => None end) ex_trace = [ex_finish; ex_finish]
  ∧ ∃ b, owner ex_sha ex_token (data ex_sent) b
  ∧ (∃ m c, finishFromWorker ex_mail (b_sessionId b) ex_after = (inr (Some m), c)
            ∧ m_key m = ex_finish.1 ∧ m_body m = ex_finish.2 ∧ m_kind m = finish)
  ∧ (ex_column (b_worker b) = b_worker b →
     (∃ c, send_finish ex_sha ex_column ex_mail ex_token ex_finish ex_after = (inr tt, c))
     ∨ ∃ w, w ∈ sessions (data ex_after) ∧ w_id w = b_sessionId b ∧ w_status w = dismissed).
Proof.
  split; [vm_compute; reflexivity|].
  pose proof (finish_end_to_end ex_parse (λ s, s) [] [] (λ _, lit "mandate") (λ _, lit "guidance") (λ _, lit "error")
           64 128 true ex_sha ex_column [ex_env 12; ex_env 0] ex_finish ex_finish ex_mail ex_mail ex_token
           [PullForWorker ex_token (Some 1)] ex_sent [ex_post]) as H.
  apply H.
  - vm_compute. repeat (first [left; reflexivity | left | right]).
  - vm_compute. repeat (first [left; reflexivity | left | right]).
  - vm_compute. reflexivity.
  - done.
Defined.

(** ** Where it fails *)

(** A slug may have 80 characters, but the sender [worker:<slug>] of a message must
    not be longer than 80: a worker with a slug of more than 73 can post nothing. *)
Lemma long_slug_cannot_post :
  let E := ex_env_of (replicate 74 97) in
  let c := run ex_sha ex_column E [PullForWorker ex_token (Some 1)] new_conn in
  map w_status (sessions (data c)) = [running]
  ∧ (perform ex_sha ex_column E ex_post c).1 = inl SqlError
  ∧ (perform ex_sha ex_column E ex_end c).1 = inl SqlError.
Proof. split_and!; vm_compute; reflexivity. Qed.

(** A finish of more than 100000 characters is refused whenever it is sent; the
    worker has journaled it by then and sends nothing else in any later life. *)
Lemma oversized_finish_refused sha256_hex column E token f c u c' :
  100000 < Z.of_nat (length f.2) → send_finish sha256_hex column E token f c ≠ (inr u, c').
Proof.
  intros Hlen (m & Hp & _)%client_finish_inr.
  apply ebind_inr in Hp as (a & c1 & _ & Hp). apply ebind_inr in Hp as (k & c2 & _ & Hp).
  apply ebind_inr in Hp as (bd & c3 & [Hb _]%lift_inr & _). unfold boundedText in Hb. unfold_eff.
  repeat case_match; simplify_eq. guards. lia.
Qed.

Lemma mailbox_typed_witness :
  length (messages (data (run ex_sha ex_column ex_mail
                            [PullForWorker ex_token (Some 1); ex_post; ex_send "a"; ex_end; ex_post] new_conn))) = 3%nat
  ∧ wf (data (run ex_sha ex_column ex_mail
                [PullForWorker ex_token (Some 1); ex_post; ex_send "a"; ex_end; ex_post] new_conn)).
Proof.
  split; [vm_compute; reflexivity|].
  exact (proj1 (mailbox_typed ex_sha ex_column ex_mail
                  [PullForWorker ex_token (Some 1); ex_post; ex_send "a"; ex_end; ex_post] [])).
Defined.
