(* ===== verification/ContextMeter.v ===== *)
(** * Context meters

    Calibrated characters per token (src/llm/density.ts), the context tracker
    (src/llm/context-tracker.ts) and the prompt-cache accounting
    (src/llm/cache-stats.ts).  Numbers are exact: a double is its rational
    value and arithmetic is not rounded; [None] is NaN or an infinity. *)

From Stdlib Require Import QArith Qround Qminmax Qabs Lqa.
From S2P Require Import Prelude JsString Messages.
Local Open Scope list_scope.

Definition jnum := option Q.

(** ** Density *)

Module Density.
Local Open Scope Q_scope.

Definition SEED_RATIO : Q := 4.
Definition ALPHA : Q := 1 # 10.
Definition MIN_RATIO : Q := 2.
Definition MAX_RATIO : Q := 6.
Definition MIN_PROMPT_TOKENS : Q := 1000.

Definition clamp (x : Q) : Q := Qmin MAX_RATIO (Qmax MIN_RATIO x).

(** The live ratio, the accepted samples, and the model's row of the
    token_density table ([None]: no row, or it cannot be read). *)
Record model := mkModel { ratio : Q; samples : Q; row : option (jnum * jnum) }.

(** [createDensityModel]: the persisted row, if it can be read. *)
Definition create (persisted : option (jnum * jnum)) : model :=
  match persisted with
  | Some (Some r, s) =>
      let n := match s with
               | Some n => if Qle_bool n 0 then 0 else n
               | None => 0
               end in
      mkModel (clamp r) n persisted
  | _ => mkModel SEED_RATIO 0 persisted
  end.

Definition estimate (m : model) (chars : jnum) : Z :=
  match chars with
  | Some c => if Qle_bool c 0 then 0%Z else Qceiling (c / ratio m)
  | None => 0%Z
  end.

(** [observe]; [writable] says whether the upsert succeeds. *)
Definition observe (writable : bool) (charsSent promptTokens : jnum) (m : model) : model :=
  match charsSent, promptTokens with
  | Some chars, Some prompt =>
      if Qle_bool chars 0 || negb (Qle_bool MIN_PROMPT_TOKENS prompt) then m
      else
        let sample := clamp (chars / prompt) in
        let r := if Qeq_bool (samples m) 0 then sample
                 else clamp ((1 - ALPHA) * ratio m + ALPHA * sample) in
        let n := samples m + 1 in
        mkModel r n (if writable then Some (Some r, Some n) else row m)
  | _, _ => m
  end.

(** *** Facts *)

Definition in_range (q : Q) : Prop := MIN_RATIO <= q /\ q <= MAX_RATIO.

Lemma clamp_range x : in_range (clamp x).
Proof.
  unfold in_range, clamp. split.
  - apply Q.min_glb; [discriminate|]. apply Q.le_max_l.
  - apply Q.le_min_l.
Qed.

Lemma clamp_id x : in_range x → clamp x == x.
Proof.
  intros [H1 H2]. unfold clamp. assert (Qmax MIN_RATIO x == x) as -> by (by apply Q.max_r).
  by apply Q.min_r.
Qed.

Lemma create_range p : in_range (ratio (create p)).
Proof. destruct p as [[[r|] s]|]; simpl; [apply clamp_range|..]; by split. Qed.

Lemma observe_range w c p m : in_range (ratio m) → in_range (ratio (observe w c p m)).
Proof.
  intros Hm. unfold observe. destruct c as [c|], p as [p|]; try done.
  destruct (_ || _); [done|]. simpl. case_match; apply clamp_range.
Qed.

Definition observations := list (bool * jnum * jnum).
Definition observe_all (l : observations) (m : model) : model :=
  foldl (λ m '(w, c, p), observe w c p m) m l.

Lemma observe_all_range l m : in_range (ratio m) → in_range (ratio (observe_all l m)).
Proof.
  revert m. induction l as [|[[w c] p] l IH]; intros m Hm; simpl; [done|].
  by apply IH, observe_range.
Qed.

(** One sample moves an established ratio by at most [ALPHA] of the range. *)
Lemma observe_step w c p m :
  in_range (ratio m) → ~ samples m == 0 →
  Qabs (ratio (observe w c p m) - ratio m) <= ALPHA * (MAX_RATIO - MIN_RATIO).
Proof.
  intros Hm Hs. unfold observe.
  assert (Qabs (ratio m - ratio m) <= ALPHA * (MAX_RATIO - MIN_RATIO)) as H0.
  { assert (ratio m - ratio m == 0) as -> by ring. discriminate. }
  destruct c as [c|], p as [p|]; try done. destruct (_ || _); [done|]. cbn [ratio].
  destruct (Qeq_bool (samples m) 0) eqn:E; [by apply Qeq_bool_eq in E|].
  set (x := clamp (c / p)). assert (in_range x) as Hx by apply clamp_range.
  destruct Hm as [Hm1 Hm2], Hx as [Hx1 Hx2].
  unfold MIN_RATIO, MAX_RATIO, ALPHA in *.
  assert (clamp ((1 - (1 # 10)) * ratio m + (1 # 10) * x)
          == (1 - (1 # 10)) * ratio m + (1 # 10) * x) as Hc
    by (apply clamp_id; unfold in_range, MIN_RATIO, MAX_RATIO; split; lra).
  apply Qabs_Qle_condition. split; lra.
Qed.

Definition counted (m : model) : Prop := 0 <= samples m.
Lemma create_counted p : counted (create p).
Proof.
  unfold counted. destruct p as [[[r|] [n|]]|]; simpl; try done.
  destruct (Qle_bool n 0) eqn:E; [done|]. apply Qlt_le_weak, Qnot_le_lt.
  intros ?%Qle_bool_iff. congruence.
Qed.
Lemma observe_counted w c p m : counted m → counted (observe w c p m).
Proof.
  unfold counted, observe. intros Hm. destruct c as [c|], p as [p|]; try done.
  destruct (_ || _); [done|]. cbn [samples]. lra.
Qed.

Lemma observe_all_counted l m : counted m → counted (observe_all l m).
Proof.
  revert m. induction l as [|[[w c] p] l IH]; intros m Hm; simpl; [done|].
  by apply IH, observe_counted.
Qed.

(** A sample that is written survives a restart. *)
Lemma reload c p m :
  in_range (ratio m) → counted m → observe true c p m ≠ m →
  let m' := observe true c p m in
  ratio (create (row m')) == ratio m' /\ samples (create (row m')) == samples m'.
Proof.
  unfold counted. intros Hm Hs Hne. unfold observe in *.
  destruct c as [c|], p as [p|]; try done. destruct (_ || _); [done|].
  set (r := if Qeq_bool _ _ then _ else _). cbn [row create ratio samples].
  assert (in_range r) as Hr by (subst r; case_match; apply clamp_range).
  split; [by apply clamp_id|].
  destruct (Qle_bool (samples m + 1) 0) eqn:E; [|done]. apply Qle_bool_iff in E. lra.
Qed.

Lemma estimate_nonneg m c : in_range (ratio m) → (0 <= estimate m c)%Z.
Proof.
  intros [H1 _]. destruct c as [c|]; simpl; [|done].
  destruct (Qle_bool c 0) eqn:E; [done|].
  assert (0 < c) as Hc.
  { apply Qnot_le_lt. intros ?%Qle_bool_iff. congruence. }
  assert (0 <= c / ratio m) as H.
  { apply Qle_shift_div_l; [unfold MIN_RATIO in H1; lra|].
    assert (0 * ratio m == 0) by ring. lra. }
  pose proof (Qle_ceiling (c / ratio m)). rewrite Zle_Qle. change (inject_Z 0) with 0. lra.
Qed.
End Density.

(** ** The tracker *)

Module Tracker.
Local Open Scope Z_scope.

Record state := mkTracker { maxContextTokens : Z; usableBudget : Z; currentTokens : Z }.

Definition create (maxContextTokens completionReserveTokens : Z) : state :=
  mkTracker maxContextTokens (Z.max 1 (maxContextTokens - completionReserveTokens)) 0.

Definition set_current (n : Z) (t : state) : state :=
  mkTracker (maxContextTokens t) (usableBudget t) n.

Definition update (prompt_tokens completion_tokens : Z) (t : state) : state :=
  set_current (prompt_tokens + completion_tokens) t.

Definition estimateAppended (d : Density.model) (text : jstring) (t : state) : state :=
  set_current (currentTokens t + Density.estimate d (Some (inject_Z (jlen text)))) t.

(** The characters of a whole history, ceiled once. *)
Definition historyChars (messages : list ChatMessage) : Z :=
  sum_by (λ m, sentChars m true) messages.

Definition recompute (d : Density.model) (messages : list ChatMessage) (t : state) : state :=
  set_current (Density.estimate d (Some (inject_Z (historyChars messages)))) t.

Definition reset (t : state) : state := set_current 0 t.

Definition usageRatio (t : state) : Q := inject_Z (currentTokens t) / inject_Z (usableBudget t).

(** *** Facts *)

Lemma create_budget m r : 0 < usableBudget (create m r).
Proof. unfold create. simpl. lia. Qed.

Lemma historyChars_nonneg ms : 0 ≤ historyChars ms.
Proof. apply sum_by_nonneg. intros m. pose proof (sentChars_pos m true). lia. Qed.
End Tracker.

(** ** Prompt-cache accounting *)

Module CacheStats.
Local Open Scope Z_scope.

Definition CACHE_BUST_MIN_TOKENS : Z := 2048.

(** The fields of [LLMUsage] the accounting reads. *)
Record usage := mkUsage { prompt_tokens : Z; cached_tokens : option Z }.

Record stats := mkStats {
  supported : bool;
  lastCached : Z;
  lastNew : Z;
  totalCached : Z;
  totalNew : Z;
  bustCount : Z;
  bustTokens : Z;
  turns : Z;
  prevCachedTokens : option Z;
}.

Definition create : stats := mkStats false 0 0 0 0 0 0 0 None.

Definition record (u : usage) (s : stats) : (bool * Z) * stats :=
  match cached_tokens u with
  | None =>
      ((false, 0),
       mkStats (supported s) (lastCached s) (lastNew s) (totalCached s) (totalNew s)
         (bustCount s) (bustTokens s) (turns s + 1) None)
  | Some cached =>
      let prompt := prompt_tokens u in
      let capped := Z.max 0 (Z.min cached prompt) in
      let fresh := Z.max 0 (prompt - capped) in
      let rewritten :=
        match prevCachedTokens s with
        | Some prev => Z.max 0 (Z.min prev prompt - capped)
        | None => 0
        end in
      let busted := CACHE_BUST_MIN_TOKENS <=? rewritten in
      ((busted, rewritten),
       mkStats true capped fresh (totalCached s + capped) (totalNew s + fresh)
         (if busted then bustCount s + 1 else bustCount s)
         (if busted then bustTokens s + rewritten else bustTokens s)
         (turns s + 1) (Some capped))
  end.

Definition ratio (cached fresh : Z) : Q :=
  if 0 <? cached + fresh then (inject_Z cached / inject_Z (cached + fresh))%Q else 0%Q.

Record CacheInfo := {
  i_supported : bool; i_lastCached : Z; i_lastNew : Z; i_lastRatio : Q;
  i_totalCached : Z; i_totalNew : Z; i_totalRatio : Q;
  i_bustCount : Z; i_bustTokens : Z; i_turns : Z;
}.

Definition snapshot (s : stats) : CacheInfo :=
  {| i_supported := supported s; i_lastCached := lastCached s; i_lastNew := lastNew s;
     i_lastRatio := ratio (lastCached s) (lastNew s);
     i_totalCached := totalCached s; i_totalNew := totalNew s;
     i_totalRatio := ratio (totalCached s) (totalNew s);
     i_bustCount := bustCount s; i_bustTokens := bustTokens s; i_turns := turns s |}.

Definition rebaseline (s : stats) : stats :=
  mkStats (supported s) (lastCached s) (lastNew s) (totalCached s) (totalNew s)
    (bustCount s) (bustTokens s) (turns s) None.

Definition reset (s : stats) : stats := create.

(** *** Runs against a log of what was recorded *)

Inductive op := Record (u : usage) | Rebaseline | Reset.
Definition exec (s : stats) (o : op) : stats :=
  match o with
  | Record u => (record u s).2
  | Rebaseline => rebaseline s
  | Reset => reset s
  end.

(** The operations since the last reset, oldest first. *)
Definition log (l : list op) : list op :=
  foldl (λ acc o, match o with Reset => [] | _ => acc ++ [o] end) [] l.

(** Reference: the turns that reported cache data, and what each of them
    covers and adds. *)
Definition reported (l : list op) : list usage :=
  omap (λ o, match o with
             | Record u => match cached_tokens u with Some _ => Some u | None => None end
             | _ => None
             end) l.
Definition recorded (l : list op) : Z :=
  Z.of_nat (length (omap (λ o, match o with Record u => Some u | _ => None end) l)).
Definition covered (u : usage) : Z :=
  Z.max 0 (Z.min (default 0 (cached_tokens u)) (prompt_tokens u)).
Definition added (u : usage) : Z := Z.max 0 (prompt_tokens u - covered u).
(** Only the operation just before can be a comparison baseline. *)
Definition baseline (l : list op) : option Z :=
  match last l with
  | Some (Record u) => (λ _, covered u) <$> cached_tokens u
  | _ => None
  end.

Record accounts (l : list op) (s : stats) : Prop := {
  a_cached : totalCached s = sum_by covered (reported l);
  a_new : totalNew s = sum_by added (reported l);
  a_turns : turns s = recorded l;
  a_supported : supported s = bool_decide (reported l ≠ []);
  a_prev : prevCachedTokens s = baseline l;
  a_busts : 0 ≤ bustCount s ∧ CACHE_BUST_MIN_TOKENS * bustCount s ≤ bustTokens s;
}.

Lemma record_accounts l s u :
  accounts l s → accounts (l ++ [Record u]) (record u s).2.
Proof.
  intros [H1 H2 H3 H4 H5 [H6 H7]]. unfold record.
  assert (recorded (l ++ [Record u]) = recorded l + 1) as Hr.
  { unfold recorded. rewrite omap_app, length_app. simpl. lia. }
  assert (baseline (l ++ [Record u]) = (λ _, covered u) <$> cached_tokens u) as Hb.
  { unfold baseline. by rewrite last_snoc. }
  assert (reported (l ++ [Record u])
          = reported l ++ match cached_tokens u with Some _ => [u] | None => [] end) as Hp.
  { unfold reported. rewrite omap_app. simpl. by destruct (cached_tokens u). }
  assert (covered u = Z.max 0 (Z.min (default 0 (cached_tokens u)) (prompt_tokens u))) as Hcov
    by done.
  destruct (cached_tokens u) as [cached|] eqn:Hc; simpl in Hcov; split; simpl;
    rewrite ?Hr, ?Hb, ?Hp, ?sum_by_app, ?app_nil_r; simpl; try done; try lia.
  - unfold added at 2. rewrite Hcov. lia.
  - symmetry. apply bool_decide_eq_true. by destruct (reported l).
  - by rewrite Hcov.
  - destruct (Z.leb_spec CACHE_BUST_MIN_TOKENS
      match prevCachedTokens s with
      | Some prev => Z.max 0 (Z.min prev (prompt_tokens u) - Z.max 0 (Z.min cached (prompt_tokens u)))
      | None => 0
      end); lia.
Qed.

Lemma run_accounts l : accounts (log l) (foldl exec create l).
Proof.
  induction l as [|o l IH] using rev_ind.
  { split; try done; simpl; lia. }
  unfold log. rewrite !foldl_app. fold (log l). simpl. destruct o as [u| |]; simpl.
  - by apply record_accounts.
  - destruct IH as [H1 H2 H3 H4 H5 H6]. split; simpl; try done.
    + unfold reported in *. by rewrite omap_app, app_nil_r.
    + unfold reported in *. by rewrite omap_app, app_nil_r.
    + unfold recorded in *. by rewrite omap_app, app_nil_r.
    + unfold reported in *. by rewrite omap_app, app_nil_r.
    + unfold baseline. by rewrite last_snoc.
  - split; try done; simpl; lia.
Qed.
End CacheStats.
