(* ===== verification/Summarize.v ===== *)
(** * Summarization (src/llm/summarize.ts, [cap] of src/sandbox/preview.ts)

    Serializing a history into a bounded text block, and the epoch-guarded
    background summarizer: a small concurrent object whose summarize calls
    settle at any later time, in any order, also after a reset. *)

From Stdlib Require Import QArith.
From S2P Require Import Prelude JsString Messages.
Local Open Scope nat_scope.
Local Open Scope list_scope.

(** ** [cap]: truncation by UTF-8 bytes *)

Definition is_continuation (b : Z) : bool := Z.eqb (Z.land b 0xC0) 0x80.

(** [while (cut > 0 && (buf[cut] & 0xc0) === 0x80) cut--] *)
Fixpoint back_up (buf : list Z) (cut : nat) : nat :=
  match cut with
  | O => O
  | S c => if is_continuation (default 0%Z (buf !! cut)) then back_up buf c else cut
  end.

(** The bytes the character at a lead byte needs. *)
Definition lead_need (b : Z) : nat :=
  if (b <? 0x80)%Z then 1 else if (b <? 0xE0)%Z then 2 else if (b <? 0xF0)%Z then 3 else 4.

Definition cut_at (buf : list Z) (maxBytes : nat) : nat :=
  let cut := back_up buf maxBytes in
  if Nat.ltb 0 cut && Nat.ltb maxBytes (cut + lead_need (default 0%Z (buf !! cut)))
  then cut - 1 else cut.

(** [` …[+${n} more bytes]`] *)
Definition cap_suffix (n : nat) : jstring :=
  lit " " ++ [0x2026%Z] ++ lit "[+" ++ decimal n ++ lit " more bytes]".

(** [while (shrink > 0 && byteLength(kept.slice(0, --shrink) + suffix) > maxBytes)] *)
Fixpoint shrink_to (kept suffix : jstring) (maxBytes shrink : nat) : nat :=
  match shrink with
  | O => O
  | S n => if Nat.ltb maxBytes (byteLength (take n kept ++ suffix))
           then shrink_to kept suffix maxBytes n else n
  end.

Definition cap (str : jstring) (maxBytes : nat) : jstring :=
  let buf := utf8_encode str in
  if Nat.leb (length buf) maxBytes then str
  else
    let cut := cut_at buf maxBytes in
    let kept := utf8_decode (take cut buf) in
    let suffix := cap_suffix (length buf - cut) in
    let out := kept ++ suffix in
    if Nat.leb (byteLength out) maxBytes then out
    else take (shrink_to kept suffix maxBytes cut) kept ++ suffix.

(** ** [serializeHistory] *)

Definition newline : jstring := [10%Z].

Definition serializeMessage (contentCap codeCap : nat) (m : ChatMessage) : jstring :=
  lit "[" ++ lit (role_name (role m)) ++ lit "] " ++ cap (content m) contentCap
  ++ match role m, reasoning_content m with
     | assistant, Some ((_ :: _) as r) => newline ++ lit "[reasoning]" ++ newline ++ cap r contentCap
     | _, _ => []
     end
  ++ concat (map (λ tc, match tc_code tc with
                        | Some code => newline ++ lit "[ran code]" ++ newline ++ cap code codeCap
                        | None => []
                        end) (tool_calls m)).

Definition truncation_note : jstring := lit "[oldest history truncated]" ++ [0x2026%Z] ++ newline.

(** [text.slice(-totalCap)]; [slice(-0)] is the whole string. *)
Definition slice_end (n : nat) (s : jstring) : jstring :=
  match n with O => s | _ => last_units n s end.

Definition serializeHistory (messages : list ChatMessage) (contentCap codeCap totalCap : nat)
    : jstring :=
  let text := join newline (map (serializeMessage contentCap codeCap) messages) in
  if Nat.ltb totalCap (length text) then truncation_note ++ slice_end totalCap text else text.

(** ** The guarded summarizer *)

Module Guarded.

(** Why [validateInput] threw (the text of its message is derived from it). *)
Inductive admission := EstimatorInvalid | OverBudget (estimatedInputTokens : Q).

(** What ended up in [lastError]. *)
Inductive failure :=
  | TooShort (chars minChars attempt : nat)
  | AttemptFailed (message : jstring)
  | NotAdmitted (reason : admission).

(** A background call between two awaits: it waits for its [attempts]-th
    summarize. *)
Record job := mkJob { j_epoch : nat; j_attempts : nat; j_minChars : nat }.

Record state := mkState {
  running : bool;
  lastError : option failure;
  epoch : nat;
  jobs : gmap nat job;      (* calls in flight, by the order they were made *)
  started : nat;            (* calls made so far *)
}.

Definition initial : state := mkState false None 0 ∅ 0.

Inductive start_result := Started | Busy | Rejected (reason : admission).

Section guarded.
Context (maxAttempts : nat).
(** [opts.validateInput]: [Some reason] when it throws. *)
Context (validateInput : jstring → option admission).

Definition set_error (e : option failure) (s : state) : state :=
  mkState (running s) e (epoch s) (jobs s) (started s).

Definition start (input : jstring) (minChars : nat) (s : state) : start_result * state :=
  if running s then (Busy, s)
  else
    match validateInput input with
    | Some reason => (Rejected reason, set_error (Some (NotAdmitted reason)) s)
    | None =>
        (* [while (attempts < maxAttempts && summary === null)]: with no
           attempt allowed the call finishes at once *)
        if Nat.ltb 0 maxAttempts then
          (Started, mkState true None (epoch s)
                      (<[ started s := mkJob (epoch s) 1 minChars ]> (jobs s)) (S (started s)))
        else (Started, mkState false None (epoch s) (jobs s) (S (started s)))
    end.

(** How an awaited summarize call settles. *)
Inductive settlement := Resolved (summary : jstring) | Threw (message : jstring).

Definition drop_job (k : nat) (s : state) : state :=
  mkState (running s) (lastError s) (epoch s) (delete k (jobs s)) (started s).

(** After a failed attempt: try again or give up. *)
Definition next_attempt (k : nat) (j : job) (e : failure) (s : state) : state :=
  if Nat.ltb (j_attempts j) maxAttempts then
    mkState (running s) (Some e) (epoch s)
      (<[ k := mkJob (j_epoch j) (S (j_attempts j)) (j_minChars j) ]> (jobs s)) (started s)
  else mkState false (Some e) (epoch s) (delete k (jobs s)) (started s).

(** The continuation of call [k] when its summarize settles; [Some summary]
    is what [onResult] receives. *)
Definition settle (k : nat) (r : settlement) (s : state) : option jstring * state :=
  match jobs s !! k with
  | None => (None, s)
  | Some j =>
      if Nat.eqb (j_epoch j) (epoch s) then
        match r with
        | Resolved summary =>
            if Nat.ltb (length summary) (j_minChars j) then
              (None, next_attempt k j
                       (TooShort (length summary) (j_minChars j) (j_attempts j)) s)
            else (Some summary, mkState false None (epoch s) (delete k (jobs s)) (started s))
        | Threw message => (None, next_attempt k j (AttemptFailed message) s)
        end
      else (None, drop_job k s)
  end.

Definition reset (s : state) : state :=
  mkState false None (S (epoch s)) (jobs s) (started s).
End guarded.
End Guarded.

(** ** Facts about the text *)

Lemma shrink_to_spec kept suffix n shrink :
  let r := shrink_to kept suffix n shrink in
  r = 0 ∨ byteLength (take r kept ++ suffix) ≤ n.
Proof.
  induction shrink as [|m IH]; cbn [shrink_to]; [by left|].
  destruct (Nat.ltb_spec n (byteLength (take m kept ++ suffix))); [done|by right].
Qed.

Lemma cap_within str n :
  byteLength (cap str n) ≤ n ∨ ∃ k, cap str n = cap_suffix k.
Proof.
  unfold cap. destruct (Nat.leb_spec (length (utf8_encode str)) n); [by left|].
  set (cut := cut_at _ n). set (kept := utf8_decode _). set (suffix := cap_suffix _).
  destruct (Nat.leb_spec (byteLength (kept ++ suffix)) n); [by left|].
  destruct (shrink_to_spec kept suffix n cut) as [->|H']; [|by left].
  right. by eexists.
Qed.

Lemma cap_id str n : byteLength str ≤ n → cap str n = str.
Proof. intros H%Nat.leb_le. unfold byteLength in H. unfold cap. by rewrite H. Qed.

Lemma serializeHistory_bound ms c d n :
  0 < n → length (serializeHistory ms c d n) ≤ n + length truncation_note.
Proof.
  intros Hn. unfold serializeHistory. set (text := join _ _).
  destruct (Nat.ltb_spec n (length text)); [|lia].
  rewrite length_app. destruct n as [|n]; [lia|].
  unfold slice_end. pose proof (length_last_units (S n) text). lia.
Qed.

(** Truncation drops the oldest text and keeps the newest. *)
Lemma serializeHistory_suffix ms c d n :
  0 < n → let text := join newline (map (serializeMessage c d) ms) in
  ∃ dropped kept, text = dropped ++ kept
    ∧ (serializeHistory ms c d n = kept ∧ dropped = []
       ∨ serializeHistory ms c d n = truncation_note ++ kept ∧ length kept = n).
Proof.
  intros Hn text. unfold serializeHistory. fold text.
  destruct (Nat.ltb_spec n (length text)).
  - exists (take (length text - n) text), (drop (length text - n) text).
    rewrite take_drop. split; [done|]. right. destruct n as [|n]; [lia|].
    split; [done|]. rewrite length_drop. lia.
  - exists [], text. split; [done|]. by left.
Qed.

(** ** Facts about the guarded summarizer *)

Module GuardedFacts.
Import Guarded.

Section facts.
Context (maxAttempts : nat) (validateInput : jstring → option admission).

(** [running] says exactly whether a call of this epoch is in flight, and
    there is at most one. *)
Record inv (s : state) : Prop := {
  g_fresh : ∀ k j, jobs s !! k = Some j → k < started s;
  g_past : ∀ k j, jobs s !! k = Some j → j_epoch j ≤ epoch s;
  g_attempts : ∀ k j, jobs s !! k = Some j → 1 ≤ j_attempts j ≤ maxAttempts;
  g_one : ∀ k k' j j', jobs s !! k = Some j → jobs s !! k' = Some j' →
    j_epoch j = epoch s → j_epoch j' = epoch s → k = k';
  g_running : running s = true ↔ ∃ k j, jobs s !! k = Some j ∧ j_epoch j = epoch s;
}.

Lemma initial_inv : inv initial.
Proof. split; try done. split; [done|]. by intros (k & j & ? & _). Qed.

Lemma start_inv input n s : inv s → inv (start maxAttempts validateInput input n s).2.
Proof.
  intros Hs. pose proof Hs as [H1 H2 H3 H4 H5]. unfold start.
  destruct (running s) eqn:Hr; [exact Hs|].
  destruct (validateInput input); [split; simpl; try rewrite Hr; assumption|].
  assert (∀ k j, jobs s !! k = Some j → j_epoch j ≠ epoch s) as Hidle.
  { intros k j Hk He. assert (false = true); [apply H5; eauto|done]. }
  destruct (Nat.ltb_spec 0 maxAttempts); split; simpl.
  - intros k j. rewrite lookup_insert_Some. intros [[<- _]|[_ ?%H1]]; lia.
  - intros k j. rewrite lookup_insert_Some. intros [[_ <-]|[_ ?]]; [done|by eauto].
  - intros k j. rewrite lookup_insert_Some. intros [[_ <-]|[_ ?]]; [simpl; lia|by eauto].
  - intros k k' j j'. rewrite !lookup_insert_Some.
    intros [[<- <-]|[_ Hk]] [[<- <-]|[_ Hk']] He He'; try done; exfalso; by eapply Hidle.
  - split; [|done]. intros _. exists (started s), (mkJob (epoch s) 1 n).
    by rewrite lookup_insert_eq.
  - intros k j ?%H1. lia.
  - done.
  - done.
  - done.
  - split; [done|]. intros (k & j & Hk & He). by apply Hidle in Hk.
Qed.

Lemma settle_inv k r s : inv s → inv (settle maxAttempts k r s).2.
Proof.
  intros Hs. pose proof Hs as [H1 H2 H3 H4 H5]. unfold settle.
  destruct (jobs s !! k) as [j|] eqn:Hk; [|done].
  assert (∀ b e, j_epoch j = epoch s → b = false →
    inv (mkState b e (epoch s) (delete k (jobs s)) (started s))) as Hdone.
  { intros b e He ->. split; simpl.
    - intros k' j' [_ ?]%lookup_delete_Some. eauto.
    - intros k' j' [_ ?]%lookup_delete_Some. eauto.
    - intros k' j' [_ ?]%lookup_delete_Some. eauto.
    - intros k1 k2 j1 j2 [_ ?]%lookup_delete_Some [_ ?]%lookup_delete_Some. eauto.
    - split; [done|]. intros (k' & j' & [Hne Hk']%lookup_delete_Some & He').
      exfalso. apply Hne. eauto. }
  assert (∀ e, j_epoch j = epoch s → inv (next_attempt maxAttempts k j e s)) as Hnext.
  { intros e He. unfold next_attempt.
    destruct (Nat.ltb_spec (j_attempts j) maxAttempts) as [Hlt|]; [|by apply Hdone].
    split; simpl.
    - intros k' j'. rewrite lookup_insert_Some. intros [[<- _]|[_ ?]]; eauto.
    - intros k' j'. rewrite lookup_insert_Some. intros [[<- <-]|[_ ?]]; simpl; eauto.
    - intros k' j'. rewrite lookup_insert_Some. intros [[<- <-]|[_ ?]]; simpl; eauto.
      specialize (H3 _ _ Hk). lia.
    - intros k1 k2 j1 j2. rewrite !lookup_insert_Some.
      intros [[<- <-]|[? Ha]] [[<- <-]|[? Hb]]; simpl; eauto.
    - rewrite H5. split; intros (k' & j' & Hk' & He').
      + exists k, (mkJob (j_epoch j) (S (j_attempts j)) (j_minChars j)).
        by rewrite lookup_insert_eq.
      + eauto. }
  destruct (Nat.eqb_spec (j_epoch j) (epoch s)) as [He|Hne].
  { destruct r; simpl; [case_match; simpl; auto|auto]. }
  unfold drop_job. split; simpl.
  - intros k' j' [_ ?]%lookup_delete_Some. eauto.
  - intros k' j' [_ ?]%lookup_delete_Some. eauto.
  - intros k' j' [_ ?]%lookup_delete_Some. eauto.
  - intros k1 k2 j1 j2 [_ ?]%lookup_delete_Some [_ ?]%lookup_delete_Some. eauto.
  - rewrite H5. split.
    + intros (k' & j' & Hk' & He'). exists k', j'. rewrite lookup_delete_ne; [done|].
      intros <-. congruence.
    + intros (k' & j' & [_ ?]%lookup_delete_Some & ?). eauto.
Qed.

Lemma reset_inv s : inv s → inv (reset s).
Proof.
  intros [H1 H2 H3 H4 H5]. split; simpl; eauto.
  - intros k k' j j' Hk%H2 Hk'%H2. lia.
  - split; [done|]. intros (k & j & Hk%H2 & ?). lia.
Qed.
(** Only a call of the current epoch, with a summary of at least its
    minimum length, delivers a result. *)
Lemma settle_delivers k r s summary s' :
  settle maxAttempts k r s = (Some summary, s') →
  ∃ j, jobs s !! k = Some j ∧ j_epoch j = epoch s ∧ r = Resolved summary
       ∧ j_minChars j ≤ length summary ∧ running s' = false.
Proof.
  unfold settle. destruct (jobs s !! k) as [j|]; [|done].
  destruct (Nat.eqb_spec (j_epoch j) (epoch s)); [|done].
  destruct r as [t|]; [|done]. destruct (Nat.ltb_spec (length t) (j_minChars j)); [done|].
  intros [= <- <-]. eauto 10.
Qed.

(** A call of an earlier epoch is inert. *)
Lemma settle_stale k r s :
  (∀ j, jobs s !! k = Some j → j_epoch j ≠ epoch s) →
  (settle maxAttempts k r s).1 = None
  ∧ running (settle maxAttempts k r s).2 = running s
  ∧ epoch (settle maxAttempts k r s).2 = epoch s
  ∧ ∀ k' j, jobs (settle maxAttempts k r s).2 !! k' = Some j → jobs s !! k' = Some j.
Proof.
  unfold settle. destruct (jobs s !! k) as [j|] eqn:Hk; [|done]. intros Hne.
  destruct (Nat.eqb_spec (j_epoch j) (epoch s)) as [He|_]; [by destruct (Hne j)|].
  simpl. split_and!; try done. by intros k' j' [_ ?]%lookup_delete_Some.
Qed.

(** Calls end: every settlement of a call in flight uses up work. *)
Definition work (s : state) : nat :=
  map_fold (λ _ j acc, S maxAttempts - j_attempts j + acc) 0 (jobs s).

Lemma work_insert k j (m : gmap nat job) :
  m !! k = None →
  map_fold (λ _ j acc, S maxAttempts - j_attempts j + acc) 0 (<[ k := j ]> m)
  = S maxAttempts - j_attempts j + map_fold (λ _ j acc, S maxAttempts - j_attempts j + acc) 0 m.
Proof.
  intros Hk.
  apply (map_fold_insert_L (λ _ j acc, S maxAttempts - j_attempts j + acc) 0 k j m);
    [intros; lia|done].
Qed.

Lemma work_delete k j (m : gmap nat job) :
  m !! k = Some j →
  map_fold (λ _ j acc, S maxAttempts - j_attempts j + acc) 0 m
  = S maxAttempts - j_attempts j
    + map_fold (λ _ j acc, S maxAttempts - j_attempts j + acc) 0 (delete k m).
Proof.
  intros Hk. rewrite <- (insert_delete_id m k j Hk) at 1. apply work_insert, lookup_delete_eq.
Qed.

Lemma settle_progress k r s :
  inv s → is_Some (jobs s !! k) → work (settle maxAttempts k r s).2 < work s.
Proof.
  intros Hs [j Hk]. pose proof (g_attempts s Hs k j Hk) as Ha.
  assert (work s = S maxAttempts - j_attempts j
            + map_fold (λ _ j acc, S maxAttempts - j_attempts j + acc) 0 (delete k (jobs s))) as Hw
    by (by apply work_delete).
  assert (∀ e, work (next_attempt maxAttempts k j e s) < work s) as Hnext.
  { intros e. unfold next_attempt. rewrite Hw.
    destruct (Nat.ltb_spec (j_attempts j) maxAttempts); unfold work; simpl; [|lia].
    rewrite <- insert_delete_eq, work_insert by apply lookup_delete_eq. simpl. lia. }
  unfold settle. rewrite Hk.
  destruct (Nat.eqb _ _); [destruct r; [case_match|]|]; simpl; try apply Hnext.
  all: rewrite Hw; unfold work; simpl; lia.
Qed.
End facts.
End GuardedFacts.
