(* ===== verification/Compactor.v ===== *)
(** * Context compaction (src/llm/compactor.ts)

    The one forgetting mechanism: fold everything older than a verbatim tail
    into a background summary and swap it in at a safe checkpoint.  The message
    array is shared with the rest of the program, so its elements are objects
    with an identity ([oid]); the compactor compares identities and a
    fingerprint of the contents. *)

From Stdlib Require Import QArith Qround.
From S2P Require Import Prelude JsString Messages ContextMeter Summarize.
Local Open Scope nat_scope.
Local Open Scope list_scope.

(** ** The boundary *)

(** The loop of [walkKeepBoundary], from index [n - 1] downwards. *)
Fixpoint walk_from (messages : list ChatMessage) (keepTokens : Z) (ratio : Q) (acc : Z) (n : nat)
    : nat :=
  match n with
  | O => O
  | S i =>
      match messages !! i with
      | Some m =>
          let acc := (acc + estimateSentTokens m ratio)%Z in
          if (keepTokens <=? acc)%Z then i else walk_from messages keepTokens ratio acc i
      | None => O
      end
  end.
Definition walkKeepBoundary (messages : list ChatMessage) (keepTokens : Z) (ratio : Q) : nat :=
  walk_from messages keepTokens ratio 0 (length messages).

Definition is_tool (m : ChatMessage) : bool := bool_decide (role m = tool).

(** [while (b < messages.length && P(messages[b])) b++], on the messages from
    [b] on. *)
Fixpoint advance (P : ChatMessage → bool) (rest : list ChatMessage) (b : nat) : nat :=
  match rest with
  | m :: rest => if P m then advance P rest (S b) else b
  | [] => b
  end.

(** The results of the calls of one assistant message. *)
Definition answers_one (calls : list ToolCall) (m : ChatMessage) : bool :=
  is_tool m
  && match tool_call_id m with
     | Some id => bool_decide (id ∈ map tc_id calls)
     | None => false
     end.

Definition enforcePairIntegrity (messages : list ChatMessage) (boundary : nat) : nat :=
  let b :=
    if Nat.ltb 0 boundary && Nat.ltb boundary (length messages) then
      match messages !! (boundary - 1) with
      | Some before =>
          if bool_decide (role before = assistant) && negb (Nat.eqb (length (tool_calls before)) 0)
          then advance (answers_one (tool_calls before)) (drop boundary messages) boundary
          else boundary
      | None => boundary
      end
    else boundary in
  advance is_tool (drop b messages) b.

(** ** Messages the compactor writes *)

Definition em_dash : jstring := [0x2014%Z].
Definition SUMMARY_PREFIX : jstring := lit "=== Summary of earlier conversation".

Definition summaryMessage (text : jstring) (replaced : nat) : ChatMessage :=
  plain system (SUMMARY_PREFIX ++ lit " (" ++ decimal replaced
                ++ lit " earlier messages compacted) ===" ++ newline ++ text).

Definition CONTEXT_RESOURCE_EVICTED : jstring :=
  lit "[context resource body removed at the compaction boundary; reload it only if the compaction notice says it is still relevant]".

Definition compactionNotice (replaced : nat) : ChatMessage :=
  plain user (lit "[harness: context compacted " ++ em_dash ++ lit " " ++ decimal replaced
    ++ lit " earlier messages were folded into the summary at the top of your context. If you were mid-thread, skim that summary before continuing; anything not in it or in MEMORY.md is gone.]").

Definition has_resources (m : ChatMessage) : bool := negb (Nat.eqb (length (contextResources m)) 0).

(** [{...message, content: CONTEXT_RESOURCE_EVICTED, contextResources: undefined}] *)
Definition evicted (m : ChatMessage) : ChatMessage :=
  mkMessage (role m) CONTEXT_RESOURCE_EVICTED (reasoning_content m) (reasoning_items m)
    (thinking_blocks m) (tool_calls m) (tool_call_id m) (channel m) (personContext m) [].

Definition summaryFoldMessages (messages : list ChatMessage) : list ChatMessage :=
  List.filter (λ m, negb (bool_decide (personContext m = Some memory)) && negb (has_resources m))
    messages.

(** ** Objects *)

Record obj := mkObj { oid : nat; val : ChatMessage }.

(** [messages.map(...)] makes a fresh object for each evicted body; [next] is
    the next unused identity. *)
Fixpoint evictContextResourceBodies (next : nat) (l : list obj) : nat * list obj :=
  match l with
  | [] => (next, [])
  | o :: l =>
      if has_resources (val o) then
        let '(next', l') := evictContextResourceBodies (S next) l in
        (next', mkObj next (evicted (val o)) :: l')
      else
        let '(next', l') := evictContextResourceBodies next l in (next', o :: l')
  end.

(** ** The summary input budget *)

Definition isSafeInteger (n : jnum) : option Z :=
  match n with
  | Some q =>
      if Pos.eqb (Qden (Qred q)) 1 && (Z.abs (Qnum (Qred q)) <=? MAX_SAFE_INTEGER)%Z
      then Some (Qnum (Qred q)) else None
  | None => None
  end.

Record SummaryInputBudget := {
  contextWindowTokens : jnum;
  outputReserveTokens : jnum;
  framingTokens : jnum;
  estimateTokens : jstring → jnum;
}.

Inductive budget_error := TypeError (field : string) | RangeError.

Definition validateSummaryInputBudget (b : SummaryInputBudget) : option budget_error :=
  match isSafeInteger (contextWindowTokens b) with
  | Some window =>
      if (0 <? window)%Z then
        match isSafeInteger (outputReserveTokens b) with
        | Some reserve =>
            if (0 <=? reserve)%Z then
              match isSafeInteger (framingTokens b) with
              | Some framing =>
                  if (0 <=? framing)%Z then
                    if (window <=? reserve + framing)%Z then Some RangeError else None
                  else Some (TypeError "framingTokens")
              | None => Some (TypeError "framingTokens")
              end
            else Some (TypeError "outputReserveTokens")
        | None => Some (TypeError "outputReserveTokens")
        end
      else Some (TypeError "contextWindowTokens")
  | None => Some (TypeError "contextWindowTokens")
  end.

(** ** The compactor *)

Definition SUMMARY_FLOOR_CAP : nat := 2000.
Definition SUMMARY_FLOOR_PER_MESSAGE : nat := 10.

Record CompactorOpts := {
  keepTokens : Z;
  foldSerializeCap : nat;
  summaryInputBudget : option SummaryInputBudget;
}.
(** [opts.keepTokens ?? 50000], [opts.foldSerializeCap ?? 520000] *)
Definition default_opts : CompactorOpts :=
  {| keepTokens := 50000; foldSerializeCap := Z.to_nat 520000; summaryInputBudget := None |}.

Inductive start_result := started | busy | skipped | rejected (reason : Guarded.admission).

Record compactor := mkCompactor {
  boundaryIndex : nat;
  startedLength : nat;
  frozenPrefix : list obj;
  frozenPrefixFingerprint : string;
  resultSummary : option jstring;
  summarizer : Guarded.state;
}.

Definition idle (s : Guarded.state) : compactor := mkCompactor 0 0 [] "" None s.
Definition set_result (r : option jstring) (c : compactor) : compactor :=
  mkCompactor (boundaryIndex c) (startedLength c) (frozenPrefix c) (frozenPrefixFingerprint c)
    r (summarizer c).
Definition set_boundary (b : nat) (c : compactor) : compactor :=
  mkCompactor b (startedLength c) (frozenPrefix c) (frozenPrefixFingerprint c)
    (resultSummary c) (summarizer c).
Definition set_summarizer (s : Guarded.state) (c : compactor) : compactor :=
  mkCompactor (boundaryIndex c) (startedLength c) (frozenPrefix c) (frozenPrefixFingerprint c)
    (resultSummary c) s.

Section compactor.
(** The summarizer prompts of llm.ts (prose), the JSON text of a message and
    the SHA-256 digest. *)
Context (SOCIAL_SUMMARIZE_PROMPT SUMMARIZE_TAIL_REMINDER : jstring).
Context (JSON_stringify : ChatMessage → jstring) (sha256_hex : jstring → string).
Context (opts : CompactorOpts).

Definition retries : nat := 3.

(** [new Compactor]: throws on an invalid budget. *)
Definition createCompactor : budget_error + compactor :=
  match summaryInputBudget opts with
  | Some b => match validateSummaryInputBudget b with
              | Some e => inl e
              | None => inr (idle Guarded.initial)
              end
  | None => inr (idle Guarded.initial)
  end.

Definition prefixFingerprint (messages : list ChatMessage) (boundary : nat) : string :=
  sha256_hex (concat (map (λ m, JSON_stringify m ++ [0%Z]) (take boundary messages))).

(** Admission against the budget; the fields are safe integers after
    [createCompactor]. *)
Definition validateInput (input : jstring) : option Guarded.admission :=
  match summaryInputBudget opts with
  | None => None
  | Some b =>
      match estimateTokens b SOCIAL_SUMMARIZE_PROMPT, estimateTokens b input with
      | Some systemEstimate, Some userEstimate =>
          if Qle_bool 0 systemEstimate && Qle_bool 0 userEstimate then
            let estimatedInputTokens :=
              (systemEstimate + userEstimate + default 0 (framingTokens b))%Q in
            let estimatedRequestTokens :=
              (estimatedInputTokens + default 0 (outputReserveTokens b))%Q in
            if Qle_bool estimatedRequestTokens (default 0 (contextWindowTokens b))%Q then None
            else Some (Guarded.OverBudget estimatedInputTokens)
          else Some Guarded.EstimatorInvalid
      | _, _ => Some Guarded.EstimatorInvalid
      end
  end.

(** The previous compaction summary, when it heads the history. *)
Definition priorSummary (messages : list ChatMessage) : option jstring :=
  match messages with
  | head :: _ =>
      if bool_decide (role head = system) && startsWith SUMMARY_PREFIX (content head)
      then Some (content head) else None
  | [] => None
  end.

Definition foldSlice (messages : list ChatMessage) (boundary : nat) : list ChatMessage :=
  let foldStart := match priorSummary messages with Some _ => 1 | None => 0 end in
  summaryFoldMessages (drop foldStart (take boundary messages)).

Definition summaryInput (messages : list ChatMessage) (boundary : nat) : jstring :=
  let recent := serializeHistory (foldSlice messages boundary) 2000 1500 (foldSerializeCap opts) in
  let body :=
    match priorSummary messages with
    | Some prior =>
        lit "=== EARLIER MEMORY (a previous compaction summary " ++ em_dash
        ++ lit " integrate and condense; older detail may blur, but people-facts and promises must not vanish) ==="
        ++ newline ++ prior ++ newline ++ newline ++ lit "=== RECENT CONVERSATION TO FOLD IN ==="
        ++ newline ++ recent
    | None => recent
    end in
  body ++ newline ++ newline ++ SUMMARIZE_TAIL_REMINDER.

Definition minChars (messages : list ChatMessage) (boundary : nat) : nat :=
  Nat.min SUMMARY_FLOOR_CAP (SUMMARY_FLOOR_PER_MESSAGE * length (foldSlice messages boundary)).

Definition boundary_of (ratio : Q) (messages : list ChatMessage) : nat :=
  enforcePairIntegrity messages (walkKeepBoundary messages (keepTokens opts) ratio).

Definition start (ratio : Q) (messages : list obj) (c : compactor) : start_result * compactor :=
  if Guarded.running (summarizer c) then (busy, c)
  else
    let ms := map val messages in
    let b := boundary_of ratio ms in
    match foldSlice ms b with
    | [] => (skipped, set_boundary 0 c)
    | _ :: _ =>
        let '(r, s) := Guarded.start retries validateInput (summaryInput ms b) (minChars ms b)
                         (summarizer c) in
        (match r with
         | Guarded.Started => started
         | Guarded.Busy => busy
         | Guarded.Rejected e => rejected e
         end,
         mkCompactor b (length messages) (take b messages) (prefixFingerprint ms b) None s)
    end.

Definition hasCompletedResult (c : compactor) : bool :=
  negb (Guarded.running (summarizer c)) && bool_decide (is_Some (resultSummary c)).

(** A summarize call of the background loop settles; [onResult] stores the
    summary. *)
Definition settle (k : nat) (r : Guarded.settlement) (c : compactor) : compactor :=
  let '(result, s) := Guarded.settle retries k r (summarizer c) in
  match result with
  | Some summary => set_result (Some summary) (set_summarizer s c)
  | None => set_summarizer s c
  end.

(** [frozenPrefix.every((message, index) => messages[index] === message)] *)
Definition same_objects (prefix messages : list obj) : bool :=
  forallb (λ '(i, o), match messages !! i with
                      | Some o' => Nat.eqb (oid o') (oid o)
                      | None => false
                      end) (imap pair prefix).

Definition prefixMatches (messages : list obj) (c : compactor) : bool :=
  Nat.eqb (length (frozenPrefix c)) (boundaryIndex c)
  && same_objects (frozenPrefix c) messages
  && String.eqb (frozenPrefixFingerprint c)
       (prefixFingerprint (map val messages) (boundaryIndex c)).

(** [applyCompaction]: the new array, the next unused identity, the tracker
    (recomputed over the new array) and the compactor afterwards. *)
Definition applyCompaction (d : Density.model) (messages : list obj) (next : nat)
    (t : Tracker.state) (c : compactor) : list obj * nat * Tracker.state * compactor :=
  match resultSummary c with
  | None => (messages, next, t, c)
  | Some summary =>
      if prefixMatches messages c then
        let b := boundaryIndex c in
        let oldTailEnd := Nat.min (startedLength c) (length messages) in
        let '(next', old) :=
          evictContextResourceBodies (S (S next)) (drop b (take oldTailEnd messages)) in
        let kept := old ++ drop oldTailEnd messages in
        let new := mkObj next (summaryMessage summary b) :: kept
                     ++ [mkObj (S next) (compactionNotice b)] in
        (new, next', Tracker.recompute d (map val new) t, idle (summarizer c))
      else (messages, next, t, idle (summarizer c))
  end.

Definition reset (d : Density.model) (t : Tracker.state) (c : compactor)
    : Tracker.state * compactor :=
  (Tracker.recompute d [] t, idle (Guarded.reset (summarizer c))).
End compactor.
