(* ===== verification/CompactorFacts.v ===== *)
(** * Compaction: what is kept, what is folded, what can be lost

    Facts and theorems about src/llm/compactor.ts. *)

From Stdlib Require Import QArith Qround.
From S2P Require Import Prelude JsString Messages ContextMeter Summarize Compactor.
Local Open Scope nat_scope.
Local Open Scope list_scope.

(** ** The boundary *)

(** The estimated size of the tail that starts at [i]. *)
Definition tail_tokens (messages : list ChatMessage) (ratio : Q) (i : nat) : Z :=
  sum_by (λ m, estimateSentTokens m ratio) (drop i messages).

Lemma tail_tokens_cons messages ratio i m :
  messages !! i = Some m →
  tail_tokens messages ratio i
  = (estimateSentTokens m ratio + tail_tokens messages ratio (S i))%Z.
Proof. intros Hi. unfold tail_tokens. by rewrite (drop_S _ _ _ Hi). Qed.

Lemma walk_from_spec messages keep ratio n acc :
  n ≤ length messages → acc = tail_tokens messages ratio n →
  (∀ j, n ≤ j < length messages → (tail_tokens messages ratio j < keep)%Z) →
  let b := walk_from messages keep ratio acc n in
  b ≤ n ∧ (b = 0 ∨ (keep ≤ tail_tokens messages ratio b)%Z ∧ b < length messages)
  ∧ ∀ j, b < j < length messages → (tail_tokens messages ratio j < keep)%Z.
Proof.
  revert acc. induction n as [|i IH]; intros acc Hn Hacc Hj; simpl.
  { split; [done|]. split; [by left|]. intros j ?. apply Hj. lia. }
  destruct (lookup_lt_is_Some_2 messages i) as [m Hm]; [lia|]. rewrite Hm.
  assert ((acc + estimateSentTokens m ratio)%Z = tail_tokens messages ratio i) as Hacc'.
  { rewrite (tail_tokens_cons _ _ _ _ Hm). lia. }
  destruct (Z.leb_spec keep (acc + estimateSentTokens m ratio)) as [Hle|Hgt].
  - split; [lia|]. split; [right; split; lia|]. intros j ?. apply Hj. lia.
  - destruct (IH (acc + estimateSentTokens m ratio)%Z) as (H1 & H2 & H3); [lia|done| |].
    + intros j ?. destruct (decide (j = i)) as [->|]; [lia|]. apply Hj. lia.
    + split; [lia|done].
Qed.

Lemma advance_spec P messages b :
  let b' := advance P (drop b messages) b in
  b ≤ b' ∧ (b ≤ length messages → b' ≤ length messages)
  ∧ (∀ k m, b ≤ k < b' → messages !! k = Some m → P m = true)
  ∧ (∀ m, messages !! b' = Some m → P m = false).
Proof.
  remember (drop b messages) as rest eqn:Hr. revert b Hr.
  induction rest as [|m rest IH]; intros b Hr; simpl.
  { assert (length messages ≤ b).
    { assert (length (drop b messages) = 0) by (by rewrite <- Hr). rewrite length_drop in *. lia. }
    split_and!; [lia|lia|intros; lia|]. intros m Hm%lookup_lt_Some. lia. }
  assert (messages !! b = Some m) as Hm.
  { assert (drop b messages !! 0 = Some m) by (by rewrite <- Hr).
    rewrite lookup_drop, Nat.add_0_r in *. done. }
  assert (rest = drop (S b) messages) as Hr'.
  { rewrite (drop_S _ _ _ Hm) in Hr. congruence. }
  destruct (P m) eqn:HP.
  - destruct (IH (S b) Hr') as (H1 & H2 & H3 & H4). apply lookup_lt_Some in Hm as Hlt.
    split_and!; [lia|intros; apply H2; lia| |done].
    intros k m' Hk Hm'. destruct (decide (k = b)) as [->|]; [congruence|].
    apply (H3 k); [lia|done].
  - split_and!; [lia|lia|intros; lia|]. intros m' Hm'. congruence.
Qed.

(** The boundary only moves forward, only over tool results, and stops at a
    message that is none. *)
Lemma enforce_spec messages b :
  b ≤ length messages →
  let b' := enforcePairIntegrity messages b in
  b ≤ b' ≤ length messages
  ∧ (∀ k m, b ≤ k < b' → messages !! k = Some m → role m = tool)
  ∧ (∀ m, messages !! b' = Some m → role m ≠ tool).
Proof.
  intros Hb. unfold enforcePairIntegrity. set (b1 := if _ && _ then _ else _).
  assert (b ≤ b1 ≤ length messages
          ∧ ∀ k m, b ≤ k < b1 → messages !! k = Some m → is_tool m = true) as [Hb1 Htool].
  { subst b1. destruct (_ && _); [|split; [lia|intros; lia]].
    destruct (messages !! (b - 1)) as [before|]; [|split; [lia|intros; lia]].
    destruct (_ && _); [|split; [lia|intros; lia]].
    destruct (advance_spec (answers_one (tool_calls before)) messages b) as (H1 & H2 & H3 & _).
    split; [lia|]. intros k m Hk Hm. specialize (H3 k m Hk Hm). unfold answers_one in H3. by guards. }
  destruct (advance_spec is_tool messages b1) as (H1 & H2 & H3 & H4).
  unfold is_tool in *. split_and!; [lia|apply H2; lia| |].
  - intros k m Hk Hm. assert (bool_decide (role m = tool) = true); [|by guards].
    destruct (decide (k < b1)); [apply (Htool k); [lia|done]|apply (H3 k); [lia|done]].
  - intros m Hm%H4. by guards.
Qed.

(** A history in which every tool result follows the call it answers, with only
    tool results in between - what the agent loop appends. *)
Definition paired (messages : list ChatMessage) : Prop :=
  ∀ k m, messages !! k = Some m → role m = tool →
    ∃ j call id, j < k ∧ messages !! j = Some call ∧ role call = assistant
      ∧ tool_call_id m = Some id ∧ id ∈ map tc_id (tool_calls call)
      ∧ ∀ i x, j < i < k → messages !! i = Some x → role x = tool.

(** Cutting a paired history at a message that is no tool result leaves a
    paired tail. *)
Lemma paired_drop messages b :
  paired messages → (∀ m, messages !! b = Some m → role m ≠ tool) → paired (drop b messages).
Proof.
  intros Hp Hb k m Hk Ht. rewrite lookup_drop in Hk.
  destruct (Hp _ _ Hk Ht) as (j & call & id & Hj & Hcall & Hr & Hid & Hin & Hmid).
  assert (b ≤ j) as Hle.
  { destruct (decide (b ≤ j)) as [|Hn]; [done|exfalso].
    destruct (decide (k = 0)) as [->|Hk0].
    - rewrite Nat.add_0_r in Hk. by apply (Hb m).
    - destruct (lookup_lt_is_Some_2 messages b) as [x Hx].
      { apply lookup_lt_Some in Hk. lia. }
      apply (Hb x Hx). apply (Hmid b x); [lia|done]. }
  exists (j - b), call, id. rewrite lookup_drop. split_and!; try done; [lia| |].
  - by replace (b + (j - b)) with j by lia.
  - intros i x Hi Hx. rewrite lookup_drop in Hx. apply (Hmid (b + i) x); [lia|done].
Qed.

(** ** Objects *)

Lemma evict_spec next l :
  let '(next', l') := evictContextResourceBodies next l in
  next ≤ next' ∧ length l' = length l
  ∧ ∀ k o, l !! k = Some o →
      ∃ o', l' !! k = Some o'
        ∧ (has_resources (val o) = false ∧ o' = o
           ∨ has_resources (val o) = true ∧ val o' = evicted (val o) ∧ next ≤ oid o' < next').
Proof.
  revert next. induction l as [|o l IH]; intros next; simpl; [done|].
  destruct (has_resources (val o)) eqn:Hr.
  - specialize (IH (S next)).
    destruct (evictContextResourceBodies (S next) l) as [next' l']. destruct IH as (H1 & H2 & H3).
    split_and!; [lia|by simpl; rewrite H2|].
    intros [|k] x; simpl.
    + intros [= <-]. eexists. split; [done|]. right. simpl. split_and!; try done; lia.
    + intros (o' & Ho & [?|(? & ? & ?)])%H3; exists o'; (split; [done|]); [by left|].
      right. split_and!; try done; lia.
  - specialize (IH next).
    destruct (evictContextResourceBodies next l) as [next' l']. destruct IH as (H1 & H2 & H3).
    split_and!; [lia|by simpl; rewrite H2|].
    intros [|k] x; simpl; [|by apply H3]. intros [= <-]. eexists. split; [done|]. by left.
Qed.

Lemma same_objects_spec prefix messages :
  same_objects prefix messages = true ↔
  ∀ k o, prefix !! k = Some o → ∃ o', messages !! k = Some o' ∧ oid o' = oid o.
Proof.
  unfold same_objects. rewrite forallb_forall. split.
  - intros H k o Hk. specialize (H (k, o)). simpl in H.
    assert (In (k, o) (imap pair prefix)) as Hin.
    { apply list_elem_of_In, list_elem_of_lookup. exists k. rewrite list_lookup_imap, Hk. done. }
    specialize (H Hin). destruct (messages !! k) as [o'|]; [|done]. exists o'.
    split; [done|]. by apply Nat.eqb_eq.
  - intros H [k o] [i Hi]%list_elem_of_In%list_elem_of_lookup.
    rewrite list_lookup_imap in Hi. destruct (prefix !! i) as [x|] eqn:Hx; [|done].
    simpl in Hi. injection Hi as -> ->. destruct (H _ _ Hx) as (o' & -> & Ho). by apply Nat.eqb_eq.
Qed.

Lemma same_objects_app prefix rest : same_objects prefix (prefix ++ rest) = true.
Proof.
  apply same_objects_spec. intros k o Hk. exists o. by rewrite (lookup_app_l_Some _ _ _ _ Hk).
Qed.

(** ** The state machine *)

Section machine.
Context (SOCIAL_SUMMARIZE_PROMPT SUMMARIZE_TAIL_REMINDER : jstring).
Context (JSON_stringify : ChatMessage → jstring) (sha256_hex : jstring → string).
Context (opts : CompactorOpts).

Abbreviation start := (start SOCIAL_SUMMARIZE_PROMPT SUMMARIZE_TAIL_REMINDER JSON_stringify sha256_hex opts).
Abbreviation applyCompaction := (applyCompaction JSON_stringify sha256_hex).
Abbreviation fingerprint := (prefixFingerprint JSON_stringify sha256_hex).
Abbreviation validate := (validateInput SOCIAL_SUMMARIZE_PROMPT opts).
Abbreviation text := (summaryInput SUMMARIZE_TAIL_REMINDER opts).

Definition settle_all (l : list (nat * Guarded.settlement)) (c : compactor) : compactor :=
  foldl (λ c '(k, r), settle k r c) c l.

(** Settlements never touch what a start froze. *)
Definition frozen (c : compactor) : nat * nat * list obj * string :=
  (boundaryIndex c, startedLength c, frozenPrefix c, frozenPrefixFingerprint c).

Lemma settle_frozen k r c : frozen (settle k r c) = frozen c.
Proof. unfold settle, frozen. by destruct (Guarded.settle _ _ _ _) as [[]]. Qed.
Lemma settle_all_frozen l c : frozen (settle_all l c) = frozen c.
Proof.
  revert c. induction l as [|[k r] l IH]; intros c; simpl; [done|].
  by rewrite IH, settle_frozen.
Qed.

(** The state of a cycle: a result, if there is one, is long enough, and the
    call of this epoch, if one is in flight, will only deliver such a result. *)
Record cycle (floor : nat) (c : compactor) : Prop := {
  c_inv : GuardedFacts.inv retries (summarizer c);
  c_floor : ∀ k j, Guarded.jobs (summarizer c) !! k = Some j →
    Guarded.j_epoch j = Guarded.epoch (summarizer c) → Guarded.j_minChars j = floor;
  c_result : ∀ s, resultSummary c = Some s →
    floor ≤ length s ∧ Guarded.running (summarizer c) = false;
}.

Lemma settle_summarizer k r c :
  summarizer (settle k r c) = (Guarded.settle retries k r (summarizer c)).2.
Proof. unfold settle. by destruct (Guarded.settle _ _ _ _) as [[]]. Qed.

Lemma settle_epoch k r s : Guarded.epoch (Guarded.settle retries k r s).2 = Guarded.epoch s.
Proof.
  unfold Guarded.settle, Guarded.next_attempt.
  repeat (case_match; simpl; try done).
Qed.

Lemma settle_jobs k r s k' j :
  Guarded.jobs (Guarded.settle retries k r s).2 !! k' = Some j →
  ∃ j0, Guarded.jobs s !! k' = Some j0 ∧ Guarded.j_epoch j = Guarded.j_epoch j0
        ∧ Guarded.j_minChars j = Guarded.j_minChars j0.
Proof.
  unfold Guarded.settle. destruct (Guarded.jobs s !! k) as [j1|] eqn:Hk; [|by eauto].
  assert (∀ e, Guarded.jobs (Guarded.next_attempt retries k j1 e s) !! k' = Some j →
    ∃ j0, Guarded.jobs s !! k' = Some j0 ∧ Guarded.j_epoch j = Guarded.j_epoch j0
        ∧ Guarded.j_minChars j = Guarded.j_minChars j0) as Hnext.
  { intros e. unfold Guarded.next_attempt. case_match; simpl.
    - rewrite lookup_insert_Some. intros [[<- <-]|[_ ?]]; eauto.
    - intros [_ ?]%lookup_delete_Some. eauto. }
  destruct (Nat.eqb _ _); [destruct r; [destruct (Nat.ltb _ _)|]|]; simpl; try apply Hnext.
  all: intros [_ ?]%lookup_delete_Some; eauto.
Qed.

Lemma settle_running k r s :
  Guarded.running s = false →
  GuardedFacts.inv retries s →
  Guarded.running (Guarded.settle retries k r s).2 = false
  ∧ (Guarded.settle retries k r s).1 = None.
Proof.
  intros Hr Hs. destruct (GuardedFacts.settle_stale retries k r s) as (H1 & H2 & _).
  { intros j Hj He. assert (Guarded.running s = true); [|congruence].
    apply (GuardedFacts.g_running _ _ Hs). eauto. }
  by rewrite H2.
Qed.

Lemma settle_cycle floor k r c : cycle floor c → cycle floor (settle k r c).
Proof.
  intros [H1 H2 H3]. split; rewrite ?settle_summarizer.
  - by apply GuardedFacts.settle_inv.
  - rewrite settle_epoch. intros k' j (j0 & Hj & He & Hm)%settle_jobs Hepoch.
    rewrite Hm. apply (H2 k' j0 Hj). congruence.
  - unfold settle. destruct (Guarded.settle retries k r (summarizer c)) as [[summary|] s] eqn:E;
      simpl; intros t Ht.
    + simplify_eq. apply GuardedFacts.settle_delivers in E as (j & Hj & He & _ & Hl & Hr).
      by rewrite <- (H2 k j Hj He).
    + destruct (H3 t Ht) as [Hl Hr]. split; [done|].
      destruct (settle_running k r _ Hr H1) as [Hr' _]. by rewrite E in Hr'.
Qed.

Lemma settle_all_cycle floor l c : cycle floor c → cycle floor (settle_all l c).
Proof.
  revert c. induction l as [|[k r] l IH]; intros c Hc; simpl; [done|].
  by apply IH, settle_cycle.
Qed.

(** What [start] does, on each of its four branches. *)
Lemma start_cases ratio messages c :
  let ms := map val messages in
  let b := boundary_of opts ratio ms in
  (Guarded.running (summarizer c) = true ∧ start ratio messages c = (busy, c))
  ∨ (Guarded.running (summarizer c) = false ∧ foldSlice ms b = []
     ∧ start ratio messages c = (skipped, set_boundary 0 c))
  ∨ (Guarded.running (summarizer c) = false ∧ foldSlice ms b ≠ []
     ∧ ∃ e, validate (text ms b) = Some e
        ∧ start ratio messages c
          = (rejected e, mkCompactor b (length messages) (take b messages) (fingerprint ms b) None
               (Guarded.set_error (Some (Guarded.NotAdmitted e)) (summarizer c))))
  ∨ (Guarded.running (summarizer c) = false ∧ foldSlice ms b ≠ []
     ∧ validate (text ms b) = None
     ∧ start ratio messages c
       = (started, mkCompactor b (length messages) (take b messages) (fingerprint ms b) None
            (Guarded.mkState true None (Guarded.epoch (summarizer c))
               (<[ Guarded.started (summarizer c) :=
                     Guarded.mkJob (Guarded.epoch (summarizer c)) 1 (minChars ms b) ]>
                  (Guarded.jobs (summarizer c)))
               (S (Guarded.started (summarizer c)))))).
Proof.
  intros ms b. unfold Compactor.start. fold ms. fold b.
  destruct (Guarded.running (summarizer c)) eqn:Hr; [by left|]. right.
  destruct (foldSlice ms b) as [|m rest] eqn:Hf; [by left|]. right.
  unfold Guarded.start. rewrite Hr.
  destruct (validate (text ms b)) as [e|] eqn:Hv; [left; by eauto|by right].
Qed.
End machine.
