(* ===== verification/CompactorTheorems.v ===== *)
(** * The compaction theorems

    Statements about src/llm/compactor.ts and src/llm/summarize.ts over any
    interleaving of settlements of summarize calls, with their witnesses. *)

From Stdlib Require Import QArith Qround.
From S2P Require Import Prelude JsString Messages ContextMeter Summarize Compactor CompactorFacts.
Local Open Scope nat_scope.
Local Open Scope list_scope.

Section theorems.
Context (SOCIAL_SUMMARIZE_PROMPT SUMMARIZE_TAIL_REMINDER : jstring).
Context (JSON_stringify : ChatMessage → jstring) (sha256_hex : jstring → string).
Context (opts : CompactorOpts).

Abbreviation start := (start SOCIAL_SUMMARIZE_PROMPT SUMMARIZE_TAIL_REMINDER JSON_stringify sha256_hex opts).
Abbreviation applyCompaction := (applyCompaction JSON_stringify sha256_hex).

Lemma started_cycle ratio messages c c1 :
  GuardedFacts.inv retries (summarizer c) →
  start ratio messages c = (started, c1) →
  let ms := map val messages in
  let b := boundary_of opts ratio ms in
  cycle (minChars ms b) c1
  ∧ frozen c1 = (b, length messages, take b messages,
                 prefixFingerprint JSON_stringify sha256_hex ms b)
  ∧ foldSlice ms b ≠ [].
Proof.
  intros Hinv Hs ms b.
  destruct (start_cases SOCIAL_SUMMARIZE_PROMPT SUMMARIZE_TAIL_REMINDER JSON_stringify sha256_hex
    opts ratio messages c) as [[_ E]|[(_ & _ & E)|[(_ & _ & e & _ & E)|(Hr & Hf & Hv & E)]]];
    rewrite E in Hs; simplify_eq.
  split_and!; [|done|done].
  pose proof (GuardedFacts.start_inv retries
    (validateInput SOCIAL_SUMMARIZE_PROMPT opts)
    (summaryInput SUMMARIZE_TAIL_REMINDER opts ms b) (minChars ms b) _ Hinv) as Hi.
  unfold Guarded.start in Hi. fold ms b in Hv. rewrite Hr, Hv in Hi.
  split; [exact Hi| |done]. simpl. intros k j Hk He.
  apply lookup_insert_Some in Hk as [[_ <-]|[_ Hk]]; [done|].
  assert (Guarded.running (summarizer c) = true); [|congruence].
  apply (GuardedFacts.g_running _ _ Hinv). eauto.
Qed.

Lemma boundary_le ratio messages : boundary_of opts ratio messages ≤ length messages.
Proof.
  unfold boundary_of. apply enforce_spec. unfold walkKeepBoundary.
  pose proof (walk_from_spec messages (keepTokens opts) ratio (length messages) 0) as H.
  destruct H as (? & _ & _); [done|by unfold tail_tokens; rewrite drop_all|intros; lia|lia].
Qed.

(** The summary of a settlement, when it is long enough, and of the first such one. *)
Definition good (floor : nat) (r : Guarded.settlement) : option jstring :=
  match r with
  | Guarded.Resolved s => if Nat.leb floor (length s) then Some s else None
  | Guarded.Threw _ => None
  end.
Fixpoint first_good (floor : nat) (rs : list Guarded.settlement) : option jstring :=
  match rs with
  | [] => None
  | r :: rs => match good floor r with Some s => Some s | None => first_good floor rs end
  end.
(** What the [n]-th attempt leaves in [lastError] when it is not good. *)
Definition failure_of (floor n : nat) (r : Guarded.settlement) : Guarded.failure :=
  match r with
  | Guarded.Resolved s => Guarded.TooShort (length s) floor n
  | Guarded.Threw message => Guarded.AttemptFailed message
  end.

Lemma settle_good k e floor n r s c :
  Guarded.epoch (summarizer c) = e →
  Guarded.jobs (summarizer c) !! k = Some (Guarded.mkJob e n floor) → good floor r = Some s →
  let c' := settle k r c in
  resultSummary c' = Some s ∧ Guarded.running (summarizer c') = false
  ∧ Guarded.lastError (summarizer c') = None ∧ Guarded.jobs (summarizer c') !! k = None.
Proof.
  intros He Hk Hg c'. subst c'. unfold settle, Guarded.settle. rewrite Hk, <- He. simpl.
  rewrite Nat.eqb_refl. destruct r as [t|]; [|done]. simpl in Hg.
  destruct (Nat.leb_spec floor (length t)); [|done]. injection Hg as ->.
  destruct (Nat.ltb_spec (length s) floor); [lia|]. simpl.
  split_and!; [done..|apply lookup_delete_eq].
Qed.

Lemma settle_bad k e floor n r c :
  Guarded.epoch (summarizer c) = e →
  Guarded.jobs (summarizer c) !! k = Some (Guarded.mkJob e n floor) → good floor r = None →
  let c' := settle k r c in
  resultSummary c' = resultSummary c ∧ Guarded.epoch (summarizer c') = e
  ∧ Guarded.lastError (summarizer c') = Some (failure_of floor n r)
  ∧ if Nat.ltb n retries
    then Guarded.jobs (summarizer c') !! k = Some (Guarded.mkJob e (S n) floor)
         ∧ Guarded.running (summarizer c') = Guarded.running (summarizer c)
    else Guarded.jobs (summarizer c') !! k = None ∧ Guarded.running (summarizer c') = false.
Proof.
  intros He Hk Hg c'. subst c'. unfold settle, Guarded.settle. rewrite Hk, <- He. simpl.
  rewrite Nat.eqb_refl. unfold Guarded.next_attempt. cbn [Guarded.j_attempts Guarded.j_epoch
    Guarded.j_minChars].
  assert (∀ s, r = Guarded.Resolved s → Nat.ltb (length s) floor = true) as Hs.
  { intros s ->. simpl in Hg. destruct (Nat.leb_spec floor (length s)); [done|]. by apply Nat.ltb_lt. }
  destruct r as [s|]; [rewrite Hs by done|]; destruct (Nat.ltb n retries); simpl;
    rewrite ?lookup_insert_eq, ?lookup_delete_eq; auto.
Qed.

Lemma settle_absent k r c :
  Guarded.jobs (summarizer c) !! k = None → settle k r c = c.
Proof. intros Hk. unfold settle, Guarded.settle. rewrite Hk. by destruct c. Qed.
Lemma settle_all_absent k rs c :
  Guarded.jobs (summarizer c) !! k = None → settle_all (map (pair k) rs) c = c.
Proof. intros Hk. induction rs as [|r rs IH]; [done|]. unfold settle_all in *. simpl. by rewrite settle_absent. Qed.

(** The settlements of a call that waits for its [n]-th attempt. *)
Lemma own_settlements k e floor n left rs c :
  n + left = S retries → 0 < left →
  Guarded.epoch (summarizer c) = e → resultSummary c = None → Guarded.running (summarizer c) = true →
  Guarded.jobs (summarizer c) !! k = Some (Guarded.mkJob e n floor) →
  let c2 := settle_all (map (pair k) rs) c in
  let heard := take left rs in
  Guarded.running (summarizer c2) = bool_decide (first_good floor heard = None) && Nat.ltb (length rs) left
  ∧ resultSummary c2 = first_good floor heard
  ∧ Guarded.lastError (summarizer c2)
    = match first_good floor heard, last heard with
      | Some _, _ => None
      | None, Some r => Some (failure_of floor (n + length heard - 1) r)
      | None, None => Guarded.lastError (summarizer c)
      end.
Proof.
  revert n left c. induction rs as [|r rs IH]; intros n left c Hn Hl He Hres Hrun Hk.
  { simpl. rewrite take_nil. simpl. by destruct left; [lia|]. }
  destruct left as [|left]; [lia|]. unfold settle_all. cbn [map foldl take]. fold (settle_all (map (pair k) rs) (settle k r c)).
  cbn [first_good]. destruct (good floor r) as [s|] eqn:Hg.
  { destruct (settle_good _ _ _ _ _ _ _ He Hk Hg) as (H1 & H2 & H3 & H4). by rewrite settle_all_absent. }
  destruct (settle_bad _ _ _ _ _ _ He Hk Hg) as (H1 & H2 & H3 & H4). rewrite last_cons. cbn [length].
  destruct (Nat.ltb_spec n retries).
  - destruct H4 as [H4 H5]. destruct (IH (S n) left (settle k r c)) as (I1 & I2 & I3); [lia|lia|done|congruence..|done|].
    rewrite I1, I2, I3. split_and!; [by destruct left|done|].
    destruct (first_good floor (take left rs)); [done|]. destruct (last (take left rs)) eqn:Hlast.
    + f_equal. f_equal. lia.
    + rewrite H3. destruct (take left rs) as [|x l] eqn:Ht; [|by rewrite last_cons in Hlast; destruct (last l)].
      simpl. f_equal. f_equal. lia.
  - assert (left = 0) as -> by lia. destruct H4 as [H4 H5]. rewrite settle_all_absent by done. simpl.
    rewrite H1, H3, H5. split_and!; [done..|]. f_equal. f_equal. lia.
Qed.

(** The verbatim tail starts at the newest message from which the rest
    is estimated to fill the keep budget (or at the start, when nothing
    does), moved forward only over tool results, never past the end; and in a
    history whose tool results follow their calls, the tail keeps every tool
    result together with its call. *)
Theorem boundary_exact (messages : list ChatMessage) ratio :
  let walked := walkKeepBoundary messages (keepTokens opts) ratio in
  let b := boundary_of opts ratio messages in
  (walked = 0 ∨ (keepTokens opts ≤ tail_tokens messages ratio walked)%Z)
  ∧ (∀ j, walked < j < length messages → (tail_tokens messages ratio j < keepTokens opts)%Z)
  ∧ walked ≤ b ≤ length messages
  ∧ (∀ k m, walked ≤ k < b → messages !! k = Some m → role m = tool)
  ∧ (paired messages → paired (drop b messages)).
Proof.
  intros walked b.
  pose proof (walk_from_spec messages (keepTokens opts) ratio (length messages) 0) as H.
  destruct H as (H1 & H2 & H3); [done|by unfold tail_tokens; rewrite drop_all|intros; lia|].
  fold (walkKeepBoundary messages (keepTokens opts) ratio) in H1, H2, H3. fold walked in H1, H2, H3.
  destruct (enforce_spec messages walked H1) as (H4 & H5 & H6).
  change (enforcePairIntegrity messages walked) with b in H4, H5, H6.
  split; [destruct H2 as [?|[? _]]; [by left|by right]|].
  split_and!; try done; try lia.
  - intros Hp. by apply paired_drop.
Qed.

(** [m'] is [m] with its body replaced by the eviction notice. *)
Definition body_removed (m m' : ChatMessage) : Prop :=
  content m' = CONTEXT_RESOURCE_EVICTED ∧ contextResources m' = []
  ∧ role m' = role m ∧ reasoning_content m' = reasoning_content m ∧ reasoning_items m' = reasoning_items m
  ∧ thinking_blocks m' = thinking_blocks m ∧ tool_calls m' = tool_calls m ∧ tool_call_id m' = tool_call_id m
  ∧ channel m' = channel m ∧ personContext m' = personContext m.
(** An element of the old history, and what it becomes: the same object, or, when it
    carries context resources, a new object without its body. *)
Definition survives (lo hi : nat) (o o' : obj) : Prop :=
  contextResources (val o) = [] ∧ o' = o
  ∨ contextResources (val o) ≠ [] ∧ body_removed (val o) (val o') ∧ lo ≤ oid o' < hi.
Lemma evict_survives next l :
  let '(next', l') := evictContextResourceBodies next l in Forall2 (survives next next') l l'.
Proof.
  pose proof (evict_spec next l) as H. destruct (evictContextResourceBodies next l) as [next' l'].
  destruct H as (_ & Hlen & H). apply Forall2_same_length_lookup. split; [done|].
  intros k o o' Ho Ho'. destruct (H k o Ho) as (x & Hx & Hcase). rewrite Ho' in Hx. injection Hx as <-.
  unfold has_resources in Hcase. destruct Hcase as [[Hr ->]|(Hr & Hv & Hid)].
  - left. split; [|done]. by destruct (contextResources (val o)).
  - right. split_and!; [by destruct (contextResources (val o))| |lia..]. rewrite Hv. by unfold body_removed.
Qed.

(** C16. A finished cycle swaps in exactly what it promised.  For a compactor in any
    state its operations keep ([GuardedFacts.inv], which holds of a new one and is kept
    by starting, settling and resetting): whatever became of the history since the
    cycle started, as long as its frozen prefix (the [b] messages to
    be folded) is the same, and however the summarize calls settled, applying the
    result yields the summary, then the messages of the starting history's length
    after the prefix in order - the same objects, except that each one that carries
    context resources becomes a new object whose body is the eviction notice, with no
    resources and every other field kept - then everything after them, untouched,
    then the compaction notice; the summary is at least as long as the quality floor,
    and the tracker counts the new history. *)
Theorem compaction_keeps_tail ratio messages c c1 settlements summary current next d t :
  GuardedFacts.inv retries (summarizer c) →
  start ratio messages c = (started, c1) →
  let c2 := settle_all settlements c1 in
  resultSummary c2 = Some summary →
  let ms := map val messages in
  let b := boundary_of opts ratio ms in
  take b current = take b messages →
  ∃ next' old,
    let new := mkObj next (summaryMessage summary b) :: (old ++ drop (length messages) current)
                 ++ [mkObj (S next) (compactionNotice b)] in
    applyCompaction d current next t c2
      = (new, next', Tracker.recompute d (map val new) t, idle (summarizer c2))
    ∧ Forall2 (survives (S (S next)) next') (drop b (take (length messages) current)) old
    ∧ Nat.min SUMMARY_FLOOR_CAP (SUMMARY_FLOOR_PER_MESSAGE * length (foldSlice ms b))
      ≤ length summary.
Proof.
  intros Hinv Hs c2 Hres ms b Hsame.
  destruct (started_cycle _ _ _ _ Hinv Hs) as (Hc & Hfro & _). fold ms b in Hc, Hfro.
  pose proof (settle_all_cycle _ settlements _ Hc) as Hc2.
  rewrite <- (settle_all_frozen settlements c1) in Hfro. fold c2 in Hc2, Hfro.
  unfold frozen in Hfro. injection Hfro as Hb Hl Hp Hfp.
  pose proof (boundary_le ratio ms) as Hle. fold b in Hle.
  assert (length ms = length messages) as Hlen by (unfold ms; by rewrite length_map).
  assert (prefixMatches JSON_stringify sha256_hex current c2 = true) as Hm.
  { unfold prefixMatches. rewrite Hb, Hp, Hfp, length_take, !andb_true_iff. split_and!.
    - apply Nat.eqb_eq. lia.
    - rewrite <- Hsame. rewrite <- (take_drop b current) at 2. apply same_objects_app.
    - apply String.eqb_eq. unfold prefixFingerprint, ms. by rewrite !firstn_map, Hsame. }
  assert (take (Nat.min (length messages) (length current)) current = take (length messages) current
          ∧ drop (Nat.min (length messages) (length current)) current = drop (length messages) current) as [Ht Hd].
  { destruct (Nat.min_spec (length messages) (length current)) as [[? ->]|[? ->]]; [done|].
    rewrite !firstn_all2, !skipn_all2 by lia. done. }
  pose proof (evict_survives (S (S next)) (drop b (take (length messages) current))) as He.
  destruct (evictContextResourceBodies _ _) as [next' old] eqn:Hev. exists next', old. split_and!; [|done|by apply (c_result _ _ Hc2)].
  unfold Compactor.applyCompaction. rewrite Hres, Hm, Hl, Hb. cbv zeta. by rewrite Ht, Hd, Hev.
Qed.

(** A cycle whose frozen prefix was touched is discarded: if some frozen
    message is gone or is another object, or the content of the prefix
    fingerprints differently, applying the result returns the history as it
    is, and the compactor is idle. *)
Theorem compaction_discards ratio messages c c1 settlements messages' next d t :
  GuardedFacts.inv retries (summarizer c) →
  start ratio messages c = (started, c1) →
  let c2 := settle_all settlements c1 in
  is_Some (resultSummary c2) →
  let ms := map val messages in
  let b := boundary_of opts ratio ms in
  (∃ k o, k < b ∧ messages !! k = Some o ∧ ∀ o', messages' !! k = Some o' → oid o' ≠ oid o)
  ∨ prefixFingerprint JSON_stringify sha256_hex (map val messages') b
    ≠ prefixFingerprint JSON_stringify sha256_hex ms b →
  applyCompaction d messages' next t c2 = (messages', next, t, idle (summarizer c2)).
Proof.
  intros Hinv Hs c2 [summary Hres] ms b Hchanged.
  destruct (started_cycle _ _ _ _ Hinv Hs) as (_ & Hfro & _). fold ms b in Hfro.
  rewrite <- (settle_all_frozen settlements c1) in Hfro. fold c2 in Hfro.
  unfold frozen in Hfro. injection Hfro as Hb Hl Hp Hfp.
  unfold Compactor.applyCompaction. rewrite Hres.
  destruct (prefixMatches JSON_stringify sha256_hex messages' c2) eqn:Hm; [exfalso|done].
  unfold prefixMatches in Hm. rewrite Hb, Hp, Hfp in Hm. guards.
  destruct Hchanged as [(k & o & Hk & Ho & Hne)|Hne]; [|by apply Hne].
  match goal with H : same_objects _ _ = true |- _ => rewrite same_objects_spec in H;
    destruct (H k o) as (o' & Ho' & Heq) end; [by rewrite lookup_take_lt|].
  by apply (Hne o').
Qed.

(** Clearing the context drops a cycle for good: however the calls in
    flight settle afterwards, no result appears, nothing is running, and
    applying leaves any history as it is. *)
Theorem reset_discards c settlements d t messages next :
  GuardedFacts.inv retries (summarizer c) →
  let c2 := settle_all settlements (reset d t c).2 in
  resultSummary c2 = None ∧ Guarded.running (summarizer c2) = false
  ∧ (applyCompaction d messages next t c2).1.1.1 = messages.
Proof.
  intros Hinv c2.
  assert (∀ c0, GuardedFacts.inv retries (summarizer c0) → Guarded.running (summarizer c0) = false →
    resultSummary c0 = None →
    resultSummary (settle_all settlements c0) = None
    ∧ Guarded.running (summarizer (settle_all settlements c0)) = false) as Hinert.
  { induction settlements as [|[k r] l IH]; intros c0 H1 H2 H3; simpl; [done|].
    destruct (settle_running k r _ H2 H1) as [H4 H5].
    apply IH; rewrite ?settle_summarizer; [by apply GuardedFacts.settle_inv|done|].
    unfold settle. destruct (Guarded.settle _ _ _ _) as [[|]]; simpl in *; [done|done]. }
  destruct (Hinert (reset d t c).2) as [H1 H2]; [|done|done|].
  { simpl. by apply GuardedFacts.reset_inv. }
  split_and!; [done|done|]. unfold Compactor.applyCompaction. fold c2 in H1. by rewrite H1.
Qed.

(** C17. A cycle ends, with its result or with an error: however the settlements
    [rs] of its own call come in, at most the first three count; the background work
    is running exactly while fewer than three came and none was good, that is,
    resolved to a summary of at least the floor; the result is the first good
    summary, or none; and the error is cleared by a good summary and otherwise
    records the last attempt - the message it threw, or how short it was, with the
    floor and the number of the attempt. *)
Theorem cycle_ends ratio messages c c1 rs :
  start ratio messages c = (started, c1) →
  let k := Guarded.started (summarizer c) in
  let floor := minChars (map val messages) (boundary_of opts ratio (map val messages)) in
  let c2 := settle_all (map (pair k) rs) c1 in
  let heard := take 3 rs in
  Guarded.running (summarizer c2) = bool_decide (first_good floor heard = None) && Nat.ltb (length rs) 3
  ∧ resultSummary c2 = first_good floor heard
  ∧ Guarded.lastError (summarizer c2)
    = match first_good floor heard, last heard with
      | None, Some r => Some (failure_of floor (length heard) r)
      | _, _ => None
      end.
Proof.
  intros Hs k floor c2 heard.
  destruct (start_cases SOCIAL_SUMMARIZE_PROMPT SUMMARIZE_TAIL_REMINDER JSON_stringify sha256_hex
    opts ratio messages c) as [[_ E]|[(_ & _ & E)|[(_ & _ & e & _ & E)|(Hr & Hf & Hv & E)]]];
    rewrite E in Hs; simplify_eq.
  match eval unfold c2 in c2 with settle_all _ ?c1 =>
    destruct (own_settlements k (Guarded.epoch (summarizer c)) floor 1 3 rs c1) as (H1 & H2 & H3) end;
    [done|lia|done|done|done|simpl; by rewrite lookup_insert_eq|].
  split_and!; [exact H1|exact H2|]. etrans; [exact H3|]. fold heard. simpl. rewrite Nat.sub_0_r.
  destruct (first_good floor heard), (last heard); done.
Qed.

(** With a summary budget configured, a cycle is admitted only when the
    estimated prompt, input, framing and output reserve fit the model's
    window; a rejected or skipped cycle makes no summarize call, and a busy
    compactor is left exactly as it was. *)
Theorem admission_exact ratio messages c r c1 budget :
  summaryInputBudget opts = Some budget →
  start ratio messages c = (r, c1) →
  let input := summaryInput SUMMARIZE_TAIL_REMINDER opts (map val messages)
                 (boundary_of opts ratio (map val messages)) in
  match r with
  | started =>
      Guarded.running (summarizer c) = false ∧ Guarded.running (summarizer c1) = true
      ∧ ∃ sys usr, estimateTokens budget SOCIAL_SUMMARIZE_PROMPT = Some sys
          ∧ estimateTokens budget input = Some usr ∧ (0 <= sys)%Q ∧ (0 <= usr)%Q
          ∧ (sys + usr + default 0 (framingTokens budget)
             + default 0 (outputReserveTokens budget)
             <= default 0 (contextWindowTokens budget))%Q
  | rejected _ | skipped =>
      Guarded.running (summarizer c1) = false
      ∧ Guarded.jobs (summarizer c1) = Guarded.jobs (summarizer c)
  | busy => Guarded.running (summarizer c) = true ∧ c1 = c
  end.
Proof.
  intros Hb Hs input.
  destruct (start_cases SOCIAL_SUMMARIZE_PROMPT SUMMARIZE_TAIL_REMINDER JSON_stringify sha256_hex
    opts ratio messages c) as [[Hr E]|[(Hr & _ & E)|[(Hr & _ & e & _ & E)|(Hr & Hf & Hv & E)]]];
    rewrite E in Hs; injection Hs as <- <-; try done.
  split_and!; [done|done|]. fold input in Hv. unfold validateInput in Hv. rewrite Hb in Hv.
  destruct (estimateTokens budget SOCIAL_SUMMARIZE_PROMPT) as [sys|]; [|done].
  destruct (estimateTokens budget input) as [usr|]; [|done].
  destruct (_ && _) eqn:Hpos; [|done]. destruct (Qle_bool _ _) eqn:Hle in Hv; [|done].
  guards. exists sys, usr. split_and!; try done; by apply Qle_bool_iff.
Qed.
End theorems.

(** A serialized history never exceeds its cap by more than the truncation
    note, and what a truncation drops is the oldest text: the result ends with
    the newest [n] code units.  Within it, a capped field takes at most its
    byte budget (or is just the note saying how much was cut). *)
Theorem serialization_bounded ms contentCap codeCap n str maxBytes :
  0 < n →
  length (serializeHistory ms contentCap codeCap n) ≤ n + length truncation_note
  ∧ (let text := join newline (map (serializeMessage contentCap codeCap) ms) in
     ∃ dropped kept, text = dropped ++ kept
       ∧ (serializeHistory ms contentCap codeCap n = kept ∧ dropped = []
          ∨ serializeHistory ms contentCap codeCap n = truncation_note ++ kept ∧ length kept = n))
  ∧ (byteLength (cap str maxBytes) ≤ maxBytes ∨ ∃ k, cap str maxBytes = cap_suffix k).
Proof.
  intros Hn. split_and!.
  - by apply serializeHistory_bound.
  - by apply serializeHistory_suffix.
  - apply cap_within.
Qed.

(** The calibrated density stays within 2 and 6 characters per token
    whatever the database held and whatever usage is observed; an established
    ratio moves by at most 0.4 per sample; and an accepted sample that was
    written is what a restart loads. *)
Theorem density_calibrated persisted l w chars prompt :
  let m := Density.observe_all l (Density.create persisted) in
  let m' := Density.observe w chars prompt m in
  (Density.MIN_RATIO <= Density.ratio m /\ Density.ratio m <= Density.MAX_RATIO)%Q
  ∧ (0 <= Density.estimate m chars)%Z
  ∧ (~ (Density.samples m == 0)%Q →
     (Qabs.Qabs (Density.ratio m' - Density.ratio m) <= 4 # 10)%Q)
  ∧ (w = true → m' ≠ m →
     (Density.ratio (Density.create (Density.row m')) == Density.ratio m'
      /\ Density.samples (Density.create (Density.row m')) == Density.samples m')%Q).
Proof.
  intros m m'. pose proof (Density.create_range persisted) as Hr.
  apply (Density.observe_all_range l) in Hr. fold m in Hr.
  assert (Density.counted m) as Hc by (apply Density.observe_all_counted, Density.create_counted).
  split_and!; [apply Hr|apply Hr|by apply Density.estimate_nonneg|..].
  - intros Hs. eapply Qle_trans; [by apply Density.observe_step|]. discriminate.
  - intros -> Hne. by apply Density.reload.
Qed.

(** The cache accounting is the sum over the turns since the last reset:
    totals are the covered and fresh prompt tokens of the turns that reported
    cache data, every turn is counted, each flagged bust lost at least 2048
    tokens, and the verdict on the next turn compares it with the turn just
    before, if that one reported - never across an unsupported turn, a
    rebaseline or a reset. *)
Theorem cache_accounting l u cached :
  let s := foldl CacheStats.exec CacheStats.create l in
  let '(verdict, s') := CacheStats.record u s in
  CacheStats.accounts (CacheStats.log l) s
  ∧ (CacheStats.cached_tokens u = None → verdict = (false, 0%Z))
  ∧ (CacheStats.cached_tokens u = Some cached →
     verdict.1 = bool_decide (2048 ≤ verdict.2)%Z
     ∧ verdict.2 = match CacheStats.baseline (CacheStats.log l) with
                   | Some prev => Z.max 0 (Z.min prev (CacheStats.prompt_tokens u)
                                           - CacheStats.covered u)
                   | None => 0%Z
                   end).
Proof.
  intros s. pose proof (CacheStats.run_accounts l) as Ha. fold s in Ha.
  destruct (CacheStats.record u s) as [verdict s'] eqn:Hr. unfold CacheStats.record in Hr.
  split_and!; [done|..].
  - intros Hc. rewrite Hc in Hr. by simplify_eq.
  - intros Hc. rewrite Hc, (CacheStats.a_prev _ _ Ha) in Hr. injection Hr as <- <-. cbn [fst snd].
    unfold CacheStats.covered. rewrite Hc. split; [|done].
    apply eq_bool_prop_intro. rewrite bool_decide_spec, Is_true_true. apply Z.leb_le.
Qed.

(** ** Witnesses *)

Module Sample.
Definition budget : SummaryInputBudget :=
  {| contextWindowTokens := Some 1000%Q; outputReserveTokens := Some 100%Q;
     framingTokens := Some 10%Q; estimateTokens := λ s, Some (inject_Z (jlen s) / 4)%Q |}.
Definition opts : CompactorOpts :=
  {| keepTokens := 1; foldSerializeCap := 1000; summaryInputBudget := Some budget |}.
Definition json (m : ChatMessage) : jstring := content m.
Definition digest (s : jstring) : string := "".
Definition messages : list obj :=
  [mkObj 0 (plain user (lit "hello")); mkObj 1 (plain assistant (lit "hi"));
   mkObj 2 (plain user (lit "what now?"))].
Definition prompt : jstring := lit "summarize".
Definition reminder : jstring := lit "now write".
Definition fresh : compactor := idle Guarded.initial.
Definition long : jstring := lit "they said hello and hi to each other".
Definition cycle1 : start_result * compactor := start prompt reminder json digest opts 4 messages fresh.
Definition running1 : compactor := cycle1.2.
Definition replies : list (nat * Guarded.settlement) :=
  [(0, Guarded.Threw (lit "timeout")); (0, Guarded.Resolved long)].
Lemma started1 : start prompt reminder json digest opts 4 messages fresh = (started, running1).
Proof. vm_compute. reflexivity. Qed.
Lemma result1 : resultSummary (settle_all replies running1) = Some long.
Proof. vm_compute. reflexivity. Qed.
End Sample.

(** A message with a resource was swapped in after the prefix. *)
Definition with_resource : obj :=
  mkObj 7 (mkMessage user (lit "a page") None [] [] [] None None None ["page"%string]).
Lemma compaction_keeps_tail_witness :
  ∃ next' old,
    (applyCompaction Sample.json Sample.digest (Density.create None)
       (take 2 Sample.messages ++ [with_resource; mkObj 9 (plain user (lit "later"))]) 10 (Tracker.create 1000 100)
       (settle_all Sample.replies Sample.running1)).1.1.1
    = mkObj 10 (summaryMessage Sample.long 2) :: (old ++ [mkObj 9 (plain user (lit "later"))])
        ++ [mkObj 11 (compactionNotice 2)]
    ∧ Forall2 (survives 12 next') [with_resource] old.
Proof.
  destruct (compaction_keeps_tail Sample.prompt Sample.reminder Sample.json Sample.digest Sample.opts 4
    Sample.messages Sample.fresh Sample.running1 Sample.replies Sample.long
    (take 2 Sample.messages ++ [with_resource; mkObj 9 (plain user (lit "later"))]) 10 (Density.create None)
    (Tracker.create 1000 100) (GuardedFacts.initial_inv retries) Sample.started1 Sample.result1)
    as (next' & old & H & H' & _); [vm_compute; reflexivity|].
  exists next', old. rewrite H. split; [reflexivity|exact H'].
Defined.

Lemma compaction_discards_witness :
  (applyCompaction Sample.json Sample.digest (Density.create None) [] 10 (Tracker.create 1000 100)
     (settle_all Sample.replies Sample.running1)).1.1.1 = [].
Proof.
  rewrite (compaction_discards Sample.prompt Sample.reminder Sample.json Sample.digest Sample.opts 4
    Sample.messages Sample.fresh Sample.running1 Sample.replies [] 10 (Density.create None)
    (Tracker.create 1000 100) (GuardedFacts.initial_inv retries) Sample.started1).
  - reflexivity.
  - exists Sample.long. exact Sample.result1.
  - left. exists 0, (mkObj 0 (plain user (lit "hello"))). split; [vm_compute; lia|].
    split; [reflexivity|discriminate].
Defined.

Lemma reset_discards_witness :
  resultSummary (settle_all Sample.replies
    (reset (Density.create None) (Tracker.create 1000 100) Sample.fresh).2) = None.
Proof.
  apply (reset_discards Sample.json Sample.digest Sample.fresh Sample.replies (Density.create None)
    (Tracker.create 1000 100) [] 0 (GuardedFacts.initial_inv retries)).
Defined.

Lemma cycle_ends_witness :
  resultSummary (settle_all (map (pair 0)
    [Guarded.Threw (lit "timeout"); Guarded.Resolved (lit "no"); Guarded.Resolved Sample.long]) Sample.running1)
  = Some Sample.long
  ∧ Guarded.lastError (summarizer (settle_all (map (pair 0)
      [Guarded.Threw (lit "a"); Guarded.Threw (lit "b"); Guarded.Threw (lit "c")]) Sample.running1))
    = Some (Guarded.AttemptFailed (lit "c")).
Proof.
  split.
  - exact (proj1 (proj2 (cycle_ends Sample.prompt Sample.reminder Sample.json Sample.digest Sample.opts 4
      Sample.messages Sample.fresh Sample.running1
      [Guarded.Threw (lit "timeout"); Guarded.Resolved (lit "no"); Guarded.Resolved Sample.long]
      Sample.started1))).
  - exact (proj2 (proj2 (cycle_ends Sample.prompt Sample.reminder Sample.json Sample.digest Sample.opts 4
      Sample.messages Sample.fresh Sample.running1
      [Guarded.Threw (lit "a"); Guarded.Threw (lit "b"); Guarded.Threw (lit "c")]
      Sample.started1))).
Defined.

Lemma admission_exact_witness : Guarded.running (summarizer Sample.running1) = true.
Proof.
  exact (proj1 (proj2 (admission_exact Sample.prompt Sample.reminder Sample.json Sample.digest
    Sample.opts 4 Sample.messages Sample.fresh started Sample.running1 Sample.budget eq_refl
    Sample.started1))).
Defined.

Lemma serialization_bounded_witness :
  length (serializeHistory [plain user (lit "a long enough history")] 2000 1500 8)
    ≤ 8 + length truncation_note.
Proof.
  apply (serialization_bounded [plain user (lit "a long enough history")] 2000 1500 8 [] 0). lia.
Defined.
