(* ===== verification/Scheduler.v ===== *)
(** * The task scheduler (src/store/scheduler.ts)

    A persistent queue of tasks polled by one timer.  The table
    scheduled_tasks is a finite map from row id to task; ids come from
    AUTOINCREMENT and names are unique.  The clock is an argument of every
    operation; the timer is the absolute time it is armed for. *)

From S2P Require Import Prelude.
Local Open Scope string_scope.
Local Open Scope list_scope.
Local Open Scope Z_scope.

Inductive TaskKind := reminder | reminder_nag | heartbeat | custom.
#[export] Instance TaskKind_eq_dec : EqDecision TaskKind.
Proof. solve_decision. Defined.

Record ScheduledTask := mkTask {
  t_id : Z;
  t_name : string;
  t_kind : TaskKind;
  t_channelId : option string;
  t_payload : string;
  nextRunAt : Z;
  intervalMs : option Z;
  nagIntervalMs : option Z;
  parentId : option Z;
  nagCount : Z;
  snoozeUntil : option Z;
  doneAt : option Z;
  createdAt : Z;
}.

Record CreateTaskOpts := mkOpts {
  o_name : string;
  o_kind : option TaskKind;
  o_channelId : option string;
  o_payload : string;
  o_nextRunAt : Z;
  o_intervalMs : option Z;
  o_nagIntervalMs : option Z;
  o_parentId : option Z;
}.

(** A patch of [update]: [None] leaves a field alone, [Some None] sets NULL. *)
Record Patch := mkPatch {
  p_payload : option string;
  p_nextRunAt : option Z;
  p_intervalMs : option (option Z);
  p_nagIntervalMs : option (option Z);
  p_snoozeUntil : option (option Z);
}.

Inductive exn :=
  | UniqueViolation                  (* the INSERT of a taken name *)
  | TaskIsDone                       (* update of a done task *)
  | WakeFailed                       (* onTaskWake threw *)
  | DispatchesFailed (errors : list exn).

(** The table, the timer, and the log of deliveries: each task handed to
    [onTaskWake], with the row the table held under its id at that moment. *)
Record sched := mkSched {
  rows : gmap Z ScheduledTask;
  nextId : Z;
  running : bool;
  timer : option Z;
  log : list (ScheduledTask * option ScheduledTask);
}.
(** The tasks handed to [onTaskWake] so far. *)
Abbreviation wakes s := (map fst (log s)).

Definition initial (table : gmap Z ScheduledTask) (next : Z) : sched :=
  mkSched table next false None [].

(** ** The prepared statements *)

Definition set_rows (r : gmap Z ScheduledTask) (s : sched) : sched :=
  mkSched r (nextId s) (running s) (timer s) (log s).
Definition set_timer (t : option Z) (s : sched) : sched :=
  mkSched (rows s) (nextId s) (running s) t (log s).
Definition set_running (b : bool) (s : sched) : sched :=
  mkSched (rows s) (nextId s) b (timer s) (log s).
Definition add_wake (t : ScheduledTask) (s : sched) : sched :=
  mkSched (rows s) (nextId s) (running s) (timer s) (log s ++ [(t, rows s !! t_id t)]).

(** UPDATE ... SET done_at / snooze_until / next_run_at / nag_count *)
Definition with_done (at_ : Z) (t : ScheduledTask) : ScheduledTask :=
  mkTask (t_id t) (t_name t) (t_kind t) (t_channelId t) (t_payload t) (nextRunAt t) (intervalMs t)
    (nagIntervalMs t) (parentId t) (nagCount t) (snoozeUntil t) (Some at_) (createdAt t).
Definition with_snooze (until : Z) (t : ScheduledTask) : ScheduledTask :=
  mkTask (t_id t) (t_name t) (t_kind t) (t_channelId t) (t_payload t) (nextRunAt t) (intervalMs t)
    (nagIntervalMs t) (parentId t) (nagCount t) (Some until) (doneAt t) (createdAt t).
Definition with_next (next : Z) (t : ScheduledTask) : ScheduledTask :=
  mkTask (t_id t) (t_name t) (t_kind t) (t_channelId t) (t_payload t) next (intervalMs t)
    (nagIntervalMs t) (parentId t) (nagCount t) (snoozeUntil t) (doneAt t) (createdAt t).
Definition with_nag (t : ScheduledTask) : ScheduledTask :=
  mkTask (t_id t) (t_name t) (t_kind t) (t_channelId t) (t_payload t) (nextRunAt t) (intervalMs t)
    (nagIntervalMs t) (parentId t) (nagCount t + 1) (snoozeUntil t) (doneAt t) (createdAt t).
Definition with_patch (p : Patch) (t : ScheduledTask) : ScheduledTask :=
  mkTask (t_id t) (t_name t) (t_kind t) (t_channelId t)
    (default (t_payload t) (p_payload p)) (default (nextRunAt t) (p_nextRunAt p))
    (default (intervalMs t) (p_intervalMs p)) (default (nagIntervalMs t) (p_nagIntervalMs p))
    (parentId t) (nagCount t) (default (snoozeUntil t) (p_snoozeUntil p)) (doneAt t) (createdAt t).

Definition update_row (f : ScheduledTask → ScheduledTask) (id : Z) (s : sched) : sched :=
  set_rows (alter f id (rows s)) s.

Definition getById (id : Z) (s : sched) : option ScheduledTask := rows s !! id.
Definition all_rows (s : sched) : list ScheduledTask := map snd (map_to_list (rows s)).
Definition getByName (name : string) (s : sched) : option ScheduledTask :=
  List.find (λ t, String.eqb (t_name t) name) (all_rows s).

(** ORDER BY next_run_at *)
Fixpoint insert_by_time (t : ScheduledTask) (l : list ScheduledTask) : list ScheduledTask :=
  match l with
  | [] => [t]
  | u :: l => if nextRunAt t <=? nextRunAt u then t :: u :: l else u :: insert_by_time t l
  end.
Definition by_time (l : list ScheduledTask) : list ScheduledTask := foldr insert_by_time [] l.

Definition list_tasks (s : sched) : list ScheduledTask := by_time (all_rows s).
Definition listByParent (parent : Z) (s : sched) : list ScheduledTask :=
  List.filter (λ t, bool_decide (parentId t = Some parent)) (all_rows s).

(** done_at IS NULL AND next_run_at <= now AND (snooze_until IS NULL OR snooze_until <= now) *)
Definition is_due (now : Z) (t : ScheduledTask) : bool :=
  bool_decide (doneAt t = None) && (nextRunAt t <=? now)
  && match snoozeUntil t with Some u => u <=? now | None => true end.
Definition listDue (now : Z) (s : sched) : list ScheduledTask :=
  by_time (List.filter (is_due now) (all_rows s)).

(** ** The timer *)

Definition effectiveAt (t : ScheduledTask) : Z :=
  Z.max (nextRunAt t) (default (nextRunAt t) (snoozeUntil t)).

(** The loop of [rearm]: the earliest effective time of an open task. *)
Definition earliest (bound : Z) (l : list ScheduledTask) : Z :=
  foldl (λ nextAt t,
    match doneAt t with
    | Some _ => nextAt
    | None => if effectiveAt t <? nextAt then effectiveAt t else nextAt
    end) bound l.

Definition rearm (now : Z) (s : sched) : sched :=
  if running s then
    let nextAt := earliest (now + 60000) (list_tasks s) in
    let delayMs := Z.max 0 (Z.min 60000 (nextAt - now)) in
    set_timer (Some (now + delayMs)) s
  else s.

Definition start (now : Z) (s : sched) : sched := rearm now (set_running true s).
Definition stop (s : sched) : sched := set_timer None (set_running false s).

(** ** Operations *)

Definition create (opts : CreateTaskOpts) (now : Z) : eff sched exn ScheduledTask :=
  s ← get;
  require (negb (existsb (λ t, String.eqb (t_name t) (o_name opts)) (all_rows s))) UniqueViolation;;
  let task := mkTask (nextId s) (o_name opts) (default custom (o_kind opts)) (o_channelId opts)
                (o_payload opts) (o_nextRunAt opts) (o_intervalMs opts) (o_nagIntervalMs opts)
                (o_parentId opts) 0 None None (now / 1000) in
  modify (λ s, mkSched (<[ nextId s := task ]> (rows s)) (nextId s + 1) (running s) (timer s)
                 (log s));;
  modify (rearm now);;
  mret task.

Definition markDone (id at_ now : Z) (s : sched) : sched :=
  rearm now (update_row (with_done at_) id s).
Definition snooze (id until now : Z) (s : sched) : sched :=
  rearm now (update_row (with_snooze until) id s).
Definition updateNextRun (id next : Z) (s : sched) : sched := update_row (with_next next) id s.
Definition incrementNagCount (id : Z) (s : sched) : sched := update_row with_nag id s.

(** [for (const child of children) if (child.doneAt == null) f(child.id)] *)
Definition each_open (f : Z → sched → sched) (children : list ScheduledTask) (s : sched) : sched :=
  foldl (λ s child, match doneAt child with None => f (t_id child) s | Some _ => s end) s children.

Definition empty_patch (p : Patch) : bool :=
  bool_decide (p_payload p = None) && bool_decide (p_nextRunAt p = None)
  && bool_decide (p_intervalMs p = None) && bool_decide (p_nagIntervalMs p = None)
  && bool_decide (p_snoozeUntil p = None).

Definition update (id : Z) (p : Patch) (now : Z) : eff sched exn (option ScheduledTask) :=
  s ← get;
  match getById id s with
  | None => mret None
  | Some current =>
      if empty_patch p then mret (Some current)
      else
        require (bool_decide (doneAt current = None)) TaskIsDone;;
        (match p_snoozeUntil p with
         | Some (Some until) =>
             modify (λ s, each_open (λ c s, snooze c until now s) (listByParent id s) s)
         | _ => mret tt
         end);;
        modify (update_row (with_patch p) id);;
        s ← get;
        modify (rearm now);;
        mret (getById id s)
  end.

Definition delete_task (id now : Z) : eff sched exn bool :=
  s ← get;
  match rows s !! id with
  | Some _ => modify (set_rows (delete id (rows s)));; modify (rearm now);; mret true
  | None => mret false
  end.

(** [let next = start; while (next <= at) next += interval;] *)
Fixpoint catch_up (fuel : nat) (next at_ interval : Z) : Z :=
  match fuel with
  | O => next
  | S fuel => if next <=? at_ then catch_up fuel (next + interval) at_ interval else next
  end.
(** Enough rounds for any positive interval: see [catch_up_spec]. *)
Definition catch_up_fuel (next at_ : Z) : nat := Z.to_nat (at_ - next + 1).

Definition markDoneByName (name : string) (at_ now : Z) : eff sched exn bool :=
  s ← get;
  match getByName name s with
  | None => mret false
  | Some task =>
      (match intervalMs task, doneAt task with
       | Some interval, None =>
           if 0 <? interval then
             modify (updateNextRun (t_id task)
               (catch_up (catch_up_fuel (nextRunAt task) at_) (nextRunAt task) at_ interval))
           else modify (markDone (t_id task) at_ now)
       | _, _ => modify (markDone (t_id task) at_ now)
       end);;
      modify (λ s, each_open (λ c s, markDone c at_ now s) (listByParent (t_id task) s) s);;
      mret true
  end.

Definition snoozeByName (name : string) (until now : Z) : eff sched exn bool :=
  s ← get;
  match getByName name s with
  | None => mret false
  | Some task =>
      modify (snooze (t_id task) until now);;
      modify (λ s, each_open (λ c s, snooze c until now s) (listByParent (t_id task) s) s);;
      mret true
  end.

(** ** Delivery *)

Definition newline : string := String (Ascii.ascii_of_nat 10) "".
Definition nag_payload (parent : ScheduledTask) : string :=
  t_payload parent +:+ newline +:+ newline +:+ "(nag #" +:+ pretty (nagCount parent + 1) +:+ ")".

Definition spawnNag (parent : ScheduledTask) (at_ now : Z) : eff sched exn ScheduledTask :=
  create (mkOpts (t_name parent +:+ "-nag-" +:+ pretty now) (Some reminder_nag) (t_channelId parent)
            (nag_payload parent) at_ None (nagIntervalMs parent) (Some (t_id parent))) now.

(** [n && n > 0] *)
Definition positive (n : option Z) : option Z :=
  match n with Some n => if 0 <? n then Some n else None | None => None end.

(** The callback is the program's; it acts on the scheduler through its public
    operations and may throw. *)
Inductive op :=
  | OCreate (opts : CreateTaskOpts)
  | OUpdate (id : Z) (p : Patch)
  | ODelete (id : Z)
  | OMarkDone (id at_ : Z)
  | OMarkDoneByName (name : string) (at_ : Z)
  | OSnooze (id until : Z)
  | OSnoozeByName (name : string) (until : Z)
  | OStart
  | OStop.

(** A call whose exception the caller handles. *)
Definition attempt {A} (m : eff sched exn A) (s : sched) : sched := (m s).2.

Definition perform (now : Z) (o : op) (s : sched) : sched :=
  match o with
  | OCreate opts => attempt (create opts now) s
  | OUpdate id p => attempt (update id p now) s
  | ODelete id => attempt (delete_task id now) s
  | OMarkDone id at_ => markDone id at_ now s
  | OMarkDoneByName name at_ => attempt (markDoneByName name at_ now) s
  | OSnooze id until => snooze id until now s
  | OSnoozeByName name until => attempt (snoozeByName name until now) s
  | OStart => start now s
  | OStop => stop s
  end.

Section delivery.
(** What [onTaskWake] does for a task, and whether it throws. *)
Context (onTaskWake : ScheduledTask → list op * bool).

Definition wake (task : ScheduledTask) (now : Z) : eff sched exn () :=
  modify (add_wake task);;
  modify (λ s, foldl (λ s o, perform now o s) s (onTaskWake task).1);;
  require (negb (onTaskWake task).2) WakeFailed.

(** The task is as it was when it was picked up. *)
Definition undisturbed (task current : ScheduledTask) : bool :=
  bool_decide (doneAt current = None) && (nextRunAt current =? nextRunAt task)
  && bool_decide (snoozeUntil current = snoozeUntil task)
  && bool_decide (intervalMs current = intervalMs task).

(** The tail of [handleDue]: what becomes of the task. *)
Definition reschedule (task : ScheduledTask) (now clock : Z) : eff sched exn () :=
  match t_kind task with
  | reminder =>
      modify (updateNextRun (t_id task) (Z.max now (nextRunAt task + default 0 (intervalMs task))));;
      modify (incrementNagCount (t_id task));;
      match positive (nagIntervalMs task) with
      | Some nag => spawnNag task (now + nag) clock;; mret tt
      | None => mret tt
      end
  | reminder_nag =>
      s ← get;
      let parent := match parentId task with
                    | Some p => if p =? 0 then None else getById p s
                    | None => None
                    end in
      modify (markDone (t_id task) now clock);;
      match parent, positive (nagIntervalMs task) with
      | Some parent, Some nag =>
          if bool_decide (doneAt parent = None) then
            spawnNag parent (now + nag) clock;;
            modify (incrementNagCount (t_id parent))
          else mret tt
      | _, _ => mret tt
      end
  | _ =>
      match positive (intervalMs task) with
      | Some interval => modify (updateNextRun (t_id task) (Z.max now (nextRunAt task + interval)))
      | None => modify (markDone (t_id task) now clock)
      end
  end.

Definition handleDue (task : ScheduledTask) (now clock : Z) : eff sched exn () :=
  wake task clock;;
  s ← get;
  match getById (t_id task) s with
  | Some current => if undisturbed task current then reschedule task now clock else mret tt
  | None => mret tt
  end.

(** One round of the [poll] loop: re-read, deliver, or back off on a throw. *)
Definition dispatch (snapshot : ScheduledTask) (now clock : Z) (s : sched) : list exn * sched :=
  match getById (t_id snapshot) s with
  | Some task =>
      if is_due now task then
        match handleDue task now clock s with
        | (inr _, s') => ([], s')
        | (inl e, s') =>
            ([e], match getById (t_id task) s' with
                  | Some current =>
                      match doneAt current with
                      | None => updateNextRun (t_id task) (Z.max (nextRunAt current) (clock + 60000)) s'
                      | Some _ => s'
                      end
                  | None => s'
                  end)
        end
      else ([], s)
  | None => ([], s)
  end.

Fixpoint dispatch_all (due : list ScheduledTask) (now clock : Z) (s : sched) : list exn * sched :=
  match due with
  | [] => ([], s)
  | snapshot :: due =>
      let '(e, s) := dispatch snapshot now clock s in
      let '(es, s) := dispatch_all due now clock s in
      (e ++ es, s)
  end.

(** [poll]: [now] is the time it starts, [clock] the time its handlers read. *)
Definition poll (now clock : Z) : eff sched exn () := λ s,
  let '(errors, s) := dispatch_all (listDue now s) now clock s in
  let s := rearm clock s in
  match errors with
  | [] => (inr tt, s)
  | [e] => (inl e, s)
  | es => (inl (DispatchesFailed es), s)
  end.

(** A program's use of the scheduler. *)
Inductive event := Do (now : Z) (o : op) | Poll (now clock : Z).
Definition exec (s : sched) (e : event) : sched :=
  match e with
  | Do now o => perform now o s
  | Poll now clock => attempt (poll now clock) s
  end.
End delivery.
