(* ===== verification/SchedulerFacts.v ===== *)
(** * The scheduler: lifecycle, delivery and timing

    Facts about src/store/scheduler.ts. *)

From S2P Require Import Prelude Scheduler.
Local Open Scope list_scope.
Local Open Scope Z_scope.

(** ** The table *)

Lemma elem_all_rows t s : t ∈ all_rows s ↔ ∃ id, rows s !! id = Some t.
Proof.
  unfold all_rows. rewrite list_elem_of_In, in_map_iff. split.
  - intros ([id t'] & <- & Hin). exists id. by apply elem_of_map_to_list, list_elem_of_In.
  - intros [id Hid]. exists (id, t). split; [done|]. by apply list_elem_of_In, elem_of_map_to_list.
Qed.

Lemma insert_by_time_perm t l : insert_by_time t l ≡ₚ t :: l.
Proof.
  induction l as [|u l IH]; simpl; [done|]. case_match; [done|]. rewrite IH. constructor.
Qed.
Lemma by_time_perm l : by_time l ≡ₚ l.
Proof.
  induction l as [|t l IH]; simpl; [done|]. by rewrite insert_by_time_perm, IH.
Qed.

(** Rows are stored under their id, below the next one, with unique names. *)
Record wf (s : sched) : Prop := {
  wf_id : ∀ id t, rows s !! id = Some t → t_id t = id ∧ id < nextId s;
  wf_name : ∀ i j t u, rows s !! i = Some t → rows s !! j = Some u → t_name t = t_name u → i = j;
}.

(** What can become of a row: it keeps its identity, and once done it stays
    done; ids are never reused. *)
Definition same_task (t t' : ScheduledTask) : Prop :=
  t_id t' = t_id t ∧ t_name t' = t_name t ∧ t_kind t' = t_kind t ∧ parentId t' = parentId t
  ∧ (is_Some (doneAt t) → is_Some (doneAt t')).
Definition lives (s s' : sched) : Prop :=
  nextId s ≤ nextId s'
  ∧ ∀ id t', id < nextId s → rows s' !! id = Some t' →
      ∃ t, rows s !! id = Some t ∧ same_task t t'.

(** What can be woken: tasks that are open. *)
Definition woke (s : sched) (w : list ScheduledTask) : Prop :=
  ∀ t, t ∈ w → doneAt t = None
    ∧ (t_id t < nextId s → ∃ t0, rows s !! t_id t = Some t0 ∧ doneAt t0 = None).
Definition evolves (s s' : sched) : Prop :=
  wf s' ∧ lives s s' ∧ ∃ w, wakes s' = wakes s ++ w ∧ woke s w.

Lemma same_task_refl t : same_task t t.
Proof. by split_and!. Qed.
Lemma same_task_trans t u v : same_task t u → same_task u v → same_task t v.
Proof. unfold same_task. intros. destruct_and!. split_and!; try congruence. auto. Qed.

Lemma evolves_refl s : wf s → evolves s s.
Proof.
  intros Hs. split; [done|]. split.
  - split; [done|]. intros id t _ Ht. eauto using same_task_refl.
  - exists []. rewrite app_nil_r. split; [done|]. intros t Ht. by apply not_elem_of_nil in Ht.
Qed.

Lemma lives_undone s s' id t' :
  lives s s' → id < nextId s → rows s' !! id = Some t' → doneAt t' = None →
  ∃ t, rows s !! id = Some t ∧ doneAt t = None.
Proof.
  intros [_ H] Hid Ht Hn. destruct (H id t' Hid Ht) as (t & Hr & _ & _ & _ & _ & Hd).
  exists t. split; [done|]. destruct (doneAt t) eqn:E; [|done].
  destruct Hd as [x Hx]; [by eexists|congruence].
Qed.

Lemma evolves_trans s s1 s2 : evolves s s1 → evolves s1 s2 → evolves s s2.
Proof.
  intros (_ & Hl1 & w1 & Hw1 & Hk1) (Hwf & Hl2 & w2 & Hw2 & Hk2).
  split; [done|]. split.
  - destruct Hl1 as [Hn1 H1], Hl2 as [Hn2 H2]. split; [lia|]. intros id t2 Hid Ht2.
    destruct (H2 id t2) as (t1 & Ht1 & Hs1); [lia|done|].
    destruct (H1 id t1 Hid Ht1) as (t & Ht & Hs). eauto using same_task_trans.
  - exists (w1 ++ w2). rewrite Hw2, Hw1, app_assoc. split; [done|].
    intros t [Ht|Ht]%elem_of_app; [by apply Hk1|]. destruct (Hk2 t Ht) as [Hd Hr].
    split; [done|]. intros Hid. destruct Hr as (t1 & Ht1 & Hd1); [destruct Hl1; lia|].
    by eapply lives_undone.
Qed.

Lemma evolves_timer s s' f b :
  evolves s s' → evolves s (mkSched (rows s') (nextId s') b f (log s')).
Proof. by intros ([? ?] & ? & ?). Qed.

Lemma rearm_shape now s :
  rows (rearm now s) = rows s ∧ nextId (rearm now s) = nextId s ∧ log (rearm now s) = log s
  ∧ running (rearm now s) = running s.
Proof. unfold rearm. by destruct (running s) eqn:E. Qed.

Lemma rearm_evolves now s s' : evolves s s' → evolves s (rearm now s').
Proof. intros H. unfold rearm. destruct (running s'); [by apply evolves_timer|done]. Qed.

(** A row update that keeps identities. *)
Lemma update_row_evolves f id s :
  wf s → (∀ t, same_task t (f t)) → evolves s (update_row f id s).
Proof.
  intros [H1 H2] Hf.
  assert (∀ i t, alter f id (rows s) !! i = Some t →
            ∃ t0, rows s !! i = Some t0 ∧ same_task t0 t) as Hback.
  { intros i t. rewrite lookup_alter. case_decide; subst.
    - intros (t0 & Hi & ->)%fmap_Some. eauto.
    - intros Hi. eauto using same_task_refl. }
  split; [split|split]; simpl.
  - intros i t (t0 & Hi & Hs & _)%Hback. destruct (H1 _ _ Hi). split; [congruence|done].
  - intros i j t u (t0 & Hi & _ & Hn & _)%Hback (u0 & Hj & _ & Hn' & _)%Hback Heq.
    eapply H2; eauto. congruence.
  - split; [done|]. intros i t _ Hi. by apply Hback.
  - exists []. rewrite app_nil_r. split; [done|]. intros t Ht. by apply not_elem_of_nil in Ht.
Qed.

Lemma delete_evolves id s : wf s → evolves s (set_rows (delete id (rows s)) s).
Proof.
  intros [H1 H2]. split; [split|split]; simpl.
  - intros i t [_ Hi]%lookup_delete_Some. eauto.
  - intros i j t u [_ Hi]%lookup_delete_Some [_ Hj]%lookup_delete_Some. eauto.
  - split; [done|]. intros i t _ Hi. simpl in Hi. apply lookup_delete_Some in Hi as [_ Hi].
    eauto using same_task_refl.
  - exists []. rewrite app_nil_r. split; [done|]. intros t Ht. by apply not_elem_of_nil in Ht.
Qed.

Lemma with_done_same a t : same_task t (with_done a t).
Proof. by split_and!. Qed.
Lemma with_snooze_same a t : same_task t (with_snooze a t).
Proof. by split_and!. Qed.
Lemma with_next_same a t : same_task t (with_next a t).
Proof. by split_and!. Qed.
Lemma with_nag_same t : same_task t (with_nag t).
Proof. by split_and!. Qed.
Lemma with_patch_same p t : same_task t (with_patch p t).
Proof. by split_and!. Qed.
#[export] Hint Resolve with_done_same with_snooze_same with_next_same with_nag_same with_patch_same
  evolves_refl rearm_evolves update_row_evolves delete_evolves : elpis.

Lemma evolves_wf s s' : evolves s s' → wf s'.
Proof. by intros [? _]. Qed.
#[export] Hint Resolve evolves_wf : elpis.

(** A step that evolves from every well-formed state composes. *)
Definition step_ok (f : sched → sched) : Prop := ∀ s, wf s → evolves s (f s).

Lemma step_ok_after f s s' : step_ok f → evolves s s' → evolves s (f s').
Proof. intros Hf H. eapply evolves_trans; [done|]. apply Hf. by eapply evolves_wf. Qed.

Lemma markDone_ok id a now : step_ok (markDone id a now).
Proof. intros s Hs. unfold markDone. auto with elpis. Qed.
Lemma snooze_ok id u now : step_ok (snooze id u now).
Proof. intros s Hs. unfold snooze. auto with elpis. Qed.
Lemma updateNextRun_ok id n : step_ok (updateNextRun id n).
Proof. intros s Hs. unfold updateNextRun. auto with elpis. Qed.
Lemma incrementNagCount_ok id : step_ok (incrementNagCount id).
Proof. intros s Hs. unfold incrementNagCount. auto with elpis. Qed.
Lemma start_ok now : step_ok (start now).
Proof. intros s Hs. unfold start. apply rearm_evolves, evolves_timer. by apply evolves_refl. Qed.
Lemma stop_ok : step_ok stop.
Proof. intros s Hs. apply (evolves_timer s (set_running false s)). by apply (evolves_timer s s), evolves_refl. Qed.

Lemma each_open_ok f l : (∀ c, step_ok (f c)) → step_ok (each_open f l).
Proof.
  intros Hf. unfold each_open. induction l as [|t l IH]; intros s Hs; simpl; [by apply evolves_refl|].
  destruct (doneAt t); [by apply IH|]. eapply evolves_trans; [by apply Hf|].
  apply IH. by eapply evolves_wf, Hf.
Qed.

Lemma create_fresh opts s t :
  wf s → existsb (λ t, String.eqb (t_name t) (o_name opts)) (all_rows s) = false →
  t_id t = nextId s → t_name t = o_name opts →
  evolves s (mkSched (<[ nextId s := t ]> (rows s)) (nextId s + 1) (running s) (timer s) (log s)).
Proof.
  intros [H1 H2] Hn Hid Hname.
  assert (∀ i u, rows s !! i = Some u → t_name u ≠ o_name opts) as Hfree.
  { intros i u Hi He. apply not_true_iff_false in Hn. apply Hn, existsb_exists. exists u.
    split; [apply list_elem_of_In, elem_all_rows; eauto|by apply String.eqb_eq]. }
  split; [split|split]; simpl.
  - intros i u. rewrite lookup_insert_Some. intros [[<- <-]|[_ Hi]]; [split; [done|lia]|].
    destruct (H1 _ _ Hi). split; [done|lia].
  - intros i j u v. rewrite !lookup_insert_Some.
    intros [[<- <-]|[_ Hi]] [[<- <-]|[_ Hj]] He; try done; [..|by eauto].
    + exfalso. eapply Hfree; [apply Hj|congruence].
    + exfalso. eapply Hfree; [apply Hi|congruence].
  - split; simpl; [lia|]. intros i u Hlt. rewrite lookup_insert_ne by lia. eauto using same_task_refl.
  - exists []. rewrite app_nil_r. split; [done|]. intros u Hu. by apply not_elem_of_nil in Hu.
Qed.

(** ** Operations *)

Lemma create_ok opts now : step_ok (λ s, attempt (create opts now) s).
Proof.
  intros s Hs. unfold attempt, create. autorewrite with eff.
  destruct (existsb _ _) eqn:E; simpl; [by apply evolves_refl|].
  apply rearm_evolves. by eapply create_fresh.
Qed.

Lemma update_ok id p now : step_ok (λ s, attempt (update id p now) s).
Proof.
  intros s Hs. unfold attempt, update. autorewrite with eff.
  destruct (getById id s) as [cur|]; [|by apply evolves_refl].
  destruct (empty_patch p); [by apply evolves_refl|].
  autorewrite with eff. case_bool_decide; [|by apply evolves_refl].
  assert (∀ s', evolves s s' → evolves s (rearm now (update_row (with_patch p) id s'))) as Hpatch.
  { intros s' H'. apply rearm_evolves. eapply evolves_trans; [done|].
    apply update_row_evolves; [by eapply evolves_wf|apply with_patch_same]. }
  destruct (p_snoozeUntil p) as [[until|]|]; autorewrite with eff; simpl; apply Hpatch;
    try by apply evolves_refl.
  apply each_open_ok; [|done]. intros c. apply snooze_ok.
Qed.

Lemma delete_ok id now : step_ok (λ s, attempt (delete_task id now) s).
Proof.
  intros s Hs. unfold attempt, delete_task. autorewrite with eff.
  destruct (rows s !! id); autorewrite with eff; simpl; auto with elpis.
Qed.

Lemma markDoneByName_ok name a now : step_ok (λ s, attempt (markDoneByName name a now) s).
Proof.
  intros s Hs. unfold attempt, markDoneByName. autorewrite with eff.
  destruct (getByName name s) as [task|]; [|by apply evolves_refl].
  assert (∀ s', evolves s s' → evolves s
    (each_open (λ c s, markDone c a now s) (listByParent (t_id task) s') s')) as Hkids.
  { intros s' H'. eapply evolves_trans; [done|]. apply each_open_ok; [|by eapply evolves_wf].
    intros c. apply markDone_ok. }
  destruct (intervalMs task) as [i|], (doneAt task); [|destruct (0 <? i)|..];
    autorewrite with eff; simpl; apply Hkids;
    first [by apply markDone_ok | by apply updateNextRun_ok].
Qed.

Lemma snoozeByName_ok name u now : step_ok (λ s, attempt (snoozeByName name u now) s).
Proof.
  intros s Hs. unfold attempt, snoozeByName. autorewrite with eff.
  destruct (getByName name s) as [task|]; [|by apply evolves_refl].
  autorewrite with eff. simpl. eapply evolves_trans; [by apply snooze_ok|].
  apply each_open_ok; [|by eapply evolves_wf, snooze_ok]. intros c. apply snooze_ok.
Qed.

Lemma perform_ok now o : step_ok (perform now o).
Proof.
  destruct o; intros s Hs;
    [by apply create_ok|by apply update_ok|by apply delete_ok|by apply markDone_ok
    |by apply markDoneByName_ok|by apply snooze_ok|by apply snoozeByName_ok
    |by apply start_ok|by apply stop_ok].
Qed.

Lemma performs_ok now l : step_ok (λ s, foldl (λ s o, perform now o s) s l).
Proof.
  induction l as [|o l IH]; intros s Hs; simpl; [by apply evolves_refl|].
  eapply evolves_trans; [by apply perform_ok|]. apply IH. by eapply evolves_wf, perform_ok.
Qed.

(** Operations themselves wake nobody. *)
Definition quiet (f : sched → sched) : Prop := ∀ s, log (f s) = log s.

Lemma rearm_quiet now : quiet (rearm now).
Proof. intros s. unfold rearm. by destruct (running s). Qed.
Lemma update_row_quiet f id : quiet (update_row f id).
Proof. done. Qed.
Lemma each_open_quiet f l : (∀ c, quiet (f c)) → quiet (each_open f l).
Proof.
  intros Hf s. unfold each_open. revert s. induction l as [|t l IH]; intros s; simpl; [done|].
  destruct (doneAt t); rewrite IH; [done|apply Hf].
Qed.
Lemma markDone_quiet id a now : quiet (markDone id a now).
Proof. intros s. unfold markDone. by rewrite rearm_quiet. Qed.
Lemma snooze_quiet id a now : quiet (snooze id a now).
Proof. intros s. unfold snooze. by rewrite rearm_quiet. Qed.
Lemma create_quiet opts now : quiet (λ s, attempt (create opts now) s).
Proof.
  intros s. unfold attempt, create. autorewrite with eff.
  destruct (negb _); simpl; [by rewrite rearm_quiet|done].
Qed.

Lemma perform_quiet now o : quiet (perform now o).
Proof.
  destruct o as [opts|id p|id|id a|name a|id u|name u| |]; intros s; simpl.
  - apply create_quiet.
  - unfold attempt, update. autorewrite with eff. destruct (getById id s) as [cur|]; [|done].
    destruct (empty_patch p); [done|]. autorewrite with eff. case_bool_decide; [|done].
    destruct (p_snoozeUntil p) as [[u|]|]; autorewrite with eff; simpl; rewrite rearm_quiet; simpl;
      try done.
    apply each_open_quiet. intros c. apply snooze_quiet.
  - unfold attempt, delete_task. autorewrite with eff.
    destruct (rows s !! id); autorewrite with eff; simpl; [by rewrite rearm_quiet|done].
  - apply markDone_quiet.
  - unfold attempt, markDoneByName. autorewrite with eff.
    destruct (getByName name s) as [task|]; [|done].
    assert (∀ l s', log (each_open (λ c s, markDone c a now s) l s') = log s') as Hkids.
    { intros l s'. apply each_open_quiet. intros c. apply markDone_quiet. }
    destruct (intervalMs task) as [i|], (doneAt task); [|destruct (0 <? i)|..];
      autorewrite with eff; simpl; rewrite Hkids; rewrite ?markDone_quiet; done.
  - apply snooze_quiet.
  - unfold attempt, snoozeByName. autorewrite with eff.
    destruct (getByName name s) as [task|]; [|done]. autorewrite with eff. simpl.
    rewrite each_open_quiet; [apply snooze_quiet|]. intros c. apply snooze_quiet.
  - apply (rearm_quiet now (set_running true s)).
  - done.
Qed.
Lemma performs_quiet now l : quiet (λ s, foldl (λ s o, perform now o s) s l).
Proof.
  intros s. revert s. induction l as [|o l IH]; intros s; simpl; [done|].
  by rewrite IH, perform_quiet.
Qed.

(** ** Delivery *)

Section delivery.
Context (onTaskWake : ScheduledTask → list op * bool).

Lemma reschedule_ok task now clock : step_ok (λ s, attempt (reschedule task now clock) s).
Proof.
  intros s Hs. unfold attempt, reschedule, spawnNag.
  assert (∀ s', evolves s s' → ∀ opts, evolves s (create opts clock s').2) as Hc.
  { intros s' H' opts. eapply evolves_trans; [done|]. apply create_ok. by eapply evolves_wf. }
  assert (∀ s' id, evolves s s' → evolves s (incrementNagCount id s')) as Hi.
  { intros s' id H'. by apply (step_ok_after (incrementNagCount id)); [apply incrementNagCount_ok|]. }
  destruct (t_kind task); autorewrite with eff.
  - destruct (positive (nagIntervalMs task)) as [nag|]; simpl.
    + unfold mbind, eff_bind.
      match goal with |- context [create ?o clock ?s'] => set (opts := o); set (s1 := s') end.
      assert (evolves s s1) as H1 by (subst s1; apply Hi; by apply updateNextRun_ok).
      pose proof (Hc s1 H1 opts) as H2. by destruct (create opts clock s1) as [[|] s2].
    + apply Hi. by apply updateNextRun_ok.
  - set (s1 := markDone _ now clock s).
    assert (evolves s s1) as H1 by (by apply markDone_ok).
    destruct (match parentId task with Some p => _ | None => _ end) as [parent|]; [|done].
    destruct (positive (nagIntervalMs task)) as [nag|]; [|done].
    case_bool_decide; [|done]. unfold mbind, eff_bind.
    match goal with |- context [create ?o clock s1] => set (opts := o) end.
    pose proof (Hc s1 H1 opts) as H2. destruct (create opts clock s1) as [[|] s2]; simpl; [done|].
    by apply Hi.
  - destruct (positive (intervalMs task)); simpl; [by apply updateNextRun_ok|by apply markDone_ok].
  - destruct (positive (intervalMs task)); simpl; [by apply updateNextRun_ok|by apply markDone_ok].
Qed.

Lemma reschedule_quiet task now clock : quiet (λ s, attempt (reschedule task now clock) s).
Proof.
  intros s. unfold attempt, reschedule, spawnNag.
  assert (∀ s' opts, log (create opts clock s').2 = log s') as Hc
    by (intros s' opts; apply create_quiet).
  destruct (t_kind task); autorewrite with eff.
  - destruct (positive (nagIntervalMs task)) as [nag|]; simpl; [|done].
    unfold mbind, eff_bind.
    match goal with |- context [create ?o clock ?s'] =>
      pose proof (Hc s' o) as H2; destruct (create o clock s') as [[|] s2] end; done.
  - destruct (match parentId task with Some p => _ | None => _ end) as [parent|];
      [|apply markDone_quiet].
    destruct (positive (nagIntervalMs task)) as [nag|]; [|apply markDone_quiet].
    case_bool_decide; [|apply markDone_quiet]. unfold mbind, eff_bind.
    match goal with |- context [create ?o clock ?s'] =>
      pose proof (Hc s' o) as H2; destruct (create o clock s') as [[|] s2] end; simpl in *;
      rewrite H2; apply markDone_quiet.
  - destruct (positive (intervalMs task)); simpl; [done|apply markDone_quiet].
  - destruct (positive (intervalMs task)); simpl; [done|apply markDone_quiet].
Qed.

(** A delivery of the row that is in the table at that moment. *)
Definition delivered (t : ScheduledTask) : ScheduledTask * option ScheduledTask := (t, Some t).
Lemma delivered_wakes w : map fst (map delivered w) = w.
Proof. rewrite map_map. apply map_id. Qed.

(** One delivery wakes exactly the task it was given, which was open. *)
Lemma handleDue_ok task now clock s :
  wf s → rows s !! t_id task = Some task → doneAt task = None →
  evolves s (handleDue onTaskWake task now clock s).2
  ∧ log (handleDue onTaskWake task now clock s).2 = log s ++ [delivered task].
Proof.
  intros Hs Hr Hd. unfold handleDue, wake. autorewrite with eff.
  set (s1 := foldl _ _ _).
  assert (evolves s (add_wake task s)) as H0.
  { split; [by destruct Hs|]. split.
    - split; [done|]. intros id t _ Ht. eauto using same_task_refl.
    - exists [task]. split; [simpl; by rewrite map_app|]. intros t ->%list_elem_of_singleton. eauto. }
  assert (evolves s s1) as H1.
  { eapply evolves_trans; [done|]. apply (performs_ok clock). by eapply evolves_wf. }
  assert (log s1 = log s ++ [delivered task]) as W1.
  { unfold s1. rewrite (performs_quiet clock _ (add_wake task s)). simpl. by rewrite Hr. }
  destruct (negb _); [|done]. autorewrite with eff.
  destruct (getById (t_id task) s1) as [cur|]; [|done].
  destruct (undisturbed task cur); [|done]. split.
  - eapply evolves_trans; [done|]. apply (reschedule_ok task now clock). by eapply evolves_wf.
  - rewrite <- W1. apply (reschedule_quiet task now clock).
Qed.

Lemma dispatch_ok snapshot now clock s :
  wf s →
  evolves s (dispatch onTaskWake snapshot now clock s).2
  ∧ ∃ w, log (dispatch onTaskWake snapshot now clock s).2 = log s ++ map delivered w
      ∧ (w = [] ∨ ∃ task, w = [task] ∧ t_id task = t_id snapshot ∧ is_due now task = true).
Proof.
  intros Hs. unfold dispatch.
  assert (evolves s s ∧ ∃ w, log s = log s ++ map delivered w
      ∧ (w = [] ∨ ∃ task, w = [task] ∧ t_id task = t_id snapshot ∧ is_due now task = true)) as Hid.
  { split; [by apply evolves_refl|]. exists []. simpl. rewrite app_nil_r. auto. }
  destruct (getById (t_id snapshot) s) as [task|] eqn:Hg; [|done].
  destruct (is_due now task) eqn:Hdue; [|done].
  unfold getById in Hg. destruct (wf_id s Hs _ _ Hg) as [Hi _].
  assert (doneAt task = None) as Hd by (unfold is_due in Hdue; by guards).
  destruct (handleDue_ok task now clock s Hs) as [He Hw]; [congruence|done|].
  destruct (handleDue onTaskWake task now clock s) as [[e|] s'] eqn:E; simpl in *;
    [|split; [done|]; exists [task]; eauto 10].
  destruct (getById (t_id task) s') as [cur|]; [|split; [done|]; exists [task]; eauto 10].
  destruct (doneAt cur); [split; [done|]; exists [task]; eauto 10|].
  split; [|exists [task]; eauto 10].
  apply (step_ok_after (updateNextRun _ _)); [apply updateNextRun_ok|done].
Qed.

Lemma dispatch_all_ok due now clock s :
  wf s →
  evolves s (dispatch_all onTaskWake due now clock s).2
  ∧ ∃ w, log (dispatch_all onTaskWake due now clock s).2 = log s ++ map delivered w
      ∧ Forall (λ t, is_due now t = true) w ∧ map t_id w `sublist_of` map t_id due.
Proof.
  revert s. induction due as [|t due IH]; intros s Hs; simpl.
  { split; [by apply evolves_refl|]. exists []. simpl. by rewrite app_nil_r. }
  destruct (dispatch_ok t now clock s Hs) as (H1 & w & Hw & Hcase).
  destruct (dispatch onTaskWake t now clock s) as [e s1]. simpl in *.
  destruct (IH s1) as (H2 & w2 & Hw2 & Hd2 & Hsub); [by eapply evolves_wf|].
  destruct (dispatch_all onTaskWake due now clock s1) as [es s2]. simpl in *.
  split; [by eapply evolves_trans|]. exists (w ++ w2).
  rewrite Hw2, Hw, map_app, app_assoc. split; [done|].
  destruct Hcase as [->|(task & -> & Hid & Hdue)]; simpl.
  - split; [done|]. by apply sublist_cons.
  - split; [by constructor|]. rewrite Hid. by apply sublist_skip.
Qed.

Lemma poll_ok now clock s :
  wf s →
  evolves s (poll onTaskWake now clock s).2
  ∧ ∃ w, log (poll onTaskWake now clock s).2 = log s ++ map delivered w
      ∧ Forall (λ t, is_due now t = true) w ∧ map t_id w `sublist_of` map t_id (listDue now s).
Proof.
  intros Hs. unfold poll.
  destruct (dispatch_all_ok (listDue now s) now clock s Hs) as (H1 & w & Hw & Hd & Hsub).
  destruct (dispatch_all onTaskWake (listDue now s) now clock s) as [es s1]. simpl in *.
  assert (evolves s (rearm clock s1)) as H2 by auto with elpis.
  assert (log (rearm clock s1) = log s ++ map delivered w) as Hw' by (by rewrite rearm_quiet).
  destruct es as [|e [|e' es]]; simpl; eauto 10.
Qed.

(** A step that leaves every due task other than [id] due. *)
Definition spares (id now : Z) (s s' : sched) : Prop :=
  ∀ i t, i ≠ id → rows s !! i = Some t → is_due now t = true →
    ∃ t', rows s' !! i = Some t' ∧ is_due now t' = true.

Lemma spares_trans id now s s1 s2 : spares id now s s1 → spares id now s1 s2 → spares id now s s2.
Proof. intros H1 H2 i t Hi Ht Hd. destruct (H1 i t Hi Ht Hd) as (t1 & Ht1 & Hd1). eauto. Qed.
Lemma spares_rows id now s s' : rows s' = rows s → spares id now s s'.
Proof. intros Hr i t _ Ht Hd. rewrite Hr. eauto. Qed.
Lemma spares_self f id now s : spares id now s (update_row f id s).
Proof. intros i t Hi Ht Hd. simpl. rewrite lookup_alter_ne by done. eauto. Qed.
Lemma spares_nag id k now s : spares id now s (incrementNagCount k s).
Proof.
  intros i t Hi Ht Hd. simpl. rewrite lookup_alter. case_decide; subst; [|by eauto].
  rewrite Ht. simpl. eexists. split; [done|exact Hd].
Qed.
Lemma spares_rearm id now clock s : spares id now s (rearm clock s).
Proof. apply spares_rows, rearm_shape. Qed.
Lemma spares_markDone id now at_ clock s : spares id now s (markDone id at_ clock s).
Proof. eapply spares_trans; [apply spares_self|apply spares_rearm]. Qed.
Lemma spares_create id now opts clock s : wf s → spares id now s (create opts clock s).2.
Proof.
  intros Hs. unfold create. autorewrite with eff. destruct (negb _); simpl; [|by apply spares_rows].
  eapply spares_trans; [|apply spares_rearm]. intros i t Hi Ht Hd. simpl.
  destruct (wf_id s Hs _ _ Ht). rewrite lookup_insert_ne by lia. eauto.
Qed.
Hint Resolve spares_self spares_nag spares_rearm spares_markDone : elpis.

Lemma spares_reschedule task now clock s :
  wf s → spares (t_id task) now s (reschedule task now clock s).2.
Proof.
  intros Hs. unfold reschedule, spawnNag. destruct (t_kind task); autorewrite with eff.
  - destruct (positive (nagIntervalMs task)) as [nag|]; simpl;
      [|eapply spares_trans; [apply spares_self|apply spares_nag]].
    match goal with |- context [create ?o clock ≫= _] => set (opts := o) end.
    set (s1 := incrementNagCount _ _).
    assert (spares (t_id task) now s s1) as H1
      by (eapply spares_trans; [apply spares_self|apply spares_nag]).
    assert (wf s1) as Hs1 by (by apply incrementNagCount_ok, (evolves_wf s), updateNextRun_ok).
    pose proof (spares_create (t_id task) now opts clock s1 Hs1).
    unfold mbind, eff_bind. destruct (create opts clock s1) as [[|] s2]; simpl in *; by eapply spares_trans.
  - set (s1 := markDone _ now clock s).
    assert (spares (t_id task) now s s1) as H1 by (apply spares_markDone).
    assert (wf s1) as Hs1 by (by apply (evolves_wf s), markDone_ok).
    destruct (match parentId task with Some p => _ | None => _ end) as [parent|]; [|done].
    destruct (positive (nagIntervalMs task)) as [nag|]; [|done]. case_bool_decide; [|done].
    match goal with |- context [create ?o clock ≫= _] => set (opts := o) end.
    pose proof (spares_create (t_id task) now opts clock s1 Hs1).
    unfold mbind, eff_bind. destruct (create opts clock s1) as [[|] s2]; simpl in *;
      eauto using spares_trans with elpis.
  - destruct (positive (intervalMs task)); simpl; auto with elpis. apply spares_self.
  - destruct (positive (intervalMs task)); simpl; auto with elpis. apply spares_self.
Qed.

(** With a callback that leaves the queue alone, every snapshot that is still
    due is woken, and the others stay due. *)
Lemma dispatch_wakes snapshot now clock s t :
  (∀ t, (onTaskWake t).1 = []) → wf s →
  rows s !! t_id snapshot = Some t → is_due now t = true →
  wakes (dispatch onTaskWake snapshot now clock s).2 = wakes s ++ [t]
  ∧ spares (t_id snapshot) now s (dispatch onTaskWake snapshot now clock s).2.
Proof.
  intros Hidle Hs Ht Hdue. unfold dispatch, getById at 1 3. rewrite Ht, Hdue.
  destruct (wf_id s Hs _ _ Ht) as [Hi _].
  assert (doneAt t = None) as Hd by (unfold is_due in Hdue; by guards).
  destruct (handleDue_ok t now clock s Hs) as [_ Hlog]; [congruence|done|].
  assert (wakes (handleDue onTaskWake t now clock s).2 = wakes s ++ [t]) as Hw by (by rewrite Hlog, map_app).
  assert (spares (t_id snapshot) now s (handleDue onTaskWake t now clock s).2) as Hsp.
  { unfold handleDue, wake. autorewrite with eff. rewrite Hidle. simpl.
    assert (spares (t_id snapshot) now s (add_wake t s)) as H0 by (by apply spares_rows).
    destruct (negb _); [|done]. autorewrite with eff.
    destruct (getById _ _) as [cur|]; [|done]. destruct (undisturbed t cur); [|done].
    eapply spares_trans; [exact H0|]. rewrite <- Hi. apply spares_reschedule. by destruct Hs. }
  destruct (handleDue onTaskWake t now clock s) as [[e|] s']; simpl in *; [|done].
  destruct (getById (t_id t) s') as [cur|]; [|done]. destruct (doneAt cur); [done|].
  split; [done|]. eapply spares_trans; [exact Hsp|]. rewrite <- Hi. apply spares_self.
Qed.

Lemma dispatch_all_wakes due now clock s :
  (∀ t, (onTaskWake t).1 = []) → wf s → NoDup (map t_id due) →
  (∀ x, x ∈ due → ∃ t, rows s !! t_id x = Some t ∧ is_due now t = true) →
  ∃ w, wakes (dispatch_all onTaskWake due now clock s).2 = wakes s ++ w
    ∧ map t_id w = map t_id due.
Proof.
  intros Hidle. revert s. induction due as [|x due IH]; intros s Hs Hnd Hdue; simpl.
  { exists []. by rewrite app_nil_r. }
  apply NoDup_cons in Hnd as [Hx Hnd].
  destruct (Hdue x) as (t & Ht & Htd); [by left|].
  destruct (dispatch_wakes x now clock s t Hidle Hs Ht Htd) as [Hw Hsp].
  destruct (dispatch_ok x now clock s Hs) as [He _].
  destruct (dispatch onTaskWake x now clock s) as [e s1]. simpl in *.
  destruct (IH s1) as (w & Hw1 & Hids); [by eapply evolves_wf|done| |].
  { intros y Hy. destruct (Hdue y) as (u & Hu & Hud); [by right|]. apply (Hsp _ u); [|done|done].
    intros Heq. apply Hx. rewrite <- Heq. apply list_elem_of_In, in_map, list_elem_of_In. done. }
  destruct (dispatch_all onTaskWake due now clock s1) as [es s2]. simpl in *.
  exists (t :: w). rewrite Hw1, Hw, <- app_assoc. split; [done|]. simpl. f_equal; [|done].
  by destruct (wf_id s Hs _ _ Ht).
Qed.

Lemma exec_ok e : step_ok (λ s, exec onTaskWake s e).
Proof. intros s Hs. destruct e; simpl; [by apply perform_ok|by apply poll_ok]. Qed.

Lemma run_ok l : step_ok (λ s, foldl (exec onTaskWake) s l).
Proof.
  induction l as [|e l IH]; intros s Hs; simpl; [by apply evolves_refl|].
  eapply evolves_trans; [by apply exec_ok|]. apply IH. by eapply evolves_wf, exec_ok.
Qed.
End delivery.

Lemma due_ids_nodup now s : wf s → NoDup (map t_id (listDue now s)).
Proof.
  intros Hs. unfold listDue. rewrite by_time_perm. unfold all_rows.
  assert (NoDup (map t_id (map snd (map_to_list (rows s))))) as Hnd.
  { rewrite map_map. assert (map (λ x, t_id x.2) (map_to_list (rows s)) = (map_to_list (rows s)).*1) as ->.
    - apply map_ext_in. intros [id t] Hin%list_elem_of_In%elem_of_map_to_list.
      by apply (wf_id s Hs) in Hin as [? _].
    - apply NoDup_fst_map_to_list. }
  revert Hnd. generalize (map snd (map_to_list (rows s))). intros l.
  induction l as [|t l IH]; simpl; [constructor|]. intros [Hin Hnd]%NoDup_cons.
  destruct (is_due now t); simpl; [|by apply IH]. apply NoDup_cons. split; [|by apply IH].
  intros Hx. apply Hin. apply list_elem_of_In, in_map_iff in Hx as (u & Hu & Hf).
  apply filter_In in Hf as [Hf _]. apply list_elem_of_In, in_map_iff. eauto.
Qed.

Lemma poll_wakes_all onTaskWake now clock s :
  (∀ t, (onTaskWake t).1 = []) → wf s →
  ∃ w, wakes (poll onTaskWake now clock s).2 = wakes s ++ w
    ∧ map t_id w = map t_id (listDue now s).
Proof.
  intros Hidle Hs.
  destruct (dispatch_all_wakes onTaskWake (listDue now s) now clock s) as (w & Hw & Hids);
    [done|done|by apply due_ids_nodup| |].
  { intros x. unfold listDue. rewrite by_time_perm, list_elem_of_In, filter_In.
    intros [Hx Hd]. apply list_elem_of_In, elem_all_rows in Hx as [id Hid].
    exists x. destruct (wf_id s Hs _ _ Hid) as [-> _]. done. }
  exists w. split; [|done]. unfold poll.
  destruct (dispatch_all _ _ _ _ _) as [[|e [|e' es]] s1]; simpl in *; by rewrite rearm_quiet.
Qed.

(** ** Timing *)

Lemma earliest_spec bound l :
  earliest bound l ≤ bound
  ∧ ∀ t, t ∈ l → doneAt t = None → earliest bound l ≤ effectiveAt t.
Proof.
  unfold earliest. revert bound. induction l as [|u l IH]; intros bound; simpl.
  { split; [done|]. intros t Ht. by apply not_elem_of_nil in Ht. }
  set (b' := match doneAt u with Some _ => _ | None => _ end).
  destruct (IH b') as [H1 H2].
  assert (b' ≤ bound ∧ (doneAt u = None → b' ≤ effectiveAt u)) as [Hb Hu].
  { subst b'. destruct (doneAt u); [done|]. destruct (Z.ltb_spec (effectiveAt u) bound); lia. }
  split; [lia|]. intros t [->|Ht]%elem_of_cons Hd; [specialize (Hu Hd); lia|auto].
Qed.

(** While running, the timer is armed for no later than the first moment some
    open task can be delivered, and at most a minute ahead. *)
Definition timely (now : Z) (s : sched) : Prop :=
  running s = true →
  ∃ f, timer s = Some f ∧ f ≤ now + 60000
    ∧ ∀ id t, rows s !! id = Some t → doneAt t = None → f ≤ Z.max now (effectiveAt t).

Lemma rearm_timely now s : timely now (rearm now s).
Proof.
  unfold timely, rearm. destruct (running s) eqn:Hr; [|by rewrite Hr]. intros _. simpl.
  destruct (earliest_spec (now + 60000) (list_tasks s)) as [H1 H2].
  eexists. split; [done|]. split; [lia|]. intros id t Ht Hd.
  assert (t ∈ list_tasks s) as Hin.
  { unfold list_tasks. rewrite by_time_perm. apply elem_all_rows. eauto. }
  specialize (H2 t Hin Hd). lia.
Qed.

Lemma timely_later now now' s : now ≤ now' → timely now s → timely now' s.
Proof.
  intros Hle H Hr. destruct (H Hr) as (f & Hf & Hb & Ht). exists f. split_and!; [done|lia|].
  intros id t Hid Hd. specialize (Ht id t Hid Hd). lia.
Qed.

Lemma each_open_timely now f l s :
  (∀ c s, timely now (f c s)) → timely now s → timely now (each_open f l s).
Proof.
  intros Hf. unfold each_open. revert s. induction l as [|t l IH]; intros s Hs; simpl; [done|].
  apply IH. by destruct (doneAt t).
Qed.

(** Moving a task later keeps the timer good. *)
Lemma postpone_timely now id next s :
  (∀ t, rows s !! id = Some t → nextRunAt t ≤ next) → timely now s →
  timely now (updateNextRun id next s).
Proof.
  intros Hn H Hr. destruct (H Hr) as (f & Hf & Hb & Ht). exists f. split_and!; [done|done|].
  intros i t. unfold updateNextRun, update_row. simpl. rewrite lookup_alter. case_decide; subst.
  - intros (t0 & Hi & ->)%fmap_Some Hd. specialize (Ht i t0 Hi Hd). specialize (Hn t0 Hi).
    unfold effectiveAt in *. simpl. destruct (snoozeUntil t0); simpl in *; lia.
  - apply Ht.
Qed.

(** ** Catching up a recurrence *)

Lemma catch_up_later fuel next a interval :
  0 < interval → next ≤ catch_up fuel next a interval.
Proof.
  intros Hi. revert next. induction fuel as [|fuel IH]; intros next; simpl; [done|].
  case_match; [|done]. specialize (IH (next + interval)). lia.
Qed.

(** The loop ends within its fuel, at the first slot of the cadence after
    [a]. *)
Lemma catch_up_spec next a interval fuel :
  0 < interval → (catch_up_fuel next a ≤ fuel)%nat →
  let r := catch_up fuel next a interval in
  a < r ∧ (r - next) mod interval = 0 ∧ next ≤ r ∧ (next < r → r - interval ≤ a).
Proof.
  intros Hi. revert next. induction fuel as [|fuel IH]; intros next Hf; simpl.
  { unfold catch_up_fuel in Hf. rewrite Z.sub_diag, Z.mod_0_l by lia. lia. }
  destruct (Z.leb_spec next a) as [Hle|Hgt].
  - destruct (IH (next + interval)) as (H1 & H2 & H3 & H4).
    { unfold catch_up_fuel in *. lia. }
    split_and!; [done| |lia|].
    + rewrite <- H2. rewrite <- (Z_mod_plus_full (catch_up fuel (next + interval) a interval
        - (next + interval)) 1 interval). f_equal. lia.
    + intros _. destruct (Z.eq_dec (catch_up fuel (next + interval) a interval) (next + interval));
        [lia|]. apply H4. lia.
  - rewrite Z.sub_diag, Z.mod_0_l by lia. lia.
Qed.

Lemma getByName_row name s t :
  wf s → getByName name s = Some t → rows s !! t_id t = Some t ∧ t_name t = name.
Proof.
  intros Hs H. apply List.find_some in H as [Hin Hn]. apply list_elem_of_In, elem_all_rows in Hin
    as [id Hid]. destruct (wf_id s Hs _ _ Hid) as [-> _]. split; [done|]. by apply String.eqb_eq.
Qed.

Lemma perform_timely now o s : wf s → timely now s → timely now (perform now o s).
Proof.
  intros Hwf Hs. destruct o as [opts|id p|id|id a|name a|id u|name u| |]; simpl.
  - unfold attempt, create. autorewrite with eff. destruct (negb _); simpl; [apply rearm_timely|done].
  - unfold attempt, update. autorewrite with eff. destruct (getById id s) as [cur|]; [|done].
    destruct (empty_patch p); [done|]. autorewrite with eff. case_bool_decide; [|done].
    destruct (p_snoozeUntil p) as [[u|]|]; autorewrite with eff; simpl; apply rearm_timely.
  - unfold attempt, delete_task. autorewrite with eff.
    destruct (rows s !! id); autorewrite with eff; simpl; [apply rearm_timely|done].
  - apply rearm_timely.
  - unfold attempt, markDoneByName. autorewrite with eff.
    destruct (getByName name s) as [task|] eqn:Hg; [|done].
    apply getByName_row in Hg as [Hrow _]; [|done].
    destruct (intervalMs task) as [i|], (doneAt task); [|destruct (Z.ltb_spec 0 i)|..];
      autorewrite with eff; simpl; apply each_open_timely;
      try (intros c s'; apply rearm_timely); try apply rearm_timely.
    apply postpone_timely; [|done]. intros t Ht. rewrite Hrow in Ht. injection Ht as <-.
    by apply catch_up_later.
  - apply rearm_timely.
  - unfold attempt, snoozeByName. autorewrite with eff.
    destruct (getByName name s) as [task|]; [|done]. autorewrite with eff. simpl.
    apply each_open_timely; [intros c s'; apply rearm_timely|apply rearm_timely].
  - apply rearm_timely.
  - unfold timely. simpl. done.
Qed.

(** ** Cascades *)

(** A sweep over the open children leaves the swept property on each of them. *)
Lemma each_open_sweeps (P : ScheduledTask → Prop) g f l s id t :
  (∀ c s, rows (f c s) = alter g c (rows s)) → (∀ t, P (g t)) →
  rows (each_open f l s) !! id = Some t →
  (∃ u, u ∈ l ∧ t_id u = id ∧ doneAt u = None) ∨ (∀ t0, rows s !! id = Some t0 → P t0) →
  P t.
Proof.
  intros Hf Hg. unfold each_open. revert s. induction l as [|u l IH]; intros s Hid; simpl in *.
  { intros [(v & Hv & _)|H]; [by apply not_elem_of_nil in Hv|by apply H]. }
  intros H. eapply IH; [exact Hid|].
  assert (∀ t0, rows (f (t_id u) s) !! id = Some t0 →
            t_id u = id ∨ (∀ t1, rows s !! id = Some t1 → P t1) → P t0) as Hstep.
  { intros t0. rewrite Hf, lookup_alter. case_decide; [|naive_solver].
    intros (t1 & _ & ->)%fmap_Some _. apply Hg. }
  destruct H as [(v & [->|Hv]%elem_of_cons & Hi & Hd)|H].
  - right. rewrite Hd. intros t0 Ht0. eauto.
  - left. eauto.
  - right. destruct (doneAt u); [done|]. intros t0 Ht0. eauto.
Qed.

Lemma elem_listByParent t parent s :
  t ∈ listByParent parent s ↔ (∃ id, rows s !! id = Some t) ∧ parentId t = Some parent.
Proof.
  unfold listByParent. rewrite list_elem_of_In, filter_In, bool_decide_eq_true, <- list_elem_of_In.
  by rewrite elem_all_rows.
Qed.

Lemma markDone_rows c a now s : rows (markDone c a now s) = alter (with_done a) c (rows s).
Proof. unfold markDone. by destruct (rearm_shape now (update_row (with_done a) c s)) as [-> _]. Qed.
Lemma snooze_rows c u now s : rows (snooze c u now s) = alter (with_snooze u) c (rows s).
Proof. unfold snooze. by destruct (rearm_shape now (update_row (with_snooze u) c s)) as [-> _]. Qed.

(** Open children of a task are swept, whatever [s1] made of the task itself. *)
Lemma sweep_children (P : ScheduledTask → Prop) g f parent s1 id t t1 :
  wf s1 → (∀ c s, rows (f c s) = alter g c (rows s)) → (∀ t, P (g t)) →
  rows s1 !! id = Some t1 → parentId t1 = Some parent → doneAt t1 = None ∨ P t1 →
  rows (each_open f (listByParent parent s1) s1) !! id = Some t → P t.
Proof.
  intros Hs Hf Hg H1 Hp Hd Hid. eapply each_open_sweeps; [done..|].
  destruct Hd as [Hd|Hd]; [left|right; intros t0 H0; congruence].
  exists t1. destruct (wf_id s1 Hs _ _ H1) as [Hi _]. split_and!; [|done|done].
  apply elem_listByParent. eauto.
Qed.

Lemma each_open_other g f l s id :
  (∀ c s, rows (f c s) = alter g c (rows s)) → (∀ u, u ∈ l → t_id u ≠ id) →
  rows (each_open f l s) !! id = rows s !! id.
Proof.
  intros Hf. unfold each_open. revert s. induction l as [|u l IH]; intros s Hne; simpl; [done|].
  rewrite IH by set_solver. destruct (doneAt u); [done|]. rewrite Hf, lookup_alter_ne; [done|].
  apply Hne. set_solver.
Qed.

Lemma each_open_dom g f l s id :
  (∀ c s, rows (f c s) = alter g c (rows s)) →
  is_Some (rows s !! id) → is_Some (rows (each_open f l s) !! id).
Proof.
  intros Hf. unfold each_open. revert s. induction l as [|u l IH]; intros s H; simpl; [done|].
  apply IH. destruct (doneAt u); [done|]. rewrite Hf. by rewrite lookup_alter_is_Some.
Qed.
