(* ===== verification/SchedulerTheorems.v ===== *)
(** * What the scheduler guarantees

    Statements about src/store/scheduler.ts for any table, any sequence of
    operations and polls, and any callback. *)

From S2P Require Import Prelude Scheduler SchedulerFacts.
Local Open Scope string_scope.
Local Open Scope list_scope.
Local Open Scope Z_scope.

Section theorems.
Context (onTaskWake : ScheduledTask → list op * bool).

(** C18. In a table as the operations keep it ([wf]: rows under their ids, below the
    next one, with distinct names), a poll delivers what is due and nothing else:
    whatever the callback does to the queue in between - marking done, snoozing, moving, deleting tasks - and
    however often it throws, every task handed to it is the very row that the table
    holds under its id at that moment, which is open, at or past its time and not
    snoozed; and no task is delivered twice in one poll.  When the callback leaves
    the queue alone (it may still throw), every task that was due when the poll began
    is delivered, in the order of [listDue]. *)
Theorem poll_delivers_due s now clock :
  wf s →
  ∃ w, log (poll onTaskWake now clock s).2 = log s ++ w
    ∧ Forall (λ '(t, row), row = Some t ∧ doneAt t = None ∧ nextRunAt t ≤ now
                           ∧ ∀ u, snoozeUntil t = Some u → u ≤ now) w
    ∧ NoDup (map (λ x, t_id x.1) w)
    ∧ ((∀ t, (onTaskWake t).1 = []) → map (λ x, t_id x.1) w = map t_id (listDue now s)).
Proof.
  intros Hs. destruct (poll_ok onTaskWake now clock s Hs) as (_ & w & Hw & Hd & Hsub).
  assert (map (λ x, t_id x.1) (map delivered w) = map t_id w) as Hids by (by rewrite map_map).
  exists (map delivered w). rewrite Hids. split_and!; [done| | |].
  - apply Forall_map. eapply Forall_impl; [exact Hd|]. intros t Ht. unfold is_due in Ht. simpl in *. guards.
    split_and!; [done|done|done|]. intros u Hu. rewrite Hu in *. by guards.
  - eapply sublist_NoDup; [|exact Hsub]. by apply due_ids_nodup.
  - intros Hidle. destruct (poll_wakes_all onTaskWake now clock s Hidle Hs) as (w' & Hw' & Hids').
    rewrite Hw, map_app, delivered_wakes in Hw'. apply app_inv_head in Hw' as ->. exact Hids'.
Qed.

(** Done is final: whatever operations and polls follow, a task that was
    marked done is never delivered again, and its row stays done until it is
    deleted; its id is never given to another task. *)
Theorem done_is_final s l id t :
  wf s → rows s !! id = Some t → is_Some (doneAt t) →
  let s' := foldl (exec onTaskWake) s l in
  (∀ t', rows s' !! id = Some t' → is_Some (doneAt t') ∧ t_name t' = t_name t)
  ∧ ∃ w, wakes s' = wakes s ++ w ∧ ∀ x, x ∈ w → t_id x ≠ id.
Proof.
  intros Hs Hr [a Hd] s'. destruct (run_ok onTaskWake l s Hs) as (_ & Hl & w & Hw & Hk).
  fold s' in Hl, Hw. destruct (wf_id s Hs _ _ Hr) as [_ Hid]. split.
  - intros t' Ht'. destruct Hl as [_ Hl]. destruct (Hl id t' Hid Ht') as (t0 & H0 & Hsame).
    assert (t0 = t) as -> by congruence. destruct Hsame as (_ & Hn & _ & _ & Hdone).
    split; [|done]. apply Hdone. by eexists.
  - exists w. split; [done|]. intros x Hx Heq. destruct (Hk x Hx) as [_ Hx'].
    rewrite Heq in Hx'. destruct (Hx' Hid) as (t0 & H0 & Hd0). congruence.
Qed.

(** Events at non-decreasing times. *)
Inductive at_times : Z → list event → Prop :=
  | times_nil now : at_times now []
  | times_do now now' o l : now ≤ now' → at_times now' l → at_times now (Do now' o :: l)
  | times_poll now now' clock l :
      now ≤ now' → now' ≤ clock → at_times clock l → at_times now (Poll now' clock :: l).

Definition last_time (now : Z) (l : list event) : Z :=
  foldl (λ _ e, match e with Do now _ => now | Poll _ clock => clock end) now l.

Lemma run_timely l now s :
  wf s → timely now s → at_times now l →
  timely (last_time now l) (foldl (exec onTaskWake) s l).
Proof.
  unfold last_time. revert now s. induction l as [|e l IH]; intros now s Hwf Hs Ht; simpl; [done|].
  inversion Ht as [|? ? ? ? Hle Hrest|? ? ? ? Hle Hle' Hrest]; subst; simpl in *.
  - apply IH; [by apply (evolves_wf s), perform_ok|apply perform_timely; [done|]|done].
    by eapply timely_later.
  - apply IH; [by apply (evolves_wf s), poll_ok| |done].
    unfold attempt, poll. destruct (dispatch_all _ _ _ _ _) as [[|e [|e' es]] s1]; simpl;
      apply rearm_timely.
Qed.

(** The timer is never late: along any sequence of operations and polls
    at non-decreasing times, while the scheduler runs its timer is armed, at
    most a minute ahead, and for no later than the first moment an open task
    can be delivered. *)
Theorem timer_never_late table next l now :
  wf (initial table next) → at_times now l →
  let s := foldl (exec onTaskWake) (initial table next) l in
  let t0 := last_time now l in
  running s = true →
  ∃ f, timer s = Some f ∧ f ≤ t0 + 60000
    ∧ ∀ id t, rows s !! id = Some t → doneAt t = None → f ≤ Z.max t0 (effectiveAt t).
Proof.
  intros Hwf Ht s t0. apply (run_timely l now (initial table next)); [done| |done].
  intros Hr. done.
Qed.

(** Marking a task done by name handles this occurrence of it: a recurring
    task moves to the first slot of its cadence after the given time and stays
    open, any other task becomes done, and in either case every open child
    (its pending nags) becomes done. *)
Theorem mark_done_by_name s name a now task :
  wf s → getByName name s = Some task → doneAt task = None →
  parentId task ≠ Some (t_id task) →
  let s' := attempt (markDoneByName name a now) s in
  (∃ t, rows s' !! t_id task = Some t
     ∧ match positive (intervalMs task) with
       | Some interval =>
           doneAt t = None ∧ a < nextRunAt t
           ∧ (nextRunAt t - nextRunAt task) mod interval = 0
           ∧ (nextRunAt task < nextRunAt t → nextRunAt t - interval ≤ a)
       | None => doneAt t = Some a
       end)
  ∧ ∀ id c, rows s !! id = Some c → parentId c = Some (t_id task) →
      ∃ c', rows s' !! id = Some c' ∧ is_Some (doneAt c').
Proof.
  intros Hs Hg Hd Hself s'. subst s'.
  destruct (getByName_row _ _ _ Hs Hg) as [Hrow _].
  set (s1 := match positive (intervalMs task) with
             | Some interval => updateNextRun (t_id task)
                 (catch_up (catch_up_fuel (nextRunAt task) a) (nextRunAt task) a interval) s
             | None => markDone (t_id task) a now s
             end).
  assert (attempt (markDoneByName name a now) s
          = each_open (λ c s, markDone c a now s) (listByParent (t_id task) s1) s1) as ->.
  { unfold attempt, markDoneByName, s1, positive. rewrite bind_get, Hg, Hd.
    destruct (intervalMs task) as [i|]; [destruct (0 <? i)|]; done. }
  assert (evolves s s1) as He.
  { subst s1. destruct (positive _); [by apply updateNextRun_ok|by apply markDone_ok]. }
  assert (∀ id, id ≠ t_id task → rows s1 !! id = rows s !! id) as Hother.
  { intros id Hne. subst s1. destruct (positive _); rewrite ?markDone_rows; simpl;
      by rewrite lookup_alter_ne. }
  split.
  - rewrite (each_open_other (with_done a));
      [|intros; apply markDone_rows|].
    + subst s1. destruct (positive (intervalMs task)) as [i|] eqn:Hpos.
      * simpl. rewrite lookup_alter_eq, Hrow. simpl. eexists. split; [done|]. simpl.
        assert (0 < i). { unfold positive in Hpos. destruct (intervalMs task) as [j|]; [|done].
          destruct (Z.ltb_spec 0 j); simplify_eq; lia. }
        pose proof (catch_up_spec (nextRunAt task) a i (catch_up_fuel (nextRunAt task) a))
          as (H1 & H2 & H3 & H4); [done|done|]. by split_and!.
      * rewrite markDone_rows, lookup_alter_eq, Hrow. simpl. by eexists.
    + intros u [[id Hu] Hp]%elem_listByParent Heq.
      assert (wf s1) as Hwf1 by (by eapply evolves_wf).
      destruct (wf_id s1 Hwf1 _ _ Hu) as [Hi _]. rewrite Heq in Hi. subst id.
      destruct He as (_ & [_ Hl] & _).
      destruct (Hl (t_id task) u) as (t0 & H0 & Hsame);
        [by destruct (wf_id s Hs _ _ Hrow)|done|].
      destruct Hsame as (_ & _ & _ & Hpar & _). apply Hself. congruence.
  - intros id c Hc Hp. destruct (decide (id = t_id task)) as [->|Hne].
    { exfalso. apply Hself. congruence. }
    assert (is_Some (rows s1 !! id)) as Hsome by (rewrite Hother by done; by eexists).
    destruct (each_open_dom (with_done a) (λ c s, markDone c a now s)
      (listByParent (t_id task) s1) s1 id) as [c' Hc']; [intros; apply markDone_rows|done|].
    exists c'. split; [done|]. rewrite <- (Hother id) in Hc by done.
    eapply (sweep_children (λ t, is_Some (doneAt t)) (with_done a)); [by eapply evolves_wf| |
      intros; by eexists|exact Hc|done| |exact Hc']; [intros; apply markDone_rows|].
    destruct (doneAt c); [right; by eexists|by left].
Qed.

(** What a delivery to a callback that leaves the queue alone does. *)
Lemma dispatch_inert task now clock s :
  wf s → rows s !! t_id task = Some task → is_due now task = true →
  onTaskWake task = ([], false) →
  dispatch onTaskWake task now clock s
  = match reschedule task now clock (add_wake task s) with
    | (inr _, s') => ([], s')
    | (inl e, s') =>
        ([e], match getById (t_id task) s' with
              | Some current =>
                  match doneAt current with
                  | None => updateNextRun (t_id task) (Z.max (nextRunAt current) (clock + 60000)) s'
                  | Some _ => s'
                  end
              | None => s'
              end)
    end.
Proof.
  intros Hs Hr Hdue Hw. unfold dispatch, getById at 1. rewrite Hr, Hdue.
  unfold handleDue, wake. autorewrite with eff. rewrite Hw. simpl. autorewrite with eff.
  unfold getById at 1. simpl. rewrite Hr.
  assert (undisturbed task task = true) as ->; [|done].
  unfold undisturbed. unfold is_due in Hdue. guards.
  rewrite !bool_decide_true, Z.eqb_refl by done. done.
Qed.

(** A delivered task that is not a reminder is consumed or moved on: a
    one-shot becomes done at the poll's time; a recurring one stays open and
    moves to its next slot, or to the poll's time when that slot has passed. *)
Theorem delivery_moves_on s task now clock :
  wf s → rows s !! t_id task = Some task → is_due now task = true →
  onTaskWake task = ([], false) → t_kind task = custom ∨ t_kind task = heartbeat →
  let '(errors, s') := dispatch onTaskWake task now clock s in
  errors = [] ∧ wakes s' = wakes s ++ [task]
  ∧ ∃ t, rows s' !! t_id task = Some t
      ∧ match positive (intervalMs task) with
        | Some interval => doneAt t = None ∧ nextRunAt t = Z.max now (nextRunAt task + interval)
        | None => doneAt t = Some now
        end.
Proof.
  intros Hs Hr Hdue Hw Hk. rewrite dispatch_inert by done.
  assert (doneAt task = None) as Hd by (unfold is_due in Hdue; by guards).
  unfold reschedule. destruct Hk as [-> | ->];
    (destruct (positive (intervalMs task)) as [i|]; autorewrite with eff;
     [split_and!; [done|simpl; by rewrite map_app|]; simpl; rewrite lookup_alter_eq, Hr; simpl; by eexists
     |split_and!; [done|rewrite markDone_quiet; simpl; by rewrite map_app|];
      rewrite markDone_rows; simpl; rewrite lookup_alter_eq, Hr; simpl; by eexists]).
Qed.

(** A recurring task or reminder that is a whole interval late is not
    moved past the present: right after its delivery it is due again at the
    very time of the poll, so the next poll delivers it once more.  (A
    reminder without an interval is always that late.) *)
Theorem overdue_delivered_again s task now clock :
  wf s → rows s !! t_id task = Some task → is_due now task = true →
  onTaskWake task = ([], false) →
  t_kind task = reminder ∧ positive (nagIntervalMs task) = None
    ∨ t_kind task ≠ reminder_nag ∧ t_kind task ≠ reminder ∧ is_Some (positive (intervalMs task)) →
  nextRunAt task + default 0 (intervalMs task) ≤ now →
  let '(errors, s') := dispatch onTaskWake task now clock s in
  errors = [] ∧ ∃ t, t ∈ listDue now s' ∧ t_id t = t_id task.
Proof.
  intros Hs Hr Hdue Hw Hk Hlate. rewrite dispatch_inert by done.
  assert (∀ s' t, rows s' !! t_id task = Some t → t_id t = t_id task → is_due now t = true →
    ∃ t, t ∈ listDue now s' ∧ t_id t = t_id task) as Hin.
  { intros s' t Ht Hid Hd. exists t. split; [|done]. unfold listDue. rewrite by_time_perm.
    apply list_elem_of_In, filter_In. split; [|done]. apply list_elem_of_In, elem_all_rows. eauto. }
  assert (∀ n, n ≤ now → is_due now (with_next n task) = true
                       ∧ is_due now (with_nag (with_next n task)) = true) as Hstill.
  { intros n Hn. unfold is_due in *. simpl. guards. rewrite bool_decide_true by done.
    apply Z.leb_le in Hn. rewrite Hn. split; done. }
  unfold reschedule. destruct Hk as [[-> Hnag]|(Hn1 & Hn2 & [i Hi])].
  - rewrite Hnag. autorewrite with eff. simpl. split; [done|].
    eapply Hin; [simpl; rewrite !lookup_alter_eq, Hr; reflexivity|reflexivity|].
    apply Hstill. lia.
  - assert (intervalMs task = Some i) as Hint.
    { unfold positive in Hi. destruct (intervalMs task); [|done]. by case_match; simplify_eq. }
    rewrite Hint in Hlate. simpl in Hlate.
    destruct (t_kind task); try done; rewrite Hi; autorewrite with eff; simpl; (split; [done|]);
      (eapply Hin; [simpl; rewrite lookup_alter_eq, Hr; reflexivity|reflexivity|]);
      apply Hstill; fold (Z.max now (nextRunAt task + i)); lia.
Qed.
End theorems.

(** ** Witnesses *)

Module Sample.
Definition inert (_ : ScheduledTask) : list op * bool := ([], false).
Definition daily : ScheduledTask :=
  mkTask 1 "daily" custom None "ping" 1000 (Some 100) None None 0 None None 0.
Definition once : ScheduledTask :=
  mkTask 2 "once" custom None "wake up" 500 None None None 0 None None 0.
Definition nag : ScheduledTask :=
  mkTask 3 "daily-nag-1" reminder_nag None "ping" 1100 None (Some 50) (Some 1) 0 None None 0.
Definition finished : ScheduledTask :=
  mkTask 4 "finished" custom None "never" 0 None None None 0 None (Some 7) 0.
Definition table : gmap Z ScheduledTask :=
  {[ 1 := daily; 2 := once; 3 := nag; 4 := finished ]}.
Definition queue : sched := initial table 5.
Lemma rows_cases id t :
  rows queue !! id = Some t →
  (id = 1 ∧ t = daily) ∨ (id = 2 ∧ t = once) ∨ (id = 3 ∧ t = nag) ∨ (id = 4 ∧ t = finished).
Proof.
  simpl. unfold table. intros H. repeat (apply lookup_insert_Some in H as [[<- <-]|[_ H]]; [tauto|]).
  apply lookup_singleton_Some in H as [<- <-]. tauto.
Qed.
Lemma queue_wf : wf queue.
Proof.
  split.
  - intros id t H%rows_cases. simpl. destruct H as [[-> ->]|[[-> ->]|[[-> ->]|[-> ->]]]]; done.
  - intros i j t u Hi%rows_cases Hj%rows_cases.
    destruct Hi as [[-> ->]|[[-> ->]|[[-> ->]|[-> ->]]]],
      Hj as [[-> ->]|[[-> ->]|[[-> ->]|[-> ->]]]]; done.
Qed.
Definition events : list event := [Do 0 OStart; Poll 1200 1201; Do 1300 (OMarkDone 1 1300)].
End Sample.

(** The callback marks another task done. *)
Definition jealous (t : ScheduledTask) : list op * bool := ([OMarkDone (if t_id t =? 2 then 3 else 2) 7], true).
Lemma poll_delivers_due_witness :
  ∃ w, log (poll jealous 1200 1201 Sample.queue).2 = w ∧ NoDup (map (λ x, t_id x.1) w)
    ∧ length w = 2%nat.
Proof.
  destruct (poll_delivers_due jealous Sample.queue 1200 1201 Sample.queue_wf)
    as (w & Hw & _ & Hn & _).
  exists w. split; [exact Hw|]. split; [exact Hn|].
  transitivity (length (log (poll jealous 1200 1201 Sample.queue).2)).
  - rewrite Hw. reflexivity.
  - vm_compute. reflexivity.
Defined.

Lemma done_is_final_witness :
  ∃ w, wakes (foldl (exec Sample.inert) Sample.queue Sample.events) = w ∧ ∀ x, x ∈ w → t_id x ≠ 4.
Proof.
  destruct (done_is_final Sample.inert Sample.queue Sample.events 4 Sample.finished Sample.queue_wf
    eq_refl ltac:(by eexists)) as (_ & w & Hw & Hx).
  exists w. split; [exact Hw|exact Hx].
Defined.

Lemma timer_never_late_witness :
  ∃ f, timer (foldl (exec Sample.inert) Sample.queue Sample.events) = Some f ∧ f ≤ 61300.
Proof.
  destruct (timer_never_late Sample.inert Sample.table 5 Sample.events 0 Sample.queue_wf)
    as (f & Hf & Hb & _).
  - repeat constructor; lia.
  - vm_compute. reflexivity.
  - exists f. split; [exact Hf|exact Hb].
Defined.

Lemma mark_done_by_name_witness :
  ∃ t, rows (attempt (markDoneByName "daily" 1234 1234) Sample.queue) !! 1 = Some t
    ∧ 1234 < nextRunAt t.
Proof.
  destruct (mark_done_by_name Sample.queue "daily" 1234 1234 Sample.daily Sample.queue_wf)
    as [(t & Ht & _ & Hn & _) _]; [vm_compute; reflexivity|reflexivity|discriminate|].
  exists t. split; [exact Ht|exact Hn].
Defined.

Lemma delivery_moves_on_witness :
  ∃ t, rows (dispatch Sample.inert Sample.daily 1050 1051 Sample.queue).2 !! 1 = Some t
    ∧ nextRunAt t = 1100.
Proof.
  pose proof (delivery_moves_on Sample.inert Sample.queue Sample.daily 1050 1051 Sample.queue_wf
    eq_refl eq_refl eq_refl (or_introl eq_refl)) as H.
  destruct (dispatch Sample.inert Sample.daily 1050 1051 Sample.queue) as [errors s'].
  destruct H as (_ & _ & t & Ht & _ & Hn). exists t. split; [exact Ht|exact Hn].
Defined.

Lemma overdue_delivered_again_witness :
  ∃ t, t ∈ listDue 1200 (dispatch Sample.inert Sample.daily 1200 1201 Sample.queue).2 ∧ t_id t = 1.
Proof.
  pose proof (overdue_delivered_again Sample.inert Sample.queue Sample.daily 1200 1201 Sample.queue_wf
    eq_refl eq_refl eq_refl) as H.
  destruct (dispatch Sample.inert Sample.daily 1200 1201 Sample.queue) as [errors s'].
  destruct H as [_ H]; [right; split; [done|split; [done|by eexists]]|simpl; lia|exact H].
Defined.
