(* ===== verification/XXHash.v ===== *)
(** * XXH64 (src/llm/oauth/xxhash.ts)

    The hash behind the request attestation.  The code works on arbitrary
    precision integers and masks to 64 bits; the loops walk an index through
    the buffer.  Reading past the buffer throws, here [None]. *)

From Equations Require Import Equations.
From S2P Require Import Prelude.
Local Open Scope Z_scope.
Local Open Scope list_scope.

(** ** The code *)

Definition MASK : Z := 0xffffffffffffffff.
Definition PRIME1 : Z := 0x9e3779b185ebca87.
Definition PRIME2 : Z := 0xc2b2ae3d27d4eb4f.
Definition PRIME3 : Z := 0x165667b19e3779f9.
Definition PRIME4 : Z := 0x85ebca77c2b2ae63.
Definition PRIME5 : Z := 0x27d4eb2f165667c5.

Definition mul (a b : Z) : Z := Z.land (a * b) MASK.
Definition add (a b : Z) : Z := Z.land (a + b) MASK.
Definition rotl (x r : Z) : Z := Z.land (Z.lor (Z.shiftl x r) (Z.shiftr x (64 - r))) MASK.

Definition round (acc input : Z) : Z := mul (rotl (add acc (mul input PRIME2)) 31) PRIME1.
Definition mergeRound (acc val : Z) : Z :=
  add (mul (Z.lxor acc (round 0 val)) PRIME1) PRIME4.

(** [for (let b = n - 1; b >= 0; b--) v = (v << 8n) | BigInt(buf[i + b]);] *)
Fixpoint read_loop (buf : list Z) (i n : nat) (v : Z) : option Z :=
  match n with
  | O => Some v
  | S b => x ← buf !! (i + b)%nat; read_loop buf i b (Z.lor (Z.shiftl v 8) x)
  end.
Definition read64 (buf : list Z) (i : nat) : option Z := read_loop buf i 8 0.
Definition read32 (buf : list Z) (i : nat) : option Z := read_loop buf i 4 0.

(** The four accumulators. *)
Record lanes := mkLanes { v1 : Z; v2 : Z; v3 : Z; v4 : Z }.

(** [while (p <= limit)] *)
Fixpoint stripe_loop (fuel : nat) (buf : list Z) (limit p : nat) (v : lanes)
    : option (nat * lanes) :=
  match fuel with
  | O => None
  | S fuel =>
      if Nat.leb p limit then
        w1 ← read64 buf p;
        w2 ← read64 buf (p + 8);
        w3 ← read64 buf (p + 16);
        w4 ← read64 buf (p + 24);
        stripe_loop fuel buf limit (p + 32)
          (mkLanes (round (v1 v) w1) (round (v2 v) w2) (round (v3 v) w3) (round (v4 v) w4))
      else Some (p, v)
  end.

(** [while (p + 8 <= len)] *)
Fixpoint word_loop (fuel : nat) (buf : list Z) (p : nat) (h64 : Z) : option (nat * Z) :=
  match fuel with
  | O => None
  | S fuel =>
      if Nat.leb (p + 8) (length buf) then
        w ← read64 buf p;
        word_loop fuel buf (p + 8)
          (add (mul (rotl (Z.lxor h64 (round 0 w)) 27) PRIME1) PRIME4)
      else Some (p, h64)
  end.

(** [while (p < len)] *)
Fixpoint byte_loop (fuel : nat) (buf : list Z) (p : nat) (h64 : Z) : option Z :=
  match fuel with
  | O => None
  | S fuel =>
      if Nat.ltb p (length buf) then
        b ← buf !! p;
        byte_loop fuel buf (p + 1) (mul (rotl (Z.lxor h64 (mul b PRIME5)) 11) PRIME1)
      else Some h64
  end.

Definition avalanche (h64 : Z) : Z :=
  let h64 := Z.lxor h64 (Z.shiftr h64 33) in
  let h64 := mul h64 PRIME2 in
  let h64 := Z.lxor h64 (Z.shiftr h64 29) in
  let h64 := mul h64 PRIME3 in
  let h64 := Z.lxor h64 (Z.shiftr h64 32) in
  Z.land h64 MASK.

(** The start of the hash: the stripes of a long input, or the seed. *)
Definition head (buf : list Z) (seed : Z) : option (nat * Z) :=
  let len := length buf in
  if Nat.leb 32 len then
    '(p, v) ← stripe_loop (S len) buf (len - 32) 0
      (mkLanes (add (add seed PRIME1) PRIME2) (add seed PRIME2) (Z.land seed MASK)
         (Z.land (seed - PRIME1) MASK));
    let h64 := add (add (rotl (v1 v) 1) (rotl (v2 v) 7)) (add (rotl (v3 v) 12) (rotl (v4 v) 18)) in
    Some (p, mergeRound (mergeRound (mergeRound (mergeRound h64 (v1 v)) (v2 v)) (v3 v)) (v4 v))
  else Some (0%nat, add seed PRIME5).

Definition xxh64 (buf : list Z) (seed : Z) : option Z :=
  let len := length buf in
  '(p, h64) ← head buf seed;
  let h64 := add h64 (Z.of_nat len) in
  '(p, h64) ← word_loop (S len) buf p h64;
  '(p, h64) ←
    (if Nat.leb (p + 4) len then
       w ← read32 buf p;
       Some ((p + 4)%nat, add (mul (rotl (Z.lxor h64 (mul w PRIME1)) 23) PRIME2) PRIME3)
     else Some (p, h64));
  h64 ← byte_loop (S len) buf p h64;
  Some (avalanche h64).

(** ** The reference: 64-bit words, structural recursion on the input *)

Module Reference.
Definition W : Z := 2 ^ 64.
(** Rotation of a word by [r]: the high [r] bits move to the bottom. *)
Definition rot (x r : Z) : Z := x * 2 ^ r mod W + x / 2 ^ (64 - r).
Definition rnd (acc input : Z) : Z :=
  rot ((acc + input * PRIME2) mod W) 31 * PRIME1 mod W.
Definition merge (acc val : Z) : Z := (Z.lxor acc (rnd 0 val) * PRIME1 + PRIME4) mod W.
(** A little-endian number. *)
Definition le (l : list Z) : Z := foldr (λ b acc, b + 256 * acc) 0 l.

Definition lane_step (v : lanes) (l : list Z) : lanes :=
  mkLanes (rnd (v1 v) (le (take 8 l))) (rnd (v2 v) (le (take 8 (drop 8 l))))
    (rnd (v3 v) (le (take 8 (drop 16 l)))) (rnd (v4 v) (le (take 8 (drop 24 l)))).

Equations? stripes (l : list Z) (v : lanes) : lanes * list Z by wf (length l) lt :=
  stripes l v with le_dec 32 (length l) => {
    | left _ := stripes (drop 32 l) (lane_step v l);
    | right _ := (v, l) }.
Proof. rewrite length_drop. lia. Qed.

Definition word_step (h w : Z) : Z := (rot (Z.lxor h (rnd 0 w)) 27 * PRIME1 + PRIME4) mod W.
Equations? words (l : list Z) (h : Z) : Z * list Z by wf (length l) lt :=
  words l h with le_dec 8 (length l) => {
    | left _ := words (drop 8 l) (word_step h (le (take 8 l)));
    | right _ := (h, l) }.
Proof. rewrite length_drop. lia. Qed.

Definition half (l : list Z) (h : Z) : Z * list Z :=
  if Nat.leb 4 (length l)
  then ((rot (Z.lxor h (le (take 4 l) * PRIME1 mod W)) 23 * PRIME2 + PRIME3) mod W, drop 4 l)
  else (h, l).

Definition byte_step (h b : Z) : Z := rot (Z.lxor h (b * PRIME5 mod W)) 11 * PRIME1 mod W.

Definition finish (h : Z) : Z :=
  let h := Z.lxor h (h / 2 ^ 33) * PRIME2 mod W in
  let h := Z.lxor h (h / 2 ^ 29) * PRIME3 mod W in
  Z.lxor h (h / 2 ^ 32).

Definition start (l : list Z) (seed : Z) : Z * list Z :=
  if Nat.leb 32 (length l) then
    let '(v, rest) := stripes l (mkLanes ((seed + PRIME1 + PRIME2) mod W) ((seed + PRIME2) mod W)
                                   (seed mod W) ((seed - PRIME1) mod W)) in
    let h := (rot (v1 v) 1 + rot (v2 v) 7 + rot (v3 v) 12 + rot (v4 v) 18) mod W in
    (merge (merge (merge (merge h (v1 v)) (v2 v)) (v3 v)) (v4 v), rest)
  else ((seed + PRIME5) mod W, l).

Definition hash (l : list Z) (seed : Z) : Z :=
  let '(h, rest) := start l seed in
  let '(h, rest) := words rest ((h + Z.of_nat (length l)) mod W) in
  let '(h, rest) := half rest h in
  finish (foldl byte_step h rest).
End Reference.

(** * XXH64: the code computes the reference

    Masking is arithmetic modulo 2^64, the index loops are recursion over the
    rest of the input, no read is out of range and no fuel runs out
    (src/llm/oauth/xxhash.ts). *)

Import Reference.

(** ** Words *)

Definition word (x : Z) : Prop := 0 ≤ x < W.
Definition byte (x : Z) : Prop := 0 ≤ x < 256.

Lemma land_mask x : Z.land x MASK = x mod W.
Proof. apply (Z.land_ones x 64). lia. Qed.
Lemma mod_word x : word (x mod W).
Proof. apply Z.mod_pos_bound. done. Qed.
Lemma mul_spec a b : mul a b = a * b mod W.
Proof. apply land_mask. Qed.
Lemma add_spec a b : add a b = (a + b) mod W.
Proof. apply land_mask. Qed.

Lemma word_testbit x i : word x → 64 ≤ i → Z.testbit x i = false.
Proof.
  intros [Hx Hw] Hi. destruct (Z.eq_dec x 0) as [->|Hn]; [apply Z.testbit_0_l|].
  apply Z.bits_above_log2; [done|]. apply Z.lt_le_trans with 64; [|done].
  apply Z.log2_lt_pow2; [lia|done].
Qed.

Lemma lxor_word a b : word a → word b → word (Z.lxor a b).
Proof.
  intros Ha Hb.
  assert (Z.lxor a b = Z.lxor a b mod W) as ->; [|apply mod_word].
  rewrite <- land_mask. change MASK with (Z.ones 64). symmetry.
  apply Z.bits_inj'. intros n Hn. rewrite Z.land_spec, Z.lxor_spec.
  destruct (Z.lt_ge_cases n 64).
  - rewrite Z.ones_spec_low by lia. by rewrite andb_true_r.
  - rewrite (word_testbit a), (word_testbit b) by done. done.
Qed.

Lemma shiftr_word x n : word x → 0 ≤ n → word (Z.shiftr x n).
Proof.
  intros [H1 H2] Hn. rewrite Z.shiftr_div_pow2 by done.
  assert (0 < 2 ^ n) by (apply Z.pow_pos_nonneg; lia). split.
  - by apply Z.div_pos.
  - apply Z.le_lt_trans with x; [|done]. apply Z.div_le_upper_bound; [done|]. nia.
Qed.

(** The masked shifts are a rotation. *)
Lemma rotl_spec x r : word x → 0 < r < 64 → rotl x r = rot x r.
Proof.
  intros [H0 H1] Hr. unfold rotl, rot. rewrite land_mask.
  rewrite Z.shiftl_mul_pow2, Z.shiftr_div_pow2 by lia.
  assert (0 < 2 ^ r) by (apply Z.pow_pos_nonneg; lia).
  assert (0 < 2 ^ (64 - r)) by (apply Z.pow_pos_nonneg; lia).
  assert (2 ^ r * 2 ^ (64 - r) = W) as HW
    by (rewrite <- Z.pow_add_r by lia; unfold W; f_equal; lia).
  assert (0 ≤ x / 2 ^ (64 - r) < 2 ^ r) as Hq.
  { split; [apply Z.div_pos; lia|]. apply Z.div_lt_upper_bound; [done|]. lia. }
  assert (Z.lor (x * 2 ^ r) (x / 2 ^ (64 - r)) = x * 2 ^ r + x / 2 ^ (64 - r)) as ->.
  { rewrite <- (Z.shiftl_mul_pow2 x r) by lia.
    set (q := x / 2 ^ (64 - r)) in *.
    assert (Z.land (Z.shiftl x r) q = 0) as Hdisj.
    { apply Z.bits_inj'. intros n Hn. rewrite Z.land_spec, Z.bits_0, Z.shiftl_spec by done.
      destruct (Z.lt_ge_cases n r); [by rewrite Z.testbit_neg_r by lia|].
      apply andb_false_iff. right. destruct (Z.eq_dec q 0) as [->|]; [apply Z.testbit_0_l|].
      apply Z.bits_above_log2; [lia|]. apply Z.lt_le_trans with r; [|done].
      apply Z.log2_lt_pow2; lia. }
    rewrite <- Z.lxor_lor by done. symmetry. by apply Z.add_nocarry_lxor. }
  rewrite <- Z.add_mod_idemp_l by done. apply Z.mod_small.
  assert (x * 2 ^ r mod W = 2 ^ r * (x mod 2 ^ (64 - r))) as ->.
  { rewrite <- HW, Z.mul_comm. by rewrite Z.mul_mod_distr_l by lia. }
  pose proof (Z.mod_pos_bound x (2 ^ (64 - r)) ltac:(lia)). nia.
Qed.

Lemma rot_word x r : word x → 0 < r < 64 → word (rot x r).
Proof. intros Hx Hr. rewrite <- rotl_spec by done. unfold rotl. rewrite land_mask. apply mod_word. Qed.

Lemma round_spec acc input : round acc input = rnd acc input.
Proof.
  unfold round, rnd. rewrite !mul_spec, add_spec, Z.add_mod_idemp_r by done.
  by rewrite rotl_spec by (try apply mod_word; lia).
Qed.
Lemma rnd_word acc input : word (rnd acc input).
Proof. apply mod_word. Qed.
Lemma mergeRound_spec acc val : mergeRound acc val = merge acc val.
Proof.
  unfold mergeRound, merge. by rewrite add_spec, mul_spec, round_spec, Z.add_mod_idemp_l by done.
Qed.

(** ** Reads *)

Lemma lor_byte v x : 0 ≤ v → byte x → Z.lor (Z.shiftl v 8) x = x + 256 * v.
Proof.
  intros Hv [H0 H1].
  assert (Z.land (Z.shiftl v 8) x = 0) as Hd.
  { apply Z.bits_inj'. intros n Hn. rewrite Z.land_spec, Z.bits_0, Z.shiftl_spec by done.
    destruct (Z.lt_ge_cases n 8); [by rewrite Z.testbit_neg_r by lia|].
    apply andb_false_iff. right. destruct (Z.eq_dec x 0) as [->|]; [apply Z.testbit_0_l|].
    apply Z.bits_above_log2; [done|]. apply Z.lt_le_trans with 8; [|done].
    apply Z.log2_lt_pow2; lia. }
  rewrite <- Z.lxor_lor by done. rewrite <- Z.add_nocarry_lxor by done.
  rewrite Z.shiftl_mul_pow2 by lia. lia.
Qed.

Lemma le_app l l' : le (l ++ l') = le l + 256 ^ Z.of_nat (length l) * le l'.
Proof.
  induction l as [|b l IH]; [unfold le; simpl; lia|].
  change (le ((b :: l) ++ l')) with (b + 256 * le (l ++ l')). rewrite IH.
  change (le (b :: l)) with (b + 256 * le l). cbn [length].
  rewrite Nat2Z.inj_succ, Z.pow_succ_r by lia. lia.
Qed.
Lemma le_nonneg l : Forall byte l → 0 ≤ le l.
Proof.
  induction 1 as [|b l [Hb _] _ IH]; [done|]. change (le (b :: l)) with (b + 256 * le l). lia.
Qed.

Lemma read_loop_spec buf i n v :
  Forall byte buf → 0 ≤ v → (i + n ≤ length buf)%nat →
  read_loop buf i n v = Some (le (take n (drop i buf)) + 256 ^ Z.of_nat n * v).
Proof.
  intros Hb. revert v. induction n as [|n IH]; intros v Hv Hn.
  { simpl. f_equal. unfold le. simpl. lia. }
  destruct (lookup_lt_is_Some_2 buf (i + n)) as [x Hx]; [lia|]. cbn [read_loop]. rewrite Hx. simpl.
  assert (byte x) as Hbx by (rewrite Forall_lookup in Hb; by eapply Hb).
  rewrite lor_byte, IH by (try done; destruct Hbx; lia). f_equal.
  assert (take (S n) (drop i buf) = take n (drop i buf) ++ [x]) as ->.
  { apply take_S_r. by rewrite lookup_drop. }
  rewrite le_app, length_take, length_drop, Nat.min_l by lia.
  change (le [x]) with (x + 256 * 0). rewrite Nat2Z.inj_succ, Z.pow_succ_r by lia. ring.
Qed.

Lemma read64_spec buf i :
  Forall byte buf → (i + 8 ≤ length buf)%nat → read64 buf i = Some (le (take 8 (drop i buf))).
Proof. intros. unfold read64. rewrite read_loop_spec by done. f_equal. lia. Qed.
Lemma read32_spec buf i :
  Forall byte buf → (i + 4 ≤ length buf)%nat → read32 buf i = Some (le (take 4 (drop i buf))).
Proof. intros. unfold read32. rewrite read_loop_spec by done. f_equal. lia. Qed.

(** ** Loops *)

Lemma stripe_loop_spec fuel buf p v :
  Forall byte buf → (32 ≤ length buf)%nat → (p ≤ length buf)%nat → (length buf - p < fuel)%nat →
  ∃ p', stripe_loop fuel buf (length buf - 32) p v = Some (p', (stripes (drop p buf) v).1)
    ∧ (p' ≤ length buf)%nat ∧ drop p' buf = (stripes (drop p buf) v).2.
Proof.
  intros Hb Hlen. revert p v. induction fuel as [|fuel IH]; intros p v Hp Hf; [lia|].
  cbn [stripe_loop]. rewrite (stripes_equation_1 (drop p buf) v). unfold stripes_clause_1.
  destruct (le_dec 32 (length (drop p buf))) as [Hle|Hgt];
    pose proof (length_drop buf p) as Hdl.
  - rewrite (proj2 (Nat.leb_le _ _)) by lia.
    rewrite !read64_spec by (try done; lia). simpl.
    destruct (IH (p + 32)%nat (lane_step v (drop p buf))) as (p' & Hl & Hp' & Hd); [lia|lia|].
    exists p'. rewrite drop_drop. unfold lane_step in *. rewrite !drop_drop, !round_spec in *.
    done.
  - rewrite (proj2 (Nat.leb_gt _ _)) by lia. exists p. done.
Qed.

Lemma word_loop_spec fuel buf p h :
  Forall byte buf → word h → (p ≤ length buf)%nat → (length buf - p < fuel)%nat →
  ∃ p', word_loop fuel buf p h = Some (p', (words (drop p buf) h).1)
    ∧ (p' ≤ length buf)%nat ∧ drop p' buf = (words (drop p buf) h).2
    ∧ word (words (drop p buf) h).1.
Proof.
  intros Hb. revert p h. induction fuel as [|fuel IH]; intros p h Hh Hp Hf; [lia|].
  cbn [word_loop]. rewrite (words_equation_1 (drop p buf) h). unfold words_clause_1.
  destruct (le_dec 8 (length (drop p buf))) as [Hle|Hgt];
    pose proof (length_drop buf p) as Hdl.
  - rewrite (proj2 (Nat.leb_le _ _)) by lia. rewrite read64_spec by (try done; lia). simpl.
    assert (add (mul (rotl (Z.lxor h (round 0 (le (take 8 (drop p buf))))) 27) PRIME1) PRIME4
            = word_step h (le (take 8 (drop p buf)))) as ->.
    { rewrite add_spec, mul_spec, round_spec, rotl_spec, Z.add_mod_idemp_l by
        first [done|lia|apply lxor_word; [done|apply rnd_word]]. done. }
    destruct (IH (p + 8)%nat (word_step h (le (take 8 (drop p buf))))) as (p' & H);
      [apply mod_word|lia|lia|]. exists p'. by rewrite drop_drop.
  - rewrite (proj2 (Nat.leb_gt _ _)) by lia. exists p. done.
Qed.

Lemma byte_loop_spec fuel buf p h :
  word h → (p ≤ length buf)%nat → (length buf - p < fuel)%nat →
  byte_loop fuel buf p h = Some (foldl byte_step h (drop p buf)).
Proof.
  revert p h. induction fuel as [|fuel IH]; intros p h Hh Hp Hf; [lia|]. cbn [byte_loop].
  destruct (Nat.ltb_spec p (length buf)).
  - destruct (lookup_lt_is_Some_2 buf p) as [x Hx]; [done|]. rewrite Hx. simpl.
    rewrite (drop_S _ _ _ Hx). simpl.
    assert (mul (rotl (Z.lxor h (mul x PRIME5)) 11) PRIME1 = byte_step h x) as ->.
    { rewrite !mul_spec, rotl_spec by first [lia|apply lxor_word; [done|apply mod_word]]. done. }
    replace (p + 1)%nat with (S p) by lia. apply IH; [apply mod_word|lia|lia].
  - by rewrite drop_ge by lia.
Qed.

Lemma byte_steps_word h l : word h → word (foldl byte_step h l).
Proof. revert h. induction l; intros h Hh; simpl; [done|]. apply IHl, mod_word. Qed.

Lemma avalanche_spec h : word h → avalanche h = finish h ∧ word (finish h).
Proof.
  intros Hh. unfold avalanche, finish. rewrite land_mask, !mul_spec, !Z.shiftr_div_pow2 by lia.
  set (h2 := _ * PRIME3 mod W).
  assert (word (Z.lxor h2 (h2 / 2 ^ 32))) as Hw.
  { apply lxor_word; [apply mod_word|]. rewrite <- Z.shiftr_div_pow2 by lia.
    apply shiftr_word; [apply mod_word|lia]. }
  split; [by apply Z.mod_small|done].
Qed.

Lemma half_spec buf p h :
  Forall byte buf → word h → (p ≤ length buf)%nat →
  ∃ p', (if Nat.leb (p + 4) (length buf) then
           w ← read32 buf p;
           Some ((p + 4)%nat, add (mul (rotl (Z.lxor h (mul w PRIME1)) 23) PRIME2) PRIME3)
         else Some (p, h)) = Some (p', (half (drop p buf) h).1)
    ∧ (p' ≤ length buf)%nat ∧ drop p' buf = (half (drop p buf) h).2 ∧ word (half (drop p buf) h).1.
Proof.
  intros Hb Hh Hp. unfold half. rewrite length_drop.
  destruct (Nat.leb_spec (p + 4) (length buf)) as [Hle|Hgt].
  - rewrite (proj2 (Nat.leb_le 4 _)) by lia. rewrite read32_spec by done. simpl.
    exists (p + 4)%nat. split; [|by rewrite drop_drop; split_and!; [lia|done|apply mod_word..]].
    rewrite add_spec, !mul_spec, rotl_spec, Z.add_mod_idemp_l by
      first [done|lia|apply lxor_word; [done|apply mod_word]]. done.
  - rewrite (proj2 (Nat.leb_gt 4 _)) by lia. exists p. done.
Qed.

Definition lanes_ok (v : lanes) : Prop := word (v1 v) ∧ word (v2 v) ∧ word (v3 v) ∧ word (v4 v).
Lemma stripes_ok l v : lanes_ok v → lanes_ok (stripes l v).1.
Proof.
  funelim (stripes l v); intros Hv; [|done].
  apply H. split_and!; apply rnd_word.
Qed.

Lemma head_spec buf seed :
  Forall byte buf →
  ∃ p, head buf seed = Some (p, (start buf seed).1) ∧ (p ≤ length buf)%nat
    ∧ drop p buf = (start buf seed).2.
Proof.
  intros Hb. unfold head, start. destruct (Nat.leb_spec 32 (length buf)) as [Hle|Hgt].
  - rewrite !add_spec, !land_mask, Z.add_mod_idemp_l by done.
    set (v := mkLanes _ _ _ _).
    assert (lanes_ok v) as Hv by (split_and!; apply mod_word).
    destruct (stripe_loop_spec (S (length buf)) buf 0 v) as (p & Hl & Hp & Hd); [done|done|lia|lia|].
    pose proof (stripes_ok buf v Hv) as Hok.
    rewrite drop_0 in *. rewrite Hl. simpl. destruct (stripes buf v) as [v' rest] eqn:E. simpl in *.
    exists p. split; [|done]. destruct Hok as (H1 & H2 & H3 & H4).
    rewrite !mergeRound_spec, !add_spec, !rotl_spec by (try done; lia).
    rewrite <- Z.add_mod by done. by rewrite Z.add_assoc.
  - exists 0%nat. rewrite add_spec, drop_0. split_and!; [done|lia|done].
Qed.

Lemma start_word buf seed : word (start buf seed).1.
Proof.
  unfold start. destruct (Nat.leb _ _); [|apply mod_word].
  destruct (stripes _ _) as [v rest]. apply mod_word.
Qed.

(** The code returns, and what it returns is the reference hash. *)
Lemma xxh64_reference buf seed :
  Forall byte buf → xxh64 buf seed = Some (hash buf seed) ∧ word (hash buf seed).
Proof.
  intros Hb. unfold xxh64, hash. remember (S (length buf)) as fuel eqn:Hfuel.
  destruct (head_spec buf seed Hb) as (p & Hh & Hp & Hd). rewrite Hh. simpl.
  destruct (start buf seed) as [h rest]. simpl in *. subst rest. rewrite add_spec.
  set (h1 := (h + _) mod W). assert (word h1) as Hw1 by apply mod_word.
  destruct (word_loop_spec fuel buf p h1) as (p2 & Hw & Hp2 & Hd2 & Hw2);
    [done|done|done|lia|].
  rewrite Hw. simpl. destruct (words (drop p buf) h1) as [h2 rest2]. simpl in *. subst rest2.
  destruct (half_spec buf p2 h2) as (p3 & Hf & Hp3 & Hd3 & Hw3); [done|done|done|].
  rewrite Hf. simpl. destruct (half (drop p2 buf) h2) as [h3 rest3]. simpl in *. subst rest3.
  rewrite byte_loop_spec by (try done; lia). simpl.
  destruct (avalanche_spec (foldl byte_step h3 (drop p3 buf))) as [-> ?]; [|done].
  by apply byte_steps_word.
Qed.

(** C19. For every byte buffer and every seed (of any size or sign), the hash
    returns - no read outside the buffer, no loop that runs on - and returns
    the XXH64 reference value, a 64-bit word. *)
Theorem xxh64_correct buf seed :
  Forall byte buf → xxh64 buf seed = Some (hash buf seed) ∧ 0 ≤ hash buf seed < 2 ^ 64.
Proof. apply xxh64_reference. Qed.

Definition ascii_bytes (s : string) : list Z :=
  map (λ c, Z.of_N (Ascii.N_of_ascii c)) (String.list_ascii_of_string s).

(** The published vectors. *)
Example xxh64_vectors :
  xxh64 [] 0 = Some 0xef46db3751d8e999
  ∧ xxh64 (ascii_bytes "abc") 0 = Some 0x44bc2cf5ad770999
  ∧ xxh64 (ascii_bytes "The quick brown fox jumps over the lazy dog!!!!") 0
    = Some 0xa9b4233048596906
  ∧ xxh64 (ascii_bytes "short seeded") 0x4d659218e32a3268 = Some 0x96f746d5279d4339.
Proof. by vm_compute. Qed.

Lemma xxh64_correct_witness :
  xxh64 (ascii_bytes "abc") 0 = Some (hash (ascii_bytes "abc") 0)
  ∧ hash (ascii_bytes "abc") 0 < 2 ^ 64.
Proof.
  destruct (xxh64_correct (ascii_bytes "abc") 0) as [H1 H2].
  - repeat constructor; vm_compute; discriminate || reflexivity.
  - split; [exact H1|apply H2].
Defined.
