(* ===== verification/Registry.v ===== *)
(** * Resident links (packages/gateway/src/resident-link-registry.ts)

    [GatewayResidentLinkRegistry] owns the authenticated links of a Gateway: it
    admits a socket, runs the handshake of its session, numbers what is sent on
    it and removes it.  A [LiveLink] is a shared mutable object that outlives
    its removal, so links live in a heap and the registry's map holds
    references; a reference is the link's generation.

    Sockets, listeners, the audit sink and [onFrame] are code of the caller.
    They appear as an environment: what the n-th call out of the registry
    answers, and which registry operations it performs before it returns. *)

From Stdlib Require Import Ascii.
From stdpp Require Import sorting.
From S2P Require Import Prelude Protocol Codec Session Wire.
Local Open Scope string_scope.
Local Open Scope Z_scope.

(** ** Data *)

(** [GATEWAY_RESIDENT_CLOSE] *)
Definition CLOSE_normal : Z := 1000.
Definition CLOSE_stopping : Z := 1001.
Definition CLOSE_protocol : Z := 1002.
Definition CLOSE_duplicate : Z := 1008.
Definition CLOSE_unavailable : Z := 1011.

Definition DEFAULT_HANDSHAKE_TIMEOUT_MS : Z := 10000.
Definition DEFAULT_MAX_BUFFERED_AMOUNT : Z := LIMITS_frameBytes.
Definition DEFAULT_MAX_LINKS : Z := 1024.

Inductive AuditAction :=
  | a_admitted | a_ready | a_duplicate_rejected | a_capacity_rejected
  | a_stopped_rejected | a_protocol_error | a_handshake_timeout
  | a_backpressure | a_transport_error | a_closed | a_stop.

Record AuditEvent := {
  action : AuditAction;
  at_time : Z;
  ev_instanceId : option string;
  ev_credentialId : option string;
  ev_connectionId : option string;
  ev_generation : option Z;
  ev_protocolCode : option ProtocolErrorCode;
}.

Inductive LinkState := awaiting_hello | ready.
#[export] Instance LinkState_eq_dec : EqDecision LinkState.
Proof. solve_decision. Defined.

Record AuthenticatedNode := { instanceId : string; credentialId : string }.

Record Summary := {
  sum_instanceId : string;
  sum_credentialId : string;
  sum_connectionId : string;
  sum_generation : Z;
  sum_connectedAt : Z;
  sum_readyAt : option Z;
  sum_state : LinkState;
  sum_capabilities : list Capability;
}.

Inductive Rejection := r_duplicate | r_capacity | r_stopped | r_transport_error.

Inductive Admission :=
  | Accepted (link : Summary)
  | Rejected (reason : Rejection).

Inductive LinkEvent :=
  | EvReady (link : Summary)
  | EvFrame (link : Summary) (f : frame ResidentBody)
  | EvRemoved (link : Summary).

(** [LiveLink].  [timer] and [detach] say whether a handle is held; the two
    variables [attaching] and [reentered] of the closure [admit] builds around
    a link are kept with it. *)
Record LiveLink := mkLink {
  binding : AuthenticatedNode;
  l_connectionId : string;
  generation : Z;
  connectedAt : Z;
  socket : nat;
  session : Gateway.session;
  timer : bool;
  detach : bool;
  state : LinkState;
  readyAt : option Z;
  nextOutboundSeq : Z;
  sending : bool;
  attaching : bool;
  reentered : bool;
}.

(** The calls the registry makes out of itself. *)
Inductive output :=
  | Sent (g : Z) (f : frame GatewayBody) (text : string)
  | Closed (socket : nat) (code : Z) (reason : string)
  | Audited (e : AuditEvent)
  | Notified (listener : nat) (e : LinkEvent)
  | Delivered (link : Summary) (f : frame ResidentBody)
  | Attached (g : Z)
  | Detached (g : Z)
  | TimerSet (g : Z) (delayMs : Z)
  | TimerCleared (g : Z).

Record registry := mkRegistry {
  links : gmap string Z;
  heap : gmap Z LiveLink;
  listeners : list nat;
  subscriptions : gmap nat nat;
  nextGeneration : Z;
  stopped : bool;
  calls : nat;
  log : list output;
}.

Record options := {
  supportedCapabilities : list Capability;
  handshakeTimeoutMs : Z;
  maxBufferedAmount : Z;
  maxLinks : Z;
  has_onFrame : bool;
}.

(** What reaches the registry: a public call, or a callback of the socket or
    the timer of the link with the given generation.  [OnText g None] is a
    message that is not a string. *)
Inductive op :=
  | OpPreflight (b : AuthenticatedNode)
  | OpAdmit (b : AuthenticatedNode) (socket : nat) (connectionId : string)
  | OpSend (instanceId connectionId : string) (f : frame GatewayBody)
  | OpSendEffect (instanceId connectionId : string) (effect : GatewayBody)
  | OpDisconnect (instanceId connectionId reason : string)
  | OpSubscribe (listener token : nat)
  | OpUnsubscribe (token : nat)
  | OpStop
  | OnText (g : Z) (text : option (Z * option json))
  | OnBinary (g : Z)
  | OnError (g : Z)
  | OnClose (g : Z)
  | OnTimer (g : Z).

Inductive kind :=
  | KSend | KBuffered | KClose | KAudit | KListener | KFrame | KAttach | KDetach
  | KSetTimeout | KClearTimeout.

(** The environment: the answer to the n-th call.  [None] is a clock reading or
    a buffered amount that is not a number or whose getter throws;
    [error_text n] is the message of an error thrown by the codec or the
    session, which their models leave out. *)
Record env := {
  clock_now : nat → option Z;
  buffered : nat → option Z;
  throws : kind → nat → bool;
  attach_detaches : nat → bool;
  error_text : nat → string;
  react : kind → nat → list op;
}.

(** What the registry throws to its callers. *)
Inductive failure :=
  | Protocol (code : ProtocolErrorCode)
  | OtherError.

(** ** Field updates *)

Definition set_links m (r : registry) : registry :=
  mkRegistry m (heap r) (listeners r) (subscriptions r) (nextGeneration r) (stopped r) (calls r) (log r).
Definition set_heap h (r : registry) : registry :=
  mkRegistry (links r) h (listeners r) (subscriptions r) (nextGeneration r) (stopped r) (calls r) (log r).
Definition set_listeners ls subs (r : registry) : registry :=
  mkRegistry (links r) (heap r) ls subs (nextGeneration r) (stopped r) (calls r) (log r).
Definition set_generation g (r : registry) : registry :=
  mkRegistry (links r) (heap r) (listeners r) (subscriptions r) g (stopped r) (calls r) (log r).
Definition set_stopped (r : registry) : registry :=
  mkRegistry (links r) (heap r) (listeners r) (subscriptions r) (nextGeneration r) true (calls r) (log r).
Definition set_calls n (r : registry) : registry :=
  mkRegistry (links r) (heap r) (listeners r) (subscriptions r) (nextGeneration r) (stopped r) n (log r).
Definition set_log l (r : registry) : registry :=
  mkRegistry (links r) (heap r) (listeners r) (subscriptions r) (nextGeneration r) (stopped r) (calls r) l.

Definition set_session s (l : LiveLink) : LiveLink :=
  mkLink (binding l) (l_connectionId l) (generation l) (connectedAt l) (socket l) s (timer l)
    (detach l) (state l) (readyAt l) (nextOutboundSeq l) (sending l) (attaching l) (reentered l).
Definition set_timer b (l : LiveLink) : LiveLink :=
  mkLink (binding l) (l_connectionId l) (generation l) (connectedAt l) (socket l) (session l) b
    (detach l) (state l) (readyAt l) (nextOutboundSeq l) (sending l) (attaching l) (reentered l).
Definition set_detach b (l : LiveLink) : LiveLink :=
  mkLink (binding l) (l_connectionId l) (generation l) (connectedAt l) (socket l) (session l)
    (timer l) b (state l) (readyAt l) (nextOutboundSeq l) (sending l) (attaching l) (reentered l).
Definition set_state st (l : LiveLink) : LiveLink :=
  mkLink (binding l) (l_connectionId l) (generation l) (connectedAt l) (socket l) (session l)
    (timer l) (detach l) st (readyAt l) (nextOutboundSeq l) (sending l) (attaching l) (reentered l).
Definition set_readyAt t (l : LiveLink) : LiveLink :=
  mkLink (binding l) (l_connectionId l) (generation l) (connectedAt l) (socket l) (session l)
    (timer l) (detach l) (state l) t (nextOutboundSeq l) (sending l) (attaching l) (reentered l).
Definition set_outbound n (l : LiveLink) : LiveLink :=
  mkLink (binding l) (l_connectionId l) (generation l) (connectedAt l) (socket l) (session l)
    (timer l) (detach l) (state l) (readyAt l) n (sending l) (attaching l) (reentered l).
Definition set_sending b (l : LiveLink) : LiveLink :=
  mkLink (binding l) (l_connectionId l) (generation l) (connectedAt l) (socket l) (session l)
    (timer l) (detach l) (state l) (readyAt l) (nextOutboundSeq l) b (attaching l) (reentered l).
Definition set_attaching a e (l : LiveLink) : LiveLink :=
  mkLink (binding l) (l_connectionId l) (generation l) (connectedAt l) (socket l) (session l)
    (timer l) (detach l) (state l) (readyAt l) (nextOutboundSeq l) (sending l) a e.

(** ** Construction *)

Definition boundedInteger (value : Z) : failure + Z :=
  check ((1 <=? value) && (value <=? MAX_SAFE_INTEGER)) OtherError;; mret value.

Definition create (supported : list Capability) (timeout buffer limit : option Z) (onFrame : bool)
    : failure + options :=
  match validateCapabilities (caps_json supported) with
  | inl (GatewayProtocolError c _) => inl (Protocol c)
  | inl JsTypeError => inl OtherError
  | inr caps =>
      t ← boundedInteger (default DEFAULT_HANDSHAKE_TIMEOUT_MS timeout);
      b ← boundedInteger (default DEFAULT_MAX_BUFFERED_AMOUNT buffer);
      m ← boundedInteger (default DEFAULT_MAX_LINKS limit);
      mret {| supportedCapabilities := caps; handshakeTimeoutMs := t;
              maxBufferedAmount := b; maxLinks := m; has_onFrame := onFrame |}
  end.

Definition empty_registry : registry := mkRegistry ∅ ∅ [] ∅ 1 false 0 [].

(** ** Read-only operations *)

Definition summary_of (l : LiveLink) : Summary :=
  {| sum_instanceId := instanceId (binding l);
     sum_credentialId := credentialId (binding l);
     sum_connectionId := l_connectionId l;
     sum_generation := generation l;
     sum_connectedAt := connectedAt l;
     sum_readyAt := readyAt l;
     sum_state := state l;
     sum_capabilities := match state l with
                         | ready => Gateway.negotiated (session l)
                         | awaiting_hello => []
                         end |}.

Definition live (r : registry) (inst : string) : option LiveLink :=
  g ← links r !! inst; heap r !! g.

Definition summary (r : registry) (inst : string) : option Summary :=
  summary_of <$> live r inst.
Definition lookup_link (r : registry) (inst conn : string) : option Summary :=
  l ← live r inst;
  if String.eqb (l_connectionId l) conn then Some (summary_of l) else None.

Definition isCurrent (r : registry) (g : Z) : bool :=
  match heap r !! g with
  | Some l => bool_decide (links r !! instanceId (binding l) = Some g)
  | None => false
  end.

(** [[...this.#links.values()]]: a [Map] iterates in insertion order, which is
    the order of the generations. *)
Definition live_generations (r : registry) : list Z :=
  merge_sort Z.le (map_to_list (links r)).*2.

(** [/^[a-z][a-z0-9_]{0,63}$/] *)
Definition safe_reason (s : string) : bool :=
  match s with
  | "" => false
  | String c rest =>
      ascii_in 97 122 c && Nat.leb (String.length rest) 63
      && all_chars (λ c, ascii_in 97 122 c || ascii_in 48 57 c || Ascii.eqb c "_"%char) rest
  end.

(** The request of a frame that is registered with the session before it is
    sent. *)
Definition request_of (b : GatewayBody) : option Gateway.request :=
  match b with
  | ViewerOp op rid vid => Some (Gateway.ReqViewer op rid vid)
  | MediaGet rid route => Some (Gateway.ReqMedia rid route)
  | _ => None
  end.

(** ** Operations *)

Section operations.
Context (sha256_hex : list Z → string) (opts : options) (E : env).
(** What the caller's code does to the registry during the n-th call. *)
Context (reaction : kind → nat → registry → registry).

Abbreviation M := (eff registry failure).

(** *** Control flow of the source language *)

Definition catch {A} (m : M A) (h : failure → M A) : M A := λ r,
  match m r with (inl e, r') => h e r' | res => res end.
(** [try { m } catch {}] *)
Definition swallow (m : M ()) : M () := catch m (λ _, mret tt).
(** [try { m } finally { f }] *)
Definition finally {A} (m : M A) (f : registry → registry) : M A := λ r,
  let '(res, r') := m r in (res, f r').

(** *** Calls out of the registry *)

Definition tick : M nat := λ r, (inr (calls r), set_calls (S (calls r)) r).
Definition emit (o : output) : M () := modify (λ r, set_log (log r ++ [o])%list r).
Definition callback (k : kind) (n : nat) : M () := modify (reaction k n).

(** Call out, visible as [o]; the callee may throw. *)
Definition call (k : kind) (o : output) : M nat :=
  n ← tick; emit o;; callback k n;;
  if throws E k n then throw OtherError else mret n.

(** [#now]: the clock is read, it does not call back. *)
Definition now : M Z :=
  n ← tick;
  match clock_now E n with
  | Some t => if (0 <=? t) && (t <=? MAX_SAFE_INTEGER) then mret t else throw OtherError
  | None => throw OtherError
  end.

Definition deref (g : Z) : M LiveLink :=
  r ← get;
  match heap r !! g with Some l => mret l | None => throw OtherError end.
Definition assign (g : Z) (f : LiveLink → LiveLink) (r : registry) : registry :=
  set_heap (alter f g (heap r)) r.
Definition update (g : Z) (f : LiveLink → LiveLink) : M () := modify (assign g f).
Definition current (g : Z) : M bool := r ← get; mret (isCurrent r g).

Definition audit (e : AuditEvent) : M () := swallow (call KAudit (Audited e);; mret tt).
Definition auditLink (a : AuditAction) (g : Z) : M () :=
  l ← deref g;
  t ← now;
  audit {| action := a; at_time := t;
           ev_instanceId := Some (instanceId (binding l));
           ev_credentialId := Some (credentialId (binding l));
           ev_connectionId := Some (l_connectionId l);
           ev_generation := Some (generation l); ev_protocolCode := None |}.

(** [#notify]: a snapshot of the listeners is called in order. *)
Definition notify (e : LinkEvent) : M () :=
  r ← get;
  foldr (λ l k, swallow (call KListener (Notified l e);; mret tt);; k) (mret tt) (listeners r).

Definition deliver (s : Summary) (f : frame ResidentBody) : M () :=
  if has_onFrame opts then call KFrame (Delivered s f);; mret tt else mret tt.

Definition safeClose (sock : nat) (code : Z) (reason : string) : M () :=
  swallow (call KClose (Closed sock code reason);; mret tt).

Definition hasCapacity (text : string) : M bool :=
  n ← tick; callback KBuffered n;;
  mret match buffered E n with
       | Some b => (0 <=? b) && (b <=? MAX_SAFE_INTEGER)
                   && (b + bytes text <=? maxBufferedAmount opts)
       | None => false
       end.

(** [link.socket.sendText(text)]; a call that throws sends nothing. *)
Definition sendText (g : Z) (f : frame GatewayBody) (text : string) : M () :=
  n ← tick;
  if throws E KSend n then callback KSend n;; throw OtherError
  else emit (Sent g f text);; callback KSend n.

(** *** Removal *)

Definition clearTimer (g : Z) : M () :=
  l ← deref g;
  if timer l then
    update g (set_timer false);;
    swallow (call KClearTimeout (TimerCleared g);; mret tt)
  else mret tt.

Definition remove (g : Z) : M bool :=
  cur ← current g;
  if negb cur then mret false
  else
    l ← deref g;
    let s := summary_of l in
    modify (λ r, set_links (delete (instanceId (binding l)) (links r)) r);;
    clearTimer g;;
    l ← deref g;
    update g (set_detach false);;
    (if detach l then swallow (call KDetach (Detached g);; mret tt) else mret tt);;
    notify (EvRemoved s);;
    mret true.

Definition terminate (g : Z) (code : Z) (reason : string) : M () :=
  cur ← current g;
  if negb cur then mret tt
  else l ← deref g; remove g;; safeClose (socket l) code reason.

Definition transportError (g : Z) : M () :=
  cur ← current g;
  if negb cur then mret tt
  else auditLink a_transport_error g;; terminate g CLOSE_unavailable "transport_error".

Definition peerClosed (g : Z) : M () :=
  cur ← current g;
  if negb cur then mret tt else auditLink a_closed g;; remove g;; mret tt.

(** *** Sending *)

Definition of_exn {A} (m : exn + A) : M A :=
  match m with
  | inr a => mret a
  | inl (GatewayProtocolError c _) => throw (Protocol c)
  | inl JsTypeError => throw OtherError
  end.

Definition encode (f : frame GatewayBody) : M string :=
  of_exn (serializeFrame sha256_hex (gateway_json f) gateway_to_resident).

Definition protocolFailure (g : Z) (code : ProtocolErrorCode) (message : string) : M () :=
  cur ← current g;
  if negb cur then mret tt
  else
    l ← deref g;
    t ← now;
    audit {| action := a_protocol_error; at_time := t;
             ev_instanceId := Some (instanceId (binding l));
             ev_credentialId := Some (credentialId (binding l));
             ev_connectionId := Some (l_connectionId l);
             ev_generation := Some (generation l); ev_protocolCode := Some code |};;
    l ← deref g;
    f ← of_exn (createProtocolError sha256_hex (l_connectionId l) (nextOutboundSeq l)
          {| perr_error := {| error_code := error_code_name code; error_message := message |};
             perr_fatal := true; perr_requestId := None |});
    text ← encode f;
    ok ← hasCapacity text;
    (if ok : bool then
       swallow (sendText g f text;; update g (λ l, set_outbound (nextOutboundSeq l + 1) l))
     else mret tt);;
    terminate g CLOSE_protocol "protocol_error".

Definition handshakeTimeout (g : Z) : M () :=
  cur ← current g;
  if negb cur then mret tt
  else
    l ← deref g;
    match state l with
    | ready => mret tt
    | awaiting_hello =>
        auditLink a_handshake_timeout g;;
        protocolFailure g invalid_handshake "resident hello timed out"
    end.

(** Run a method of the link's session. *)
Definition on_session {A} (g : Z) (m : eff Gateway.session exn A) : M (exn + A) :=
  l ← deref g;
  let '(res, s) := m (session l) in
  update g (set_session s);; mret res.

Definition is_fatal_error (b : GatewayBody) : bool :=
  match b with GatewayErr e => perr_fatal e | _ => false end.

(** The body of [send]'s [try]. *)
Definition send_guarded (g : Z) (conn : string) (f : frame GatewayBody) : M bool :=
  (match body f with HelloAck _ _ => throw (Protocol invalid_handshake) | _ => mret tt end);;
  require (String.eqb (connectionId f) conn) (Protocol connection_mismatch);;
  l ← deref g;
  require (seq f =? nextOutboundSeq l) (Protocol invalid_sequence);;
  text ← encode f;
  ok ← hasCapacity text;
  if negb ok then
    cur ← current g;
    (if cur : bool then auditLink a_backpressure g else mret tt);; mret false
  else
    cur ← current g;
    if negb cur then mret false
    else
      (match request_of (body f) with
       | Some q =>
           res ← on_session g (Gateway.registerRequest (mkFrame (connectionId f) (seq f) q));
           of_exn res
       | None => mret tt
       end);;
      sent ← catch (sendText g f text;; mret true) (λ _, transportError g;; mret false);
      if negb sent then mret false
      else
        cur ← current g;
        if negb cur then mret false
        else
          update g (λ l, set_outbound (nextOutboundSeq l + 1) l);;
          (if is_fatal_error (body f) then terminate g CLOSE_protocol "fatal_error"
           else mret tt);;
          mret true.

(** The exact ready link of an instance and a connection. *)
Definition ready_link (inst conn : string) : M (option Z) :=
  r ← get;
  mret match links r !! inst with
       | Some g =>
           match heap r !! g with
           | Some l => if String.eqb (l_connectionId l) conn && bool_decide (state l = ready)
                       then Some g else None
           | None => None
           end
       | None => None
       end.

Definition send (inst conn : string) (f : frame GatewayBody) : M bool :=
  found ← ready_link inst conn;
  match found with
  | None => mret false
  | Some g =>
      l ← deref g;
      if sending l then terminate g CLOSE_unavailable "reentrant_send";; mret false
      else
        update g (set_sending true);;
        finally (send_guarded g conn f) (assign g (set_sending false))
  end.

Definition sendEffect (inst conn : string) (effect : GatewayBody) : M bool :=
  found ← ready_link inst conn;
  match found with
  | None => mret false
  | Some g => l ← deref g; send inst conn (mkFrame conn (nextOutboundSeq l) effect)
  end.

Definition disconnect (inst conn reason : string) : M bool :=
  r ← get;
  match links r !! inst with
  | None => mret false
  | Some g =>
      l ← deref g;
      if negb (String.eqb (l_connectionId l) conn) then mret false
      else
        terminate g CLOSE_unavailable (if safe_reason reason then reason else "broker_cleanup");;
        mret true
  end.

(** *** Receiving *)

(** The arm of [#receiveText] for the first frame. *)
Definition acknowledge (g : Z) (f : frame ResidentBody) : M () :=
  match body f with
  | Hello _ _ _ _ =>
      clearTimer g;;
      l ← deref g;
      ack ← of_exn (createGatewayHelloAck sha256_hex (l_connectionId l) (nextOutboundSeq l)
              (instanceId (binding l)) (Gateway.negotiated (session l)));
      text ← encode ack;
      ok ← hasCapacity text;
      if negb ok then
        auditLink a_backpressure g;; terminate g CLOSE_unavailable "backpressure"
      else
        sent ← catch (sendText g ack text;; mret true) (λ _, transportError g;; mret false);
        if negb sent then mret tt
        else
          update g (λ l, set_outbound (nextOutboundSeq l + 1) l);;
          update g (set_state ready);;
          t ← now;
          update g (set_readyAt (Some t));;
          auditLink a_ready g;;
          l ← deref g;
          let s := summary_of l in
          notify (EvReady s);;
          deliver s f;;
          notify (EvFrame s f)
  | _ => protocolFailure g invalid_handshake "first resident frame must be hello"
  end.

Definition receiveText (g : Z) (text : option (Z * option json)) : M () :=
  cur ← current g;
  if negb cur then mret tt
  else
    match text with
    | None => protocolFailure g invalid_frame "adapter yielded non-text data"
    | Some (len, parsed) =>
        if LIMITS_frameBytes <? len then
          protocolFailure g frame_too_large "frame exceeds its byte limit"
        else
          res ← on_session g (Gateway.receive sha256_hex (InText len parsed));
          match res with
          | inl (GatewayProtocolError c _) =>
              r ← get; protocolFailure g c (error_text E (calls r))
          | inl JsTypeError => protocolFailure g invalid_frame "frame decoding failed"
          | inr f =>
              l ← deref g;
              match state l with
              | awaiting_hello => acknowledge g f
              | ready =>
                  if Gateway.is_fatal (body f)
                  then terminate g CLOSE_protocol "peer_fatal_error"
                  else let s := summary_of l in deliver s f;; notify (EvFrame s f)
              end
          end
    end.

Definition dispatch (g : Z) (operation : M ()) : M () :=
  cur ← current g;
  if negb cur then mret tt
  else catch operation (λ _, terminate g CLOSE_unavailable "internal_error").

(** A handler given to [socket.attach]: inert while [attach] runs. *)
Definition handler (g : Z) (operation : M ()) : M () :=
  l ← deref g;
  if attaching l then update g (set_attaching true true) else dispatch g operation.

(** *** Admission *)

Definition rejection_action (x : Rejection) : AuditAction :=
  match x with
  | r_stopped => a_stopped_rejected
  | r_duplicate => a_duplicate_rejected
  | _ => a_capacity_rejected
  end.

(** The test of [#admissionRejection]. *)
Definition rejection (r : registry) (b : AuthenticatedNode) : option Rejection :=
  if stopped r then Some r_stopped
  else if bool_decide (is_Some (links r !! instanceId b)) then Some r_duplicate
  else if (maxLinks opts <=? Z.of_nat (size (links r))) || (MAX_SAFE_INTEGER <=? nextGeneration r)
  then Some r_capacity else None.

Definition admissionRejection (b : AuthenticatedNode) : M (option Rejection) :=
  r ← get;
  match rejection r b with
  | None => mret None
  | Some x =>
      t ← now;
      audit {| action := rejection_action x; at_time := t;
               ev_instanceId := Some (instanceId b); ev_credentialId := Some (credentialId b);
               ev_connectionId := None; ev_generation := None; ev_protocolCode := None |};;
      mret (Some x)
  end.

Definition preflight (b : AuthenticatedNode) : M (option Rejection) := admissionRejection b.

Definition rejection_close (x : Rejection) : Z * string :=
  match x with
  | r_stopped => (CLOSE_stopping, "registry_stopped")
  | r_duplicate => (CLOSE_duplicate, "duplicate_instance")
  | _ => (CLOSE_unavailable, "registry_capacity")
  end.

(** The first [try] of [admit]. *)
Definition admit_setup (b : AuthenticatedNode) (conn : string)
    : M (option (Gateway.session * Z * Z)) :=
  catch (
    require (isConnectionId (JStr conn)) OtherError;;
    s ← of_exn (Gateway.create conn (instanceId b) (supportedCapabilities opts));
    t ← now;
    r ← get;
    modify (set_generation (nextGeneration r + 1));;
    mret (Some (s, t, nextGeneration r)))
  (λ _, mret None).

Definition fresh_link (b : AuthenticatedNode) (sock : nat) (conn : string)
    (s : Gateway.session) (t g : Z) : LiveLink :=
  mkLink b conn g t sock s false false awaiting_hello None 1 false true false.

(** The second [try]: [Some] is an early return. *)
Definition admit_attach (g : Z) : M (option Admission) :=
  n ← call KAttach (Attached g);
  update g (λ l, set_detach (attach_detaches E n) (set_attaching false (reentered l) l));;
  l ← deref g;
  require (negb (reentered l)) OtherError;;
  cur ← current g;
  if negb cur then mret (Some (Rejected r_transport_error))
  else
    l ← deref g;
    (match state l with
     | ready => mret tt
     | awaiting_hello =>
         call KSetTimeout (TimerSet g (handshakeTimeoutMs opts));;
         cur ← current g;
         l ← deref g;
         if cur && bool_decide (state l = awaiting_hello) then update g (set_timer true)
         else call KClearTimeout (TimerCleared g);; mret tt
     end);;
    cur ← current g;
    mret (if negb cur then Some (Rejected r_transport_error) else None).

Definition admit_link (b : AuthenticatedNode) (sock : nat) (conn : string) : M Admission :=
  rejected ← admissionRejection b;
  match rejected with
  | Some x =>
      safeClose sock (rejection_close x).1 (rejection_close x).2;;
      mret (Rejected x)
  | None =>
      setup ← admit_setup b conn;
      match setup with
      | None =>
          safeClose sock CLOSE_unavailable "transport_error";;
          mret (Rejected r_transport_error)
      | Some (s, t, g) =>
          modify (λ r, set_links (<[ instanceId b := g ]> (links r))
                         (set_heap (<[ g := fresh_link b sock conn s t g ]> (heap r)) r));;
          early ← catch (admit_attach g) (λ _,
            auditLink a_transport_error g;;
            remove g;;
            safeClose sock CLOSE_unavailable "transport_error";;
            mret (Some (Rejected r_transport_error)));
          match early with
          | Some a => mret a
          | None => auditLink a_admitted g;; l ← deref g; mret (Accepted (summary_of l))
          end
      end
  end.

(** *** Listeners and shutdown *)

(** [token] names the closure [subscribe] returns. *)
Definition subscribe (listener token : nat) : M () :=
  r ← get;
  if stopped r || bool_decide (is_Some (subscriptions r !! token)) then mret tt
  else modify (set_listeners
         (if bool_decide (listener ∈ listeners r) then listeners r
          else listeners r ++ [listener])%list
         (<[ token := listener ]> (subscriptions r))).

Definition unsubscribe (token : nat) : M () :=
  r ← get;
  match subscriptions r !! token with
  | None => mret tt
  | Some l => modify (set_listeners (List.filter (λ x, negb (Nat.eqb x l)) (listeners r))
                        (delete token (subscriptions r)))
  end.

Definition stop : M () :=
  r ← get;
  if stopped r then mret tt
  else
    modify set_stopped;;
    let gs := live_generations r in
    foldr (λ g k, remove g;; k) (mret tt) gs;;
    modify (λ r, set_listeners [] (subscriptions r) r);;
    foldr (λ g k, l ← deref g; safeClose (socket l) CLOSE_stopping "registry_stopped";; k)
      (mret tt) gs;;
    t ← now;
    audit {| action := a_stop; at_time := t; ev_instanceId := None; ev_credentialId := None;
             ev_connectionId := None; ev_generation := None; ev_protocolCode := None |}.

(** What an operation answers. *)
Inductive answer :=
  | Done
  | Flag (b : bool)
  | Checked (x : option Rejection)
  | Admitted_as (a : Admission)
  | Threw (e : failure).

Definition answered {A} (f : A → answer) (m : M A) (r : registry) : answer * registry :=
  match m r with (inr a, r') => (f a, r') | (inl e, r') => (Threw e, r') end.

Definition perform (o : op) : registry → answer * registry :=
  match o with
  | OpPreflight b => answered Checked (preflight b)
  | OpAdmit b sock conn => answered Admitted_as (admit_link b sock conn)
  | OpSend i c f => answered Flag (send i c f)
  | OpSendEffect i c e => answered Flag (sendEffect i c e)
  | OpDisconnect i c reason => answered Flag (disconnect i c reason)
  | OpSubscribe l t => answered (λ _, Done) (subscribe l t)
  | OpUnsubscribe t => answered (λ _, Done) (unsubscribe t)
  | OpStop => answered (λ _, Done) stop
  | OnText g text => answered (λ _, Done) (handler g (receiveText g text))
  | OnBinary g => answered (λ _, Done) (handler g
      (protocolFailure g invalid_frame "resident link accepts text frames only"))
  | OnError g => answered (λ _, Done) (handler g (transportError g))
  | OnClose g => answered (λ _, Done) (handler g (peerClosed g))
  | OnTimer g => answered (λ _, Done) (dispatch g (handshakeTimeout g))
  end.
End operations.

(** ** Runs

    The caller's code may call back into the registry, and that call may call
    out again: [fuel] bounds how deep such calls nest. *)

Section runs.
Context (sha256_hex : list Z → string) (opts : options) (E : env).

Fixpoint exec (fuel : nat) (o : op) (r : registry) : answer * registry :=
  perform sha256_hex opts E
    (λ k n r, match fuel with
              | O => r
              | S fuel => foldl (λ r o, (exec fuel o r).2) r (react E k n)
              end) o r.

(** The reaction [exec] uses. *)
Definition reaction_at (fuel : nat) (k : kind) (n : nat) (r : registry) : registry :=
  match fuel with
  | 0%nat => r
  | S fuel => foldl (λ r o, (exec fuel o r).2) r (react E k n)
  end.

Definition run (fuel : nat) (ops : list op) (r : registry) : registry :=
  foldl (λ r o, (exec fuel o r).2) r ops.
End runs.
