(* ===== verification/RegistrySteps.v ===== *)
(** * Resident links: atomic transitions

    Every operation of the registry, under any behaviour of its callers' code
    and any nesting of calls back into it, is a sequence of the transitions of
    [astep].  Invariants and monotonicity facts are proved on the transitions
    once, by induction on the sequence. *)

From stdpp Require Import sorting.
From S2P Require Import Prelude Protocol Codec CodecFacts Session SessionInv Wire Registry.
Local Open Scope string_scope.
Local Open Scope Z_scope.

Create HintDb keeps.

Definition is_sent (o : output) : bool := match o with Sent _ _ _ => true | _ => false end.

(** Updates of the fields that carry no promise to the peer. *)
Definition same_core (l l' : LiveLink) : Prop :=
  binding l' = binding l ∧ l_connectionId l' = l_connectionId l ∧ generation l' = generation l
  ∧ connectedAt l' = connectedAt l ∧ socket l' = socket l ∧ session l' = session l
  ∧ state l' = state l ∧ nextOutboundSeq l' = nextOutboundSeq l.

Definition append (o : output) (r : registry) : registry := set_log (log r ++ [o])%list r.
Definition bump (g : Z) : registry → registry :=
  assign g (λ l, set_outbound (nextOutboundSeq l + 1) l).
Definition publish (b : AuthenticatedNode) (sock : nat) (conn : string) (s : Gateway.session)
    (t : Z) (r : registry) : registry :=
  let g := nextGeneration r in
  set_links (<[ instanceId b := g ]> (links r))
    (set_heap (<[ g := fresh_link b sock conn s t g ]> (heap r)) (set_generation (g + 1) r)).

Section astep.
Context (sha256_hex : list Z → string) (opts : options).

(** A text the registry may hand to a socket. *)
Definition transmittable (f : frame GatewayBody) (text : string) : Prop :=
  serializeFrame sha256_hex (gateway_json f) gateway_to_resident = inr text
  ∧ bytes text ≤ maxBufferedAmount opts.

(** [loud] sockets may call back while they send. *)
Inductive astep (loud : bool) (r : registry) : registry → Prop :=
  | A_tick : astep loud r (set_calls (S (calls r)) r)
  | A_log o : is_sent o = false → astep loud r (append o r)
  | A_listeners ls subs : astep loud r (set_listeners ls subs r)
  | A_stop : astep loud r (set_stopped r)
  | A_publish b sock conn s t :
      rejection opts r b = None → isConnectionId (JStr conn) = true →
      Gateway.create conn (instanceId b) (supportedCapabilities opts) = inr s →
      astep loud r (publish b sock conn s t r)
  | A_remove g l :
      heap r !! g = Some l → links r !! instanceId (binding l) = Some g →
      astep loud r (set_links (delete (instanceId (binding l)) (links r)) r)
  | A_flags g f : (∀ l, same_core l (f l)) → astep loud r (assign g f r)
  | A_session g c :
      astep loud r (assign g (λ l,
        set_session (GatewayInv.exec sha256_hex c (session l)).2 l) r)
  | A_ready g l :
      heap r !! g = Some l → is_Some (Gateway.residentHello (session l)) →
      astep loud r (assign g (set_state ready) r)
  | A_transmit g l f text :
      heap r !! g = Some l → transmittable f text →
      connectionId f = l_connectionId l → seq f = nextOutboundSeq l →
      astep loud r (bump g (append (Sent g f text) r))
  | A_sent g f text :
      loud = true → transmittable f text → astep loud r (append (Sent g f text) r)
  | A_bump g : loud = true → astep loud r (bump g r).
End astep.

(** Generations in use were handed out before, and the map refers to links. *)
Definition wf (r : registry) : Prop :=
  (∀ g l, heap r !! g = Some l → g < nextGeneration r)
  ∧ (∀ i g, links r !! i = Some g → ∃ l, heap r !! g = Some l ∧ instanceId (binding l) = i).

Lemma assign_lookup g g' f r :
  heap (assign g f r) !! g' = if decide (g = g') then f <$> heap r !! g' else heap r !! g'.
Proof.
  unfold assign. simpl. destruct (decide (g = g')) as [->|]; [by rewrite lookup_alter_eq|].
  by rewrite lookup_alter_ne.
Qed.

Lemma assign_wf g f r : (∀ l, binding (f l) = binding l) → wf r → wf (assign g f r).
Proof.
  intros Hf [Hh Hl]. split.
  - intros g' l. rewrite assign_lookup. case_decide; [|apply Hh].
    rewrite fmap_Some. intros (l' & Hl' & _). by eapply Hh.
  - intros i g' Hi. destruct (Hl i g' Hi) as (l & Hl' & Hb). rewrite assign_lookup.
    case_decide; [|by eauto]. rewrite Hl'. eexists. split; [done|]. by rewrite Hf.
Qed.

Lemma astep_wf h opts loud r r' : astep h opts loud r r' → wf r → wf r'.
Proof.
  intros Hs Hwf. destruct Hs; try done; try by apply assign_wf.
  - destruct Hwf as [Hh Hl]. split; simpl.
    + intros g' l'. rewrite lookup_insert_Some. intros [[<- _]|[_ Hg]]; [lia|].
      specialize (Hh _ _ Hg). lia.
    + intros i g'. rewrite lookup_insert_Some. intros [[<- <-]|[_ Hg]].
      { rewrite lookup_insert_eq. by eexists. }
      destruct (Hl i g' Hg) as (l & Hl' & Hb). exists l. split; [|done].
      rewrite lookup_insert_ne; [done|]. specialize (Hh _ _ Hl'). lia.
  - destruct Hwf as [Hh Hl]. split; simpl; [done|]. intros i g'.
    rewrite lookup_delete_Some. intros [_ Hg]. by apply Hl.
  - apply assign_wf; [|done]. intros l. by destruct (H l).
Qed.
Lemma asteps_wf h opts loud r r' : rtc (astep h opts loud) r r' → wf r → wf r'.
Proof. induction 1; eauto using astep_wf. Qed.

(** ** How a link evolves *)

(** A session's call keeps its binding and its handshake. *)
Lemma session_exec h c s :
  let s' := (GatewayInv.exec h c s).2 in
  Gateway.s_connectionId s' = Gateway.s_connectionId s
  ∧ Gateway.s_instanceId s' = Gateway.s_instanceId s
  ∧ Gateway.supportedCapabilities s' = Gateway.supportedCapabilities s
  ∧ (is_Some (Gateway.residentHello s) → is_Some (Gateway.residentHello s')).
Proof.
  intros s'. subst s'.
  destruct (GatewayInv.exec_spec h c s) as [f Hf|f Ht Hf|e|e s' [->|[Ht [f ->]]]]; try done.
  unfold GatewayInv.received, GatewayInv.settled, Gateway.advanceSequence.
  repeat (case_match; simpl; try done).
Qed.

Definition evolves (l l' : LiveLink) : Prop :=
  binding l' = binding l ∧ l_connectionId l' = l_connectionId l ∧ generation l' = generation l
  ∧ connectedAt l' = connectedAt l ∧ socket l' = socket l
  ∧ Gateway.s_connectionId (session l') = Gateway.s_connectionId (session l)
  ∧ Gateway.s_instanceId (session l') = Gateway.s_instanceId (session l)
  ∧ (is_Some (Gateway.residentHello (session l)) → is_Some (Gateway.residentHello (session l')))
  ∧ (state l = ready → state l' = ready)
  ∧ nextOutboundSeq l ≤ nextOutboundSeq l'.

#[export] Instance evolves_preorder : PreOrder evolves.
Proof.
  split.
  - intros l. unfold evolves. split_and!; done || lia.
  - intros l1 l2 l3. unfold evolves. intros H1 H2. destruct_and!.
    split_and!; solve [congruence | lia | auto].
Qed.

(** What a stop promises: the links only leave from then on, and an operation
    that stops the registry leaves no link behind. *)
Definition quiesces (r r' : registry) : Prop :=
  (stopped r = true → stopped r' = true ∧ links r' ⊆ links r)
  ∧ (stopped r = false → stopped r' = true → links r' = ∅).

#[export] Instance quiesces_preorder : PreOrder quiesces.
Proof.
  split.
  - intros r. split; [done|congruence].
  - intros r1 r2 r3 [H1 H1'] [H2 H2']. split.
    + intros Hs. destruct (H1 Hs) as [Hs2 ?]. destruct (H2 Hs2) as [? ?]. split; [done|]. by etrans.
    + intros Hs Hs3. destruct (stopped r2) eqn:Hs2; [|by apply H2'].
      destruct (H2 eq_refl) as [_ Hsub]. rewrite (H1' Hs eq_refl) in Hsub.
      apply (anti_symm (⊆)); [done|apply map_empty_subseteq].
Qed.

Lemma astep_quiesces h opts loud r r' :
  astep h opts loud r r' → stopped r' = stopped r → quiesces r r'.
Proof.
  intros Hs Hst. split; [|congruence]. intros Hr. split; [congruence|].
  destruct Hs; try done.
  - unfold rejection in *. by rewrite Hr in *.
  - simpl. apply delete_subseteq.
Qed.

(** A sequence of transitions that keeps the promise of a stop. *)
Definition advance (h : list Z → string) (opts : options) (loud : bool) (r r' : registry) : Prop :=
  rtc (astep h opts loud) r r' ∧ quiesces r r'.

#[export] Instance advance_preorder h opts loud : PreOrder (advance h opts loud).
Proof.
  split; [split; reflexivity|].
  intros r1 r2 r3 [? ?] [? ?]. split; by etrans.
Qed.

Lemma advance_wf h opts loud r r' : advance h opts loud r r' → wf r → wf r'.
Proof. intros [Hs _]. by eapply asteps_wf. Qed.

Lemma isCurrent_true r g :
  isCurrent r g = true ↔
  ∃ l, heap r !! g = Some l ∧ links r !! instanceId (binding l) = Some g.
Proof.
  unfold isCurrent. destruct (heap r !! g); [|naive_solver].
  rewrite bool_decide_eq_true. naive_solver.
Qed.

Section evolution.
Context (h : list Z → string) (opts : options) (loud : bool).

Lemma assign_evolves g g' f r l :
  (∀ l, heap r !! g = Some l → evolves l (f l)) → heap r !! g' = Some l →
  ∃ l', heap (assign g f r) !! g' = Some l' ∧ evolves l l'.
Proof.
  intros Hf Hl. rewrite assign_lookup. case_decide as Hg; [|exists l; split; [done|reflexivity]]. subst.
  rewrite Hl. simpl. eauto.
Qed.

Lemma astep_link r r' g l :
  astep h opts loud r r' → wf r → heap r !! g = Some l →
  ∃ l', heap r' !! g = Some l' ∧ evolves l l'.
Proof.
  intros Hs Hwf Hl. destruct Hs; try (by exists l; split; [|reflexivity]).
  - exists l. split; [|reflexivity]. simpl. rewrite lookup_insert_ne; [done|]. apply Hwf in Hl. lia.
  - apply assign_evolves; [|done]. intros l0 _. destruct (H l0) as (? & ? & ? & ? & ? & Hs & ? & ?).
    unfold evolves. rewrite Hs. split_and!; try done; [congruence|lia].
  - apply assign_evolves; [|done]. intros l0 _.
    destruct (session_exec h c (session l0)) as (? & ? & ? & ?). by unfold evolves.
  - by apply assign_evolves.
  - apply (assign_evolves _ g); [|done]. intros l1 _. unfold evolves. simpl. split_and!; done || lia.
  - apply assign_evolves; [|done]. intros l0 _. unfold evolves. simpl. split_and!; done || lia.
Qed.
Lemma asteps_link r r' g l :
  rtc (astep h opts loud) r r' → wf r → heap r !! g = Some l →
  ∃ l', heap r' !! g = Some l' ∧ evolves l l'.
Proof.
  intros Hs. revert l. induction Hs as [|r1 r2 r3 H12 _ IH]; intros l Hwf Hl; [by exists l|].
  destruct (astep_link _ _ _ _ H12 Hwf Hl) as (l2 & Hl2 & He).
  destruct (IH l2) as (l3 & Hl3 & He'); [by eapply astep_wf|done|].
  exists l3. split; [done|]. by etrans.
Qed.

(** A link that left never returns: its generation is not handed out again. *)
Definition gone (r : registry) (g : Z) : Prop := isCurrent r g = false ∧ g < nextGeneration r.

Lemma assign_current g g' f r :
  (∀ l, binding (f l) = binding l) → isCurrent (assign g f r) g' = isCurrent r g'.
Proof.
  intros Hf. unfold isCurrent. rewrite assign_lookup. case_decide; [|done]. subst.
  destruct (heap r !! g'); simpl; [|done]. by rewrite Hf.
Qed.
Lemma astep_gone r r' g : astep h opts loud r r' → gone r g → gone r' g.
Proof.
  intros Hs [Hc Hg]. split; [|destruct Hs; simpl; lia]. destruct Hs; try done.
  - unfold isCurrent in *. simpl. rewrite lookup_insert_ne by lia.
    destruct (heap r !! g) as [l|]; [|done]. apply bool_decide_eq_false in Hc.
    apply bool_decide_eq_false. rewrite lookup_insert_Some. naive_solver lia.
  - unfold isCurrent in *. simpl. destruct (heap r !! g) as [l'|]; [|done].
    apply bool_decide_eq_false in Hc. apply bool_decide_eq_false.
    rewrite lookup_delete_Some. naive_solver.
  - rewrite assign_current; [done|]. intros l. by destruct (H l).
  - by rewrite assign_current.
  - by rewrite assign_current.
  - unfold bump. by rewrite assign_current.
  - unfold bump. by rewrite assign_current.
Qed.
Lemma advance_generation r r' :
  advance h opts loud r r' → nextGeneration r ≤ nextGeneration r'.
Proof.
  intros [Hs _]. induction Hs as [|r1 r2 r3 H12 _ IH]; [done|]. etrans; [|exact IH].
  destruct H12; simpl; lia.
Qed.
Lemma advance_gone r r' g : advance h opts loud r r' → gone r g → gone r' g.
Proof. intros [Hs _]. induction Hs; eauto using astep_gone. Qed.
End evolution.

(** A frame the registry builds carries the connection and the number given. *)
Lemma frame_object_decoded h type c n rest f :
  decodeGatewayFrame h (InValue (frame_object type c n rest)) = inr f →
  connectionId f = c ∧ seq f = n.
Proof.
  intros (fs & t & Hi & Hc & Hq & _)%decodeGatewayFrame_inr.
  apply inputObject_value in Hi as ->. change (prop _ "connectionId") with (JStr c) in Hc.
  change (prop _ "seq") with (json_copy (JNum (num_of_Z n))) in Hq. rewrite json_copy_num in Hq.
  apply id_inr in Hc as [[= ->] _]. by apply safeInteger_num_inr in Hq as [-> _].
Qed.

(** ** Every operation is a sequence of transitions *)

Section refinement.
Context (sha256_hex : list Z → string) (opts : options) (E : env).
Context (reaction : kind → nat → registry → registry) (loud : bool).
Abbreviation M := (eff registry failure).
Abbreviation T := (advance sha256_hex opts loud).

Context (Hreact : ∀ k n r, wf r → T r (reaction k n r)).
Context (Hquiet : loud = false → ∀ k n r, k = KSend ∨ k = KBuffered → reaction k n r = r).

Definition ok {A} (r : registry) (m : M A) : Prop := wf r → T r (m r).2.
Definition keeps {A} (m : M A) : Prop := ∀ r, ok r m.

Lemma ok_bind {A B} r (m : M A) (k : A → M B) :
  ok r m → (∀ a r', m r = (inr a, r') → ok r' (k a)) → ok r (m ≫= k).
Proof.
  unfold ok, mbind, eff_bind. intros Hm Hk Hwf. specialize (Hm Hwf). revert Hm.
  destruct (m r) as [[e|a] r'] eqn:E1; simpl; intros Hm; [done|]. etrans; [done|].
  eapply Hk; eauto using advance_wf.
Qed.
Lemma keeps_bind {A B} (m : M A) (k : A → M B) :
  keeps m → (∀ a, keeps (k a)) → keeps (m ≫= k).
Proof. intros Hm Hk r. apply ok_bind; [done|]. intros a r' _. apply Hk. Qed.
Lemma keeps_ret {A} (a : A) : keeps (mret a).
Proof. intros r _. reflexivity. Qed.
Lemma keeps_throw {A} e : keeps (throw e : M A).
Proof. intros r _. reflexivity. Qed.
Lemma keeps_get : keeps get.
Proof. intros r _. reflexivity. Qed.
Lemma keeps_require b e : keeps (require b e).
Proof. intros r _. destruct b; reflexivity. Qed.
Lemma keeps_modify f : (∀ r, T r (f r)) → keeps (modify f).
Proof. intros Hf r _. apply Hf. Qed.
Lemma keeps_catch {A} (m : M A) h : keeps m → (∀ e, keeps (h e)) → keeps (catch m h).
Proof.
  intros Hm Hh r Hwf. unfold catch. specialize (Hm r Hwf). revert Hm.
  destruct (m r) as [[e|a] r']; simpl; intros Hm; [|done]. etrans; [done|].
  apply Hh; eauto using advance_wf.
Qed.
Lemma keeps_swallow m : keeps m → keeps (swallow m).
Proof. intros. apply keeps_catch; [done|]. intros. apply keeps_ret. Qed.
Lemma keeps_finally {A} (m : M A) f : keeps m → (∀ r, T r (f r)) → keeps (finally m f).
Proof.
  intros Hm Hf r Hwf. unfold finally. specialize (Hm r Hwf). revert Hm.
  destruct (m r) as [res r']. simpl. intros Hm. etrans; [done|]. apply Hf.
Qed.
Lemma keeps_foldr {A} (f : A → M () → M ()) l :
  (∀ a k, keeps k → keeps (f a k)) → keeps (foldr f (mret tt) l).
Proof. intros Hf. induction l; simpl; [apply keeps_ret|auto]. Qed.

Lemma step_once r r' : astep sha256_hex opts loud r r' → stopped r' = stopped r → T r r'.
Proof. intros Hs Hst. split; [by apply rtc_once|by eapply astep_quiesces]. Qed.
Lemma T_tick r : T r (set_calls (S (calls r)) r).
Proof. apply step_once; [constructor|done]. Qed.
Lemma T_append o r : is_sent o = false → T r (append o r).
Proof. intros. by apply step_once; [constructor|]. Qed.
Lemma T_flags g f r : (∀ l, same_core l (f l)) → T r (assign g f r).
Proof. intros. by apply step_once; [constructor|]. Qed.

Lemma keeps_tick : keeps tick.
Proof. intros r _. apply T_tick. Qed.
Lemma keeps_emit o : is_sent o = false → keeps (emit o).
Proof. intros Ho r _. by apply T_append. Qed.
Lemma keeps_callback k n : keeps (callback reaction k n).
Proof. intros r Hwf. by apply Hreact. Qed.
Lemma keeps_deref g : keeps (deref g).
Proof. intros r _. unfold deref. autorewrite with eff. destruct (heap r !! g); reflexivity. Qed.
Lemma keeps_current g : keeps (current g).
Proof. intros r _. reflexivity. Qed.
Lemma keeps_update g f : (∀ l, same_core l (f l)) → keeps (update g f).
Proof. intros Hf r _. by apply T_flags. Qed.
Lemma keeps_of_exn {A} (m : exn + A) : keeps (of_exn m).
Proof. intros r _. destruct m as [[]|]; reflexivity. Qed.

Lemma ok_after {A B} r (m : M A) (k : A → M B) :
  keeps m → (∀ a r', wf r → T r r' → ok r' (k a)) → ok r (m ≫= k).
Proof.
  intros Hm Hk Hwf. apply ok_bind; [apply Hm| |done].
  intros a r' Hr. apply Hk; [done|]. specialize (Hm r Hwf). by rewrite Hr in Hm.
Qed.

Lemma bind_update {B} g f (k : () → M B) r : (update g f ≫= k) r = k tt (assign g f r).
Proof. done. Qed.

Lemma bind_run {A B} (m : M A) (k : A → M B) r a r' :
  m r = (inr a, r') → (m ≫= k) r = k a r'.
Proof. intros Hm. unfold mbind, eff_bind. by rewrite Hm. Qed.
Lemma bind_deref {B} r g l (k : LiveLink → M B) :
  heap r !! g = Some l → (deref g ≫= k) r = k l r.
Proof. intros Hl. unfold deref. autorewrite with eff. by rewrite Hl. Qed.

(** Stepping through code whose guards a later transition needs. *)
Lemma ok_keeps {A} r (m : M A) : keeps m → ok r m.
Proof. auto. Qed.
Lemma ok_ret {A} r (a : A) : ok r (mret a).
Proof. intros _. reflexivity. Qed.
Lemma ok_get {B} r (k : registry → M B) : ok r (k r) → ok r (get ≫= k).
Proof. done. Qed.
Lemma ok_current {B} r g (k : bool → M B) : ok r (k (isCurrent r g)) → ok r (current g ≫= k).
Proof. done. Qed.
Lemma ok_deref {B} r g (k : LiveLink → M B) :
  (∀ l, heap r !! g = Some l → ok r (k l)) → ok r (deref g ≫= k).
Proof.
  intros Hk Hwf. unfold deref. autorewrite with eff.
  destruct (heap r !! g) eqn:Hg; [by apply Hk|reflexivity].
Qed.
Lemma ok_modify {B} r f (k : () → M B) : T r (f r) → ok (f r) (k tt) → ok r (modify f ≫= k).
Proof.
  intros Hf Hk Hwf. rewrite bind_modify. etrans; [done|]. eauto using advance_wf.
Qed.
Lemma ok_require {B} r b e (k : () → M B) : (b = true → ok r (k tt)) → ok r (require b e ≫= k).
Proof. intros Hk Hwf. rewrite bind_require. destruct b; [by apply Hk|reflexivity]. Qed.
Lemma ok_of_exn {A B} r (m : exn + A) (k : A → M B) :
  (∀ a, m = inr a → ok r (k a)) → ok r (of_exn m ≫= k).
Proof. intros Hk Hwf. destruct m as [[]|]; [reflexivity..|by apply Hk]. Qed.

Hint Resolve keeps_ret keeps_throw keeps_get keeps_require keeps_swallow keeps_tick
  keeps_callback keeps_deref keeps_current keeps_of_exn T_flags : keeps.
Hint Extern 1 (keeps (emit _)) => apply keeps_emit; reflexivity : keeps.
Hint Extern 1 (keeps (update _ _)) => apply keeps_update; done : keeps.

(** Code built from kept pieces is kept. *)
Ltac keep :=
  repeat first
    [ solve [eauto with keeps]
    | apply keeps_bind; [|intros ?]
    | apply keeps_swallow
    | apply keeps_catch; [|intros ?]
    | apply keeps_foldr; intros ? ? ?
    | progress case_match ].

Lemma keeps_call k o : is_sent o = false → keeps (call E reaction k o).
Proof. intros Ho. pose proof (keeps_emit o Ho). unfold call. keep. Qed.
Hint Extern 1 (keeps (call _ _ _ _)) => apply keeps_call; reflexivity : keeps.
Lemma keeps_now : keeps (now E).
Proof. unfold now. keep. Qed.
Hint Resolve keeps_now : keeps.
Lemma keeps_audit e : keeps (audit E reaction e).
Proof. unfold audit. keep. Qed.
Hint Resolve keeps_audit : keeps.
Lemma keeps_auditLink a g : keeps (auditLink E reaction a g).
Proof. unfold auditLink. keep. Qed.
Lemma keeps_notify e : keeps (notify E reaction e).
Proof. unfold notify. keep. Qed.
Lemma keeps_deliver s f : keeps (deliver opts E reaction s f).
Proof. unfold deliver. keep. Qed.
Lemma keeps_safeClose s c m : keeps (safeClose E reaction s c m).
Proof. unfold safeClose. keep. Qed.
Lemma keeps_hasCapacity t : keeps (hasCapacity opts E reaction t).
Proof. unfold hasCapacity. keep. Qed.
Lemma keeps_clearTimer g : keeps (clearTimer E reaction g).
Proof. unfold clearTimer. keep. Qed.
Hint Resolve keeps_auditLink keeps_notify keeps_deliver keeps_safeClose keeps_hasCapacity
  keeps_clearTimer : keeps.

Lemma keeps_remove g : keeps (remove E reaction g).
Proof.
  intros r. apply ok_current. destruct (isCurrent r g) eqn:Hc; simpl; [|apply ok_ret].
  apply isCurrent_true in Hc as (l & Hl & Hg).
  apply ok_deref. intros l' Hl'. simplify_eq.
  apply ok_modify; [by apply step_once; [econstructor|]|].
  apply ok_keeps. keep.
Qed.
Hint Resolve keeps_remove : keeps.
Lemma keeps_terminate g c m : keeps (terminate E reaction g c m).
Proof. unfold terminate. keep. Qed.
Hint Resolve keeps_terminate : keeps.
Lemma keeps_transportError g : keeps (transportError E reaction g).
Proof. unfold transportError. keep. Qed.
Lemma keeps_peerClosed g : keeps (peerClosed E reaction g).
Proof. unfold peerClosed. keep. Qed.
Hint Resolve keeps_transportError keeps_peerClosed : keeps.

(** A method of the link's session. *)
Lemma keeps_on_session {A} g (m : eff Gateway.session exn A) c :
  (∀ s, (m s).2 = (GatewayInv.exec sha256_hex c s).2) → keeps (on_session g m).
Proof.
  intros Hm r. apply ok_deref. intros l Hl. destruct (m (session l)) as [res s] eqn:Hs.
  apply ok_modify; [|apply ok_ret]. apply step_once; [|done].
  assert (assign g (set_session s) r
    = assign g (λ l, set_session (GatewayInv.exec sha256_hex c (session l)).2 l) r) as ->.
  { unfold assign. f_equal. apply alter_ext. intros ? ?. simplify_eq. by rewrite <- Hm, Hs. }
  apply A_session.
Qed.
Lemma keeps_receive g i : keeps (on_session g (Gateway.receive sha256_hex i)).
Proof.
  apply (keeps_on_session g _ (GatewayInv.CReceive i)). intros s. simpl.
  by destruct (Gateway.receive _ _ _) as [[]].
Qed.
Lemma keeps_register g f : keeps (on_session g (Gateway.registerRequest f)).
Proof.
  apply (keeps_on_session g _ (GatewayInv.CRegister f)). intros s. simpl.
  by destruct (Gateway.registerRequest _ _) as [[]].
Qed.
Hint Resolve keeps_receive keeps_register : keeps.

(** *** Sending

    A socket that does not call back while it sends has the frame logged and
    the link's number advanced in one transition. *)
Abbreviation ticked r := (set_calls (S (calls r)) r).

Lemma quiet_sendText g f text r :
  loud = false →
  sendText E reaction g f text r =
    if throws E KSend (calls r) then (inl OtherError, ticked r)
    else (inr tt, append (Sent g f text) (ticked r)).
Proof.
  intros Hl. unfold sendText, tick, callback, emit, append.
  unfold mbind, eff_bind, modify, throw. case_match; rewrite Hquiet by auto; done.
Qed.
Lemma hasCapacity_run text r :
  ∃ b r', hasCapacity opts E reaction text r = (inr b, r')
    ∧ (b = true → bytes text ≤ maxBufferedAmount opts)
    ∧ (loud = false → r' = ticked r).
Proof.
  unfold hasCapacity, tick, callback, mbind, eff_bind, modify, mret, eff_ret. simpl.
  eexists _, _. split; [done|]. split.
  - case_match; [|done]. intros. guards. lia.
  - intros. apply Hquiet; auto.
Qed.
Lemma ok_hasCapacity {B} r text (k : bool → M B) :
  (∀ b r', (b = true → bytes text ≤ maxBufferedAmount opts) →
     (loud = false → r' = ticked r) → wf r → T r r' → ok r' (k b)) →
  ok r (hasCapacity opts E reaction text ≫= k).
Proof.
  intros Hk Hwf. pose proof (keeps_hasCapacity text r Hwf) as HT.
  apply ok_bind; [apply keeps_hasCapacity| |done].
  destruct (hasCapacity_run text r) as (b & r' & Hr & Hb & Hq). intros a r'' Ha.
  rewrite Hr in Ha, HT. simplify_eq. auto.
Qed.

Lemma loud_sendText g f text :
  loud = true → transmittable sha256_hex opts f text → keeps (sendText E reaction g f text).
Proof.
  intros Hl Ht. assert (keeps (emit (Sent g f text))).
  { intros r _. by apply step_once; [apply A_sent|]. }
  unfold sendText. keep.
Qed.
Lemma loud_bump g : loud = true → keeps (update g (λ l, set_outbound (nextOutboundSeq l + 1) l)).
Proof. intros Hl r _. by apply step_once; [apply A_bump|]. Qed.

(** The frame is the next one of the link. *)
Definition is_next (r : registry) (g : Z) (f : frame GatewayBody) : Prop :=
  ∃ l, heap r !! g = Some l ∧ connectionId f = l_connectionId l ∧ seq f = nextOutboundSeq l.

Lemma T_transmit r g f text :
  is_next r g f → transmittable sha256_hex opts f text →
  T r (bump g (append (Sent g f text) (ticked r))).
Proof.
  intros (l & Hl & Hc & Hq) Ht. etrans; [apply T_tick|]. by apply step_once; [econstructor|].
Qed.

(** [sendText], its failure handler, and a continuation that advances the
    number when the frame was sent. *)
Lemma ok_transmit {B} r g f text (k : bool → M B) :
  transmittable sha256_hex opts f text →
  (loud = false → is_next r g f) →
  keeps (k false) →
  (loud = true → ∀ r', wf r → T r r' → ok r' (k true)) →
  (loud = false → wf r → T (bump g (append (Sent g f text) (ticked r)))
                    (k true (append (Sent g f text) (ticked r))).2) →
  ok r (catch (sendText E reaction g f text;; mret true)
              (λ _, transportError E reaction g;; mret false) ≫= k).
Proof.
  intros Ht Hn Hf Hl Hq. destruct (decide (loud = true)) as [El|El%not_true_is_false].
  - pose proof (loud_sendText g f text El Ht).
    apply ok_after; [keep|]. intros [] r' Hwf HT; [by apply Hl|apply Hf].
  - intros Hwf. unfold catch. unfold mbind at 1, eff_bind at 1. unfold mbind at 1, eff_bind at 1.
    rewrite quiet_sendText by done. destruct (throws E KSend (calls r)).
    + change (T r (((transportError E reaction g;; mret false) ≫= k) (ticked r)).2).
      etrans; [apply T_tick|]. rewrite bind_assoc.
      apply keeps_bind; [keep|intros _; exact Hf|done].
    + etrans; [exact (T_transmit r g f text (Hn El) Ht)|]. exact (Hq El Hwf).
Qed.

Lemma encode_run {B} r f (k : string → M B) :
  (∀ text, serializeFrame sha256_hex (gateway_json f) gateway_to_resident = inr text →
     ok r (k text)) →
  ok r (encode sha256_hex f ≫= k).
Proof. intros Hk. by apply ok_of_exn. Qed.

Lemma keeps_protocolFailure g c m : keeps (protocolFailure sha256_hex opts E reaction g c m).
Proof.
  unfold protocolFailure.
  apply keeps_bind; [keep|intros cur]. case_match; [keep|].
  do 3 (apply keeps_bind; [keep|intros ?]). intros r. apply ok_deref. intros l Hl. apply ok_of_exn.
  intros f [Hc Hq]%frame_object_decoded. apply encode_run. intros text Ht.
  apply ok_hasCapacity. intros b r' Hb Hr' _ _. apply ok_bind; [|intros; apply ok_keeps; keep].
  destruct b; [|apply ok_ret]. assert (transmittable sha256_hex opts f text) by (split; auto).
  destruct (decide (loud = true)) as [El|El%not_true_is_false].
  { apply ok_keeps. pose proof (loud_sendText g f text). pose proof (loud_bump g). keep. }
  specialize (Hr' El) as ->. intros _. unfold swallow, catch. unfold mbind at 1, eff_bind at 1.
  rewrite quiet_sendText by done. destruct (throws E KSend _); [apply T_tick|].
  apply T_transmit; [by exists l|done].
Qed.
Hint Resolve keeps_protocolFailure : keeps.
Lemma keeps_handshakeTimeout g : keeps (handshakeTimeout sha256_hex opts E reaction g).
Proof. unfold handshakeTimeout. keep. Qed.
Hint Resolve keeps_handshakeTimeout : keeps.

(** The request of a frame is registered; nothing else of the link changes. *)
Definition register (g : Z) (f : frame GatewayBody) : M () :=
  match request_of (body f) with
  | Some q =>
      res ← on_session g (Gateway.registerRequest (mkFrame (connectionId f) (seq f) q));
      of_exn res
  | None => mret tt
  end.
Lemma keeps_registered g f : keeps (register g f).
Proof. unfold register. keep. Qed.
Lemma register_next g f r a r' :
  register g f r = (inr a, r') →
  (is_next r g f → is_next r' g f) ∧ isCurrent r' g = isCurrent r g.
Proof.
  unfold register. destruct (request_of _) as [q|]; [|by intros [= <- <-]].
  unfold on_session, deref. autorewrite with eff.
  destruct (heap r !! g) as [l|] eqn:Hl; autorewrite with eff; [|done].
  destruct (Gateway.registerRequest _ _) as [res s] eqn:Hs. unfold update. autorewrite with eff.
  intros Hr. assert (r' = assign g (set_session s) r) as ->
    by (destruct res as [[]|]; by inversion Hr).
  unfold is_next, isCurrent. rewrite assign_lookup, decide_True, Hl by done. simpl.
  split; [|done]. intros (? & [= <-] & ? & ?). by eexists.
Qed.

(** The frame of [send] is the next one: its guards checked it. *)
Lemma ok_send_guarded r g conn f :
  (∀ l, heap r !! g = Some l → l_connectionId l = conn) →
  ok r (send_guarded sha256_hex opts E reaction g conn f).
Proof.
  intros Hconn. apply ok_bind; [apply ok_keeps; keep|]. intros u r0 Hr0.
  assert (r0 = r) as -> by (destruct (body f); by inversion Hr0). clear u Hr0.
  apply ok_require. intros Hc. apply ok_deref. intros l Hl. apply ok_require. intros Hq.
  apply encode_run. intros text Ht. apply ok_hasCapacity. intros b r1 Hb Hr1 _ _.
  destruct b; simpl; [|apply ok_keeps; keep].
  apply ok_current. destruct (isCurrent r1 g) eqn:Hcur; simpl; [|apply ok_ret].
  apply ok_bind; [apply ok_keeps, keeps_registered|]. intros u r2 [Hn Hcur2]%register_next.
  guards. assert (transmittable sha256_hex opts f text) by (split; auto).
  apply ok_transmit; [done| |apply keeps_ret| |].
  - intros Hq'. apply Hn. specialize (Hr1 Hq') as ->. exists l. split; [done|].
    rewrite (Hconn l) by done. done.
  - intros Hq' r3 _ _. apply ok_keeps. pose proof (loud_bump g Hq'). keep.
  - intros Hq' Hwf. unfold negb, current, update. autorewrite with eff.
    change (isCurrent (append _ _) g) with (isCurrent r2 g). rewrite Hcur2, Hcur. simpl.
    autorewrite with eff. apply keeps_bind; [keep|keep|].
    eapply advance_wf; [|exact Hwf]. apply T_transmit; [|done]. apply Hn.
    specialize (Hr1 Hq') as ->. exists l. split; [done|]. rewrite (Hconn l) by done. done.
Qed.

Lemma keeps_send i c f : keeps (send sha256_hex opts E reaction i c f).
Proof.
  intros r. unfold send, ready_link. apply (ok_get r). unfold mret, eff_ret.
  destruct (links r !! i) as [g|] eqn:Hg; [|apply ok_ret].
  destruct (heap r !! g) as [l|] eqn:Hl; [|apply ok_ret].
  destruct (String.eqb (l_connectionId l) c && _) eqn:Hc; [|apply ok_ret].
  apply ok_deref. intros l' Hl'. simplify_eq.
  case_match; [apply ok_keeps; keep|]. apply ok_modify; [by apply T_flags|].
  intros Hwf. unfold finally.
  pose proof (ok_send_guarded (assign g (set_sending true) r) g c f) as Hok. revert Hok. unfold ok.
  destruct (send_guarded _ _ _ _ _ _ _ _) as [res r']. cbn [snd]. intros Hok. etrans; [apply Hok|].
  - intros l0. rewrite assign_lookup, decide_True, Hl by done. intros [= <-].
    apply andb_true_iff in Hc as [Hc _]. by apply String.eqb_eq in Hc.
  - done.
  - by apply T_flags.
Qed.
Hint Resolve keeps_send : keeps.
Lemma keeps_ready_link i c : keeps (ready_link i c).
Proof. intros r _. reflexivity. Qed.
Hint Resolve keeps_ready_link : keeps.
Lemma keeps_sendEffect i c e : keeps (sendEffect sha256_hex opts E reaction i c e).
Proof. unfold sendEffect. keep. Qed.
Lemma keeps_disconnect i c m : keeps (disconnect E reaction i c m).
Proof. unfold disconnect. keep. Qed.
Hint Resolve keeps_sendEffect keeps_disconnect : keeps.

(** *** Receiving *)

Definition greeted (r : registry) (g : Z) : Prop :=
  ∃ l, heap r !! g = Some l ∧ is_Some (Gateway.residentHello (session l)).
Lemma greeted_T r r' g : T r r' → wf r → greeted r g → greeted r' g.
Proof.
  intros [HT _] Hwf (l & Hl & Hh). destruct (asteps_link _ _ _ _ _ _ _ HT Hwf Hl) as (l' & Hl' & He).
  exists l'. split; [done|]. by apply He.
Qed.

Lemma ok_ready {B} r g (k : () → M B) :
  greeted r g → keeps (k tt) → ok r (update g (set_state ready) ≫= k).
Proof.
  intros (l & Hl & Hh) Hk. apply ok_modify; [|apply ok_keeps, Hk].
  by apply step_once; [eapply A_ready|].
Qed.

Lemma ok_acknowledge r g f :
  greeted r g → ok r (acknowledge sha256_hex opts E reaction g f).
Proof.
  intros Hg. unfold acknowledge. destruct (body f); [|apply ok_keeps; keep..].
  apply ok_after; [keep|]. intros _ r1 Hwf HT. apply (greeted_T _ _ _ HT Hwf) in Hg.
  apply ok_deref. intros l Hl. apply ok_of_exn. intros ack [Hc Hq]%frame_object_decoded.
  apply encode_run. intros text Ht. apply ok_hasCapacity. intros b r2 Hb Hr2 Hwf1 HT2.
  destruct b; simpl; [|apply ok_keeps; keep].
  assert (transmittable sha256_hex opts ack text) by (split; auto).
  apply (greeted_T _ _ _ HT2 Hwf1) in Hg.
  apply ok_transmit; [done| |apply keeps_ret| |]; simpl.
  - intros Hq'. specialize (Hr2 Hq') as ->. by exists l.
  - intros Hq' r3 Hwf2 HT3. apply (greeted_T _ _ _ HT3 Hwf2) in Hg.
    apply ok_after; [by apply loud_bump|]. intros _ r4 Hwf3 HT4. apply ok_ready; [|keep].
    by eapply greeted_T.
  - intros Hq' Hwf2. rewrite bind_update.
    assert (T r2 (bump g (append (Sent g ack text) (ticked r2)))) as HT3.
    { apply T_transmit; [|done]. specialize (Hr2 Hq') as ->. by exists l. }
    apply ok_ready; [by eapply greeted_T|keep|by eapply advance_wf].
Qed.

Lemma received_greets f s :
  GatewayInv.may_receive f s → is_Some (Gateway.residentHello (GatewayInv.received f s)).
Proof.
  intros (_ & _ & Hf). unfold GatewayInv.received.
  destruct (Gateway.residentHello s) as [h|] eqn:Hh.
  - unfold GatewayInv.settled, Gateway.advanceSequence.
    repeat (case_match; simpl; rewrite ?Hh; try done).
  - destruct Hf as (caps & i & b & n & -> & ->). unfold Gateway.advanceSequence.
    by case_match.
Qed.
Lemma receive_greets g i r a r' :
  on_session g (Gateway.receive sha256_hex i) r = (inr (inr a), r') → greeted r' g.
Proof.
  unfold on_session, deref. autorewrite with eff.
  destruct (heap r !! g) as [l|] eqn:Hl; autorewrite with eff; [|done].
  destruct (Gateway.receive _ _ _) as [res s] eqn:Hs. unfold update. autorewrite with eff.
  intros [= -> <-]. exists (set_session s l). rewrite assign_lookup, decide_True, Hl by done.
  split; [done|]. simpl.
  destruct (GatewayInv.receive_run sha256_hex i (session l)) as [(f & Hr & _ & _ & Hf)|[(c & s' & Hr & _)|[Hr _]]];
    rewrite Hs in Hr; simplify_eq. by apply received_greets.
Qed.

Lemma keeps_receiveText g t : keeps (receiveText sha256_hex opts E reaction g t).
Proof.
  unfold receiveText. apply keeps_bind; [keep|]. intros cur. case_match; [keep|].
  destruct t as [[len parsed]|]; [|keep]. case_match; [keep|]. intros r.
  apply ok_bind; [apply ok_keeps; keep|]. intros res r' Hr.
  destruct res as [[]|f]; [apply ok_keeps; keep..|]. apply receive_greets in Hr.
  apply ok_deref. intros l Hl. destruct (state l); [by apply ok_acknowledge|].
  apply ok_keeps. keep.
Qed.
Hint Resolve keeps_receiveText : keeps.
Lemma keeps_dispatch g m : keeps m → keeps (dispatch E reaction g m).
Proof. intros. unfold dispatch. keep. Qed.
Hint Resolve keeps_dispatch : keeps.
Lemma keeps_handler g m : keeps m → keeps (handler E reaction g m).
Proof. intros. unfold handler. keep. Qed.
Hint Resolve keeps_handler : keeps.

(** *** Admission *)

Lemma keeps_admissionRejection b : keeps (admissionRejection opts E reaction b).
Proof. unfold admissionRejection. keep. Qed.
Hint Resolve keeps_admissionRejection : keeps.
Lemma keeps_admit_attach g : keeps (admit_attach opts E reaction g).
Proof. unfold admit_attach. keep. Qed.
Hint Resolve keeps_admit_attach : keeps.

Lemma admission_clear b r r' :
  admissionRejection opts E reaction b r = (inr None, r') → r' = r ∧ rejection opts r b = None.
Proof.
  unfold admissionRejection. autorewrite with eff. destruct (rejection opts r b); [|by intros [= <-]].
  unfold mbind, eff_bind. repeat case_match; by intros; simplify_eq.
Qed.
Lemma admit_setup_run b conn r :
  ∃ res r', admit_setup opts E b conn r = (inr res, r')
    ∧ match res with
      | None => r' = r ∨ r' = ticked r
      | Some (s, t, g) =>
          isConnectionId (JStr conn) = true
          ∧ Gateway.create conn (instanceId b) (supportedCapabilities opts) = inr s
          ∧ g = nextGeneration r ∧ r' = set_generation (g + 1) (ticked r)
      end.
Proof.
  unfold admit_setup, catch. rewrite bind_require.
  destruct (isConnectionId _) eqn:Hc; [|exists None, r; by auto].
  destruct (Gateway.create _ _ _) as [[]|s] eqn:Hs; [exists None, r; by auto..|].
  unfold of_exn. rewrite bind_ret. unfold now, tick. unfold mbind, eff_bind.
  destruct (clock_now E (calls r)) as [t|]; [|exists None, (ticked r); by auto].
  destruct ((0 <=? t) && _); [|exists None, (ticked r); by auto]. eexists (Some (_, _, _)), _. by split_and!.
Qed.

Lemma keeps_admit b sock conn : keeps (admit_link opts E reaction b sock conn).
Proof.
  intros r. apply ok_bind; [apply ok_keeps; keep|]. intros [x|] r0 Hr0; [apply ok_keeps; keep|].
  apply admission_clear in Hr0 as [-> Hr].
  destruct (admit_setup_run b conn r) as (res & r1 & Hr1 & Hres).
  intros Hwf. unfold mbind at 1, eff_bind at 1. rewrite Hr1.
  destruct res as [[[s t] g]|].
  - destruct Hres as (Hc & Hs & -> & ->). rewrite bind_modify.
    assert (T r (publish b sock conn s t (ticked r))) as HT.
    { etrans; [apply T_tick|]. by apply step_once; [apply A_publish|]. }
    etrans; [exact HT|]. apply keeps_bind; [keep|intros ?; keep|by eapply advance_wf].
  - assert (T r r1) as HT by (destruct Hres as [->| ->]; [done|apply T_tick]).
    etrans; [exact HT|]. apply keeps_bind; [keep|intros ?; keep|by eapply advance_wf].
Qed.
Hint Resolve keeps_admit : keeps.

Lemma keeps_listeners f g : keeps (modify (λ r, set_listeners (f r) (g r) r)).
Proof. intros r _. apply step_once; [constructor|done]. Qed.
Lemma keeps_set_listeners ls subs : keeps (modify (set_listeners ls subs)).
Proof. intros r _. apply step_once; [constructor|done]. Qed.
Hint Resolve keeps_listeners keeps_set_listeners : keeps.
Lemma keeps_subscribe l t : keeps (subscribe l t).
Proof. unfold subscribe. keep. Qed.
Lemma keeps_unsubscribe t : keeps (unsubscribe t).
Proof. unfold unsubscribe. keep. Qed.
Hint Resolve keeps_subscribe keeps_unsubscribe : keeps.

(** *** Stopping *)

Definition no_throw {A} (r : registry) (m : M A) : Prop := ∃ a r', m r = (inr a, r').
Lemma no_throw_bind {A B} r (m : M A) (k : A → M B) :
  no_throw r m → (∀ a r', m r = (inr a, r') → no_throw r' (k a)) → no_throw r (m ≫= k).
Proof.
  intros (a & r' & Hm) Hk. destruct (Hk a r' Hm) as (b & r'' & Hb). exists b, r''.
  unfold mbind, eff_bind. by rewrite Hm.
Qed.
Lemma no_throw_swallow r m : no_throw r (swallow m).
Proof. unfold no_throw, swallow, catch. destruct (m r) as [[]]; eauto. Qed.
Lemma no_throw_notify r e : no_throw r (notify E reaction e).
Proof.
  unfold notify. unfold no_throw. setoid_rewrite bind_get.
  generalize (listeners r) at 1. intros ls. revert r.
  induction ls as [|x ls IH]; intros r; simpl; [by eexists _, _|].
  apply no_throw_bind; [apply no_throw_swallow|]. intros _ r' _. apply IH.
Qed.
Lemma no_throw_deref r g : is_Some (heap r !! g) → no_throw r (deref g).
Proof. intros [l Hl]. exists l, r. unfold deref. autorewrite with eff. by rewrite Hl. Qed.
Lemma no_throw_clearTimer r g : is_Some (heap r !! g) → no_throw r (clearTimer E reaction g).
Proof.
  intros Hl. apply no_throw_bind; [by apply no_throw_deref|]. intros l r' _.
  destruct (timer l); [|by eexists _, _].
  apply no_throw_bind; [by eexists _, _|]. intros. apply no_throw_swallow.
Qed.

Lemma remove_run g r :
  wf r → g < nextGeneration r → no_throw r (remove E reaction g) ∧ gone (remove E reaction g r).2 g.
Proof.
  intros Hwf Hg. unfold remove, no_throw. unfold current. autorewrite with eff.
  destruct (isCurrent r g) eqn:Hc; simpl; [|by split; [eexists _, _|]].
  apply isCurrent_true in Hc as (l & Hl & Hlk). 
  rewrite !(bind_deref r g l) by done. rewrite !bind_modify. set (r1 := set_links _ r).
  assert (T r r1) as HT by (by apply step_once; [eapply A_remove|]).
  assert (gone r1 g) as Hgone.
  { split; [|done]. unfold isCurrent. simpl. rewrite Hl. apply bool_decide_eq_false.
    by rewrite lookup_delete_eq. }
  assert (wf r1) as Hwf1 by (by eapply advance_wf).
  split; [|eapply advance_gone; [|exact Hgone]; apply keeps_bind; [keep|intros ?; keep|done]].
  pose proof (keeps_clearTimer g r1 Hwf1) as HT1.
  apply no_throw_bind; [by apply no_throw_clearTimer; exists l|]. intros u r2 Hr2.
  rewrite Hr2 in HT1. destruct HT1 as [HT1 _].
  destruct (asteps_link _ _ _ _ _ g l HT1 Hwf1 Hl) as (l2 & Hl2 & _).
  apply no_throw_bind; [by apply no_throw_deref; exists l2|]. intros.
  apply no_throw_bind; [by eexists _, _|]. intros.
  apply no_throw_bind; [case_match; [apply no_throw_swallow|by eexists _, _]|]. intros.
  apply no_throw_bind; [apply no_throw_notify|]. intros. by eexists _, _.
Qed.

(** Removing every link of a list. *)
Lemma remove_all_run gs r :
  wf r → Forall (λ g, g < nextGeneration r) gs →
  ∃ r', foldr (λ g k, remove E reaction g;; k) (mret tt) gs r = (inr tt, r')
    ∧ T r r' ∧ Forall (gone r') gs.
Proof.
  revert r. induction gs as [|g gs IH]; intros r Hwf Hgs; simpl; [by exists r|].
  apply Forall_cons in Hgs as [Hg Hgs]. destruct (remove_run g r Hwf Hg) as [(b & r1 & Hr1) Hgone].
  pose proof (keeps_remove g r Hwf) as HT. unfold mbind at 1, eff_bind at 1.
  rewrite Hr1 in *. simpl in *.
  destruct (IH r1) as (r' & Hr' & HT' & Hall); [by eapply advance_wf| |].
  { eapply Forall_impl; [done|]. intros g' Hg'. simpl in *.
    assert (nextGeneration r ≤ nextGeneration r1); [|lia]. by eapply advance_generation. }
  exists r'. split_and!; [done|by etrans|]. constructor; [by eapply advance_gone|done].
Qed.

Lemma live_generations_spec r g : g ∈ live_generations r ↔ ∃ i, links r !! i = Some g.
Proof.
  unfold live_generations. rewrite merge_sort_Permutation, list_elem_of_fmap.
  setoid_rewrite elem_of_map_to_list'. split.
  - intros ([i g'] & -> & Hi). by exists i.
  - intros [i Hi]. by exists (i, g).
Qed.

(** What [stop] does once the flag is set. *)
Definition stop_links (gs : list Z) : M () :=
  foldr (λ g k, remove E reaction g;; k) (mret tt) gs;;
  modify (λ r, set_listeners [] (subscriptions r) r);;
  foldr (λ g k, l ← deref g; safeClose E reaction (socket l) CLOSE_stopping "registry_stopped";; k)
    (mret tt) gs;;
  t ← now E;
  audit E reaction {| action := a_stop; at_time := t; ev_instanceId := None;
    ev_credentialId := None; ev_connectionId := None; ev_generation := None;
    ev_protocolCode := None |}.
Lemma keeps_stop_links gs : keeps (stop_links gs).
Proof. unfold stop_links. apply keeps_bind; [keep|]. intros ?. keep. Qed.
Lemma stop_run r :
  stop E reaction r = if stopped r then (inr tt, r)
                      else stop_links (live_generations r) (set_stopped r).
Proof. unfold stop. autorewrite with eff. by destruct (stopped r). Qed.
Lemma stop_stops r : wf r → stopped (stop E reaction r).2 = true.
Proof.
  intros Hwf. rewrite stop_run. destruct (stopped r) eqn:Hs; [done|].
  destruct (keeps_stop_links (live_generations r) (set_stopped r) Hwf) as [_ [Hst _]].
  by apply Hst.
Qed.

Lemma keeps_stop : keeps (stop E reaction).
Proof.
  intros r Hwf. rewrite stop_run. destruct (stopped r) eqn:Hs; [reflexivity|].
  unfold stop_links. set (r0 := set_stopped r). assert (wf r0) as Hwf0 by done.
  destruct (remove_all_run (live_generations r) r0) as (r1 & Hr1 & HT1 & Hgone); [done| |].
  { apply Forall_forall. intros g [i Hi]%live_generations_spec.
    destruct Hwf as [Hh Hl]. destruct (Hl i g Hi) as (l & Hg & _). by apply Hh in Hg. }
  rewrite (bind_run _ _ _ _ _ Hr1).
  match goal with |- T r (?m r1).2 => assert (T r1 (m r1).2) as HT2 end.
  { apply keeps_bind; [keep|intros ?; keep|by eapply advance_wf]. }
  match goal with |- T r ?r2 => set (rf := r2) in * end.
  assert (T r0 rf) as [HT3 [Hsub _]] by (by etrans).
  split; [econstructor; [apply A_stop|exact HT3]|]. split; [congruence|]. intros _ _.
  apply map_empty. intros i. destruct (links rf !! i) as [g|] eqn:Hi; [|done]. exfalso.
  destruct (advance_wf _ _ _ _ _ HT2) as [_ Hl]; [by eapply advance_wf|].
  destruct (Hl i g Hi) as (l & Hg & Hb).
  assert (gone rf g) as [Hc _].
  { eapply advance_gone; [exact HT2|]. rewrite Forall_forall in Hgone. apply Hgone.
    apply live_generations_spec. exists i. destruct (Hsub eq_refl) as [_ Hsub'].
    by eapply lookup_weaken in Hi. }
  unfold isCurrent in Hc. rewrite Hg, Hb, Hi in Hc. by apply bool_decide_eq_false in Hc.
Qed.
Hint Resolve keeps_stop : keeps.

Lemma answered_steps {A} (f : A → answer) m r : keeps m → wf r → T r (answered f m r).2.
Proof.
  intros Hm Hwf. specialize (Hm r Hwf). revert Hm. unfold answered.
  by destruct (m r) as [[]].
Qed.
Lemma perform_steps o r : wf r → T r (perform sha256_hex opts E reaction o r).2.
Proof. destruct o; apply answered_steps; auto with keeps. Qed.
End refinement.

Section runs.
Context (sha256_hex : list Z → string) (opts : options) (E : env) (loud : bool).
Context (Hquiet : loud = false → ∀ k n, k = KSend ∨ k = KBuffered → react E k n = []).
Abbreviation T := (advance sha256_hex opts loud).

Lemma foldl_steps (step : registry → op → registry) os r :
  (∀ r o, wf r → T r (step r o)) → wf r → T r (foldl step r os).
Proof.
  intros Hs. revert r. induction os as [|o os IH]; intros r Hwf; simpl; [reflexivity|].
  etrans; [by apply Hs|]. apply IH. by eapply advance_wf; [apply Hs|].
Qed.

Lemma exec_steps fuel o r : wf r → T r (exec sha256_hex opts E fuel o r).2.
Proof.
  revert o r. induction fuel as [|fuel IH]; intros o r Hwf; apply perform_steps; try done.
  - intros k n r' Hwf'. apply foldl_steps; auto.
  - intros Hl k n r' Hk. by rewrite Hquiet.
Qed.
Lemma run_steps fuel os r : wf r → T r (run sha256_hex opts E fuel os r).
Proof. apply foldl_steps. intros. by apply exec_steps. Qed.
End runs.

Lemma empty_wf : wf empty_registry.
Proof. split; [intros g l|intros i g]; simpl; by rewrite lookup_empty. Qed.
