(* ===== verification/RegistryTheorems.v ===== *)
(** * Resident links: theorems

    What the registry of resident-link-registry.ts promises whatever the code
    around it does: sockets, listeners, the audit sink and [onFrame] may throw,
    answer anything and call back into the registry at any depth. *)

From S2P Require Import Prelude Protocol Codec CodecFacts Session SessionInv Wire Handshake.
From S2P Require Import Registry RegistrySteps.
Local Open Scope string_scope.
Local Open Scope Z_scope.

(** ** The invariant *)

Record link_ok (g : Z) (l : LiveLink) : Prop := {
  lk_generation : generation l = g ∧ 1 ≤ g;
  lk_connection : is_id CONNECTION_PREFIX (l_connectionId l) = true;
  lk_bound : Gateway.s_connectionId (session l) = l_connectionId l
             ∧ Gateway.s_instanceId (session l) = instanceId (binding l);
  lk_session : GatewayInv.inv (session l);
  lk_ready : state l = ready → is_Some (Gateway.residentHello (session l));
  lk_outbound : 1 ≤ nextOutboundSeq l;
}.

Record registry_inv (opts : options) (r : registry) : Prop := {
  ri_wf : wf r;
  ri_size : Z.of_nat (size (links r)) ≤ maxLinks opts;
  ri_generation : 1 ≤ nextGeneration r ≤ MAX_SAFE_INTEGER;
  ri_links : map_Forall link_ok (heap r);
}.

Lemma assign_ok g f r :
  (∀ l, heap r !! g = Some l → link_ok g l → link_ok g (f l)) →
  map_Forall link_ok (heap r) → map_Forall link_ok (heap (assign g f r)).
Proof.
  intros Hf Hr g' l. rewrite assign_lookup. case_decide; [|apply Hr]. subst.
  rewrite fmap_Some. intros (l0 & Hl & ->). auto.
Qed.

Lemma session_ok h c g l :
  link_ok g l → link_ok g (set_session (GatewayInv.exec h c (session l)).2 l).
Proof.
  intros [? ? [? ?] ? ? ?]. destruct (session_exec h c (session l)) as (? & ? & _ & ?).
  split; simpl; auto; [by split; congruence|].
  by eapply GatewayInv.exec_result_inv, GatewayInv.exec_spec.
Qed.

Lemma fresh_ok b sock conn s t g caps :
  is_id CONNECTION_PREFIX conn = true → 1 ≤ g →
  Gateway.create conn (instanceId b) caps = inr s →
  link_ok g (fresh_link b sock conn s t g).
Proof.
  intros Hc Hg Hs. pose proof (GatewayInv.create_shape _ _ _ _ Hs) as Hsh.
  split; simpl; try done; [|by eapply GatewayInv.create_inv].
  rewrite Hsh. by split.
Qed.

Lemma astep_links h opts loud r r' :
  astep h opts loud r r' → 1 ≤ nextGeneration r →
  map_Forall link_ok (heap r) → map_Forall link_ok (heap r').
Proof.
  intros Hs Hg Hr. destruct Hs; try done.
  - simpl. apply map_Forall_insert_2; [|done]. by eapply fresh_ok.
  - apply assign_ok; [|done]. intros l _ [? ? [? ?] ? ? ?].
    destruct (H l) as (Eb & Ec & Eg & _ & _ & Es & Est & Eo).
    split; rewrite ?Eb, ?Ec, ?Eg, ?Es, ?Est, ?Eo; auto.
  - apply assign_ok; [|done]. intros. by apply session_ok.
  - apply assign_ok; [|done]. intros l0 Hl0 []. simplify_eq. by split.
  - apply (assign_ok _ _ (append _ _)); [|done]. intros l0 _ []. split; simpl; auto; lia.
  - apply assign_ok; [|done]. intros l0 _ []. split; simpl; auto; lia.
Qed.

Lemma astep_inv h opts loud r r' :
  astep h opts loud r r' → registry_inv opts r → registry_inv opts r'.
Proof.
  intros Hs [Hwf Hsize Hgen Hlinks]. split.
  - by eapply astep_wf.
  - destruct Hs; try done; simpl.
    + unfold rejection in *. repeat case_match; try done. guards.
      rewrite map_size_insert. case_match; simpl; lia.
    + rewrite map_size_delete. case_match; simpl; lia.
  - destruct Hs; try done; simpl. unfold rejection in *. repeat case_match; try done. guards. lia.
  - eapply astep_links; [done| |done]. lia.
Qed.
Lemma advance_inv h opts loud r r' :
  advance h opts loud r r' → registry_inv opts r → registry_inv opts r'.
Proof. intros [Hs _]. induction Hs; eauto using astep_inv. Qed.

Lemma empty_inv opts : 1 ≤ maxLinks opts → registry_inv opts empty_registry.
Proof.
  intros Hm. split; [apply empty_wf| |by vm_compute|apply map_Forall_empty].
  simpl. rewrite map_size_empty. lia.
Qed.

Lemma create_bounds caps t b m f opts :
  create caps t b m f = inr opts → 1 ≤ maxLinks opts ∧ 1 ≤ maxBufferedAmount opts.
Proof.
  unfold create, boundedInteger. repeat case_match; try done. intros Hc.
  repeat (apply bind_inr in Hc as (? & ? & Hc)). simplify_eq/=.
  repeat match goal with H : (check _ _ ;; _) = inr _ |- _ =>
    apply bind_inr in H as (? & ?%check_inr & ?) end.
  unfold mret, sum_ret in *. simplify_eq/=. guards. lia.
Qed.

(** ** What is sent *)

Definition sent_on (g : Z) (os : list output) : list (frame GatewayBody) :=
  omap (λ o, match o with Sent g' f _ => if decide (g' = g) then Some f else None | _ => None end) os.

Record outbound_ok (r : registry) : Prop := {
  ob_known : ∀ g f text, Sent g f text ∈ log r → g < nextGeneration r;
  ob_numbered : map_Forall (λ g l,
    map seq (sent_on g (log r)) = seqZ 1 (nextOutboundSeq l - 1)
    ∧ Forall (λ f, connectionId f = l_connectionId l) (sent_on g (log r))
    ∧ 1 ≤ nextOutboundSeq l) (heap r);
}.

Lemma sent_on_append g o os :
  sent_on g (os ++ [o])%list = (sent_on g os ++
    match o with Sent g' f _ => if decide (g' = g) then [f] else [] | _ => [] end)%list.
Proof.
  unfold sent_on. rewrite omap_app. f_equal. destruct o; simpl; try done. by case_decide.
Qed.
Lemma sent_on_fresh g os : (∀ f text, Sent g f text ∉ os) → sent_on g os = [].
Proof.
  induction os as [|o os IH]; intros Hos; [done|]. unfold sent_on in *. simpl.
  destruct o as [g' f text| | | | | | | |]; simpl; try (apply IH; set_solver).
  case_decide; [subst; set_solver|]. apply IH. set_solver.
Qed.

Lemma assign_outbound g f r :
  (∀ l, nextOutboundSeq (f l) = nextOutboundSeq l ∧ l_connectionId (f l) = l_connectionId l) →
  outbound_ok r → outbound_ok (assign g f r).
Proof.
  intros Hf [Hk Hn]. split; [done|]. intros g' l. rewrite assign_lookup. simpl.
  case_decide; [|apply Hn]. rewrite fmap_Some. intros (l0 & Hl & ->).
  destruct (Hf l0) as [-> ->]. by apply Hn.
Qed.

Lemma append_outbound o r : is_sent o = false → outbound_ok r → outbound_ok (append o r).
Proof.
  intros Ho [Hk Hn]. split; simpl.
  - intros g f text. rewrite elem_of_app, list_elem_of_singleton. intros [?| <-]; [by eapply Hk|done].
  - intros g l Hl. rewrite sent_on_append. destruct o; try done; rewrite app_nil_r; by apply Hn.
Qed.

Lemma transmit_outbound r g l f text :
  heap r !! g = Some l → connectionId f = l_connectionId l → seq f = nextOutboundSeq l →
  wf r → outbound_ok r → outbound_ok (bump g (append (Sent g f text) r)).
Proof.
  intros Hl Hc Hq [Hh _] [Hk Hn]. split.
  - intros g' f' text'. simpl. rewrite elem_of_app, list_elem_of_singleton.
    intros [?|[= -> -> ->]]; [by eapply Hk|by eapply Hh].
  - intros g' l'. unfold bump. rewrite assign_lookup. simpl. rewrite sent_on_append.
    case_decide as Hg.
    + subst g'. rewrite Hl. intros [= <-]. destruct (Hn g l Hl) as (Hs & Hf & Ho). simpl.
      rewrite map_app, Hs, Forall_app. simpl. split_and!; [|done|by repeat constructor|lia].
      replace (nextOutboundSeq l + 1 - 1) with ((nextOutboundSeq l - 1) + 1) by lia.
      rewrite seqZ_app by lia. f_equal. rewrite Hq. change (seqZ ?x 1) with [x]. f_equal. lia.
    + rewrite app_nil_r. apply Hn.
Qed.

Lemma astep_outbound h opts r r' :
  astep h opts false r r' → wf r → outbound_ok r → outbound_ok r'.
Proof.
  intros Hs Hwf Hr. destruct Hs; try done; try by destruct Hr.
  - by apply append_outbound.
  - destruct Hr as [Hk Hn]. split; simpl.
    { intros g f text Hin. apply Hk in Hin. lia. }
    apply map_Forall_insert_2; [|done]. simpl. rewrite sent_on_fresh; [done|].
    intros f text Hin. apply Hk in Hin. lia.
  - apply assign_outbound; [|done]. intros l. by destruct (H l) as (_ & -> & _ & _ & _ & _ & _ & ->).
  - by apply assign_outbound.
  - by apply assign_outbound.
  - by eapply transmit_outbound.
Qed.
Lemma advance_outbound h opts r r' :
  advance h opts false r r' → wf r → outbound_ok r → outbound_ok r'.
Proof. intros [Hs _]. induction Hs; eauto using astep_outbound, astep_wf. Qed.

Lemma empty_outbound : outbound_ok empty_registry.
Proof. split; [set_solver|apply map_Forall_empty]. Qed.

(** Everything handed to a socket was validated and fits its buffer. *)
Definition log_bounded h opts (r : registry) : Prop :=
  ∀ g f text, Sent g f text ∈ log r → transmittable h opts f text.
Lemma append_bounded h opts o r :
  (∀ g f text, o = Sent g f text → transmittable h opts f text) →
  log_bounded h opts r → log_bounded h opts (append o r).
Proof.
  intros Ho Hr g f text. simpl. rewrite elem_of_app, list_elem_of_singleton.
  intros [?|?]; [by eapply Hr|by eapply Ho].
Qed.
Lemma advance_bounded h opts loud r r' :
  advance h opts loud r r' → log_bounded h opts r → log_bounded h opts r'.
Proof.
  intros [Hs _]. induction Hs as [|r1 r2 r3 H12 _ IH]; [done|]. intros Hr. apply IH.
  destruct H12; try done.
  - apply append_bounded; [|done]. by intros ? ? ? ->.
  - apply (append_bounded h opts (Sent g f text) r1); [|done]. naive_solver.
  - apply append_bounded; [|done]. naive_solver.
Qed.

(** ** Callbacks of a link that left *)

Definition from_link (g : Z) (o : op) : Prop :=
  match o with
  | OnText g' _ | OnBinary g' | OnError g' | OnClose g' | OnTimer g' => g' = g
  | _ => False
  end.

Lemma dispatch_gone E reaction g m r :
  isCurrent r g = false → dispatch E reaction g m r = (inr tt, r).
Proof. intros Hc. unfold dispatch, current. autorewrite with eff. by rewrite Hc. Qed.

Lemma handler_gone E reaction g m r :
  isCurrent r g = false →
  (handler E reaction g m r).2 = r
  ∨ (handler E reaction g m r).2 = assign g (set_attaching true true) r.
Proof.
  intros Hc. unfold handler, deref. autorewrite with eff.
  destruct (heap r !! g) as [l|]; autorewrite with eff; [|by left].
  destruct (attaching l); [by right|]. rewrite dispatch_gone; auto.
Qed.

Lemma answered_state {A} (f : A → answer) (m : eff registry failure A) r :
  (answered f m r).2 = (m r).2.
Proof. unfold answered. by destruct (m r) as [[]]. Qed.

Lemma callback_gone h opts E reaction g o r :
  from_link g o → isCurrent r g = false →
  (perform h opts E reaction o r).2 = r
  ∨ (perform h opts E reaction o r).2 = assign g (set_attaching true true) r.
Proof.
  intros Ho Hc. destruct o; try done; simpl in Ho; subst; unfold perform; rewrite answered_state.
  1-4: by apply handler_gone.
  rewrite dispatch_gone; auto.
Qed.

(** ** Theorems *)

Section theorems.
Context (sha256_hex : list Z → string) (opts : options) (E : env) (fuel : nat).
Abbreviation exec := (exec sha256_hex opts E fuel).
Abbreviation run := (run sha256_hex opts E fuel).

Lemma reaches ops r : wf r → advance sha256_hex opts true r (run ops r).
Proof. by apply run_steps. Qed.
Lemma exec_stop r : wf r → stopped (exec OpStop r).2 = true.
Proof.
  intros Hwf. destruct fuel as [|n]; cbn [Registry.exec]; unfold perform; rewrite answered_state;
    eapply (stop_stops sha256_hex opts E _ true); try done.
  intros k c r' Hr'. by apply run_steps.
Qed.
Lemma stopped_rejects r b sock conn a :
  stopped r = true → (exec (OpAdmit b sock conn) r).1 ≠ Admitted_as (Accepted a).
Proof.
  intros Hs. destruct fuel as [|n]; cbn [Registry.exec]; unfold perform, answered, admit_link,
    admissionRejection, rejection; autorewrite with eff; rewrite Hs.
  all: unfold mbind, eff_bind; repeat case_match; naive_solver.
Qed.

(** C20. Whatever sequence of public calls and socket and timer
    callbacks reaches a registry, and whatever its sockets, listeners and
    sinks do in between (throw, call back into it at any depth), at most
    [maxLinks] links are live, one per instance; the link an instance maps to
    is bound to that instance, its session is bound to the same connection and
    instance and satisfies the session invariant, a link is ready only after
    its resident's hello, and generations stay below the one handed out next. *)
Theorem registry_invariant caps t b m onFrame ops :
  create caps t b m onFrame = inr opts →
  registry_inv opts (run ops empty_registry).
Proof.
  intros [Hm _]%create_bounds.
  eapply advance_inv; [apply reaches, empty_wf|by apply empty_inv].
Qed.

(** A link that left the registry never becomes current again,
    and from then on no callback of its socket or timer has an effect: at most
    the flag that says its [attach] was reentered is set. *)
Theorem removed_link_inert ops ops' g o :
  let r := run ops empty_registry in
  let r' := run ops' r in
  isCurrent r g = false → g < nextGeneration r → from_link g o →
  isCurrent r' g = false
  ∧ ((exec o r').2 = r' ∨ (exec o r').2 = assign g (set_attaching true true) r').
Proof.
  intros r r' Hc Hg Ho.
  assert (wf r) as Hwf.
  { eapply advance_wf; [apply reaches|]; apply empty_wf. }
  assert (gone r' g) as [Hc' _].
  { eapply advance_gone; [by apply reaches|by split]. }
  split; [done|]. destruct fuel; by apply callback_gone.
Qed.

(** When sockets do not call back from [bufferedAmount] or
    [sendText], the frames sent on every link carry its connection id and are
    numbered 1, 2, 3, … without gap or repetition, across the acknowledgement,
    the frames of brokers and the final error frame. *)
Theorem outbound_contiguous ops g l :
  (∀ k n, k = KSend ∨ k = KBuffered → react E k n = []) →
  let r := run ops empty_registry in
  heap r !! g = Some l →
  map seq (sent_on g (log r)) = seqZ 1 (nextOutboundSeq l - 1)
  ∧ Forall (λ f, connectionId f = l_connectionId l) (sent_on g (log r)).
Proof.
  intros Hq r Hl. assert (outbound_ok r) as [_ Hn].
  { eapply (advance_outbound sha256_hex opts); [|apply empty_wf|apply empty_outbound].
    apply run_steps; [done|apply empty_wf]. }
  destruct (Hn g l Hl) as (? & ? & _). done.
Qed.

(** Every text handed to a socket is the serialization of a
    frame the codec accepts and is no longer than the configured buffer. *)
Theorem outbound_bounded ops g f text :
  Sent g f text ∈ log (run ops empty_registry) →
  serializeFrame sha256_hex (gateway_json f) gateway_to_resident = inr text
  ∧ bytes text ≤ maxBufferedAmount opts.
Proof.
  eapply advance_bounded; [apply reaches, empty_wf|]. intros g' f' text' Hin. inversion Hin.
Qed.

(** [stop] empties the registry for good: after it returns, and
    after anything that happens later, no link is live, and no later
    [admit] is accepted. *)
Theorem stop_is_final ops ops' b sock conn a :
  let r := run (ops ++ [OpStop] ++ ops') empty_registry in
  stopped r = true ∧ links r = ∅ ∧ (exec (OpAdmit b sock conn) r).1 ≠ Admitted_as (Accepted a).
Proof.
  intros r. set (r1 := run ops empty_registry).
  assert (wf r1) as Hwf1 by (eapply advance_wf; [apply reaches|]; apply empty_wf).
  assert (r = run ops' (exec OpStop r1).2) as Hr 
    by (unfold r, r1, Registry.run; rewrite foldl_app; reflexivity).
  assert (advance sha256_hex opts true (exec OpStop r1).2 r) as [_ [Hq _]].
  { rewrite Hr. apply reaches. apply (advance_wf sha256_hex opts true r1); [by apply exec_steps|done]. }
  destruct (Hq (exec_stop r1 Hwf1)) as [Hs _]. split_and!; [done| |by apply stopped_rejects].
  destruct (reaches (ops ++ [OpStop] ++ ops') empty_registry empty_wf) as [_ [_ He]].
  by apply He.
Qed.
End theorems.

(** ** Witnesses: one registry *)

Module Desk.
Import Handshake.Example.

Definition settings : options :=
  {| supportedCapabilities := CAPABILITIES; handshakeTimeoutMs := DEFAULT_HANDSHAKE_TIMEOUT_MS;
     maxBufferedAmount := DEFAULT_MAX_BUFFERED_AMOUNT; maxLinks := DEFAULT_MAX_LINKS;
     has_onFrame := true |}.
Definition node : AuthenticatedNode := {| instanceId := instance; credentialId := "cred" |}.

(** A listener that asks for a viewer whenever it hears of a link. *)
Definition world : env :=
  {| clock_now := λ n, Some (Z.of_nat n); buffered := λ _, Some 0; throws := λ _ _, false;
     attach_detaches := λ _, true; error_text := λ _, "bad frame";
     react := λ k _, match k with
                     | KListener =>
                         [OpSendEffect instance connection (ViewerOp viewer_open request viewer)]
                     | _ => []
                     end |}.

Definition hello_text : option (Z * option json) :=
  Some (300, Some (frame_object "hello" connection 1
    [("instanceId", JStr instance); ("capabilities", caps_json CAPABILITIES);
     ("identity", identity_json who); ("build", build_json build)])).

(** A listener subscribes, a resident connects and says hello, then sends
    binary data. *)
Definition morning : list op :=
  [OpSubscribe 0 0; OpAdmit node 7 connection; OnText 1 hello_text].
Definition day : list op := morning ++ [OnBinary 1; OpAdmit node 8 connection].
End Desk.

Import Handshake.Example Desk.

Lemma registry_invariant_witness :
  registry_inv settings (run sha settings world 3 day empty_registry)
  ∧ links (run sha settings world 3 day empty_registry) = {[ instance := 2 ]}.
Proof.
  split; [|vm_compute; reflexivity].
  by apply (registry_invariant sha settings world 3 CAPABILITIES None None None true day).
Defined.

Lemma removed_link_inert_witness :
  isCurrent (run sha settings world 3 [OpAdmit node 8 connection] (run sha settings world 3
    (morning ++ [OnBinary 1]) empty_registry)) 1 = false.
Proof.
  refine (proj1 (removed_link_inert sha settings world 3 (morning ++ [OnBinary 1])
    [OpAdmit node 8 connection] 1 (OnClose 1) _ _ eq_refl)); vm_compute; reflexivity.
Defined.

Lemma outbound_contiguous_witness :
  map (λ f, (seq f, gateway_type (body f)))
    (sent_on 1 (log (run sha settings world 3 day empty_registry)))
    = [(1, "hello.ack"); (2, "viewer.open"); (3, "error")]
  ∧ map seq (sent_on 1 (log (run sha settings world 3 day empty_registry))) = seqZ 1 3.
Proof.
  split; [vm_compute; reflexivity|].
  assert (nextOutboundSeq <$> heap (run sha settings world 3 day empty_registry) !! 1 = Some 4) as Hn
    by (vm_compute; reflexivity).
  apply fmap_Some in Hn as (l & Hl & Hn).
  destruct (outbound_contiguous sha settings world 3 day 1 l) as [Hs _]; [|done|].
  - by intros k n [->| ->].
  - rewrite Hs, <- Hn. reflexivity.
Defined.

Lemma outbound_bounded_witness :
  ∃ f text, Sent 1 f text ∈ log (run sha settings world 3 day empty_registry)
    ∧ bytes text ≤ maxBufferedAmount settings.
Proof.
  assert (∃ f text, Sent 1 f text ∈ log (run sha settings world 3 day empty_registry))
    as (f & text & Hin).
  { eexists _, _. vm_compute.
    repeat first [apply list_elem_of_here|apply list_elem_of_further]. }
  exists f, text. split; [done|].
  by destruct (outbound_bounded sha settings world 3 day 1 f text Hin).
Defined.
