(* ===== verification/ConsoleBridge.v ===== *)
(** * The console bridge of a resident (src/gateway-console-bridge.ts)

    The resident's end of a Gateway link: frames of the link open, close and refresh
    remote viewers, which are clients of the local console hub, and read media.  The
    hub, the media reader and the writer of the link are outside: an environment
    answers the n-th interaction with them and may call back while it is called, up to
    a nesting depth that every theorem quantifies over.  A promise is a task; tasks
    settle in any order, between calls.  Clients are objects with identity, numbered in
    the order of their creation; a writer is the number of its link.  [log] is what was
    done to the outside; [known] holds the clients the hub was given. *)

From stdpp Require Import sorting.
From S2P Require Import Prelude Protocol.
Local Open Scope string_scope.
Local Open Scope list_scope.

(** A [RemoteHubClient]. *)
Record RemoteHubClient := mkClient { c_viewerId : string; c_effects : nat; c_closed : bool }.

(** What the media reader found ([ConsoleMediaReadResult]); [data] is the base64 text. *)
Inductive MediaFailure := invalid_route | not_found | too_large.
Inductive MediaRead :=
  | ReadOk (mediaType : string) (byteLength : Z) (sha256 data : string)
  | ReadFailed (reason : MediaFailure).

(** Work that waits for a promise, with the generation it was started in. *)
Inductive task :=
  | TAttach (generation : nat) (viewerId : string) (client : nat)
  | TSnapshot (generation : nat) (requestId viewerId : string) (client sink : nat)
  | TMedia (generation : nat) (requestId : string) (sink : nat).
Inductive outcome := Rejected | Fulfilled (sent : bool) (read : MediaRead).

(** Effects written to a link. *)
Inductive effect :=
  | OpResult (op : ViewerOperation) (requestId viewerId : string) (error : option ErrorDetail)
  | Output (client : nat) (viewerId payload : string)
  | MediaRes (requestId : string) (outcome : MediaOutcome).
(** [Opened c]: the result of the opening of [c] was written; [Attach c]: [addClient]
    is called, [Attached c]: its promise fulfils; [Removed c]: [removeClient]. *)
Inductive action :=
  | Effect (sink : nat) (e : effect)
  | Opened (c : nat) | Attach (c : nat) | Attached (c : nat) | Removed (c : nat)
  | SnapshotAsked (c : nat) | Input (c : nat) (payload : string).

Record bridge := mkBridge {
  viewers : gmap string nat;
  generation : nat;
  stopped : bool;
  clients : gmap nat RemoteHubClient;
  next_client : nat;
  tasks : gmap nat task;
  next_task : nat;
  known : gset nat;
  interactions : nat;
  log : list action;
}.
Definition new_bridge : bridge := mkBridge ∅ 1 false ∅ 0 ∅ 0 ∅ 0 [].

Inductive call :=
  | Frame (f : GatewayBody) (sink : nat)
  | Disconnect
  | Stop
  | ClientSend (c : nat) (payload : string).
(** [writes]: whether a write of the link returned true and did not throw; [calls]:
    whether a call of the hub returned. *)
Record env := {
  writes : nat → bool;
  calls : nat → bool;
  reacts : nat → action → list call;
}.
Inductive thrown := HubThrew | ClientClosed.

Definition set_viewers v (b : bridge) : bridge :=
  mkBridge v (generation b) (stopped b) (clients b) (next_client b) (tasks b) (next_task b) (known b)
    (interactions b) (log b).
Definition bump (b : bridge) : bridge :=
  mkBridge (viewers b) (S (generation b)) (stopped b) (clients b) (next_client b) (tasks b) (next_task b) (known b)
    (interactions b) (log b).
Definition set_stopped (b : bridge) : bridge :=
  mkBridge (viewers b) (generation b) true (clients b) (next_client b) (tasks b) (next_task b) (known b)
    (interactions b) (log b).
Definition set_clients m (b : bridge) : bridge :=
  mkBridge (viewers b) (generation b) (stopped b) m (next_client b) (tasks b) (next_task b) (known b)
    (interactions b) (log b).
Definition new_client cl (b : bridge) : bridge :=
  mkBridge (viewers b) (generation b) (stopped b) (<[ next_client b := cl ]> (clients b)) (S (next_client b))
    (tasks b) (next_task b) (known b) (interactions b) (log b).
Definition new_task t (b : bridge) : bridge :=
  mkBridge (viewers b) (generation b) (stopped b) (clients b) (next_client b) (<[ next_task b := t ]> (tasks b))
    (S (next_task b)) (known b) (interactions b) (log b).
Definition drop_task i (b : bridge) : bridge :=
  mkBridge (viewers b) (generation b) (stopped b) (clients b) (next_client b) (delete i (tasks b)) (next_task b)
    (known b) (interactions b) (log b).
Definition logged a (b : bridge) : bridge :=
  mkBridge (viewers b) (generation b) (stopped b) (clients b) (next_client b) (tasks b) (next_task b)
    (match a with Attach c => {[ c ]} ∪ known b | _ => known b end) (interactions b) (log b ++ [a]).
Definition stepped (b : bridge) : bridge :=
  mkBridge (viewers b) (generation b) (stopped b) (clients b) (next_client b) (tasks b) (next_task b) (known b)
    (S (interactions b)) (log b).

Definition mark_closed (cl : RemoteHubClient) : RemoteHubClient := mkClient (c_viewerId cl) (c_effects cl) true.
Definition close_client (c : nat) (b : bridge) : bridge := set_clients (alter mark_closed c (clients b)) b.
Definition is_closed (b : bridge) (c : nat) : bool :=
  match clients b !! c with Some cl => c_closed cl | None => true end.

Definition UNAVAILABLE : ErrorDetail :=
  {| error_code := "unavailable"; error_message := "console viewer is unavailable" |}.
Definition MEDIA_UNAVAILABLE : ErrorDetail :=
  {| error_code := "unavailable"; error_message := "media could not be read" |}.
Definition MEDIA_ERRORS (r : MediaFailure) : ErrorDetail :=
  match r with
  | invalid_route => {| error_code := "invalid_route"; error_message := "media route is invalid" |}
  | not_found => {| error_code := "not_found"; error_message := "media was not found" |}
  | too_large => {| error_code := "too_large"; error_message := "media exceeds the size limit" |}
  end.

(** [#isCurrent] *)
Definition isCurrent (b : bridge) (g : nat) : bool := negb (stopped b) && Nat.eqb g (generation b).
Definition holds (b : bridge) (v : string) (c : nat) : bool := bool_decide (viewers b !! v = Some c).

Section methods.
Context (E : env).
Context (reenter : call → bridge → bridge).

Abbreviation B := (eff bridge thrown).

Definition interact (a : action) : B nat :=
  b ← get;
  modify (logged a);;
  modify stepped;;
  modify (λ b', foldl (λ b' x, reenter x b') b' (reacts E (interactions b) a));;
  mret (interactions b).

(** [#detachHub] *)
Definition detachHub (c : nat) : B () := interact (Removed c);; mret tt.

(** [#remove] *)
Definition remove (v : string) (c : nat) : B () :=
  modify (λ b, if holds b v c then set_viewers (delete v (viewers b)) b else b);;
  modify (close_client c);;
  detachHub c.

(** [#operation] *)
Definition operation (sink : nat) (op : ViewerOperation) (rid v : string) (error : option ErrorDetail) : B bool :=
  n ← interact (Effect sink (OpResult op rid v error));
  mret (writes E n).

(** [send] of a [RemoteHubClient] with the callback [#open] gave it. *)
Definition client_send (c : nat) (payload : string) : B () :=
  b ← get;
  match clients b !! c with
  | None => mret tt
  | Some cl =>
      require (negb (c_closed cl)) ClientClosed;;
      n ← interact (Effect (c_effects cl) (Output c (c_viewerId cl) payload));
      if writes E n then mret tt
      else
        modify (close_client c);;
        b ← get;
        (if holds b (c_viewerId cl) c then
           modify (set_viewers (delete (c_viewerId cl) (viewers b)));; detachHub c
         else mret tt);;
        throw ClientClosed
  end.

(** [#open] *)
Definition open (rid v : string) (sink : nat) : B () :=
  b ← get;
  match viewers b !! v with
  | Some _ => operation sink viewer_open rid v (Some UNAVAILABLE);; mret tt
  | None =>
      let g := generation b in
      let c := next_client b in
      modify (new_client (mkClient v sink false));;
      modify (λ b, set_viewers (<[ v := c ]> (viewers b)) b);;
      ok ← operation sink viewer_open rid v None;
      if negb ok then remove v c
      else
        modify (logged (Opened c));;
        b ← get;
        if negb (isCurrent b g) || is_closed b c || negb (holds b v c) then mret tt
        else
          let t := next_task b in
          modify (new_task (TAttach g v c));;
          n ← interact (Attach c);
          if calls E n then mret tt
          else modify (drop_task t);; remove v c
  end.

(** [#close] *)
Definition close (rid v : string) (sink : nat) : B () :=
  b ← get;
  match viewers b !! v with
  | None => operation sink viewer_close rid v (Some UNAVAILABLE);; mret tt
  | Some c => remove v c;; operation sink viewer_close rid v None;; mret tt
  end.

(** [#snapshot] *)
Definition snapshot (rid v : string) (sink : nat) : B () :=
  b ← get;
  match viewers b !! v with
  | Some c =>
      if is_closed b c then operation sink viewer_snapshot rid v (Some UNAVAILABLE);; mret tt
      else
        let g := generation b in
        n ← interact (SnapshotAsked c);
        require (calls E n) HubThrew;;
        modify (new_task (TSnapshot g rid v c sink))
  | None => operation sink viewer_snapshot rid v (Some UNAVAILABLE);; mret tt
  end.

(** [#readMedia]: the read starts in a later turn. *)
Definition readMedia (rid : string) (sink : nat) : B () :=
  b ← get;
  modify (new_task (TMedia (generation b) rid sink)).

Definition handleFrame (f : GatewayBody) (sink : nat) : B () :=
  b ← get;
  if stopped b then mret tt
  else match f with
    | ViewerOp viewer_open rid v => open rid v sink
    | ViewerOp viewer_close rid v => close rid v sink
    | ViewerOp viewer_snapshot rid v => snapshot rid v sink
    | ConsoleInput v payload =>
        match viewers b !! v with
        | Some c =>
            if is_closed b c then mret tt
            else n ← interact (Input c payload); require (calls E n) HubThrew
        | None => mret tt
        end
    | MediaGet rid _ => readMedia rid sink
    | HelloAck _ _ | GatewayErr _ => mret tt
    end.

(** [#detachAll]: the clients in the order they were opened. *)
Fixpoint detach_each (cs : list nat) : B () :=
  match cs with
  | [] => mret tt
  | c :: cs => detachHub c;; detach_each cs
  end.
Definition detachAll : B () :=
  b ← get;
  let cs := merge_sort le (map snd (map_to_list (viewers b))) in
  modify (set_viewers ∅);;
  modify (λ b, foldr close_client b cs);;
  detach_each cs.

Definition disconnect : B () :=
  b ← get;
  if stopped b then mret tt else modify bump;; detachAll.
Definition stop : B () :=
  b ← get;
  if stopped b then mret tt else modify set_stopped;; modify bump;; detachAll.

Definition perform (x : call) : B () :=
  match x with
  | Frame f sink => handleFrame f sink
  | Disconnect => disconnect
  | Stop => stop
  | ClientSend c payload =>
      b ← get; if bool_decide (c ∈ known b) then client_send c payload else mret tt
  end.

(** A promise settles: what was chained to it runs. *)
Definition settle_attach (g : nat) (v : string) (c : nat) (o : outcome) : B () :=
  match o with
  | Fulfilled _ _ =>
      modify (logged (Attached c));;
      b ← get;
      if negb (isCurrent b g) || negb (holds b v c) || is_closed b c then remove v c else mret tt
  | Rejected => remove v c
  end.
Definition settle_snapshot (g : nat) (rid v : string) (c sink : nat) (o : outcome) : B () :=
  b ← get;
  match o with
  | Fulfilled sent _ =>
      if negb (isCurrent b g) || negb (holds b v c) then mret tt
      else
        (if sent then mret tt else remove v c);;
        operation sink viewer_snapshot rid v (if sent then None else Some UNAVAILABLE);;
        mret tt
  | Rejected =>
      if negb (isCurrent b g) then mret tt
      else
        remove v c;;
        operation sink viewer_snapshot rid v (Some UNAVAILABLE);;
        mret tt
  end.
Definition settle_media (g : nat) (rid : string) (sink : nat) (o : outcome) : B () :=
  b ← get;
  if negb (isCurrent b g) then mret tt
  else
    interact (Effect sink (MediaRes rid
      match o with
      | Fulfilled _ (ReadOk ty len sha data) => MediaOk ty len sha data
      | Fulfilled _ (ReadFailed r) => MediaFailed (MEDIA_ERRORS r)
      | Rejected => MediaFailed MEDIA_UNAVAILABLE
      end));;
    mret tt.
Definition settle_task (t : task) (o : outcome) : B () :=
  match t with
  | TAttach g v c => settle_attach g v c o
  | TSnapshot g rid v c sink => settle_snapshot g rid v c sink o
  | TMedia g rid sink => settle_media g rid sink o
  end.
Definition settle (i : nat) (o : outcome) : B () :=
  b ← get;
  match tasks b !! i with
  | Some t => modify (drop_task i);; settle_task t o
  | None => mret tt
  end.
End methods.

(** Calls of the outside, nested at most [depth] deep. *)
Fixpoint exec (E : env) (depth : nat) (x : call) (b : bridge) : bridge :=
  match depth with
  | O => (perform E (λ _ b, b) x b).2
  | S depth => (perform E (exec E depth) x b).2
  end.
(** A turn of the event loop. *)
Inductive turn := Call (x : call) | Settle (i : nat) (o : outcome).
Definition take_turn (E : env) (depth : nat) (b : bridge) (x : turn) : bridge :=
  match x with
  | Call x => exec E depth x b
  | Settle i o => (settle E (exec E depth) i o b).2
  end.
Definition run (E : env) (depth : nat) (xs : list turn) : bridge := foldl (take_turn E depth) new_bridge xs.
