(* ===== verification/ConsoleBridgeTheorems.v ===== *)
(** * Theorems on the console bridge *)

From stdpp Require Import sorting.
From S2P Require Import Prelude Effects Protocol ConsoleBridge.
Local Open Scope list_scope.

(** Whether the hub may hold the client: it was given and not removed since. *)
Definition hub_step (c : nat) (h : bool) (a : action) : bool :=
  match a with
  | Attach d | Attached d => if Nat.eqb d c then true else h
  | Removed d => if Nat.eqb d c then false else h
  | _ => h
  end.
Definition hub_has (l : list action) (c : nat) : bool := foldl (hub_step c) false l.

Definition is_output (c : nat) (a : action) : Prop := ∃ s v p, a = Effect s (Output c v p).
Definition fenced (l : list action) : Prop :=
  ∀ pre a post c, l = pre ++ a :: post → is_output c a → Opened c ∈ pre.

Definition about (t : task) : option (string * nat) :=
  match t with
  | TAttach _ v c | TSnapshot _ _ v c _ => Some (v, c)
  | TMedia _ _ _ => None
  end.

(** [P] holds the clients whose removal is under way. *)
Record inv (P : gset nat) (b : bridge) : Prop := {
  i_viewers : ∀ v c, viewers b !! v = Some c → ∃ cl, clients b !! c = Some cl ∧ c_viewerId cl = v ∧ c_closed cl = false;
  i_hub : ∀ c, hub_has (log b) c = true →
    (∃ v, viewers b !! v = Some c) ∨ (∃ t g v, tasks b !! t = Some (TAttach g v c)) ∨ c ∈ P;
  i_about : ∀ t x v c, tasks b !! t = Some x → about x = Some (v, c) → ∃ cl, clients b !! c = Some cl ∧ c_viewerId cl = v;
  i_known : ∀ c, c ∈ known b → Opened c ∈ log b;
  i_fenced : fenced (log b);
  i_clients : ∀ c cl, clients b !! c = Some cl → c < next_client b;
  i_tasks : ∀ t x, tasks b !! t = Some x → t < next_task b;
  i_open : ∀ c cl, clients b !! c = Some cl → c_closed cl = false → viewers b !! c_viewerId cl = Some c;
  i_stopped : stopped b = true → viewers b = ∅;
}.

(** What later states keep. *)
Record mono (b b' : bridge) : Prop := {
  m_clients : ∀ c cl, clients b !! c = Some cl → ∃ cl', clients b' !! c = Some cl' ∧ c_viewerId cl' = c_viewerId cl;
  m_tasks : ∀ t x, tasks b !! t = Some x → tasks b' !! t = Some x;
  m_next : next_task b ≤ next_task b';
  m_log : ∃ l, log b' = log b ++ l;
}.
#[export] Instance mono_preorder : PreOrder mono.
Proof.
  split.
  - intros b. split; [eauto|eauto|done|by exists []; rewrite app_nil_r].
  - intros b1 b2 b3 [C1 T1 N1 [l1 L1]] [C2 T2 N2 [l2 L2]]. split; [|eauto|lia|].
    + intros c cl (cl' & (cl'' & ? & ?)%C2 & ?)%C1. exists cl''. split; [done|congruence].
    + exists (l1 ++ l2). by rewrite L2, L1, app_assoc.
Qed.

Lemma hub_has_snoc l a c : hub_has (l ++ [a]) c = hub_step c (hub_has l c) a.
Proof. unfold hub_has. by rewrite foldl_snoc. Qed.
Lemma fenced_snoc l a : fenced l → (∀ c, is_output c a → Opened c ∈ l) → fenced (l ++ [a]).
Proof.
  intros Hl Ha pre x post c He Hx. destruct post as [|y post] using rev_ind.
  - apply app_inj_tail in He as [-> ->]. by apply Ha.
  - rewrite app_comm_cons, app_assoc in He. apply app_inj_tail in He as [-> _]. by eapply Hl.
Qed.

(** ** What single steps do to the invariant *)

Lemma inv_weaken P P' b : P ⊆ P' → inv P b → inv P' b.
Proof. intros HP [Hv Hh Ha Hk Hf Hc Ht Hu Hs]. split; try done. intros c Hc'. destruct (Hh c Hc') as [?|[?|?]]; set_solver. Qed.
(** An action that gives the hub nothing. *)
Definition harmless (b : bridge) (a : action) : Prop :=
  match a with
  | Effect _ (Output c _ _) => c ∈ known b
  | Attach _ | Attached _ | Removed _ => False
  | _ => True
  end.
Lemma inv_harmless P b a : harmless b a → inv P b → inv P (stepped (logged a b)).
Proof.
  intros Ha [Hv Hh Hab Hk Hf Hc Ht Hu Hs]. split; simpl; try done.
  - intros c. rewrite hub_has_snoc. destruct a as [? []| | | | | |]; try done; apply Hh.
  - intros c Hc'. apply elem_of_app. left. apply Hk. by destruct a as [? []| | | | | |].
  - apply fenced_snoc; [done|]. intros c (s & v & p & ->). by apply Hk.
Qed.
Lemma mono_logged b a : mono b (stepped (logged a b)).
Proof. split; simpl; [eauto|eauto|done|by eexists]. Qed.

Definition with_removed (v : string) (c : nat) (b : bridge) : bridge :=
  stepped (logged (Removed c) (close_client c (if holds b v c then set_viewers (delete v (viewers b)) b else b))).
Lemma with_removed_fields v c b :
  tasks (with_removed v c b) = tasks b ∧ next_task (with_removed v c b) = next_task b
  ∧ clients (with_removed v c b) = alter mark_closed c (clients b)
  ∧ log (with_removed v c b) = log b ++ [Removed c]
  ∧ known (with_removed v c b) = known b ∧ next_client (with_removed v c b) = next_client b
  ∧ viewers (with_removed v c b) = (if holds b v c then delete v (viewers b) else viewers b)
  ∧ stopped (with_removed v c b) = stopped b.
Proof. unfold with_removed. by destruct (holds b v c). Qed.
Lemma alter_closed (m : gmap nat RemoteHubClient) c d cl :
  alter mark_closed c m !! d = Some cl →
  ∃ cl0, m !! d = Some cl0 ∧ c_viewerId cl = c_viewerId cl0 ∧ (d ≠ c → cl = cl0).
Proof.
  rewrite lookup_alter. destruct (decide (c = d)) as [->|Hne]; [|naive_solver].
  destruct (m !! d) as [cl0|]; [|done]. intros [= <-]. by exists cl0.
Qed.
Lemma lookup_closed (m : gmap nat RemoteHubClient) c d cl :
  m !! d = Some cl → ∃ cl', alter mark_closed c m !! d = Some cl' ∧ c_viewerId cl' = c_viewerId cl ∧ (d ≠ c → cl' = cl).
Proof.
  intros Hd. rewrite lookup_alter. destruct (decide (c = d)) as [->|Hne]; rewrite Hd; simpl; [|by exists cl].
  by exists (mark_closed cl).
Qed.

(** Removing a client, whoever it is listed for. *)
Lemma inv_removed P v c b :
  inv P b → (∀ cl, clients b !! c = Some cl → c_viewerId cl = v) → inv (P ∖ {[c]}) (with_removed v c b).
Proof.
  intros [Hv Hh Hab Hk Hf Hc Ht Hu Hs] Hcv. destruct (with_removed_fields v c b) as (Et & En & Ec & El & Ek & Enc & Ev & Es).
  split; rewrite ?Et, ?En, ?Ec, ?El, ?Ek, ?Enc, ?Ev, ?Es.
  - intros v' d Hd. assert (d ≠ c ∧ viewers b !! v' = Some d) as [Hne Hd'].
    { unfold holds in Hd. case_bool_decide as Hb.
      - apply lookup_delete_Some in Hd as [Hvv Hd]. split; [|done]. intros ->.
        destruct (Hv _ _ Hd) as (cl & Hcl & <- & _). by rewrite (Hcv _ Hcl) in Hvv.
      - split; [|done]. intros ->. destruct (Hv _ _ Hd) as (cl & Hcl & <- & _). by rewrite (Hcv _ Hcl) in Hd. }
    destruct (Hv _ _ Hd') as (cl & Hcl & ? & ?). destruct (lookup_closed _ c _ _ Hcl) as (cl' & Hcl' & _ & He).
    rewrite (He Hne) in Hcl'. eauto.
  - intros d. rewrite hub_has_snoc. simpl. destruct (Nat.eqb_spec c d) as [->|Hne]; [done|]. intros Hd.
    destruct (Hh d Hd) as [[v' Hv']|[?|?]]; [left|right; left; done|right; right; set_solver].
    exists v'. destruct (holds b v c) eqn:Hb; [|done]. unfold holds in Hb. guards.
    rewrite lookup_delete_ne; [done|]. intros <-. congruence.
  - intros t x v' d Htx Hx. destruct (Hab _ _ _ _ Htx Hx) as (cl & Hcl & Hclv).
    destruct (lookup_closed _ c _ _ Hcl) as (cl' & ? & ? & _). exists cl'. split; [done|congruence].
  - intros d Hd. apply elem_of_app. left. by apply Hk.
  - apply fenced_snoc; [done|]. by intros d (s & w & p & [=]).
  - intros d cl Hd. apply alter_closed in Hd as (cl0 & Hd & _). by eapply Hc.
  - exact Ht.
  - intros d cl Hd Hcl. assert (d ≠ c) as Hne.
    { intros ->. rewrite lookup_alter_eq in Hd. destruct (clients b !! c); by simplify_eq/=. }
    rewrite lookup_alter_ne in Hd by done. pose proof (Hu d cl Hd Hcl) as Hd'. unfold holds. case_bool_decide; [|done].
    rewrite lookup_delete_ne; [done|]. intros ->. congruence.
  - intros ->%Hs. destruct (holds b v c); [apply delete_empty|done].
Qed.
Lemma mono_removed v c b : mono b (with_removed v c b).
Proof.
  destruct (with_removed_fields v c b) as (Et & En & Ec & El & _). split; rewrite ?Et, ?En, ?Ec, ?El; try done; [|by eexists].
  intros d cl Hd. destruct (lookup_closed _ c _ _ Hd) as (cl' & ? & ? & _). eauto.
Qed.

(** The client [c] was made for the viewer [v]. *)
Definition client_of (v : string) (c : nat) (b : bridge) : Prop :=
  ∃ cl, clients b !! c = Some cl ∧ c_viewerId cl = v.
Lemma client_of_mono v c b b' : mono b b' → client_of v c b → client_of v c b'.
Proof. intros Hm (cl & (cl' & ? & ?)%(m_clients _ _ Hm) & ?). exists cl'. split; [done|congruence]. Qed.
Lemma inv_new_task P b t :
  inv P b → (∀ v c, about t = Some (v, c) → client_of v c b) → inv P (new_task t b) ∧ mono b (new_task t b).
Proof.
  intros [Hv Hh Hab Hk Hf Hc Ht Hu Hs] Hx. assert (tasks b !! next_task b = None) as Hnew.
  { destruct (tasks b !! next_task b) as [x|] eqn:He; [|done]. apply Ht in He. lia. }
  split; [split; simpl; try done|split; simpl; [eauto| |lia|by exists []; rewrite app_nil_r]].
  - intros c Hc'. destruct (Hh c Hc') as [?|[(t' & g & v & Ht')|?]]; [auto| |auto]. right; left. exists t', g, v.
    rewrite lookup_insert_ne; [done|]. intros <-. congruence.
  - intros t' x v c. rewrite lookup_insert. case_decide; [|by eauto]. intros [= <-]. by apply Hx.
  - intros t' x. rewrite lookup_insert. case_decide; [lia|]. intros He. apply Ht in He. lia.
  - intros t' x He. rewrite lookup_insert_ne; [done|]. intros <-. congruence.
Qed.
Lemma inv_new_viewer P b v sink :
  inv P b → viewers b !! v = None → stopped b = false →
  let b' := set_viewers (<[ v := next_client b ]> (viewers b)) (new_client (mkClient v sink false) b) in
  inv P b' ∧ mono b b' ∧ client_of v (next_client b) b'.
Proof.
  intros [Hv Hh Hab Hk Hf Hc Ht Hu Hs] Hnone Hrun b'.
  assert (clients b !! next_client b = None) as Hnew.
  { destruct (clients b !! next_client b) as [x|] eqn:He; [|done]. apply Hc in He. lia. }
  assert (∀ c cl, clients b !! c = Some cl → clients b' !! c = Some cl) as Hkeep.
  { intros c cl He. subst b'. simpl. rewrite lookup_insert_ne; [done|]. intros <-. congruence. }
  split_and!.
  - split; simpl; try done.
    + intros v' c. rewrite lookup_insert. case_decide as Hvv.
      * intros [= <-]. rewrite lookup_insert_eq. by eexists.
      * intros (cl & Hcl & ? & ?)%Hv. exists cl. by split_and!; [apply Hkeep|..].
    + intros c Hc'. destruct (Hh c Hc') as [[v' Hv']|?]; [left|by right]. exists v'.
      rewrite lookup_insert_ne; [done|]. intros <-. congruence.
    + intros t x v' c Htx Hx. destruct (Hab _ _ _ _ Htx Hx) as (cl & Hcl & ?). exists cl. by split; [apply Hkeep|].
    + intros c cl. rewrite lookup_insert. case_decide; [lia|]. intros He. apply Hc in He. lia.
    + intros c cl. rewrite lookup_insert. case_decide as Hcc.
      * intros [= <-] _. subst c. by rewrite lookup_insert_eq.
      * intros He Hcl. rewrite lookup_insert_ne; [by apply Hu|]. intros ->. specialize (Hu _ _ He Hcl). congruence.
    + congruence.
  - split; simpl; [|done|done|by exists []; rewrite app_nil_r]. intros c cl Hcl. exists cl. by split; [apply Hkeep|].
  - exists (mkClient v sink false). subst b'. simpl. by rewrite lookup_insert_eq.
Qed.
Lemma inv_opened P b c : inv P b → inv P (logged (Opened c) b) ∧ mono b (logged (Opened c) b).
Proof.
  intros Hb. split; [|by split; simpl; [eauto|eauto|done|by eexists]].
  destruct (inv_harmless P b (Opened c) I Hb) as [Hv Hh Hab Hk Hf Hc Ht Hu Hs]. by split.
Qed.
Lemma inv_attach P b t g v c :
  inv P b → tasks b !! t = Some (TAttach g v c) → Opened c ∈ log b → inv P (stepped (logged (Attach c) b)).
Proof.
  intros [Hv Hh Hab Hk Hf Hc Ht Hu Hs] Htask Ho. split; simpl; try done.
  - intros d. rewrite hub_has_snoc. simpl. destruct (Nat.eqb_spec c d) as [->|Hne]; [intros _; right; left; eauto|apply Hh].
  - intros d Hd. apply elem_of_app. left. apply elem_of_union in Hd as [->%elem_of_singleton|Hd]; [done|by apply Hk].
  - apply fenced_snoc; [done|]. by intros d (s & w & p & [=]).
Qed.
Lemma inv_drop_task P b t g v c :
  inv P b → tasks b !! t = Some (TAttach g v c) → inv (P ∪ {[c]}) (drop_task t b).
Proof.
  intros [Hv Hh Hab Hk Hf Hc Ht Hu Hs] Htask. split; simpl; try done.
  - intros d Hd. destruct (Hh d Hd) as [?|[(t' & g' & v' & Ht')|?]]; [auto| |set_solver].
    destruct (decide (t' = t)) as [->|Hne]; [|by right; left; exists t', g', v'; rewrite lookup_delete_ne].
    right; right. assert (d = c) as -> by congruence. set_solver.
  - intros t' x v' d [_ Htx]%lookup_delete_Some. by eapply Hab.
  - intros t' x [_ Htx]%lookup_delete_Some. by eapply Ht.
Qed.
Lemma mono_drop_task b0 b t : (∀ t' x, tasks b0 !! t' = Some x → t' ≠ t) → mono b0 b → mono b0 (drop_task t b).
Proof.
  intros Hn [Hc Ht Hnx Hl]. split; simpl; [done| |done|done]. intros t' x Hx.
  rewrite lookup_delete_ne; [by apply Ht|]. intros <-. by eapply Hn.
Qed.
Lemma viewer_client P b v c : inv P b → viewers b !! v = Some c → client_of v c b.
Proof. intros Hb (cl & ? & ? & _)%(i_viewers _ _ Hb). by exists cl. Qed.
Lemma inv_closed P v c b : inv P b → client_of v c b → holds b v c = false → inv P (close_client c b).
Proof.
  intros [Hv Hh Hab Hk Hf Hc Ht Hu Hs] (cl0 & Hcl0 & Hclv) Hn. unfold holds in Hn. guards.
  split; simpl; try done.
  - intros v' d Hd. destruct (Hv _ _ Hd) as (cl & Hcl & ? & ?). destruct (lookup_closed _ c _ _ Hcl) as (cl' & ? & ? & He).
    assert (d ≠ c) as Hne by (intros ->; simplify_eq/=; congruence). exists cl. by rewrite <-(He Hne) at 1.
  - intros t x v' d Htx Hx. destruct (Hab _ _ _ _ Htx Hx) as (cl & Hcl & ?).
    destruct (lookup_closed _ c _ _ Hcl) as (cl' & ? & ? & _). exists cl'. split; [done|congruence].
  - intros d cl Hd. apply alter_closed in Hd as (cl1 & Hd & _). by eapply Hc.
  - intros d cl Hd Hcl. assert (d ≠ c) as Hne.
    { intros ->. rewrite lookup_alter_eq in Hd. destruct (clients b !! c); by simplify_eq/=. }
    rewrite lookup_alter_ne in Hd by done. by apply Hu.
Qed.
Lemma mono_closed c b : mono b (close_client c b).
Proof.
  split; simpl; [|done|done|by exists []; rewrite app_nil_r]. intros d cl Hd.
  destruct (lookup_closed _ c _ _ Hd) as (cl' & ? & ? & _). eauto.
Qed.
Lemma inv_detached P c b : inv P b → inv (P ∖ {[c]}) (stepped (logged (Removed c) b)).
Proof.
  intros [Hv Hh Hab Hk Hf Hc Ht Hu Hs]. split; simpl; try done.
  - intros d. rewrite hub_has_snoc. simpl. destruct (Nat.eqb_spec c d) as [->|Hne]; [done|].
    intros [?|[?|?]]%Hh; [auto|auto|]. right; right. set_solver.
  - intros d Hd. apply elem_of_app. left. by apply Hk.
  - apply fenced_snoc; [done|]. by intros d (s & w & p & [=]).
Qed.
(** Closing all of a list of clients. *)
Lemma close_all_fields cs b :
  let b' := foldr close_client b cs in
  viewers b' = viewers b ∧ log b' = log b ∧ tasks b' = tasks b ∧ known b' = known b ∧ stopped b' = stopped b
  ∧ next_task b' = next_task b ∧ next_client b' = next_client b
  ∧ (∀ c, clients b' !! c = (λ cl, if bool_decide (c ∈ cs) then mark_closed cl else cl) <$> clients b !! c).
Proof.
  induction cs as [|c cs IH]; simpl; [|destruct IH as (Hv & Hl & Ht & Hk & Hs & Hn & Hc & Hcl)].
  - split_and!; try done. intros c. by destruct (clients b !! c).
  - split_and!; try done. intros d. rewrite lookup_alter, Hcl. destruct (decide (c = d)) as [->|Hne].
    + rewrite (bool_decide_eq_true_2 (d ∈ d :: cs)) by by left. destruct (clients b !! d); [|done]. simpl.
      by case_bool_decide.
    + rewrite Hcl. rewrite (bool_decide_ext (d ∈ c :: cs) (d ∈ cs)); [done|].
      rewrite elem_of_cons. naive_solver.
Qed.
Lemma inv_detachAll P b b1 cs :
  inv P b → b1 = bump b ∨ b1 = bump (set_stopped b) → (∀ c, c ∈ cs ↔ ∃ v, viewers b !! v = Some c) →
  inv (P ∪ list_to_set cs) (foldr close_client (set_viewers ∅ b1) cs) ∧ mono b (foldr close_client (set_viewers ∅ b1) cs).
Proof.
  intros [Hv Hh Hab Hk Hf Hc Ht Hu Hs] Hb1 Hcs.
  assert (log b1 = log b ∧ tasks b1 = tasks b ∧ known b1 = known b ∧ next_task b1 = next_task b
    ∧ next_client b1 = next_client b ∧ clients b1 = clients b) as (Fl & Ft & Fk & Fn & Fnc & Fc)
    by by destruct Hb1 as [->| ->].
  destruct (close_all_fields cs (set_viewers ∅ b1)) as (Ev & El & Et & Ek & Es & En & Enc & Ecl).
  simpl in Ecl. rewrite Fc in Ecl.
  assert (∀ c cl, clients b !! c = Some cl →
    ∃ cl', clients (foldr close_client (set_viewers ∅ b1) cs) !! c = Some cl' ∧ c_viewerId cl' = c_viewerId cl) as Hkeep.
  { intros c cl Hcl. rewrite Ecl, Hcl. simpl. eexists. split; [done|]. by case_bool_decide. }
  split; split; rewrite ?Ev, ?El, ?Et, ?Ek, ?En, ?Enc; simpl; rewrite ?Fl, ?Ft, ?Fk, ?Fn, ?Fnc; try done;
    [..|by exists []; rewrite app_nil_r].
  - intros c [Hvc|[?|?]]%Hh; [|auto|set_solver]. right; right. apply Hcs in Hvc. set_solver.
  - intros t x v c Htx Hx. destruct (Hab _ _ _ _ Htx Hx) as (cl & (cl' & ? & ?)%Hkeep & <-). eauto.
  - intros c cl. rewrite Ecl. intros (cl0 & ? & ?)%fmap_Some. by eapply Hc.
  - intros c cl. rewrite Ecl. intros (cl0 & Hcl0 & ->)%fmap_Some Hcl. exfalso. case_bool_decide as Hb; [done|].
    apply Hb, Hcs. eauto.
Qed.
Lemma listed_clients b c : c ∈ merge_sort le (map snd (map_to_list (viewers b))) ↔ ∃ v, viewers b !! v = Some c.
Proof.
  rewrite merge_sort_Permutation. change (map snd) with (fmap (M:=list) (@snd string nat)). rewrite list_elem_of_fmap.
  setoid_rewrite elem_of_map_to_list'. split.
  - intros ([v c'] & -> & ?). by exists v.
  - intros [v ?]. by exists (v, c).
Qed.
Lemma inv_attached P b c : inv P b → c ∈ P → inv P (logged (Attached c) b).
Proof.
  intros [Hv Hh Hab Hk Hf Hc Ht Hu Hs] Hcp. split; simpl; try done.
  - intros d. rewrite hub_has_snoc. simpl. destruct (Nat.eqb_spec c d) as [->|Hne]; [auto|apply Hh].
  - intros d Hd. apply elem_of_app. left. by apply Hk.
  - apply fenced_snoc; [done|]. by intros d (s & w & p & [=]).
Qed.
Lemma inv_drop P b t x :
  inv P b → tasks b !! t = Some x → (∀ g v c, x ≠ TAttach g v c) → inv P (drop_task t b).
Proof.
  intros [Hv Hh Hab Hk Hf Hc Ht Hu Hs] Htask Hx. split; simpl; try done.
  - intros d Hd. destruct (Hh d Hd) as [?|[(t' & g' & v' & Ht')|?]]; [auto| |auto].
    right; left. exists t', g', v'. rewrite lookup_delete_ne; [done|]. intros <-. simplify_eq. by eapply Hx.
  - intros t' y v' d [_ Htx]%lookup_delete_Some. by eapply Hab.
  - intros t' y [_ Htx]%lookup_delete_Some. by eapply Ht.
Qed.

(** ** The methods *)

Section methods.
Context (E : env) (reenter : call → bridge → bridge).
Context (Hre : ∀ P x b, inv P b → inv P (reenter x b) ∧ mono b (reenter x b)).

Definition good {A} (P : gset nat) (b0 : bridge) (_ : A) (b : bridge) : Prop := inv P b ∧ mono b0 b.
Abbreviation keeps P m b0 b := (wp m (good P b0) (good P b0) b).

Lemma reenter_all P xs b :
  inv P b → inv P (foldl (λ b x, reenter x b) b xs) ∧ mono b (foldl (λ b x, reenter x b) b xs).
Proof.
  revert b. induction xs as [|x xs IH]; intros b Hb; simpl; [done|].
  destruct (Hre P x b Hb) as [H1 H2]. destruct (IH _ H1) as [H3 H4]. split; [done|by etrans].
Qed.
Lemma wp_interact P a b (Q : nat → bridge → Prop) X :
  inv P (stepped (logged a b)) → (∀ n b', inv P b' → mono (stepped (logged a b)) b' → Q n b') →
  wp (interact E reenter a) Q X b.
Proof.
  intros Hb HQ. unfold interact. wp_run.
  destruct (reenter_all P (reacts E (interactions b) a) (stepped (logged a b)) Hb). by apply HQ.
Qed.
Lemma wp_write P b0 b a (Q : nat → bridge → Prop) X :
  inv P b → mono b0 b → harmless b a → (∀ n b', inv P b' → mono b0 b' → Q n b') →
  wp (interact E reenter a) Q X b.
Proof.
  intros Hb Hm Ha HQ. apply (wp_interact P); [by apply inv_harmless|]. intros n b' Hb' Hm'. apply HQ; [done|].
  etrans; [done|]. etrans; [apply mono_logged|done].
Qed.

Lemma wp_remove P Q b0 b v c X :
  inv P b → mono b0 b → client_of v c b → (∀ b', inv (P ∖ {[c]}) b' → mono b0 b' → Q tt b') →
  wp (remove E reenter v c) Q X b.
Proof.
  intros Hb Hm (cl & Hcl & Hv) HQ. unfold remove, detachHub. wp_run.
  apply (wp_interact (P ∖ {[c]})).
  - apply (inv_removed P v c b); [done|]. intros cl' Hcl'. congruence.
  - intros n b' Hb' Hm'. wp_run. apply HQ; [done|]. etrans; [done|]. etrans; [apply (mono_removed v c)|done].
Qed.
Lemma bridge_keeps_remove P b0 b v c : inv P b → mono b0 b → client_of v c b → keeps P (remove E reenter v c) b0 b.
Proof.
  intros Hb Hm Hc. apply (wp_remove P _ b0); [done..|]. intros b' Hb' Hm'. split; [|done].
  eapply inv_weaken; [|done]. set_solver.
Qed.

Lemma wp_operation P b0 b sink op rid v err Q X :
  inv P b → mono b0 b → (∀ ok b', inv P b' → mono b0 b' → Q ok b') →
  wp (operation E reenter sink op rid v err) Q X b.
Proof.
  intros Hb Hm HQ. unfold operation. wp_step. apply (wp_write P b0); [done..|]. intros n b' ??. wp_run. by apply HQ.
Qed.
Lemma keeps_report P b0 b sink op rid v err :
  inv P b → mono b0 b → keeps P (operation E reenter sink op rid v err;; mret tt) b0 b.
Proof. intros Hb Hm. wp_step. apply (wp_operation P b0); [done..|]. intros ok b' ??. by wp_run. Qed.

Lemma keeps_readMedia P b rid sink : inv P b → keeps P (readMedia rid sink) b b.
Proof. intros Hb. unfold readMedia. wp_run. by apply inv_new_task. Qed.

Lemma keeps_open P b rid v sink : inv P b → stopped b = false → keeps P (open E reenter rid v sink) b b.
Proof.
  intros Hb Hrun. unfold open. wp_step. wp_step. destruct (viewers b !! v) as [c'|] eqn:Hv; [by apply keeps_report|].
  cbv zeta. set (c := next_client b). do 5 (wp_step; cbv beta).
  destruct (inv_new_viewer P b v sink Hb Hv Hrun) as (Hb1 & Hm1 & Hc1).
  match goal with |- wp _ _ _ ?s => set (b1 := s) end.
  apply (wp_operation P b1); [exact Hb1|done|]. intros ok b2 Hb2 Hm2.
  pose proof (client_of_mono _ _ _ _ Hm2 Hc1) as Hc2.
  assert (mono b b2) as Hm by by etrans. wp_step; [by apply bridge_keeps_remove|].
  wp_step. wp_step. cbv beta. destruct (inv_opened P b2 c Hb2) as [Hb3 Hm3]. set (b3 := logged (Opened c) b2) in *.
  wp_step. wp_step. cbv beta. wp_step; [wp_run; split; [done|by etrans]|]. wp_step. wp_step. cbv beta.
  set (t := next_task b3).
  destruct (inv_new_task P b3 (TAttach (generation b) v c)) as [Hb4 Hm4]; [done| |].
  { intros v' c' [= <- <-]. by eapply client_of_mono. }
  set (b4 := new_task _ b3) in *.
  assert (tasks b4 !! t = Some (TAttach (generation b) v c)) as Ht by (unfold b4; simpl; by rewrite lookup_insert_eq).
  wp_step. apply (wp_interact P).
  { eapply inv_attach; [done|done|]. unfold b4, b3. simpl. apply elem_of_app. right. by left. }
  intros n b5 Hb5 Hm5. assert (mono b b5) as Hmb.
  { etrans; [done|]. etrans; [done|]. etrans; [done|]. etrans; [apply mono_logged|done]. }
  wp_step; [by wp_run|]. wp_step. wp_step. cbv beta.
  assert (tasks b5 !! t = Some (TAttach (generation b) v c)) as Ht5 by (apply (m_tasks _ _ Hm5); exact Ht).
  apply (wp_remove (P ∪ {[c]}) _ b).
  - by eapply inv_drop_task.
  - apply mono_drop_task; [|done]. intros t' x Hx ->. apply (i_tasks _ _ Hb) in Hx. pose proof (m_next _ _ Hm).
    unfold t, b3 in Hx. simpl in Hx. lia.
  - pose proof (client_of_mono _ _ _ _ Hm3 Hc2) as Hc3. pose proof (client_of_mono _ _ _ _ Hm4 Hc3) as Hc4.
    pose proof (client_of_mono _ _ _ _ (mono_logged b4 (Attach c)) Hc4) as Hc4'.
    exact (client_of_mono _ _ _ _ Hm5 Hc4').
  - intros b' Hb' Hm'. split; [|done]. eapply inv_weaken; [|done]. set_solver.
Qed.

Lemma keeps_close P b rid v sink : inv P b → keeps P (close E reenter rid v sink) b b.
Proof.
  intros Hb. unfold close. wp_step. wp_step. destruct (viewers b !! v) as [c|] eqn:Hv; [|by apply keeps_report].
  wp_step. apply (wp_remove P _ b); [done|done|by eapply viewer_client|]. intros b' Hb' Hm'.
  eapply wp_mono; [by apply (keeps_report (P ∖ {[c]}) b)|..]; intros ? b'' [? ?]; split; try done;
    (eapply inv_weaken; [|done]; set_solver).
Qed.
Lemma keeps_snapshot P b rid v sink : inv P b → keeps P (snapshot E reenter rid v sink) b b.
Proof.
  intros Hb. unfold snapshot. wp_step. wp_step. destruct (viewers b !! v) as [c|] eqn:Hv; [|by apply keeps_report].
  wp_step; [by apply keeps_report|]. cbv zeta. wp_step. apply (wp_write P b); [done..|]. intros n b' Hb' Hm'.
  wp_run; [|done]. destruct (inv_new_task P b' (TSnapshot (generation b) rid v c sink)) as [? ?]; [done| |by split; [|etrans]].
  intros ? ? [= <- <-]. by eapply client_of_mono, viewer_client.
Qed.
Lemma keeps_handleFrame P b f sink : inv P b → keeps P (handleFrame E reenter f sink) b b.
Proof.
  intros Hb. unfold handleFrame. wp_step. wp_step. wp_step; [by wp_run|]. destruct f as [|[] rid v|v payload|rid ?|]; try by wp_run.
  - by apply keeps_open.
  - by apply keeps_close.
  - by apply keeps_snapshot.
  - destruct (viewers b !! v) as [c|]; [|by wp_run]. wp_step; [by wp_run|]. wp_step. apply (wp_write P b); [done..|].
    intros n b' ??. by wp_run.
  - by apply keeps_readMedia.
Qed.

Lemma keeps_client_send P b c payload : inv P b → c ∈ known b → keeps P (client_send E reenter c payload) b b.
Proof.
  intros Hb Hk. unfold client_send. wp_step. wp_step. destruct (clients b !! c) as [cl|] eqn:Hcl; [|by wp_run].
  wp_step. wp_step; [|done]. wp_step. apply (wp_write P b); [done|done|exact Hk|]. intros n b' Hb' Hm'.
  wp_step; [by wp_run|]. wp_step. wp_step. cbv beta. wp_step. wp_step.
  assert (client_of (c_viewerId cl) c b') as Hof by (eapply client_of_mono; [done|by exists cl]).
  change (holds (close_client c b')) with (holds b'). wp_step. wp_step.
  - wp_step. wp_step. cbv beta. unfold detachHub. wp_step.
    assert (stepped (logged (Removed c) (set_viewers (delete (c_viewerId cl) (viewers (close_client c b'))) (close_client c b')))
      = with_removed (c_viewerId cl) c b') as He by (unfold with_removed; by case_match).
    apply (wp_interact (P ∖ {[c]})); rewrite He.
    + apply inv_removed; [done|]. intros cl' Hcl'. destruct Hof as (? & ? & ?). congruence.
    + intros n' b'' Hb'' Hm''. wp_run. split; [eapply inv_weaken; [|done]; set_solver|].
      etrans; [done|]. etrans; [apply mono_removed|done].
  - wp_run. split; [by eapply inv_closed|]. etrans; [done|apply mono_closed].
Qed.

Lemma keeps_detach_each P b0 cs b :
  inv (P ∪ list_to_set cs) b → mono b0 b → keeps P (detach_each E reenter cs) b0 b.
Proof.
  revert b. induction cs as [|c cs IH]; intros b Hb Hm; simpl.
  - wp_run. split; [|done]. eapply inv_weaken; [|done]. set_solver.
  - wp_step. unfold detachHub. wp_step. apply (wp_interact ((P ∪ list_to_set (c :: cs)) ∖ {[c]})); [by apply inv_detached|].
    intros n b' Hb' Hm'. wp_run. apply IH; [eapply inv_weaken; [|done]; set_solver|].
    etrans; [done|]. etrans; [apply mono_logged|done].
Qed.

Lemma keeps_detachAll P b b1 :
  inv P b → b1 = bump b ∨ b1 = bump (set_stopped b) → keeps P (detachAll E reenter) b b1.
Proof.
  intros Hb Hb1. unfold detachAll. wp_step. wp_step. cbv zeta. do 4 (wp_step; cbv beta).
  assert (viewers b1 = viewers b) as Hv by by destruct Hb1 as [->| ->].
  destruct (inv_detachAll P b b1 _ Hb Hb1 (listed_clients b)) as [? ?]. rewrite Hv. by apply keeps_detach_each.
Qed.
Lemma bridge_keeps_disconnect P b : inv P b → keeps P (disconnect E reenter) b b.
Proof. intros Hb. unfold disconnect. wp_step. wp_step. wp_step; [by wp_run|]. wp_run. apply keeps_detachAll; auto. Qed.
Lemma bridge_keeps_stop P b : inv P b → keeps P (stop E reenter) b b.
Proof. intros Hb. unfold stop. wp_step. wp_step. wp_step; [by wp_run|]. wp_run. apply keeps_detachAll; auto. Qed.
Lemma keeps_perform P x b : inv P b → keeps P (perform E reenter x) b b.
Proof.
  intros Hb. destruct x as [f sink| | |c payload]; simpl.
  - by apply keeps_handleFrame.
  - by apply bridge_keeps_disconnect.
  - by apply bridge_keeps_stop.
  - wp_step. wp_step. case_bool_decide; [by apply keeps_client_send|by wp_run].
Qed.

(** ** Settled promises *)

Definition safe {A} (_ : A) (b : bridge) : Prop := inv ∅ b.
Lemma safe_remove b v c : inv ∅ b → client_of v c b → wp (remove E reenter v c) safe safe b.
Proof. intros Hb Hc. eapply wp_mono; [by apply (bridge_keeps_remove ∅ b)|..]; by intros ?? []. Qed.
Lemma safe_report b sink op rid v err : inv ∅ b → wp (operation E reenter sink op rid v err;; mret tt) safe safe b.
Proof. intros Hb. eapply wp_mono; [by apply (keeps_report ∅ b)|..]; by intros ?? []. Qed.
Lemma safe_removed_report b v c sink op rid err :
  inv ∅ b → client_of v c b → wp (remove E reenter v c;; operation E reenter sink op rid v err;; mret tt) safe safe b.
Proof. intros Hb Hc. wp_step. eapply wp_mono; [by apply safe_remove| |done]. intros ? b' ?. by apply safe_report. Qed.
Lemma safe_settle i o b : inv ∅ b → wp (settle E reenter i o) safe safe b.
Proof.
  intros Hb. unfold settle. wp_step. wp_step. destruct (tasks b !! i) as [t|] eqn:Ht; [|by wp_run].
  wp_step. wp_step. cbv beta. destruct t as [g v c|g rid v c sink|g rid sink]; simpl;
    unfold settle_attach, settle_snapshot, settle_media.
  - pose proof (inv_drop_task _ _ _ _ _ _ Hb Ht) as Hd. rewrite union_empty_l_L in Hd.
    assert (client_of v c b) as Hc by by eapply i_about.
    assert (∀ b', inv {[c]} b' → client_of v c b' → wp (remove E reenter v c) safe safe b') as Hrem.
    { intros b' Hb' Hc'. apply (wp_remove {[c]} _ b'); [done..|]. intros b'' Hb'' _. unfold safe.
      by rewrite difference_diag_L in Hb''. }
    destruct o as [|sent read]; [by apply Hrem|]. wp_step. wp_step. cbv beta. wp_step. wp_step.
    assert (inv {[c]} (logged (Attached c) (drop_task i b))) as Ha by (apply inv_attached; [done|set_solver]).
    wp_step; [by apply Hrem|]. wp_run. guards. unfold holds in *. guards. destruct Ha as [Hv Hh Hab Hk Hf Hcl Htk Hu Hs].
    split; try done. intros d [?|[?|Hdc]]%Hh; [auto|auto|]. apply elem_of_singleton in Hdc as ->. eauto.
  - pose proof (inv_drop _ _ _ _ Hb Ht ltac:(done)) as Hd. assert (client_of v c b) as Hc by by eapply i_about.
    wp_step. wp_step. destruct o as [|sent read].
    + wp_step; [by wp_run|]. by apply safe_removed_report.
    + wp_step; [by wp_run|]. destruct sent; [|by apply safe_removed_report]. wp_step. wp_run. by apply safe_report.
  - pose proof (inv_drop _ _ _ _ Hb Ht ltac:(done)) as Hd. wp_step. wp_step. wp_step; [by wp_run|].
    wp_step. apply (wp_write ∅ (drop_task i b)); [done..|]. intros n b' ??. by wp_run.
Qed.
End methods.

Lemma keeps_run {A B} (m : eff bridge B A) P b0 b : wp m (good P b0) (good P b0) b → inv P (m b).2 ∧ mono b0 (m b).2.
Proof. unfold wp, good. by destruct (m b) as [[] ?]. Qed.
Lemma exec_keeps E depth P x b : inv P b → inv P (exec E depth x b) ∧ mono b (exec E depth x b).
Proof.
  revert P x b. induction depth as [|depth IH]; intros P x b Hb; simpl; apply keeps_run, keeps_perform; try done.
Qed.
Lemma bridge_inv E depth xs : inv ∅ (run E depth xs).
Proof.
  unfold run. assert (inv ∅ new_bridge) as H0.
  { split; try done; try set_solver. intros pre a post c He. by destruct pre. }
  revert H0. generalize new_bridge. induction xs as [|x xs IH]; intros b Hb; simpl; [done|]. apply IH.
  destruct x as [x|i o]; simpl; [by apply exec_keeps|].
  pose proof (safe_settle E (exec E depth) (exec_keeps E depth) i o b Hb) as Hs. unfold wp, safe in Hs.
  by destruct (settle _ _ _ _ _) as [[] ?].
Qed.

(** ** A stopped bridge *)

Lemma stopped_closed P b c cl : inv P b → stopped b = true → clients b !! c = Some cl → c_closed cl = true.
Proof.
  intros Hb Hs Hc. destruct (c_closed cl) eqn:Hcl; [done|]. pose proof (i_open _ _ Hb _ _ Hc Hcl) as Hv.
  rewrite (i_stopped _ _ Hb Hs) in Hv. by rewrite lookup_empty in Hv.
Qed.
Lemma exec_stopped E depth P x b : inv P b → stopped b = true → exec E depth x b = b.
Proof.
  intros Hb Hs. assert (∀ reenter, (perform E reenter x b).2 = b) as Hp.
  { intros reenter. destruct x as [f sink| | |c payload]; simpl; unfold handleFrame, disconnect, stop;
      unfold_eff; rewrite ?Hs; try done.
    case_bool_decide; [|done]. unfold client_send. unfold_eff. destruct (clients b !! c) as [cl|] eqn:Hc; [|done].
    by rewrite (stopped_closed P b c cl). }
  destruct depth; apply Hp.
Qed.
Lemma reacts_stopped E depth P xs b : inv P b → stopped b = true → foldl (λ b x, exec E depth x b) b xs = b.
Proof. intros Hb Hs. induction xs as [|x xs IH]; simpl; [done|]. by rewrite (exec_stopped E depth P). Qed.
Lemma remove_stopped E depth P v c b :
  inv P b → stopped b = true → client_of v c b → (remove E (exec E depth) v c b).2 = with_removed v c b.
Proof.
  intros Hb Hs (cl & Hcl & Hv). unfold remove, detachHub, interact. unfold_eff.
  fold (with_removed v c b). apply (reacts_stopped E depth (P ∖ {[c]})).
  - apply inv_removed; [done|]. intros cl' Hcl'. congruence.
  - destruct (with_removed_fields v c b) as (_ & _ & _ & _ & _ & _ & _ & ->). done.
Qed.

(** What a link was sent. *)
Definition sent (l : list action) : list (nat * effect) :=
  omap (λ a, match a with Effect s e => Some (s, e) | _ => None end) l.
Lemma settle_stopped E depth i o b :
  inv ∅ b → stopped b = true →
  let b' := (settle E (exec E depth) i o b).2 in stopped b' = true ∧ sent (log b') = sent (log b).
Proof.
  intros Hb Hs. simpl. unfold settle. unfold_eff. destruct (tasks b !! i) as [t|] eqn:Ht; [|done].
  destruct t as [g v c|g rid v c sink|g rid sink]; unfold settle_task, settle_attach, settle_snapshot, settle_media.
  - assert (client_of v c b) as Hc by by eapply i_about.
    pose proof (inv_drop_task _ _ _ _ _ _ Hb Ht) as Hd. destruct o as [|? ?].
    + rewrite (remove_stopped E depth _ v c _ Hd) by done.
      destruct (with_removed_fields v c (drop_task i b)) as (_ & _ & _ & -> & _ & _ & _ & ->).
      split; [done|]. unfold sent. by rewrite omap_app, app_nil_r.
    + unfold_eff. replace (isCurrent (logged (Attached c) (drop_task i b)) g) with false by (unfold isCurrent; simpl; by rewrite Hs).
      cbn [negb orb]. rewrite (remove_stopped E depth (∅ ∪ {[c]}) v c); [|apply inv_attached; [done|set_solver]|done|done].
      destruct (with_removed_fields v c (logged (Attached c) (drop_task i b))) as (_ & _ & _ & -> & _ & _ & _ & ->).
      split; [done|]. simpl. unfold sent. by rewrite !omap_app, !app_nil_r.
  - unfold_eff. unfold isCurrent. simpl. rewrite Hs. simpl. by destruct o.
  - unfold_eff. unfold isCurrent. simpl. by rewrite Hs.
Qed.
Lemma run_app E depth xs ys : run E depth (xs ++ ys) = foldl (take_turn E depth) (run E depth xs) ys.
Proof. unfold run. by rewrite foldl_app. Qed.

Lemma stays_stopped E depth xs ys :
  stopped (run E depth xs) = true →
  stopped (run E depth (xs ++ ys)) = true ∧ sent (log (run E depth (xs ++ ys))) = sent (log (run E depth xs)).
Proof.
  intros Hs. induction ys as [|y ys [H1 H2]] using rev_ind; [by rewrite app_nil_r|].
  rewrite app_assoc, run_app. simpl. destruct y as [x|i o]; simpl.
  - by rewrite (exec_stopped E depth ∅) by (done || apply bridge_inv).
  - destruct (settle_stopped E depth i o _ (bridge_inv E depth (xs ++ ys)) H1) as [? ->]. done.
Qed.

(** C33. A client the hub may still hold is an open viewer of the bridge, or the promise
    of its attachment has not settled yet: no close, failed write, disconnect or stop,
    in whatever order and however nested, leaves a client behind.  A stopped bridge has
    no viewers. *)
Theorem no_ghost_client E depth xs :
  let b := run E depth xs in
  (∀ c, hub_has (log b) c = true →
    (∃ v cl, viewers b !! v = Some c ∧ clients b !! c = Some cl ∧ c_viewerId cl = v ∧ c_closed cl = false)
    ∨ (∃ t g v, tasks b !! t = Some (TAttach g v c)))
  ∧ (stopped b = true → viewers b = ∅).
Proof.
  intros b. pose proof (bridge_inv E depth xs) as Hb. split; [|by apply (i_stopped _ _ Hb)]. intros c Hc.
  destruct (i_hub _ _ Hb c Hc) as [[v Hv]|[?|?]]; [|auto|set_solver]. left.
  destruct (i_viewers _ _ Hb v c Hv) as (cl & ? & ? & ?). eauto 10.
Qed.

(** A link sees no output of a viewer before the result of its opening: every
    output of a client comes after the write of that result succeeded. *)
Theorem open_before_output E depth xs pre post c s v p :
  log (run E depth xs) = pre ++ Effect s (Output c v p) :: post → Opened c ∈ pre.
Proof. intros He. apply (i_fenced _ _ (bridge_inv E depth xs) _ _ _ c He). by exists s, v, p. Qed.

(** A stopped bridge is silent for good: whatever is called and whatever promise
    settles afterwards, it stays stopped and nothing more is written to any link. *)
Theorem bridge_stop_silent E depth xs ys :
  stopped (run E depth xs) = true →
  stopped (run E depth (xs ++ ys)) = true ∧ sent (log (run E depth (xs ++ ys))) = sent (log (run E depth xs)).
Proof. apply stays_stopped. Qed.

(** ** A run: a viewer opens, is attached, receives output and asks for a snapshot; the
    hub stops the bridge while it is asked. *)
Local Open Scope string_scope.
Local Open Scope list_scope.
Definition E1 : env := {|
  writes := λ _, true;
  calls := λ _, true;
  reacts := λ _ a, match a with Attach c => [ClientSend c "hello"] | SnapshotAsked _ => [Stop] | _ => [] end;
|}.
Definition xs1 : list turn :=
  [Call (Frame (ViewerOp viewer_open "r1" "v") 0); Settle 0 (Fulfilled true (ReadFailed not_found));
   Call (Frame (MediaGet "r2" "/media/a") 0)].
Definition xs2 : list turn := xs1 ++ [Call (Frame (ViewerOp viewer_snapshot "r3" "v") 0)].
Example run1 :
  log (run E1 1 xs2) = [Effect 0 (OpResult viewer_open "r1" "v" None); Opened 0; Attach 0;
    Effect 0 (Output 0 "v" "hello"); Attached 0; SnapshotAsked 0; Removed 0].
Proof. vm_compute. reflexivity. Qed.
Lemma no_ghost_client_witness :
  hub_has (log (run E1 1 xs1)) 0 = true ∧ tasks (run E1 1 xs1) !! 0 = None
  ∧ viewers (run E1 1 xs1) !! "v" = Some 0 ∧ viewers (run E1 1 xs2) = ∅.
Proof.
  split; [vm_compute; reflexivity|]. split; [vm_compute; reflexivity|]. split; [vm_compute; reflexivity|].
  apply (no_ghost_client E1 1 xs2). vm_compute. reflexivity.
Defined.
Lemma open_before_output_witness :
  Opened 0 ∈ [Effect 0 (OpResult viewer_open "r1" "v" None); Opened 0; Attach 0].
Proof.
  apply (open_before_output E1 1 xs1 _ [Attached 0] 0 0 "v" "hello"). vm_compute. reflexivity.
Defined.
Lemma bridge_stop_silent_witness :
  sent (log (run E1 1 (xs2 ++ [Settle 1 Rejected; Settle 2 Rejected; Call (Frame (ViewerOp viewer_open "r4" "w") 0)])))
  = [(0, OpResult viewer_open "r1" "v" None); (0, Output 0 "v" "hello")].
Proof.
  etransitivity; [apply (bridge_stop_silent E1 1 xs2 _)|]; vm_compute; reflexivity.
Defined.
