(* ===== verification/GatewayLink.v ===== *)
(** * The link of a resident to its Gateway (src/gateway-link.ts)

    [GatewayLinkController] keeps one outbound link: it waits for enrollment, connects
    a socket, runs the handshake of its session, delivers frames and writes effects,
    and tries again after a failure with a growing, jittered delay.

    The store, the socket and its factory, the clock, the random sources and the
    listeners are code of the caller: an environment answers the n-th interaction with
    them and may call back while it is called, up to a nesting depth that every theorem
    quantifies over.  Timers fire between calls, once, and not after they were cleared;
    a clock that fires while it is asked for a timer is covered ([fires]).  A
    [LiveAttempt] is an object that outlives its removal, so attempts live in a heap, by
    their generation.  The loop that drains the queue of an attempt ends only if its
    socket stops calling back with new effects, so it takes fuel, which every theorem
    quantifies over. *)

From Stdlib Require Import Ascii QArith Qround.
From S2P Require Import Prelude Protocol Codec Credentials Session.
Local Open Scope string_scope.
Local Open Scope Z_scope.
Local Open Scope list_scope.

(** [GATEWAY_LINK_CLOSE] *)
Definition CLOSE_stopping : Z := 1001.
Definition CLOSE_protocol : Z := 1002.
Definition CLOSE_invalidData : Z := 1007.
Definition CLOSE_unavailable : Z := 1011.
Definition MAX_FAILURES : Z := 31.

Inductive GatewayLinkState :=
  | idle | not_configured | waiting_for_enrollment | configuration_error | connecting | handshaking
  | ready | backoff | faulted | ended.
#[export] Instance GatewayLinkState_eq_dec : EqDecision GatewayLinkState.
Proof. solve_decision. Defined.
Record GatewayLinkStatus := mkStatus { state : GatewayLinkState; status_failures : Z }.
#[export] Instance GatewayLinkStatus_eq_dec : EqDecision GatewayLinkStatus.
Proof. solve_decision. Defined.

Inductive Phase := phase_idle | enrolling | active | rotating.
(** The fields of [GatewayResidentSnapshot] the controller reads. *)
Record Snapshot := mkSnapshot {
  phase : Phase;
  snap_instanceId : string;
  endpoint : option string;
  activeCredentialId : option string;
}.

(** Effects of a [GatewayLinkEffectSink]. *)
Inductive Effect :=
  | EOperation (requestId viewerId : string) (op : ViewerOperation) (error : option ErrorDetail)
  | EConsole (viewerId payload : string)
  | EMedia (requestId : string) (outcome : MediaOutcome).
Definition EffectWrite : Type := frame ResidentBody * string.

Record LiveAttempt := mkAttempt {
  session : Resident.session;
  hello : string;
  detach : bool;
  timer : option nat;
  opened : bool;
  a_ready : bool;
  writingEffect : bool;
  effectQueue : list EffectWrite;
}.

Inductive Timer := ControllerTimer (generation : Z) | HandshakeTimer (g : Z).

(** What the controller does to the outside; a timer is known by the number of the
    interaction that set it. [Created g] marks that the attempt [g] owns the last socket. *)
Inductive action :=
  | ReadStore | ReadToken | Entropy
  | Connect (origin authorization connectionId : string)
  | Created (g : Z)
  | AttachTo (g : Z) | Detach (g : Z)
  | SendHello (g : Z) (text : string)
  | SendEffect (g : Z) (w : EffectWrite)
  | Buffered (g : Z)
  | Closed (g code : Z) (reason : string) | Terminated (g : Z)
  | Delivered (g : Z) (f : frame GatewayBody)
  | Status (s : GatewayLinkStatus)
  | Random
  | TimerSet (t : Timer) (delayMs : Z) | TimerCleared (handle : nat).

Record controller := mkController {
  current : GatewayLinkStatus;
  started : bool;
  stopped : bool;
  generation : Z;
  failures : Z;
  c_timer : option nat;
  live : option Z;
  attempts : gmap Z LiveAttempt;
  timers : gmap nat Timer;
  interactions : nat;
  log : list action;
}.
Definition new_controller : controller :=
  mkController (mkStatus idle 0) false false 0 0 None None ∅ ∅ 0 [].

(** The options of the constructor, validated. *)
Record settings := mkSettings {
  origin : option string;
  configurationInvalid : bool;
  identity : ResidentIdentity;
  build : BuildMetadata;
  offered : list Capability;
  maxBufferedAmount : Z;
  handshakeTimeoutMs : Z;
  enrollmentPollMs : Z;
  retryBaseMs : Z;
  retryMaxMs : Z;
}.

(** A message of the socket: [None] when it is not UTF-8 text, else its length in bytes
    and what [JSON.parse] makes of it. *)
Definition data : Type := option (Z * option json).
Inductive call :=
  | Start | Stop
  | OnOpen (g : Z)
  | OnMessage (g : Z) (d : data) (binary : bool)
  | OnEnd (g : Z)
  | Write (g : Z) (e : Effect).

(** [returns]: the call did not throw; [store], [token], [entropy], [random] are [None]
    when they threw; [buffered] is [None] when reading it threw and [Some None] for
    [undefined], a value that is no safe integer being out of their range. *)
Record env := {
  returns : nat → bool;
  store : nat → option Snapshot;
  token : nat → option string;
  entropy : nat → option (list Z);
  random : nat → option Q;
  buffered : nat → option (option Z);
  gives_detach : nat → bool;
  fires : nat → bool;
  reacts : nat → action → list call;
}.

(** ** Updates *)

Definition set_current s (b : controller) : controller :=
  mkController s (started b) (stopped b) (generation b) (failures b) (c_timer b) (live b) (attempts b) (timers b)
    (interactions b) (log b).
Definition set_started (b : controller) : controller :=
  mkController (current b) true (stopped b) (generation b) (failures b) (c_timer b) (live b) (attempts b) (timers b)
    (interactions b) (log b).
Definition set_stopped (b : controller) : controller :=
  mkController (current b) (started b) true (generation b) (failures b) (c_timer b) (live b) (attempts b) (timers b)
    (interactions b) (log b).
Definition bump (b : controller) : controller :=
  mkController (current b) (started b) (stopped b) (generation b + 1) (failures b) (c_timer b) (live b) (attempts b)
    (timers b) (interactions b) (log b).
Definition set_failures n (b : controller) : controller :=
  mkController (current b) (started b) (stopped b) (generation b) n (c_timer b) (live b) (attempts b) (timers b)
    (interactions b) (log b).
Definition set_timer t (b : controller) : controller :=
  mkController (current b) (started b) (stopped b) (generation b) (failures b) t (live b) (attempts b) (timers b)
    (interactions b) (log b).
Definition set_live l (b : controller) : controller :=
  mkController (current b) (started b) (stopped b) (generation b) (failures b) (c_timer b) l (attempts b) (timers b)
    (interactions b) (log b).
Definition set_attempts m (b : controller) : controller :=
  mkController (current b) (started b) (stopped b) (generation b) (failures b) (c_timer b) (live b) m (timers b)
    (interactions b) (log b).
Definition set_timers m (b : controller) : controller :=
  mkController (current b) (started b) (stopped b) (generation b) (failures b) (c_timer b) (live b) (attempts b) m
    (interactions b) (log b).
Definition logged a (b : controller) : controller :=
  mkController (current b) (started b) (stopped b) (generation b) (failures b) (c_timer b) (live b) (attempts b)
    (timers b) (interactions b) (log b ++ [a]).
Definition stepped (b : controller) : controller :=
  mkController (current b) (started b) (stopped b) (generation b) (failures b) (c_timer b) (live b) (attempts b)
    (timers b) (S (interactions b)) (log b).

Definition set_session s (a : LiveAttempt) : LiveAttempt :=
  mkAttempt s (hello a) (detach a) (timer a) (opened a) (a_ready a) (writingEffect a) (effectQueue a).
Definition set_detach d (a : LiveAttempt) : LiveAttempt :=
  mkAttempt (session a) (hello a) d (timer a) (opened a) (a_ready a) (writingEffect a) (effectQueue a).
Definition set_handshake t (a : LiveAttempt) : LiveAttempt :=
  mkAttempt (session a) (hello a) (detach a) t (opened a) (a_ready a) (writingEffect a) (effectQueue a).
Definition set_opened (a : LiveAttempt) : LiveAttempt :=
  mkAttempt (session a) (hello a) (detach a) (timer a) true (a_ready a) (writingEffect a) (effectQueue a).
Definition set_ready (a : LiveAttempt) : LiveAttempt :=
  mkAttempt (session a) (hello a) (detach a) (timer a) (opened a) true (writingEffect a) (effectQueue a).
Definition set_writing w (a : LiveAttempt) : LiveAttempt :=
  mkAttempt (session a) (hello a) (detach a) (timer a) (opened a) (a_ready a) w (effectQueue a).
Definition set_queue q (a : LiveAttempt) : LiveAttempt :=
  mkAttempt (session a) (hello a) (detach a) (timer a) (opened a) (a_ready a) (writingEffect a) q.
Definition on_attempt (g : Z) (f : LiveAttempt → LiveAttempt) (b : controller) : controller :=
  set_attempts (alter f g (attempts b)) b.

(** [#isCurrent] *)
Definition isCurrent (b : controller) (g : Z) : bool :=
  negb (stopped b) && bool_decide (live b = Some g) && (g =? generation b).

(** ** Pure parts *)

Definition snapshotIsActive (s : Snapshot) : bool := match phase s with active | rotating => true | _ => false end.

Definition connectionId (bytes : list Z) : option string :=
  if Nat.eqb (length bytes) 16 then Some ("egx1." +:+ base64url bytes) else None.

(** ** The constructor *)

(** [GATEWAY_LINK_DEFAULTS] *)
Definition DEFAULT_handshakeTimeoutMs : Z := 10000.
Definition DEFAULT_enrollmentPollMs : Z := 1000.
Definition DEFAULT_retryBaseMs : Z := 1000.
Definition DEFAULT_retryMaxMs : Z := 30000.
Definition VALIDATION_CONNECTION_ID : string := "egx1.AAAAAAAAAAAAAAAAAAAAAA".
Definition VALIDATION_INSTANCE_ID : string := "egi1.AAAAAAAAAAAAAAAAAAAAAA".
Definition DEFAULT_CAPABILITIES : list Capability := [identity_v1].

(** The values of [GatewayLinkControllerOptions]; [o_remote] is [None] for [null] and
    [Some None] for a remote whose [url] cannot be read. *)
Record link_options := mkOptions {
  o_remote : option (option string);
  o_identity : ResidentIdentity;
  o_build : BuildMetadata;
  o_offeredCapabilities : option (list Capability);
  o_maxBufferedAmount : option Z;
  o_handshakeTimeoutMs : option Z;
  o_enrollmentPollMs : option Z;
  o_retryBaseMs : option Z;
  o_retryMaxMs : option Z;
}.
Definition type_error (b : bool) : exn + () := if b then inl JsTypeError else inr tt.
Definition boundedPositive (value : option Z) (fallback : Z) : exn + Z :=
  let actual := default fallback value in
  type_error (negb (Z.abs actual <=? MAX_SAFE_INTEGER) || (actual <? 1) || (24 * 60 * 60 * 1000 <? actual));;
  mret actual.
(** [canonicalOrigin] is a test of the platform's [URL] parser. *)
Definition construct (sha256_hex : list Z → string) (canonicalOrigin : string → bool) (o : link_options)
    : exn + settings :=
  type_error match o_maxBufferedAmount o with
             | Some n => negb (Z.abs n <=? MAX_SAFE_INTEGER) || (n <? 1)
             | None => false
             end;;
  let o_origin : option string := (o_remote o ≫= (λ u : option string, u)) ≫= (λ u : string, if canonicalOrigin u then Some u else None) in
  hello ← createResidentHello sha256_hex VALIDATION_CONNECTION_ID 1 VALIDATION_INSTANCE_ID
            (default DEFAULT_CAPABILITIES (o_offeredCapabilities o)) (o_identity o) (o_build o);
  handshake ← boundedPositive (o_handshakeTimeoutMs o) DEFAULT_handshakeTimeoutMs;
  poll ← boundedPositive (o_enrollmentPollMs o) DEFAULT_enrollmentPollMs;
  base ← boundedPositive (o_retryBaseMs o) DEFAULT_retryBaseMs;
  max ← boundedPositive (o_retryMaxMs o) DEFAULT_retryMaxMs;
  type_error (max <? base);;
  match body hello with
  | Hello _ caps identity build =>
      mret (mkSettings o_origin (bool_decide (is_Some (o_remote o)) && bool_decide (o_origin = None)) identity build caps
        (default LIMITS_frameBytes (o_maxBufferedAmount o)) handshake poll base max)
  | _ => inl JsTypeError
  end.

(** The delay before the next attempt. *)
Definition retry_ceiling (opts : settings) (n : Z) : Z :=
  Z.min (retryMaxMs opts) (retryBaseMs opts * 2 ^ Z.min (n - 1) 30).
Definition jitter (q : option Q) : Q :=
  match q with
  | Some q => if Qle_bool 0 q && negb (Qle_bool 1 q) then q else (1 # 2)%Q
  | None => (1 # 2)%Q
  end.
Definition retry_delay (ceiling : Z) (fraction : Q) : Z :=
  Z.max 1 (Z.min ceiling (Qfloor ((ceiling # 2) + fraction * inject_Z ((ceiling + 1) / 2)%Z)%Q)).

Definition resident_type (b : ResidentBody) : string :=
  match b with
  | Hello _ _ _ _ => "hello"
  | OperationResult _ _ _ _ => "operation.result"
  | ConsoleOutput _ _ => "console.output"
  | MediaResult _ _ => "media.result"
  | ResidentErr _ => "error"
  end.
(** The object of a frame an effect made: its fields, then those of the envelope. *)
Definition effect_fields (b : ResidentBody) : list (string * json) :=
  match b with
  | OperationResult rid vid op err =>
      [("requestId", JStr rid); ("viewerId", JStr vid); ("operation", op); ("ok", JBool (bool_decide (err = None)))]
      ++ match err with None => [] | Some e => [("error", Resident.error_json e)] end
  | ConsoleOutput vid payload => [("viewerId", JStr vid); ("payload", JStr payload)]
  | MediaResult rid o => Resident.media_effect rid o
  | _ => []
  end.
Definition effect_json (f : frame ResidentBody) : json :=
  JObj (effect_fields (body f) ++
    [ ("version", JNum (num_of_Z PROTOCOL_VERSION)); ("connectionId", JStr (Protocol.connectionId f));
      ("seq", JNum (num_of_Z (seq f))); ("type", JStr (resident_type (body f))) ]).

(** ** The methods *)

Section methods.
Context (sha256_hex : list Z → string).
Context (opts : settings) (E : env) (fuel : nat).
(** The outside calling back into the controller. *)
Context (reenter : call → controller → controller).

Abbreviation M := (eff controller exn).

Definition interact (a : action) : M nat :=
  b ← get;
  modify (logged a);;
  modify stepped;;
  modify (λ b', foldl (λ b' x, reenter x b') b' (reacts E (interactions b) a));;
  mret (interactions b).
(** [try { m } catch { h }] *)
Definition catch {A} (m : M A) (h : M A) : M A := λ b,
  match m b with (inl _, b') => h b' | res => res end.
Definition attempt_of (g : Z) : M (option LiveAttempt) := b ← get; mret (attempts b !! g).

(** [#transition] *)
Definition transition (s : GatewayLinkState) : M () :=
  b ← get;
  if stopped b && negb (bool_decide (s = ended)) then mret tt
  else
    let next := mkStatus s (failures b) in
    if bool_decide (current b = next) then mret tt
    else modify (set_current next);; interact (Status next);; mret tt.

(** [clock.clearTimeout] *)
Definition clear_timeout (t : nat) : M () :=
  modify (λ b, set_timers (delete t (timers b)) b);; interact (TimerCleared t);; mret tt.
(** [#clearControllerTimer] *)
Definition clearControllerTimer : M () :=
  b ← get;
  modify (set_timer None);;
  match c_timer b with Some t => clear_timeout t | None => mret tt end.
(** [#clearLiveTimer] *)
Definition clearLiveTimer (g : Z) : M () :=
  a ← attempt_of g;
  modify (on_attempt g (set_handshake None));;
  match a ≫= timer with Some t => clear_timeout t | None => mret tt end.

(** [#dispose] *)
Definition dispose (g code : Z) (reason : string) : M () :=
  clearLiveTimer g;;
  a ← attempt_of g;
  (if match a with Some a => detach a | None => false end then interact (Detach g);; mret tt else mret tt);;
  modify (on_attempt g (set_detach false));;
  n ← interact (Closed g code reason);
  if returns E n then mret tt else interact (Terminated g);; mret tt.

(** [#fault] *)
Definition fault (l : option Z) : M () :=
  b ← get;
  if stopped b then mret tt
  else if match l with Some g => negb (isCurrent b g) | None => false end then mret tt
  else
    clearControllerTimer;;
    match l with
    | Some g => modify bump;; modify (set_live None);; dispose g CLOSE_unavailable "local_fault"
    | None => mret tt
    end;;
    transition faulted.

(** [#armControllerTimer] *)
Definition armControllerTimer (delay : Z) : M () :=
  b ← get;
  if stopped b || bool_decide (is_Some (c_timer b)) then mret tt
  else
    let g := generation b in
    n ← interact (TimerSet (ControllerTimer g) delay);
    b ← get;
    let same := negb (stopped b) && (g =? generation b) in
    if negb (returns E n) then (if same then transition faulted else mret tt)
    else if negb same || fires E n then
      clear_timeout n;;
      b ← get;
      if negb (stopped b) && (g =? generation b) then transition faulted else mret tt
    else
      modify (λ b, set_timers (<[ n := ControllerTimer g ]> (timers b)) b);;
      modify (set_timer (Some n)).

(** [this.#store.read()], [None] when it throws. *)
Definition read_store : M (option Snapshot) := n ← interact ReadStore; mret (store E n).

Definition wait_for_enrollment : M () :=
  transition waiting_for_enrollment;; armControllerTimer (enrollmentPollMs opts).

(** [#scheduleAfterFailure] *)
Definition scheduleAfterFailure : M () :=
  b ← get;
  if stopped b then mret tt
  else
    s ← read_store;
    match s with
    | None => fault None
    | Some s =>
        if negb (snapshotIsActive s && bool_decide (is_Some (origin opts)) && bool_decide (endpoint s = origin opts))
        then wait_for_enrollment
        else
          b ← get;
          let ceiling := retry_ceiling opts (failures b) in
          n ← interact Random;
          transition backoff;;
          armControllerTimer (retry_delay ceiling (jitter (random E n)))
    end.

(** [#attemptFailed] *)
Definition attemptFailed (g code : Z) (reason : string) : M () :=
  b ← get;
  if stopped b then mret tt
  else if negb (isCurrent b g) then mret tt
  else
    modify bump;;
    modify (set_live None);;
    dispose g code reason;;
    modify (λ b, set_failures (Z.min MAX_FAILURES (failures b + 1)) b);;
    scheduleAfterFailure.
Definition transport_failed (g : Z) : M () := attemptFailed g CLOSE_unavailable "transport_error".

(** [#hasCapacity] *)
Definition hasCapacity (g : Z) (encoded : string) : M bool :=
  n ← interact (Buffered g);
  mret match buffered E n with
       | None => false
       | Some v =>
           let amount := default 0 v in
           (Z.abs amount <=? MAX_SAFE_INTEGER) && (0 <=? amount)
           && (amount + bytes encoded <=? maxBufferedAmount opts)
       end.

(** [#armLiveTimer] *)
Definition armLiveTimer (g : Z) : M () :=
  b ← get;
  match attempts b !! g with
  | None => mret tt
  | Some a =>
      if negb (isCurrent b g) || a_ready a || bool_decide (is_Some (timer a)) then mret tt
      else
        n ← interact (TimerSet (HandshakeTimer g) (handshakeTimeoutMs opts));
        if negb (returns E n) then fault (Some g)
        else if fires E n then clear_timeout n;; fault (Some g)
        else
          b ← get;
          if isCurrent b g && match attempts b !! g with Some a => negb (a_ready a) | None => false end then
            modify (λ b, set_timers (<[ n := HandshakeTimer g ]> (timers b)) b);;
            modify (on_attempt g (set_handshake (Some n)))
          else clear_timeout n
  end.

(** What [#drive] does before it owns a socket: the session and the text of the hello. *)
Definition hello_object (connection instance : string) : json :=
  frame_object "hello" connection 1
    [("instanceId", JStr instance); ("capabilities", caps_json (offered opts));
     ("identity", identity_json (identity opts)); ("build", build_json (build opts))].
Definition prepare (connection instance : string) : exn + (Resident.session * string) :=
  s ← Resident.create connection instance (offered opts) None;
  createResidentHello sha256_hex connection 1 instance (offered opts) (identity opts) (build opts);;
  text ← serializeFrame sha256_hex (json_copy (hello_object connection instance)) resident_to_gateway;
  mret (s, text).
Definition connect (o authorization instance : string) : M (option (Resident.session * string)) :=
  n ← interact Entropy;
  match (entropy E n ≫= connectionId : option string) with
  | None => mret None
  | Some id =>
      match prepare id instance with
      | inl _ => mret None
      | inr r => n ← interact (Connect o authorization id); mret (if returns E n then Some r else None)
      end
  end.

(** The end of [#drive]: the attempt exists. *)
Definition begin_attempt (s : Resident.session) (text : string) : M () :=
  modify bump;;
  b ← get;
  let g := generation b in
  modify (λ b, set_attempts (<[ g := mkAttempt s text false None false false false [] ]> (attempts b)) b);;
  modify (set_live (Some g));;
  modify (logged (Created g));;
  transition connecting;;
  b ← get;
  if negb (isCurrent b g) then mret tt
  else
    n ← interact (AttachTo g);
    if negb (returns E n) then fault (Some g)
    else
      (if gives_detach E n then
         b ← get;
         if isCurrent b g then modify (on_attempt g (set_detach true)) else interact (Detach g);; mret tt
       else mret tt);;
      b ← get;
      if negb (isCurrent b g) then mret tt else armLiveTimer g.

(** [#drive] *)
Definition drive : M () :=
  b ← get;
  if negb (started b) || stopped b || bool_decide (is_Some (live b)) then mret tt
  else
    clearControllerTimer;;
    if configurationInvalid opts then transition configuration_error
    else match origin opts with
    | None => transition not_configured
    | Some o =>
        first ← read_store;
        match first with
        | None => fault None
        | Some first =>
            if negb (snapshotIsActive first) then wait_for_enrollment
            else if negb (bool_decide (endpoint first = Some o)) then transition configuration_error
            else
              n ← interact ReadToken;
              match (token E n ≫= formatNodeBearerAuthorization : option string) with
              | None => fault None
              | Some authorization =>
                  second ← read_store;
                  match second with
                  | None => fault None
                  | Some second =>
                      if negb (snapshotIsActive second && String.eqb (snap_instanceId second) (snap_instanceId first)
                               && bool_decide (endpoint second = Some o)
                               && bool_decide (activeCredentialId second = activeCredentialId first))
                      then wait_for_enrollment
                      else
                        r ← connect o authorization (snap_instanceId second);
                        match r with
                        | None => fault None
                        | Some (s, text) => begin_attempt s text
                        end
                  end
              end
        end
    end.

(** [#dispatch] *)
Definition dispatch (g : Z) (m : M ()) : M () :=
  b ← get;
  if negb (isCurrent b g) then mret tt
  else catch m (b ← get; if isCurrent b g then transport_failed g else mret tt).

(** [#opened] *)
Definition on_opened (g : Z) : M () :=
  a ← attempt_of g;
  match a with
  | None => mret tt
  | Some a =>
      if opened a then attemptFailed g CLOSE_protocol "duplicate_open"
      else
        modify (on_attempt g set_opened);;
        transition handshaking;;
        b ← get;
        if negb (isCurrent b g) then mret tt
        else
          fits ← hasCapacity g (hello a);
          if negb fits then attemptFailed g CLOSE_unavailable "backpressure"
          else
            n ← interact (SendHello g (hello a));
            if returns E n then mret tt else transport_failed g
  end.

(** A method of the session of an attempt; what it throws is a value. *)
Definition on_session {A} (g : Z) (m : eff Resident.session exn A) : M (exn + A) := λ b,
  match attempts b !! g with
  | None => (inr (inl JsTypeError), b)
  | Some a => let '(r, s) := m (session a) in (inr r, on_attempt g (set_session s) b)
  end.

(** [#message] *)
Definition on_message (g : Z) (d : data) (binary : bool) : M () :=
  if binary then attemptFailed g CLOSE_protocol "binary_frame"
  else
    match d with
    | None => attemptFailed g CLOSE_invalidData "invalid_utf8"
    | Some (len, parsed) =>
        if LIMITS_frameBytes <? len then attemptFailed g CLOSE_invalidData "invalid_utf8"
        else
          r ← on_session g (Resident.receive sha256_hex (InText len parsed));
          match r with
          | inl _ => attemptFailed g CLOSE_protocol "protocol_error"
          | inr f =>
              a ← attempt_of g;
              if negb match a with Some a => a_ready a | None => false end then
                match body f with
                | HelloAck _ _ =>
                    modify (on_attempt g set_ready);;
                    clearLiveTimer g;;
                    modify (set_failures 0);;
                    transition ready
                | _ => attemptFailed g CLOSE_protocol "invalid_ack"
                end
              else if Resident.is_fatal (body f) then attemptFailed g CLOSE_protocol "fatal_error"
              else interact (Delivered g f);; mret tt
          end
    end.

(** [create()]: the session makes the frame of an effect. *)
Definition create_effect (e : Effect) : eff Resident.session exn (frame ResidentBody) :=
  match e with
  | EOperation rid vid op err => Resident.operationResult sha256_hex rid vid op err
  | EConsole vid payload => Resident.consoleOutput sha256_hex vid payload
  | EMedia rid o => Resident.mediaResult sha256_hex rid o
  end.
Definition serializeResidentFrame (f : frame ResidentBody) : exn + string :=
  serializeFrame sha256_hex (effect_json f) resident_to_gateway.

(** The loop of [#writeEffect]: whether it ended. *)
Fixpoint flush (fuel : nat) (g : Z) : M bool :=
  match fuel with
  | O => mret false
  | S fuel =>
      b ← get;
      if negb (isCurrent b g) then mret true
      else match attempts b !! g with
        | Some a =>
            match effectQueue a with
            | [] => mret true
            | w :: rest =>
                modify (on_attempt g (set_queue rest));;
                fits ← hasCapacity g w.2;
                if negb fits then attemptFailed g CLOSE_unavailable "backpressure";; mret true
                else
                  n ← interact (SendEffect g w);
                  if returns E n then flush fuel g else transport_failed g;; mret true
            end
        | None => mret true
        end
  end.

(** [#writeEffect] *)
Definition writeEffect (g : Z) (e : Effect) : M bool :=
  b ← get;
  match attempts b !! g with
  | None => mret false
  | Some a =>
      if negb (isCurrent b g) || negb (a_ready a) then mret false
      else if Nat.leb LIMITS_pendingRequestsPerConnection (length (effectQueue a)) then
        attemptFailed g CLOSE_unavailable "backpressure";; mret false
      else
        r ← on_session g (create_effect e);
        f ← lift r;
        text ← lift (serializeResidentFrame f);
        modify (on_attempt g (λ a, set_queue (effectQueue a ++ [(f, text)]) a));;
        if writingEffect a then mret true
        else
          modify (on_attempt g (set_writing true));;
          finished ← flush fuel g;
          if negb finished then mret true
          else
            modify (on_attempt g (set_writing false));;
            modify (λ b, if isCurrent b g then b else on_attempt g (set_queue []) b);;
            b ← get;
            mret (isCurrent b g)
  end.

Definition start : M () :=
  b ← get;
  if stopped b || started b then mret tt else modify set_started;; drive.
Definition stop : M () :=
  b ← get;
  if stopped b then mret tt
  else
    modify set_stopped;;
    modify bump;;
    clearControllerTimer;;
    b ← get;
    modify (set_live None);;
    match live b with Some g => dispose g CLOSE_stopping "stopping" | None => mret tt end;;
    transition ended.

Definition perform (x : call) : M () :=
  match x with
  | Start => start
  | Stop => stop
  | OnOpen g => dispatch g (on_opened g)
  | OnMessage g d binary => dispatch g (on_message g d binary)
  | OnEnd g => dispatch g (transport_failed g)
  | Write g e => writeEffect g e;; mret tt
  end.
(** A timer fires: its callback. *)
Definition fire (t : nat) : M () :=
  b ← get;
  match timers b !! t with
  | None => mret tt
  | Some k =>
      modify (λ b, set_timers (delete t (timers b)) b);;
      match k with
      | ControllerTimer g =>
          if stopped b || negb (g =? generation b) then mret tt else modify (set_timer None);; drive
      | HandshakeTimer g => dispatch g (attemptFailed g CLOSE_unavailable "handshake_timeout")
      end
  end.
End methods.

(** Calls of the outside, nested at most [depth] deep. *)
Fixpoint exec (sha256_hex : list Z → string) (opts : settings) (E : env) (fuel depth : nat) (x : call)
    (b : controller) : controller :=
  match depth with
  | O => (perform sha256_hex opts E fuel (λ _ b, b) x b).2
  | S depth => (perform sha256_hex opts E fuel (exec sha256_hex opts E fuel depth) x b).2
  end.
(** A turn of the event loop. *)
Inductive turn := Call (x : call) | Fire (t : nat).
Definition take_turn sha256_hex opts E fuel depth (b : controller) (x : turn) : controller :=
  match x with
  | Call x => exec sha256_hex opts E fuel depth x b
  | Fire t => (fire sha256_hex opts E (exec sha256_hex opts E fuel depth) t b).2
  end.
Definition run sha256_hex opts E fuel depth (xs : list turn) : controller :=
  foldl (take_turn sha256_hex opts E fuel depth) new_controller xs.
