(* ===== verification/GatewayLinkSession.v ===== *)
(** * What the session of a link makes of an effect: a frame with the next number, whose
    text is accepted. *)

From S2P Require Import Prelude Protocol Codec CodecFacts Session SessionInv ResidentInv ResidentRun GatewayLink.
Local Open Scope string_scope.
Local Open Scope list_scope.

Section session.
Context (sha256_hex : list Z → string).

Lemma decoded_serializes v f :
  decodeResidentFrame sha256_hex (InValue v) = inr f → json_copy v = v →
  ∃ text, serializeFrame sha256_hex v resident_to_gateway = inr text.
Proof.
  intros Hd Hv. unfold serializeFrame. rewrite Hv. unfold decodeResidentFrame in Hd.
  destruct (decodeFrame sha256_hex (InValue v) resident_to_gateway) as [|f'] eqn:Hf; [done|].
  unfold decodeFrame in Hf. destruct (inputObject (InValue v)) as [|fs] eqn:Hi; [done|].
  unfold inputObject in Hi. unfold mbind, sum_bind. unfold mbind, sum_bind in Hi.
  destruct (ensure _ frame_too_large) eqn:He in Hi; [done|]. apply ensure_inr in He.
  rewrite (proj2 (ensure_inr _ _ tt) He). by eexists.
Qed.

Lemma error_copy e : json_copy (Resident.error_json e) = Resident.error_json e.
Proof. done. Qed.
Lemma effect_copy f : (∀ rid vid op err, body f = OperationResult rid vid op err → json_copy op = op) →
  json_copy (effect_json f) = effect_json f.
Proof.
  intros Hop. unfold effect_json. simpl. rewrite map_app. f_equal. f_equal.
  - destruct f as [c q b]. simpl in *. destruct b as [|rid vid op [e|]| |rid [mt n d x|e]|]; simpl; try done.
    + by rewrite (Hop _ _ _ _ eq_refl).
    + by rewrite (Hop _ _ _ _ eq_refl).
    + pose proof (json_copy_num n) as Hn. simpl in Hn. by rewrite Hn.
  - pose proof (json_copy_num (seq f)) as Hn. simpl in Hn. simpl. by rewrite Hn.
Qed.

(** The frame of an effect came out of the decoder, from its object. *)
Lemma operation_decodes rid vid op err s f s' :
  Resident.operationResult sha256_hex rid vid op err s = (inr f, s') →
  decodeResidentFrame sha256_hex (InValue (effect_json f)) = inr f.
Proof.
  intros H. pose proof H as (_ & _ & Hp & Hf & _)%operationResult_inr. revert H. unfold Resident.operationResult.
  intros (_ & _ & H)%assert_ready_bind. rewrite bind_get, Hp in H. unfold demand, protocolFailure in H.
  autorewrite with eff in H. case_match; [|done]. autorewrite with eff in H.
  destruct (decodeResidentFrame _ _) as [|f'] eqn:Hd; [done|]. pose proof Hd as He. apply emit_operation in He.
  subst f'. subst f. exact Hd.
Qed.
Lemma console_decodes vid payload s f s' :
  Resident.consoleOutput sha256_hex vid payload s = (inr f, s') →
  decodeResidentFrame sha256_hex (InValue (effect_json f)) = inr f.
Proof.
  intros H. pose proof H as (_ & _ & _ & Hf & _)%consoleOutput_inr. revert H. unfold Resident.consoleOutput.
  intros (_ & _ & H)%assert_ready_bind. rewrite bind_get in H. unfold demand in H.
  autorewrite with eff in H. case_match; [|done]. autorewrite with eff in H.
  destruct (decodeResidentFrame _ _) as [|f'] eqn:Hd; [done|]. pose proof Hd as He. apply emit_console in He.
  subst f'. subst f. exact Hd.
Qed.
Lemma media_decodes rid o s f s' :
  Resident.mediaResult sha256_hex rid o s = (inr f, s') →
  decodeResidentFrame sha256_hex (InValue (effect_json f)) = inr f.
Proof.
  intros H. pose proof H as (_ & _ & _ & Hf & _)%mediaResult_inr. revert H. unfold Resident.mediaResult.
  intros (_ & _ & H)%assert_ready_bind. rewrite bind_get in H. unfold demand in H.
  autorewrite with eff in H. case_match; [|done]. autorewrite with eff in H.
  destruct (decodeResidentFrame _ _) as [|f'] eqn:Hd; [done|]. pose proof Hd as He. apply emit_media in He.
  subst f'. subst f. exact Hd.
Qed.

(** ** What the controller relies on *)

(** A session keeps its connection; [frame_of] is what it made. *)
Definition advanced (s s' : Resident.session) (f : frame ResidentBody) : Prop :=
  Resident.terminal s = false ∧ Protocol.connectionId f = Resident.s_connectionId s
  ∧ seq f = Resident.nextOutboundSeq s
  ∧ (Resident.terminal s' = true ∨ Resident.nextOutboundSeq s' = (Resident.nextOutboundSeq s + 1)%Z)
  ∧ ∃ text, serializeResidentFrame sha256_hex f = inr text.
Definition unchanged (s s' : Resident.session) : Prop :=
  Resident.terminal s' = true
  ∨ Resident.terminal s = false ∧ Resident.nextOutboundSeq s' = Resident.nextOutboundSeq s.

Lemma result_unchanged s e s' : exec_result s (Threw e) s' → unchanged s s'.
Proof. inversion 1; subst; unfold unchanged; [destruct (Resident.terminal s')|]; auto. Qed.
Lemma create_spec e s :
  let '(r, s') := create_effect sha256_hex e s in
  Resident.s_connectionId s' = Resident.s_connectionId s
  ∧ match r with inr f => advanced s s' f | inl _ => unchanged s s' end.
Proof.
  destruct (create_effect sha256_hex e s) as [r s'] eqn:He.
  set (c := match e with
            | EOperation rid vid op err => COperation rid vid op err
            | EConsole vid payload => CConsole vid payload
            | EMedia rid o => CMedia rid o
            end).
  assert (ResidentRun.exec sha256_hex c s = outcome Emitted (r, s')) as Hx by (destruct e; simpl in *; by rewrite He).
  pose proof (resident_exec_spec sha256_hex c s) as Hs. rewrite Hx in Hs.
  pose proof (exec_outbound _ _ _ Hs) as [Hc Ho].
  destruct r as [err|f]; simpl in *; (split; [done|]); [by eapply result_unchanged|].
  destruct Ho as (? & ? & ?). split_and!; try done.
  - by inversion Hs.
  - assert (decodeResidentFrame sha256_hex (InValue (effect_json f)) = inr f) as Hd.
    { destruct e; simpl in He; eauto using operation_decodes, console_decodes, media_decodes. }
    unfold serializeResidentFrame. eapply decoded_serializes; [exact Hd|]. apply effect_copy. intros rid vid op err Hb.
    inversion Hs; subst; simpl in Hb; by simplify_eq.
Qed.
Lemma receive_spec i s :
  let '(r, s') := Resident.receive sha256_hex i s in
  Resident.s_connectionId s' = Resident.s_connectionId s ∧ unchanged s s'.
Proof.
  destruct (Resident.receive sha256_hex i s) as [r s'] eqn:He.
  assert (ResidentRun.exec sha256_hex (CReceive i) s = outcome Received (r, s')) as Hx by (simpl; by rewrite He).
  pose proof (resident_exec_spec sha256_hex (CReceive i) s) as Hs. rewrite Hx in Hs.
  pose proof (exec_outbound _ _ _ Hs) as [Hc Ho].
  destruct r as [err|f]; simpl in *; (split; [done|]); [by eapply result_unchanged|].
  right. split; [by inversion Hs|done].
Qed.
End session.
