(* ===== verification/GatewayLinkTheorems.v ===== *)
(** * Theorems on the link of a resident: numbering, closing and stopping *)

From S2P Require Import Prelude Effects Protocol Codec Credentials Session GatewayLink GatewayLinkSession.
Local Open Scope list_scope.

Definition effect_on (g : Z) (a : action) : option EffectWrite :=
  match a with SendEffect g' w => if Z.eqb g' g then Some w else None | _ => None end.
(** The effects handed to the socket of the attempt [g], in order. *)
Definition sent (g : Z) (l : list action) : list EffectWrite := omap (effect_on g) l.
Definition closed_in (g : Z) (l : list action) : Prop := ∃ code reason, Closed g code reason ∈ l.
Definition conn (a : LiveAttempt) : string := Resident.s_connectionId (session a).

Section theorems.
Context (sha256_hex : list Z → string).

(** Frames numbered 2, 3, ... of the connection [c], each with its text. *)
Definition numbered (c : string) (ws : list EffectWrite) : Prop :=
  seq <$> ws.*1 = seqZ 2 (Z.of_nat (length ws))
  ∧ Forall (λ w, Protocol.connectionId w.1 = c ∧ serializeResidentFrame sha256_hex w.1 = inr w.2) ws.
Lemma numbered_prefix c l k : numbered c (l ++ k) → numbered c l.
Proof.
  intros [Hs Hf]. split; [|by apply Forall_app in Hf as [? _]].
  apply (f_equal (take (length l))) in Hs. rewrite !fmap_app, take_app_length' in Hs by by rewrite !length_fmap.
  rewrite Hs. rewrite length_app, Nat2Z.inj_add, seqZ_app by lia.
  by rewrite take_app_length' by by rewrite length_seqZ, Nat2Z.id.
Qed.
Lemma link_numbered_snoc c l w :
  numbered c l → seq w.1 = (2 + Z.of_nat (length l))%Z → Protocol.connectionId w.1 = c →
  serializeResidentFrame sha256_hex w.1 = inr w.2 → numbered c (l ++ [w]).
Proof.
  intros [Hs Hf] Hq Hc Ht. split; [|apply Forall_app; split; [done|by constructor]].
  rewrite !fmap_app, Hs, length_app, Nat2Z.inj_add, seqZ_app by lia. simpl. by rewrite Hq.
Qed.

(** What the attempt [a] has numbered: what was sent, what its loop holds, its queue. *)
Definition queued (ws : list EffectWrite) (held : list EffectWrite) (a : LiveAttempt) : Prop :=
  let ws := ws ++ held ++ effectQueue a in
  numbered (conn a) ws
  ∧ (Resident.terminal (session a) = true ∨ Resident.nextOutboundSeq (session a) = (2 + Z.of_nat (length ws))%Z)
  ∧ (held ≠ [] → writingEffect a = true).

(** [h g] is the write the loop of [g] holds, [P] the attempts being disposed of. *)
Record inv (h : Z → list EffectWrite) (P : gset Z) (b : controller) : Prop := {
  i_bound : ∀ g, is_Some (attempts b !! g) → (g ≤ generation b)%Z;
  i_live : ∀ g, live b = Some g → is_Some (attempts b !! g) ∧ (stopped b = false → g = generation b);
  i_started : is_Some (live b) → started b = true;
  i_fresh : ∀ g, attempts b !! g = None → sent g (log b) = [] ∧ h g = [];
  i_num : ∀ g a, attempts b !! g = Some a → numbered (conn a) (sent g (log b) ++ h g);
  i_queue : ∀ g a, isCurrent b g = true → attempts b !! g = Some a → queued (sent g (log b)) (h g) a;
  i_closed : ∀ g, is_Some (attempts b !! g) → live b = Some g ∨ g ∈ P ∨ closed_in g (log b);
}.

(** What later states keep; with [r], also that no new attempt began. *)
Record mono (r : bool) (b b' : controller) : Prop := {
  m_attempts : ∀ g a, attempts b !! g = Some a →
    ∃ a', attempts b' !! g = Some a' ∧ conn a' = conn a ∧ (writingEffect a = true → writingEffect a' = true);
  m_stopped : stopped b = true → stopped b' = true;
  m_started : started b = true → started b' = true;
  m_live : r = true → started b = true → live b' = live b ∨ live b' = None;
  m_gone : ∀ g, (g ≤ generation b)%Z → isCurrent b g = false → isCurrent b' g = false;
  m_generation : (generation b ≤ generation b')%Z;
  m_log : ∃ l, log b' = log b ++ l;
}.
#[export] Instance link_mono_preorder r : PreOrder (mono r).
Proof.
  split.
  - intros b. split; eauto; [lia|by exists []; rewrite app_nil_r].
  - intros b1 b2 b3 [A1 S1 T1 L1 G1 N1 [l1 E1]] [A2 S2 T2 L2 G2 N2 [l2 E2]]. split; [|auto..|lia|].
    + intros g a (a' & (a'' & ? & ? & ?)%A2 & ? & ?)%A1. exists a''. split_and!; [done|congruence|auto].
    + intros Hr Hs. destruct (L2 Hr (T1 Hs)) as [->| ->]; [by apply L1|by right].
    + intros g Hg Hb. apply G2; [lia|by apply G1].
    + exists (l1 ++ l2). by rewrite E2, E1, app_assoc.
Qed.

(** ** Single steps *)

Lemma sent_snoc g l a : sent g (l ++ [a]) = sent g l ++ option_list (effect_on g a).
Proof. unfold sent. rewrite omap_app. simpl. by destruct (effect_on g a). Qed.
Lemma closed_snoc g l a : closed_in g l → closed_in g (l ++ [a]).
Proof. intros (c & r & ?). exists c, r. apply elem_of_app. by left. Qed.

(** Nothing but what the invariant looks at matters. *)
Lemma inv_frame h P b b' :
  inv h P b → attempts b' = attempts b → generation b' = generation b → live b' = live b → stopped b' = stopped b →
  (started b = true → started b' = true) → log b' = log b → inv h P b'.
Proof.
  intros [Hbd Hlv Hst Hfr Hn Hq Hcl] Ha Hg Hl Hs Ht Ho.
  assert (∀ g, isCurrent b' g = isCurrent b g) as Hi by (intros g; unfold isCurrent; by rewrite Hl, Hg, Hs).
  split; intros *; rewrite ?Ha, ?Hg, ?Hl, ?Hs, ?Ho, ?Hi; auto.
Qed.
Lemma inv_action h P b a : inv h P b → (∀ g, effect_on g a = None) → inv h P (logged a b).
Proof.
  intros [] Ha. split; simpl; try done.
  - intros g. rewrite sent_snoc, Ha, app_nil_r. auto.
  - intros g x. rewrite sent_snoc, Ha, app_nil_r. auto.
  - intros g x Hc Hx. rewrite sent_snoc, Ha, app_nil_r. auto.
  - intros g Hg. destruct (i_closed0 g Hg) as [?|[?|?]]; auto using closed_snoc.
Qed.
Lemma inv_closing h P b g code reason : inv h P b → inv h (P ∖ {[g]}) (logged (Closed g code reason) b).
Proof.
  intros Hb. destruct (inv_action h P b (Closed g code reason) Hb) as []; [done|]. split; try done.
  intros g' Hg'. destruct (i_closed0 g' Hg') as [?|[?|?]]; auto. destruct (decide (g' = g)) as [->|?]; [|set_solver].
  right; right. exists code, reason. simpl. apply elem_of_app. right. by left.
Qed.
Lemma inv_stepped h P b : inv h P b → inv h P (stepped b).
Proof. intros Hb. by eapply inv_frame. Qed.
Lemma inv_weaken_disposed h P P' b : P ⊆ P' → inv h P b → inv h P' b.
Proof. intros HP []. split; try done. intros g Hg. destruct (i_closed0 g Hg) as [?|[?|?]]; auto. Qed.

(** An attempt changes. *)
Lemma lookup_on g f b g' a :
  attempts (on_attempt g f b) !! g' = Some a →
  ∃ a0, attempts b !! g' = Some a0 ∧ (g' = g ∧ a = f a0 ∨ g' ≠ g ∧ a = a0).
Proof.
  simpl. rewrite lookup_alter. destruct (decide (g = g')) as [->|?]; [|by eauto].
  destruct (attempts b !! g') as [a0|]; [|done]. intros [= <-]. eauto.
Qed.
Lemma lookup_on_is_Some g f b g' : is_Some (attempts (on_attempt g f b) !! g') ↔ is_Some (attempts b !! g').
Proof.
  simpl. rewrite lookup_alter. destruct (decide (g = g')) as [->|?]; [|done]. by rewrite fmap_is_Some.
Qed.
Lemma inv_alter h h' P b g f :
  (∀ a, attempts b !! g = Some a → conn (f a) = conn a ∧ numbered (conn a) (sent g (log b) ++ h' g)
    ∧ (isCurrent b g = true → queued (sent g (log b)) (h g) a → queued (sent g (log b)) (h' g) (f a))) →
  (∀ g', attempts b !! g' = None ∨ g' ≠ g → h' g' = h g') →
  inv h P b → inv h' P (on_attempt g f b).
Proof.
  intros Hf Hh [Hbd Hl Hst Hfr Hn Hq Hcl]. split; try done.
  - intros g'. rewrite lookup_on_is_Some. apply Hbd.
  - intros g' Hg'. rewrite lookup_on_is_Some. by apply Hl.
  - intros g' Hg'. assert (attempts b !! g' = None) as Hnone.
    { destruct (attempts b !! g') eqn:He; [|done]. by destruct (proj2 (lookup_on_is_Some g f b g') (mk_is_Some _ _ He)); congruence. }
    rewrite Hh by auto. by apply Hfr.
  - intros g' a (a0 & Ha0 & [[-> ->]|[Hne ->]])%lookup_on; [|rewrite Hh by auto; by apply Hn].
    destruct (Hf _ Ha0) as (-> & ? & _). done.
  - intros g' a Hcur (a0 & Ha0 & [[-> ->]|[Hne ->]])%lookup_on; [|rewrite Hh by auto; by apply Hq].
    destruct (Hf _ Ha0) as (_ & _ & Hx). apply Hx; [exact Hcur|by apply Hq].
  - intros g'. rewrite lookup_on_is_Some. apply Hcl.
Qed.
Definition gentle (f : LiveAttempt → LiveAttempt) : Prop :=
  ∀ a, session (f a) = session a ∧ effectQueue (f a) = effectQueue a ∧ (writingEffect a = true → writingEffect (f a) = true).
Lemma inv_gentle h P b g f : gentle f → inv h P b → inv h P (on_attempt g f b).
Proof.
  intros Hf Hb. apply (inv_alter h); [|done..]. intros a Ha. destruct (Hf a) as (Hs & Hq & Hw).
  unfold queued, conn. rewrite Hs, Hq. split_and!; [done|by apply (i_num _ _ _ Hb)|]. intros _ (? & ? & ?). auto.
Qed.
Lemma gentle_detach d : gentle (set_detach d). Proof. done. Qed.
Lemma gentle_handshake t : gentle (set_handshake t). Proof. done. Qed.
Lemma gentle_opened : gentle set_opened. Proof. done. Qed.
Lemma gentle_ready : gentle set_ready. Proof. done. Qed.
Lemma gentle_writing : gentle (set_writing true). Proof. done. Qed.

(** Frames of a session. *)
Lemma inv_session h P b g s :
  (∀ a, attempts b !! g = Some a → Resident.s_connectionId s = conn a
    ∧ (Resident.terminal s = true ∨ Resident.terminal (session a) = false
        ∧ Resident.nextOutboundSeq s = Resident.nextOutboundSeq (session a))) →
  inv h P b → inv h P (on_attempt g (set_session s) b).
Proof.
  intros Hs Hb. apply (inv_alter h); [|done..]. intros a Ha. destruct (Hs _ Ha) as [Hc Hn].
  unfold queued, conn at 1. simpl. split_and!; [done|by apply (i_num _ _ _ Hb)|]. intros _ (H1 & H2 & H3).
  unfold conn. simpl. rewrite Hc. split_and!; [done| |done].
  destruct Hn as [?|[? ->]]; [by left|]. destruct H2; [congruence|by right].
Qed.
Lemma on_attempt_twice g f k b : on_attempt g f (on_attempt g k b) = on_attempt g (f ∘ k) b.
Proof.
  unfold on_attempt, set_attempts. simpl. f_equal. apply map_eq. intros i. rewrite !lookup_alter. case_decide; [subst i|done].
  rewrite decide_True by done. by destruct (attempts b !! g).
Qed.
(** A frame the session just made is queued. *)
Lemma inv_push h P b g a s f text :
  attempts b !! g = Some a → inv h P b →
  Resident.s_connectionId s = conn a → Protocol.connectionId f = conn a →
  Resident.terminal (session a) = false → seq f = Resident.nextOutboundSeq (session a) →
  (Resident.terminal s = true ∨ Resident.nextOutboundSeq s = (Resident.nextOutboundSeq (session a) + 1)%Z) →
  serializeResidentFrame sha256_hex f = inr text →
  inv h P (on_attempt g (λ a, set_queue (effectQueue a ++ [(f, text)]) a) (on_attempt g (set_session s) b)).
Proof.
  intros Ha Hb Hs Hf Hnt Hseq Hnext Htext. rewrite on_attempt_twice. apply (inv_alter h); [|done..].
  intros a' Ha'. simplify_eq. unfold queued, conn at 1. simpl. split_and!; [done|by apply (i_num _ _ _ Hb)|].
  intros _ (H1 & H2 & H3). destruct H2 as [?|H2]; [congruence|]. unfold conn. simpl. rewrite Hs. rewrite !app_assoc.
  rewrite !app_assoc in H1, H2. split_and!; [|..|done].
  - apply link_numbered_snoc; [done|simpl; lia|done|done].
  - rewrite length_app. simpl. destruct Hnext as [?|?]; [by left|right]. lia.
Qed.

Definition hold (h : Z → list EffectWrite) (g : Z) (l : list EffectWrite) (g' : Z) : list EffectWrite :=
  if Z.eqb g' g then l else h g'.
Lemma hold_eq h g l : hold h g l g = l.
Proof. unfold hold. by rewrite Z.eqb_refl. Qed.
Lemma hold_ne h g l g' : g' ≠ g → hold h g l g' = h g'.
Proof. unfold hold. intros Hn. by apply Z.eqb_neq in Hn as ->. Qed.
Lemma inv_hold_id h P b g : h g = [] → inv (hold h g []) P b → inv h P b.
Proof.
  intros Hg [Hbd Hl Hst Hfr Hn Hq Hcl]. assert (∀ g', hold h g [] g' = h g') as He.
  { intros g'. destruct (decide (g' = g)) as [->|?]; [by rewrite hold_eq|by rewrite hold_ne]. }
  split; try done.
  - intros g'. rewrite <-He. apply Hfr.
  - intros g' a. rewrite <-He. apply Hn.
  - intros g' a. rewrite <-He. apply Hq.
Qed.
(** The loop takes the head of the queue; it hands it to the socket. *)
Lemma inv_shift h P b g a w rest :
  attempts b !! g = Some a → isCurrent b g = true → effectQueue a = w :: rest → writingEffect a = true → h g = [] →
  inv h P b → inv (hold h g [w]) P (on_attempt g (set_queue rest) b).
Proof.
  intros Ha Hcur Hrest Hw Hh Hb. destruct (i_queue _ _ _ Hb g a Hcur Ha) as (Hnum & Hx & _).
  rewrite Hh, Hrest in Hnum, Hx. simpl in Hnum, Hx. apply (inv_alter h); [| |done].
  - intros a' Ha'. simplify_eq. rewrite hold_eq. split_and!; [done|apply (numbered_prefix _ _ rest); by rewrite <-app_assoc|].
    intros _ _. by split_and!.
  - intros g' [Hg'|?]; [|by rewrite hold_ne]. rewrite hold_ne; [done|]. congruence.
Qed.
Lemma inv_sent h P b g w :
  h g = [w] → inv h P b → inv (hold h g []) P (logged (SendEffect g w) b).
Proof.
  intros Hh [Hbd Hl Hst Hfr Hn Hq Hcl]. assert (∀ g', g' ≠ g → effect_on g' (SendEffect g w) = None) as Hother.
  { intros g' Hne. simpl. destruct (Z.eqb_spec g g'); congruence. }
  assert (effect_on g (SendEffect g w) = Some w) as Hthis by (simpl; by rewrite Z.eqb_refl).
  split; simpl; try done.
  - intros g' Hg'. rewrite sent_snoc. destruct (decide (g' = g)) as [->|?].
    + destruct (Hfr _ Hg') as [_ Hx]. congruence.
    + rewrite Hother, hold_ne, app_nil_r by done. auto.
  - intros g' a Ha. rewrite sent_snoc. destruct (decide (g' = g)) as [->|?].
    + rewrite Hthis, hold_eq, app_nil_r. simpl. rewrite <-Hh. by apply Hn.
    + rewrite Hother, hold_ne, app_nil_r by done. by apply Hn.
  - intros g' a Hcur Ha. rewrite sent_snoc. destruct (decide (g' = g)) as [->|?].
    + rewrite Hthis, hold_eq. unfold queued. rewrite <-app_assoc. simpl.
      destruct (Hq g a Hcur Ha) as (H1 & H2 & _). rewrite Hh in H1, H2. by split_and!.
    + rewrite Hother, hold_ne, app_nil_r by done. by apply Hq.
  - intros g' Hg'. destruct (Hcl g' Hg') as [?|[?|?]]; auto using closed_snoc.
Qed.
(** The loop has ended: nothing is held. *)
Lemma inv_idle h P b g : h g = [] → inv h P b → inv h P (on_attempt g (set_writing false) b).
Proof.
  intros Hh Hb. apply (inv_alter h); [|done..]. intros a Ha. split_and!; [done|by apply (i_num _ _ _ Hb)|].
  intros _ (? & ? & ?). by split_and!.
Qed.
Lemma inv_dropped h P b g : isCurrent b g = false → inv h P b → inv h P (on_attempt g (set_queue []) b).
Proof.
  intros Hg Hb. apply (inv_alter h); [|done..]. intros a Ha. split_and!; [done|by apply (i_num _ _ _ Hb)|congruence].
Qed.

Lemma isCurrent_iff b g : isCurrent b g = true ↔ stopped b = false ∧ live b = Some g ∧ g = generation b.
Proof.
  unfold isCurrent. split.
  - intros [[? ?]%andb_true_iff ?%Z.eqb_eq]%andb_true_iff. guards. auto.
  - intros (-> & -> & ->). rewrite Z.eqb_refl. by rewrite bool_decide_eq_true_2.
Qed.
Lemma isCurrent_false b g : stopped b = true ∨ live b ≠ Some g ∨ g ≠ generation b → isCurrent b g = false.
Proof. intros H. destruct (isCurrent b g) eqn:He; [|done]. apply isCurrent_iff in He. naive_solver. Qed.

(** The live attempt is given up. *)
Definition released (b : controller) : controller := set_live None (bump b).
Lemma inv_released h P b : inv h P b → inv h (P ∪ list_to_set (option_list (live b))) (released b).
Proof.
  intros [Hbd Hl Hst Hfr Hn Hq Hcl]. split; simpl; try done.
  - intros g Hg. apply Hbd in Hg. lia.
  - intros g a Hcur. by apply isCurrent_iff in Hcur as (_ & [=] & _).
  - intros g Hg. destruct (Hcl g Hg) as [Hx|[?|?]]; [|set_solver|auto]. right; left. rewrite Hx. set_solver.
Qed.
Lemma inv_stopping h P b : inv h P b → inv h P (bump (set_stopped b)).
Proof.
  intros [Hbd Hl Hst Hfr Hn Hq Hcl]. split; simpl; try done.
  - intros g Hg. apply Hbd in Hg. lia.
  - intros g Hg. split; [by apply Hl|done].
Qed.
Lemma inv_unlive h P b : inv h P b → stopped b = true → inv h (P ∪ list_to_set (option_list (live b))) (set_live None b).
Proof.
  intros [Hbd Hl Hst Hfr Hn Hq Hcl] Hs. split; simpl; try done.
  - intros g a Hcur. by apply isCurrent_iff in Hcur as (_ & [=] & _).
  - intros g Hg. destruct (Hcl g Hg) as [Hx|[?|?]]; [|set_solver|auto]. right; left. rewrite Hx. set_solver.
Qed.
(** A new attempt. *)
Definition with_attempt (s : Resident.session) (text : string) (b : controller) : controller :=
  let g := (generation b + 1)%Z in
  logged (Created g) (set_live (Some g)
    (set_attempts (<[ g := mkAttempt s text false None false false false [] ]> (attempts b)) (bump b))).
Lemma inv_with_attempt h P b s text :
  inv h P b → live b = None → started b = true → Resident.nextOutboundSeq s = 2%Z → inv h P (with_attempt s text b).
Proof.
  intros [Hbd Hl Hst Hfr Hn Hq Hcl] Hnone Hrun Hnext.
  assert (attempts b !! (generation b + 1)%Z = None) as Hnew.
  { destruct (attempts b !! (generation b + 1)%Z) eqn:He; [|done]. pose proof (Hbd _ (mk_is_Some _ _ He)). lia. }
  apply inv_action; [|done]. split; simpl; try done.
  - intros g. rewrite lookup_insert. case_decide; [lia|]. intros Hg. apply Hbd in Hg. lia.
  - intros g [= <-]. by rewrite lookup_insert_eq.
  - intros g. rewrite lookup_insert. case_decide; [done|]. apply Hfr.
  - intros g a. rewrite lookup_insert. case_decide; [|apply Hn]. intros [= <-]. subst g.
    destruct (Hfr _ Hnew) as [-> ->]. done.
  - intros g a Hcur. apply isCurrent_iff in Hcur as (_ & [= <-] & _). rewrite lookup_insert_eq. intros [= <-].
    destruct (Hfr _ Hnew) as [-> ->]. by split_and!; [|right|].
  - intros g. rewrite lookup_insert. case_decide as Hd; [by subst; left|]. intros Hg.
    destruct (Hcl g Hg) as [?|[?|?]]; [congruence|auto|auto].
Qed.

Lemma mono_weaken r b b' : mono true b b' → mono r b b'.
Proof. intros []. split; auto. Qed.
Lemma mono_frame r b b' :
  attempts b' = attempts b → generation b' = generation b → live b' = live b → stopped b' = stopped b →
  (started b = true → started b' = true) → (∃ l, log b' = log b ++ l) → mono r b b'.
Proof.
  intros Ha Hg Hl Hs Ht Ho. split; rewrite ?Ha, ?Hg, ?Hl, ?Hs; auto; [eauto| |lia].
  intros g _. unfold isCurrent. by rewrite Hl, Hg, Hs.
Qed.
Lemma mono_alter r b g f :
  (∀ a, attempts b !! g = Some a → conn (f a) = conn a ∧ (writingEffect a = true → writingEffect (f a) = true)) →
  mono r b (on_attempt g f b).
Proof.
  intros Hf. split; auto; [|simpl; lia|by exists []; rewrite app_nil_r]. intros g' a Ha. simpl. rewrite lookup_alter.
  destruct (decide (g = g')) as [->|?]; rewrite Ha; [|by eauto]. eexists. split; [done|by apply Hf].
Qed.
Lemma mono_released r b : mono r b (released b).
Proof.
  split; simpl; auto; [eauto| |lia|by exists []; rewrite app_nil_r].
  intros g _ _. apply isCurrent_false. simpl. auto.
Qed.
Lemma mono_action r b a : mono r b (stepped (logged a b)).
Proof. apply mono_frame; try done. by eexists. Qed.
End theorems.
#[export] Hint Resolve gentle_detach gentle_handshake gentle_opened gentle_ready gentle_writing : elpis.

Create HintDb keep.
Section methods.
Context (sha256_hex : list Z → string) (opts : settings) (E : env) (fuel : nat).
Context (reenter : call → controller → controller).
Abbreviation inv := (inv sha256_hex).
Context (Hre : ∀ h P x b, inv h P b → inv h P (reenter x b) ∧ mono true b (reenter x b)).

Definition good {A} r h P (b0 : controller) (_ : A) (b : controller) : Prop := inv h P b ∧ mono r b0 b.
(** The computation returns and keeps the invariant, whatever is held and disposed of
    around it. *)
Definition keeps {A} (m : eff controller exn A) : Prop :=
  ∀ r h P b0 b, inv h P b → mono r b0 b → wp m (good r h P b0) (λ _ _, False) b.
Lemma wp_keeps {A} (m : eff controller exn A) r h P b0 b (Q : A → controller → Prop) X :
  keeps m → inv h P b → mono r b0 b → (∀ a b', inv h P b' → mono r b0 b' → Q a b') → wp m Q X b.
Proof. intros Hm Hb H0 HQ. eapply wp_mono; [by apply Hm| |done]. intros a b' [? ?]. auto. Qed.

Lemma link_keeps_ret {A} (a : A) : keeps (mret a).
Proof. by intros r h P b0 b ??. Qed.
Lemma link_keeps_bind {A B} (m : eff controller exn A) (k : A → eff controller exn B) :
  keeps m → (∀ a, keeps (k a)) → keeps (m ≫= k).
Proof.
  intros Hm Hk r h P b0 b Hb H0. apply wp_bind. eapply wp_mono; [by apply Hm| |done]. intros a b' [? ?]. by apply Hk.
Qed.
Lemma link_keeps_get : keeps get.
Proof. by intros r h P b0 b ??. Qed.
Lemma link_keeps_modify f : (∀ h P b, inv h P b → inv h P (f b) ∧ mono true b (f b)) → keeps (modify f).
Proof.
  intros Hf r h P b0 b Hb H0. apply wp_modify. destruct (Hf h P b Hb). split; [done|].
  etrans; [done|by apply mono_weaken].
Qed.
Lemma keeps_frame f :
  (∀ b, attempts (f b) = attempts b ∧ generation (f b) = generation b ∧ live (f b) = live b
        ∧ stopped (f b) = stopped b ∧ started (f b) = started b ∧ log (f b) = log b) → keeps (modify f).
Proof.
  intros Hf. apply link_keeps_modify. intros h P b Hb. destruct (Hf b) as (? & ? & ? & ? & He & Hl). split.
  - eapply inv_frame; [done..|by rewrite He|done].
  - apply mono_frame; try done; [by rewrite He|]. exists []. by rewrite app_nil_r.
Qed.
Lemma keeps_gentle g f : gentle f → keeps (modify (on_attempt g f)).
Proof.
  intros Hf. apply link_keeps_modify. intros h P b Hb. split; [by apply inv_gentle|]. apply mono_alter. intros a _.
  destruct (Hf a) as (Hs & _ & ?). unfold conn. by rewrite Hs.
Qed.

Lemma link_reenter_all h P xs b :
  inv h P b → inv h P (foldl (λ b x, reenter x b) b xs) ∧ mono true b (foldl (λ b x, reenter x b) b xs).
Proof.
  revert b. induction xs as [|x xs IH]; intros b Hb; simpl; [done|].
  destruct (Hre h P x b Hb) as [H1 H2]. destruct (IH _ H1) as [H3 H4]. split; [done|by etrans].
Qed.
Lemma link_wp_interact h P a b (Q : nat → controller → Prop) X :
  inv h P (logged a b) → (∀ n b', inv h P b' → mono true b b' → Q n b') → wp (interact E reenter a) Q X b.
Proof.
  intros Hb HQ. unfold interact. wp_run. apply inv_stepped in Hb.
  destruct (link_reenter_all h P (reacts E (interactions b) a) (stepped (logged a b)) Hb). apply HQ; [done|].
  etrans; [apply mono_action|done].
Qed.
Lemma keeps_interact a : (∀ g, effect_on g a = None) → keeps (interact E reenter a).
Proof.
  intros Ha r h P b0 b Hb H0. apply (link_wp_interact h P); [by apply inv_action|]. intros n b' ??. split; [done|].
  etrans; [done|by apply mono_weaken].
Qed.

(** [keep] follows a computation made of such pieces. *)
Ltac keep :=
  repeat first
    [ apply link_keeps_ret | apply link_keeps_get
    | by eauto with keep
    | apply keeps_interact; by intros
    | apply keeps_frame; by intros
    | apply keeps_gentle; by auto with elpis
    | apply link_keeps_bind; [|intros ?]
    | case_match ].

Lemma keeps_transition s : keeps (transition E reenter s).
Proof using Hre. unfold transition. keep. Qed.
Lemma keeps_clear_timeout t : keeps (clear_timeout E reenter t).
Proof using Hre. unfold clear_timeout. keep. Qed.
Hint Resolve keeps_transition keeps_clear_timeout : keep.
Lemma keeps_clearControllerTimer : keeps (clearControllerTimer E reenter).
Proof using Hre. unfold clearControllerTimer. keep. Qed.
Lemma keeps_clearLiveTimer g : keeps (clearLiveTimer E reenter g).
Proof using Hre. unfold clearLiveTimer, attempt_of. keep. Qed.
Lemma keeps_armControllerTimer d : keeps (armControllerTimer E reenter d).
Proof using Hre. unfold armControllerTimer. keep. Qed.
Hint Resolve keeps_clearControllerTimer keeps_clearLiveTimer keeps_armControllerTimer : keep.
Lemma keeps_read_store : keeps (read_store E reenter).
Proof using Hre. unfold read_store. keep. Qed.
Lemma keeps_wait : keeps (wait_for_enrollment opts E reenter).
Proof using Hre. unfold wait_for_enrollment. keep. Qed.
Lemma link_keeps_hasCapacity g t : keeps (hasCapacity opts E reenter g t).
Proof using Hre. unfold hasCapacity. keep. Qed.
Lemma keeps_connect o au i : keeps (connect sha256_hex opts E reenter o au i).
Proof using Hre. unfold connect. keep. Qed.
Hint Resolve keeps_read_store keeps_wait link_keeps_hasCapacity keeps_connect : keep.

(** Disposing of an attempt closes its socket. *)
Lemma wp_dispose r h P b0 b g code reason Q X :
  inv h P b → mono r b0 b → (∀ b', inv h (P ∖ {[g]}) b' → mono r b0 b' → Q tt b') →
  wp (dispose E reenter g code reason) Q X b.
Proof using Hre.
  intros Hb H0 HQ. unfold dispose. wp_step. apply (wp_keeps _ r h P b0); [keep|done..|]. intros _ b1 H1 M1.
  wp_step. apply (wp_keeps _ r h P b0); [unfold attempt_of; keep|done..|]. intros a b2 H2 M2.
  wp_step. apply (wp_keeps _ r h P b0); [keep|done..|]. intros _ b3 H3 M3.
  wp_step. apply (wp_keeps _ r h P b0); [keep|done..|]. intros _ b4 H4 M4.
  wp_step. apply (link_wp_interact h (P ∖ {[g]})); [by apply inv_closing|]. intros n b5 H5 M5.
  apply (wp_keeps _ r h (P ∖ {[g]}) b0); [keep|done| |]; [by etrans; [|apply mono_weaken]|].
  intros [] b6 ? ?. by apply HQ.
Qed.
(** The live attempt is released and disposed of. *)
Lemma wp_release h P b g code reason (Q : () → controller → Prop) X :
  inv h P b → live b = Some g ∨ live b = None → (g ≤ generation b)%Z →
  (∀ b', inv h P b' → mono true b b' → isCurrent b' g = false → Q tt b') →
  wp (dispose E reenter g code reason) Q X (released b).
Proof using Hre.
  intros Hb Hl Hg HQ. apply (wp_dispose true h (P ∪ {[g]}) (released b)).
  - eapply inv_weaken_disposed; [|by apply inv_released]. destruct Hl as [->| ->]; set_solver.
  - done.
  - intros b' Hb' Hm. apply HQ.
    + eapply inv_weaken_disposed; [|done]. set_solver.
    + etrans; [apply mono_released|done].
    + apply (m_gone _ _ _ Hm); [simpl; lia|]. apply isCurrent_false. simpl. auto.
Qed.
Lemma link_current_live h P b g :
  inv h P b → isCurrent b g = true → live b = Some g ∧ g = generation b ∧ started b = true ∧ stopped b = false.
Proof. intros Hb (? & Hl & ?)%isCurrent_iff. split_and!; try done. apply (i_started _ _ _ _ Hb). by rewrite Hl. Qed.

Lemma keeps_fault l : keeps (fault E reenter l).
Proof using Hre.
  intros r h P b0 b Hb H0. unfold fault. wp_step. wp_step. wp_step; [by wp_run|].
  wp_step; [by wp_run|]. wp_step. apply (wp_keeps _ true h P b); [keep|done..|]. intros _ b1 Hb1 M1.
  assert (mono r b0 b1) as M01 by (etrans; [done|by apply mono_weaken]).
  wp_step. destruct l as [g|]; [|wp_step; by apply keeps_transition].
  guards. destruct (link_current_live h P b g Hb ltac:(done)) as (Hl & Hg & Hst & _).
  do 4 (wp_step; cbv beta). change (set_live None (bump b1)) with (released b1).
  apply (wp_release h P); [done| | |].
  - rewrite <-Hl. by apply (m_live _ _ _ M1).
  - pose proof (m_generation _ _ _ M1). lia.
  - intros b2 Hb2 M2 _. apply keeps_transition; [done|]. etrans; [done|by apply mono_weaken].
Qed.
Hint Resolve keeps_fault : keep.
Lemma keeps_scheduleAfterFailure : keeps (scheduleAfterFailure opts E reenter).
Proof using Hre. unfold scheduleAfterFailure. keep. Qed.
Hint Resolve keeps_scheduleAfterFailure : keep.

(** An attempt that failed is not current any more. *)
Lemma wp_attemptFailed h P b g code reason (Q : () → controller → Prop) X :
  inv h P b → (g ≤ generation b)%Z →
  (∀ b', inv h P b' → mono true b b' → isCurrent b' g = false → Q tt b') →
  wp (attemptFailed opts E reenter g code reason) Q X b.
Proof using Hre.
  intros Hb Hg HQ. unfold attemptFailed. wp_step. wp_step.
  wp_step; [wp_run; apply HQ; [done..|]; apply isCurrent_false; auto|].
  wp_step; [wp_run; apply HQ; [done..|]; by guards|]. guards.
  destruct (link_current_live h P b g Hb ltac:(done)) as (Hl & _). do 5 (wp_step; cbv beta).
  change (set_live None (bump b)) with (released b).
  apply (wp_release h P); [done|auto|done|]. intros b1 Hb1 M1 Hc1.
  apply (wp_keeps _ true h P b1); [keep|done|done|]. intros [] b2 Hb2 M2. apply HQ; [done|by etrans|].
  apply (m_gone _ _ _ M2); [|done]. pose proof (m_generation _ _ _ M1). lia.
Qed.
Lemma keeps_attemptFailed g code reason : keeps (attemptFailed opts E reenter g code reason).
Proof using Hre.
  intros r h P b0 b Hb H0. destruct (decide (g ≤ generation b)%Z) as [Hg|Hg].
  - apply (wp_attemptFailed h P); [done..|]. intros b' ? ? _. split; [done|]. etrans; [done|by apply mono_weaken].
  - assert (isCurrent b g = false) as Hc by (apply isCurrent_false; right; right; lia).
    unfold attemptFailed. wp_step. wp_step. wp_step; [by wp_run|]. rewrite Hc. by wp_run.
Qed.
Hint Resolve keeps_attemptFailed : keep.
Lemma keeps_transport_failed g : keeps (transport_failed opts E reenter g).
Proof using Hre. unfold transport_failed. keep. Qed.
Hint Resolve keeps_transport_failed : keep.
Lemma keeps_armLiveTimer g : keeps (armLiveTimer opts E reenter g).
Proof using Hre. unfold armLiveTimer. keep. Qed.
Hint Resolve keeps_armLiveTimer : keep.
Lemma keeps_on_opened g : keeps (on_opened opts E reenter g).
Proof using Hre. unfold on_opened, attempt_of. keep. Qed.
Lemma link_keeps_dispatch g m : keeps m → keeps (dispatch opts E reenter g m).
Proof using Hre.
  intros Hm. unfold dispatch. apply link_keeps_bind; [keep|]. intros b1. case_match; [keep|].
  intros r h P b0 b Hb H0. specialize (Hm r h P b0 b Hb H0). unfold wp, catch in *. by destruct (m b) as [[] ?].
Qed.
Lemma link_keeps_receive g i : keeps (on_session g (Resident.receive sha256_hex i)).
Proof.
  intros r h P b0 b Hb H0. unfold wp, on_session. destruct (attempts b !! g) as [a|] eqn:Ha; [|done].
  pose proof (receive_spec sha256_hex i (session a)) as Hs. destruct (Resident.receive sha256_hex i (session a)) as [x s].
  destruct Hs as [Hc Hu]. split.
  - apply inv_session; [|done]. intros a' Ha'. simplify_eq. split; [done|]. by destruct Hu; auto.
  - etrans; [done|]. apply mono_alter. intros a' Ha'. simplify_eq. done.
Qed.
Hint Resolve link_keeps_receive : keep.
Lemma keeps_on_message g d binary : keeps (on_message sha256_hex opts E reenter g d binary).
Proof using Hre. unfold on_message, attempt_of. keep. Qed.

(** ** Writing effects *)

Lemma inv_ext h h' P b : (∀ g, h g = h' g) → inv h P b → inv h' P b.
Proof.
  intros He [Hbd Hl Hst Hfr Hn Hq Hcl]. split; try done.
  - intros g. rewrite <-He. apply Hfr.
  - intros g a. rewrite <-He. apply Hn.
  - intros g a. rewrite <-He. apply Hq.
Qed.
Lemma hold_hold h g l (H : h g = []) g' : hold (hold h g l) g [] g' = h g'.
Proof. destruct (decide (g' = g)) as [->|?]; [by rewrite hold_eq|by rewrite !hold_ne]. Qed.
(** What the loop holds for an attempt that is gone is dropped. *)
Lemma inv_unheld h P b g w : h g = [] → isCurrent b g = false → inv (hold h g [w]) P b → inv h P b.
Proof.
  intros Hh Hc [Hbd Hl Hst Hfr Hn Hq Hcl].
  assert (∀ g', g' ≠ g → hold h g [w] g' = h g') as He by (intros; by apply hold_ne).
  split; try done.
  - intros g' Hg'. destruct (decide (g' = g)) as [->|?]; [|rewrite <-He by done; by apply Hfr].
    split; [by apply Hfr|done].
  - intros g' a Ha. destruct (decide (g' = g)) as [->|?]; [|rewrite <-He by done; by apply Hn].
    rewrite Hh, app_nil_r. eapply numbered_prefix, Hn; done.
  - intros g' a Hcur Ha. rewrite <-He; [by apply Hq|]. congruence.
Qed.
Definition writing (g : Z) (b : controller) : Prop := ∃ a, attempts b !! g = Some a ∧ writingEffect a = true.
Lemma writing_mono r g b b' : mono r b b' → writing g b → writing g b'.
Proof. intros Hm (a & (a' & ? & _ & ?)%(m_attempts _ _ _ Hm) & ?). exists a'. auto. Qed.

Lemma mono_idle r b b' g a :
  mono r b b' → attempts b !! g = Some a → writingEffect a = false → mono r b (on_attempt g (set_writing false) b').
Proof.
  intros [HA HS HT HL HG HN HO] Ha Hw. split; try done. intros g' x Hx. destruct (HA _ _ Hx) as (x' & Hx' & Hc & Hwx).
  simpl. rewrite lookup_alter. destruct (decide (g = g')) as [->|?]; rewrite Hx'; [|by eauto]. eexists. split; [done|].
  split; [done|]. simplify_eq. congruence.
Qed.

Lemma wp_flush n h P g b :
  inv h P b → h g = [] → writing g b → wp (flush opts E reenter n g) (good true h P b) (λ _ _, False) b.
Proof using Hre.
  revert b. induction n as [|n IH]; intros b Hb Hh Hw; simpl; [by wp_run|].
  wp_step. wp_step. wp_step; [by wp_run|]. destruct (attempts b !! g) as [a|] eqn:Ha; [|by wp_run].
  destruct (effectQueue a) as [|w rest] eqn:Hq; [by wp_run|]. guards.
  assert (writingEffect a = true) as Hwa by (destruct Hw as (a' & ? & ?); by simplify_eq).
  wp_step. wp_step. cbv beta. set (b1 := on_attempt g (set_queue rest) b).
  assert (inv (hold h g [w]) P b1) as Hb1 by by apply inv_shift with a.
  assert (mono true b b1) as M1 by by apply mono_alter.
  wp_step. apply (wp_keeps _ true (hold h g [w]) P b); [keep|done..|]. intros fits b2 Hb2 M2.
  wp_step.
  { wp_step. apply (wp_attemptFailed (hold h g [w]) P); [done| |].
    - apply (i_bound _ _ _ _ Hb2). destruct (m_attempts _ _ _ M2 _ _ Ha) as (a' & -> & _). done.
    - intros b3 Hb3 M3 Hc3. wp_run. split; [by eapply inv_unheld|by etrans]. }
  wp_step. apply (link_wp_interact h P).
  { eapply inv_ext; [|by apply inv_sent; [apply hold_eq|exact Hb2]]. by apply hold_hold. }
  intros k b3 Hb3 M3. assert (mono true b b3) as M by by etrans. wp_step.
  - eapply wp_mono; [by apply IH; [|done|eapply writing_mono]| |done]. intros x b4 [? ?]. split; [done|by etrans].
  - wp_step. apply (wp_keeps _ true h P b); [keep|done..|]. intros _ b4 ? ?. by wp_run.
Qed.

Lemma wp_writeEffect h P g e b :
  inv h P b → wp (writeEffect sha256_hex opts E fuel reenter g e) (good true h P b) (good true h P b) b.
Proof using Hre.
  intros Hb. unfold writeEffect. wp_step. wp_step. destruct (attempts b !! g) as [a|] eqn:Ha; [|by wp_run].
  wp_step; [by wp_run|]. wp_step.
  { wp_step. apply (wp_keeps _ true h P b); [keep|done..|]. intros _ b' ??. by wp_run. }
  guards. wp_step. unfold wp at 1, on_session. rewrite Ha.
  pose proof (create_spec sha256_hex e (session a)) as Hs. destruct (create_effect sha256_hex e (session a)) as [x s].
  destruct Hs as [Hc Hx]. cbv beta iota. set (b1 := on_attempt g (set_session s) b).
  assert (mono true b b1) as M1.
  { apply mono_alter. intros a' Ha'. simplify_eq. done. }
  destruct x as [err|f]; wp_step; (apply wp_lift; [|]); try done.
  - intros ? [= <-]. split; [|done]. apply inv_session; [|done]. intros a' Ha'. simplify_eq. split; [done|].
    by destruct Hx; auto.
  - intros f' [= <-]. destruct Hx as (Hnt & Hfc & Hfs & Hnx & text & Htext). wp_step. rewrite Htext.
    apply wp_lift; [|done]. intros text' [= <-]. wp_step. wp_step. cbv beta.
    set (b2 := on_attempt g _ b1). assert (inv h P b2) as Hb2 by by apply inv_push with a.
    assert (mono true b b2) as M2.
    { etrans; [done|]. apply mono_alter. done. }
    wp_step; [by wp_run|]. wp_step. wp_step. cbv beta.
    assert (h g = []) as Hh.
    { destruct (h g) as [|w l] eqn:Hhg; [done|]. exfalso.
      destruct (i_queue _ _ _ _ Hb g a ltac:(done) Ha) as (_ & _ & Hw). rewrite Hhg in Hw. specialize (Hw ltac:(done)).
      congruence. }
    set (b3 := on_attempt g (set_writing true) b2). assert (inv h P b3) as Hb3 by (apply inv_gentle; [apply gentle_writing|done]).
    assert (mono true b b3) as M3 by (etrans; [done|by apply mono_alter]).
    assert (writing g b3) as Hw.
    { destruct (m_attempts _ _ _ M2 _ _ Ha) as (a2 & Ha2 & _). exists (set_writing true a2). split; [|done].
      change (attempts b3) with (alter (set_writing true) g (attempts b2)). by rewrite lookup_alter_eq, Ha2. }
    wp_step. eapply wp_mono; [by apply (wp_flush fuel h P g b3)| |done]. intros done_ b4 [Hb4 M4].
    wp_step; [wp_run; split; [done|by etrans]|]. wp_step. wp_step. cbv beta. wp_step. wp_step. cbv beta. wp_run.
    assert (mono true b b4) as M04 by by etrans.
    assert (inv h P (on_attempt g (set_writing false) b4)) as Hb5 by by apply inv_idle.
    pose proof (mono_idle true b b4 g a M04 Ha ltac:(done)) as M5.
    destruct (isCurrent (on_attempt g (set_writing false) b4) g) eqn:Hcur; [done|]. split; [by apply inv_dropped|].
    etrans; [done|by apply mono_alter].
Qed.

(** ** Connecting, starting and stopping *)

Lemma create_next connection instance caps gw s :
  Resident.create connection instance caps gw = inr s → Resident.nextOutboundSeq s = 2%Z.
Proof.
  unfold Resident.create, mbind, sum_bind, mret, sum_ret. repeat case_match; intros; by simplify_eq/=.
Qed.
Lemma prepare_next connection instance s text :
  prepare sha256_hex opts connection instance = inr (s, text) → Resident.nextOutboundSeq s = 2%Z.
Proof.
  unfold prepare, mbind, sum_bind. destruct (Resident.create _ _ _ _) as [|s'] eqn:Hs; [done|].
  destruct (createResidentHello _ _ _ _ _ _ _); [done|]. destruct (serializeFrame _ _ _); [done|].
  intros [= -> _]. by eapply create_next.
Qed.
Lemma wp_connect h P o au i b :
  inv h P b →
  wp (connect sha256_hex opts E reenter o au i)
    (λ x b', good true h P b x b' ∧ ∀ s text, x = Some (s, text) → Resident.nextOutboundSeq s = 2%Z) (λ _ _, False) b.
Proof using Hre.
  intros Hb. unfold connect. wp_step. apply (wp_keeps _ true h P b); [keep|done..|]. intros n b1 Hb1 M1.
  destruct (entropy E n ≫= connectionId) as [id|]; [|by wp_run].
  destruct (prepare sha256_hex opts id i) as [|[s text]] eqn:Hp; [by wp_run|]. wp_step.
  apply (wp_keeps _ true h P b); [keep|done..|]. intros k b2 Hb2 M2. wp_run. split; [done|].
  intros s' text' He. destruct (returns E k); simplify_eq. by eapply prepare_next.
Qed.
Lemma mono_with_attempt h P b s text : inv h P b → mono false b (with_attempt s text b).
Proof.
  intros Hb. split; simpl; try done; [..|lia|by eexists].
  - intros g a Ha. exists a. rewrite lookup_insert_ne; [done|]. intros <-.
    pose proof (i_bound _ _ _ _ Hb _ (mk_is_Some _ _ Ha)). lia.
  - intros g Hg _. apply isCurrent_false. right; left. simpl. intros [= <-]. lia.
Qed.
Lemma wp_begin h P s text b :
  inv h P b → live b = None → started b = true → Resident.nextOutboundSeq s = 2%Z →
  wp (begin_attempt opts E reenter s text) (good false h P b) (λ _ _, False) b.
Proof using Hre.
  intros Hb Hl Hst Hn. unfold begin_attempt. do 4 (wp_step; cbv beta). cbv zeta. do 6 (wp_step; cbv beta).
  match goal with |- wp _ _ _ ?x => change x with (with_attempt s text b) end.
  pose proof (inv_with_attempt sha256_hex h P b s text Hb Hl Hst Hn) as Hw.
  pose proof (mono_with_attempt h P b s text Hb) as Hm.
  change (generation (bump b)) with (generation b + 1)%Z. set (g := (generation b + 1)%Z) in *.
  apply (wp_keeps _ false h P b); [|done..|]; [|intros [] b' ??; done]. keep.
Qed.

Lemma good_weaken {A} (m : eff controller exn A) h P b b' :
  keeps m → inv h P b' → mono true b b' → wp m (good false h P b) (λ _ _, False) b'.
Proof. intros Hm Hb H0. apply (wp_keeps _ true h P b); [done..|]. intros a b'' ??. split; [done|by apply mono_weaken]. Qed.
Lemma wp_drive h P b : inv h P b → wp (drive sha256_hex opts E reenter) (good false h P b) (λ _ _, False) b.
Proof using Hre.
  intros Hb. unfold drive. wp_step. wp_step. wp_step; [by wp_run|]. apply orb_false_iff in H as [[? ?]%orb_false_iff ?]. guards.
  assert (live b = None) as Hl by (destruct (live b); [exfalso; eauto|done]).
  assert (∀ b', mono true b b' → live b' = None ∧ started b' = true) as Hstay.
  { intros b' Hm. split; [|by apply (m_started _ _ _ Hm)]. rewrite <-Hl. destruct (m_live _ _ _ Hm); congruence. }
  wp_step. apply (wp_keeps _ true h P b); [keep|done..|]. intros _ b1 Hb1 M1.
  wp_step; [apply good_weaken; keep; done|]. destruct (origin opts) as [o|]; [|apply good_weaken; keep; done].
  wp_step. apply (wp_keeps _ true h P b); [keep|done..|]. intros first b2 Hb2 M2.
  destruct first as [first|]; [|apply good_weaken; keep; done].
  wp_step; [apply good_weaken; keep; done|]. wp_step; [apply good_weaken; keep; done|].
  wp_step. apply (wp_keeps _ true h P b); [keep|done..|]. intros n b3 Hb3 M3.
  destruct (token E n ≫= formatNodeBearerAuthorization) as [au|]; [|apply good_weaken; keep; done].
  wp_step. apply (wp_keeps _ true h P b); [keep|done..|]. intros second b4 Hb4 M4.
  destruct second as [second|]; [|apply good_weaken; keep; done]. wp_step; [apply good_weaken; keep; done|].
  wp_step. eapply wp_mono; [by apply (wp_connect h P)| |done]. intros x b5 [[Hb5 M5] Hx].
  assert (mono true b b5) as M by by etrans.
  destruct x as [[s text]|]; [|apply good_weaken; keep; done].
  destruct (Hstay b5 M) as [? ?]. eapply wp_mono; [apply (wp_begin h P); eauto| |done].
  intros a b6 [? ?]. split; [done|]. etrans; [by apply mono_weaken|done].
Qed.
Lemma mono_start b0 b b' : started b = false → mono true b0 b → mono false b b' → mono true b0 b'.
Proof.
  intros Hs H1 H2. destruct (mono_weaken false _ _ H1) as [A1 S1 T1 _ G1 N1 [l1 E1]]. destruct H2 as [A2 S2 T2 _ G2 N2 [l2 E2]].
  split; auto.
  - intros g a (a' & (a'' & ? & ? & ?)%A2 & ? & ?)%A1. exists a''. split_and!; [done|congruence|auto].
  - intros _ Hs0. apply T1 in Hs0. congruence.
  - intros g Hg Hb. apply G2; [lia|by apply G1].
  - lia.
  - exists (l1 ++ l2). by rewrite E2, E1, app_assoc.
Qed.
Lemma wp_start h P b : inv h P b → wp (start sha256_hex opts E reenter) (good true h P b) (λ _ _, False) b.
Proof using Hre.
  intros Hb. unfold start. wp_step. wp_step. wp_step; [by wp_run|]. guards. wp_step. wp_step. cbv beta.
  eapply wp_mono; [apply (wp_drive h P)| |done].
  - by eapply inv_frame.
  - intros a b' [? Hm]. split; [done|]. apply (mono_start b b); [done..|]. etrans; [|done].
    apply mono_frame; try done. exists []. by rewrite app_nil_r.
Qed.
Lemma wp_stop h P b : inv h P b → wp (stop E reenter) (good true h P b) (λ _ _, False) b.
Proof using Hre.
  intros Hb. unfold stop. wp_step. wp_step. wp_step; [by wp_run|]. do 4 (wp_step; cbv beta).
  set (b1 := bump (set_stopped b)). assert (inv h P b1) as Hb1 by by apply inv_stopping.
  assert (mono true b b1) as M1.
  { split; simpl; auto; [eauto|lia|by exists []; rewrite app_nil_r]. }
  wp_step. apply (wp_keeps _ true h P b1); [keep|done..|]. intros _ b2 Hb2 M2.
  assert (stopped b2 = true) as Hs2 by by apply (m_stopped _ _ _ M2).
  do 4 (wp_step; cbv beta). pose proof (inv_unlive sha256_hex h P b2 Hb2 Hs2) as Hb3.
  assert (mono true b (set_live None b2)) as M3.
  { etrans; [done|]. etrans; [done|]. split; simpl; auto; [eauto| |lia|by exists []; rewrite app_nil_r].
    intros g _ _. apply isCurrent_false. auto. }
  wp_step. destruct (live b2) as [g|]; simpl in Hb3.
  - apply (wp_dispose true h (P ∪ ({[g]} ∪ ∅)) b); [done..|]. intros b4 Hb4 M4. apply keeps_transition; [|done].
    eapply inv_weaken_disposed; [|done]. set_solver.
  - wp_run. apply keeps_transition; [|done]. eapply inv_weaken_disposed; [|done]. set_solver.
Qed.

Lemma keeps_good {A} (m : eff controller exn A) h P b :
  wp m (good true h P b) (λ _ _, False) b → wp m (good true h P b) (good true h P b) b.
Proof. intros H. by eapply wp_mono. Qed.
Lemma wp_perform h P x b :
  inv h P b → wp (perform sha256_hex opts E fuel reenter x) (good true h P b) (good true h P b) b.
Proof using Hre.
  intros Hb. destruct x as [| |g|g d binary|g|g e]; simpl.
  - by apply keeps_good, wp_start.
  - by apply keeps_good, wp_stop.
  - apply keeps_good, link_keeps_dispatch; [apply keeps_on_opened|done..].
  - apply keeps_good, link_keeps_dispatch; [apply keeps_on_message|done..].
  - apply keeps_good, link_keeps_dispatch; [apply keeps_transport_failed|done..].
  - wp_step. eapply wp_mono; [by apply wp_writeEffect| |done]. intros a b' ?. by wp_run.
Qed.
Lemma inv_fire t b : inv (λ _, []) ∅ b → inv (λ _, []) ∅ (fire sha256_hex opts E reenter t b).2.
Proof using Hre.
  intros Hb. assert (wp (fire sha256_hex opts E reenter t) (λ _, inv (λ _, []) ∅) (λ _ _, False) b) as Hw.
  { unfold fire. wp_step. wp_step. destruct (timers b !! t) as [[g|g]|]; [| |by wp_run].
    - wp_step. wp_step. cbv beta. wp_step; [wp_run; by eapply inv_frame|]. wp_step. wp_step. cbv beta.
      eapply wp_mono; [apply (wp_drive (λ _, []) ∅); by eapply inv_frame| |done]. by intros ? ? [].
    - wp_step. wp_step. cbv beta. eapply (wp_keeps _ true (λ _, []) ∅); [apply link_keeps_dispatch; keep|by eapply inv_frame|done|].
      done. }
  unfold wp in Hw. by destruct (fire _ _ _ _ _ _) as [[] ?].
Qed.
End methods.

Section stopping.
Context (E : env) (reenter : call → controller → controller).
Context (Hstop : ∀ x b, stopped b = true → reenter x b = b).
Definition halts {A} (m : eff controller exn A) : Prop :=
  ∀ b, stopped b = true → wp m (λ _ b', stopped b' = true) (λ _ _, False) b.
Lemma halts_bind {A B} (m : eff controller exn A) (k : A → eff controller exn B) :
  halts m → (∀ a, halts (k a)) → halts (m ≫= k).
Proof. intros Hm Hk b Hb. apply wp_bind. eapply wp_mono; [by apply Hm| |done]. intros a b' ?. by apply Hk. Qed.
Lemma halts_interact a : halts (interact E reenter a).
Proof using Hstop.
  intros b Hb. unfold interact. wp_run. generalize (reacts E (interactions b) a). intros xs.
  assert (stopped (stepped (logged a b)) = true) as H by done. revert H. generalize (stepped (logged a b)). clear b Hb.
  induction xs as [|x xs IH]; simpl; [done|]. intros b Hb. rewrite Hstop by done. auto.
Qed.
Lemma link_stop_stops b : stopped (stop E reenter b).2 = true.
Proof using Hstop.
  assert (wp (stop E reenter) (λ _ b', stopped b' = true) (λ _ _, False) b) as Hw.
  { unfold stop. wp_step. wp_step. wp_step; [by wp_run|]. wp_step. wp_step. cbv beta.
    match goal with |- wp ?m _ _ _ => enough (halts m) as Hm by by apply Hm end.
    unfold clearControllerTimer, dispose, clearLiveTimer, clear_timeout, attempt_of, transition.
    repeat first [ by intros ? ? | apply halts_interact | apply halts_bind; [|intros ?] | case_match ]. }
  unfold wp in Hw. by destruct (stop E reenter b) as [[] ?].
Qed.
End stopping.

(** ** Attempts that were attached *)

(** Only attempts made so far were attached, and a stopped controller holds no attempt
    that was. *)
Record tended (b : controller) : Prop := {
  t_made : ∀ g, AttachTo g ∈ log b → (g ≤ generation b)%Z;
  t_stopped : stopped b = true → ∀ g, live b = Some g → AttachTo g ∉ log b;
}.
Lemma tended_frame b b' :
  tended b → (generation b ≤ generation b')%Z → (∀ g, AttachTo g ∈ log b' → AttachTo g ∈ log b) →
  stopped b' = stopped b → live b' = live b ∨ live b' = None → tended b'.
Proof.
  intros [Hm Hs] Hg Hl Hst Hlive. split.
  - intros g Hin. specialize (Hm g (Hl g Hin)). lia.
  - rewrite Hst. intros Hs' g Hg' Hin. destruct Hlive as [He|He]; rewrite He in Hg'; [|done]. by eapply Hs, Hl.
Qed.
Definition attaches (a : action) : bool := match a with AttachTo _ => true | _ => false end.
Lemma attach_snoc g l a : attaches a = false → AttachTo g ∈ l ++ [a] → AttachTo g ∈ l.
Proof. intros Ha [?|H%list_elem_of_singleton]%elem_of_app; [done|]. by subst a. Qed.

Section attached.
Context (sha256_hex : list Z → string) (opts : settings) (E : env) (fuel : nat).
Context (reenter : call → controller → controller).
Context (Hre : ∀ x b, tended b → tended (reenter x b)) (Hstop : ∀ x b, stopped b = true → reenter x b = b).
Definition tends {A} (m : eff controller exn A) : Prop := ∀ b, tended b → wp m (λ _, tended) (λ _, tended) b.

Lemma tends_ret {A} (a : A) : tends (mret a).
Proof. intros b Hb. by apply wp_ret. Qed.
Lemma tends_get : tends get.
Proof. intros b Hb. by apply wp_get. Qed.
Lemma tends_lift {A} (r : exn + A) : tends (lift r).
Proof. intros b Hb. unfold wp. by destruct r. Qed.
Lemma tends_modify f : (∀ b, tended b → tended (f b)) → tends (modify f).
Proof. intros Hf b Hb. by apply wp_modify, Hf. Qed.
Lemma tends_bind {A B} (m : eff controller exn A) (k : A → eff controller exn B) :
  tends m → (∀ a, tends (k a)) → tends (m ≫= k).
Proof. intros Hm Hk b Hb. apply wp_bind. eapply wp_mono; [by apply Hm| |done]. intros a b' ?. by apply Hk. Qed.
Lemma tends_catch {A} (m h : eff controller exn A) : tends m → tends h → tends (catch m h).
Proof.
  intros Hm Hh b Hb. specialize (Hm b Hb). unfold wp, catch in *. destruct (m b) as [[e|a] b']; [by apply Hh|done].
Qed.
(** Calls back keep what was reached. *)
Lemma tended_interact a b :
  tended (stepped (logged a b)) → wp (interact E reenter a) (λ _, tended) (λ _, tended) b.
Proof using Hre.
  intros Hb. unfold interact. wp_run. generalize (reacts E (interactions b) a). intros xs. revert Hb.
  generalize (stepped (logged a b)). clear b. induction xs as [|x xs IH]; simpl; [done|]. intros b Hb. by apply IH, Hre.
Qed.
Lemma tends_interact a : attaches a = false → tends (interact E reenter a).
Proof using Hre.
  intros Ha b Hb. apply tended_interact. apply (tended_frame b); simpl; auto; [lia|]. intros g. by apply attach_snoc.
Qed.
Lemma tended_attach g b : tended b → isCurrent b g = true → tended (stepped (logged (AttachTo g) b)).
Proof.
  intros [Hm _] (Hs & _ & ->)%isCurrent_iff. split; simpl; [|congruence].
  intros g [?|Hx%list_elem_of_singleton]%elem_of_app; [by apply Hm|]. injection Hx as ->. lia.
Qed.
Ltac tend_set :=
  let b := fresh in let Hb := fresh in
  intros b Hb; cbv beta; try case_match; (exact Hb || (apply (tended_frame b); simpl; auto; lia)).
Ltac tend :=
  repeat first
    [ match goal with
      | |- tends (mret _) => apply tends_ret
      | |- tends get => apply tends_get
      | |- tends (lift _) => apply tends_lift
      | |- tends (interact _ _ _) => by apply tends_interact
      | |- tends (catch _ _) => apply tends_catch
      | |- tends (modify _) => apply tends_modify; tend_set
      | |- tends (_ ≫= _) => apply tends_bind; [|intros ?]
      end
    | progress cbv zeta | case_match ].

Lemma tends_transition s : tends (transition E reenter s).
Proof using Hre. unfold transition. tend. Qed.
Lemma tends_clear t : tends (clear_timeout E reenter t).
Proof using Hre. unfold clear_timeout. tend. Qed.
Lemma tends_dispose g code reason : tends (dispose E reenter g code reason).
Proof using Hre. unfold dispose, clearLiveTimer, clear_timeout, attempt_of. tend. Qed.
Lemma tends_clearController : tends (clearControllerTimer E reenter).
Proof using Hre. unfold clearControllerTimer, clear_timeout. tend. Qed.
Ltac tend_calls := repeat first [ apply tends_transition | apply tends_clear | apply tends_dispose | apply tends_clearController | progress tend ].
Lemma tends_fault l : tends (fault E reenter l).
Proof using Hre. unfold fault. tend_calls. Qed.
Lemma tends_arm delay : tends (armControllerTimer E reenter delay).
Proof using Hre. unfold armControllerTimer. tend_calls. Qed.
Lemma tends_wait : tends (wait_for_enrollment opts E reenter).
Proof using Hre. unfold wait_for_enrollment. apply tends_bind; [apply tends_transition|intros _; apply tends_arm]. Qed.
Lemma tends_schedule : tends (scheduleAfterFailure opts E reenter).
Proof using Hre.
  unfold scheduleAfterFailure, read_store. repeat first [ apply tends_fault | apply tends_wait | apply tends_arm | progress tend_calls ].
Qed.
Lemma tends_failed g code reason : tends (attemptFailed opts E reenter g code reason).
Proof using Hre. unfold attemptFailed. repeat first [ apply tends_schedule | progress tend_calls ]. Qed.
Lemma tends_armLive g : tends (armLiveTimer opts E reenter g).
Proof using Hre. unfold armLiveTimer. repeat first [ apply tends_fault | progress tend_calls ]. Qed.
Lemma tends_connect o au i : tends (connect sha256_hex opts E reenter o au i).
Proof using Hre. unfold connect. tend. Qed.
Lemma tends_begin s text : tends (begin_attempt opts E reenter s text).
Proof using Hre.
  intros b Hb. unfold begin_attempt. do 4 (wp_step; cbv beta). cbv zeta. do 6 (wp_step; cbv beta).
  match goal with |- wp _ _ _ ?x => change x with (with_attempt s text b) end.
  assert (tended (with_attempt s text b)) as Hw.
  { destruct Hb as [Hm Hs]. split; simpl.
    - intros g Hg%attach_snoc; [|done]. specialize (Hm g Hg). lia.
    - intros _ g [= <-] Hg%attach_snoc; [|done]. specialize (Hm _ Hg). lia. }
  change (generation (bump b)) with (generation b + 1)%Z.
  wp_step. eapply wp_mono; [by apply tends_transition| |done]. intros u b1 Hb1. simpl in Hb1. wp_step. wp_step. cbv beta. wp_step; [by wp_run|].
  match goal with H : negb _ = false |- _ => apply negb_false_iff in H; rename H into Hcur end.
  wp_step. eapply wp_mono; [by apply tended_interact, tended_attach| |done]. intros n b2 Hb2. simpl in Hb2.
  match goal with |- wp ?m _ _ _ => enough (tends m) as Hm by by apply Hm end.
  repeat first [ apply tends_fault | apply tends_armLive | progress tend_calls ].
Qed.
Lemma tends_drive : tends (drive sha256_hex opts E reenter).
Proof using Hre.
  unfold drive, read_store.
  repeat first [ apply tends_begin | apply tends_connect | apply tends_fault | apply tends_wait | progress tend_calls ].
Qed.
Lemma tends_dispatch g m : tends m → tends (dispatch opts E reenter g m).
Proof using Hre.
  intros Hm. unfold dispatch, transport_failed. repeat first [ exact Hm | apply tends_failed | progress tend ].
Qed.
Lemma tends_session {A} g (m : eff Resident.session exn A) : tends (on_session g m).
Proof.
  intros b Hb. unfold wp, on_session. destruct (attempts b !! g) as [a|]; [|done]. destruct (m (session a)) as [r s].
  apply (tended_frame b); simpl; auto; lia.
Qed.
Lemma tends_flush n g : tends (flush opts E reenter n g).
Proof using Hre.
  induction n as [|n IH]; simpl; [apply tends_ret|]. unfold hasCapacity, transport_failed.
  repeat first [ exact IH | apply tends_failed | progress tend ].
Qed.
(** While the controller stops, nothing is attached. *)
Lemma halted_interact a b :
  attaches a = false → stopped b = true ∧ (∀ g, AttachTo g ∈ log b → (g ≤ generation b)%Z) →
  wp (interact E reenter a) (λ _ b', stopped b' = true ∧ ∀ g, AttachTo g ∈ log b' → (g ≤ generation b')%Z) (λ _ _, False) b.
Proof using Hstop.
  intros Ha [Hs Hm]. unfold interact. wp_run. generalize (reacts E (interactions b) a). intros xs.
  assert (∀ xs b, stopped b = true → foldl (λ b x, reenter x b) b xs = b) as Hid.
  { clear -Hstop. intros xs. induction xs as [|x xs IH]; simpl; [done|]. intros b Hb. rewrite Hstop by done. by apply IH. }
  rewrite Hid by done. split; [done|]. simpl. intros g Hg%attach_snoc; [by apply Hm|done].
Qed.
Lemma tends_stop : tends (stop E reenter).
Proof using Hre Hstop.
  intros b Hb. unfold stop. wp_step. wp_step. wp_step; [by wp_run|]. do 4 (wp_step; cbv beta). wp_step.
  eapply wp_mono with (Q := λ _ b', stopped b' = true ∧ ∀ g, AttachTo g ∈ log b' → (g ≤ generation b')%Z) (X := λ _ _, False); [| |done].
  - assert (∀ g, AttachTo g ∈ log b → (g ≤ generation b + 1)%Z) as Hm by (intros g Hg%(t_made _ Hb); lia).
    unfold clearControllerTimer, clear_timeout. wp_run. case_match; [|by wp_run]. wp_run.
    eapply wp_mono; [by apply halted_interact|intros ? ? ?; by wp_run|done].
  - intros u b1 [Hs1 Hm1]. do 4 (wp_step; cbv beta).
    assert (tended (set_live None b1)) as Hb1 by (by split).
    match goal with |- wp ?m _ _ _ => enough (tends m) as Hm by by apply Hm end. tend_calls.
Qed.
Lemma tends_perform x : tends (perform sha256_hex opts E fuel reenter x).
Proof using Hre Hstop.
  destruct x as [| |g|g d binary|g|g e]; simpl.
  - unfold start. repeat first [ apply tends_drive | progress tend ].
  - apply tends_stop.
  - apply tends_dispatch. unfold on_opened, attempt_of, hasCapacity, transport_failed.
    repeat first [ apply tends_failed | progress tend_calls ].
  - apply tends_dispatch. unfold on_message, attempt_of, clearLiveTimer, attempt_of.
    repeat first [ apply tends_failed | apply tends_session | progress tend_calls ].
  - apply tends_dispatch, tends_failed.
  - apply tends_bind; [|intros ?; apply tends_ret]. unfold writeEffect.
    repeat first [ apply tends_failed | apply tends_session | apply tends_flush | progress tend ].
Qed.
Lemma tends_fire t : tends (fire sha256_hex opts E reenter t).
Proof using Hre.
  unfold fire. repeat first [ apply tends_drive | apply tends_dispatch; apply tends_failed | progress tend ].
Qed.
Lemma tends_run {A} (m : eff controller exn A) b : tends m → tended b → tended (m b).2.
Proof. intros Hm Hb. specialize (Hm b Hb). unfold wp in Hm. by destruct (m b) as [[] ?]. Qed.
End attached.

Section runs.
Context (sha256_hex : list Z → string) (opts : settings) (E : env) (fuel depth : nat).

Lemma exec_inv depth' h P x b :
  inv sha256_hex h P b →
  let b' := exec sha256_hex opts E fuel depth' x b in inv sha256_hex h P b' ∧ mono true b b'.
Proof.
  revert h P x b. induction depth' as [|d IH]; intros h P x b Hb; simpl;
    match goal with |- inv _ _ _ (perform _ _ _ _ ?re _ _).2 ∧ _ =>
      pose proof (wp_perform sha256_hex opts E fuel re ltac:(done || apply IH) h P x b Hb) as Hw end;
    unfold wp, good in Hw; by destruct (perform _ _ _ _ _ _ _) as [[] ?].
Qed.
Lemma run_snoc xs x :
  run sha256_hex opts E fuel depth (xs ++ [x])
  = take_turn sha256_hex opts E fuel depth (run sha256_hex opts E fuel depth xs) x.
Proof. unfold run. by rewrite foldl_snoc. Qed.
Lemma link_run_inv xs : inv sha256_hex (λ _, []) ∅ (run sha256_hex opts E fuel depth xs).
Proof.
  induction xs as [|x xs IH] using rev_ind.
  - split; simpl; try done; intros g; rewrite lookup_empty; by intros [? [=]] || done.
  - rewrite run_snoc. destruct x as [x|t]; simpl; [by apply exec_inv|]. apply inv_fire; [|done]. intros; by apply exec_inv.
Qed.

(** ** A stopped controller *)

Lemma perform_stopped reenter x b :
  stopped b = true → (perform sha256_hex opts E fuel reenter x b).2 = b.
Proof.
  intros Hs. assert (∀ g, isCurrent b g = false) as Hc by (intros g; apply isCurrent_false; auto).
  destruct x as [| |g|g d binary|g|g e]; simpl; unfold start, stop, dispatch, writeEffect; unfold_eff;
    rewrite ?Hs, ?Hc; try done. by destruct (attempts b !! g).
Qed.
Lemma exec_stopped_link depth' x b : stopped b = true → exec sha256_hex opts E fuel depth' x b = b.
Proof. intros Hs. destruct depth'; by apply perform_stopped. Qed.
(** Without an attempt, a call leaves the controller alone or stops it. *)
Lemma exec_quiet depth' x b :
  live b = None → started b = true →
  exec sha256_hex opts E fuel depth' x b = b ∨ stopped (exec sha256_hex opts E fuel depth' x b) = true.
Proof.
  intros Hl Hs. assert (∀ re, (∀ x b, stopped b = true → re x b = b) →
    (perform sha256_hex opts E fuel re x b).2 = b ∨ stopped (perform sha256_hex opts E fuel re x b).2 = true) as H.
  { intros re Hre. assert (∀ g, isCurrent b g = false) as Hg by (intros g; apply isCurrent_false; right; left; congruence).
    destruct x as [| |g|g d binary|g|g e]; simpl; [left|right; by apply link_stop_stops|left..];
      unfold start, dispatch, writeEffect; unfold_eff; rewrite ?Hs, ?orb_true_r, ?Hg; try done.
    simpl. by destruct (attempts b !! g). }
  destruct depth'; apply H; [done|]. intros y b' ?. by apply exec_stopped_link.
Qed.
Lemma fire_stopped reenter t b :
  stopped b = true → let b' := (fire sha256_hex opts E reenter t b).2 in stopped b' = true ∧ log b' = log b.
Proof.
  intros Hs. simpl. unfold fire. unfold_eff. destruct (timers b !! t) as [[g|g]|]; [| |done].
  - by rewrite Hs.
  - unfold dispatch. unfold_eff. rewrite isCurrent_false by auto. done.
Qed.
Lemma stays_stopped_link xs ys :
  let R := run sha256_hex opts E fuel depth in
  stopped (R xs) = true → stopped (R (xs ++ ys)) = true ∧ log (R (xs ++ ys)) = log (R xs).
Proof.
  intros R Hs. induction ys as [|y ys [H1 H2]] using rev_ind; [by rewrite app_nil_r|]. unfold R.
  rewrite app_assoc, run_snoc. fold R. destruct y as [x|t]; simpl; [by rewrite exec_stopped_link|].
  destruct (fire_stopped (exec sha256_hex opts E fuel depth) t _ H1) as [? ->]. done.
Qed.
Lemma exec_tended depth' x b : tended b → tended (exec sha256_hex opts E fuel depth' x b).
Proof.
  revert x b. induction depth' as [|d IH]; intros x b Hb; simpl; apply tends_run; try done; apply tends_perform; try done.
  intros y b' ?. by apply exec_stopped_link.
Qed.
Lemma run_tended xs : tended (run sha256_hex opts E fuel depth xs).
Proof.
  induction xs as [|x xs IH] using rev_ind; [split; simpl; [by intros g ?%elem_of_nil|done]|].
  rewrite run_snoc. destruct x as [x|t]; simpl; [by apply exec_tended|]. apply tends_run; [|done].
  apply tends_fire. intros; by apply exec_tended.
Qed.
End runs.

(** C34. Effects reach the wire in order: whatever the socket, the listeners and the
    callers do, also from within a write, the frames handed to the socket of an attempt
    are numbered 2, 3, 4, ... without gap or repetition, all of the connection of the
    attempt, each as the text the codec makes of it. *)
Theorem effects_in_order sha256_hex opts E fuel depth xs g a :
  let b := run sha256_hex opts E fuel depth xs in
  attempts b !! g = Some a →
  let ws := sent g (log b) in
  seq <$> ws.*1 = seqZ 2 (Z.of_nat (length ws))
  ∧ Forall (λ w, Protocol.connectionId w.1 = Resident.s_connectionId (session a)
                 ∧ serializeResidentFrame sha256_hex w.1 = inr w.2) ws.
Proof.
  intros b Ha ws. pose proof (i_num _ _ _ _ (link_run_inv sha256_hex opts E fuel depth xs) g a Ha) as Hn.
  rewrite app_nil_r in Hn. exact Hn.
Qed.

(** C35. Sockets are closed: every attempt but the live one was told to close its
    socket; the live attempt of a controller that was not stopped is the newest one;
    once the controller was stopped, every attempt whose handlers were attached to its
    socket was told to close it, so that the only socket that can stay open is that of
    an attempt still being made when [stop] was called from within the store, the
    random source or the socket factory, which is never attached; and a stopped controller does nothing to
    the outside any more, whatever is called and whichever timer fires. *)
Theorem sockets_closed sha256_hex opts E fuel depth xs :
  let R := run sha256_hex opts E fuel depth in
  let b := R xs in
  (∀ g, is_Some (attempts b !! g) → live b = Some g ∨ closed_in g (log b))
  ∧ (∀ g, live b = Some g → stopped b = false → isCurrent b g = true ∧ ∀ g', is_Some (attempts b !! g') → (g' ≤ g)%Z)
  ∧ (stopped b = true →
      (∀ g, is_Some (attempts b !! g) → AttachTo g ∈ log b → closed_in g (log b))
      ∧ ∀ ys, log (R (xs ++ ys)) = log b).
Proof.
  intros R b. pose proof (link_run_inv sha256_hex opts E fuel depth xs) as Hb.
  assert (∀ g, is_Some (attempts b !! g) → live b = Some g ∨ closed_in g (log b)) as Hcl.
  { intros g [?|[?|?]]%(i_closed _ _ _ _ Hb); [auto|set_solver|auto]. }
  split_and!; [done|..].
  - intros g Hl Hs. destruct (i_live _ _ _ _ Hb g Hl) as [_ Hg]. specialize (Hg Hs). subst g. split.
    + by apply isCurrent_iff.
    + by apply (i_bound _ _ _ _ Hb).
  - intros Hs. split; [|intros ys; by apply stays_stopped_link]. intros g Hg Hat.
    destruct (Hcl g Hg) as [Hl|?]; [|done].
    by destruct (t_stopped _ (run_tended sha256_hex opts E fuel depth xs) Hs g Hl).
Qed.
