(* ===== verification/GatewayLinkLive.v ===== *)
(** * The link of a resident is never stuck

    Between turns of the event loop a started controller has something to wait for: a
    live attempt that is ready or has its handshake timer, or a timer for the next
    attempt; or it has come to rest for a reason its status names. *)

From Stdlib Require Import QArith Qround.
From S2P Require Import Prelude Effects Protocol Codec Session GatewayLink GatewayLinkTheorems.
Local Open Scope list_scope.

Definition resting (s : GatewayLinkState) : Prop := s = not_configured ∨ s = configuration_error ∨ s = faulted.
Definition alive (b : controller) : Prop :=
  (∃ g a, live b = Some g ∧ attempts b !! g = Some a ∧ (a_ready a = true ∨ is_Some (timer a)))
  ∨ live b = None ∧ (is_Some (c_timer b) ∨ resting (state (current b))).
Definition settled (b : controller) : Prop := stopped b = true ∨ started b = false ∨ alive b.

(** The fields of the controller agree. *)
Record core (b : controller) : Prop := {
  k_keys : ∀ t, is_Some (timers b !! t) → t < interactions b;
  k_live : ∀ g, live b = Some g →
    g = generation b ∧ is_Some (attempts b !! g) ∧ started b = true ∧ c_timer b = None;
  k_timer : ∀ t, c_timer b = Some t → timers b !! t = Some (ControllerTimer (generation b));
  k_handshake : ∀ g a t, live b = Some g → attempts b !! g = Some a → timer a = Some t →
    timers b !! t = Some (HandshakeTimer g);
}.
Definition sound (b : controller) : Prop := stopped b = true ∨ core b.

(** What calls of the outside do to it. *)
Record tame (b b' : controller) : Prop := {
  t_settled : settled b → settled b';
  t_current : ∀ g, isCurrent b g = true → isCurrent b' g = true ∨ settled b';
  t_keys : stopped b' = true ∨ ∀ t, is_Some (timers b' !! t) → is_Some (timers b !! t) ∨ interactions b ≤ t;
  t_interactions : interactions b ≤ interactions b';
  t_stopped : stopped b = true → stopped b' = true;
}.
#[export] Instance tame_preorder : PreOrder tame.
Proof.
  split.
  - intros b. split; eauto.
  - intros b1 b2 b3 [S1 C1 K1 I1 D1] [S2 C2 K2 I2 D2]. split; [auto| |..|lia|auto].
    + intros g [Hg|?]%C1; [by apply C2|]. auto.
    + destruct K2 as [?|K2]; [by left|]. destruct K1 as [?|K1]; [left; auto|]. right. intros t [Ht|?]%K2; [|right; lia].
      by apply K1.
Qed.
Lemma tame_stopped b b' : stopped b' = true → interactions b ≤ interactions b' → tame b b'.
Proof. intros Hs Hi. split; auto; [by left|by right; left]. Qed.

(** A change that none of this looks at. *)
Record alike (b b' : controller) : Prop := {
  a_stopped : stopped b' = stopped b;
  a_started : started b' = started b;
  a_live : live b' = live b;
  a_generation : generation b' = generation b;
  a_c_timer : c_timer b' = c_timer b;
  a_timers : timers b' = timers b;
  a_state : state (current b') = state (current b);
  a_interactions : interactions b ≤ interactions b';
  a_attempts : ∀ g, match attempts b !! g, attempts b' !! g with
                    | Some a, Some a' => timer a' = timer a ∧ (a_ready a = true → a_ready a' = true)
                    | None, None => True
                    | _, _ => False
                    end;
}.
Lemma alike_core b b' : alike b b' → core b → core b'.
Proof.
  intros [Hs Ht Hl Hg Hc Hm _ Hi Ha] [K1 K2 K3 K4]. split; rewrite ?Hl, ?Hg, ?Hc, ?Hm, ?Ht.
  - intros t Hx. apply K1 in Hx. lia.
  - intros g (-> & [a Hx] & ? & ?)%K2. split_and!; try done. specialize (Ha (generation b)). rewrite Hx in Ha.
    by destruct (attempts b' !! generation b).
  - exact K3.
  - intros g a t Hg' Hx Ht'. specialize (Ha g). rewrite Hx in Ha. destruct (attempts b !! g) as [a0|] eqn:H0; [|done].
    destruct Ha as [He _]. apply (K4 g a0); [done..|congruence].
Qed.
Lemma alike_settled b b' : alike b b' → settled b → settled b'.
Proof.
  intros [Hs Ht Hl Hg Hc Hm Hst Hi Ha] [?|[?|Hal]]; unfold settled; rewrite Hs, Ht; auto. right; right.
  destruct Hal as [(g & a & Hx & Hga & Hr)|[Hx Hr]]; [left|right]; rewrite ?Hl, ?Hc, ?Hst; [|done].
  specialize (Ha g). rewrite Hga in Ha. destruct (attempts b' !! g) as [a'|] eqn:Ha'; [|done]. destruct Ha as [He Hready].
  exists g, a'. split_and!; [done..|]. rewrite He. destruct Hr; auto.
Qed.
Lemma alike_tame b b' : alike b b' → tame b b'.
Proof.
  intros Ha. split; [by apply alike_settled| | |apply Ha|by rewrite (a_stopped _ _ Ha)].
  - intros g Hg. left. revert Hg. unfold isCurrent. by rewrite (a_stopped _ _ Ha), (a_live _ _ Ha), (a_generation _ _ Ha).
  - right. rewrite (a_timers _ _ Ha). auto.
Qed.
Lemma alike_sound b b' : alike b b' → sound b → sound b'.
Proof. intros Ha [Hs|Hc]; [left; by rewrite (a_stopped _ _ Ha)|right; by eapply alike_core]. Qed.
Lemma alike_refl_attempts b (g : Z) :
  match attempts b !! g, attempts b !! g with
  | Some a, Some a' => timer a' = timer a ∧ (a_ready a = true → a_ready a' = true)
  | None, None => True
  | _, _ => False
  end.
Proof. by destruct (attempts b !! g). Qed.
Lemma alike_action b a : alike b (stepped (logged a b)).
Proof. split; simpl; try done; [lia|]. intros g. apply alike_refl_attempts. Qed.
Lemma alike_failures b n : alike b (set_failures n b).
Proof. split; simpl; try done. intros g. apply alike_refl_attempts. Qed.
(** Changes of an attempt that keep its timer. *)
Definition timed (f : LiveAttempt → LiveAttempt) : Prop :=
  ∀ a, timer (f a) = timer a ∧ (a_ready a = true → a_ready (f a) = true).
Lemma alike_on g f b : timed f → alike b (on_attempt g f b).
Proof.
  intros Hf. split; simpl; try done. intros g'. rewrite lookup_alter. destruct (decide (g = g')) as [->|?].
  - destruct (attempts b !! g'); simpl; [apply Hf|done].
  - apply alike_refl_attempts.
Qed.
#[export] Hint Extern 1 (timed _) => (intros ?; done) : elpis.

(** ** While no attempt is live, the outside can only stop the controller *)

(** What is left of [b0] in [b] whatever happened between: timers are set only under
    numbers not used before. *)
Record grown (b0 b : controller) : Prop := {
  g_keys : stopped b = true ∨ ∀ t, is_Some (timers b !! t) → is_Some (timers b0 !! t) ∨ interactions b0 ≤ t;
  g_interactions : interactions b0 ≤ interactions b;
  g_stopped : stopped b0 = true → stopped b = true;
}.
Lemma tame_grown b0 b : tame b0 b → grown b0 b.
Proof. intros []. by split. Qed.
#[export] Instance grown_preorder : PreOrder grown.
Proof.
  split.
  - intros b. by apply tame_grown.
  - intros b1 b2 b3 [K1 I1 D1] [K2 I2 D2]. split; [|lia|auto].
    destruct K2 as [?|K2]; [by left|]. destruct K1 as [?|K1]; [left; auto|]. right. intros t [Ht|?]%K2; [|right; lia].
    by apply K1.
Qed.
(** Where a computation ends that settles the controller. *)
Definition final (b0 b : controller) : Prop := sound b ∧ settled b ∧ tame b0 b.
Lemma final_grown b0 b : sound b → settled b → grown b0 b → final b0 b.
Proof. intros Hb Hs []. split_and!; [done..|]. split; auto. Qed.
Lemma final_stopped b0 b : stopped b = true → interactions b0 ≤ interactions b → final b0 b.
Proof. intros Hs Hi. split_and!; [by left|by left|by apply tame_stopped]. Qed.
Lemma final_trans b0 b b' : grown b0 b → final b b' → final b0 b'.
Proof. intros H0 (?&?&?%tame_grown). apply final_grown; [done..|by etrans]. Qed.

Record quiet (b0 b : controller) : Prop := {
  q_live : live b = None;
  q_started : started b = true;
  q_timer : c_timer b = None;
  q_keys : ∀ t, is_Some (timers b !! t) → t < interactions b;
  q_grown : grown b0 b;
}.
Definition hushed (b0 b : controller) : Prop := stopped b = true ∧ interactions b0 ≤ interactions b ∨ quiet b0 b.
Lemma quiet_core b0 b : quiet b0 b → core b.
Proof. intros [Hl Hs Ht Hk _]. split; [done|by rewrite Hl|by rewrite Ht|by rewrite Hl]. Qed.
Lemma quiet_resting b0 b : quiet b0 b → resting (state (current b)) → final b0 b.
Proof.
  intros Hq Hr. apply final_grown; [right; by eapply quiet_core| |apply Hq]. right; right; right. split; [apply Hq|by right].
Qed.
Lemma quiet_action b0 b a : quiet b0 b → quiet b0 (stepped (logged a b)).
Proof.
  intros [Hl Hs Ht Hk Hg]. split; simpl; try done; [intros t Hx; specialize (Hk t Hx); lia|].
  etrans; [done|]. apply tame_grown, alike_tame, alike_action.
Qed.
Lemma quiet_status b0 b s : quiet b0 b → quiet b0 (set_current s b).
Proof. intros [Hl Hs Ht Hk [K I D]]. by split. Qed.
(** The next attempt has its timer. *)
Definition armed (n : nat) (b : controller) : controller :=
  set_timer (Some n) (set_timers (<[ n := ControllerTimer (generation b) ]> (timers b)) b).
Lemma quiet_armed b0 b n : quiet b0 b → n < interactions b → interactions b0 ≤ n → final b0 (armed n b).
Proof.
  intros [Hl Hs Ht Hk Hg] Hn H0. apply final_grown.
  - right. split; simpl; rewrite ?Hl; try done.
    + intros t. rewrite lookup_insert_is_Some'. intros [<-|?]; auto.
    + intros t [= <-]. by rewrite lookup_insert_eq.
  - right; right; right. simpl. split; [done|left; eauto].
  - destruct Hg as [K I D]. split; simpl; [|done..]. destruct K as [?|K]; [by left|right].
    intros t. rewrite lookup_insert_is_Some'. intros [<-|?]; auto.
Qed.

Create HintDb calm.
Section methods.
Context (sha256_hex : list Z → string) (opts : settings) (E : env) (fuel : nat).
Context (reenter : call → controller → controller).
Context (Hre : ∀ x b, sound b → sound (reenter x b) ∧ tame b (reenter x b)).
Context (Hquiet : ∀ x b, live b = None → started b = true → reenter x b = b ∨ stopped (reenter x b) = true).
(** [clearTimeout] does not call back. *)
Context (Hclock : ∀ n t, reacts E n (TimerCleared t) = []).

Lemma reenter_tame xs b :
  sound b → sound (foldl (λ b x, reenter x b) b xs) ∧ tame b (foldl (λ b x, reenter x b) b xs).
Proof using Hre.
  revert b. induction xs as [|x xs IH]; intros b Hb; simpl; [done|].
  destruct (Hre x b Hb) as [H1 H2]. destruct (IH _ H1) as [H3 H4]. split; [done|by etrans].
Qed.
Lemma reenter_quiet xs b :
  core b → live b = None → started b = true →
  foldl (λ b x, reenter x b) b xs = b ∨ stopped (foldl (λ b x, reenter x b) b xs) = true.
Proof using Hre Hquiet.
  intros Hb Hl Hs. induction xs as [|x xs IH]; simpl; [by left|].
  destruct (Hquiet x b Hl Hs) as [->|Hx]; [done|]. right.
  by apply (t_stopped _ _ (proj2 (reenter_tame xs _ (or_introl Hx)))).
Qed.

(** A timer is cleared: nobody calls back. *)
Definition cleared (t : nat) (b : controller) : controller :=
  stepped (logged (TimerCleared t) (set_timers (delete t (timers b)) b)).
Lemma wp_clear_timeout t Q X b : Q tt (cleared t b) → wp (clear_timeout E reenter t) Q X b.
Proof using Hclock. intros HQ. unfold clear_timeout, interact. wp_run. simpl. rewrite Hclock. exact HQ. Qed.
Lemma quiet_cleared b0 b t : quiet b0 b → quiet b0 (cleared t b).
Proof.
  intros Hq. apply quiet_action. destruct Hq as [Q1 Q2 Q3 Q4 [K I D]]. split; simpl; try done.
  - intros t'. rewrite lookup_delete_is_Some. naive_solver.
  - split; simpl; try done. destruct K as [?|K]; [by left|right]. intros t'. rewrite lookup_delete_is_Some. naive_solver.
Qed.

(** Quiet interactions. *)
Lemma wp_quiet b0 b a (Q : nat → controller → Prop) X :
  quiet b0 b →
  (∀ n, n = interactions b → Q n (stepped (logged a b))) →
  (∀ n b', stopped b' = true → interactions b0 ≤ interactions b' → Q n b') →
  wp (interact E reenter a) Q X b.
Proof using Hre Hquiet.
  intros Hb H1 H2. unfold interact. wp_run. set (b1 := stepped (logged a b)).
  assert (core b1) as Hc by (eapply alike_core; [apply alike_action|by eapply quiet_core]).
  destruct (reenter_quiet (reacts E (interactions b) a) b1 Hc (q_live _ _ Hb) (q_started _ _ Hb)) as [->|Hs]; [by apply H1|].
  apply H2; [done|]. pose proof (t_interactions _ _ (proj2 (reenter_tame (reacts E (interactions b) a) b1 (or_intror Hc)))).
  pose proof (g_interactions _ _ (q_grown _ _ Hb)). unfold b1 in *. simpl in *. lia.
Qed.
(** Interactions in general. *)
Lemma wp_any b a (Q : nat → controller → Prop) X :
  sound b → (∀ b', sound b' → tame (stepped (logged a b)) b' → tame b b' → Q (interactions b) b') →
  wp (interact E reenter a) Q X b.
Proof using Hre.
  intros Hb HQ. unfold interact. wp_run.
  destruct (reenter_tame (reacts E (interactions b) a) (stepped (logged a b))) as [H1 H2].
  { eapply alike_sound; [apply alike_action|done]. }
  apply HQ; [done..|]. etrans; [apply alike_tame, alike_action|done].
Qed.

(** ** Quiet computations *)

Definition hushes {A} (m : eff controller exn A) : Prop :=
  ∀ b0 b, hushed b0 b → wp m (λ _, hushed b0) (λ _ _, False) b.
Lemma hushes_ret {A} (a : A) : hushes (mret a). Proof. by intros b0 b. Qed.
Lemma hushes_get : hushes get. Proof. by intros b0 b. Qed.
Lemma hushes_bind {A B} (m : eff controller exn A) (k : A → eff controller exn B) :
  hushes m → (∀ a, hushes (k a)) → hushes (m ≫= k).
Proof. intros Hm Hk b0 b Hb. apply wp_bind. eapply wp_mono; [by apply Hm| |done]. intros a b' ?. by apply Hk. Qed.
Lemma hushes_modify f :
  (∀ b, stopped (f b) = stopped b ∧ started (f b) = started b ∧ (live b = None → live (f b) = None)
        ∧ interactions (f b) = interactions b
        ∧ (c_timer b = None → c_timer (f b) = None) ∧ timers (f b) ⊆ timers b) → hushes (modify f).
Proof.
  intros Hf b0 b Hb. apply wp_modify. destruct (Hf b) as (H1 & H2 & H3 & H4 & H5 & H6).
  destruct Hb as [[Hs Hi]|[Q1 Q2 Q3 Q4 [K I D]]]; [left; by rewrite H1, H4|right].
  assert (∀ t, is_Some (timers (f b) !! t) → is_Some (timers b !! t)) as Hsub.
  { intros t [x Hx]. exists x. by eapply lookup_weaken. }
  split; rewrite ?H2, ?H4; auto. split; rewrite ?H1, ?H4; auto. destruct K; auto.
Qed.
Lemma hushes_interact a : hushes (interact E reenter a).
Proof using Hre Hquiet.
  intros b0 b [[Hs Hi]|Hq].
  - unfold interact. wp_run. left. set (b1 := stepped (logged a b)).
    destruct (reenter_tame (reacts E (interactions b) a) b1 (or_introl Hs)) as [_ Ht].
    split; [by apply (t_stopped _ _ Ht)|]. pose proof (t_interactions _ _ Ht). unfold b1 in *. simpl in *. lia.
  - apply (wp_quiet b0); [done|..].
    + intros n _. right. by apply quiet_action.
    + intros n b' ??. by left.
Qed.
Ltac hush :=
  repeat first
    [ apply hushes_ret | apply hushes_get
    | by eauto with calm
    | apply hushes_interact
    | apply hushes_modify; intros; by split_and!; simpl; try done; apply delete_subseteq
    | apply hushes_bind; [|intros ?]
    | case_match ].
Lemma hushes_transition s : hushes (transition E reenter s).
Proof using Hre Hquiet. unfold transition. hush. Qed.
Lemma hushes_clear_timeout t : hushes (clear_timeout E reenter t).
Proof using Hre Hquiet. unfold clear_timeout. hush. Qed.
Hint Resolve hushes_transition hushes_clear_timeout : calm.
Lemma hushes_clearLiveTimer g : hushes (clearLiveTimer E reenter g).
Proof using Hre Hquiet. unfold clearLiveTimer, attempt_of. hush. Qed.
Hint Resolve hushes_clearLiveTimer : calm.
Lemma hushes_dispose g code reason : hushes (dispose E reenter g code reason).
Proof using Hre Hquiet. unfold dispose, attempt_of. hush. Qed.
Lemma hushes_read_store : hushes (read_store E reenter).
Proof using Hre Hquiet. unfold read_store. hush. Qed.
Lemma hushes_connect o au i : hushes (connect sha256_hex opts E reenter o au i).
Proof using Hre Hquiet. unfold connect. hush. Qed.
Hint Resolve hushes_dispose hushes_read_store hushes_connect : calm.

(** Computations that settle a quiet controller. *)
Definition ends {A} (m : eff controller exn A) : Prop :=
  ∀ b0 b, hushed b0 b → wp m (λ _, final b0) (λ _ _, False) b.
Lemma ends_bind {A B} (m : eff controller exn A) (k : A → eff controller exn B) :
  hushes m → (∀ a, ends (k a)) → ends (m ≫= k).
Proof. intros Hm Hk b0 b Hb. apply wp_bind. eapply wp_mono; [by apply Hm| |done]. intros a b' ?. by apply Hk. Qed.
Lemma ends_transition s : resting s → ends (transition E reenter s).
Proof using Hre Hquiet.
  intros Hr b0 b Hb. unfold transition. wp_step. wp_step.
  assert (stopped b = true → final b0 b) as Hstop.
  { intros Hs. destruct Hb as [[? ?]|Hq]; apply final_stopped; try done. apply Hq. }
  wp_step; [wp_run; apply Hstop; by destruct (stopped b)|]. destruct Hb as [[Hs ?]|Hq].
  { rewrite Hs in H. apply negb_false_iff, bool_decide_eq_true in H as ->. by destruct Hr as [?|[?|?]]. }
  cbv zeta. wp_step; [wp_run; guards; apply quiet_resting; [done|]; by rewrite H0|].
  wp_step. wp_step. cbv beta. wp_step. apply (wp_quiet b0); [by apply quiet_status|..].
  - intros n _. wp_run. apply quiet_resting; [|done]. by apply quiet_action, quiet_status.
  - intros n b' ??. wp_run. by apply final_stopped.
Qed.
Lemma ends_ret_stopped b0 b (X : exn → controller → Prop) :
  stopped b = true → interactions b0 ≤ interactions b → wp (mret tt) (λ _ : (), final b0) X b.
Proof. intros ??. wp_run. by apply final_stopped. Qed.
Lemma ends_armControllerTimer d : ends (armControllerTimer E reenter d).
Proof using Hre Hquiet Hclock.
  intros b0 b Hb. unfold armControllerTimer. wp_step. wp_step. destruct Hb as [[Hs Hi]|Hq].
  { rewrite Hs. by apply ends_ret_stopped. }
  rewrite (q_timer _ _ Hq), bool_decide_eq_false_2, orb_false_r by (by intros [? ?]).
  pose proof (q_grown _ _ Hq) as [_ Hi _].
  wp_step; [by apply ends_ret_stopped|]. cbv zeta. wp_step. apply (wp_quiet b0); [done|..].
  - intros n ->. pose proof (quiet_action _ _ (TimerSet (ControllerTimer (generation b)) d) Hq) as Hq1.
    wp_step. wp_step. simpl. rewrite H, Z.eqb_refl. simpl.
    wp_step; [apply ends_transition; [by right; right|by right]|].
    wp_step.
    + wp_step. apply wp_clear_timeout. wp_step. wp_step. simpl. rewrite H, Z.eqb_refl. simpl.
      apply ends_transition; [by right; right|right; by apply quiet_cleared].
    + wp_run. by apply (quiet_armed _ _ (interactions b)) in Hq1; [|simpl; lia..].
  - intros n b' Hs' Hi'. wp_step. wp_step. rewrite Hs'. simpl. wp_step; [by apply ends_ret_stopped|].
    wp_step. apply wp_clear_timeout. wp_step. wp_step. simpl. rewrite Hs'. apply ends_ret_stopped; [done|simpl; lia].
Qed.
Hint Resolve ends_armControllerTimer : calm.
Lemma hushes_clearControllerTimer : hushes (clearControllerTimer E reenter).
Proof using Hre Hquiet. unfold clearControllerTimer. hush. Qed.
Hint Resolve hushes_clearControllerTimer : calm.
Lemma ends_wait : ends (wait_for_enrollment opts E reenter).
Proof using Hre Hquiet Hclock. unfold wait_for_enrollment. apply ends_bind; [hush|]. intros _. apply ends_armControllerTimer. Qed.
Lemma hushed_stopped b0 b : hushed b0 b → stopped b = true → final b0 b.
Proof. intros [[? ?]|Hq] Hs; apply final_stopped; try done. apply Hq. Qed.
Lemma ends_fault : ends (fault E reenter None).
Proof using Hre Hquiet.
  intros b0 b Hb. unfold fault. wp_step. wp_step. wp_step; [wp_run; by apply hushed_stopped|]. cbv iota.
  refine (ends_bind _ _ hushes_clearControllerTimer _ b0 b Hb). intros _. apply ends_bind; [hush|]. intros _.
  apply ends_transition. by right; right.
Qed.
Lemma ends_scheduleAfterFailure : ends (scheduleAfterFailure opts E reenter).
Proof using Hre Hquiet Hclock.
  intros b0 b Hb. unfold scheduleAfterFailure. wp_step. wp_step. wp_step; [wp_run; by apply hushed_stopped|].
  refine (ends_bind _ _ hushes_read_store _ b0 b Hb). intros [s|]; [|apply ends_fault].
  case_match; [apply ends_wait|]. apply ends_bind; [hush|]. intros b1. cbv zeta. apply ends_bind; [hush|]. intros n.
  apply ends_bind; [hush|]. intros _. apply ends_armControllerTimer.
Qed.

(** The live attempt is given up: a failure, a fault. *)
Lemma quiet_released b0 b : grown b0 b → core b → is_Some (live b) → quiet b0 (released b).
Proof.
  intros [K I D] [K1 K2 K3 K4] [g Hg]. destruct (K2 g Hg) as (_ & _ & Hs & Ht). by split.
Qed.
Lemma wp_failed b0 g code reason b :
  isCurrent b g = true → hushed b0 (released b) →
  wp (attemptFailed opts E reenter g code reason) (λ _, final b0) (λ _ _, False) b.
Proof using Hre Hquiet Hclock.
  intros Hg Hb. pose proof (proj1 (isCurrent_iff b g) Hg) as (Hs & _ & _). unfold attemptFailed. wp_step. wp_step.
  rewrite Hs, Hg. simpl. do 4 (wp_step; cbv beta).
  refine (ends_bind _ _ (hushes_dispose g code reason) _ b0 _ Hb). intros _.
  apply ends_bind; [hush|]. intros _. apply ends_scheduleAfterFailure.
Qed.
Lemma current_core b g : sound b → isCurrent b g = true → core b ∧ live b = Some g ∧ stopped b = false.
Proof. intros [Hs|Hc] (? & ? & ?)%isCurrent_iff; [congruence|done]. Qed.
Lemma hushed_released b g : sound b → isCurrent b g = true → hushed b (released b).
Proof. intros Hb (Hc & Hl & _)%current_core; [|done]. right. apply quiet_released; [done..|eauto]. Qed.
Lemma wp_fault_live g b :
  sound b → isCurrent b g = true ∨ settled b → wp (fault E reenter (Some g)) (λ _, final b) (λ _ _, False) b.
Proof using Hre Hquiet Hclock.
  intros Hb Hg. unfold fault. wp_step. wp_step.
  assert (isCurrent b g = false → final b b) as Hstay.
  { intros He. destruct Hg as [?|?]; [congruence|]. by split_and!. }
  wp_step; [wp_run; apply Hstay, isCurrent_false; auto|].
  wp_step; [wp_run; apply Hstay; by apply negb_true_iff|]. apply negb_false_iff in H0.
  destruct (current_core b g Hb H0) as (Hc & Hl & _). destruct (k_live _ Hc g Hl) as (_ & _ & _ & Ht).
  unfold clearControllerTimer. do 5 (wp_step; cbv beta). rewrite Ht. wp_run. cbv beta.
  eapply wp_mono; [apply (hushes_dispose g CLOSE_unavailable _ b)|intros [] b' ?; apply ends_transition; [by right; right|done]|done].
  right. destruct (quiet_released b b ltac:(done) Hc ltac:(eauto)) as [Q1 Q2 Q3 Q4 [K I D]]. by split.
Qed.
(** The handshake timer: its number is new, so clearing it clears no other timer. *)
Lemma cleared_fresh n b : timers b !! n = None → alike b (cleared n b).
Proof.
  intros Hn. split; simpl; try done; [by rewrite delete_id|lia|]. intros g. apply alike_refl_attempts.
Qed.
Lemma fresh_timer a b b' :
  sound b → tame (stepped (logged a b)) b' → stopped b' = true ∨ timers b' !! interactions b = None.
Proof.
  intros Hb Ht. destruct (t_keys _ _ Ht) as [?|Hk]; [by left|]. destruct Hb as [Hs|Hc]; [left; by apply (t_stopped _ _ Ht)|].
  right. destruct (timers b' !! interactions b) eqn:He; [|done]. exfalso.
  destruct (Hk (interactions b) ltac:(eauto)) as [Hx|Hx]; simpl in Hx; [apply (k_keys _ Hc) in Hx|]; lia.
Qed.
Lemma wp_clear_fresh a b b' Q X :
  sound b → sound b' → tame (stepped (logged a b)) b' →
  (∀ b'', sound b'' → tame b' b'' → Q tt b'') → wp (clear_timeout E reenter (interactions b)) Q X b'.
Proof using Hclock.
  intros Hb Hb' Ht HQ. apply wp_clear_timeout. destruct (fresh_timer a b b' Hb Ht) as [Hs|Hn].
  - apply HQ; [by left|apply tame_stopped; [done|simpl; lia]].
  - pose proof (cleared_fresh _ _ Hn). apply HQ; [by eapply alike_sound|by apply alike_tame].
Qed.
Definition handshake_armed (g : Z) (n : nat) (b : controller) : controller :=
  on_attempt g (set_handshake (Some n)) (set_timers (<[ n := HandshakeTimer g ]> (timers b)) b).
Lemma final_handshake b0 g n b :
  grown b0 b → core b → live b = Some g → interactions b0 ≤ n < interactions b → final b0 (handshake_armed g n b).
Proof.
  intros [K I D] Hc Hl Hn. destruct Hc as [K1 K2 K3 K4]. destruct (K2 g Hl) as (-> & [a Ha] & Hs & Ht).
  apply final_grown.
  - right. split; simpl; rewrite ?Hl, ?Ht.
    + intros t. rewrite lookup_insert_is_Some'. intros [<-|?]; [lia|auto].
    + intros g [= <-]. rewrite lookup_alter_eq, Ha. eauto.
    + done.
    + intros g a' t [= <-]. rewrite lookup_alter_eq, Ha. intros [= <-] [= <-]. by rewrite lookup_insert_eq.
  - right; right; left. exists (generation b), (set_handshake (Some n) a). simpl. rewrite lookup_alter_eq, Ha. split_and!; [done..|]. right. eauto.
  - split; simpl; [|done..]. destruct K as [?|K]; [by left|right]. intros t.
    rewrite lookup_insert_is_Some'. intros [<-|?]; [lia|auto].
Qed.
Lemma wp_armLiveTimer g b :
  sound b → isCurrent b g = true → wp (armLiveTimer opts E reenter g) (λ _, final b) (λ _ _, False) b.
Proof using Hre Hquiet Hclock.
  intros Hb Hg. unfold armLiveTimer. wp_step. wp_step. destruct (current_core b g Hb Hg) as (Hc & Hl & Hst).
  destruct (k_live _ Hc g Hl) as (_ & [a Ha] & _ & _). rewrite Ha, Hg. simpl.
  assert (a_ready a || bool_decide (is_Some (timer a)) = true → settled b) as Hset.
  { intros [?|?%bool_decide_eq_true]%orb_true_iff; right; right; left; exists g, a; auto. }
  wp_step; [wp_run; split_and!; [done|by apply Hset|done]|].
  wp_step. apply wp_any; [done|]. intros b1 Hb1 T1 T.
  pose proof (t_current _ _ T g Hg) as Hcur. pose proof (tame_grown _ _ T) as G.
  wp_step; [eapply wp_mono; [by apply wp_fault_live| |done]; intros; by eapply final_trans|].
  wp_step.
  { wp_step. apply (wp_clear_fresh _ _ _ _ _ Hb Hb1 T1). intros b2 Hb2 T2. eapply wp_mono; [apply wp_fault_live; [done|]| |done].
    - destruct Hcur as [Hcur|Hcur]; [by apply (t_current _ _ T2)|right; by apply (t_settled _ _ T2)].
    - intros [] b3 ?. eapply final_trans; [|done]. etrans; [done|by apply tame_grown]. }
  wp_step. wp_step. wp_step.
  - apply andb_true_iff in H2 as [Hg1 _]. wp_run. destruct (current_core b1 g Hb1 Hg1) as (Hc1 & Hl1 & _).
    apply (final_handshake b g (interactions b)); [done..|]. pose proof (t_interactions _ _ T1). simpl in *. lia.
  - apply (wp_clear_fresh _ _ _ _ _ Hb Hb1 T1). intros b2 Hb2 T2. apply final_grown; [done| |].
    + apply (t_settled _ _ T2). destruct Hcur as [Hcur|?]; [|done]. rewrite Hcur in H2.
      destruct (current_core b1 g Hb1 Hcur) as (Hc1 & Hl1 & _). destruct (k_live _ Hc1 g Hl1) as (_ & [a1 Ha1] & _ & _).
      rewrite Ha1 in H2. right; right; left. exists g, a1. split_and!; [done..|]. left. by destruct (a_ready a1).
    + etrans; [done|by apply tame_grown].
Qed.

(** ** A new attempt *)

Lemma core_with_attempt b0 b x text : quiet b0 b → core (with_attempt x text b) ∧ grown b0 (with_attempt x text b).
Proof.
  intros [Q1 Q2 Q3 Q4 [K I D]]. split; [|by split]. split; simpl; try done.
  - intros g [= <-]. by rewrite lookup_insert_eq; eauto.
  - by rewrite Q3.
  - intros g a t [= <-]. rewrite lookup_insert_eq. by intros [= <-].
Qed.
(** The attempt [g] is current, or the controller has settled otherwise. *)
Definition held (b0 : controller) (g : Z) (b : controller) : Prop :=
  sound b ∧ (isCurrent b g = true ∨ settled b) ∧ grown b0 b.
Lemma held_tame b0 g b b' : held b0 g b → sound b' → tame b b' → held b0 g b'.
Proof.
  intros (Hb & Hg & G) Hb' T. split_and!; [done| |etrans; [done|by apply tame_grown]].
  destruct Hg as [?|?]; [by apply (t_current _ _ T)|right; by apply (t_settled _ _ T)].
Qed.
Lemma held_final b0 g b : held b0 g b → isCurrent b g = false → final b0 b.
Proof. intros (Hb & [?|?] & G) Hg; [congruence|]. by apply final_grown. Qed.
Lemma wp_held b0 g b a (Q : nat → controller → Prop) X :
  held b0 g b → (∀ n b', held b0 g b' → Q n b') → wp (interact E reenter a) Q X b.
Proof using Hre.
  intros Hh HQ. apply wp_any; [apply Hh|]. intros b' Hb' _ T. apply HQ. by eapply held_tame.
Qed.
Lemma held_alike b0 g b b' : alike b b' → held b0 g b → held b0 g b'.
Proof. intros Ha Hh. eapply held_tame; [done|eapply alike_sound; [done|apply Hh]|by apply alike_tame]. Qed.
(** While an attempt is live the status does not matter. *)
Lemma tame_status s b g : core b → live b = Some g → core (set_current s b) ∧ tame b (set_current s b).
Proof.
  intros [K1 K2 K3 K4] Hl. split; [by split|]. split; auto.
  - intros [?|[?|[?|[? _]]]]; [by left|by right; left|by right; right; left|simpl in *; congruence].
Qed.
Lemma wp_live_transition g b s (Q : () → controller → Prop) X :
  sound b → isCurrent b g = true → (∀ b', sound b' → tame b b' → Q tt b') → wp (transition E reenter s) Q X b.
Proof using Hre.
  intros Hb Hg HQ. destruct (current_core b g Hb Hg) as (Hc & Hl & Hs). unfold transition. wp_step. wp_step.
  rewrite Hs. simpl. wp_step; [wp_run; by apply HQ|]. do 3 (wp_step; cbv beta).
  destruct (tame_status (mkStatus s (failures b)) b g Hc Hl) as [Hc' Ht]. apply wp_any; [by right|].
  intros b' Hb' _ T. wp_run. apply HQ; [done|by etrans].
Qed.
Lemma wp_held_transition b0 g b s Q X :
  held b0 g b → isCurrent b g = true → (∀ b', held b0 g b' → Q tt b') → wp (transition E reenter s) Q X b.
Proof using Hre.
  intros Hh Hg HQ. apply (wp_live_transition g); [apply Hh|done|]. intros b' ??. apply HQ. by eapply held_tame.
Qed.
Lemma held_end b0 g b (m : eff controller exn ()) : held b0 g b →
  (∀ b, sound b → isCurrent b g = true ∨ settled b → wp m (λ _ : (), final b) (λ _ _, False) b) →
  wp m (λ _, final b0) (λ _ _, False) b.
Proof.
  intros (Hb & Hg & G) Hm. eapply wp_mono; [by apply Hm| |done]. intros [] b' ?. by eapply final_trans.
Qed.
Lemma ends_begin x text : ends (begin_attempt opts E reenter x text).
Proof using Hre Hquiet Hclock.
  intros b0 b Hb. unfold begin_attempt. do 4 (wp_step; cbv beta). cbv zeta. do 6 (wp_step; cbv beta).
  match goal with |- wp _ _ _ ?y => change y with (with_attempt x text b) end.
  change (generation (bump b)) with (generation b + 1)%Z. set (g := (generation b + 1)%Z).
  destruct (stopped b) eqn:Hs.
  { assert (stopped (with_attempt x text b) = true) as Hs' by done. wp_step. unfold transition. do 2 wp_step. rewrite Hs'. simpl.
    do 3 wp_step. rewrite isCurrent_false by auto. simpl. wp_run.
    apply final_stopped; [done|]. destruct Hb as [[_ ?]|[? ? ? ? []]]; done. }
  destruct Hb as [[? ?]|Hq]; [congruence|]. destruct (core_with_attempt b0 b x text Hq) as [Hc G].
  assert (isCurrent (with_attempt x text b) g = true) as Hcur by by apply isCurrent_iff.
  wp_step. apply (wp_held_transition b0 g); [split_and!; auto; by right|done|].
  clear Hcur. intros b1 H1. wp_step. wp_step. wp_step; [wp_run; eapply held_final; [done|by apply negb_true_iff]|].
  wp_step. apply (wp_held b0 g); [done|]. intros n b2 H2. wp_step; [apply (held_end b0 g); [done|apply wp_fault_live]|].
  wp_step. eapply (wp_mono _ (λ _, held b0 g) _ (λ _ _, False)); [|clear b2 H2; intros [] b2 H2|done].
  - wp_step; [|by wp_run]. wp_step. wp_step. wp_step; [wp_run; eapply held_alike; [by apply alike_on|done]|].
    wp_step. apply (wp_held b0 g); [done|]. intros k b3 Hh3. by wp_run.
  - wp_step. wp_step. wp_step; [wp_run; eapply held_final; [done|by apply negb_true_iff]|].
    destruct H2 as (Hb2 & _ & G2). eapply wp_mono; [apply wp_armLiveTimer; [done|by apply negb_false_iff]| |done].
    intros [] b' ?. by eapply final_trans.
Qed.

(** ** Driving, starting and stopping *)

Lemma wp_drive_live b :
  sound b → stopped b = true ∨ started b = true →
  wp (drive sha256_hex opts E reenter) (λ _ b', b' = b ∧ is_Some (live b) ∨ final b b') (λ _ _, False) b.
Proof using Hre Hquiet Hclock.
  intros Hb Hst. unfold drive. wp_step. wp_step. destruct (stopped b) eqn:Hs.
  { rewrite orb_true_r. simpl. wp_run. right. by apply final_stopped. }
  destruct Hb as [?|Hc]; [congruence|]. destruct Hst as [?|Hst]; [congruence|]. rewrite Hst. simpl.
  wp_step; [wp_run; left; split; [done|]; by apply bool_decide_eq_true in H|]. apply bool_decide_eq_false in H.
  assert (live b = None) as Hl by (destruct (live b); [destruct H; eauto|done]).
  eapply (wp_mono _ (λ _, final b) _ (λ _ _, False)); [|by right|done].
  unfold clearControllerTimer. wp_step. do 4 (wp_step; cbv beta).
  assert (quiet b (set_timer None b)) as Hq by (split; simpl; [done..|apply Hc|by split; auto]).
  eapply (wp_mono _ (λ _, hushed b) _ (λ _ _, False)); [|intros [] b1 Hb1|done].
  { destruct (c_timer b); [apply hushes_clear_timeout; by right|wp_run; by right]. }
  match goal with |- wp ?m _ _ _ => enough (ends m) as Hm by by apply Hm end. clear b1 Hb1.
  repeat first
    [ apply ends_transition; by (left + (right; left) + (right; right))
    | apply ends_wait | apply ends_fault | apply ends_begin
    | apply ends_bind; [hush|intros ?]
    | case_match ].
Qed.
Lemma wp_start_live b :
  sound b → wp (start sha256_hex opts E reenter) (λ _ b', sound b' ∧ tame b b') (λ _ _, False) b.
Proof using Hre Hquiet Hclock.
  intros Hb. unfold start. wp_step. wp_step. wp_step; [by wp_run|]. apply orb_false_iff in H as [Hs Hst].
  destruct Hb as [?|Hc]; [congruence|]. wp_step. wp_step. cbv beta.
  assert (live b = None) as Hl by (destruct (live b) as [g|] eqn:He; [|done]; destruct (k_live _ Hc g He) as (_&_&?&_); congruence).
  eapply wp_mono; [apply wp_drive_live; [|by right]| |done].
  - right. destruct Hc as [K1 K2 K3 K4]. split; simpl; try done. by rewrite Hl.
  - intros [] b' [[_ [? Hx]]|Hf]; [simpl in Hx; congruence|]. apply (final_trans b) in Hf; [by destruct Hf as (?&?&?)|].
    by split; auto.
Qed.
Lemma wp_stop_live b :
  wp (stop E reenter) (λ _ b', stopped b' = true ∧ interactions b ≤ interactions b') (λ _ _, False) b.
Proof using Hre Hquiet.
  unfold stop. wp_step. wp_step. wp_step; [by wp_run|]. wp_step. wp_step. cbv beta.
  eapply (wp_mono _ (λ _, hushed (set_stopped b)) _ (λ _ _, False)); [| |done].
  - match goal with |- wp ?m _ _ _ => enough (hushes m) as Hm by (apply Hm; by left) end. hush.
  - intros [] b' [?|[? ? ? ? [K I D]]]; [done|]. split; [by apply D|done].
Qed.

(** ** Messages and writes *)

Definition tames {A} (m : eff controller exn A) : Prop :=
  ∀ b0 b, sound b → tame b0 b → wp m (λ _ b', sound b' ∧ tame b0 b') (λ _ b', sound b' ∧ tame b0 b') b.
Lemma tames_bind {A B} (m : eff controller exn A) (k : A → eff controller exn B) :
  tames m → (∀ a, tames (k a)) → tames (m ≫= k).
Proof.
  intros Hm Hk b0 b Hb H0. apply wp_bind. eapply wp_mono; [by apply (Hm b0)| |done]. intros a b' [? ?]. by apply Hk.
Qed.
Lemma tames_ret {A} (a : A) : tames (mret a). Proof. by intros b0 b. Qed.
Lemma tames_get : tames get. Proof. by intros b0 b. Qed.
Lemma tames_alike f : (∀ b, alike b (f b)) → tames (modify f).
Proof. intros Hf b0 b Hb H0. wp_run. split; [by eapply alike_sound|etrans; [done|by apply alike_tame]]. Qed.
Lemma tames_interact a : tames (interact E reenter a).
Proof using Hre. intros b0 b Hb H0. apply wp_any; [done|]. intros b' ? _ ?. split; [done|by etrans]. Qed.
Lemma tames_wp {A} (m : eff controller exn A) :
  (∀ b, sound b → wp m (λ _ b', sound b' ∧ tame b b') (λ _ _, False) b) → tames m.
Proof.
  intros Hm b0 b Hb H0. eapply wp_mono; [by apply Hm| |done]. intros a b' [? ?]. split; [done|by etrans].
Qed.
Lemma tames_attemptFailed g code reason : tames (attemptFailed opts E reenter g code reason).
Proof using Hre Hquiet Hclock.
  apply tames_wp. intros b Hb. destruct (isCurrent b g) eqn:Hg.
  - eapply wp_mono; [apply (wp_failed b); [done|by eapply hushed_released]|by intros [] b' (?&?&?)|done].
  - unfold attemptFailed. wp_step. wp_step. wp_step; [by wp_run|]. rewrite Hg. simpl. by wp_run.
Qed.
Lemma tames_lift {A} (x : exn + A) : tames (lift x).
Proof. intros b0 b Hb H0. by apply wp_lift. Qed.
Lemma tames_on_session {A} g (m : eff Resident.session exn A) : tames (on_session g m).
Proof.
  intros b0 b Hb H0. unfold wp, on_session. destruct (attempts b !! g) as [a|]; [|done].
  destruct (m (session a)) as [x s]. assert (alike b (on_attempt g (set_session s) b)) by (apply alike_on; auto with elpis).
  split; [by eapply alike_sound|etrans; [done|by apply alike_tame]].
Qed.
Hint Resolve tames_attemptFailed tames_lift tames_on_session : calm.
Ltac taming :=
  repeat first
    [ apply tames_ret | apply tames_get | by eauto with calm | apply tames_interact
    | apply tames_alike; intros ?; apply alike_on; by auto with elpis
    | apply tames_bind; [|intros ?]
    | case_match ].
Lemma tames_hasCapacity g text : tames (hasCapacity opts E reenter g text).
Proof using Hre. unfold hasCapacity. taming. Qed.
Hint Resolve tames_hasCapacity : calm.
Lemma tames_transport_failed g : tames (transport_failed opts E reenter g).
Proof using Hre Hquiet Hclock. apply tames_attemptFailed. Qed.
Hint Resolve tames_transport_failed : calm.
Lemma tames_flush n g : tames (flush opts E reenter n g).
Proof using Hre Hquiet Hclock. induction n as [|n IH]; simpl; taming. Qed.
Hint Resolve tames_flush : calm.
Lemma tames_drop g : tames (modify (λ b, if isCurrent b g then b else on_attempt g (set_queue []) b)).
Proof.
  apply tames_alike. intros b. case_match; [|apply alike_on; by auto with elpis]. split; try done. apply alike_refl_attempts.
Qed.
Hint Resolve tames_drop : calm.
Lemma tames_writeEffect g e : tames (writeEffect sha256_hex opts E fuel reenter g e).
Proof using Hre Hquiet Hclock. unfold writeEffect. taming. Qed.
Definition orderly (b0 b : controller) : Prop := sound b ∧ tame b0 b.
Lemma tames_dispatch g (m : eff controller exn ()) :
  (∀ b, sound b → isCurrent b g = true → wp m (λ _, orderly b) (λ _, orderly b) b) → tames (dispatch opts E reenter g m).
Proof using Hre Hquiet Hclock.
  intros Hm b0 b Hb H0. unfold dispatch. wp_step. wp_step. wp_step; [by wp_run|]. apply negb_false_iff in H.
  specialize (Hm b Hb H). unfold wp, catch in *. destruct (m b) as [[e|a] b']; destruct Hm as [Hb' Ht].
  - enough (tames (b ← get; if isCurrent b g then transport_failed opts E reenter g else mret tt)) as Hx.
    { apply Hx; [done|by etrans]. }
    taming.
  - split; [done|by etrans].
Qed.
Lemma wp_tames {A} (m : eff controller exn A) b0 b :
  tames m → orderly b0 b → wp m (λ _, orderly b0) (λ _, orderly b0) b.
Proof. intros Hm [? ?]. by apply Hm. Qed.
Lemma orderly_alike b b' : alike b b' → sound b → orderly b b'.
Proof. intros Ha Hb. split; [by eapply alike_sound|by apply alike_tame]. Qed.
Lemma wp_on_opened g b :
  sound b → isCurrent b g = true → wp (on_opened opts E reenter g) (λ _, orderly b) (λ _, orderly b) b.
Proof using Hre Hquiet Hclock.
  intros Hb Hg. unfold on_opened, attempt_of. do 4 wp_step. destruct (attempts b !! g) as [a|]; [|by wp_run].
  wp_step; [by apply wp_tames; [taming|]|]. wp_step. wp_step. cbv beta.
  destruct (orderly_alike b (on_attempt g set_opened b)) as [Hb1 T1]; [apply alike_on; auto with elpis|done|].
  wp_step. apply (wp_live_transition g); [done..|]. intros b2 Hb2 T2. apply wp_tames; [taming|]. split; [done|by etrans].
Qed.
(** The acknowledgement: nobody calls before the new status is told. *)
Definition acknowledged (g : Z) (t : option nat) (b : controller) : controller :=
  let b := on_attempt g (set_handshake None) (on_attempt g set_ready b) in
  set_failures 0 (match t with Some t => cleared t b | None => b end).
Lemma final_acknowledged g a b :
  core b → live b = Some g → stopped b = false → attempts b !! g = Some a →
  final b (acknowledged g (timer a) b) ∧ isCurrent (acknowledged g (timer a) b) g = true.
Proof.
  intros Hc Hl Hs Ha. destruct (k_live _ Hc g Hl) as (-> & _ & Hst & Ht). set (b' := acknowledged (generation b) (timer a) b).
  assert (live b' = Some (generation b) ∧ c_timer b' = None ∧ started b' = true ∧ stopped b' = false
    ∧ generation b' = generation b ∧ interactions b ≤ interactions b') as (E1 & E2 & E3 & E4 & E5 & E6).
  { unfold b', acknowledged. destruct (timer a); simpl; split_and!; try done; lia. }
  assert (attempts b' !! generation b = Some (set_handshake None (set_ready a))) as E7.
  { unfold b', acknowledged. destruct (timer a); simpl; by rewrite !lookup_alter_eq, Ha. }
  assert (∀ t, is_Some (timers b' !! t) → is_Some (timers b !! t)) as E8.
  { intros t. unfold b', acknowledged. destruct (timer a); simpl; [|done]. rewrite lookup_delete_is_Some. naive_solver. }
  split; [|by apply isCurrent_iff; rewrite E5]. apply final_grown.
  - right. split; rewrite ?E1, ?E2, ?E3, ?E5; try done.
    + intros t Hx%E8%(k_keys _ Hc). lia.
    + intros g [= <-]. by rewrite E7.
    + intros g a' t [= <-]. rewrite E7. by intros [= <-].
  - right; right; left. exists (generation b), (set_handshake None (set_ready a)). auto.
  - split; [|done|congruence]. right. auto.
Qed.
Lemma wp_acknowledge g b :
  sound b → isCurrent b g = true →
  wp (modify (on_attempt g set_ready);; clearLiveTimer E reenter g;; modify (set_failures 0);; transition E reenter ready)
    (λ _, orderly b) (λ _, orderly b) b.
Proof using Hre Hclock.
  intros Hb Hg. destruct (current_core b g Hb Hg) as (Hc & Hl & Hs). destruct (k_live _ Hc g Hl) as (_ & [a Ha] & _ & _).
  destruct (final_acknowledged g a b Hc Hl Hs Ha) as [(F1 & F2 & F3) Hg'].
  assert (wp (transition E reenter ready) (λ _, orderly b) (λ _, orderly b) (acknowledged g (timer a) b)) as Hw.
  { apply (wp_live_transition g); [done..|]. intros b' ??. split; [done|by etrans]. }
  wp_step. wp_step. cbv beta. wp_step. unfold clearLiveTimer, attempt_of. do 6 (wp_step; cbv beta).
  simpl. rewrite lookup_alter_eq, Ha. simpl. unfold acknowledged in Hw. destruct (timer a) as [t|].
  - apply wp_clear_timeout. wp_step. wp_step. exact Hw.
  - do 3 wp_step. exact Hw.
Qed.
Lemma wp_on_message g d binary b :
  sound b → isCurrent b g = true →
  wp (on_message sha256_hex opts E reenter g d binary) (λ _, orderly b) (λ _, orderly b) b.
Proof using Hre Hquiet Hclock.
  intros Hb Hg. unfold on_message. wp_step; [by apply wp_tames; [taming|]|].
  destruct d as [[len parsed]|]; [|by apply wp_tames; [taming|]]. wp_step; [by apply wp_tames; [taming|]|].
  wp_step. unfold wp at 1, on_session. destruct (attempts b !! g) as [a|] eqn:Ha; [|by apply wp_tames; [taming|]].
  destruct (Resident.receive _ _ _) as [x s].
  destruct (orderly_alike b (on_attempt g (set_session s) b)) as [Hb1 T1]; [apply alike_on; auto with elpis|done|].
  set (b1 := on_attempt g (set_session s) b) in *. assert (isCurrent b1 g = true) as Hg1 by done. clearbody b1.
  cbv beta. destruct x as [e|f]; [by apply wp_tames; [taming|]|]. unfold attempt_of. do 4 wp_step.
  wp_step; [|by apply wp_tames; [taming|]].
  destruct (body f); try by apply wp_tames; [taming|].
  eapply wp_mono; [by apply wp_acknowledge|..]; intros ? b' [? ?]; (split; [done|by etrans]).
Qed.
Lemma wp_perform_live x b :
  sound b → wp (perform sha256_hex opts E fuel reenter x) (λ _, orderly b) (λ _, orderly b) b.
Proof using Hre Hquiet Hclock.
  intros Hb. destruct x as [| |g|g d binary|g|g e]; simpl.
  - eapply wp_mono; [by apply wp_start_live|done..].
  - eapply wp_mono; [apply wp_stop_live| |done]. intros [] b' [? ?]. split; [by left|by apply tame_stopped].
  - apply wp_tames; [|done]. apply tames_dispatch, wp_on_opened.
  - apply wp_tames; [|done]. apply tames_dispatch. intros ???. by apply wp_on_message.
  - apply wp_tames; [|done]. apply tames_dispatch. intros ???. by apply wp_tames; [taming|].
  - apply wp_tames; [|done]. apply tames_bind; [apply tames_writeEffect|taming].
Qed.
(** ** Timers that fire *)

(** A timer nobody waits for. *)
Lemma stale_fired t b :
  sound b → settled b → stopped b = true ∨ c_timer b ≠ Some t ∧ (∀ g a, live b = Some g → attempts b !! g = Some a → timer a ≠ Some t) →
  let b' := set_timers (delete t (timers b)) b in sound b' ∧ settled b'.
Proof.
  intros Hb Hs Ht. destruct Hb as [Hb|Hc]; [split; by left|]. destruct Ht as [Ht|[Ht Hh]]; [split; by left|].
  split; [|exact Hs]. right. destruct Hc as [K1 K2 K3 K4]. split; simpl; try done.
  - intros t'. rewrite lookup_delete_is_Some. naive_solver.
  - intros t' Hx. rewrite lookup_delete_ne by congruence. auto.
  - intros g a t' Hl Ha Hx. rewrite lookup_delete_ne; [by eapply K4|]. intros <-. by eapply Hh.
Qed.
Lemma core_fired t b g :
  core b → timers b !! t = Some (ControllerTimer g) → core (set_timer None (set_timers (delete t (timers b)) b)).
Proof.
  intros [K1 K2 K3 K4] Ht. split; simpl; try done.
  - intros t'. rewrite lookup_delete_is_Some. naive_solver.
  - intros g' Hl. by destruct (K2 g' Hl) as (?&?&?&?).
  - intros g' a t' Hl Ha Hx. rewrite lookup_delete_ne; [by eapply K4|]. intros <-.
    pose proof (K4 _ _ _ Hl Ha Hx). congruence.
Qed.
Lemma wp_fire_handshake t g b :
  sound b → isCurrent b g = true →
  wp (dispatch opts E reenter g (attemptFailed opts E reenter g CLOSE_unavailable "handshake_timeout"))
    (λ _ b', sound b' ∧ settled b') (λ _ b', sound b' ∧ settled b') (set_timers (delete t (timers b)) b).
Proof using Hre Hquiet Hclock.
  intros Hb Hg. unfold dispatch. wp_step. wp_step. set (b1 := set_timers _ b). assert (isCurrent b1 g = true) as Hg1 by done.
  rewrite Hg1. simpl. destruct (current_core b g Hb Hg) as (Hc & Hl & Hs).
  destruct (quiet_released b b ltac:(done) Hc ltac:(eauto)) as [Q1 Q2 Q3 Q4 [K I D]].
  assert (hushed b (released b1)) as Hh.
  { assert (∀ t', is_Some (timers b1 !! t') → is_Some (timers b !! t')) as Hsub.
    { intros t'. simpl. rewrite lookup_delete_is_Some. naive_solver. }
    right. split; simpl; auto. split; simpl; auto. }
  pose proof (wp_failed b g CLOSE_unavailable "handshake_timeout" b1 Hg1 Hh) as Hw. unfold wp, catch in *.
  destruct (attemptFailed _ _ _ _ _ _ _) as [[] ?]; [done|]. by destruct Hw as (?&?&?).
Qed.
Lemma wp_fire_live t b :
  sound b → settled b → wp (fire sha256_hex opts E reenter t) (λ _ b', sound b' ∧ settled b') (λ _ b', sound b' ∧ settled b') b.
Proof using Hre Hquiet Hclock.
  intros Hb Hs. unfold fire. wp_step. wp_step. destruct (timers b !! t) as [[g|g]|] eqn:Ht; [| |by wp_run].
  - wp_step. wp_step. cbv beta. wp_step.
    + wp_run. apply stale_fired; [done..|]. destruct Hb as [?|Hc]; [by left|].
      apply orb_true_iff in H as [?|H]; [by left|right]. split.
      * intros Hx%(k_timer _ Hc). rewrite Ht in Hx. simplify_eq. by rewrite Z.eqb_refl in H.
      * intros g' a Hl Ha Hx. pose proof (k_handshake _ Hc _ _ _ Hl Ha Hx). congruence.
    + apply orb_false_iff in H as [Hst _]. destruct Hb as [?|Hc]; [congruence|]. wp_step. wp_step. cbv beta.
      set (b1 := set_timer None (set_timers (delete t (timers b)) b)).
      assert (core b1) as Hc1 by by eapply core_fired.
      destruct (started b) eqn:Hsd.
      * eapply wp_mono; [apply wp_drive_live; [by right|by right]| |done]. intros [] b' [[-> Hl]|(?&?&?)]; [|done].
        split; [by right|]. destruct Hs as [?|[?|[Hx|[? _]]]]; [by left|by right; left|by right; right; left|].
        destruct Hl as [? ?]. simpl in *. congruence.
      * unfold drive. wp_step. wp_step. simpl. rewrite Hsd. simpl. wp_run. split; [by right|by right; left].
  - wp_step. wp_step. cbv beta. destruct (isCurrent b g) eqn:Hg.
    + by apply wp_fire_handshake.
    + unfold dispatch. wp_step. wp_step. change (isCurrent (set_timers _ b) g) with (isCurrent b g). rewrite Hg. simpl. wp_run.
      apply stale_fired; [done..|]. destruct Hb as [?|Hc]; [by left|].
      destruct (stopped b) eqn:Hst; [by left|right]. split.
      * intros Hx%(k_timer _ Hc). congruence.
      * intros g' a Hl Ha Hx. pose proof (k_handshake _ Hc _ _ _ Hl Ha Hx). simplify_eq.
        destruct (k_live _ Hc _ Hl) as [? _]. assert (isCurrent b g = true) by by apply isCurrent_iff. congruence.
Qed.
End methods.

Section runs.
Context (sha256_hex : list Z → string) (opts : settings) (E : env) (fuel : nat).
Context (Hclock : ∀ n t, reacts E n (TimerCleared t) = []).

Lemma exec_orderly depth x b : sound b → orderly b (exec sha256_hex opts E fuel depth x b).
Proof using Hclock.
  revert x b. induction depth as [|d IH]; intros x b Hb; simpl.
  - pose proof (wp_perform_live sha256_hex opts E fuel (λ _ b, b) ltac:(done) ltac:(auto) Hclock x b Hb) as Hw.
    unfold wp in Hw. by destruct (perform _ _ _ _ _ _ _) as [[] ?].
  - pose proof (wp_perform_live sha256_hex opts E fuel (exec sha256_hex opts E fuel d) IH (exec_quiet sha256_hex opts E fuel d)
      Hclock x b Hb) as Hw.
    unfold wp in Hw. by destruct (perform _ _ _ _ _ _ _) as [[] ?].
Qed.
Lemma link_settled depth xs :
  let b := run sha256_hex opts E fuel depth xs in sound b ∧ settled b.
Proof using Hclock.
  induction xs as [|x xs [IH1 IH2]] using rev_ind; simpl.
  - split; [right|by right; left]. split; simpl; try done. intros t [? ?]. done.
  - rewrite run_snoc. pose proof (exec_orderly depth) as He1. destruct x as [x|t]; simpl.
    + destruct (He1 x _ IH1) as [? Ht]. split; [done|by apply (t_settled _ _ Ht)].
    + pose proof (wp_fire_live sha256_hex opts E _ He1 (exec_quiet sha256_hex opts E fuel depth) Hclock t _ IH1 IH2) as Hw.
      unfold wp in Hw. by destruct (fire _ _ _ _ _ _) as [[] ?].
Qed.
End runs.

(** C36. The link is never stuck: with a clock whose [clearTimeout] does not call back,
    after any turns of the event loop, whatever the store, the socket and the listeners
    do, a controller that was started and not stopped waits for something that will
    come.  Its live attempt is ready, or its handshake timer is pending; without a live
    attempt the timer of the next one is pending, for the current generation, unless the
    status says why there is none: not configured, a wrong configuration, a fault. *)
Theorem never_stuck sha256_hex opts E fuel depth xs :
  (∀ n t, reacts E n (TimerCleared t) = []) →
  let b := run sha256_hex opts E fuel depth xs in
  started b = true → stopped b = false →
  match live b with
  | Some g => ∃ a, attempts b !! g = Some a
      ∧ (a_ready a = true ∨ ∃ t, timer a = Some t ∧ timers b !! t = Some (HandshakeTimer g))
  | None => (∃ t, c_timer b = Some t ∧ timers b !! t = Some (ControllerTimer (generation b)))
      ∨ state (current b) ∈ [not_configured; configuration_error; faulted]
  end.
Proof.
  intros Hclock b Hst Hs. destruct (link_settled sha256_hex opts E fuel Hclock depth xs) as [[?|Hc] Hset]; [unfold b in *; congruence|].
  fold b in Hc, Hset. destruct Hset as [?|[?|[(g & a & Hl & Ha & Hr)|[Hl Hr]]]]; [congruence..| |]; rewrite Hl.
  - exists a. split; [done|]. destruct Hr as [?|[t Ht]]; [by left|right]. exists t. split; [done|]. by apply (k_handshake _ Hc _ a).
  - destruct Hr as [[t Ht]|Hr]; [left|right].
    + exists t. split; [done|]. by apply (k_timer _ Hc).
    + unfold resting in Hr. set_solver.
Qed.

(** * The delays of the link of a resident

    What the controller asks of its clock and tells its listeners is in bounds: the
    delay before the next attempt never busy-loops and never exceeds its cap. *)

Local Open Scope Z_scope.

(** ** The delay *)

Lemma jitter_bounds q : (0 <= jitter q)%Q ∧ (jitter q < 1)%Q.
Proof.
  destruct q as [q|]; simpl; [|done]. destruct (Qle_bool 0 q) eqn:H0; simpl; [|done].
  destruct (Qle_bool 1 q) eqn:H1; simpl; [done|]. split; [by apply Qle_bool_iff|].
  apply Qnot_le_lt. intros H%Qle_bool_iff. congruence.
Qed.
Lemma retry_ceiling_bounds opts n :
  1 ≤ n → 1 ≤ retryBaseMs opts ≤ retryMaxMs opts → retryBaseMs opts ≤ retry_ceiling opts n ≤ retryMaxMs opts.
Proof.
  intros Hn Hb. unfold retry_ceiling. assert (1 ≤ 2 ^ Z.min (n - 1) 30).
  { replace 1 with (2 ^ 0) by done. apply Z.pow_le_mono_r; lia. }
  nia.
Qed.
(** Equal jitter: at least half the ceiling, at most the ceiling. *)
Lemma retry_delay_bounds c q :
  1 ≤ c → (0 <= q)%Q → Z.max 1 (c / 2) ≤ retry_delay c q ≤ c.
Proof.
  intros Hc Hq. unfold retry_delay. assert (c / 2 ≤ Qfloor ((c # 2) + q * inject_Z ((c + 1) / 2))) as Hf.
  { rewrite <-(Qfloor_Z (c / 2)). apply Qfloor_resp_le.
    apply Qle_trans with (c # 2)%Q.
    - unfold Qle, inject_Z. simpl. pose proof (Z.mul_div_le c 2). lia.
    - rewrite <-(Qplus_0_r (c # 2)) at 1. apply Qplus_le_r. apply Qmult_le_0_compat; [done|].
      unfold Qle, inject_Z. simpl. pose proof (Z.div_pos (c + 1) 2). lia. }
  pose proof (Z.div_le_upper_bound c 2 c). lia.
Qed.

(** ** What may be logged *)

Section bounds.
Context (sha256_hex : list Z → string) (opts : settings) (E : env) (fuel : nat).
Context (reenter : call → controller → controller).
Context (Hopts : 1 ≤ retryBaseMs opts ≤ retryMaxMs opts).

Definition shortest : Z := Z.min (enrollmentPollMs opts) (Z.max 1 (retryBaseMs opts / 2)).
Definition longest : Z := Z.max (enrollmentPollMs opts) (retryMaxMs opts).
Definition allowed (a : action) : Prop :=
  match a with
  | TimerSet (ControllerTimer _) d => shortest ≤ d ≤ longest
  | TimerSet (HandshakeTimer _) d => d = handshakeTimeoutMs opts
  | Status s => 0 ≤ status_failures s ≤ MAX_FAILURES
  | _ => True
  end.
(** [began]: whether the controller is known to have started. *)
Record bounded (began : bool) (b : controller) : Prop := {
  b_log : Forall allowed (log b);
  b_failures : 0 ≤ failures b ≤ MAX_FAILURES;
  b_current : 0 ≤ status_failures (current b) ≤ MAX_FAILURES;
  b_live : is_Some (live b) → started b = true;
  b_started : began = true → started b = true;
}.
Context (Hre : ∀ s x b, bounded s b → bounded s (reenter x b)).
Context (Hquiet : ∀ x b, live b = None → started b = true → reenter x b = b ∨ stopped (reenter x b) = true).
Context (Hstop : ∀ x b, stopped b = true → reenter x b = b).

Definition bounds {A} (m : eff controller exn A) : Prop :=
  ∀ s b, bounded s b → wp m (λ _, bounded s) (λ _, bounded s) b.
Lemma bounds_ret {A} (a : A) : bounds (mret a). Proof. by intros s b. Qed.
Lemma bounds_get : bounds get. Proof. by intros s b. Qed.
Lemma bounds_lift {A} (x : exn + A) : bounds (lift x). Proof. intros s b Hb. by apply wp_lift. Qed.
Lemma bounds_bind {A B} (m : eff controller exn A) (k : A → eff controller exn B) :
  bounds m → (∀ a, bounds (k a)) → bounds (m ≫= k).
Proof. intros Hm Hk s b Hb. apply wp_bind. eapply wp_mono; [by apply (Hm s)| |done]. intros a b' ?. by apply Hk. Qed.
Lemma bounds_modify f :
  (∀ b, 0 ≤ failures b ≤ MAX_FAILURES → log (f b) = log b ∧ current (f b) = current b ∧ 0 ≤ failures (f b) ≤ MAX_FAILURES
    ∧ (started b = true → started (f b) = true) ∧ (is_Some (live (f b)) → is_Some (live b))) → bounds (modify f).
Proof.
  intros Hf s b [B1 B2 B3 B4 B5]. wp_run. destruct (Hf b B2) as (H1 & H2 & H3 & H4 & H5). split; rewrite ?H1, ?H2; auto.
Qed.
Lemma bounded_action s a b : allowed a → bounded s b → bounded s (stepped (logged a b)).
Proof. intros Ha []. split; simpl; try done. apply Forall_app. split; [done|by constructor]. Qed.
Lemma bounded_reenter s xs b : bounded s b → bounded s (foldl (λ b x, reenter x b) b xs).
Proof using Hre. revert b. induction xs as [|x xs IH]; simpl; auto. Qed.
Lemma bounds_interact a : allowed a → bounds (interact E reenter a).
Proof using Hre. intros Ha s b Hb. unfold interact. wp_run. by apply bounded_reenter, bounded_action. Qed.
Create HintDb limits.
Hint Resolve bounds_lift : limits.
Ltac limit :=
  repeat first
    [ apply bounds_ret | apply bounds_get | by eauto with limits
    | apply bounds_interact; simpl; done
    | apply bounds_modify; intros ? ?; repeat case_match; simpl; split_and!;
      (done || by intros [? ?] || (unfold MAX_FAILURES in *; lia))
    | apply bounds_bind; [|intros ?]
    | case_match ].
Lemma bounds_transition s : bounds (transition E reenter s).
Proof using Hre.
  intros began b Hb. unfold transition. wp_step. wp_step. wp_step; [by wp_run|]. cbv zeta. wp_step; [by wp_run|].
  do 3 (wp_step; cbv beta). destruct Hb as [B1 B2 B3 B4 B5].
  eapply wp_mono; [apply (bounds_interact (Status (mkStatus s (failures b))) B2 began); by split|intros n b' ?; by wp_run|done].
Qed.
Hint Resolve bounds_transition : limits.
Lemma bounds_clear_timeout t : bounds (clear_timeout E reenter t).
Proof using Hre. unfold clear_timeout. limit. Qed.
Hint Resolve bounds_clear_timeout : limits.
Lemma bounds_clearControllerTimer : bounds (clearControllerTimer E reenter).
Proof using Hre. unfold clearControllerTimer. limit. Qed.
Lemma bounds_clearLiveTimer g : bounds (clearLiveTimer E reenter g).
Proof using Hre. unfold clearLiveTimer, attempt_of. limit. Qed.
Hint Resolve bounds_clearControllerTimer bounds_clearLiveTimer : limits.
Lemma bounds_dispose g code reason : bounds (dispose E reenter g code reason).
Proof using Hre. unfold dispose, attempt_of. limit. Qed.
Hint Resolve bounds_dispose : limits.
Lemma bounds_fault l : bounds (fault E reenter l).
Proof using Hre. unfold fault. limit. Qed.
Hint Resolve bounds_fault : limits.
Lemma bounds_armControllerTimer d : shortest ≤ d ≤ longest → bounds (armControllerTimer E reenter d).
Proof using Hre. intros Hd. unfold armControllerTimer. limit. Qed.
Lemma bounds_read_store : bounds (read_store E reenter).
Proof using Hre. unfold read_store. limit. Qed.
Lemma bounds_wait : bounds (wait_for_enrollment opts E reenter).
Proof using Hre.
  unfold wait_for_enrollment. apply bounds_bind; [limit|]. intros _. apply bounds_armControllerTimer.
  unfold shortest, longest. lia.
Qed.
Hint Resolve bounds_read_store bounds_wait : limits.

(** ** After a failure *)

(** At least [n] failures are counted and nobody can undo that before the timer is set;
    [halted]: whether the controller is known to be stopped. *)
Definition counted (halted : bool) (n : Z) (s : bool) (b : controller) : Prop :=
  bounded s b ∧ (stopped b = true ∨ halted = false ∧ live b = None ∧ started b = true ∧ n ≤ failures b).
Lemma reenter_counted h n s xs b : counted h n s b → counted h n s (foldl (λ b x, reenter x b) b xs).
Proof using Hre Hquiet Hstop.
  intros [Hb Hc]. split; [by apply bounded_reenter|]. clear Hb. revert b Hc.
  induction xs as [|x xs IH]; intros b Hc; simpl; [done|]. apply IH.
  destruct Hc as [?|(H0 & H1 & H2 & H3)]; [left; by rewrite Hstop|]. destruct (Hquiet x b H1 H2) as [->|?]; auto.
Qed.
Definition counts {A} (m : eff controller exn A) : Prop :=
  ∀ h n s b, counted h n s b → wp m (λ _, counted h n s) (λ _ _, False) b.
Lemma counts_ret {A} (a : A) : counts (mret a). Proof. by intros h n s b. Qed.
Lemma counts_get : counts get. Proof. by intros h n s b. Qed.
Lemma counts_bind {A B} (m : eff controller exn A) (k : A → eff controller exn B) :
  counts m → (∀ a, counts (k a)) → counts (m ≫= k).
Proof. intros Hm Hk h n s b Hb. apply wp_bind. eapply wp_mono; [by apply Hm| |done]. intros a b' ?. by apply Hk. Qed.
Lemma counts_modify f :
  (∀ b, log (f b) = log b ∧ current (f b) = current b ∧ failures (f b) = failures b ∧ live (f b) = live b
        ∧ started (f b) = started b ∧ stopped (f b) = stopped b) → counts (modify f).
Proof.
  intros Hf h n s b [[B1 B2 B3 B4 B5] Hc]. wp_run. destruct (Hf b) as (H1 & H2 & H3 & H4 & H5 & H6).
  split; [split|]; rewrite ?H1, ?H2, ?H3, ?H4, ?H5, ?H6; auto.
Qed.
Lemma counts_interact a : allowed a → counts (interact E reenter a).
Proof using Hre Hquiet Hstop.
  intros Ha h n s b [Hb Hc]. unfold interact. wp_run. apply reenter_counted. split; [by apply bounded_action|done].
Qed.
Ltac count :=
  repeat first
    [ apply counts_ret | apply counts_get | by eauto with limits
    | apply counts_interact; simpl; done
    | apply counts_modify; intros ?; simpl; by split_and!
    | apply counts_bind; [|intros ?]
    | case_match ].
Lemma counts_transition st : counts (transition E reenter st).
Proof using Hre Hquiet Hstop.
  intros h n s b Hc. unfold transition. wp_step. wp_step. wp_step; [by wp_run|]. cbv zeta. wp_step; [by wp_run|].
  do 3 (wp_step; cbv beta). destruct Hc as [[B1 B2 B3 B4 B5] Hc].
  eapply wp_mono; [apply (counts_interact (Status (mkStatus st (failures b))) B2 h n s)|intros k b' ?; by wp_run|done].
  split; [by split|done].
Qed.
Hint Resolve counts_transition : limits.
Lemma counts_dispose g code reason : counts (dispose E reenter g code reason).
Proof using Hre Hquiet Hstop. unfold dispose, clearLiveTimer, attempt_of, clear_timeout. count. Qed.
Lemma wp_arm h n s d b :
  counted h n s b → (h = false → shortest ≤ d ≤ longest) →
  wp (armControllerTimer E reenter d) (λ _, bounded s) (λ _, bounded s) b.
Proof using Hre.
  intros [Hb Hc] Hd. destruct h; [|apply bounds_armControllerTimer; auto].
  unfold armControllerTimer. wp_step. wp_step. destruct Hc as [->|[? _]]; [|done]. by wp_run.
Qed.
Lemma retry_allowed n q : 1 ≤ n → shortest ≤ retry_delay (retry_ceiling opts n) (jitter q) ≤ longest.
Proof using Hopts.
  intros Hf. pose proof (retry_ceiling_bounds opts _ Hf Hopts). destruct (jitter_bounds q) as [Hj _].
  pose proof (retry_delay_bounds (retry_ceiling opts n) _ ltac:(lia) Hj). unfold shortest, longest.
  pose proof (Z.div_le_mono (retryBaseMs opts) (retry_ceiling opts n) 2). lia.
Qed.
Lemma wp_counts {A} (m : eff controller exn A) h n s Q b :
  counts m → counted h n s b → (∀ a b', counted h n s b' → Q a b') → wp m Q (λ _, bounded s) b.
Proof. intros Hm Hb HQ. by eapply wp_mono; [apply Hm|..]. Qed.
Lemma wp_schedule s b :
  counted false 1 s b → wp (scheduleAfterFailure opts E reenter) (λ _, bounded s) (λ _, bounded s) b.
Proof using Hre Hquiet Hstop Hopts.
  intros Hc. unfold scheduleAfterFailure, read_store. wp_step. wp_step. wp_step; [wp_run; apply Hc|]. wp_step. wp_step.
  apply (wp_counts _ false 1); [count|done|]. intros n b1 Hc1. wp_step.
  destruct (store E n) as [snap|]; [|apply bounds_fault, Hc1]. wp_step; [apply bounds_wait, Hc1|].
  wp_step. wp_step. cbv zeta.
  assert (∃ h, counted h 1 s b1 ∧ (h = false → 1 ≤ failures b1)) as (h & Hc2 & Hf).
  { destruct Hc1 as [Hb1 [Hs|(_ & H1)]]; [exists true|exists false]; (split; [split; auto|]); [done|naive_solver]. }
  wp_step. apply (wp_counts _ h 1); [count|done|]. intros k b2 Hb2. wp_step. apply (wp_counts _ h 1); [count|done|].
  intros [] b3 Hb3. apply (wp_arm h 1); [done|]. intros Hh. by apply retry_allowed, Hf.
Qed.
Lemma bounds_attemptFailed g code reason : bounds (attemptFailed opts E reenter g code reason).
Proof using Hre Hquiet Hstop Hopts.
  intros s b [B1 B2 B3 B4 B5]. unfold attemptFailed. wp_step. wp_step. wp_step; [by wp_run|]. wp_step; [by wp_run|].
  apply negb_false_iff, isCurrent_iff in H0 as (_ & Hl & _). do 5 (wp_step; cbv beta).
  apply (wp_counts _ false 0 s); [apply counts_dispose| |].
  { split; [split; simpl; try done; by intros [? ?]|]. right. split_and!; [done..|apply B4; eauto|apply B2]. }
  intros [] b1 [[C1 C2 C3 C4 C5] Hc]. wp_step. wp_step. cbv beta. apply wp_schedule. unfold MAX_FAILURES in *.
  split; [split; simpl; auto; unfold MAX_FAILURES; lia|]. destruct Hc as [?|(?&?&?&?)]; [by left|right]. simpl. split_and!; auto; unfold MAX_FAILURES; lia.
Qed.
Hint Resolve bounds_attemptFailed : limits.

(** ** The other methods *)

Lemma bounds_transport_failed g : bounds (transport_failed opts E reenter g).
Proof using Hre Hquiet Hstop Hopts. apply bounds_attemptFailed. Qed.
Hint Resolve bounds_transport_failed : limits.
Lemma bounds_hasCapacity g text : bounds (hasCapacity opts E reenter g text).
Proof using Hre. unfold hasCapacity. limit. Qed.
Lemma bounds_armLiveTimer g : bounds (armLiveTimer opts E reenter g).
Proof using Hre. unfold armLiveTimer. limit. Qed.
Hint Resolve bounds_hasCapacity bounds_armLiveTimer : limits.
Lemma bounds_on_session {A} g (m : eff Resident.session exn A) : bounds (on_session g m).
Proof.
  intros s b [B1 B2 B3 B4 B5]. unfold wp, on_session. destruct (attempts b !! g); [|by split].
  destruct (m _). by split.
Qed.
Lemma bounds_connect o au i : bounds (connect sha256_hex opts E reenter o au i).
Proof using Hre. unfold connect. limit. Qed.
Hint Resolve @bounds_on_session bounds_connect : limits.
Lemma bounds_on_opened g : bounds (on_opened opts E reenter g).
Proof using Hre Hquiet Hstop Hopts. unfold on_opened, attempt_of. limit. Qed.
Lemma bounds_on_message g d binary : bounds (on_message sha256_hex opts E reenter g d binary).
Proof using Hre Hquiet Hstop Hopts. unfold on_message, attempt_of. limit. Qed.
Lemma bounds_flush n g : bounds (flush opts E reenter n g).
Proof using Hre Hquiet Hstop Hopts. induction n as [|n IH]; simpl; limit. Qed.
Hint Resolve bounds_on_opened bounds_on_message bounds_flush : limits.
Lemma bounds_writeEffect g e : bounds (writeEffect sha256_hex opts E fuel reenter g e).
Proof using Hre Hquiet Hstop Hopts. unfold writeEffect. limit. Qed.
Lemma bounds_dispatch g (m : eff controller exn ()) : bounds m → bounds (dispatch opts E reenter g m).
Proof using Hre Hquiet Hstop Hopts.
  intros Hm. unfold dispatch. apply bounds_bind; [limit|]. intros b1. case_match; [limit|].
  intros s b Hb. specialize (Hm s b Hb). unfold wp, catch in *. destruct (m b) as [[e|a] b']; [|done].
  enough (bounds (b ← get; if isCurrent b g then transport_failed opts E reenter g else mret tt)) as Hx by by apply Hx.
  limit.
Qed.
Hint Resolve bounds_writeEffect bounds_dispatch : limits.

(** A new attempt begins only after the start. *)
Definition begins {A} (m : eff controller exn A) : Prop :=
  ∀ b, bounded true b → wp m (λ _, bounded true) (λ _, bounded true) b.
Lemma bounds_begins {A} (m : eff controller exn A) : bounds m → begins m.
Proof. intros Hm b Hb. by apply Hm. Qed.
Lemma begins_bind {A B} (m : eff controller exn A) (k : A → eff controller exn B) :
  bounds m → (∀ a, begins (k a)) → begins (m ≫= k).
Proof. intros Hm Hk b Hb. apply wp_bind. eapply wp_mono; [by apply Hm| |done]. intros a b' ?. by apply Hk. Qed.
Lemma begins_attempt x text : begins (begin_attempt opts E reenter x text).
Proof using Hre.
  intros b [B1 B2 B3 B4 B5]. unfold begin_attempt. do 4 (wp_step; cbv beta). cbv zeta. do 6 (wp_step; cbv beta).
  match goal with |- wp ?m _ _ ?y => change y with (with_attempt x text b); enough (bounds m) as Hm end.
  { apply Hm. split; simpl; auto. apply Forall_app. split; [done|by constructor]. }
  limit.
Qed.
Lemma bounds_drive : bounds (drive sha256_hex opts E reenter).
Proof using Hre.
  intros s b Hb. unfold drive. wp_step. wp_step. wp_step; [by wp_run|]. apply orb_false_iff in H as [[Hs _]%orb_false_iff _].
  apply negb_false_iff in Hs. assert (bounded true b) as Ht by by destruct Hb; split.
  eapply (wp_mono _ (λ _, bounded true) _ (λ _, bounded true)).
  2,3: by intros ? b' []; split; auto.
  match goal with |- wp ?m _ _ _ => enough (begins m) as Hm by by apply Hm end.
  repeat first
    [ apply begins_attempt | apply bounds_begins; by limit | apply begins_bind; [by limit|intros ?] | case_match ].
Qed.
Hint Resolve bounds_drive : limits.
Lemma bounds_perform x : bounds (perform sha256_hex opts E fuel reenter x).
Proof using Hre Hquiet Hstop Hopts. destruct x; simpl; unfold start, stop; limit. Qed.
Lemma bounds_fire t : bounds (fire sha256_hex opts E reenter t).
Proof using Hre Hquiet Hstop Hopts. unfold fire. limit. Qed.
End bounds.

(** ** Runs *)

Section runs.
Context (sha256_hex : list Z → string) (opts : settings) (E : env) (fuel : nat).
Context (Hopts : 1 ≤ retryBaseMs opts ≤ retryMaxMs opts).

Lemma exec_bounded depth s x b : bounded opts s b → bounded opts s (exec sha256_hex opts E fuel depth x b).
Proof using Hopts.
  revert s x b. induction depth as [|d IH]; intros s x b Hb; simpl.
  - pose proof (bounds_perform sha256_hex opts E fuel (λ _ b, b) Hopts ltac:(done) ltac:(auto) ltac:(done) x s b Hb) as Hw.
    unfold wp in Hw. by destruct (perform _ _ _ _ _ _ _) as [[] ?].
  - pose proof (bounds_perform sha256_hex opts E fuel (exec sha256_hex opts E fuel d) Hopts IH (exec_quiet sha256_hex opts E fuel d)
      (exec_stopped_link sha256_hex opts E fuel d) x s b Hb) as Hw.
    unfold wp in Hw. by destruct (perform _ _ _ _ _ _ _) as [[] ?].
Qed.
Lemma run_bounded depth xs : bounded opts false (run sha256_hex opts E fuel depth xs).
Proof using Hopts.
  induction xs as [|x xs IH] using rev_ind; [split; simpl; by (done || intros [? ?])|]. rewrite run_snoc. destruct x as [x|t]; simpl; [by apply exec_bounded|].
  pose proof (bounds_fire sha256_hex opts E _ Hopts (exec_bounded depth) (exec_quiet sha256_hex opts E fuel depth)
    (exec_stopped_link sha256_hex opts E fuel depth) t false _ IH) as Hw.
  unfold wp in Hw. by destruct (fire _ _ _ _ _ _) as [[] ?].
Qed.
End runs.

(** Validated options. *)
Lemma boundedPositive_bounds v d z : boundedPositive v d = inr z → 1 ≤ z ≤ 86400000.
Proof.
  unfold boundedPositive, type_error, mbind, sum_bind, mret, sum_ret. destruct (_ || _) eqn:He; [done|]. intros [= <-].
  apply orb_false_iff in He as [[_ ?%Z.ltb_ge]%orb_false_iff ?%Z.ltb_ge]. lia.
Qed.
Lemma construct_bounds sha256_hex canonicalOrigin o opts :
  construct sha256_hex canonicalOrigin o = inr opts →
  1 ≤ retryBaseMs opts ≤ retryMaxMs opts ∧ retryMaxMs opts ≤ 86400000
  ∧ 1 ≤ enrollmentPollMs opts ≤ 86400000 ∧ 1 ≤ handshakeTimeoutMs opts ≤ 86400000.
Proof.
  unfold construct, mbind, sum_bind, mret, sum_ret. destruct (type_error _); [done|].
  destruct (createResidentHello _ _ _ _ _ _ _) as [|f]; [done|].
  repeat match goal with |- context [boundedPositive ?v ?d] =>
    let H := fresh "H" in destruct (boundedPositive v d) eqn:H; [done|]; apply boundedPositive_bounds in H end.
  unfold type_error. destruct (_ <? _) eqn:Hlt; [done|]. apply Z.ltb_ge in Hlt.
  destruct (body f); try done. intros [= <-]. simpl. lia.
Qed.

(** C37. Waiting is bounded: with any options the constructor accepts, whatever the
    outside does, every delay until the next attempt or poll is at least 1 ms and at
    least half the base delay or the poll interval, so a link that keeps failing never
    busy-loops; it is never longer than the cap or the poll interval, so never longer
    than a day; every handshake gets its configured time; and the reported number of
    failures stays between 0 and 31. *)
Theorem waits_bounded sha256_hex canonicalOrigin o opts E fuel depth xs :
  construct sha256_hex canonicalOrigin o = inr opts →
  let b := run sha256_hex opts E fuel depth xs in
  Forall (λ a, match a with
               | TimerSet (ControllerTimer _) d =>
                   Z.min (enrollmentPollMs opts) (Z.max 1 (retryBaseMs opts / 2)) ≤ d
                   ≤ Z.max (enrollmentPollMs opts) (retryMaxMs opts) ∧ 1 ≤ d ≤ 24 * 60 * 60 * 1000
               | TimerSet (HandshakeTimer _) d => d = handshakeTimeoutMs opts
               | Status s => 0 ≤ status_failures s ≤ MAX_FAILURES
               | _ => True
               end) (log b).
Proof.
  intros Ho b. destruct (construct_bounds _ _ _ _ Ho) as (H1 & H2 & H3 & _).
  eapply Forall_impl; [apply (b_log _ _ _ (run_bounded sha256_hex opts E fuel H1 depth xs))|].
  intros a Ha. destruct a as [| | | | | | | | | | | | | | |[] d|]; try done. simpl in Ha. unfold shortest, longest in Ha. lia.
Qed.
