(* ===== verification/GatewayLinkExamples.v ===== *)
(** * A link of a resident at work *)

From Stdlib Require Import QArith.
From S2P Require Import Prelude Effects Protocol Codec Session Wire Handshake GatewayLink GatewayLinkTheorems GatewayLinkLive.
Import Handshake.Example.
Local Open Scope string_scope.
Local Open Scope Z_scope.
Local Open Scope list_scope.

Module LinkExample.
Definition origin : string := "https://gateway.example".
Definition token : string := "egc1.AAAAAAAAAAAAAAAAAAAAAA.AAAAAAAAAAAAAAAAAAAAAAAAAAAAAAAAAAAAAAAAAAA".
Definition options : link_options :=
  mkOptions (Some (Some origin)) who build (Some CAPABILITIES) None None None None None.
Definition opts : settings := mkSettings (Some origin) false who build CAPABILITIES LIMITS_frameBytes 10000 1000 1000 30000.
Definition snapshot : Snapshot := mkSnapshot active instance (Some origin) (Some "egn1.AAAAAAAAAAAAAAAAAAAAAA").
(** Everything works; what the outside does from within an interaction is given. *)
Definition calm (reacts : nat → action → list call) : env := {|
  returns := λ _, true;
  store := λ _, Some snapshot;
  GatewayLink.token := λ _, Some token;
  entropy := λ _, Some (repeat 0 16);
  random := λ _, Some (1 # 4)%Q;
  buffered := λ _, Some (Some 0);
  gives_detach := λ _, true;
  fires := λ _, false;
  GatewayLink.reacts := reacts;
|}.
Definition quiet_env : env := calm (λ _ _, []).
Definition received (f : frame GatewayBody) : call := OnMessage 1 (Some (100, Some (gateway_json f))) false.
Definition handshake : list turn := [Call Start; Call (OnOpen 1); Call (received ack)].
Definition opened_viewer : list turn :=
  handshake ++ [Call (received (mkFrame connection 2 (ViewerOp viewer_open request viewer)));
                Call (Write 1 (EOperation request viewer viewer_open None))].
(** A socket that writes output from within [sendText]. *)
Definition talkative : env :=
  calm (λ _ a, match a with
               | SendEffect 1 (f, _) => if seq f =? 3 then [Write 1 (EConsole viewer "b"); Write 1 (EConsole viewer "c")] else []
               | _ => []
               end).
Definition talk : list turn := opened_viewer ++ [Call (Write 1 (EConsole viewer "a"))].

Lemma options_construct : construct sha (String.eqb origin) options = inr opts.
Proof. vm_compute. reflexivity. Qed.
Example link_ready :
  let b := run sha opts quiet_env 9 0 handshake in current b = mkStatus ready 0 ∧ live b = Some 1 ∧ c_timer b = None.
Proof. vm_compute. done. Qed.
Example talk_sent :
  let b := run sha opts talkative 9 1 talk in
  (λ w, (seq w.1, body w.1)) <$> sent 1 (log b)
  = [(2, OperationResult request viewer (JStr "viewer.open") None); (3, ConsoleOutput viewer "a");
     (4, ConsoleOutput viewer "b"); (5, ConsoleOutput viewer "c")].
Proof. vm_compute. done. Qed.
(** Sockets owned ([true]) and told to close ([false]). *)
Definition sockets (l : list action) : list (Z * bool) :=
  omap (λ a, match a with Created g => Some (g, true) | Closed g _ _ => Some (g, false) | _ => None end) l.
(** The socket ends: the attempt is closed and the next one waits for its timer. *)
Definition lost : list turn := handshake ++ [Call (OnEnd 1)].
Example lost_backoff :
  let b := run sha opts quiet_env 9 0 lost in
  current b = mkStatus backoff 1 ∧ live b = None ∧ sockets (log b) = [(1, true); (1, false)]
  ∧ omap (λ a, match a with TimerSet _ d => Some d | _ => None end) (log b) = [10000; 625].
Proof. vm_compute. done. Qed.
(** The timer fires: a second attempt. *)
Example lost_again :
  let b := run sha opts quiet_env 9 0 (lost ++ [Fire 18]) in
  current b = mkStatus connecting 1 ∧ live b = Some 3.
Proof. vm_compute. done. Qed.
(** [stop] from within the socket factory: the socket it returns is never closed, since
    [#drive] makes the attempt live without asking again whether it was stopped. *)
Example stopped_in_factory :
  let b := run sha opts (calm (λ _ a, match a with Connect _ _ _ => [Stop] | _ => [] end)) 9 1 [Call Start; Call Stop] in
  stopped b = true ∧ live b = Some 2 ∧ sockets (log b) = [(2, true)].
Proof. vm_compute. done. Qed.
End LinkExample.
Import LinkExample.

Lemma effects_in_order_witness :
  let ws := sent 1 (log (run sha opts talkative 9 1 talk)) in
  length ws = 4%nat ∧ seq <$> ws.*1 = seqZ 2 (Z.of_nat (length ws)).
Proof.
  intros ws. split; [vm_compute; reflexivity|].
  destruct (attempts (run sha opts talkative 9 1 talk) !! 1) as [a|] eqn:Ha; [|vm_compute in Ha; done].
  exact (proj1 (effects_in_order sha opts talkative 9 1 talk 1 a Ha)).
Defined.
Lemma sockets_closed_witness : closed_in 1 (log (run sha opts quiet_env 9 0 lost)).
Proof.
  destruct (proj1 (sockets_closed sha opts quiet_env 9 0 lost) 1) as [H|H]; [by vm_compute; eauto| |exact H].
  vm_compute in H. done.
Defined.
Lemma never_stuck_witness :
  ∃ t, c_timer (run sha opts quiet_env 9 0 lost) = Some t
       ∧ timers (run sha opts quiet_env 9 0 lost) !! t = Some (ControllerTimer 2).
Proof.
  assert (started (run sha opts quiet_env 9 0 lost) = true) as Hs by (vm_compute; reflexivity).
  assert (stopped (run sha opts quiet_env 9 0 lost) = false) as Ht by (vm_compute; reflexivity).
  assert (live (run sha opts quiet_env 9 0 lost) = None) as Hl by (vm_compute; reflexivity).
  assert (current (run sha opts quiet_env 9 0 lost) = mkStatus backoff 1) as Hc by (vm_compute; reflexivity).
  assert (generation (run sha opts quiet_env 9 0 lost) = 2) as Hg by (vm_compute; reflexivity).
  pose proof (never_stuck sha opts quiet_env 9 0 lost (λ _ _, eq_refl) Hs Ht) as H. rewrite Hl, Hc, Hg in H.
  destruct H as [H|H]; [exact H|]. exfalso. clear -H. simpl in H. set_solver.
Defined.
Lemma waits_bounded_witness :
  Forall (λ a, match a with TimerSet (ControllerTimer _) d => 500 ≤ d ≤ 30000 | _ => True end)
    (log (run sha opts quiet_env 9 0 lost)).
Proof.
  eapply Forall_impl;
    [apply (waits_bounded sha (String.eqb LinkExample.origin) options opts quiet_env 9 0 lost options_construct)|].
  intros [] H; try done. destruct t; [|done]. destruct H as [H _]. exact H.
Defined.
