(* ===== verification/SelectedViewer.v ===== *)
(** * The selected viewer of a browser (packages/gateway/src/selected-viewer-broker.ts)

    One broker serves one browser: it opens a viewer on the resident the browser
    selects, holds the output back until a fresh snapshot was taken, and fences
    every result by the generation of the link and of the selection.

    Selections are objects with identity: they are kept in a heap under their
    generation, which no two of them share.  The registry, the browser side and
    the makers of ids are an environment that answers the n-th interaction; while
    the broker is inside a call to the outside, the outside may call the broker
    again, up to a nesting depth that every theorem quantifies over.  [log] is
    what the broker did and saw, and serves the theorems only. *)

From S2P Require Import Prelude Protocol Codec Wire Registry.
Local Open Scope string_scope.
Local Open Scope list_scope.
Local Open Scope Z_scope.

Inductive Phase := Opening | Snapshotting | Ready.
#[export] Instance Phase_eq_dec : EqDecision Phase.
Proof. solve_decision. Defined.

Definition ConsoleOutputFrame : Type := frame (string * string).
Definition MediaResultFrame : Type := frame (string * MediaOutcome).
Definition payload (f : ConsoleOutputFrame) : string := (body f).2.
Definition viewer_of (f : ConsoleOutputFrame) : string := (body f).1.

(** [instanceId], [connectionId], [linkGeneration]: the link an object refers to. *)
Record LinkRef := mkRef { ref_instanceId : string; ref_connectionId : string; ref_generation : Z }.
#[export] Instance LinkRef_eq_dec : EqDecision LinkRef.
Proof. solve_decision. Defined.

Definition ref_of (link : Summary) : LinkRef :=
  mkRef (sum_instanceId link) (sum_connectionId link) (sum_generation link).

Record ActiveSelection := mkSelection {
  s_generation : Z;
  s_link : LinkRef;
  s_viewerId : string;
  phase : Phase;
  operationRequestId : option string;
  buffer : list ConsoleOutputFrame;
  bufferedBytes : Z;
}.

Inductive RequestKind := KOpen | KSnapshot | KCloseViewer | KMedia.
#[export] Instance RequestKind_eq_dec : EqDecision RequestKind.
Proof. solve_decision. Defined.

Record PendingRequest := mkPending { p_generation : Z; p_link : LinkRef; p_kind : RequestKind }.

Record RequestHistory := mkHistory { used : gset string; order : list string }.

(** [GatewaySelectedViewerState] *)
Inductive ViewerState :=
  | StClosed (generation : Z)
  | StIdle (generation : Z)
  | StSelected (generation : Z) (p : Phase) (link : LinkRef) (viewerId : string).

Inductive SelectionReason :=
  | r_selected | r_snapshot | r_ready | r_deselected | r_unavailable | r_operation_failed
  | r_link_removed | r_backpressure | r_disconnected.

(** What the broker sees and does.  [Sent g] and [Cut g] name the selection on
    whose behalf a frame is given to the registry or a link is disconnected;
    [Accepted g] follows when the registry took the frame; [Requested g] is the
    entry of a request id into [pending]. *)
Inductive action :=
  | Arrived (e : LinkEvent)
  | ConsoleOut (f : ConsoleOutputFrame) (st : ViewerState)
  | MediaOut (f : MediaResultFrame) (st : ViewerState)
  | Selection (reason : SelectionReason) (st : ViewerState)
  | Sent (g : Z) (link : LinkRef) (effect : GatewayBody)
  | Accepted (g : Z) (effect : GatewayBody)
  | Cut (g : Z) (link : LinkRef) (reason : string)
  | Requested (g : Z) (link : LinkRef) (kind : RequestKind) (rid : string)
  | Unsubscribed.

Record broker := mkBroker {
  pending : gmap string PendingRequest;
  requestHistory : gmap string RequestHistory;
  selections : gmap Z ActiveSelection;
  selection : option Z;
  generation : Z;
  closed : bool;
  cleaning : bool;
  interactions : nat;
  log : list action;
}.

(** What reaches the broker. *)
Inductive call :=
  | Select (instanceId : string)
  | Input (payload : string)
  | Media (route : string)
  | Deselect
  | Disconnect
  | Event (e : LinkEvent).

(** The environment: the answer to the n-th interaction.  [accepts] is whether a
    callback did not return false and did not throw, [sends] whether
    [sendEffect] returned true, [None] a maker of ids that throws; [reacts] is what
    the outside calls while it is being called. *)
Record env := {
  summary : nat → string → option Summary;
  lookup : nat → string → string → option Summary;
  sends : nat → bool;
  accepts : nat → bool;
  viewer_ids : nat → option string;
  request_ids : nat → option string;
  reacts : nat → action → list call;
}.

Record settings := {
  maxSnapshotBufferBytes : Z;
  maxSnapshotBufferFrames : nat;
  has_onSelection : bool;
  has_onMediaResult : bool;
}.

(** [bounded], and the options the constructor accepts. *)
Definition bounded (value maximum : Z) : option Z :=
  if (1 <=? value) && (value <=? maximum) then Some value else None.
Definition construct (bytes frames : option Z) (onSelection onMedia : bool) : option settings :=
  b ← bounded (default LIMITS_frameBytes bytes) LIMITS_frameBytes;
  f ← bounded (default (Z.of_nat LIMITS_requestHistoryPerConnection) frames)
        (Z.of_nat LIMITS_requestHistoryPerConnection);
  Some {| maxSnapshotBufferBytes := b; maxSnapshotBufferFrames := Z.to_nat f;
          has_onSelection := onSelection; has_onMediaResult := onMedia |}.

Definition new_broker : broker := mkBroker ∅ ∅ ∅ None 0 false false 0 [].

(** ** Field updates *)

Definition set_pending p (b : broker) : broker :=
  mkBroker p (requestHistory b) (selections b) (selection b) (generation b) (closed b) (cleaning b)
    (interactions b) (log b).
Definition set_history h (b : broker) : broker :=
  mkBroker (pending b) h (selections b) (selection b) (generation b) (closed b) (cleaning b)
    (interactions b) (log b).
Definition set_selections s (b : broker) : broker :=
  mkBroker (pending b) (requestHistory b) s (selection b) (generation b) (closed b) (cleaning b)
    (interactions b) (log b).
Definition set_selection s (b : broker) : broker :=
  mkBroker (pending b) (requestHistory b) (selections b) s (generation b) (closed b) (cleaning b)
    (interactions b) (log b).
Definition set_generation g (b : broker) : broker :=
  mkBroker (pending b) (requestHistory b) (selections b) (selection b) g (closed b) (cleaning b)
    (interactions b) (log b).
Definition set_closed (b : broker) : broker :=
  mkBroker (pending b) (requestHistory b) (selections b) (selection b) (generation b) true (cleaning b)
    (interactions b) (log b).
Definition set_cleaning c (b : broker) : broker :=
  mkBroker (pending b) (requestHistory b) (selections b) (selection b) (generation b) (closed b) c
    (interactions b) (log b).
Definition stepped (l : list action) (b : broker) : broker :=
  mkBroker (pending b) (requestHistory b) (selections b) (selection b) (generation b) (closed b)
    (cleaning b) (S (interactions b)) (log b ++ l).
Definition logged (a : action) (b : broker) : broker :=
  mkBroker (pending b) (requestHistory b) (selections b) (selection b) (generation b) (closed b)
    (cleaning b) (interactions b) (log b ++ [a]).

(** Assignments to the fields of the selection object [g]. *)
Definition assign (g : Z) (f : ActiveSelection → ActiveSelection) (b : broker) : broker :=
  set_selections (alter f g (selections b)) b.
Definition set_phase p (s : ActiveSelection) : ActiveSelection :=
  mkSelection (s_generation s) (s_link s) (s_viewerId s) p (operationRequestId s) (buffer s)
    (bufferedBytes s).
Definition set_operation o (s : ActiveSelection) : ActiveSelection :=
  mkSelection (s_generation s) (s_link s) (s_viewerId s) (phase s) o (buffer s) (bufferedBytes s).
Definition set_buffer l n (s : ActiveSelection) : ActiveSelection :=
  mkSelection (s_generation s) (s_link s) (s_viewerId s) (phase s) (operationRequestId s) l n.

(** ** Pure parts *)

(** [#linkKey] *)
Definition linkKey (l : LinkRef) : string :=
  let nul := String Ascii.zero "" in
  ref_instanceId l +:+ nul +:+ ref_connectionId l +:+ nul +:+ pretty (ref_generation l).

(** [#state] *)
Definition state_with (b : broker) (s : option ActiveSelection) : ViewerState :=
  if closed b then StClosed (generation b)
  else match s with
       | None => StIdle (generation b)
       | Some s => StSelected (s_generation s) (phase s) (s_link s) (s_viewerId s)
       end.
Definition current_selection (b : broker) : option ActiveSelection :=
  g ← selection b; selections b !! g.
Definition state (b : broker) : ViewerState := state_with b (current_selection b).

(** [#current] *)
Definition is_current (b : broker) (g : Z) : bool :=
  bool_decide (selection b = Some g) && negb (closed b).

(** [#dropGeneration], [#dropLink] *)
Definition dropGeneration (g : Z) (b : broker) : broker :=
  set_pending (filter (λ p, p_generation p.2 ≠ g) (pending b)) b.
Definition dropLink (l : LinkRef) (b : broker) : broker :=
  set_history (delete (linkKey l) (requestHistory b))
    (set_pending (filter (λ p, p_link p.2 ≠ l) (pending b)) b).

(** A request id enters the bounded history of its link. *)
Definition remember (rid : string) (h : RequestHistory) : RequestHistory :=
  let used' := {[ rid ]} ∪ used h in
  let order' := order h ++ [rid] in
  if Nat.ltb LIMITS_requestHistoryPerConnection (length order') then
    match order' with
    | oldest :: rest => mkHistory (used' ∖ {[ oldest ]}) rest
    | [] => mkHistory used' order'
    end
  else mkHistory used' order'.

Definition console_body (f : frame ResidentBody) : option ConsoleOutputFrame :=
  match body f with ConsoleOutput v p => Some (mkFrame (connectionId f) (seq f) (v, p)) | _ => None end.

(** ** The methods *)

Section methods.
Context (sha256_hex : list Z → string).
Context (opts : settings) (E : env).
(** The outside calling back into the broker. *)
Context (reenter : call → broker → broker).

Abbreviation B := (eff broker Empty_set).

(** One interaction with the outside. *)
Definition tick : B nat := b ← get; modify (stepped []);; mret (interactions b).
Definition interact (a : action) : B nat :=
  b ← get;
  modify (stepped [a]);;
  modify (λ b', foldl (λ b' c, reenter c b') b' (reacts E (interactions b) a));;
  mret (interactions b).

(** The selection object with the given generation. *)
Definition with_selection {A} (g : Z) (k : ActiveSelection → B A) (d : A) : B A :=
  b ← get;
  match selections b !! g with Some s => k s | None => mret d end.

(** [#notify] *)
Definition notify (r : SelectionReason) : B () :=
  if has_onSelection opts then b ← get; interact (Selection r (state b));; mret tt else mret tt.

(** [#deliverConsole], [#deliverMedia] *)
Definition deliverConsole (f : ConsoleOutputFrame) (s : ActiveSelection) : B bool :=
  b ← get;
  n ← interact (ConsoleOut f (state_with b (Some s)));
  mret (accepts E n).
Definition deliverMedia (f : MediaResultFrame) (s : ActiveSelection) : B bool :=
  if has_onMediaResult opts then
    b ← get;
    n ← interact (MediaOut f (state_with b (Some s)));
    mret (accepts E n)
  else mret true.

(** [#send] *)
Definition send (s : ActiveSelection) (effect : GatewayBody) : B bool :=
  let l := s_link s in
  n ← tick;
  if bool_decide (sum_generation <$> lookup E n (ref_instanceId l) (ref_connectionId l)
                  = Some (ref_generation l)) then
    n ← interact (Sent (s_generation s) l effect);
    if sends E n then modify (logged (Accepted (s_generation s) effect));; mret true else mret false
  else mret false.

(** [registry.disconnect] *)
Definition cut (s : ActiveSelection) (reason : string) : B () :=
  interact (Cut (s_generation s) (s_link s) reason);; mret tt.

(** [#validEffect] *)
Definition validEffect (s : ActiveSelection) (effect : GatewayBody) : bool :=
  match serializeFrame sha256_hex (gateway_json (mkFrame (ref_connectionId (s_link s)) 1 effect))
          gateway_to_resident with
  | inr _ => true
  | inl _ => false
  end.

(** [#request] *)
Definition request (kind : RequestKind) (s : ActiveSelection) : B (option string) :=
  b ← get;
  if Nat.leb LIMITS_pendingRequestsPerConnection (size (pending b)) then mret None
  else
    n ← tick;
    match request_ids E n with
    | None => mret None
    | Some rid =>
        let key := linkKey (s_link s) in
        let h := default (mkHistory ∅ []) (requestHistory b !! key) in
        modify (λ b, set_history (<[ key := h ]> (requestHistory b)) b);;
        if negb (is_id REQUEST_PREFIX rid) || bool_decide (rid ∈ used h) then mret None
        else
          modify (λ b, set_history (<[ key := remember rid h ]> (requestHistory b)) b);;
          modify (λ b, set_pending (<[ rid := mkPending (s_generation s) (s_link s) kind ]> (pending b)) b);;
          modify (logged (Requested (s_generation s) (s_link s) kind rid));;
          mret (Some rid)
    end.

(** [#freshViewerId] *)
Definition freshViewerId : B (option string) :=
  n ← tick;
  mret (match viewer_ids E n with
        | Some v => if is_id VIEWER_PREFIX v then Some v else None
        | None => None
        end).

(** [#take] *)
Definition take_pending (rid : string) (link : LinkRef) : B (option PendingRequest) :=
  b ← get;
  match pending b !! rid with
  | None => mret None
  | Some p =>
      modify (λ b, set_pending (delete rid (pending b)) b);;
      mret (if bool_decide (p_link p = link) then Some p else None)
  end.
Definition forget (rid : string) : B () := modify (λ b, set_pending (delete rid (pending b)) b).

(** The end of [#retire] and of [#fail]: the remote viewer is closed, or its
    link cut.  [busy] is the reason when an operation is outstanding. *)
Definition close_viewer (s : ActiveSelection) (busy : string) (drop : bool) : B () :=
  match operationRequestId s with
  | Some _ => cut s busy
  | None =>
      rid ← request KCloseViewer s;
      sent ← match rid with
             | Some r => send s (ViewerOp viewer_close r (s_viewerId s))
             | None => mret false
             end;
      if sent : bool then mret tt
      else
        match rid with
        | Some r => if drop then forget r else mret tt
        | None => mret tt
        end;;
        cut s "viewer_cleanup_backpressure"
  end.

(** [#retire] *)
Definition retire (g : Z) (reason : option SelectionReason) : B () :=
  b ← get;
  if negb (is_current b g) then mret tt
  else
    modify (set_selection None);;
    modify (dropGeneration g);;
    with_selection g (λ s, close_viewer s "viewer_generation_replaced" true) tt;;
    match reason with Some r => notify r | None => mret tt end.

(** [#abandon] *)
Definition abandon (g : Z) (reason : SelectionReason) : B () :=
  b ← get;
  if negb (is_current b g) then mret tt
  else
    modify (set_selection None);;
    modify (dropGeneration g);;
    notify reason.

(** [#fail] *)
Definition fail (g : Z) (reason : SelectionReason) : B () :=
  b ← get;
  if negb (is_current b g) || cleaning b then mret tt
  else
    modify (set_cleaning true);;
    modify (set_selection None);;
    modify (dropGeneration g);;
    with_selection g (λ s, close_viewer s "viewer_operation_failed" false) tt;;
    notify reason;;
    modify (set_cleaning false).

(** The part of [select] after the checks and the retirement. *)
Definition select_target (target : Summary) : B bool :=
  b ← get;
  if generation b =? MAX_SAFE_INTEGER then
    modify set_closed;;
    modify (set_pending ∅);;
    modify (logged Unsubscribed);;
    notify r_disconnected;;
    mret false
  else
    let g := generation b + 1 in
    modify (set_generation g);;
    v ← freshViewerId;
    match v with
    | None => notify r_operation_failed;; mret false
    | Some viewerId =>
        let s := mkSelection g (ref_of target) viewerId Opening None [] 0 in
        modify (λ b, set_selections (<[ g := s ]> (selections b)) b);;
        modify (set_selection (Some g));;
        rid ← request KOpen s;
        match rid with
        | None => fail g r_operation_failed;; mret false
        | Some r =>
            modify (assign g (set_operation (Some r)));;
            notify r_selected;;
            sent ← send s (ViewerOp viewer_open r viewerId);
            if sent : bool then mret true
            else forget r;; fail g r_backpressure;; mret false
        end
    end.

(** [select] *)
Definition select (inst : string) : B bool :=
  b ← get;
  if closed b then mret false
  else
    n ← tick;
    match summary E n inst with
    | Some target =>
        if bool_decide (sum_state target = ready) && bool_decide (console_v1 ∈ sum_capabilities target)
        then
          match current_selection b with
          | Some s => if bool_decide (s_link s = ref_of target) then mret true
                      else retire (s_generation s) (Some r_deselected);; select_target target
          | None => select_target target
          end
        else notify r_unavailable;; mret false
    | None => notify r_unavailable;; mret false
    end.

(** [input] *)
Definition input (text : string) : B bool :=
  b ← get;
  match current_selection b with
  | Some s =>
      if negb (closed b) && bool_decide (phase s = Ready) then
        let effect := ConsoleInput (s_viewerId s) text in
        if negb (validEffect s effect) then mret false
        else
          sent ← send s effect;
          if sent : bool then mret true
          else fail (s_generation s) r_backpressure;; mret false
      else mret false
  | None => mret false
  end.

(** [media]: the id of the request, when it was sent. *)
Definition media (route : string) : B (option string) :=
  b ← get;
  match current_selection b with
  | Some s =>
      if negb (closed b) && bool_decide (phase s = Ready) then
        n ← tick;
        match lookup E n (ref_instanceId (s_link s)) (ref_connectionId (s_link s)) with
        | Some live =>
            if negb (bool_decide (media_v1 ∈ sum_capabilities live)) then mret None
            else
              rid ← request KMedia s;
              match rid with
              | None => mret None
              | Some r =>
                  let effect := MediaGet r route in
                  if negb (validEffect s effect) then forget r;; mret None
                  else
                    sent ← send s effect;
                    if sent : bool then mret (Some r)
                    else forget r;; fail (s_generation s) r_backpressure;; mret None
              end
        | None => mret None
        end
      else mret None
  | None => mret None
  end.

(** [deselect] *)
Definition deselect : B () :=
  b ← get;
  match selection b with None => mret tt | Some g => retire g (Some r_deselected) end.

(** [disconnect] *)
Definition disconnect : B () :=
  b ← get;
  if closed b then mret tt
  else
    match selection b with None => mret tt | Some g => retire g None end;;
    modify set_closed;;
    modify (set_pending ∅);;
    modify (set_history ∅);;
    modify (logged Unsubscribed);;
    notify r_disconnected.

(** [#beginSnapshot] *)
Definition beginSnapshot (g : Z) : B () :=
  b ← get;
  if negb (is_current b g) then mret tt
  else
    modify (assign g (set_phase Snapshotting));;
    modify (assign g (set_buffer [] 0));;
    with_selection g (λ s,
      rid ← request KSnapshot s;
      match rid with
      | None => fail g r_operation_failed
      | Some r =>
          modify (assign g (set_operation (Some r)));;
          notify r_snapshot;;
          sent ← send s (ViewerOp viewer_snapshot r (s_viewerId s));
          if sent : bool then mret tt else forget r;; fail g r_backpressure
      end) tt.

(** The loop of [#completeSnapshot]: whether it ran to the end.  A frame that
    arrives during a delivery is appended to the buffer it flushes.  At most
    [fuel] rounds; the code leaves the loop after [maxSnapshotBufferFrames]. *)
Fixpoint flush (fuel : nat) (g : Z) (flushedFrames : nat) (flushedBytes : Z) : B bool :=
  match fuel with
  | O => mret false
  | S fuel =>
      with_selection g (λ s,
        match buffer s !! flushedFrames with
        | None => mret true
        | Some f =>
            b ← get;
            if negb (is_current b g) then mret false
            else
              let n := bytes (payload f) in
              if Nat.leb (maxSnapshotBufferFrames opts) flushedFrames
                 || (maxSnapshotBufferBytes opts - flushedBytes <? n)
              then fail g r_backpressure;; mret false
              else
                ok ← deliverConsole f s;
                if ok : bool then flush fuel g (S flushedFrames) (flushedBytes + n)
                else fail g r_backpressure;; mret false
        end) false
  end.

(** [#completeSnapshot] *)
Definition completeSnapshot (g : Z) : B () :=
  b ← get;
  with_selection g (λ s,
    if negb (is_current b g) || negb (bool_decide (phase s = Snapshotting)) then mret tt
    else
      done ← flush (S (S (maxSnapshotBufferFrames opts))) g 0 0;
      if done : bool then
        b ← get;
        if negb (is_current b g) then mret tt
        else
          modify (assign g (set_buffer [] 0));;
          modify (assign g (set_phase Ready));;
          notify r_ready
      else mret tt) tt.

(** [#console] *)
Definition console (link : LinkRef) (f : ConsoleOutputFrame) : B () :=
  b ← get;
  match current_selection b with
  | None => mret tt
  | Some s =>
      let g := s_generation s in
      if negb (bool_decide (s_link s = link)) || negb (String.eqb (viewer_of f) (s_viewerId s))
      then mret tt
      else match phase s with
        | Snapshotting =>
            let n := bytes (payload f) in
            if Nat.leb (maxSnapshotBufferFrames opts) (length (buffer s))
               || (maxSnapshotBufferBytes opts - bufferedBytes s <? n)
            then fail g r_backpressure
            else modify (assign g (λ s, set_buffer (buffer s ++ [f]) (bufferedBytes s + n) s))
        | Ready =>
            ok ← deliverConsole f s;
            if ok : bool then mret tt else fail g r_backpressure
        | Opening => mret tt
        end
  end.

(** The arms of [#handleResidentFrame]. *)
Definition operation_result (link : LinkRef) (rid : string) (ok : bool) : B () :=
  p ← take_pending rid link;
  match p with
  | None => mret tt
  | Some p =>
      if bool_decide (p_kind p = KMedia) then mret tt
      else
        b ← get;
        if negb (bool_decide (selection b = Some (p_generation p))) then mret tt
        else
          let g := p_generation p in
          modify (assign g (set_operation None));;
          match p_kind p, ok with
          | KCloseViewer, _ => mret tt
          | KOpen, false => abandon g r_operation_failed
          | _, false => fail g r_operation_failed
          | KOpen, true => beginSnapshot g
          | KSnapshot, true => completeSnapshot g
          | KMedia, true => mret tt
          end
  end.

Definition media_result (link : LinkRef) (f : MediaResultFrame) : B () :=
  p ← take_pending (body f).1 link;
  match p with
  | None => mret tt
  | Some p =>
      if negb (bool_decide (p_kind p = KMedia)) then mret tt
      else
        b ← get;
        match current_selection b with
        | Some s =>
            if bool_decide (s_generation s = p_generation p) && bool_decide (phase s = Ready) then
              ok ← deliverMedia f s;
              if ok : bool then mret tt else fail (s_generation s) r_backpressure
            else mret tt
        | None => mret tt
        end
  end.

Definition error_result (link : LinkRef) (rid : string) : B () :=
  p ← take_pending rid link;
  match p with
  | None => mret tt
  | Some p =>
      if bool_decide (p_kind p = KCloseViewer) then mret tt
      else
        b ← get;
        if negb (bool_decide (selection b = Some (p_generation p))) then mret tt
        else
          let g := p_generation p in
          modify (assign g (set_operation None));;
          if bool_decide (p_kind p = KOpen) then abandon g r_operation_failed
          else fail g r_operation_failed
  end.

(** [#handleResidentEvent], [#handleResidentFrame] *)
Definition handleResidentFrame (link : LinkRef) (f : frame ResidentBody) : B () :=
  match body f with
  | Hello _ _ _ _ => mret tt
  | ConsoleOutput v p => console link (mkFrame (connectionId f) (seq f) (v, p))
  | OperationResult rid _ _ err => operation_result link rid (bool_decide (err = None))
  | MediaResult rid out => media_result link (mkFrame (connectionId f) (seq f) (rid, out))
  | ResidentErr e => match perr_requestId e with Some rid => error_result link rid | None => mret tt end
  end.

Definition handleResidentEvent (e : LinkEvent) : B () :=
  b ← get;
  if closed b then mret tt
  else
    match e with
    | EvRemoved link =>
        modify (dropLink (ref_of link));;
        b ← get;
        match current_selection b with
        | Some s =>
            if bool_decide (s_link s = ref_of link) then
              modify (set_selection None);;
              notify r_link_removed
            else mret tt
        | None => mret tt
        end
    | EvFrame link f => handleResidentFrame (ref_of link) f
    | EvReady _ => mret tt
    end.

Definition perform (c : call) : B () :=
  match c with
  | Select i => select i;; mret tt
  | Input t => input t;; mret tt
  | Media r => media r;; mret tt
  | Deselect => deselect
  | Disconnect => disconnect
  | Event e => modify (logged (Arrived e));; handleResidentEvent e
  end.
End methods.

(** Calls, with at most [depth] calls of the outside nested in each other. *)
Fixpoint exec (sha : list Z → string) (opts : settings) (E : env) (depth : nat) (c : call)
    (b : broker) : broker :=
  match depth with
  | O => (perform sha opts E (λ _ b, b) c b).2
  | S depth => (perform sha opts E (exec sha opts E depth) c b).2
  end.
Definition run (sha : list Z → string) (opts : settings) (E : env) (depth : nat) (cs : list call)
    : broker :=
  foldl (λ b c, exec sha opts E depth c b) new_broker cs.
