(* ===== verification/BrowserRelay.v ===== *)
(** * The relay of a browser (packages/gateway/src/browser-relay.ts)

    One connection of a browser: commands of the browser are given to its selected
    viewer broker, what the broker reports is written to the browser's socket.  The
    broker, the socket and the owner are outside: an environment answers the n-th
    interaction with them, throws when it likes, and calls back while it is called, up
    to a nesting depth that every theorem quantifies over; only reading the amount the
    socket has buffered does not call back.  Microtasks run between calls.  The record
    [starting] of a media request is an object: it is kept under a number as long as its
    method runs.  [log] is what was done. *)

From S2P Require Import Prelude Effects Protocol Codec Credentials ResidentControl Registry SelectedViewer.
Local Open Scope string_scope.
Local Open Scope list_scope.
Local Open Scope Z_scope.

(** ** Commands and frames *)

Definition CLOSE_policy : Z := 1008.
Definition CLOSE_binary : Z := 1003.
Definition CLOSE_tooLarge : Z := 1009.
Definition CLOSE_unavailable : Z := 1011.

Inductive GatewayBrowserRelayCommand :=
  | ViewerSelect (instanceId : string)
  | ViewerDeselect
  | ConsoleInputCommand (payload : string)
  | MediaGetCommand (requestId route : string).
(** A text with what [JSON.parse] makes of it; [None] throws. *)
Definition text_limit (n : Z) (s : string) : bool := bytes s <=? n.
Definition typed (v : json) (keys : list string) (type : string) : option (list (string * json)) :=
  fields ← exact_record v keys;
  exactFormat (prop fields "type") type;;
  Some fields.
Definition decodeGatewayBrowserRelayCommand (text : ResidentControl.body) : option GatewayBrowserRelayCommand :=
  if negb (bytes (b_text text) <=? LIMITS_frameBytes) then None
  else
    v ← b_parsed text;
    match (fields ← typed v ["type"; "instanceId"] "viewer.select"; ResidentControl.instanceId (prop fields "instanceId")) with
    | Some i => Some (ViewerSelect i)
    | None =>
        match typed v ["type"] "viewer.deselect" with
        | Some _ => Some ViewerDeselect
        | None =>
            match (fields ← typed v ["type"; "payload"] "console.input";
                   text_value (text_limit LIMITS_consolePayloadBytes) (prop fields "payload")) with
            | Some p => Some (ConsoleInputCommand p)
            | None =>
                fields ← typed v ["type"; "requestId"; "route"] "media.get";
                rid ← ResidentControl.requestId (prop fields "requestId");
                route ← text_value (text_limit LIMITS_mediaRouteBytes) (prop fields "route");
                Some (MediaGetCommand rid route)
            end
        end
    end.

Inductive GatewayBrowserRelayFrame :=
  | ViewerSelectionFrame (reason : SelectionReason) (st : ViewerState)
  | ConsoleOutputFrame_ (payload : string)
  | MediaResultFrame_ (requestId : string) (o : MediaOutcome).
Definition reason_name (r : SelectionReason) : string :=
  match r with
  | r_selected => "selected" | r_snapshot => "snapshot" | r_ready => "ready" | r_deselected => "deselected"
  | r_unavailable => "unavailable" | r_operation_failed => "operation_failed" | r_link_removed => "link_removed"
  | r_backpressure => "backpressure" | r_disconnected => "disconnected"
  end.
Definition phase_name (p : Phase) : string :=
  match p with Opening => "opening" | Snapshotting => "snapshotting" | Ready => "ready" end.
(** [selectionFrame] *)
Definition selection_fields (st : ViewerState) : Z * string * option string :=
  match st with
  | StClosed g => (g, "closed", None)
  | StIdle g => (g, "idle", None)
  | StSelected g p l _ => (g, phase_name p, Some (ref_instanceId l))
  end.
Definition relay_json (f : GatewayBrowserRelayFrame) : json :=
  match f with
  | ViewerSelectionFrame r st =>
      let '(g, p, i) := selection_fields st in
      JObj ([("type", JStr "viewer.selection"); ("reason", JStr (reason_name r)); ("generation", JNum (num_of_Z g)); ("phase", JStr p)]
            ++ match i with Some i => [("instanceId", JStr i)] | None => [] end)
  | ConsoleOutputFrame_ p => JObj [("type", JStr "console.output"); ("payload", JStr p)]
  | MediaResultFrame_ rid (MediaOk ty len sha data) =>
      JObj [("type", JStr "media.result"); ("requestId", JStr rid); ("ok", JBool true); ("mediaType", JStr ty);
            ("byteLength", JNum (num_of_Z len)); ("sha256", JStr sha); ("data", JStr data)]
  | MediaResultFrame_ rid (MediaFailed e) =>
      JObj [("type", JStr "media.result"); ("requestId", JStr rid); ("ok", JBool false);
            ("error", JObj [("code", JStr (error_code e)); ("message", JStr (error_message e))])]
  end.
Definition REJECTED : ErrorDetail := {| error_code := "invalid_request"; error_message := "media request was rejected" |}.

(** ** The connection *)

Inductive broker_op := BSelect (i : string) | BDeselect | BInput (p : string) | BMedia (route : string) | BDisconnect.
(** [Accepted rid]: a command for media is given to the broker.  [Sent f n]: the text of
    [f] is given to the socket, which holds [n] bytes. *)
Inductive action :=
  | Attach | Detached | OnDisconnect
  | Broker (o : broker_op)
  | Accepted (clientId : string)
  | Sent (f : GatewayBrowserRelayFrame) (buffered : Z)
  | CloseSocket (code : Z) (reason : string).
Record Starting := mkStarting { st_clientId : string; st_consumed : bool }.
Record relay := mkRelay {
  mediaRequests : gmap string string;
  mediaClientIds : gset string;
  startings : gmap nat Starting;
  mediaStarting : option nat;
  next_starting : nat;
  detach : bool;
  terminalPending : bool;
  disconnected : bool;
  microtasks : list (Z * string);
  interactions : nat;
  log : list action;
}.
Definition new_relay : relay := mkRelay ∅ ∅ ∅ None 0 false false false [] 0 [].

Inductive call :=
  | Text (t : ResidentControl.body)
  | Binary
  | Closed
  | Disconnect
  | Stop
  | OnConsoleOutput (f : ConsoleOutputFrame)
  | OnMediaResult (f : MediaResultFrame)
  | OnSelection (r : SelectionReason) (st : ViewerState).
(** [buffered]: what [bufferedAmount] gives, [None] throws, [Some None] is no safe
    integer; [media_ids]: what [broker.media] returns. *)
Record env := {
  returns : nat → bool;
  buffered_amount : nat → option (option Z);
  media_ids : nat → option string;
  reacts : nat → action → list call;
}.
(** [maxBufferedAmount]; [None] throws. *)
Definition construct_limit (v : option Z) : option Z :=
  let m := default LIMITS_frameBytes v in if (1 <=? m) && (m <=? LIMITS_frameBytes) then Some m else None.

Definition set_requests m (b : relay) : relay :=
  mkRelay m (mediaClientIds b) (startings b) (mediaStarting b) (next_starting b) (detach b) (terminalPending b) (disconnected b)
    (microtasks b) (interactions b) (log b).
Definition set_client_ids m (b : relay) : relay :=
  mkRelay (mediaRequests b) m (startings b) (mediaStarting b) (next_starting b) (detach b) (terminalPending b) (disconnected b)
    (microtasks b) (interactions b) (log b).
Definition set_startings m (b : relay) : relay :=
  mkRelay (mediaRequests b) (mediaClientIds b) m (mediaStarting b) (next_starting b) (detach b) (terminalPending b) (disconnected b)
    (microtasks b) (interactions b) (log b).
Definition set_starting s (b : relay) : relay :=
  mkRelay (mediaRequests b) (mediaClientIds b) (startings b) s (next_starting b) (detach b) (terminalPending b) (disconnected b)
    (microtasks b) (interactions b) (log b).
Definition new_starting cid (b : relay) : relay :=
  mkRelay (mediaRequests b) (mediaClientIds b) (<[ next_starting b := mkStarting cid false ]> (startings b)) (Some (next_starting b))
    (S (next_starting b)) (detach b) (terminalPending b) (disconnected b) (microtasks b) (interactions b) (log b).
Definition set_detach d (b : relay) : relay :=
  mkRelay (mediaRequests b) (mediaClientIds b) (startings b) (mediaStarting b) (next_starting b) d (terminalPending b) (disconnected b)
    (microtasks b) (interactions b) (log b).
Definition set_pending (b : relay) : relay :=
  mkRelay (mediaRequests b) (mediaClientIds b) (startings b) (mediaStarting b) (next_starting b) (detach b) true (disconnected b)
    (microtasks b) (interactions b) (log b).
Definition set_disconnected (b : relay) : relay :=
  mkRelay (mediaRequests b) (mediaClientIds b) (startings b) (mediaStarting b) (next_starting b) (detach b) true true
    (microtasks b) (interactions b) (log b).
Definition set_microtasks l (b : relay) : relay :=
  mkRelay (mediaRequests b) (mediaClientIds b) (startings b) (mediaStarting b) (next_starting b) (detach b) (terminalPending b)
    (disconnected b) l (interactions b) (log b).
Definition stepped (b : relay) : relay :=
  mkRelay (mediaRequests b) (mediaClientIds b) (startings b) (mediaStarting b) (next_starting b) (detach b) (terminalPending b)
    (disconnected b) (microtasks b) (S (interactions b)) (log b).
Definition logged a (b : relay) : relay :=
  mkRelay (mediaRequests b) (mediaClientIds b) (startings b) (mediaStarting b) (next_starting b) (detach b) (terminalPending b)
    (disconnected b) (microtasks b) (interactions b) (log b ++ [a]).

Inductive relay_exn := Threw | AttachFailed.

Section methods.
Context (maxBufferedAmount : Z) (E : env).
Context (reenter : call → relay → relay).
Abbreviation B := (eff relay relay_exn).

Definition interact (a : action) : B nat :=
  b ← get;
  modify (logged a);;
  modify stepped;;
  modify (λ b', foldl (λ b' x, reenter x b') b' (reacts E (interactions b) a));;
  mret (interactions b).
(** The getter [bufferedAmount]. *)
Definition tick : B nat := b ← get; modify stepped;; mret (interactions b).
(** A call whose exception is caught and dropped. *)
Definition attempt (a : action) : B () := interact a;; mret tt.
(** A call whose exception goes on. *)
Definition broker (o : broker_op) : B nat := n ← interact (Broker o); require (returns E n) Threw;; mret n.

(** [#clearMedia] *)
Definition clearMedia : B () :=
  modify (λ b, set_starting None (set_client_ids ∅ (set_requests ∅ b))).
(** [#scheduleTerminal] *)
Definition scheduleTerminal (code : Z) (reason : string) : B () :=
  b ← get;
  if terminalPending b || disconnected b then mret tt
  else modify set_pending;; modify (λ b, set_microtasks (microtasks b ++ [(code, reason)]) b).

(** [disconnect] *)
Definition disconnect : B () :=
  b ← get;
  if disconnected b then mret tt
  else
    modify set_disconnected;;
    clearMedia;;
    n ← interact (Broker BDisconnect);
    b ← get;
    modify (set_detach false);;
    (if detach b then attempt Detached else mret tt);;
    attempt OnDisconnect;;
    require (returns E n) Threw.
Definition stop : B () :=
  b ← get;
  if disconnected b then mret tt
  else disconnect;; attempt (CloseSocket CLOSE_unavailable "server_stopping").
(** The microtask of [#scheduleTerminal]. *)
Definition terminal (code : Z) (reason : string) : B () :=
  b ← get;
  if disconnected b then mret tt else disconnect;; attempt (CloseSocket code reason).

(** [#send] *)
Definition send (f : GatewayBrowserRelayFrame) : B bool :=
  b ← get;
  if terminalPending b || disconnected b then mret false
  else
    let encoded := JSON_stringify (relay_json f) in
    n ← tick;
    match buffered_amount E n with
    | None => scheduleTerminal CLOSE_unavailable "relay_failure";; mret false
    | Some v =>
        let fits :=
          match v with
          | Some x => (bytes encoded <=? LIMITS_frameBytes) && (0 <=? x) && (x <=? MAX_SAFE_INTEGER)
                      && (x + bytes encoded <=? maxBufferedAmount)
          | None => false
          end in
        if negb fits then scheduleTerminal CLOSE_tooLarge "backpressure";; mret false
        else
          n ← interact (Sent f (default 0 v));
          if returns E n then mret true else scheduleTerminal CLOSE_unavailable "send_failed";; mret false
    end.

(** [#deliverMedia] *)
Definition deliverMedia (f : MediaResultFrame) : B bool :=
  b ← get;
  let '(rid, o) := Protocol.body f in
  let answer cid := modify (λ b, set_client_ids (mediaClientIds b ∖ {[ cid ]}) b);; send (MediaResultFrame_ cid o) in
  match mediaRequests b !! rid with
  | Some cid => modify (set_requests (delete rid (mediaRequests b)));; answer cid
  | None =>
      match mediaStarting b with
      | Some i =>
          match startings b !! i with
          | Some s =>
              if st_consumed s then mret false
              else modify (set_startings (<[ i := mkStarting (st_clientId s) true ]> (startings b)));; answer (st_clientId s)
          | None => mret false
          end
      | None => mret false
      end
  end.

(** [#requestMedia] *)
Definition requestMedia (cid route : string) : B () :=
  b ← get;
  if bool_decide (cid ∈ mediaClientIds b) then scheduleTerminal CLOSE_policy "duplicate_request"
  else
    let i := next_starting b in
    modify (logged (Accepted cid));;
    modify (λ b, set_client_ids ({[ cid ]} ∪ mediaClientIds b) b);;
    modify (new_starting cid);;
    n ← interact (Broker (BMedia route));
    modify (λ b, if bool_decide (mediaStarting b = Some i) then set_starting None b else b);;
    b ← get;
    let consumed := match startings b !! i with Some s => st_consumed s | None => true end in
    modify (set_startings (delete i (startings b)));;
    require (returns E n) Threw;;
    match media_ids E n with
    | Some rid => if consumed then mret tt else modify (λ b, set_requests (<[ rid := cid ]> (mediaRequests b)) b)
    | None =>
        if consumed then mret tt
        else
          modify (λ b, set_client_ids (mediaClientIds b ∖ {[ cid ]}) b);;
          send (MediaResultFrame_ cid (MediaFailed REJECTED));;
          mret tt
    end.

(** [#text] *)
Definition run_command (c : GatewayBrowserRelayCommand) : B () :=
  match c with
  | ViewerSelect i => broker (BSelect i);; mret tt
  | ViewerDeselect => broker BDeselect;; mret tt
  | ConsoleInputCommand p => broker (BInput p);; mret tt
  | MediaGetCommand rid route => requestMedia rid route
  end.
Definition caught (m : B ()) : B () := λ b,
  match m b with
  | (inl _, b) => scheduleTerminal CLOSE_unavailable "relay_failure" b
  | (inr _, b) => (inr tt, b)
  end.
Definition on_text (t : ResidentControl.body) : B () :=
  b ← get;
  if terminalPending b || disconnected b then mret tt
  else
    match decodeGatewayBrowserRelayCommand t with
    | None => scheduleTerminal CLOSE_policy "invalid_frame"
    | Some c => caught (run_command c)
    end.
Definition clears (r : SelectionReason) : bool :=
  match r with r_deselected | r_operation_failed | r_link_removed | r_backpressure | r_disconnected => true | _ => false end.
Definition perform (x : call) : B () :=
  match x with
  | Text t => on_text t
  | Binary => scheduleTerminal CLOSE_binary "text_required"
  | Closed | Disconnect => disconnect
  | Stop => stop
  | OnConsoleOutput f => send (ConsoleOutputFrame_ (payload f));; mret tt
  | OnMediaResult f => deliverMedia f;; mret tt
  | OnSelection r st => (if clears r then clearMedia else mret tt);; send (ViewerSelectionFrame r st);; mret tt
  end.
(** The constructor attaches the handlers. *)
Definition construct : B () :=
  n ← interact Attach;
  if returns E n then
    b ← get;
    if disconnected b then attempt Detached else modify (set_detach true)
  else disconnect;; throw AttachFailed.
End methods.

(** Calls of the outside, nested at most [depth] deep. *)
Fixpoint exec (m : Z) (E : env) (depth : nat) (x : call) (b : relay) : relay :=
  match depth with
  | O => (perform m E (λ _ b, b) x b).2
  | S depth => (perform m E (exec m E depth) x b).2
  end.
(** A turn of the event loop: a call, or the next microtask. *)
Inductive turn := Call (x : call) | Micro.
Definition take_turn (m : Z) (E : env) (depth : nat) (b : relay) (x : turn) : relay :=
  match x with
  | Call x => exec m E depth x b
  | Micro =>
      match microtasks b with
      | (code, reason) :: rest => (terminal E (exec m E depth) code reason (set_microtasks rest b)).2
      | [] => b
      end
  end.
Definition run (m : Z) (E : env) (depth : nat) (xs : list turn) : relay :=
  foldl (take_turn m E depth) (construct E (exec m E depth) new_relay).2 xs.

(** ** What is kept *)

Definition count (f : action → bool) (l : list action) : nat := length (List.filter f l).
Definition is_end (a : action) : bool := match a with Broker BDisconnect => true | _ => false end.
Definition is_notice (a : action) : bool := match a with OnDisconnect => true | _ => false end.
Definition is_detached (a : action) : bool := match a with Detached => true | _ => false end.
Definition is_accepted (c : string) (a : action) : bool := match a with Accepted c' => String.eqb c' c | _ => false end.
Definition is_result (c : string) (a : action) : bool := match a with Sent (MediaResultFrame_ c' _) _ => String.eqb c' c | _ => false end.
(** What may follow the end of the broker. *)
Definition cleanup (a : action) : Prop := match a with Detached | OnDisconnect | CloseSocket _ _ => True | _ => False end.
Definition quiet (l : list action) : Prop := ∀ l1 l2, l = l1 ++ Broker BDisconnect :: l2 → Forall cleanup l2.

Lemma count_snoc f l a : count f (l ++ [a]) = (count f l + if f a then 1 else 0)%nat.
Proof. unfold count. rewrite List.filter_app, length_app. simpl. by destruct (f a). Qed.
Lemma quiet_snoc l a : quiet l → cleanup a ∨ count is_end l = 0%nat → quiet (l ++ [a]).
Proof.
  intros Hq Ha l1 l2. destruct l2 as [|x l2 _] using rev_ind.
  - intros _. constructor.
  - change (Broker BDisconnect :: l2 ++ [x]) with ((Broker BDisconnect :: l2) ++ [x]). rewrite app_assoc. intros [Hl ->]%app_inj_tail.
    apply Forall_app. split; [by apply (Hq l1)|]. constructor; [|constructor]. destruct Ha as [Ha|Ha]; [done|].
    unfold count in Ha. rewrite Hl, List.filter_app in Ha. simpl in Ha. rewrite length_app in Ha. simpl in Ha. lia.
Qed.

(** At no time more results than accepted requests. *)
Definition answered (l : list action) : Prop := ∀ l1 c, l1 `prefix_of` l → (count (is_result c) l1 ≤ count (is_accepted c) l1)%nat.
Lemma answered_snoc l a :
  answered l → (∀ c, count (is_result c) (l ++ [a]) ≤ count (is_accepted c) (l ++ [a]))%nat → answered (l ++ [a]).
Proof.
  intros Hl Ha l1 c [l2 Hp]. destruct l2 as [|x l2 _] using rev_ind; [rewrite app_nil_r in Hp; by subst l1|].
  rewrite app_assoc in Hp. apply app_inj_tail in Hp as [-> _]. apply Hl. by exists l2.
Qed.

(** Answers that can still be given for a client's id. *)
Definition waiting_for (c : string) (p : string * string) : Prop := p.2 = c.
Definition starting_for (c : string) (p : nat * Starting) : Prop := st_clientId p.2 = c ∧ st_consumed p.2 = false.
#[export] Instance waiting_for_dec c p : Decision (waiting_for c p).
Proof. unfold waiting_for. apply _. Defined.
#[export] Instance starting_for_dec c p : Decision (starting_for c p).
Proof. unfold starting_for. apply _. Defined.
Definition owed (b : relay) (c : string) : nat :=
  (size (filter (waiting_for c) (mediaRequests b)) + size (filter (starting_for c) (startings b)))%nat.
Definition credit (k : option string) (c : string) : nat := if bool_decide (k = Some c) then 1 else 0.

Section sizes.
Context `{Countable K} {A : Type} (P : K * A → Prop) `{∀ x, Decision (P x)}.
Implicit Types (m : gmap K A).
Lemma size_filter_sub m m' : m ⊆ m' → (size (filter P m) ≤ size (filter P m'))%nat.
Proof. intros Hs. apply map_subseteq_size, map_filter_subseteq_mono, Hs. Qed.
Lemma size_filter_insert m k v : (size (filter P (<[k:=v]> m)) ≤ size (filter P m) + (if decide (P (k, v)) then 1 else 0))%nat.
Proof.
  rewrite map_filter_insert. case_decide.
  - destruct (filter P m !! k) eqn:He; [rewrite map_size_insert_Some by eauto; lia|rewrite map_size_insert_None by done; lia].
  - pose proof (size_filter_sub (delete k m) m (delete_subseteq _ _)). lia.
Qed.
Lemma size_filter_delete m k v :
  m !! k = Some v → (size (filter P (delete k m)) + (if decide (P (k, v)) then 1 else 0) = size (filter P m))%nat.
Proof.
  intros Hk. rewrite map_filter_delete. case_decide.
  - assert (filter P m !! k = Some v) as Hf by (by apply map_lookup_filter_Some). rewrite map_size_delete_Some by eauto.
    assert (size (filter P m) ≠ 0%nat) by (intros He%map_size_empty_inv; by rewrite He in Hf). lia.
  - rewrite delete_id; [lia|]. apply map_lookup_filter_None. right. intros x Hx. congruence.
Qed.
End sizes.

Section kept.
Context (m : Z) (E : env).

Definition sent_ok (a : action) : Prop :=
  match a with
  | Sent f n => let t := bytes (JSON_stringify (relay_json f)) in 0 ≤ n ∧ t ≤ LIMITS_frameBytes ∧ n + t ≤ m
  | _ => True
  end.
Record core (k : option string) (b : relay) : Prop := {
  i_sent : Forall sent_ok (log b);
  i_ends : count is_end (log b) = if disconnected b then 1%nat else 0%nat;
  i_notice : (count is_notice (log b) ≤ count is_end (log b))%nat;
  i_detached : (count is_detached (log b) + (if detach b then 1 else 0) ≤ 1)%nat;
  i_quiet : quiet (log b);
  i_pending : disconnected b = true → terminalPending b = true;
  i_keys : ∀ i, is_Some (startings b !! i) → (i < next_starting b)%nat;
  i_answered : answered (log b);
  i_answers : ∀ c, (count (is_result c) (log b) + owed b c + credit k c ≤ count (is_accepted c) (log b))%nat;
}.
(** A termination that was announced is under way. *)
Definition live (b : relay) : Prop := terminalPending b = true → disconnected b = true ∨ microtasks b ≠ [].
Definition inv (k : option string) (b : relay) : Prop := core k b ∧ live b.
(** What no call takes back. *)
Definition to_detach (b : relay) : nat := if detach b then 1 else 0.
Record grows (b b' : relay) : Prop := {
  mo_ended : disconnected b = true → disconnected b' = true ∧ count is_notice (log b') = count is_notice (log b);
  mo_detach : detach b = false → detach b' = false;
  mo_held : disconnected b' = false → detach b' = detach b;
  mo_detached : (count is_detached (log b') + to_detach b' = count is_detached (log b) + to_detach b)%nat;
  mo_starting : ∀ i s, startings b !! i = Some s → ∃ s', startings b' !! i = Some s' ∧ st_clientId s' = st_clientId s;
  mo_next : (next_starting b ≤ next_starting b')%nat;
}.
(** A call that ends the relay has ended it when it returns. *)
Definition settles (b b' : relay) : Prop :=
  disconnected b = false → disconnected b' = true → count is_notice (log b') = 1%nat ∧ detach b' = false.
Definition mono (b b' : relay) : Prop := grows b b' ∧ settles b b'.
Lemma relay_grows_refl b : grows b b.
Proof. split; eauto. Qed.
Lemma relay_grows_trans b1 b2 b3 : grows b1 b2 → grows b2 b3 → grows b1 b3.
Proof.
  intros [A1 A2 Ah A3 A4 A5] [B1 B2 Bh B3 B4 B5]. split; try lia.
  - intros H. destruct (A1 H) as [H1 H2]. destruct (B1 H1) as [H3 H4]. split; [done|congruence].
  - auto.
  - intros H. rewrite (Bh H). apply Ah. destruct (disconnected b2) eqn:H2; [|done]. destruct (B1 eq_refl). congruence.
  - intros i s Hs. destruct (A4 i s Hs) as (s' & Hs' & H1). destruct (B4 i s' Hs') as (s'' & Hs'' & H2). exists s''. split; [done|congruence].
Qed.
Lemma settles_same b b' : disconnected b' = disconnected b → settles b b'.
Proof. intros H Hf Ht. congruence. Qed.
Lemma mono_refl b : mono b b.
Proof. split; [apply relay_grows_refl|by apply settles_same]. Qed.
Lemma mono_trans b1 b2 b3 : mono b1 b2 → mono b2 b3 → mono b1 b3.
Proof.
  intros [G1 S1] [G2 S2]. split; [by eapply relay_grows_trans|]. intros Hf Ht. destruct (disconnected b2) eqn:H2; [|by apply S2].
  destruct (S1 Hf H2) as [Hn Hd]. destruct (mo_ended _ _ G2 H2) as [_ ->]. split; [done|]. by apply (mo_detach _ _ G2).
Qed.
Lemma core_weaken k b : core k b → core None b.
Proof. intros [? ? ? ? ? ? ? ? H]. split; try done. intros c. specialize (H c). unfold credit in *. simpl. lia. Qed.

(** What an action may do to the log. *)
Definition allowed (a : action) (b : relay) : Prop :=
  sent_ok a ∧ is_end a = false
  ∧ match a with
    | Detached => (count is_detached (log b) = 0)%nat ∧ detach b = false
    | OnDisconnect => (count is_notice (log b) < count is_end (log b))%nat
    | CloseSocket _ _ => True
    | _ => disconnected b = false
    end.
Definition spent (a : action) : option string := match a with Sent (MediaResultFrame_ c _) _ => Some c | _ => None end.
Lemma core_logged k a b : core k b → allowed a b → spent a = None ∨ spent a = k → core (if spent a is Some _ then None else k) (stepped (logged a b)).
Proof.
  intros [H1 H2 H3 H4 H5 H6 H7 Hp H8] (Hs & He & Ha) Hk.
  assert (∀ c, (count (is_result c) (log b ++ [a]) + owed b c + credit (if spent a is Some _ then None else k) c
                ≤ count (is_accepted c) (log b ++ [a]))%nat) as Hans.
  { intros c. specialize (H8 c). rewrite !count_snoc. unfold credit in *. destruct a as [| | |o|c'|f n|code reason]; simpl in *; try lia.
    destruct f as [r st|p|c' o]; simpl in *; try lia. destruct Hk as [|Hk]; [done|]. subst k. simpl.
    destruct (String.eqb_spec c' c) as [->|Hne]; [rewrite bool_decide_eq_true_2 in H8 by done; lia|lia]. }
  split; simpl.
  - apply Forall_app. split; [done|by repeat constructor].
  - by rewrite count_snoc, He, Nat.add_0_r.
  - rewrite !count_snoc, He. destruct a; simpl in *; lia.
  - rewrite count_snoc. destruct a; simpl in *; try lia. destruct Ha as [-> ->]. simpl. lia.
  - apply quiet_snoc; [done|]. destruct a; simpl in *; try (by left); right; rewrite H2; by rewrite Ha.
  - done.
  - done.
  - apply answered_snoc; [done|]. intros c. specialize (Hans c). lia.
  - exact Hans.
Qed.
Lemma relay_mono_logged a b : is_notice a = false → is_detached a = false → mono b (stepped (logged a b)).
Proof.
  intros H1 H2. split; [|by apply settles_same]. split; simpl; eauto.
  - intros Hd. split; [done|]. rewrite count_snoc, H1. lia.
  - rewrite count_snoc, H2. unfold to_detach. simpl. lia.
Qed.

(** ** The methods *)

Context (reenter : call → relay → relay).
Context (reenter_ok : ∀ x b, inv None b → inv None (reenter x b) ∧ mono b (reenter x b)).
Abbreviation interact := (interact E reenter).
Definition good (b0 b : relay) : Prop := inv None b ∧ mono b0 b.
Abbreviation keeps M b0 b := (wp M (λ _, good b0) (λ _, good b0) b).

Lemma relay_reenter_all xs b : inv None b → good b (foldl (λ b' x, reenter x b') b xs).
Proof using reenter_ok.
  revert b. induction xs as [|x xs IH]; intros b Hb; [split; [done|apply mono_refl]|]. simpl.
  destruct (reenter_ok x b Hb) as [H1 H2]. destruct (IH _ H1) as [H3 H4]. split; [done|by eapply mono_trans].
Qed.
Lemma relay_wp_interact a b (Q : nat → relay → Prop) X :
  inv None (stepped (logged a b)) → (∀ b', good (stepped (logged a b)) b' → Q (interactions b) b') → wp (interact a) Q X b.
Proof using reenter_ok. intros Hi HQ. unfold interact. wp_run. apply HQ. by apply relay_reenter_all. Qed.
(** An action of a relay that is not ended. *)
Lemma wp_act k a b0 b (Q : nat → relay → Prop) X :
  inv k b → mono b0 b → allowed a b → spent a = k → is_notice a = false → is_detached a = false →
  (∀ n b', good b0 b' → mono b b' → Q n b') → wp (interact a) Q X b.
Proof using reenter_ok.
  intros [Hc Hl] Hm Ha Hk Hn Hd HQ. pose proof (relay_mono_logged a b Hn Hd) as Hm1.
  apply relay_wp_interact.
  - split; [|exact Hl]. pose proof (core_logged k a b Hc Ha (or_intror Hk)) as H. rewrite Hk in H. by destruct k.
  - intros b' [H1 H2]. assert (mono b b') as H3 by by eapply mono_trans. apply HQ; [split; [done|by eapply mono_trans]|done].
Qed.

(** A change of fields that are not in the log. *)
Lemma mono_fields b0 b b' :
  mono b0 b → log b' = log b → detach b' = detach b → disconnected b' = disconnected b → startings b' = startings b →
  next_starting b' = next_starting b → mono b0 b'.
Proof.
  intros [[M1 M2 Mh M3 M4 M5] Ms] Hl Hd He Hs Hn. unfold mono, settles, to_detach in *.
  split; [split; unfold to_detach; rewrite ?Hl, ?Hd, ?He, ?Hs, ?Hn; done|]. by rewrite Hl, Hd, He.
Qed.
Lemma keeps_scheduleTerminal code reason b0 b : inv None b → mono b0 b → keeps (scheduleTerminal code reason) b0 b.
Proof.
  intros [[H1 H2 H3 H4 H5 H6 H7 Hp H8] Hl] Hm. unfold scheduleTerminal. wp_run; (split; [|by eapply mono_fields]).
  - by split.
  - split; [by split|]. intros _. right. simpl. by destruct (microtasks b).
Qed.
Lemma core_cleared b : core None b → core None (set_starting None (set_client_ids ∅ (set_requests ∅ b))).
Proof.
  intros [H1 H2 H3 H4 H5 H6 H7 Hp H8]. split; try done. intros c. specialize (H8 c). unfold owed in *. simpl.
  rewrite map_filter_empty, map_size_empty. lia.
Qed.
Lemma keeps_clearMedia b0 b : inv None b → mono b0 b → keeps clearMedia b0 b.
Proof. intros [Hc Hl] Hm. unfold clearMedia. wp_run. split; [|by eapply mono_fields]. split; [by apply core_cleared|done]. Qed.

(** The relay in the middle of its end: what is still to do is done once. *)
Definition ending (b : relay) : Prop := core None b ∧ disconnected b = true ∧ count is_notice (log b) = 0%nat.
Lemma ending_after b b' : ending b → good b b' → ending b'.
Proof. intros (Hc & Hd & Hn) [[Hc' _] [Hm _]]. destruct (mo_ended _ _ Hm Hd). split_and!; [done|done|congruence]. Qed.
Lemma ended_live b : disconnected b = true → live b.
Proof. intros H _. by left. Qed.
Lemma wp_end {A} (k : nat → eff relay relay_exn A) b Q X :
  core None b → disconnected b = false →
  (∀ n b', ending b' → grows b b' → wp (k n) Q X b') →
  wp (modify set_disconnected;; clearMedia;; n ← interact (Broker BDisconnect); k n) Q X b.
Proof using reenter_ok.
  intros Hc Hd HQ. pose proof (core_cleared b Hc) as [H1 H2 H3 H4 H5 H6 H7 Hp H8]. simpl in *. rewrite Hd in H2. unfold clearMedia. wp_run.
  assert (ending (stepped (logged (Broker BDisconnect) (set_starting None (set_client_ids ∅ (set_requests ∅ (set_disconnected b))))))) as He.
  { split_and!; simpl; [split; simpl|done|rewrite count_snoc; simpl; lia].
    - apply Forall_app. split; [done|by repeat constructor].
    - rewrite count_snoc. simpl. lia.
    - rewrite !count_snoc. simpl. lia.
    - by rewrite count_snoc, Nat.add_0_r.
    - apply quiet_snoc; [done|]. by right.
    - done.
    - done.
    - apply answered_snoc; [done|]. intros c. specialize (H8 c). rewrite !count_snoc. simpl. lia.
    - intros c. specialize (H8 c). rewrite !count_snoc. simpl. unfold owed in *. simpl in *. lia. }
  apply relay_wp_interact.
  - split; [apply He|by apply ended_live].
  - intros b' Hg. apply HQ; [by eapply ending_after|]. destruct Hg as [_ [[M1 M2 Mh M3 M4 M5] _]]. simpl in *. split; simpl; try done.
    + congruence.
    + rewrite M3, count_snoc. unfold to_detach. simpl. lia.
Qed.
Lemma core_cleanup a b : core None b → is_detached a || is_notice a = true → allowed a b → core None (stepped (logged a b)).
Proof. intros Hc Ha Hal. pose proof (core_logged None a b Hc Hal). by destruct a; simpl in *; auto. Qed.
Lemma wp_attempt a b (Q : () → relay → Prop) X :
  inv None (stepped (logged a b)) → (∀ b', good (stepped (logged a b)) b' → Q tt b') → wp (attempt E reenter a) Q X b.
Proof using reenter_ok. intros Hi HQ. unfold attempt. apply wp_bind, relay_wp_interact; [done|]. intros b' Hg. wp_run. by apply HQ. Qed.

(** The end of the end: the owner is told. *)
Lemma ends_told b0 b : ending b → disconnected b0 = false → detach b = false → grows b0 b →
  inv None (stepped (logged OnDisconnect b)) ∧ mono b0 (stepped (logged OnDisconnect b)).
Proof.
  intros (Hc & Hd & Hn) Hd0 Hdt [M1 M2 Mh M3 M4 M5]. split.
  - split; [|by apply ended_live]. apply core_cleanup; [done|done|]. split_and!; [done|done|]. rewrite Hn, (i_ends _ _ Hc), Hd. lia.
  - split; [split; simpl; try done|].
    + congruence.
    + rewrite count_snoc. unfold to_detach in *. simpl. lia.
    + intros _ _. simpl. rewrite count_snoc. simpl. split; [lia|done].
Qed.
Definition ended (b0 b : relay) : Prop := good b0 b ∧ disconnected b = true.
Lemma wp_told r b0 b : ending b → disconnected b0 = false → detach b = false → grows b0 b →
  wp (attempt E reenter OnDisconnect;; require r Threw) (λ _, ended b0) (λ _, ended b0) b.
Proof using reenter_ok.
  intros He Hd0 Hdt Hg. destruct (ends_told _ _ He Hd0 Hdt Hg) as [Hi Hm]. apply wp_bind, wp_attempt; [done|]. intros b' [Hi' Hm'].
  assert (ended b0 b'); [|wp_run; done]. split; [split; [done|by eapply mono_trans]|]. apply (mo_ended _ _ (proj1 Hm')). apply He.
Qed.
Lemma ending_released b : ending b → ending (set_detach false b) ∧ (detach b = true → ending (stepped (logged Detached (set_detach false b)))).
Proof.
  intros (Hc & Hd & Hn). pose proof Hc as [H1 H2 H3 H4 H5 H6 H7 Hp H8].
  assert (core None (set_detach false b)) as Hc' by (split; try done; simpl; lia).
  split; [by split_and!|]. intros Hdt. rewrite Hdt in H4. split_and!.
  - apply core_cleanup; [done|done|]. split_and!; [done|done|simpl; lia|done].
  - done.
  - simpl. rewrite count_snoc. simpl. lia.
Qed.
Lemma relay_keeps_disconnect b0 b : core None b → mono b0 b → wp (disconnect E reenter) (λ _, ended b0) (λ _, ended b0) b.
Proof using reenter_ok.
  intros Hc Hm. unfold disconnect. apply wp_bind, wp_get. apply wp_if; intros Hd.
  { apply wp_ret. split; [split; [split; [done|by apply ended_live]|done]|done]. }
  assert (disconnected b0 = false) as Hd0.
  { destruct (disconnected b0) eqn:H0; [|done]. destruct (mo_ended _ _ (proj1 Hm) H0). congruence. }
  apply wp_end; [done|done|]. intros n b1 He Hg1. destruct (ending_released _ He) as [He1 He2].
  pose proof (relay_grows_trans _ _ _ (proj1 Hm) Hg1) as [M1 M2 Mh M3 M4 M5].
  pose proof (proj1 (proj2 He)) as Hde. apply wp_bind, wp_get, wp_bind, wp_modify, wp_bind, wp_if; intros Hdt.
  - apply wp_attempt; [split; [by apply He2|by apply ended_live, He2]|]. intros b2 Hg2.
    apply wp_told; [eapply ending_after; [|done]; auto|done|by apply (mo_detach _ _ (proj1 (proj2 Hg2)))|].
    eapply relay_grows_trans; [|apply Hg2]. split; simpl; try done; [congruence..|]. rewrite count_snoc. unfold to_detach in *. simpl. rewrite Hdt in M3. lia.
  - apply wp_ret, wp_told; [done|done|done|]. split; simpl; try done; [congruence|]. unfold to_detach in *. simpl. rewrite Hdt in M3. lia.
Qed.
Abbreviation ends M b0 b := (wp M (λ _, ended b0) (λ _, ended b0) b).
Lemma keeps_closing code reason b0 b : core None b → mono b0 b → ends (disconnect E reenter;; attempt E reenter (CloseSocket code reason)) b0 b.
Proof using reenter_ok.
  intros Hc Hm. apply wp_bind. eapply wp_mono; [by apply relay_keeps_disconnect| |done]. intros _ b1 [[[Hc1 Hl1] Hm1] Hd1].
  assert (allowed (CloseSocket code reason) b1) as Ha by done.
  apply wp_attempt; [split; [apply (core_logged None _ _ Hc1 Ha); by left|by apply ended_live]|]. intros b2 [Hi2 Hm2].
  split; [split; [done|]|by apply (mo_ended _ _ (proj1 Hm2))]. eapply mono_trans; [exact Hm1|]. eapply mono_trans; [by apply (relay_mono_logged (CloseSocket code reason))|exact Hm2].
Qed.
Lemma keeps_terminal code reason b0 b : core None b → mono b0 b → ends (terminal E reenter code reason) b0 b.
Proof using reenter_ok.
  intros Hc Hm. unfold terminal. apply wp_bind, wp_get, wp_if; intros Hd; [|by apply keeps_closing].
  apply wp_ret. split; [split; [split; [done|by apply ended_live]|done]|done].
Qed.
Lemma relay_keeps_stop b0 b : core None b → mono b0 b → ends (stop E reenter) b0 b.
Proof using reenter_ok. apply keeps_terminal. Qed.

(** A frame is sent for the answer it takes. *)
Definition frame_credit (f : GatewayBrowserRelayFrame) : option string := match f with MediaResultFrame_ c _ => Some c | _ => None end.
Lemma relay_inv_weaken k b : inv k b → inv None b.
Proof. intros [? ?]. split; [by eapply core_weaken|done]. Qed.
Lemma core_stepped k b : core k b → core k (stepped b).
Proof. intros []. by split. Qed.
Lemma relay_keeps_send f b0 b : inv (frame_credit f) b → mono b0 b → keeps (send m E reenter f) b0 b.
Proof using reenter_ok.
  intros Hi Hm. pose proof (relay_inv_weaken _ _ Hi) as Hw. unfold send. apply wp_bind, wp_get, wp_if; intros Hg; [by apply wp_ret|].
  apply orb_false_iff in Hg as [_ Hd]. unfold tick. wp_run.
  assert (inv (frame_credit f) (stepped b)) as Hi1 by (destruct Hi as [Hc Hl]; split; [by apply core_stepped|exact Hl]).
  assert (mono b0 (stepped b)) as Hm1 by by eapply mono_fields.
  assert (∀ code reason (b' : relay), good b0 b' → keeps (scheduleTerminal code reason;; mret false) b0 b') as Hfail.
  { intros code reason b' [Hi' Hm']. apply wp_bind. eapply wp_mono; [by apply keeps_scheduleTerminal| |done]. intros [] b'' H. by apply wp_ret. }
  assert (good b0 (stepped b)) as Hg1 by (split; [by eapply relay_inv_weaken|done]).
  destruct (buffered_amount E (interactions b)) as [v|]; [|by apply Hfail].
  apply wp_if; intros Hf; [by apply Hfail|]. destruct v as [x|]; [|done]. apply negb_false_iff in Hf. rewrite !andb_true_iff, !Z.leb_le in Hf. apply wp_bind.
  eapply wp_act; [exact Hi1|exact Hm1| |by destruct f|done|done|].
  - split_and!; simpl; try done; lia.
  - intros n b' Hg' _. apply wp_if; intros _; [by apply wp_ret|by apply Hfail].
Qed.

(** *** Media *)

(** The books on answers are all an invariant says of the requests. *)
Lemma inv_books k k' b b' :
  inv k b → log b' = log b → detach b' = detach b → disconnected b' = disconnected b → terminalPending b' = terminalPending b →
  microtasks b' = microtasks b → next_starting b' = next_starting b → (∀ i, is_Some (startings b' !! i) → is_Some (startings b !! i)) →
  (∀ c, owed b' c + credit k' c ≤ owed b c + credit k c)%nat → inv k' b'.
Proof.
  intros [[H1 H2 H3 H4 H5 H6 H7 Hp H8] Hl] El Ed Ee Et Em En Hs Hb. split; [|unfold live; by rewrite Et, Ee, Em].
  split; rewrite ?El, ?Ed, ?Ee, ?Et, ?En; try done; [by auto|]. intros c. specialize (H8 c). specialize (Hb c). lia.
Qed.
Ltac books := repeat case_decide; try lia; exfalso; unfold waiting_for, starting_for in *; simpl in *; naive_solver.
Lemma credit_self c c' : credit (Some c) c' = if decide (c = c') then 1%nat else 0%nat.
Proof. unfold credit. case_decide; [subst; by rewrite bool_decide_eq_true_2|rewrite bool_decide_eq_false_2; congruence]. Qed.
Lemma inv_taken b rid cid ids :
  inv None b → mediaRequests b !! rid = Some cid →
  inv (Some cid) (set_client_ids ids (set_requests (delete rid (mediaRequests b)) b)).
Proof.
  intros Hi Hr. eapply (inv_books None); [exact Hi|done..|]. intros c. rewrite credit_self. unfold owed, credit. simpl.
  pose proof (size_filter_delete (waiting_for c) _ _ _ Hr) as H. books.
Qed.
Lemma inv_consumed b i s ids :
  inv None b → startings b !! i = Some s → st_consumed s = false →
  inv (Some (st_clientId s)) (set_client_ids ids (set_startings (<[ i := mkStarting (st_clientId s) true ]> (startings b)) b)).
Proof.
  intros Hi Hs Hc. eapply (inv_books None); [exact Hi|done..| |].
  - intros j. simpl. destruct (decide (i = j)) as [->|Hne]; [by rewrite Hs|by rewrite lookup_insert_ne].
  - intros c. rewrite credit_self. unfold owed, credit. simpl. rewrite <-insert_delete_eq.
    pose proof (size_filter_delete (starting_for c) _ _ _ Hs) as H.
    pose proof (size_filter_insert (starting_for c) (delete i (startings b)) i (mkStarting (st_clientId s) true)) as H'.
    books.
Qed.
Lemma mono_consumed b0 b i s ids :
  mono b0 b → startings b !! i = Some s →
  mono b0 (set_client_ids ids (set_startings (<[ i := mkStarting (st_clientId s) true ]> (startings b)) b)).
Proof.
  intros [G Hs] Hi. split; [|exact Hs]. eapply relay_grows_trans; [exact G|]. split; simpl; auto.
  intros j s'. destruct (decide (i = j)) as [<-|Hne]; [rewrite lookup_insert_eq; naive_solver|rewrite lookup_insert_ne by done; eauto].
Qed.
Lemma keeps_deliverMedia f b0 b : inv None b → mono b0 b → keeps (deliverMedia m E reenter f) b0 b.
Proof using reenter_ok.
  intros Hi Hm. unfold deliverMedia. apply wp_bind, wp_get. destruct (Protocol.body f) as [rid o].
  destruct (mediaRequests b !! rid) as [cid|] eqn:Hr.
  { wp_run. apply relay_keeps_send; [by apply inv_taken|by eapply mono_fields]. }
  destruct (mediaStarting b) as [i|]; [|by apply wp_ret]. destruct (startings b !! i) as [s|] eqn:Hs; [|by apply wp_ret].
  apply wp_if; intros Hc; [by apply wp_ret|]. wp_run. apply relay_keeps_send; [by apply inv_consumed|by apply mono_consumed].
Qed.
(** A request that is started, and one that is over. *)
Definition accepted (cid : string) (b : relay) : relay :=
  new_starting cid (set_client_ids ({[ cid ]} ∪ mediaClientIds b) (logged (Accepted cid) b)).
Lemma inv_accepted cid b : inv None b → disconnected b = false → inv None (accepted cid b).
Proof.
  intros [Hc Hl] Hd. split; [|exact Hl]. assert (allowed (Accepted cid) b) as Ha by done.
  pose proof (core_logged None _ _ Hc Ha (or_introl eq_refl)) as [H1 H2 H3 H4 H5 H6 H7 Hp H8]. pose proof (i_answers _ _ Hc) as H9. split; try done.
  - intros i. simpl. destruct (decide (next_starting b = i)) as [<-|Hne]; [lia|]. rewrite lookup_insert_ne by done. intros Hs. specialize (H7 i Hs). simpl in H7. lia.
  - intros c. specialize (H9 c). unfold owed, credit in *. simpl in *. rewrite !count_snoc. simpl.
    pose proof (size_filter_insert (starting_for c) (startings b) (next_starting b) (mkStarting cid false)).
    destruct (String.eqb_spec cid c); books.
Qed.
Lemma mono_accepted cid b : inv None b → mono b (accepted cid b).
Proof.
  intros [Hc _]. split; [split|by apply settles_same]; simpl; auto.
  - intros Hd. split; [done|]. rewrite count_snoc. simpl. lia.
  - rewrite count_snoc. unfold to_detach. simpl. lia.
  - intros i s Hs. exists s. split; [|done]. rewrite lookup_insert_ne; [done|]. intros <-. pose proof (i_keys _ _ Hc (next_starting b)). rewrite Hs in *.
    enough (next_starting b < next_starting b)%nat by lia. eauto.
Qed.
Definition over (i : nat) (b : relay) : relay := set_startings (delete i (startings b)) b.
Lemma inv_over b i s : inv None b → startings b !! i = Some s → inv (if st_consumed s then None else Some (st_clientId s)) (over i b).
Proof.
  intros Hi Hs. eapply (inv_books None); [exact Hi|done..| |].
  - intros j [x Hx]. simpl in Hx. apply lookup_delete_Some in Hx as [_ Hx]. by rewrite Hx.
  - intros c. pose proof (size_filter_delete (starting_for c) _ _ _ Hs). unfold owed. simpl.
    destruct (st_consumed s) eqn:Hc; [unfold credit; simpl; lia|]. rewrite credit_self. unfold credit. simpl. books.
Qed.
Lemma mono_over b0 b1 b i :
  mono b0 b1 → core None b1 → i = next_starting b1 → mono b0 b → mono b0 (over i b).
Proof.
  intros [G1 _] Hc -> [[M1 M2 Mh M3 M4 M5] Hs]. split; [|exact Hs]. split; try done. intros j s Hj. simpl.
  destruct (mo_starting _ _ G1 j s Hj) as (s1 & Hs1 & _). pose proof (i_keys _ _ Hc j ltac:(eauto)) as Hlt.
  rewrite lookup_delete_ne by lia. by apply M4.
Qed.
Lemma inv_known b rid cid : inv (Some cid) b → inv None (set_requests (<[ rid := cid ]> (mediaRequests b)) b).
Proof.
  intros Hi. eapply inv_books; [exact Hi|done..|]. intros c. rewrite credit_self. unfold owed, credit. simpl.
  pose proof (size_filter_insert (waiting_for c) (mediaRequests b) rid cid). books.
Qed.
Lemma inv_settled k b : inv k b → inv k (set_starting None b).
Proof. intros Hi. by eapply inv_books. Qed.
Lemma inv_forgot k b ids : inv k b → inv k (set_client_ids ids b).
Proof. intros Hi. by eapply inv_books. Qed.
(** What follows the broker's answer. *)
Lemma keeps_answered n i cid b0 b s : 
  inv (if st_consumed s then None else Some cid) (over i b) → mono b0 (over i b) →
  keeps (require (returns E n) Threw;;
         match media_ids E n with
         | Some rid => if st_consumed s then mret tt else modify (λ b, set_requests (<[ rid := cid ]> (mediaRequests b)) b)
         | None =>
             if st_consumed s then mret tt
             else modify (λ b, set_client_ids (mediaClientIds b ∖ {[ cid ]}) b);; send m E reenter (MediaResultFrame_ cid (MediaFailed REJECTED));; mret tt
         end) b0 (over i b).
Proof using reenter_ok.
  intros Hi Hm. assert (good b0 (over i b)) as Hg by (split; [by eapply relay_inv_weaken|done]).
  apply wp_bind, wp_require; intros _; [|done]. destruct (media_ids E n) as [rid|]; (apply wp_if; intros Hc; [by apply wp_ret|]); rewrite Hc in Hi.
  - wp_run. split; [by apply inv_known|by eapply mono_fields].
  - wp_run. eapply wp_mono; [apply relay_keeps_send; [by apply inv_forgot|by eapply mono_fields]| |done]. intros a b' H. by apply wp_ret.
Qed.
Lemma keeps_requestMedia cid route b0 b : inv None b → mono b0 b → disconnected b = false → keeps (requestMedia m E reenter cid route) b0 b.
Proof using reenter_ok.
  intros Hi Hm Hd. unfold requestMedia. apply wp_bind, wp_get, wp_if; intros Hdup; [by apply keeps_scheduleTerminal|].
  apply wp_bind, wp_modify, wp_bind, wp_modify, wp_bind, wp_modify, wp_bind.
  change (new_starting cid _) with (accepted cid b). pose proof (mono_accepted cid b Hi) as Hma.
  eapply wp_act; [by apply inv_accepted|exact (mono_trans _ _ _ Hm Hma)|done|done|done|done|]. intros n b2 [Hi2 Hm2] [Hg2 _].
  destruct (mo_starting _ _ Hg2 (next_starting b) (mkStarting cid false)) as (s & Hs & Hcid); [by apply lookup_insert_eq|]. simpl in Hcid.
  apply wp_bind, wp_modify.
  assert (∃ b3, (if bool_decide (mediaStarting b2 = Some (next_starting b)) then set_starting None b2 else b2) = b3
    ∧ inv None b3 ∧ mono b0 b3 ∧ startings b3 !! next_starting b = Some s) as (b3 & -> & Hi3 & Hm3 & Hs3).
  { eexists. split; [done|]. destruct (bool_decide (mediaStarting b2 = _)); split_and!; try done; [by apply inv_settled|by eapply mono_fields]. }
  apply wp_bind, wp_get, wp_bind, wp_modify. rewrite Hs3. apply (keeps_answered n (next_starting b) cid b0 b3 s).
  - rewrite <-Hcid. by apply inv_over.
  - by eapply mono_over; [exact Hm|apply Hi|..].
Qed.

(** *** Calls *)

Lemma keeps_broker o b0 b : inv None b → mono b0 b → disconnected b = false → is_end (Broker o) = false → keeps (broker E reenter o;; mret tt) b0 b.
Proof using reenter_ok.
  intros Hi Hm Hd He. unfold broker. apply wp_bind, wp_bind. eapply wp_act; [exact Hi|exact Hm|done|done|done|done|].
  intros n b' Hg _. wp_run; done.
Qed.
Lemma keeps_on_text t b0 b : inv None b → mono b0 b → keeps (on_text m E reenter t) b0 b.
Proof using reenter_ok.
  intros Hi Hm. unfold on_text. apply wp_bind, wp_get, wp_if; intros Hg; [by apply wp_ret|]. apply orb_false_iff in Hg as [_ Hd].
  destruct (decodeGatewayBrowserRelayCommand t) as [c|]; [|by apply keeps_scheduleTerminal].
  assert (keeps (run_command m E reenter c) b0 b) as Hc by (destruct c; simpl; [by apply keeps_broker..|by apply keeps_requestMedia]).
  unfold caught, wp in *. destruct (run_command m E reenter c b) as [[e|[]] b']; [|done]. destruct Hc. by apply keeps_scheduleTerminal.
Qed.
Lemma ends_keeps {A} (M : eff relay relay_exn A) b0 b : ends M b0 b → keeps M b0 b.
Proof. intros H. eapply wp_mono; [exact H|by intros ? ? []..]. Qed.
Lemma keeps_then {A B} (M : eff relay relay_exn A) (k : A → eff relay relay_exn B) b0 b :
  keeps M b0 b → (∀ a b', good b0 b' → keeps (k a) b0 b') → keeps (M ≫= k) b0 b.
Proof. intros H Hk. apply wp_bind. by eapply wp_mono. Qed.
Lemma relay_keeps_perform x b0 b : inv None b → mono b0 b → keeps (perform m E reenter x) b0 b.
Proof using reenter_ok.
  intros Hi Hm. pose proof (proj1 Hi) as Hc.
  destruct x as [t| | | | |f|f|r st]; simpl;
    [by apply keeps_on_text|by apply keeps_scheduleTerminal|by apply ends_keeps, relay_keeps_disconnect|by apply ends_keeps, relay_keeps_disconnect
    |by apply ends_keeps, relay_keeps_stop|..].
  - apply keeps_then; [by apply relay_keeps_send|]. intros a b' H. by apply wp_ret.
  - apply keeps_then; [by apply keeps_deliverMedia|]. intros a b' H. by apply wp_ret.
  - apply keeps_then; [destruct (clears r); [by apply keeps_clearMedia|by apply wp_ret]|]. intros [] b1 [Hi1 Hm1].
    apply keeps_then; [by apply relay_keeps_send|]. intros a b' H. by apply wp_ret.
Qed.
Lemma performed x b : inv None b → good b (perform m E reenter x b).2.
Proof using reenter_ok.
  intros Hi. pose proof (relay_keeps_perform x b b Hi (mono_refl b)) as H. unfold wp in H. by destruct (perform m E reenter x b) as [[] b'].
Qed.
End kept.

(** ** The whole relay *)

Section runs.
Context (m : Z) (E : env) (depth : nat).

Lemma exec_good d x b : inv m None b → good m b (exec m E d x b).
Proof.
  revert x b. induction d as [|d IH]; intros x b Hi; simpl.
  - apply performed; [|done]. intros ? b' Hb'. split; [done|apply mono_refl].
  - apply performed; [|done]. intros x' b' Hb'. exact (IH x' b' Hb').
Qed.
(** Between turns, an end is complete. *)
Definition settled (b : relay) : Prop := disconnected b = true → count is_notice (log b) = 1%nat ∧ detach b = false.
Lemma settled_after b b' : settled b → mono b b' → settled b'.
Proof.
  intros Hb [G Hs] Hd. destruct (disconnected b) eqn:Hd0; [|by apply Hs]. destruct (Hb Hd0) as [Hn Hdt].
  destruct (mo_ended _ _ G Hd0) as [_ ->]. split; [done|]. by apply (mo_detach _ _ G).
Qed.
Lemma micro_good b : inv m None b → good m b (take_turn m E depth b Micro) ∧ (microtasks b ≠ [] → disconnected (take_turn m E depth b Micro) = true).
Proof.
  intros Hi. simpl. destruct (microtasks b) as [|[code reason] rest]; [split; [split; [done|apply mono_refl]|done]|].
  assert (core m None (set_microtasks rest b)) as Hc by (destruct Hi as [[] _]; by split).
  assert (mono b (set_microtasks rest b)) as Hm by (by eapply mono_fields; [apply mono_refl|..]).
  pose proof (keeps_terminal m E (exec m E depth) (exec_good depth) code reason _ _ Hc Hm) as H. unfold wp in H.
  destruct (terminal E (exec m E depth) code reason (set_microtasks rest b)) as [[] b']; destruct H; auto.
Qed.
Lemma turn_good b x : inv m None b → good m b (take_turn m E depth b x).
Proof. intros Hi. destruct x as [x|]; [by apply exec_good|by apply micro_good]. Qed.

Lemma inv_new : inv m None new_relay.
Proof.
  split; [|done]. split; simpl; try done; try lia.
  - by intros [|] l2.
  - by intros i [].
  - intros l1 c ->%prefix_nil_inv. done.
Qed.
Definition attached (r : (relay_exn + ()) * relay) : Prop :=
  inv m None r.2 ∧ settled r.2
  ∧ (r.1 = inr tt → (count is_detached (log r.2) + to_detach r.2 = 1)%nat ∧ (disconnected r.2 = false → detach r.2 = true)) ∧ (r.1 ≠ inr tt → disconnected r.2 = true).
Lemma construct_attached : attached (construct E (exec m E depth) new_relay).
Proof.
  enough (wp (construct E (exec m E depth)) (λ a b, attached (inr a, b)) (λ e b, attached (inl e, b)) new_relay) as H.
  { unfold wp in H. by destruct (construct E (exec m E depth) new_relay) as [[] b]. }
  unfold construct. apply wp_bind. eapply wp_act; [exact (exec_good depth)|exact inv_new|apply mono_refl|done|done|done|done|].
  intros n b [Hi Hm] _. pose proof (settled_after new_relay b ltac:(done) Hm) as Hs. pose proof (proj1 Hm) as [_ Hdt _ Htot _ _].
  specialize (Hdt eq_refl). unfold to_detach in Htot. rewrite Hdt in Htot. simpl in Htot. apply wp_if; intros _.
  - apply wp_bind, wp_get, wp_if; intros Hd.
    + assert (inv m None (stepped (logged Detached b))) as Hi1.
      { split; [|by apply ended_live]. apply core_cleanup; [apply Hi|done|]. split_and!; [done|done|lia|done]. }
      eapply wp_attempt; [exact (exec_good depth)|exact Hi1|]. intros b2 [Hi2 Hm2].
      assert (settled (stepped (logged Detached b))) as Hs1.
      { intros _. destruct (Hs Hd). simpl. rewrite count_snoc. simpl. split; [lia|done]. }
      split_and!; [done|by eapply settled_after| |done]. intros _. simpl. rewrite (mo_detached _ _ (proj1 Hm2)). simpl. rewrite count_snoc.
      unfold to_detach. simpl. rewrite Hdt. simpl.
      destruct (mo_ended _ _ (proj1 Hm2) Hd) as [Hd2 _]. split; [lia|congruence].
    + apply wp_modify. split_and!; simpl; [|intros Hd'; simpl in Hd'; congruence|intros _; unfold to_detach; simpl; split; [lia|done]|done].
      destruct Hi as [[H1 H2 H3 H4 H5 H6 H7 Hp H8] Hl]. split; [|exact Hl]. split; simpl; try done. lia.
  - apply wp_bind. eapply wp_mono; [apply (relay_keeps_disconnect m E _ (exec_good depth) new_relay b); [apply Hi|done]| |].
    + intros _ b' [[Hi' Hm'] Hd']. apply wp_throw. split_and!; [done|by apply (settled_after new_relay)|done|done].
    + intros e b' [[Hi' Hm'] Hd']. split_and!; [done|by apply (settled_after new_relay)|done|done].
Qed.
Lemma run_good xs : inv m None (run m E depth xs) ∧ settled (run m E depth xs) ∧ grows (run m E depth []) (run m E depth xs).
Proof.
  destruct construct_attached as (Hi & Hs & _ & _). unfold run.
  induction xs as [|x xs (IH1 & IH2 & IH3)] using rev_ind; [split_and!; [done|done|apply relay_grows_refl]|].
  rewrite foldl_snoc. destruct (turn_good (foldl (take_turn m E depth) (construct E (exec m E depth) new_relay).2 xs) x IH1) as [H1 H2].
  split_and!; [done|by eapply settled_after|]. eapply relay_grows_trans; [exact IH3|apply H2].
Qed.
End runs.

Lemma construct_limit_le v m : construct_limit v = Some m → m ≤ LIMITS_frameBytes.
Proof. unfold construct_limit. intros H. destruct (_ && _) eqn:Hb; simplify_eq. apply andb_true_iff in Hb as [_ Hb]. by apply Z.leb_le. Qed.

(** C29. The results of media requests that a browser's relay sends are answers: at no
    time, whatever the broker, the socket and the owner do while they are called, have
    more results been sent for a request id than requests with that id were given to
    the broker. *)
Theorem relay_answers m E depth xs c l :
  l `prefix_of` log (run m E depth xs) → (count (is_result c) l ≤ count (is_accepted c) l)%nat.
Proof. intros Hl. destruct (run_good m E depth xs) as ([Hc _] & _ & _). by apply (i_answered _ _ _ Hc). Qed.

(** C30. The end of a browser's relay: however calls, microtasks, exceptions and calls
    back interleave, between two turns either nothing has been ended, or the broker was
    disconnected, the owner was told and the handlers of an attached socket were
    detached, each exactly once, and nothing was done after it but that and closing the
    socket.  A termination that was announced is carried out at the latest by the next
    microtask, and every frame that was sent fits with what the socket held into the
    buffer's limit. *)
Theorem relay_ends_once v m E depth xs (Hm : construct_limit v = Some m) :
  let b := run m E depth xs in
  (if disconnected b
   then count is_end (log b) = 1%nat ∧ count is_notice (log b) = 1%nat
        ∧ ((construct E (exec m E depth) new_relay).1 = inr tt → count is_detached (log b) = 1%nat)
   else count is_end (log b) = 0%nat ∧ count is_notice (log b) = 0%nat
        ∧ (construct E (exec m E depth) new_relay).1 = inr tt ∧ count is_detached (log b) = 0%nat)
  ∧ quiet (log b)
  ∧ (terminalPending b = true → disconnected b = true ∨ disconnected (take_turn m E depth b Micro) = true)
  ∧ Forall (sent_ok m) (log b) ∧ m ≤ LIMITS_frameBytes.
Proof.
  intros b. destruct (run_good m E depth xs) as (Hi & Hs & [G1 G2 Gh Htot G4 G5]). fold b in Hi, Hs, G1, Gh, Htot. pose proof (construct_attached m E depth) as (_ & _ & Ha & Hf).
  change (construct E (exec m E depth) new_relay).2 with (run m E depth []) in Ha, Hf. pose proof (proj1 Hi) as [H1 H2 H3 H4 H5 H6 H7 Hp H8].
  split_and!; [|done| |done|].
  - destruct (disconnected b) eqn:Hdb.
    + destruct (Hs Hdb) as [Hn Hdt]. split_and!; [done|done|]. intros Hr. destruct (Ha Hr) as [Hone _]. unfold to_detach in Htot at 1. rewrite Hdt in Htot. lia.
    + assert (disconnected (run m E depth []) = false) as Hd0.
      { destruct (disconnected (run m E depth [])) eqn:H0; [|done]. destruct (G1 eq_refl). congruence. }
      assert ((construct E (exec m E depth) new_relay).1 = inr tt) as Hr.
      { destruct (construct E (exec m E depth) new_relay).1 as [|[]]; [|done]. enough (disconnected (run m E depth []) = true) by congruence. by apply Hf. }
      destruct (Ha Hr) as [Hone Hdt]. rewrite <-(Gh eq_refl) in Hdt. specialize (Hdt Hd0).
      split_and!; [done|lia|done|]. unfold to_detach in Htot at 1. rewrite Hdt in Htot. lia.
  - intros Ht. destruct (proj2 Hi Ht) as [Hd|Hne]; [by left|right]. by apply micro_good.
  - by apply (construct_limit_le v).
Qed.

(** A browser asks for media twice; the broker reports the first result while it is
    called, and the second later; a frame that does not decode ends the relay. *)
Definition ask (cid : string) : ResidentControl.body :=
  ResidentControl.mkBody "" (Some (JObj [("type", JStr "media.get"); ("requestId", JStr cid); ("route", JStr "/a")])).
Definition result (rid : string) : MediaResultFrame := mkFrame "c" 1 (rid, MediaFailed REJECTED).
Definition ex_client (c : string) : string := REQUEST_PREFIX +:+ "AAAAAAAAAAAAAAAAAAAAA" +:+ c.
Definition ex_world : env := {|
  returns _ := true;
  buffered_amount _ := Some (Some 0);
  media_ids n := Some (if (n =? 1)%nat then "first" else "second");
  reacts n a := match a with Broker (BMedia _) => if (n =? 1)%nat then [OnMediaResult (result "first")] else [] | _ => [] end;
|}.
Definition ex_turns : list turn :=
  [Call (Text (ask (ex_client "A"))); Call (Text (ask (ex_client "B"))); Call (OnMediaResult (result "second"));
   Call (OnMediaResult (result "second")); Call (Text (ResidentControl.mkBody "{" None)); Micro].
Definition ex_relay : relay := run 4096 ex_world 1 ex_turns.
Lemma relay_answers_witness :
  count (is_result (ex_client "A")) (log ex_relay) = 1%nat ∧ count (is_result (ex_client "B")) (log ex_relay) = 1%nat
  ∧ (count (is_result (ex_client "B")) (log ex_relay) ≤ count (is_accepted (ex_client "B")) (log ex_relay))%nat.
Proof. split_and!; [vm_compute; reflexivity|vm_compute; reflexivity|]. apply relay_answers with (m := 4096) (E := ex_world) (depth := 1%nat) (xs := ex_turns). reflexivity. Defined.
Lemma relay_ends_once_witness :
  disconnected ex_relay = true ∧ log ex_relay = [Attach; Accepted (ex_client "A"); Broker (BMedia "/a");
    Sent (MediaResultFrame_ (ex_client "A") (MediaFailed REJECTED)) 0; Accepted (ex_client "B"); Broker (BMedia "/a");
    Sent (MediaResultFrame_ (ex_client "B") (MediaFailed REJECTED)) 0; Broker BDisconnect; Detached; OnDisconnect;
    CloseSocket CLOSE_policy "invalid_frame"]
  ∧ Forall (sent_ok 4096) (log ex_relay).
Proof.
  split_and!; [vm_compute; reflexivity|vm_compute; reflexivity|].
  apply (relay_ends_once (Some 4096) 4096 ex_world 1 ex_turns). reflexivity.
Defined.
