(* ===== verification/SelectedViewerFacts.v ===== *)
(** * The selected viewer: its steps

    Every method of the broker, with whatever the outside does inside it, is a
    sequence of the atomic steps of [micro].  Invariants are then proved by
    induction on the steps, once for all methods and all nestings of calls. *)

From S2P Require Import Prelude Effects Protocol Codec Wire Registry SelectedViewer.
From stdpp Require Import relations.
Local Open Scope string_scope.
Local Open Scope list_scope.
Local Open Scope Z_scope.

(** The fuel of the flush is enough: the loop stops after
    [maxSnapshotBufferFrames] deliveries. *)
Lemma flush_fuel opts E reenter g k n fuel fuel' b :
  (maxSnapshotBufferFrames opts - k < fuel)%nat → (maxSnapshotBufferFrames opts - k < fuel')%nat →
  flush opts E reenter fuel g k n b = flush opts E reenter fuel' g k n b.
Proof.
  revert fuel' k n b. induction fuel as [|fuel IH]; intros [|fuel'] k n b Hf Hf'; try lia. simpl.
  unfold with_selection. autorewrite with eff. destruct (selections b !! g) as [s|]; [|done].
  destruct (buffer s !! k) as [f|]; [|done]. autorewrite with eff. destruct (negb _); [done|].
  destruct (Nat.leb_spec (maxSnapshotBufferFrames opts) k) as [Hk|Hk]; simpl; [done|].
  destruct (_ <? _); [done|]. unfold mbind, eff_bind. destruct (deliverConsole _ _ _ _ _) as [[[]|[]] b1]; [|done].
  apply IH; lia.
Qed.

(** ** Evidence in the log *)

(** A frame of the resident arrived on the link. *)
Definition received (l : LinkRef) (fr : frame ResidentBody) (log : list action) : Prop :=
  ∃ sm, ref_of sm = l ∧ Arrived (EvFrame sm fr) ∈ log.
Definition received_console (l : LinkRef) (f : ConsoleOutputFrame) (log : list action) : Prop :=
  ∃ fr, console_body fr = Some f ∧ received l fr log.
Definition received_media (l : LinkRef) (f : MediaResultFrame) (log : list action) : Prop :=
  ∃ fr, body fr = MediaResult (body f).1 (body f).2 ∧ received l fr log.

(** The snapshot of the selection was asked for, and its success arrived since. *)
Definition barrier (g : Z) (l : LinkRef) (log : list action) : Prop :=
  ∃ rid pre post fr v op, log = pre ++ post ∧ Requested g l KSnapshot rid ∈ pre
    ∧ received l fr post ∧ body fr = OperationResult rid v op None.

Definition operation_kind (op : ViewerOperation) : RequestKind :=
  match op with viewer_open => KOpen | viewer_close => KCloseViewer | viewer_snapshot => KSnapshot end.

(** The object [s] is in the heap, up to its mutable fields. *)
Definition known (b : broker) (s : ActiveSelection) : Prop :=
  ∃ s', selections b !! s_generation s = Some s' ∧ s_link s' = s_link s ∧ s_viewerId s' = s_viewerId s.
(** [s] is the selection of an open broker. *)
Definition live (b : broker) (s : ActiveSelection) : Prop :=
  closed b = false ∧ selection b = Some (s_generation s) ∧ selections b !! s_generation s = Some s.

Definition may_send (b : broker) (s : ActiveSelection) (e : GatewayBody) : Prop :=
  match e with
  | ViewerOp op rid v =>
      v = s_viewerId s ∧ Requested (s_generation s) (s_link s) (operation_kind op) rid ∈ log b
  | ConsoleInput v _ => v = s_viewerId s ∧ live b s ∧ phase s = Ready
  | MediaGet rid _ => Requested (s_generation s) (s_link s) KMedia rid ∈ log b
  | _ => False
  end.

Section micro.
Context (opts : settings).

(** ** The steps *)

Inductive micro (b : broker) : broker → Prop :=
  | m_tick : micro b (stepped [] b)
  | m_arrived e : micro b (logged (Arrived e) b)
  | m_notify r : micro b (stepped [Selection r (state b)] b)
  | m_console f s :
      live b s → viewer_of f = s_viewerId s → received_console (s_link s) f (log b) →
      barrier (s_generation s) (s_link s) (log b) →
      micro b (stepped [ConsoleOut f (StSelected (s_generation s) (phase s) (s_link s) (s_viewerId s))] b)
  | m_media f s :
      live b s → phase s = Ready → received_media (s_link s) f (log b) →
      Requested (s_generation s) (s_link s) KMedia (body f).1 ∈ log b →
      micro b (stepped [MediaOut f (StSelected (s_generation s) (phase s) (s_link s) (s_viewerId s))] b)
  | m_sent s e :
      known b s → may_send b s e → micro b (stepped [Sent (s_generation s) (s_link s) e] b)
  | m_accepted g l e : Sent g l e ∈ log b → micro b (logged (Accepted g e) b)
  | m_cut s reason : known b s → micro b (stepped [Cut (s_generation s) (s_link s) reason] b)
  | m_touch key :
      micro b (set_history (<[ key := default (mkHistory ∅ []) (requestHistory b !! key) ]>
                              (requestHistory b)) b)
  | m_request s kind rid h :
      known b s → (size (pending b) < LIMITS_pendingRequestsPerConnection)%nat →
      requestHistory b !! linkKey (s_link s) = Some h → rid ∉ used h →
      micro b (logged (Requested (s_generation s) (s_link s) kind rid)
        (set_pending (<[ rid := mkPending (s_generation s) (s_link s) kind ]> (pending b))
          (set_history (<[ linkKey (s_link s) := remember rid h ]> (requestHistory b)) b)))
  | m_forget rid : micro b (set_pending (delete rid (pending b)) b)
  | m_drop_generation g : micro b (dropGeneration g b)
  | m_drop_link l : micro b (dropLink l b)
  | m_unselect : micro b (set_selection None b)
  | m_cleaning c : micro b (set_cleaning c b)
  | m_close : micro b (set_closed b)
  | m_clear_pending : micro b (set_pending ∅ b)
  | m_clear_history : micro b (set_history ∅ b)
  | m_unsubscribed : micro b (logged Unsubscribed b)
  | m_generation : micro b (set_generation (generation b + 1) b)
  | m_select l v :
      selections b !! generation b = None →
      micro b (set_selection (Some (generation b))
        (set_selections (<[ generation b := mkSelection (generation b) l v Opening None [] 0 ]>
           (selections b)) b))
  | m_operation g o : micro b (assign g (set_operation o) b)
  | m_snapshotting g : micro b (assign g (set_phase Snapshotting) b)
  | m_clear_buffer g : micro b (assign g (set_buffer [] 0) b)
  | m_push s f :
      live b s → viewer_of f = s_viewerId s → received_console (s_link s) f (log b) →
      (length (buffer s) < maxSnapshotBufferFrames opts)%nat →
      bytes (payload f) ≤ maxSnapshotBufferBytes opts - bufferedBytes s →
      micro b (assign (s_generation s)
        (λ s, set_buffer (buffer s ++ [f]) (bufferedBytes s + bytes (payload f)) s) b)
  | m_ready g s :
      selections b !! g = Some s → barrier g (s_link s) (log b) →
      micro b (assign g (set_phase Ready) b).

(** ** What every step keeps *)

(** The log grows, objects keep their fields, closing is for good. *)
Record evolves (b b' : broker) : Prop := {
  ev_log : ∃ l, log b' = log b ++ l;
  ev_objects : ∀ s, known b s → known b' s;
  ev_generation : generation b ≤ generation b';
}.

#[export] Instance evolves_preorder : PreOrder evolves.
Proof.
  split.
  - intros b. split; [by exists []; rewrite app_nil_r|done|done].
  - intros b1 b2 b3 [[l1 H1] H2 H3] [[l2 H4] H5 H6]. split; [|auto|lia].
    exists (l1 ++ l2). by rewrite H4, H1, app_assoc.
Qed.

Lemma known_alter b g f s :
  (∀ s, s_link (f s) = s_link s ∧ s_viewerId (f s) = s_viewerId s) →
  known b s → known (assign g f b) s.
Proof.
  intros Hf (s' & Hs & Hl & Hv). unfold known. simpl. destruct (decide (g = s_generation s)) as [->|Hne].
  - rewrite lookup_alter_eq, Hs. destruct (Hf s') as [Hl' Hv']. eexists. split; [done|].
    by rewrite Hl', Hv'.
  - rewrite lookup_alter_ne by done. eauto.
Qed.

Lemma micro_evolves b b' : micro b b' → evolves b b'.
Proof.
  destruct 1; (split; [|auto|simpl; lia]); try (by exists []; simpl; rewrite app_nil_r);
    try (by eexists); intros s'.
  1: intros (s0 & Hs & Hl & Hv); unfold known; simpl; rewrite lookup_insert_ne; [eauto|congruence].
  all: by apply known_alter.
Qed.

Lemma steps_evolve b b' : rtc micro b b' → evolves b b'.
Proof. induction 1 as [|b b1 b2 ?%micro_evolves _ IH]; [done|]. by transitivity b1. Qed.

Lemma received_more l fr log log' : received l fr log → received l fr (log ++ log').
Proof. intros (sm & Hl & Hr). exists sm. set_solver. Qed.
Lemma received_console_more l f log log' : received_console l f log → received_console l f (log ++ log').
Proof. intros (fr & Hf & Hr). exists fr. auto using received_more. Qed.
Lemma barrier_more g l log log' : barrier g l log → barrier g l (log ++ log').
Proof.
  intros (rid & pre & post & fr & v & op & -> & Hr & Hf & Hb).
  exists rid, pre, (post ++ log'), fr, v, op. rewrite app_assoc. auto using received_more.
Qed.

(** What the methods rely on for a selection object, and for a request. *)
Record wf_object (b : broker) (g : Z) (s : ActiveSelection) : Prop := {
  wo_key : s_generation s = g ∧ g ≤ generation b;
  wo_buffer : ∀ f, f ∈ buffer s → viewer_of f = s_viewerId s ∧ received_console (s_link s) f (log b);
  wo_ready : phase s = Ready → barrier g (s_link s) (log b);
}.
Definition wf_request (b : broker) (rid : string) (p : PendingRequest) : Prop :=
  Requested (p_generation p) (p_link p) (p_kind p) rid ∈ log b
  ∧ ∃ s, selections b !! p_generation p = Some s ∧ s_link s = p_link p.

Record wf (b : broker) : Prop := {
  wf_objects : ∀ g s, selections b !! g = Some s → wf_object b g s;
  wf_selection : ∀ g, selection b = Some g →
    is_Some (selections b !! g) ∧ ∀ h s, selections b !! h = Some s → h ≤ g;
  wf_pending : ∀ rid p, pending b !! rid = Some p → wf_request b rid p;
  wf_sent : ∀ g l e, Sent g l e ∈ log b → ∃ s, selections b !! g = Some s ∧ s_link s = l;
}.

Lemma wf_object_evolves b b' g s : evolves b b' → wf_object b g s → wf_object b' g s.
Proof.
  intros [[l Hl] _ Hg] [[? ?] Hb Hr]. split; rewrite ?Hl; [split; [done|lia]|..].
  - intros f Hf. destruct (Hb f Hf). auto using received_console_more.
  - auto using barrier_more.
Qed.

Lemma wf_alter b g f :
  (∀ s, s_generation (f s) = s_generation s ∧ s_link (f s) = s_link s) →
  (∀ s, selections b !! g = Some s → wf_object b g s → wf_object (assign g f b) g (f s)) →
  wf b → wf (assign g f b).
Proof.
  intros Hf Hw [Hk Hs Hp Hsent]. split; simpl.
  - intros h s. rewrite lookup_alter. case_decide as Hg.
    + intros (s0 & E & ->)%fmap_Some. subst. auto.
    + intros E. by destruct (Hk h s E).
  - intros h Hh. destruct (Hs h Hh) as [Hsome Hmax]. split.
    + rewrite lookup_alter. case_decide; subst; [by apply fmap_is_Some|done].
    + intros h' s'. rewrite lookup_alter. case_decide; subst; [intros (s0 & ? & _)%fmap_Some|]; eauto.
  - intros rid p Hr. destruct (Hp _ _ Hr) as [Hl (s & E & Hs')]. split; [done|]. simpl.
    rewrite lookup_alter. case_decide as Hg; [|by eauto]. subst. rewrite E. simpl. eexists. split; [done|].
    destruct (Hf s) as [_ ->]. done.
  - intros h l e He. destruct (Hsent h l e He) as (s & E & Hl). rewrite lookup_alter.
    case_decide; [|by eauto]. subst. rewrite E. simpl. eexists. split; [done|]. by destruct (Hf s).
Qed.

(** Steps that only add to the log or take requests away. *)
Lemma wf_same b b' :
  wf b → evolves b b' → selections b' = selections b →
  (selection b' = selection b ∨ selection b' = None) → pending b' ⊆ pending b →
  (∀ g l e, Sent g l e ∈ log b' → Sent g l e ∈ log b) → wf b'.
Proof.
  intros [Hk Hs Hp Hsent] Hev Es El Ep He. split; rewrite ?Es.
  - intros g s Hgs. eapply wf_object_evolves; eauto.
  - intros g Hgs. apply Hs. destruct El; congruence.
  - intros rid p Hr. destruct (Hp rid p) as [Hl ?]; [by eapply lookup_weaken|]. unfold wf_request.
    rewrite Es. split; [|done]. destruct Hev as [[l ->] _ _]. set_solver.
  - eauto.
Qed.

(** Steps that only give a frame to the registry. *)
Lemma wf_sent_step b s e : known b s → wf b → wf (stepped [Sent (s_generation s) (s_link s) e] b).
Proof.
  intros (s' & Hs' & Hl & _) [Hk Hs Hp Hsent]. split; simpl.
  - intros g s0 Hg. destruct (Hk g s0 Hg) as [? Hb Hr]. split; simpl; [done|..].
    + intros f Hf. destruct (Hb f Hf). auto using received_console_more.
    + auto using barrier_more.
  - done.
  - intros rid p Hr. destruct (Hp rid p Hr). split; [simpl; set_solver|done].
  - intros g l e' [?|He]%elem_of_app; [eauto|]. apply list_elem_of_singleton in He as [= -> -> _]. eauto.
Qed.

Lemma wf_request_step b s kind rid h :
  known b s → wf b →
  wf (logged (Requested (s_generation s) (s_link s) kind rid)
       (set_pending (<[ rid := mkPending (s_generation s) (s_link s) kind ]> (pending b))
         (set_history h b))).
Proof.
  intros (s' & Hs & Hl & _) [Hk Hs' Hp Hsent]. split; simpl; [|done| |].
  - intros g s0 Hg. destruct (Hk g s0 Hg) as [? Hb Hr]. split; simpl; [done|..].
    + intros f Hf. destruct (Hb f Hf). auto using received_console_more.
    + auto using barrier_more.
  - intros r p [[<- <-]|[Hne Hr]]%lookup_insert_Some; unfold wf_request; simpl; [set_solver|].
    destruct (Hp r p Hr). set_solver.
  - intros g l e [?|He]%elem_of_app; [eauto|]. by apply list_elem_of_singleton in He.
Qed.

Lemma wf_select_step b l v :
  selections b !! generation b = None → wf b →
  wf (set_selection (Some (generation b))
       (set_selections (<[ generation b := mkSelection (generation b) l v Opening None [] 0 ]>
          (selections b)) b)).
Proof.
  intros Hn [Hk Hs Hp Hsent]. split; simpl.
  - intros g s [[<- <-]|[Hne Hg]]%lookup_insert_Some.
    + split; simpl; [done|by intros f ?%elem_of_nil|done].
    + by destruct (Hk g s Hg).
  - intros g [= <-]. rewrite lookup_insert_eq. split; [eauto|].
    intros h s [[<- _]|[_ Hh]]%lookup_insert_Some; [done|]. by destruct (Hk h s Hh) as [[_ ?] _ _].
  - intros rid p Hr. destruct (Hp rid p Hr) as [Hl (s & E & ?)]. split; [done|]. simpl.
    exists s. rewrite lookup_insert_ne by congruence. done.
  - intros g l' e He. destruct (Hsent g l' e He) as (s & E & ?). exists s.
    rewrite lookup_insert_ne by congruence. done.
Qed.

Lemma micro_wf b b' : micro b b' → wf b → wf b'.
Proof.
  intros Hm Hb. pose proof (micro_evolves _ _ Hm) as Hev.
  destruct Hm; try (apply (wf_same b); simpl;
    solve [done | by left | by right | apply map_filter_subseteq | apply delete_subseteq
          | apply map_empty_subseteq
          | intros ???; rewrite elem_of_app, ?list_elem_of_singleton, ?elem_of_nil; by intros [?|?] ]).
  - by apply wf_sent_step.
  - by apply wf_request_step.
  - by apply wf_select_step.
  - apply wf_alter; [done| |done]. intros s _ []. by split.
  - apply wf_alter; [done| |done]. intros s _ []. by split.
  - apply wf_alter; [done| |done]. intros s _ []. split; simpl; [done|by intros f ?%elem_of_nil|done].
  - apply wf_alter; [done| |done]. intros s' Hs' [? Hbuf ?]. split; simpl; [done| |done].
    destruct H as (_ & _ & H). rewrite H in Hs'. injection Hs' as <-.
    intros f' [?| ->%list_elem_of_singleton]%elem_of_app; auto.
  - apply wf_alter; [done| |done]. intros s' Hs' [? ? ?]. split; simpl; [done|done|].
    by simplify_eq.
Qed.

Lemma steps_wf b b' : rtc micro b b' → wf b → wf b'.
Proof. induction 1; eauto using micro_wf. Qed.

Lemma wf_new : wf new_broker.
Proof. split; simpl; try done. by intros ??? ?%elem_of_nil. Qed.

Lemma known_object b g s : wf b → selections b !! g = Some s → known b s ∧ s_generation s = g.
Proof.
  intros Hb Hs. destruct (wf_objects _ Hb _ _ Hs) as [[<- _] _ _]. split; [|done]. by exists s.
Qed.
Lemma known_steps b b' s : rtc micro b b' → known b s → known b' s.
Proof. intros Hs. apply steps_evolve in Hs as [_ H _]. auto. Qed.
Lemma log_steps b b' a : rtc micro b b' → a ∈ log b → a ∈ log b'.
Proof. intros Hs Ha. apply steps_evolve in Hs as [[l ->] _ _]. set_solver. Qed.
Lemma barrier_steps b b' g l : rtc micro b b' → barrier g l (log b) → barrier g l (log b').
Proof. intros Hs Ha. apply steps_evolve in Hs as [[? ->] _ _]. by apply barrier_more. Qed.

(** ** The methods are sequences of steps *)

Section walk.
Context (sha256_hex : list Z → string) (E : env) (reenter : call → broker → broker).
Context (Hre : ∀ c b, wf b → rtc micro b (reenter c b)).

Abbreviation B := (eff broker Empty_set).

(** No method throws. *)
Abbreviation never := (λ (_ : Empty_set) (_ : broker), False).

(** From [b], the computation takes steps to a state with [Q]. *)
Definition go {A} (m : B A) (Q : A → broker → Prop) (b : broker) : Prop :=
  wp m (λ a b', rtc micro b b' ∧ Q a b') never b.

Abbreviation anywhere := (λ _ _, True).

Lemma go_bind {A C} (m : B A) (k : A → B C) Q b : go m (λ a b', go (k a) Q b') b → go (m ≫= k) Q b.
Proof.
  intros H. apply wp_bind. eapply wp_mono; [exact H| |done]. intros a b' [Hs Hk]. cbv beta.
  eapply wp_mono; [exact Hk| |done]. intros c b'' [Hs' HQ]. split; [by etransitivity|done].
Qed.
Lemma go_ret {A} (a : A) (Q : A → broker → Prop) b : Q a b → go (mret a) Q b.
Proof. intros H. apply wp_ret. done. Qed.
Lemma go_get (Q : broker → broker → Prop) b : Q b b → go get Q b.
Proof. intros H. apply wp_get. done. Qed.
Lemma go_modify f (Q : () → broker → Prop) b : rtc micro b (f b) → Q tt (f b) → go (modify f) Q b.
Proof. intros Hm HQ. by apply wp_modify. Qed.
Lemma go_step f (Q : () → broker → Prop) b : micro b (f b) → Q tt (f b) → go (modify f) Q b.
Proof. intros Hm HQ. by apply go_modify, HQ; apply rtc_once. Qed.
(** Assignments that make one step together. *)
Lemma go_direct {A} (m : B A) a b' (Q : A → broker → Prop) b :
  m b = (inr a, b') → micro b b' → Q a b' → go m Q b.
Proof. intros Hm Hs HQ. unfold go, wp. rewrite Hm. split; [by apply rtc_once|done]. Qed.
Lemma go_mono {A} (m : B A) (Q Q' : A → broker → Prop) b :
  go m Q b → (∀ a b', rtc micro b b' → Q a b' → Q' a b') → go m Q' b.
Proof. intros H HQ. eapply wp_mono; [exact H| |done]. naive_solver. Qed.
(** A call whose result is used with what evolved. *)
Lemma go_call {A C} (m : B A) (k : A → B C) Q Q' b :
  wf b → go m Q b → (∀ a b', rtc micro b b' → wf b' → Q a b' → go (k a) Q' b') → go (m ≫= k) Q' b.
Proof.
  intros Hb Hm Hk. apply go_bind. eapply go_mono; [exact Hm|]. intros a b' Hs HQ.
  apply Hk; [done|by eapply steps_wf|done].
Qed.
Lemma go_then {A C} (m : B A) (c : C) b : go m anywhere b → go (m;; mret c) anywhere b.
Proof. intros Hm. apply go_bind. eapply go_mono; [exact Hm|]. intros. by apply go_ret. Qed.
Lemma go_if {A} (c : bool) (m n : B A) Q b :
  (c = true → go m Q b) → (c = false → go n Q b) → go (if c then m else n) Q b.
Proof. destruct c; auto. Qed.
Lemma go_with {A} g k (d : A) Q b :
  (∀ s, selections b !! g = Some s → go (k s) Q b) → (selections b !! g = None → Q d b) →
  go (with_selection g k d) Q b.
Proof.
  intros Hk Hd. unfold with_selection. apply go_bind, go_get. destruct (selections b !! g); [auto|].
  apply go_ret; auto.
Qed.

Lemma reenter_steps cs b : wf b → rtc micro b (foldl (λ b c, reenter c b) b cs).
Proof.
  revert b. induction cs as [|c cs IH]; intros b Hb; simpl; [done|].
  etransitivity; [by apply Hre|]. apply IH. eapply steps_wf; [by apply Hre|done].
Qed.

Lemma go_tick (Q : nat → broker → Prop) b : Q (interactions b) (stepped [] b) → go tick Q b.
Proof.
  intros HQ. unfold tick. apply go_bind, go_get, go_bind, go_step; [constructor|]. by apply go_ret.
Qed.
Lemma go_interact a (Q : nat → broker → Prop) b :
  wf b → micro b (stepped [a] b) →
  (∀ n b', rtc micro (stepped [a] b) b' → Q n b') → go (interact E reenter a) Q b.
Proof.
  intros Hb Hm HQ. unfold interact. apply go_bind, go_get, go_bind, go_step; [done|].
  assert (rtc micro (stepped [a] b)
    (foldl (λ b' c, reenter c b') (stepped [a] b) (reacts E (interactions b) a))) as Hs
    by (apply reenter_steps; by eapply micro_wf).
  apply go_bind, go_modify; [done|]. apply go_ret. auto.
Qed.

Lemma go_notify r b : wf b → go (notify opts E reenter r) anywhere b.
Proof.
  intros Hb. unfold notify. apply go_if; intros _; [|by apply go_ret]. apply go_bind, go_get, go_bind.
  apply go_interact; [done|constructor|]. intros n b' _. by apply go_ret.
Qed.

Lemma may_send_tick b s e : may_send b s e → may_send (stepped [] b) s e.
Proof. destruct e; simpl; rewrite ?app_nil_r; done. Qed.

Lemma go_send s e b : wf b → known b s → may_send b s e → go (send E reenter s e) anywhere b.
Proof.
  intros Hb Hk Hm. unfold send. apply go_bind, go_tick, go_if; intros _; [|by apply go_ret].
  assert (wf (stepped [] b)) by (eapply micro_wf; [constructor|done]).
  apply go_bind, go_interact; [done|constructor; [done|by apply may_send_tick]|].
  intros n b' Hs. apply go_if; intros _; [|by apply go_ret]. apply go_bind, go_step; [|by apply go_ret].
  apply (m_accepted _ _ (s_link s)). eapply log_steps; [done|]. simpl. set_solver.
Qed.

Lemma go_cut s reason b : wf b → known b s → go (cut E reenter s reason) anywhere b.
Proof.
  intros Hb Hk. unfold cut. apply go_bind, go_interact; [done|by constructor|]. intros. by apply go_ret.
Qed.

Lemma go_forget rid b : go (forget rid) anywhere b.
Proof. apply go_step; [constructor|done]. Qed.

Lemma go_request kind s b :
  wf b → known b s →
  go (request E kind s) (λ r b', match r with
    | Some rid => Requested (s_generation s) (s_link s) kind rid ∈ log b'
    | None => True
    end) b.
Proof.
  intros Hb Hk. unfold request. apply go_bind, go_get, go_if; intros Hsz; [by apply go_ret|].
  apply Nat.leb_gt in Hsz. apply go_bind, go_tick. destruct (request_ids E _) as [rid|]; [|by apply go_ret].
  set (key := linkKey (s_link s)). set (h := default _ _). apply go_bind, go_step; [apply m_touch|].
  apply go_if; intros Hu; [by apply go_ret|]. guards.
  eapply go_direct; [reflexivity| |].
  - match goal with |- micro ?b1 _ => pose proof (m_request b1 s kind rid h) as Hm end. simpl in Hm.
    rewrite lookup_insert_eq in Hm. apply Hm; [done|done|done|set_solver].
  - simpl. set_solver.
Qed.

Lemma go_close_viewer s busy drop b :
  wf b → known b s → go (close_viewer E reenter s busy drop) anywhere b.
Proof.
  intros Hb Hk. unfold close_viewer. destruct (operationRequestId s); [by apply go_cut|].
  eapply go_call; [done|by apply go_request|]. intros rid b1 Hs1 Hb1 Hr.
  pose proof (known_steps _ _ _ Hs1 Hk) as Hk1. eapply (go_call _ _ anywhere); [done| |].
  - destruct rid as [r|]; [|by apply go_ret]. by apply go_send.
  - intros sent b2 Hs2 Hb2 _. pose proof (known_steps _ _ _ Hs2 Hk1) as Hk2.
    apply go_if; intros _; [by apply go_ret|]. eapply (go_call _ _ anywhere); [done| |].
    + destruct rid; [|by apply go_ret]. apply go_if; intros _; [apply go_forget|by apply go_ret].
    + intros _ b3 Hs3 Hb3 _. apply go_cut; [done|]. by eapply known_steps.
Qed.

(** [micro_step]: the state after an assignment is well formed again. *)
Lemma go_assign {A} f (k : () → B A) Q b :
  micro b (f b) → wf b → (wf (f b) → go (k tt) Q (f b)) → go (modify f ≫= k) Q b.
Proof. intros Hm Hb Hk. apply go_bind, go_step; [done|]. apply Hk. by eapply micro_wf. Qed.

Lemma go_assign2 {A} f f' (k : () → B A) Q b :
  micro b (f' (f b)) → wf b → (wf (f' (f b)) → go (k tt) Q (f' (f b))) →
  go (modify f;; modify f' ≫= k) Q b.
Proof.
  intros Hm Hb Hk. specialize (Hk (micro_wf _ _ Hm Hb)). unfold go, wp in *. autorewrite with eff.
  destruct (k tt (f' (f b))) as [[]]; [done|]. destruct Hk. split; [by eapply rtc_l|done].
Qed.

Lemma go_cleanup g busy drop b :
  wf b → go (with_selection g (λ s, close_viewer E reenter s busy drop) tt) anywhere b.
Proof.
  intros Hb. apply go_with; [|done]. intros s Hs. apply go_close_viewer; [done|].
  by apply (known_object _ _ _ Hb Hs).
Qed.

Lemma go_retire g reason b : wf b → go (retire opts E reenter g reason) anywhere b.
Proof.
  intros Hb. unfold retire. apply go_bind, go_get, go_if; intros _; [by apply go_ret|].
  apply go_assign; [constructor|done|]. intros Hb1. apply go_assign; [constructor|done|]. intros Hb2.
  eapply go_call; [done|by apply go_cleanup|]. intros _ b3 _ Hb3 _.
  destruct reason; [by apply go_notify|by apply go_ret].
Qed.

Lemma go_abandon g reason b : wf b → go (abandon opts E reenter g reason) anywhere b.
Proof.
  intros Hb. unfold abandon. apply go_bind, go_get, go_if; intros _; [by apply go_ret|].
  apply go_assign; [constructor|done|]. intros Hb1. apply go_assign; [constructor|done|]. intros Hb2.
  by apply go_notify.
Qed.

Lemma go_fail g reason b : wf b → go (fail opts E reenter g reason) anywhere b.
Proof.
  intros Hb. unfold fail. apply go_bind, go_get, go_if; intros _; [by apply go_ret|].
  do 3 (apply go_assign; [constructor|done|]; intros ?).
  eapply go_call; [done|by apply go_cleanup|]. intros _ b3 _ Hb3 _.
  eapply go_call; [done|by apply go_notify|]. intros _ b4 _ Hb4 _. apply go_step; [constructor|done].
Qed.

Lemma go_select_target target b : wf b → go (select_target opts E reenter target) anywhere b.
Proof.
  intros Hb. unfold select_target. apply go_bind, go_get, go_if; intros _.
  { do 3 (apply go_assign; [constructor|done|]; intros ?).
    by apply go_then, go_notify. }
  apply go_assign; [constructor|done|]. intros Hb1. unfold freshViewerId.
  apply go_bind, go_bind, go_tick, go_ret. set (b2 := stepped [] _).
  assert (wf b2) as Hb2 by (eapply micro_wf; [constructor|done]).
  destruct (match viewer_ids E _ with Some _ => _ | None => None end) as [v|].
  2: { by apply go_then, go_notify. }
  assert (selections b2 !! (generation b + 1) = None) as Hn.
  { destruct (selections b2 !! _) eqn:Hs; [|done]. apply (wf_objects _ Hb) in Hs as [[_ ?] _ _]. lia. }
  apply go_assign2; [by apply (m_select b2)|done|]. intros Hb4.
  set (s := mkSelection _ _ _ _ _ _ _). set (b4 := set_selection _ _) in *.
  assert (known b4 s) as Hk4 by (exists s; simpl; by rewrite lookup_insert_eq).
  eapply go_call; [done|by apply go_request|]. intros [r|] b5 Hs5 Hb5 Hr.
  2: { by apply go_then, go_fail. }
  apply go_assign; [constructor|done|]. intros Hb6.
  eapply go_call; [done|by apply go_notify|]. intros _ b7 Hs7 Hb7 _.
  assert (rtc micro b5 b7) as Hs57 by (eapply rtc_l; [apply (m_operation _ (generation b + 1) (Some r))|done]).
  eapply go_call; [done|apply go_send; [done| |]|].
  - do 2 (eapply known_steps; [done|]). done.
  - split; [done|]. by eapply log_steps.
  - intros sent b8 _ Hb8 _. apply go_if; intros _; [by apply go_ret|].
    eapply go_call; [done|apply go_forget|]. intros _ b9 _ Hb9 _.
    by apply go_then, go_fail.
Qed.

Lemma go_select inst b : wf b → go (select opts E reenter inst) anywhere b.
Proof.
  intros Hb. unfold select. apply go_bind, go_get, go_if; intros _; [by apply go_ret|].
  apply go_bind, go_tick. assert (wf (stepped [] b)) as Hb1 by (eapply micro_wf; [constructor|done]).
  destruct (summary E _ _) as [target|]; [|by apply go_then, go_notify].
  apply go_if; intros _; [|by apply go_then, go_notify].
  destruct (current_selection b) as [s|]; [|by apply go_select_target].
  apply go_if; intros _; [by apply go_ret|].
  eapply go_call; [done|by apply go_retire|]. intros _ b2 _ Hb2 _. by apply go_select_target.
Qed.

Lemma current_live b s :
  wf b → closed b = false → current_selection b = Some s → live b s ∧ known b s.
Proof.
  intros Hb Hc (g & Hg & Hs)%bind_Some. destruct (known_object _ _ _ Hb Hs) as [Hk Hgen]. subst g.
  split; [|done]. by split_and!.
Qed.

Lemma go_input t b : wf b → go (input sha256_hex opts E reenter t) anywhere b.
Proof.
  intros Hb. unfold input. apply go_bind, go_get. destruct (current_selection b) as [s|] eqn:Hs; [|by apply go_ret].
  apply go_if; intros Hg; [guards|by apply go_ret]. destruct (current_live _ _ Hb H Hs) as [Hl Hk].
  apply go_if; intros _; [by apply go_ret|]. eapply go_call; [done|by apply go_send|].
  intros sent b1 _ Hb1 _. apply go_if; intros _; [by apply go_ret|]. by apply go_then, go_fail.
Qed.

Lemma go_media r b : wf b → go (media sha256_hex opts E reenter r) anywhere b.
Proof.
  intros Hb. unfold media. apply go_bind, go_get. destruct (current_selection b) as [s|] eqn:Hs; [|by apply go_ret].
  apply go_if; intros Hg; [guards|by apply go_ret]. destruct (current_live _ _ Hb H Hs) as [_ Hk].
  apply go_bind, go_tick. assert (wf (stepped [] b)) as Hb1 by (eapply micro_wf; [constructor|done]).
  destruct (SelectedViewer.lookup E _ _ _); [|by apply go_ret]. apply go_if; intros _; [by apply go_ret|].
  eapply go_call; [done|by apply go_request|]. intros [rid|] b2 Hs2 Hb2 Hr; [|by apply go_ret].
  apply go_if; intros _; [apply go_then, go_forget|].
  eapply go_call; [done|apply go_send; [done| |done]|]; [by eapply known_steps|].
  intros sent b3 _ Hb3 _. apply go_if; intros _; [by apply go_ret|].
  eapply go_call; [done|apply go_forget|]. intros _ b4 _ Hb4 _. by apply go_then, go_fail.
Qed.

Lemma go_deselect b : wf b → go (deselect opts E reenter) anywhere b.
Proof.
  intros Hb. unfold deselect. apply go_bind, go_get. destruct (selection b); [|by apply go_ret].
  by apply go_retire.
Qed.

Lemma go_disconnect b : wf b → go (disconnect opts E reenter) anywhere b.
Proof.
  intros Hb. unfold disconnect. apply go_bind, go_get, go_if; intros _; [by apply go_ret|].
  eapply (go_call _ _ anywhere); [done| |].
  { destruct (selection b); [by apply go_retire|by apply go_ret]. }
  intros _ b1 _ Hb1 _. do 4 (apply go_assign; [constructor|done|]; intros ?). by apply go_notify.
Qed.

Lemma go_beginSnapshot g b : wf b → go (beginSnapshot opts E reenter g) anywhere b.
Proof.
  intros Hb. unfold beginSnapshot. apply go_bind, go_get, go_if; intros _; [by apply go_ret|].
  do 2 (apply go_assign; [constructor|done|]; intros ?). apply go_with; [|done]. intros s Hs.
  destruct (known_object _ _ _ H0 Hs) as [Hk <-].
  eapply go_call; [done|by apply go_request|]. intros [r|] b1 Hs1 Hb1 Hr; [|by apply go_fail].
  apply go_assign; [constructor|done|]. intros Hb2.
  eapply go_call; [done|by apply go_notify|]. intros _ b3 Hs3 Hb3 _.
  assert (rtc micro b1 b3) as Hs13 by (eapply rtc_l; [apply (m_operation _ (s_generation s) (Some r))|done]).
  eapply go_call; [done|apply go_send; [done| |]|].
  - do 2 (eapply known_steps; [done|]). done.
  - split; [done|]. by eapply log_steps.
  - intros sent b4 _ Hb4 _. apply go_if; intros _; [by apply go_ret|].
    eapply go_call; [done|apply go_forget|]. intros _ b5 _ Hb5 _. by apply go_fail.
Qed.

Lemma state_live b s : closed b = false →
  state_with b (Some s) = StSelected (s_generation s) (phase s) (s_link s) (s_viewerId s).
Proof. unfold state_with. by intros ->. Qed.

Lemma go_deliverConsole f s b :
  wf b → live b s → viewer_of f = s_viewerId s → received_console (s_link s) f (log b) →
  barrier (s_generation s) (s_link s) (log b) → go (deliverConsole E reenter f s) anywhere b.
Proof.
  intros Hb Hl Hv Hr Hbar. unfold deliverConsole. apply go_bind, go_get, go_bind.
  rewrite state_live by apply Hl. apply go_interact; [done|by constructor|]. intros. by apply go_ret.
Qed.

Lemma go_flush fuel g k n l b :
  wf b → (∃ s, known b s ∧ s_generation s = g ∧ s_link s = l) → barrier g l (log b) →
  go (flush opts E reenter fuel g k n) anywhere b.
Proof.
  revert k n b. induction fuel as [|fuel IH]; intros k n b Hb Hk Hbar; simpl; [by apply go_ret|].
  apply go_with; [|done]. intros s Hs. destruct (known_object _ _ _ Hb Hs) as [Hks Hg].
  assert (s_link s = l) as Hl.
  { destruct Hk as (s0 & (s1 & Hs1 & Hl1 & _) & Hg0 & Hl0). congruence. }
  destruct (buffer s !! k) as [f|] eqn:Hf; [|by apply go_ret].
  apply go_bind, go_get, go_if; intros Hcur; [by apply go_ret|]. guards. unfold is_current in *. guards.
  apply go_if; intros _; [by apply go_then, go_fail|].
  destruct (wf_objects _ Hb _ _ Hs) as [_ Hbuf _]. destruct (Hbuf f) as [Hv Hr]; [by eapply list_elem_of_lookup_2|].
  assert (live b s) as Hlive by (rewrite <-Hg in *; by split_and!).
  eapply go_call; [done|apply go_deliverConsole; [done|done|done|done|by rewrite Hg, Hl]|].
  intros ok b1 Hs1 Hb1 _. apply go_if; intros _; [|by apply go_then, go_fail].
  apply IH; [done| |by eapply barrier_steps]. exists s. split_and!; [by eapply known_steps|done|done].
Qed.

Lemma go_completeSnapshot g b :
  wf b → (∀ s, selections b !! g = Some s → barrier g (s_link s) (log b)) →
  go (completeSnapshot opts E reenter g) anywhere b.
Proof.
  intros Hb Hbar. unfold completeSnapshot. apply go_bind, go_get, go_with; [|done]. intros s Hs.
  destruct (known_object _ _ _ Hb Hs) as [Hk Hg]. specialize (Hbar s Hs).
  apply go_if; intros _; [by apply go_ret|]. cbv beta. eapply go_call; [done|apply (go_flush _ _ _ _ (s_link s)); eauto|].
  intros ok b1 Hs1 Hb1 _. apply go_if; intros _; [|by apply go_ret].
  apply go_bind, go_get, go_if; intros _; [by apply go_ret|].
  apply go_assign; [constructor|done|]. intros Hb2. apply go_assign; [|done|intros; by apply go_notify].
  pose proof (known_steps _ _ _ Hs1 Hk) as (s1 & Hs1' & Hl1 & _). rewrite Hg in Hs1'.
  apply (m_ready _ _ (set_buffer [] 0 s1)); simpl.
  - by rewrite lookup_alter_eq, Hs1'.
  - rewrite Hl1. by eapply barrier_steps.
Qed.

Lemma go_console l f b :
  wf b → closed b = false → received_console l f (log b) → go (console opts E reenter l f) anywhere b.
Proof.
  intros Hb Hc Hr. unfold console. apply go_bind, go_get.
  destruct (current_selection b) as [s|] eqn:Hs; [|by apply go_ret].
  destruct (current_live _ _ Hb Hc Hs) as [Hl Hk]. apply go_if; intros Hg; [by apply go_ret|].
  guards. destruct (phase s) eqn:Hp; [by apply go_ret| |].
  - apply go_if; intros Hlim; [by apply go_fail|]. guards. apply go_step; [|done].
    apply m_push; try done; try congruence; [by apply Nat.leb_gt|]. apply Z.ltb_ge in H2. lia.
  - eapply go_call; [done|apply go_deliverConsole; try done; try congruence|].
    + apply (wf_objects _ Hb); [apply Hl|done].
    + intros ok b1 _ Hb1 _. apply go_if; intros _; [by apply go_ret|by apply go_fail].
Qed.

Lemma go_take rid l b :
  go (take_pending rid l) (λ r b', match r with
    | Some p => pending b !! rid = Some p ∧ p_link p = l ∧ b' = set_pending (delete rid (pending b)) b
    | None => True
    end) b.
Proof.
  unfold take_pending. apply go_bind, go_get. destruct (pending b !! rid) as [p|] eqn:Hp; [|by apply go_ret].
  apply go_bind, go_step; [constructor|]. apply go_ret. case_bool_decide; auto.
Qed.

Lemma go_operation_result b0 sm fr rid v op err :
  wf b0 → body fr = OperationResult rid v op err → let b := logged (Arrived (EvFrame sm fr)) b0 in
  closed b = false → go (operation_result opts E reenter (ref_of sm) rid (bool_decide (err = None))) anywhere b.
Proof.
  intros Hb0 Hfr b Hc. assert (wf b) as Hb by (eapply micro_wf; [constructor|done]).
  unfold operation_result. eapply go_call; [done|apply go_take|].
  intros [p|] b1 Hs1 Hb1 Hp; [|by apply go_ret]. destruct Hp as (Hp & Hl & ->).
  apply go_if; intros _; [by apply go_ret|]. apply go_bind, go_get, go_if; intros Hg; [by apply go_ret|]. guards.
  apply go_assign; [constructor|done|]. intros Hb2.
  destruct (p_kind p) eqn:Hkind; try case_bool_decide as Herr;
    try (by apply go_ret); try (by apply go_fail); try (by apply go_abandon); [by apply go_beginSnapshot|].
  apply go_completeSnapshot; [done|]. intros s Hs.
  destruct (wf_pending _ Hb0 rid p Hp) as [Hreq (s0 & Hs0 & Hl0)]. simpl in Hs.
  rewrite lookup_alter_eq, Hs0 in Hs. injection Hs as <-. simpl. rewrite Hl0. subst err.
  exists rid, (log b0), [Arrived (EvFrame sm fr)], fr, v, op. rewrite Hkind in Hreq.
  split_and!; try done. exists sm. split; [by rewrite Hl|]. set_solver.
Qed.

Lemma go_media_result b0 sm fr f :
  wf b0 → body fr = MediaResult (body f).1 (body f).2 → let b := logged (Arrived (EvFrame sm fr)) b0 in
  closed b = false → go (media_result opts E reenter (ref_of sm) f) anywhere b.
Proof.
  intros Hb0 Hfr b Hc. assert (wf b) as Hb by (eapply micro_wf; [constructor|done]).
  unfold media_result. eapply go_call; [done|apply go_take|].
  intros [p|] b1 Hs1 Hb1 Hp; [|by apply go_ret]. destruct Hp as (Hp & Hl & ->).
  apply go_if; intros Hk; [by apply go_ret|]. apply go_bind, go_get.
  destruct (current_selection _) as [s|] eqn:Hs; [|by apply go_ret].
  apply go_if; intros Hg; [|by apply go_ret]. guards.
  destruct (current_live _ _ Hb1 Hc Hs) as [Hlive Hks].
  destruct (wf_pending _ Hb0 _ p Hp) as [Hreq (s0 & Hs0 & Hl0)].
  assert (s_link s = p_link p) as Hls.
  { destruct Hlive as (_ & _ & Hs'). simpl in Hs'. rewrite H, Hs0 in Hs'. by injection Hs' as ->. }
  eapply (go_call _ _ anywhere); [done| |].
  2: { intros ok b2 _ Hb2 _. apply go_if; intros _; [by apply go_ret|by apply go_fail]. }
  unfold deliverMedia. apply go_if; intros _; [|by apply go_ret].
  apply go_bind, go_get, go_bind. rewrite state_live by done.
  apply go_interact; [done| |intros; by apply go_ret]. apply m_media; [done|done| |].
  - exists fr. split; [done|]. exists sm. split; [congruence|]. simpl. set_solver.
  - simpl. rewrite Hls, H. rewrite Hk in Hreq. set_solver.
Qed.

Lemma go_error_result l rid b : wf b → go (error_result opts E reenter l rid) anywhere b.
Proof.
  intros Hb. unfold error_result. eapply go_call; [done|apply go_take|].
  intros [p|] b1 Hs1 Hb1 Hp; [|by apply go_ret].
  apply go_if; intros _; [by apply go_ret|]. apply go_bind, go_get, go_if; intros _; [by apply go_ret|].
  apply go_assign; [constructor|done|]. intros Hb2. apply go_if; intros _; [by apply go_abandon|by apply go_fail].
Qed.

Lemma go_event e b : wf b → go (perform sha256_hex opts E reenter (Event e)) anywhere b.
Proof.
  intros Hb. simpl. apply go_assign; [constructor|done|]. intros Hb1. unfold handleResidentEvent.
  apply go_bind, go_get, go_if; intros Hc; [by apply go_ret|]. destruct e as [sm|sm fr|sm]; [by apply go_ret| |].
  - unfold handleResidentFrame. destruct (body fr) eqn:Hfr.
    + by apply go_ret.
    + by eapply go_operation_result.
    + apply go_console; [done|done|]. exists fr. unfold console_body. rewrite Hfr. split; [done|].
      exists sm. split; [done|]. simpl. set_solver.
    + by apply go_media_result.
    + destruct (perr_requestId err); [by apply go_error_result|by apply go_ret].
  - apply go_assign; [constructor|done|]. intros Hb2. apply go_bind, go_get.
    destruct (current_selection _); [|by apply go_ret]. apply go_if; intros _; [|by apply go_ret].
    apply go_assign; [constructor|done|]. intros Hb3. by apply go_notify.
Qed.

Lemma go_perform c b : wf b → go (perform sha256_hex opts E reenter c) anywhere b.
Proof.
  intros Hb. destruct c; [| | | | |by apply go_event]; simpl.
  - by apply go_then, go_select.
  - by apply go_then, go_input.
  - by apply go_then, go_media.
  - by apply go_deselect.
  - by apply go_disconnect.
Qed.
End walk.

Lemma viewer_exec_steps sha E depth c b : wf b → rtc micro b (exec sha opts E depth c b).
Proof.
  revert c b. induction depth as [|depth IH]; intros c b Hb; simpl.
  - pose proof (go_perform sha E (λ _ b, b) (λ _ b _, rtc_refl micro b) c b Hb) as H.
    unfold go, wp in H. destruct (perform _ _ _ _ _ _) as [[[]|] b']. apply H.
  - pose proof (go_perform sha E (exec sha opts E depth) IH c b Hb) as H.
    unfold go, wp in H. destruct (perform _ _ _ _ _ _) as [[[]|] b']. apply H.
Qed.

Lemma viewer_run_steps sha E depth cs : rtc micro new_broker (run sha opts E depth cs).
Proof.
  unfold run. induction cs as [|c cs IH] using rev_ind; [done|]. rewrite foldl_app. simpl.
  etransitivity; [exact IH|]. apply viewer_exec_steps. eapply steps_wf; [exact IH|apply wf_new].
Qed.

(** Invariants, by induction on the steps. *)
Lemma run_invariant (I : broker → Prop) sha E depth cs :
  I new_broker → (∀ b b', wf b → I b → micro b b' → I b') → I (run sha opts E depth cs).
Proof.
  intros H0 HS. pose proof (viewer_run_steps sha E depth cs) as Hs. pose proof wf_new as Hw. revert H0 Hw.
  induction Hs as [b|b b1 b2 Hm _ IH]; [done|]. intros HI Hw. apply IH; [by eapply HS|by eapply micro_wf].
Qed.
End micro.
