(* ===== verification/SelectedViewerTheorems.v ===== *)
(** * The selected viewer: theorems

    For every behaviour of the registry and of the browser, calls nested inside
    other calls included: the state stays within its bounds, and what reaches the
    browser or the resident is fenced by link, selection and snapshot
    (packages/gateway/src/selected-viewer-broker.ts). *)

From S2P Require Import Prelude Effects Protocol Codec Wire Registry SelectedViewer SelectedViewerFacts.
Local Open Scope string_scope.
Local Open Scope list_scope.
Local Open Scope Z_scope.

(** ** Bounds *)

Section limits.
Context (opts : settings).

Definition history_ok (h : RequestHistory) : Prop :=
  (length (order h) ≤ LIMITS_requestHistoryPerConnection)%nat ∧ NoDup (order h)
  ∧ used h = list_to_set (order h).

Definition sum_bytes (fs : list ConsoleOutputFrame) : Z :=
  foldr (λ f n, bytes (payload f) + n) 0 fs.

Definition buffer_ok (s : ActiveSelection) : Prop :=
  (length (buffer s) ≤ maxSnapshotBufferFrames opts)%nat
  ∧ bufferedBytes s = sum_bytes (buffer s) ∧ bufferedBytes s ≤ maxSnapshotBufferBytes opts.

Definition within_limits (b : broker) : Prop :=
  (size (pending b) ≤ LIMITS_pendingRequestsPerConnection)%nat
  ∧ map_Forall (λ _, history_ok) (requestHistory b)
  ∧ map_Forall (λ _, buffer_ok) (selections b).

Lemma sum_bytes_app l l' : sum_bytes (l ++ l') = sum_bytes l + sum_bytes l'.
Proof. induction l as [|f l IH]; simpl; [done|]. rewrite IH. lia. Qed.

Lemma remember_ok rid h : rid ∉ used h → history_ok h → history_ok (remember rid h).
Proof.
  intros Hr (Hlen & Hnd & Hu). assert (rid ∉ order h) as Hn by (rewrite Hu in Hr; by rewrite elem_of_list_to_set in Hr).
  unfold remember. destruct (Nat.ltb_spec LIMITS_requestHistoryPerConnection (length (order h ++ [rid]))) as [Hlt|Hge].
  - destruct (order h) as [|oldest rest] eqn:Ho; [simpl in Hlt; unfold LIMITS_requestHistoryPerConnection in Hlt; lia|].
    simpl. apply NoDup_cons in Hnd as [Ho' Hnd]. unfold history_ok. simpl.
    rewrite Hu. split_and!.
    + rewrite length_app in *. simpl in *. lia.
    + apply NoDup_app. set_solver by apply NoDup_singleton.
    + set_solver.
  - unfold history_ok. simpl. split_and!; [done| |set_solver].
    apply NoDup_app. split_and!; [done|set_solver|apply NoDup_singleton].
Qed.

Lemma buffers_alter g f (m : gmap Z ActiveSelection) :
  (∀ s, m !! g = Some s → buffer_ok s → buffer_ok (f s)) →
  map_Forall (λ _, buffer_ok) m → map_Forall (λ _, buffer_ok) (alter f g m).
Proof.
  intros Hf Hm h s. rewrite lookup_alter. case_decide as Hg; [|apply Hm]. subst h.
  intros (s0 & Hs & ->)%fmap_Some. apply Hf; [done|]. by apply (Hm g).
Qed.

Lemma history_empty : history_ok (mkHistory ∅ []).
Proof. unfold history_ok. simpl. split_and!; [lia|constructor|done]. Qed.

Lemma micro_within b b' :
  0 ≤ maxSnapshotBufferBytes opts → within_limits b → micro opts b b' → within_limits b'.
Proof.
  intros Hmax (Hp & Hh & Hs) Hm. unfold within_limits. destruct Hm; simpl; try done.
  - split_and!; [done| |done]. apply map_Forall_insert_2; [|done].
    destruct (requestHistory b !! key) eqn:Hk; [by apply (Hh key)|apply history_empty].
  - split_and!; [|apply map_Forall_insert_2; [|done]|done].
    + rewrite map_size_insert. destruct (pending b !! rid); simpl; lia.
    + apply remember_ok; [done|]. by eapply Hh.
  - split_and!; [|done..]. etransitivity; [apply map_subseteq_size, delete_subseteq|done].
  - split_and!; [|done..]. etransitivity; [apply map_size_filter|done].
  - split_and!; [|by apply map_Forall_delete|done]. etransitivity; [apply map_size_filter|done].
  - split_and!; [|done..]. rewrite map_size_empty. lia.
  - split_and!; [done..|]. apply map_Forall_insert_2; [|done]. unfold buffer_ok. simpl. split_and!; lia.
  - split_and!; [done..|]. by apply buffers_alter.
  - split_and!; [done..|]. by apply buffers_alter.
  - split_and!; [done..|]. apply buffers_alter; [|done]. intros. unfold buffer_ok. simpl. split_and!; lia.
  - split_and!; [done..|]. apply buffers_alter; [|done]. intros s' Hs' (Hl & Hb & Hsum).
    destruct H as (_ & _ & H). simplify_eq. unfold buffer_ok. simpl. rewrite length_app, sum_bytes_app.
    simpl. split_and!; lia.
  - split_and!; [done..|]. by apply buffers_alter.
Qed.
End limits.

(** Whatever the registry answers, whatever the browser calls and whatever
    either calls while the broker is inside a call to it: at most 128 requests are
    pending, each link's history holds at most 4096 distinct ids and is exactly
    the set the duplicate check uses, and the output held back for a snapshot
    stays within both configured bounds, its byte count exact. *)
Theorem viewer_limits bytes frames onSelection onMedia opts sha E depth cs :
  construct bytes frames onSelection onMedia = Some opts →
  within_limits opts (run sha opts E depth cs).
Proof.
  intros Hopts. assert (0 ≤ maxSnapshotBufferBytes opts) as Hmax.
  { unfold construct, bounded in Hopts. repeat case_match; simplify_eq/=. guards. lia. }
  apply run_invariant.
  - split_and!; [simpl; rewrite map_size_empty; lia|apply map_Forall_empty..].
  - intros b b' _ Hb Hm. by eapply micro_within.
Qed.

(** ** Fencing *)

(** No selection newer than [g] had made a request. *)
Definition newest (g : Z) (log : list action) : Prop :=
  ∀ h l k rid, Requested h l k rid ∈ log → h ≤ g.

(** What must have happened before an output. *)
Definition fenced (pre : list action) (a : action) : Prop :=
  match a with
  | ConsoleOut f st =>
      ∃ g p l v, st = StSelected g p l v ∧ viewer_of f = v ∧ received_console l f pre
        ∧ barrier g l pre ∧ newest g pre
  | MediaOut f st =>
      ∃ g l v, st = StSelected g Ready l v ∧ Requested g l KMedia (body f).1 ∈ pre
        ∧ received_media l f pre ∧ barrier g l pre ∧ newest g pre
  | Sent g l (ConsoleInput _ _) => barrier g l pre ∧ newest g pre
  | Sent g l (MediaGet rid _) => Requested g l KMedia rid ∈ pre
  | Sent g l (ViewerOp op rid _) => Requested g l (operation_kind op) rid ∈ pre
  | _ => True
  end.

(** Requests belong to objects of the heap, and every output was fenced. *)
Record traced (b : broker) : Prop := {
  tr_requests : ∀ g l k rid, Requested g l k rid ∈ log b → is_Some (selections b !! g);
  tr_fenced : ∀ pre a post, log b = pre ++ a :: post → fenced pre a;
}.

Lemma live_newest b s : wf b → traced b → live b s → newest (s_generation s) (log b).
Proof.
  intros Hb Ht (_ & Hs & _) h l k rid Hr. destruct (wf_selection _ Hb _ Hs) as [_ Hmax].
  destruct (tr_requests _ Ht _ _ _ _ Hr) as [s' Hs']. eauto.
Qed.

Lemma snoc_split {A} (l : list A) x pre a post :
  l ++ [x] = pre ++ a :: post → (∃ post', l = pre ++ a :: post') ∨ pre = l ∧ a = x.
Proof.
  destruct post as [|y post _] using rev_ind.
  - intros [-> [= ->]]%app_inj_2; [by right|done].
  - rewrite app_comm_cons, app_assoc. intros [-> _]%app_inj_2; [|done]. left. eauto.
Qed.

(** A step that adds one entry to the log, or none. *)
Lemma traced_log b b' a :
  traced b → log b' = log b ++ [a] → (∀ g, is_Some (selections b !! g) → is_Some (selections b' !! g)) →
  (∀ g l k rid, a = Requested g l k rid → is_Some (selections b' !! g)) →
  fenced (log b) a → traced b'.
Proof.
  intros [Hr Hf] El Hs Ha Hfa. split; rewrite El.
  - intros g l k rid [?|Hin]%elem_of_app; [eauto|]. apply list_elem_of_singleton in Hin. eauto.
  - intros pre a' post [[post' E]|[-> ->]]%snoc_split; eauto.
Qed.
Lemma traced_silent b b' :
  traced b → log b' = log b → (∀ g, is_Some (selections b !! g) → is_Some (selections b' !! g)) → traced b'.
Proof. intros [Hr Hf] El Hs. split; rewrite El; eauto. Qed.

Lemma alter_is_Some (m : gmap Z ActiveSelection) f g h : is_Some (m !! h) → is_Some (alter f g m !! h).
Proof. rewrite lookup_alter. case_decide; [subst; by rewrite fmap_is_Some|done]. Qed.

Lemma fenced_send b s e :
  wf b → traced b → may_send b s e → fenced (log b) (Sent (s_generation s) (s_link s) e).
Proof.
  intros Hb Ht. destruct e; simpl; try done.
  - by intros [_ ?].
  - intros (_ & Hl & Hp). split; [|by eapply live_newest]. by apply (wf_objects _ Hb); [apply Hl|].
Qed.

Lemma micro_traced opts b b' : wf b → traced b → micro opts b b' → traced b'.
Proof.
  intros Hb Ht Hm.
  destruct Hm; try (apply (traced_silent b); simpl; [done|by rewrite ?app_nil_r|auto using alter_is_Some]; fail);
    try (eapply (traced_log b); simpl; [done|reflexivity|done|naive_solver|done]; fail).
  - eapply (traced_log b); simpl; [done|reflexivity|done|done|].
    eexists _, _, _, _. split_and!; [done..|by eapply live_newest].
  - eapply (traced_log b); simpl; [done|reflexivity|done|done|].
    rewrite H0. eexists _, _, _. split_and!; [done|done|done| |by eapply live_newest].
    apply (wf_objects _ Hb); [apply H|done].
  - eapply (traced_log b); simpl; [done|reflexivity|done|done|]. by apply fenced_send.
  - eapply (traced_log b); simpl; [done|reflexivity|done| |done]. intros ???? [= <- _ _ _].
    destruct H as (s' & Hs & _). eauto.
  - apply (traced_silent b); simpl; [done|done|]. intros g Hg. rewrite lookup_insert. by case_decide.
Qed.

(** C27. Nothing crosses the fence, whatever the registry and the browser do and
    however calls nest: console output reaches the browser only for the viewer of
    the newest selection, after it arrived on that selection's link, and only once
    the snapshot asked for by this selection has succeeded on that link; media
    results only when they answer a request of this selection on its link; and
    console input goes to the resident only after the same barrier. *)
Theorem viewer_fenced opts sha E depth cs pre a post :
  log (run sha opts E depth cs) = pre ++ a :: post → fenced pre a.
Proof.
  revert pre a post. apply (tr_fenced (run sha opts E depth cs)). apply (run_invariant opts).
  - split; simpl; [by intros ????[]%elem_of_nil|by intros [] ??].
  - intros b b' Hb Ht Hm. by eapply micro_traced.
Qed.

(** ** After the disconnect *)

(** The broker heard events and did nothing. *)
Definition deaf (b b' : broker) : Prop :=
  ∃ es, b' = mkBroker (pending b) (requestHistory b) (selections b) (selection b) (generation b)
                (closed b) (cleaning b) (interactions b) (log b ++ (Arrived <$> es)).

Lemma deaf_refl b : deaf b b.
Proof. exists []. simpl. rewrite app_nil_r. by destruct b. Qed.
Lemma deaf_trans b1 b2 b3 : deaf b1 b2 → deaf b2 b3 → deaf b1 b3.
Proof. intros [es1 ->] [es2 ->]. exists (es1 ++ es2). simpl. by rewrite fmap_app, app_assoc. Qed.
Lemma deaf_closed b b' : deaf b b' → closed b' = closed b.
Proof. by intros [es ->]. Qed.

Lemma perform_closed sha opts E reenter c b :
  closed b = true → deaf b (perform sha opts E reenter c b).2.
Proof.
  intros Hc. pose proof (deaf_refl b) as Hd.
  destruct c as [i|t|r| | |e]; simpl; unfold select, input, media, deselect, disconnect, handleResidentEvent;
    autorewrite with eff; rewrite ?Hc; simpl.
  - done.
  - destruct (current_selection b); autorewrite with eff; done.
  - destruct (current_selection b); autorewrite with eff; done.
  - destruct (selection b); [|done]. unfold retire, is_current. autorewrite with eff. rewrite Hc.
    by rewrite andb_false_r.
  - done.
  - rewrite Hc. by exists [e].
Qed.

Lemma exec_closed sha opts E depth c b : closed b = true → deaf b (exec sha opts E depth c b).
Proof. destruct depth; simpl; apply perform_closed. Qed.

Lemma execs_closed sha opts E depth cs b :
  closed b = true → deaf b (foldl (λ b c, exec sha opts E depth c b) b cs).
Proof.
  revert b. induction cs as [|c cs IH]; intros b Hc; simpl; [apply deaf_refl|].
  pose proof (exec_closed sha opts E depth c b Hc) as Hd.
  eapply deaf_trans; [done|]. apply IH. by rewrite (deaf_closed _ _ Hd).
Qed.

Lemma notify_closed opts E reenter r b :
  (∀ c b, closed b = true → deaf b (reenter c b)) → closed b = true →
  let b' := (notify opts E reenter r b).2 in
  closed b' = true ∧ pending b' = pending b ∧ requestHistory b' = requestHistory b.
Proof.
  intros Hre Hc. unfold notify. destruct (has_onSelection opts); [|done]. unfold interact.
  autorewrite with eff. simpl.
  assert (∀ cs b, closed b = true → deaf b (foldl (λ b' c, reenter c b') b cs)) as Hall.
  { intros cs. induction cs as [|c cs IH]; intros b0 H0; simpl; [apply deaf_refl|].
    pose proof (Hre c b0 H0) as Hd. eapply deaf_trans; [done|]. apply IH. by rewrite (deaf_closed _ _ Hd). }
  destruct (Hall (reacts E (interactions b) (Selection r (state b))) (stepped [Selection r (state b)] b) Hc) as [es ->]. done.
Qed.

(** No method throws, so any postcondition that holds everywhere holds. *)
Lemma wp_total {A} (m : eff broker Empty_set A) (Q : A → broker → Prop) X b :
  (∀ a b', Q a b') → wp m Q X b.
Proof. intros HQ. unfold wp. destruct (m b) as [[[]|a] b']. auto. Qed.

Lemma disconnect_closes opts E reenter b :
  (∀ c b, closed b = true → deaf b (reenter c b)) →
  let b1 := (disconnect opts E reenter b).2 in
  closed b1 = true ∧ (closed b = false → pending b1 = ∅ ∧ requestHistory b1 = ∅).
Proof.
  intros Hre. assert (wp (disconnect opts E reenter) (λ _ b1,
    closed b1 = true ∧ (closed b = false → pending b1 = ∅ ∧ requestHistory b1 = ∅)) (λ _ _, False) b) as H.
  { unfold disconnect. wp_run; [by rewrite H|]. apply wp_total. intros _ b1. wp_run.
    set (b2 := logged _ _). destruct (notify_closed opts E reenter r_disconnected b2 Hre) as (Hc & Hp & Hh); [done|].
    unfold wp. destruct (notify _ _ _ _ _) as [[[]|] b3]. simpl in *. rewrite Hp, Hh. done. }
  unfold wp in H. destruct (disconnect _ _ _ _) as [[[]|] b1]. done.
Qed.

(** [disconnect] is terminal in every state: afterwards the broker is closed,
    with no pending request and no history left, and whatever is called or arrives
    from then on, nothing is sent, cut, delivered or notified. *)
Theorem disconnect_terminal sha opts E depth b cs :
  let b1 := exec sha opts E depth Disconnect b in
  closed b1 = true
  ∧ (closed b = false → pending b1 = ∅ ∧ requestHistory b1 = ∅)
  ∧ ∃ es, log (foldl (λ b c, exec sha opts E depth c b) b1 cs) = log b1 ++ (Arrived <$> es).
Proof.
  intros b1. assert (closed b1 = true ∧ (closed b = false → pending b1 = ∅ ∧ requestHistory b1 = ∅)) as [Hc Hp].
  { subst b1. destruct depth; apply disconnect_closes; intros; [apply deaf_refl|by apply exec_closed]. }
  split_and!; [done|done|]. destruct (execs_closed sha opts E depth cs b1 Hc) as [es ->]. by exists es.
Qed.
