(* ===== verification/SelectedViewerCleanup.v ===== *)
(** * The selected viewer: remote viewers are cleaned up

    When the browser side does not call back into the broker from a notification
    or a delivery (the relay defers for this reason), and the registry only hands
    over link events while it sends or disconnects, every viewer that was ever
    opened on a resident is the selected one or was taken care of
    (packages/gateway/src/selected-viewer-broker.ts). *)

From S2P Require Import Prelude Effects Protocol Codec Wire Registry SelectedViewer SelectedViewerFacts.
From stdpp Require Import relations.
Local Open Scope string_scope.
Local Open Scope list_scope.
Local Open Scope Z_scope.

(** The frame refuses the request. *)
Definition rejects (fr : frame ResidentBody) (rid : string) : Prop :=
  (∃ v op e, body fr = OperationResult rid v op (Some e))
  ∨ (∃ e, body fr = ResidentErr e ∧ perr_requestId e = Some rid).

(** In [post], what was opened for selection [g] on link [l] was closed, its link
    cut or seen removed, or its opening refused. *)
Definition cleaned (g : Z) (l : LinkRef) (log post : list action) : Prop :=
  (∃ rid v, Accepted g (ViewerOp viewer_close rid v) ∈ post)
  ∨ (∃ reason, Cut g l reason ∈ post)
  ∨ (∃ sm, ref_of sm = l ∧ Arrived (EvRemoved sm) ∈ post)
  ∨ (∃ rid fr, Requested g l KOpen rid ∈ log ∧ received l fr post ∧ rejects fr rid).

Lemma cleaned_mono g l log log' post post' :
  log ⊆ log' → post ⊆ post' → cleaned g l log post → cleaned g l log' post'.
Proof.
  intros Hl Hp [(rid & v & H)|[(r & H)|[(sm & Hr & H)|(rid & fr & Hr & (sm & Hs & Hf) & H)]]].
  - left. eauto.
  - right; left. eauto.
  - right; right; left. eauto.
  - right; right; right. exists rid, fr. split_and!; [auto| |done]. exists sm. auto.
Qed.

(** The outside calls back only from the registry, and only with events. *)
Definition outward (a : action) : bool := match a with Sent _ _ _ | Cut _ _ _ => true | _ => false end.
Definition quiet (E : env) : Prop :=
  ∀ n a, if outward a then Forall (λ c, ∃ e, c = Event e) (reacts E n a) else reacts E n a = [].

Definition is_open (a : action) : bool :=
  match a with Sent _ _ (ViewerOp viewer_open _ _) => true | _ => false end.

(** Opened viewers are cleaned up, but for the selected one and those of the
    selections [X], which a method in progress is about to clean up. *)
Record tidy (X : gset Z) (b : broker) : Prop := {
  ti_open : ∀ pre g l rid v post, log b = pre ++ Sent g l (ViewerOp viewer_open rid v) :: post →
    g ∈ X ∨ selection b = Some g ∨ cleaned g l (log b) post;
  ti_closed : closed b = true → selection b = None;
  ti_cleaning : cleaning b = true → selection b = None;
}.

Lemma tidy_same X b b' :
  tidy X b → log b' = log b → selection b' = selection b → closed b' = closed b →
  cleaning b' = cleaning b → tidy X b'.
Proof. intros [] El Es Ec Ek. split; by rewrite ?El, ?Es, ?Ec, ?Ek. Qed.

Lemma open_split (l : list action) x pre g r rid v post :
  l ++ [x] = pre ++ Sent g r (ViewerOp viewer_open rid v) :: post →
  (∃ post', l = pre ++ Sent g r (ViewerOp viewer_open rid v) :: post' ∧ post = post' ++ [x])
  ∨ x = Sent g r (ViewerOp viewer_open rid v) ∧ post = [] ∧ pre = l.
Proof.
  destruct post as [|y post _] using rev_ind.
  - intros [-> [= ->]]%app_inj_2; [by right|done].
  - rewrite app_comm_cons, app_assoc. intros [-> [= ->]]%app_inj_2; [|done]. left. eauto.
Qed.

Lemma tidy_log X b b' a :
  tidy X b → log b' = log b ++ [a] → is_open a = false → selection b' = selection b →
  closed b' = closed b → cleaning b' = cleaning b → tidy X b'.
Proof.
  intros [Ho Hc Hk] El Ha Es Ec Ek. split; rewrite ?El, ?Es, ?Ec, ?Ek; [|done..].
  intros pre g l rid v post [(post' & E & ->)|(-> & _)]%open_split; [|done].
  destruct (Ho _ _ _ _ _ _ E) as [?|[?|?]]; [by left|by right; left|].
  right; right. eapply cleaned_mono; [| |done]; set_solver.
Qed.

Lemma tidy_unselect X b g : selection b = Some g → tidy X b → tidy ({[ g ]} ∪ X) (set_selection None b).
Proof.
  intros Hg [Ho Hc Hk]. split; simpl; [|done..]. intros pre h l rid v post E.
  destruct (Ho _ _ _ _ _ _ E) as [?|[?|?]]; [set_solver|left; set_solver|auto].
Qed.

(** An entry that cleans up after [g]. *)
Lemma tidy_cleaned X b b' g a :
  tidy ({[ g ]} ∪ X) b → log b' = log b ++ [a] → is_open a = false → selection b' = selection b →
  closed b' = closed b → cleaning b' = cleaning b →
  (∀ l rid v, Sent g l (ViewerOp viewer_open rid v) ∈ log b → cleaned g l (log b ++ [a]) [a]) →
  tidy X b'.
Proof.
  intros [Ho Hc Hk] El Ha Es Ec Ek Hcl. split; rewrite ?El, ?Es, ?Ec, ?Ek; [|done..].
  intros pre h l rid v post [(post' & E & ->)|(-> & _)]%open_split; [|done].
  destruct (decide (h = g)) as [->|Hne].
  - right; right. assert (cleaned g l (log b ++ [a]) [a]) as H.
    { apply (Hcl l rid v). rewrite E. set_solver. }
    eapply cleaned_mono; [| |done]; set_solver.
  - destruct (Ho _ _ _ _ _ _ E) as [?|[?|?]]; [left; set_solver|by right; left|].
    right; right. eapply cleaned_mono; [| |done]; set_solver.
Qed.

(** Everything opened for [g] was cleaned up: it may be dropped. *)
Definition droppable (g : Z) (b : broker) : Prop :=
  ∀ pre l rid v post, log b = pre ++ Sent g l (ViewerOp viewer_open rid v) :: post →
    cleaned g l (log b) post.

Lemma droppable_log b b' g a :
  log b' = log b ++ [a] → is_open a = false →
  (∀ l rid v, Sent g l (ViewerOp viewer_open rid v) ∈ log b → cleaned g l (log b ++ [a]) [a]) →
  droppable g b'.
Proof.
  intros El Ha Hcl pre l rid v post. rewrite El.
  intros [(post' & E & ->)|(-> & _)]%open_split; [|done].
  eapply cleaned_mono; [| |apply (Hcl l rid v); rewrite E; set_solver]; set_solver.
Qed.
Lemma tidy_drop X b g : selection b = Some g → droppable g b → tidy X b → tidy X (set_selection None b).
Proof.
  intros Hg Hd [Ho Hc Hk]. split; simpl; [|done..]. intros pre h l rid v post El.
  destruct (Ho _ _ _ _ _ _ El) as [?|[?|?]]; [by left| |by right; right].
  right; right. simplify_eq. by eapply Hd.
Qed.
Lemma tidy_cleaning X b c : selection b = None → tidy X b → tidy X (set_cleaning c b).
Proof. intros Hs [Ho Hc Hk]. by split. Qed.

Section walk.
Context (sha256_hex : list Z → string) (opts : settings) (E : env).
Context (reenter : call → broker → broker).
Context (Hre : ∀ c b, wf b → rtc (micro opts) b (reenter c b)).
Context (HE : quiet E).

(** What an event keeps, and every method that neither selects nor disconnects. *)
Definition flags (b : broker) : bool * bool := (cleaning b, closed b).
Definition kept (X : gset Z) (b b' : broker) : Prop :=
  tidy X b' ∧ flags b' = flags b ∧ (selection b = None → selection b' = None).

Context (Hev : ∀ X e b, wf b → tidy X b → kept X b (reenter (Event e) b)).

Lemma kept_refl X b : tidy X b → kept X b b.
Proof. done. Qed.
Lemma kept_trans X Y b1 b2 b3 : kept X b1 b2 → kept Y b2 b3 → kept Y b1 b3.
Proof. intros (_ & ? & ?) (? & ? & ?). split_and!; [done|congruence|auto]. Qed.

Abbreviation B := (eff broker Empty_set).
(** The method keeps the house tidy. *)
Definition tidies {A} (X : gset Z) (m : B A) (b : broker) : Prop := go opts m (λ _, kept X b) b.

Lemma tidies_ret {A} X (a : A) b : tidy X b → tidies X (mret a) b.
Proof. intros Hb. by apply go_ret. Qed.

Lemma tidies_call {A C} X Y (m : B A) (k : A → B C) (R : A → broker → Prop) b :
  wf b → go opts m (λ a b', kept X b b' ∧ R a b') b →
  (∀ a b', rtc (micro opts) b b' → wf b' → tidy X b' → flags b' = flags b →
     (selection b = None → selection b' = None) → R a b' → tidies Y (k a) b') →
  tidies Y (m ≫= k) b.
Proof.
  intros Hb Hm Hk. eapply go_call; [done|exact Hm|]. intros a b' Hs Hb' [(Ht & Hc & Hsel) HR].
  eapply go_mono; [by apply Hk|]. intros c b'' _ Hk'. by eapply (kept_trans X).
Qed.
Lemma tidies_bind {A C} X Y (m : B A) (k : A → B C) b :
  wf b → tidies X m b →
  (∀ a b', rtc (micro opts) b b' → wf b' → tidy X b' → flags b' = flags b →
     (selection b = None → selection b' = None) → tidies Y (k a) b') →
  tidies Y (m ≫= k) b.
Proof.
  intros Hb Hm Hk. apply (tidies_call X Y m k (λ _ _, True)); [done| |auto].
  eapply go_mono; [exact Hm|]. done.
Qed.

Lemma events_kept X cs b :
  Forall (λ c, ∃ e, c = Event e) cs → wf b → tidy X b → kept X b (foldl (λ b c, reenter c b) b cs).
Proof.
  intros Hcs. revert b. induction Hcs as [|c cs [e ->] _ IH]; intros b Hb Ht; simpl; [done|].
  pose proof (Hev X e b Hb Ht) as Hk. eapply kept_trans; [exact Hk|]. apply IH; [|apply Hk].
  eapply steps_wf; [by apply Hre|done].
Qed.

(** A call of the registry that may hand over events. *)
Lemma tidies_out X a b :
  outward a = true → wf b → micro opts b (stepped [a] b) → tidy X (stepped [a] b) →
  go opts (interact E reenter a) (λ _ b', kept X b b' ∧ a ∈ log b') b.
Proof.
  intros Ha Hb Hm Ht. unfold interact. apply go_bind, go_get, go_bind, go_step; [done|].
  assert (wf (stepped [a] b)) as Hb1 by by eapply micro_wf.
  pose proof (HE (interactions b) a) as Hq. rewrite Ha in Hq.
  pose proof (reenter_steps opts reenter Hre (reacts E (interactions b) a) _ Hb1) as Hs.
  apply go_bind, go_modify; [done|]. apply go_ret.
  pose proof (events_kept X _ _ Hq Hb1 Ht) as (? & ? & ?). split; [by split_and!|].
  eapply log_steps; [done|]. simpl. set_solver.
Qed.

(** A call of the browser side, which does not call back. *)
Lemma go_callback a (Q : nat → broker → Prop) b :
  outward a = false → micro opts b (stepped [a] b) → Q (interactions b) (stepped [a] b) →
  go opts (interact E reenter a) Q b.
Proof.
  intros Ha Hm HQ. unfold interact. apply go_bind, go_get, go_bind, go_step; [done|].
  pose proof (HE (interactions b) a) as Hq. rewrite Ha in Hq. rewrite Hq.
  apply go_bind, go_modify; [done|]. by apply go_ret.
Qed.

Lemma notify_selection X r b :
  tidy X b → go opts (notify opts E reenter r) (λ _ b', kept X b b' ∧ selection b' = selection b) b.
Proof.
  intros Ht. unfold notify. apply go_if; intros _; [|by apply go_ret].
  apply go_bind, go_get, go_bind, go_callback; [done|constructor|]. apply go_ret.
  split; [|done]. split; [|done]. by eapply tidy_log.
Qed.
Lemma tidies_notify X r b : tidy X b → tidies X (notify opts E reenter r) b.
Proof. intros Ht. eapply go_mono; [by apply notify_selection|]. by intros ??? []. Qed.

Lemma tidies_cut X s reason b :
  wf b → known b s → tidy ({[ s_generation s ]} ∪ X) b → tidies X (cut E reenter s reason) b.
Proof.
  intros Hb Hk Ht. unfold cut. apply (tidies_bind X).
  - done.
  - eapply go_mono; [apply (tidies_out X); [done|done|by constructor|]|by intros ??? []].
    eapply tidy_cleaned; try done. simpl.
    intros l rid v Hs. right; left. exists reason. destruct (wf_sent _ Hb _ _ _ Hs) as (s1 & Hs1 & <-).
    destruct Hk as (s2 & Hs2 & Hl & _). simplify_eq. rewrite Hl. set_solver.
  - intros n b' _ _ Ht' _ _. by apply tidies_ret.
Qed.

(** Assignments that concern neither the log nor the selection. *)
Lemma tidies_assign {A} X f (k : () → B A) b :
  micro opts b (f b) → wf b → tidy X b →
  log (f b) = log b → selection (f b) = selection b → closed (f b) = closed b → cleaning (f b) = cleaning b →
  (wf (f b) → tidy X (f b) → tidies X (k tt) (f b)) → tidies X (modify f ≫= k) b.
Proof.
  intros Hm Hb Ht El Es Ec Ek Hk. assert (tidy X (f b)) as Ht' by by eapply tidy_same.
  apply go_assign; [done|done|]. intros Hb'. eapply go_mono; [by apply Hk|].
  intros a b' _ (? & Hfl & ?). unfold flags in Hfl. rewrite Ec, Ek in Hfl. split_and!; [done|done|]. by rewrite <-Es.
Qed.

Lemma tidies_forget X rid b : wf b → tidy X b → tidies X (forget rid) b.
Proof. intros Hb Ht. apply go_step; [constructor|]. split; [by eapply tidy_same|done]. Qed.

Lemma request_frame kind s b :
  wp (request E kind s) (λ _ b', selection b' = selection b ∧ closed b' = closed b
    ∧ cleaning b' = cleaning b
    ∧ (log b' = log b ∨ ∃ rid, log b' = log b ++ [Requested (s_generation s) (s_link s) kind rid]))
    (λ _ _, False) b.
Proof.
  unfold request, tick. wp_run; simpl; [auto|]. destruct (request_ids E _); wp_run; simpl; rewrite ?app_nil_r;
    split_and!; eauto.
Qed.

Lemma go_both {A} (m : B A) Q Q' b :
  go opts m Q b → wp m Q' (λ _ _, False) b → go opts m (λ a b', Q a b' ∧ Q' a b') b.
Proof. unfold go, wp. destruct (m b) as [[[]|a] b']. naive_solver. Qed.

Lemma tidies_request X kind s b :
  wf b → known b s → tidy X b →
  go opts (request E kind s) (λ r b', kept X b b' ∧ selection b' = selection b ∧ match r with
    | Some rid => Requested (s_generation s) (s_link s) kind rid ∈ log b'
    | None => True
    end) b.
Proof.
  intros Hb Hk Ht. eapply go_mono; [apply go_both; [by eapply go_request|apply request_frame]|].
  intros r b' _ (Hr & Es & Ec & Ek & El). split_and!; [|done|done].
  split_and!; [|unfold flags; congruence|congruence]. destruct El as [El|[rid El]]; [by eapply tidy_same|by eapply tidy_log].
Qed.

Lemma tidy_open X b g l rid v :
  tidy X b → selection b = Some g → tidy X (stepped [Sent g l (ViewerOp viewer_open rid v)] b).
Proof.
  intros [Ho Hc Hk] Hs. split; simpl; [|done..].
  intros pre g' l' rid' v' post [(post' & El & ->)|([= <- <- <- <-] & _)]%open_split; [|auto].
  destruct (Ho _ _ _ _ _ _ El) as [?|[?|?]]; [auto|auto|]. right; right. eapply cleaned_mono; [| |done]; set_solver.
Qed.

(** Sending a frame; an open only for the selection. *)
Lemma tidies_send X s e b :
  wf b → known b s → may_send b s e → tidy X b →
  (is_open (Sent (s_generation s) (s_link s) e) = true → selection b = Some (s_generation s)) →
  go opts (send E reenter s e) (λ ok b', kept X b b' ∧ (ok = true →
    ∃ b1, wf b1 ∧ tidy X b1 ∧ b' = logged (Accepted (s_generation s) e) b1)) b.
Proof.
  intros Hb Hk Hm Ht Ho. unfold send. apply go_bind, go_tick.
  assert (wf (stepped [] b)) as Hb1 by (eapply (micro_wf opts); [constructor|done]).
  assert (tidy X (stepped [] b)) as Ht1 by (eapply tidy_same; [done|simpl; by rewrite app_nil_r|done..]).
  apply go_if; intros _; [|by apply go_ret].
  eapply go_call; [done|apply (tidies_out X); [done|done|constructor; [done|by apply may_send_tick]|]|].
  - destruct (is_open (Sent (s_generation s) (s_link s) e)) eqn:Hopen; [|by eapply tidy_log].
    destruct e as [|[]| | |]; try done. by apply (tidy_open _ (stepped [] b)), Ho.
  - intros n b' Hs Hb' [Hkept Hlog]. apply go_if; intros _; [|by apply go_ret].
    apply go_bind, go_step; [by apply (m_accepted _ _ _ (s_link s))|]. apply go_ret.
    destruct Hkept as (Ht' & Hc & Hsel). split; [|by eauto]. split_and!; [by eapply tidy_log|done|done].
Qed.

Lemma tidies_close_viewer X s busy drop b :
  wf b → known b s → tidy ({[ s_generation s ]} ∪ X) b → tidies X (close_viewer E reenter s busy drop) b.
Proof.
  intros Hb Hk Ht. unfold close_viewer. destruct (operationRequestId s); [by apply tidies_cut|].
  eapply (tidies_call ({[ s_generation s ]} ∪ X)); [done|by apply tidies_request|].
  intros rid b1 Hs1 Hb1 Ht1 _ _ [_ Hr]. pose proof (known_steps _ _ _ _ Hs1 Hk) as Hk1.
  eapply (tidies_call ({[ s_generation s ]} ∪ X) _ _ _ (λ ok b', ok = true → tidy X b')); [done| |].
  { destruct rid as [r|]; [|by apply go_ret]. eapply go_mono; [by apply tidies_send|].
    intros ok b2 _ [Hkept Hok]. split; [done|]. intros ?. destruct Hok as (b3 & Hb3 & Ht3 & ->); [done|].
    eapply tidy_cleaned; try done. intros. left. exists r, (s_viewerId s). set_solver. }
  intros ok b2 Hs2 Hb2 Ht2 _ _ Hok. pose proof (known_steps _ _ _ _ Hs2 Hk1) as Hk2.
  apply go_if; intros ?; [by apply tidies_ret, Hok|].
  apply (tidies_bind ({[ s_generation s ]} ∪ X)); [done| |].
  - destruct rid; [|by apply tidies_ret]. apply go_if; intros _; [by apply tidies_forget|by apply tidies_ret].
  - intros _ b3 Hs3 Hb3 Ht3 _ _. apply tidies_cut; [done| |done]. by eapply known_steps.
Qed.

(** The selection is given up and its viewer closed. *)
Lemma tidies_cleanup X g busy drop b :
  wf b → is_Some (selections b !! g) → tidy ({[ g ]} ∪ X) b →
  tidies X (with_selection g (λ s, close_viewer E reenter s busy drop) tt) b.
Proof.
  intros Hb [s0 Hs0] Ht. apply go_with; [|by rewrite Hs0]. intros s Hs.
  destruct (known_object _ _ _ Hb Hs) as [Hk <-]. by apply tidies_close_viewer.
Qed.

Lemma is_current_true b g : is_current b g = true → selection b = Some g ∧ closed b = false.
Proof. unfold is_current. intros. guards. done. Qed.

(** Dropping the selection [g] for its cleanup. *)
Lemma tidies_unselect {A} X g (k : () → B A) b :
  wf b → tidy X b → selection b = Some g →
  (∀ b', wf b' → tidy ({[ g ]} ∪ X) b' → selection b' = None → flags b' = flags b →
     is_Some (selections b' !! g) → log b' = log b → go opts (k tt) (λ _ b'', kept X b' b'') b') →
  go opts (modify (set_selection None);; modify (dropGeneration g) ≫= k)
    (λ _ b', kept X (set_selection None b) b') b.
Proof.
  intros Hb Ht Hs Hk. apply go_assign; [constructor|done|]. intros Hb1.
  apply go_assign; [constructor|done|]. intros Hb2.
  eapply go_mono; [apply Hk; try done|].
  - eapply tidy_same; [by eapply tidy_unselect|done..].
  - by apply (wf_selection _ Hb).
  - intros a b' _ (? & ? & ?). by split_and!.
Qed.

Lemma kept_unselected X b b' : kept X (set_selection None b) b' → kept X b b'.
Proof. intros (? & ? & Hs). split_and!; [done|done|]. intros _. by apply Hs. Qed.

Lemma retire_unselects X g reason b :
  wf b → tidy X b → is_current b g = true →
  go opts (retire opts E reenter g reason) (λ _, kept X (set_selection None b)) b.
Proof.
  intros Hb Ht Hg. unfold retire. apply go_bind, go_get, go_if; intros Hg'; [by rewrite Hg in Hg'|].
  apply is_current_true in Hg as [Hg _]. apply (tidies_unselect X); [done..|].
  intros b1 Hb1 Ht1 _ _ Hg1 _. apply (tidies_bind X); [done|by apply tidies_cleanup|].
  intros _ b2 _ Hb2 Ht2 _ _. destruct reason; [by apply tidies_notify|by apply tidies_ret].
Qed.

Lemma tidies_retire X g reason b : wf b → tidy X b → tidies X (retire opts E reenter g reason) b.
Proof.
  intros Hb Ht. destruct (is_current b g) eqn:Hg.
  - eapply go_mono; [by apply retire_unselects|]. intros. by apply kept_unselected.
  - unfold retire. apply go_bind, go_get. rewrite Hg. by apply tidies_ret.
Qed.

Lemma tidies_abandon X g reason b :
  wf b → tidy X b → droppable g b → tidies X (abandon opts E reenter g reason) b.
Proof.
  intros Hb Ht Hd. unfold abandon. apply go_bind, go_get, go_if; intros Hg; [by apply tidies_ret|].
  apply negb_false_iff, is_current_true in Hg as [Hg _].
  apply go_assign; [constructor|done|]. intros Hb1. apply go_assign; [constructor|done|]. intros Hb2.
  eapply go_mono; [apply (tidies_notify X)|].
  - eapply tidy_same; [by eapply tidy_drop|done..].
  - intros a b' _ (? & ? & Hs). split_and!; [done|done|]. intros _. by apply Hs.
Qed.

Lemma tidies_fail X g reason b : wf b → tidy X b → tidies X (fail opts E reenter g reason) b.
Proof.
  intros Hb Ht. unfold fail. apply go_bind, go_get, go_if; intros Hg; [by apply tidies_ret|].
  apply orb_false_iff in Hg as [Hg Hk]. apply negb_false_iff, is_current_true in Hg as [Hg _].
  do 3 (apply go_assign; [constructor|done|]; intros ?). set (b1 := dropGeneration _ _) in *.
  assert (tidy ({[ g ]} ∪ X) b1) as Ht1.
  { eapply tidy_same; [eapply (tidy_cleaning _ _ true), tidy_unselect; done|done..]. }
  assert (is_Some (selections b1 !! g)) as Hg1 by by apply (wf_selection _ Hb).
  eapply go_call; [done|by apply (tidies_cleanup X)|]. intros _ b2 _ Hb2 (Ht2 & [= _ Hc2] & Hs2).
  specialize (Hs2 eq_refl).
  eapply go_call; [done|by apply (tidies_notify X)|]. intros _ b3 _ Hb3 (Ht3 & [= _ Hc3] & Hs3).
  specialize (Hs3 Hs2). apply go_step; [constructor|].
  split_and!; [by apply tidy_cleaning|unfold flags; simpl; congruence|done].
Qed.

Lemma tidies_then {A C} X (m : B A) (c : C) b : wf b → tidies X m b → tidies X (m;; mret c) b.
Proof. intros Hb Hm. apply (tidies_bind X); [done|done|]. intros. by apply tidies_ret. Qed.

Lemma tidies_input X t b : wf b → tidy X b → tidies X (input sha256_hex opts E reenter t) b.
Proof.
  intros Hb Ht. unfold input. apply go_bind, go_get.
  destruct (current_selection b) as [s|] eqn:Hs; [|by apply tidies_ret].
  apply go_if; intros Hg; [guards|by apply tidies_ret]. destruct (current_live _ _ Hb H Hs) as [Hl Hk].
  apply go_if; intros _; [by apply tidies_ret|].
  eapply (tidies_call X); [done|by apply tidies_send|]. intros ok b1 _ Hb1 Ht1 _ _ _.
  apply go_if; intros _; [by apply tidies_ret|]. by apply tidies_then, tidies_fail.
Qed.

Lemma tidies_media X r b : wf b → tidy X b → tidies X (media sha256_hex opts E reenter r) b.
Proof.
  intros Hb Ht. unfold media. apply go_bind, go_get.
  destruct (current_selection b) as [s|] eqn:Hs; [|by apply tidies_ret].
  apply go_if; intros Hg; [guards|by apply tidies_ret]. destruct (current_live _ _ Hb H Hs) as [_ Hk].
  apply go_bind, go_tick. assert (wf (stepped [] b)) as Hb1 by (eapply (micro_wf opts); [constructor|done]).
  assert (tidy X (stepped [] b)) as Ht1 by (eapply tidy_same; [done|simpl; by rewrite app_nil_r|done..]).
  change (kept X b) with (kept X (stepped [] b)).
  destruct (SelectedViewer.lookup E _ _ _); [|by apply tidies_ret]. apply go_if; intros _; [by apply tidies_ret|].
  eapply (tidies_call X); [done|by apply tidies_request|].
  intros [rid|] b2 Hs2 Hb2 Ht2 _ _ [_ Hr]; [|by apply tidies_ret].
  apply go_if; intros _; [by apply tidies_then, tidies_forget|].
  eapply (tidies_call X); [done|apply tidies_send; try done; by eapply known_steps|].
  intros ok b3 _ Hb3 Ht3 _ _ _. apply go_if; intros _; [by apply tidies_ret|].
  apply (tidies_bind X); [done|by apply tidies_forget|]. intros _ b4 _ Hb4 Ht4 _ _.
  by apply tidies_then, tidies_fail.
Qed.

Lemma tidies_beginSnapshot X g b : wf b → tidy X b → tidies X (beginSnapshot opts E reenter g) b.
Proof.
  intros Hb Ht. unfold beginSnapshot. apply go_bind, go_get, go_if; intros _; [by apply tidies_ret|].
  do 2 (apply tidies_assign; [constructor|done..|]; intros ??).
  apply go_with; [|done]. intros s Hs. destruct (known_object _ _ _ H1 Hs) as [Hk <-].
  eapply (tidies_call X); [done|by apply tidies_request|].
  intros [r|] b1 Hs1 Hb1 Ht1 _ _ [_ Hr]; [|by apply tidies_fail].
  apply tidies_assign; [constructor|done..|]. intros Hb2 Ht2.
  apply (tidies_bind X); [done|by apply tidies_notify|]. intros _ b3 Hs3 Hb3 Ht3 _ _.
  assert (rtc (micro opts) b1 b3) as Hs13 by (eapply rtc_l; [apply (m_operation _ _ (s_generation s) (Some r))|done]).
  eapply (tidies_call X); [done|apply tidies_send; [done| | |done|done]|].
  - do 2 (eapply known_steps; [done|]). done.
  - split; [done|]. by eapply log_steps.
  - intros ok b4 _ Hb4 Ht4 _ _ _. apply go_if; intros _; [by apply tidies_ret|].
    apply (tidies_bind X); [done|by apply tidies_forget|]. intros. by apply tidies_fail.
Qed.

Lemma tidies_deliverConsole X f s b :
  tidy X b → live b s → viewer_of f = s_viewerId s → received_console (s_link s) f (log b) →
  barrier (s_generation s) (s_link s) (log b) → tidies X (deliverConsole E reenter f s) b.
Proof.
  intros Ht Hl Hv Hr Hbar. unfold deliverConsole. apply go_bind, go_get, go_bind.
  rewrite state_live by apply Hl. apply go_callback; [done|by constructor|]. apply go_ret.
  split; [by eapply tidy_log|done].
Qed.

Lemma tidies_flush X fuel g k n l b :
  wf b → tidy X b → (∃ s, known b s ∧ s_generation s = g ∧ s_link s = l) → barrier g l (log b) →
  tidies X (flush opts E reenter fuel g k n) b.
Proof.
  revert k n b. induction fuel as [|fuel IH]; intros k n b Hb Ht Hk Hbar; simpl; [by apply tidies_ret|].
  apply go_with; [|done]. intros s Hs. destruct (known_object _ _ _ Hb Hs) as [Hks Hg].
  assert (s_link s = l) as Hl.
  { destruct Hk as (s0 & (s1 & Hs1 & Hl1 & _) & Hg0 & Hl0). congruence. }
  destruct (buffer s !! k) as [f|] eqn:Hf; [|by apply tidies_ret].
  apply go_bind, go_get, go_if; intros Hcur; [by apply tidies_ret|].
  apply negb_false_iff, is_current_true in Hcur as [Hsel Hc].
  apply go_if; intros _; [by apply tidies_then, tidies_fail|].
  destruct (wf_objects _ Hb _ _ Hs) as [_ Hbuf _]. destruct (Hbuf f) as [Hv Hr]; [by eapply list_elem_of_lookup_2|].
  assert (live b s) as Hlive by (rewrite <-Hg in *; by split_and!).
  apply (tidies_bind X); [done|apply tidies_deliverConsole; [done|done|done|done|by rewrite Hg, Hl]|].
  intros ok b1 Hs1 Hb1 Ht1 _ _. apply go_if; intros _; [|by apply tidies_then, tidies_fail].
  apply IH; [done|done| |by eapply barrier_steps]. exists s. split_and!; [by eapply known_steps|done|done].
Qed.

Lemma tidies_completeSnapshot X g b :
  wf b → tidy X b → (∀ s, selections b !! g = Some s → barrier g (s_link s) (log b)) →
  tidies X (completeSnapshot opts E reenter g) b.
Proof.
  intros Hb Ht Hbar. unfold completeSnapshot. apply go_bind, go_get, go_with; [|done]. intros s Hs.
  destruct (known_object _ _ _ Hb Hs) as [Hk Hg]. specialize (Hbar s Hs).
  apply go_if; intros _; [by apply tidies_ret|]. cbv beta.
  apply (tidies_bind X); [done|apply (tidies_flush _ _ _ _ _ (s_link s)); eauto|].
  intros ok b1 Hs1 Hb1 Ht1 _ _. apply go_if; intros _; [|by apply tidies_ret].
  apply go_bind, go_get, go_if; intros _; [by apply tidies_ret|].
  apply tidies_assign; [constructor|done..|]. intros Hb2 Ht2.
  apply tidies_assign; [|done..|intros; by apply tidies_notify].
  pose proof (known_steps _ _ _ _ Hs1 Hk) as (s1 & Hs1' & Hl1 & _). rewrite Hg in Hs1'.
  apply (m_ready _ _ _ (set_buffer [] 0 s1)); simpl.
  - by rewrite lookup_alter_eq, Hs1'.
  - rewrite Hl1. by eapply barrier_steps.
Qed.

Lemma tidies_console X l f b :
  wf b → tidy X b → closed b = false → received_console l f (log b) → tidies X (console opts E reenter l f) b.
Proof.
  intros Hb Ht Hc Hr. unfold console. apply go_bind, go_get.
  destruct (current_selection b) as [s|] eqn:Hs; [|by apply tidies_ret].
  destruct (current_live _ _ Hb Hc Hs) as [Hl Hk]. apply go_if; intros Hg; [by apply tidies_ret|].
  guards. destruct (phase s) eqn:Hp; [by apply tidies_ret| |].
  - apply go_if; intros Hlim; [by apply tidies_fail|]. guards. apply go_step.
    + apply m_push; try done; try congruence; [by apply Nat.leb_gt|]. apply Z.ltb_ge in H2. lia.
    + split; [by eapply tidy_same|done].
  - apply (tidies_bind X); [done|apply tidies_deliverConsole; try done; try congruence|].
    + apply (wf_objects _ Hb); [apply Hl|done].
    + intros ok b1 _ Hb1 Ht1 _ _. apply go_if; intros _; [by apply tidies_ret|by apply tidies_fail].
Qed.

(** The request [p] of the current selection is refused by the frame that just arrived. *)
Lemma refused_droppable b0 b sm fr rid p :
  wf b0 → pending b0 !! rid = Some p → p_link p = ref_of sm → p_kind p = KOpen → rejects fr rid →
  log b = log b0 ++ [Arrived (EvFrame sm fr)] → droppable (p_generation p) b.
Proof.
  intros Hb0 Hp Hl Hk Hrej El. eapply droppable_log; [exact El|done|]. intros l rid' v' Hs.
  destruct (wf_pending _ Hb0 _ _ Hp) as [Hreq (s & Hs' & Hl')].
  destruct (wf_sent _ Hb0 _ _ _ Hs) as (s1 & Hs1 & <-). simplify_eq. rewrite Hl'.
  right; right; right. exists rid, fr. rewrite Hk in Hreq. split_and!; [set_solver| |done].
  exists sm. split; [done|]. set_solver.
Qed.

Lemma tidies_take X b1 rid l (k : option PendingRequest → B ()) :
  wf b1 → tidy X b1 → tidies X (k None) b1 →
  (∀ p, pending b1 !! rid = Some p →
     let b2 := set_pending (delete rid (pending b1)) b1 in
     wf b2 → tidy X b2 → tidies X (k None) b2 ∧ (p_link p = l → tidies X (k (Some p)) b2)) →
  tidies X (take_pending rid l ≫= k) b1.
Proof.
  intros Hb Ht Hn Hp. unfold take_pending. apply go_bind, go_bind, go_get.
  destruct (pending b1 !! rid) as [p|]; [|by apply go_ret].
  assert (micro opts b1 (set_pending (delete rid (pending b1)) b1)) as Hm by constructor.
  apply go_bind, go_step; [done|]. apply go_ret. change (kept X b1) with (kept X (set_pending (delete rid (pending b1)) b1)).
  destruct (Hp p eq_refl) as [H1 H2]; [by eapply micro_wf|by eapply tidy_same|].
  case_bool_decide; [by apply H2|done].
Qed.

Lemma tidies_operation_result X b0 sm fr rid v op err :
  wf b0 → body fr = OperationResult rid v op err → let b := logged (Arrived (EvFrame sm fr)) b0 in
  tidy X b → closed b = false →
  tidies X (operation_result opts E reenter (ref_of sm) rid (bool_decide (err = None))) b.
Proof.
  intros Hb0 Hfr b Ht Hc. assert (wf b) as Hb by (eapply (micro_wf opts); [constructor|done]).
  unfold operation_result. apply tidies_take; [done|done|by apply tidies_ret|].
  intros p Hp b1 Hb1 Ht1. split; [by apply tidies_ret|]. intros Hl.
  apply go_if; intros _; [by apply tidies_ret|].
  apply go_bind, go_get, go_if; intros Hg; [by apply tidies_ret|]. guards.
  apply tidies_assign; [constructor|done..|]. intros Hb2 Ht2.
  destruct (p_kind p) eqn:Hkind; try case_bool_decide as Herr;
    try (by apply tidies_ret); try (by apply tidies_fail); [by apply tidies_beginSnapshot| |].
  - apply tidies_abandon; [done|done|]. apply (refused_droppable b0 _ sm fr rid); try done.
    left. destruct err as [e|]; [|done]. eauto.
  - apply tidies_completeSnapshot; [done|done|]. intros s Hs.
    destruct (wf_pending _ Hb0 rid p Hp) as [Hreq (s0 & Hs0 & Hl0)]. simpl in Hs.
    rewrite lookup_alter_eq, Hs0 in Hs. injection Hs as <-. simpl. rewrite Hl0. subst err.
    exists rid, (log b0), [Arrived (EvFrame sm fr)], fr, v, op. rewrite Hkind in Hreq.
    split_and!; try done. exists sm. split; [by rewrite Hl|]. set_solver.
Qed.

Lemma tidies_error_result X b0 sm fr rid e :
  wf b0 → body fr = ResidentErr e → perr_requestId e = Some rid →
  let b := logged (Arrived (EvFrame sm fr)) b0 in
  tidy X b → tidies X (error_result opts E reenter (ref_of sm) rid) b.
Proof.
  intros Hb0 Hfr He b Ht. assert (wf b) as Hb by (eapply (micro_wf opts); [constructor|done]).
  unfold error_result. apply tidies_take; [done|done|by apply tidies_ret|].
  intros p Hp b1 Hb1 Ht1. split; [by apply tidies_ret|]. intros Hl.
  apply go_if; intros _; [by apply tidies_ret|].
  apply go_bind, go_get, go_if; intros Hg; [by apply tidies_ret|]. guards.
  apply tidies_assign; [constructor|done..|]. intros Hb2 Ht2.
  apply go_if; intros Hkind; [|by apply tidies_fail]. guards.
  apply tidies_abandon; [done|done|]. apply (refused_droppable b0 _ sm fr rid); try done. right. eauto.
Qed.

Lemma tidies_media_result X b0 sm fr f :
  wf b0 → body fr = MediaResult (body f).1 (body f).2 → let b := logged (Arrived (EvFrame sm fr)) b0 in
  tidy X b → closed b = false → tidies X (media_result opts E reenter (ref_of sm) f) b.
Proof.
  intros Hb0 Hfr b Ht Hc. assert (wf b) as Hb by (eapply (micro_wf opts); [constructor|done]).
  unfold media_result. apply tidies_take; [done|done|by apply tidies_ret|].
  intros p Hp b1 Hb1 Ht1. split; [by apply tidies_ret|]. intros Hl.
  apply go_if; intros Hk; [by apply tidies_ret|]. apply go_bind, go_get.
  destruct (current_selection _) as [s|] eqn:Hs; [|by apply tidies_ret].
  apply go_if; intros Hg; [|by apply tidies_ret]. guards.
  destruct (current_live _ _ Hb1 Hc Hs) as [Hlive Hks].
  apply (tidies_bind X); [done| |].
  2: { intros ok b2 _ Hb2 Ht2 _ _. apply go_if; intros _; [by apply tidies_ret|by apply tidies_fail]. }
  destruct (wf_pending _ Hb0 _ p Hp) as [Hreq (s0 & Hs0 & Hl0)].
  assert (s_link s = p_link p) as Hls.
  { destruct Hlive as (_ & _ & Hs'). simpl in Hs'. rewrite H, Hs0 in Hs'. by injection Hs' as ->. }
  unfold deliverMedia. apply go_if; intros _; [|by apply tidies_ret].
  apply go_bind, go_get, go_bind. rewrite state_live by done. apply go_callback; [done| |].
  - apply m_media; [done|done| |].
    + exists fr. split; [done|]. exists sm. split; [congruence|]. simpl. set_solver.
    + simpl. rewrite Hls, H. rewrite Hk in Hreq. set_solver.
  - apply go_ret. split; [by eapply tidy_log|done].
Qed.

Lemma tidies_event X e b0 : wf b0 → tidy X b0 → tidies X (perform sha256_hex opts E reenter (Event e)) b0.
Proof.
  intros Hb0 Ht0. simpl. apply go_assign; [constructor|done|]. intros Hb. set (b := logged _ _) in *.
  assert (tidy X b) as Ht by by eapply tidy_log. change (kept X b0) with (kept X b).
  unfold handleResidentEvent. apply go_bind, go_get, go_if; intros Hc; [by apply tidies_ret|].
  destruct e as [sm|sm fr|sm]; [by apply tidies_ret| |].
  - unfold handleResidentFrame. destruct (body fr) eqn:Hfr.
    + by apply tidies_ret.
    + by eapply tidies_operation_result.
    + apply tidies_console; [done..|]. exists fr. unfold console_body. rewrite Hfr. split; [done|].
      exists sm. split; [done|]. simpl. set_solver.
    + by apply tidies_media_result.
    + destruct (perr_requestId err) eqn:He; [by eapply tidies_error_result|by apply tidies_ret].
  - apply tidies_assign; [constructor|done..|]. intros Hb1 Ht1. apply go_bind, go_get.
    destruct (current_selection _) as [s|] eqn:Hs; [|by apply tidies_ret].
    apply go_if; intros Hl; [|by apply tidies_ret]. guards.
    destruct (current_live _ _ Hb1 Hc Hs) as [(_ & Hsel & Hs1) _].
    apply go_assign; [constructor|done|]. intros Hb2. eapply go_mono; [apply (tidies_notify X)|].
    + apply (tidy_drop _ _ (s_generation s)); [done| |done]. apply (droppable_log b0 _ _ (Arrived (EvRemoved sm))); [done|done|].
      intros l rid v Hso. destruct (wf_sent _ Hb0 _ _ _ Hso) as (s2 & Hs2 & <-). simpl in Hs1. simplify_eq.
      right; right; left. exists sm. split; [done|]. set_solver.
    + intros a b' _ (? & ? & Hn). split_and!; [done|done|]. intros _. by apply Hn.
Qed.

(** ** The calls that select and disconnect *)

(** Between calls: nothing is being cleaned up. *)
Definition settled (b : broker) : Prop := wf b ∧ tidy ∅ b ∧ cleaning b = false.

Lemma settle {A} (m : B A) b : settled b → tidies ∅ m b → go opts m (λ _, settled) b.
Proof.
  intros (Hb & _ & Hc) Hm. eapply go_mono; [exact Hm|]. intros a b' Hs (Ht & [= Hc' _] & _).
  split_and!; [by eapply steps_wf|done|congruence].
Qed.

Lemma tidy_select X b g : closed b = false → cleaning b = false → selection b = None →
  ∀ s, tidy X b → tidy X (set_selection (Some g) (set_selections s b)).
Proof.
  intros Hc Hk Hn s [Ho _ _]. split; simpl; [|congruence..]. intros pre h l rid v post El.
  destruct (Ho _ _ _ _ _ _ El) as [?|[?|?]]; [auto|congruence|auto].
Qed.

Lemma tidies_unsubscribe {A} X (k : () → B A) b :
  wf b → tidy X b →
  (wf (logged Unsubscribed b) → tidy X (logged Unsubscribed b) → tidies X (k tt) (logged Unsubscribed b)) →
  tidies X (modify (logged Unsubscribed) ≫= k) b.
Proof.
  intros Hb Ht Hk. apply go_assign; [constructor|done|]. intros Hb1. apply Hk; [done|]. by eapply tidy_log.
Qed.

Lemma settled_select_target target b :
  settled b → closed b = false → selection b = None →
  go opts (select_target opts E reenter target) (λ _, settled) b.
Proof.
  intros (Hb & Ht & Hk) Hc Hn. unfold select_target. apply go_bind, go_get, go_if; intros _.
  { apply go_assign; [constructor|done|]. intros Hb1. set (b1 := set_closed b) in *.
    assert (settled b1) as Hset by (split_and!; [done|destruct Ht; by split|done]).
    apply (settle _ b1 Hset). apply tidies_assign; [constructor|done|apply Hset|done..|]. intros Hb2 Ht2.
    apply tidies_unsubscribe; [done|done|]. intros Hb3 Ht3. by apply tidies_then, tidies_notify. }
  apply go_assign; [constructor|done|]. intros Hb1. unfold freshViewerId.
  apply go_bind, go_bind, go_tick, go_ret. set (b2 := stepped [] _).
  assert (wf b2) as Hb2 by (eapply (micro_wf opts); [constructor|done]).
  assert (tidy ∅ b2) as Ht2 by (eapply tidy_same; [done|simpl; by rewrite app_nil_r|done..]).
  destruct (match viewer_ids E _ with Some _ => _ | None => None end) as [v|].
  2: { apply settle; [by split_and!|]. by apply tidies_then, tidies_notify. }
  assert (selections b2 !! (generation b + 1) = None) as Hnone.
  { destruct (selections b2 !! _) eqn:Hs; [|done]. apply (wf_objects _ Hb) in Hs as [[_ ?] _ _]. lia. }
  apply go_assign2; [by apply (m_select _ b2)|done|]. intros Hb4.
  set (s := mkSelection _ _ _ _ _ _ _). set (b4 := set_selection _ _) in *.
  assert (known b4 s) as Hk4 by (exists s; simpl; by rewrite lookup_insert_eq).
  assert (tidy ∅ b4) as Ht4 by by apply tidy_select.
  apply settle; [by split_and!|].
  eapply (tidies_call ∅); [done|by apply tidies_request|]. intros [r|] b5 Hs5 Hb5 Ht5 Hf5 _ [Hsel5 Hr].
  2: { by apply tidies_then, tidies_fail. }
  apply tidies_assign; [constructor|done..|]. intros Hb6 Ht6. set (b6 := assign _ _ _) in *.
  assert (selection b6 = Some (s_generation s)) as Hsel6 by done.
  assert (known b6 s) as Hk6 by (apply known_alter; [done|]; by eapply known_steps).
  eapply (tidies_call ∅); [done|by apply notify_selection|]. intros u7 b7 Hs7 Hb7 Ht7 _ _ Hsel7.
  eapply (tidies_call ∅); [done|apply tidies_send; [done| | |done|congruence]|].
  - by eapply known_steps.
  - split; [done|]. by eapply log_steps.
  - intros ok b8 _ Hb8 Ht8 _ _ _. apply go_if; intros _; [by apply tidies_ret|].
    apply (tidies_bind ∅); [done|by apply tidies_forget|]. intros. by apply tidies_then, tidies_fail.
Qed.

Lemma settled_select inst b : settled b → go opts (select opts E reenter inst) (λ _, settled) b.
Proof.
  intros Hset. pose proof Hset as (Hb & Ht & Hk). unfold select.
  apply go_bind, go_get, go_if; intros Hc; [by apply go_ret|].
  apply go_bind, go_tick. set (b1 := stepped [] b).
  assert (settled b1) as Hset1.
  { split_and!; [eapply (micro_wf opts); [constructor|done]| |done].
    eapply tidy_same; [done|simpl; by rewrite app_nil_r|done..]. }
  pose proof Hset1 as (Hb1 & Ht1 & _).
  destruct (summary E _ _) as [target|]; [|by apply settle, tidies_then, tidies_notify].
  apply go_if; intros _; [|by apply settle, tidies_then, tidies_notify].
  destruct (current_selection b) as [s|] eqn:Hs.
  - apply go_if; intros _; [by apply go_ret|]. destruct (current_live _ _ Hb Hc Hs) as [(_ & Hsel & _) _].
    eapply go_call; [done|apply (retire_unselects ∅); [done|done|]|].
    + unfold is_current. simpl. rewrite Hc, Hsel. by rewrite bool_decide_true.
    + intros _ b2 Hs2 Hb2 (Ht2 & [= Hk2 Hc2] & Hn2).
      apply settled_select_target; [split_and!; [done|done|congruence]|congruence|by apply Hn2].
  - apply settled_select_target; [done|done|]. simpl. destruct (selection b) as [g|] eqn:Hg; [|done].
    destruct (wf_selection _ Hb g Hg) as [[s Hs'] _]. unfold current_selection in Hs.
    rewrite Hg in Hs. simpl in Hs. congruence.
Qed.

Lemma settled_disconnect b : settled b → go opts (disconnect opts E reenter) (λ _, settled) b.
Proof.
  intros Hset. pose proof Hset as (Hb & Ht & Hk). unfold disconnect.
  apply go_bind, go_get, go_if; intros Hc; [by apply go_ret|].
  eapply (go_call _ _ _ (λ _ b', settled b' ∧ selection b' = None)); [done| |].
  - destruct (selection b) as [g|] eqn:Hg; [|by apply go_ret].
    eapply go_mono; [apply (retire_unselects ∅); [done|done|]|].
    + unfold is_current. rewrite Hc, Hg. by rewrite bool_decide_true.
    + intros _ b1 Hs1 (Ht1 & [= Hk1 _] & Hn1). split; [|by apply Hn1].
      split_and!; [by eapply steps_wf|done|congruence].
  - intros _ b1 _ Hb1 [(_ & Ht1 & Hk1) Hn1]. apply go_assign; [constructor|done|]. intros Hb2.
    set (b2 := set_closed b1) in *.
    assert (settled b2) as Hset2 by (split_and!; [done|destruct Ht1; by split|done]).
    apply (settle _ b2 Hset2). do 2 (apply tidies_assign; [constructor|done|first [done|apply Hset2]|done..|]; intros ??).
    apply tidies_unsubscribe; [done|done|]. intros. by apply tidies_notify.
Qed.

Lemma settled_perform c b : settled b → go opts (perform sha256_hex opts E reenter c) (λ _, settled) b.
Proof.
  intros Hset. pose proof Hset as (Hb & Ht & _). destruct c; simpl.
  - apply go_bind. eapply go_mono; [by apply settled_select|]. intros. by apply go_ret.
  - by apply settle, tidies_then, tidies_input.
  - by apply settle, tidies_then, tidies_media.
  - apply settle; [done|]. unfold deselect. apply go_bind, go_get.
    destruct (selection b); [by apply tidies_retire|by apply tidies_ret].
  - by apply settled_disconnect.
  - apply settle; [done|]. by apply tidies_event.
Qed.
End walk.

(** ** All depths *)

(** What the calls nested in a call of depth [depth] are. *)
Definition inner (sha : list Z → string) (opts : settings) (E : env) (depth : nat)
    : call → broker → broker :=
  match depth with O => λ _ b, b | S depth => exec sha opts E depth end.

Lemma exec_perform sha opts E depth c b :
  exec sha opts E depth c b = (perform sha opts E (inner sha opts E depth) c b).2.
Proof. by destruct depth. Qed.

Lemma inner_steps sha opts E depth c b : wf b → rtc (micro opts) b (inner sha opts E depth c b).
Proof. destruct depth; simpl; [done|apply viewer_exec_steps]. Qed.

Lemma go_result {A} opts (m : eff broker Empty_set A) Q b : go opts m (λ _, Q) b → Q (m b).2.
Proof. unfold go, wp. destruct (m b) as [[[]|a] b']. by intros []. Qed.

Lemma inner_events sha opts E depth X e b :
  quiet E → wf b → tidy X b → kept X b (inner sha opts E depth (Event e) b).
Proof.
  intros HE. revert X e b. induction depth as [|depth IH]; intros X e b Hb Ht; [by apply kept_refl|].
  simpl. rewrite exec_perform. eapply (go_result opts).
  by apply (tidies_event sha opts E (inner sha opts E depth) (inner_steps sha opts E depth) HE IH).
Qed.

Lemma exec_settled sha opts E depth c b : quiet E → settled b → settled (exec sha opts E depth c b).
Proof.
  intros HE Hb. rewrite exec_perform. eapply (go_result opts).
  apply settled_perform; [apply inner_steps|done| |done]. intros. by apply inner_events.
Qed.

Lemma run_settled sha opts E depth cs : quiet E → settled (run sha opts E depth cs).
Proof.
  intros HE. unfold run. induction cs as [|c cs IH] using rev_ind.
  - split_and!; [apply wf_new| |done]. by split; simpl; [intros []|..].
  - rewrite foldl_app. by apply exec_settled.
Qed.

(** C28. No remote viewer is leaked: when the browser side does not call back from
    a notification or a delivery and the registry hands over link events at any
    time, also while it sends or disconnects, then after any sequence of calls
    every viewer that was ever asked to open is the selected one of an open
    broker, or since then its close was accepted, its link was cut or seen removed,
    or its opening refused.  In particular none is left after [disconnect]. *)
Theorem no_orphan_viewer sha opts E depth cs pre g l rid v post :
  quiet E → let b := run sha opts E depth cs in
  log b = pre ++ Sent g l (ViewerOp viewer_open rid v) :: post →
  (selection b = Some g ∧ closed b = false) ∨ cleaned g l (log b) post.
Proof.
  intros HE b Hlog. destruct (run_settled sha opts E depth cs HE) as (_ & [Ho Hc _] & _). fold b in Ho, Hc.
  destruct (Ho _ _ _ _ _ _ Hlog) as [?|[Hs|?]]; [set_solver| |by right]. left. split; [done|].
  destruct (closed b); [|done]. rewrite Hc in Hs; done.
Qed.
