(* ===== verification/SelectedViewerExamples.v ===== *)
(** * The selected viewer: runs

    Concrete runs of the broker: a session that reaches the browser, and what a
    browser side that calls back from a notification can cause. *)

From S2P Require Import Prelude Effects Protocol Codec Wire Registry SelectedViewer SelectedViewerFacts SelectedViewerTheorems SelectedViewerCleanup.
Local Open Scope string_scope.
Local Open Scope list_scope.
Local Open Scope Z_scope.

Definition ex_link (i c : string) (g : Z) : Summary :=
  {| sum_instanceId := i; sum_credentialId := "k"; sum_connectionId := c; sum_generation := g;
     sum_connectedAt := 0; sum_readyAt := Some 0; sum_state := ready;
     sum_capabilities := [console_v1; media_v1] |}.
Definition ex_a : Summary := ex_link "a" "egx1.AAAAAAAAAAAAAAAAAAAAAA" 1.
Definition ex_b : Summary := ex_link "b" "egx1.BBBBBBBBBBBBBBBBBBBBBB" 2.
Definition ex_id (prefix : string) (n : nat) : string :=
  prefix +:+ "AAAAAAAAAAAAAAAAAAAA"
  +:+ String (Ascii.ascii_of_nat (48 + n / 10)) (String (Ascii.ascii_of_nat (48 + n mod 10)) "").
Definition ex_registry (i : string) : option Summary :=
  if String.eqb i "a" then Some ex_a else if String.eqb i "b" then Some ex_b else None.
Definition ex_env (reacts : nat → action → list call) : env := {|
  summary _ i := ex_registry i;
  lookup _ i _ := ex_registry i;
  sends _ := true;
  accepts _ := true;
  viewer_ids n := Some (ex_id VIEWER_PREFIX n);
  request_ids n := Some (ex_id REQUEST_PREFIX n);
  reacts := reacts;
|}.
Definition ex_opts : settings :=
  {| maxSnapshotBufferBytes := 100; maxSnapshotBufferFrames := 4; has_onSelection := true;
     has_onMediaResult := true |}.
Definition ex_frame (b : ResidentBody) : call := Event (EvFrame ex_a (mkFrame (sum_connectionId ex_a) 1 b)).
Definition ex_ok (n : nat) : call := ex_frame (OperationResult (ex_id REQUEST_PREFIX n) "" JNull None).
Definition ex_run (reacts : nat → action → list call) (cs : list call) : broker :=
  run (λ _, "") ex_opts (ex_env reacts) 1 cs.

Definition ex_output (text : string) : call := ex_frame (ConsoleOutput (ex_id VIEWER_PREFIX 1) text).

(** Output that arrives during the snapshot waits for it. *)
Definition ex_session : list call :=
  [Select "a"; ex_ok 2; ex_output "early"; ex_ok 6; ex_output "late"; Input "ls"; Select "b"; Disconnect].
Definition ex_silent : broker := ex_run (λ _ _, []) ex_session.

(** The payloads that reached the browser, and the input that was sent. *)
Definition delivered (b : broker) : list string :=
  omap (λ a, match a with ConsoleOut f _ => Some (payload f) | _ => None end) (log b).
Definition typed (b : broker) : list string :=
  omap (λ a, match a with Sent _ _ (ConsoleInput _ t) => Some t | _ => None end) (log b).

Lemma viewer_fenced_witness :
  delivered ex_silent = ["early"; "late"] ∧ typed ex_silent = ["ls"]
  ∧ ∃ pre f st post, log ex_silent = pre ++ ConsoleOut f st :: post ∧ fenced pre (ConsoleOut f st).
Proof.
  split; [vm_compute; reflexivity|]. split; [vm_compute; reflexivity|].
  eexists (take 11 (log ex_silent)), _, _, (drop 12 (log ex_silent)).
  split; [vm_compute; reflexivity|].
  eapply (viewer_fenced ex_opts (λ _, "") (ex_env (λ _ _, [])) 1 ex_session (take 11 (log ex_silent))). vm_compute. reflexivity.
Defined.

Lemma viewer_limits_witness :
  within_limits ex_opts ex_silent.
Proof.
  apply (viewer_limits (Some 100) (Some 4) true true ex_opts (λ _, "") (ex_env (λ _ _, [])) 1 ex_session).
  reflexivity.
Defined.

Lemma no_orphan_viewer_witness :
  ∃ pre l rid v post, log ex_silent = pre ++ Sent 1 l (ViewerOp viewer_open rid v) :: post
  ∧ ((selection ex_silent = Some 1 ∧ closed ex_silent = false) ∨ cleaned 1 l (log ex_silent) post).
Proof.
  eexists (take 2 (log ex_silent)), _, _, _, (drop 3 (log ex_silent)).
  split; [vm_compute; reflexivity|].
  apply (no_orphan_viewer (λ _, "") ex_opts (ex_env (λ _ _, [])) 1 ex_session (take 2 (log ex_silent)) 1 _
           (ex_id REQUEST_PREFIX 2) (ex_id VIEWER_PREFIX 1)).
  - intros n []; simpl; first [reflexivity|constructor].
  - vm_compute. reflexivity.
Defined.

(** ** A browser side that calls back *)

(** Selecting again from the notification that the old selection was given up. *)
Definition ex_reselect (n : nat) (a : action) : list call :=
  match a with Selection r_deselected _ => [Select "a"] | _ => [] end.
Definition ex_leak : broker := ex_run ex_reselect [Select "a"; ex_ok 2; ex_ok 6; Select "b"; Disconnect].

(** The entries that could clean up after selection [g]. *)
Definition cleans (g : Z) (a : action) : bool :=
  match a with
  | Accepted h (ViewerOp viewer_close _ _) => h =? g
  | Cut h _ _ => h =? g
  | Arrived (EvRemoved _) => true
  | _ => false
  end.
Definition opens (g : Z) (a : action) : bool :=
  match a with Sent h _ (ViewerOp viewer_open _ _) => h =? g | _ => false end.

(** [select] does not look again at [#selection] after retiring the old one: a
    selection made from the notification is overwritten, and its remote viewer is
    still open after [disconnect]. *)
Example reselection_leaks :
  closed ex_leak = true ∧ existsb (opens 2) (log ex_leak) = true
  ∧ forallb (λ a, negb (cleans 2 a)) (log ex_leak) = true.
Proof. vm_compute. auto. Qed.

(** Nor does it look again at [#closed]: disconnecting from the notification does
    not keep the new viewer from being opened. *)
Definition ex_hangup (n : nat) (a : action) : list call :=
  match a with Selection r_deselected _ => [Disconnect] | _ => [] end.
Example open_after_disconnect :
  let b := ex_run ex_hangup [Select "a"; ex_ok 2; ex_ok 6; Select "b"] in
  closed b = true ∧ existsb (opens 2) (log b) = true ∧ forallb (λ a, negb (cleans 2 a)) (log b) = true.
Proof. vm_compute. auto. Qed.
