(* ===== verification/Jslex.v ===== *)
(** * Blanking of literals (src/lib/jslex.ts)

    [blankLiterals] replaces the contents of strings, templates and comments of
    a program by spaces, so that heredoc markers are looked for in code only.
    The loop over the source text is a state machine: [step] is the body of the
    [switch], [scan] the loop. *)

From S2P Require Import Prelude JsString.
Local Open Scope Z_scope.
Local Open Scope list_scope.

Inductive State := code | single | double | template | line_comment | block_comment.
#[export] Instance State_eq_dec : EqDecision State.
Proof. solve_decision. Defined.

Record lexer := mkLexer { state : State; templateDepth : Z; braceDepth : Z }.

Definition set_state (st : State) (s : lexer) : lexer :=
  mkLexer st (templateDepth s) (braceDepth s).
Definition set_braces (n : Z) (s : lexer) : lexer := mkLexer (state s) (templateDepth s) n.
Definition set_depth (n : Z) (s : lexer) : lexer := mkLexer (state s) n (braceDepth s).

(** Characters. *)
Definition NEWLINE : Z := 10.
Definition SPACE : Z := 32.
Definition DQUOTE : Z := 34.
Definition DOLLAR : Z := 36.
Definition SQUOTE : Z := 39.
Definition STAR : Z := 42.
Definition SLASH : Z := 47.
Definition BACKSLASH : Z := 92.
Definition BACKTICK : Z := 96.
Definition LBRACE : Z := 123.
Definition RBRACE : Z := 125.

Definition blank (ch : Z) : Z := if ch =? NEWLINE then NEWLINE else SPACE.

Definition next_is (next : option Z) (ch : Z) : bool := bool_decide (next = Some ch).

(** One character and the one after it: the new state, what is pushed on [out],
    and whether the next character was consumed too ([i++]). *)
Definition escape (s : lexer) (ch : Z) (next : option Z) : lexer * list Z * bool :=
  match next with
  | Some n => (s, [blank ch; blank n], true)
  | None => (s, [blank ch], false)
  end.

Definition step_code (s : lexer) (ch : Z) (next : option Z) : lexer * list Z * bool :=
  if (ch =? SLASH) && next_is next SLASH then
    (set_state line_comment s, [SPACE; blank SLASH], true)
  else if (ch =? SLASH) && next_is next STAR then
    (set_state block_comment s, [SPACE; blank STAR], true)
  else if ch =? SQUOTE then (set_state single s, [ch], false)
  else if ch =? DQUOTE then (set_state double s, [ch], false)
  else if ch =? BACKTICK then (mkLexer template 1 0, [ch], false)
  else (s, [ch], false).

Definition step_string (quote : Z) (s : lexer) (ch : Z) (next : option Z)
    : lexer * list Z * bool :=
  if ch =? BACKSLASH then escape s ch next
  else if ch =? quote then (set_state code s, [ch], false)
  else if ch =? NEWLINE then (set_state code s, [ch], false)
  else (s, [blank ch], false).

Definition step_template (s : lexer) (ch : Z) (next : option Z) : lexer * list Z * bool :=
  if ch =? BACKSLASH then escape s ch next
  else if ch =? BACKTICK then
    let s := set_depth (templateDepth s - 1) s in
    if templateDepth s =? 0 then (set_state code s, [ch], false)
    else (s, [blank ch], false)
  else if (ch =? DOLLAR) && next_is next LBRACE then
    (set_braces (braceDepth s + 1) s, [blank ch; blank LBRACE], true)
  else if 0 <? braceDepth s then
    if ch =? LBRACE then (set_braces (braceDepth s + 1) s, [blank ch], false)
    else if ch =? RBRACE then (set_braces (braceDepth s - 1) s, [blank ch], false)
    else if ch =? BACKTICK then (set_depth (templateDepth s + 1) s, [blank ch], false)
    else (s, [blank ch], false)
  else (s, [blank ch], false).

Definition step (s : lexer) (ch : Z) (next : option Z) : lexer * list Z * bool :=
  match state s with
  | code => step_code s ch next
  | single => step_string SQUOTE s ch next
  | double => step_string DQUOTE s ch next
  | template => step_template s ch next
  | line_comment =>
      if ch =? NEWLINE then (set_state code s, [ch], false) else (s, [blank ch], false)
  | block_comment =>
      if (ch =? STAR) && next_is next SLASH then
        (set_state code s, [blank ch; blank SLASH], true)
      else (s, [blank ch], false)
  end.

Fixpoint scan (s : lexer) (l : list Z) : lexer * list Z :=
  match l with
  | [] => (s, [])
  | ch :: rest =>
      match rest with
      | [] => let '(s', out, _) := step s ch None in (s', out)
      | n :: rest' =>
          let '(s', out, skip) := step s ch (Some n) in
          let '(s'', out') := if skip : bool then scan s' rest' else scan s' rest in
          (s'', out ++ out')
      end
  end.

Definition initial : lexer := mkLexer code 0 0.
Definition blankLiterals (l : jstring) : jstring := (scan initial l).2.

(** ** Facts *)

(** What the output may hold in place of a character. *)
Definition covers (out ch : Z) : Prop := out = ch ∨ (out = SPACE ∧ ch ≠ NEWLINE).

Lemma blank_covers ch : covers (blank ch) ch.
Proof. unfold blank, covers. destruct (Z.eqb_spec ch NEWLINE) as [->|]; auto. Qed.
Lemma keep_covers ch : covers ch ch.
Proof. by left. Qed.
#[local] Hint Resolve blank_covers keep_covers : elpis.

Lemma next_is_true next ch : next_is next ch = true → next = Some ch.
Proof. unfold next_is. by rewrite bool_decide_eq_true. Qed.

(** A step covers the characters it consumed. *)
Definition consumed (ch : Z) (next : option Z) (skip : bool) : list Z :=
  ch :: match next with Some n => if skip then [n] else [] | None => [] end.

Definition step_ok (ch : Z) (next : option Z) (r : lexer * list Z * bool) : Prop :=
  Forall2 covers r.1.2 (consumed ch next r.2) ∧ (next = None → r.2 = false).

Lemma step_ok_one s out ch next : covers out ch → step_ok ch next (s, [out], false).
Proof. intros. split; [|done]. simpl. by destruct next; constructor. Qed.
Lemma step_ok_two s out out' ch n :
  covers out ch → covers out' n → step_ok ch (Some n) (s, [out; out'], true).
Proof. intros. split; [|done]. simpl. by constructor; [|constructor]. Qed.
#[local] Hint Resolve step_ok_one step_ok_two : elpis.

Lemma escape_ok s ch next : step_ok ch next (escape s ch next).
Proof. destruct next; simpl; auto with elpis. Qed.
#[local] Hint Resolve escape_ok : elpis.

Ltac lex_cases :=
  repeat match goal with
  | |- step_ok _ _ (if ?b then _ else _) => destruct b eqn:?
  | H : _ && next_is _ _ = true |- _ =>
      apply andb_true_iff in H as [?%Z.eqb_eq ->%next_is_true]; subst
  end.

Lemma step_covers s ch next : step_ok ch next (step s ch next).
Proof.
  unfold step. destruct (state s).
  - unfold step_code. lex_cases; auto with elpis; apply step_ok_two; auto with elpis;
      right; split; done.
  - unfold step_string. lex_cases; auto with elpis.
  - unfold step_string. lex_cases; auto with elpis.
  - unfold step_template. lex_cases; auto with elpis.
  - lex_cases; auto with elpis.
  - lex_cases; auto with elpis.
Qed.

Lemma scan_covers s l : Forall2 covers (scan s l).2 l.
Proof.
  revert s. induction l as [l IH] using (induction_ltof1 _ (@length Z)). unfold ltof in IH. intros s.
  destruct l as [|ch [|n l]]; [constructor| |].
  - simpl. destruct (step_covers s ch None) as [Hc Hs]. specialize (Hs eq_refl).
    destruct (step s ch None) as [[s' out] skip]. simpl in *. by subst.
  - simpl. destruct (step_covers s ch (Some n)) as [Hc _].
    destruct (step s ch (Some n)) as [[s' out] [|]]; simpl in Hc.
    + pose proof (IH l ltac:(simpl; lia) s') as Hl. destruct (scan s' l) as [s'' out']. simpl in *.
      change (ch :: n :: l) with ([ch; n] ++ l). by apply Forall2_app.
    + pose proof (IH (n :: l) ltac:(simpl; lia) s') as Hl.
      change (Forall2 covers ((let '(s'', out') := scan s' (n :: l) in (s'', out ++ out')).2)
                (ch :: n :: l)).
      destruct (scan s' (n :: l)) as [s'' out']. simpl in *. 
      change (ch :: n :: l) with ([ch] ++ n :: l). by apply Forall2_app.
Qed.

(** The lexer is inside at most one template. *)
Definition shallow (s : lexer) : Prop := state s = template → templateDepth s = 1.

Lemma step_shallow s ch next : shallow s → shallow (step s ch next).1.1.
Proof.
  intros Hs. unfold step. destruct (state s) eqn:Hst; unfold shallow in *.
  - unfold step_code. repeat case_match; simpl; congruence.
  - unfold step_string, escape. repeat case_match; simpl; congruence.
  - unfold step_string, escape. repeat case_match; simpl; congruence.
  - specialize (Hs Hst). unfold step_template, escape.
    repeat case_match; simpl in *; try congruence; guards; lia.
  - repeat case_match; simpl; congruence.
  - repeat case_match; simpl; congruence.
Qed.

Lemma scan_eq s ch n l :
  scan s (ch :: n :: l) =
    let '(s', out, skip) := step s ch (Some n) in
    let '(s'', out') := if skip : bool then scan s' l else scan s' (n :: l) in (s'', out ++ out').
Proof. done. Qed.

Lemma scan_shallow s l : shallow s → shallow (scan s l).1.
Proof.
  revert s. induction l as [l IH] using (induction_ltof1 _ (@length Z)). unfold ltof in IH.
  intros s Hs. destruct l as [|ch [|n l]]; [done| |].
  - pose proof (step_shallow s ch None Hs) as H. revert H. simpl.
    by destruct (step s ch None) as [[s' out] b].
  - pose proof (step_shallow s ch (Some n) Hs) as H. revert H. rewrite scan_eq.
    destruct (step s ch (Some n)) as [[s' out] b]. cbn [fst snd]. intros H.
    destruct b.
    + pose proof (IH l ltac:(simpl; lia) s' H) as Hl. by destruct (scan s' l).
    + pose proof (IH (n :: l) ltac:(simpl; lia) s' H) as Hl. by destruct (scan s' (n :: l)).
Qed.

(** ** Theorems *)

(** Blanking keeps every offset.  The output has the length of
    the source; each of its characters is the source's or a space, and its line
    breaks are exactly the source's. *)
Theorem blank_keeps_offsets (l : jstring) (i : nat) :
  length (blankLiterals l) = length l
  ∧ (∀ ch, blankLiterals l !! i = Some ch → l !! i = Some ch ∨ ch = SPACE)
  ∧ (blankLiterals l !! i = Some NEWLINE ↔ l !! i = Some NEWLINE).
Proof.
  pose proof (scan_covers initial l) as Hc. change ((scan initial l).2) with (blankLiterals l) in Hc.
  split; [by apply Forall2_length in Hc|].
  assert (∀ ch, blankLiterals l !! i = Some ch → ∃ c, l !! i = Some c ∧ covers ch c) as Hl.
  { intros ch Hch. destruct (Forall2_lookup_l _ _ _ _ _ Hc Hch) as (c & ? & ?). eauto. }
  split; [|split].
  - intros ch (c & ? & [->|[-> _]])%Hl; auto.
  - intros (c & ? & [->|[? _]])%Hl; [done|discriminate].
  - intros Hn. destruct (Forall2_lookup_r _ _ _ _ _ Hc Hn) as (ch & ? & [->|[_ ?]]); done.
Qed.

(** Characters that keep the lexer in code. *)
Definition plain_code (ch : Z) : bool :=
  negb ((ch =? SLASH) || (ch =? SQUOTE) || (ch =? DQUOTE) || (ch =? BACKTICK)).

Lemma scan_cons s ch l :
  (∀ next, (step s ch next).2 = false) →
  scan s (ch :: l) =
    let r := step s ch (head l) in
    let r' := scan r.1.1 l in (r'.1, r.1.2 ++ r'.2).
Proof.
  intros Hs. destruct l as [|n l].
  - simpl. destruct (step s ch None) as [[s' out] b]. simpl. by rewrite app_nil_r.
  - specialize (Hs (Some n)). rewrite scan_eq. cbn [head]. revert Hs.
    destruct (step s ch (Some n)) as [[s' out] b]. cbn [snd fst]. intros ->.
    by destruct (scan s' (n :: l)).
Qed.

Lemma scan_pair s ch n l s' out :
  step s ch (Some n) = (s', out, true) →
  scan s (ch :: n :: l) = ((scan s' l).1, out ++ (scan s' l).2).
Proof. intros Hs. simpl. rewrite Hs. by destruct (scan s' l). Qed.

Lemma scan_plain s body rest :
  state s = code → forallb plain_code body = true →
  (scan s (body ++ rest)).2 = body ++ (scan s rest).2.
Proof.
  intros Hs. induction body as [|ch body IH]; [done|]. simpl forallb.
  intros [Hch Hb]%andb_true_iff. rewrite <- app_comm_cons.
  assert (∀ next, step s ch next = (s, [ch], false)) as Hst.
  { intros next. unfold step. rewrite Hs. unfold step_code. unfold plain_code in Hch.
    apply negb_true_iff in Hch. rewrite !orb_false_iff in Hch. destruct Hch as [[[-> ->] ->] ->]. done. }
  rewrite scan_cons by (intros; by rewrite Hst). rewrite Hst. cbn [fst snd]. simpl.
  by rewrite IH.
Qed.

(** A template inside an interpolation is not followed.  Whatever
    was read, the depth of templates is never above one: the backtick that opens
    the inner template is taken for the end of the outer one, so its contents
    (here any text without quotes, slashes and backticks, such as a heredoc
    marker) come out as code instead of blanked. *)
Theorem nested_template_exposed (body read : jstring) :
  forallb plain_code body = true →
  blankLiterals (lit "`${`" ++ body ++ lit "`}`") = lit "`  `" ++ body ++ lit "` `"
  ∧ (state (scan initial read).1 = template → templateDepth (scan initial read).1 = 1).
Proof.
  intros Hb. split; [|by apply scan_shallow]. unfold blankLiterals.
  change (lit "`${`" ++ body ++ lit "`}`") with
    (BACKTICK :: DOLLAR :: LBRACE :: BACKTICK :: (body ++ lit "`}`")).
  rewrite scan_cons by done. cbn zeta. cbn [head].
  rewrite (scan_pair _ DOLLAR LBRACE _ (mkLexer template 1 1) [SPACE; SPACE]) by done.
  rewrite scan_cons by done. cbn zeta.
  change (step (mkLexer template 1 1) BACKTICK _) with (mkLexer code 0 1, [BACKTICK], false).
  cbn [fst snd]. rewrite scan_plain by done. done.
Qed.

Lemma nested_template_exposed_witness :
  blankLiterals (lit "`${`<<<END`}`") = lit "`  `<<<END` `".
Proof. exact (proj1 (nested_template_exposed (lit "<<<END") [] eq_refl)). Defined.

(** ** The texts blanking is meant for, as a grammar *)

(** Contents of a string or template: a character, or a backslash and what it
    escapes. *)
Inductive item := Chr (c : Z) | Esc (c : Z).
Inductive token :=
  | Code (c : Z)
  | Quoted (quote : Z) (body : list item)
  | Template (body : list item)
  | LineComment (body : list Z)
  | BlockComment (body : list Z).

Definition item_source (i : item) : list Z :=
  match i with Chr c => [c] | Esc c => [BACKSLASH; c] end.
Definition token_source (t : token) : list Z :=
  match t with
  | Code c => [c]
  | Quoted quote body => quote :: (body ≫= item_source) ++ [quote]
  | Template body => BACKTICK :: (body ≫= item_source) ++ [BACKTICK]
  | LineComment body => SLASH :: SLASH :: body ++ [NEWLINE]
  | BlockComment body => SLASH :: STAR :: body ++ [STAR; SLASH]
  end.

(** The delimiters of strings and templates stay; the rest of a literal and the
    whole of a comment are blanked. *)
Definition token_blanked (t : token) : list Z :=
  match t with
  | Code c => [c]
  | Quoted quote body => quote :: map blank (body ≫= item_source) ++ [quote]
  | Template body => BACKTICK :: map blank (body ≫= item_source) ++ [BACKTICK]
  | LineComment _ | BlockComment _ => map blank (token_source t)
  end.

Definition item_ok (stops : list Z) (i : item) : Prop :=
  match i with Chr c => c ∉ BACKSLASH :: stops | Esc _ => True end.
Definition token_ok (t : token) : Prop :=
  match t with
  | Code c => plain_code c = true
  | Quoted quote body => (quote = SQUOTE ∨ quote = DQUOTE) ∧ Forall (item_ok [quote; NEWLINE]) body
  | Template body => Forall (item_ok [BACKTICK]) body
  | LineComment body => NEWLINE ∉ body
  | BlockComment body => ∀ k, body !! k = Some STAR → body !! S k ≠ Some SLASH
  end.

Lemma scan_out s ch l :
  (scan s (ch :: l)).2 =
    let r := step s ch (head l) in r.1.2 ++ (scan r.1.1 (if r.2 : bool then tail l else l)).2.
Proof.
  destruct l as [|n l]; [|rewrite scan_eq]; cbn [head tail].
  - simpl. destruct (step s ch None) as [[s' out] b]. simpl. destruct b; simpl; by rewrite app_nil_r.
  - destruct (step s ch (Some n)) as [[s' out] b]. cbn [fst snd]. destruct b;
      by destruct (scan s' _).
Qed.

Lemma scan_quoted quote s body rest :
  state s = single ∧ quote = SQUOTE ∨ state s = double ∧ quote = DQUOTE →
  Forall (item_ok [quote; NEWLINE]) body →
  (scan s ((body ≫= item_source) ++ rest)).2 = map blank (body ≫= item_source) ++ (scan s rest).2.
Proof.
  intros Hs Hb. induction Hb as [|i body Hi _ IH]; [done|].
  assert (∀ ch next, step s ch next = step_string quote s ch next) as Hstep.
  { intros ch next. unfold step. by destruct Hs as [[-> ->]|[-> ->]]. }
  destruct i as [c|c]; cbn [mbind list_bind item_source app]; rewrite scan_out, Hstep; unfold step_string.
  - simpl in Hi. rewrite !not_elem_of_cons in Hi. destruct Hi as (H1 & H2 & H3 & _).
    apply Z.eqb_neq in H1, H2, H3. rewrite H1, H2, H3. simpl. repeat f_equal; exact IH.
  - simpl. repeat f_equal; exact IH.
Qed.

Lemma scan_template braces body rest :
  Forall (item_ok [BACKTICK]) body →
  ∃ s', state s' = code ∧
    (scan (mkLexer template 1 braces) ((body ≫= item_source) ++ BACKTICK :: rest)).2
    = map blank (body ≫= item_source) ++ BACKTICK :: (scan s' rest).2.
Proof.
  revert braces. induction body as [body IH] using (induction_ltof1 _ (@length item)).
  unfold ltof in IH. intros braces Hb. destruct body as [|i body].
  { exists (mkLexer code 0 braces). split; [done|]. cbn [mbind list_bind app]. by rewrite scan_out. }
  apply Forall_cons in Hb as [Hi Hb].
  destruct i as [c|c]; cbn [mbind list_bind item_source app].
  2:{ destruct (IH body ltac:(simpl; lia) braces Hb) as (s' & Hs' & Hr). exists s'. split; [done|].
      rewrite scan_out. simpl. repeat f_equal; exact Hr. }
  simpl in Hi. rewrite !not_elem_of_cons in Hi. destruct Hi as (H1 & H2 & _).
  apply Z.eqb_neq in H1, H2. rewrite scan_out. unfold step, step_template. cbn [state].
  rewrite H1, H2.
  destruct ((c =? DOLLAR) && _) eqn:Hd.
  - apply andb_true_iff in Hd as [->%Z.eqb_eq Hn%next_is_true].
    destruct body as [|[d|d] body]; [done| |done]. simpl in Hn. simplify_eq.
    apply Forall_cons in Hb as [_ Hb].
    destruct (IH body ltac:(simpl; lia) (braces + 1) Hb) as (s' & Hs' & Hr). exists s'.
    split; [done|]. simpl. repeat f_equal; exact Hr.
  - assert (∃ b', (if 0 <? braces then
        if c =? LBRACE then (mkLexer template 1 (braces + 1), [blank c], false)
        else if c =? RBRACE then (mkLexer template 1 (braces - 1), [blank c], false)
        else (mkLexer template 1 braces, [blank c], false)
      else (mkLexer template 1 braces, [blank c], false))
      = (mkLexer template 1 b', [blank c], false)) as [b' Hb'] by (repeat case_match; by eexists).
    destruct (IH body ltac:(simpl; lia) b' Hb) as (s' & Hs' & Hr). exists s'. split; [done|].
    unfold set_braces. cbn [braceDepth state templateDepth]. rewrite Hb'. simpl. repeat f_equal; exact Hr.
Qed.

Lemma scan_line_comment s body rest :
  state s = line_comment → NEWLINE ∉ body →
  (scan s (body ++ NEWLINE :: rest)).2
  = map blank body ++ NEWLINE :: (scan (set_state code s) rest).2.
Proof.
  intros Hs. induction body as [|c body IH]; intros Hn; cbn [app]; rewrite scan_out; unfold step;
    rewrite Hs; [done|].
  rewrite not_elem_of_cons in Hn. destruct Hn as [H1 Hn].
  destruct (Z.eqb_spec c NEWLINE) as [->|_]; [done|]. simpl. by rewrite IH.
Qed.

Lemma scan_block_comment s body rest :
  state s = block_comment → (∀ k, body !! k = Some STAR → body !! S k ≠ Some SLASH) →
  (scan s (body ++ STAR :: SLASH :: rest)).2
  = map blank body ++ SPACE :: SPACE :: (scan (set_state code s) rest).2.
Proof.
  intros Hs. induction body as [|c body IH]; intros Hn; cbn [app]; rewrite scan_out; unfold step;
    rewrite Hs; [done|].
  destruct ((c =? STAR) && _) eqn:Hd.
  - apply andb_true_iff in Hd as [->%Z.eqb_eq Hx%next_is_true].
    exfalso. apply (Hn 0%nat); [done|]. destruct body; [done|]. exact Hx.
  - cbn [fst snd]. rewrite IH; [done|]. intros k. apply (Hn (S k)).
Qed.

Lemma scan_token s t rest :
  state s = code → token_ok t →
  ∃ s', state s' = code ∧ (scan s (token_source t ++ rest)).2 = token_blanked t ++ (scan s' rest).2.
Proof.
  intros Hs Ht. destruct t as [c|quote body|body|body|body]; cbn [token_source token_blanked].
  - exists s. split; [done|]. apply (scan_plain s [c]); [done|]. simpl in *. by rewrite Ht.
  - destruct Ht as [Hq Hb]. exists s. split; [done|]. cbn [app]. rewrite <- !app_assoc, scan_out.
    set (st := if quote =? SQUOTE then single else double).
    assert (∀ next, step s quote next = (set_state st s, [quote], false)) as ->.
    { intros next. unfold step. rewrite Hs. by destruct Hq as [-> | ->]. }
    cbn [fst snd]. rewrite (scan_quoted quote) by (try done; destruct Hq as [-> | ->]; auto).
    cbn [app]. rewrite scan_out. destruct s. simpl in Hs. subst state0.
    by destruct Hq as [-> | ->].
  - cbn [app]. rewrite <- !app_assoc. destruct (scan_template 0 body rest Ht) as (s' & Hs' & Hr).
    exists s'. split; [done|]. rewrite scan_out. unfold step. rewrite Hs. cbn [app]. simpl.
    f_equal. rewrite <- app_assoc. exact Hr.
  - exists (set_state code s). split; [done|]. cbn [app]. rewrite <- !app_assoc, scan_out.
    unfold step. rewrite Hs. simpl. rewrite scan_line_comment by done. simpl.
    by rewrite map_app, <- app_assoc.
  - exists (set_state code s). split; [done|]. cbn [app]. rewrite <- !app_assoc, scan_out.
    unfold step. rewrite Hs. simpl. rewrite scan_block_comment by done. simpl.
    by rewrite map_app, <- app_assoc.
Qed.

Lemma scan_tokens s toks :
  state s = code → Forall token_ok toks → (scan s (toks ≫= token_source)).2 = toks ≫= token_blanked.
Proof.
  intros Hs Ht. revert s Hs. induction Ht as [|t toks Ht _ IH]; intros s Hs; [done|].
  cbn [mbind list_bind]. destruct (scan_token s t (toks ≫= token_source) Hs Ht) as (s' & Hs' & Hr).
  rewrite Hr. f_equal. by apply IH.
Qed.

(** On any sequence of code characters, strings, templates
    (interpolations included, as long as no backtick is nested in them) and
    comments, blanking keeps the code and the quotes and replaces everything
    inside the literals and comments, escaped delimiters included. *)
Theorem literals_blanked (toks : list token) :
  Forall token_ok toks → blankLiterals (toks ≫= token_source) = toks ≫= token_blanked.
Proof. intros Ht. by apply scan_tokens. Qed.

Lemma literals_blanked_witness :
  blankLiterals (lit "a`b\`${c}`/*<<<*/'d'") = lit "a`       `       ' '".
Proof.
  refine (literals_blanked [Code 97; Template [Chr 98; Esc 96; Chr 36; Chr 123; Chr 99; Chr 125];
    BlockComment (lit "<<<"); Quoted SQUOTE [Chr 100]] _).
  repeat constructor; try (compute_done || set_solver).
  intros [|[|[|k]]]; done.
Defined.
