(* ===== verification/ContextGraph.v ===== *)
(** * Worlds and views (src/context-graph.ts)

    A conversation belongs to a world: [worldIdForInbound] routes what comes in
    to one, a view manifest lists the events a branch may see, and
    [materializeWorldView] turns it into messages.  [ContinuationHead] hands out
    one branch at a time. *)

From S2P Require Import Prelude JsString Messages.
Local Open Scope Z_scope.
Local Open Scope list_scope.

Inductive graph_error :=
  | InvalidSegment | UriError | InvalidWorldId | InvalidIdentity | InvalidGeneration
  | InvalidEvents
  | DuplicateEvent (id : jstring) | MissingEvent (id : jstring)
  | ForeignLocal (id : jstring) | NoLineage (id : jstring)
  | HeadBusy | StaleBranch.

(** ** Identifiers *)

(** [/[\u0000-\u001f\u007f]/.test(s)] *)
Definition has_control (s : jstring) : bool :=
  existsb (λ u, ((0 <=? u) && (u <=? 31)) || (u =? 127)) s.

Definition isBoundedId (s prefix : jstring) : bool :=
  startsWith prefix s && Nat.ltb (length prefix) (length s) && Nat.leb (length s) 512
  && negb (has_control s).

Definition WORLD : jstring := lit "world:".
Definition BRANCH : jstring := lit "branch:".
Definition EVENT : jstring := lit "event:".

Definition isWorldId (s : jstring) : bool := isBoundedId s WORLD.
Definition isBranchId (s : jstring) : bool := isBoundedId s BRANCH.
Definition isEventId (s : jstring) : bool := isBoundedId s EVENT.

Definition INTERNAL_WORLD_ID : jstring := lit "world:internal".
Definition CONSOLE_WORLD_ID : jstring := lit "world:console".

(** ** [encodeURIComponent] (ECMA-262 19.2.6.5) *)

(** The code points of a string; [None] at a lone surrogate. *)
Fixpoint code_points (s : jstring) : option (list Z) :=
  match s with
  | [] => Some []
  | u :: s =>
      if is_high u then
        match s with
        | v :: s' =>
            if is_low v then
              cs ← code_points s'; Some (0x10000 + (u - 0xD800) * 1024 + (v - 0xDC00) :: cs)
            else None
        | [] => None
        end
      else if is_low u then None
      else cs ← code_points s; Some (u :: cs)
  end.

(** [A-Za-z0-9-_.!~*'()] *)
Definition is_unreserved (b : Z) : bool :=
  ((65 <=? b) && (b <=? 90)) || ((97 <=? b) && (b <=? 122)) || ((48 <=? b) && (b <=? 57))
  || existsb (Z.eqb b) [45; 95; 46; 33; 126; 42; 39; 40; 41].

Definition upper_hex (n : Z) : Z := if n <? 10 then 48 + n else 55 + n.
Definition encode_byte (b : Z) : jstring :=
  if is_unreserved b then [b] else [37; upper_hex (b / 16); upper_hex (b mod 16)].

Definition encodeURIComponent (s : jstring) : option jstring :=
  cs ← code_points s; Some (flat_map encode_byte (flat_map utf8_bytes cs)).

(** ** Routing *)

Inductive InboundKind := discord | signal | scheduler | heartbeat | harness | worker | watch.
#[export] Instance InboundKind_eq_dec : EqDecision InboundKind.
Proof. solve_decision. Defined.

Record WorldRoutableInbound := {
  channelId : jstring;
  guildId : option jstring;
  kind : option InboundKind;
  in_worldId : option jstring;
  originWorldId : option jstring;
}.

Definition CONSOLE_CHANNEL_ID : jstring := lit "console".
Definition INTERNAL_CHANNEL_ID : jstring := lit "internal".

Definition boundedSegment (s : jstring) : graph_error + jstring :=
  check (negb (Nat.eqb (length s) 0 || Nat.ltb 256 (length s) || has_control s)) InvalidSegment;;
  match encodeURIComponent s with Some e => mret e | None => inl UriError end.

(** [if (input.guildId)]: an empty string is not a guild. *)
Definition guild_of (i : WorldRoutableInbound) : option jstring :=
  match guildId i with Some [] | None => None | Some g => Some g end.

Definition is_kind (i : WorldRoutableInbound) (k : InboundKind) : bool :=
  bool_decide (kind i = Some k).

Definition worldIdForInbound (i : WorldRoutableInbound) : graph_error + jstring :=
  match in_worldId i with
  | Some w => check (isWorldId w) InvalidWorldId;; mret w
  | None =>
      match originWorldId i with
      | Some w => check (isWorldId w) InvalidWorldId;; mret w
      | None =>
          if is_kind i signal then
            s ← boundedSegment (channelId i); mret (lit "world:signal:" ++ s)
          else if bool_decide (channelId i = CONSOLE_CHANNEL_ID) then mret CONSOLE_WORLD_ID
          else if is_kind i scheduler || bool_decide (channelId i = INTERNAL_CHANNEL_ID)
                  || is_kind i heartbeat || is_kind i harness || is_kind i worker
          then mret INTERNAL_WORLD_ID
          else match guild_of i with
               | Some g => s ← boundedSegment g; mret (lit "world:discord:guild:" ++ s)
               | None =>
                   s ← boundedSegment (channelId i); mret (lit "world:discord:channel:" ++ s)
               end
      end
  end.

(** ** Views *)

(** A message with its place in the graph; [eventId], [worldId] and
    [sharedFromWorldId] are [None] when absent, [sequence] when it is not an
    integer. *)
Record ScopedContextMessage := mkScoped {
  message : ChatMessage;
  worldId : option jstring;
  eventId : option jstring;
  sequence : option Z;
  sharedFromWorldId : option jstring;
}.

Record ManifestInput := {
  mf_branchId : jstring;
  mf_worldId : jstring;
  mf_parentBranchId : option jstring;
  mf_authorityEpoch : Z;
  mf_eventIds : list jstring;
  mf_sharedEventIds : list jstring;
  mf_policyGeneration : Z;
}.

(** [Number.isSafeInteger(n) && n >= 1] *)
Definition positive_safe (n : Z) : bool := (1 <=? n) && (n <=? MAX_SAFE_INTEGER).

(** The guards of [createViewManifest]; the manifest is its input and a hash of
    it. *)
Definition createViewManifest (m : ManifestInput) : graph_error + ManifestInput :=
  check (isBranchId (mf_branchId m) && isWorldId (mf_worldId m)) InvalidIdentity;;
  check (match mf_parentBranchId m with None => true | Some b => isBranchId b end) InvalidIdentity;;
  check (positive_safe (mf_authorityEpoch m)) InvalidGeneration;;
  check (positive_safe (mf_policyGeneration m)) InvalidGeneration;;
  let all := mf_eventIds m ++ mf_sharedEventIds m in
  check (negb (existsb (λ id, negb (isEventId id)) all)
         && Nat.eqb (size (list_to_set (C := gset jstring) all)) (length all)) InvalidEvents;;
  mret m.

(** [if (!message.eventId) continue;] *)
Definition event_key (m : ScopedContextMessage) : option jstring :=
  match eventId m with Some [] | None => None | Some e => Some e end.

(** The map [byId]. *)
Fixpoint index_events (byId : gmap jstring ScopedContextMessage) (l : list ScopedContextMessage)
    : graph_error + gmap jstring ScopedContextMessage :=
  match l with
  | [] => mret byId
  | m :: l =>
      match event_key m with
      | None => index_events byId l
      | Some e =>
          check (bool_decide (byId !! e = None)) (DuplicateEvent e);;
          index_events (<[ e := m ]> byId) l
      end
  end.

(** One event of a view. *)
Definition view_event (byId : gmap jstring ScopedContextMessage) (m : ManifestInput) (e : jstring)
    : graph_error + ScopedContextMessage :=
  match byId !! e with
  | None => inl (MissingEvent e)
  | Some msg =>
      if bool_decide (e ∈ mf_eventIds m) then
        check (bool_decide (worldId msg = Some (mf_worldId m))) (ForeignLocal e);; mret msg
      else
        check (negb (bool_decide (worldId msg = Some (mf_worldId m))
                     || negb (bool_decide (sharedFromWorldId msg = worldId msg)))) (NoLineage e);;
        mret msg
  end.

Fixpoint view_events (byId : gmap jstring ScopedContextMessage) (m : ManifestInput)
    (es : list jstring) : graph_error + list ScopedContextMessage :=
  match es with
  | [] => mret []
  | e :: es => msg ← view_event byId m e; rest ← view_events byId m es; mret (msg :: rest)
  end.

Definition materializeWorldView (l : list ScopedContextMessage) (m : ManifestInput)
    : graph_error + list ScopedContextMessage :=
  byId ← index_events ∅ l;
  view_events byId m (mf_eventIds m ++ mf_sharedEventIds m).

(** ** Initial context *)

(** The messages of each world and the ones of no world, each in order. *)
Record partition := mkPartition {
  worlds : gmap jstring (list ScopedContextMessage);
  legacy : list ScopedContextMessage;
  nextSequence : Z;
}.

Definition sequence_of (m : ScopedContextMessage) (next : Z) : Z :=
  match sequence m with
  | Some n => if positive_safe n then n else next
  | None => next
  end.
Definition with_sequence (n : Z) (m : ScopedContextMessage) : ScopedContextMessage :=
  mkScoped (message m) (worldId m) (eventId m) (Some n) (sharedFromWorldId m).

Definition place (p : partition) (m : ScopedContextMessage) : partition :=
  let n := sequence_of m (nextSequence p) in
  let m := with_sequence n m in
  let next := Z.max (nextSequence p) (n + 1) in
  match worldId m with
  | Some w =>
      if isWorldId w
      then mkPartition (<[ w := default [] (worlds p !! w) ++ [m] ]> (worlds p)) (legacy p) next
      else mkPartition (worlds p) (legacy p ++ [m]) next
  | None => mkPartition (worlds p) (legacy p ++ [m]) next
  end.

Definition partitionInitialContext (l : list ScopedContextMessage) : partition :=
  foldl place (mkPartition ∅ [] 1) l.

(** ** The continuation head *)

Record ContinuationHead := mkHead {
  active : option (jstring * jstring);
  parentBranchId : option jstring;
  authorityEpoch : Z;
}.
Definition fresh_head : ContinuationHead := mkHead None None 1.

(** [branch] is what [createBranchId] returned. *)
Definition begin (branch world : jstring)
    : eff ContinuationHead graph_error (jstring * jstring * option jstring * Z) :=
  h ← get;
  require (bool_decide (active h = None)) HeadBusy;;
  modify (λ h, mkHead (Some (branch, world)) (parentBranchId h) (authorityEpoch h));;
  mret (branch, world, parentBranchId h, authorityEpoch h).

Definition finish (branch : jstring) : eff ContinuationHead graph_error () :=
  h ← get;
  match active h with
  | Some (b, _) =>
      require (bool_decide (b = branch)) StaleBranch;;
      modify (λ h, mkHead None (Some branch) (authorityEpoch h))
  | None => throw StaleBranch
  end.

Definition revoke : eff ContinuationHead graph_error Z :=
  modify (λ h, mkHead (active h) (parentBranchId h) (authorityEpoch h + 1));;
  h ← get; mret (authorityEpoch h).

(** * Worlds and views: theorems

    A view holds exactly the events its manifest lists, each of the manifest's
    world or shared with its source; distinct rooms are routed to distinct
    worlds. *)


Lemma check_bind_inr {E A} b (e : E) (k : E + A) a :
  (check b e ;; k) = inr a ↔ b = true ∧ k = inr a.
Proof. destruct b; naive_solver. Qed.

(** ** Views *)

Definition indexed (byId : gmap jstring ScopedContextMessage) (l : list ScopedContextMessage)
    : gmap jstring ScopedContextMessage :=
  foldl (λ b m, match event_key m with Some e => <[ e := m ]> b | None => b end) byId l.

Lemma index_events_ok byId l r :
  index_events byId l = inr r ↔
  NoDup (omap event_key l) ∧ (∀ e, e ∈ omap event_key l → byId !! e = None)
  ∧ r = indexed byId l.
Proof.
  revert byId. unfold indexed. induction l as [|m l IH]; intros byId; simpl.
  { split; [|by intros (_ & _ & ->)]. intros [= <-]. split_and!; [constructor|set_solver|done]. }
  destruct (event_key m) as [e|] eqn:He; [|apply IH].
  rewrite check_bind_inr, bool_decide_eq_true, IH, NoDup_cons. split.
  - intros (He' & Hn & Hb & ->). split_and!; try done.
    + intros Hin. specialize (Hb e Hin). by rewrite lookup_insert_eq in Hb.
    + intros e'. rewrite elem_of_cons. intros [->|Hin]; [done|]. specialize (Hb e' Hin).
      by apply lookup_insert_None in Hb as [? _].
  - intros ((Hnin & Hn) & Hb & ->). split_and!; [apply Hb; set_solver|done| |done]. intros e' Hin. rewrite lookup_insert_ne; [|set_solver].
    apply Hb. set_solver.
Qed.

Lemma index_lookup byId l e m :
  NoDup (omap event_key l) →
  indexed byId l !! e = Some m
  ↔ (m ∈ l ∧ event_key m = Some e) ∨ (byId !! e = Some m ∧ e ∉ omap event_key l).
Proof.
  revert byId. unfold indexed. induction l as [|m' l IH]; intros byId; simpl; [set_solver|].
  destruct (event_key m') as [e'|] eqn:He.
  - intros [Hnin Hn]%NoDup_cons. rewrite IH, lookup_insert_Some by done.
    assert (m ∈ l → event_key m = Some e → e ∈ omap event_key l) as Hk.
    { intros. apply list_elem_of_omap. eauto. }
    split.
    + intros [[? ?]|[[[-> ->]|[? ?]] ?]]; set_solver.
    + intros [[[->|?]%elem_of_cons ?]|[? ?]]; [|set_solver..]. simplify_eq. right. set_solver.
  - intros Hn. rewrite IH by done. set_solver.
Qed.

(** What an event of a view satisfies. *)
Definition in_scope (l : list ScopedContextMessage) (m : ManifestInput) (e : jstring)
    (msg : ScopedContextMessage) : Prop :=
  msg ∈ l ∧ event_key msg = Some e
  ∧ if bool_decide (e ∈ mf_eventIds m) then worldId msg = Some (mf_worldId m)
    else worldId msg ≠ Some (mf_worldId m) ∧ sharedFromWorldId msg = worldId msg.

Lemma view_event_ok byId m e msg :
  view_event byId m e = inr msg ↔
  byId !! e = Some msg
  ∧ if bool_decide (e ∈ mf_eventIds m) then worldId msg = Some (mf_worldId m)
    else worldId msg ≠ Some (mf_worldId m) ∧ sharedFromWorldId msg = worldId msg.
Proof.
  unfold view_event. destruct (byId !! e) as [x|]; [|by split; [|intros [? _]]].
  destruct (bool_decide (e ∈ mf_eventIds m)); rewrite check_bind_inr.
  - rewrite bool_decide_eq_true. unfold mret, sum_ret. split; intros [? ?]; by simplify_eq.
  - rewrite negb_true_iff, orb_false_iff, bool_decide_eq_false, negb_false_iff, bool_decide_eq_true.
    unfold mret, sum_ret. split; [intros [[? ?] ?]|intros (? & ? & ?)]; by simplify_eq.
Qed.

Lemma view_event_scope l m e msg :
  NoDup (omap event_key l) →
  view_event (indexed ∅ l) m e = inr msg ↔ in_scope l m e msg.
Proof.
  intros Hn. rewrite view_event_ok, index_lookup, lookup_empty by done. unfold in_scope.
  split; [intros [[[? ?]|[? _]] ?]|intros (? & ? & ?)]; auto. done.
Qed.

Lemma view_events_ok byId m es view :
  view_events byId m es = inr view ↔ Forall2 (λ e msg, view_event byId m e = inr msg) es view.
Proof.
  revert view. induction es as [|e es IH]; intros view; simpl.
  { split; [by intros [= <-]|]. by intros ->%Forall2_nil_inv_l. }
  rewrite bind_inr. setoid_rewrite bind_inr. setoid_rewrite IH. split.
  - intros (msg & ? & rest & ? & [= <-]). by constructor.
  - intros (msg & rest & ? & ? & ->)%Forall2_cons_inv_l. eauto 10.
Qed.

(** A view is materialized exactly when no event id occurs twice in
    the context and every listed event is there in scope; it is then the listed
    events in order.  Events of the manifest's own list belong to its world; any
    other event is not of its world, and its source is the world it belongs to
    (an event with neither a world nor a source passes this test too). *)
Theorem world_view_exact (l : list ScopedContextMessage) (m : ManifestInput) view :
  materializeWorldView l m = inr view ↔
  NoDup (omap event_key l)
  ∧ Forall2 (in_scope l m) (mf_eventIds m ++ mf_sharedEventIds m) view.
Proof.
  unfold materializeWorldView. rewrite bind_inr. setoid_rewrite index_events_ok.
  setoid_rewrite view_events_ok. split.
  - intros (r & (Hn & _ & ->) & Hv). split; [done|]. eapply Forall2_impl; [done|].
    intros e msg. by rewrite view_event_scope.
  - intros [Hn Hv]. eexists. split; [split_and!; [done|by intros; apply lookup_empty|done]|].
    eapply Forall2_impl; [done|]. intros e msg. by rewrite view_event_scope.
Qed.

(** ** Routing *)

Definition is_unit (u : Z) : Prop := 0 ≤ u < 0x10000.
Definition is_code_point (c : Z) : Prop := 0 ≤ c < 0x110000.

(** A prefix code: equal concatenations of code words have equal parts. *)
Lemma flat_map_inj (P : Z → Prop) (f : Z → list Z) l l' :
  (∀ x, P x → f x ≠ []) →
  (∀ x y r r', P x → P y → f x ++ r = f y ++ r' → x = y ∧ r = r') →
  Forall P l → Forall P l' → flat_map f l = flat_map f l' → l = l'.
Proof.
  intros Hne Hf Hl. revert l'. induction Hl as [|x l Hx _ IH]; intros l' Hl'; simpl.
  - destruct Hl' as [|y l' Hy _]; [done|]. simpl. intros H. symmetry in H.
    apply app_eq_nil in H as [H _]. by apply Hne in H.
  - destruct Hl' as [|y l' Hy Hl']; simpl.
    + intros H. apply app_eq_nil in H as [H _]. by apply Hne in H.
    + intros [-> Ht]%Hf; [|done..]. f_equal. by apply IH.
Qed.

(** The bytes of a code point are its base-64 digits. *)
Lemma base64_digits c :
  0 ≤ c → ∃ q1 q2 q3 r1 r2 r3,
    c / 64 = q1 ∧ c / 4096 = q2 ∧ c / 262144 = q3
    ∧ c mod 64 = r1 ∧ c / 64 mod 64 = r2 ∧ c / 4096 mod 64 = r3
    ∧ c = 64 * q1 + r1 ∧ q1 = 64 * q2 + r2 ∧ q2 = 64 * q3 + r3
    ∧ 0 ≤ r1 < 64 ∧ 0 ≤ r2 < 64 ∧ 0 ≤ r3 < 64 ∧ 0 ≤ q3.
Proof.
  intros Hc. exists (c / 64), (c / 4096), (c / 262144), (c mod 64), (c / 64 mod 64),
    (c / 4096 mod 64).
  assert (c / 4096 = c / 64 / 64) as E2 by (by rewrite Z.div_div).
  assert (c / 262144 = c / 4096 / 64) as E3 by (by rewrite Z.div_div).
  split_and!; try done; try (by apply Z.mod_pos_bound); try (by apply Z.div_pos).
  - by apply Z.div_mod.
  - rewrite E2. by apply Z.div_mod.
  - rewrite E3. by apply Z.div_mod.
Qed.

Lemma utf8_bytes_prefix c c' r r' :
  is_code_point c → is_code_point c' → utf8_bytes c ++ r = utf8_bytes c' ++ r' → c = c' ∧ r = r'.
Proof.
  unfold is_code_point, utf8_bytes. intros [Hc ?] [Hc' ?].
  destruct (base64_digits c Hc) as (q1 & q2 & q3 & r1 & r2 & r3 & -> & -> & -> & -> & -> & -> & ?).
  destruct (base64_digits c' Hc') as (p1 & p2 & p3 & s1 & s2 & s3 & -> & -> & -> & -> & -> & -> & ?).
  destruct (Z.ltb_spec c 0x80), (Z.ltb_spec c' 0x80); simpl;
    [|destruct (Z.ltb_spec c' 0x800), (Z.ltb_spec c' 0x10000)
     |destruct (Z.ltb_spec c 0x800), (Z.ltb_spec c 0x10000)
     |destruct (Z.ltb_spec c 0x800), (Z.ltb_spec c 0x10000), (Z.ltb_spec c' 0x800),
        (Z.ltb_spec c' 0x10000)]; simpl; intros [=]; (split; [lia|first [done|exfalso; lia]]).
Qed.
Lemma utf8_bytes_range c : is_code_point c → Forall (λ b, 0 ≤ b < 256) (utf8_bytes c).
Proof.
  unfold is_code_point, utf8_bytes. intros [Hc ?].
  destruct (base64_digits c Hc) as (q1 & q2 & q3 & r1 & r2 & r3 & -> & -> & -> & -> & -> & -> & ?).
  destruct (Z.ltb_spec c 0x80), (Z.ltb_spec c 0x800), (Z.ltb_spec c 0x10000);
    repeat constructor; lia.
Qed.

Lemma upper_hex_inj n m : 0 ≤ n < 16 → 0 ≤ m < 16 → upper_hex n = upper_hex m → n = m.
Proof.
  unfold upper_hex. destruct (Z.ltb_spec n 10), (Z.ltb_spec m 10); lia.
Qed.
Lemma percent_reserved b : is_unreserved b = true → b ≠ 37.
Proof. by intros H ->. Qed.
Lemma encode_byte_prefix b b' r r' :
  0 ≤ b < 256 → 0 ≤ b' < 256 → encode_byte b ++ r = encode_byte b' ++ r' → b = b' ∧ r = r'.
Proof.
  unfold encode_byte. intros Hb Hb'.
  destruct (is_unreserved b) eqn:H1, (is_unreserved b') eqn:H2; simpl.
  - by intros [=].
  - intros [= ? _]. by apply percent_reserved in H1.
  - intros [= ? _]. by apply percent_reserved in H2.
  - intros [= Hd Hm ->]. split; [|done].
    apply upper_hex_inj in Hd; [|Z.div_mod_to_equations; lia..].
    apply upper_hex_inj in Hm; [|Z.div_mod_to_equations; lia..].
    rewrite (Z.div_mod b 16), (Z.div_mod b' 16) by lia. congruence.
Qed.

Lemma surrogate_pair u v :
  is_unit u → is_unit v → is_high u = true → is_low v = true →
  let c := 0x10000 + (u - 0xD800) * 1024 + (v - 0xDC00) in
  is_code_point c ∧ utf16_units c = [u; v].
Proof.
  unfold is_unit, is_high, is_low, is_code_point, utf16_units. intros Hu Hv H1 H2. cbv zeta.
  split; [lia|]. destruct (Z.ltb_spec (0x10000 + (u - 0xD800) * 1024 + (v - 0xDC00)) 0x10000); [lia|].
  f_equal; [|f_equal]; Z.div_mod_to_equations; lia.
Qed.

(** The code points of a string determine it. *)
Lemma code_points_spec s cs :
  Forall is_unit s → code_points s = Some cs →
  Forall is_code_point cs ∧ s = flat_map utf16_units cs.
Proof.
  revert cs. induction s as [s IH] using (induction_ltof1 _ (@length Z)). unfold ltof in IH.
  intros cs Hs. destruct Hs as [|u s Hu Hs]; simpl; [by intros [= <-]|].
  destruct (is_high u) eqn:Hh; [destruct Hs as [|v s Hv Hs]; [done|]; destruct (is_low v) eqn:Hl;
    [|done]|destruct (is_low u) eqn:Hl; [done|]].
  - intros (cs' & Hcs & [= <-])%bind_Some.
    destruct (IH s ltac:(simpl; lia) cs' Hs Hcs) as [Hr ->].
    destruct (surrogate_pair u v Hu Hv Hh Hl) as [? Hp]. split; [by constructor|].
    cbn [flat_map]. by rewrite Hp.
  - intros (cs' & Hcs & [= <-])%bind_Some.
    destruct (IH s ltac:(simpl; lia) cs' Hs Hcs) as [Hr ->]. unfold is_unit in Hu.
    split; [constructor; [unfold is_code_point; lia|done]|].
    cbn [flat_map]. unfold utf16_units at 2. by rewrite (proj2 (Z.ltb_lt _ _)) by lia.
Qed.

Lemma encode_inj s s' e :
  Forall is_unit s → Forall is_unit s' →
  encodeURIComponent s = Some e → encodeURIComponent s' = Some e → s = s'.
Proof.
  intros Hs Hs' (cs & Hcs & [= He])%bind_Some (cs' & Hcs' & [= <-])%bind_Some.
  destruct (code_points_spec s cs Hs Hcs) as [Hr ->].
  destruct (code_points_spec s' cs' Hs' Hcs') as [Hr' ->]. f_equal.
  assert (∀ l, Forall is_code_point l → Forall (λ b, 0 ≤ b < 256) (flat_map utf8_bytes l)) as Hb.
  { induction 1; simpl; [done|]. apply Forall_app. auto using utf8_bytes_range. }
  apply (flat_map_inj (λ b, 0 ≤ b < 256)) in He; auto using encode_byte_prefix.
  - apply (flat_map_inj is_code_point) in He; auto using utf8_bytes_prefix.
    intros c _. unfold utf8_bytes. by repeat case_match.
  - intros b _. unfold encode_byte. by case_match.
Qed.

(** The room an inbound message without an explicit world comes from. *)
Inductive route :=
  | RSignal (channel : jstring) | RConsole | RInternal
  | RGuild (guild : jstring) | RChannel (channel : jstring).

Definition route_of (i : WorldRoutableInbound) : route :=
  if is_kind i signal then RSignal (channelId i)
  else if bool_decide (channelId i = CONSOLE_CHANNEL_ID) then RConsole
  else if is_kind i scheduler || bool_decide (channelId i = INTERNAL_CHANNEL_ID)
          || is_kind i heartbeat || is_kind i harness || is_kind i worker then RInternal
  else match guild_of i with Some g => RGuild g | None => RChannel (channelId i) end.

(** The world of a route. *)
Definition route_world (x : route) (w : jstring) : Prop :=
  match x with
  | RSignal c => ∃ e, encodeURIComponent c = Some e ∧ w = lit "world:signal:" ++ e
  | RConsole => w = CONSOLE_WORLD_ID
  | RInternal => w = INTERNAL_WORLD_ID
  | RGuild g => ∃ e, encodeURIComponent g = Some e ∧ w = lit "world:discord:guild:" ++ e
  | RChannel c => ∃ e, encodeURIComponent c = Some e ∧ w = lit "world:discord:channel:" ++ e
  end.

Lemma boundedSegment_inr s e : boundedSegment s = inr e → encodeURIComponent s = Some e.
Proof.
  unfold boundedSegment. rewrite check_bind_inr. intros [_ H].
  destruct (encodeURIComponent s); [by injection H as ->|done].
Qed.

Lemma routed i w :
  in_worldId i = None → originWorldId i = None →
  worldIdForInbound i = inr w → route_world (route_of i) w.
Proof.
  intros H1 H2. unfold worldIdForInbound, route_of. rewrite H1, H2.
  destruct (is_kind i signal).
  { intros (e & He%boundedSegment_inr & [= <-])%bind_inr. by exists e. }
  destruct (bool_decide (channelId i = CONSOLE_CHANNEL_ID)); [by intros [= <-]|].
  destruct (_ || _); [by intros [= <-]|].
  destruct (guild_of i); intros (e & He%boundedSegment_inr & [= <-])%bind_inr; by exists e.
Qed.

Definition text_of (x : route) : jstring :=
  match x with RSignal c | RGuild c | RChannel c => c | _ => [] end.

Lemma route_world_inj x y w :
  Forall is_unit (text_of x) → Forall is_unit (text_of y) →
  route_world x w → route_world y w → x = y.
Proof.
  destruct x, y; simpl; intros Hx Hy; try done;
    repeat (intros (? & ? & ->) || intros -> || intros (? & ? & ?)); simplify_list_eq; try done.
  all: by f_equal; eapply encode_inj.
Qed.

(** Conversations of different rooms never share a world.  Two
    inbound messages that name no world themselves and are routed to the same
    world come from the same Signal chat, the same Discord server, the same
    direct channel, the console, or the harness. *)
Theorem rooms_never_share_world (a b : WorldRoutableInbound) (w : jstring) :
  in_worldId a = None → originWorldId a = None →
  in_worldId b = None → originWorldId b = None →
  Forall is_unit (text_of (route_of a)) → Forall is_unit (text_of (route_of b)) →
  worldIdForInbound a = inr w → worldIdForInbound b = inr w →
  route_of a = route_of b.
Proof. intros. eapply route_world_inj; eauto using routed. Qed.

Definition direct (c : jstring) : WorldRoutableInbound :=
  {| channelId := c; guildId := None; kind := Some discord; in_worldId := None;
     originWorldId := None |}.

Lemma rooms_never_share_world_witness :
  worldIdForInbound (direct (lit "a/b")) = inr (lit "world:discord:channel:a%2Fb")
  ∧ route_of (direct (lit "a/b")) = route_of (direct (lit "a/b")).
Proof.
  split; [reflexivity|].
  apply (rooms_never_share_world _ _ (lit "world:discord:channel:a%2Fb")); try reflexivity;
    repeat constructor; done.
Defined.
