(* ===== verification/BranchView.v ===== *)
(** * Requests of a local branch (src/context/view.ts, src/context/candidate.ts)

    A branch works in one world.  Its request to a model is put together from stored
    projections: layers of the system prompt and messages of events.  The store is an
    interface here; every projection it returns is checked for its world, its
    generation, its visibility and its place before it enters the request. *)

From stdpp Require Import sorting.
From S2P Require Import Prelude JsString JsText Messages.
Local Open Scope Z_scope.
Local Open Scope list_scope.

Inductive SystemLayerKind :=
  | runtime_contract | identity | integrated_self | world_policy | private_frontier
  | legacy_memory | legacy_focus | runtime_hint.
Inductive SystemLayerVisibility :=
  | v_global_contract | v_integrated_self | v_integrated_self_candidate | v_world | v_private_root
  | v_legacy_mixed.
#[export] Instance SystemLayerKind_eq_dec : EqDecision SystemLayerKind.
Proof. solve_decision. Defined.
#[export] Instance SystemLayerVisibility_eq_dec : EqDecision SystemLayerVisibility.
Proof. solve_decision. Defined.

(** The fields of the store's records that the views read. *)
Record SystemLayer := mkLayer {
  sl_kind : SystemLayerKind;
  sl_visibility : SystemLayerVisibility;
  sl_worldId : option jstring;
  sl_rendererGeneration : Z;
  sl_policyGeneration : Z;
  sl_content : jstring;
}.
Record EventMessageProjection := mkProjection {
  ep_sourceEventId : jstring;
  ep_worldId : jstring;
  ep_rendererGeneration : Z;
  ep_message : ChatMessage;
}.
Record WorldEvent := mkEvent { we_sequence : Z; we_worldId : jstring }.
Record RequestView := mkView {
  rv_id : jstring;
  rv_worldId : jstring;
  rv_messageRendererGeneration : Z;
  rv_systemRendererGeneration : Z;
  rv_policyGeneration : Z;
  rv_layerIds : list jstring;
  rv_projectionIds : list jstring;
}.

(** [ContextGraphStore], as far as views use it. *)
Class ContextGraphStore := {
  getSystemLayerProjection : jstring → option SystemLayer;
  getEventMessageProjection : jstring → option EventMessageProjection;
  getWorldEvent : jstring → option WorldEvent;
  getLocalBranchRequestView : jstring → option RequestView;
  getRequestViewBinding : jstring → option jstring;
}.

Inductive view_error :=
  | InvalidSystemGeneration | DuplicateLayer (id : jstring) | MissingLayer (id : jstring)
  | LayerGeneration (id : jstring) | LayerNotVisible (id : jstring) | LayerWorld (id : jstring)
  | LayerScope (id : jstring) | LayerOrder | Incomplete
  | InvalidRenderer | DuplicateProjection (id : jstring) | MissingProjection (id : jstring)
  | ProjectionWorld (id : jstring) | ProjectionRenderer (id : jstring) | ProjectionSource (id : jstring)
  | ProjectionOrder | MissingView (id : jstring) | MissingBinding (id : jstring) | TooLarge.

Definition positive_safe (n : Z) : bool := (n <=? MAX_SAFE_INTEGER) && negb (n <? 1).

(** [SYSTEM_LAYER_ORDER] *)
Definition layer_order (k : SystemLayerKind) : Z :=
  match k with
  | runtime_contract => 0 | identity => 1 | integrated_self => 2 | world_policy => 3
  | private_frontier => 4 | legacy_memory => 5 | legacy_focus => 6 | runtime_hint => 7
  end.

(** The guards on one layer, in their order. *)
Definition check_layer (world : jstring) (rg pg : Z) (id : jstring) (l : SystemLayer) : view_error + () :=
  check (bool_decide (sl_rendererGeneration l = rg) && bool_decide (sl_policyGeneration l = pg)) (LayerGeneration id);;
  check (negb (bool_decide (sl_visibility l = v_legacy_mixed)
               || bool_decide (sl_visibility l = v_integrated_self_candidate)
               || bool_decide (sl_visibility l = v_private_root))) (LayerNotVisible id);;
  check (negb (bool_decide (sl_visibility l = v_world) && negb (bool_decide (sl_worldId l = Some world))
               || negb (bool_decide (sl_visibility l = v_world)) && negb (bool_decide (sl_worldId l = None))))
    (LayerWorld id);;
  check (negb (bool_decide (sl_visibility l = v_global_contract) && negb (bool_decide (sl_kind l = runtime_contract))
               || bool_decide (sl_visibility l = v_integrated_self)
                  && negb (bool_decide (sl_kind l = identity)) && negb (bool_decide (sl_kind l = integrated_self))
               || bool_decide (sl_visibility l = v_world) && negb (bool_decide (sl_kind l = world_policy))))
    (LayerScope id).

Section view.
Context {graph : ContextGraphStore}.

(** The [map] of [materializeSystemProjection]: the layers, each after its guards. *)
Fixpoint system_layers (world : jstring) (rg pg : Z) (ids seen : list jstring) (previousOrder : Z)
    : view_error + list SystemLayer :=
  match ids with
  | [] => mret []
  | id :: ids =>
      check (negb (bool_decide (id ∈ seen))) (DuplicateLayer id);;
      match getSystemLayerProjection id with
      | None => inl (MissingLayer id)
      | Some l =>
          check_layer world rg pg id l;;
          check (negb (layer_order (sl_kind l) <=? previousOrder)) LayerOrder;;
          rest ← system_layers world rg pg ids (id :: seen) (layer_order (sl_kind l));
          mret (l :: rest)
      end
  end.
Definition is_self (k : SystemLayerKind) : bool :=
  match k with identity | integrated_self => true | _ => false end.
Definition materializeSystemProjection (world : jstring) (rg pg : Z) (ids : list jstring)
    : view_error + jstring :=
  check (positive_safe rg && positive_safe pg) InvalidSystemGeneration;;
  ls ← system_layers world rg pg ids [] (-1);
  let kinds := map sl_kind ls in
  check (bool_decide (head kinds = Some runtime_contract) && existsb is_self kinds) Incomplete;;
  mret (join [] (map sl_content ls)).

(** A message of the conversation, with its event and place. *)
Record WorldMessage := mkWorldMessage {
  wm_message : ChatMessage;
  wm_worldId : jstring;
  wm_eventId : jstring;
  wm_sequence : Z;
}.
Fixpoint world_messages (world : jstring) (rg : Z) (ids seen : list jstring) (previousSequence : Z)
    : view_error + list WorldMessage :=
  match ids with
  | [] => mret []
  | id :: ids =>
      check (negb (bool_decide (id ∈ seen))) (DuplicateProjection id);;
      match getEventMessageProjection id with
      | None => inl (MissingProjection id)
      | Some p =>
          check (bool_decide (ep_worldId p = world)) (ProjectionWorld id);;
          check (bool_decide (ep_rendererGeneration p = rg)) (ProjectionRenderer id);;
          match getWorldEvent (ep_sourceEventId p) with
          | None => inl (ProjectionSource id)
          | Some e =>
              check (bool_decide (we_worldId e = world)) (ProjectionSource id);;
              check (negb (we_sequence e <=? previousSequence)) ProjectionOrder;;
              rest ← world_messages world rg ids (id :: seen) (we_sequence e);
              mret (mkWorldMessage (ep_message p) world (ep_sourceEventId p) (we_sequence e) :: rest)
          end
      end
  end.
Definition materializeWorldConversation (world : jstring) (rg : Z) (ids : list jstring)
    : view_error + list WorldMessage :=
  check (positive_safe rg) InvalidRenderer;;
  world_messages world rg ids [] (-1).

(** ** The candidate (candidate.ts) *)

Definition MAX_LOCAL_BRANCH_REQUEST_CANDIDATE_BYTES : Z := 8 * 1024 * 1024.

Fixpoint contents_fit (bytes : Z) (contents : list jstring) : view_error + () :=
  match contents with
  | [] => mret tt
  | c :: contents =>
      let bytes := bytes + Z.of_nat (byteLength c) in
      check (negb (MAX_LOCAL_BRANCH_REQUEST_CANDIDATE_BYTES <? bytes)) TooLarge;;
      contents_fit bytes contents
  end.
Definition assertLocalBranchRequestContentFits (contents : list jstring) : view_error + () :=
  contents_fit 0 contents.

(** [JSON.stringify] of a string (ECMA-262 25.5.2.3). *)
Definition lower_hex (n : Z) : Z := if n <? 10 then 48 + n else 87 + n.
Definition unicode_escape (u : Z) : jstring :=
  [92; 117; lower_hex (u / 4096); lower_hex (u / 256 mod 16); lower_hex (u / 16 mod 16); lower_hex (u mod 16)].
Definition quote_unit (u : Z) : jstring :=
  if u =? 8 then [92; 98] else if u =? 9 then [92; 116] else if u =? 10 then [92; 110]
  else if u =? 12 then [92; 102] else if u =? 13 then [92; 114] else if u =? 34 then [92; 34]
  else if u =? 92 then [92; 92]
  else if (u <? 32) || is_high u || is_low u then unicode_escape u else [u].
Fixpoint quote_body (s : jstring) : jstring :=
  match s with
  | [] => []
  | u :: s' =>
      match s' with
      | v :: s'' => if is_high u && is_low v then u :: v :: quote_body s'' else quote_unit u ++ quote_body s'
      | [] => quote_unit u
      end
  end.
Definition quote (s : jstring) : jstring := [34] ++ quote_body s ++ [34].

(** A message as sent: role and content. *)
Definition NeutralMessage : Type := Role * jstring.
Definition message_json (m : NeutralMessage) : jstring :=
  lit "{" ++ quote (lit "role") ++ lit ":" ++ quote (lit (role_name m.1)) ++ lit ","
  ++ quote (lit "content") ++ lit ":" ++ quote m.2 ++ lit "}".
Definition candidate_text (ms : list NeutralMessage) : jstring :=
  lit "{" ++ quote (lit "schemaVersion") ++ lit ":1," ++ quote (lit "surface") ++ lit ":"
  ++ quote (lit "provider-neutral-messages") ++ lit "," ++ quote (lit "messages") ++ lit ":["
  ++ join (lit ",") (map message_json ms) ++ lit "]}".
Definition providerNeutralCandidateJson (ms : list NeutralMessage) : view_error + jstring :=
  assertLocalBranchRequestContentFits (map snd ms);;
  mret (candidate_text ms).

Record MaterializedRequest := mkRequest {
  mr_requestViewId : jstring;
  mr_messages : list NeutralMessage;
  mr_candidateJson : jstring;
  mr_candidateHash : string;
  mr_candidateBytes : Z;
  mr_active : bool;
}.
Context (sha256_hex : list Z → string).
Definition buildMaterializedLocalBranchRequest (viewId : jstring) (ms : list NeutralMessage) (active : bool)
    : view_error + MaterializedRequest :=
  json ← providerNeutralCandidateJson ms;
  let bytes := Z.of_nat (byteLength json) in
  check (negb (MAX_LOCAL_BRANCH_REQUEST_CANDIDATE_BYTES <? bytes)) TooLarge;;
  mret (mkRequest viewId ms json (sha256_hex (utf8_encode json)) bytes active).

Definition materializeLocalBranchRequest (viewId : jstring) : view_error + MaterializedRequest :=
  match getLocalBranchRequestView viewId with
  | None => inl (MissingView viewId)
  | Some v =>
      sys ← materializeSystemProjection (rv_worldId v) (rv_systemRendererGeneration v) (rv_policyGeneration v)
              (rv_layerIds v);
      conversation ← materializeWorldConversation (rv_worldId v) (rv_messageRendererGeneration v)
                       (rv_projectionIds v);
      buildMaterializedLocalBranchRequest (rv_id v)
        ((system, sys) :: map (λ m, (role (wm_message m), content (wm_message m))) conversation) false
  end.
Definition materializeProfileBoundLocalBranchRequest (bindingId : jstring)
    : view_error + jstring * MaterializedRequest :=
  match getRequestViewBinding bindingId with
  | None => inl (MissingBinding bindingId)
  | Some viewId => r ← materializeLocalBranchRequest viewId; mret (viewId, r)
  end.
End view.

(** * Theorems on the requests of a branch *)


(** ** What a branch may be shown *)

(** A layer of the given generation that a branch of [world] may be shown. *)
Inductive visible_layer (world : jstring) : SystemLayer → Prop :=
  | contract_visible l : sl_visibility l = v_global_contract → sl_kind l = runtime_contract →
      sl_worldId l = None → visible_layer world l
  | self_visible l : sl_visibility l = v_integrated_self → is_self (sl_kind l) = true →
      sl_worldId l = None → visible_layer world l
  | policy_visible l : sl_visibility l = v_world → sl_kind l = world_policy →
      sl_worldId l = Some world → visible_layer world l.
Definition of_generation (rg pg : Z) (l : SystemLayer) : Prop :=
  sl_rendererGeneration l = rg ∧ sl_policyGeneration l = pg.

Lemma check_layer_inr world rg pg id l u :
  check_layer world rg pg id l = inr u ↔ of_generation rg pg l ∧ visible_layer world l.
Proof.
  destruct u. unfold check_layer. rewrite bind_inr. split.
  - intros (u & H1%check_inr & H). rewrite bind_inr in H. destruct H as (u1 & H2%check_inr & H).
    rewrite bind_inr in H. destruct H as (u2 & H3%check_inr & H4%check_inr). guards. split; [done|].
    destruct (sl_visibility l) eqn:Hv; try done; repeat rewrite ?bool_decide_true, ?bool_decide_false in * by done;
      simpl in *; guards.
    + by apply contract_visible.
    + apply self_visible; [done| |done]. by destruct (sl_kind l).
    + by apply policy_visible.
  - intros [[H1 H2] Hl]. exists (). rewrite check_inr, !bool_decide_true by done. split; [done|].
    destruct Hl as [l Hv Hk Hw|l Hv Hk Hw|l Hv Hk Hw]; rewrite Hv, ?Hk, Hw; simpl;
      rewrite ?bool_decide_true by done; try done.
    unfold is_self in Hk. by destruct (sl_kind l).
Qed.

Section store.
Context {graph : ContextGraphStore}.

(** Places that rise strictly from [prev]. *)
Fixpoint rising (prev : Z) (l : list Z) : Prop :=
  match l with [] => True | x :: l => prev < x ∧ rising x l end.
Lemma rising_above prev l x : rising prev l → x ∈ l → prev < x.
Proof.
  revert prev. induction l as [|y l IH]; simpl; intros prev Hr Hx; [by apply elem_of_nil in Hx|].
  destruct Hr as [Hy Hr]. apply elem_of_cons in Hx as [->|Hx]; [done|]. specialize (IH _ Hr Hx). lia.
Qed.

Lemma system_layers_exact world rg pg ids seen prev ls :
  (∀ id l, id ∈ seen → getSystemLayerProjection id = Some l → layer_order (sl_kind l) ≤ prev) →
  system_layers world rg pg ids seen prev = inr ls ↔
  Forall2 (λ id l, getSystemLayerProjection id = Some l) ids ls
  ∧ Forall (λ l, of_generation rg pg l ∧ visible_layer world l) ls
  ∧ rising prev (map (λ l, layer_order (sl_kind l)) ls).
Proof.
  revert seen prev ls. induction ids as [|id ids IH]; intros seen prev ls Hseen; simpl.
  { split.
    - intros [= <-]. done.
    - intros (H & _). by inversion H. }
  rewrite bind_inr. split.
  - intros (u & _ & H). destruct (getSystemLayerProjection id) as [l|] eqn:Hl; [|done].
    rewrite bind_inr in H. destruct H as (u1 & Hc%check_layer_inr & H).
    rewrite bind_inr in H. destruct H as (u2 & Ho%check_inr & H). guards.
    rewrite bind_inr in H. destruct H as (rest & Hr & [= <-]). apply IH in Hr as (H1 & H2 & H3).
    + split_and!; [by constructor|by constructor|]. simpl. split; [lia|done].
    + intros id' l' [->|Hin]%elem_of_cons Hl'; [replace l' with l by congruence; lia|]. specialize (Hseen _ _ Hin Hl'). lia.
  - intros (H1 & H2 & H3). inversion H1 as [|? l ? rest Hl H1']; subst. inversion H2 as [|? ? Hv H2']; subst.
    simpl in H3. destruct H3 as [Ho H3]. exists (). split.
    + apply check_inr. apply negb_true_iff, bool_decide_eq_false. intros Hin. specialize (Hseen _ _ Hin Hl). lia.
    + rewrite Hl. rewrite bind_inr. exists (). split; [by apply check_layer_inr|].
      rewrite bind_inr. exists (). split; [apply check_inr, negb_true_iff; lia|].
      rewrite bind_inr. exists rest. split; [|done]. apply IH; [|done].
      intros id' l' [->|Hin]%elem_of_cons Hl'; [replace l' with l by congruence; lia|]. specialize (Hseen _ _ Hin Hl'). lia.
Qed.

(** The kinds of layers of a system prompt: the runtime contract, the identity or
    the integrated self or both, and at most the policy of this world. *)
Definition PROMPTS : list (list SystemLayerKind) :=
  [[runtime_contract; identity]; [runtime_contract; integrated_self];
   [runtime_contract; identity; integrated_self];
   [runtime_contract; identity; world_policy]; [runtime_contract; integrated_self; world_policy];
   [runtime_contract; identity; integrated_self; world_policy]].

Lemma visible_kind world l : visible_layer world l → layer_order (sl_kind l) ≤ 3.
Proof.
  intros [l' _ Hk _|l' _ Hk _|l' _ Hk _]; [by rewrite Hk| |by rewrite Hk]. by destruct (sl_kind l').
Qed.
Lemma prompt_kinds ks :
  Forall (λ k, layer_order k ≤ 3) ks →
  rising (-1) (map layer_order ks) ∧ head ks = Some runtime_contract ∧ existsb is_self ks = true ↔ ks ∈ PROMPTS.
Proof.
  intros Hk. split.
  - intros (Hr & Hh & Hs). destruct ks as [|k1 ks]; [done|]. injection Hh as ->.
    destruct ks as [|k2 ks]; [done|]. simpl in Hr. destruct Hr as (_ & H2 & Hr).
    inversion Hk as [|? ? _ Hk1]; subst. inversion Hk1 as [|? ? H2' Hk2]; subst.
    destruct ks as [|k3 ks].
    { destruct k2; simpl in *; try lia; try done; set_solver. }
    simpl in Hr. destruct Hr as (H3 & Hr). inversion Hk2 as [|? ? H3' Hk3]; subst.
    destruct ks as [|k4 ks].
    { destruct k2, k3; simpl in *; try lia; try done; set_solver. }
    simpl in Hr. destruct Hr as (H4 & Hr). inversion Hk3 as [|? ? H4' Hk4]; subst.
    destruct ks as [|k5 ks].
    { destruct k2, k3, k4; simpl in *; try lia; try done; set_solver. }
    simpl in Hr. destruct Hr as (H5 & _). inversion Hk4 as [|? ? H5' _]; subst. lia.
  - unfold PROMPTS. intros H. repeat (apply elem_of_cons in H as [->|H]; [simpl; split_and!; try done; lia|]).
    by apply elem_of_nil in H.
Qed.

Lemma system_prompt_iff world rg pg ids text :
  materializeSystemProjection world rg pg ids = inr text ↔
  positive_safe rg = true ∧ positive_safe pg = true
  ∧ ∃ ls, Forall2 (λ id l, getSystemLayerProjection id = Some l) ids ls
          ∧ Forall (λ l, of_generation rg pg l ∧ visible_layer world l) ls
          ∧ map sl_kind ls ∈ PROMPTS ∧ text = join [] (map sl_content ls).
Proof.
  unfold materializeSystemProjection. rewrite bind_inr.
  assert (∀ ls, Forall (λ l, of_generation rg pg l ∧ visible_layer world l) ls →
                Forall (λ k, layer_order k ≤ 3) (map sl_kind ls)) as Hkinds.
  { intros ls H. apply Forall_map. eapply Forall_impl; [exact H|]. intros l [_ Hl]. by eapply visible_kind. }
  split.
  - intros (u & Hg%check_inr & H). rewrite bind_inr in H. destruct H as (ls & Hls & H).
    rewrite bind_inr in H. destruct H as (u1 & Hc%check_inr & [= <-]). guards.
    apply system_layers_exact in Hls as (L1 & L2 & L3); [|by intros ? ? ?%elem_of_nil].
    split_and!; [done..|]. exists ls. split_and!; [done..| |done].
    apply prompt_kinds; [by apply Hkinds|]. split_and!; [|done|done]. by rewrite map_map.
  - intros (Hr & Hp & ls & H1 & H2 & H3 & ->). exists (). rewrite check_inr, Hr, Hp. split; [done|].
    apply prompt_kinds in H3 as (H3 & H4 & H5); [|by apply Hkinds].
    rewrite bind_inr. exists ls. split.
    + apply system_layers_exact; [by intros ? ? ?%elem_of_nil|]. rewrite map_map in H3. done.
    + rewrite bind_inr. exists (). split; [|done]. rewrite check_inr, H5, bool_decide_true by done. done.
Qed.

(** A message of the conversation, as the store has it. *)
Definition from_event (world : jstring) (rg : Z) (id : jstring) (m : WorldMessage) : Prop :=
  ∃ p e, getEventMessageProjection id = Some p ∧ ep_worldId p = world ∧ ep_rendererGeneration p = rg
    ∧ getWorldEvent (ep_sourceEventId p) = Some e ∧ we_worldId e = world
    ∧ m = mkWorldMessage (ep_message p) world (ep_sourceEventId p) (we_sequence e).

Lemma world_messages_exact world rg ids seen prev ms :
  (∀ id m, id ∈ seen → from_event world rg id m → wm_sequence m ≤ prev) →
  world_messages world rg ids seen prev = inr ms ↔
  Forall2 (from_event world rg) ids ms ∧ rising prev (map wm_sequence ms).
Proof.
  revert seen prev ms. induction ids as [|id ids IH]; intros seen prev ms Hseen; simpl.
  { split.
    - intros [= <-]. done.
    - intros (H & _). by inversion H. }
  assert (∀ m m', from_event world rg id m → from_event world rg id m' → m = m') as Huniq.
  { intros m m' (p & e & Hp & _ & _ & He & _ & ->) (p' & e' & Hp' & _ & _ & He' & _ & ->). congruence. }
  rewrite bind_inr. split.
  - intros (u & _ & H). destruct (getEventMessageProjection id) as [p|] eqn:Hp; [|done].
    rewrite bind_inr in H. destruct H as (u1 & Hw%check_inr & H).
    rewrite bind_inr in H. destruct H as (u2 & Hg%check_inr & H).
    destruct (getWorldEvent (ep_sourceEventId p)) as [e|] eqn:He; [|done].
    rewrite bind_inr in H. destruct H as (u3 & Hw2%check_inr & H).
    rewrite bind_inr in H. destruct H as (u4 & Ho%check_inr & H).
    rewrite bind_inr in H. destruct H as (rest & Hr & [= <-]). guards.
    assert (from_event world rg id (mkWorldMessage (ep_message p) world (ep_sourceEventId p) (we_sequence e))) as Hm.
    { exists p, e. by split_and!. }
    apply IH in Hr as (H1 & H2); [split; [by constructor|]; simpl; split; [lia|done]|].
    intros id' m' [->|Hin]%elem_of_cons Hm'; [rewrite <-(Huniq _ _ Hm Hm'); simpl; lia|].
    specialize (Hseen _ _ Hin Hm'). lia.
  - intros (H1 & H2). inversion H1 as [|? m ? rest Hm H1']; subst. simpl in H2. destruct H2 as [Ho H2].
    exists (). split.
    { apply check_inr, negb_true_iff, bool_decide_eq_false. intros Hin. specialize (Hseen _ _ Hin Hm). lia. }
    pose proof Hm as (p & e & Hp & Hw & Hg & He & Hw2 & ->). rewrite Hp, bind_inr. simpl in Ho.
    exists (). split; [by apply check_inr, bool_decide_eq_true|].
    rewrite bind_inr. exists (). split; [by apply check_inr, bool_decide_eq_true|]. rewrite He, bind_inr.
    exists (). split; [by apply check_inr, bool_decide_eq_true|]. rewrite bind_inr.
    exists (). split; [apply check_inr, negb_true_iff; lia|]. rewrite bind_inr.
    exists rest. split; [|done]. apply IH; [|done].
    intros id' m' [->|Hin]%elem_of_cons Hm'; [rewrite <-(Huniq _ _ Hm Hm'); simpl; lia|].
    specialize (Hseen _ _ Hin Hm'). lia.
Qed.
End store.

(** ** The candidate text *)

(** Reading a quoted string back: the string up to the closing quote, and the rest. *)
Definition hex_value (d : Z) : Z := if d <? 58 then d - 48 else d - 87.
Definition escaped (e : Z) : Z :=
  if e =? 98 then 8 else if e =? 116 then 9 else if e =? 110 then 10 else if e =? 102 then 12
  else if e =? 114 then 13 else e.
Fixpoint unquote (l : jstring) : option (jstring * jstring) :=
  match l with
  | [] => None
  | u :: l =>
      if u =? 34 then Some ([], l)
      else if u =? 92 then
        match l with
        | e :: l =>
            if e =? 117 then
              match l with
              | a :: b :: c :: d :: l =>
                  '(s, r) ← unquote l;
                  Some (hex_value a * 4096 + hex_value b * 256 + hex_value c * 16 + hex_value d :: s, r)
              | _ => None
              end
            else '(s, r) ← unquote l; Some (escaped e :: s, r)
        | [] => None
        end
      else '(s, r) ← unquote l; Some (u :: s, r)
  end.

Lemma hex_value_any n : hex_value (lower_hex n) = n.
Proof. unfold hex_value, lower_hex. repeat case_match; lia. Qed.

(** A quoted unit is read back as one unit. *)
Lemma unquote_unit u l s r : unquote l = Some (s, r) → unquote (quote_unit u ++ l) = Some (u :: s, r).
Proof.
  intros Hl. unfold quote_unit.
  destruct (Z.eqb_spec u 8) as [->|]; [simpl; by rewrite Hl|].
  destruct (Z.eqb_spec u 9) as [->|]; [simpl; by rewrite Hl|].
  destruct (Z.eqb_spec u 10) as [->|]; [simpl; by rewrite Hl|].
  destruct (Z.eqb_spec u 12) as [->|]; [simpl; by rewrite Hl|].
  destruct (Z.eqb_spec u 13) as [->|]; [simpl; by rewrite Hl|].
  destruct (Z.eqb_spec u 34) as [->|]; [simpl; by rewrite Hl|].
  destruct (Z.eqb_spec u 92) as [->|]; [simpl; by rewrite Hl|].
  destruct (_ || _).
  - cbn [app unquote unicode_escape Z.eqb Pos.eqb]. rewrite Hl. cbn. rewrite !hex_value_any. f_equal. f_equal. f_equal.
    pose proof (Z.div_mod u 16 ltac:(lia)). pose proof (Z.div_mod (u / 16) 16 ltac:(lia)).
    pose proof (Z.div_mod (u / 256) 16 ltac:(lia)).
    replace (u / 256) with (u / 16 / 16) in * by (rewrite Z.div_div by lia; f_equal).
    replace (u / 4096) with (u / 16 / 16 / 16) in * by (rewrite !Z.div_div by lia; f_equal). lia.
  - cbn [app unquote]. rewrite (proj2 (Z.eqb_neq u 34)), (proj2 (Z.eqb_neq u 92)) by done. by rewrite Hl.
Qed.
Lemma unquote_raw u l s r : u ≠ 34 → u ≠ 92 → unquote l = Some (s, r) → unquote (u :: l) = Some (u :: s, r).
Proof. intros H1 H2 Hl. simpl. rewrite (proj2 (Z.eqb_neq u 34)), (proj2 (Z.eqb_neq u 92)) by done. by rewrite Hl. Qed.

Lemma unquote_quote s r : unquote (quote_body s ++ 34 :: r) = Some (s, r).
Proof.
  remember (length s) as n eqn:Hn. revert s Hn. induction n as [n IH] using lt_wf_ind. intros s ->.
  destruct s as [|u [|v s]]; [done|by apply unquote_unit|].
  change (quote_body (u :: v :: s))
    with (if is_high u && is_low v then u :: v :: quote_body s else quote_unit u ++ quote_body (v :: s)).
  destruct (is_high u && is_low v) eqn:Hp.
  - unfold is_high, is_low in Hp. guards. cbn [app]. apply unquote_raw; [lia|lia|]. apply unquote_raw; [lia|lia|].
    apply (IH (length s)); [simpl; lia|done].
  - rewrite <-app_assoc. apply unquote_unit. apply (IH (length (v :: s))); [simpl; lia|done].
Qed.
Lemma quote_split s s' r r' : quote s ++ r = quote s' ++ r' → s = s' ∧ r = r'.
Proof.
  unfold quote. rewrite <-!app_assoc. simpl. intros [= H]. pose proof (unquote_quote s r) as H1.
  rewrite H, unquote_quote in H1. by injection H1.
Qed.
Lemma role_name_inj r r' : role_name r = role_name r' → r = r'.
Proof. by destruct r, r'. Qed.
Lemma lit_inj s s' : lit s = lit s' → s = s'.
Proof.
  revert s'. induction s as [|a s IH]; intros [|a' s']; simpl; try done. intros [= Ha Hs]. f_equal; [|by apply IH].
  assert (Ascii.N_of_ascii a = Ascii.N_of_ascii a') as HN by lia.
  by rewrite <-(Ascii.ascii_N_embedding a), HN, Ascii.ascii_N_embedding.
Qed.

Lemma message_split m m' r r' : message_json m ++ r = message_json m' ++ r' → m = m' ∧ r = r'.
Proof.
  destruct m as [a c], m' as [a' c']. unfold message_json. rewrite <-!app_assoc. simpl fst. simpl snd.
  intros H. do 3 apply app_inv_head in H. apply quote_split in H as [Hr H].
  do 3 apply app_inv_head in H. apply quote_split in H as [-> H]. apply app_inv_head in H as ->.
  by apply lit_inj, role_name_inj in Hr as ->.
Qed.
Lemma message_head m : ∃ t, message_json m = 123 :: t.
Proof. by eexists. Qed.
(** The text of the messages determines them. *)
Lemma messages_split ms ms' r r' :
  join (lit ",") (map message_json ms) ++ 93 :: r = join (lit ",") (map message_json ms') ++ 93 :: r' → ms = ms'.
Proof.
  assert (∀ m l r, join (lit ",") (message_json m :: l) ++ 93 :: r ≠ 93 :: r') as Hne.
  { intros m l r0. destruct (message_head m) as [t Ht]. destruct l; cbn [join]; by rewrite Ht. }
  revert ms'. induction ms as [|m ms IH]; intros [|m' ms']; cbn [map]; intros H; [done| | |].
  - destruct (message_head m') as [t Ht]. exfalso. revert H. destruct (map message_json ms'); cbn [join]; by rewrite Ht.
  - by apply Hne in H.
  - destruct ms as [|n ms], ms' as [|n' ms']; cbn [map join] in H; rewrite <-?app_assoc in H.
    + by apply message_split in H as [-> _].
    + by apply message_split in H as [_ [=]].
    + by apply message_split in H as [_ [=]].
    + apply message_split in H as [-> H]. apply app_inv_head in H. f_equal. by apply IH.
Qed.

Lemma contents_fit_iff n cs :
  contents_fit n cs = inr () ↔
  n + sum_by (λ c, Z.of_nat (byteLength c)) cs ≤ MAX_LOCAL_BRANCH_REQUEST_CANDIDATE_BYTES ∨ cs = [].
Proof.
  revert n. induction cs as [|c cs IH]; intros n; simpl; [naive_solver|].
  assert (∀ l, 0 ≤ sum_by (λ c, Z.of_nat (byteLength c)) l) as Hn by (intros; apply sum_by_nonneg; lia).
  rewrite bind_inr. split.
  - intros (u & Hc%check_inr & H%IH). guards. apply Z.ltb_ge in Hc. left. destruct H as [H| ->]; [lia|]. simpl. lia.
  - intros [H|[=]]. exists (). rewrite check_inr, negb_true_iff, Z.ltb_ge. specialize (Hn cs). split; [lia|].
    apply IH. left. lia.
Qed.

(** The text a candidate is hashed and compared by determines its messages: no
    content, however it is quoted, can stand for another list of roles and contents. *)
Theorem candidate_injective ms ms' json :
  providerNeutralCandidateJson ms = inr json → providerNeutralCandidateJson ms' = inr json → ms = ms'.
Proof.
  unfold providerNeutralCandidateJson. intros (u & _ & H)%bind_inr (u' & _ & H')%bind_inr.
  apply (inj inr) in H, H'. rewrite <-H' in H. unfold candidate_text in H. do 9 apply app_inv_head in H.
  exact (messages_split ms ms' [125] [125] H).
Qed.

(** What the request of a branch is made of. *)
Lemma build_request_iff {graph : ContextGraphStore} sha256_hex id m ms req :
  buildMaterializedLocalBranchRequest sha256_hex id (m :: ms) false = inr req ↔
  let text := candidate_text (m :: ms) in
  sum_by (λ c, Z.of_nat (byteLength c)) (map snd (m :: ms)) ≤ MAX_LOCAL_BRANCH_REQUEST_CANDIDATE_BYTES
  ∧ Z.of_nat (byteLength text) ≤ MAX_LOCAL_BRANCH_REQUEST_CANDIDATE_BYTES
  ∧ req = mkRequest id (m :: ms) text (sha256_hex (utf8_encode text)) (Z.of_nat (byteLength text)) false.
Proof.
  unfold buildMaterializedLocalBranchRequest, providerNeutralCandidateJson. cbv zeta. split.
  - intros (json & ([] & Hf & Hj)%bind_inr & (u' & Hc%check_inr & Hr)%bind_inr)%bind_inr.
    apply contents_fit_iff in Hf.
    apply (inj inr) in Hj as <-. apply (inj inr) in Hr as <-. apply negb_true_iff, Z.ltb_ge in Hc.
    destruct Hf as [Hf|[=]]. split_and!; [lia|done|done].
  - intros (Hf & Hc & ->). apply bind_inr. exists (candidate_text (m :: ms)). split.
    + apply bind_inr. exists (). split; [|done]. apply contents_fit_iff. left. lia.
    + apply bind_inr. exists (). split; [|done]. by apply check_inr, negb_true_iff, Z.ltb_ge.
Qed.

(** C40. A branch sees its own world only.  Its request is built exactly when the
    view is stored; its three generations are positive safe integers; every layer it
    lists is stored, is of the generations asked for, and is either the runtime
    contract with the visibility of the global contract, the identity or the
    integrated self with the visibility of the integrated self, both belonging to no
    world, or the policy of this world - so never a private, candidate or legacy
    layer; the kinds of the layers, in their order, are the contract, then the
    identity or the integrated self or both, then at most the policy; every message
    it lists is a stored projection of this world and of the generation asked for,
    from a stored event of this world, with the sequence numbers of the events rising from 0 on;
    and neither the contents together nor the candidate text exceed the limit of
    bytes.  The request then is exactly: the id of the view, the messages - the
    contents of the layers joined as the system message, then the role and content of
    each projection in order - their candidate text, its digest and its size. *)
Theorem branch_request_exact (graph : ContextGraphStore) sha256_hex viewId req :
  materializeLocalBranchRequest sha256_hex viewId = inr req ↔
  ∃ v ls ms,
    let msgs := (system, join [] (map sl_content ls))
                :: map (λ m, (role (wm_message m), content (wm_message m))) ms in
    let text := candidate_text msgs in
    getLocalBranchRequestView viewId = Some v
    ∧ Forall (λ n, positive_safe n = true)
        [rv_systemRendererGeneration v; rv_policyGeneration v; rv_messageRendererGeneration v]
    ∧ Forall2 (λ id l, getSystemLayerProjection id = Some l) (rv_layerIds v) ls
    ∧ Forall (λ l, of_generation (rv_systemRendererGeneration v) (rv_policyGeneration v) l
                   ∧ visible_layer (rv_worldId v) l) ls
    ∧ map sl_kind ls ∈ PROMPTS
    ∧ Forall2 (from_event (rv_worldId v) (rv_messageRendererGeneration v)) (rv_projectionIds v) ms
    ∧ rising (-1) (map wm_sequence ms)
    ∧ sum_by (λ c, Z.of_nat (byteLength c)) (map snd msgs) ≤ MAX_LOCAL_BRANCH_REQUEST_CANDIDATE_BYTES
    ∧ Z.of_nat (byteLength text) ≤ MAX_LOCAL_BRANCH_REQUEST_CANDIDATE_BYTES
    ∧ req = mkRequest (rv_id v) msgs text (sha256_hex (utf8_encode text)) (Z.of_nat (byteLength text)) false.
Proof.
  unfold materializeLocalBranchRequest. split.
  - destruct (getLocalBranchRequestView viewId) as [v|] eqn:Hv; [|done].
    intros (sys & (Hr & Hp & ls & L1 & L2 & L3 & ->)%system_prompt_iff & H)%bind_inr.
    apply bind_inr in H as (ms & (u & Hg%check_inr & Hm)%bind_inr & H).
    apply world_messages_exact in Hm as [M1 M2]; [|by intros ? ? ?%elem_of_nil].
    apply build_request_iff in H as (B1 & B2 & B3).
    exists v, ls, ms. cbv zeta. split_and!; try done. by repeat constructor.
  - intros (v & ls & ms & Hv & Hgen & L1 & L2 & L3 & M1 & M2 & B1 & B2 & B3). rewrite Hv.
    inversion Hgen as [|? ? G1 Hgen1]; subst. inversion Hgen1 as [|? ? G2 Hgen2]; subst.
    inversion Hgen2 as [|? ? G3 _]; subst.
    apply bind_inr. eexists. split; [apply system_prompt_iff; split_and!; [done..|]; by exists ls|].
    apply bind_inr. exists ms. split; [|by apply build_request_iff]. apply bind_inr. exists (). split; [by apply check_inr|].
    apply world_messages_exact; [by intros ? ? ?%elem_of_nil|done].
Qed.

Lemma candidate_injective_witness :
  let ms := [(system, lit "a"); (user, [34; 10; 0xD800])] in [(system, lit "a"); (user, [34; 10; 0xD800])] = ms.
Proof.
  apply (candidate_injective [(system, lit "a"); (user, [34; 10; 0xD800])]
           [(system, lit "a"); (user, [34; 10; 0xD800])] (candidate_text [(system, lit "a"); (user, [34; 10; 0xD800])]));
    vm_compute; reflexivity.
Defined.

(** A store with a contract, an identity, a policy of the world [world:a], a
    private layer, and one event. *)
Definition ex_layer (k : SystemLayerKind) (v : SystemLayerVisibility) (w : option jstring) (text : string)
    : SystemLayer := mkLayer k v w 1 1 (lit text).
Definition ex_store : ContextGraphStore := {|
  getSystemLayerProjection id :=
    if bool_decide (id = lit "c") then Some (ex_layer runtime_contract v_global_contract None "contract.")
    else if bool_decide (id = lit "i") then Some (ex_layer identity v_integrated_self None "self.")
    else if bool_decide (id = lit "p") then Some (ex_layer world_policy v_world (Some (lit "world:a")) "policy.")
    else if bool_decide (id = lit "x") then Some (ex_layer identity v_private_root None "private.")
    else None;
  getEventMessageProjection id :=
    if bool_decide (id = lit "m") then Some (mkProjection (lit "event:1") (lit "world:a") 1 (plain user (lit "hi")))
    else None;
  getWorldEvent id := if bool_decide (id = lit "event:1") then Some (mkEvent 7 (lit "world:a")) else None;
  getLocalBranchRequestView id :=
    if bool_decide (id = lit "v") then Some (mkView id (lit "world:a") 1 1 1 [lit "c"; lit "i"; lit "p"] [lit "m"])
    else if bool_decide (id = lit "other") then
      Some (mkView id (lit "world:b") 1 1 1 [lit "c"; lit "i"; lit "p"] [])
    else if bool_decide (id = lit "private") then Some (mkView id (lit "world:a") 1 1 1 [lit "c"; lit "x"] [])
    else None;
  getRequestViewBinding id := Some (lit "v");
|}.
Lemma ex_requests :
  (r ← materializeLocalBranchRequest (graph := ex_store) (λ _, "hash"%string) (lit "v"); mret (mr_messages r))
    = inr [(system, lit "contract.self.policy."); (user, lit "hi")]
  ∧ materializeLocalBranchRequest (graph := ex_store) (λ _, "hash"%string) (lit "other") = inl (LayerWorld (lit "p"))
  ∧ materializeLocalBranchRequest (graph := ex_store) (λ _, "hash"%string) (lit "private")
      = inl (LayerNotVisible (lit "x")).
Proof. split_and!; vm_compute; reflexivity. Qed.
