(* ===== verification/Wake.v ===== *)
(** * Wake decisions (src/discord/wake.ts)

    What an inbound message of a guild does: wake the agent, ride along until the
    next tick, or be dropped; whether the agent may send to the channel; and whether
    an ambient message counts towards a tick.  The local time of a guild comes from
    [Intl.DateTimeFormat] and is a parameter: hour and minute of an instant. *)

From S2P Require Import Prelude.
Local Open Scope Z_scope.
Local Open Scope list_scope.

Inductive ChannelMode := drop_mode | direct | social | quiet | mentions.
Inductive MuteType := mute | deafen.
Inductive WakeClass := wake | ambient | dropped.
Inductive SendDeniedBy := by_guild | by_channel | by_default.
Inductive PolicySource := from_channel | from_default.
#[export] Instance ChannelMode_eq_dec : EqDecision ChannelMode.
Proof. solve_decision. Defined.
#[export] Instance MuteType_eq_dec : EqDecision MuteType.
Proof. solve_decision. Defined.

(** The fields of [GuildConfig] that decisions read; [None] is an absent field. *)
Record GuildConfig := mkGuild {
  g_id : string;
  g_slug : string;
  quietHours : option (Z * Z);
  timezone : option string;
  defaultTier : option ChannelMode;
  allowSend : option bool;
  defaultAllowSend : option bool;
  channels : gmap string ChannelMode;
  channelAllowSend : option (gmap string bool);
}.

Record ChannelPolicy := mkPolicy {
  p_guild : GuildConfig;
  p_tier : ChannelMode;
  p_allowSend : bool;
  p_sendDeniedBy : option SendDeniedBy;
  p_source : PolicySource;
}.
Record GuildIndex := mkIndex {
  byChannel : gmap string ChannelPolicy;
  byGuildId : gmap string GuildConfig;
  bySlug : gmap string GuildConfig;
}.

Definition not_false (b : option bool) : bool := match b with Some false => false | _ => true end.
Definition policyFor (g : GuildConfig) (cid : string) (tier : ChannelMode) (source : PolicySource) : ChannelPolicy :=
  let guildAllows := not_false (allowSend g) in
  let localAllows := match source with
                     | from_channel => not_false (m ← channelAllowSend g; m !! cid)
                     | from_default => match defaultAllowSend g with Some b => b | None => false end
                     end in
  mkPolicy g tier (guildAllows && localAllows)
    (if negb guildAllows then Some by_guild
     else if localAllows then None
     else Some (match source with from_channel => by_channel | from_default => by_default end))
    source.

(** One guild enters the index; a later entry replaces an earlier one. *)
Definition add_guild (ix : GuildIndex) (g : GuildConfig) : GuildIndex :=
  mkIndex (map_imap (λ cid tier, Some (policyFor g cid tier from_channel)) (channels g) ∪ byChannel ix)
    (<[ g_id g := g ]> (byGuildId ix)) (<[ g_slug g := g ]> (bySlug ix)).
Definition buildGuildIndex (guilds : list GuildConfig) : GuildIndex :=
  foldl add_guild (mkIndex ∅ ∅ ∅) guilds.

(** [guildId] is falsy when it is absent or empty. *)
Definition truthy (s : option string) : option string :=
  match s with Some s => if String.eqb s "" then None else Some s | None => None end.
Definition resolveChannelPolicy (guildId : option string) (cid : string) (ix : GuildIndex) : option ChannelPolicy :=
  match byChannel ix !! cid with
  | Some explicit =>
      match truthy guildId with
      | Some gid => if String.eqb (g_id (p_guild explicit)) gid then Some explicit else None
      | None => Some explicit
      end
  | None =>
      gid ← truthy guildId;
      g ← byGuildId ix !! gid;
      Some (policyFor g cid (default drop_mode (defaultTier g)) from_default)
  end.

Record WakeInput := mkInput {
  i_guildId : string;
  i_channelId : string;
  authorIsBot : bool;
  mentionsMe : bool;
  replyToMe : bool;
}.

Definition classifyInbound (input : WakeInput) (ix : GuildIndex) (muteType : string → option MuteType) : WakeClass :=
  match resolveChannelPolicy (Some (i_guildId input)) (i_channelId input) ix with
  | None => dropped
  | Some policy =>
      if bool_decide (p_tier policy = drop_mode) then dropped
      else if bool_decide (muteType (i_channelId input) = Some deafen) then dropped
      else if authorIsBot input then ambient
      else if bool_decide (p_tier policy = direct) || mentionsMe input || replyToMe input then wake
      else ambient
  end.

Section clock.
Context (Date : Type) (local_time : option string → Date → Z * Z).

Definition inQuietHours (g : GuildConfig) (now : Date) : bool :=
  match quietHours g with
  | None => false
  | Some (start, stop) =>
      let '(h, m) := local_time (timezone g) now in
      let cur := h * 60 + m in
      if start <=? stop then (start <=? cur) && (cur <? stop) else (start <=? cur) || (cur <? stop)
  end.

Definition countsForTick (cid : string) (ix : GuildIndex) (muteType : string → option MuteType) (now : Date)
    (guildId : option string) : bool :=
  let gid := match guildId with Some g => Some g | None => (λ p, g_id (p_guild p)) <$> byChannel ix !! cid end in
  match resolveChannelPolicy gid cid ix with
  | None => false
  | Some policy =>
      match p_tier policy with
      | drop_mode | quiet | mentions => false
      | direct | social =>
          if bool_decide (muteType cid = None) then negb (inQuietHours (p_guild policy) now) else false
      end
  end.
End clock.

(** ** The index agrees with the configuration *)

(** What the configuration guarantees: guild ids differ and are not empty, and a
    channel is listed by one guild only. *)
Record valid_config (guilds : list GuildConfig) : Prop := {
  vc_ids : NoDup (map g_id guilds);
  vc_named : Forall (λ g, g_id g ≠ ""%string) guilds;
  vc_channels : ∀ g g' cid, g ∈ guilds → g' ∈ guilds → is_Some (channels g !! cid) → is_Some (channels g' !! cid) → g = g';
}.

Lemma byGuildId_iff guilds gid g :
  NoDup (map g_id guilds) →
  byGuildId (buildGuildIndex guilds) !! gid = Some g ↔ g ∈ guilds ∧ g_id g = gid.
Proof.
  unfold buildGuildIndex. induction guilds as [|h guilds IH] using rev_ind; intros Hn.
  { simpl. rewrite lookup_empty. split; [done|]. by intros [?%elem_of_nil _]. }
  rewrite foldl_snoc. simpl. rewrite map_app in Hn. apply NoDup_app in Hn as (Hn & Hd & _).
  rewrite elem_of_app, list_elem_of_singleton. destruct (decide (g_id h = gid)) as [<-|Hne].
  - rewrite lookup_insert_eq. split; [naive_solver|]. intros [[Hg| ->] He]; [|done].
    destruct (Hd (g_id g)); [by apply list_elem_of_fmap_2|]. simpl. rewrite He. by left.
  - rewrite lookup_insert_ne, IH by done. naive_solver.
Qed.
Lemma byChannel_iff guilds cid p :
  (∀ g g' cid, g ∈ guilds → g' ∈ guilds → is_Some (channels g !! cid) → is_Some (channels g' !! cid) → g = g') →
  byChannel (buildGuildIndex guilds) !! cid = Some p ↔
  ∃ g tier, g ∈ guilds ∧ channels g !! cid = Some tier ∧ p = policyFor g cid tier from_channel.
Proof.
  unfold buildGuildIndex. induction guilds as [|h guilds IH] using rev_ind; intros Hu.
  { simpl. rewrite lookup_empty. split; [done|]. by intros (g & t & ?%elem_of_nil & _). }
  rewrite foldl_snoc. simpl. rewrite lookup_union, map_lookup_imap.
  assert (byChannel (foldl add_guild (mkIndex ∅ ∅ ∅) guilds) !! cid = Some p ↔
          ∃ g tier, g ∈ guilds ∧ channels g !! cid = Some tier ∧ p = policyFor g cid tier from_channel) as IH'.
  { apply IH. intros g g' c Hg Hg'. apply Hu; set_solver. }
  destruct (channels h !! cid) as [t|] eqn:Ht; simpl.
  - rewrite union_Some_l. split.
    + intros [= <-]. exists h, t. split_and!; [set_solver|done|done].
    + intros (g & t' & Hg & Ht' & ->). assert (g = h) as ->.
      { apply (Hu g h cid); [done|set_solver|by eexists|by eexists]. }
      by replace t' with t by congruence.
  - rewrite (left_id_L None (∪)), IH'. split; intros (g & t & Hg & Ht' & ->).
    + exists g, t. split_and!; [set_solver|done|done].
    + apply elem_of_app in Hg as [Hg|Hg%list_elem_of_singleton]; [by exists g, t|subst; congruence].
Qed.

(** The policy the configuration gives a channel of a guild. *)
Inductive configured (guilds : list GuildConfig) (gid cid : string) : ChannelPolicy → Prop :=
  | listed g tier : g ∈ guilds → g_id g = gid → channels g !! cid = Some tier →
      configured guilds gid cid (policyFor g cid tier from_channel)
  | unlisted g : g ∈ guilds → g_id g = gid → (∀ g', g' ∈ guilds → channels g' !! cid = None) →
      configured guilds gid cid (policyFor g cid (default drop_mode (defaultTier g)) from_default).

Lemma resolve_exact guilds gid cid p :
  valid_config guilds → gid ≠ ""%string →
  resolveChannelPolicy (Some gid) cid (buildGuildIndex guilds) = Some p ↔ configured guilds gid cid p.
Proof.
  intros [Hids _ Hch] Hgid. unfold resolveChannelPolicy, truthy. rewrite (proj2 (String.eqb_neq gid "") Hgid).
  destruct (byChannel (buildGuildIndex guilds) !! cid) as [e|] eqn:He.
  - apply byChannel_iff in He as (g & tier & Hg & Ht & ->); [|done]. simpl.
    destruct (String.eqb_spec (g_id g) gid) as [Hid|Hid]; split.
    + intros [= <-]. by apply listed.
    + intros [g' t' Hg' _ Ht'|g' _ _ Hno]; [|by rewrite Hno in Ht].
      assert (g' = g) as -> by (apply (Hch g' g cid); by eauto). by replace t' with tier by congruence.
    + done.
    + intros [g' t' Hg' Hid' Ht'|g' _ _ Hno]; [|by rewrite Hno in Ht].
      assert (g' = g) as -> by (apply (Hch g' g cid); by eauto). done.
  - assert (∀ g', g' ∈ guilds → channels g' !! cid = None) as Hno.
    { intros g' Hg'. destruct (channels g' !! cid) as [t|] eqn:Ht; [|done].
      assert (byChannel (buildGuildIndex guilds) !! cid = Some (policyFor g' cid t from_channel)); [|congruence].
      apply byChannel_iff; [done|]. eauto. }
    simpl. destruct (byGuildId (buildGuildIndex guilds) !! gid) as [g|] eqn:Hg; simpl; split; try done.
    + intros [= <-]. apply byGuildId_iff in Hg as [Hg Hid]; [|done]. by apply unlisted.
    + apply byGuildId_iff in Hg as [Hg Hid]; [|done].
      intros [g' t' Hg' _ Ht'|g' Hg' Hid' _]; [by rewrite Hno in Ht'|].
      assert (byGuildId (buildGuildIndex guilds) !! gid = Some g) as H1 by by apply byGuildId_iff.
      assert (byGuildId (buildGuildIndex guilds) !! gid = Some g') as H2 by by apply byGuildId_iff. congruence.
    + intros [g' t' Hg' _ Ht'|g' Hg' Hid' _]; [by rewrite Hno in Ht'|].
      assert (byGuildId (buildGuildIndex guilds) !! gid = Some g') by by apply byGuildId_iff. congruence.
Qed.

(** The day as a circle of minutes: inside the window means less time has passed
    since its start than the window lasts.  A window that starts when it ends is
    empty. *)
Theorem quiet_hours_wrap (Date : Type) local_time g (now : Date) start stop h m :
  quietHours g = Some (start, stop) → local_time (timezone g) now = (h, m) →
  0 ≤ start < 1440 → 0 ≤ stop < 1440 → 0 ≤ h < 24 → 0 ≤ m < 60 →
  inQuietHours Date local_time g now = ((h * 60 + m - start) mod 1440 <? (stop - start) mod 1440).
Proof.
  intros Hq Ht Hs He Hh Hm. unfold inQuietHours. rewrite Hq, Ht. set (cur := h * 60 + m).
  assert (0 ≤ cur < 1440) by lia. apply eq_true_iff_eq.
  assert (∀ x, -1440 < x < 1440 → x mod 1440 = if x <? 0 then x + 1440 else x) as Hmod.
  { intros x Hx. destruct (Z.ltb_spec x 0); [|by rewrite Z.mod_small by lia].
    rewrite <-(Z.mod_add x 1 1440), Z.mod_small by lia. lia. }
  rewrite !Hmod by lia. destruct (Z.leb_spec start stop), (Z.ltb_spec (cur - start) 0), (Z.ltb_spec (stop - start) 0);
    rewrite ?andb_true_iff, ?orb_true_iff, ?Z.leb_le, ?Z.ltb_lt; lia.
Qed.

(** The decision is the configured one: with the policy the configuration gives
    the channel (its own entry in the guild the message came from, or that guild's
    default when no guild lists it), a message is dropped without a policy, with tier
    drop or in a deafened channel; otherwise a bot's message is ambient, a message
    that addresses the agent wakes it, and any other is ambient - also in a muted
    channel. *)
Theorem wake_exact guilds input muteType :
  valid_config guilds → i_guildId input ≠ ""%string →
  let addressed t := t = direct ∨ mentionsMe input = true ∨ replyToMe input = true in
  let heard t := t ≠ drop_mode ∧ muteType (i_channelId input) ≠ Some deafen in
  (classifyInbound input (buildGuildIndex guilds) muteType = wake ↔
     ∃ p, configured guilds (i_guildId input) (i_channelId input) p ∧ heard (p_tier p)
          ∧ authorIsBot input = false ∧ addressed (p_tier p))
  ∧ (classifyInbound input (buildGuildIndex guilds) muteType = ambient ↔
     ∃ p, configured guilds (i_guildId input) (i_channelId input) p ∧ heard (p_tier p)
          ∧ (authorIsBot input = true ∨ ¬ addressed (p_tier p))).
Proof.
  intros Hv Hg addressed heard. unfold classifyInbound.
  destruct (resolveChannelPolicy (Some (i_guildId input)) (i_channelId input) (buildGuildIndex guilds)) as [p|] eqn:Hp.
  - pose proof Hp as Hc%resolve_exact; [|done..].
    assert (∀ p', configured guilds (i_guildId input) (i_channelId input) p' → p' = p) as Hu.
    { intros p' Hc'%resolve_exact; [congruence|done..]. }
    subst addressed heard. simpl.
    destruct (decide (p_tier p = drop_mode)) as [Hd|Hd]; [rewrite bool_decide_true by done|rewrite bool_decide_false by done].
    { split; split; try done; intros (p' & ->%Hu & [? _] & _); done. }
    destruct (decide (muteType (i_channelId input) = Some deafen)) as [Hm|Hm];
      [rewrite bool_decide_true by done|rewrite bool_decide_false by done].
    { split; split; try done; intros (p' & _ & [_ ?] & _); done. }
    destruct (authorIsBot input).
    { split; split; try done; [intros (p' & _ & _ & [=] & _)|intros _; exists p; auto]. }
    destruct (bool_decide (p_tier p = direct) || mentionsMe input || replyToMe input) eqn:Ha.
    + rewrite !orb_true_iff, bool_decide_eq_true in Ha. split; split; try done.
      * intros _. exists p. split_and!; tauto.
      * intros (p' & ->%Hu & _ & [[=]|Hn]). tauto.
    + rewrite !orb_false_iff, bool_decide_eq_false in Ha. destruct Ha as [[Ha1 Ha2] Ha3]. split; split; try done.
      * intros (p' & ->%Hu & _ & _ & [?|[?|?]]); congruence.
      * intros _. exists p. split_and!; try tauto. right. intros [?|[?|?]]; congruence.
  - assert (∀ p', ¬ configured guilds (i_guildId input) (i_channelId input) p') as Hno.
    { intros p' Hc%resolve_exact; [congruence|done..]. }
    split; split; try done; intros (p' & Hc & _); by apply Hno in Hc.
Qed.

(** An ambient message counts towards the tick exactly in a direct or social channel
    that is neither muted nor in its guild's quiet hours. *)
Lemma tick_exact (Date : Type) local_time guilds gid cid muteType (now : Date) :
  valid_config guilds → gid ≠ ""%string →
  countsForTick Date local_time cid (buildGuildIndex guilds) muteType now (Some gid) = true ↔
  ∃ p, configured guilds gid cid p ∧ (p_tier p = direct ∨ p_tier p = social) ∧ muteType cid = None
       ∧ inQuietHours Date local_time (p_guild p) now = false.
Proof.
  intros Hv Hg. unfold countsForTick.
  destruct (resolveChannelPolicy (Some gid) cid (buildGuildIndex guilds)) as [p|] eqn:Hp.
  - assert (∀ p', configured guilds gid cid p' ↔ p' = p) as Hu.
    { intros p'. rewrite <-resolve_exact by done. rewrite Hp. split; congruence. }
    setoid_rewrite Hu. split.
    + intros H. exists p. destruct (p_tier p); try done; case_bool_decide; try done; guards; auto.
    + intros (p' & -> & Ht & Hm & Hq). rewrite bool_decide_true, Hq by done. by destruct Ht as [->| ->].
  - split; [done|]. intros (p & Hc & _). apply resolve_exact in Hc; [congruence|done..].
Qed.

Definition ex_guild : GuildConfig :=
  mkGuild "g1" "home" (Some (1320, 480)) None (Some social) None None {[ "c1"%string := direct ]} None.
Lemma ex_config : valid_config [ex_guild].
Proof.
  split.
  - apply NoDup_singleton.
  - by repeat constructor.
  - intros g g' cid ->%list_elem_of_singleton ->%list_elem_of_singleton. done.
Qed.
Lemma wake_exact_witness :
  classifyInbound (mkInput "g1" "c1" false false false) (buildGuildIndex [ex_guild]) (λ _, Some mute) = wake.
Proof.
  apply (wake_exact [ex_guild] (mkInput "g1" "c1" false false false) (λ _, Some mute)); [exact ex_config|done|].
  exists (policyFor ex_guild "c1" direct from_channel). split_and!; try done; [|by left].
  apply listed; [by left|done|reflexivity].
Defined.
