(* ===== verification/LlmBroker.v ===== *)
(** * The OAuth grants of the language-model broker (packages/gateway/src/llm-broker.ts)

    The Gateway dispatches requests of residents to providers of language models, with
    grants of the operator it keeps in a table: an access token that expires, and a
    refresh token that is spent when it is used.  Many dispatches share a grant.  This
    file models how a dispatch comes by the token it presents, how a grant is renewed
    once for all of them, and how the broker is drained.

    Promises are tasks: a refresh waits for its provider, then for its [finally]; a
    dispatch waits for a token, a response or a refresh; they go on in any order, with
    aborts, writes of other connections and the drain in between.  The authorization of
    a request is given with the event: which row of the table it found. *)

From S2P Require Import Prelude Protocol JsString JsText Envelope EnvelopeTheorems BranchView.
Local Open Scope string_scope.
Local Open Scope list_scope.
Local Open Scope Z_scope.

(** ** Credentials *)

Inductive LlmProxyProviderType := openai_compatible | anthropic_oauth | codex_oauth.
#[export] Instance provider_type_eq : EqDecision LlmProxyProviderType.
Proof. solve_decision. Defined.

Record Identity := mkIdentity {
  accountId : option string;
  email : option string;
  orgId : option string;
  orgName : option string;
  authorizedAt : option Z;
}.
Record OAuthCredentials := mkCredentials { access : jstring; refresh : jstring; expires : Z; identity : Identity }.
Definition no_identity : Identity := mkIdentity None None None None None.

Definition nonneg_safe (z : Z) : bool := (0 <=? z) && (z <=? MAX_SAFE_INTEGER).
(** [identityFields]: [None] refuses. *)
Fixpoint identity_from (fields : list (string * json)) (r : Identity) : option Identity :=
  match fields with
  | [] => Some r
  | (key, v) :: fields =>
      if negb (bool_decide (key ∈ ["accountId"; "email"; "orgId"; "orgName"; "authorizedAt"])) then None
      else
        match v with
        | JNull => identity_from fields r
        | _ =>
            if String.eqb key "authorizedAt" then
              z ← safe_integer v;
              if z <? 0 then None
              else identity_from fields (mkIdentity (accountId r) (email r) (orgId r) (orgName r) (Some z))
            else
              match v with
              | JStr s =>
                  identity_from fields
                    (if String.eqb key "accountId" then mkIdentity (Some s) (email r) (orgId r) (orgName r) (authorizedAt r)
                     else if String.eqb key "email" then mkIdentity (accountId r) (Some s) (orgId r) (orgName r) (authorizedAt r)
                     else if String.eqb key "orgId" then mkIdentity (accountId r) (email r) (Some s) (orgName r) (authorizedAt r)
                     else mkIdentity (accountId r) (email r) (orgId r) (Some s) (authorizedAt r))
              | _ => None
              end
        end
  end.
Definition identityFields (v : json) : option Identity :=
  match v with JObj fields => identity_from fields no_identity | _ => None end.

Definition MAX_OAUTH_SECRET_LENGTH : nat := 131072.
Definition MAX_OAUTH_IDENTITY_LENGTH : nat := 4096.
Definition utf16 (s : string) : jstring := utf8_decode (lit s).
Definition requiredSecret (s : jstring) : bool := negb (Nat.eqb (length s) 0) && Nat.leb (length s) MAX_OAUTH_SECRET_LENGTH.
Definition optionalIdentity (v : option string) : bool :=
  match v with None => true | Some s => Nat.leb (length (utf16 s)) MAX_OAUTH_IDENTITY_LENGTH end.
(** Of a value with the fields of a credential and no others. *)
Definition validateOAuthCredentials (c : OAuthCredentials) : option OAuthCredentials :=
  let i := identity c in
  if requiredSecret (access c) && requiredSecret (refresh c) && nonneg_safe (expires c)
     && optionalIdentity (accountId i) && optionalIdentity (email i) && optionalIdentity (orgId i) && optionalIdentity (orgName i)
     && match authorizedAt i with None => true | Some z => nonneg_safe z end
  then Some c else None.
Definition agrees `{EqDecision A} (reported expected : option A) : bool :=
  match reported with None => true | Some _ => bool_decide (reported = expected) end.
Definition refreshCredentials (authorized refreshed : OAuthCredentials) : option OAuthCredentials :=
  candidate ← validateOAuthCredentials refreshed;
  let r := identity candidate in
  let e := identity authorized in
  if agrees (accountId r) (accountId e) && agrees (email r) (email e) && agrees (orgId r) (orgId e)
     && agrees (orgName r) (orgName e) && agrees (authorizedAt r) (authorizedAt e)
  then validateOAuthCredentials (mkCredentials (access candidate) (refresh candidate) (expires candidate) e)
  else None.

(** ** The table of credentials *)

Inductive Secret := ApiKey (api_key : list Z) | OAuth (oauth_access oauth_refresh : list Z) (oauth_expires : Z).
Record row := mkRow {
  provider_type : LlmProxyProviderType;
  account_identity : json;
  row_secret : Secret;
  oauth_secret_revision : Z;
  updated_at : Z;
}.
Definition is_oauth (s : Secret) : bool := match s with OAuth _ _ _ => true | ApiKey _ => false end.
(** The constraints on a row. *)
Definition blob_ok (l : list Z) : bool := Nat.leb 1 (length l) && Nat.leb (length l) 131072.
Definition row_check (r : row) : bool :=
  nonneg_safe (oauth_secret_revision r)
  && match row_secret r with
     | ApiKey k => bool_decide (provider_type r = openai_compatible) && blob_ok k && (oauth_secret_revision r =? 0)
     | OAuth a f e => negb (bool_decide (provider_type r = openai_compatible)) && blob_ok a && blob_ok f && nonneg_safe e
     end.
(** [secret]: [fatalUtf8.decode] refuses what does not encode back to the bytes. *)
Definition secret (blob : list Z) : option jstring :=
  let s := utf8_decode blob in
  if Nat.leb 1 (length blob) && bool_decide (utf8_encode s = blob) then Some s else None.

Record OAuthSnapshot := mkSnapshot {
  credentialId : jstring;
  providerType : LlmProxyProviderType;
  secretRevision : Z;
  credentials : OAuthCredentials;
}.
Definition oauthCredentialsFromRow (r : row) : option OAuthCredentials :=
  match row_secret r with
  | ApiKey _ => None
  | OAuth a f e =>
      a ← secret a;
      f ← secret f;
      if Z.abs e <=? MAX_SAFE_INTEGER then i ← identityFields (account_identity r); Some (mkCredentials a f e i) else None
  end.
Definition oauthSnapshotFromRow (cid : jstring) (r : row) : option OAuthSnapshot :=
  if Z.abs (oauth_secret_revision r) <=? MAX_SAFE_INTEGER then
    c ← oauthCredentialsFromRow r;
    Some (mkSnapshot cid (provider_type r) (oauth_secret_revision r) c)
  else None.

(** *** [refreshOAuthCredential] of the provider store *)

(** [/\p{Cf}/u] on a code point. *)
Definition is_cf (c : Z) : bool :=
  bool_decide (c ∈ [0xAD; 0x61C; 0x6DD; 0x70F; 0x8E2; 0x180E; 0xFEFF; 0x110BD; 0x110CD; 0xE0001])
  || existsb (λ '(lo, hi), (lo <=? c) && (c <=? hi))
       [(0x600, 0x605); (0x890, 0x891); (0x200B, 0x200F); (0x202A, 0x202E); (0x2060, 0x2064); (0x2066, 0x206F); (0xFFF9, 0xFFFB);
        (0x13430, 0x1343F); (0x1BCA0, 0x1BCA3); (0x1D173, 0x1D17A); (0xE0020, 0xE007F)].
Definition is_cc (c : Z) : bool := (c <=? 31) || (127 <=? c) && (c <=? 159).
Fixpoint code_points (s : jstring) : list Z :=
  match s with
  | [] => []
  | u :: s =>
      match s with
      | v :: s' => if is_high u && is_low v then (0x10000 + (u - 0xD800) * 1024 + (v - 0xDC00)) :: code_points s' else u :: code_points s
      | [] => [u]
      end
  end.
Definition MAX_SECRET_BYTES : nat := 131072.
Definition secretBytes (s : jstring) : option (list Z) :=
  if Nat.ltb (length s) 1 || Nat.ltb MAX_SECRET_BYTES (byteLength s)
     || existsb (λ c, is_space c || is_cc c || is_cf c) (code_points s)
  then None else Some (utf8_encode s).
(** [/^epc1\.[A-Za-z0-9_-]{22}$/] with a canonical last digit. *)
Definition is_id_unit (u : Z) : bool :=
  (65 <=? u) && (u <=? 90) || (97 <=? u) && (u <=? 122) || (48 <=? u) && (u <=? 57) || (u =? 95) || (u =? 45).
Definition valid_credential_id (cid : jstring) : bool :=
  startsWith (lit "epc1.") cid && Nat.eqb (length cid) 27 && forallb is_id_unit (drop 5 cid)
  && match last cid with Some u => bool_decide (u ∈ lit "AQgw") | None => false end.
(** [at_]: what the clock gives; [commits]: whether audit, hardening and commit
    succeed.  The result is the revision of the receipt. *)
Definition refreshOAuthCredential (at_ : option Z) (commits : bool) (cid : jstring) (expected : Z) (c : OAuthCredentials)
    (table : gmap jstring row) : option (Z * row) :=
  if negb (valid_credential_id cid && nonneg_safe expected) then None
  else
    a ← secretBytes (access c);
    f ← secretBytes (refresh c);
    if negb (nonneg_safe (expires c)) then None
    else
      at_ ← at_;
      if negb (nonneg_safe at_) then None
      else
        r ← table !! cid;
        if is_oauth (row_secret r) && (oauth_secret_revision r =? expected) then
          let r' := mkRow (provider_type r) (account_identity r) (OAuth a f (expires c)) (expected + 1) at_ in
          if row_check r' && (updated_at r <=? at_) && commits then Some (expected + 1, r') else None
        else None.

(** ** The broker *)

(** A refresh: it waits for its provider, has its result, or has settled. *)
Inductive phase := Asking | Resulted (r : option OAuthSnapshot) | Settled (r : option OAuthSnapshot).
Record flight := mkFlight { fl_snapshot : OAuthSnapshot; fl_phase : phase }.
(** What a caller of [#refreshOAuth] has: the promise of a refresh or a rejection. *)
Inductive wait := Joined (p : nat) | Rejected.

Inductive outcome := Exchange (status : Z) | Aborted | Failed | Refused.
(** Where a dispatch waits: for its body or key to be read, for the token of its first
    or second attempt (with the refresh it needs), for a response, for the refresh a 401
    demands. *)
Inductive pc :=
  | Preparing
  | AwaitToken (second : bool) (w : option wait)
  | AwaitResponse (second : bool)
  | AwaitForce (w : wait)
  | Over (o : outcome).
(** [DispatchOAuthCredentialSource], or the key. *)
Inductive source := Key (apiKey : jstring) | Grant (current : OAuthSnapshot).
Record dispatch := mkDispatch {
  d_credential : jstring;
  d_source : source;
  d_aborted : bool;
  d_active : bool;
  d_pc : pc;
}.

Inductive action :=
  | Wrote (cid : jstring) (revision : Z) (s : Secret)
  | Asked (cid : jstring) (revision : Z) (refreshToken : jstring)
  | Renewed (cid : jstring) (revision : Z)
  | Fell (cid : jstring) (revision : Z)
  | Authorized (d : nat) (cid : jstring)
  | Presented (d : nat) (cid : jstring) (token : jstring).
Record broker := mkBroker {
  table : gmap jstring row;
  refreshes : gmap jstring nat;
  flights : gmap nat flight;
  next_flight : nat;
  dispatches : gmap nat dispatch;
  draining : bool;
  log : list action;
}.
Definition new_broker : broker := mkBroker ∅ ∅ ∅ 0 ∅ false [].
Definition write_row cid (r : row) (b : broker) : broker :=
  mkBroker (<[ cid := r ]> (table b)) (refreshes b) (flights b) (next_flight b) (dispatches b) (draining b)
    (log b ++ [Wrote cid (oauth_secret_revision r) (row_secret r)]).
Definition set_refreshes m (b : broker) : broker :=
  mkBroker (table b) m (flights b) (next_flight b) (dispatches b) (draining b) (log b).
Definition set_flight p (f : flight) (b : broker) : broker :=
  mkBroker (table b) (refreshes b) (<[ p := f ]> (flights b)) (next_flight b) (dispatches b) (draining b) (log b).
Definition set_dispatch d (x : dispatch) (b : broker) : broker :=
  mkBroker (table b) (refreshes b) (flights b) (next_flight b) (<[ d := x ]> (dispatches b)) (draining b) (log b).
Definition set_draining (b : broker) : broker :=
  mkBroker (table b) (refreshes b) (flights b) (next_flight b) (dispatches b) true (log b).
Definition logged a (b : broker) : broker :=
  mkBroker (table b) (refreshes b) (flights b) (next_flight b) (dispatches b) (draining b) (log b ++ [a]).
Definition go_on (x : dispatch) (src : source) (c : pc) : dispatch := mkDispatch (d_credential x) src (d_aborted x) (d_active x) c.

(** *** Refreshing *)

Definition key_of (cid : jstring) (revision : Z) : jstring := cid ++ [58] ++ integer revision.
Arguments key_of : simpl never.
Definition refreshKey (s : OAuthSnapshot) : jstring := key_of (credentialId s) (secretRevision s).
Definition readOAuthRevision (cid : jstring) (ty : LlmProxyProviderType) (b : broker) : option Z :=
  r ← table b !! cid;
  if bool_decide (provider_type r = ty) && is_oauth (row_secret r) && (Z.abs (oauth_secret_revision r) <=? MAX_SAFE_INTEGER)
  then Some (oauth_secret_revision r) else None.
Definition refreshOAuth (s : OAuthSnapshot) (b : broker) : wait * broker :=
  match refreshes b !! refreshKey s with
  | Some p => (Joined p, b)
  | None =>
      if draining b then (Rejected, b)
      else if negb (bool_decide (readOAuthRevision (credentialId s) (providerType s) b = Some (secretRevision s))) then (Rejected, b)
      else
        let p := next_flight b in
        (Joined p,
         mkBroker (table b) (<[ refreshKey s := p ]> (refreshes b)) (<[ p := mkFlight s Asking ]> (flights b)) (S p)
           (dispatches b) (draining b) (log b ++ [Asked (credentialId s) (secretRevision s) (refresh (credentials s))]))
  end.
(** The body of a refresh after its provider replied, and its [finally]. *)
Definition reply (p : nat) (fresh : option OAuthCredentials) (at_ : option Z) (commits : bool) (b : broker) : broker :=
  match flights b !! p with
  | Some (mkFlight s Asking) =>
      match
        (fresh ← fresh;
         c ← refreshCredentials (credentials s) fresh;
         '(rev, r) ← refreshOAuthCredential at_ commits (credentialId s) (secretRevision s) c (table b);
         Some (r, mkSnapshot (credentialId s) (providerType s) rev c))
      with
      | Some (r, s') =>
          logged (Renewed (credentialId s) (secretRevision s))
            (set_flight p (mkFlight s (Resulted (Some s'))) (write_row (credentialId s) r b))
      | None => logged (Fell (credentialId s) (secretRevision s)) (set_flight p (mkFlight s (Resulted None)) b)
      end
  | _ => b
  end.
Definition finally_ (p : nat) (b : broker) : broker :=
  match flights b !! p with
  | Some (mkFlight s (Resulted r)) =>
      set_flight p (mkFlight s (Settled r))
        (if bool_decide (refreshes b !! refreshKey s = Some p) then set_refreshes (delete (refreshKey s) (refreshes b)) b else b)
  | _ => b
  end.

(** *** Dispatching *)

Definition OAUTH_REFRESH_SKEW_MS : Z := 60000.
(** [getAccessToken], as far as its first [await]. *)
Definition getAccessToken (now : Z) (s : OAuthSnapshot) (b : broker) : option wait * broker :=
  if expires (credentials s) - OAUTH_REFRESH_SKEW_MS <=? now then let '(w, b) := refreshOAuth s b in (Some w, b) else (None, b).
(** What an awaited refresh gives; [None]: it has not settled. *)
Definition awaited (w : wait) (b : broker) : option (option OAuthSnapshot) :=
  match w with
  | Rejected => Some None
  | Joined p => match flights b !! p with Some (mkFlight _ (Settled r)) => Some r | _ => None end
  end.
(** [accessToken], [headerValue], [validateApiKey] *)
Definition header_ok (s : jstring) : bool :=
  negb (Nat.eqb (length s) 0) && Nat.leb (length s) 131072 && forallb (λ u, (0x21 <=? u) && (u <=? 0x7e)) s.
Definition sendable (s : OAuthSnapshot) : bool :=
  header_ok (access (credentials s))
  && match providerType s with
     | codex_oauth => match accountId (identity (credentials s)) with Some a => header_ok (utf16 a) | None => false end
     | _ => true
     end.
Definition ask_token (second : bool) (now : Z) (d : nat) (x : dispatch) (s : OAuthSnapshot) (b : broker) : broker :=
  let '(w, b) := getAccessToken now s b in set_dispatch d (go_on x (Grant s) (AwaitToken second w)) b.
Definition present (second : bool) (d : nat) (x : dispatch) (s : OAuthSnapshot) (b : broker) : broker :=
  if sendable s
  then logged (Presented d (d_credential x) (access (credentials s))) (set_dispatch d (go_on x (Grant s) (AwaitResponse second)) b)
  else set_dispatch d (go_on x (Grant s) (Over Failed)) b.

(** [dispatch] and [#dispatch] up to the first [await].  [auth]: the credential of the
    row that authorizes the request; [configured]: its base URL, the session and the
    payload are ones the transport takes. *)
Definition start (d : nat) (auth : option jstring) (configured aborted : bool) (now : Z) (b : broker) : broker :=
  match dispatches b !! d with
  | Some _ => b
  | None =>
      if draining b then b
      else
        let over cid o := set_dispatch d (mkDispatch cid (Key []) aborted true (Over o)) b in
        if aborted then over [] Aborted
        else
          match (cid ← auth; r ← table b !! cid; Some (cid, r)) with
          | None => over [] Refused
          | Some (cid, r) =>
              match provider_type r, row_secret r with
              | openai_compatible, ApiKey k =>
                  match secret k with
                  | Some key =>
                      if configured
                      then set_dispatch d (mkDispatch cid (Key key) false true Preparing) (logged (Authorized d cid) b)
                      else over cid Failed
                  | None => over cid Failed
                  end
              | openai_compatible, OAuth _ _ _ | anthropic_oauth, ApiKey _ | codex_oauth, ApiKey _ => over cid Refused
              | ty, OAuth _ _ _ =>
                  match oauthSnapshotFromRow cid r with
                  | Some s =>
                      if configured then
                        let x := mkDispatch cid (Grant s) false true Preparing in
                        let b := logged (Authorized d cid) b in
                        if bool_decide (ty = anthropic_oauth) then ask_token false now d x s b else set_dispatch d x b
                      else over cid Failed
                  | None => over cid Failed
                  end
              end
          end
  end.
(** A dispatch goes on after what it awaited. *)
Definition resume (d : nat) (now : Z) (b : broker) : broker :=
  match dispatches b !! d with
  | None => b
  | Some x =>
      match d_pc x, d_source x with
      | Preparing, Key k =>
          if header_ok k
          then logged (Presented d (d_credential x) k) (set_dispatch d (go_on x (Key k) (AwaitResponse false)) b)
          else set_dispatch d (go_on x (Key k) (Over Failed)) b
      | Preparing, Grant s => ask_token false now d x s b
      | AwaitToken second None, Grant s => present second d x s b
      | AwaitToken second (Some w), Grant s =>
          match awaited w b with
          | None => b
          | Some None => set_dispatch d (go_on x (Grant s) (Over Failed)) b
          | Some (Some s') => present second d x s' b
          end
      | AwaitForce w, Grant s =>
          match awaited w b with
          | None => b
          | Some None =>
              let o := match providerType s with anthropic_oauth => Exchange 401 | _ => Failed end in
              set_dispatch d (go_on x (Grant s) (Over o)) b
          | Some (Some s') => ask_token true now d x s' b
          end
      | _, _ => b
      end
  end.
(** The provider's response, or a failure of the request. *)
Definition respond (d : nat) (status : option Z) (b : broker) : broker :=
  match dispatches b !! d with
  | Some x =>
      match d_pc x with
      | AwaitResponse second =>
          match status with
          | None => set_dispatch d (go_on x (d_source x) (Over (if d_aborted x then Aborted else Failed))) b
          | Some st =>
              match d_source x with
              | Grant s =>
                  if negb second && (st =? 401) then
                    if d_aborted x then set_dispatch d (go_on x (Grant s) (Over Aborted)) b
                    else let '(w, b) := refreshOAuth s b in set_dispatch d (go_on x (Grant s) (AwaitForce w)) b
                  else set_dispatch d (go_on x (Grant s) (Over (Exchange st))) b
              | Key k => set_dispatch d (go_on x (Key k) (Over (Exchange st))) b
              end
          end
      | _ => b
      end
  | None => b
  end.
Definition abort (d : nat) (b : broker) : broker :=
  match dispatches b !! d with
  | Some x =>
      let c := match d_pc x with AwaitResponse _ | Over _ => d_pc x | _ => Over Aborted end in
      set_dispatch d (mkDispatch (d_credential x) (d_source x) true (d_active x) c) b
  | None => b
  end.
(** The handlers that take a settled dispatch out of [#activeDispatches]. *)
Definition unlist (d : nat) (b : broker) : broker :=
  match dispatches b !! d with
  | Some x =>
      match d_pc x with
      | Over o => set_dispatch d (mkDispatch (d_credential x) (d_source x) (d_aborted x) false (Over o)) b
      | _ => b
      end
  | None => b
  end.
(** [drain] returns when nothing is active and nothing is refreshed. *)
Definition drained (b : broker) : Prop :=
  (∀ d x, dispatches b !! d = Some x → d_active x = false) ∧ refreshes b = ∅.

(** ** Runs *)

Inductive event :=
  | Write (cid : jstring) (r : row)
  | Start (d : nat) (auth : option jstring) (configured aborted : bool) (now : Z)
  | Resume (d : nat) (now : Z)
  | Respond (d : nat) (status : option Z)
  | Signal (d : nat)
  | Unlist (d : nat)
  | Reply (p : nat) (fresh : option OAuthCredentials) (at_ : option Z) (commits : bool)
  | Finally (p : nat)
  | Drain.
(** Another connection writes what the table and its triggers admit; that the identity
    stays the same is not asked of it. *)
Definition admits (table : gmap jstring row) (cid : jstring) (r : row) : bool :=
  row_check r
  && match table !! cid with
     | None => true
     | Some old =>
         is_oauth (row_secret old) && is_oauth (row_secret r) && bool_decide (provider_type r = provider_type old)
         && (oauth_secret_revision r =? oauth_secret_revision old + 1) && (updated_at old <=? updated_at r)
     end.
Definition step (b : broker) (e : event) : broker :=
  match e with
  | Write cid r => if admits (table b) cid r then write_row cid r b else b
  | Start d auth configured aborted now => start d auth configured aborted now b
  | Resume d now => resume d now b
  | Respond d status => respond d status b
  | Signal d => abort d b
  | Unlist d => unlist d b
  | Reply p fresh at_ commits => reply p fresh at_ commits b
  | Finally p => finally_ p b
  | Drain => set_draining b
  end.
Definition run (es : list event) : broker := foldl step new_broker es.

(** ** Facts on keys *)

Lemma split_colon l1 l2 d1 d2 : l1 ++ 58 :: d1 = l2 ++ 58 :: d2 → 58 ∉ d1 → 58 ∉ d2 → l1 = l2 ∧ d1 = d2.
Proof.
  intros H H1 H2. apply app_eq_inv in H as [(k & -> & Hk)|(k & -> & Hk)].
  - destruct k as [|u k]; simplify_eq/=; [by rewrite app_nil_r|]. exfalso. apply H2. rewrite elem_of_app. right. by left.
  - destruct k as [|u k]; simplify_eq/=; [by rewrite app_nil_r|]. exfalso. apply H1. rewrite elem_of_app. right. by left.
Qed.
Lemma refreshKey_inj s s' : refreshKey s = refreshKey s' → credentialId s = credentialId s' ∧ secretRevision s = secretRevision s'.
Proof.
  assert (∀ z, 58 ∉ integer z) as Hz.
  { intros z Hz. pose proof (integer_numeral z) as Hn. rewrite Forall_forall in Hn. by destruct (Hn _ Hz). }
  intros H. apply split_colon in H as [? H]; [|apply Hz..]. split; [done|]. apply lit_inj in H. by apply (inj pretty) in H.
Qed.

(** ** What is kept *)

Definition count (f : action → bool) (l : list action) : nat := length (List.filter f l).
Definition same (c c' : jstring) (r r' : Z) : bool := bool_decide (c = c') && (r =? r').
Definition is_asked c r (a : action) : bool := match a with Asked c' r' _ => same c' c r' r | _ => false end.
Definition is_renewed c r (a : action) : bool := match a with Renewed c' r' => same c' c r' r | _ => false end.
Definition is_fell c r (a : action) : bool := match a with Fell c' r' => same c' c r' r | _ => false end.
Definition is_presented d (a : action) : bool := match a with Presented d' _ _ => Nat.eqb d' d | _ => false end.
Lemma tally_snoc f l a : count f (l ++ [a]) = (count f l + if f a then 1 else 0)%nat.
Proof. unfold count. rewrite List.filter_app, length_app. simpl. by destruct (f a). Qed.
Lemma same_true c c' r r' : same c c' r r' = true ↔ c = c' ∧ r = r'.
Proof. unfold same. rewrite andb_true_iff, bool_decide_eq_true, Z.eqb_eq. done. Qed.
Lemma renewed_in c r l : Renewed c r ∈ l → (1 ≤ count (is_renewed c r) l)%nat.
Proof.
  intros (l1 & l2 & ->)%list_elem_of_split. unfold count. rewrite List.filter_app, length_app. simpl.
  assert (same c c r r = true) as -> by by apply same_true. simpl. lia.
Qed.

(** A renewed revision is not asked for again; one that was asked for is asked for
    again only after that failed. *)
Definition fresh_action (l : list action) (a : action) : Prop :=
  match a with Asked c r _ | Renewed c r => Renewed c r ∉ l | _ => True end.
Definition ordered (l : list action) : Prop := ∀ l1 a l2, l = l1 ++ a :: l2 → fresh_action l1 a.
Definition spaced (l : list action) : Prop :=
  ∀ l1 c r, l1 `prefix_of` l → (count (is_asked c r) l1 ≤ count (is_fell c r) l1 + 1)%nat.
Lemma ordered_snoc l a : ordered l → fresh_action l a → ordered (l ++ [a]).
Proof.
  intros Hl Ha l1 x l2 H. destruct l2 as [|y l2 _] using rev_ind.
  - by apply app_inj_tail in H as [-> ->].
  - rewrite app_comm_cons, app_assoc in H. apply app_inj_tail in H as [-> _]. by eapply Hl.
Qed.
Lemma spaced_snoc l a :
  spaced l → (∀ c r, is_asked c r a = true → count (is_asked c r) l ≤ count (is_fell c r) l)%nat → spaced (l ++ [a]).
Proof.
  intros Hl Ha l1 c r [l2 Hp]. destruct l2 as [|x l2 _] using rev_ind.
  - rewrite app_nil_r in Hp. subst l1. rewrite !tally_snoc. specialize (Hl l c r ltac:(done)). specialize (Ha c r).
    destruct (is_asked c r a); [specialize (Ha eq_refl)|]; lia.
  - rewrite app_assoc in Hp. apply app_inj_tail in Hp as [-> _]. apply Hl. by exists l2.
Qed.

(** A snapshot whose tokens the table held. *)
Definition known (l : list action) (s : OAuthSnapshot) : Prop :=
  ∃ a f e, Wrote (credentialId s) (secretRevision s) (OAuth a f e) ∈ l
    ∧ utf8_encode (access (credentials s)) = a ∧ utf8_encode (refresh (credentials s)) = f.
Definition unsettled (f : flight) : bool := match fl_phase f with Settled _ => false | _ => true end.
Definition is_asking (f : flight) : bool := match fl_phase f with Asking => true | _ => false end.
Definition flight_result (f : flight) : option OAuthSnapshot := match fl_phase f with Asking => None | Resulted r | Settled r => r end.
Definition asking (b : broker) (c : jstring) (r : Z) : nat :=
  match refreshes b !! key_of c r with
  | Some p => match flights b !! p with Some f => if is_asking f then 1 else 0 | None => 0 end
  | None => 0
  end.
Record core (b : broker) : Prop := {
  i_next : ∀ p f, flights b !! p = Some f → (p < next_flight b)%nat;
  i_reg : ∀ k p, refreshes b !! k = Some p → ∃ f, flights b !! p = Some f ∧ k = refreshKey (fl_snapshot f) ∧ unsettled f = true;
  i_pend : ∀ p f, flights b !! p = Some f → unsettled f = true → refreshes b !! refreshKey (fl_snapshot f) = Some p;
  i_known : ∀ p f, flights b !! p = Some f → known (log b) (fl_snapshot f);
  i_result : ∀ p f s, flights b !! p = Some f → flight_result f = Some s → known (log b) s ∧ credentialId s = credentialId (fl_snapshot f);
  i_table : ∀ c r, table b !! c = Some r → Wrote c (oauth_secret_revision r) (row_secret r) ∈ log b;
  i_wrote : ∀ c r s, Wrote c r s ∈ log b → ∃ x, table b !! c = Some x ∧ r ≤ oauth_secret_revision x ∧ (r = oauth_secret_revision x → s = row_secret x);
  i_unique : ∀ c r s s', Wrote c r s ∈ log b → Wrote c r s' ∈ log b → s = s';
  i_renewed : ∀ c r, Renewed c r ∈ log b → ∃ x, table b !! c = Some x ∧ r < oauth_secret_revision x;
  i_ordered : ordered (log b);
  i_spaced : spaced (log b);
  i_count : ∀ c r, (count (is_asked c r) (log b) = count (is_fell c r) (log b) + count (is_renewed c r) (log b) + asking b c r)%nat;
  i_asks : ∀ c r t, Asked c r t ∈ log b → ∃ a f e, Wrote c r (OAuth a f e) ∈ log b ∧ utf8_encode t = f;
}.
(** Nothing that is known is taken back. *)
Record extends (b b' : broker) : Prop := {
  x_log : ∀ a, a ∈ log b → a ∈ log b';
  x_flights : ∀ p f, flights b !! p = Some f → ∃ f', flights b' !! p = Some f' ∧ fl_snapshot f' = fl_snapshot f;
}.
Lemma known_mono l l' s : (∀ a, a ∈ l → a ∈ l') → known l s → known l' s.
Proof. intros H (a & f & e & Hw & Ha & Hf). exists a, f, e. auto. Qed.
Lemma extends_refl b : extends b b.
Proof. split; eauto. Qed.
Lemma extends_trans b1 b2 b3 : extends b1 b2 → extends b2 b3 → extends b1 b3.
Proof.
  intros [A1 A2] [B1 B2]. split; [auto|]. intros p f Hf. destruct (A2 p f Hf) as (f' & Hf' & E1). destruct (B2 p f' Hf') as (f'' & Hf'' & E2).
  exists f''. split; [done|congruence].
Qed.

(** No dispatch is touched. *)
Record passive (b b' : broker) : Prop := {
  p_dispatches : dispatches b' = dispatches b;
  p_count : ∀ d, count (is_presented d) (log b') = count (is_presented d) (log b);
  p_log : ∀ d c t, Presented d c t ∈ log b' → Presented d c t ∈ log b;
}.
Lemma passive_refl b : passive b b.
Proof. by split. Qed.
Lemma passive_trans b1 b2 b3 : passive b1 b2 → passive b2 b3 → passive b1 b3.
Proof. intros [A1 A2 A3] [B1 B2 B3]. split; [congruence|intros d; by rewrite B2|eauto]. Qed.

(** *** Steps of the table and the refreshes *)

Lemma elem_of_snoc (x a : action) l : x ∈ l ++ [a] ↔ x ∈ l ∨ x = a.
Proof. rewrite elem_of_app, list_elem_of_singleton. done. Qed.
Lemma extends_snoc (a : action) l x : x ∈ l → x ∈ l ++ [a].
Proof. rewrite elem_of_snoc. by left. Qed.
Lemma core_same b b' :
  core b → table b' = table b → refreshes b' = refreshes b → flights b' = flights b → next_flight b' = next_flight b → log b' = log b → core b'.
Proof.
  intros [H1 H2 H3 H4 H5 H6 H7 H8 H9 H10 H11 H12 H13] Et Er Ef En El. split; rewrite ?Et, ?Er, ?Ef, ?En, ?El; try done.
  intros c r. rewrite (H12 c r). unfold asking. by rewrite Er, Ef.
Qed.
Lemma extends_same b b' : flights b' = flights b → log b' = log b → extends b b'.
Proof. intros Ef El. split; rewrite ?Ef, ?El; eauto. Qed.
Definition inert (a : action) : bool := match a with Authorized _ _ | Presented _ _ _ => true | _ => false end.
Lemma core_inert a b : core b → inert a = true → core (logged a b).
Proof.
  intros [H1 H2 H3 H4 H5 H6 H7 H8 H9 H10 H11 H12 H13] Ha.
  assert (∀ x, inert x = false → x ∈ log b ++ [a] → x ∈ log b) as Hold by (intros x Hx [?| ->]%elem_of_snoc; [done|congruence]).
  split; simpl; try done.
  - intros p f Hf. eapply known_mono; [apply extends_snoc|eauto].
  - intros p f s Hf Hr. destruct (H5 p f s Hf Hr). split; [|done]. eapply known_mono; [apply extends_snoc|eauto].
  - intros c r Hr. by apply extends_snoc, H6.
  - intros c r s Hw. apply H7. by apply Hold.
  - intros c r s s' Hw Hw'. apply (H8 c r); by apply Hold.
  - intros c r Hw. apply H9. by apply Hold.
  - apply ordered_snoc; [done|by destruct a].
  - apply spaced_snoc; [done|]. intros c r Hk. by destruct a.
  - intros c r. rewrite !tally_snoc. specialize (H12 c r). unfold asking in *. simpl. destruct a; simpl in *; try done; lia.
  - intros c r t Hk. apply Hold in Hk; [|done]. destruct (H13 c r t Hk) as (x & f & e & Hw & He). exists x, f, e. split; [by apply extends_snoc|done].
Qed.
Lemma passive_snoc b b' a :
  dispatches b' = dispatches b → log b' = log b ++ [a] → (match a with Presented _ _ _ => False | _ => True end) → passive b b'.
Proof.
  intros Hd Hl Ha. split; [done| |]; rewrite Hl.
  - intros d. rewrite tally_snoc. destruct a; try done; simpl; lia.
  - intros d c t [?|?]%elem_of_snoc; [done|by subst a].
Qed.
Lemma passive_write cid r b : passive b (write_row cid r b).
Proof. by eapply passive_snoc. Qed.
Lemma core_write cid r b :
  core b → (∀ x, table b !! cid = Some x → oauth_secret_revision x < oauth_secret_revision r) → core (write_row cid r b).
Proof.
  intros [H1 H2 H3 H4 H5 H6 H7 H8 H9 H10 H11 H12 H13] Hr.
  assert (∀ r' s, Wrote cid r' s ∈ log b → r' < oauth_secret_revision r) as Hlt.
  { intros r' s Hw. destruct (H7 _ _ _ Hw) as (x & Hx & Hle & _). specialize (Hr x Hx). lia. }
  split; simpl; try done.
  - intros p f Hf. eapply known_mono; [apply extends_snoc|eauto].
  - intros p f s Hf Hrs. destruct (H5 p f s Hf Hrs). split; [|done]. eapply known_mono; [apply extends_snoc|eauto].
  - intros c x Hx. apply elem_of_snoc. destruct (decide (c = cid)) as [->|Hne].
    + rewrite lookup_insert_eq in Hx. simplify_eq. by right.
    + rewrite lookup_insert_ne in Hx by done. left. by apply H6.
  - intros c r' s [Hw|Hw]%elem_of_snoc.
    + destruct (decide (c = cid)) as [->|Hne].
      * rewrite lookup_insert_eq. exists r. specialize (Hlt _ _ Hw). split_and!; [done|lia|lia].
      * rewrite lookup_insert_ne by done. eauto.
    + simplify_eq. rewrite lookup_insert_eq. exists r. split_and!; [done|lia|done].
  - intros c r' s s' [Hw|Hw]%elem_of_snoc [Hw'|Hw']%elem_of_snoc; simplify_eq; [by eapply H8| | |done].
    + specialize (Hlt _ _ Hw). lia.
    + specialize (Hlt _ _ Hw'). lia.
  - intros c r' [Hw|Hw]%elem_of_snoc; [|done]. destruct (H9 _ _ Hw) as (x & Hx & Hlt'). destruct (decide (c = cid)) as [->|Hne].
    + rewrite lookup_insert_eq. exists r. specialize (Hr x Hx). split; [done|lia].
    + rewrite lookup_insert_ne by done. eauto.
  - by apply ordered_snoc.
  - by apply spaced_snoc.
  - intros c r'. rewrite !tally_snoc. specialize (H12 c r'). unfold asking in *. simpl in *. lia.
  - intros c r' t [Hk|Hk]%elem_of_snoc; [|done]. destruct (H13 c r' t Hk) as (x & f & e & Hw & He). exists x, f, e.
    split; [by apply extends_snoc|done].
Qed.
(** A refresh has its result. *)
Lemma core_done p s res a b :
  core b → flights b !! p = Some (mkFlight s Asking) →
  (∀ s', res = Some s' → known (log b) s' ∧ credentialId s' = credentialId s) →
  (a = Fell (credentialId s) (secretRevision s)
   ∨ a = Renewed (credentialId s) (secretRevision s) ∧ Renewed (credentialId s) (secretRevision s) ∉ log b
     ∧ ∃ x, table b !! credentialId s = Some x ∧ secretRevision s < oauth_secret_revision x) →
  core (logged a (set_flight p (mkFlight s (Resulted res)) b)).
Proof.
  intros [H1 H2 H3 H4 H5 H6 H7 H8 H9 H10 H11 H12 H13] Hp Hres Ha.
  assert (∀ x, match x with Fell _ _ | Renewed _ _ => False | _ => True end → x ∈ log b ++ [a] → x ∈ log b) as Hold.
  { intros x Hx [?| ->]%elem_of_snoc; [done|]. by destruct Ha as [-> |(-> & _)]. }
  pose proof (H3 p _ Hp eq_refl) as Hreg. simpl in Hreg.
  split; simpl.
  - intros q f Hf. apply lookup_insert_Some in Hf as [[<- <-]|[? Hf]]; eauto.
  - intros k q Hk. destruct (H2 k q Hk) as (f & Hf & Hkf & Hu). destruct (decide (q = p)) as [->|Hne].
    + rewrite lookup_insert_eq. eexists. split_and!; [done| |done]. simpl. by simplify_eq.
    + rewrite lookup_insert_ne by done. eauto.
  - intros q f Hf Hu. apply lookup_insert_Some in Hf as [[<- <-]|[? Hf]]; eauto.
  - intros q f Hf. apply (known_mono (log b)); [apply extends_snoc|]. apply lookup_insert_Some in Hf as [[<- <-]|[? Hf]]; [|by eauto].
    by apply (H4 _ _ Hp).
  - intros q f s' Hf Hr. apply lookup_insert_Some in Hf as [[<- <-]|[? Hf]].
    + destruct (Hres s' Hr). split; [|done]. eapply known_mono; [apply extends_snoc|done].
    + destruct (H5 q f s' Hf Hr). split; [|done]. eapply known_mono; [apply extends_snoc|done].
  - intros c r Hr. by apply extends_snoc, H6.
  - intros c r s' Hw. apply H7. by apply Hold.
  - intros c r s1 s2 Hw Hw'. apply (H8 c r); by apply Hold.
  - intros c r [Hw|Hw]%elem_of_snoc; [by apply H9|]. destruct Ha as [-> |(-> & _ & x & Hx & Hlt)]; simplify_eq. eauto.
  - apply ordered_snoc; [done|]. by destruct Ha as [-> |(-> & ? & _)].
  - apply spaced_snoc; [done|]. intros c r Hk. by destruct Ha as [-> |(-> & _)].
  - intros c r. rewrite !tally_snoc. specialize (H12 c r). unfold asking in *. simpl.
    destruct (decide (c = credentialId s ∧ r = secretRevision s)) as [[-> ->]|Hne].
    + unfold refreshKey in Hreg. rewrite Hreg in *. rewrite lookup_insert_eq. rewrite Hp in H12. simpl in *.
      assert (same (credentialId s) (credentialId s) (secretRevision s) (secretRevision s) = true) as Hs by by apply same_true.
      destruct Ha as [-> |(-> & _)]; simpl; rewrite Hs; lia.
    + assert (same (credentialId s) c (secretRevision s) r = false) as Hs.
      { apply not_true_is_false. rewrite same_true. intros [? ?]. naive_solver. }
      assert (match refreshes b !! key_of c r with
              | Some q => match <[p:=mkFlight s (Resulted res)]> (flights b) !! q with Some f => if is_asking f then 1 else 0 | None => 0 end
              | None => 0 end
            = match refreshes b !! key_of c r with
              | Some q => match flights b !! q with Some f => if is_asking f then 1 else 0 | None => 0 end
              | None => 0 end)%nat as Eq.
      { destruct (refreshes b !! key_of c r) as [q|] eqn:Hq; [|done]. rewrite lookup_insert_ne; [done|]. intros <-.
        destruct (H2 _ _ Hq) as (f & Hf & Hk & _). rewrite Hp in Hf. simplify_eq/=.
        apply Hne. exact (refreshKey_inj (mkSnapshot c anthropic_oauth r (credentials s)) s Hk). }
      simpl in *. rewrite Eq. destruct Ha as [-> |(-> & _)]; simpl; rewrite Hs; lia.
  - intros c r t Hk. apply Hold in Hk; [|done]. destruct (H13 c r t Hk) as (x & f & e & Hw & He). exists x, f, e. split; [by apply extends_snoc|done].
Qed.
Lemma extends_flight p s ph ph' b : flights b !! p = Some (mkFlight s ph) → extends b (set_flight p (mkFlight s ph') b).
Proof.
  intros Hp. split; [done|]. intros q f Hf. simpl. destruct (decide (q = p)) as [->|Hne].
  - rewrite lookup_insert_eq. eexists. split; [done|]. by simplify_eq.
  - rewrite lookup_insert_ne by done. eauto.
Qed.
Lemma extends_logged a b : extends b (logged a b).
Proof. split; [intros x; apply extends_snoc|eauto]. Qed.
Lemma extends_write c r b : extends b (write_row c r b).
Proof. split; [intros x; apply extends_snoc|eauto]. Qed.

Lemma secretBytes_encodes s l : secretBytes s = Some l → l = utf8_encode s.
Proof. unfold secretBytes. destruct (_ || _); congruence. Qed.
Lemma renewed_row at_ commits c rev cr tab rev' r :
  refreshOAuthCredential at_ commits c rev cr tab = Some (rev', r) →
  rev' = rev + 1 ∧ oauth_secret_revision r = rev + 1 ∧ (∃ e, row_secret r = OAuth (utf8_encode (access cr)) (utf8_encode (refresh cr)) e)
  ∧ ∃ old, tab !! c = Some old ∧ oauth_secret_revision old = rev.
Proof.
  unfold refreshOAuthCredential. intros H. destruct (negb _); [done|].
  apply bind_Some in H as (a & ->%secretBytes_encodes & H). apply bind_Some in H as (f & ->%secretBytes_encodes & H).
  destruct (negb _); [done|]. destruct at_ as [at_|]; [|done]. simpl in H. destruct (negb _); [done|].
  destruct (tab !! c) as [old|]; [|done]. simpl in H. destruct (is_oauth (row_secret old) && _) eqn:Hc; [|done].
  destruct (_ && _ && _); simplify_eq/=. guards. split_and!; [done|done|eauto|]. exists old. split; [done|lia].
Qed.
Lemma core_reply p fresh at_ commits b : core b → core (reply p fresh at_ commits b) ∧ extends b (reply p fresh at_ commits b)
  ∧ passive b (reply p fresh at_ commits b).
Proof.
  intros Hc. unfold reply. destruct (flights b !! p) as [[s ph]|] eqn:Hp; [|split_and!; [done|apply extends_refl|apply passive_refl]].
  destruct ph; try (split_and!; [done|apply extends_refl|apply passive_refl]).
  destruct (fresh ≫= _) as [[r s']|] eqn:Hr.
  - destruct fresh as [fresh|]; [|done]. simpl in Hr. destruct (refreshCredentials _ _) as [cr|] eqn:Hcr; [|done]. simpl in Hr.
    destruct (refreshOAuthCredential _ _ _ _ _ _) as [[rev r']|] eqn:Hw; [|done]. simplify_eq/=.
    destruct (renewed_row _ _ _ _ _ _ _ _ Hw) as (-> & Hrev & (e & Hsec) & old & Hold & Holdrev). split_and!.
    + apply core_done.
      * apply core_write; [done|]. intros x Hx. simplify_eq. lia.
      * done.
      * intros s'' [= <-]. split; [|done]. eexists _, _, e. split; [|done]. simpl. apply elem_of_snoc. right. by rewrite Hrev, Hsec.
      * right. split_and!; [done| |].
        { simpl. intros [Hx|Hx]%elem_of_snoc; [|done]. destruct (i_renewed _ Hc _ _ Hx) as (x & Hx' & Hlt). simplify_eq. lia. }
        { simpl. exists r. rewrite lookup_insert_eq. split; [done|lia]. }
    + eapply extends_trans; [apply extends_write|]. eapply extends_trans; [by eapply extends_flight|apply extends_logged].
    + eapply passive_trans; [exact (passive_write (credentialId s) r b)|]. by eapply passive_snoc.
  - split_and!; [by apply core_done; [..|left]| |by eapply passive_snoc]. eapply extends_trans; [by eapply extends_flight|apply extends_logged].
Qed.
Lemma core_finally p b : core b → core (finally_ p b) ∧ extends b (finally_ p b) ∧ passive b (finally_ p b).
Proof.
  intros Hc. unfold finally_. destruct (flights b !! p) as [[s ph]|] eqn:Hp; [|split_and!; [done|apply extends_refl|apply passive_refl]].
  destruct ph as [|res|]; try (split_and!; [done|apply extends_refl|apply passive_refl]).
  pose proof Hc as [H1 H2 H3 H4 H5 H6 H7 H8 H9 H10 H11 H12 H13]. pose proof (H3 p _ Hp eq_refl) as Hreg. simpl in Hreg.
  rewrite bool_decide_eq_true_2 by done. split_and!; [| |by split].
  2:{ eapply extends_trans; [|exact (extends_flight p s (Resulted res) (Settled res) (set_refreshes _ b) Hp)]. by apply extends_same. }
  split; simpl; try done.
  - intros q f Hf. apply lookup_insert_Some in Hf as [[<- <-]|[? Hf]]; eauto.
  - intros k q Hk. apply lookup_delete_Some in Hk as [Hne Hk]. destruct (H2 k q Hk) as (f & Hf & -> & Hu).
    rewrite lookup_insert_ne; [by eauto|]. intros <-. simplify_eq.
  - intros q f Hf Hu. apply lookup_insert_Some in Hf as [[<- <-]|[Hne Hf]]; [done|]. rewrite lookup_delete_ne; [by eauto|].
    intros Heq. specialize (H3 q f Hf Hu). rewrite <-Heq, Hreg in H3. congruence.
  - intros q f Hf. apply lookup_insert_Some in Hf as [[<- <-]|[? Hf]]; [by apply (H4 _ _ Hp)|eauto].
  - intros q f s' Hf Hr. apply lookup_insert_Some in Hf as [[<- <-]|[? Hf]]; [by apply (H5 _ _ _ Hp)|eauto].
  - intros c r. rewrite (H12 c r). f_equal. unfold asking. simpl.
    destruct (decide (refreshKey s = key_of c r)) as [<-|Hne].
    + rewrite Hreg, lookup_delete_eq, Hp. done.
    + rewrite lookup_delete_ne by done. destruct (refreshes b !! key_of c r) as [q|] eqn:Hq; [|done]. rewrite lookup_insert_ne; [done|].
      intros <-. destruct (H2 _ _ Hq) as (f & Hf & Hk & _). by simplify_eq.
Qed.
Definition wait_ok (b : broker) (cid : jstring) (w : wait) : Prop :=
  match w with Rejected => True | Joined p => ∃ f, flights b !! p = Some f ∧ credentialId (fl_snapshot f) = cid end.
Lemma core_refresh s b :
  core b → known (log b) s → let '(w, b') := refreshOAuth s b in core b' ∧ extends b b' ∧ wait_ok b' (credentialId s) w ∧ passive b b'
    ∧ draining b' = draining b ∧ (draining b = true → b' = b).
Proof.
  intros Hc Hs. pose proof Hc as [H1 H2 H3 H4 H5 H6 H7 H8 H9 H10 H11 H12 H13]. unfold refreshOAuth.
  destruct (refreshes b !! refreshKey s) as [p|] eqn:Hk.
  { split_and!; try done; [apply extends_refl|]. destruct (H2 _ _ Hk) as (f & Hf & Hkf & _). exists f. split; [done|].
    by destruct (refreshKey_inj _ _ Hkf). }
  destruct (draining b) eqn:Hdr; [split_and!; try done; apply extends_refl|].
  destruct (negb _) eqn:Hrev; [split_and!; try done; apply extends_refl|]. guards.
  assert (∃ x, table b !! credentialId s = Some x ∧ oauth_secret_revision x = secretRevision s) as (x & Hx & Hxr).
  { unfold readOAuthRevision in Hrev. destruct (table b !! credentialId s) as [x|]; [|done]. simpl in Hrev. exists x.
    split; [done|]. destruct (_ && _ && _); congruence. }
  assert (Renewed (credentialId s) (secretRevision s) ∉ log b) as Hnew.
  { intros Hr. destruct (H9 _ _ Hr) as (y & Hy & Hlt). simplify_eq. lia. }
  assert (count (is_renewed (credentialId s) (secretRevision s)) (log b) = 0)%nat as Hzero.
  { unfold count. destruct (List.filter _ _) as [|a l] eqn:Hl; [done|]. exfalso.
    assert (In a (List.filter (is_renewed (credentialId s) (secretRevision s)) (log b))) as Hin by (rewrite Hl; by left).
    apply filter_In in Hin as [Hin Ha]. destruct a; try done. apply same_true in Ha as [-> ->]. by apply Hnew, list_elem_of_In. }
  assert (flights b !! next_flight b = None) as Hfresh.
  { destruct (flights b !! next_flight b) eqn:He; [|done]. specialize (H1 _ _ He). lia. }
  split_and!; try done.
  - split; simpl.
    + intros q f Hf. apply lookup_insert_Some in Hf as [[<- <-]|[? Hf]]; [lia|]. specialize (H1 _ _ Hf). lia.
    + intros k q Hq. apply lookup_insert_Some in Hq as [[<- <-]|[? Hq]].
      * rewrite lookup_insert_eq. eauto.
      * destruct (H2 _ _ Hq) as (f & Hf & ? & ?). rewrite lookup_insert_ne by congruence. eauto.
    + intros q f Hf Hu. apply lookup_insert_Some in Hf as [[<- <-]|[? Hf]]; [by rewrite lookup_insert_eq|].
      rewrite lookup_insert_ne; [by apply H3|]. intros He. specialize (H3 _ _ Hf Hu). rewrite <-He in H3. congruence.
    + intros q f Hf. apply (known_mono (log b)); [apply extends_snoc|]. apply lookup_insert_Some in Hf as [[<- <-]|[? Hf]]; [done|eauto].
    + intros q f s' Hf Hr. apply lookup_insert_Some in Hf as [[<- <-]|[? Hf]]; [done|]. destruct (H5 _ _ _ Hf Hr). split; [|done].
      eapply known_mono; [apply extends_snoc|done].
    + intros c r Hr. by apply extends_snoc, H6.
    + intros c r s' [Hw|Hw]%elem_of_snoc; [eauto|done].
    + intros c r s1 s2 [Hw|Hw]%elem_of_snoc [Hw'|Hw']%elem_of_snoc; try done. by eapply H8.
    + intros c r [Hw|Hw]%elem_of_snoc; [eauto|done].
    + by apply ordered_snoc.
    + apply spaced_snoc; [done|]. intros c r Hk'. simpl in Hk'. apply same_true in Hk' as [<- <-]. specialize (H12 (credentialId s) (secretRevision s)).
      unfold asking in H12. unfold refreshKey in Hk. rewrite Hk in H12. lia.
    + intros c r. rewrite !tally_snoc. specialize (H12 c r). unfold asking in *. simpl.
      destruct (same (credentialId s) c (secretRevision s) r) eqn:Hsame.
      * apply same_true in Hsame as [<- <-]. unfold refreshKey in *. rewrite Hk in H12. rewrite !lookup_insert_eq. simpl. lia.
      * rewrite lookup_insert_ne.
        2:{ intros He. apply (refreshKey_inj s (mkSnapshot c anthropic_oauth r (credentials s))) in He. apply not_true_iff_false in Hsame.
            apply Hsame. by apply same_true. }
        destruct (refreshes b !! key_of c r) as [q|] eqn:Hq; [|simpl; lia]. destruct (H2 _ _ Hq) as (f & Hf & _).
        rewrite lookup_insert_ne by congruence. simpl. lia.
    + intros c r t [Hk'|Hk']%elem_of_snoc.
      * destruct (H13 c r t Hk') as (a & f & e & Hw & He). exists a, f, e. split; [by apply extends_snoc|done].
      * simplify_eq. destruct Hs as (a & f & e & Hw & Ha & Hf). exists a, f, e. split; [by apply extends_snoc|done].
  - split; [intros y; apply extends_snoc|]. simpl. intros q f Hf. rewrite lookup_insert_ne by congruence. eauto.
  - simpl. rewrite lookup_insert_eq. eauto.
  - by eapply passive_snoc.
Qed.

(** *** Dispatches *)

(** How often a dispatch may still present a token. *)
Definition left (c : pc) : nat :=
  match c with
  | Preparing => 2
  | AwaitToken second _ => if second then 1 else 2
  | AwaitResponse second => if second then 0 else 1
  | AwaitForce _ => 1
  | Over _ => 0
  end.
Definition left_of (b : broker) (d : nat) : nat := match dispatches b !! d with Some x => left (d_pc x) | None => 2 end.
Definition is_over (c : pc) : bool := match c with Over _ => true | _ => false end.
(** The secret whose token is presented. *)
Definition presents (s : Secret) (t : jstring) : Prop := match s with ApiKey k => utf8_encode t = k | OAuth a _ _ => utf8_encode t = a end.
Definition source_ok (b : broker) (cid : jstring) (src : source) : Prop :=
  match src with
  | Key k => ∃ r, Wrote cid r (ApiKey (utf8_encode k)) ∈ log b
  | Grant s => credentialId s = cid ∧ known (log b) s
  end.
Definition pc_ok (b : broker) (cid : jstring) (src : source) (c : pc) : Prop :=
  match c, src with
  | AwaitToken _ (Some w), Grant _ | AwaitForce w, Grant _ => wait_ok b cid w
  | AwaitToken _ _, Key _ | AwaitForce _, Key _ => False
  | _, _ => True
  end.
Definition dispatch_ok (b : broker) (d : nat) (x : dispatch) : Prop :=
  is_over (d_pc x) = false →
  d_active x = true ∧ Authorized d (d_credential x) ∈ log b ∧ source_ok b (d_credential x) (d_source x)
  ∧ pc_ok b (d_credential x) (d_source x) (d_pc x).
Definition own (l : list action) : Prop :=
  ∀ d c t, Presented d c t ∈ l → Authorized d c ∈ l ∧ ∃ r s, Wrote c r s ∈ l ∧ presents s t.
Record inv (b : broker) : Prop := {
  i_core : core b;
  i_dispatch : ∀ d x, dispatches b !! d = Some x → dispatch_ok b d x;
  i_left : ∀ d, (count (is_presented d) (log b) + left_of b d ≤ 2)%nat;
  i_own : own (log b);
}.
Lemma wait_ok_mono b b' c w : extends b b' → wait_ok b c w → wait_ok b' c w.
Proof. intros [_ H]. destruct w as [p|]; [|done]. intros (f & Hf & Hc). destruct (H p f Hf) as (f' & Hf' & Hs). exists f'. split; [done|congruence]. Qed.
Lemma source_ok_mono b b' c src : extends b b' → source_ok b c src → source_ok b' c src.
Proof.
  intros [H _]. destruct src as [k|s]; simpl; [intros [r Hr]; eauto|]. intros [? Hk]. split; [done|]. by eapply known_mono.
Qed.
Lemma dispatch_ok_mono b b' d x : extends b b' → dispatch_ok b d x → dispatch_ok b' d x.
Proof.
  intros H Hx Ho. destruct (Hx Ho) as (Ha & Hau & Hs & Hp). split_and!; [done|by apply H|by eapply source_ok_mono|].
  unfold pc_ok in *. destruct (d_pc x) as [|second [w|]| |w|], (d_source x); try done; by eapply wait_ok_mono.
Qed.
Lemma inv_passive b b' : inv b → core b' → extends b b' → passive b b' → inv b'.
Proof.
  intros [H1 H2 H3 H4] Hc Hx [P1 P2 P3]. split; [done| | |].
  - intros d x Hd. rewrite P1 in Hd. by eapply dispatch_ok_mono; [|apply H2].
  - intros d. unfold left_of. rewrite P1, P2. apply H3.
  - intros d c t Ht. destruct (H4 d c t (P3 _ _ _ Ht)) as (Ha & r & s & Hw & Hp). split; [by apply Hx|]. exists r, s. split; [by apply Hx|done].
Qed.
Lemma inv_set d x b : inv b → dispatch_ok b d x → (left (d_pc x) ≤ left_of b d)%nat → inv (set_dispatch d x b).
Proof.
  intros [H1 H2 H3 H4] Hx Hl. split; [by eapply core_same| | |done].
  - intros d' y Hy. simpl in Hy. apply (dispatch_ok_mono b); [by apply extends_same|]. apply lookup_insert_Some in Hy as [[<- <-]|[? Hy]]; [done|by apply H2].
  - intros d'. specialize (H3 d'). unfold left_of in *. simpl. destruct (decide (d' = d)) as [->|Hne].
    + rewrite lookup_insert_eq. lia.
    + by rewrite lookup_insert_ne.
Qed.
Lemma inv_logged a b : inv b → inert a = true → (match a with Presented _ _ _ => False | _ => True end) → inv (logged a b).
Proof. intros Hi Ha Hn. eapply inv_passive; [done|apply core_inert; [apply Hi|done]|apply extends_logged|by eapply passive_snoc]. Qed.
Lemma inv_present d c t x b :
  inv b → Authorized d c ∈ log b → (∃ r s, Wrote c r s ∈ log b ∧ presents s t) → dispatch_ok b d x → (S (left (d_pc x)) ≤ left_of b d)%nat →
  inv (logged (Presented d c t) (set_dispatch d x b)).
Proof.
  intros Hi Ha (r & s & Hw & Hp) Hx Hl. pose proof (inv_set d x b Hi Hx ltac:(lia)) as [H1 H2 H3 H4]. pose proof (i_left _ Hi) as H5.
  split; [by apply core_inert| | |].
  - intros d' y Hy. eapply dispatch_ok_mono; [apply extends_logged|]. by apply H2.
  - intros d'. simpl. rewrite tally_snoc. specialize (H5 d'). specialize (H3 d'). unfold left_of in *. simpl in *. destruct (Nat.eqb_spec d d') as [<-|Hne].
    + rewrite lookup_insert_eq. lia.
    + lia.
  - intros d' c' t' [Ht|Ht]%elem_of_snoc.
    + destruct (i_own _ Hi _ _ _ Ht) as (Ha' & r' & s' & Hw' & Hp'). split; [by apply extends_snoc|]. exists r', s'. split; [by apply extends_snoc|done].
    + simplify_eq. split; [by apply extends_snoc|]. exists r, s. split; [by apply extends_snoc|done].
Qed.
Lemma inv_refresh s b :
  inv b → known (log b) s → let '(w, b') := refreshOAuth s b in inv b' ∧ extends b b' ∧ passive b b' ∧ wait_ok b' (credentialId s) w.
Proof.
  intros Hi Hs. pose proof (core_refresh s b (i_core _ Hi) Hs) as H. destruct (refreshOAuth s b) as [w b'].
  destruct H as (Hc & Hx & Hw & Hp & _). split_and!; [by eapply inv_passive|done|done|done].
Qed.
Lemma left_passive b b' d : passive b b' → left_of b' d = left_of b d.
Proof. intros [P1 _ _]. unfold left_of. by rewrite P1. Qed.

(** A dispatch with a grant it may use goes on. *)
Lemma inv_ask (second : bool) now d x s b :
  inv b → d_active x = true → Authorized d (d_credential x) ∈ log b → credentialId s = d_credential x → known (log b) s →
  ((if second then 1 else 2) ≤ left_of b d)%nat → inv (ask_token second now d x s b).
Proof.
  intros Hi Ha Hau Hc Hk Hl. unfold ask_token, getAccessToken. destruct (_ <=? now).
  - pose proof (inv_refresh s b Hi Hk) as H. destruct (refreshOAuth s b) as [w b']. destruct H as (Hi' & Hx & Hp & Hw).
    apply inv_set; [done| |rewrite (left_passive b b') by done; simpl; by destruct second]. intros _. simpl.
    split_and!; [done|by apply Hx|done|by apply (known_mono (log b)); [apply Hx|]|by rewrite <-Hc].
  - apply inv_set; [done| |simpl; by destruct second]. by intros _.
Qed.
Lemma inv_go_present (second : bool) d x s b :
  inv b → d_active x = true → Authorized d (d_credential x) ∈ log b → credentialId s = d_credential x → known (log b) s →
  ((if second then 1 else 2) ≤ left_of b d)%nat → inv (present second d x s b).
Proof.
  intros Hi Ha Hau Hc Hk Hl. unfold present. destruct (sendable s).
  - apply inv_present; [done|done| | |simpl; by destruct second].
    + destruct Hk as (a & f & e & Hw & He & _). rewrite Hc in Hw. by eexists _, _.
    + by intros _.
  - apply inv_set; [done|done|simpl; lia].
Qed.
Lemma snapshot_known c r s b : core b → table b !! c = Some r → oauthSnapshotFromRow c r = Some s → credentialId s = c ∧ known (log b) s.
Proof.
  intros Hc Hr Hs. pose proof (i_table _ Hc _ _ Hr) as Hw. unfold oauthSnapshotFromRow in Hs. destruct (_ <=? _); [|done].
  apply bind_Some in Hs as (cr & Hcr & [= <-]). unfold oauthCredentialsFromRow in Hcr. destruct (row_secret r) as [|a f e]; [done|].
  apply bind_Some in Hcr as (a' & Ha & Hcr). apply bind_Some in Hcr as (f' & Hf & Hcr). destruct (_ <=? _); [|done].
  apply bind_Some in Hcr as (i & _ & [= <-]). split; [done|]. exists a, f, e. split; [done|]. unfold secret in Ha, Hf.
  destruct (_ && _) eqn:H1 in Ha; [|done]. destruct (_ && _) eqn:H2 in Hf; [|done]. guards. by simplify_eq/=.
Qed.
Lemma secret_encodes k s : secret k = Some s → utf8_encode s = k.
Proof. unfold secret. intros H. destruct (_ && _) eqn:E; [|done]. guards. by simplify_eq. Qed.
Lemma inv_start d auth configured aborted now b : inv b → inv (start d auth configured aborted now b).
Proof.
  intros Hi. unfold start. destruct (dispatches b !! d) as [|] eqn:Hd; [done|]. destruct (draining b); [done|].
  assert (left_of b d = 2%nat) as Hl by (unfold left_of; by rewrite Hd).
  assert (∀ c o, inv (set_dispatch d (mkDispatch c (Key []) aborted true (Over o)) b)) as Hover.
  { intros c o. apply inv_set; [done|done|simpl; lia]. }
  destruct aborted; [apply Hover|]. destruct auth as [c|]; [|apply Hover]. simpl. destruct (table b !! c) as [r|] eqn:Hr; [|apply Hover]. simpl.
  pose proof (i_table _ (i_core _ Hi) _ _ Hr) as Hw.
  assert (inv (logged (Authorized d c) b)) as Hi1 by by apply inv_logged.
  assert (Authorized d c ∈ log (logged (Authorized d c) b)) as Hau by (apply elem_of_snoc; by right).
  assert (∀ s, oauthSnapshotFromRow c r = Some s → credentialId s = c ∧ known (log (logged (Authorized d c) b)) s) as Hs.
  { intros s Hs. destruct (snapshot_known _ _ _ _ (i_core _ Hi) Hr Hs). split; [done|]. eapply known_mono; [apply extends_snoc|done]. }
  destruct (provider_type r) eqn:Hty, (row_secret r) as [k|a f e] eqn:Hsec; try apply Hover.
  - destruct (secret k) as [key|] eqn:Hk; [|apply Hover]. destruct configured; [|apply Hover].
    apply inv_set; [done| |simpl; unfold left_of in *; simpl; lia]. intros _. split_and!; [done|done| |done]. simpl.
    exists (oauth_secret_revision r). rewrite (secret_encodes _ _ Hk). by apply extends_snoc.
  - destruct (oauthSnapshotFromRow c r) as [s|]; [|apply Hover]. destruct (Hs s eq_refl). destruct configured; [|apply Hover]. simpl.
    apply inv_ask; try done. unfold left_of in *. simpl. lia.
  - destruct (oauthSnapshotFromRow c r) as [s|]; [|apply Hover]. destruct (Hs s eq_refl). destruct configured; [|apply Hover]. simpl.
    apply inv_set; [done| |unfold left_of in *; simpl; lia]. by intros _.
Qed.
Lemma awaited_known w b c s : core b → wait_ok b c w → awaited w b = Some (Some s) → credentialId s = c ∧ known (log b) s.
Proof.
  intros Hc Hw Ha. destruct w as [p|]; [|done]. simpl in Ha. destruct Hw as (f & Hf & Hcid). rewrite Hf in Ha.
  destruct f as [s0 ph]. destruct ph as [| |r]; try done. simplify_eq/=. destruct (i_result _ Hc _ _ s Hf eq_refl). simpl in *. split; [congruence|done].
Qed.
Lemma inv_resume d now b : inv b → inv (resume d now b).
Proof.
  intros Hi. unfold resume. destruct (dispatches b !! d) as [x|] eqn:Hd; [|done].
  assert (left_of b d = left (d_pc x)) as Hl by (unfold left_of; by rewrite Hd). pose proof (i_dispatch _ Hi d x Hd) as Hx. unfold dispatch_ok in Hx.
  assert (∀ src o, inv (set_dispatch d (go_on x src (Over o)) b)) as Hover by (intros src o; apply inv_set; [done|done|simpl; lia]).
  destruct (d_pc x) as [|second [w|]| |w|]; try done; destruct (Hx eq_refl) as (Ha & Hau & Hs & Hp);
    destruct (d_source x) as [k|s]; try done; simpl in *.
  - destruct (header_ok k); [|apply Hover]. destruct Hs as [r Hw]. apply inv_present; [done|done| | |simpl; lia].
    + by eexists _, _.
    + intros _. split_and!; try done. by exists r.
  - destruct Hs. apply inv_ask; try done. lia.
  - destruct (awaited w b) as [[s'|]|] eqn:Haw; [|apply Hover|done]. destruct (awaited_known _ _ _ _ (i_core _ Hi) Hp Haw).
    apply inv_go_present; try done. by rewrite Hl.
  - destruct Hs. apply inv_go_present; try done. by rewrite Hl.
  - destruct (awaited w b) as [[s'|]|] eqn:Haw; [|apply Hover|done]. destruct (awaited_known _ _ _ _ (i_core _ Hi) Hp Haw).
    apply inv_ask; try done. lia.
Qed.
Lemma inv_respond d status b : inv b → inv (respond d status b).
Proof.
  intros Hi. unfold respond. destruct (dispatches b !! d) as [x|] eqn:Hd; [|done].
  assert (left_of b d = left (d_pc x)) as Hl by (unfold left_of; by rewrite Hd). pose proof (i_dispatch _ Hi d x Hd) as Hx. unfold dispatch_ok in Hx.
  assert (∀ src o, inv (set_dispatch d (go_on x src (Over o)) b)) as Hover by (intros src o; apply inv_set; [done|done|simpl; lia]).
  destruct (d_pc x) as [| |second| |]; try done. destruct (Hx eq_refl) as (Ha & Hau & Hs & _).
  destruct status as [st|]; [|apply Hover]. destruct (d_source x) as [k|s]; [apply Hover|]. destruct (negb second && _) eqn:H1; [|apply Hover].
  destruct (d_aborted x); [apply Hover|]. guards. subst second. destruct Hs as [Hc Hk].
  pose proof (inv_refresh s b Hi Hk) as H'. destruct (refreshOAuth s b) as [w b']. destruct H' as (Hi' & Hxx & Hp & Hw).
  apply inv_set; [done| |rewrite (left_passive b b') by done; simpl in *; lia]. intros _. simpl.
  split_and!; [done|by apply Hxx|done|by apply (known_mono (log b)); [apply Hxx|]|by rewrite <-Hc].
Qed.
Lemma inv_abort d b : inv b → inv (abort d b).
Proof.
  intros Hi. unfold abort. destruct (dispatches b !! d) as [x|] eqn:Hd; [|done].
  assert (left_of b d = left (d_pc x)) as Hl by (unfold left_of; by rewrite Hd). pose proof (i_dispatch _ Hi d x Hd) as Hx. unfold dispatch_ok in Hx.
  apply inv_set; [done| |destruct (d_pc x); simpl in *; lia]. intros Ho. simpl in Ho. destruct (d_pc x) as [| |second| |]; try done.
  destruct (Hx eq_refl) as (Ha & Hau & Hs & _). by split_and!.
Qed.
Lemma inv_unlist d b : inv b → inv (unlist d b).
Proof.
  intros Hi. unfold unlist. destruct (dispatches b !! d) as [x|] eqn:Hd; [|done].
  destruct (d_pc x); try done. apply inv_set; [done|done|simpl; lia].
Qed.
Lemma inv_step b e : inv b → inv (step b e).
Proof.
  intros Hi. pose proof (i_core _ Hi) as Hc. destruct e as [c r|d auth cf ab now|d now|d st|d|d|p fr at_ cm|p|]; simpl.
  - destruct (admits (table b) c r) eqn:Ha; [|done]. eapply inv_passive; [done| |apply extends_write|apply passive_write].
    apply core_write; [done|]. intros x Hx. unfold admits in Ha. rewrite Hx in Ha. guards. lia.
  - by apply inv_start.
  - by apply inv_resume.
  - by apply inv_respond.
  - by apply inv_abort.
  - by apply inv_unlist.
  - destruct (core_reply p fr at_ cm b Hc) as (? & ? & ?). by eapply inv_passive.
  - destruct (core_finally p b Hc) as (? & ? & ?). by eapply inv_passive.
  - eapply inv_passive; [done|by eapply core_same|by apply extends_same|by split].
Qed.
Lemma inv_run es : inv (run es).
Proof.
  unfold run. assert (inv new_broker) as Hn.
  { split; [|done|intros d; unfold left_of; simpl; rewrite lookup_empty; done|by intros d c t Ht%not_elem_of_nil]. split; try done.
    - by intros c r s Ht%not_elem_of_nil.
    - by intros c r s s' Ht%not_elem_of_nil.
    - by intros c r Ht%not_elem_of_nil.
    - intros l1 a0 l2 Hl. by destruct l1.
    - intros l1 c r ->%prefix_nil_inv. unfold count. simpl. lia.
    - by intros c r t Ht%not_elem_of_nil. }
  revert Hn. generalize new_broker. induction es as [|e es IH]; intros b Hb; [done|]. simpl. by apply IH, inv_step.
Qed.

(** ** Draining *)

(** What is left to do, in steps. *)
Definition steps_left (x : dispatch) : nat :=
  match d_pc x with
  | Preparing => 7
  | AwaitToken second _ => if second then 3 else 6
  | AwaitResponse second => if second then 2 else 5
  | AwaitForce _ => 4
  | Over _ => if d_active x then 1 else 0
  end.
Definition flight_left (f : flight) : nat := match fl_phase f with Asking => 2 | Resulted _ => 1 | Settled _ => 0 end.
Definition total {K} `{Countable K} {A} (w : A → nat) (m : gmap K A) : nat := sum_list_with (λ kx, w kx.2) (map_to_list m).
Definition work (b : broker) : nat := (total steps_left (dispatches b) + total flight_left (flights b))%nat.

Section totals.
Context `{Countable K} {A : Type} (w : A → nat).
Implicit Types (m : gmap K A).
Lemma total_insert_new m k x : m !! k = None → total w (<[k:=x]> m) = (w x + total w m)%nat.
Proof. intros Hk. unfold total. by rewrite map_to_list_insert by done. Qed.
Lemma total_insert m k x y : m !! k = Some y → (total w (<[k:=x]> m) + w y = w x + total w m)%nat.
Proof.
  intros Hk. rewrite <-(insert_delete_id m k y Hk) at 2. rewrite <-(insert_delete_eq m k x).
  rewrite !total_insert_new by apply lookup_delete_eq. lia.
Qed.
End totals.
Lemma work_set d x y b : dispatches b !! d = Some x → (work (set_dispatch d y b) + steps_left x = work b + steps_left y)%nat.
Proof. intros Hd. unfold work. simpl. pose proof (total_insert steps_left _ _ y _ Hd). lia. Qed.
Lemma work_flight p f g b : flights b !! p = Some f → (work (set_flight p g b) + flight_left f = work b + flight_left g)%nat.
Proof. intros Hp. unfold work. simpl. pose proof (total_insert flight_left _ _ g _ Hp). lia. Qed.
(** Events that the tasks of the broker and its providers owe. *)
Definition due (b : broker) (e : event) : bool :=
  match e with
  | Resume d _ =>
      match dispatches b !! d with
      | Some x =>
          match d_pc x with
          | Preparing | AwaitToken _ None => true
          | AwaitToken _ (Some w) | AwaitForce w => match awaited w b with Some _ => true | None => false end
          | _ => false
          end
      | None => false
      end
  | Respond d _ => match dispatches b !! d with Some x => match d_pc x with AwaitResponse _ => true | _ => false end | None => false end
  | Unlist d => match dispatches b !! d with Some x => is_over (d_pc x) && d_active x | None => false end
  | Reply p _ _ _ => match flights b !! p with Some f => is_asking f | None => false end
  | Finally p => match flights b !! p with Some f => unsettled f && negb (is_asking f) | None => false end
  | _ => false
  end.
Definition drains (b b' : broker) (due : bool) : Prop := draining b' = true ∧ (work b' + (if due then 1 else 0) ≤ work b)%nat.
Lemma drains_idle b : draining b = true → drains b b false.
Proof. split; [done|lia]. Qed.
Lemma drains_set d x y b : draining b = true → dispatches b !! d = Some x → (steps_left y < steps_left x)%nat → drains b (set_dispatch d y b) true.
Proof. intros Hd Hx Hl. split; [done|]. pose proof (work_set d x y b Hx). lia. Qed.
Lemma drains_ask second now d x s b :
  draining b = true → core b → known (log b) s → dispatches b !! d = Some x → ((if second : bool then 3 else 6) < steps_left x)%nat →
  drains b (ask_token second now d x s b) true.
Proof.
  intros Hd Hc Hs Hx Hl. unfold ask_token, getAccessToken. destruct (_ <=? now).
  - pose proof (core_refresh s b Hc Hs) as H. destruct (refreshOAuth s b) as [w b']. destruct H as (_ & _ & _ & _ & _ & H). rewrite (H Hd).
    eapply drains_set; [done|done|]. simpl. done.
  - eapply drains_set; [done|done|]. done.
Qed.
Lemma drains_present second d x s b :
  draining b = true → dispatches b !! d = Some x → steps_left x = (if second : bool then 3 else 6)%nat → drains b (present second d x s b) true.
Proof.
  intros Hd Hx Hl. unfold present. destruct (sendable s).
  - change (drains b (set_dispatch d (go_on x (Grant s) (AwaitResponse second)) b) true). eapply drains_set; [done|done|]. rewrite Hl. unfold steps_left. simpl. destruct second; lia.
  - eapply drains_set; [done|done|]. rewrite Hl. unfold steps_left. simpl. destruct second, (d_active x); lia.
Qed.
Lemma drains_resume d now b : inv b → draining b = true → drains b (resume d now b) (due b (Resume d now)).
Proof.
  intros Hi Hdr. unfold resume. simpl. destruct (dispatches b !! d) as [x|] eqn:Hd; [|by apply drains_idle].
  pose proof (i_dispatch _ Hi d x Hd) as Hx. unfold dispatch_ok in Hx.
  assert (∀ src o, (1 < steps_left x)%nat → drains b (set_dispatch d (go_on x src (Over o)) b) true) as Hover.
  { intros src o Hl. eapply drains_set; [done|done|]. unfold steps_left at 1. simpl. destruct (d_active x); lia. }
  destruct (d_pc x) as [|second [w|]| |w|] eqn:Hpc; try (by destruct (d_source x); apply drains_idle);
    destruct (Hx eq_refl) as (Ha & _ & Hs & Hp); destruct (d_source x) as [k|s]; try done; simpl in *.
  - assert (steps_left x = 7%nat) as Hl by (unfold steps_left; by rewrite Hpc).
    destruct (header_ok k); [|apply Hover; lia]. change (drains b (set_dispatch d (go_on x (Key k) (AwaitResponse false)) b) true).
    eapply drains_set; [done|done|]. rewrite Hl. unfold steps_left. simpl. lia.
  - apply drains_ask; [done|apply Hi|apply Hs|done|]. unfold steps_left. rewrite Hpc. lia.
  - destruct (awaited w b) as [[s'|]|]; [| |by apply drains_idle].
    + apply drains_present; [done|done|]. unfold steps_left. by rewrite Hpc.
    + apply Hover. unfold steps_left. rewrite Hpc. destruct second; lia.
  - apply drains_present; [done|done|]. unfold steps_left. by rewrite Hpc.
  - destruct (awaited w b) as [[s'|]|] eqn:Haw; [| |by apply drains_idle].
    + apply drains_ask; [done|apply Hi|by apply (awaited_known _ _ _ _ (i_core _ Hi) Hp Haw)|done|]. unfold steps_left. rewrite Hpc. lia.
    + apply Hover. unfold steps_left. rewrite Hpc. lia.
Qed.
Lemma drains_respond d status b : inv b → draining b = true → drains b (respond d status b) (due b (Respond d status)).
Proof.
  intros Hi Hdr. unfold respond. simpl. destruct (dispatches b !! d) as [x|] eqn:Hd; [|by apply drains_idle].
  pose proof (i_dispatch _ Hi d x Hd) as Hx. unfold dispatch_ok in Hx.
  destruct (d_pc x) as [| |second| |] eqn:Hpc; try (by apply drains_idle). destruct (Hx eq_refl) as (Ha & _ & Hs & _).
  assert (steps_left x = if second then 2 else 5)%nat as Hl by (unfold steps_left; by rewrite Hpc).
  assert (∀ src o, drains b (set_dispatch d (go_on x src (Over o)) b) true) as Hover.
  { intros src o. eapply drains_set; [done|done|]. rewrite Hl. unfold steps_left. simpl. destruct second, (d_active x); lia. }
  destruct status as [st|]; [|apply Hover]. destruct (d_source x) as [k|s]; [apply Hover|]. destruct (negb second && _) eqn:H1; [|apply Hover].
  destruct (d_aborted x); [apply Hover|]. guards. subst second. pose proof (core_refresh s b (i_core _ Hi) (proj2 Hs)) as H'.
  destruct (refreshOAuth s b) as [w b']. destruct H' as (_ & _ & _ & _ & _ & H'). rewrite (H' Hdr).
  eapply drains_set; [done|done|]. rewrite Hl. unfold steps_left. simpl. lia.
Qed.
Lemma drains_unlist d b : draining b = true → drains b (unlist d b) (due b (Unlist d)).
Proof.
  intros Hdr. unfold unlist. simpl. destruct (dispatches b !! d) as [x|] eqn:Hd; [|by apply drains_idle].
  destruct (d_pc x) eqn:Hpc; try (by apply drains_idle). simpl. split; [done|].
  pose proof (work_set d x (mkDispatch (d_credential x) (d_source x) (d_aborted x) false (Over o)) b Hd) as H. unfold steps_left in H. simpl in H.
  rewrite Hpc in H. destruct (d_active x); lia.
Qed.
Lemma drains_abort d b : draining b = true → drains b (abort d b) false.
Proof.
  intros Hdr. unfold abort. destruct (dispatches b !! d) as [x|] eqn:Hd; [|by apply drains_idle]. split; [done|].
  match goal with |- context [set_dispatch d ?y b] => pose proof (work_set d x y b Hd) as H; assert (steps_left y ≤ steps_left x)%nat as Hle end.
  { unfold steps_left. simpl. destruct (d_pc x) as [|[]|[]| |]; simpl; try lia; destruct (d_active x); lia. }
  lia.
Qed.
Lemma drains_reply p fr at_ cm b : draining b = true → drains b (reply p fr at_ cm b) (due b (Reply p fr at_ cm)).
Proof.
  intros Hdr. unfold reply. simpl. destruct (flights b !! p) as [[s ph]|] eqn:Hp; [|by apply drains_idle].
  destruct ph; try (by apply drains_idle). cbn [is_asking fl_phase].
  destruct (fr ≫= _) as [[r s']|]; (split; [done|]).
  - pose proof (work_flight p _ (mkFlight s (Resulted (Some s'))) b Hp) as H. unfold flight_left, work in *. simpl in *. lia.
  - pose proof (work_flight p _ (mkFlight s (Resulted None)) b Hp) as H. unfold flight_left, work in *. simpl in *. lia.
Qed.
Lemma drains_finally p b : draining b = true → drains b (finally_ p b) (due b (Finally p)).
Proof.
  intros Hdr. unfold finally_. simpl. destruct (flights b !! p) as [[s ph]|] eqn:Hp; [|by apply drains_idle].
  destruct ph as [|r|]; try (by apply drains_idle). simpl. pose proof (work_flight p _ (mkFlight s (Settled r)) b Hp) as H.
  split; [by destruct (bool_decide _)|]. unfold flight_left, work in *. destruct (bool_decide _); simpl in *; lia.
Qed.
Lemma drains_step b e : inv b → draining b = true → drains b (step b e) (due b e).
Proof.
  intros Hi Hd. destruct e as [c r|d auth cf ab now|d now|d st|d|d|p fr at_ cm|p|]; simpl.
  - destruct (admits _ _ _); [|by apply drains_idle]. split; [done|]. unfold work. simpl. lia.
  - unfold start. destruct (dispatches b !! d); [by apply drains_idle|]. rewrite Hd. by apply drains_idle.
  - by apply drains_resume.
  - by apply drains_respond.
  - by apply drains_abort.
  - by apply drains_unlist.
  - by apply drains_reply.
  - by apply drains_finally.
  - split; [done|]. unfold work. simpl. lia.
Qed.
Lemma waits_due b w c : (∀ e, due b e = false) → wait_ok b c w → awaited w b ≠ None.
Proof.
  intros Hn Hw. destruct w as [p|]; [|done]. destruct Hw as (f & Hf & _). pose proof (Hn (Reply p None None false)) as H1. pose proof (Hn (Finally p)) as H2.
  simpl in *. rewrite Hf in *. destruct f as [s [| |]]; done.
Qed.
Lemma nothing_due b : inv b → (∀ e, due b e = false) → drained b.
Proof.
  intros Hi Hn. split.
  - intros d x Hd. pose proof (Hn (Unlist d)) as H1. pose proof (Hn (Resume d 0)) as H2. pose proof (Hn (Respond d None)) as H3. simpl in *. rewrite Hd in *.
    pose proof (i_dispatch _ Hi d x Hd) as Hx. unfold dispatch_ok in Hx.
    destruct (d_pc x) as [|second [w|]|second|w|o]; try done; destruct (Hx eq_refl) as (_ & _ & _ & Hp);
      destruct (d_source x); try done; pose proof (waits_due b w _ Hn Hp); by destruct (awaited w b).
  - apply map_empty. intros k. destruct (refreshes b !! k) as [p|] eqn:Hk; [|done]. exfalso.
    destruct (i_reg _ (i_core _ Hi) _ _ Hk) as (f & Hf & _ & Hu). pose proof (Hn (Reply p None None false)) as H1. pose proof (Hn (Finally p)) as H2.
    simpl in *. rewrite Hf in *. rewrite Hu in H2. simpl in H2. by destruct (is_asking f).
Qed.

(** How many of the events of a run are due. *)
Fixpoint dues (b : broker) (es : list event) : nat :=
  match es with [] => 0 | e :: es => (if due b e then 1 else 0) + dues (step b e) es end.
Lemma drains_all b es : inv b → draining b = true → inv (foldl step b es) ∧ draining (foldl step b es) = true ∧ (work (foldl step b es) + dues b es ≤ work b)%nat.
Proof.
  revert b. induction es as [|e es IH]; intros b Hi Hd; simpl; [split_and!; [done|done|lia]|].
  destruct (drains_step b e Hi Hd) as [Hd' Hw]. destruct (IH (step b e) (inv_step _ _ Hi) Hd') as (? & ? & ?). split_and!; [done|done|lia].
Qed.
Lemma drained_stays b e : inv b → draining b = true → drained b → drained (step b e).
Proof.
  intros Hi Hdr Hb. pose proof Hb as [Hd Hr]. pose proof (i_core _ Hi) as Hc.
  assert (∀ p f, flights b !! p = Some f → unsettled f = false) as Hset.
  { intros p f Hf. destruct (unsettled f) eqn:Hu; [|done]. pose proof (i_pend _ Hc p f Hf Hu) as Hk. by rewrite Hr, lookup_empty in Hk. }
  assert (∀ d x, dispatches b !! d = Some x → is_over (d_pc x) = true) as Hover.
  { intros d x Hx. destruct (is_over (d_pc x)) eqn:Ho; [done|]. destruct (i_dispatch _ Hi d x Hx Ho) as (Ha & _). rewrite (Hd d x Hx) in Ha. done. }
  assert (∀ d x y, dispatches b !! d = Some x → d_active y = false → drained (set_dispatch d y b)) as Hput.
  { intros d x y Hx Hy. split; [|done]. intros d' z Hz. simpl in Hz. apply lookup_insert_Some in Hz as [[<- <-]|[? Hz]]; [done|by eapply Hd]. }
  destruct e as [c r|d auth cf ab now|d now|d st|d|d|p fr at_ cm|p|]; simpl.
  - destruct (admits _ _ _); by split.
  - unfold start. destruct (dispatches b !! d); [by split|]. rewrite Hdr. by split.
  - unfold resume. destruct (dispatches b !! d) as [x|] eqn:Hx; [|by split]. specialize (Hover d x Hx). destruct (d_pc x); done.
  - unfold respond. destruct (dispatches b !! d) as [x|] eqn:Hx; [|by split]. specialize (Hover d x Hx). destruct (d_pc x); done.
  - unfold abort. destruct (dispatches b !! d) as [x|] eqn:Hx; [|by split]. apply (Hput d x); [done|]. exact (Hd d x Hx).
  - unfold unlist. destruct (dispatches b !! d) as [x|] eqn:Hx; [|by split]. destruct (d_pc x); try done. by apply (Hput d x).
  - unfold reply. destruct (flights b !! p) as [[s [| |]]|] eqn:Hf; try done. by specialize (Hset _ _ Hf).
  - unfold finally_. destruct (flights b !! p) as [[s [| |]]|] eqn:Hf; try done. by specialize (Hset _ _ Hf).
  - by split.
Qed.

(** C31. Grants are renewed once and used by their own: however dispatches, refreshes,
    aborts and writes of other connections interleave, the refresh token of a revision of
    a grant is handed to the provider again only when the attempt before it has failed,
    and never once that revision was renewed; what is handed out is the refresh token the
    table held at that revision, of which there is one.  A dispatch presents only a key
    or an access token that the table held for the credential its request was authorized
    for, and at most twice. *)
Theorem grants_renewed_once es :
  let l := log (run es) in
  (∀ l1 c r, l1 `prefix_of` l → (count (is_asked c r) l1 ≤ count (is_fell c r) l1 + 1)%nat)
  ∧ (∀ l1 l2 c r t, l = l1 ++ Asked c r t :: l2 → Renewed c r ∉ l1)
  ∧ (∀ c r t, Asked c r t ∈ l → ∃ a e, Wrote c r (OAuth a (utf8_encode t) e) ∈ l)
  ∧ (∀ c r s s', Wrote c r s ∈ l → Wrote c r s' ∈ l → s = s')
  ∧ (∀ d c t, Presented d c t ∈ l → Authorized d c ∈ l ∧ ∃ r s, Wrote c r s ∈ l ∧ presents s t)
  ∧ (∀ d, count (is_presented d) l ≤ 2)%nat.
Proof.
  intros l. destruct (inv_run es) as [[H1 H2 H3 H4 H5 H6 H7 H8 H9 H10 H11 H12 H13] _ Hl Ho]. split_and!; [done| | |done|done|].
  - intros l1 l2 c r t Hl'. exact (H10 _ _ _ Hl').
  - intros c r t Ht. destruct (H13 c r t Ht) as (a & f & e & Hw & <-). eauto.
  - intros d. specialize (Hl d). unfold l. lia.
Qed.

(** C32. Draining ends: once [drain] was called, no event adds work, each step that a
    task of the broker or a provider owes takes some away, so that only a bounded number
    of them can follow, whatever else happens, the results they bring and aborts
    included; when no step is owed any more, no dispatch is active and no refresh under
    way, and it stays so. *)
Theorem drain_completes es es' (Hdrain : draining (run es) = true) :
  let b := foldl step (run es) es' in
  draining b = true ∧ (work b + dues (run es) es' ≤ work (run es))%nat
  ∧ ((∀ e, due b e = false) → drained b)
  ∧ (drained b → ∀ e, drained (step b e)).
Proof.
  intros b. destruct (drains_all (run es) es' (inv_run es) Hdrain) as (Hi & Hd & Hw). fold b in Hi, Hd, Hw.
  split_and!; [done|done|by apply nothing_due|]. intros Hb e. by apply drained_stays.
Qed.

(** Two dispatches share a grant that is about to expire, and the broker is drained: one
    refresh serves both; the 401 that one of them gets is handed on, since no refresh
    may begin any more. *)
Definition ex_cid : jstring := lit "epc1.AAAAAAAAAAAAAAAAAAAAAA".
Definition ex_row : row :=
  mkRow anthropic_oauth (JObj [("accountId", JStr "acct"); ("email", JNull)]) (OAuth (lit "old") (lit "refresh-1") 100000) 0 5.
Definition ex_fresh : OAuthCredentials :=
  mkCredentials (lit "new") (lit "refresh-2") 9000000 (mkIdentity (Some "acct") None None None None).
Definition ex_before : list event :=
  [Write ex_cid ex_row; Start 0 (Some ex_cid) true false 90000; Start 1 (Some ex_cid) true false 90000; Drain].
Definition ex_after : list event :=
  [Resume 0 90000; Reply 0 (Some ex_fresh) (Some 7) true; Finally 0; Resume 0 90001; Resume 1 90001; Respond 0 (Some 200); Unlist 0;
   Respond 1 (Some 401); Resume 1 90002; Unlist 1].
Lemma grants_renewed_once_witness :
  log (run (ex_before ++ ex_after)) =
    [Wrote ex_cid 0 (row_secret ex_row); Authorized 0 ex_cid; Asked ex_cid 0 (lit "refresh-1"); Authorized 1 ex_cid;
     Wrote ex_cid 1 (OAuth (lit "new") (lit "refresh-2") 9000000); Renewed ex_cid 0;
     Presented 0 ex_cid (lit "new"); Presented 1 ex_cid (lit "new")]
  ∧ Renewed ex_cid 0 ∉ take 2 (log (run (ex_before ++ ex_after))).
Proof.
  split; [vm_compute; reflexivity|].
  apply (proj1 (proj2 (grants_renewed_once (ex_before ++ ex_after))) _ (drop 3 (log (run (ex_before ++ ex_after)))) _ _ (lit "refresh-1")).
  vm_compute. reflexivity.
Defined.
Lemma drain_completes_witness :
  drained (foldl step (run ex_before) ex_after) ∧ work (run ex_before) = 14%nat ∧ dues (run ex_before) ex_after = 9%nat
  ∧ (work (foldl step (run ex_before) ex_after) + dues (run ex_before) ex_after ≤ work (run ex_before))%nat.
Proof.
  split_and!; [|vm_compute; reflexivity|vm_compute; reflexivity|apply (drain_completes ex_before ex_after); reflexivity].
  split; [|vm_compute; reflexivity]. intros d x Hd.
  assert (map_Forall (λ _ x, d_active x = false) (dispatches (foldl step (run ex_before) ex_after))) as H.
  { apply (bool_decide_unpack _). vm_compute. exact I. }
  exact (H d x Hd).
Defined.
